(* ===== verification/_CoqProject ===== *)
-Q . S2P
Prelude.v
Order.v
SolverBase.v
KeptGraph.v
KeptGraphSpec.v
Lattice.v
Monotone.v
MonotoneSpec.v
KeptSolver.v
Handoff.v
SolverTheorems.v
KeyedFold.v
KeyedFoldSpec.v
KeyedFoldTheorems.v
Text.v
Vocabulary.v
Releases.v
ReleasesSpec.v
ReleasesTheorems.v
Exports.v
Solid2.v
DialectSpec.v
DialectTheorems.v
Reachability.v
ReachabilitySpec.v
ReachabilityScc.v
ReachabilityComponents.v
ReachabilityTheorems.v
RoundReplay.v
RoundReplaySpec.v
RoundReplayTheorems.v
Published.v
PublishedTheorems.v
MemoGraph.v
MemoGraphSpec.v
Memo.v
MemoSpec.v
MemoAnswer.v
MemoBuild.v
MemoSweep.v
MemoTotal.v
MemoTheorems.v
WireInt.v
WireIntSpec.v
WireStr.v
WireFacts.v
WireWriter.v
WireDecode.v
WireRows.v
WireValues.v
WireEntitySpec.v
WireFrame.v
PackedIndex.v
PackedIndexSpec.v
ProducerTable.v
WirePlan.v
RetainedTable.v
RetainedTableSpec.v
RetainedDelta.v
SessionTable.v
SessionTableSpec.v
WirePlanSpec.v
PlanRefinement.v
DeltaRefinement.v
CompactDemands.v
CompactSpec.v
WireSamples.v
WireTheorems.v
TableTheorems.v
FileTable.v
BaseIndex.v
RetainedBase.v
BaseSpec.v
BaseTheorems.v
Reads.v
ReadsSpec.v
ReadsTheorems.v
Suppression.v
SuppressionSpec.v
SuppressionTheorems.v
