(* ===== verification/Prelude.v ===== *)
(** * Solid checker: a verified core

    This development models the parts of solid-checker ([src/rust/crates])
    that decide its answers without reading syntax: the incremental library
    of the reactive-IR crate ([solid-reactive-ir/src/base]), the call counting
    that uses it, the dialect crate ([solid-dialect]) that says what each
    Solid release means, the wire that carries TypeScript facts to the
    checker ([typefacts]), and the comments that suppress its findings
    ([solid-facts], [solid-facts-backend]). This header maps the files to the
    code, says what the theorems show, and what is left out.

    ** The program

    A run reads a project's TypeScript facts, then answers questions about
    them: which calls run when, what escapes, which rule a place breaks. A
    build after an edit must give the answers of a run from scratch while
    recomputing little. These layers make that so:
    - the wire ([typefacts]) brings facts from the process that runs the
      compiler. The client sends demands in a compact form; the producer
      answers with a transition, full or a delta against the table it sent
      last, packed in a frame; the session decodes, checks and applies it to
      the table it retains, and reports what changed;
    - the base indexes ([base.rs], [base/index.rs]) hold what each file of the
      build contributes, keyed and in file order, over a table of the files;
      an edit replaces the contributions of the files that moved and reports
      the keys it moved;
    - the recorded reads ([base/reads.rs]) say what a stage chunk read of the
      project's facts and memo answers; a chunk whose reads have not moved is
      not run again;
    - the memo store ([base/memo.rs]) keeps answers per key with the reads
      they were computed from; [begin] pushes the inputs that changed, a read
      verifies or recomputes, [end] drops what the build did not use;
    - the kept solvers ([base/fixpoint/]) keep the solution of a whole-program
      equation system: K1 folds rows per key, K2 joins over a lattice, K3
      replays a bounded Jacobi loop; a pass publishes a solution in a derived
      table ([Published]), which memo computations read by revision;
    - the dialect answers, for the installed releases, what a name is and how
      a callback runs; it keeps no state;
    - the suppression comments of a file are read with its syntax, and a run
      removes the findings they cover before it reports.

    ** Files and code

    Shared: [Prelude] (vectors, [u32], list lemmas, tactics and hints), [Order]
    ([Ord::cmp], sorting, [dedup]), [Text] (the [str] operations used).

    Kept solvers, [base/fixpoint.rs] and [base/fixpoint/]:
    - [SolverBase]: the slot index [DenseIndex], [Solved] and [FileOrder];
    - [KeptGraph], [KeptGraphSpec]: [graph.rs], and that it is a finite map of
      definitions with exact readers;
    - [Lattice], [Monotone], [MonotoneSpec]: [monotone.rs], its lattice class
      and the least-solution theory it is measured against;
    - [KeptSolver]: [kept.rs]; [Handoff]: the production user of K2,
      [accessor_provenance.rs] and [resolver_index.rs]; [SolverTheorems];
    - [KeyedFold], [KeyedFoldSpec], [KeyedFoldTheorems]: [fold.rs];
    - [RoundReplay], [RoundReplaySpec], [RoundReplayTheorems]: [rounds.rs];
    - [Published], [PublishedTheorems]: [Published] and the sharded derived
      table of [base/memo/derived.rs].

    Memo store, [base/memo.rs]:
    - [MemoGraph], [MemoGraphSpec]: the read graph, its packed edges and the
      batched reverse map;
    - [Memo]: the store's operations; [MemoSpec]: evaluation from scratch, the
      invariant [store_ok] and the steps that keep it; [MemoAnswer]: so does
      an answer; [MemoBuild]: so does a build's start, for the new inputs;
      [MemoSweep]: and its end; [MemoTotal]: every key that evaluates is
      answered; [MemoTheorems].

    Base tables, [base.rs] and [base/]:
    - [FileTable]: [file_table.rs], the paths by id and the files by slot;
    - [BaseIndex]: [index.rs], one index of contributions; [RetainedBase]:
      [base.rs] and [retained.rs], all of them, and the shadow check that
      compares an updated base with a refold;
    - [BaseSpec]: an index in order is a function of its contributions;
      [BaseTheorems];
    - [Reads]: [reads.rs], the read sets, the recording frames of the thread,
      the caches that replay a computation's reads, and the verdict on a
      record; [ReadsSpec]: a chunk as a program over the recording, with its
      meaning; [ReadsTheorems].

    Call counting, [reachability.rs]: [Reachability] with [ReachabilitySpec],
    [ReachabilityScc], [ReachabilityComponents] and [ReachabilityTheorems].

    Dialect, [solid-dialect/src]: [Vocabulary] (one module per enum),
    [Releases], [ReleasesSpec], [ReleasesTheorems] ([solid_2/releases.rs]),
    [Exports] ([exports/]), [Solid2] ([solid_2.rs], one definition per
    method), [DialectSpec], [DialectTheorems].

    Wire, [typefacts/src]:
    - [WireInt], [WireStr], [WireFacts]: the packed integers of [v3.rs], UTF-8
      strings and digests, and the rows of [lib.rs] with their equality;
      [WireIntSpec]: what an encoding is and when a reader reads it back;
    - [WireWriter], [WireRows]: [producer/writer.rs], [producer/rows.rs] and
      the frame of [producer/encoder.rs]; [WireDecode]: [v3.rs], from bytes to
      a transition; [WireValues], [WireEntitySpec], [WireFrame]: what each
      writer's bytes read back as, row by row, then the frame, and the writer
      with a sink, in step with the one without;
    - [PackedIndex], [PackedIndexSpec]: the row index of [retained_table.rs];
      [RetainedTable], [RetainedTableSpec], [RetainedDelta]: the table, its
      invariant [table_ok], a delta on it, what a decoded transition promises,
      and that the decoder does not panic; [SessionTable],
      [SessionTableSpec]: acceptance in [session.rs] and symbol merges;
    - [ProducerTable], [WirePlan]: [producer/table.rs], [producer/plan.rs] and
      the encoder; [WirePlanSpec], [PlanRefinement],
      [DeltaRefinement]: each planner takes a client's table to the target,
      and its plan is one the decoder accepts;
    - [CompactDemands], [CompactSpec]: [compact_demands] of [v3.rs] and
      [producer/compact.rs];
    - [WireSamples] (concrete frames and tables), [WireTheorems],
      [TableTheorems].

    Suppression comments, [solid-facts/src/ast/suppression.rs],
    [solid-facts-backend/src/suppression.rs] and the name tables of its
    [dialect.rs]: [Suppression]; [SuppressionSpec]: the grammar as relations
    and a comment's effect on a finding; [SuppressionTheorems].

    A Rust struct is a record of the same fields, an enum an inductive type,
    a method a function from the old state to the new one. A hash or tree map
    is a finite map; where the code iterates one, the model iterates in the
    code's order, or sorts as the code does. A panic is [None] (or [Panicked],
    or an error value of its own on the wire), so a theorem that gives a
    result also says nothing panics. A reader is a function from a cursor to a
    result, a row writer one from the writer's state; an error message is a
    value of the error type.

    ** What the theorems show

    - Kept solvers ([SolverTheorems], [KeyedFoldTheorems], [RoundReplayTheorems]):
      a kept solver is a fresh one. After any update K1 and K2 hold the
      path-order fold and the least solution of the current definitions and
      report exactly the keys that moved; K3 the same, round by round, with
      convergence. K1 is claimed for the keys no unlisted file is handed rows
      under, K2's [replace] for lists that name a key once.
    - [PublishedTheorems]: a revision recorded from a published table stays
      meaningful.
    - [MemoTheorems]: over any history of builds an answer is the from-scratch
      value, a key that evaluates is always answered, [begin] marks exactly
      what a change reaches, and [end] keeps exactly what the build used or
      what that reads.
    - [BaseTheorems]: whatever the edits, an updated index is the one folded
      from scratch over the current files, its change list has every key whose
      values moved, and those alone where no entry changes the rank of its
      slot, the shadow check never reports a difference as long as files
      with equal fingerprints contribute alike, and the file table is the files it was
      built from.
    - [ReadsTheorems]: a read set is the union of what was added, in few runs;
      a record of a chunk is what it read, whatever the thread did before and
      whichever caches were filled; a proof is decided as documented, and a
      chunk whose proof holds in a later build would answer there the same.
    - [ReachabilityTheorems]: the counts are nonzero exactly on what is
      reached, equal to the path counts up to saturation, on the strongly
      connected components, in linear work.
    - [ReleasesTheorems], [DialectTheorems]: the dialect's codes are
      bijections, its readers exact and total, its tables consistent.
    - [WireTheorems]: a frame decodes to the plan that was written, as its
      schema carries it; whatever the bytes, a decoded transition is well
      formed; an integer is read exactly from its shortest form; streaming and
      the form of the entity rows change no byte; demands come back from their
      compact form, whole or by flag.
    - [TableTheorems]: a session that holds the producer's last table, given
      the encoder's answer, holds the new one (planning, writing, decoding,
      checking and applying put together), its numbers up to the float equality
      the encoder compares rows with, for rows and frames within the bounds
      below; whatever the bytes, an answer makes neither the decoder nor the
      application panic; a
      delta is refused exactly when it means nothing; the changes reported
      are those made; the two ways of applying a delta agree; the index is a
      map; patching symbols is replacing them.
    - [SuppressionTheorems]: the scanning loops read exactly the documented
      grammar with JavaScript's white space where the text has no U+0085, a
      written comment reads back, lines are counted where ESLint
      breaks them, and exactly the findings the comments cover are removed,
      with the names nothing answers to reported.

    A claim's number, C1 to C40, stands in front of its theorem; theorems
    without one record corners of the code (among them those where it and its
    comments differ).

    ** Fuel and bounds

    Loops that are not structural take fuel, and each is shown to have enough:
    the worklist of K2 the bound [solve_bound] (nodes times lattice height), the
    walks and Kahn's loop of the counts one turn per function, Tarjan's loop
    one per function and edge, K3 its [cap], [mark] and [end] of the memo
    store one turn per queued query ([mark_fuel], [live_fuel]), applying edges
    one per edge. [get] recurses through computations: its fuel is the depth
    of the evaluation, and [memo_answers_every_key] states that some fuel is
    enough for every store; the depth at which a chunk's cells nest plays the
    same part in [ReadsSpec], where more depth changes no answer. A
    suppression label has at most one turn per character. On the wire a merge
    of symbol rows or operations has the number of rows, the walk of two tables
    the rows of both, a variable-length integer its at most ten bytes. [u64] counts saturate in the model as in the code;
    query ids and revisions are [u32] and wrap or panic as the code does; the
    theorems on builds assume a revision below 2^32, and totality that ids
    remain. On the wire integers are kept at their width: [u64] and [i64]
    arithmetic is checked, wrapping or saturating as the code's is, the writer
    assumes rows that fit their Rust types ([input_fits]) and a frame under
    2^64 bytes ([fits]), and collections within the reader's limit, which the
    writer does not check ([frame_in_limits]).

    ** What is not modelled

    - Threads and locks: one thread runs. An [Arc] whose address the recording
      compares carries that address, handed out by the thread and never twice;
      the code keeps it alive for as long as it compares. The memo tables' shards, interned
      inputs and queued records, split only to split locks, are joined; the
      graph keeps its shards, on which the batched edges depend.
    - In the memo store: statistics, report texts, a computation that reads a
      derived table before its pass published it, and one that goes on after
      a read met a cycle (the model's ends there).
    - On the wire: CBOR through serde, the child process, its pipes and
      deadlines, the transcript, module graph and symbol closures of
      [session.rs], and the lookup indexes [FactTable] builds lazily. An
      [Arc] shared between tables is the value it holds: nothing compares
      addresses but a shortcut of an equality.
    - Of [base/], the contribution functions ([contributions.rs]) and the
      reference rows and digests of [file_table.rs], which read syntax facts,
      and the cache on disk ([cache.rs]); the timings, cost counters and
      report texts of the rest. The summaries, execution roles, owners, effect
      phases, rules, projections and hosts of the IR crate: passes over
      TypeScript and syntax facts.
    - Of the suppression comments, the parser that finds them (they are an
      argument), the texts of the notices, and the rest of [dialect.rs]; a
      text is its characters, an offset counts their UTF-8 bytes.
    - The rest of fact collection (the syntax visitor, the daemon) and the
      bindings: glue around a parser, a compiler and a host. *)
From stdpp Require Export gmap list sorting.

(** ** Rust vectors and machine integers

    A [Vec] is a list; an index expression [v[i]] panics out of range, so a
    read is the list lookup [v !! i] in the option monad and a write is
    [vec_set], both [None] on a panic. *)

Declare Scope rust_scope.
Delimit Scope rust_scope with rust.

Definition vec_set {A} (v : list A) (i : nat) (x : A) : option (list A) :=
  _ ← v !! i; Some (<[i := x]> v).

Notation "v '.[' i '<-' x ']'" := (vec_set v i x)
  (at level 1, left associativity, i at level 99, x at level 99) : rust_scope.
Open Scope rust_scope.

(** [u32::try_from] of a [usize]. *)
Definition u32_try_from (n : nat) : option nat :=
  if decide (Z.of_nat n < 2 ^ 32)%Z then Some n else None.

(** Iteration order of a [BTreeSet<u32>]: ascending. *)
Definition ascending (s : gset nat) : list nat := merge_sort (≤) (elements s).

(** A [for] loop whose body may panic. *)
Fixpoint foldM {S A} (f : S → A → option S) (s : S) (l : list A) : option S :=
  match l with
  | [] => Some s
  | a :: l => s' ← f s a; foldM f s' l
  end.

(** ** Generic lemmas *)

Section generic.
Context {A B S : Type}.

Lemma vec_set_spec (v : list A) i x :
  i < length v → v.[i <- x] = Some (<[i := x]> v).
Proof. intros [y Hy]%lookup_lt_is_Some_2. unfold vec_set. by rewrite Hy. Qed.

Lemma vec_set_Some (v v' : list A) i x :
  v.[i <- x] = Some v' → i < length v ∧ v' = <[i := x]> v.
Proof.
  unfold vec_set. destruct (v !! i) eqn:E; simpl; intros; simplify_eq.
  split; [by eapply lookup_lt_Some | done].
Qed.

(** Total correctness of a fallible loop: an invariant indexed by the part of
    the list already visited. *)
Lemma foldM_spec (P : list A → S → Prop) (f : S → A → option S) l s :
  P [] s →
  (∀ done s a rest, l = done ++ a :: rest → P done s →
     ∃ s', f s a = Some s' ∧ P (done ++ [a]) s') →
  ∃ s', foldM f s l = Some s' ∧ P l s'.
Proof.
  intros H0 Hstep.
  enough (H : ∀ rest done s, l = done ++ rest → P done s →
    ∃ s', foldM f s rest = Some s' ∧ P l s') by (by apply (H l [])).
  intros rest. induction rest as [|a rest IH]; intros done s' Hl HP; simpl.
  - rewrite app_nil_r in Hl. subst. eauto.
  - destruct (Hstep done s' a rest Hl HP) as (s'' & -> & HP'). simpl.
    apply (IH (done ++ [a])); [|done]. by rewrite <-app_assoc.
Qed.

Lemma foldM_app (f : S → A → option S) s l1 l2 :
  foldM f s (l1 ++ l2) = s' ← foldM f s l1; foldM f s' l2.
Proof.
  revert s. induction l1 as [|a l1 IH]; intros s; simpl; [done|].
  destruct (f s a); simpl; auto.
Qed.

Lemma foldM_ext (f g : S → A → option S) s l :
  (∀ s a, a ∈ l → f s a = g s a) → foldM f s l = foldM g s l.
Proof.
  revert s. induction l as [|a l IH]; intros s Hfg; simpl; [done|].
  rewrite (Hfg s a) by (by left). destruct (g s a); simpl; [|done].
  apply IH. intros; apply Hfg. by right.
Qed.

Lemma foldl_ext_in (f g : B → A → B) l b :
  (∀ b a, a ∈ l → f b a = g b a) → foldl f b l = foldl g b l.
Proof.
  revert b. induction l as [|a l IH]; intros b H; simpl; [done|].
  rewrite (H b a) by (by left). apply IH. intros; apply H. by right.
Qed.

Lemma lookup_snoc_Some (l : list A) x i y :
  (l ++ [x]) !! i = Some y ↔ l !! i = Some y ∨ (i = length l ∧ x = y).
Proof.
  rewrite lookup_app_Some, list_lookup_singleton_Some. split.
  - intros [?|[? [? ->]]]; [by left|right; split; [lia|done]].
  - intros [?|[-> ->]]; [by left|right; split; [done|split; [lia|done]]].
Qed.

Lemma filter_none (P : A → Prop) `{!∀ x, Decision (P x)} (l : list A) :
  (∀ x, x ∈ l → ¬ P x) → filter P l = [].
Proof.
  induction l as [|x l IH]; intros Hl; [done|].
  rewrite filter_cons_False by (apply Hl; by left). apply IH. intros; apply Hl. by right.
Qed.

End generic.

(** ** Loops over keys

    The loops that update a map or collect a set, one key at a time. *)

Lemma foldl_pair {A B X} (f : A → X → A) (g : B → X → B) a b l :
  foldl (λ '(a, b) x, (f a x, g b x)) (a, b) l = (foldl f a l, foldl g b l).
Proof. revert a b. induction l as [|x l IH]; intros a b; simpl; [done|apply IH]. Qed.

(** A loop whose step at [k] only touches [k]'s entry. *)
Lemma foldl_pointwise {K A} `{Countable K} (step : gmap K A → K → gmap K A)
    (g : K → option A → option A) m (l : list K) k :
  (∀ m k k', step m k !! k' = if decide (k' = k) then g k (m !! k) else m !! k') →
  NoDup l →
  foldl step m l !! k = if decide (k ∈ l) then g k (m !! k) else m !! k.
Proof.
  intros Hstep. revert m. induction l as [|x l IH]; intros m Hnd; simpl.
  - destruct (decide (k ∈ [])) as [Hk|]; [by apply elem_of_nil in Hk|done].
  - apply NoDup_cons in Hnd as [Hx Hnd]. rewrite IH, Hstep by done.
    destruct (decide (k = x)) as [->|Hne].
    + destruct (decide (x ∈ l)); [done|]. destruct (decide (x ∈ x :: l)) as [|Hn]; [done|].
      destruct Hn. by left.
    + destruct (decide (k ∈ l)) as [Hk|Hk], (decide (k ∈ x :: l)) as [Hl|Hl]; try done.
      * destruct Hl. by right.
      * by apply elem_of_cons in Hl as [?|?].
Qed.

Lemma elem_of_foldl_collect {K} `{Countable K} (P : K → Prop) `{!∀ k, Decision (P k)}
    (s : gset K) (l : list K) k :
  k ∈ foldl (λ s k, if decide (P k) then {[k]} ∪ s else s) s l ↔ k ∈ s ∨ (k ∈ l ∧ P k).
Proof.
  revert s. induction l as [|x l IH]; intros s; simpl.
  - set_solver.
  - rewrite IH, elem_of_cons. destruct (decide (P x)); [rewrite elem_of_union, elem_of_singleton|];
      naive_solver.
Qed.

Lemma u32_try_from_spec n : (Z.of_nat n < 2 ^ 32)%Z → u32_try_from n = Some n.
Proof. intros. unfold u32_try_from. by rewrite decide_True. Qed.

Lemma elem_of_ascending s x : x ∈ ascending s ↔ x ∈ s.
Proof. unfold ascending. by rewrite merge_sort_Permutation, elem_of_elements. Qed.

Lemma ascending_NoDup s : NoDup (ascending s).
Proof. unfold ascending. rewrite merge_sort_Permutation. apply NoDup_elements. Qed.

Lemma ascending_sorted s : Sorted (≤) (ascending s).
Proof. apply Sorted_merge_sort. intros x y. lia. Qed.

Lemma length_ascending s : length (ascending s) = size s.
Proof. unfold ascending. by rewrite merge_sort_Permutation. Qed.

(** ** Automation *)

Create HintDb solid.
Create Rewrite HintDb solid.
#[export] Hint Resolve vec_set_spec u32_try_from_spec ascending_NoDup : solid.
#[export] Hint Rewrite @length_insert @length_app @length_resize @length_replicate
  @elem_of_ascending @length_ascending : solid.

(** Case analysis on the options a fallible computation binds. *)
Ltac opt_inv :=
  repeat match goal with
  | H : mbind _ ?m = Some _ |- _ =>
      let E := fresh "E" in destruct m eqn:E; simpl in H; [|discriminate H]
  | H : Some _ = Some _ |- _ => injection H as H
  | p : _ * _ |- _ => destruct p
  end; simplify_eq/=.

(** Split a conjunction hypothesis tree produced by a specification lemma. *)
Ltac spec_split :=
  repeat match goal with
  | H : ∃ _, _ |- _ => destruct H
  | H : _ ∧ _ |- _ => destruct H
  end.
