(* ===== verification/Order.v ===== *)
(** * Rust orderings

    [Ord::cmp] as a comparison function with its laws, [Ordering::then],
    sorting by a comparison and [Vec::dedup], shared by the passes that sort. *)
From stdpp Require Import strings.
From S2P Require Import Prelude.

(** [Ord] on tuples, as comparisons chained with [then]. *)
Definition then_cmp (c d : comparison) : comparison :=
  match c with Eq => d | _ => c end.

Definition bool_cmp (a b : bool) : comparison :=
  match a, b with false, true => Lt | true, false => Gt | _, _ => Eq end.

Definition cmp_le {A} (cmp : A → A → comparison) (a b : A) : Prop := cmp a b ≠ Gt.

#[export] Instance cmp_le_dec {A} (cmp : A → A → comparison) a b : Decision (cmp_le cmp a b).
Proof. unfold cmp_le. apply _. Defined.

(** [Vec::dedup]. *)
Fixpoint dedup {A} `{EqDecision A} (l : list A) : list A :=
  match l with
  | [] => []
  | a :: l =>
      match dedup l with
      | b :: l' => if decide (a = b) then b :: l' else a :: b :: l'
      | [] => [a]
      end
  end.

(** ** The comparisons are total orders *)

(** What a [cmp] function of [Ord] gives. *)
Record cmp_order {A} (cmp : A → A → comparison) : Prop := {
  cmp_eq : ∀ a b, cmp a b = Eq ↔ a = b;
  cmp_sym : ∀ a b, cmp b a = CompOpp (cmp a b);
  cmp_trans : ∀ a b c, cmp a b = Lt → cmp b c = Lt → cmp a c = Lt
}.

Lemma cmp_then {A B C} (f : A → B) (h : A → C) cmpB cmpC :
  cmp_order (A := B) cmpB → cmp_order (A := C) cmpC →
  (∀ a b, f a = f b → h a = h b → a = b) →
  cmp_order (λ a b, then_cmp (cmpB (f a) (f b)) (cmpC (h a) (h b))).
Proof.
  intros HB HC Hinj. split.
  - intros a b. split.
    + destruct (cmpB (f a) (f b)) eqn:E; simpl; try done. intros E'.
      apply (cmp_eq _ HB) in E. apply (cmp_eq _ HC) in E'. auto.
    + intros ->. rewrite (proj2 (cmp_eq _ HB _ _) eq_refl). simpl. by apply (cmp_eq _ HC).
  - intros a b. rewrite (cmp_sym _ HB (f a)). destruct (cmpB (f a) (f b)); simpl; try done.
    apply (cmp_sym _ HC).
  - intros a b c. destruct (cmpB (f a) (f b)) eqn:E1; simpl; try done.
    + apply (cmp_eq _ HB) in E1. rewrite E1. destruct (cmpB (f b) (f c)); simpl; try done.
      apply (cmp_trans _ HC).
    + intros _. destruct (cmpB (f b) (f c)) eqn:E2; simpl; try done.
      * apply (cmp_eq _ HB) in E2. rewrite <-E2, E1. done.
      * intros _. by rewrite (cmp_trans _ HB _ _ _ E1 E2).
Qed.

Lemma string_cmp_order : cmp_order String.compare.
Proof.
  split.
  - intros a b. split; [apply String.compare_eq_iff|]. intros ->.
    pose proof (String.compare_antisym b b) as Hb. by destruct (String.compare b b).
  - intros a b. apply String.compare_antisym.
  - intros a. induction a as [|x a IH]; intros [|y b] [|z c]; simpl; try done.
    destruct (Ascii.compare x y) eqn:E1; try done.
    + apply Ascii.compare_eq_iff in E1. subst. destruct (Ascii.compare y z); try done. apply IH.
    + intros _. destruct (Ascii.compare y z) eqn:E2; try done.
      * apply Ascii.compare_eq_iff in E2. subst. by rewrite E1.
      * intros _. assert (Ascii.compare x z = Lt) as ->; [|done].
        unfold Ascii.compare in *. apply N.compare_lt_iff in E1, E2. apply N.compare_lt_iff. by eapply N.lt_trans.
Qed.

Lemma N_cmp_order : cmp_order N.compare.
Proof.
  split; [apply N.compare_eq_iff|intros; apply N.compare_antisym|].
  intros a b c. rewrite !N.compare_lt_iff. lia.
Qed.

Lemma nat_cmp_order : cmp_order Nat.compare.
Proof.
  split; [apply Nat.compare_eq_iff|intros; apply Nat.compare_antisym|].
  intros a b c. rewrite !Nat.compare_lt_iff. lia.
Qed.

Lemma bool_cmp_order : cmp_order bool_cmp.
Proof. split; [by intros [] []|by intros [] []|by intros [] [] []]. Qed.

Section order.
Context {A : Type} (cmp : A → A → comparison) (Hc : cmp_order cmp).

Lemma cmp_le_total : Total (cmp_le cmp).
Proof.
  intros a b. unfold cmp_le. rewrite (cmp_sym _ Hc b a). destruct (cmp b a); simpl; auto.
Qed.

Lemma cmp_le_cases a b : cmp_le cmp a b → a = b ∨ cmp a b = Lt.
Proof.
  unfold cmp_le. destruct (cmp a b) eqn:E; [left; by apply (cmp_eq _ Hc)|by right|done].
Qed.

#[local] Instance cmp_le_trans : Transitive (cmp_le cmp).
Proof.
  intros a b c H1 H2. destruct (cmp_le_cases _ _ H1) as [->|L1]; [done|].
  destruct (cmp_le_cases _ _ H2) as [->|L2]; [done|].
  unfold cmp_le. by rewrite (cmp_trans _ Hc _ _ _ L1 L2).
Qed.

Context `{EqDecision A}.

Lemma elem_of_dedup (l : list A) x : x ∈ dedup l ↔ x ∈ l.
Proof.
  induction l as [|a l IH]; [done|]. simpl.
  destruct (dedup l) as [|b l'] eqn:E.
  - rewrite !elem_of_cons, <-IH. done.
  - case_decide as Hab.
    + subst b. rewrite (elem_of_cons l), <-IH, elem_of_cons. tauto.
    + rewrite elem_of_cons, IH, elem_of_cons. done.
Qed.

(** A sorted, deduplicated list is strictly increasing. *)
Lemma dedup_increasing (l : list A) :
  StronglySorted (cmp_le cmp) l → StronglySorted (λ a b, cmp a b = Lt) (dedup l).
Proof.
  induction 1 as [|a l Hs IH Ha]; [constructor|]. simpl.
  destruct (dedup l) as [|b l'] eqn:E; [repeat constructor|].
  case_decide as Hab; [done|]. constructor; [done|].
  rewrite Forall_forall in Ha. apply Forall_forall. intros x Hx.
  assert (Hb : cmp a b = Lt).
  { destruct (cmp_le_cases a b) as [|]; [|done|done]. apply Ha, elem_of_dedup. rewrite E. by left. }
  apply elem_of_cons in Hx as [->|Hx]; [done|].
  inversion IH as [|? ? _ Hbl]; subst. rewrite Forall_forall in Hbl.
  by apply (cmp_trans _ Hc _ b), Hbl.
Qed.

Lemma increasing_NoDup (l : list A) :
  StronglySorted (λ a b, cmp a b = Lt) l → NoDup l.
Proof.
  induction 1 as [|a l Hs IH Ha]; [constructor|]. constructor; [|done].
  intros Hin. rewrite Forall_forall in Ha. specialize (Ha a Hin).
  rewrite (proj2 (cmp_eq _ Hc a a) eq_refl) in Ha. done.
Qed.

Lemma sort_dedup_increasing (l : list A) :
  StronglySorted (λ a b, cmp a b = Lt) (dedup (merge_sort (cmp_le cmp) l)).
Proof.
  apply dedup_increasing, StronglySorted_merge_sort; [apply cmp_le_trans|apply cmp_le_total].
Qed.

Lemma elem_of_sort_dedup (l : list A) x : x ∈ dedup (merge_sort (cmp_le cmp) l) ↔ x ∈ l.
Proof. rewrite elem_of_dedup. by rewrite merge_sort_Permutation. Qed.

End order.

