(* ===== verification/SolverBase.v ===== *)
(** * What the kept solvers share

    [rust/crates/solid-reactive-ir/src/base/fixpoint.rs]: [DenseIndex], keys to
    reusable slots, with its invariant; then [Solved], [Changed] and
    [FileOrder]. *)
From S2P Require Import Prelude.

(** [DenseIndex<K>]: the hash map is a [gmap], [keys] the vector of slots, and
    [free] the stack of freed slots (the head is the top: [Vec::push] and
    [Vec::pop] only touch that end). *)
Record DenseIndex (K : Type) `{Countable K} := mk_dense_index {
  di_slots : gmap K nat;
  di_keys : list (option K);
  di_free : list nat
}.
Arguments mk_dense_index {K _ _} _ _ _.
Arguments di_slots {K _ _} _.
Arguments di_keys {K _ _} _.
Arguments di_free {K _ _} _.

Section dense_index.
Context {K : Type} `{Countable K}.
Implicit Types (d : DenseIndex K) (k : K) (s : nat).

Definition di_default : DenseIndex K := mk_dense_index ∅ [] [].

Definition di_get d k : option nat := di_slots d !! k.

(** [insert]: [None] is the panic of [Slot::try_from(..).expect(..)] or of the
    indexed write. *)
Definition di_insert d k : option (DenseIndex K * (nat * bool)) :=
  match di_slots d !! k with
  | Some s => Some (d, (s, false))
  | None =>
      match di_free d with
      | s :: free =>
          keys ← (di_keys d).[s <- Some k];
          Some (mk_dense_index (<[k := s]> (di_slots d)) keys free, (s, true))
      | [] =>
          let keys := di_keys d ++ [Some k] in
          s ← u32_try_from (length keys - 1);
          Some (mk_dense_index (<[k := s]> (di_slots d)) keys [], (s, true))
      end
  end.

Definition di_remove d s : DenseIndex K :=
  match di_keys d !! s with
  | Some (Some k) =>
      mk_dense_index (delete k (di_slots d)) (<[s := None]> (di_keys d)) (s :: di_free d)
  | _ => d
  end.

Definition di_key d s : option K := mjoin (di_keys d !! s).

Definition di_capacity d : nat := length (di_keys d).

Definition di_len d : nat := size (di_slots d).

(** The live positions of a slot vector, ascending from [n]. *)
Fixpoint live_from (n : nat) (keys : list (option K)) : list nat :=
  match keys with
  | [] => []
  | Some _ :: keys => n :: live_from (S n) keys
  | None :: keys => live_from (S n) keys
  end.

Definition di_live d : option (list nat) := mapM u32_try_from (live_from 0 (di_keys d)).

(** ** Well-formedness *)

Record di_wf d : Prop := {
  di_wf_bij : ∀ k s, di_slots d !! k = Some s ↔ di_keys d !! s = Some (Some k);
  di_wf_nodup : NoDup (di_free d);
  di_wf_free : ∀ s, s ∈ di_free d ↔ di_keys d !! s = Some None;
  di_wf_bound : (Z.of_nat (length (di_keys d)) ≤ 2 ^ 32)%Z
}.

(** [n] more keys fit below 2^32 slots. *)
Definition di_room d (n : nat) : Prop :=
  (Z.of_nat (length (di_keys d)) + Z.of_nat n ≤ 2 ^ 32)%Z.

Lemma di_default_wf : di_wf di_default.
Proof.
  split; simpl; [|constructor| |lia].
  - intros k s. by rewrite lookup_empty, lookup_nil.
  - intros s. rewrite lookup_nil. split; [by intros ?%elem_of_nil|done].
Qed.

Lemma di_key_Some d k s : di_key d s = Some k ↔ di_keys d !! s = Some (Some k).
Proof. unfold di_key. destruct (di_keys d !! s) as [[?|]|]; simpl; naive_solver. Qed.

Lemma di_slot_lt d k s : di_wf d → di_slots d !! k = Some s → s < length (di_keys d).
Proof. intros Hwf Hk. apply (di_wf_bij _ Hwf) in Hk. by eapply lookup_lt_Some. Qed.

Lemma di_slot_inj d k1 k2 s :
  di_wf d → di_slots d !! k1 = Some s → di_slots d !! k2 = Some s → k1 = k2.
Proof. intros Hwf H1 H2. apply (di_wf_bij _ Hwf) in H1, H2. congruence. Qed.

(** What [di_insert] does to an absent key: a slot no live key has, recorded
    both ways, and at most one slot more. *)
Lemma di_insert_new d k :
  di_wf d → di_slots d !! k = None → di_room d 1 →
  ∃ d' s, di_insert d k = Some (d', (s, true)) ∧ di_wf d' ∧
    di_slots d' = <[k := s]> (di_slots d) ∧
    (∀ k', di_keys d !! s ≠ Some (Some k')) ∧
    length (di_keys d') = Nat.max (length (di_keys d)) (S s) ∧
    s ≤ length (di_keys d).
Proof.
  intros Hwf Hk Hroom. unfold di_insert, di_room in *. rewrite Hk.
  destruct (di_free d) as [|s free] eqn:Hfree.
  - rewrite length_app; simpl.
    replace (length (di_keys d) + 1 - 1) with (length (di_keys d)) by lia.
    rewrite u32_try_from_spec by lia. simpl.
    eexists _, _; split; [done|]. split; [split; simpl|].
    + intros k' s'. rewrite lookup_snoc_Some. destruct (decide (k = k')) as [<-|Hne].
      * rewrite lookup_insert_eq. split; [intros [= <-]; by right|].
        intros [Hs|[-> _]]; [|done]. apply (di_wf_bij _ Hwf) in Hs. congruence.
      * rewrite lookup_insert_ne by done. rewrite (di_wf_bij _ Hwf).
        split; [by left|]. intros [?|[_ [= ?]]]; [done|congruence].
    + constructor.
    + intros s'. rewrite lookup_snoc_Some. split; [by intros ?%elem_of_nil|].
      intros [Hs|[_ ?]]; [|done]. apply (di_wf_free _ Hwf) in Hs. by rewrite Hfree in Hs.
    + rewrite length_app; simpl. lia.
    + simpl. rewrite length_app; simpl. repeat split; [|lia..].
      intros k' Hk'. apply lookup_lt_Some in Hk'. lia.
  - assert (Hs : di_keys d !! s = Some None).
    { apply (di_wf_free _ Hwf). rewrite Hfree. by left. }
    assert (Hlt : s < length (di_keys d)) by (by eapply lookup_lt_Some).
    rewrite vec_set_spec by done. simpl.
    pose proof (di_wf_nodup _ Hwf) as Hnd. rewrite Hfree in Hnd.
    apply NoDup_cons in Hnd as [Hns Hnd].
    eexists _, _; split; [done|]. split; [split; simpl|].
    + intros k' s'. destruct (decide (k = k')) as [<-|Hne].
      * rewrite lookup_insert_eq, list_lookup_insert_Some. split.
        -- intros [= <-]. left. auto.
        -- intros [(-> & _ & _)|[_ Hs']]; [done|].
           apply (di_wf_bij _ Hwf) in Hs'. congruence.
      * rewrite lookup_insert_ne by done. rewrite (di_wf_bij _ Hwf), list_lookup_insert_Some.
        split.
        -- intros Hs'. right. split; [|done]. intros ->. congruence.
        -- intros [(-> & [= ?] & _)|[_ ?]]; [congruence|done].
    + done.
    + intros s'. rewrite list_lookup_insert_Some. specialize (di_wf_free _ Hwf s') as Hf.
      rewrite Hfree, elem_of_cons in Hf. split.
      * intros Hin. right. split; [intros ->; contradiction|]. apply Hf. by right.
      * intros [(_ & ? & _)|[Hne Hs']]; [done|]. apply Hf in Hs' as [->|?]; [done|done].
    + rewrite length_insert. apply (di_wf_bound _ Hwf).
    + simpl. rewrite length_insert. repeat split; [|lia..]. congruence.
Qed.

Lemma di_insert_live d k s :
  di_slots d !! k = Some s → di_insert d k = Some (d, (s, false)).
Proof. intros Hk. unfold di_insert. by rewrite Hk. Qed.

Lemma di_remove_spec d s k :
  di_wf d → di_keys d !! s = Some (Some k) →
  di_wf (di_remove d s) ∧
  di_slots (di_remove d s) = delete k (di_slots d) ∧
  di_keys (di_remove d s) = <[s := None]> (di_keys d).
Proof.
  intros Hwf Hs. unfold di_remove. rewrite Hs. simpl. split; [|done].
  assert (Hlt : s < length (di_keys d)) by (by eapply lookup_lt_Some).
  pose proof (proj2 (di_wf_bij _ Hwf k s) Hs) as Hk.
  split; simpl.
  - intros k' s'. rewrite lookup_delete_Some, list_lookup_insert_Some, (di_wf_bij _ Hwf).
    split.
    + intros [Hne Hs']. right. split; [intros ->; congruence|done].
    + intros [(_ & ? & _)|[Hne Hs']]; [done|]. split; [|done]. intros <-.
      apply (di_wf_bij _ Hwf) in Hs'. congruence.
  - constructor; [|apply (di_wf_nodup _ Hwf)].
    intros Hin. apply (di_wf_free _ Hwf) in Hin. congruence.
  - intros s'. rewrite elem_of_cons, list_lookup_insert_Some, (di_wf_free _ Hwf).
    split; [|naive_solver]. intros [->|Hs']; [by left|].
    right. split; [intros ->; congruence|done].
  - rewrite length_insert. apply (di_wf_bound _ Hwf).
Qed.

Lemma elem_of_live_from n keys s :
  s ∈ live_from n keys ↔ ∃ k, n ≤ s ∧ keys !! (s - n) = Some (Some k).
Proof.
  revert n. induction keys as [|[k|] keys IH]; intros n; simpl.
  - setoid_rewrite lookup_nil. split; [by intros ?%elem_of_nil|naive_solver].
  - rewrite elem_of_cons, IH. split.
    + intros [->|(k' & Hle & Hk')].
      * exists k. by rewrite Nat.sub_diag.
      * exists k'. split; [lia|]. by replace (s - n) with (S (s - S n)) by lia.
    + intros (k' & Hle & Hk'). destruct (decide (s = n)) as [->|]; [by left|right].
      exists k'. split; [lia|]. by replace (s - n) with (S (s - S n)) in Hk' by lia.
  - rewrite IH. split; intros (k' & Hle & Hk').
    + exists k'. split; [lia|]. by replace (s - n) with (S (s - S n)) by lia.
    + destruct (decide (s = n)) as [->|]; [by rewrite Nat.sub_diag in Hk'|].
      exists k'. split; [lia|]. by replace (s - n) with (S (s - S n)) in Hk' by lia.
Qed.

Lemma live_from_NoDup n keys : NoDup (live_from n keys).
Proof.
  revert n. induction keys as [|[k|] keys IH]; intros n; simpl; [constructor| |done].
  constructor; [|done]. rewrite elem_of_live_from. intros (? & ? & ?). lia.
Qed.

(** [DenseIndex::slots] never panics on a well-formed index and lists exactly
    the slots that have a key. *)
Lemma di_live_spec d :
  di_wf d → ∃ l, di_live d = Some l ∧ NoDup l ∧
    (∀ s, s ∈ l ↔ ∃ k, di_slots d !! k = Some s).
Proof.
  intros Hwf. exists (live_from 0 (di_keys d)). split; [|split].
  - unfold di_live. rewrite <-(list_fmap_id (live_from 0 _)) at 1.
    apply mapM_fmap_Forall_Some, Forall_forall. intros s Hs.
    apply elem_of_live_from in Hs as (k & _ & Hk). apply lookup_lt_Some in Hk.
    pose proof (di_wf_bound _ Hwf). apply u32_try_from_spec. simpl. lia.
  - apply live_from_NoDup.
  - intros s. rewrite elem_of_live_from. setoid_rewrite (di_wf_bij _ Hwf).
    rewrite Nat.sub_0_r. split; [intros (k & _ & ?); eauto|intros (k & ?)].
    exists k. split; [lia|done].
Qed.

End dense_index.

(** * What the kept solvers share

    [Solved], [fresh_cone] and [FileOrder] of
    [rust/crates/solid-reactive-ir/src/base/fixpoint.rs]. *)

(** [Solved<K>]: what one solver update did. *)
Record Solved (K : Type) := mk_solved {
  so_changed : list K;
  so_recomputed : nat;
  so_fresh : bool
}.
Arguments mk_solved {K} _ _ _.
Arguments so_changed {K} _.
Arguments so_recomputed {K} _.
Arguments so_fresh {K} _.

(** [fresh_cone]: [usize] multiplication saturates at 2^64 - 1. *)
Definition fresh_cone (cone nodes : nat) : bool :=
  bool_decide (Z.of_nat nodes < Z.min (4 * Z.of_nat cone) (2 ^ 64 - 1))%Z.

(** The documented threshold: below 2^64 - 1 nodes, "above a quarter". *)
Lemma fresh_cone_quarter cone nodes :
  (Z.of_nat nodes < 2 ^ 64 - 1)%Z → fresh_cone cone nodes = bool_decide (nodes < 4 * cone).
Proof. intros Hn. unfold fresh_cone. apply bool_decide_ext. lia. Qed.

(** [FileId] is a [u32] newtype; its order is only the map order. *)
Abbreviation FileId := nat (only parsing).

(** [FileOrder]: the files in path order with each id's rank. *)
Record FileOrder := mk_order {
  fo_ids : list FileId;
  fo_ranks : gmap FileId nat
}.

(** [FileOrder::new]: collecting (id, rank) pairs into a map keeps the last
    rank of a repeated id; [None] is the [u32] conversion's panic. *)
Definition fo_new (ids : list FileId) : option FileOrder :=
  pairs ← mapM (λ '(rank, id), r ← u32_try_from rank; Some (id, r)) (imap pair ids);
  Some (mk_order ids (foldl (λ m '(id, rank), <[id := rank]> m) ∅ pairs)).

Definition fo_rank (o : FileOrder) (id : FileId) : option nat := fo_ranks o !! id.

Definition fo_surviving (o other : FileOrder) : list FileId :=
  filter (λ id, is_Some (fo_ranks other !! id)) (fo_ids o).

Definition keeps_relative_order (o previous : FileOrder) : bool :=
  bool_decide (fo_surviving o previous = fo_surviving previous o).

(** An order built by [fo_new] from distinct ids. *)
Definition fo_wf (o : FileOrder) : Prop :=
  NoDup (fo_ids o) ∧ ∀ id r, fo_ranks o !! id = Some r ↔ fo_ids o !! r = Some id.

Lemma fold_ranks_lookup (ids : list FileId) n (m : gmap FileId nat) id r :
  NoDup ids → (∀ id, id ∈ ids → m !! id = None) →
  foldl (λ m '(id, rank), <[id := rank]> m) m (imap (λ i id, (id, n + i)) ids) !! id = Some r ↔
  m !! id = Some r ∨ ∃ i, ids !! i = Some id ∧ r = n + i.
Proof.
  revert n m. induction ids as [|x ids IH]; intros n m Hnd Hm.
  - simpl. setoid_rewrite lookup_nil. naive_solver.
  - apply NoDup_cons in Hnd as [Hx Hnd]. simpl. rewrite Nat.add_0_r.
    rewrite (imap_ext _ (λ i id, (id, S n + i))) by (intros; simpl; f_equal; lia).
    rewrite IH; [|done|].
    + rewrite lookup_insert_Some. split.
      * intros [[[-> ->]|[Hne Hid]]|(i & Hi & ->)]; [right; exists 0; by rewrite Nat.add_0_r|by left|].
        right. exists (S i). split; [done|lia].
      * intros [Hid|([|i] & Hi & ->)].
        -- left. right. split; [|done]. intros ->. rewrite (Hm id) in Hid; [done|by left].
        -- simpl in Hi. injection Hi as ->. left. left. split; [done|lia].
        -- right. exists i. split; [done|lia].
    + intros id' Hid'. rewrite lookup_insert_ne by (intros ->; done). apply Hm. by right.
Qed.

Lemma fo_new_spec ids :
  NoDup ids → (Z.of_nat (length ids) ≤ 2 ^ 32)%Z →
  ∃ o, fo_new ids = Some o ∧ fo_wf o ∧ fo_ids o = ids.
Proof.
  intros Hnd Hlen. unfold fo_new.
  assert (Hm : mapM (λ '(rank, id), r ← u32_try_from rank; Some (id, r)) (imap pair ids) =
    Some (imap (λ i id, (id, 0 + i)) ids)).
  { apply mapM_Some, Forall2_same_length_lookup_2; [by rewrite !length_imap|].
    intros i [r id] [id' r']. rewrite !list_lookup_imap.
    destruct (ids !! i) eqn:Hi; simpl; [|done]. intros; simplify_eq.
    apply lookup_lt_Some in Hi. rewrite u32_try_from_spec by lia. done. }
  rewrite Hm. simpl. eexists. split; [done|]. split; [|done]. split; [done|]. simpl.
  intros id r. rewrite (fold_ranks_lookup ids 0); [|done|by intros; apply lookup_empty].
  rewrite lookup_empty. split; [intros [?|(i & ? & ->)]; [done|done]|]. intros Hr. right. eauto.
Qed.
