(* ===== verification/KeptGraph.v ===== *)
(** * The kept dependency graph of the incremental solvers

    Model of [rust/crates/solid-reactive-ir/src/base/fixpoint/graph.rs]: the
    definitions of the nodes (an input and an ordered predecessor list), kept
    by slot between builds, with the reverse map from a node to its readers. *)
From S2P Require Import Prelude SolverBase.

(** [Definition<K, I, E>]. *)
Record NodeDef (K I E : Type) := mk_def { input : I; preds : list (K * E) }.
Arguments mk_def {K I E} _ _.
Arguments input {K I E} _.
Arguments preds {K I E} _.

#[export] Instance NodeDef_eq_dec {K I E} `{EqDecision K, EqDecision I, EqDecision E} :
  EqDecision (NodeDef K I E).
Proof. solve_decision. Defined.

(** [Node<I, E>]: the definition with its predecessors as slots, and the slots
    that read this node ([BTreeSet<Slot>]). *)
Record Node (I E : Type) := mk_node {
  nd_defined : option (I * list (nat * E));
  nd_readers : gset nat
}.
Arguments mk_node {I E} _ _.
Arguments nd_defined {I E} _.
Arguments nd_readers {I E} _.

Definition node_default {I E} : Node I E := mk_node None ∅.

(** [Change<K, I, E>]: [None] undefines the key. *)
Definition Change (K I E : Type) : Type := K * option (NodeDef K I E).

(** [Applied<K>]. *)
Record Applied (K : Type) := mk_applied {
  ap_seeds : gset nat;
  ap_allocated : list nat;
  ap_undefined : list K;
  ap_candidates : gset nat;
  ap_was_defined : gset nat
}.
Arguments mk_applied {K} _ _ _ _ _.
Arguments ap_seeds {K} _.
Arguments ap_allocated {K} _.
Arguments ap_undefined {K} _.
Arguments ap_candidates {K} _.
Arguments ap_was_defined {K} _.

(** [KeptGraph<K, I, E>]. *)
Record KeptGraph (K I E : Type) `{Countable K} := mk_graph {
  kg_index : DenseIndex K;
  kg_nodes : list (Node I E);
  kg_defined : nat
}.
Arguments mk_graph {K I E _ _} _ _ _.
Arguments kg_index {K I E _ _} _.
Arguments kg_nodes {K I E _ _} _.
Arguments kg_defined {K I E _ _} _.

Section kept_graph.
Context {K I E : Type} `{Countable K, EqDecision I, EqDecision E}.
Implicit Types (g : KeptGraph K I E) (k : K) (s p r : nat) (ap : Applied K).

Definition kg_default : KeptGraph K I E := mk_graph di_default [] 0.

(** ** Operations *)

(** [slot]: the key's slot, allocated (and logged) when it has none. *)
Definition kg_slot g (k : K) (allocated : list nat)
  : option (KeptGraph K I E * list nat * nat) :=
  '(index, (slot, new)) ← di_insert (kg_index g) k;
  let allocated := if (new : bool) then allocated ++ [slot] else allocated in
  let nodes := if decide (length (kg_nodes g) ≤ slot)
               then resize (S slot) node_default (kg_nodes g) else kg_nodes g in
  Some (mk_graph index nodes (kg_defined g), allocated, slot).

(** In-place updates of [self.nodes[s]]. *)
Definition kg_set_readers g s (f : gset nat → gset nat) : option (KeptGraph K I E) :=
  n ← kg_nodes g !! s;
  nodes ← (kg_nodes g).[s <- mk_node (nd_defined n) (f (nd_readers n))];
  Some (mk_graph (kg_index g) nodes (kg_defined g)).

Definition kg_set_defined g s (d : option (I * list (nat * E))) (count : nat)
  : option (KeptGraph K I E) :=
  n ← kg_nodes g !! s;
  nodes ← (kg_nodes g).[s <- mk_node d (nd_readers n)];
  Some (mk_graph (kg_index g) nodes count).

(** The test that a kept definition (by slot) is the given one (by key). *)
Definition same_preds g (kept : list (nat * E)) (next : list (K * E)) : bool :=
  bool_decide (length kept = length next) &&
  forallb (λ '((pred, edge), (key, next)),
    bool_decide (edge = next) && bool_decide (di_key (kg_index g) pred = Some key))
    (zip kept next).

Definition same_definition g (kept : option (I * list (nat * E)))
    (next : option (NodeDef K I E)) : bool :=
  match kept, next with
  | None, None => true
  | Some (i, kept), Some next =>
      bool_decide (i = input next) && same_preds g kept (preds next)
  | _, _ => false
  end.

(** The loop that takes [slot] out of its old predecessors' readers. *)
Definition kg_unread g slot (candidates : gset nat) (old : list (nat * E))
  : option (KeptGraph K I E * gset nat) :=
  foldM (λ '(g, cand) '(pred, _),
    g ← kg_set_readers g pred (λ rs, rs ∖ {[slot]});
    Some (g, {[pred]} ∪ cand)) (g, candidates) old.

(** The map that resolves the new predecessors and adds [slot] to their readers. *)
Definition kg_read g slot (allocated : list nat) (new : list (K * E))
  : option (KeptGraph K I E * list nat * list (nat * E)) :=
  foldM (λ '(g, allocated, done) '(key, edge),
    '(g, allocated, pred) ← kg_slot g key allocated;
    g ← kg_set_readers g pred (λ rs, {[slot]} ∪ rs);
    Some (g, allocated, done ++ [(pred, edge)])) (g, allocated, []) new.

(** [if let Some((_, preds)) = self.nodes[slot].defined.take()]. *)
Definition kg_undefine g slot (candidates : gset nat) (old : option (I * list (nat * E)))
  : option (KeptGraph K I E * gset nat) :=
  match old with
  | Some (_, old) =>
      g ← kg_set_defined g slot None (kg_defined g - 1);
      kg_unread g slot candidates old
  | None => Some (g, candidates)
  end.

(** [if let Some(next) = next]. *)
Definition kg_define g slot (allocated : list nat) (next : option (NodeDef K I E))
  : option (KeptGraph K I E * list nat) :=
  match next with
  | Some next =>
      '(g, allocated, new) ← kg_read g slot allocated (preds next);
      g ← kg_set_defined g slot (Some (input next, new)) (kg_defined g + 1);
      Some (g, allocated)
  | None => Some (g, allocated)
  end.

(** One iteration of [apply]'s loop. *)
Definition kg_apply_one (st : KeptGraph K I E * Applied K) (change : Change K I E)
  : option (KeptGraph K I E * Applied K) :=
  let '(g, ap) := st in
  let '(k, next) := change in
  if bool_decide (next = None) && bool_decide (di_get (kg_index g) k = None)
  then Some (g, ap)
  else
    '(g, allocated, slot) ← kg_slot g k (ap_allocated ap);
    node ← kg_nodes g !! slot;
    if same_definition g (nd_defined node) next
    then Some (g, mk_applied (ap_seeds ap) allocated (ap_undefined ap)
                    (ap_candidates ap) (ap_was_defined ap))
    else
      let was_defined :=
        if bool_decide (slot ∉ ap_seeds ap) && bool_decide (is_Some (nd_defined node))
        then {[slot]} ∪ ap_was_defined ap else ap_was_defined ap in
      let seeds := {[slot]} ∪ ap_seeds ap in
      let candidates := {[slot]} ∪ ap_candidates ap in
      '(g, candidates) ← kg_undefine g slot candidates (nd_defined node);
      '(g, allocated) ← kg_define g slot allocated next;
      Some (g, mk_applied seeds allocated (ap_undefined ap) candidates was_defined).

Definition applied_empty : Applied K := mk_applied ∅ [] [] ∅ ∅.

(** The keys of the seeds that were defined and are not any more. *)
Definition kg_undefined g (was_defined : gset nat) : option (list K) :=
  foldM (λ acc slot,
    node ← kg_nodes g !! slot;
    Some (match nd_defined node, di_key (kg_index g) slot with
          | None, Some key => acc ++ [key]
          | _, _ => acc
          end)) [] (ascending was_defined).

Definition kg_apply g (changes : list (Change K I E))
  : option (KeptGraph K I E * Applied K) :=
  '(g, ap) ← foldM kg_apply_one (g, applied_empty) changes;
  undefined ← kg_undefined g (ap_was_defined ap);
  Some (g, mk_applied (ap_seeds ap) (ap_allocated ap) undefined
             (ap_candidates ap) (ap_was_defined ap)).

(** [sweep]: frees the candidates neither defined nor read. *)
Definition kg_sweep g ap : option (KeptGraph K I E) :=
  foldM (λ g slot,
    node ← kg_nodes g !! slot;
    Some (if bool_decide (nd_defined node = None) && bool_decide (nd_readers node = ∅)
          then mk_graph (di_remove (kg_index g) slot) (kg_nodes g) (kg_defined g)
          else g)) g (ascending (ap_candidates ap)).

(** The outer [None] is the index panic. *)
Definition kg_definition g s : option (option (I * list (nat * E))) :=
  nd_defined <$> kg_nodes g !! s.

Definition kg_readers g s : option (gset nat) := nd_readers <$> kg_nodes g !! s.

Definition kg_is_defined g s : bool :=
  match kg_nodes g !! s with
  | Some n => bool_decide (is_Some (nd_defined n))
  | None => false
  end.

(** [slots]: every live slot. *)
Definition kg_slots g : option (gset nat) := list_to_set <$> di_live (kg_index g).

(** [cone]: the forward closure of the seeds over the reverse map. The stack's
    head is its top; the loop runs on [fuel] (one unit per pop). *)
Fixpoint kg_cone_loop (fuel : nat) g (cone : gset nat) (stack : list nat)
  : option (gset nat) :=
  match stack with
  | [] => Some cone
  | slot :: stack =>
      match fuel with
      | 0 => None
      | S fuel =>
          node ← kg_nodes g !! slot;
          let '(cone, stack) :=
            foldl (λ '(cone, stack) reader,
              if bool_decide (reader ∈ (cone : gset nat)) then (cone, stack)
              else ({[reader]} ∪ cone, reader :: stack)) (cone, stack)
              (ascending (nd_readers node)) in
          kg_cone_loop fuel g cone stack
      end
  end.

(** Every slot is pushed at most once, so the capacity bounds the pops. *)
Definition kg_cone g (seeds : gset nat) : option (gset nat) :=
  kg_cone_loop (di_capacity (kg_index g) + 1) g seeds (reverse (ascending seeds)).

(** [diff]: the changes that turn the kept definitions into [next]. *)
Definition kg_diff_listed g (next : list (K * NodeDef K I E))
  : option (gset nat * list (Change K I E)) :=
  foldM (λ '(listed, changes) '(key, definition),
    match di_get (kg_index g) key with
    | Some slot =>
        node ← kg_nodes g !! slot;
        Some ({[slot]} ∪ listed,
          if same_definition g (nd_defined node) (Some definition)
          then changes else changes ++ [(key, Some definition)])
    | None => Some (listed, changes ++ [(key, Some definition)])
    end) (∅, []) next.

(** The second loop: a defined slot no listed key has is undefined. *)
Definition kg_diff_gone g (listed : gset nat) (changes : list (Change K I E)) (slot : nat)
  : list (Change K I E) :=
  if bool_decide (slot ∉ listed) && kg_is_defined g slot then
    match di_key (kg_index g) slot with
    | Some key => changes ++ [(key, None)]
    | None => changes
    end
  else changes.

Definition kg_diff g (next : list (K * NodeDef K I E)) : option (list (Change K I E)) :=
  '(listed, changes) ← kg_diff_listed g next;
  slots ← di_live (kg_index g);
  Some (foldl (kg_diff_gone g listed) changes slots).

End kept_graph.
