(* ===== verification/KeptGraphSpec.v ===== *)
(** * Invariant and specification of the kept graph

    The kept graph stores definitions by slot; its meaning is the map [den]
    from keys to definitions. This file states the representation invariant
    [kg_inv] and shows that every operation of [KeptGraph] runs without a
    panic on it, preserves it, and does to [den] what its documentation says. *)
From S2P Require Import Prelude SolverBase KeptGraph.

Section spec.
Context {K I E : Type} `{Countable K, EqDecision I, EqDecision E}.
Implicit Types (g : KeptGraph K I E) (k : K) (s p r : nat) (ap : Applied K).

(** ** Views of a graph *)

Definition defined_at g s : option (I * list (nat * E)) :=
  n ← kg_nodes g !! s; nd_defined n.

Definition readers_at g s : gset nat := default ∅ (nd_readers <$> kg_nodes g !! s).

Definition live g s : Prop := ∃ k, di_slots (kg_index g) !! k = Some s.

Definition key_edge (d : DenseIndex K) (pe : nat * E) : option (K * E) :=
  k ← di_key d pe.1; Some (k, pe.2).

(** The definition a key has: predecessors read back as keys. *)
Definition den g k : option (NodeDef K I E) :=
  s ← di_slots (kg_index g) !! k;
  '(i, ps) ← defined_at g s;
  ps ← mapM (key_edge (kg_index g)) ps;
  Some (mk_def i ps).

Definition one_if_defined (n : Node I E) : nat := from_option (λ _, 1) 0 (nd_defined n).

Definition count_defined (nodes : list (Node I E)) : nat := sum_list_with one_if_defined nodes.

Lemma kg_is_defined_spec g s : kg_is_defined g s = bool_decide (is_Some (defined_at g s)).
Proof.
  unfold kg_is_defined, defined_at. by destruct (kg_nodes g !! s).
Qed.

(** ** The representation invariant

    [o] is a slot whose readers are being rewritten (none between
    operations): it may be listed as a reader without being defined yet. *)
Record kg_inv_open (o : option nat) g : Prop := {
  inv_index : di_wf (kg_index g);
  inv_len : length (kg_nodes g) = di_capacity (kg_index g);
  inv_defined : ∀ s i ps, defined_at g s = Some (i, ps) →
    live g s ∧ ∀ p e, (p, e) ∈ ps → live g p ∧ s ∈ readers_at g p;
  inv_readers : ∀ p r, r ∈ readers_at g p → o ≠ Some r →
    ∃ i ps e, defined_at g r = Some (i, ps) ∧ (p, e) ∈ ps;
  inv_readers_live : ∀ p r, r ∈ readers_at g p → live g p ∧ live g r;
  inv_count : kg_defined g = count_defined (kg_nodes g)
}.

Definition kg_inv g : Prop := kg_inv_open None g.

Lemma kg_default_inv : kg_inv kg_default.
Proof.
  split; simpl; [apply di_default_wf|done|..|done].
  - intros s i ps. unfold defined_at; simpl. by destruct s.
  - intros p r. unfold readers_at; simpl. rewrite ?lookup_nil. set_solver.
  - intros p r. unfold readers_at; simpl. rewrite ?lookup_nil. set_solver.
Qed.

(** ** Helper facts *)

Lemma count_defined_insert nodes s n n' :
  nodes !! s = Some n →
  count_defined (<[s := n']> nodes) + one_if_defined n =
  count_defined nodes + one_if_defined n'.
Proof.
  unfold count_defined. revert s.
  induction nodes as [|m nodes IH]; intros [|s] Hs; simplify_eq/=; [lia|].
  specialize (IH s Hs). lia.
Qed.

Lemma count_defined_resize nodes m :
  length nodes ≤ m →
  count_defined (resize m node_default nodes) = count_defined nodes.
Proof.
  intros Hm. rewrite resize_ge by done. unfold count_defined.
  rewrite sum_list_with_app. generalize (m - length nodes). intros q.
  induction q as [|q IH]; simpl; [lia|]. done.
Qed.

Lemma live_lt o g s : kg_inv_open o g → live g s → s < length (kg_nodes g).
Proof.
  intros Hi [k Hk]. rewrite (inv_len _ _ Hi). eapply di_slot_lt; [apply Hi|done].
Qed.

Lemma live_or_dead o g s : kg_inv_open o g → live g s ∨ ¬ live g s.
Proof.
  intros Hi. unfold live. setoid_rewrite (di_wf_bij _ (inv_index _ _ Hi)).
  destruct (di_keys (kg_index g) !! s) as [[k|]|]; [left; by exists k|right..]; naive_solver.
Qed.

Lemma dead_undefined o g s : kg_inv_open o g → ¬ live g s → defined_at g s = None.
Proof.
  intros Hi Hs. destruct (defined_at g s) as [[i ps]|] eqn:Hd; [|done].
  by apply (inv_defined _ _ Hi) in Hd as [? _].
Qed.

Lemma dead_unread o g s : kg_inv_open o g → ¬ live g s → readers_at g s = ∅.
Proof.
  intros Hi Hs. apply elem_of_equiv_empty_L. intros r Hr.
  by apply (inv_readers_live _ _ Hi) in Hr as [? _].
Qed.

Lemma defined_at_resize g m s idx c :
  length (kg_nodes g) ≤ m →
  defined_at (mk_graph idx (resize m node_default (kg_nodes g)) c) s = defined_at g s.
Proof.
  intros Hm. unfold defined_at; simpl.
  destruct (decide (s < length (kg_nodes g))) as [Hs|Hs].
  - rewrite lookup_resize by lia. done.
  - rewrite (lookup_ge_None_2 (kg_nodes g)) by lia.
    destruct (decide (s < m)); [|by rewrite lookup_resize_old by lia].
    by rewrite lookup_resize_new by lia.
Qed.

Lemma readers_at_resize g m s idx c :
  length (kg_nodes g) ≤ m →
  readers_at (mk_graph idx (resize m node_default (kg_nodes g)) c) s = readers_at g s.
Proof.
  intros Hm. unfold readers_at; simpl.
  destruct (decide (s < length (kg_nodes g))) as [Hs|Hs].
  - rewrite lookup_resize by lia. done.
  - rewrite (lookup_ge_None_2 (kg_nodes g)) by lia.
    destruct (decide (s < m)); [|by rewrite lookup_resize_old by lia].
    by rewrite lookup_resize_new by lia.
Qed.

(** ** The basic steps *)

(** What [kg_slot] returns: the key's slot, everything else kept. *)
Record slot_step g k (allocated : list nat) g' (allocated' : list nat) s : Prop := {
  ss_slots : di_slots (kg_index g') = <[k := s]> (di_slots (kg_index g));
  ss_defined : ∀ s', defined_at g' s' = defined_at g s';
  ss_readers : ∀ s', readers_at g' s' = readers_at g s';
  ss_count : kg_defined g' = kg_defined g;
  ss_cap : di_capacity (kg_index g') ≤ di_capacity (kg_index g) + 1;
  ss_mono : di_capacity (kg_index g) ≤ di_capacity (kg_index g');
  ss_alloc :
    (di_slots (kg_index g) !! k = Some s ∧ allocated' = allocated) ∨
    (di_slots (kg_index g) !! k = None ∧ ¬ live g s ∧ allocated' = allocated ++ [s])
}.

Lemma slot_step_live g k al g' al' s s' :
  slot_step g k al g' al' s → live g' s' ↔ live g s' ∨ s' = s.
Proof.
  intros Hst. unfold live. setoid_rewrite (ss_slots _ _ _ _ _ _ Hst).
  setoid_rewrite lookup_insert_Some. split.
  - intros (k' & Hk'); destruct Hk' as [Hk'|Hk']; destruct Hk'; subst; eauto.
  - intros [(k' & Hk')| ->]; [|by eauto].
    destruct (decide (k' = k)) as [->|]; [|by eauto].
    destruct (ss_alloc _ _ _ _ _ _ Hst) as [[? _]|[? _]]; simplify_eq; eauto.
Qed.

Lemma kg_slot_spec o g k al :
  kg_inv_open o g → di_room (kg_index g) 1 →
  ∃ g' al' s, kg_slot g k al = Some (g', al', s) ∧
    slot_step g k al g' al' s ∧ kg_inv_open o g'.
Proof.
  intros Hi Hroom. unfold kg_slot.
  destruct (di_slots (kg_index g) !! k) as [s|] eqn:Hk.
  - rewrite (di_insert_live _ _ _ Hk). simpl.
    assert (Hs : s < length (kg_nodes g)) by (eapply live_lt; [done|by exists k]).
    rewrite decide_False by lia. destruct g as [idx nodes c]; simpl in *.
    eexists _, _, _. split; [done|]. split; [|done].
    split; simpl; try done; [by rewrite insert_id|lia|by left].
  - destruct (di_insert_new _ _ (inv_index _ _ Hi) Hk Hroom)
      as (idx & s & -> & Hwf & Hsl & Hfresh & Hlen & Hle). simpl.
    pose proof (inv_len _ _ Hi) as Hl. unfold di_capacity in *.
    assert (Hnl : ¬ live g s).
    { intros [k' Hk']. apply (di_wf_bij _ (inv_index _ _ Hi)) in Hk'. by apply (Hfresh k'). }
    set (nodes := if decide _ then _ else _).
    assert (∃ m, length (kg_nodes g) ≤ m ∧ m = length (di_keys idx) ∧
      nodes = resize m node_default (kg_nodes g)) as (m & Hm & Hm' & Hnodes).
    { subst nodes. exists (length (di_keys idx)). split; [lia|split; [done|]].
      destruct (decide _); [f_equal; lia|]. rewrite resize_all_alt by lia. done. }
    rewrite Hnodes. clear nodes Hnodes.
    assert (Hst : slot_step g k al
      (mk_graph idx (resize m node_default (kg_nodes g)) (kg_defined g)) (al ++ [s]) s).
    { split; simpl; try done.
      - intros. by apply defined_at_resize.
      - intros. by apply readers_at_resize.
      - unfold di_capacity. lia.
      - unfold di_capacity. lia.
      - right. done. }
    eexists _, _, _. split; [done|]. split; [done|].
    pose proof (λ s', slot_step_live _ _ _ _ _ _ s' Hst) as Hlive.
    split; simpl.
    + done.
    + rewrite length_resize. unfold di_capacity. lia.
    + intros s' i ps. rewrite defined_at_resize by done. intros Hd.
      apply (inv_defined _ _ Hi) in Hd as [? Hps]. rewrite Hlive. split; [by left|].
      intros p e Hpe. rewrite Hlive, readers_at_resize by done.
      destruct (Hps p e Hpe). auto.
    + intros p r. rewrite readers_at_resize by done. intros Hr Ho.
      setoid_rewrite defined_at_resize; [|done]. by apply (inv_readers _ _ Hi).
    + intros p r. rewrite readers_at_resize by done. rewrite !Hlive.
      intros Hr. apply (inv_readers_live _ _ Hi) in Hr as []. auto.
    + rewrite count_defined_resize by done. apply (inv_count _ _ Hi).
Qed.

(** How an index grows: live keys keep their slots and [allocated] logs
    exactly the slots that became live. *)
Record grows g (al : list nat) g' (al' : list nat) (n : nat) : Prop := {
  gr_slots : di_slots (kg_index g) ⊆ di_slots (kg_index g');
  gr_cap : di_capacity (kg_index g') ≤ di_capacity (kg_index g) + n;
  gr_mono : di_capacity (kg_index g) ≤ di_capacity (kg_index g');
  gr_log : ∀ s, live g' s → live g s ∨ s ∈ al';
  gr_keep : ∀ s, s ∈ al → s ∈ al';
  gr_new : ∀ s, s ∈ al' → s ∈ al ∨ (live g' s ∧ ¬ live g s)
}.

Lemma grows_live g al g' al' n s : grows g al g' al' n → live g s → live g' s.
Proof. intros Hg [k Hk]. exists k. by eapply lookup_weaken, Hg. Qed.

Lemma grows_le g al g' al' n m : n ≤ m → grows g al g' al' n → grows g al g' al' m.
Proof. intros ? []. split; try done. lia. Qed.

Lemma grows_refl g al : grows g al g al 0.
Proof. split; auto; lia. Qed.

Lemma grows_trans g1 al1 g2 al2 g3 al3 n m :
  grows g1 al1 g2 al2 n → grows g2 al2 g3 al3 m → grows g1 al1 g3 al3 (n + m).
Proof.
  intros H12 H23. split.
  - etrans; [apply H12|apply H23].
  - pose proof (gr_cap _ _ _ _ _ H12). pose proof (gr_cap _ _ _ _ _ H23). lia.
  - etrans; [apply H12|apply H23].
  - intros s Hs. destruct (gr_log _ _ _ _ _ H23 _ Hs) as [Hs'|]; [|by right].
    destruct (gr_log _ _ _ _ _ H12 _ Hs'); [by left|right]. by apply H23.
  - intros s Hs. by apply H23, H12.
  - intros s Hs. destruct (gr_new _ _ _ _ _ H23 _ Hs) as [Hs'|[? Hn]].
    + destruct (gr_new _ _ _ _ _ H12 _ Hs') as [|[]]; [by left|right].
      split; [by eapply grows_live|done].
    + right. split; [done|]. intros ?. apply Hn. by eapply grows_live.
Qed.

Lemma grows_same_index g al g' : kg_index g' = kg_index g → grows g al g' al 0.
Proof. intros Hi. split; unfold live; rewrite ?Hi; auto; lia. Qed.

Lemma slot_step_grows g k al g' al' s : slot_step g k al g' al' s → grows g al g' al' 1.
Proof.
  intros Hst. split.
  - rewrite (ss_slots _ _ _ _ _ _ Hst).
    destruct (ss_alloc _ _ _ _ _ _ Hst) as [[? _]|[? _]];
      [by rewrite insert_id|by apply insert_subseteq].
  - apply (ss_cap _ _ _ _ _ _ Hst).
  - apply (ss_mono _ _ _ _ _ _ Hst).
  - intros s' Hs'. apply (slot_step_live _ _ _ _ _ _ _ Hst) in Hs' as [|Hs']; [by left|].
    destruct (ss_alloc _ _ _ _ _ _ Hst) as [[? _]|(_ & _ & ->)]; subst.
    + left. by exists k.
    + right. set_solver.
  - intros s'. destruct (ss_alloc _ _ _ _ _ _ Hst) as [[_ ->]|(_ & _ & ->)]; set_solver.
  - intros s'. destruct (ss_alloc _ _ _ _ _ _ Hst) as [[_ ->]|(_ & ? & ->)]; [by left|].
    rewrite elem_of_app, list_elem_of_singleton. intros [| ->]; [by left|right].
    split; [|done]. apply (slot_step_live _ _ _ _ _ _ _ Hst). by right.
Qed.

Lemma grows_key g al g' al' n s k :
  di_wf (kg_index g) → di_wf (kg_index g') → grows g al g' al' n →
  di_key (kg_index g) s = Some k → di_key (kg_index g') s = Some k.
Proof.
  intros Hwf Hwf' Hg. rewrite !di_key_Some, <-(di_wf_bij _ Hwf), <-(di_wf_bij _ Hwf').
  intros Hk. by eapply lookup_weaken, Hg.
Qed.

Lemma kg_set_readers_spec g s f :
  s < length (kg_nodes g) →
  ∃ g', kg_set_readers g s f = Some g' ∧ kg_index g' = kg_index g ∧
    kg_defined g' = kg_defined g ∧ length (kg_nodes g') = length (kg_nodes g) ∧
    (∀ s', defined_at g' s' = defined_at g s') ∧
    (∀ p, readers_at g' p = if decide (p = s) then f (readers_at g p) else readers_at g p) ∧
    count_defined (kg_nodes g') = count_defined (kg_nodes g).
Proof.
  intros Hs. destruct (lookup_lt_is_Some_2 _ _ Hs) as [n Hn].
  unfold kg_set_readers. rewrite Hn. simpl. rewrite vec_set_spec by done. simpl.
  eexists. split; [done|]. simpl. rewrite length_insert. repeat split.
  - intros s'. unfold defined_at; simpl. destruct (decide (s' = s)) as [->|Hne].
    + by rewrite list_lookup_insert_eq, Hn by done.
    + by rewrite list_lookup_insert_ne by done.
  - intros p. unfold readers_at; simpl. case_decide as Hp.
    + subst. by rewrite list_lookup_insert_eq, Hn by done.
    + by rewrite list_lookup_insert_ne by done.
  - pose proof (count_defined_insert (kg_nodes g) s n
      (mk_node (nd_defined n) (f (nd_readers n))) Hn) as Hc.
    unfold one_if_defined in Hc; simpl in Hc. lia.
Qed.

Lemma kg_set_defined_spec g s d c :
  s < length (kg_nodes g) →
  ∃ g', kg_set_defined g s d c = Some g' ∧ kg_index g' = kg_index g ∧
    kg_defined g' = c ∧ length (kg_nodes g') = length (kg_nodes g) ∧
    (∀ s', defined_at g' s' = if decide (s' = s) then d else defined_at g s') ∧
    (∀ p, readers_at g' p = readers_at g p) ∧
    count_defined (kg_nodes g') + from_option (λ _, 1) 0 (defined_at g s) =
    count_defined (kg_nodes g) + from_option (λ _, 1) 0 d.
Proof.
  intros Hs. destruct (lookup_lt_is_Some_2 _ _ Hs) as [n Hn].
  unfold kg_set_defined. rewrite Hn. simpl. rewrite vec_set_spec by done. simpl.
  eexists. split; [done|]. simpl. rewrite length_insert. repeat split.
  - intros s'. unfold defined_at; simpl. case_decide as Hp.
    + subst. by rewrite list_lookup_insert_eq by done.
    + by rewrite list_lookup_insert_ne by done.
  - intros p. unfold readers_at; simpl. destruct (decide (p = s)) as [->|Hne].
    + by rewrite list_lookup_insert_eq, Hn by done.
    + by rewrite list_lookup_insert_ne by done.
  - pose proof (count_defined_insert (kg_nodes g) s n (mk_node d (nd_readers n)) Hn) as Hc.
    unfold one_if_defined in Hc; simpl in Hc. unfold defined_at. rewrite Hn. simpl. lia.
Qed.

Lemma kg_unread_spec g slot cand old :
  (∀ p e, (p, e) ∈ old → p < length (kg_nodes g)) →
  ∃ g', kg_unread g slot cand old = Some (g', list_to_set old.*1 ∪ cand) ∧
    kg_index g' = kg_index g ∧ kg_defined g' = kg_defined g ∧
    length (kg_nodes g') = length (kg_nodes g) ∧
    (∀ s, defined_at g' s = defined_at g s) ∧
    (∀ p, readers_at g' p =
       if decide (p ∈ old.*1) then readers_at g p ∖ {[slot]} else readers_at g p) ∧
    count_defined (kg_nodes g') = count_defined (kg_nodes g).
Proof.
  intros Hold. unfold kg_unread.
  destruct (foldM_spec (λ done '(g', cand'), cand' = list_to_set done.*1 ∪ cand ∧
    kg_index g' = kg_index g ∧ kg_defined g' = kg_defined g ∧
    length (kg_nodes g') = length (kg_nodes g) ∧
    (∀ s, defined_at g' s = defined_at g s) ∧
    (∀ p, readers_at g' p =
       if decide (p ∈ done.*1) then readers_at g p ∖ {[slot]} else readers_at g p) ∧
    count_defined (kg_nodes g') = count_defined (kg_nodes g))
    (λ '(g, cand) '(pred, _),
      g ← kg_set_readers g pred (λ rs, rs ∖ {[slot]}); Some (g, {[pred]} ∪ cand))
    old (g, cand)) as ([g' cand'] & Hf & HP).
  - repeat split; try done; set_solver.
  - intros done [g1 cand1] [p e] rest Heq (Hcand & Hix & Hdf & Hln & Hd & Hr & Hc).
    destruct (kg_set_readers_spec g1 p (λ rs, rs ∖ {[slot]}))
      as (g2 & Hset & Hix2 & Hdf2 & Hln2 & Hd2 & Hr2 & Hc2).
    { rewrite Hln. apply (Hold p e). set_solver. }
    rewrite Hset. simpl. eexists. split; [done|]. simpl. rewrite fmap_app. simpl.
    repeat split; try congruence; [set_solver|].
    intros q. rewrite Hr2, Hr. destruct (decide (q = p)) as [->|Hne].
    + rewrite (decide_True (P := p ∈ done.*1 ++ [p])) by set_solver.
      case_decide; set_solver.
    + apply decide_ext. set_solver.
  - exists g'. destruct HP as (-> & HP). by rewrite Hf.
Qed.

(** What [kg_read] returns: the slots of the new predecessors, in order, each
    with [slot] among its readers. *)
Record read_step g slot (al : list nat) g' (al' : list nat) (new : list (K * E))
    (ps : list (nat * E)) : Prop := {
  rs_grows : grows g al g' al' (length new);
  rs_preds : mapM (key_edge (kg_index g')) ps = Some new;
  rs_defined : ∀ s, defined_at g' s = defined_at g s;
  rs_readers : ∀ p, readers_at g' p =
    if decide (p ∈ ps.*1) then {[slot]} ∪ readers_at g p else readers_at g p;
  rs_new : ∀ s, live g' s → live g s ∨ s ∈ ps.*1;
  rs_count : kg_defined g' = kg_defined g
}.

Lemma mapM_key_edge_grows g al g' al' n ps new :
  di_wf (kg_index g) → di_wf (kg_index g') → grows g al g' al' n →
  mapM (key_edge (kg_index g)) ps = Some new → mapM (key_edge (kg_index g')) ps = Some new.
Proof.
  intros Hwf Hwf' Hg. rewrite !mapM_Some. intros HF. eapply Forall2_impl; [exact HF|]. intros [p e] [k e'].
  unfold key_edge; simpl. destruct (di_key (kg_index g) p) as [k'|] eqn:Hk; simpl; [|done].
  intros ?; simplify_eq. by rewrite (grows_key _ _ _ _ _ _ _ Hwf Hwf' Hg Hk).
Qed.

Lemma kg_read_spec g slot al new :
  kg_inv_open (Some slot) g → live g slot → di_room (kg_index g) (length new) →
  ∃ g' al' ps, kg_read g slot al new = Some (g', al', ps) ∧
    read_step g slot al g' al' new ps ∧ kg_inv_open (Some slot) g'.
Proof.
  intros Hi Hlive Hroom. unfold kg_read.
  destruct (foldM_spec (λ done '(g', al', ps),
      read_step g slot al g' al' done ps ∧ kg_inv_open (Some slot) g')
    (λ '(g, allocated, done) '(key, edge),
      '(g, allocated, pred) ← kg_slot g key allocated;
      g ← kg_set_readers g pred (λ rs, {[slot]} ∪ rs);
      Some (g, allocated, done ++ [(pred, edge)])) new (g, al, []))
    as ([[g' al'] ps] & Hf & HP); [| |by eauto].
  - split; [|done]. split; try done; [apply grows_refl|by left].
  - intros done [[g1 al1] ps1] [k e] rest Heq [Hrs Hi1].
    assert (Hroom1 : di_room (kg_index g1) 1).
    { pose proof (gr_cap _ _ _ _ _ (rs_grows _ _ _ _ _ _ _ Hrs)) as Hcap.
      unfold di_room, di_capacity in *. rewrite Heq, length_app in Hroom. simpl in Hroom. lia. }
    destruct (kg_slot_spec _ _ k al1 Hi1 Hroom1) as (g2 & al2 & p & Hsl & Hst & Hi2).
    rewrite Hsl. simpl.
    assert (Hlp : live g2 p) by (apply (slot_step_live _ _ _ _ _ _ _ Hst); by right).
    destruct (kg_set_readers_spec g2 p (λ rs, {[slot]} ∪ rs)) as
      (g3 & Hset & Hix & Hdf & Hln & Hd & Hr & Hc); [by eapply live_lt|].
    rewrite Hset. simpl. eexists. split; [done|]. simpl.
    pose proof (slot_step_grows _ _ _ _ _ _ Hst) as Hgr.
    assert (Hlive3 : ∀ s, live g3 s ↔ live g2 s) by (unfold live; by rewrite Hix).
    split.
    + split.
      * rewrite length_app; simpl. eapply grows_trans; [apply Hrs|].
        rewrite <-(Nat.add_0_r 1). eapply grows_trans; [exact Hgr|by apply grows_same_index].
      * rewrite Hix. apply mapM_Some, Forall2_app; [|constructor; [|constructor]].
        -- apply mapM_Some. eapply mapM_key_edge_grows; [apply Hi1|apply Hi2|exact Hgr|apply Hrs].
        -- unfold key_edge; simpl. assert (di_key (kg_index g2) p = Some k) as ->; [|done].
           apply di_key_Some, (di_wf_bij _ (inv_index _ _ Hi2)).
           rewrite (ss_slots _ _ _ _ _ _ Hst). by rewrite lookup_insert_eq.
      * intros s. by rewrite Hd, (ss_defined _ _ _ _ _ _ Hst), (rs_defined _ _ _ _ _ _ _ Hrs).
      * intros q. rewrite Hr, (ss_readers _ _ _ _ _ _ Hst), (rs_readers _ _ _ _ _ _ _ Hrs).
        rewrite fmap_app. simpl. destruct (decide (q = p)) as [->|Hne].
        -- rewrite (decide_True (P := p ∈ ps1.*1 ++ [p])) by set_solver.
           case_decide; set_solver.
        -- apply decide_ext. set_solver.
      * intros s. rewrite Hlive3, (slot_step_live _ _ _ _ _ _ _ Hst), fmap_app. simpl.
        intros [Hs| ->]; [|set_solver].
        destruct (rs_new _ _ _ _ _ _ _ Hrs _ Hs); set_solver.
      * rewrite Hdf, (ss_count _ _ _ _ _ _ Hst). apply Hrs.
    + split.
      * rewrite Hix. apply Hi2.
      * rewrite Hln, Hix. apply Hi2.
      * intros s i qs. rewrite Hd. intros Hs. rewrite Hlive3.
        apply (inv_defined _ _ Hi2) in Hs as [? Hqs]. split; [done|].
        intros q e' Hq. rewrite Hlive3, Hr. destruct (Hqs q e' Hq).
        split; [done|]. case_decide; set_solver.
      * intros q r. rewrite Hr. setoid_rewrite Hd. intros Hq Hor.
        apply (inv_readers _ _ Hi2); [|done]. case_decide; [|done].
        apply elem_of_union in Hq as [?%elem_of_singleton|]; [congruence|done].
      * intros q r. rewrite Hr, !Hlive3. case_decide as Hq; [|apply (inv_readers_live _ _ Hi2)].
        rewrite elem_of_union, elem_of_singleton. intros [->|Hr'].
        -- split; [by subst|]. eapply grows_live; [exact Hgr|].
           eapply grows_live; [apply Hrs|done].
        -- by apply (inv_readers_live _ _ Hi2).
      * rewrite Hdf, Hc. apply (inv_count _ _ Hi2).
Qed.

(** ** Undefining and defining one node *)

Lemma kg_undefine_spec g slot cand :
  kg_inv g → live g slot →
  ∃ g' cand', kg_undefine g slot cand (defined_at g slot) = Some (g', cand') ∧
    kg_inv g' ∧ kg_index g' = kg_index g ∧
    (∀ s, defined_at g' s = if decide (s = slot) then None else defined_at g s) ∧
    (∀ p, readers_at g' p = readers_at g p ∖ {[slot]}) ∧
    cand ⊆ cand' ∧ (∀ p, slot ∈ readers_at g p → p ∈ cand') ∧
    (∀ p, p ∈ cand' → p ∈ cand ∨ live g p).
Proof.
  intros Hi Hl. unfold kg_undefine.
  destruct (defined_at g slot) as [[i old]|] eqn:Hd.
  - destruct (kg_set_defined_spec g slot None (kg_defined g - 1))
      as (g1 & Hset & Hix1 & Hdf1 & Hln1 & Hd1 & Hr1 & Hc1); [by eapply live_lt|].
    rewrite Hset. simpl. rewrite Hd in Hc1. simpl in Hc1.
    destruct (inv_defined _ _ Hi _ _ _ Hd) as [_ Hold].
    destruct (kg_unread_spec g1 slot cand old)
      as (g2 & Hun & Hix2 & Hdf2 & Hln2 & Hd2 & Hr2 & Hc2).
    { intros p e Hp. rewrite Hln1. eapply live_lt; [done|]. by eapply Hold. }
    assert (Hrd : ∀ p, readers_at g2 p = readers_at g p ∖ {[slot]}).
    { intros p. rewrite Hr2, Hr1. case_decide as Hp; [done|].
      assert (slot ∉ readers_at g p) as Hns; [|set_solver].
      intros Hin. apply Hp. destruct (inv_readers _ _ Hi _ _ Hin) as (i' & ps & e & Hs & Hpe);
        [done|]. rewrite Hd in Hs. simplify_eq. apply list_elem_of_fmap. by exists (p, e). }
    assert (Hdd : ∀ s, defined_at g2 s = if decide (s = slot) then None else defined_at g s).
    { intros s. by rewrite Hd2, Hd1. }
    assert (Hlv : ∀ s, live g2 s ↔ live g s) by (unfold live; by rewrite Hix2, Hix1).
    eexists g2, _. split; [done|]. split; [|split; [congruence|split; [done|split; [done|]]]].
    + split.
      * rewrite Hix2, Hix1. apply Hi.
      * rewrite Hln2, Hln1, Hix2, Hix1. apply Hi.
      * intros s j ps. rewrite Hdd. case_decide; [done|]. intros Hs. rewrite Hlv.
        destruct (inv_defined _ _ Hi _ _ _ Hs) as [? Hps]. split; [done|].
        intros p e Hp. rewrite Hlv, Hrd. destruct (Hps p e Hp). split; [done|set_solver].
      * intros p r. rewrite Hrd, elem_of_difference, elem_of_singleton. intros [Hr Hne] _.
        rewrite Hdd, decide_False by done. by apply (inv_readers _ _ Hi).
      * intros p r. rewrite Hrd, elem_of_difference, !Hlv. intros [Hr _].
        by apply (inv_readers_live _ _ Hi).
      * rewrite Hdf2, Hdf1, Hc2. pose proof (inv_count _ _ Hi). lia.
    + split; [set_solver|]. split.
      * intros p Hin. destruct (inv_readers _ _ Hi _ _ Hin) as (j & ps & e & Hs & Hpe); [done|].
        rewrite Hd in Hs. simplify_eq. apply elem_of_union_l, elem_of_list_to_set.
        apply list_elem_of_fmap. by exists (p, e).
      * intros p [Hp|Hp]%elem_of_union; [|by left]. right.
        apply elem_of_list_to_set, list_elem_of_fmap in Hp as ([p' e] & -> & Hp).
        by eapply Hold.
  - assert (Hns : ∀ p, slot ∉ readers_at g p).
    { intros p Hin. destruct (inv_readers _ _ Hi _ _ Hin) as (j & ps & e & Hs & _); congruence. }
    eexists g, cand. split; [done|]. split; [done|]. split; [done|]. split.
    { intros s. case_decide; [congruence|done]. }
    split; [intros p; specialize (Hns p); set_solver|]. split; [done|].
    split; [intros p Hp; by apply Hns in Hp|by left].
Qed.

Definition next_size (next : option (NodeDef K I E)) : nat :=
  from_option (λ d, length (preds d)) 0 next.

Lemma kg_inv_weaken o g : kg_inv g → kg_inv_open o g.
Proof.
  intros Hi. split; try apply Hi. intros p r Hr _. by apply (inv_readers _ _ Hi).
Qed.

(** The keys other than the defined one keep their definitions. *)
Lemma den_frame o g al g' al' n slot k :
  kg_inv_open o g → kg_inv g' → grows g al g' al' n →
  (∀ s, s ≠ slot → defined_at g' s = defined_at g s) →
  di_slots (kg_index g') !! k ≠ Some slot →
  den g' k = den g k.
Proof.
  intros Hi Hi' Hg Hd Hk. unfold den.
  destruct (di_slots (kg_index g') !! k) as [s|] eqn:Hk'; simpl.
  - rewrite Hd by congruence.
    destruct (di_slots (kg_index g) !! k) as [s'|] eqn:Hk0; simpl.
    + assert (s' = s) as ->.
      { eapply lookup_weaken in Hk0; [|apply Hg]. congruence. }
      destruct (defined_at g s) as [[i ps]|] eqn:Hs; simpl; [|done].
      assert (is_Some (mapM (key_edge (kg_index g)) ps)) as [new Hnew].
      { apply mapM_is_Some, Forall_forall. intros [p e] Hp.
        destruct (inv_defined _ _ Hi _ _ _ Hs) as [_ Hps]. destruct (Hps p e Hp) as [[q Hq] _].
        apply (di_wf_bij _ (inv_index _ _ Hi)), di_key_Some in Hq.
        unfold key_edge; simpl. rewrite Hq. by eexists. }
      rewrite Hnew, (mapM_key_edge_grows _ _ _ _ _ _ _ (inv_index _ _ Hi)
        (inv_index _ _ Hi') Hg Hnew). done.
    + rewrite (dead_undefined _ _ _ Hi); [done|]. intros [k2 Hk2].
      pose proof (lookup_weaken _ _ _ _ Hk2 (gr_slots _ _ _ _ _ Hg)) as Hk2'.
      pose proof (di_slot_inj _ _ _ _ (inv_index _ _ Hi') Hk' Hk2'). congruence.
  - destruct (di_slots (kg_index g) !! k) as [s'|] eqn:Hk0; simpl; [|done].
    eapply lookup_weaken in Hk0; [|apply Hg]. congruence.
Qed.

Lemma kg_define_spec g k slot al next :
  kg_inv g → di_slots (kg_index g) !! k = Some slot → defined_at g slot = None →
  di_room (kg_index g) (next_size next) →
  ∃ g' al', kg_define g slot al next = Some (g', al') ∧ kg_inv g' ∧
    grows g al g' al' (next_size next) ∧
    (∀ s, s ≠ slot → defined_at g' s = defined_at g s) ∧
    (∀ p, readers_at g p ⊆ readers_at g' p) ∧
    (∀ s, live g' s → ¬ live g s → readers_at g' s ≠ ∅) ∧
    (∀ k', den g' k' = if decide (k' = k) then next else den g k').
Proof.
  intros Hi Hk Hd Hroom. unfold kg_define. destruct next as [[i new]|]; simpl.
  - assert (Hl : live g slot) by (by exists k).
    destruct (kg_read_spec g slot al new (kg_inv_weaken _ _ Hi) Hl Hroom)
      as (g1 & al1 & ps & Hrd & Hrs & Hi1). rewrite Hrd. simpl.
    assert (Hl1 : live g1 slot) by (eapply grows_live; [apply Hrs|done]).
    destruct (kg_set_defined_spec g1 slot (Some (i, ps)) (kg_defined g1 + 1))
      as (g2 & Hset & Hix & Hdf & Hln & Hd2 & Hr2 & Hc); [by eapply live_lt|].
    rewrite Hset. simpl. rewrite (rs_defined _ _ _ _ _ _ _ Hrs), Hd in Hc. simpl in Hc.
    assert (Hlv : ∀ s, live g2 s ↔ live g1 s) by (unfold live; by rewrite Hix).
    assert (Hfr : ∀ s, s ≠ slot → defined_at g2 s = defined_at g s).
    { intros s Hs. rewrite Hd2, decide_False by done. apply Hrs. }
    assert (Hps : ∀ p e, (p, e) ∈ ps → live g1 p).
    { intros p e Hp. pose proof (rs_preds _ _ _ _ _ _ _ Hrs) as Hm%mapM_Some.
      apply list_elem_of_lookup in Hp as [j Hj].
      destruct (Forall2_lookup_l _ _ _ _ _ Hm Hj) as ([kp e'] & _ & He).
      unfold key_edge in He; simpl in He. destruct (di_key (kg_index g1) p) eqn:Hp; simplify_eq/=.
      apply di_key_Some, (di_wf_bij _ (inv_index _ _ Hi1)) in Hp. by eexists. }
    assert (Hgr : grows g al g2 al1 (length new)).
    { rewrite <-(Nat.add_0_r (length new)).
      eapply grows_trans; [apply Hrs|by apply grows_same_index]. }
    assert (Hi2 : kg_inv g2).
    { split.
      - rewrite Hix. apply Hi1.
      - rewrite Hln, Hix. apply Hi1.
      - intros s j qs. rewrite Hd2, Hlv. setoid_rewrite Hr2. setoid_rewrite Hlv.
        case_decide; subst.
        + intros [= <- <-]. split; [done|]. intros p e Hp. split; [by eapply Hps|].
          rewrite (rs_readers _ _ _ _ _ _ _ Hrs), decide_True; [set_solver|].
          apply list_elem_of_fmap. by exists (p, e).
        + apply (inv_defined _ _ Hi1).
      - intros p r. rewrite Hr2. intros Hr _. destruct (decide (r = slot)) as [->|Hne].
        + rewrite Hd2, decide_True by done. rewrite (rs_readers _ _ _ _ _ _ _ Hrs) in Hr.
          case_decide as Hp.
          * apply list_elem_of_fmap in Hp as ([p' e] & -> & Hp). eauto.
          * destruct (inv_readers _ _ Hi _ _ Hr) as (? & ? & ? & ? & _); [done|congruence].
        + rewrite Hd2, decide_False by done. apply (inv_readers _ _ Hi1); [done|congruence].
      - intros p r. rewrite Hr2, !Hlv. apply (inv_readers_live _ _ Hi1).
      - rewrite Hdf. pose proof (inv_count _ _ Hi1). lia. }
    eexists _, _. split; [done|]. split; [done|]. split; [done|]. split; [done|].
    split; [|split].
    + intros p. rewrite Hr2, (rs_readers _ _ _ _ _ _ _ Hrs). case_decide; set_solver.
    + intros s Hs Hns. rewrite Hr2, (rs_readers _ _ _ _ _ _ _ Hrs).
      rewrite decide_True; [set_solver|].
      apply Hlv in Hs. by destruct (rs_new _ _ _ _ _ _ _ Hrs _ Hs).
    + intros k'. case_decide as Hk'.
      * subst. unfold den.
        rewrite (lookup_weaken _ _ _ _ Hk (gr_slots _ _ _ _ _ Hgr)). simpl.
        rewrite Hd2, decide_True by done. simpl. rewrite Hix, (rs_preds _ _ _ _ _ _ _ Hrs). done.
      * eapply den_frame; [done..|]. intros Hs. apply Hk'.
        eapply di_slot_inj; [apply Hi2|done|]. by eapply lookup_weaken, Hgr.
  - eexists _, _. split; [done|]. split; [done|]. split; [apply grows_refl|].
    split; [done|]. split; [done|]. split; [done|].
    intros k'. case_decide; [|done]. subst. unfold den. rewrite Hk. simpl. by rewrite Hd.
Qed.

(** ** [apply] *)

Lemma same_preds_spec g kept next :
  same_preds g kept next = true → mapM (key_edge (kg_index g)) kept = Some next.
Proof.
  rewrite mapM_Some. unfold same_preds. rewrite andb_true_iff, bool_decide_eq_true. intros [Hlen Hall].
  revert next Hlen Hall. induction kept as [|[p e] kept IH]; intros [|[k e'] next] Hlen Hall;
    simplify_eq/=; [constructor|].
  apply andb_true_iff in Hall as [Hhd Hall].
  apply andb_true_iff in Hhd as [->%bool_decide_eq_true Hk%bool_decide_eq_true].
  constructor; [|by apply IH]. unfold key_edge; simpl. by rewrite Hk.
Qed.

Lemma same_definition_spec g k slot next :
  di_slots (kg_index g) !! k = Some slot →
  same_definition g (defined_at g slot) next = true → den g k = next.
Proof.
  intros Hk. unfold den. rewrite Hk. simpl.
  destruct (defined_at g slot) as [[i ps]|], next as [[j qs]|]; simpl; try done.
  rewrite andb_true_iff, bool_decide_eq_true. intros [-> Hps%same_preds_spec].
  by rewrite Hps.
Qed.

(** The state of [apply] against the graph [g0] it started from. *)
Record applied_inv g0 g ap (n : nat) : Prop := {
  ai_inv : kg_inv g;
  ai_grows : grows g0 [] g (ap_allocated ap) n;
  ai_seeds : ∀ s, s ∈ ap_seeds ap → live g s;
  ai_frame : ∀ s, s ∉ ap_seeds ap → defined_at g s = defined_at g0 s;
  ai_was : ∀ s, s ∈ ap_was_defined ap ↔ s ∈ ap_seeds ap ∧ is_Some (defined_at g0 s);
  ai_cand_live : ∀ s, s ∈ ap_candidates ap → live g s;
  ai_cand : ∀ s, live g s → defined_at g s = None → readers_at g s = ∅ →
    s ∈ ap_candidates ap ∨
    (live g0 s ∧ defined_at g0 s = None ∧ readers_at g0 s = ∅)
}.

Definition change_size (c : Change K I E) : nat := 1 + next_size c.2.

(** Allocating a slot changes no key's definition. *)
Lemma den_slot_step o g k al g' al' s :
  kg_inv_open o g → kg_inv g' → slot_step g k al g' al' s → ∀ k', den g' k' = den g k'.
Proof.
  intros Hi Hi' Hst k'. pose proof (slot_step_grows _ _ _ _ _ _ Hst) as Hgr.
  apply (den_frame _ _ _ _ _ _ (length (kg_nodes g')) _ Hi Hi' Hgr).
  - intros; apply Hst.
  - intros Hk'. assert (length (kg_nodes g') < length (kg_nodes g')); [|lia].
    eapply live_lt; [done|]. by exists k'.
Qed.

(** A change that leaves the key's definition as it was. *)
Lemma applied_inv_slot g0 g ap n k g' al' s :
  applied_inv g0 g ap n → kg_inv g' → slot_step g k (ap_allocated ap) g' al' s →
  di_slots (kg_index g) !! k ≠ None →
  applied_inv g0 g' (mk_applied (ap_seeds ap) al' (ap_undefined ap)
    (ap_candidates ap) (ap_was_defined ap)) (n + 1).
Proof.
  intros Ha Hi' Hst Hk.
  destruct (ss_alloc _ _ _ _ _ _ Hst) as [[Hs ->]|[? _]]; [|done].
  pose proof (slot_step_grows _ _ _ _ _ _ Hst) as Hgr.
  assert (Hlv : ∀ s', live g' s' ↔ live g s').
  { intros s'. rewrite (slot_step_live _ _ _ _ _ _ _ Hst).
    split; [intros [| ->]; [done|by exists k]|by left]. }
  split; simpl.
  - done.
  - eapply grows_trans; [apply Ha|done].
  - intros s' Hs'. by apply Hlv, (ai_seeds _ _ _ _ Ha).
  - intros s' Hs'. rewrite (ss_defined _ _ _ _ _ _ Hst). by apply Ha.
  - apply Ha.
  - intros s' Hs'. by apply Hlv, (ai_cand_live _ _ _ _ Ha).
  - intros s'. rewrite Hlv, (ss_defined _ _ _ _ _ _ Hst), (ss_readers _ _ _ _ _ _ Hst).
    apply Ha.
Qed.

Lemma kg_apply_one_spec g0 g ap n k next :
  applied_inv g0 g ap n → di_room (kg_index g) (change_size (k, next)) →
  ∃ g' ap', kg_apply_one (g, ap) (k, next) = Some (g', ap') ∧
    applied_inv g0 g' ap' (n + change_size (k, next)) ∧
    (∀ k', den g' k' = if decide (k' = k) then next else den g k').
Proof.
  intros Ha Hroom. unfold kg_apply_one. unfold change_size in *. simpl in Hroom |- *.
  destruct (bool_decide (next = None) && bool_decide (di_get (kg_index g) k = None)) eqn:Hskip.
  { apply andb_true_iff in Hskip as [->%bool_decide_eq_true Hk%bool_decide_eq_true].
    eexists _, _. split; [done|]. split.
    - destruct Ha as [? Hg ? ? ? ? ?]. split; try done. eapply grows_le; [|exact Hg]. lia.
    - intros k'. case_decide; [|done]. subst. unfold den. unfold di_get in Hk. by rewrite Hk. }
  apply andb_false_iff in Hskip. rewrite !bool_decide_eq_false in Hskip.
  pose proof (ai_inv _ _ _ _ Ha) as Hi.
  destruct (kg_slot_spec _ g k (ap_allocated ap) Hi) as (g1 & al1 & slot & Hsl & Hst & Hi1).
  { unfold di_room in *. lia. }
  rewrite Hsl. simpl. pose proof (slot_step_grows _ _ _ _ _ _ Hst) as Hgr1.
  pose proof (den_slot_step _ _ _ _ _ _ _ Hi Hi1 Hst) as Hden1.
  assert (Hk1 : di_slots (kg_index g1) !! k = Some slot).
  { rewrite (ss_slots _ _ _ _ _ _ Hst). by rewrite lookup_insert_eq. }
  assert (Hl1 : live g1 slot) by (by exists k).
  destruct (lookup_lt_is_Some_2 _ _ (live_lt _ _ _ Hi1 Hl1)) as [node Hnode].
  assert (Hdn : nd_defined node = defined_at g1 slot) by (unfold defined_at; by rewrite Hnode).
  rewrite Hnode. simpl. rewrite Hdn. clear node Hnode Hdn.
  destruct (same_definition g1 (defined_at g1 slot) next) eqn:Hsame.
  { eexists _, _. split; [done|]. split.
    - assert (Hk : di_slots (kg_index g) !! k ≠ None).
      { intros Hk. destruct (ss_alloc _ _ _ _ _ _ Hst) as [[? _]|(_ & Hn & _)]; [congruence|].
        rewrite (ss_defined _ _ _ _ _ _ Hst), (dead_undefined _ _ _ Hi Hn) in Hsame.
        destruct next; [done|]. by destruct Hskip. }
      pose proof (applied_inv_slot _ _ _ _ _ _ _ _ Ha Hi1 Hst Hk) as [Hi1' Hg ? ? ? ? ?].
      split; try done. eapply grows_le; [|exact Hg]. lia.
    - intros k'. rewrite Hden1. case_decide; [|done]. subst.
      rewrite <-Hden1. by eapply same_definition_spec. }
  clear Hskip Hsame.
  destruct (kg_undefine_spec g1 slot ({[slot]} ∪ ap_candidates ap) Hi1 Hl1)
    as (g2 & cand & Hun & Hi2 & Hix2 & Hd2 & Hr2 & Hc1 & Hc2 & Hc3).
  rewrite Hun. simpl.
  destruct (kg_define_spec g2 k slot al1 next Hi2)
    as (g3 & al3 & Hdef & Hi3 & Hgr3 & Hd3 & Hr3 & Hnew & Hden3).
  { by rewrite Hix2. }
  { by rewrite Hd2, decide_True. }
  { rewrite Hix2. pose proof (gr_cap _ _ _ _ _ Hgr1). unfold di_room, di_capacity in *. lia. }
  rewrite Hdef. simpl. eexists _, _. split; [done|].
  assert (Hlv2 : ∀ s, live g2 s ↔ live g1 s) by (unfold live; by rewrite Hix2).
  assert (Hlv3 : ∀ s, live g1 s → live g3 s).
  { intros s Hs. eapply grows_live; [done|by apply Hlv2]. }
  assert (Hfr : ∀ s, s ≠ slot → defined_at g3 s = defined_at g s).
  { intros s Hs. rewrite Hd3, Hd2, decide_False by done. apply Hst. }
  split.
  - split; simpl.
    + done.
    + eapply grows_trans; [apply Ha|].
      apply (grows_trans _ _ _ _ _ _ 1 (0 + next_size next) Hgr1).
      eapply grows_trans; [by apply grows_same_index|done].
    + intros s [->%elem_of_singleton|Hs]%elem_of_union; [by apply Hlv3|].
      apply Hlv3. eapply grows_live; [done|]. by apply Ha.
    + intros s Hs. rewrite Hfr by set_solver. apply Ha. set_solver.
    + intros s. pose proof (ai_was _ _ _ _ Ha s) as Hw.
      pose proof (ss_defined _ _ _ _ _ _ Hst slot) as Hsd.
      pose proof (ai_frame _ _ _ _ Ha slot) as Hf0.
      destruct (decide (slot ∈ ap_seeds ap)) as [Hin|Hin].
      * rewrite (bool_decide_eq_false_2 (slot ∉ _)) by (by intros ?). simpl. set_solver.
      * rewrite (bool_decide_eq_true_2 (slot ∉ _)) by done. simpl.
        rewrite Hsd, Hf0 by done. case_bool_decide; set_solver.
    + intros s Hs. apply Hc3 in Hs as [Hs|Hs]; [|by apply Hlv3].
      apply elem_of_union in Hs as [->%elem_of_singleton|Hs]; [by apply Hlv3|].
      apply Hlv3. eapply grows_live; [done|]. by apply (ai_cand_live _ _ _ _ Ha).
    + intros s Hs Hsd Hsr.
      destruct (decide (s = slot)) as [->|Hne]; [left; set_solver|].
      destruct (decide (s ∈ cand)) as [|Hnc]; [by left|right].
      assert (Hs1 : live g1 s).
      { destruct (live_or_dead _ _ s Hi2) as [Hs2|Hs2]; [by apply Hlv2|].
        by destruct (Hnew _ Hs Hs2). }
      assert (Hs0 : live g s).
      { by apply (slot_step_live _ _ _ _ _ _ _ Hst) in Hs1 as [|]. }
      assert (Hr1 : readers_at g s = ∅).
      { rewrite <-(ss_readers _ _ _ _ _ _ Hst). specialize (Hr3 s). specialize (Hr2 s).
        specialize (Hc2 s). set_solver. }
      rewrite Hfr in Hsd by done.
      destruct (ai_cand _ _ _ _ Ha s Hs0 Hsd Hr1) as [Hc|]; [|done].
      destruct Hnc. set_solver.
  - intros k'. rewrite Hden3. case_decide as Hk'; [done|].
    rewrite <-Hden1. apply (den_frame _ _ al1 _ al1 0 slot _ Hi1 Hi2).
    + by apply grows_same_index.
    + intros s Hs. by rewrite Hd2, decide_False.
    + rewrite Hix2. intros Hs. apply Hk'. eapply di_slot_inj; [apply Hi1|done|done].
Qed.

(** The definitions after a list of changes: a key listed twice takes the last. *)
Definition defs_after (defs : K → option (NodeDef K I E)) (changes : list (Change K I E))
  : K → option (NodeDef K I E) :=
  foldl (λ defs '(k, next) k', if decide (k' = k) then next else defs k') defs changes.

Definition changes_size (changes : list (Change K I E)) : nat :=
  sum_list_with change_size changes.

Lemma defs_after_ext d1 d2 changes :
  (∀ k, d1 k = d2 k) → ∀ k, defs_after d1 changes k = defs_after d2 changes k.
Proof.
  revert d1 d2. induction changes as [|[k next] changes IH]; intros d1 d2 Hd; simpl; [done|].
  apply IH. intros k'. by rewrite Hd.
Qed.

Lemma den_is_Some o g k slot :
  kg_inv_open o g → di_slots (kg_index g) !! k = Some slot →
  is_Some (den g k) ↔ is_Some (defined_at g slot).
Proof.
  intros Hi Hk. unfold den. rewrite Hk. simpl.
  destruct (defined_at g slot) as [[i ps]|] eqn:Hd; simpl; [|done].
  split; [by eexists|]. intros _.
  assert (is_Some (mapM (key_edge (kg_index g)) ps)) as [new ->]; [|by eexists].
  apply mapM_is_Some, Forall_forall. intros [p e] Hp.
  destruct (inv_defined _ _ Hi _ _ _ Hd) as [_ Hps]. destruct (Hps p e Hp) as [[q Hq] _].
  apply (di_wf_bij _ (inv_index _ _ Hi)), di_key_Some in Hq.
  unfold key_edge; simpl. rewrite Hq. by eexists.
Qed.

Lemma kg_undefined_spec g (was : gset nat) :
  kg_inv g → (∀ s, s ∈ was → live g s) →
  ∃ l, kg_undefined g was = Some l ∧ NoDup l ∧
    ∀ k, k ∈ l ↔ ∃ s, s ∈ was ∧ defined_at g s = None ∧ di_slots (kg_index g) !! k = Some s.
Proof.
  intros Hi Hlive. unfold kg_undefined.
  destruct (foldM_spec (λ done l, NoDup l ∧ ∀ k, k ∈ l ↔
      ∃ s, s ∈ done ∧ defined_at g s = None ∧ di_slots (kg_index g) !! k = Some s)
    (λ acc slot,
      node ← kg_nodes g !! slot;
      Some (match nd_defined node, di_key (kg_index g) slot with
            | None, Some key => acc ++ [key]
            | _, _ => acc
            end)) (ascending was) []) as (l & Hf & Hnd & Hl).
  - split; [constructor|]. set_solver.
  - intros done l slot rest Heq [Hnd Hl].
    assert (Hs : live g slot).
    { apply Hlive, elem_of_ascending. rewrite Heq. set_solver. }
    assert (Hns : slot ∉ done).
    { pose proof (ascending_NoDup was) as Hn. rewrite Heq in Hn.
      apply NoDup_app in Hn as (_ & Hn & _). intros ?. by eapply Hn; [done|left]. }
    destruct (lookup_lt_is_Some_2 _ _ (live_lt _ _ _ Hi Hs)) as [node Hnode].
    rewrite Hnode. simpl.
    assert (Hdn : nd_defined node = defined_at g slot) by (unfold defined_at; by rewrite Hnode).
    rewrite Hdn. destruct Hs as [k Hk].
    assert (di_key (kg_index g) slot = Some k) as ->.
    { by apply di_key_Some, (di_wf_bij _ (inv_index _ _ Hi)). }
    eexists. split; [done|]. destruct (defined_at g slot) eqn:Hd.
    + split; [done|]. intros k'. rewrite Hl. setoid_rewrite elem_of_app.
      setoid_rewrite list_elem_of_singleton. naive_solver.
    + split.
      * apply NoDup_app. split; [done|]. split; [|by apply NoDup_singleton].
        intros k'. rewrite Hl, list_elem_of_singleton. intros (s & Hs & _ & Hk') ->.
        destruct Hns. by simplify_eq.
      * intros k'. rewrite elem_of_app, Hl, list_elem_of_singleton.
        setoid_rewrite elem_of_app. setoid_rewrite list_elem_of_singleton. split.
        -- intros [(s & ? & ?)| ->]; eauto.
        -- intros (s & [Hs| ->] & ? & Hk'); [eauto|]. right.
           by eapply di_slot_inj; [apply Hi|..].
  - exists l. split; [done|]. split; [done|]. intros k. rewrite Hl.
    by setoid_rewrite elem_of_ascending.
Qed.

(** [apply] runs to its end while slots remain, turns the definitions into the
    changed ones, and reports the seeds and the keys it undefined exactly. *)
Lemma kg_apply_spec g changes :
  kg_inv g → di_room (kg_index g) (changes_size changes) →
  ∃ g' ap, kg_apply g changes = Some (g', ap) ∧
    applied_inv g g' ap (changes_size changes) ∧
    (∀ k, den g' k = defs_after (den g) changes k) ∧
    NoDup (ap_undefined ap) ∧
    (∀ k, k ∈ ap_undefined ap ↔ is_Some (den g k) ∧ den g' k = None).
Proof.
  intros Hi Hroom. unfold kg_apply.
  destruct (foldM_spec (λ done '(g', ap), applied_inv g g' ap (changes_size done) ∧
      ∀ k, den g' k = defs_after (den g) done k) kg_apply_one changes (g, applied_empty))
    as ([g' ap] & Hf & Ha & Hden).
  - split; [|done]. split; simpl; [done|apply grows_refl|set_solver|done|set_solver..|].
    intros s ? ? ?. by right.
  - intros done [g1 ap1] [k next] rest Heq [Ha1 Hd1].
    assert (Hcs : changes_size changes =
      changes_size done + (change_size (k, next) + changes_size rest)).
    { rewrite Heq. unfold changes_size. by rewrite sum_list_with_app. }
    destruct (kg_apply_one_spec g g1 ap1 (changes_size done) k next Ha1)
      as (g2 & ap2 & Hap & Ha2 & Hd2).
    { pose proof (gr_cap _ _ _ _ _ (ai_grows _ _ _ _ Ha1)).
      unfold di_room, di_capacity in *. lia. }
    exists (g2, ap2). split; [done|]. split.
    + unfold changes_size. rewrite sum_list_with_app. simpl. by rewrite Nat.add_0_r.
    + intros k'. rewrite Hd2, Hd1. unfold defs_after. by rewrite foldl_snoc.
  - rewrite Hf. simpl. pose proof (ai_inv _ _ _ _ Ha) as Hi'.
    destruct (kg_undefined_spec g' (ap_was_defined ap) Hi') as (l & Hu & Hnd & Hl).
    { intros s Hs. apply (ai_was _ _ _ _ Ha) in Hs as [Hs _]. by apply (ai_seeds _ _ _ _ Ha). }
    rewrite Hu. simpl. eexists _, _. split; [done|].
    split; [by destruct Ha; split|]. split; [done|]. split; [done|].
    intros k. simpl. rewrite Hl. split.
    + intros (s & Hs & Hd & Hk). apply (ai_was _ _ _ _ Ha) in Hs as [_ Hs].
      destruct (defined_at g s) as [[i ps]|] eqn:Hds; [|by destruct Hs].
      destruct (inv_defined _ _ Hi _ _ _ Hds) as [[k0 Hk0] _].
      pose proof (lookup_weaken _ _ _ _ Hk0 (gr_slots _ _ _ _ _ (ai_grows _ _ _ _ Ha))) as Hk0'.
      pose proof (di_slot_inj _ _ _ _ (inv_index _ _ Hi') Hk Hk0'). subst k0.
      split; [apply (den_is_Some _ _ _ _ Hi Hk0); by rewrite Hds|].
      unfold den. rewrite Hk. simpl. by rewrite Hd.
    + intros [Hs Hn]. destruct (di_slots (kg_index g) !! k) as [s|] eqn:Hk.
      2:{ unfold den in Hs. rewrite Hk in Hs. by destruct Hs. }
      pose proof (lookup_weaken _ _ _ _ Hk (gr_slots _ _ _ _ _ (ai_grows _ _ _ _ Ha))) as Hk'.
      apply (den_is_Some _ _ _ _ Hi Hk) in Hs.
      assert (Hd' : defined_at g' s = None).
      { apply eq_None_not_Some. rewrite <-(den_is_Some _ _ _ _ Hi' Hk'), Hn. by intros []. }
      exists s. split; [|done]. apply (ai_was _ _ _ _ Ha). split; [|done].
      destruct (decide (s ∈ ap_seeds ap)) as [|Hns]; [done|].
      apply (ai_frame _ _ _ _ Ha) in Hns. rewrite Hd' in Hns. rewrite <-Hns in Hs. by destruct Hs.
Qed.

(** ** [sweep] *)

Definition idle g s : Prop := defined_at g s = None ∧ readers_at g s = ∅.

(** Freeing an idle slot keeps the invariant and every definition. *)
Lemma kg_free_spec g s :
  kg_inv g → idle g s →
  let g' := mk_graph (di_remove (kg_index g) s) (kg_nodes g) (kg_defined g) in
  kg_inv g' ∧ (∀ k, den g' k = den g k) ∧ (∀ s', live g' s' ↔ live g s' ∧ s' ≠ s) ∧
  di_capacity (kg_index g') = di_capacity (kg_index g) ∧
  di_slots (kg_index g') ⊆ di_slots (kg_index g).
Proof.
  intros Hi [Hd Hr] g'.
  destruct (di_keys (kg_index g) !! s) as [[k|]|] eqn:Hs.
  2-3: assert (Hnl : ¬ live g s) by
    (intros [k Hk]; apply (di_wf_bij _ (inv_index _ _ Hi)) in Hk; congruence);
    assert (Hg : g' = g) by (subst g'; unfold di_remove; rewrite Hs; by destruct g);
    rewrite Hg; split; [done|split; [done|split; [|by split]]];
    (intros s'; split; [|by intros []]; intros Hl; split; [done|by intros ->]).
  destruct (di_remove_spec _ _ _ (inv_index _ _ Hi) Hs) as (Hwf & Hsl & Hks).
  assert (Hcap : di_capacity (kg_index g') = di_capacity (kg_index g)).
  { unfold di_capacity. simpl. by rewrite Hks, length_insert. }
  assert (Hlv : ∀ s', live g' s' ↔ live g s' ∧ s' ≠ s).
  { intros s'. unfold live. subst g'. simpl.
    setoid_rewrite (di_wf_bij _ Hwf). setoid_rewrite (di_wf_bij _ (inv_index _ _ Hi)).
    rewrite Hks. setoid_rewrite list_lookup_insert_Some. naive_solver. }
  split; [|split; [|split; [done|split; [done|]]]].
  3:{ subst g'. simpl. rewrite Hsl. apply delete_subseteq. }
  - split; simpl.
    + done.
    + rewrite <-(inv_len _ _ Hi) in Hcap. by rewrite <-Hcap.
    + intros s' i ps Hs'. pose proof (inv_defined _ _ Hi _ _ _ Hs') as [Hl Hps].
      rewrite Hlv. split; [split; [done|]; intros ->; change (defined_at g s = Some (i, ps)) in Hs';
        congruence|].
      intros p e Hp. destruct (Hps p e Hp) as [Hlp Hrp]. rewrite Hlv.
      split; [|done]. split; [done|]. intros ->. by rewrite Hr in Hrp.
    + apply Hi.
    + intros p r Hp. destruct (inv_readers_live _ _ Hi _ _ Hp) as [Hlp Hlr]. rewrite !Hlv.
      split; split; try done; intros ->.
      * change (r ∈ readers_at g s) in Hp. by rewrite Hr in Hp.
      * destruct (inv_readers _ _ Hi _ _ Hp) as (? & ? & ? & ? & _); [done|congruence].
    + apply Hi.
  - intros k'. unfold den at 1. subst g'. simpl. rewrite Hsl, lookup_delete. case_decide as Hk.
    + subst k'. simpl. unfold den.
      rewrite (proj2 (di_wf_bij _ (inv_index _ _ Hi) k s) Hs). simpl. by rewrite Hd.
    + unfold den. destruct (di_slots (kg_index g) !! k') as [s'|]; simpl; [|done].
      change (defined_at (mk_graph _ _ _) s') with (defined_at g s').
      destruct (defined_at g s') as [[i ps]|] eqn:Hs'; simpl; [|done].
      rewrite (Forall_mapM_ext _ (key_edge (kg_index g))); [done|].
      apply Forall_forall. intros [p e] Hp. destruct (inv_defined _ _ Hi _ _ _ Hs') as [_ Hps].
      destruct (Hps p e Hp) as [_ Hrp]. unfold key_edge, di_key; simpl.
      rewrite Hks, list_lookup_insert_ne; [done|]. intros ->. by rewrite Hr in Hrp.
Qed.

Lemma kg_sweep_spec g ap :
  kg_inv g → (∀ s, s ∈ ap_candidates ap → live g s) →
  ∃ g', kg_sweep g ap = Some g' ∧ kg_inv g' ∧ kg_nodes g' = kg_nodes g ∧
    (∀ k, den g' k = den g k) ∧
    (∀ s, live g' s ↔ live g s ∧ ¬ (s ∈ ap_candidates ap ∧ idle g s)) ∧
    di_capacity (kg_index g') = di_capacity (kg_index g) ∧
    di_slots (kg_index g') ⊆ di_slots (kg_index g).
Proof.
  intros Hi Hc. unfold kg_sweep.
  destruct (foldM_spec (λ done g', kg_inv g' ∧ kg_nodes g' = kg_nodes g ∧
      (∀ k, den g' k = den g k) ∧ (∀ s, live g' s ↔ live g s ∧ ¬ (s ∈ done ∧ idle g s)) ∧
      di_capacity (kg_index g') = di_capacity (kg_index g) ∧
      di_slots (kg_index g') ⊆ di_slots (kg_index g))
    (λ g slot,
      node ← kg_nodes g !! slot;
      Some (if bool_decide (nd_defined node = None) && bool_decide (nd_readers node = ∅)
            then mk_graph (di_remove (kg_index g) slot) (kg_nodes g) (kg_defined g)
            else g)) (ascending (ap_candidates ap)) g) as (g' & Hf & HP).
  - split; [done|]. split; [done|]. split; [done|]. split; [|by split].
    intros s. split; [|by intros []]. intros Hs. split; [done|]. by intros [?%elem_of_nil _].
  - intros done g1 s rest Heq (Hi1 & Hn1 & Hd1 & Hl1 & Hcap1 & Hss1).
    assert (Hls : live g s).
    { apply Hc, elem_of_ascending. rewrite Heq. set_solver. }
    destruct (lookup_lt_is_Some_2 _ _ (live_lt _ _ _ Hi Hls)) as [node Hnode].
    rewrite Hn1, Hnode. simpl. eexists. split; [done|].
    assert (Hidle : idle g1 s ↔ nd_defined node = None ∧ nd_readers node = ∅).
    { unfold idle, defined_at, readers_at. rewrite Hn1, Hnode. done. }
    assert (Hidle' : idle g s ↔ nd_defined node = None ∧ nd_readers node = ∅).
    { unfold idle, defined_at, readers_at. rewrite Hnode. done. }
    setoid_rewrite elem_of_app. setoid_rewrite list_elem_of_singleton.
    destruct (bool_decide (nd_defined node = None) && bool_decide (nd_readers node = ∅)) eqn:Hb.
    + apply andb_true_iff in Hb as [Hb1%bool_decide_eq_true Hb2%bool_decide_eq_true].
      destruct (kg_free_spec g1 s Hi1 (proj2 Hidle (conj Hb1 Hb2))) as (Hi2 & Hd2 & Hl2 & Hcap2 & Hss2).
      rewrite Hn1 in *. split; [done|]. split; [done|]. split; [intros; by rewrite Hd2|].
      split; [|split; [congruence|by etrans]]. intros s'. rewrite Hl2, Hl1. split.
      * intros [[Hl Hn] Hne]. split; [done|]. intros [[?| ->] ?]; [by apply Hn|done].
      * intros [Hl Hn]. split; [split; [done|]; intros []; apply Hn; by split; [left|]|].
        intros ->. apply Hn. split; [by right|]. by apply Hidle'.
    + split; [done|]. split; [done|]. split; [done|]. split; [|by split].
      intros s'. rewrite Hl1. apply andb_false_iff in Hb. rewrite !bool_decide_eq_false in Hb.
      split; intros [Hl Hn]; (split; [done|]).
      * intros [[?| ->] Hid]; [by apply Hn|]. apply Hidle' in Hid as [].
        by destruct Hb as [Hb|Hb]; apply Hb.
      * intros []. apply Hn. by split; [left|].
  - exists g'. split; [done|]. destruct HP as (? & ? & ? & HP & ?).
    split; [done|]. split; [done|]. split; [done|]. split; [|done].
    intros s. rewrite HP. by rewrite elem_of_ascending.
Qed.

(** ** [slots] and [cone] *)

Lemma kg_slots_spec g :
  kg_inv g → ∃ c, kg_slots g = Some c ∧ (∀ s, s ∈ c ↔ live g s).
Proof.
  intros Hi. destruct (di_live_spec _ (inv_index _ _ Hi)) as (l & Hl & _ & Hin).
  exists (list_to_set l). unfold kg_slots. rewrite Hl. split; [done|].
  intros s. by rewrite elem_of_list_to_set, Hin.
Qed.

Definition cone_push : gset nat * list nat → nat → gset nat * list nat :=
  λ '(cone, stack) reader,
    if bool_decide (reader ∈ (cone : gset nat)) then (cone, stack)
    else ({[reader]} ∪ cone, reader :: stack).

Lemma cone_push_spec rs cone stack :
  let '(cone', stack') := foldl cone_push (cone, stack) rs in
  cone' = list_to_set rs ∪ cone ∧
  (∀ s, s ∈ stack' → s ∈ stack ∨ s ∈ rs) ∧ (∀ s, s ∈ stack → s ∈ stack') ∧
  (∀ s, s ∈ cone' → s ∈ cone ∨ s ∈ stack') ∧
  length stack' + size cone = length stack + size cone'.
Proof.
  revert cone stack. induction rs as [|r rs IH]; intros cone stack; simpl.
  - repeat split; set_solver.
  - case_bool_decide as Hr.
    + specialize (IH cone stack). destruct (foldl cone_push (cone, stack) rs) as [c' st'].
      destruct IH as (-> & H1 & H2 & H3 & H4). split; [set_solver|].
      split; [intros s Hs; destruct (H1 s Hs); set_solver|]. split; [done|].
      split; [|done]. intros s Hs. apply H3. set_solver.
    + specialize (IH ({[r]} ∪ cone) (r :: stack)).
      destruct (foldl cone_push ({[r]} ∪ cone, r :: stack) rs) as [c' st'].
      destruct IH as (-> & H1 & H2 & H3 & Hsz). split; [set_solver|].
      split; [intros s Hs; destruct (H1 s Hs); set_solver|]. split; [set_solver|].
      split; [intros s Hs; destruct (H3 s); set_solver|].
      rewrite (size_union {[r]} cone), size_singleton in Hsz by set_solver. simpl in Hsz. lia.
Qed.

Definition closed_readers g (c : gset nat) : Prop :=
  ∀ s r, s ∈ c → r ∈ readers_at g s → r ∈ c.

Lemma size_live_set g (c : gset nat) :
  kg_inv g → (∀ s, s ∈ c → live g s) → size c ≤ di_capacity (kg_index g).
Proof.
  intros Hi Hc. rewrite <-(inv_len _ _ Hi), <-(size_set_seq (C := gset nat) 0).
  apply subseteq_size. intros s Hs. apply elem_of_set_seq.
  pose proof (live_lt _ _ _ Hi (Hc s Hs)). lia.
Qed.

Lemma kg_cone_loop_spec g (X : gset nat) fuel cone stack :
  kg_inv g → closed_readers g X →
  (∀ s, s ∈ cone → live g s) → (∀ s, s ∈ stack → s ∈ cone) → cone ⊆ X →
  (∀ s r, s ∈ cone → s ∉ stack → r ∈ readers_at g s → r ∈ cone) →
  length stack + (di_capacity (kg_index g) - size cone) ≤ fuel →
  ∃ c, kg_cone_loop fuel g cone stack = Some c ∧ cone ⊆ c ∧ c ⊆ X ∧
    (∀ s, s ∈ c → live g s) ∧ closed_readers g c.
Proof.
  intros Hi HX. revert cone stack.
  induction fuel as [|fuel IH]; intros cone [|s stack] Hlv Hst HcX Hcl Hfuel; simpl in *;
    try lia; try (exists cone; repeat split; [done..|]; intros s' r ? ?; eapply Hcl; set_solver).
  assert (Hs : live g s) by (apply Hlv, Hst; by left).
  destruct (lookup_lt_is_Some_2 _ _ (live_lt _ _ _ Hi Hs)) as [node Hnode].
  rewrite Hnode. simpl. fold cone_push.
  assert (Hrd : readers_at g s = nd_readers node) by (unfold readers_at; by rewrite Hnode).
  pose proof (cone_push_spec (ascending (nd_readers node)) cone stack) as Hp.
  destruct (foldl cone_push _ _) as [cone' stack'].
  destruct Hp as (Hc' & Hp1 & Hp2 & Hp3 & Hsz).
  setoid_rewrite elem_of_ascending in Hp1.
  assert (Hc'in : ∀ x, x ∈ cone' ↔ x ∈ cone ∨ x ∈ readers_at g s).
  { intros x. rewrite Hc', elem_of_union, elem_of_list_to_set, elem_of_ascending, Hrd. tauto. }
  assert (Hlv' : ∀ x, x ∈ cone' → live g x).
  { intros x [?|Hx]%Hc'in; [by apply Hlv|]. by apply (inv_readers_live _ _ Hi) in Hx as []. }
  destruct (IH cone' stack') as (c & Hc & Hsub & HsubX & Hlc & Hclc).
  - done.
  - intros x [Hx|Hx]%Hp1; apply Hc'in; [left; apply Hst; by right|right; by rewrite Hrd].
  - intros x [?|Hx]%Hc'in; [by apply HcX|]. eapply HX; [|done]. apply HcX, Hst. by left.
  - intros x r Hx Hns Hr. apply Hc'in. destruct (Hp3 _ Hx) as [Hxc|]; [|done].
    destruct (decide (x = s)) as [->|Hne]; [by right|left].
    eapply Hcl; [done| |done]. intros [?|?]%elem_of_cons; [done|]. by apply Hns, Hp2.
  - pose proof (size_live_set g cone Hi Hlv). pose proof (size_live_set g cone' Hi Hlv'). lia.
  - exists c. split; [done|]. split; [|done]. intros x Hx. apply Hsub, Hc'in. by left.
Qed.

(** [cone] terminates within its fuel and is the least set that holds the seeds
    and every reader of its members. *)
Lemma kg_cone_spec g (seeds : gset nat) :
  kg_inv g → (∀ s, s ∈ seeds → live g s) →
  ∃ c, kg_cone g seeds = Some c ∧ seeds ⊆ c ∧ (∀ s, s ∈ c → live g s) ∧
    closed_readers g c ∧ (∀ X, seeds ⊆ X → closed_readers g X → c ⊆ X).
Proof.
  intros Hi Hs. unfold kg_cone.
  assert (Hrun : ∀ X, seeds ⊆ X → closed_readers g X →
    ∃ c, kg_cone_loop (di_capacity (kg_index g) + 1) g seeds (reverse (ascending seeds)) = Some c ∧
      seeds ⊆ c ∧ c ⊆ X ∧ (∀ s, s ∈ c → live g s) ∧ closed_readers g c).
  { intros X HsX HX. apply kg_cone_loop_spec; try done.
    - intros s. by rewrite elem_of_reverse, elem_of_ascending.
    - intros s r Hsin Hns. destruct Hns. by rewrite elem_of_reverse, elem_of_ascending.
    - rewrite length_reverse, length_ascending.
      pose proof (size_live_set g seeds Hi Hs). lia. }
  destruct (kg_slots_spec g Hi) as (all & _ & Hall).
  destruct (Hrun all) as (c & Hc & H1 & _ & H3 & H4).
  { intros s Hin. by apply Hall, Hs. }
  { intros s r _ Hr. apply Hall. by apply (inv_readers_live _ _ Hi) in Hr as []. }
  exists c. split; [done|]. repeat split; try done.
  intros X HsX HX. destruct (Hrun X HsX HX) as (c' & Hc' & _ & ? & _). rewrite Hc in Hc'. by simplify_eq.
Qed.

(** The test a solver makes of a slot of its cone: was it defined before? *)
Lemma was_defined_spec g0 g ap n s :
  applied_inv g0 g ap n →
  (if bool_decide (s ∈ ap_seeds ap) then bool_decide (s ∈ ap_was_defined ap)
   else kg_is_defined g s) = bool_decide (is_Some (defined_at g0 s)).
Proof.
  intros Ha. case_bool_decide as Hsd.
  - apply bool_decide_ext. rewrite (ai_was _ _ _ _ Ha). tauto.
  - by rewrite kg_is_defined_spec, (ai_frame _ _ _ _ Ha).
Qed.

(** ** The keys a solver reports

    The loop over the cone that compares every slot's value before and after,
    shared by the solvers. *)
Section changed.
Context {V : Type} `{EqDecision V}.

Lemma kg_changed_spec g (C : gset nat) (undefined : list K) (after : nat → option (option V))
    (old new : nat → option V) :
  kg_inv g → (∀ s, s ∈ C → live g s) →
  NoDup undefined → (∀ k, k ∈ undefined → den g k = None) →
  (∀ s, s ∈ C → is_Some (defined_at g s) → after s = Some (new s)) →
  ∃ changed, foldM (λ changed '(slot, before),
      if kg_is_defined g slot then
        a ← after slot;
        Some (if decide (before = a) then changed
              else match di_key (kg_index g) slot with
                   | Some key => changed ++ [key]
                   | None => changed
                   end)
      else Some changed) undefined (zip (ascending C) (old <$> ascending C)) = Some changed ∧
    NoDup changed ∧
    (∀ k, k ∈ changed ↔ k ∈ undefined ∨
      ∃ s, s ∈ C ∧ di_slots (kg_index g) !! k = Some s ∧ is_Some (defined_at g s) ∧
        old s ≠ new s).
Proof.
  intros Hi HC Hnd Hund Hafter.
  assert (zip (ascending C) (old <$> ascending C) = (λ s, (s, old s)) <$> ascending C) as ->.
  { induction (ascending C); simpl; [done|by f_equal]. }
  destruct (foldM_spec (λ done changed, NoDup changed ∧
      (∀ k, k ∈ changed ↔ k ∈ undefined ∨
        ∃ s, s ∈ done.*1 ∧ di_slots (kg_index g) !! k = Some s ∧ is_Some (defined_at g s) ∧
          old s ≠ new s))
    (λ changed '(slot, before),
      if kg_is_defined g slot then
        a ← after slot;
        Some (if decide (before = a) then changed
              else match di_key (kg_index g) slot with
                   | Some key => changed ++ [key]
                   | None => changed
                   end)
      else Some changed) ((λ s, (s, old s)) <$> ascending C) undefined)
    as (changed & Hf & Hnd' & Hmem).
  - split; [done|]. intros k. split; [by left|].
    intros [?|(s & Hs & _)]; [done|by apply elem_of_nil in Hs].
  - intros done changed [s b] rest Heq [Hn Hm].
    assert (Hsb : (s, b) ∈ (λ s, (s, old s)) <$> ascending C) by (rewrite Heq; set_solver).
    apply list_elem_of_fmap in Hsb as (s' & [= <- ->] & Hs%elem_of_ascending).
    assert (Hsd : s ∉ done.*1).
    { assert (Hnd2 : NoDup (((λ s, (s, old s)) <$> ascending C).*1)).
      { rewrite <-list_fmap_compose, list_fmap_id. apply ascending_NoDup. }
      rewrite Heq, fmap_app, NoDup_app in Hnd2. destruct Hnd2 as (_ & Hnd2 & _).
      intros Hin. eapply Hnd2; [done|]. by left. }
    rewrite kg_is_defined_spec. case_bool_decide as Hdef.
    2:{ eexists. split; [done|]. split; [done|]. intros k. rewrite Hm, fmap_app.
        setoid_rewrite elem_of_app. setoid_rewrite list_elem_of_singleton. simpl.
        split; [intros [?|(s' & ? & ?)]; eauto|].
        intros [?|(s' & [?| ->] & ? & ? & ?)]; eauto 10; done. }
    rewrite (Hafter s) by done. simpl.
    destruct (HC s Hs) as [k0 Hk0].
    assert (di_key (kg_index g) s = Some k0) as ->.
    { by apply di_key_Some, (di_wf_bij _ (inv_index _ _ Hi)). }
    eexists. split; [done|]. case_decide as Heqv.
    + split; [done|]. intros k. rewrite Hm, fmap_app.
      setoid_rewrite elem_of_app. setoid_rewrite list_elem_of_singleton. simpl.
      split; [intros [?|(s' & ? & ?)]; eauto|].
      intros [?|(s' & [?| ->] & ? & ? & ?)]; eauto 10; done.
    + split.
      * apply NoDup_app. split; [done|]. split; [|by apply NoDup_singleton].
        intros k Hk ->%list_elem_of_singleton. apply Hm in Hk as [Hu|(s' & Hs' & Hk' & _)].
        -- apply Hund in Hu. apply (den_is_Some _ _ _ _ Hi Hk0) in Hdef. rewrite Hu in Hdef.
           by destruct Hdef.
        -- simplify_eq.
      * intros k. rewrite elem_of_app, list_elem_of_singleton, Hm, fmap_app.
        setoid_rewrite elem_of_app. setoid_rewrite list_elem_of_singleton. simpl. split.
        -- intros [[?|(s' & ? & ?)]| ->]; eauto 10.
        -- intros [?|(s' & [?| ->] & Hk & ? & ?)]; eauto 10. right.
           by eapply di_slot_inj; [apply Hi|..].
  - exists changed. split; [done|]. split; [done|]. intros k. rewrite Hmem.
    rewrite <-list_fmap_compose, list_fmap_id. by setoid_rewrite elem_of_ascending.
Qed.

End changed.

End spec.
