(* ===== verification/Lattice.v ===== *)
(** * Join-semilattices of finite height and least solutions

    The [Lattice] trait of [base/fixpoint/monotone.rs] as a class of operations
    with a class of laws, and the mathematics the K2 solver is measured
    against: equation systems over a graph, their Kleene iterates, and the
    least solution. Nothing here mentions slots or worklists. *)
From S2P Require Import Prelude.

(** [trait Lattice]. *)
Class Lattice (V : Type) := {
  bottom : V;
  join : V → V → V
}.

(** What the trait's documentation promises: a join-semilattice of finite
    height, the height measured by a rank. *)
Class LatticeLaws (V : Type) `{Lattice V} := {
  join_assoc : ∀ x y z : V, join x (join y z) = join (join x y) z;
  join_comm : ∀ x y : V, join x y = join y x;
  join_idem : ∀ x : V, join x x = x;
  join_bottom : ∀ x : V, join bottom x = x;
  rank : V → nat;
  height : nat;
  rank_height : ∀ x : V, rank x ≤ height;
  rank_strict : ∀ x y : V, join x y = y → x ≠ y → rank x < rank y
}.

Declare Scope lattice_scope.
Open Scope lattice_scope.

Definition leq {V} `{Lattice V} (x y : V) : Prop := join x y = y.
Infix "⊑" := leq (at level 70) : lattice_scope.

Section order.
Context {V : Type} `{LatticeLaws V}.
Implicit Types x y z : V.

#[export] Instance leq_po : PartialOrder (leq (V := V)).
Proof.
  unfold leq. split; [split|].
  - intros x. apply join_idem.
  - intros x y z Hxy Hyz. rewrite <-Hyz, join_assoc, Hxy. done.
  - intros x y Hxy Hyx. rewrite <-Hxy, join_comm, Hyx. done.
Qed.

Lemma leq_join_l x y : x ⊑ join x y.
Proof. unfold leq. by rewrite join_assoc, join_idem. Qed.

Lemma leq_join_r x y : y ⊑ join x y.
Proof. rewrite join_comm. apply leq_join_l. Qed.

Lemma join_lub x y z : x ⊑ z → y ⊑ z → join x y ⊑ z.
Proof. unfold leq. intros Hx Hy. by rewrite <-join_assoc, Hy. Qed.

Lemma bottom_least x : bottom ⊑ x.
Proof. apply join_bottom. Qed.

Lemma leq_bottom x : x ⊑ bottom → x = bottom.
Proof. intros Hx. apply (anti_symm leq); [done|apply bottom_least]. Qed.

#[export] Instance join_mono : Proper (leq ==> leq ==> leq) (join (V := V)).
Proof.
  intros x x' Hx y y' Hy. apply join_lub.
  - etrans; [exact Hx|apply leq_join_l].
  - etrans; [exact Hy|apply leq_join_r].
Qed.

End order.

#[export] Hint Resolve leq_join_l leq_join_r bottom_least : solid.

(** ** Equation systems

    [defs n] gives node [n] its direct value and its predecessors with their
    edges; an undefined node is [bottom]. *)
Section system.
Context {V : Type} `{LatticeLaws V}.
Context {N E : Type} (transfer : E → V → V).
Implicit Types (defs : N → option (V * list (N * E))) (v u : N → V) (n p : N).

Definition flow v (ps : list (N * E)) (d : V) : V :=
  foldl (λ acc '(p, e), join acc (transfer e (v p))) d ps.

(** The right-hand side of a node's equation. *)
Definition eval defs v n : V :=
  match defs n with
  | None => bottom
  | Some (d, ps) => flow v ps d
  end.

(** Kleene iterates from bottom. *)
Fixpoint iterate defs (m : nat) : N → V :=
  match m with
  | 0 => λ _, bottom
  | S m => λ n, eval defs (iterate defs m) n
  end.

(** [v] solves the system and lies below its iterates. *)
Definition is_least defs v : Prop :=
  (∀ n, v n = eval defs v n) ∧ (∀ n, ∃ m, v n ⊑ iterate defs m n).

Lemma flow_ext v u ps d : (∀ p e, (p, e) ∈ ps → v p = u p) → flow v ps d = flow u ps d.
Proof.
  intros Hp. unfold flow. apply foldl_ext_in. intros b [p e] Hin. by rewrite (Hp p e Hin).
Qed.

Lemma eval_ext defs1 defs2 v u n :
  defs1 n = defs2 n →
  (∀ d ps p e, defs2 n = Some (d, ps) → (p, e) ∈ ps → v p = u p) →
  eval defs1 v n = eval defs2 u n.
Proof.
  intros Hd Hp. unfold eval. rewrite Hd. destruct (defs2 n) as [[d ps]|] eqn:Hn; [|done].
  apply flow_ext. intros p e. by eapply Hp.
Qed.

(** A node's value is the least above its direct value and every transferred
    predecessor. *)
Lemma flow_above v ps d : d ⊑ flow v ps d.
Proof.
  unfold flow. revert d. induction ps as [|[p e] ps IH]; intros d; simpl; [done|].
  etrans; [apply leq_join_l|apply IH].
Qed.

Lemma flow_pred v ps d p e : (p, e) ∈ ps → transfer e (v p) ⊑ flow v ps d.
Proof.
  unfold flow. revert d. induction ps as [|[q f] ps IH]; intros d; [by intros ?%elem_of_nil|].
  intros [Hq|Hq]%elem_of_cons; simplify_eq/=.
  - etrans; [apply leq_join_r|]. apply (flow_above v ps).
  - by apply IH.
Qed.

Lemma flow_lub v ps d x :
  d ⊑ x → (∀ p e, (p, e) ∈ ps → transfer e (v p) ⊑ x) → flow v ps d ⊑ x.
Proof.
  unfold flow. revert d. induction ps as [|[p e] ps IH]; intros d Hd Hp; simpl; [done|].
  apply IH; [|intros; eapply Hp; by right]. apply join_lub; [done|]. eapply Hp. by left.
Qed.

Context (transfer_mono : ∀ e x y, x ⊑ y → transfer e x ⊑ transfer e y).

Lemma flow_mono v u ps d d' :
  d ⊑ d' → (∀ p e, (p, e) ∈ ps → v p ⊑ u p) → flow v ps d ⊑ flow u ps d'.
Proof.
  unfold flow. revert d d'. induction ps as [|[p e] ps IH]; intros d d' Hd Hp; simpl; [done|].
  apply IH; [|intros; eapply Hp; by right].
  apply join_mono; [done|]. apply transfer_mono. eapply Hp. by left.
Qed.

Lemma eval_mono defs v u n :
  (∀ d ps p e, defs n = Some (d, ps) → (p, e) ∈ ps → v p ⊑ u p) →
  eval defs v n ⊑ eval defs u n.
Proof.
  intros Hp. unfold eval. destruct (defs n) as [[d ps]|] eqn:Hn; [|done].
  apply flow_mono; [done|]. intros p e. by eapply Hp.
Qed.

Lemma iterate_step defs m n : iterate defs m n ⊑ iterate defs (S m) n.
Proof.
  revert n. induction m as [|m IH]; intros n; [apply bottom_least|].
  apply eval_mono. intros. apply IH.
Qed.

Lemma iterate_mono defs m m' n : m ≤ m' → iterate defs m n ⊑ iterate defs m' n.
Proof. induction 1; [done|]. etrans; [done|apply iterate_step]. Qed.

(** The iterates stay below every post-fixed point. *)
Lemma iterate_below defs u m n :
  (∀ n, eval defs u n ⊑ u n) → iterate defs m n ⊑ u n.
Proof.
  intros Hu. revert n. induction m as [|m IH]; intros n; [apply bottom_least|].
  etrans; [|apply Hu]. apply eval_mono. intros. apply IH.
Qed.

(** A least solution is below every post-fixed point, so it is unique. *)
Lemma is_least_below defs v u n :
  is_least defs v → (∀ n, eval defs u n ⊑ u n) → v n ⊑ u n.
Proof.
  intros [_ Hv] Hu. destruct (Hv n) as [m Hm]. etrans; [done|by apply iterate_below].
Qed.

Lemma is_least_unique defs v u : is_least defs v → is_least defs u → ∀ n, v n = u n.
Proof.
  intros Hv Hu n. apply (anti_symm leq).
  - apply (is_least_below defs); [done|]. intros m. by rewrite <-(proj1 Hu m).
  - apply (is_least_below defs); [done|]. intros m. by rewrite <-(proj1 Hv m).
Qed.

Lemma is_least_ext defs1 defs2 v :
  (∀ n, defs1 n = defs2 n) → is_least defs1 v → is_least defs2 v.
Proof.
  intros Hd [H1 H2].
  assert (Hit : ∀ m n, iterate defs1 m n = iterate defs2 m n).
  { induction m as [|m IH]; intros n; [done|]. simpl. apply eval_ext; [done|]. intros. apply IH. }
  split.
  - intros n. rewrite H1. by apply eval_ext.
  - intros n. destruct (H2 n) as [m Hm]. exists m. by rewrite <-Hit.
Qed.

(** One level of iterates bounds finitely many nodes. *)
Lemma common_iterate defs v (ps : list (N * E)) :
  (∀ n, ∃ m, v n ⊑ iterate defs m n) →
  ∃ m, ∀ p e, (p, e) ∈ ps → v p ⊑ iterate defs m p.
Proof.
  intros Hv. induction ps as [|[p e] ps [m IH]].
  - exists 0. by intros p e ?%elem_of_nil.
  - destruct (Hv p) as [m' Hm']. exists (Nat.max m m'). intros q f [Hq|Hq]%elem_of_cons.
    + simplify_eq. etrans; [done|]. apply iterate_mono. lia.
    + etrans; [by eapply IH|]. apply iterate_mono. lia.
Qed.

Lemma eval_bounded defs v n :
  (∀ n, ∃ m, v n ⊑ iterate defs m n) → ∃ m, eval defs v n ⊑ iterate defs m n.
Proof.
  intros Hv. destruct (defs n) as [[d ps]|] eqn:Hn.
  - destruct (common_iterate defs v ps Hv) as [m Hm]. exists (S m). apply eval_mono.
    intros d' ps' p e Hn' Hp. simplify_eq. eauto.
  - exists 0. unfold eval. by rewrite Hn.
Qed.

(** Two systems that agree on a set closed under predecessors have the same
    iterates there. *)
Lemma iterate_agree defs1 defs2 (P : N → Prop) m n :
  (∀ n, P n → defs1 n = defs2 n) →
  (∀ n d ps p e, P n → defs2 n = Some (d, ps) → (p, e) ∈ ps → P p) →
  P n → iterate defs1 m n = iterate defs2 m n.
Proof.
  intros Hd Hc. revert n. induction m as [|m IH]; intros n Hn; [done|]. simpl.
  apply eval_ext; [by apply Hd|]. intros d ps p e Hs Hp. apply IH. by eapply Hc.
Qed.

End system.

(** A strictly smaller summand with all others bounded makes a smaller sum. *)
Lemma sum_list_with_lt {A} (f g : A → nat) (l : list A) x :
  (∀ y, y ∈ l → f y ≤ g y) → x ∈ l → f x < g x →
  sum_list_with f l + 1 ≤ sum_list_with g l.
Proof.
  intros Hle Hx Hlt. induction l as [|y l IH]; [by apply elem_of_nil in Hx|]. simpl.
  assert (Hl : sum_list_with f l ≤ sum_list_with g l).
  { clear -Hle. induction l as [|z l IH]; simpl; [lia|].
    pose proof (Hle z). specialize (IH (λ w Hw, Hle w ltac:(set_solver))). set_solver by lia. }
  apply elem_of_cons in Hx as [->|Hx].
  - lia.
  - specialize (IH (λ w Hw, Hle w ltac:(set_solver)) Hx). pose proof (Hle y). set_solver by lia.
Qed.
