(* ===== verification/Monotone.v ===== *)
(** * K2: the kept monotone solver

    Model of [rust/crates/solid-reactive-ir/src/base/fixpoint/monotone.rs]:
    an update applies definition changes, takes the forward cone of the
    changed nodes (or every node), resets it to its direct values and runs a
    worklist on it, every value outside held. *)
From S2P Require Import Prelude SolverBase KeptGraph Lattice.

(** [Monotone<K, V, E>]. *)
Record Monotone (K V E : Type) `{Countable K} := mk_monotone {
  mo_graph : KeptGraph K V E;
  mo_values : list V
}.
Arguments mk_monotone {K V E _ _} _ _.
Arguments mo_graph {K V E _ _} _.
Arguments mo_values {K V E _ _} _.

Section monotone.
Context {K V E : Type} `{Countable K, EqDecision V, EqDecision E, Lattice V}.
Context (transfer : E → V → V).
Implicit Types (g : KeptGraph K V E) (m : Monotone K V E) (values : list V).

Definition mo_default : Monotone K V E := mk_monotone kg_default [].

(** [direct]. *)
Definition mo_direct g (slot : nat) : option V :=
  def ← kg_definition g slot;
  Some (match def with Some (direct, _) => direct | None => bottom end).

(** The reset loop of [solve]: direct values and the cone as flags. *)
Definition solve_reset g values (cone : gset nat) : option (list V * list bool) :=
  foldM (λ '(values, in_cone) slot,
    d ← mo_direct g slot;
    values ← values.[slot <- d];
    in_cone ← in_cone.[slot <- true];
    Some (values, in_cone))
    (values, replicate (length values) false) (ascending cone).

(** The value of a node's right-hand side on the current values. *)
Definition solve_next values (direct : V) (preds : list (nat * E)) : option V :=
  foldM (λ next '(pred, edge), v ← values !! pred; Some (join next (transfer edge v)))
    direct preds.

(** Queueing a changed node's readers. *)
Definition solve_push (in_cone : list bool) (queued : list bool) (queue : list nat)
    (readers : gset nat) : option (list bool * list nat) :=
  foldM (λ '(queued, queue) reader,
    inside ← in_cone !! reader;
    if (inside : bool) then
      waiting ← queued !! reader;
      if (waiting : bool) then Some (queued, queue)
      else queued ← queued.[reader <- true]; Some (queued, queue ++ [reader])
    else Some (queued, queue)) (queued, queue) (ascending readers).

(** The worklist; [None] is a panic or exhausted fuel (one unit per pop). *)
Fixpoint solve_loop (fuel : nat) g (in_cone : list bool) values (queued : list bool)
    (queue : list nat) : option (list V) :=
  match queue with
  | [] => Some values
  | slot :: queue =>
      match fuel with
      | 0 => None
      | S fuel =>
          queued ← queued.[slot <- false];
          def ← kg_definition g slot;
          match def with
          | None => solve_loop fuel g in_cone values queued queue
          | Some (direct, preds) =>
              next ← solve_next values direct preds;
              current ← values !! slot;
              if decide (next = current)
              then solve_loop fuel g in_cone values queued queue
              else
                values ← values.[slot <- next];
                readers ← kg_readers g slot;
                '(queued, queue) ← solve_push in_cone queued queue readers;
                solve_loop fuel g in_cone values queued queue
          end
      end
  end.

Definition mo_solve (fuel : nat) g values (cone : gset nat) : option (list V) :=
  '(values, in_cone) ← solve_reset g values cone;
  solve_loop fuel g in_cone values in_cone (ascending cone).

(** The cone an update solves: the seeds' forward cone, or every live slot when
    the seeds or the cone exceed a quarter of the nodes. *)
Definition mo_cone g (seeds : gset nat) (force_fresh : bool) : option (gset nat * bool) :=
  let nodes := di_len (kg_index g) in
  if force_fresh || fresh_cone (size seeds) nodes then
    cone ← kg_slots g; Some (cone, true)
  else
    cone ← kg_cone g seeds;
    if fresh_cone (size cone) nodes
    then cone ← kg_slots g; Some (cone, true)
    else Some (cone, false).

(** The value a slot of the cone had before the update, if it was defined. *)
Definition mo_before g (ap : Applied K) values (cone : gset nat) : option (list (option V)) :=
  mapM (λ slot,
    let defined := if bool_decide (slot ∈ ap_seeds ap)
                   then bool_decide (slot ∈ ap_was_defined ap)
                   else kg_is_defined g slot in
    if (defined : bool) then v ← values !! slot; Some (Some v) else Some None)
    (ascending cone).

(** The changed keys of an update, after [solve]. *)
Definition mo_changed g (ap : Applied K) values (cone : gset nat) (before : list (option V))
  : option (list K) :=
  foldM (λ changed '(slot, before),
    if kg_is_defined g slot then
      v ← values !! slot;
      Some (if decide (before = Some v) then changed
            else match di_key (kg_index g) slot with
                 | Some key => changed ++ [key]
                 | None => changed
                 end)
    else Some changed) (ap_undefined ap) (zip (ascending cone) before).

(** [update_with]. *)
Definition mo_update_with (fuel : nat) m (changes : list (Change K V E)) (force_fresh : bool)
  : option (Monotone K V E * Solved K) :=
  '(g, ap) ← kg_apply (mo_graph m) changes;
  let capacity := di_capacity (kg_index g) in
  let values := if decide (length (mo_values m) < capacity)
                then resize capacity bottom (mo_values m) else mo_values m in
  values ← foldM (λ values slot, values.[slot <- bottom]) values (ap_allocated ap);
  '(cone, fresh) ← mo_cone g (ap_seeds ap) force_fresh;
  before ← mo_before g ap values cone;
  values ← mo_solve fuel g values cone;
  changed ← mo_changed g ap values cone before;
  g ← kg_sweep g ap;
  Some (mk_monotone g values, mk_solved changed (size cone) fresh).

(** [update]. *)
Definition mo_update (fuel : nat) m (changes : list (Change K V E)) :=
  mo_update_with fuel m changes false.

(** [replace]: the seeds are the definitions that differ from the kept ones. *)
Definition mo_replace (fuel : nat) m (definitions : list (K * NodeDef K V E)) :=
  changes ← kg_diff (mo_graph m) definitions;
  mo_update fuel m changes.

(** [value]: the value of a defined node. *)
Definition mo_value m (k : K) : option V :=
  slot ← di_get (kg_index (mo_graph m)) k;
  if kg_is_defined (mo_graph m) slot then mo_values m !! slot else None.

(** [values]: every defined node with its value, by slot. *)
Definition mo_entries m : option (list (K * V)) :=
  slots ← di_live (kg_index (mo_graph m));
  foldM (λ acc slot,
    if kg_is_defined (mo_graph m) slot then
      match di_key (kg_index (mo_graph m)) slot with
      | Some key => v ← mo_values m !! slot; Some (acc ++ [(key, v)])
      | None => Some acc
      end
    else Some acc) [] slots.

(** [len]: defined nodes. *)
Definition mo_len m : nat := kg_defined (mo_graph m).

End monotone.
