(* ===== verification/MonotoneSpec.v ===== *)
(** * Correctness of the K2 solver

    An update of the kept solver terminates and leaves the least solution of
    the changed system, whatever part of it was recomputed (study lemma 4 of
    the source), and reports exactly the keys whose value moved. *)
From S2P Require Import Prelude SolverBase KeptGraph KeptGraphSpec Lattice Monotone.

Section spec.
Context {K V E : Type} `{Countable K, EqDecision V, EqDecision E, LatticeLaws V}.
Context (transfer : E → V → V).
Context (transfer_mono : ∀ e x y, x ⊑ y → transfer e x ⊑ transfer e y).
Implicit Types (g : KeptGraph K V E) (m : Monotone K V E) (values : list V) (s p r : nat).

(** The value vector as a function on slots. *)
Definition val values s : V := default bottom (values !! s).

Lemma val_insert values s s' x :
  s < length values → val (<[s := x]> values) s' = if decide (s' = s) then x else val values s'.
Proof.
  intros Hs. unfold val. case_decide; subst.
  - by rewrite list_lookup_insert_eq.
  - by rewrite list_lookup_insert_ne.
Qed.

Lemma val_lookup values s : s < length values → values !! s = Some (val values s).
Proof. intros [x Hx]%lookup_lt_is_Some_2. unfold val. by rewrite Hx. Qed.

Lemma solve_next_spec values d ps :
  (∀ p e, (p, e) ∈ ps → p < length values) →
  solve_next transfer values d ps = Some (flow transfer (val values) ps d).
Proof.
  unfold solve_next, flow. revert d. induction ps as [|[p e] ps IH]; intros d Hp; simpl; [done|].
  rewrite (val_lookup values p) by (eapply Hp; by left). simpl.
  apply IH. intros; eapply Hp. by right.
Qed.

(** Flags that record membership in a set or queue. *)
Definition flags (n : nat) (l : list bool) (P : nat → Prop) `{∀ s, Decision (P s)} : Prop :=
  length l = n ∧ ∀ s, s < n → l !! s = Some (bool_decide (P s)).

Lemma solve_push_spec n (C : gset nat) in_cone queued queue (readers : gset nat) :
  flags n in_cone (λ s, s ∈ C) → flags n queued (λ s, s ∈ queue) → NoDup queue →
  (∀ r, r ∈ readers → r < n) →
  ∃ queued' queue', solve_push in_cone queued queue readers = Some (queued', queue') ∧
    flags n queued' (λ s, s ∈ queue') ∧ NoDup queue' ∧
    (∀ s, s ∈ queue' ↔ s ∈ queue ∨ (s ∈ readers ∧ s ∈ C)) ∧
    length queue' ≤ length queue + size readers.
Proof.
  intros [Hl1 Hin] Hq Hnd Hr. unfold solve_push.
  destruct (foldM_spec (λ done '(queued', queue'),
      flags n queued' (λ s, s ∈ queue') ∧ NoDup queue' ∧
      (∀ s, s ∈ queue' ↔ s ∈ queue ∨ (s ∈ done ∧ s ∈ C)) ∧
      length queue' ≤ length queue + length done)
    (λ '(queued, queue) reader,
      inside ← in_cone !! reader;
      if (inside : bool) then
        waiting ← queued !! reader;
        if (waiting : bool) then Some (queued, queue)
        else queued ← queued.[reader <- true]; Some (queued, queue ++ [reader])
      else Some (queued, queue)) (ascending readers) (queued, queue))
    as ([queued' queue'] & Hf & HP).
  - split; [done|]. split; [done|]. split; [|simpl; lia]. set_solver.
  - intros done [qd q] r rest Heq ([Hl Hfl] & Hnd' & Hmem & Hlen).
    assert (Hrn : r < n) by (apply Hr, elem_of_ascending; rewrite Heq; set_solver).
    rewrite Hin by done. simpl. rewrite length_app. simpl.
    assert (Hskip : (r ∈ C → r ∈ q) → ∃ st : list bool * list nat,
      Some (qd, q) = Some st ∧ (let '(queued', queue') := st in flags n queued' (λ s, s ∈ queue') ∧ NoDup queue' ∧
        (∀ s, s ∈ queue' ↔ s ∈ queue ∨ (s ∈ done ++ [r] ∧ s ∈ C)) ∧
        length queue' ≤ length queue + (length done + 1))).
    { intros Hrq. exists (qd, q). split; [done|]. split; [done|]. split; [done|].
      split; [|lia]. intros s. rewrite elem_of_app, list_elem_of_singleton, Hmem. split.
      - intros [?|[? ?]]; [by left|right; auto].
      - intros [?|[[?| ->] ?]]; [by left|by right|]. apply Hmem. auto. }
    case_bool_decide as HrC; [|by apply Hskip].
    rewrite Hfl by done. simpl. case_bool_decide as Hrq; [by apply Hskip|].
    rewrite vec_set_spec by lia. simpl. eexists. split; [done|]. split; [|split; [|split]].
    + split; [by rewrite length_insert|]. intros s Hs. destruct (decide (s = r)) as [->|Hne].
      * rewrite list_lookup_insert_eq by lia. rewrite bool_decide_eq_true_2; [done|set_solver].
      * rewrite list_lookup_insert_ne, Hfl by done. f_equal. apply bool_decide_ext. set_solver.
    + apply NoDup_app. split; [done|]. split; [|by apply NoDup_singleton]. set_solver.
    + intros s. rewrite !elem_of_app, list_elem_of_singleton, Hmem. split.
      * intros [[?|[? ?]]| ->]; auto.
      * intros [?|[[?| ->] ?]]; auto.
    + rewrite length_app. simpl. lia.
  - rewrite Hf. destruct HP as (? & ? & Hmem & Hlen). eexists _, _. split; [done|].
    split; [done|]. split; [done|]. split; [|by rewrite length_ascending in Hlen].
    intros s. by rewrite Hmem, elem_of_ascending.
Qed.

(** ** The worklist *)

Section work.
Context g (C : gset nat) (values0 : list V).
Context (Hinv : kg_inv g) (Clive : ∀ s, s ∈ C → live g s) (Cclosed : closed_readers g C).

Record work values (queued : list bool) (queue : list nat) : Prop := {
  w_len : length values = length (kg_nodes g);
  w_flag : flags (length (kg_nodes g)) queued (λ s, s ∈ queue);
  w_nodup : NoDup queue;
  w_in : ∀ s, s ∈ queue → s ∈ C;
  w_out : ∀ s, s ∉ C → val values s = val values0 s;
  w_pre : ∀ s, s ∈ C → val values s ⊑ eval transfer (defined_at g) (val values) s;
  w_stable : ∀ s, s ∈ C → s ∉ queue →
    val values s = eval transfer (defined_at g) (val values) s;
  w_bound : ∀ s, ∃ n, val values s ⊑ iterate transfer (defined_at g) n s
}.

(** What the values of the cone can still rise by. *)
Definition slack values : nat :=
  sum_list_with (λ s, height (V := V) - rank (val values s)) (ascending C).

Definition work_measure values (queue : list nat) : nat :=
  slack values * S (length (kg_nodes g)) + length queue.

Lemma pred_range s d ps p e :
  defined_at g s = Some (d, ps) → (p, e) ∈ ps → p < length (kg_nodes g).
Proof.
  intros Hd Hp. eapply live_lt; [done|]. by eapply (inv_defined _ _ Hinv).
Qed.

(** Raising one node to its right-hand side. *)
Lemma work_raise values queued queue s queued' queue' :
  work values queued (s :: queue) →
  flags (length (kg_nodes g)) queued' (λ s', s' ∈ queue') → NoDup queue' →
  (∀ s', s' ∈ queue' ↔ s' ∈ queue ∨ (s' ∈ readers_at g s ∧ s' ∈ C)) →
  work (<[s := eval transfer (defined_at g) (val values) s]> values) queued' queue'.
Proof.
  intros Hw Hfl Hnd Hmem.
  assert (HsC : s ∈ C) by (apply (w_in _ _ _ Hw); by left).
  assert (Hlt : s < length values).
  { rewrite (w_len _ _ _ Hw). eapply live_lt; [done|by apply Clive]. }
  pose proof (λ s', val_insert values s s' (eval transfer (defined_at g) (val values) s) Hlt) as Hv.
  set (values' := <[s := _]> values) in *.
  assert (Hle : ∀ s', val values s' ⊑ val values' s').
  { intros s'. rewrite Hv. case_decide; [subst; by apply (w_pre _ _ _ Hw)|done]. }
  assert (Hev : ∀ s', eval transfer (defined_at g) (val values) s' ⊑
    eval transfer (defined_at g) (val values') s').
  { intros s'. apply eval_mono; [done|]. intros. apply Hle. }
  split.
  - unfold values'. rewrite length_insert. apply Hw.
  - done.
  - done.
  - intros s' [?|[_ ?]]%Hmem; [apply (w_in _ _ _ Hw); by right|done].
  - intros s' Hs'. rewrite Hv, decide_False by congruence. by apply (w_out _ _ _ Hw).
  - intros s' Hs'. etrans; [|apply Hev]. rewrite Hv. case_decide; [by subst|].
    by apply (w_pre _ _ _ Hw).
  - intros s' Hs' Hnq.
    (** A node that does not read [s] keeps its right-hand side. *)
    assert (Hsame : s' ∉ readers_at g s → eval transfer (defined_at g) (val values') s' =
      eval transfer (defined_at g) (val values) s').
    { intros Hnr. apply eval_ext; [done|]. intros d ps p e Hd Hp. rewrite Hv.
      case_decide as Hps; [|done]. subst p. destruct Hnr.
      by eapply (inv_defined _ _ Hinv s'). }
    assert (Hnr : s' ∉ readers_at g s) by (intros ?; apply Hnq, Hmem; auto).
    rewrite Hsame, Hv by done. case_decide as Hss; [by subst|].
    apply (w_stable _ _ _ Hw); [done|]. intros [?|?]%elem_of_cons; [done|].
    apply Hnq, Hmem. auto.
  - intros s'. rewrite Hv. case_decide; [|apply (w_bound _ _ _ Hw)]. subst.
    apply eval_bounded; [done|]. apply (w_bound _ _ _ Hw).
Qed.

(** Popping a node whose value is already its right-hand side. *)
Lemma work_skip values queued queue s queued' :
  work values queued (s :: queue) →
  flags (length (kg_nodes g)) queued' (λ s', s' ∈ queue) →
  val values s = eval transfer (defined_at g) (val values) s →
  work values queued' queue.
Proof.
  intros Hw Hfl Heq. pose proof (w_nodup _ _ _ Hw) as [_ Hnd]%NoDup_cons.
  split; try apply Hw; try done.
  - intros s' Hs'. apply (w_in _ _ _ Hw). by right.
  - intros s' Hs' Hq. destruct (decide (s' = s)) as [->|]; [done|].
    apply (w_stable _ _ _ Hw); [done|]. by intros [?|?]%elem_of_cons.
Qed.

Lemma slack_raise values queued queue s :
  work values queued (s :: queue) →
  eval transfer (defined_at g) (val values) s ≠ val values s →
  slack (<[s := eval transfer (defined_at g) (val values) s]> values) + 1 ≤ slack values.
Proof.
  intros Hw Hne. assert (HsC : s ∈ C) by (apply (w_in _ _ _ Hw); by left).
  assert (Hlt : s < length values).
  { rewrite (w_len _ _ _ Hw). eapply live_lt; [done|by apply Clive]. }
  assert (Hrk : rank (val values s) < rank (eval transfer (defined_at g) (val values) s)).
  { apply rank_strict; [by apply (w_pre _ _ _ Hw)|done]. }
  unfold slack. apply (sum_list_with_lt _ _ _ s).
  - intros s' _. rewrite val_insert by done. case_decide; [subst; lia|lia].
  - by apply elem_of_ascending.
  - rewrite val_insert, decide_True by done.
    pose proof (rank_height (eval transfer (defined_at g) (val values) s)). lia.
Qed.

Lemma readers_size s : size (readers_at g s) ≤ length (kg_nodes g).
Proof.
  rewrite (inv_len _ _ Hinv). apply size_live_set; [done|].
  intros r Hr. by apply (inv_readers_live _ _ Hinv) in Hr as [].
Qed.

Lemma solve_loop_spec fuel in_cone values queued queue :
  flags (length (kg_nodes g)) in_cone (λ s, s ∈ C) →
  work values queued queue → work_measure values queue ≤ fuel →
  ∃ values' queued', solve_loop transfer fuel g in_cone values queued queue = Some values' ∧
    work values' queued' [].
Proof.
  intros Hic. revert values queued queue.
  induction fuel as [|fuel IH]; intros values queued [|s queue] Hw Hm;
    try (by eexists _, _); unfold work_measure in Hm; simpl in Hm; [lia|].
  simpl.
  assert (HsC : s ∈ C) by (apply (w_in _ _ _ Hw); by left).
  assert (Hlt : s < length (kg_nodes g)) by (eapply live_lt; [done|by apply Clive]).
  destruct (w_flag _ _ _ Hw) as [Hlq Hfq].
  pose proof (w_nodup _ _ _ Hw) as [Hsq Hnd]%NoDup_cons.
  rewrite vec_set_spec by lia. simpl.
  assert (Hfl : flags (length (kg_nodes g)) (<[s := false]> queued) (λ s', s' ∈ queue)).
  { split; [by rewrite length_insert|]. intros s' Hs'. destruct (decide (s' = s)) as [->|Hne].
    - rewrite list_lookup_insert_eq by lia. by rewrite bool_decide_eq_false_2.
    - rewrite list_lookup_insert_ne, Hfq by done. f_equal. apply bool_decide_ext. set_solver. }
  destruct (lookup_lt_is_Some_2 _ _ Hlt) as [node Hnode].
  unfold kg_definition, kg_readers. rewrite Hnode. simpl.
  assert (Hd : defined_at g s = nd_defined node) by (unfold defined_at; by rewrite Hnode).
  assert (Hrd : readers_at g s = nd_readers node) by (unfold readers_at; by rewrite Hnode).
  destruct (nd_defined node) as [[d ps]|].
  - assert (Hev : eval transfer (defined_at g) (val values) s = flow transfer (val values) ps d).
    { unfold eval. by rewrite Hd. }
    rewrite solve_next_spec by
      (intros p e Hp; rewrite (w_len _ _ _ Hw); by eapply pred_range).
    simpl. rewrite (val_lookup values s) by (rewrite (w_len _ _ _ Hw); lia). simpl.
    rewrite <-Hev. case_decide as Heq.
    + apply IH; [by eapply work_skip|]. unfold work_measure. simpl. lia.
    + rewrite vec_set_spec by (rewrite (w_len _ _ _ Hw); lia). simpl. rewrite <-Hrd.
      destruct (solve_push_spec (length (kg_nodes g)) C in_cone _ queue (readers_at g s) Hic Hfl Hnd)
        as (queued' & queue' & Hpush & Hfl' & Hnd' & Hmem & Hlen).
      { intros r Hr. eapply live_lt; [done|]. by apply (inv_readers_live _ _ Hinv) in Hr as []. }
      rewrite Hpush. simpl. apply IH; [by eapply work_raise|].
      pose proof (slack_raise _ _ _ _ Hw Heq). pose proof (readers_size s).
      unfold work_measure in *. nia.
  - apply IH; [|unfold work_measure; simpl; lia]. eapply work_skip; [done..|].
    assert (Hev : eval transfer (defined_at g) (val values) s = bottom) by
      (unfold eval; by rewrite Hd).
    rewrite Hev. apply leq_bottom. rewrite <-Hev. by apply (w_pre _ _ _ Hw).
Qed.

(** The direct value of a slot. *)
Definition direct_at s : V :=
  match defined_at g s with Some (d, _) => d | None => bottom end.

Lemma mo_direct_spec s : s ∈ C → mo_direct g s = Some (direct_at s).
Proof.
  intros Hs. unfold mo_direct, kg_definition, direct_at, defined_at.
  destruct (lookup_lt_is_Some_2 _ _ (live_lt _ _ _ Hinv (Clive _ Hs))) as [node Hnode].
  rewrite Hnode. simpl. by destruct (nd_defined node) as [[]|].
Qed.

Lemma solve_reset_spec :
  length values0 = length (kg_nodes g) →
  ∃ values in_cone, solve_reset g values0 C = Some (values, in_cone) ∧
    length values = length (kg_nodes g) ∧
    flags (length (kg_nodes g)) in_cone (λ s, s ∈ C) ∧
    (∀ s, val values s = if decide (s ∈ C) then direct_at s else val values0 s).
Proof.
  intros Hlen. unfold solve_reset.
  destruct (foldM_spec (λ done '(values, in_cone), length values = length (kg_nodes g) ∧
      flags (length (kg_nodes g)) in_cone (λ s, s ∈ done) ∧
      (∀ s, val values s = if decide (s ∈ done) then direct_at s else val values0 s))
    (λ '(values, in_cone) slot,
      d ← mo_direct g slot;
      values ← values.[slot <- d];
      in_cone ← in_cone.[slot <- true];
      Some (values, in_cone)) (ascending C) (values0, replicate (length values0) false))
    as ([values in_cone] & Hf & Hl & Hfl & Hv).
  - split; [done|]. split; [|intros s; by rewrite decide_False by apply not_elem_of_nil].
    split; [by rewrite length_replicate|]. intros s Hs.
    rewrite lookup_replicate_2 by lia. by rewrite bool_decide_eq_false_2 by apply not_elem_of_nil.
  - intros done [vs fs] s rest Heq (Hl & [Hlf Hff] & Hv).
    assert (Hs : s ∈ C) by (apply elem_of_ascending; rewrite Heq; set_solver).
    assert (Hlt : s < length (kg_nodes g)) by (eapply live_lt; [done|by apply Clive]).
    rewrite mo_direct_spec by done. simpl. rewrite !vec_set_spec by lia. simpl.
    eexists. split; [done|]. split; [by rewrite length_insert|]. split.
    + split; [by rewrite length_insert|]. intros s' Hs'. destruct (decide (s' = s)) as [->|Hne].
      * rewrite list_lookup_insert_eq by lia. by rewrite bool_decide_eq_true_2 by set_solver.
      * rewrite list_lookup_insert_ne, Hff by done. f_equal. apply bool_decide_ext. set_solver.
    + intros s'. rewrite val_insert by lia. destruct (decide (s' = s)) as [->|Hne].
      * by rewrite decide_True by set_solver.
      * rewrite Hv. apply decide_ext. set_solver.
  - rewrite Hf. eexists _, _. split; [done|]. split; [done|].
    split.
    + destruct Hfl as [? Hfl]. split; [done|]. intros s Hs. rewrite Hfl by done. f_equal.
      apply bool_decide_ext, elem_of_ascending.
    + intros s. rewrite Hv. apply decide_ext, elem_of_ascending.
Qed.

Lemma direct_below v s : direct_at s ⊑ eval transfer (defined_at g) v s.
Proof.
  unfold direct_at, eval. destruct (defined_at g s) as [[d ps]|]; [apply flow_above|done].
Qed.

(** ** [solve] leaves the least solution *)

Context (defs0 : nat → option (V * list (nat * E))).
Context (Hframe : ∀ s, s ∉ C → defined_at g s = defs0 s).
Context (Hleast0 : is_least transfer defs0 (val values0)).

(** A node outside the cone reads nothing inside it. *)
Lemma outside_preds s d ps p e :
  s ∉ C → defined_at g s = Some (d, ps) → (p, e) ∈ ps → p ∉ C.
Proof.
  intros Hs Hd Hp HpC. apply Hs. eapply Cclosed; [exact HpC|].
  by eapply (inv_defined _ _ Hinv).
Qed.

Lemma outside_bound s : s ∉ C → ∃ n, val values0 s ⊑ iterate transfer (defined_at g) n s.
Proof.
  intros Hs. destruct (proj2 Hleast0 s) as [n Hn]. exists n.
  rewrite (iterate_agree _ _ defs0 (λ s, s ∉ C)); [done|done| |done].
  intros s' d ps p e Hs' Hd. rewrite <-Hframe in Hd by done. by eapply outside_preds.
Qed.

Definition solve_bound (n : nat) : nat := n * height (V := V) * S n + n.

Lemma slack_bound values : slack values ≤ size C * height (V := V).
Proof.
  unfold slack. rewrite <-length_ascending. induction (ascending C) as [|s l IH]; simpl; lia.
Qed.

Lemma mo_solve_spec fuel :
  length values0 = length (kg_nodes g) → solve_bound (length (kg_nodes g)) ≤ fuel →
  ∃ values, mo_solve transfer fuel g values0 C = Some values ∧
    length values = length (kg_nodes g) ∧
    (∀ s, s ∉ C → val values s = val values0 s) ∧
    is_least transfer (defined_at g) (val values).
Proof.
  intros Hlen Hfuel. unfold mo_solve.
  destruct (solve_reset_spec Hlen) as (values1 & in_cone & Hres & Hl1 & Hfl & Hv1).
  rewrite Hres. simpl.
  assert (Hsz : size C ≤ length (kg_nodes g)).
  { rewrite (inv_len _ _ Hinv). by apply size_live_set. }
  destruct (solve_loop_spec fuel in_cone values1 in_cone (ascending C) Hfl)
    as (values & queued & Hloop & Hw).
  - split.
    + done.
    + destruct Hfl as [? Hfl]. split; [done|]. intros s Hs. rewrite Hfl by done. f_equal.
      symmetry. apply bool_decide_ext, elem_of_ascending.
    + apply ascending_NoDup.
    + intros s. apply elem_of_ascending.
    + intros s Hs. by rewrite Hv1, decide_False.
    + intros s Hs. rewrite Hv1, decide_True by done. apply direct_below.
    + intros s Hs Hn. by rewrite elem_of_ascending in Hn.
    + intros s. rewrite Hv1. case_decide as Hs; [|by apply outside_bound].
      exists 1. apply direct_below.
  - unfold work_measure, solve_bound in *. pose proof (slack_bound values1).
    rewrite length_ascending. nia.
  - exists values. split; [done|]. split; [apply Hw|]. split; [apply Hw|]. split; [|apply Hw].
    intros s. destruct (decide (s ∈ C)) as [Hs|Hs].
    + apply (w_stable _ _ _ Hw); [done|apply not_elem_of_nil].
    + rewrite (w_out _ _ _ Hw) by done. rewrite (proj1 Hleast0 s). symmetry.
      apply eval_ext; [by apply Hframe|]. intros d ps p e Hd Hp.
      apply (w_out _ _ _ Hw). rewrite <-Hframe in Hd by done. by eapply outside_preds.
Qed.

End work.

(** ** Invariant and update *)

Record mo_inv m : Prop := {
  mi_graph : kg_inv (mo_graph m);
  mi_len : length (mo_values m) = length (kg_nodes (mo_graph m));
  mi_least : is_least transfer (defined_at (mo_graph m)) (val (mo_values m));
  mi_swept : ∀ s, live (mo_graph m) s → ¬ idle (mo_graph m) s
}.

Lemma mo_default_inv : mo_inv mo_default.
Proof.
  split; simpl; [apply kg_default_inv|done| |].
  - split.
    + intros s. unfold val, eval, defined_at; simpl. by destruct s.
    + intros s. exists 0. unfold val. by destruct s.
  - intros s [k Hk]. simpl in Hk. by rewrite lookup_empty in Hk.
Qed.

Lemma mo_cone_spec g (seeds : gset nat) force :
  kg_inv g → (∀ s, s ∈ seeds → live g s) →
  ∃ C fresh, mo_cone g seeds force = Some (C, fresh) ∧ seeds ⊆ C ∧
    (∀ s, s ∈ C → live g s) ∧ closed_readers g C.
Proof.
  intros Hi Hs. unfold mo_cone.
  destruct (kg_slots_spec g Hi) as (all & Hsl & Hall).
  assert (Hcl : closed_readers g all).
  { intros s r _ Hr. apply Hall. by apply (inv_readers_live _ _ Hi) in Hr as []. }
  assert (Hsub : seeds ⊆ all) by (intros s Hin; by apply Hall, Hs).
  destruct (force || fresh_cone (size seeds) (di_len (kg_index g))).
  - rewrite Hsl. simpl. eexists _, _. split; [done|]. split; [done|].
    split; [by intros; apply Hall|done].
  - destruct (kg_cone_spec g seeds Hi Hs) as (C & Hc & H4 & H5 & H6 & _). rewrite Hc. simpl.
    destruct (fresh_cone _ _); [rewrite Hsl; simpl|]; (eexists _, _; split; [done|]);
      [split; [done|]; split; [by intros; apply Hall|done]|done].
Qed.

(** The old value of a slot, when it was defined. *)
Definition old_value g0 values0 s : option V :=
  if defined_at g0 s is Some _ then Some (val values0 s) else None.

Lemma mo_before_spec g0 g ap n values (C : gset nat) :
  applied_inv g0 g ap n → (∀ s, s ∈ C → s < length values) →
  mo_before g ap values C = Some (old_value g0 values <$> ascending C).
Proof.
  intros Ha Hr. unfold mo_before. apply mapM_Some, Forall2_fmap_r, Forall_Forall2_diag.
  apply Forall_forall. intros s Hs%elem_of_ascending.
  rewrite (was_defined_spec _ _ _ _ s Ha).
  unfold compose, old_value. destruct (defined_at g0 s) eqn:Hd.
  - rewrite bool_decide_eq_true_2 by done. by rewrite (val_lookup values s), ?Hd by auto.
  - rewrite bool_decide_eq_false_2 by (by intros []). by rewrite ?Hd.
Qed.

Lemma mo_changed_spec g ap values (C : gset nat) (old : nat → option V) :
  kg_inv g → (∀ s, s ∈ C → live g s) → length values = length (kg_nodes g) →
  NoDup (ap_undefined ap) → (∀ k, k ∈ ap_undefined ap → den g k = None) →
  ∃ changed, mo_changed g ap values C (old <$> ascending C) = Some changed ∧ NoDup changed ∧
    (∀ k, k ∈ changed ↔ k ∈ ap_undefined ap ∨
      ∃ s, s ∈ C ∧ di_slots (kg_index g) !! k = Some s ∧ is_Some (defined_at g s) ∧
        old s ≠ Some (val values s)).
Proof.
  intros Hi HC Hlen Hnd Hund. unfold mo_changed.
  destruct (kg_changed_spec g C (ap_undefined ap) (λ s, Some <$> values !! s) old
    (λ s, Some (val values s)) Hi HC Hnd Hund) as (changed & Hf & ?).
  { intros s Hs _. rewrite (val_lookup values s); [done|].
    rewrite Hlen. eapply live_lt; [done|by apply HC]. }
  exists changed. split; [|done]. rewrite <- Hf. apply foldM_ext. intros ch [slot before] _.
  destruct (kg_is_defined g slot); [|done]. by destruct (values !! slot).
Qed.

(** Resizing and clearing the allocated slots changes no value: they were
    undefined, so bottom. *)
Lemma mo_prepare_spec m g ap n :
  mo_inv m → applied_inv (mo_graph m) g ap n →
  let capacity := di_capacity (kg_index g) in
  let values := if decide (length (mo_values m) < capacity)
                then resize capacity bottom (mo_values m) else mo_values m in
  ∃ values', foldM (λ values slot, values.[slot <- bottom]) values (ap_allocated ap) = Some values' ∧
    length values' = length (kg_nodes g) ∧ (∀ s, val values' s = val (mo_values m) s).
Proof.
  intros Hm Ha capacity values. pose proof (ai_inv _ _ _ _ Ha) as Hi.
  pose proof (gr_mono _ _ _ _ _ (ai_grows _ _ _ _ Ha)) as Hmono.
  assert (Hlv : length values = length (kg_nodes g) ∧ ∀ s, val values s = val (mo_values m) s).
  { pose proof (inv_len _ _ (mi_graph _ Hm)). pose proof (inv_len _ _ Hi).
    pose proof (mi_len _ Hm). subst values. unfold capacity in *. case_decide as Hlt.
    - rewrite length_resize. split; [done|]. intros s. unfold val.
      destruct (decide (s < length (mo_values m))).
      + by rewrite lookup_resize by lia.
      + rewrite (lookup_ge_None_2 (mo_values m)) by lia.
        destruct (decide (s < di_capacity (kg_index g)));
          [by rewrite lookup_resize_new by lia|by rewrite lookup_resize_old by lia].
    - split; [lia|done]. }
  destruct Hlv as [Hlen Hval].
  destruct (foldM_spec (λ _ values', length values' = length (kg_nodes g) ∧
      ∀ s, val values' s = val (mo_values m) s)
    (λ values slot, values.[slot <- bottom]) (ap_allocated ap) values) as (values' & Hf & HP).
  - done.
  - intros done vs s rest Heq [Hl Hv].
    destruct (gr_new _ _ _ _ _ (ai_grows _ _ _ _ Ha) s) as [[]%elem_of_nil|[Hlive Hdead]].
    { rewrite Heq. set_solver. }
    pose proof (live_lt _ _ _ Hi Hlive). rewrite vec_set_spec by lia. eexists. split; [done|].
    split; [by rewrite length_insert|]. intros s'. rewrite val_insert by lia.
    case_decide; [|done]. subst. rewrite (proj1 (mi_least _ Hm) s). unfold eval.
    by rewrite (dead_undefined _ _ _ (mi_graph _ Hm) Hdead).
  - exists values'. rewrite Hf. split; [done|]. apply HP.
Qed.

(** [value] on an invariant solver: no panic, and nothing for an undefined key. *)
Lemma mo_value_spec m k v :
  mo_inv m → mo_value m k = Some v ↔
  ∃ s, di_slots (kg_index (mo_graph m)) !! k = Some s ∧
    is_Some (defined_at (mo_graph m) s) ∧ v = val (mo_values m) s.
Proof.
  intros Hm. unfold mo_value, di_get.
  destruct (di_slots (kg_index (mo_graph m)) !! k) as [s|] eqn:Hk; simpl.
  - rewrite kg_is_defined_spec. case_bool_decide as Hd.
    + rewrite (val_lookup (mo_values m) s).
      2:{ rewrite (mi_len _ Hm). eapply live_lt; [apply Hm|by exists k]. }
      split; [intros [= <-]; eauto|]. intros (s' & ? & _ & ->). by simplify_eq.
    + split; [done|]. intros (s' & ? & ? & _). by simplify_eq.
  - split; [done|]. naive_solver.
Qed.

Lemma mo_value_is_Some m k :
  mo_inv m → is_Some (mo_value m k) ↔ is_Some (den (mo_graph m) k).
Proof.
  intros Hm. split.
  - intros [v (s & Hk & Hd & _)%(mo_value_spec _ _ _ Hm)].
    by apply (den_is_Some _ _ _ _ (mi_graph _ Hm) Hk).
  - intros Hd. destruct (di_slots (kg_index (mo_graph m)) !! k) as [s|] eqn:Hk.
    + apply (den_is_Some _ _ _ _ (mi_graph _ Hm) Hk) in Hd.
      eexists. apply (mo_value_spec _ _ _ Hm). eauto.
    + unfold den in Hd. rewrite Hk in Hd. by destruct Hd.
Qed.

(** The value a slot of the changed graph had before is its key's old value. *)
Lemma old_value_key m g ap n k s :
  mo_inv m → applied_inv (mo_graph m) g ap n → di_slots (kg_index g) !! k = Some s →
  old_value (mo_graph m) (mo_values m) s = mo_value m k.
Proof.
  intros Hm Ha Hk. pose proof (ai_grows _ _ _ _ Ha) as Hgr.
  unfold old_value. destruct (defined_at (mo_graph m) s) as [[d ps]|] eqn:Hd.
  - symmetry. apply (mo_value_spec _ _ _ Hm). exists s. split; [|by rewrite Hd].
    destruct (inv_defined _ _ (mi_graph _ Hm) _ _ _ Hd) as [[k' Hk'] _].
    pose proof (lookup_weaken _ _ _ _ Hk' (gr_slots _ _ _ _ _ Hgr)) as Hk2.
    by rewrite (di_slot_inj _ _ _ _ (inv_index _ _ (ai_inv _ _ _ _ Ha)) Hk Hk2).
  - symmetry. apply eq_None_not_Some. intros [v Hv].
    apply (mo_value_spec _ _ _ Hm) in Hv as (s' & Hk' & Hs' & _).
    pose proof (lookup_weaken _ _ _ _ Hk' (gr_slots _ _ _ _ _ Hgr)). simplify_eq.
    rewrite Hd in Hs'. by destruct Hs'.
Qed.

Lemma mo_update_spec fuel m changes force :
  mo_inv m → di_room (kg_index (mo_graph m)) (changes_size changes) →
  solve_bound (di_capacity (kg_index (mo_graph m)) + changes_size changes) ≤ fuel →
  ∃ m' solved, mo_update_with transfer fuel m changes force = Some (m', solved) ∧ mo_inv m' ∧
    (∀ k, den (mo_graph m') k = defs_after (den (mo_graph m)) changes k) ∧
    NoDup (so_changed solved) ∧
    (∀ k, k ∈ so_changed solved ↔ mo_value m' k ≠ mo_value m k).
Proof.
  intros Hm Hroom Hfuel. unfold mo_update_with.
  destruct (kg_apply_spec _ changes (mi_graph _ Hm) Hroom)
    as (g & ap & Hap & Ha & Hden & Hndu & Hund). rewrite Hap. simpl.
  pose proof (ai_inv _ _ _ _ Ha) as Hi. pose proof (ai_grows _ _ _ _ Ha) as Hgr.
  destruct (mo_prepare_spec m g ap _ Hm Ha) as (values & Hprep & Hlen & Hval).
  simpl in Hprep. rewrite Hprep. simpl.
  destruct (mo_cone_spec g (ap_seeds ap) force Hi (ai_seeds _ _ _ _ Ha))
    as (C & fresh & Hc & HsC & HCl & HCc). rewrite Hc. simpl.
  rewrite (mo_before_spec (mo_graph m) g ap (changes_size changes) values C) by
    (done || (intros s Hs; rewrite Hlen; eapply live_lt; [done|by apply HCl])). simpl.
  assert (Hframe : ∀ s, s ∉ C → defined_at g s = defined_at (mo_graph m) s).
  { intros s Hs. apply (ai_frame _ _ _ _ Ha). set_solver. }
  assert (Hleast : is_least transfer (defined_at (mo_graph m)) (val values)).
  { destruct (mi_least _ Hm) as [Hs Hb]. split.
    - intros s. rewrite Hval, Hs. apply eval_ext; [done|]. intros. by rewrite Hval.
    - intros s. rewrite Hval. apply Hb. }
  destruct (mo_solve_spec g C values Hi HCl HCc _ Hframe Hleast fuel Hlen)
    as (values' & Hsol & Hlen' & Hout & Hleast').
  { pose proof (gr_cap _ _ _ _ _ Hgr). pose proof (inv_len _ _ Hi).
    unfold solve_bound in *. nia. }
  rewrite Hsol. simpl.
  assert (Hold : ∀ s, old_value (mo_graph m) values s = old_value (mo_graph m) (mo_values m) s).
  { intros s. unfold old_value. by rewrite Hval. }
  destruct (mo_changed_spec g ap values' C (old_value (mo_graph m) values) Hi HCl Hlen' Hndu)
    as (changed & Hch & Hndc & Hmem).
  { intros k Hk. by apply Hund in Hk as []. }
  rewrite Hch. simpl.
  destruct (kg_sweep_spec g ap Hi (ai_cand_live _ _ _ _ Ha))
    as (g' & Hsw & Hi' & Hn' & Hd' & Hl' & Hcap' & Hss'). rewrite Hsw. simpl.
  assert (Hdef' : ∀ s, defined_at g' s = defined_at g s) by (unfold defined_at; by rewrite Hn').
  assert (Hrd' : ∀ s, readers_at g' s = readers_at g s) by (unfold readers_at; by rewrite Hn').
  assert (Hm' : mo_inv (mk_monotone g' values')).
  { split; simpl; [done|by rewrite Hn'| |].
    - eapply is_least_ext; [|exact Hleast']. done.
    - intros s Hs [Hid1 Hid2]. apply Hl' in Hs as [Hs Hn]. rewrite Hdef' in Hid1. rewrite Hrd' in Hid2.
      apply Hn. split; [|done]. destruct (ai_cand _ _ _ _ Ha s Hs Hid1 Hid2) as [|(Hs0 & ? & ?)]; [done|].
      by destruct (mi_swept _ Hm s Hs0). }
  eexists _, _. split; [done|]. split; [done|]. simpl.
  split; [intros k; by rewrite Hd'|]. split; [done|].
  intros k. rewrite Hmem, Hund. setoid_rewrite Hold.
  destruct (den g k) as [dk|] eqn:Hdk.
  - (** Defined after the update: the key's slot carries both values. *)
    assert (Hsome : is_Some (mo_value (mk_monotone g' values') k)).
    { apply (mo_value_is_Some _ _ Hm'). simpl. rewrite Hd', Hdk. by eexists. }
    destruct Hsome as [v Hv]. rewrite Hv.
    apply (mo_value_spec _ _ _ Hm') in Hv as (s & Hk & Hds & ->). simpl in *.
    rewrite Hdef' in Hds. pose proof (lookup_weaken _ _ _ _ Hk Hss') as Hkg.
    rewrite <-(old_value_key m g ap _ k s Hm Ha Hkg). split.
    + intros [[_ ?]|(s' & HsC' & Hk' & _ & Hne)]; [done|]. simplify_eq. congruence.
    + intros Hne. right. exists s. split; [|split; [done|split; [done|congruence]]].
      destruct (decide (s ∈ C)) as [|Hns]; [done|]. destruct Hne.
      unfold old_value. rewrite <-Hframe by done. destruct Hds as [x ->].
      by rewrite Hout, Hval by done.
  - assert (mo_value (mk_monotone g' values') k = None) as ->.
    { apply eq_None_not_Some. rewrite (mo_value_is_Some _ _ Hm'). simpl. rewrite Hd', Hdk.
      by intros []. }
    rewrite <-(mo_value_is_Some _ _ Hm). split.
    + intros [[[v ->] _]|(s & _ & Hk & Hds & _)]; [done|].
      apply (den_is_Some _ _ _ _ Hi Hk) in Hds. rewrite Hdk in Hds. by destruct Hds.
    + intros Hne. left. split; [|done]. destruct (mo_value m k); [by eexists|done].
Qed.

(** ** The solution by key *)

(** A definition map as an equation system. *)
Definition system (defs : K → option (NodeDef K V E)) (k : K) : option (V * list (K * E)) :=
  (λ d, (input d, preds d)) <$> defs k.

(** A slot's equation is its key's equation. *)
Lemma eval_key g k s (v : nat → V) (u : K → V) :
  kg_inv g → di_slots (kg_index g) !! k = Some s →
  (∀ k' s', di_slots (kg_index g) !! k' = Some s' → v s' = u k') →
  eval transfer (defined_at g) v s = eval transfer (system (den g)) u k.
Proof.
  intros Hi Hk Hvu. unfold eval, system, den. rewrite Hk. simpl.
  destruct (defined_at g s) as [[d ps]|] eqn:Hd; simpl; [|done].
  assert (is_Some (den g k)) as [dk Hdk] by (apply (den_is_Some _ _ _ _ Hi Hk); by rewrite Hd).
  unfold den in Hdk. rewrite Hk in Hdk. simpl in Hdk. rewrite Hd in Hdk. simpl in Hdk.
  destruct (mapM (key_edge (kg_index g)) ps) as [qs|] eqn:Hm; simpl in *; [|done].
  clear Hdk dk Hd. apply mapM_Some in Hm. unfold flow. revert d.
  induction Hm as [|[p e] [q e'] ps qs Hpq Hm IH]; intros d; simpl; [done|].
  unfold key_edge in Hpq. simpl in Hpq. destruct (di_key (kg_index g) p) as [q'|] eqn:Hp; [|done].
  simplify_eq/=. apply di_key_Some, (di_wf_bij _ (inv_index _ _ Hi)) in Hp.
  rewrite (Hvu _ _ Hp). apply IH.
Qed.

Lemma iterate_key g k s n :
  kg_inv g → di_slots (kg_index g) !! k = Some s →
  iterate transfer (defined_at g) n s = iterate transfer (system (den g)) n k.
Proof.
  intros Hi. revert k s. induction n as [|n IH]; intros k s Hk; [done|].
  simpl. by apply eval_key.
Qed.

(** The values an invariant solver answers are the least solution of its
    definitions. *)
Lemma mo_inv_least m :
  mo_inv m →
  is_least transfer (system (den (mo_graph m))) (λ k, default bottom (mo_value m k)).
Proof.
  intros Hm. pose proof (mi_graph _ Hm) as Hi. destruct (mi_least _ Hm) as [Hsol Hbd].
  assert (Hval : ∀ k s, di_slots (kg_index (mo_graph m)) !! k = Some s →
    val (mo_values m) s = default bottom (mo_value m k)).
  { intros k s Hk. destruct (mo_value m k) as [v|] eqn:Hv; simpl.
    - apply (mo_value_spec _ _ _ Hm) in Hv as (s' & Hk' & _ & ->). by simplify_eq.
    - rewrite Hsol. unfold eval. destruct (defined_at (mo_graph m) s) eqn:Hd; [|done].
      assert (is_Some (mo_value m k)) as [? ?]; [|congruence].
      apply (mo_value_is_Some _ _ Hm), (den_is_Some _ _ _ _ Hi Hk). by rewrite Hd. }
  assert (Hnone : ∀ k, di_slots (kg_index (mo_graph m)) !! k = None → mo_value m k = None).
  { intros k Hk. unfold mo_value, di_get. by rewrite Hk. }
  split; intros k; destruct (di_slots (kg_index (mo_graph m)) !! k) as [s|] eqn:Hk.
  - rewrite <-(Hval _ _ Hk), Hsol. by apply eval_key.
  - rewrite (Hnone _ Hk). unfold eval, system, den. by rewrite Hk.
  - rewrite <-(Hval _ _ Hk). destruct (Hbd s) as [n Hn]. exists n. by rewrite <-(iterate_key _ _ s).
  - exists 0. by rewrite (Hnone _ Hk).
Qed.

End spec.
