(* ===== verification/KeptSolver.v ===== *)
(** * The solver kept between builds

    [diff] of [base/fixpoint/graph.rs], [replace] of [monotone.rs] and
    [MemoStore::solve_monotone] of [base/fixpoint/kept.rs]: a pass hands over
    its whole definition list, the kept solver finds what changed, and the
    verify mode compares the kept answers with a fresh solve. *)
From stdpp Require Import strings.
From S2P Require Import Prelude SolverBase KeptGraph KeptGraphSpec Lattice.
From S2P Require Import Monotone MonotoneSpec.

(** The byte order of strings ([Ord for String]). *)
Definition string_le (a b : string) : Prop := String.leb a b = true.

#[export] Instance string_le_dec a b : Decision (string_le a b).
Proof. unfold string_le. apply _. Defined.

Section definitions.
Context {K V E : Type} `{Countable K, EqDecision V, EqDecision E, Lattice V}.
Context (transfer : E → V → V).
(** [format!("{key:?}")]. *)
Context (debug : K → string).
Implicit Types (m : Monotone K V E).

(** [first_difference]. *)
Definition first_difference (kept fresh : Monotone K V E) : option (option string) :=
  fresh_entries ← mo_entries fresh;
  kept_entries ← mo_entries kept;
  let differing :=
    (debug ∘ fst <$> filter (λ kv, mo_value kept kv.1 ≠ Some kv.2) fresh_entries) ++
    (debug ∘ fst <$> filter (λ kv, mo_value fresh kv.1 = None) kept_entries) in
  Some (head (merge_sort string_le differing)).

(** [solve_monotone]: the solver, what moved, and the key a verify mismatch
    poisons the store with. [kept] is [None] when the store keeps no solver. *)
Definition solve_monotone (fuel : nat) (check : bool) (kept : option (Monotone K V E))
    (definitions : list (K * NodeDef K V E))
  : option (Monotone K V E * Solved K * option string) :=
  let was_kept := bool_decide (is_Some kept) in
  '(solver, solved) ← mo_replace transfer fuel (default mo_default kept) definitions;
  let solved := mk_solved (so_changed solved) (so_recomputed solved)
                  (so_fresh solved || negb was_kept) in
  if check && was_kept then
    '(fresh, _) ← mo_replace transfer fuel mo_default definitions;
    difference ← first_difference solver fresh;
    match difference with
    | None => Some (solver, solved, None)
    | Some key =>
        kept_entries ← mo_entries solver;
        fresh_entries ← mo_entries fresh;
        let changed := kept_entries.*1 ++
          (filter (λ kv, mo_value solver kv.1 = None) fresh_entries).*1 in
        Some (fresh, mk_solved changed (mo_len fresh) true, Some key)
    end
  else Some (solver, solved, None).

End definitions.

Section spec.
Context {K V E : Type} `{Countable K, EqDecision V, EqDecision E, LatticeLaws V}.
Context (transfer : E → V → V).
Context (transfer_mono : ∀ e x y, x ⊑ y → transfer e x ⊑ transfer e y).
Implicit Types (g : KeptGraph K V E) (m : Monotone K V E) (next : list (K * NodeDef K V E)).

(** The definition a list gives a key. *)
Definition listed_def next (k : K) : option (NodeDef K V E) :=
  (list_to_map next : gmap K (NodeDef K V E)) !! k.

Lemma defs_after_nodup defs (changes : list (Change K V E)) k :
  NoDup changes.*1 →
  defs_after defs changes k =
  match (list_to_map changes : gmap K (option (NodeDef K V E))) !! k with
  | Some d => d | None => defs k end.
Proof.
  revert defs. induction changes as [|[k0 d] changes IH]; intros defs Hnd.
  - simpl. by rewrite lookup_empty.
  - apply NoDup_cons in Hnd as [Hk Hnd]. simpl. rewrite IH by done.
    destruct (decide (k0 = k)) as [->|Hne].
    + rewrite lookup_insert_eq, decide_True by done.
      by rewrite (not_elem_of_list_to_map_1 changes k).
    + rewrite lookup_insert_ne by done. by rewrite decide_False by done.
Qed.

(** The list part of [diff]: what is skipped is already so. *)
Lemma kg_diff_listed_spec g next :
  kg_inv g → NoDup next.*1 →
  ∃ listed changes, kg_diff_listed g next = Some (listed, changes) ∧
    (∀ s, s ∈ listed ↔ ∃ k, k ∈ next.*1 ∧ di_slots (kg_index g) !! k = Some s) ∧
    NoDup changes.*1 ∧
    (∀ k o, (k, o) ∈ changes → ∃ d, o = Some d ∧ (k, d) ∈ next) ∧
    (∀ k d, (k, d) ∈ next → (k, Some d) ∈ changes ∨ den g k = Some d) ∧
    changes_size changes ≤ changes_size (prod_map id Some <$> next).
Proof.
  intros Hi Hnd. unfold kg_diff_listed.
  destruct (foldM_spec (λ done '(listed, changes),
      (∀ s, s ∈ listed ↔ ∃ k, k ∈ done.*1 ∧ di_slots (kg_index g) !! k = Some s) ∧
      NoDup changes.*1 ∧
      (∀ k o, (k, o) ∈ changes → ∃ d, o = Some d ∧ (k, d) ∈ done) ∧
      (∀ k d, (k, d) ∈ done → (k, Some d) ∈ changes ∨ den g k = Some d) ∧
      changes_size changes ≤ changes_size (prod_map id Some <$> done))
    (λ '(listed, changes) '(key, definition),
      match di_get (kg_index g) key with
      | Some slot =>
          node ← kg_nodes g !! slot;
          Some ({[slot]} ∪ listed,
            if same_definition g (nd_defined node) (Some definition)
            then changes else changes ++ [(key, Some definition)])
      | None => Some (listed, changes ++ [(key, Some definition)])
      end) next ((∅ : gset nat), [])) as ([listed changes] & Hf & HP); [| |by eauto].
  - split; [set_solver|]. split; [constructor|]. split; [set_solver|]. split; [set_solver|done].
  - intros done [listed changes] [k d] rest Heq (Hl & Hn & Hsub & Hcov & Hsz).
    assert (Hk : k ∉ done.*1).
    { rewrite Heq, fmap_app, NoDup_app in Hnd. destruct Hnd as (_ & Hnd & _).
      intros ?. eapply Hnd; [done|]. by left. }
    assert (Hpush : NoDup (changes ++ [(k, Some d)]).*1 ∧
      (∀ k' o, (k', o) ∈ changes ++ [(k, Some d)] →
         ∃ d', o = Some d' ∧ (k', d') ∈ done ++ [(k, d)]) ∧
      (∀ k' d', (k', d') ∈ done ++ [(k, d)] →
         (k', Some d') ∈ changes ++ [(k, Some d)] ∨ den g k' = Some d') ∧
      changes_size (changes ++ [(k, Some d)]) ≤
        changes_size (prod_map id Some <$> done ++ [(k, d)])).
    { split; [|split; [|split]].
      - rewrite fmap_app. apply NoDup_app. split; [done|]. split; [|by apply NoDup_singleton].
        intros k' Hk' ->%list_elem_of_singleton. apply Hk.
        apply list_elem_of_fmap in Hk' as ([k' o] & Hkk & Ho). simpl in Hkk. subst k'.
        apply Hsub in Ho as (d' & _ & Ho). apply list_elem_of_fmap. by exists (k, d').
      - intros k' o [Ho|Ho]%elem_of_app.
        + apply Hsub in Ho as (d' & -> & ?). exists d'. set_solver.
        + apply list_elem_of_singleton in Ho. simplify_eq. exists d. set_solver.
      - intros k' d' [Hd|Hd]%elem_of_app.
        + destruct (Hcov _ _ Hd); [left; set_solver|by right].
        + apply list_elem_of_singleton in Hd. simplify_eq. left. set_solver.
      - rewrite fmap_app. unfold changes_size in *. rewrite !sum_list_with_app. simpl. lia. }
    unfold di_get. destruct (di_slots (kg_index g) !! k) as [slot|] eqn:Hks.
    + destruct (lookup_lt_is_Some_2 _ _ (live_lt _ _ slot Hi (ex_intro _ k Hks))) as [node Hnode].
      rewrite Hnode. simpl. eexists. split; [done|]. simpl. split.
      { intros s. rewrite elem_of_union, elem_of_singleton, Hl, fmap_app. simpl.
        setoid_rewrite elem_of_app. setoid_rewrite list_elem_of_singleton. split.
        - intros [->|(k' & ? & ?)]; eauto.
        - intros (k' & [?| ->] & ?); [right; eauto|left; congruence]. }
      assert (Hdn : nd_defined node = defined_at g slot) by (unfold defined_at; by rewrite Hnode).
      rewrite Hdn. destruct (same_definition g _ (Some d)) eqn:Hsame; [|done].
      apply (same_definition_spec _ k) in Hsame; [|done]. split; [done|]. split; [|split].
      * intros k' o Ho. apply Hsub in Ho as (d' & -> & ?). exists d'. set_solver.
      * intros k' d' [Hd|Hd]%elem_of_app; [by apply Hcov|].
        apply list_elem_of_singleton in Hd. simplify_eq. by right.
      * rewrite fmap_app. unfold changes_size in *. rewrite sum_list_with_app. lia.
    + eexists. split; [done|]. simpl. split; [|done].
      intros s. rewrite Hl, fmap_app. simpl.
      setoid_rewrite elem_of_app. setoid_rewrite list_elem_of_singleton. split.
      * intros (k' & ? & ?); eauto.
      * intros (k' & [?| ->] & ?); [eauto|congruence].
Qed.

(** The loop over the kept slots adds exactly the defined keys not listed. *)
Lemma kg_diff_gone_spec g next (listed : gset nat) changes slots :
  kg_inv g →
  (∀ s, s ∈ listed ↔ ∃ k, k ∈ next.*1 ∧ di_slots (kg_index g) !! k = Some s) →
  NoDup changes.*1 →
  (∀ k o, (k, o) ∈ changes → ∃ d, o = Some d ∧ (k, d) ∈ next) →
  NoDup slots → (∀ s, s ∈ slots ↔ ∃ k, di_slots (kg_index g) !! k = Some s) →
  ∀ done rest, slots = done ++ rest →
    let cs := foldl (kg_diff_gone g listed) changes done in
    NoDup cs.*1 ∧
    (∀ k o, (k, o) ∈ cs ↔ (k, o) ∈ changes ∨
      (o = None ∧ is_Some (den g k) ∧ k ∉ next.*1 ∧
       ∃ s, s ∈ done ∧ di_slots (kg_index g) !! k = Some s)) ∧
    changes_size cs ≤ changes_size changes + length done.
Proof.
  intros Hi Hl Hn Hsub Hndl Hin.
  induction done as [|s done IH] using rev_ind; intros rest Heq; simpl.
  { split; [done|]. split; [|lia]. intros k o. split; [by left|].
    intros [?|(_ & _ & _ & s & ?%elem_of_nil & _)]; done. }
  rewrite foldl_snoc. destruct (IH (s :: rest)) as (Hn' & Hm' & Hs').
  { by rewrite Heq, <-app_assoc. }
  assert (Hsl : s ∈ slots) by (rewrite Heq; set_solver).
  assert (Hsd : s ∉ done).
  { rewrite Heq, !NoDup_app in Hndl. intros ?. destruct Hndl as [(_ & Hx & _) _].
    eapply Hx; [done|by left]. }
  apply Hin in Hsl as [k Hk].
  assert (Hkey : di_key (kg_index g) s = Some k).
  { by apply di_key_Some, (di_wf_bij _ (inv_index _ _ Hi)). }
  assert (Hnl : s ∉ listed ↔ k ∉ next.*1).
  { rewrite Hl. split; [intros Hx ?; apply Hx; eauto|]. intros Hx (k' & ? & Hk').
    rewrite (di_slot_inj _ _ _ _ (inv_index _ _ Hi) Hk' Hk) in *. done. }
  assert (Hmono : ∀ k o, (k, o) ∈ foldl (kg_diff_gone g listed) changes done → (k, o) ∈ changes ∨
    (o = None ∧ is_Some (den g k) ∧ k ∉ next.*1 ∧
     ∃ s', s' ∈ done ++ [s] ∧ di_slots (kg_index g) !! k = Some s')).
  { intros k' o [?|(-> & ? & ? & s' & ? & ?)]%Hm'; [by left|]. right. repeat split; try done.
    exists s'. set_solver. }
  rewrite length_app. simpl.
  unfold kg_diff_gone at 1 3 5. rewrite Hkey, kg_is_defined_spec.
  destruct (bool_decide (s ∉ listed) && bool_decide (is_Some (defined_at g s))) eqn:Hb.
  - apply andb_true_iff in Hb as [Hb1%bool_decide_eq_true Hb2%bool_decide_eq_true].
    apply Hnl in Hb1 as Hb1'. split; [|split].
    + rewrite fmap_app. apply NoDup_app. split; [done|]. split; [|by apply NoDup_singleton].
      intros k' Hk' ->%list_elem_of_singleton.
      apply list_elem_of_fmap in Hk' as ([k' o] & Hkk & Ho). simpl in Hkk. subst k'.
      apply Hm' in Ho as [Ho|(_ & _ & _ & s' & Hs'd & Hks')].
      * apply Hsub in Ho as (d' & _ & Ho). apply Hb1', list_elem_of_fmap. by exists (k, d').
      * by simplify_eq.
    + intros k' o. rewrite elem_of_app, list_elem_of_singleton. split.
      * intros [?|[= -> ->]]; [by apply Hmono|]. right. split; [done|].
        split; [by apply (den_is_Some _ _ _ _ Hi Hk)|]. split; [done|]. exists s. set_solver.
      * intros [?|(-> & ? & ? & s' & [?|?%list_elem_of_singleton]%elem_of_app & Hk')].
        -- left. apply Hm'. by left.
        -- left. apply Hm'. right. eauto 10.
        -- subst s'. right. by rewrite (di_slot_inj _ _ _ _ (inv_index _ _ Hi) Hk' Hk).
    + unfold changes_size in *. rewrite sum_list_with_app. simpl. lia.
  - split; [done|]. split; [|lia]. intros k' o. split; [by apply Hmono|].
    intros [?|(-> & Hd & Hk'n & s' & [?|?%list_elem_of_singleton]%elem_of_app & Hk')].
    + apply Hm'. by left.
    + apply Hm'. right. eauto 10.
    + subst s'. apply andb_false_iff in Hb. rewrite !bool_decide_eq_false in Hb.
      rewrite (di_slot_inj _ _ _ _ (inv_index _ _ Hi) Hk' Hk) in *.
      apply (den_is_Some _ _ _ _ Hi Hk) in Hd. destruct Hb as [Hb|Hb]; [|done].
      destruct Hb. by apply Hnl.
Qed.

(** [diff] turns the kept definitions into the listed ones. *)
Lemma kg_diff_spec g next :
  kg_inv g → NoDup next.*1 →
  ∃ changes, kg_diff g next = Some changes ∧
    (∀ k, defs_after (den g) changes k = listed_def next k) ∧
    changes_size changes ≤
      changes_size (prod_map id Some <$> next) + di_capacity (kg_index g).
Proof.
  intros Hi Hnd. unfold kg_diff.
  destruct (kg_diff_listed_spec g next Hi Hnd)
    as (listed & changes & Hdl & Hl & Hn & Hsub & Hcov & Hsz). rewrite Hdl. simpl.
  destruct (di_live_spec _ (inv_index _ _ Hi)) as (slots & Hlive & Hndl & Hin). rewrite Hlive.
  simpl. eexists. split; [done|].
  pose proof (kg_diff_gone_spec g next listed changes slots Hi Hl Hn Hsub Hndl Hin) as Hfold.
  destruct (Hfold slots []) as (Hn' & Hm' & Hs'); [by rewrite app_nil_r|].
  split.
  - intros k. rewrite defs_after_nodup by done. unfold listed_def.
    set (cs := foldl _ changes slots) in *.
    destruct ((list_to_map next : gmap K (NodeDef K V E)) !! k) as [d|] eqn:Hk.
    + apply elem_of_list_to_map_2 in Hk as Hkin.
      destruct (Hcov _ _ Hkin) as [Hc|Hc].
      * rewrite (elem_of_list_to_map_1 _ k (Some d)); [done|done|]. apply Hm'. by left.
      * destruct ((list_to_map cs : gmap K (option (NodeDef K V E))) !! k) as [o|] eqn:Ho; [|done].
        apply elem_of_list_to_map_2, Hm' in Ho as [Ho|(-> & _ & Hn2 & _)].
        -- apply Hsub in Ho as (d' & -> & Hd'). apply (elem_of_list_to_map_1 _ k d') in Hd'; [|done].
           congruence.
        -- destruct Hn2. apply list_elem_of_fmap. by exists (k, d).
    + assert (Hkn : k ∉ next.*1) by (by apply not_elem_of_list_to_map_2).
      destruct ((list_to_map cs : gmap K (option (NodeDef K V E))) !! k) as [o|] eqn:Ho.
      * apply elem_of_list_to_map_2, Hm' in Ho as [Ho|(-> & _)]; [|done].
        apply Hsub in Ho as (d' & _ & Hd'). destruct Hkn. apply list_elem_of_fmap. by exists (k, d').
      * apply eq_None_not_Some. intros Hd.
        assert (∃ s, di_slots (kg_index g) !! k = Some s) as [s Hks].
        { unfold den in Hd. destruct (di_slots (kg_index g) !! k); [eauto|by destruct Hd]. }
        apply not_elem_of_list_to_map_2 in Ho. apply Ho, list_elem_of_fmap. exists (k, None).
        split; [done|]. apply Hm'. right. split; [done|]. split; [done|]. split; [done|].
        exists s. split; [|done]. apply Hin. eauto.
  - assert (length slots ≤ di_capacity (kg_index g)); [|lia].
    rewrite <-(size_list_to_set (C := gset nat)) by done. apply size_live_set; [done|].
    intros s Hs. apply elem_of_list_to_set, Hin in Hs. done.
Qed.

Lemma mo_entries_spec m :
  mo_inv transfer m →
  ∃ l, mo_entries m = Some l ∧ (∀ k v, (k, v) ∈ l ↔ mo_value m k = Some v).
Proof.
  intros Hm. unfold mo_entries.
  destruct (di_live_spec _ (inv_index _ _ (mi_graph _ _ Hm))) as (slots & Hsl & _ & Hin).
  rewrite Hsl. simpl.
  destruct (foldM_spec (λ done l, ∀ k v, (k, v) ∈ l ↔ ∃ s, s ∈ done ∧
      di_slots (kg_index (mo_graph m)) !! k = Some s ∧ is_Some (defined_at (mo_graph m) s) ∧
      v = val (mo_values m) s)
    (λ acc slot,
      if kg_is_defined (mo_graph m) slot then
        match di_key (kg_index (mo_graph m)) slot with
        | Some key => v ← mo_values m !! slot; Some (acc ++ [(key, v)])
        | None => Some acc
        end
      else Some acc) slots []) as (l & Hf & Hl).
  - set_solver.
  - intros done l s rest Heq Hl. rewrite kg_is_defined_spec.
    assert (Hs : s ∈ slots) by (rewrite Heq; set_solver). apply Hin in Hs as [k0 Hk0].
    assert (Hkey : di_key (kg_index (mo_graph m)) s = Some k0).
    { by apply di_key_Some, (di_wf_bij _ (inv_index _ _ (mi_graph _ _ Hm))). }
    case_bool_decide as Hd.
    + rewrite Hkey. rewrite (val_lookup (mo_values m) s).
      2:{ rewrite (mi_len _ _ Hm). eapply live_lt; [apply Hm|by exists k0]. }
      simpl. eexists. split; [done|]. intros k v.
      rewrite elem_of_app, list_elem_of_singleton, Hl. setoid_rewrite elem_of_app.
      setoid_rewrite list_elem_of_singleton. split.
      * intros [(s' & ? & ?)|[= -> ->]]; eauto 10.
      * intros (s' & [?| ->] & Hk & ? & ->); [eauto 10|]. right.
        by rewrite (di_slot_inj _ _ _ _ (inv_index _ _ (mi_graph _ _ Hm)) Hk Hk0).
    + eexists. split; [done|]. intros k v. rewrite Hl. setoid_rewrite elem_of_app.
      setoid_rewrite list_elem_of_singleton. split; [intros (s' & ? & ?); eauto|].
      intros (s' & [?| ->] & ? & ? & ?); [eauto 10|done].
  - exists l. split; [done|]. intros k v. rewrite Hl, (mo_value_spec _ _ _ _ Hm). split.
    + intros (s & _ & ?); eauto.
    + intros (s & Hk & ?). exists s. split; [|done]. apply Hin. eauto.
Qed.

(** Two invariant solvers of the same definitions answer alike, however each
    got there. *)
Lemma mo_values_determined m1 m2 :
  mo_inv transfer m1 → mo_inv transfer m2 →
  (∀ k, den (mo_graph m1) k = den (mo_graph m2) k) →
  ∀ k, mo_value m1 k = mo_value m2 k.
Proof.
  intros Hm1 Hm2 Hd k.
  pose proof (mo_inv_least _ _ Hm1) as Hl1. pose proof (mo_inv_least _ _ Hm2) as Hl2.
  assert (Hl1' : is_least transfer (system (den (mo_graph m2)))
    (λ k, default bottom (mo_value m1 k))).
  { eapply is_least_ext; [|exact Hl1]. intros k'. unfold system. by rewrite Hd. }
  pose proof (is_least_unique _ transfer_mono _ _ _ Hl1' Hl2 k) as Heq. simpl in Heq.
  pose proof (mo_value_is_Some _ _ k Hm1) as Hs1. pose proof (mo_value_is_Some _ _ k Hm2) as Hs2.
  rewrite Hd in Hs1. destruct (mo_value m1 k), (mo_value m2 k); simpl in *; try done; subst; try done.
  - destruct (proj2 Hs2 (proj1 Hs1 ltac:(by eexists))). done.
  - destruct (proj2 Hs1 (proj1 Hs2 ltac:(by eexists))). done.
Qed.

(** Room and fuel a replacement by [next] needs. *)
Definition replace_size m next : nat :=
  changes_size (prod_map id Some <$> next) + di_capacity (kg_index (mo_graph m)).

Definition replace_fits (fuel : nat) m next : Prop :=
  di_room (kg_index (mo_graph m)) (replace_size m next) ∧
  solve_bound (V := V) (di_capacity (kg_index (mo_graph m)) + replace_size m next) ≤ fuel.

Lemma mo_replace_spec fuel m next :
  mo_inv transfer m → NoDup next.*1 → replace_fits fuel m next →
  ∃ m' solved, mo_replace transfer fuel m next = Some (m', solved) ∧ mo_inv transfer m' ∧
    (∀ k, den (mo_graph m') k = listed_def next k) ∧ NoDup (so_changed solved) ∧
    (∀ k, k ∈ so_changed solved ↔ mo_value m' k ≠ mo_value m k).
Proof.
  intros Hm Hnd [Hroom Hfuel]. unfold mo_replace, mo_update.
  destruct (kg_diff_spec (mo_graph m) next (mi_graph _ _ Hm) Hnd) as (changes & Hdf & Hden & Hsz).
  rewrite Hdf. simpl. unfold replace_size in *.
  destruct (mo_update_spec transfer transfer_mono fuel m changes false Hm)
    as (m' & solved & Hup & Hm' & Hd' & Hndc & Hch).
  - unfold di_room in *. lia.
  - unfold solve_bound in *. nia.
  - eexists _, _. split; [done|]. split; [done|]. split; [|done].
    intros k. by rewrite Hd', Hden.
Qed.

Lemma first_difference_agree (debug : K → string) m1 m2 :
  mo_inv transfer m1 → mo_inv transfer m2 → (∀ k, mo_value m1 k = mo_value m2 k) →
  first_difference debug m1 m2 = Some None.
Proof.
  intros Hm1 Hm2 Heq. unfold first_difference.
  destruct (mo_entries_spec _ Hm1) as (l1 & Hl1 & Hin1).
  destruct (mo_entries_spec _ Hm2) as (l2 & Hl2 & Hin2). rewrite Hl1, Hl2. simpl.
  rewrite (filter_none _ l2), (filter_none _ l1); [done|..].
  - intros [k v] Hkv Hn. apply Hin1 in Hkv. simpl in Hn. congruence.
  - intros [k v] Hkv Hn. apply Hin2 in Hkv. simpl in Hn. congruence.
Qed.

Lemma solve_monotone_spec (debug : K → string) fuel check kept next :
  (∀ m, kept = Some m → mo_inv transfer m) → NoDup next.*1 →
  replace_fits fuel (default mo_default kept) next → replace_fits fuel mo_default next →
  ∃ solver solved, solve_monotone transfer debug fuel check kept next =
      Some (solver, solved, None) ∧
    mo_inv transfer solver ∧ (∀ k, den (mo_graph solver) k = listed_def next k) ∧
    NoDup (so_changed solved) ∧
    (∀ k, k ∈ so_changed solved ↔
      mo_value solver k ≠ mo_value (default mo_default kept) k).
Proof.
  intros Hk Hnd Hfit Hfit0. unfold solve_monotone.
  assert (Hm : mo_inv transfer (default mo_default kept)).
  { destruct kept as [m|]; simpl; [by apply Hk|by apply mo_default_inv]. }
  destruct (mo_replace_spec fuel _ next Hm Hnd Hfit)
    as (solver & solved & Hrep & Hs & Hd & Hndc & Hch). rewrite Hrep. simpl.
  destruct (check && bool_decide (is_Some kept)).
  - destruct (mo_replace_spec fuel _ next (mo_default_inv transfer) Hnd Hfit0)
      as (fresh & solved0 & Hrep0 & Hs0 & Hd0 & _). rewrite Hrep0. simpl.
    rewrite (first_difference_agree debug solver fresh Hs Hs0); simpl; [by eauto 10|].
    apply mo_values_determined; [done..|]. intros k. by rewrite Hd, Hd0.
  - by eauto 10.
Qed.

End spec.
