(* ===== verification/Handoff.v ===== *)
(** * The escape census of the accessor-provenance resolver

    [ClosedUses] of [rust/crates/solid-reactive-ir/src/accessor_provenance.rs]:
    the lattice the production K2 solver runs on, and its edge transfer
    [handed_back]. Both meet what the solver asks of a lattice.

    Then: the handoff join of the accessor-provenance resolver. *)
From stdpp Require Import strings.
From S2P Require Import Prelude Lattice Order KeptGraph.

Record ClosedUses := mk_uses {
  object_escaped : bool;
  array_escaped : bool;
  callable_escaped : bool;
  context_escaped : bool;
  context_value_escaped : bool;
  destructured_escaped : bool
}.

#[export] Instance ClosedUses_eq_dec : EqDecision ClosedUses.
Proof. solve_decision. Defined.

Definition uses_default : ClosedUses := mk_uses false false false false false false.

(** [ClosedUses::export]. *)
Definition uses_export (u : ClosedUses) : ClosedUses :=
  mk_uses true true (callable_escaped u) (context_escaped u) true true.

(** [ClosedUses::handed_back]. *)
Definition handed_back (destructured : bool) (receiver : ClosedUses) : ClosedUses :=
  if destructured then
    mk_uses (destructured_escaped receiver) false false false
      (destructured_escaped receiver) false
  else
    mk_uses (object_escaped receiver) (array_escaped receiver) (callable_escaped receiver)
      false (context_value_escaped receiver) false.

Definition uses_join (u v : ClosedUses) : ClosedUses :=
  mk_uses (object_escaped u || object_escaped v)
    (array_escaped u || array_escaped v)
    (callable_escaped u || callable_escaped v)
    (context_escaped u || context_escaped v)
    (context_value_escaped u || context_value_escaped v)
    (destructured_escaped u || destructured_escaped v).

#[export] Instance ClosedUses_lattice : Lattice ClosedUses :=
  { bottom := uses_default; join := uses_join }.

(** The rank: how many escapes are set. *)
Definition uses_rank (u : ClosedUses) : nat :=
  Nat.b2n (object_escaped u) + Nat.b2n (array_escaped u) + Nat.b2n (callable_escaped u) +
  Nat.b2n (context_escaped u) + Nat.b2n (context_value_escaped u) +
  Nat.b2n (destructured_escaped u).

Ltac uses_cases :=
  repeat match goal with u : ClosedUses |- _ => destruct u end; unfold uses_join; simpl;
  repeat match goal with b : bool |- _ => destruct b end.

Lemma uses_join_assoc u v w : uses_join u (uses_join v w) = uses_join (uses_join u v) w.
Proof. unfold uses_join; simpl. by rewrite !orb_assoc. Qed.

Lemma uses_join_comm u v : uses_join u v = uses_join v u.
Proof. unfold uses_join. f_equal; apply orb_comm. Qed.

Lemma uses_join_idem u : uses_join u u = u.
Proof. destruct u. unfold uses_join; simpl. by rewrite !orb_diag. Qed.

Lemma uses_rank_strict u v : uses_join u v = v → u ≠ v → uses_rank u < uses_rank v.
Proof.
  destruct u as [a1 a2 a3 a4 a5 a6], v as [b1 b2 b3 b4 b5 b6].
  unfold uses_join, uses_rank; simpl. intros [=] Hne.
  assert (Hle : ∀ a b : bool, a || b = b → Nat.b2n a ≤ Nat.b2n b ∧ (Nat.b2n a = Nat.b2n b → a = b)).
  { intros [] []; simpl; intros; split; done || lia. }
  destruct (Hle a1 b1), (Hle a2 b2), (Hle a3 b3), (Hle a4 b4), (Hle a5 b5), (Hle a6 b6); try done.
  destruct (decide (Nat.b2n a1 + Nat.b2n a2 + Nat.b2n a3 + Nat.b2n a4 + Nat.b2n a5 + Nat.b2n a6 <
    Nat.b2n b1 + Nat.b2n b2 + Nat.b2n b3 + Nat.b2n b4 + Nat.b2n b5 + Nat.b2n b6)); [done|].
  destruct Hne. f_equal; auto with lia.
Qed.

#[export] Program Instance ClosedUses_laws : LatticeLaws ClosedUses :=
  { rank := uses_rank; height := 6 }.
Next Obligation. apply uses_join_assoc. Qed.
Next Obligation. apply uses_join_comm. Qed.
Next Obligation. apply uses_join_idem. Qed.
Next Obligation. intros []. done. Qed.
Next Obligation. intros [[] [] [] [] [] []]; unfold uses_rank; simpl; lia. Qed.
Next Obligation. apply uses_rank_strict. Qed.

Lemma handed_back_mono (e : bool) (u v : ClosedUses) : u ⊑ v → handed_back e u ⊑ handed_back e v.
Proof.
  unfold leq; simpl. unfold uses_join, handed_back. destruct u, v; simpl. intros [=].
  destruct e; simpl; f_equal; done.
Qed.

(** * The handoff join of the accessor-provenance resolver

    [handoff_definitions] of
    [rust/crates/solid-reactive-ir/src/accessor_provenance/resolver_index.rs]:
    the definitions the production K2 solver is given, one node per binding on
    a handoff, with its receivers as predecessors. *)

(** [typefacts::Location]. *)
Record Location := mk_location { loc_path : string; loc_end : N; loc_start : N }.

#[export] Instance Location_eq_dec : EqDecision Location.
Proof. solve_decision. Defined.

#[export] Program Instance Location_countable : Countable Location :=
  inj_countable' (λ l, (loc_path l, loc_end l, loc_start l))
    (λ '(p, e, s), mk_location p e s) _.
Next Obligation. by intros []. Qed.

(** [location_order] compared: path, start byte, end byte. *)
Definition location_cmp (a b : Location) : comparison :=
  then_cmp (String.compare (loc_path a) (loc_path b))
    (then_cmp (N.compare (loc_start a) (loc_start b)) (N.compare (loc_end a) (loc_end b))).

(** [HandoffEdge]: argument, receiver, destructured. *)
Abbreviation HandoffEdge := (Location * Location * bool)%type (only parsing).

Definition edge_cmp (a b : HandoffEdge) : comparison :=
  then_cmp (location_cmp a.1.1 b.1.1) (then_cmp (location_cmp a.1.2 b.1.2) (bool_cmp a.2 b.2)).

(** The longest prefix of edges with this argument, and the rest: the inner
    [while let] loop over [next_edge]. *)
Fixpoint take_edges (node : Location) (edges : list HandoffEdge)
  : list (Location * bool) * list HandoffEdge :=
  match edges with
  | (argument, receiver, destructured) :: rest =>
      if decide (argument = node)
      then let '(preds, rest) := take_edges node rest in ((receiver, destructured) :: preds, rest)
      else ([], edges)
  | [] => ([], [])
  end.

Fixpoint attach_edges (direct : Location → option ClosedUses) (nodes : list Location)
    (edges : list HandoffEdge) : list (Location * NodeDef Location ClosedUses bool) :=
  match nodes with
  | [] => []
  | node :: nodes =>
      let '(preds, rest) := take_edges node edges in
      (node, mk_def (default uses_default (direct node)) preds) :: attach_edges direct nodes rest
  end.

Definition handoff_definitions (edges : list HandoffEdge)
    (direct : Location → option ClosedUses)
  : list (Location * NodeDef Location ClosedUses bool) * list Location :=
  let edges := dedup (merge_sort (cmp_le edge_cmp) edges) in
  let nodes := dedup (merge_sort (cmp_le location_cmp)
    (mjoin ((λ '(argument, receiver, _), [argument; receiver]) <$> edges))) in
  let definitions := attach_edges direct nodes edges in
  let arguments := (filter (λ nd, preds nd.2 ≠ []) definitions).*1 in
  (definitions, arguments).

(** ** The comparisons are total orders *)

Lemma location_cmp_order : cmp_order location_cmp.
Proof.
  apply (cmp_then loc_path (λ l, (loc_start l, loc_end l)) String.compare
    (λ a b, then_cmp (N.compare a.1 b.1) (N.compare a.2 b.2)) string_cmp_order).
  - apply (cmp_then fst snd N.compare N.compare N_cmp_order N_cmp_order). by intros [] [] ? ?; simplify_eq/=.
  - intros [] [] ? ?; simplify_eq/=. done.
Qed.

Lemma edge_cmp_order : cmp_order edge_cmp.
Proof.
  apply (cmp_then (λ e : HandoffEdge, e.1.1) (λ e, (e.1.2, e.2)) location_cmp
    (λ a b, then_cmp (location_cmp a.1 b.1) (bool_cmp a.2 b.2)) location_cmp_order).
  - apply (cmp_then fst snd location_cmp bool_cmp location_cmp_order bool_cmp_order).
    by intros [] [] ? ?; simplify_eq/=.
  - intros [[] ] [[] ] ? ?; simplify_eq/=. done.
Qed.

(** ** The definitions are the handoff equations *)

Lemma take_edges_spec node edges :
  (∀ e, e ∈ edges → cmp_le location_cmp node e.1.1) →
  StronglySorted (λ a b, edge_cmp a b = Lt) edges →
  let '(ps, rest) := take_edges node edges in
  (∀ r d, (r, d) ∈ ps ↔ (node, r, d) ∈ edges) ∧
  (∀ e, e ∈ rest ↔ e ∈ edges ∧ e.1.1 ≠ node) ∧
  (∀ e, e ∈ rest → location_cmp node e.1.1 = Lt) ∧
  StronglySorted (λ a b, edge_cmp a b = Lt) rest.
Proof.
  induction edges as [|[[a r] d] edges IH]; intros Hge Hs; simpl.
  - repeat split; try set_solver.
  - inversion Hs as [|? ? Hs' Hhd]; subst. rewrite Forall_forall in Hhd. case_decide as Ha.
    + subst a. specialize (IH (λ e He, Hge e ltac:(by right)) Hs').
      destruct (take_edges node edges) as [ps rest]. destruct IH as (Hp & Hr & Hlt & Hsr).
      split; [|split; [|done]].
      * intros r' d'. rewrite !elem_of_cons, Hp. naive_solver.
      * intros e. rewrite Hr, elem_of_cons. split; [naive_solver|].
        intros [[->|?] ?]; [done|done].
    + assert (Hlt : ∀ e, e ∈ (a, r, d) :: edges → location_cmp node e.1.1 = Lt).
      { assert (Hna : location_cmp node a = Lt).
        { destruct (cmp_le_cases _ location_cmp_order node a); [|by subst|done].
          apply (Hge (a, r, d)). by left. }
        intros e [->|He]%elem_of_cons; [done|]. specialize (Hhd e He).
        unfold edge_cmp in Hhd. simpl in Hhd.
        destruct (location_cmp a e.1.1) eqn:E; simpl in Hhd; try done.
        - apply (cmp_eq _ location_cmp_order) in E. by rewrite <-E.
        - by apply (cmp_trans _ location_cmp_order _ a). }
      assert (Hne : ∀ e, e ∈ (a, r, d) :: edges → e.1.1 ≠ node).
      { intros e He Heq. specialize (Hlt e He). rewrite Heq in Hlt.
        by rewrite (proj2 (cmp_eq _ location_cmp_order node node) eq_refl) in Hlt. }
      split; [|split; [|done]].
      * intros r' d'. split; [by intros ?%elem_of_nil|]. intros Hin. by destruct (Hne _ Hin).
      * intros e. split; [|by intros []]. intros He. split; [done|by apply Hne].
Qed.

Lemma attach_edges_spec direct nodes edges :
  StronglySorted (λ a b, location_cmp a b = Lt) nodes →
  StronglySorted (λ a b, edge_cmp a b = Lt) edges →
  (∀ e, e ∈ edges → e.1.1 ∈ nodes) →
  (attach_edges direct nodes edges).*1 = nodes ∧
  ∀ k d, (k, d) ∈ attach_edges direct nodes edges →
    input d = default uses_default (direct k) ∧
    ∀ r b, (r, b) ∈ preds d ↔ (k, r, b) ∈ edges.
Proof.
  revert edges. induction nodes as [|node nodes IH]; intros edges Hn Hs Hin; simpl.
  - split; [done|]. set_solver.
  - inversion Hn as [|? ? Hn' Hhd]; subst. rewrite Forall_forall in Hhd.
    pose proof (take_edges_spec node edges) as Ht.
    destruct (take_edges node edges) as [ps rest]. destruct Ht as (Hp & Hr & Hlt & Hsr); [|done|].
    { intros e He. apply Hin in He as [->|He]%elem_of_cons.
      - unfold cmp_le. by rewrite (proj2 (cmp_eq _ location_cmp_order _ _) eq_refl).
      - unfold cmp_le. by rewrite (Hhd _ He). }
    destruct (IH rest Hn' Hsr) as [Hk Hd].
    { intros e He. apply Hr in He as [He Hne].
      by apply Hin in He as [?|?]%elem_of_cons. }
    split; [rewrite fmap_cons; by f_equal|]. intros k d [Heq|Hkd]%elem_of_cons.
    + simplify_eq. simpl. split; [done|]. intros r b. apply Hp.
    + destruct (Hd k d Hkd) as [Hi Hps]. split; [done|]. intros r b. rewrite Hps, Hr. simpl.
      split; [by intros []|]. intros He. split; [done|]. intros ->.
      assert (Hkn : node ∈ nodes).
      { rewrite <-Hk. apply list_elem_of_fmap. by exists (node, d). }
      specialize (Hhd _ Hkn). by rewrite (proj2 (cmp_eq _ location_cmp_order _ _) eq_refl) in Hhd.
Qed.

(** Every binding on a handoff has one definition: its direct census and one
    predecessor per edge it is the argument of. *)
Lemma handoff_definitions_spec edges direct :
  let defs := (handoff_definitions edges direct).1 in
  NoDup defs.*1 ∧
  (∀ k, k ∈ defs.*1 ↔ ∃ e, e ∈ edges ∧ (e.1.1 = k ∨ e.1.2 = k)) ∧
  ∀ k d, (k, d) ∈ defs →
    input d = default uses_default (direct k) ∧
    ∀ r b, (r, b) ∈ preds d ↔ (k, r, b) ∈ edges.
Proof.
  unfold handoff_definitions. simpl.
  set (es := dedup (merge_sort (cmp_le edge_cmp) edges)).
  set (ns := dedup _).
  assert (Hes : ∀ e, e ∈ es ↔ e ∈ edges) by (intros; apply elem_of_sort_dedup).
  assert (Hns : ∀ k, k ∈ ns ↔ ∃ e, e ∈ edges ∧ (e.1.1 = k ∨ e.1.2 = k)).
  { intros k. unfold ns. rewrite elem_of_sort_dedup, list_elem_of_join.
    setoid_rewrite list_elem_of_fmap. setoid_rewrite <-Hes. split.
    - intros (l & Hk & [[a r] b] & -> & He). exists (a, r, b). simpl. set_solver.
    - intros ([[a r] b] & He & Hk). exists [a; r]. simpl in Hk. split; [set_solver|].
      by exists (a, r, b). }
  destruct (attach_edges_spec direct ns es) as [Hk Hd].
  - apply sort_dedup_increasing, location_cmp_order.
  - apply sort_dedup_increasing, edge_cmp_order.
  - intros e He. apply Hns. exists e. rewrite <-Hes. auto.
  - split; [|split].
    + rewrite Hk. eapply increasing_NoDup; [apply location_cmp_order|].
      apply sort_dedup_increasing, location_cmp_order.
    + intros k. by rewrite Hk, Hns.
    + intros k d Hin. destruct (Hd k d Hin) as [Hi Hp]. split; [done|].
      intros r b. by rewrite Hp, Hes.
Qed.
