(* ===== verification/SolverTheorems.v ===== *)
(** * What the K2 solver guarantees

    The properties of the kept monotone solver and of the production pass that
    runs on it, stated of the modelled functions alone. *)
From stdpp Require Import strings.
From S2P Require Import Prelude SolverBase KeptGraph KeptGraphSpec Lattice.
From S2P Require Import Monotone MonotoneSpec KeptSolver Handoff.

Section update.
Context {K V E : Type} `{Countable K, EqDecision V, EqDecision E, LatticeLaws V}.
Context (transfer : E → V → V).

(** C1: [Monotone::update_with] terminates without a panic on every kept
    solver, keeps its invariant, and leaves exactly the least solution of the
    changed definitions, whichever part of the graph it recomputed: it solves
    every equation and is below every other assignment that does. *)
Theorem monotone_update_least (fuel : nat) (m : Monotone K V E) changes force
  (transfer_mono : ∀ e x y, x ⊑ y → transfer e x ⊑ transfer e y) :
  mo_inv transfer m →
  di_room (kg_index (mo_graph m)) (changes_size changes) →
  solve_bound (V := V) (di_capacity (kg_index (mo_graph m)) + changes_size changes) ≤ fuel →
  ∃ m' solved, mo_update_with transfer fuel m changes force = Some (m', solved) ∧
    mo_inv transfer m' ∧
    let defs := system (defs_after (den (mo_graph m)) changes) in
    let value k := default bottom (mo_value m' k) in
    (∀ k, is_Some (mo_value m' k) ↔ is_Some (defs k)) ∧
    (∀ k, value k = eval transfer defs value k) ∧
    (∀ u, (∀ k, eval transfer defs u k ⊑ u k) → ∀ k, value k ⊑ u k).
Proof.
  intros Hm Hroom Hfuel.
  destruct (mo_update_spec transfer transfer_mono fuel m changes force Hm Hroom Hfuel)
    as (m' & solved & Hup & Hm' & Hd & _).
  exists m', solved. split; [done|]. split; [done|].
  assert (Hleast : is_least transfer (system (defs_after (den (mo_graph m)) changes))
    (λ k, default bottom (mo_value m' k))).
  { eapply is_least_ext; [|by apply mo_inv_least]. intros k. unfold system. by rewrite Hd. }
  split; [|split; [apply Hleast|]].
  - intros k. rewrite (mo_value_is_Some _ _ _ Hm'), Hd. unfold system. by rewrite fmap_is_Some.
  - intros u Hu k.
    exact (is_least_below transfer transfer_mono _ _ u k Hleast Hu).
Qed.

(** C14: the keys an update reports as changed are exactly the keys whose
    answer differs from the last build's (added, removed or moved), each once. *)
Theorem monotone_changed_exact (fuel : nat) (m m' : Monotone K V E) solved changes force
  (transfer_mono : ∀ e x y, x ⊑ y → transfer e x ⊑ transfer e y) :
  mo_inv transfer m →
  di_room (kg_index (mo_graph m)) (changes_size changes) →
  solve_bound (V := V) (di_capacity (kg_index (mo_graph m)) + changes_size changes) ≤ fuel →
  mo_update_with transfer fuel m changes force = Some (m', solved) →
  NoDup (so_changed solved) ∧
  ∀ k, k ∈ so_changed solved ↔ mo_value m' k ≠ mo_value m k.
Proof.
  intros Hm Hroom Hfuel Hup.
  destruct (mo_update_spec transfer transfer_mono fuel m changes force Hm Hroom Hfuel)
    as (m2 & solved2 & Hup2 & _ & _ & Hnd & Hch). by simplify_eq.
Qed.

(** C39: for definitions that list each key once, with a monotone transfer,
    [MemoStore::solve_monotone] never poisons its store: whatever solver it
    kept, the fresh solve the verify mode compares agrees with the kept one, and
    what it serves is the least solution of the definitions it was handed. (A
    list that names a key twice is outside what is claimed: see the findings.) *)
Theorem solve_monotone_never_poisons (debug : K → string) (fuel : nat) (check : bool)
    (kept : option (Monotone K V E)) definitions
  (transfer_mono : ∀ e x y, x ⊑ y → transfer e x ⊑ transfer e y) :
  (∀ m, kept = Some m → mo_inv transfer m) →
  NoDup definitions.*1 →
  replace_fits fuel (default mo_default kept) definitions →
  replace_fits fuel (mo_default (V := V)) definitions →
  ∃ solver solved,
    solve_monotone transfer debug fuel check kept definitions = Some (solver, solved, None) ∧
    mo_inv transfer solver ∧
    is_least transfer (system (listed_def definitions))
      (λ k, default bottom (mo_value solver k)).
Proof.
  intros Hk Hnd Hfit Hfit0.
  destruct (solve_monotone_spec transfer transfer_mono debug fuel check kept definitions Hk Hnd
    Hfit Hfit0) as (solver & solved & Hs & Hm & Hd & _).
  exists solver, solved. split; [done|]. split; [done|].
  eapply is_least_ext; [|by apply mo_inv_least]. intros k. unfold system. by rewrite Hd.
Qed.

End update.

(** ** Witnesses on the escape census *)

Definition ex_changes : list (Change nat ClosedUses bool) :=
  [(1, Some (mk_def (uses_export uses_default) []));
   (2, Some (mk_def uses_default [(1, false); (2, true)]))].

Lemma ex_room : di_room (kg_index (mo_graph (mo_default (K := nat) (V := ClosedUses) (E := bool))))
  (changes_size ex_changes).
Proof. vm_compute. discriminate. Qed.

Lemma ex_bound : solve_bound (V := ClosedUses) (di_capacity (kg_index (mo_graph
  (mo_default (K := nat) (V := ClosedUses) (E := bool)))) + changes_size ex_changes) ≤ 400.
Proof. apply Nat.leb_le. vm_compute. reflexivity. Qed.

Lemma ex_fits fuel : 75 ≤ fuel →
  replace_fits fuel (mo_default (K := nat) (V := ClosedUses) (E := bool))
    [(1, mk_def (uses_export uses_default) []); (2, mk_def uses_default [(1, false)])].
Proof.
  intros Hf. split; [vm_compute; discriminate|]. etrans; [|exact Hf].
  apply Nat.leb_le. vm_compute. reflexivity.
Qed.

Lemma monotone_update_least_witness :
  ∃ m' solved,
    mo_update_with handed_back 400 (mo_default (K := nat)) ex_changes false = Some (m', solved) ∧
    mo_inv handed_back m' ∧ mo_value m' 2 = Some (mk_uses true true false false true false).
Proof.
  destruct (monotone_update_least handed_back 400 (mo_default (K := nat)) ex_changes false
    handed_back_mono (mo_default_inv handed_back) ex_room ex_bound)
    as (m' & solved & Hup & Hinv & _).
  exists m', solved. split; [exact Hup|]. split; [exact Hinv|].
  vm_compute in Hup. injection Hup as <- _. vm_compute. reflexivity.
Defined.

Lemma monotone_changed_exact_witness :
  ∃ m' solved,
    mo_update_with handed_back 400 (mo_default (K := nat)) ex_changes false = Some (m', solved) ∧
    (∀ k, k ∈ so_changed solved ↔ mo_value m' k ≠ None).
Proof.
  destruct (mo_update_with handed_back 400 (mo_default (K := nat)) ex_changes false)
    as [[m' solved]|] eqn:Hup; [|vm_compute in Hup; discriminate Hup].
  exists m', solved. split; [reflexivity|]. intros k.
  refine (proj2 (monotone_changed_exact handed_back 400 (mo_default (K := nat)) m' solved
    ex_changes false handed_back_mono (mo_default_inv handed_back) ex_room ex_bound Hup) k).
Defined.

Lemma solve_monotone_never_poisons_witness :
  ∃ solver solved,
    solve_monotone handed_back (λ k : nat, EmptyString) 400 true (Some mo_default)
      [(1, mk_def (uses_export uses_default) []); (2, mk_def uses_default [(1, false)])] =
      Some (solver, solved, None).
Proof.
  destruct (solve_monotone_never_poisons handed_back (λ k : nat, EmptyString) 400 true
    (Some mo_default)
    [(1, mk_def (uses_export uses_default) []); (2, mk_def uses_default [(1, false)])]
    handed_back_mono) as (solver & solved & Hs & _).
  - intros m [= <-]. exact (mo_default_inv handed_back).
  - repeat constructor; set_solver.
  - apply ex_fits. lia.
  - apply ex_fits. lia.
  - exists solver, solved. exact Hs.
Defined.

(** ** The production pass *)

(** C24: the handoff join. On the definitions [handoff_definitions] builds, the
    solver terminates and gives every binding the least escape census that
    holds its direct census and, for each handoff it is the argument of, what
    the receiver hands back, chained handoffs and cycles included. *)
Theorem handoff_join_least (debug : Location → string) (fuel : nat) (check : bool)
    (edges : list HandoffEdge) (direct : Location → option ClosedUses) :
  let defs := (handoff_definitions edges direct).1 in
  replace_fits fuel (mo_default (V := ClosedUses)) defs →
  ∃ solver solved,
    solve_monotone handed_back debug fuel check None defs = Some (solver, solved, None) ∧
    let uses k := default uses_default (mo_value solver k) in
    let on_handoff k := ∃ e, e ∈ edges ∧ (e.1.1 = k ∨ e.1.2 = k) in
    (∀ k, is_Some (mo_value solver k) ↔ on_handoff k) ∧
    (∀ k, on_handoff k → default uses_default (direct k) ⊑ uses k) ∧
    (∀ a r d, (a, r, d) ∈ edges → handed_back d (uses r) ⊑ uses a) ∧
    (∀ u : Location → ClosedUses,
      (∀ k, on_handoff k → default uses_default (direct k) ⊑ u k) →
      (∀ a r d, (a, r, d) ∈ edges → handed_back d (u r) ⊑ u a) →
      ∀ k, uses k ⊑ u k).
Proof.
  intros defs Hfit. destruct (handoff_definitions_spec edges direct) as (Hnd & Hkeys & Hdefs).
  fold defs in Hnd, Hkeys, Hdefs.
  destruct (solve_monotone_spec handed_back handed_back_mono debug fuel check None defs)
    as (solver & solved & Hs & Hm & Hd & _); [done|done|done|done|].
  exists solver, solved. split; [exact Hs|]. intros uses on_handoff.
  assert (Hlisted : ∀ k, listed_def defs k = None ∧ ¬ on_handoff k ∨
    ∃ d, listed_def defs k = Some d ∧ on_handoff k ∧ (k, d) ∈ defs).
  { intros k. unfold listed_def.
    destruct ((list_to_map defs : gmap Location _) !! k) as [d|] eqn:Hk.
    - right. exists d. apply elem_of_list_to_map_2 in Hk as Hin. split; [done|].
      split; [|done]. apply Hkeys, list_elem_of_fmap. by exists (k, d).
    - left. split; [done|]. intros Hon%Hkeys. revert Hon. by apply not_elem_of_list_to_map_2. }
  assert (Hleast : is_least handed_back (system (listed_def defs)) uses).
  { eapply is_least_ext; [|exact (mo_inv_least handed_back solver Hm)]. intros k. unfold system. by rewrite Hd. }
  assert (Heval : ∀ u k d, (k, d) ∈ defs → listed_def defs k = Some d →
    eval handed_back (system (listed_def defs)) u k = flow handed_back u (preds d) (input d)).
  { intros u k d _ Hk. unfold eval, system. by rewrite Hk. }
  split; [|split; [|split]].
  - intros k. rewrite (mo_value_is_Some _ _ _ Hm), Hd.
    destruct (Hlisted k) as [[-> Hn]|(d & -> & Hn & _)]; split; done.
  - intros k Hk. destruct (Hlisted k) as [[_ Hn]|(d & Hl & _ & Hin)]; [done|].
    rewrite (proj1 Hleast k), (Heval _ _ _ Hin Hl).
    rewrite <-(proj1 (Hdefs _ _ Hin)). apply flow_above.
  - intros a r d He. assert (Ha : on_handoff a) by (exists (a, r, d); auto).
    destruct (Hlisted a) as [[_ Hn]|(da & Hl & _ & Hin)]; [done|].
    rewrite (proj1 Hleast a), (Heval _ _ _ Hin Hl).
    apply flow_pred. by apply (Hdefs _ _ Hin).
  - intros u Hdir Hedge k. refine (is_least_below handed_back handed_back_mono _ _ u k Hleast _).
    intros k'. destruct (Hlisted k') as [[Hl _]|(d & Hl & Hk & Hin)].
    + unfold eval, system. rewrite Hl. apply bottom_least.
    + rewrite (Heval _ _ _ Hin Hl). destruct (Hdefs _ _ Hin) as [Hi Hp].
      apply flow_lub; [rewrite Hi; by apply Hdir|].
      intros r b Hrb. by apply Hedge, Hp.
Qed.

(** Two bindings handed to each other and an exporting receiver. *)
Definition ex_loc (n : N) : Location := mk_location "a.tsx" (n + 1) n.

Definition ex_edges : list HandoffEdge :=
  [(ex_loc 10, ex_loc 20, false); (ex_loc 20, ex_loc 10, false); (ex_loc 10, ex_loc 30, true)].

Definition ex_direct (l : Location) : option ClosedUses :=
  if decide (l = ex_loc 30) then Some (uses_export uses_default) else None.

Lemma handoff_join_least_witness :
  let defs := (handoff_definitions ex_edges ex_direct).1 in
  ∃ solver solved,
    solve_monotone handed_back loc_path 700 true None defs = Some (solver, solved, None) ∧
    handed_back true (default uses_default (mo_value solver (ex_loc 30))) ⊑
      default uses_default (mo_value solver (ex_loc 10)).
Proof.
  destruct (handoff_join_least loc_path 700 true ex_edges ex_direct)
    as (solver & solved & Hs & _ & _ & Hedge & _).
  - split; [vm_compute; discriminate|]. apply Nat.leb_le. vm_compute. reflexivity.
  - exists solver, solved. split; [exact Hs|]. apply Hedge. right. right. left.
Defined.

(** A key listed twice. [replace] documents that the last listing is
    taken; a kept solver whose definition equals the last listing takes the
    first instead, and so answers differently from a fresh solver on the same
    list. No production caller lists a key twice. *)
Theorem replace_duplicate_key_takes_first :
  let d0 := mk_def uses_default [] in
  let d1 := mk_def (uses_export uses_default) [] in
  let twice := [(1, d1); (1, d0)] in
  ∃ kept s kept' s' fresh s'',
    mo_replace handed_back 100 mo_default [(1, d0)] = Some (kept, s) ∧
    mo_replace handed_back 100 kept twice = Some (kept', s') ∧
    mo_replace handed_back 100 mo_default twice = Some (fresh, s'') ∧
    mo_value kept' 1 = Some (input d1) ∧ mo_value fresh 1 = Some (input d0) ∧
    input d1 ≠ input d0.
Proof.
  eexists _, _, _, _, _, _. split; [vm_compute; reflexivity|].
  split; [vm_compute; reflexivity|]. split; [vm_compute; reflexivity|].
  split; [vm_compute; reflexivity|]. split; [vm_compute; reflexivity|]. discriminate.
Qed.
