(* ===== verification/KeyedFold.v ===== *)
(** * K1: the kept per-key fold

    Model of [rust/crates/solid-reactive-ir/src/base/fixpoint/fold.rs]: each
    file contributes rows [(key, value)]; a key's answer folds every file's
    rows under it in path order. The fold is kept between builds and only the
    keys a changed file names are folded again. *)
From S2P Require Import Prelude Order SolverBase.

(** [KeyedFold<K, C, V>]. The [BTreeMap]s are finite maps; where the code
    iterates one, the model lists its keys in order. *)
Record KeyedFold (K C V : Type) `{Countable K} := mk_fold {
  kf_order : option FileOrder;
  kf_rows : gmap FileId (list (K * C));
  kf_postings : gmap K (gset FileId);
  kf_values : gmap K V
}.
Arguments mk_fold {K C V _ _} _ _ _ _.
Arguments kf_order {K C V _ _} _.
Arguments kf_rows {K C V _ _} _.
Arguments kf_postings {K C V _ _} _.
Arguments kf_values {K C V _ _} _.

(** [Ord] for [Option<u32>]: [None] first. *)
Definition option_nat_cmp (a b : option nat) : comparison :=
  match a, b with
  | None, None => Eq
  | None, Some _ => Lt
  | Some _, None => Gt
  | Some a, Some b => Nat.compare a b
  end.

(** [files.sort_by_key] by path rank. The sort is stable and the files come
    ascending, so files of one rank stay in the order of their ids. *)
Definition rank_cmp (order : FileOrder) (a b : FileId) : comparison :=
  then_cmp (option_nat_cmp (fo_rank order a) (fo_rank order b)) (Nat.compare a b).

Definition rank_le (order : FileOrder) : FileId → FileId → Prop := cmp_le (rank_cmp order).

#[export] Instance rank_le_dec order a b : Decision (rank_le order a b).
Proof. unfold rank_le. apply _. Defined.

(** [Option::filter(|rows| !rows.is_empty())]. *)
Definition filter_nonempty {A} (next : option (list A)) : option (list A) :=
  match next with Some [] => None | _ => next end.

(** [slice::chunk_by]. *)
Fixpoint chunk_by {A} (same : A → A → bool) (l : list A) : list (list A) :=
  match l with
  | [] => []
  | a :: l =>
      match chunk_by same l with
      | (b :: g) :: gs => if same a b then (a :: b :: g) :: gs else [a] :: (b :: g) :: gs
      | gs => [a] :: gs
      end
  end.

(** A row of [fold_all]'s sort: [(key, rank, file, position, value)]. *)
Record FoldRow (K C : Type) := mk_row {
  row_key : K;
  row_rank : option nat;
  row_file : FileId;
  row_position : nat;
  row_value : C
}.
Arguments mk_row {K C} _ _ _ _ _.
Arguments row_key {K C} _.
Arguments row_rank {K C} _.
Arguments row_file {K C} _.
Arguments row_position {K C} _.
Arguments row_value {K C} _.

Section keyed_fold.
Context {K C V : Type} `{Countable K, EqDecision C, EqDecision V}.
Context (kcmp : K → K → comparison).
Context (fold : K → list C → option V).
Implicit Types (kf : KeyedFold K C V) (order : FileOrder).

Definition kf_default : KeyedFold K C V := mk_fold None ∅ ∅ ∅.

(** [grouped]. *)
Definition grouped (rows : list (K * C)) : gmap K (list C) :=
  foldl (λ g '(key, value), <[key := default [] (g !! key) ++ [value]]> g) ∅ rows.

(** Iteration orders of a [BTreeSet<K>] and of a [BTreeMap<FileId, _>]. *)
Definition in_key_order (s : gset K) : list K := merge_sort (cmp_le kcmp) (elements s).

Definition file_entries {A} (m : gmap FileId A) : list (FileId * A) :=
  omap (λ file, pair file <$> m !! file) (ascending (dom m)).

(** The body of the loop over the old keys, on the postings. *)
Definition unpost (file : FileId) (new : gmap K (list C)) (postings : gmap K (gset FileId))
    (key : K) : gmap K (gset FileId) :=
  if bool_decide (new !! key = None) then
    match postings !! key with
    | Some files =>
        let files := files ∖ {[file]} in
        if bool_decide (files = ∅) then delete key postings else <[key := files]> postings
    | None => postings
    end
  else postings.

(** The body of the loop over the new keys, on the postings. *)
Definition post (file : FileId) (old : gmap K (list C)) (postings : gmap K (gset FileId))
    (key : K) : gmap K (gset FileId) :=
  if bool_decide (old !! key = None)
  then <[key := {[file]} ∪ default ∅ (postings !! key)]> postings else postings.

(** One iteration of [update]'s loop over the changed files. *)
Definition update_file
    (st : gmap FileId (list (K * C)) * gmap K (gset FileId) * gset K)
    (change : FileId * option (list (K * C)))
  : gmap FileId (list (K * C)) * gmap K (gset FileId) * gset K :=
  let '(rows, postings, delta) := st in
  let '(file, next) := change in
  let next := filter_nonempty next in
  let previous := rows !! file in
  let rows := delete file rows in
  let old := from_option grouped ∅ previous in
  let new := from_option grouped ∅ next in
  let '(delta, postings) :=
    foldl (λ '(delta, postings) key,
      (if decide (new !! key ≠ old !! key) then {[key]} ∪ delta else delta,
       unpost file new postings key)) (delta, postings) (in_key_order (dom old)) in
  let '(delta, postings) :=
    foldl (λ '(delta, postings) key,
      (if decide (old !! key = None) then {[key]} ∪ delta else delta,
       post file old postings key)) (delta, postings) (in_key_order (dom new)) in
  let rows := match next with Some next => <[file := next]> rows | None => rows end in
  (rows, postings, delta).

(** A file's values under a key, in production order. *)
Definition rows_under (key : K) (rows : list (K * C)) : list C :=
  snd <$> filter (λ row : K * C, row.1 = key) rows.

(** A key's values: its posted files by path rank, each file's rows in order.
    [None] is the panic of [self.rows[file]]. *)
Definition key_values order (rows : gmap FileId (list (K * C)))
    (postings : gmap K (gset FileId)) (key : K) : option (list C) :=
  let files := merge_sort (rank_le order) (ascending (default ∅ (postings !! key))) in
  folded ← mapM (λ file, rows_under key <$> rows !! file) files;
  Some (concat folded).

(** One iteration of the loop over the delta. *)
Definition refold order (rows : gmap FileId (list (K * C))) (postings : gmap K (gset FileId))
    (st : gmap K V * list K) (key : K) : option (gmap K V * list K) :=
  let '(values, changed) := st in
  folded ← key_values order rows postings key;
  let next := match folded with [] => None | _ => fold key folded end in
  let differs := match next with
                 | Some next => bool_decide (values !! key ≠ Some next)
                 | None => bool_decide (is_Some (values !! key))
                 end in
  let values := match next with
                | Some next => <[key := next]> values
                | None => delete key values
                end in
  Some (values, if differs then changed ++ [key] else changed).

Definition row_cmp (a b : FoldRow K C) : comparison :=
  then_cmp (kcmp (row_key a) (row_key b))
    (then_cmp (option_nat_cmp (row_rank a) (row_rank b))
      (then_cmp (Nat.compare (row_file a) (row_file b))
        (Nat.compare (row_position a) (row_position b)))).

Definition fold_rows order (rows : gmap FileId (list (K * C))) : list (FoldRow K C) :=
  concat ((λ '(file, rows),
    let rank := fo_rank order file in
    imap (λ position '(key, value), mk_row key rank file position value) rows)
    <$> file_entries rows).

(** The loop over the key groups: postings, values, changed. *)
Definition fold_group (st : gmap K (gset FileId) * gmap K V * list K * nat)
    (group : list (FoldRow K C)) : gmap K (gset FileId) * gmap K V * list K * nat :=
  let '(postings, values, changed, recomputed) := st in
  match group with
  | [] => st
  | row :: _ =>
      let key := row_key row in
      let folded := row_value <$> group in
      let postings := <[key := list_to_set (row_file <$> group)]> postings in
      match fold key folded with
      | Some value => (postings, <[key := value]> values, changed ++ [key], S recomputed)
      | None => (postings, values, changed, S recomputed)
      end
  end.

Definition insert_rows (rows : gmap FileId (list (K * C)))
    (change : FileId * option (list (K * C))) : gmap FileId (list (K * C)) :=
  match filter_nonempty change.2 with Some next => <[change.1 := next]> rows | None => rows end.

(** [fold_all]. *)
Definition kf_fold_all kf order (changes : gmap FileId (option (list (K * C)))) (fresh : bool)
  : KeyedFold K C V * Solved K :=
  let rows := foldl insert_rows (kf_rows kf) (file_entries changes) in
  let all := merge_sort (cmp_le row_cmp) (fold_rows order rows) in
  let '(postings, values, changed, recomputed) :=
    foldl fold_group (∅, ∅, [], 0)
      (chunk_by (λ a b, bool_decide (kcmp (row_key a) (row_key b) = Eq)) all) in
  (mk_fold (Some order) rows postings values, mk_solved changed recomputed fresh).

(** The files kept but not listed by the new order are gone. *)
Definition drop_unlisted order (changes : gmap FileId (option (list (K * C)))) (file : FileId)
  : gmap FileId (option (list (K * C))) :=
  match fo_rank order file with None => <[file := None]> changes | Some _ => changes end.

(** [update]. *)
Definition kf_update kf order (changes : list (FileId * option (list (K * C))))
  : option (KeyedFold K C V * Solved K) :=
  let fresh := match kf_order kf with
               | None => true
               | Some previous => negb (keeps_relative_order order previous)
               end in
  let changes := foldl (λ m '(file, next), <[file := next]> m) ∅ changes in
  if bool_decide (kf_rows kf = ∅) && bool_decide (kf_postings kf = ∅)
     && bool_decide (kf_values kf = ∅)
  then Some (kf_fold_all kf order changes fresh)
  else
    let changes := foldl (drop_unlisted order) changes (ascending (dom (kf_rows kf))) in
    let '(rows, postings, delta) :=
      foldl update_file (kf_rows kf, kf_postings kf, ∅) (file_entries changes) in
    let delta := if fresh then dom (kf_values kf) ∪ (dom postings ∪ delta) else delta in
    '(values, changed) ← foldM (refold order rows postings) (kf_values kf, [])
      (in_key_order delta);
    Some (mk_fold (Some order) rows postings values, mk_solved changed (size delta) fresh).

End keyed_fold.
