(* ===== verification/KeyedFoldSpec.v ===== *)
(** * The kept fold against the path-order reference

    The invariant of [KeyedFold] and the proof that [update], on both of its
    paths, leaves the fold of every file's rows in path order.

    Then: the kept fold's first build. *)
From S2P Require Import Prelude Order SolverBase KeyedFold.

Lemma option_nat_cmp_order : cmp_order option_nat_cmp.
Proof.
  split.
  - intros [a|] [b|]; simpl; try (split; congruence). rewrite Nat.compare_eq_iff.
    split; congruence.
  - intros [a|] [b|]; simpl; try done. apply Nat.compare_antisym.
  - intros [a|] [b|] [c|]; simpl; try done. rewrite !Nat.compare_lt_iff. lia.
Qed.

Section spec.
Context {K C V : Type} `{Countable K, EqDecision C, EqDecision V}.
Context (kcmp : K → K → comparison).
Context (fold : K → list C → option V).
Implicit Types (kf : KeyedFold K C V) (order : FileOrder)
  (rows : gmap FileId (list (K * C))) (postings : gmap K (gset FileId)).

(** ** The reference *)

(** A file's values under a key; none for a file without rows. *)
Definition rows_at rows (file : FileId) (key : K) : list C :=
  from_option (rows_under key) [] (rows !! file).

(** A key's values over every file in path order, and their fold. *)
Definition path_values order rows (key : K) : list C :=
  concat ((λ file, rows_at rows file key) <$> fo_ids order).

Definition path_fold order rows (key : K) : option V :=
  match path_values order rows key with [] => None | values => fold key values end.

(** Every file the fold may read, in the order it reads them: the files with
    rows that the order does not list, by id, then the listed ones. *)
Definition path_ids order rows : list FileId :=
  ascending (filter (λ file, fo_rank order file = None) (dom rows)) ++ fo_ids order.

Definition all_values order rows (key : K) : list C :=
  concat ((λ file, rows_at rows file key) <$> path_ids order rows).

Definition all_fold order rows (key : K) : option V :=
  match all_values order rows key with [] => None | values => fold key values end.

(** No file the order does not list has rows under the key. *)
Definition key_listed order rows (key : K) : Prop :=
  ∀ file, fo_rank order file = None → rows_at rows file key = [].

Definition postings_ok rows postings : Prop :=
  (∀ key, postings !! key ≠ Some ∅) ∧
  ∀ key file, file ∈ default ∅ (postings !! key) ↔ rows_at rows file key ≠ [].

Definition rows_ok order rows : Prop :=
  ∀ file file_rows, rows !! file = Some file_rows →
    file_rows ≠ [] ∧ is_Some (fo_rank order file).

Definition kf_inv kf : Prop :=
  match kf_order kf with
  | None => kf_rows kf = ∅ ∧ kf_postings kf = ∅ ∧ kf_values kf = ∅
  | Some order =>
      fo_wf order ∧ rows_ok order (kf_rows kf) ∧ postings_ok (kf_rows kf) (kf_postings kf) ∧
      ∀ key, kf_values kf !! key = path_fold order (kf_rows kf) key
  end.

(** A file's rows after its last change, if it has one. *)
Definition rows_changed rows (changes : list (FileId * option (list (K * C))))
    (file : FileId) : option (list (K * C)) :=
  match list_to_map (M := gmap FileId (option (list (K * C)))) (reverse changes) !! file with
  | Some next => filter_nonempty next
  | None => rows !! file
  end.

(** The rows an update leaves: a kept file the order does not list is gone. *)
Definition rows_after order rows (changes : list (FileId * option (list (K * C))))
    (file : FileId) : option (list (K * C)) :=
  match fo_rank order file, rows !! file with
  | None, Some _ => None
  | _, _ => rows_changed rows changes file
  end.

(** ** One changed file *)

Lemma in_key_order_elem (s : gset K) key : key ∈ in_key_order kcmp s ↔ key ∈ s.
Proof. unfold in_key_order. by rewrite merge_sort_Permutation, elem_of_elements. Qed.

Lemma in_key_order_NoDup (s : gset K) : NoDup (in_key_order kcmp s).
Proof. unfold in_key_order. rewrite merge_sort_Permutation. apply NoDup_elements. Qed.

Lemma rows_under_snoc key (rows : list (K * C)) r :
  rows_under key (rows ++ [r]) = rows_under key rows ++ if decide (r.1 = key) then [r.2] else [].
Proof.
  unfold rows_under. rewrite filter_app, fmap_app. f_equal. simpl.
  destruct (decide (r.1 = key)); [by rewrite filter_cons_True|by rewrite filter_cons_False].
Qed.

Lemma grouped_lookup (rows : list (K * C)) key :
  grouped rows !! key = match rows_under key rows with [] => None | l => Some l end.
Proof.
  induction rows as [|[k c] rows IH] using rev_ind; [done|].
  unfold grouped in *. rewrite foldl_snoc, rows_under_snoc. simpl.
  destruct (decide (k = key)) as [->|Hne].
  - rewrite lookup_insert_eq, IH. by destruct (rows_under key rows).
  - by rewrite lookup_insert_ne, IH, app_nil_r by done.
Qed.

Lemma grouped_from_option (o : option (list (K * C))) key :
  from_option grouped ∅ o !! key =
  match from_option (rows_under key) [] o with [] => None | l => Some l end.
Proof. destruct o; simpl; [apply grouped_lookup|apply lookup_empty]. Qed.

Definition unpost_entry (file : FileId) (new : gmap K (list C)) (key : K)
    (o : option (gset FileId)) : option (gset FileId) :=
  if decide (new !! key = None) then
    match o with
    | Some files => if decide (files ∖ {[file]} = ∅) then None else Some (files ∖ {[file]})
    | None => None
    end
  else o.

Lemma unpost_lookup file new postings k k' :
  unpost file new postings k !! k' =
  if decide (k' = k) then unpost_entry file new k (postings !! k) else postings !! k'.
Proof.
  unfold unpost, unpost_entry. rewrite <-decide_bool_decide.
  destruct (decide (new !! k = None)), (decide (k' = k)) as [->|Hne]; try done;
    destruct (postings !! k) as [fs|] eqn:Hk; try done; rewrite <-decide_bool_decide;
    destruct (decide (fs ∖ {[file]} = ∅));
    by rewrite ?lookup_delete_eq, ?lookup_delete_ne, ?lookup_insert_eq, ?lookup_insert_ne.
Qed.

Definition post_entry (file : FileId) (old : gmap K (list C)) (key : K)
    (o : option (gset FileId)) : option (gset FileId) :=
  if decide (old !! key = None) then Some ({[file]} ∪ default ∅ o) else o.

Lemma post_lookup file (old : gmap K (list C)) postings k k' :
  post file old postings k !! k' =
  if decide (k' = k) then post_entry file old k (postings !! k) else postings !! k'.
Proof.
  unfold post, post_entry. rewrite <-decide_bool_decide.
  destruct (decide (old !! k = None)), (decide (k' = k)) as [->|Hne];
    by rewrite ?lookup_insert_eq, ?lookup_insert_ne.
Qed.

(** What one file's change does to a key's posting, given the file's values
    under the key before and after. *)
Lemma update_file_posting rows postings file (next : option (list (K * C))) key :
  let old := from_option grouped ∅ (rows !! file) in
  let new := from_option grouped ∅ (filter_nonempty next) in
  foldl (post file old) (foldl (unpost file new) postings (in_key_order kcmp (dom old)))
    (in_key_order kcmp (dom new)) !! key =
  match rows_at rows file key, from_option (rows_under key) [] (filter_nonempty next) with
  | _ :: _, [] => unpost_entry file ∅ key (postings !! key)
  | [], _ :: _ => Some ({[file]} ∪ default ∅ (postings !! key))
  | _, _ => postings !! key
  end.
Proof.
  intros old new.
  rewrite (foldl_pointwise _ (post_entry file old) _ _ _ (post_lookup file old) (in_key_order_NoDup _)).
  rewrite (foldl_pointwise _ (unpost_entry file new) _ _ _ (unpost_lookup file new) (in_key_order_NoDup _)).
  assert (Hold : old !! key = match rows_at rows file key with [] => None | l => Some l end).
  { unfold old, rows_at. apply grouped_from_option. }
  assert (Hnew : new !! key = match from_option (rows_under key) [] (filter_nonempty next) with
    [] => None | l => Some l end) by apply grouped_from_option.
  assert (Hdo : key ∈ in_key_order kcmp (dom old) ↔ old !! key ≠ None).
  { by rewrite in_key_order_elem, elem_of_dom, not_eq_None_Some. }
  assert (Hdn : key ∈ in_key_order kcmp (dom new) ↔ new !! key ≠ None).
  { by rewrite in_key_order_elem, elem_of_dom, not_eq_None_Some. }
  unfold unpost_entry, post_entry. rewrite lookup_empty, (decide_True (P := None = None)) by done.
  destruct (decide (key ∈ in_key_order kcmp (dom old))) as [H1|H1],
    (decide (key ∈ in_key_order kcmp (dom new))) as [H2|H2]; rewrite Hdo in H1; rewrite Hdn in H2;
    destruct (decide (old !! key = None)) as [H3|H3], (decide (new !! key = None)) as [H4|H4];
    try done; rewrite Hold in H3; rewrite Hnew in H4;
    by destruct (rows_at rows file key), (from_option (rows_under key) [] (filter_nonempty next)).
Qed.

Lemma update_file_spec rows postings delta file next :
  postings_ok rows postings →
  let '(rows', postings', delta') := update_file kcmp (rows, postings, delta) (file, next) in
  (∀ f, rows' !! f = if decide (f = file) then filter_nonempty next else rows !! f) ∧
  postings_ok rows' postings' ∧
  (∀ key, key ∈ delta → key ∈ delta') ∧
  (∀ key, key ∉ delta' → rows_at rows' file key = rows_at rows file key).
Proof.
  intros [Hne Hok]. unfold update_file. rewrite !foldl_pair.
  set (rows' := match filter_nonempty next with
    Some next => <[file := next]> (delete file rows) | None => delete file rows end).
  assert (Hrows : ∀ f, rows' !! f = if decide (f = file) then filter_nonempty next else rows !! f).
  { intros f. unfold rows'. destruct (decide (f = file)) as [->|Hf], (filter_nonempty next);
      by rewrite ?lookup_insert_eq, ?lookup_insert_ne, ?lookup_delete_eq, ?lookup_delete_ne. }
  split; [done|]. split; [split|split].
  - intros key. rewrite update_file_posting. unfold unpost_entry. specialize (Hne key).
    destruct (rows_at rows file key), (from_option _ _ _); try done.
    + intros [= Hx]. set_solver.
    + rewrite lookup_empty, decide_True by done. destruct (postings !! key); [|done].
      case_decide; [done|congruence].
  - intros key f. rewrite update_file_posting. specialize (Hok key).
    assert (Hat : rows_at rows' f key = if decide (f = file)
      then from_option (rows_under key) [] (filter_nonempty next) else rows_at rows f key).
    { unfold rows_at. rewrite Hrows. by destruct (decide (f = file)). }
    rewrite Hat. pose proof (Hok file) as Hfile. pose proof (Hok f) as Hf. clear Hat Hok.
    assert (Hrm : f ∈ default ∅ (unpost_entry file ∅ key (postings !! key)) ↔
      f ∈ default ∅ (postings !! key) ∧ f ≠ file).
    { unfold unpost_entry. rewrite lookup_empty, decide_True by done.
      destruct (postings !! key); simpl; [|set_solver]. case_decide; simpl; set_solver. }
    destruct (rows_at rows file key) as [|ov ovs] eqn:Ho,
      (from_option (rows_under key) [] (filter_nonempty next)) as [|nv nvs];
      destruct (decide (f = file)) as [->|Hff]; simpl.
    + done.
    + done.
    + split; [done|]. set_solver.
    + rewrite <-Hf. set_solver.
    + rewrite Hrm. split; [by intros []|done].
    + rewrite Hrm, Hf. split; [by intros []|done].
    + rewrite Hfile. done.
    + done.
  - intros key Hk. apply elem_of_foldl_collect. left. apply elem_of_foldl_collect. by left.
  - intros key. rewrite !elem_of_foldl_collect, !in_key_order_elem, !elem_of_dom.
    rewrite !grouped_from_option. unfold rows_at. rewrite Hrows, decide_True by done.
    destruct (from_option (rows_under key) [] (rows !! file)) as [|ov ovs],
      (from_option (rows_under key) [] (filter_nonempty next)) as [|nv nvs]; try naive_solver.
    intros Hk. destruct (decide (ov :: ovs = nv :: nvs)); [congruence|].
    destruct Hk. left. right. split; [done|congruence].
Qed.

(** ** The loop over the changed files *)

Lemma elem_of_file_entries {A} (m : gmap FileId A) file a :
  (file, a) ∈ file_entries m ↔ m !! file = Some a.
Proof.
  unfold file_entries. rewrite list_elem_of_omap. split.
  - intros (f & _ & Hf). destruct (m !! f) eqn:E; simplify_eq/=. done.
  - intros Hm. exists file. rewrite elem_of_ascending, elem_of_dom, Hm. eauto.
Qed.

Lemma file_entries_keys {A} (m : gmap FileId A) :
  (file_entries m).*1 = ascending (dom m).
Proof.
  unfold file_entries.
  assert (Hd : ∀ f, f ∈ ascending (dom m) → is_Some (m !! f)).
  { intros f. by rewrite elem_of_ascending, elem_of_dom. }
  induction (ascending (dom m)) as [|f l IH]; [done|]. simpl.
  destruct (Hd f) as [a Ha]; [by left|]. rewrite Ha. simpl. f_equal. apply IH.
  intros f' Hf'. apply Hd. by right.
Qed.

Lemma file_entries_NoDup {A} (m : gmap FileId A) : NoDup (file_entries m).*1.
Proof. rewrite file_entries_keys. apply ascending_NoDup. Qed.

Lemma file_entries_map {A} (m : gmap FileId A) : list_to_map (file_entries m) = m.
Proof.
  apply map_eq. intros f. apply option_eq. intros a.
  rewrite <-elem_of_list_to_map by apply file_entries_NoDup. apply elem_of_file_entries.
Qed.

Lemma update_files_spec (changes : list (FileId * option (list (K * C)))) :
  NoDup changes.*1 → ∀ rows postings delta, postings_ok rows postings →
  let '(rows', postings', delta') := foldl (update_file kcmp) (rows, postings, delta) changes in
  (∀ f, rows' !! f =
    match list_to_map (M := gmap FileId (option (list (K * C)))) changes !! f with
    | Some next => filter_nonempty next | None => rows !! f end) ∧
  postings_ok rows' postings' ∧
  (∀ key, key ∉ delta' → (key ∉ delta) ∧ ∀ f, rows_at rows' f key = rows_at rows f key).
Proof.
  induction changes as [|[file next] changes IH]; intros Hnd rows postings delta Hok.
  { simpl. split; [intros f; by rewrite lookup_empty|]. done. }
  apply NoDup_cons in Hnd as [Hfile Hnd]. cbn [foldl].
  pose proof (update_file_spec rows postings delta file next Hok) as Hstep.
  destruct (update_file kcmp (rows, postings, delta) (file, next)) as [[rows1 postings1] delta1].
  destruct Hstep as (Hr1 & Hok1 & Hsub & Hat1).
  specialize (IH Hnd rows1 postings1 delta1 Hok1).
  destruct (foldl (update_file kcmp) (rows1, postings1, delta1) changes)
    as [[rows2 postings2] delta2].
  destruct IH as (Hr2 & Hok2 & Hat2). split; [|split; [done|]].
  - intros f. rewrite Hr2, list_to_map_cons. destruct (decide (f = file)) as [->|Hne].
    + rewrite lookup_insert_eq, not_elem_of_list_to_map_1, Hr1, decide_True by done. done.
    + by rewrite lookup_insert_ne, Hr1, decide_False by done.
  - intros key Hk. destruct (Hat2 key Hk) as [Hk1 Hf]. split; [by intros ?%Hsub|].
    intros f. rewrite Hf. destruct (decide (f = file)) as [->|Hne]; [by apply Hat1|].
    unfold rows_at. by rewrite Hr1, decide_False.
Qed.

Lemma changes_map (changes : list (FileId * option (list (K * C)))) :
  foldl (λ (m : gmap FileId (option (list (K * C)))) '(file, next), <[file := next]> m) ∅ changes
  = list_to_map (reverse changes).
Proof.
  induction changes as [|[f n] changes IH] using rev_ind; [done|].
  by rewrite foldl_snoc, reverse_snoc, list_to_map_cons, IH.
Qed.

Definition listed_changes order (changes : list (FileId * option (list (K * C)))) : Prop :=
  ∀ f rs, (f, Some rs) ∈ changes → is_Some (fo_rank order f).

Lemma drop_unlisted_spec order rows (changes : gmap FileId (option (list (K * C)))) f :
  foldl (drop_unlisted order) changes (ascending (dom rows)) !! f =
  if decide (fo_rank order f = None ∧ is_Some (rows !! f)) then Some None else changes !! f.
Proof.
  rewrite (foldl_pointwise _
    (λ file o, match fo_rank order file with None => Some None | Some _ => o end)).
  - destruct (decide (f ∈ ascending (dom rows))) as [Hf|Hf];
      rewrite elem_of_ascending, elem_of_dom in Hf;
      destruct (fo_rank order f), (decide (_ ∧ _)) as [Hd|Hd]; naive_solver.
  - intros m k k'. unfold drop_unlisted. destruct (decide (k' = k)) as [->|Hne],
      (fo_rank order k); by rewrite ?lookup_insert_eq, ?lookup_insert_ne.
  - apply ascending_NoDup.
Qed.

Lemma rows_changed_nonempty rows changes f rs :
  (∀ f rs, rows !! f = Some rs → rs ≠ []) → rows_changed rows changes f = Some rs → rs ≠ [].
Proof.
  intros Hok. unfold rows_changed. destruct (list_to_map (reverse changes) !! f) as [next|].
  - destruct next as [[|]|]; simpl; [done|by intros [= <-]|done].
  - apply Hok.
Qed.

(** Rows come for listed files only: they are in order again. *)
Lemma rows_after_ok order rows changes :
  (∀ f rs, rows !! f = Some rs → rs ≠ []) → listed_changes order changes →
  ∀ rows', (∀ f, rows' !! f = rows_after order rows changes f) → rows_ok order rows'.
Proof.
  intros Hok Hl rows' Hr f rs Hf. rewrite Hr in Hf. unfold rows_after in Hf.
  assert (Hne : rows_changed rows changes f = Some rs → rs ≠ []).
  { by apply rows_changed_nonempty. }
  destruct (fo_rank order f) eqn:Hrank; [split; [by apply Hne|eauto]|].
  destruct (rows !! f) eqn:Hrows; [done|]. unfold rows_changed in Hf. rewrite Hrows in Hf.
  destruct (list_to_map (reverse changes) !! f) as [[rs'|]|] eqn:Hm; [|done..].
  apply elem_of_list_to_map_2 in Hm. rewrite elem_of_reverse in Hm.
  apply Hl in Hm. rewrite Hrank in Hm. by destruct Hm.
Qed.

(** ** A key's values in path order *)

Lemma concat_filter {A B} (P : A → Prop) `{!∀ x, Decision (P x)} (f : A → list B) l :
  (∀ x, x ∈ l → ¬ P x → f x = []) → concat (f <$> filter P l) = concat (f <$> l).
Proof.
  induction l as [|x l IH]; intros Hf; [done|].
  destruct (decide (P x)) as [Hx|Hx].
  - rewrite filter_cons_True by done. rewrite !fmap_cons. cbn [concat].
    rewrite IH; [done|]. intros; apply Hf; [by right|done].
  - rewrite filter_cons_False by done. rewrite fmap_cons. cbn [concat].
    rewrite (Hf x), IH; [done| |by left|done].
    intros; apply Hf; [by right|done].
Qed.

Lemma sorted_by_index {A} (R : relation A) (l : list A) :
  (∀ i j a b, i < j → l !! i = Some a → l !! j = Some b → R a b) → StronglySorted R l.
Proof.
  induction l as [|x l IH]; intros HR; constructor.
  - apply IH. intros i j a b Hij Ha Hb. apply (HR (S i) (S j)); [lia|done..].
  - apply Forall_lookup. intros i b Hb. apply (HR 0 (S i) x b); [lia|done..].
Qed.

Lemma sorted_filter {A} (R : relation A) (P : A → Prop) `{!∀ x, Decision (P x)} (l : list A) :
  StronglySorted R l → StronglySorted R (filter P l).
Proof.
  induction 1 as [|x l Hs IH Hx]; [constructor|].
  destruct (decide (P x)); [rewrite filter_cons_True by done|by rewrite filter_cons_False].
  constructor; [done|]. rewrite Forall_forall in *. intros y Hy.
  apply Hx. by apply list_elem_of_filter in Hy as [_ Hy].
Qed.

Lemma sorted_weaken {A} (R R' : relation A) (l : list A) :
  (∀ a b, R a b → R' a b) → StronglySorted R l → StronglySorted R' l.
Proof. intros HR. induction 1; constructor; [done|]. eapply Forall_impl; eauto. Qed.

Lemma rank_cmp_order order : cmp_order (rank_cmp order).
Proof. apply (cmp_then (fo_rank order) id _ _ option_nat_cmp_order nat_cmp_order). by intros. Qed.

Lemma ascending_increasing (s : gset nat) : StronglySorted lt (ascending s).
Proof.
  pose proof (ascending_NoDup s) as Hn.
  assert (Hs : StronglySorted le (ascending s)) by (apply StronglySorted_merge_sort; intros ?*; lia).
  induction Hs as [|a l Hs IH Ha]; [constructor|]. apply NoDup_cons in Hn as [Hn Hl].
  constructor; [auto|]. rewrite Forall_forall in *. intros b Hb. specialize (Ha b Hb).
  assert (a ≠ b) by (by intros ->). lia.
Qed.

Lemma path_ids_increasing order rows :
  fo_wf order → StronglySorted (λ a b, rank_cmp order a b = Lt) (path_ids order rows).
Proof.
  intros [_ Hr]. unfold path_ids. apply StronglySorted_app. split; [|split].
  - intros a b Ha Hb. rewrite elem_of_ascending, elem_of_filter in Ha. destruct Ha as [Ha _].
    apply list_elem_of_lookup in Hb as [i Hb]. apply Hr in Hb. unfold rank_cmp.
    rewrite Ha. unfold fo_rank. by rewrite Hb.
  - assert (Hun : ∀ a, a ∈ ascending (filter (λ f, fo_rank order f = None) (dom rows)) →
      fo_rank order a = None) by (intros a; rewrite elem_of_ascending, elem_of_filter; by intros []).
    pose proof (ascending_increasing (filter (λ f, fo_rank order f = None) (dom rows))) as Hs.
    induction Hs as [|a l Hs IH Ha]; constructor; [apply IH; intros; apply Hun; by right|].
    rewrite Forall_forall in *. intros b Hb. unfold rank_cmp.
    rewrite (Hun a), (Hun b) by (first [by left|by right]). simpl. by apply Nat.compare_lt_iff, Ha.
  - apply sorted_by_index. intros i j a b Hij Ha Hb. apply Hr in Ha, Hb.
    unfold rank_cmp, fo_rank. rewrite Ha, Hb. simpl. by rewrite (proj2 (Nat.compare_lt_iff i j) Hij).
Qed.

Lemma elem_of_path_ids order rows f : f ∈ dom rows → fo_wf order → f ∈ path_ids order rows.
Proof.
  intros Hf [_ Hr]. unfold path_ids. rewrite elem_of_app, elem_of_ascending, elem_of_filter.
  destruct (fo_rank order f) as [r|] eqn:E; [right|by left]. apply Hr in E.
  by eapply list_elem_of_lookup_2.
Qed.

(** Sorting files with rows by rank reads them in path order. *)
Lemma sort_by_rank order rows (files : gset FileId) :
  fo_wf order → files ⊆ dom rows →
  merge_sort (rank_le order) (ascending files) = filter (.∈ files) (path_ids order rows).
Proof.
  intros Hwf Hf. pose proof (rank_cmp_order order) as Hc.
  pose proof (path_ids_increasing order rows Hwf) as Hinc.
  apply (StronglySorted_unique_strong (rank_le order)).
  - intros a b _ _ H1 H2. destruct (cmp_le_cases _ Hc _ _ H1) as [|Hlt]; [done|].
    unfold rank_le, cmp_le in H2. by rewrite (cmp_sym _ Hc), Hlt in H2.
  - apply StronglySorted_merge_sort; [by apply cmp_le_trans|by apply cmp_le_total].
  - apply sorted_filter. eapply sorted_weaken; [|exact Hinc].
    intros a b Hab. unfold rank_le, cmp_le. by rewrite Hab.
  - rewrite merge_sort_Permutation. apply NoDup_Permutation.
    + apply ascending_NoDup.
    + apply NoDup_filter. by eapply increasing_NoDup.
    + intros f. rewrite elem_of_ascending, list_elem_of_filter. split; [|by intros []].
      intros Hin. split; [done|]. apply elem_of_path_ids; [by apply Hf|done].
Qed.

(** Where only listed files name a key, the files are the listed ones. *)
Lemma all_fold_listed order rows key :
  key_listed order rows key → all_fold order rows key = path_fold order rows key.
Proof.
  intros Hl. unfold all_fold, path_fold.
  enough (all_values order rows key = path_values order rows key) as -> by done.
  unfold all_values, path_values, path_ids. rewrite fmap_app, concat_app.
  enough (concat ((λ f, rows_at rows f key) <$>
    ascending (filter (λ f, fo_rank order f = None) (dom rows))) = []) as -> by done.
  apply concat_nil_Forall, Forall_fmap, Forall_forall. intros f Hf. apply Hl.
  rewrite elem_of_ascending, elem_of_filter in Hf. by destruct Hf.
Qed.

Lemma key_values_spec order rows postings key :
  fo_wf order → postings_ok rows postings →
  key_values order rows postings key = Some (all_values order rows key).
Proof.
  intros Hwf [_ Hp]. unfold key_values.
  assert (Hhas : ∀ f, f ∈ default ∅ (postings !! key) → is_Some (rows !! f)).
  { intros f Hf%Hp. unfold rows_at in Hf. destruct (rows !! f); [eauto|done]. }
  rewrite (sort_by_rank order rows); [|done|by intros f Hf%Hhas; apply elem_of_dom].
  assert (Hm : mapM (λ file, rows_under key <$> rows !! file)
    (filter (.∈ default ∅ (postings !! key)) (path_ids order rows)) =
    Some ((λ f, rows_at rows f key) <$> filter (.∈ default ∅ (postings !! key)) (path_ids order rows))).
  { apply mapM_Some, Forall2_fmap_r, Forall_Forall2_diag, Forall_forall. intros f Hf.
    apply list_elem_of_filter in Hf as [Hf _]. destruct (Hhas f Hf) as [rs Hrs].
    unfold compose, rows_at. rewrite Hrs. done. }
  rewrite Hm. cbn [mbind option_bind]. f_equal. apply concat_filter. intros f _ Hf.
  destruct (rows_at rows f key) eqn:E; [done|]. destruct Hf. apply Hp. by rewrite E.
Qed.

Lemma refold_loop_spec order rows postings values0 delta :
  fo_wf order → postings_ok rows postings → NoDup delta →
  ∃ values changed, foldM (refold fold order rows postings) (values0, []) delta =
      Some (values, changed) ∧
    (∀ key, values !! key =
      if decide (key ∈ delta) then all_fold order rows key else values0 !! key) ∧
    changed = filter (λ key, all_fold order rows key ≠ values0 !! key) delta.
Proof.
  intros Hwf Hp Hnd.
  destruct (foldM_spec (λ done '(values, changed),
      (∀ key, values !! key =
        if decide (key ∈ done) then all_fold order rows key else values0 !! key) ∧
      changed = filter (λ key, all_fold order rows key ≠ values0 !! key) done)
    (refold fold order rows postings) delta (values0, [])) as ([values changed] & Hf & HP);
    [| |by eauto].
  - split; [|done]. intros key. destruct (decide (key ∈ [])) as [Hk|]; [|done].
    by apply elem_of_nil in Hk.
  - intros done [values changed] k rest -> [Hv ->]. unfold refold.
    rewrite key_values_spec by done. simpl.
    assert (Hk : k ∉ done).
    { apply NoDup_app in Hnd as (_ & Hnd & _). intros Hin. eapply Hnd; [done|by left]. }
    assert (Hpf : match all_values order rows k with [] => None | _ :: _ =>
      fold k (all_values order rows k) end = all_fold order rows k).
    { unfold all_fold. by destruct (all_values order rows k). }
    rewrite Hpf. eexists. split; [done|]. split.
    + intros key. destruct (decide (key = k)) as [->|Hne].
      * rewrite decide_True by set_solver.
        destruct (all_fold order rows k); [by rewrite lookup_insert_eq|by rewrite lookup_delete_eq].
      * transitivity (values !! key).
        { destruct (all_fold order rows k);
            [by rewrite lookup_insert_ne|by rewrite lookup_delete_ne]. }
        rewrite Hv. destruct (decide (key ∈ done)), (decide (key ∈ done ++ [k])); set_solver.
    + rewrite filter_app. rewrite Hv, decide_False by done.
      assert (Hdiff : (match all_fold order rows k with
          | Some next => bool_decide (values0 !! k ≠ Some next)
          | None => bool_decide (is_Some (values0 !! k)) end) =
        bool_decide (all_fold order rows k ≠ values0 !! k)).
      { destruct (all_fold order rows k); apply bool_decide_ext; [by split; congruence|].
        rewrite <-not_eq_None_Some. by split; congruence. }
      rewrite Hdiff. clear Hdiff. case_bool_decide as Hd; [by rewrite filter_cons_True|].
      rewrite filter_cons_False by (intros Hn; by apply Hn, dec_stable).
      by rewrite filter_nil, app_nil_r.
Qed.

End spec.

(** * The kept fold's first build

    [fold_all] sorts every row once by (key, path rank, file, position) and
    folds the runs of equal keys. This file proves each run to be the key's
    values in path order, so that the sorted build and the per-key refold give
    the same maps. *)

Lemma elem_of_concat_fmap {A B} (g : A → list B) (l : list A) b :
  b ∈ concat (g <$> l) ↔ ∃ a, a ∈ l ∧ b ∈ g a.
Proof.
  induction l as [|a l IH]; [set_solver|]. rewrite fmap_cons. cbn [concat].
  rewrite elem_of_app, IH. setoid_rewrite elem_of_cons. naive_solver.
Qed.

Lemma sorted_concat {A B} (RA : relation A) (RB : relation B) (g : A → list B) (l : list A) :
  StronglySorted RA l → (∀ a, a ∈ l → StronglySorted RB (g a)) →
  (∀ a a' b b', RA a a' → b ∈ g a → b' ∈ g a' → RB b b') →
  StronglySorted RB (concat (g <$> l)).
Proof.
  intros Hs Hg Hcross. induction Hs as [|a l Hs IH Ha]; [constructor|].
  rewrite fmap_cons. cbn [concat]. apply StronglySorted_app. split; [|split].
  - intros b b' Hb Hb'. apply elem_of_concat_fmap in Hb' as (a' & Ha' & Hb'). rewrite Forall_forall in Ha. eauto.
  - apply Hg. by left.
  - apply IH. intros; apply Hg. by right.
Qed.

Section chunks.
Context {A K : Type} `{EqDecision K} (kcmp : K → K → comparison) (kcmp_order : cmp_order kcmp).
Context (key : A → K).

(** On a list sorted by key, the chunks are the keys' rows, keys ascending. *)
Lemma chunk_by_spec (l : list A) :
  StronglySorted (λ a b, cmp_le kcmp (key a) (key b)) l →
  ∃ ks, StronglySorted (λ a b, kcmp a b = Lt) ks ∧
    chunk_by (λ a b, bool_decide (kcmp (key a) (key b) = Eq)) l =
      (λ k, filter (λ a, key a = k) l) <$> ks ∧
    ∀ k, k ∈ ks ↔ ∃ a, a ∈ l ∧ key a = k.
Proof.
  induction 1 as [|a l Hs IH Ha].
  { exists []. split; [constructor|]. split; [done|]. set_solver. }
  destruct IH as (ks & Hks & Hc & Hin). cbn [chunk_by]. rewrite Hc. clear Hc Hs.
  rewrite Forall_forall in Ha.
  assert (Hnew : (∀ b, b ∈ l → key b ≠ key a) →
    [a] :: ((λ k, filter (λ a, key a = k) l) <$> ks) =
    (λ k, filter (λ a, key a = k) (a :: l)) <$> key a :: ks).
  { intros Hno. rewrite fmap_cons, filter_cons_True by done.
    rewrite filter_none by (intros; by apply Hno). f_equal.
    apply list_fmap_ext. intros _ k Hk%list_elem_of_lookup_2.
    rewrite filter_cons_False; [done|]. intros <-. apply Hin in Hk as (b & Hb & Hk).
    by eapply Hno. }
  destruct ks as [|k0 ks].
  { exists [key a]. assert (Hl : ∀ b, b ∉ l).
    { intros b Hb. assert (Hk : key b ∈ []) by (apply Hin; eauto). by apply elem_of_nil in Hk. }
    split; [repeat constructor|]. split; [apply Hnew; intros b Hb; by apply Hl in Hb|].
    intros k. rewrite list_elem_of_singleton. split; [intros ->; exists a; split; [by left|done]|].
    intros (b & [->|Hb]%elem_of_cons & <-); [done|by apply Hl in Hb]. }
  inversion Hks as [|? ? Hks' Hk0]; subst. rewrite Forall_forall in Hk0.
  destruct (proj1 (Hin k0) ltac:(by left)) as (b0 & Hb0 & Hkb0).
  rewrite fmap_cons. destruct (filter (λ a, key a = k0) l) as [|b g] eqn:Hfil.
  { exfalso. assert (Hx : b0 ∈ filter (λ a, key a = k0) l) by (by apply list_elem_of_filter).
    rewrite Hfil in Hx. by apply elem_of_nil in Hx. }
  assert (Hb : key b = k0).
  { assert (Hx : b ∈ filter (λ a, key a = k0) l) by (rewrite Hfil; by left).
    by apply list_elem_of_filter in Hx as [? _]. }
  rewrite Hb. case_bool_decide as Hab.
  - apply (cmp_eq _ kcmp_order) in Hab. exists (k0 :: ks). split; [done|]. split.
    + rewrite fmap_cons, filter_cons_True, Hfil by done. f_equal.
      apply list_fmap_ext. intros _ k Hk%list_elem_of_lookup_2.
      rewrite filter_cons_False; [done|]. intros <-. specialize (Hk0 _ Hk). rewrite Hab in Hk0.
      by rewrite (proj2 (cmp_eq _ kcmp_order k0 k0) eq_refl) in Hk0.
    + intros k. rewrite Hin. split; [intros (c & ? & ?); exists c; split; [by right|done]|].
      intros (c & [->|Hc]%elem_of_cons & <-); [|eauto]. exists b0. rewrite Hab. done.
  - assert (Hlt : kcmp (key a) k0 = Lt).
    { destruct (cmp_le_cases kcmp kcmp_order (key a) k0) as [E|]; [|by rewrite E in Hab; destruct Hab; apply (cmp_eq _ kcmp_order)|done].
      rewrite <-Hkb0. by apply Ha. }
    assert (Hall : ∀ k, k ∈ k0 :: ks → kcmp (key a) k = Lt).
    { intros k [->|Hk]%elem_of_cons; [done|]. eapply (cmp_trans _ kcmp_order); [done|by apply Hk0]. }
    exists (key a :: k0 :: ks). split; [|split].
    + constructor; [done|]. by apply Forall_forall.
    + rewrite <-Hnew, fmap_cons, Hfil; [done|]. intros c Hc Heq.
      assert (Hk : key c ∈ k0 :: ks) by (apply Hin; eauto). apply Hall in Hk. rewrite Heq in Hk.
      by rewrite (proj2 (cmp_eq _ kcmp_order _ _) eq_refl) in Hk.
    + intros k. rewrite elem_of_cons, Hin. split.
      * intros [->|(c & ? & ?)]; [exists a; split; [by left|done]|exists c; split; [by right|done]].
      * intros (c & [->|Hc]%elem_of_cons & <-); [by left|right; eauto].
Qed.

End chunks.

Section fold_all.
Context {K C V : Type} `{Countable K, EqDecision C, EqDecision V}.
Context (kcmp : K → K → comparison) (kcmp_order : cmp_order kcmp).
Context (fold : K → list C → option V).
Implicit Types (order : FileOrder) (rows : gmap FileId (list (K * C))).

(** A file's sort rows. *)
Definition file_fold_rows order (file : FileId) (rows : list (K * C)) : list (FoldRow K C) :=
  imap (λ position '(key, value), mk_row key (fo_rank order file) file position value) rows.

(** The sort rows of every file in path order. *)
Definition path_rows order rows : list (FoldRow K C) :=
  concat ((λ file, file_fold_rows order file (default [] (rows !! file))) <$> path_ids order rows).

Lemma elem_of_file_fold_rows order file (frows : list (K * C)) r :
  r ∈ file_fold_rows order file frows ↔
  row_rank r = fo_rank order file ∧ row_file r = file ∧
  frows !! row_position r = Some (row_key r, row_value r).
Proof.
  unfold file_fold_rows. rewrite list_elem_of_lookup. setoid_rewrite list_lookup_imap_Some.
  split.
  - intros (i & [k c] & Hi & ->). done.
  - intros (H1 & H2 & H3). exists (row_position r), (row_key r, row_value r).
    split; [done|]. destruct r; simpl in *. by subst.
Qed.

Lemma elem_of_path_rows order rows r :
  fo_wf order →
  r ∈ path_rows order rows ↔
  row_rank r = fo_rank order (row_file r) ∧
  ∃ frows, rows !! row_file r = Some frows ∧
    frows !! row_position r = Some (row_key r, row_value r).
Proof.
  intros Hwf. unfold path_rows. rewrite elem_of_concat_fmap.
  setoid_rewrite elem_of_file_fold_rows. split.
  - intros (f & Hf & Hr & <- & Hp). split; [done|].
    destruct (rows !! row_file r) as [frows|]; [eauto|simpl in Hp; by rewrite lookup_nil in Hp].
  - intros (Hr & frows & Hf & Hp). exists (row_file r). rewrite Hf. split; [|done].
    apply elem_of_path_ids; [apply elem_of_dom; eauto|done].
Qed.

(** [fold_rows] lists the path rows in some order. *)
Lemma fold_rows_path order rows :
  fo_wf order → fold_rows order rows ≡ₚ path_rows order rows.
Proof.
  intros Hwf. unfold fold_rows, path_rows.
  assert (Hentries : ∀ l, (∀ f, f ∈ l → is_Some (rows !! f)) →
    concat ((λ '(file, rows), imap (λ position '(key, value),
        mk_row key (fo_rank order file) file position value) rows)
      <$> omap (λ file, pair file <$> rows !! file) l) =
    concat ((λ file, file_fold_rows order file (default [] (rows !! file))) <$> l)).
  { induction l as [|f l IH]; intros Hl; [done|]. destruct (Hl f) as [fr Hf]; [by left|].
    cbn [omap list_omap]. rewrite Hf. cbn [fmap option_fmap option_map]. rewrite !fmap_cons.
    cbn [concat]. f_equal; [by rewrite Hf|]. apply IH. intros; apply Hl. by right. }
  unfold file_entries. rewrite Hentries by (intros f; by rewrite elem_of_ascending, elem_of_dom).
  assert (Hids : filter (.∈ dom rows) (path_ids order rows) ≡ₚ ascending (dom rows)).
  { by rewrite <-sort_by_rank, merge_sort_Permutation. }
  rewrite <-(concat_filter (.∈ dom rows) _ (path_ids order rows)).
  - by rewrite Hids.
  - intros f _ Hf%not_elem_of_dom. by rewrite Hf.
Qed.

(** The order of the sort below the key. *)
Definition place_cmp (a b : FoldRow K C) : comparison :=
  then_cmp (option_nat_cmp (row_rank a) (row_rank b))
    (then_cmp (Nat.compare (row_file a) (row_file b))
      (Nat.compare (row_position a) (row_position b))).

Lemma path_rows_sorted order rows :
  fo_wf order → StronglySorted (λ a b, place_cmp a b = Lt) (path_rows order rows).
Proof.
  intros Hwf. unfold path_rows.
  apply (sorted_concat (λ f f', rank_cmp order f f' = Lt)).
  - by apply path_ids_increasing.
  - intros f _. apply sorted_by_index. unfold file_fold_rows.
    intros i j a b Hij Ha Hb. apply list_lookup_imap_Some in Ha as ([k c] & _ & ->).
    apply list_lookup_imap_Some in Hb as ([k' c'] & _ & ->). unfold place_cmp. simpl.
    rewrite (proj2 (cmp_eq _ option_nat_cmp_order _ _) eq_refl), Nat.compare_refl. simpl.
    by apply Nat.compare_lt_iff.
  - intros f f' a b Hff Ha Hb. apply elem_of_file_fold_rows in Ha as (Ha & Hfa & _).
    apply elem_of_file_fold_rows in Hb as (Hb & Hfb & _). unfold place_cmp. unfold rank_cmp in Hff.
    rewrite Ha, Hb, Hfa, Hfb. destruct (option_nat_cmp _ _); [|done..]. simpl in *. by rewrite Hff.
Qed.

Lemma row_cmp_order_le : Total (cmp_le (row_cmp kcmp (C := C))) ∧
  Transitive (cmp_le (row_cmp kcmp (C := C))).
Proof.
  pose (proj := λ r : FoldRow K C, (row_key r, row_rank r, row_file r, row_position r)).
  pose (cmp4 := λ a b : K * option nat * nat * nat,
    then_cmp (kcmp a.1.1.1 b.1.1.1) (then_cmp (option_nat_cmp a.1.1.2 b.1.1.2)
      (then_cmp (Nat.compare a.1.2 b.1.2) (Nat.compare a.2 b.2)))).
  assert (Hc : cmp_order cmp4).
  { apply (cmp_then (λ a : K * option nat * nat * nat, a.1.1.1) (λ a, (a.1.1.2, a.1.2, a.2)) kcmp
      (λ a b, then_cmp (option_nat_cmp a.1.1 b.1.1)
        (then_cmp (Nat.compare a.1.2 b.1.2) (Nat.compare a.2 b.2))) kcmp_order).
    - apply (cmp_then (λ a : option nat * nat * nat, a.1.1) (λ a, (a.1.2, a.2)) option_nat_cmp
        (λ a b, then_cmp (Nat.compare a.1 b.1) (Nat.compare a.2 b.2)) option_nat_cmp_order).
      + apply (cmp_then fst snd Nat.compare Nat.compare nat_cmp_order nat_cmp_order).
        by intros [] [] ? ?; simplify_eq/=.
      + intros [[]] [[]] ? ?; by simplify_eq/=.
    - intros [[[]]] [[[]]] ? ?; by simplify_eq/=. }
  split.
  - intros a b. apply (cmp_le_total _ Hc (proj a) (proj b)).
  - intros a b c. apply (cmp_le_trans _ Hc (proj a) (proj b) (proj c)).
Qed.

(** A key's run of the sorted rows is the key's rows in path order. *)
Lemma key_run order rows key :
  fo_wf order →
  filter (λ r, row_key r = key) (merge_sort (cmp_le (row_cmp kcmp)) (fold_rows order rows)) =
  filter (λ r, row_key r = key) (path_rows order rows).
Proof.
  intros Hwf. destruct row_cmp_order_le as [Htot Htr].
  assert (Hperm : merge_sort (cmp_le (row_cmp kcmp)) (fold_rows order rows) ≡ₚ
    path_rows order rows) by (by rewrite merge_sort_Permutation, fold_rows_path).
  assert (Hrow : ∀ a b : FoldRow K C, row_key a = row_key b →
    row_cmp kcmp a b = place_cmp a b).
  { intros a b Hab. unfold row_cmp. by rewrite Hab, (proj2 (cmp_eq _ kcmp_order _ _) eq_refl). }
  apply (StronglySorted_unique_strong (cmp_le (row_cmp kcmp))).
  - intros a b [Ha Ha']%list_elem_of_filter [Hb Hb']%list_elem_of_filter H1 H2.
    rewrite Hperm in Ha'. apply elem_of_path_rows in Ha' as (Hra & fa & Hfa & Hpa); [|done..].
    apply elem_of_path_rows in Hb' as (Hrb & fb & Hfb & Hpb); [|done..].
    unfold cmp_le in H1, H2. rewrite Hrow in H1, H2 by congruence.
    assert (Hplace : row_file a = row_file b ∧ row_position a = row_position b).
    { unfold place_cmp in H1, H2. rewrite (cmp_sym _ option_nat_cmp_order) in H2.
      rewrite (Nat.compare_antisym (row_file a)), (Nat.compare_antisym (row_position a)) in H2.
      destruct (option_nat_cmp _ _); try done. destruct (Nat.compare (row_file a) _) eqn:Hf; try done.
      destruct (Nat.compare (row_position a) _) eqn:Hp; try done.
      by apply Nat.compare_eq_iff in Hf, Hp. }
    destruct Hplace as [Hf Hp]. destruct a, b; simpl in *. simplify_eq. congruence.
  - apply sorted_filter, StronglySorted_merge_sort; done.
  - assert (Hk : ∀ a, a ∈ filter (λ r, row_key r = key) (path_rows order rows) → row_key a = key).
    { by intros a [? _]%list_elem_of_filter. }
    pose proof (sorted_filter _ (λ r, row_key r = key) _ (path_rows_sorted order rows Hwf)) as Hs.
    induction Hs as [|a l Hs IH Ha]; constructor.
    + apply IH. intros; apply Hk. by right.
    + rewrite Forall_forall in *. intros b Hb. unfold cmp_le.
      rewrite Hrow, (Ha b Hb); [done|]. rewrite !Hk; [done|by right|by left].
  - by rewrite Hperm.
Qed.

Lemma run_values key rank file (pos : nat → nat) (frows : list (K * C)) :
  row_value <$> filter (λ r, row_key r = key)
    (imap (λ i '(k, c), mk_row k rank file (pos i) c) frows) = rows_under key frows.
Proof.
  unfold rows_under. revert pos. induction frows as [|[k c] frows IH]; intros pos; [done|].
  cbn [imap]. rewrite (imap_ext _ (λ i '(k, c), mk_row k rank file ((pos ∘ S) i) c)).
  2:{ by intros i [] _. }
  destruct (decide (k = key)).
  - rewrite !filter_cons_True, !fmap_cons, IH by done. done.
  - rewrite !filter_cons_False, IH by done. done.
Qed.

Lemma path_rows_values order rows key :
  row_value <$> filter (λ r, row_key r = key) (path_rows order rows) =
  all_values order rows key.
Proof.
  unfold path_rows, all_values. induction (path_ids order rows) as [|f ids IH]; [done|].
  rewrite !fmap_cons. cbn [concat]. rewrite filter_app, fmap_app, IH. f_equal.
  unfold file_fold_rows. rewrite (run_values key _ f id). unfold rows_at.
  by destruct (rows !! f).
Qed.

Lemma path_rows_file order rows key f :
  fo_wf order →
  f ∈ row_file <$> filter (λ r, row_key r = key) (path_rows order rows) ↔
  rows_at rows f key ≠ [].
Proof.
  intros Hwf. rewrite list_elem_of_fmap. setoid_rewrite list_elem_of_filter.
  setoid_rewrite elem_of_path_rows; [|done..]. unfold rows_at, rows_under. split.
  - intros (r & -> & <- & _ & fr & -> & Hp). simpl. intros Hnil.
    apply fmap_nil_inv in Hnil. apply list_elem_of_lookup_2 in Hp.
    assert (Hx : (row_key r, row_value r) ∈ filter (λ row : K * C, row.1 = row_key r) fr)
      by (by apply list_elem_of_filter). rewrite Hnil in Hx. by apply elem_of_nil in Hx.
  - destruct (rows !! f) as [fr|] eqn:Hf; simpl; [|done]. intros Hne.
    destruct (filter (λ row : K * C, row.1 = key) fr) as [|[k c] l] eqn:Hl; [done|].
    assert (Hx : (k, c) ∈ filter (λ row : K * C, row.1 = key) fr) by (rewrite Hl; by left).
    apply list_elem_of_filter in Hx as [<- [i Hi]%list_elem_of_lookup].
    exists (mk_row k (fo_rank order f) f i c). simpl. rewrite Hf. eauto 10.
Qed.

(** The loop over the key groups. *)
Lemma fold_groups_spec (ks : list K) (run : K → list (FoldRow K C)) :
  NoDup ks → (∀ k, k ∈ ks → run k ≠ [] ∧ ∀ r, r ∈ run k → row_key r = k) →
  ∃ postings values changed recomputed,
    foldl (fold_group fold) (∅, ∅, [], 0) (run <$> ks) =
      (postings, values, changed, recomputed) ∧
    (∀ k, postings !! k =
      if decide (k ∈ ks) then Some (list_to_set (row_file <$> run k)) else None) ∧
    (∀ k, values !! k = if decide (k ∈ ks) then fold k (row_value <$> run k) else None) ∧
    changed = filter (λ k, is_Some (fold k (row_value <$> run k))) ks ∧
    recomputed = length ks.
Proof.
  intros Hnd Hrun. induction ks as [|k ks IH] using rev_ind.
  { eexists _, _, _, _. split; [done|]. split; [|split; [|done]];
      intros k; rewrite lookup_empty; destruct (decide (k ∈ [])) as [Hk|]; try done;
      by apply elem_of_nil in Hk. }
  apply NoDup_app in Hnd as (Hnd & Hk & _).
  assert (Hkn : k ∉ ks) by (intros Hin; eapply Hk; [done|by left]).
  destruct IH as (postings & values & changed & recomputed & Hf & Hp & Hv & -> & ->); [done| |].
  { intros k' Hk'. apply Hrun. set_solver. }
  rewrite fmap_app, foldl_app, Hf. cbn [foldl fmap list_fmap].
  destruct (Hrun k) as [Hne Hkey]; [set_solver|]. destruct (run k) as [|r l] eqn:Hrk; [done|].
  unfold fold_group at 1. rewrite (Hkey r) by (by left).
  assert (Hpost : ∀ k', <[k := list_to_set (row_file <$> r :: l)]> postings !! k' =
    if decide (k' ∈ ks ++ [k]) then Some (list_to_set (row_file <$> run k')) else None).
  { intros k'. destruct (decide (k' = k)) as [->|Hne'].
    - rewrite lookup_insert_eq, decide_True by set_solver. by rewrite Hrk.
    - rewrite lookup_insert_ne, Hp by done.
      destruct (decide (k' ∈ ks)), (decide (k' ∈ ks ++ [k])); set_solver. }
  rewrite length_app, filter_app. simpl length. rewrite Nat.add_1_r.
  destruct (fold k (row_value <$> r :: l)) as [v|] eqn:Hfv.
  - eexists _, _, _, _. split; [done|]. split; [done|]. split; [|split; [|done]].
    + intros k'. destruct (decide (k' = k)) as [->|Hne'].
      * rewrite lookup_insert_eq, decide_True by set_solver. by rewrite Hrk, Hfv.
      * rewrite lookup_insert_ne, Hv by done.
        destruct (decide (k' ∈ ks)), (decide (k' ∈ ks ++ [k])); set_solver.
    + rewrite filter_cons_True by (rewrite Hrk, Hfv; eauto). done.
  - eexists _, _, _, _. split; [done|]. split; [done|]. split; [|split; [|done]].
    + intros k'. rewrite Hv. destruct (decide (k' = k)) as [->|Hne'].
      * rewrite decide_False, decide_True by set_solver. by rewrite Hrk, Hfv.
      * destruct (decide (k' ∈ ks)), (decide (k' ∈ ks ++ [k])); set_solver.
    + rewrite filter_cons_False by (rewrite Hrk, Hfv; by intros []).
      by rewrite filter_nil, app_nil_r.
Qed.

Lemma insert_rows_spec (changes : list (FileId * option (list (K * C)))) f :
  NoDup changes.*1 →
  foldl insert_rows ∅ changes !! f =
  from_option filter_nonempty None
    (list_to_map (M := gmap FileId (option (list (K * C)))) changes !! f).
Proof.
  enough (Hgen : NoDup changes.*1 → ∀ rows, (∀ f, f ∈ changes.*1 → rows !! f = None) →
    foldl insert_rows rows changes !! f =
    match list_to_map (M := gmap FileId (option (list (K * C)))) changes !! f with
    | Some next => filter_nonempty next | None => rows !! f end).
  { intros Hnd. rewrite (Hgen Hnd ∅) by (intros; apply lookup_empty).
    by destruct (list_to_map changes !! f). }
  induction changes as [|[f' next] changes IH]; intros Hnd rows Hr; [done|].
  apply NoDup_cons in Hnd as [Hf' Hnd]. cbn [foldl]. rewrite list_to_map_cons.
  assert (Hrf : rows !! f' = None) by (apply Hr; by left).
  rewrite IH; [|done|].
  - unfold insert_rows. simpl. destruct (decide (f = f')) as [->|Hne].
    + rewrite lookup_insert_eq, not_elem_of_list_to_map_1 by done.
      destruct (filter_nonempty next); [by rewrite lookup_insert_eq|done].
    + rewrite lookup_insert_ne by done.
      destruct (filter_nonempty next); [by rewrite lookup_insert_ne|done].
  - intros f'' Hf''. unfold insert_rows. simpl.
    assert (Hne : f' ≠ f'') by (intros ->; done).
    destruct (filter_nonempty next); [rewrite lookup_insert_ne by done|]; apply Hr; by right.
Qed.

(** The groups of the sorted rows are the keys' rows in path order. *)
Lemma fold_runs order rows :
  fo_wf order →
  ∃ ks, NoDup ks ∧
    chunk_by (λ a b, bool_decide (kcmp (row_key a) (row_key b) = Eq))
      (merge_sort (cmp_le (row_cmp kcmp)) (fold_rows order rows)) =
      (λ k, filter (λ r, row_key r = k) (path_rows order rows)) <$> ks ∧
    ∀ k, k ∈ ks ↔ all_values order rows k ≠ [].
Proof.
  intros Hwf.
  destruct (chunk_by_spec kcmp kcmp_order row_key
    (merge_sort (cmp_le (row_cmp kcmp)) (fold_rows order rows))) as (ks & Hks & Hchunk & Hin).
  { destruct row_cmp_order_le as [Htot Htr].
    apply (sorted_weaken (cmp_le (row_cmp kcmp))); [|by apply StronglySorted_merge_sort].
    intros a b. unfold cmp_le, row_cmp. by destruct (kcmp (row_key a) (row_key b)). }
  exists ks. split; [by eapply increasing_NoDup|]. split.
  - rewrite Hchunk. apply list_fmap_ext. intros _ k _. by apply key_run.
  - intros k. rewrite Hin, <-path_rows_values, <-key_run by done. split.
    + intros (a & Ha & Hk) Hnil%fmap_nil_inv. 
      exact (filter_nil_not_elem_of _ _ a Hnil Hk Ha).
    + intros Hne. destruct (filter (λ r, row_key r = k) _) as [|a l] eqn:Hrk; [done|].
      assert (Hx : a ∈ filter (λ r, row_key r = k)
        (merge_sort (cmp_le (row_cmp kcmp)) (fold_rows order rows))) by (rewrite Hrk; by left).
      apply list_elem_of_filter in Hx as [? ?]. eauto.
Qed.

(** The maps [fold_all] builds. *)
Lemma fold_all_maps order rows :
  fo_wf order →
  ∃ postings values changed recomputed,
    foldl (fold_group fold) (∅, ∅, [], 0)
      (chunk_by (λ a b, bool_decide (kcmp (row_key a) (row_key b) = Eq))
        (merge_sort (cmp_le (row_cmp kcmp)) (fold_rows order rows))) =
      (postings, values, changed, recomputed) ∧
    postings_ok rows postings ∧
    (∀ k, values !! k = all_fold fold order rows k) ∧
    NoDup changed ∧ ∀ k, k ∈ changed ↔ values !! k ≠ None.
Proof.
  intros Hwf. destruct (fold_runs order rows Hwf) as (ks & Hnd & -> & Hks).
  set (run k := filter (λ r, row_key r = k) (path_rows order rows)).
  assert (Hne : ∀ k, k ∈ ks ↔ run k ≠ []).
  { intros k. rewrite Hks, <-path_rows_values. fold (run k).
    split; intros Hx Hy; apply Hx; [by rewrite Hy|by apply fmap_nil_inv in Hy]. }
  destruct (fold_groups_spec ks run Hnd)
    as (postings & values & changed & recomputed & Hf & Hp & Hv & Hc & _).
  { intros k Hk. split; [by apply Hne|]. by intros r [? _]%list_elem_of_filter. }
  exists postings, values, changed, recomputed. split; [exact Hf|]. split; [split|split; [|split]].
  - intros k. rewrite Hp. destruct (decide (k ∈ ks)) as [Hk|]; [|done].
    intros [= Hemp]. apply Hne in Hk. destruct (run k) as [|r l]; [done|].
    simpl in Hemp. set_solver.
  - intros k f. rewrite Hp, <-(path_rows_file order) by done. fold (run k).
    destruct (decide (k ∈ ks)) as [Hk|Hk]; simpl.
    + by rewrite elem_of_list_to_set.
    + rewrite Hne in Hk. apply dec_stable in Hk. rewrite Hk. set_solver.
  - intros k. rewrite Hv. unfold run. rewrite path_rows_values. unfold all_fold.
    destruct (decide (k ∈ ks)) as [Hk|Hk]; rewrite Hks in Hk;
      destruct (all_values order rows k); try done. by destruct Hk.
  - rewrite Hc. by apply NoDup_filter.
  - intros k. rewrite Hc, list_elem_of_filter, Hv.
    destruct (decide (k ∈ ks)); rewrite <-not_eq_None_Some; naive_solver.
Qed.

End fold_all.
