(* ===== verification/KeyedFoldTheorems.v ===== *)
(** * What the K1 fold guarantees

    The kept fold after any update is the path-order fold of the files' rows,
    it reports exactly the keys that moved, and no history of updates can be
    told from a first build on the same rows. *)
From S2P Require Import Prelude Order SolverBase KeyedFold KeyedFoldSpec.

Section update.
Context {K C V : Type} `{Countable K, EqDecision C, EqDecision V}.
Context (kcmp : K → K → comparison) (kcmp_order : cmp_order kcmp).
Context (fold : K → list C → option V).
Implicit Types (kf : KeyedFold K C V) (order : FileOrder)
  (changes : list (FileId * option (list (K * C)))).

(** What both paths of an update establish, whatever rows they are handed. *)
Definition updated kf order changes kf' (solved : Solved K) : Prop :=
  kf_order kf' = Some order ∧
  (∀ f, kf_rows kf' !! f = rows_after order (kf_rows kf) changes f) ∧
  postings_ok (kf_rows kf') (kf_postings kf') ∧
  (∀ k, kf_values kf' !! k = all_fold fold order (kf_rows kf') k) ∧
  NoDup (so_changed solved) ∧
  ∀ k, k ∈ so_changed solved ↔ kf_values kf' !! k ≠ kf_values kf !! k.

Lemma rows_at_fold_none order rows key :
  (∀ f, rows_at rows f key = []) → all_fold fold order rows key = None.
Proof.
  intros Hf. unfold all_fold, all_values.
  enough (concat ((λ f, rows_at rows f key) <$> path_ids order rows) = []) as -> by done.
  apply concat_nil_Forall, Forall_fmap, Forall_forall. intros f _. apply Hf.
Qed.

Lemma fold_all_updated kf order changes fresh :
  kf_rows kf = ∅ → kf_values kf = ∅ → fo_wf order →
  let '(kf', solved) := kf_fold_all kcmp fold kf order (list_to_map (reverse changes)) fresh in
  updated kf order changes kf' solved.
Proof.
  intros Hr0 Hv0 Hwf. unfold kf_fold_all, updated. rewrite Hr0, Hv0.
  set (m := list_to_map (reverse changes)).
  set (rows := foldl insert_rows ∅ (file_entries m)).
  assert (Hrows : ∀ f, rows !! f = rows_after order ∅ changes f).
  { intros f. unfold rows. rewrite insert_rows_spec by apply file_entries_NoDup.
    rewrite file_entries_map. unfold rows_after, rows_changed. fold m. rewrite !lookup_empty.
    by destruct (m !! f), (fo_rank order f). }
  destruct (fold_all_maps kcmp kcmp_order fold order rows Hwf)
    as (postings & values & changed & recomputed & -> & Hp & Hv & Hnd & Hc). simpl.
  split_and!; [done..|]. intros k. by rewrite lookup_empty, Hc.
Qed.

(** Only listed files are kept. *)
Lemma kept_listed order (rows : gmap FileId (list (K * C))) f key :
  rows_ok order rows → ¬ is_Some (fo_rank order f) → rows_at rows f key = [].
Proof.
  intros Ho Hf. unfold rows_at. destruct (rows !! f) eqn:Hr; [|done]. destruct Hf. by eapply Ho.
Qed.

(** A key no changed file names reads the same values under an order that
    keeps the surviving files' relative order. *)
Lemma all_values_kept order previous (rows rows' : gmap FileId (list (K * C))) changes key :
  keeps_relative_order order previous = true → rows_ok previous rows →
  (∀ f, rows' !! f = rows_after order rows changes f) →
  (∀ f, rows_at rows' f key = rows_at rows f key) →
  all_fold fold order rows' key = path_fold fold previous rows key.
Proof.
  intros Hkeep%bool_decide_eq_true Hok Hafter Hat.
  assert (Hgone : ∀ f, fo_rank order f = None → rows_at rows' f key = []).
  { intros f Hf. unfold rows_at at 1. rewrite Hafter. unfold rows_after. rewrite Hf.
    destruct (rows !! f) eqn:Hr; [done|]. specialize (Hat f). unfold rows_at in Hat.
    rewrite Hr, Hafter in Hat. unfold rows_after in Hat. by rewrite Hf, Hr in Hat. }
  rewrite (all_fold_listed fold order rows' key Hgone). unfold path_fold.
  enough (path_values order rows' key = path_values previous rows key) as -> by done.
  unfold path_values.
  rewrite <-(concat_filter (λ id, is_Some (fo_ranks previous !! id)) _ (fo_ids order)).
  2:{ intros f _ Hf. rewrite Hat. by eapply kept_listed. }
  rewrite <-(concat_filter (λ id, is_Some (fo_ranks order !! id)) _ (fo_ids previous)).
  2:{ intros f _ Hf. rewrite <-Hat. apply Hgone. by apply eq_None_not_Some. }
  unfold fo_surviving in Hkeep. rewrite Hkeep. f_equal. by apply list_fmap_ext.
Qed.

Lemma incremental_rows order rows changes f :
  match foldl (drop_unlisted order) (list_to_map (reverse changes)) (ascending (dom rows)) !! f
  with Some next => filter_nonempty next | None => rows !! f end =
  rows_after order rows changes f.
Proof.
  rewrite drop_unlisted_spec. unfold rows_after, rows_changed.
  destruct (decide _) as [[-> [rs ->]]|Hd]; [done|].
  destruct (fo_rank order f), (rows !! f); try done. destruct Hd. eauto.
Qed.

Lemma kf_update_spec kf order changes :
  kf_inv fold kf → fo_wf order →
  ∃ kf' solved, kf_update kcmp fold kf order changes = Some (kf', solved) ∧
    updated kf order changes kf' solved.
Proof.
  intros Hinv Hwf. unfold kf_update. rewrite changes_map.
  destruct (bool_decide (kf_rows kf = ∅) && bool_decide (kf_postings kf = ∅)
    && bool_decide (kf_values kf = ∅)) eqn:Hemp.
  { rewrite !andb_true_iff, !bool_decide_eq_true in Hemp. destruct Hemp as [[Hr _] Hv].
    pose proof (fold_all_updated kf order changes
      match kf_order kf with None => true | Some p => negb (keeps_relative_order order p) end
      Hr Hv Hwf) as Hup.
    destruct (kf_fold_all _ _ _ _ _ _) as [kf' solved]. eauto. }
  unfold kf_inv in Hinv. destruct (kf_order kf) as [previous|].
  2:{ rewrite !andb_false_iff, !bool_decide_eq_false in Hemp. naive_solver. }
  clear Hemp. destruct Hinv as (Hwf0 & Hok0 & Hp0 & Hv0).
  set (m := foldl (drop_unlisted order) _ _).
  pose proof (update_files_spec kcmp fold (file_entries m) (file_entries_NoDup m)
    (kf_rows kf) (kf_postings kf) ∅ Hp0) as Hloop.
  destruct (foldl (update_file kcmp) _ _) as [[rows postings] delta].
  destruct Hloop as (Hrows & Hp & Hdelta). rewrite file_entries_map in Hrows.
  assert (Hafter : ∀ f, rows !! f = rows_after order (kf_rows kf) changes f).
  { intros f. rewrite Hrows. by apply incremental_rows. }
  clear Hrows. set (delta' := if negb _ then _ else _).
  destruct (refold_loop_spec kcmp fold order rows postings (kf_values kf) (in_key_order kcmp delta')
    Hwf Hp (in_key_order_NoDup kcmp _)) as (values & changed & Hf & Hval & Hc).
  rewrite Hf. simpl. eexists _, _. split; [done|].
  assert (Hall : ∀ k, values !! k = all_fold fold order rows k).
  { intros k. rewrite Hval. destruct (decide _) as [_|Hk]; [done|].
    rewrite in_key_order_elem in Hk. unfold delta' in Hk.
    destruct (keeps_relative_order order previous) eqn:Hkeep; simpl in Hk.
    - destruct (Hdelta k Hk) as [_ Hat]. rewrite Hv0. symmetry.
      by eapply all_values_kept.
    - rewrite !elem_of_union, !elem_of_dom, <-!not_eq_None_Some in Hk.
      rewrite (rows_at_fold_none order rows k); [by apply dec_stable; tauto|].
      intros f. destruct (rows_at rows f k) eqn:Hat; [done|]. destruct Hk. right. left.
      assert (Hin : f ∈ default ∅ (postings !! k)) by (apply (proj2 Hp); by rewrite Hat).
      intros Hnone. rewrite Hnone in Hin. by apply elem_of_empty in Hin. }
  unfold updated. simpl. split_and!; [done..| |].
  - rewrite Hc. apply NoDup_filter, in_key_order_NoDup.
  - intros k. rewrite Hc, list_elem_of_filter, Hall. split; [by intros []|].
    intros Hne. split; [done|]. apply dec_stable. intros Hk. apply Hne. rewrite <-Hall, Hval.
    by rewrite decide_False.
Qed.

(** Handed rows for listed files only, the fold keeps its invariant. *)
Lemma updated_inv kf order changes kf' solved :
  kf_inv fold kf → fo_wf order → listed_changes order changes →
  updated kf order changes kf' solved → kf_inv fold kf'.
Proof.
  intros Hinv Hwf Hl (Ho & Hr & Hp & Hv & _). unfold kf_inv. rewrite Ho.
  assert (Hok : rows_ok order (kf_rows kf')).
  { eapply rows_after_ok; [|exact Hl|exact Hr]. intros f rs Hf. unfold kf_inv in Hinv.
    destruct (kf_order kf); [by eapply Hinv|]. destruct Hinv as [Hemp _]. rewrite Hemp in Hf. done. }
  split_and!; [done..|]. intros k. rewrite Hv. apply all_fold_listed. intros f Hf.
  eapply kept_listed; [exact Hok|]. rewrite Hf. by intros [].
Qed.

(** Consecutive builds of one kept fold. *)
Definition kf_run (builds : list (FileOrder * list (FileId * option (list (K * C)))))
  : option (KeyedFold K C V) :=
  foldM (λ kf '(order, changes), fst <$> kf_update kcmp fold kf order changes) kf_default builds.

Definition build_ok (build : FileOrder * list (FileId * option (list (K * C)))) : Prop :=
  fo_wf build.1 ∧ listed_changes build.1 build.2.

Lemma kf_run_inv builds :
  Forall build_ok builds → ∃ kf, kf_run builds = Some kf ∧ kf_inv fold kf.
Proof.
  intros Hok. unfold kf_run.
  destruct (foldM_spec (λ _ kf, kf_inv fold kf)
    (λ kf '(order, changes), fst <$> kf_update kcmp fold kf order changes) builds kf_default)
    as (kf & ? & ?); [done| |eauto].
  intros done kf [order changes] rest -> Hinv. apply Forall_app in Hok as [_ Hok].
  apply Forall_cons in Hok as [[Hwf Hl] _].
  destruct (kf_update_spec kf order changes Hinv Hwf) as (kf' & solved & Hup & Hu).
  exists kf'. rewrite Hup. split; [done|]. by eapply updated_inv.
Qed.

(** The state of an invariant fold is determined by its order and rows. *)
Lemma kf_inv_determined kf1 kf2 order :
  kf_inv fold kf1 → kf_inv fold kf2 → kf_order kf1 = Some order → kf_order kf2 = Some order →
  kf_rows kf1 = kf_rows kf2 → kf1 = kf2.
Proof.
  unfold kf_inv. intros H1 H2 Ho1 Ho2 Hr. rewrite Ho1 in H1. rewrite Ho2 in H2.
  destruct kf1 as [o1 r1 p1 v1], kf2 as [o2 r2 p2 v2]; simpl in *. subst r2 o1 o2.
  destruct H1 as (_ & _ & [Hn1 Hp1] & Hv1), H2 as (_ & _ & [Hn2 Hp2] & Hv2). f_equal.
  - apply map_eq. intros k. specialize (Hn1 k). specialize (Hn2 k).
    assert (Heq : default ∅ (p1 !! k) = default ∅ (p2 !! k)).
    { apply set_eq. intros f. by rewrite Hp1, Hp2. }
    destruct (p1 !! k), (p2 !! k); simpl in Heq; congruence.
  - apply map_eq. intros k. by rewrite Hv1, Hv2.
Qed.

(** C9: [KeyedFold::update], from any state that keeps rows of listed files,
    never panics whatever rows it is handed, on the sorted first build and on
    the incremental refold alike. A listed file's rows become what its last
    change says, or stay; a kept file the order does not list is gone; and every
    key under which no unlisted file is handed rows has for its answer the fold
    of all files' rows under the key in path order. The keys reported as changed
    are exactly those whose answer moved, appeared or went, each once. Where the
    rows handed over are for listed files, the state is again one that keeps
    rows of listed files. (Rows handed over for a file that is neither listed
    nor kept are outside what is claimed: see the findings.) *)
Theorem keyed_fold_update_path_order kf order changes :
  kf_inv fold kf → fo_wf order →
  ∃ kf' solved, kf_update kcmp fold kf order changes = Some (kf', solved) ∧
    (∀ f, is_Some (fo_rank order f) → kf_rows kf' !! f = rows_changed (kf_rows kf) changes f) ∧
    (∀ f, fo_rank order f = None → is_Some (kf_rows kf !! f) → kf_rows kf' !! f = None) ∧
    (∀ key, key_listed order (kf_rows kf') key →
       kf_values kf' !! key = path_fold fold order (kf_rows kf') key) ∧
    NoDup (so_changed solved) ∧
    (∀ k, k ∈ so_changed solved ↔ kf_values kf' !! k ≠ kf_values kf !! k) ∧
    (listed_changes order changes → kf_inv fold kf').
Proof.
  intros Hinv Hwf.
  destruct (kf_update_spec kf order changes Hinv Hwf) as (kf' & solved & Hup & Hu).
  exists kf', solved. split; [done|]. pose proof Hu as (_ & Hr & _ & Hv & Hnd & Hc). split_and!.
  - intros f [r Hf]. rewrite Hr. unfold rows_after. by rewrite Hf.
  - intros f Hf [rs Hrs]. rewrite Hr. unfold rows_after. by rewrite Hf, Hrs.
  - intros key Hk. rewrite Hv. by apply all_fold_listed.
  - done.
  - done.
  - intros Hl. by eapply updated_inv.
Qed.

(** C17: as long as every build hands over rows for files its order lists, the
    kept state does not depend on the builds that led to it (files edited, added,
    removed, reordered): it is the one a first build makes of the same rows, so
    the incremental path and the sorted path agree. *)
Theorem keyed_fold_history_is_first_build builds order kf :
  Forall build_ok builds →
  kf_run builds = Some kf → kf_order kf = Some order →
  fst <$> kf_update kcmp fold kf_default order (file_entries (Some <$> kf_rows kf)) = Some kf.
Proof.
  intros Hok Hrun Ho. destruct (kf_run_inv builds Hok) as (kf2 & Hrun2 & Hinv). simplify_eq.
  assert (Hinv' := Hinv). unfold kf_inv in Hinv'. rewrite Ho in Hinv'.
  destruct Hinv' as (Hwf & Hrows & _).
  destruct (kf_update_spec kf_default order (file_entries (Some <$> kf_rows kf)))
    as (kf' & solved & Hup & Hu); [done|done|].
  assert (Hi : kf_inv fold kf').
  { eapply (updated_inv kf_default); [done|done| |exact Hu].
    intros f rs Hf. apply elem_of_file_entries in Hf. rewrite lookup_fmap in Hf.
    destruct (kf_rows kf !! f) eqn:E; simplify_eq/=. by eapply Hrows. }
  destruct Hu as (Ho' & Hr & _).
  rewrite Hup. simpl. f_equal. eapply kf_inv_determined; [done..|].
  apply map_eq. intros f. rewrite Hr. unfold rows_after, rows_changed. simpl.
  rewrite (list_to_map_proper (reverse _) (file_entries (Some <$> kf_rows kf)));
    [|by rewrite fmap_reverse, reverse_Permutation; apply file_entries_NoDup
     |by rewrite reverse_Permutation].
  rewrite file_entries_map, lookup_fmap, lookup_empty.
  destruct (kf_rows kf !! f) as [rs|] eqn:Hf; simpl.
  - destruct (Hrows f rs Hf) as [Hne _]. by destruct (fo_rank order f), rs.
  - by destruct (fo_rank order f).
Qed.

End update.

(** ** Witnesses: two builds of a count per key over three files *)

Definition ex_count (key : nat) (values : list nat) : option nat := Some (length values).

Definition ex_order (ids : list FileId) : FileOrder := default (mk_order [] ∅) (fo_new ids).

Lemma ex_order_wf ids :
  NoDup ids → (Z.of_nat (length ids) ≤ 2 ^ 32)%Z → fo_wf (ex_order ids).
Proof.
  intros Hnd Hlen. destruct (fo_new_spec ids Hnd Hlen) as (o & Ho & Hwf & _).
  unfold ex_order. by rewrite Ho.
Qed.

Definition ex_first : FileOrder * list (FileId * option (list (nat * nat))) :=
  (ex_order [7; 3], [(3, Some [(1, 10); (2, 20)]); (7, Some [(1, 30)])]).

Definition ex_builds : list (FileOrder * list (FileId * option (list (nat * nat)))) :=
  [ex_first; (ex_order [5; 7], [(5, Some [(1, 40)])])].

Lemma ex_builds_ok : Forall build_ok ex_builds.
Proof.
  apply Forall_cons. split; [|apply Forall_singleton]; (split;
    [apply ex_order_wf; [apply (bool_decide_unpack _); vm_compute; done|simpl; lia]|]);
    intros f rs Hf; simpl in Hf;
    repeat (apply elem_of_cons in Hf as [[= -> ->]|Hf]; [vm_compute; eauto|]);
    by apply elem_of_nil in Hf.
Qed.

Lemma keyed_fold_update_path_order_witness :
  ∃ kf' solved,
    kf_update Nat.compare ex_count kf_default ex_first.1 ex_first.2 =
      Some (kf', solved) ∧ kf_values kf' !! 1 = Some 2 ∧
    ∀ k, k ∈ so_changed solved ↔ kf_values kf' !! k ≠ None.
Proof.
  assert (Hok : build_ok ex_first) by exact (Forall_inv ex_builds_ok).
  destruct (keyed_fold_update_path_order Nat.compare nat_cmp_order ex_count kf_default
    ex_first.1 ex_first.2) as (kf' & solved & Hup & _ & _ & _ & _ & Hc & _);
    [done|apply Hok|].
  exists kf', solved. split; [exact Hup|]. split; [|exact Hc].
  vm_compute in Hup. injection Hup as <- _. vm_compute. reflexivity.
Defined.

Lemma keyed_fold_history_is_first_build_witness :
  ∃ kf, kf_run Nat.compare ex_count ex_builds = Some kf ∧
    fst <$> kf_update Nat.compare ex_count kf_default (ex_order [5; 7])
      (file_entries (Some <$> kf_rows kf)) = Some kf.
Proof.
  destruct (kf_run Nat.compare ex_count ex_builds) as [kf|] eqn:Hrun;
    [|vm_compute in Hrun; discriminate Hrun].
  exists kf. split; [reflexivity|].
  apply (keyed_fold_history_is_first_build Nat.compare nat_cmp_order ex_count ex_builds);
    [exact ex_builds_ok|exact Hrun|]. vm_compute in Hrun. injection Hrun as <-. reflexivity.
Defined.

(** A file the order does not list. [update] documents that such a file is
    gone; rows handed over for one are kept and folded instead (at no rank,
    so before every listed file), and only a later update drops them. *)
Theorem keyed_fold_unlisted_rows_kept :
  ∃ kf solved kf' solved',
    kf_update Nat.compare ex_count kf_default (ex_order []) [(3, Some [(1, 10)])] =
      Some (kf, solved) ∧
    fo_rank (ex_order []) 3 = None ∧ kf_values kf !! 1 = Some 1 ∧
    kf_update Nat.compare ex_count kf (ex_order []) [] = Some (kf', solved') ∧
    kf_values kf' !! 1 = None.
Proof.
  eexists _, _, _, _. split; [vm_compute; reflexivity|]. split; [reflexivity|].
  split; [vm_compute; reflexivity|]. split; vm_compute; reflexivity.
Qed.
