(* ===== verification/Text.v ===== *)
(** * Rust strings

    A [&str] is its UTF-8 bytes, a Coq [string]. The operations the dialect
    crate uses on version strings, keys and names, each as the standard
    library defines it on bytes: [trim] strips the Unicode white space, spelled
    here by its encodings. *)
From Stdlib Require Export Ascii String.
From stdpp Require Import strings.
From S2P Require Import Prelude.
Open Scope string_scope.

Definition bytes_of (l : list nat) : string := string_of_list_ascii (ascii_of_nat <$> l).

(** The encodings of the characters with the property White_Space. *)
Definition white_space : list string :=
  (bytes_of <$> [[9]; [10]; [11]; [12]; [13]; [32]; [194; 133]; [194; 160]; [225; 154; 128];
    [226; 128; 128]; [226; 128; 129]; [226; 128; 130]; [226; 128; 131]; [226; 128; 132];
    [226; 128; 133]; [226; 128; 134]; [226; 128; 135]; [226; 128; 136]; [226; 128; 137];
    [226; 128; 138]; [226; 128; 168]; [226; 128; 169]; [226; 128; 175]; [226; 129; 159];
    [227; 128; 128]]).

(** [str::strip_prefix]. *)
Fixpoint strip_prefix (p s : string) : option string :=
  match p, s with
  | EmptyString, _ => Some s
  | String a p, String b s => if (a =? b)%char then strip_prefix p s else None
  | String _ _, EmptyString => None
  end.

Definition starts_with (p s : string) : bool := bool_decide (is_Some (strip_prefix p s)).

(** [str::trim_start_matches] of a set of patterns: one pattern per round, at
    most one round per byte. *)
Fixpoint trim_rounds (fuel : nat) (ps : list string) (s : string) : string :=
  match fuel with
  | 0 => s
  | S fuel =>
      match head (omap (λ p, strip_prefix p s) ps) with
      | Some s' => trim_rounds fuel ps s'
      | None => s
      end
  end.

Definition trim_start_matches (ps : list string) (s : string) : string :=
  trim_rounds (String.length s) ps s.

Definition str_rev (s : string) : string :=
  string_of_list_ascii (reverse (list_ascii_of_string s)).

(** [str::trim]: the end is trimmed on the reversed bytes. *)
Definition trim (s : string) : string :=
  let s := trim_start_matches white_space s in
  str_rev (trim_start_matches (str_rev <$> white_space) (str_rev s)).

(** [str::contains] of a byte. *)
Fixpoint contains_char (c : ascii) (s : string) : bool :=
  match s with
  | EmptyString => false
  | String a s => (a =? c)%char || contains_char c s
  end.

(** [str::split] on a set of ASCII characters. *)
Fixpoint split_on (sep : ascii → bool) (s : string) : list string :=
  match s with
  | EmptyString => [EmptyString]
  | String c s =>
      match split_on sep s with
      | piece :: pieces =>
          if sep c then EmptyString :: piece :: pieces else String c piece :: pieces
      | [] => [String c EmptyString]
      end
  end.

(** [[T]::join]. *)
Fixpoint join_with (sep : string) (l : list string) : string :=
  match l with
  | [] => EmptyString
  | [s] => s
  | s :: l => s ++ sep ++ join_with sep l
  end.

Definition is_digit (c : ascii) : bool :=
  bool_decide (48 ≤ nat_of_ascii c ∧ nat_of_ascii c ≤ 57)%nat.

Definition is_uppercase (c : ascii) : bool :=
  bool_decide (65 ≤ nat_of_ascii c ∧ nat_of_ascii c ≤ 90)%nat.

Fixpoint all_bytes (p : ascii → bool) (s : string) : bool :=
  match s with
  | EmptyString => true
  | String c s => p c && all_bytes p s
  end.

Fixpoint digits_value (acc : N) (s : string) : N :=
  match s with
  | EmptyString => acc
  | String c s => digits_value (10 * acc + N_of_ascii c - 48)%N s
  end.

(** [str::parse] of an unsigned integer below [bound]: an optional plus sign,
    then at least one digit, no overflow. *)
Definition parse_uint (bound : N) (s : string) : option N :=
  let digits := match s with
                | String "+" rest => rest
                | _ => s
                end in
  if (digits =? EmptyString)%string || negb (all_bytes is_digit digits) then None
  else let v := digits_value 0 digits in
       if (v <? bound)%N then Some v else None.

(** [Display] of an unsigned integer. *)
Fixpoint show_rounds (fuel : nat) (n : N) (acc : string) : string :=
  match fuel with
  | 0 => acc
  | S fuel =>
      let acc := String (ascii_of_N (48 + n mod 10)%N) acc in
      if (n <? 10)%N then acc else show_rounds fuel (n / 10)%N acc
  end.

Definition show_uint (n : N) : string := show_rounds 20 n EmptyString.

Example trim_line : trim (bytes_of [32; 194; 160] ++ "2.0.0" ++ bytes_of [10; 227; 128; 128]) = "2.0.0".
Proof. reflexivity. Qed.

Example split_version : split_on (λ c, (c =? ".")%char || (c =? "-")%char) "2.0-rc" = ["2"; "0"; "rc"].
Proof. reflexivity. Qed.

Example show_13 : show_uint 13 = "13".
Proof. reflexivity. Qed.

(** ** Lemmas *)

Lemma strip_prefix_app p s : strip_prefix p (p ++ s) = Some s.
Proof. induction p as [|a p IH]; simpl; [done|]. by rewrite Ascii.eqb_refl. Qed.

Lemma strip_prefix_Some p s r : strip_prefix p s = Some r → s = p ++ r.
Proof.
  revert s. induction p as [|a p IH]; intros s; simpl; [by intros [= ->]|].
  destruct s as [|b s]; [done|]. destruct (a =? b)%char eqn:E; [|done].
  apply Ascii.eqb_eq in E as ->. intros Hs. rewrite (IH s Hs). done.
Qed.

(** Splitting a join of pieces free of the separator gives the pieces. *)
Lemma split_piece sep p :
  all_bytes (λ c, negb (sep c)) p = true → split_on sep p = [p].
Proof.
  induction p as [|c p IH]; simpl; [done|]. intros [Hc Hp]%andb_true_iff.
  rewrite IH by done. by destruct (sep c).
Qed.

Lemma split_join_piece sep c p rest :
  all_bytes (λ c, negb (sep c)) p = true → sep c = true →
  split_on sep (p ++ String c rest) = p :: split_on sep rest.
Proof.
  induction p as [|a p IH]; simpl; intros Hp Hc.
  - rewrite Hc. destruct (split_on sep rest) eqn:E; [|done].
    by destruct rest as [|b r]; simpl in E; [|destruct (split_on sep r); [|destruct (sep b)]].
  - apply andb_true_iff in Hp as [Ha Hp]. rewrite IH by done. by destruct (sep a).
Qed.

Lemma split_join sep c (l : list string) :
  l ≠ [] → sep c = true → Forall (λ p, all_bytes (λ c, negb (sep c)) p = true) l →
  split_on sep (join_with (String c EmptyString) l) = l.
Proof.
  intros Hne Hc. induction l as [|p [|q l] IH]; [done| |]; intros Hl.
  - simpl. apply split_piece. by inversion Hl.
  - apply Forall_cons in Hl as [Hp Hl]. 
    transitivity (split_on sep (p ++ String c (join_with (String c EmptyString) (q :: l)))); [done|].
    rewrite split_join_piece by done. by rewrite IH.
Qed.
