(* ===== verification/Vocabulary.v ===== *)
(** * The vocabulary types of a dialect

    The enums of [solid-dialect/src/vocabulary.rs], [semantics.rs], [version.rs],
    [packages.rs] and [exports/mod.rs], one module per enum so that a
    constructor is spelled as in the source ([Primitive.CreateMemo]), with
    decidable equality, and the records a dialect answers callback questions
    with. *)
From stdpp Require Import finite.
From S2P Require Import Prelude.

(** [Version]: the Solid language a project targets. *)
Module Version.
Inductive version : Set :=
  | V1 | V2.
End Version.
Abbreviation Version := Version.version (only parsing).

#[export] Instance version_eq_dec : EqDecision Version.
Proof. solve_decision. Defined.

(** [Classification]: what an installed [solid-js] version says. *)
Module Classification.
Inductive classification : Set :=
  | Modelled (x : Version.version) | UnmodelledMajor (x : N).
End Classification.
Abbreviation Classification := Classification.classification (only parsing).

#[export] Instance classification_eq_dec : EqDecision Classification.
Proof. solve_decision. Defined.

(** [Primitive]: the primitives of every dialect. *)
Module Primitive.
Inductive primitive : Set :=
  | CreateSignal | CreateMemo | CreateStore | CreateEffect | CreateRenderEffect | CreateReaction
  | CreateRoot | Untrack | OnCleanup | MapArray | Children | CreateContext | CreateDeferred
  | CreateComputed | CreateSelector | CreateResource | Batch | CreateDynamic | From | On
  | StartTransition | UseTransition | OnMount | OnError | CatchError | IndexArray | MergeProps
  | SplitProps | Produce | Unwrap | CreateMutable | ModifyMutable | WebMemo | Hydrate | Render
  | GetOwner | RunWithOwner | Reconcile | CreateTrackedEffect | CreateProjection
  | CreateOptimistic | CreateOptimisticStore | CreateOwner | Flush | OnSettled | Action | Merge
  | Refresh | Affects | Dynamic | ClientOnly | UseHead | HttpStatus | HttpHeader | DynamicStatic
  | DynamicUnknownForm | Until | DynamicComponent | DispatchAsInteraction | LazyModule
  | OnHydrationEnd | For | Show | Switch | Match | Index | Repeat | Suspense | SuspenseList
  | ErrorBoundary | Loading | UseContext | CreateErrorBoundary | CreateLoadingBoundary | Latest
  | IsPending | Resolve | Omit | Deep | Snapshot | Errored | Lazy | CreateRevealOrder | RepeatMap.
End Primitive.
Abbreviation Primitive := Primitive.primitive (only parsing).

(** Equality of primitives through their position in the declaration. *)
Definition primitive_index (p : Primitive) : nat :=
  match p with
  | Primitive.CreateSignal => 0
  | Primitive.CreateMemo => 1
  | Primitive.CreateStore => 2
  | Primitive.CreateEffect => 3
  | Primitive.CreateRenderEffect => 4
  | Primitive.CreateReaction => 5
  | Primitive.CreateRoot => 6
  | Primitive.Untrack => 7
  | Primitive.OnCleanup => 8
  | Primitive.MapArray => 9
  | Primitive.Children => 10
  | Primitive.CreateContext => 11
  | Primitive.CreateDeferred => 12
  | Primitive.CreateComputed => 13
  | Primitive.CreateSelector => 14
  | Primitive.CreateResource => 15
  | Primitive.Batch => 16
  | Primitive.CreateDynamic => 17
  | Primitive.From => 18
  | Primitive.On => 19
  | Primitive.StartTransition => 20
  | Primitive.UseTransition => 21
  | Primitive.OnMount => 22
  | Primitive.OnError => 23
  | Primitive.CatchError => 24
  | Primitive.IndexArray => 25
  | Primitive.MergeProps => 26
  | Primitive.SplitProps => 27
  | Primitive.Produce => 28
  | Primitive.Unwrap => 29
  | Primitive.CreateMutable => 30
  | Primitive.ModifyMutable => 31
  | Primitive.WebMemo => 32
  | Primitive.Hydrate => 33
  | Primitive.Render => 34
  | Primitive.GetOwner => 35
  | Primitive.RunWithOwner => 36
  | Primitive.Reconcile => 37
  | Primitive.CreateTrackedEffect => 38
  | Primitive.CreateProjection => 39
  | Primitive.CreateOptimistic => 40
  | Primitive.CreateOptimisticStore => 41
  | Primitive.CreateOwner => 42
  | Primitive.Flush => 43
  | Primitive.OnSettled => 44
  | Primitive.Action => 45
  | Primitive.Merge => 46
  | Primitive.Refresh => 47
  | Primitive.Affects => 48
  | Primitive.Dynamic => 49
  | Primitive.ClientOnly => 50
  | Primitive.UseHead => 51
  | Primitive.HttpStatus => 52
  | Primitive.HttpHeader => 53
  | Primitive.DynamicStatic => 54
  | Primitive.DynamicUnknownForm => 55
  | Primitive.Until => 56
  | Primitive.DynamicComponent => 57
  | Primitive.DispatchAsInteraction => 58
  | Primitive.LazyModule => 59
  | Primitive.OnHydrationEnd => 60
  | Primitive.For => 61
  | Primitive.Show => 62
  | Primitive.Switch => 63
  | Primitive.Match => 64
  | Primitive.Index => 65
  | Primitive.Repeat => 66
  | Primitive.Suspense => 67
  | Primitive.SuspenseList => 68
  | Primitive.ErrorBoundary => 69
  | Primitive.Loading => 70
  | Primitive.UseContext => 71
  | Primitive.CreateErrorBoundary => 72
  | Primitive.CreateLoadingBoundary => 73
  | Primitive.Latest => 74
  | Primitive.IsPending => 75
  | Primitive.Resolve => 76
  | Primitive.Omit => 77
  | Primitive.Deep => 78
  | Primitive.Snapshot => 79
  | Primitive.Errored => 80
  | Primitive.Lazy => 81
  | Primitive.CreateRevealOrder => 82
  | Primitive.RepeatMap => 83
  end.

Definition primitives : list Primitive :=
  [Primitive.CreateSignal; Primitive.CreateMemo; Primitive.CreateStore; Primitive.CreateEffect;
   Primitive.CreateRenderEffect; Primitive.CreateReaction; Primitive.CreateRoot; Primitive.Untrack;
   Primitive.OnCleanup; Primitive.MapArray; Primitive.Children; Primitive.CreateContext;
   Primitive.CreateDeferred; Primitive.CreateComputed; Primitive.CreateSelector; Primitive.CreateResource;
   Primitive.Batch; Primitive.CreateDynamic; Primitive.From; Primitive.On;
   Primitive.StartTransition; Primitive.UseTransition; Primitive.OnMount; Primitive.OnError;
   Primitive.CatchError; Primitive.IndexArray; Primitive.MergeProps; Primitive.SplitProps;
   Primitive.Produce; Primitive.Unwrap; Primitive.CreateMutable; Primitive.ModifyMutable;
   Primitive.WebMemo; Primitive.Hydrate; Primitive.Render; Primitive.GetOwner;
   Primitive.RunWithOwner; Primitive.Reconcile; Primitive.CreateTrackedEffect; Primitive.CreateProjection;
   Primitive.CreateOptimistic; Primitive.CreateOptimisticStore; Primitive.CreateOwner; Primitive.Flush;
   Primitive.OnSettled; Primitive.Action; Primitive.Merge; Primitive.Refresh;
   Primitive.Affects; Primitive.Dynamic; Primitive.ClientOnly; Primitive.UseHead;
   Primitive.HttpStatus; Primitive.HttpHeader; Primitive.DynamicStatic; Primitive.DynamicUnknownForm;
   Primitive.Until; Primitive.DynamicComponent; Primitive.DispatchAsInteraction; Primitive.LazyModule;
   Primitive.OnHydrationEnd; Primitive.For; Primitive.Show; Primitive.Switch;
   Primitive.Match; Primitive.Index; Primitive.Repeat; Primitive.Suspense;
   Primitive.SuspenseList; Primitive.ErrorBoundary; Primitive.Loading; Primitive.UseContext;
   Primitive.CreateErrorBoundary; Primitive.CreateLoadingBoundary; Primitive.Latest; Primitive.IsPending;
   Primitive.Resolve; Primitive.Omit; Primitive.Deep; Primitive.Snapshot;
   Primitive.Errored; Primitive.Lazy; Primitive.CreateRevealOrder; Primitive.RepeatMap].

Lemma primitives_lookup p : primitives !! primitive_index p = Some p.
Proof. by destruct p. Qed.

Lemma primitive_index_inj p q : primitive_index p = primitive_index q → p = q.
Proof. intros Hpq. apply (inj Some). by rewrite <-!primitives_lookup, Hpq. Qed.

#[export] Instance primitive_eq_dec : EqDecision Primitive := λ p q,
  match decide (primitive_index p = primitive_index q) with
  | left Hpq => left (primitive_index_inj p q Hpq)
  | right Hpq => right (λ Heq, Hpq (f_equal primitive_index Heq))
  end.

(** [OwnerRequirementRole]. *)
Module OwnerRequirementRole.
Inductive owner_requirement_role : Set :=
  | Effect | Cleanup | SettledCleanup | ContextRead | Boundary.
End OwnerRequirementRole.
Abbreviation OwnerRequirementRole := OwnerRequirementRole.owner_requirement_role (only parsing).

#[export] Instance owner_requirement_role_eq_dec : EqDecision OwnerRequirementRole.
Proof. solve_decision. Defined.

(** [OptionLiteral]: what a call proves about one boolean option. *)
Module OptionLiteral.
Inductive option_literal : Set :=
  | Absent | True | False | Unknown.
End OptionLiteral.
Abbreviation OptionLiteral := OptionLiteral.option_literal (only parsing).

#[export] Instance option_literal_eq_dec : EqDecision OptionLiteral.
Proof. solve_decision. Defined.

(** [ResultSlot]. *)
Module ResultSlot.
Inductive result_slot : Set :=
  | Whole | TupleItem (x : nat).
End ResultSlot.
Abbreviation ResultSlot := ResultSlot.result_slot (only parsing).

#[export] Instance result_slot_eq_dec : EqDecision ResultSlot.
Proof. solve_decision. Defined.

(** [ReactiveRole]. *)
Module ReactiveRole.
Inductive reactive_role : Set :=
  | Accessor | Setter.
End ReactiveRole.
Abbreviation ReactiveRole := ReactiveRole.reactive_role (only parsing).

#[export] Instance reactive_role_eq_dec : EqDecision ReactiveRole.
Proof. solve_decision. Defined.

(** [ContextRole]. *)
Module ContextRole.
Inductive context_role : Set :=
  | Create | Read | Render.
End ContextRole.
Abbreviation ContextRole := ContextRole.context_role (only parsing).

#[export] Instance context_role_eq_dec : EqDecision ContextRole.
Proof. solve_decision. Defined.

(** [Boundary]. *)
Module Boundary.
Inductive boundary : Set :=
  | Async | Error.
End Boundary.
Abbreviation Boundary := Boundary.boundary (only parsing).

#[export] Instance boundary_eq_dec : EqDecision Boundary.
Proof. solve_decision. Defined.

(** [TypeRole]. *)
Module TypeRole.
Inductive type_role : Set :=
  | Component | Owner | Accessor | Signal | Store | Setter | StoreSetter.
End TypeRole.
Abbreviation TypeRole := TypeRole.type_role (only parsing).

#[export] Instance type_role_eq_dec : EqDecision TypeRole.
Proof. solve_decision. Defined.

(** [CleanupRule]. *)
Module CleanupRule.
Inductive cleanup_rule : Set :=
  | Always | WhenFirstArgumentIsFunction | Never.
End CleanupRule.
Abbreviation CleanupRule := CleanupRule.cleanup_rule (only parsing).

#[export] Instance cleanup_rule_eq_dec : EqDecision CleanupRule.
Proof. solve_decision. Defined.

(** [CallbackOwner]: who owns what a callback creates. *)
Module CallbackOwner.
Inductive callback_owner : Set :=
  | Creates | Conditional | Inherits | None | InheritsFirstRun | Leaf.
End CallbackOwner.
Abbreviation CallbackOwner := CallbackOwner.callback_owner (only parsing).

#[export] Instance callback_owner_eq_dec : EqDecision CallbackOwner.
Proof. solve_decision. Defined.

(** [KeyForm]. *)
Module KeyForm.
Inductive key_form : Set :=
  | Absent | Keyed | Unkeyed | CustomKey | DynamicFlag.
End KeyForm.
Abbreviation KeyForm := KeyForm.key_form (only parsing).

#[export] Instance key_form_eq_dec : EqDecision KeyForm.
Proof. solve_decision. Defined.

(** [Execution]: attribution of a callback's reads. *)
Module Execution.
Inductive execution : Set :=
  | Tracked | Deferred | Inline.
End Execution.
Abbreviation Execution := Execution.execution (only parsing).

#[export] Instance execution_eq_dec : EqDecision Execution.
Proof. solve_decision. Defined.

(** [TrackedCallbackTiming]. *)
Module TrackedCallbackTiming.
Inductive tracked_callback_timing : Set :=
  | DuringCall | AfterCall.
End TrackedCallbackTiming.
Abbreviation TrackedCallbackTiming := TrackedCallbackTiming.tracked_callback_timing (only parsing).

#[export] Instance tracked_callback_timing_eq_dec : EqDecision TrackedCallbackTiming.
Proof. solve_decision. Defined.

(** [WriteGuardInDisposal]. *)
Module WriteGuardInDisposal.
Inductive write_guard_in_disposal : Set :=
  | Rejects | StandsDown | Unknown.
End WriteGuardInDisposal.
Abbreviation WriteGuardInDisposal := WriteGuardInDisposal.write_guard_in_disposal (only parsing).

#[export] Instance write_guard_in_disposal_eq_dec : EqDecision WriteGuardInDisposal.
Proof. solve_decision. Defined.

(** [DisposalCallbackReturn]. *)
Module DisposalCallbackReturn.
Inductive disposal_callback_return : Set :=
  | Returned | NotReturned | Unknown.
End DisposalCallbackReturn.
Abbreviation DisposalCallbackReturn := DisposalCallbackReturn.disposal_callback_return (only parsing).

#[export] Instance disposal_callback_return_eq_dec : EqDecision DisposalCallbackReturn.
Proof. solve_decision. Defined.

(** [BrowserCallbackTrigger]. *)
Module BrowserCallbackTrigger.
Inductive browser_callback_trigger : Set :=
  | DuringCall | ComputationDemand | EffectFlush | ComputationError | OwnerDisposal | Settlement
  | RenderSelection | DomEvent | TimerTask | AnimationFrame | IdleTask.
End BrowserCallbackTrigger.
Abbreviation BrowserCallbackTrigger := BrowserCallbackTrigger.browser_callback_trigger (only parsing).

#[export] Instance browser_callback_trigger_eq_dec : EqDecision BrowserCallbackTrigger.
Proof. solve_decision. Defined.

(** [HostTargetCondition]. *)
Module HostTargetCondition.
Inductive host_target_condition : Set :=
  | Browser | Node | Deno | Worker.
End HostTargetCondition.
Abbreviation HostTargetCondition := HostTargetCondition.host_target_condition (only parsing).

#[export] Instance host_target_condition_eq_dec : EqDecision HostTargetCondition.
Proof. solve_decision. Defined.

(** [exports::Position]. *)
Module Position.
Inductive position : Set :=
  | Value | Ty.
End Position.
Abbreviation Position := Position.position (only parsing).

#[export] Instance position_eq_dec : EqDecision Position.
Proof. solve_decision. Defined.

(** [CallbackSemantics]. *)
Record CallbackSemantics := mk_callback_semantics {
  cs_execution : option Execution;
  cs_owner : option CallbackOwner;
  cs_tracks_reads : bool;
  cs_requires_return_invocation : bool;
  cs_stores_as_value : bool;
  cs_accessor_parameters : list nat
}.

(** [ReturnedCallbackSemantics]. *)
Record ReturnedCallbackSemantics := mk_returned_semantics {
  rs_execution : option Execution;
  rs_owner : option CallbackOwner
}.

(** ** Case analysis over all primitives *)

Lemma elem_of_primitives p : p ∈ primitives.
Proof. eapply list_elem_of_lookup_2, primitives_lookup. Qed.

Lemma forall_primitives (P : Primitive → Prop) :
  Forall P primitives → ∀ p, P p.
Proof. intros HP p. rewrite Forall_forall in HP. apply HP, elem_of_primitives. Qed.
