(* ===== verification/Releases.v ===== *)
(** * Solid 2 releases

    Model of [solid-dialect/src/solid_2/releases.rs] and of the [Solid2]
    struct: which answers depend on the installed release of which package,
    how a vocabulary is numbered and named, and the review of an installation. *)
From stdpp Require Import strings.
From S2P Require Import Prelude Text Vocabulary.
Open Scope string_scope.

(** ** The release-dependent answers *)

Module StoreRootTyping.
Inductive store_root_typing : Set := Readonly | Mutable.
End StoreRootTyping.
Abbreviation StoreRootTyping := StoreRootTyping.store_root_typing (only parsing).

Module StoreSetterRootGuard.
Inductive store_setter_root_guard : Set := Exempt | Guarded.
End StoreSetterRootGuard.
Abbreviation StoreSetterRootGuard := StoreSetterRootGuard.store_setter_root_guard (only parsing).

Module OptimisticStoreSetterGuard.
Inductive optimistic_store_setter_guard : Set := Guarded | Unguarded.
End OptimisticStoreSetterGuard.
Abbreviation OptimisticStoreSetterGuard :=
  OptimisticStoreSetterGuard.optimistic_store_setter_guard (only parsing).

Module DynamicOptions.
Inductive dynamic_options : Set := Ignored | StaticForm | Unread.
End DynamicOptions.
Abbreviation DynamicOptions := DynamicOptions.dynamic_options (only parsing).

Module SpreadEventKeys.
Inductive spread_event_keys : Set := Unaudited | AnyOn | OnUppercase.
End SpreadEventKeys.
Abbreviation SpreadEventKeys := SpreadEventKeys.spread_event_keys (only parsing).

#[export] Instance store_root_typing_eq_dec : EqDecision StoreRootTyping.
Proof. solve_decision. Defined.
#[export] Instance store_setter_root_guard_eq_dec : EqDecision StoreSetterRootGuard.
Proof. solve_decision. Defined.
#[export] Instance optimistic_store_setter_guard_eq_dec : EqDecision OptimisticStoreSetterGuard.
Proof. solve_decision. Defined.
#[export] Instance dynamic_options_eq_dec : EqDecision DynamicOptions.
Proof. solve_decision. Defined.
#[export] Instance spread_event_keys_eq_dec : EqDecision SpreadEventKeys.
Proof. solve_decision. Defined.

(** [struct Solid2]: one field per answer the reviewed releases disagree on. *)
Record Solid2 := mk_solid2 {
  store_strict_keys_audited : bool;
  store_root : StoreRootTyping;
  omit_predicate_form : bool;
  until : bool;
  flush_in_action : bool;
  flush_in_effect_callback : bool;
  dynamic_options : DynamicOptions;
  store_setter_roots : StoreSetterRootGuard;
  optimistic_store_setter : OptimisticStoreSetterGuard;
  lazy_renders_component : bool;
  render_creates_root : bool;
  spread_event_keys : SpreadEventKeys;
  optimistic_signal_setter_guarded : bool;
  latest_rejects_pending_read : bool;
  hydrate_code_inline : bool;
  disposal_write_guard : WriteGuardInDisposal;
  rc17_callback_exports : bool
}.

#[export] Instance Solid2_eq_dec : EqDecision Solid2.
Proof. solve_decision. Defined.

(** ** Constants *)

Definition SOLID_JS : string := "solid-js".
Definition SIGNALS : string := "@solidjs/signals".
Definition WEB : string := "@solidjs/web".

Definition AUDITED_ROUTER_RELEASES : list string := ["2.0.0-next.26"; "2.0.0-next.41"].

Definition AUDITED_ROUTER_DIGESTS : list (string * string) :=
  [("2.0.0-next.26", "e67af5395e06b46fba92846736c3efa5f2076281e05e864dda248d96689204d6");
   ("2.0.0-next.41", "cec5859950cb6ea4fc790a8709c325408d76051b8f2956a1e03bd4574dfefcef")].

Definition AUDITED_ROUTE_CONFIG_DIGESTS : list (string * string) :=
  [("2.0.0-next.16", "3b9abdc97ab13327110ef5d2ca02e5eab95090dfaf30d5de02e3afe5242208e6");
   ("2.0.0-next.18", "6782f7db03be82972c82fb546e1ebb3f0d5c399913c5efa343308531d204a97a");
   ("2.0.0-next.26", "e67af5395e06b46fba92846736c3efa5f2076281e05e864dda248d96689204d6");
   ("2.0.0-next.41", "cec5859950cb6ea4fc790a8709c325408d76051b8f2956a1e03bd4574dfefcef")].

(** [AuditedRouteRelease]. *)
Record AuditedRouteRelease := mk_route_release {
  rr_version : string;
  rr_router_digest : string;
  rr_core_version : string;
  rr_core_digest : string
}.

Definition AUDITED_ROUTE_RELEASES : list AuditedRouteRelease :=
  [mk_route_release "2.0.0-beta.29"
     "99f7ecf8f61465f690d8039a32f6679aa2f883610f5eba7a48561f9b66e12668" "1.171.15"
     "9e6db7ee14ec551db890508f19b93349c575a6713b22045b5f84aeb2430d0ffc";
   mk_route_release "2.0.0-rc.0"
     "982669b9efa6d2f1026a59d7a93da1e100f28a2e270f11610c6fae653074fe71" "1.171.16"
     "de1f1c0cb4c5e96270e249ca4edca2714dafc825619f6792b05623dced8b9c7c";
   mk_route_release "2.0.0-rc.4"
     "53d3d0bcf5a1b5142c5078ca717fa529bcd3fddae9ad73ad119444a2379f73db" "1.171.22"
     "f021f4ec652071a558534f6260030d2eed88333e59ad2cf7dbfda6017b7ae1c2";
   mk_route_release "2.0.0-rc.6"
     "a5eb41bad71108ceb0ce64ed93517bfea43b07890bce3a1ebbcc02711c199d63" "1.171.22"
     "f021f4ec652071a558534f6260030d2eed88333e59ad2cf7dbfda6017b7ae1c2";
   mk_route_release "2.0.0-rc.8"
     "f787dd4fcc67947323589722392073fced11f091242642f2206074f57455a9de" "1.171.22"
     "f021f4ec652071a558534f6260030d2eed88333e59ad2cf7dbfda6017b7ae1c2";
   mk_route_release "2.0.0-rc.9"
     "f60f59d3fa554ff98ac9705b10089440e15ab2860ea2a59e14d29114cc1f6f4b" "1.171.22"
     "f021f4ec652071a558534f6260030d2eed88333e59ad2cf7dbfda6017b7ae1c2"].

(** [ReleaseOwner]. *)
Record ReleaseOwner := mk_owner { ro_package : string; ro_resolved_from : option string }.

Definition OWNERS : list ReleaseOwner :=
  [mk_owner SOLID_JS None; mk_owner SIGNALS (Some SOLID_JS); mk_owner WEB None].

Definition AUDITED_INSTALLATION : list (string * string) :=
  [(SOLID_JS, "2.0.0-rc.17"); (SIGNALS, "2.0.0-rc.17"); (WEB, "2.0.0-rc.17")].

(** [audited_release]: [None] is the [expect]'s panic. *)
Definition audited_release (package : string) : option string :=
  snd <$> find (λ '(owner, _), (owner =? package)%string) AUDITED_INSTALLATION.

(** ** Vocabularies by index *)

Definition VARIANT_COUNT : N :=
  (2 * 2 * 2 * 3 * 2 * 2 * 2 * 2 * 2 * 2 * 2 * 3 * 2 * 2 * 2 * 2 * 3)%N.

(** The boolean answer at weight [w]. *)
Definition digit2 (index w : N) : bool := ((index / w) mod 2 =? 1)%N.

Definition from_index (index : N) : Solid2 := {|
  store_strict_keys_audited := digit2 index 192;
  lazy_renders_component := digit2 index 384;
  flush_in_effect_callback := digit2 index 768;
  render_creates_root := digit2 index 1536;
  spread_event_keys :=
    match ((index / 3072) mod 3)%N with
    | 0%N => SpreadEventKeys.Unaudited
    | 1%N => SpreadEventKeys.AnyOn
    | _ => SpreadEventKeys.OnUppercase
    end;
  optimistic_signal_setter_guarded := digit2 index 9216;
  latest_rejects_pending_read := digit2 index 18432;
  hydrate_code_inline := digit2 index 36864;
  rc17_callback_exports := digit2 index 73728;
  disposal_write_guard :=
    match ((index / 147456) mod 3)%N with
    | 0%N => WriteGuardInDisposal.Unknown
    | 1%N => WriteGuardInDisposal.Rejects
    | _ => WriteGuardInDisposal.StandsDown
    end;
  store_root := if (index mod 2 =? 1)%N then StoreRootTyping.Mutable else StoreRootTyping.Readonly;
  omit_predicate_form := digit2 index 2;
  until := digit2 index 4;
  dynamic_options :=
    match ((index / 8) mod 3)%N with
    | 0%N => DynamicOptions.Ignored
    | 1%N => DynamicOptions.StaticForm
    | _ => DynamicOptions.Unread
    end;
  store_setter_roots :=
    if digit2 index 24 then StoreSetterRootGuard.Guarded else StoreSetterRootGuard.Exempt;
  flush_in_action := digit2 index 48;
  optimistic_store_setter :=
    if digit2 index 96 then OptimisticStoreSetterGuard.Unguarded
    else OptimisticStoreSetterGuard.Guarded
|}.

(** The digits of [index]. *)
Definition bit (b : bool) : N := if b then 1 else 0.
Definition store_digit (v : Solid2) : N :=
  match store_root v with StoreRootTyping.Readonly => 0 | StoreRootTyping.Mutable => 1 end.
Definition dynamic_digit (v : Solid2) : N :=
  match dynamic_options v with
  | DynamicOptions.Ignored => 0
  | DynamicOptions.StaticForm => 1
  | DynamicOptions.Unread => 2
  end.
Definition store_setter_digit (v : Solid2) : N :=
  match store_setter_roots v with
  | StoreSetterRootGuard.Exempt => 0
  | StoreSetterRootGuard.Guarded => 1
  end.
Definition optimistic_digit (v : Solid2) : N :=
  match optimistic_store_setter v with
  | OptimisticStoreSetterGuard.Guarded => 0
  | OptimisticStoreSetterGuard.Unguarded => 1
  end.
Definition spread_digit (v : Solid2) : N :=
  match spread_event_keys v with
  | SpreadEventKeys.Unaudited => 0
  | SpreadEventKeys.AnyOn => 1
  | SpreadEventKeys.OnUppercase => 2
  end.
Definition disposal_digit (v : Solid2) : N :=
  match disposal_write_guard v with
  | WriteGuardInDisposal.Unknown => 0
  | WriteGuardInDisposal.Rejects => 1
  | WriteGuardInDisposal.StandsDown => 2
  end.

Definition index (v : Solid2) : N :=
  (store_digit v
   + 2 * bit (omit_predicate_form v)
   + 4 * bit (until v)
   + 8 * dynamic_digit v
   + 24 * store_setter_digit v
   + 48 * bit (flush_in_action v)
   + 96 * optimistic_digit v
   + 192 * bit (store_strict_keys_audited v)
   + 384 * bit (lazy_renders_component v)
   + 768 * bit (flush_in_effect_callback v)
   + 1536 * bit (render_creates_root v)
   + 3072 * spread_digit v
   + 9216 * bit (optimistic_signal_setter_guarded v)
   + 18432 * bit (latest_rejects_pending_read v)
   + 36864 * bit (hydrate_code_inline v)
   + 73728 * bit (rc17_callback_exports v)
   + 147456 * disposal_digit v)%N.

(** [VARIANTS[i]]: the static table holds [from_index(i)] at every index below
    its length; [None] is the index panic. *)
Definition VARIANTS (i : N) : option Solid2 :=
  if (i <? VARIANT_COUNT)%N then Some (from_index i) else None.

Definition interned (v : Solid2) : option Solid2 := VARIANTS (index v).

Definition CONSERVATIVE : Solid2 := from_index 0.

(** ** The named vocabularies *)

Definition RC3 : Solid2 := {|
  store_strict_keys_audited := false;
  store_root := StoreRootTyping.Readonly;
  omit_predicate_form := false;
  until := false;
  dynamic_options := DynamicOptions.Ignored;
  store_setter_roots := StoreSetterRootGuard.Exempt;
  flush_in_action := false;
  flush_in_effect_callback := true;
  optimistic_store_setter := OptimisticStoreSetterGuard.Guarded;
  lazy_renders_component := false;
  render_creates_root := false;
  spread_event_keys := SpreadEventKeys.Unaudited;
  optimistic_signal_setter_guarded := true;
  latest_rejects_pending_read := true;
  hydrate_code_inline := true;
  rc17_callback_exports := false;
  disposal_write_guard := WriteGuardInDisposal.Rejects
|}.

Definition RC9 : Solid2 := {|
  store_strict_keys_audited := false;
  store_root := StoreRootTyping.Mutable;
  omit_predicate_form := true;
  until := true;
  dynamic_options := DynamicOptions.StaticForm;
  store_setter_roots := StoreSetterRootGuard.Guarded;
  flush_in_action := true;
  flush_in_effect_callback := true;
  optimistic_store_setter := OptimisticStoreSetterGuard.Guarded;
  lazy_renders_component := false;
  render_creates_root := false;
  spread_event_keys := SpreadEventKeys.Unaudited;
  optimistic_signal_setter_guarded := true;
  latest_rejects_pending_read := true;
  hydrate_code_inline := true;
  rc17_callback_exports := false;
  disposal_write_guard := WriteGuardInDisposal.Rejects
|}.

Definition RC13 : Solid2 := {|
  store_strict_keys_audited := true;
  lazy_renders_component := true;
  render_creates_root := true;
  spread_event_keys := SpreadEventKeys.AnyOn;
  store_root := store_root RC9;
  omit_predicate_form := omit_predicate_form RC9;
  until := until RC9;
  dynamic_options := dynamic_options RC9;
  store_setter_roots := store_setter_roots RC9;
  flush_in_action := flush_in_action RC9;
  flush_in_effect_callback := flush_in_effect_callback RC9;
  optimistic_store_setter := optimistic_store_setter RC9;
  optimistic_signal_setter_guarded := optimistic_signal_setter_guarded RC9;
  latest_rejects_pending_read := latest_rejects_pending_read RC9;
  hydrate_code_inline := hydrate_code_inline RC9;
  rc17_callback_exports := rc17_callback_exports RC9;
  disposal_write_guard := disposal_write_guard RC9
|}.

Definition RC17 : Solid2 := {|
  spread_event_keys := SpreadEventKeys.OnUppercase;
  rc17_callback_exports := true;
  disposal_write_guard := WriteGuardInDisposal.StandsDown;
  optimistic_signal_setter_guarded := false;
  latest_rejects_pending_read := false;
  hydrate_code_inline := false;
  store_strict_keys_audited := store_strict_keys_audited RC13;
  lazy_renders_component := lazy_renders_component RC13;
  render_creates_root := render_creates_root RC13;
  store_root := store_root RC13;
  omit_predicate_form := omit_predicate_form RC13;
  until := until RC13;
  dynamic_options := dynamic_options RC13;
  store_setter_roots := store_setter_roots RC13;
  flush_in_action := flush_in_action RC13;
  flush_in_effect_callback := flush_in_effect_callback RC13;
  optimistic_store_setter := optimistic_store_setter RC13
|}.

Definition AUDITED : Solid2 := RC17.
Definition DEFAULTED : Solid2 := AUDITED.

(** ** Assignments to one field of a vocabulary *)

Definition set_store_strict_keys_audited (x : bool) (v : Solid2) : Solid2 :=
  let '(mk_solid2 f0 f1 f2 f3 f4 f5 f6 f7 f8 f9 f10 f11 f12 f13 f14 f15 f16) := v in
  mk_solid2 x f1 f2 f3 f4 f5 f6 f7 f8 f9 f10 f11 f12 f13 f14 f15 f16.
Definition set_store_root (x : StoreRootTyping) (v : Solid2) : Solid2 :=
  let '(mk_solid2 f0 f1 f2 f3 f4 f5 f6 f7 f8 f9 f10 f11 f12 f13 f14 f15 f16) := v in
  mk_solid2 f0 x f2 f3 f4 f5 f6 f7 f8 f9 f10 f11 f12 f13 f14 f15 f16.
Definition set_omit_predicate_form (x : bool) (v : Solid2) : Solid2 :=
  let '(mk_solid2 f0 f1 f2 f3 f4 f5 f6 f7 f8 f9 f10 f11 f12 f13 f14 f15 f16) := v in
  mk_solid2 f0 f1 x f3 f4 f5 f6 f7 f8 f9 f10 f11 f12 f13 f14 f15 f16.
Definition set_until (x : bool) (v : Solid2) : Solid2 :=
  let '(mk_solid2 f0 f1 f2 f3 f4 f5 f6 f7 f8 f9 f10 f11 f12 f13 f14 f15 f16) := v in
  mk_solid2 f0 f1 f2 x f4 f5 f6 f7 f8 f9 f10 f11 f12 f13 f14 f15 f16.
Definition set_flush_in_action (x : bool) (v : Solid2) : Solid2 :=
  let '(mk_solid2 f0 f1 f2 f3 f4 f5 f6 f7 f8 f9 f10 f11 f12 f13 f14 f15 f16) := v in
  mk_solid2 f0 f1 f2 f3 x f5 f6 f7 f8 f9 f10 f11 f12 f13 f14 f15 f16.
Definition set_flush_in_effect_callback (x : bool) (v : Solid2) : Solid2 :=
  let '(mk_solid2 f0 f1 f2 f3 f4 f5 f6 f7 f8 f9 f10 f11 f12 f13 f14 f15 f16) := v in
  mk_solid2 f0 f1 f2 f3 f4 x f6 f7 f8 f9 f10 f11 f12 f13 f14 f15 f16.
Definition set_dynamic_options (x : DynamicOptions) (v : Solid2) : Solid2 :=
  let '(mk_solid2 f0 f1 f2 f3 f4 f5 f6 f7 f8 f9 f10 f11 f12 f13 f14 f15 f16) := v in
  mk_solid2 f0 f1 f2 f3 f4 f5 x f7 f8 f9 f10 f11 f12 f13 f14 f15 f16.
Definition set_store_setter_roots (x : StoreSetterRootGuard) (v : Solid2) : Solid2 :=
  let '(mk_solid2 f0 f1 f2 f3 f4 f5 f6 f7 f8 f9 f10 f11 f12 f13 f14 f15 f16) := v in
  mk_solid2 f0 f1 f2 f3 f4 f5 f6 x f8 f9 f10 f11 f12 f13 f14 f15 f16.
Definition set_optimistic_store_setter (x : OptimisticStoreSetterGuard) (v : Solid2) : Solid2 :=
  let '(mk_solid2 f0 f1 f2 f3 f4 f5 f6 f7 f8 f9 f10 f11 f12 f13 f14 f15 f16) := v in
  mk_solid2 f0 f1 f2 f3 f4 f5 f6 f7 x f9 f10 f11 f12 f13 f14 f15 f16.
Definition set_lazy_renders_component (x : bool) (v : Solid2) : Solid2 :=
  let '(mk_solid2 f0 f1 f2 f3 f4 f5 f6 f7 f8 f9 f10 f11 f12 f13 f14 f15 f16) := v in
  mk_solid2 f0 f1 f2 f3 f4 f5 f6 f7 f8 x f10 f11 f12 f13 f14 f15 f16.
Definition set_render_creates_root (x : bool) (v : Solid2) : Solid2 :=
  let '(mk_solid2 f0 f1 f2 f3 f4 f5 f6 f7 f8 f9 f10 f11 f12 f13 f14 f15 f16) := v in
  mk_solid2 f0 f1 f2 f3 f4 f5 f6 f7 f8 f9 x f11 f12 f13 f14 f15 f16.
Definition set_spread_event_keys (x : SpreadEventKeys) (v : Solid2) : Solid2 :=
  let '(mk_solid2 f0 f1 f2 f3 f4 f5 f6 f7 f8 f9 f10 f11 f12 f13 f14 f15 f16) := v in
  mk_solid2 f0 f1 f2 f3 f4 f5 f6 f7 f8 f9 f10 x f12 f13 f14 f15 f16.
Definition set_optimistic_signal_setter_guarded (x : bool) (v : Solid2) : Solid2 :=
  let '(mk_solid2 f0 f1 f2 f3 f4 f5 f6 f7 f8 f9 f10 f11 f12 f13 f14 f15 f16) := v in
  mk_solid2 f0 f1 f2 f3 f4 f5 f6 f7 f8 f9 f10 f11 x f13 f14 f15 f16.
Definition set_latest_rejects_pending_read (x : bool) (v : Solid2) : Solid2 :=
  let '(mk_solid2 f0 f1 f2 f3 f4 f5 f6 f7 f8 f9 f10 f11 f12 f13 f14 f15 f16) := v in
  mk_solid2 f0 f1 f2 f3 f4 f5 f6 f7 f8 f9 f10 f11 f12 x f14 f15 f16.
Definition set_hydrate_code_inline (x : bool) (v : Solid2) : Solid2 :=
  let '(mk_solid2 f0 f1 f2 f3 f4 f5 f6 f7 f8 f9 f10 f11 f12 f13 f14 f15 f16) := v in
  mk_solid2 f0 f1 f2 f3 f4 f5 f6 f7 f8 f9 f10 f11 f12 f13 x f15 f16.
Definition set_disposal_write_guard (x : WriteGuardInDisposal) (v : Solid2) : Solid2 :=
  let '(mk_solid2 f0 f1 f2 f3 f4 f5 f6 f7 f8 f9 f10 f11 f12 f13 f14 f15 f16) := v in
  mk_solid2 f0 f1 f2 f3 f4 f5 f6 f7 f8 f9 f10 f11 f12 f13 f14 x f16.
Definition set_rc17_callback_exports (x : bool) (v : Solid2) : Solid2 :=
  let '(mk_solid2 f0 f1 f2 f3 f4 f5 f6 f7 f8 f9 f10 f11 f12 f13 f14 f15 f16) := v in
  mk_solid2 f0 f1 f2 f3 f4 f5 f6 f7 f8 f9 f10 f11 f12 f13 f14 f15 x.

(** ** Vocabularies by key *)

(** The tokens [variant_key] pushes, in order. *)
Definition flag (b : bool) (token : string) : list string := if b then [token] else [].

Definition key_tokens (v : Solid2) : list string :=
  flag (store_strict_keys_audited v) "store-strict-keys-audited" ++
  flag (bool_decide (store_root v = StoreRootTyping.Mutable)) "store-root-mutable" ++
  flag (omit_predicate_form v) "omit-predicate" ++
  flag (until v) "until" ++
  flag (flush_in_action v) "flush-in-action" ++
  flag (flush_in_effect_callback v) "flush-in-effect-callback" ++
  match dynamic_options v with
  | DynamicOptions.Ignored => []
  | DynamicOptions.StaticForm => ["dynamic-static"]
  | DynamicOptions.Unread => ["dynamic-options-unread"]
  end ++
  flag (bool_decide (store_setter_roots v = StoreSetterRootGuard.Guarded))
    "store-setter-guards-roots" ++
  flag (bool_decide (optimistic_store_setter v = OptimisticStoreSetterGuard.Unguarded))
    "optimistic-store-setter-unguarded" ++
  flag (lazy_renders_component v) "lazy-renders-component" ++
  flag (render_creates_root v) "render-creates-root" ++
  match spread_event_keys v with
  | SpreadEventKeys.Unaudited => []
  | SpreadEventKeys.AnyOn => ["spread-event-keys"]
  | SpreadEventKeys.OnUppercase => ["spread-event-keys-uppercase"]
  end ++
  flag (optimistic_signal_setter_guarded v) "optimistic-setter-guarded" ++
  flag (latest_rejects_pending_read v) "latest-rejects-pending" ++
  flag (hydrate_code_inline v) "hydrate-inline" ++
  flag (rc17_callback_exports v) "rc17-callback-exports" ++
  match disposal_write_guard v with
  | WriteGuardInDisposal.Unknown => []
  | WriteGuardInDisposal.Rejects => ["disposal-rejects-writes"]
  | WriteGuardInDisposal.StandsDown => ["disposal-stands-down"]
  end.

Definition variant_key (v : Solid2) : option string :=
  match key_tokens v with [] => None | tokens => Some (join_with "+" tokens) end.

(** [KEYS]: the keys spelled so far, by index. *)
Abbreviation KeyCache := (gmap N string) (only parsing).

(** [Solid2::key]: the kept spelling, or a new one. The outer [None] is the
    [expect]'s panic. *)
Definition key (keys : KeyCache) (v : Solid2) : option (KeyCache * option string) :=
  if (index v =? 0)%N then Some (keys, None)
  else match keys !! index v with
       | Some k => Some (keys, Some k)
       | None => k ← variant_key v; Some (<[index v := k]> keys, Some k)
       end.

(** One token of [of_key]'s loop; [None] is an unknown token. *)
Definition apply_token (v : Solid2) (token : string) : option Solid2 :=
  if (token =? "store-strict-keys-audited")%string then Some (set_store_strict_keys_audited true v)
  else if (token =? "store-root-mutable")%string then Some (set_store_root StoreRootTyping.Mutable v)
  else if (token =? "omit-predicate")%string then Some (set_omit_predicate_form true v)
  else if (token =? "until")%string then Some (set_until true v)
  else if (token =? "flush-in-action")%string then Some (set_flush_in_action true v)
  else if (token =? "flush-in-effect-callback")%string then Some (set_flush_in_effect_callback true v)
  else if (token =? "dynamic-static")%string then Some (set_dynamic_options DynamicOptions.StaticForm v)
  else if (token =? "dynamic-options-unread")%string then Some (set_dynamic_options DynamicOptions.Unread v)
  else if (token =? "store-setter-guards-roots")%string then Some (set_store_setter_roots StoreSetterRootGuard.Guarded v)
  else if (token =? "optimistic-store-setter-unguarded")%string then Some (set_optimistic_store_setter OptimisticStoreSetterGuard.Unguarded v)
  else if (token =? "lazy-renders-component")%string then Some (set_lazy_renders_component true v)
  else if (token =? "render-creates-root")%string then Some (set_render_creates_root true v)
  else if (token =? "spread-event-keys")%string then Some (set_spread_event_keys SpreadEventKeys.AnyOn v)
  else if (token =? "spread-event-keys-uppercase")%string then Some (set_spread_event_keys SpreadEventKeys.OnUppercase v)
  else if (token =? "optimistic-setter-guarded")%string then Some (set_optimistic_signal_setter_guarded true v)
  else if (token =? "latest-rejects-pending")%string then Some (set_latest_rejects_pending_read true v)
  else if (token =? "hydrate-inline")%string then Some (set_hydrate_code_inline true v)
  else if (token =? "rc17-callback-exports")%string then Some (set_rc17_callback_exports true v)
  else if (token =? "disposal-rejects-writes")%string then Some (set_disposal_write_guard WriteGuardInDisposal.Rejects v)
  else if (token =? "disposal-stands-down")%string then Some (set_disposal_write_guard WriteGuardInDisposal.StandsDown v)
  else None.

(** [Solid2::of_key]: the tokens applied to the conservative vocabulary, kept
    only when its own key is the given one. The outer [None] is a panic. *)
Definition of_key (keys : KeyCache) (k : string) : option (KeyCache * option Solid2) :=
  match foldM apply_token CONSERVATIVE (split_on (λ c, (c =? "+")%char) k) with
  | None => Some (keys, None)
  | Some v =>
      v ← interned v;
      '(keys, spelled) ← key keys v;
      Some (keys, if bool_decide (spelled = Some k) then Some v else None)
  end.

(** [Solid2::exports]. *)
Definition exports (v : Solid2) (p : Primitive) : bool :=
  match p with
  | Primitive.Until => until v
  | Primitive.DynamicComponent | Primitive.DispatchAsInteraction | Primitive.CreateDeferred
  | Primitive.LazyModule | Primitive.OnHydrationEnd => rc17_callback_exports v
  | _ => true
  end.

(** ** Reviews of an installation *)

Definition RC9_REVIEW : string := "docs/release-audits/2026-09-26-solid-2-rc9-vocabulary-review.md".
Definition RC1_RC8_REVIEW : string :=
  "docs/release-audits/2026-09-26-solid-2-rc1-rc8-release-review.md".
Definition RC17_REVIEW : string := "docs/release-audits/2026-10-22-solid-2-rc17-release-review.md".

Definition READ_RELEASES : list N := [0; 1; 2; 3; 4; 5; 6; 7; 8; 9; 13; 17]%N.

(** The [u8] constants [RC17] and [RC9]. *)
Definition RC17_NUMBER : N := 17.
Definition RC9_NUMBER : N := 9.

(** [KnownGap]. *)
Record KnownGap := mk_known_gap {
  kgap_package : string;
  kgap_from : N;
  kgap_through : N;
  kgap_gap : string;
  kgap_review : string;
  kgap_exports : option (list string);
  kgap_closed_by : option (Solid2 → bool);
  kgap_server_rendering_only : bool
}.

Definition models_rc17_callback_exports (v : Solid2) : bool := rc17_callback_exports v.

Definition KNOWN_GAPS : list KnownGap := [
  mk_known_gap SOLID_JS 4 6
    ("re-exports registerPatch, registerRowOps and registerSlotPatch, which take " ++
     "callbacks this vocabulary neither models nor excludes, so code inside one is not " ++
     "classified")
    RC1_RC8_REVIEW None None false;
  mk_known_gap WEB 4 6
    ("exports installListDriver and driveList, which take callbacks this vocabulary " ++
     "neither models nor excludes, so code inside one is not classified")
    RC1_RC8_REVIEW None None false;
  mk_known_gap SIGNALS 7 8
    ("has no negative row granted for it, so certification closes fewer claim domains " ++
     "than on the audited release")
    RC1_RC8_REVIEW None None false;
  mk_known_gap SOLID_JS 9 9
    ("re-exports createErrorBoundary, createLoadingBoundary, createRevealOrder, " ++
     "sharedConfig and $DEVCOMP, which its own declarations no longer declare, so under " ++
     "skipLibCheck those primitives are not resolved and their bodies are not analyzed " ++
     "as such")
    RC9_REVIEW
    (Some ["createErrorBoundary"; "createLoadingBoundary"; "createRevealOrder"; "sharedConfig";
       "$DEVCOMP"]) None false;
  mk_known_gap WEB 17 17
    ("exports setLinkClaim, whose handler the server build calls while serializing " ++
     "links and the client build ignores, so code inside one is not classified unless " ++
     "the project declares client-only rendering")
    RC17_REVIEW (Some ["setLinkClaim"]) None true;
  mk_known_gap SOLID_JS 17 17
    ("exports createDeferred, dynamicComponent, lazyModule and onHydrationEnd, which " ++
     "this vocabulary models only when @solidjs/signals and @solidjs/web are rc.17 too, " ++
     "so code inside one is not classified")
    RC17_REVIEW
    (Some ["createDeferred"; "dynamicComponent"; "lazyModule"; "onHydrationEnd"])
    (Some models_rc17_callback_exports) false;
  mk_known_gap WEB 17 17
    ("exports dispatchAsInteraction and dynamicComponent, which this vocabulary models " ++
     "only when solid-js and @solidjs/signals are rc.17 too, so code inside one is not " ++
     "classified")
    RC17_REVIEW (Some ["dispatchAsInteraction"; "dynamicComponent"])
    (Some models_rc17_callback_exports) false].

(** [RefusedRelease]. *)
Record RefusedRelease := mk_refused {
  rf_line : string;
  rf_reason : string;
  rf_review : string;
  rf_audited : list (string * string)
}.

Definition PRE_BETA_EXPERIMENT : RefusedRelease := mk_refused
  "2.0.0-experimental.x"
  ("it is the pre-beta Solid 2 experiment, which runs @solidjs/signals 0.x rather than " ++
   "the release-candidate runtime this vocabulary was read on: its createEffect takes an " ++
   "error handler at argument 2 and its createMemo a seed value at argument 1, where the " ++
   "vocabulary reads options, and its Suspense and ErrorBoundary are not the Loading and " ++
   "Errored boundaries the rules recognise")
  RC9_REVIEW AUDITED_INSTALLATION.

(** [Release]. *)
Module Release.
Inductive release : Set := Read (number : N) | Unread (version : string) | Unresolved.
End Release.
Abbreviation Release := Release.release (only parsing).

#[export] Instance release_eq_dec : EqDecision Release.
Proof. solve_decision. Defined.

(** The filter of [Release::of]: digits, with no leading zero. *)
Definition release_number (number : string) : bool :=
  negb (number =? EmptyString)%string && all_bytes is_digit number &&
  ((number =? "0")%string || negb (starts_with "0" number)).

Definition release_of (version : option string) : Release :=
  match version with
  | None => Release.Unresolved
  | Some version =>
      match number ← strip_prefix "2.0.0-rc." (trim version);
            n ← (if release_number number then parse_uint 256 number else None);
            if bool_decide (n ∈ READ_RELEASES) then Some n else None with
      | Some n => Release.Read n
      | None => Release.Unread version
      end
  end.

Definition release_row (r : Release) : option N :=
  match r with
  | Release.Read number => Some (N.max number 3)
  | Release.Unread _ | Release.Unresolved => None
  end.

Definition release_spelled (r : Release) : string :=
  match r with
  | Release.Read number => "2.0.0-rc." ++ show_uint number
  | Release.Unread version => trim version
  | Release.Unresolved => "(not resolved)"
  end.

Definition is_pre_beta_experiment (version : string) : bool :=
  match strip_prefix "2.0.0-" (trim version) with
  | Some prerelease =>
      (prerelease =? "experimental")%string || starts_with "experimental." prerelease
  | None => false
  end.

(** [matches!(release, Release::Read(n) if p(n))]. *)
Definition is_read (p : N → bool) (r : Release) : bool :=
  match r with Release.Read n => p n | _ => false end.

Definition is_13_or_17 (n : N) : bool := (n =? 13)%N || (n =? 17)%N.

Definition vocabulary_for (solid_js signals web : Release) : Solid2 := {|
  store_strict_keys_audited := is_read is_13_or_17 signals;
  lazy_renders_component := is_read is_13_or_17 solid_js;
  render_creates_root := is_read is_13_or_17 web;
  spread_event_keys :=
    match web with
    | Release.Read 13 => SpreadEventKeys.AnyOn
    | Release.Read 17 => SpreadEventKeys.OnUppercase
    | _ => SpreadEventKeys.Unaudited
    end;
  optimistic_signal_setter_guarded := is_read (λ n, n <? RC17_NUMBER)%N signals;
  latest_rejects_pending_read := is_read (λ n, n <? RC17_NUMBER)%N signals;
  hydrate_code_inline := is_read (λ n, n <? RC17_NUMBER)%N web;
  disposal_write_guard :=
    match signals with
    | Release.Read 17 => WriteGuardInDisposal.StandsDown
    | Release.Read _ => WriteGuardInDisposal.Rejects
    | Release.Unread _ | Release.Unresolved => WriteGuardInDisposal.Unknown
    end;
  rc17_callback_exports :=
    match solid_js, signals, web with
    | Release.Read 17, Release.Read 17, Release.Read 17 => true
    | _, _, _ => false
    end;
  store_root :=
    if is_read (λ n, 7 <=? n)%N signals then StoreRootTyping.Mutable
    else StoreRootTyping.Readonly;
  until := is_read (λ n, 5 <=? n)%N solid_js && is_read (λ n, 5 <=? n)%N signals;
  dynamic_options :=
    match web with
    | Release.Read 17 =>
        match solid_js with
        | Release.Read 17 => DynamicOptions.StaticForm
        | _ => DynamicOptions.Unread
        end
    | Release.Read number =>
        if (RC9_NUMBER <=? number)%N then DynamicOptions.StaticForm else DynamicOptions.Ignored
    | Release.Unresolved => DynamicOptions.Ignored
    | Release.Unread _ => DynamicOptions.Unread
    end;
  omit_predicate_form := is_read (λ n, RC9_NUMBER <=? n)%N signals;
  store_setter_roots :=
    if is_read (λ n, RC9_NUMBER <=? n)%N signals then StoreSetterRootGuard.Guarded
    else StoreSetterRootGuard.Exempt;
  flush_in_action := is_read (λ n, 8 <=? n)%N signals;
  flush_in_effect_callback := is_read (λ n, 1 <=? n)%N signals;
  optimistic_store_setter :=
    match signals with
    | Release.Read 0 => OptimisticStoreSetterGuard.Unguarded
    | _ => OptimisticStoreSetterGuard.Guarded
    end
|}.

(** [GapScope] and [InstallationGap]. *)
Record GapScope := mk_scope {
  gs_specifier : string;
  gs_exports : list string;
  gs_server_rendering_only : bool
}.

Record InstallationGap := mk_gap {
  ig_gap : string;
  ig_review : option string;
  ig_scope : option GapScope
}.

(** [spelled_list]: [a], [a and b], [a, b and c]. *)
Definition spelled_list (items : list string) : string :=
  match reverse items with
  | [] => EmptyString
  | [only] => only
  | last :: init => join_with ", " (reverse init) ++ " and " ++ last
  end.

Definition unread_consequence (package : string) : option string :=
  if (package =? SIGNALS)%string then
    Some ("the store typing it declares is unknown: a write to a store root's own " ++
      "property outside a setter is not reported, nor is a store setter called " ++
      "directly in a createRoot or component body, or flush() in an action body, and " ++
      "until is not modelled")
  else if (package =? WEB)%string then
    audited ← audited_release WEB;
    Some ("a dynamic call with options is not modelled, and every other export it declares is " ++
      "read as " ++ audited ++ " declares it")
  else
    audited ← audited_release SOLID_JS;
    Some ("until is not modelled, and every other export it declares is read as " ++ audited ++
      " declares it").

Definition unresolved_consequence (package : string) : option string :=
  if (package =? SIGNALS)%string then
    Some ("@solidjs/signals does not resolve from the installed solid-js, so the store typing " ++
      "it declares is unknown: a write to a store root's own property outside a setter is " ++
      "not reported, nor is a store setter called directly in a createRoot or component " ++
      "body, or flush() in an action body, and until is not modelled")
  else if (package =? WEB)%string then None
  else Some "solid-js does not resolve, so no answer this vocabulary gives by release is known".

(** The gaps one owner leaves ([gaps_for]'s first loop); [None] is a panic. *)
Definition owner_gaps (v : Solid2) (package : string) (release : Release)
  : option (list InstallationGap) :=
  match release with
  | Release.Read number =>
      Some ((λ known, mk_gap
          (package ++ "@" ++ release_spelled release ++ " " ++ kgap_gap known)
          (Some (kgap_review known))
          ((λ names, mk_scope package names (kgap_server_rendering_only known))
            <$> kgap_exports known))
        <$> filter (λ known,
          (kgap_package known =? package)%string &&
          (kgap_from known <=? number)%N && (number <=? kgap_through known)%N &&
          negb (from_option (λ closed, closed v) false (kgap_closed_by known))) KNOWN_GAPS)
  | Release.Unread _ =>
      consequence ← unread_consequence package;
      Some [mk_gap (package ++ " " ++ release_spelled release ++
        " has not been compared against this vocabulary, so " ++ consequence) None None]
  | Release.Unresolved =>
      Some (match unresolved_consequence package with
            | Some consequence => [mk_gap consequence None None]
            | None => []
            end)
  end.

(** The owners a review read, older than the audited release, as spelled. *)
Definition older_owner (owner : string * Release) : option (option string) :=
  let '(package, release) := owner in
  audited ← audited_release package;
  Some (match release, release_of (Some audited) with
        | Release.Read number, Release.Read audited =>
            if (number <? audited)%N then Some (package ++ " " ++ release_spelled release) else None
        | _, _ => None
        end).

Definition older_gap (older : list string) : option (list InstallationGap) :=
  match older with
  | [] => Some []
  | _ =>
      audited ← audited_release SOLID_JS;
      let one := bool_decide (List.length older = 1%nat) in
      Some [mk_gap
        (spelled_list older ++ " " ++ (if one then "is" else "are") ++
         " older than the audited release, " ++ audited ++ ": the answers " ++
         (if one then "its" else "their") ++ " review gave still " ++
         "apply, but new rules and precision work are measured on the audited release only")
        None None]
  end.

(** [rows.sort_unstable(); rows.dedup()]: the distinct rows. *)
Definition mixed_gap (solid_js signals web : Release) : list InstallationGap :=
  let rows := omap release_row [solid_js; signals; web] in
  if bool_decide (1 < size (list_to_set rows : gset N))%nat then
    [mk_gap
      ("solid-js " ++ release_spelled solid_js ++ ", @solidjs/signals " ++
       release_spelled signals ++ " and @solidjs/web " ++ release_spelled web ++
       " are not one reviewed " ++
       "release, and no review read this combination: each release-dependent answer is " ++
       "taken from the package that declares it (the store typing, the store " ++
       "setter's root guard, the optimistic-store setter's guard and flush's " ++
       "action-step throw from @solidjs/signals, until " ++
       "from solid-js and @solidjs/signals together, dynamic's options from " ++
       "@solidjs/web)")
      (Some RC1_RC8_REVIEW) None]
  else [].

Definition gaps_for (solid_js signals web : Release) : option (list InstallationGap) :=
  let v := vocabulary_for solid_js signals web in
  let owners := [(SOLID_JS, solid_js); (SIGNALS, signals); (WEB, web)] in
  gaps ← mapM (λ '(package, release), owner_gaps v package release) owners;
  older ← mapM older_owner owners;
  older ← older_gap (omap id older);
  Some ((List.concat gaps ++ older ++ mixed_gap solid_js signals web)%list).

(** [InstalledRelease] and [InstallationReview]. *)
Record InstalledRelease := mk_installed { in_package : string; in_version : option string }.

Inductive InstallationReview :=
  | Analyzed (vocabulary : option Solid2) (gaps : list InstallationGap)
  | Refused (release : RefusedRelease).

(** [review]'s [version_of] closure. *)
Definition version_of (installed : list InstalledRelease) (package : string) : option string :=
  i ← find (λ i, (in_package i =? package)%string) installed; in_version i.

(** [review]: [None] is a panic. *)
Definition review (installed : list InstalledRelease) : option InstallationReview :=
  if from_option is_pre_beta_experiment false (version_of installed SOLID_JS)
  then Some (Refused PRE_BETA_EXPERIMENT)
  else
    let solid_js := release_of (version_of installed SOLID_JS) in
    let signals := release_of (version_of installed SIGNALS) in
    let web := release_of (version_of installed WEB) in
    v ← interned (vocabulary_for solid_js signals web);
    gaps ← gaps_for solid_js signals web;
    Some (Analyzed (Some v) gaps).

(** ** [Version::for_solid_js] *)

Definition for_solid_js (version : string) : option Classification :=
  piece ← head (split_on (λ c, (c =? ".")%char || (c =? "-")%char || (c =? "+")%char)
    (trim_start_matches ["^"; "~"; "="; "v"; " "; ">"; "<"] (trim version)));
  major ← parse_uint (2 ^ 32) piece;
  Some (match major with
        | 1%N => Classification.Modelled Version.V1
        | 2%N => Classification.Modelled Version.V2
        | other => Classification.UnmodelledMajor other
        end).
