(* ===== verification/ReleasesSpec.v ===== *)
(** * Numbering and naming of the vocabularies

    The mixed-radix index and the token key each determine the vocabulary: the
    two codes the dialect ids and the static table rest on are bijections. *)
From stdpp Require Import strings.
From S2P Require Import Prelude Text Vocabulary Releases.
Open Scope string_scope.

(** ** The mixed-radix index *)

(** A mixed-radix number and its digits. *)
Fixpoint horner (radices digits : list N) : N :=
  match radices, digits with
  | r :: radices, d :: digits => (d + r * horner radices digits)%N
  | _, _ => 0%N
  end.

Definition weight (radices : list N) : N := foldr N.mul 1%N radices.

(** The digit after the radices [lo], read at their weight. *)
Lemma horner_digit (lo : list N) r hi (ds : list N) d es :
  Forall2 (λ r d, d < r)%N lo ds → (d < r)%N →
  ((horner (lo ++ r :: hi)%list (ds ++ d :: es)%list / weight lo) mod r = d)%N.
Proof.
  intros Hlo Hd. induction Hlo as [|r0 d0 lo ds Hd0 Hlo IH]; simpl.
  - rewrite N.div_1_r, (N.mul_comm r), N.Div0.mod_add. by apply N.mod_small.
  - cbv beta in Hd0. rewrite <-N.Div0.div_div.
    by rewrite (N.mul_comm r0), N.div_add, (N.div_small d0), N.add_0_l by lia.
Qed.

Lemma bit_lt b : (bit b < 2)%N.
Proof. by destruct b. Qed.
Lemma store_digit_lt v : (store_digit v < 2)%N.
Proof. unfold store_digit. by destruct (store_root v). Qed.
Lemma dynamic_digit_lt v : (dynamic_digit v < 3)%N.
Proof. unfold dynamic_digit. by destruct (dynamic_options v). Qed.
Lemma store_setter_digit_lt v : (store_setter_digit v < 2)%N.
Proof. unfold store_setter_digit. by destruct (store_setter_roots v). Qed.
Lemma optimistic_digit_lt v : (optimistic_digit v < 2)%N.
Proof. unfold optimistic_digit. by destruct (optimistic_store_setter v). Qed.
Lemma spread_digit_lt v : (spread_digit v < 3)%N.
Proof. unfold spread_digit. by destruct (spread_event_keys v). Qed.
Lemma disposal_digit_lt v : (disposal_digit v < 3)%N.
Proof. unfold disposal_digit. by destruct (disposal_write_guard v). Qed.

(** The seventeen digits of an index, with their bounds. *)
Ltac digits v :=
  pose proof (bit_lt (omit_predicate_form v)); pose proof (bit_lt (until v));
  pose proof (bit_lt (flush_in_action v)); pose proof (bit_lt (store_strict_keys_audited v));
  pose proof (bit_lt (lazy_renders_component v)); pose proof (bit_lt (flush_in_effect_callback v));
  pose proof (bit_lt (render_creates_root v));
  pose proof (bit_lt (optimistic_signal_setter_guarded v));
  pose proof (bit_lt (latest_rejects_pending_read v)); pose proof (bit_lt (hydrate_code_inline v));
  pose proof (bit_lt (rc17_callback_exports v));
  pose proof (store_digit_lt v); pose proof (dynamic_digit_lt v);
  pose proof (store_setter_digit_lt v); pose proof (optimistic_digit_lt v);
  pose proof (spread_digit_lt v); pose proof (disposal_digit_lt v).

Lemma index_lt v : (index v < VARIANT_COUNT)%N.
Proof. digits v. unfold index, VARIANT_COUNT. lia. Qed.

Definition radices : list N := [2; 2; 2; 3; 2; 2; 2; 2; 2; 2; 2; 3; 2; 2; 2; 2; 3]%N.

Definition index_digit_list (v : Solid2) : list N :=
  [store_digit v;
   bit (omit_predicate_form v);
   bit (until v);
   dynamic_digit v;
   store_setter_digit v;
   bit (flush_in_action v);
   optimistic_digit v;
   bit (store_strict_keys_audited v);
   bit (lazy_renders_component v);
   bit (flush_in_effect_callback v);
   bit (render_creates_root v);
   spread_digit v;
   bit (optimistic_signal_setter_guarded v);
   bit (latest_rejects_pending_read v);
   bit (hydrate_code_inline v);
   bit (rc17_callback_exports v);
   disposal_digit v].

Lemma index_horner v : index v = horner radices (index_digit_list v).
Proof. unfold index. cbn [horner radices index_digit_list]. lia. Qed.

Lemma index_digit_bounds v : Forall2 (λ r d, d < r)%N radices (index_digit_list v).
Proof. digits v. unfold radices, index_digit_list. by repeat (constructor; [done|]). Qed.

Lemma index_digit v k r d :
  radices !! k = Some r → index_digit_list v !! k = Some d →
  ((index v / weight (take k radices)) mod r = d)%N.
Proof.
  intros Hr Hd. rewrite index_horner. pose proof (index_digit_bounds v) as Hb.
  rewrite <-(take_drop_middle _ _ _ Hr), <-(take_drop_middle _ _ _ Hd) at 1.
  apply horner_digit.
  - by apply Forall2_take.
  - by apply (Forall2_lookup_lr _ _ _ _ _ _ Hb Hr Hd).
Qed.

Lemma digit2_bit n w b : ((n / w) mod 2 = bit b)%N → digit2 n w = b.
Proof. unfold digit2. intros ->. by destruct b. Qed.

(** [from_index] undoes [index]. *)
Lemma from_index_index v : from_index (index v) = v.
Proof.
  assert (Hs : (index v mod 2 = store_digit v)%N).
  { rewrite <-(N.div_1_r (index v)). exact (index_digit v 0 _ _ eq_refl eq_refl). }
  unfold from_index. rewrite Hs.
  rewrite (digit2_bit _ 2 (omit_predicate_form v) (index_digit v 1 _ _ eq_refl eq_refl)).
  rewrite (digit2_bit _ 4 (until v) (index_digit v 2 _ _ eq_refl eq_refl)).
  rewrite (digit2_bit _ 48 (flush_in_action v) (index_digit v 5 _ _ eq_refl eq_refl)).
  rewrite (digit2_bit _ 192 (store_strict_keys_audited v) (index_digit v 7 _ _ eq_refl eq_refl)).
  rewrite (digit2_bit _ 384 (lazy_renders_component v) (index_digit v 8 _ _ eq_refl eq_refl)).
  rewrite (digit2_bit _ 768 (flush_in_effect_callback v) (index_digit v 9 _ _ eq_refl eq_refl)).
  rewrite (digit2_bit _ 1536 (render_creates_root v) (index_digit v 10 _ _ eq_refl eq_refl)).
  rewrite (digit2_bit _ 9216 (optimistic_signal_setter_guarded v) (index_digit v 12 _ _ eq_refl eq_refl)).
  rewrite (digit2_bit _ 18432 (latest_rejects_pending_read v) (index_digit v 13 _ _ eq_refl eq_refl)).
  rewrite (digit2_bit _ 36864 (hydrate_code_inline v) (index_digit v 14 _ _ eq_refl eq_refl)).
  rewrite (digit2_bit _ 73728 (rc17_callback_exports v) (index_digit v 15 _ _ eq_refl eq_refl)).
  rewrite (index_digit v 3 _ _ eq_refl eq_refl : ((index v / 8) mod 3 = dynamic_digit v)%N).
  rewrite (digit2_bit _ 24 ((store_setter_digit v) =? 1)%N) by
    (rewrite (index_digit v 4 _ _ eq_refl eq_refl : ((index v / 24) mod 2 = store_setter_digit v)%N);
     unfold store_setter_digit; by destruct v as [? [] ? ? ? ? ? [] []]).
  rewrite (digit2_bit _ 96 ((optimistic_digit v) =? 1)%N) by
    (rewrite (index_digit v 6 _ _ eq_refl eq_refl : ((index v / 96) mod 2 = optimistic_digit v)%N);
     unfold optimistic_digit; by destruct v as [? [] ? ? ? ? ? [] []]).
  rewrite (index_digit v 11 _ _ eq_refl eq_refl : ((index v / 3072) mod 3 = spread_digit v)%N).
  rewrite (index_digit v 16 _ _ eq_refl eq_refl : ((index v / 147456) mod 3 = disposal_digit v)%N).
  unfold store_digit, dynamic_digit, store_setter_digit, optimistic_digit, spread_digit,
    disposal_digit.
  destruct v as [? sr ? ? ? ? dyn ss os ? ? sp ? ? ? dw ?]. cbn.
  f_equal; [by destruct sr|by destruct dyn|by destruct ss|by destruct os|by destruct sp
    |by destruct dw].
Qed.

(** [index] undoes [from_index] below the table's length. *)
Fixpoint digits_of (radices : list N) (n : N) : list N :=
  match radices with
  | [] => []
  | r :: radices => (n mod r)%N :: digits_of radices (n / r)
  end.

Lemma horner_digits_of (rs : list N) n :
  Forall (λ r, 0 < r)%N rs → (n < weight rs)%N → horner rs (digits_of rs n) = n.
Proof.
  intros Hr. revert n. induction Hr as [|r rs Hr _ IH]; intros n; simpl; [lia|].
  intros Hn. rewrite IH; [|by apply N.Div0.div_lt_upper_bound].
  rewrite N.add_comm. symmetry. apply N.Div0.div_mod.
Qed.

Lemma bit_digit2 n w : bit (digit2 n w) = ((n / w) mod 2)%N.
Proof.
  unfold digit2. pose proof (N.mod_lt (n / w) 2 ltac:(lia)) as Hm. revert Hm.
  generalize ((n / w) mod 2)%N. intros d Hd.
  destruct (d =? 1)%N eqn:E; simpl; [by apply N.eqb_eq in E|]. apply N.eqb_neq in E. lia.
Qed.

Lemma index_from_index i : (i < VARIANT_COUNT)%N → index (from_index i) = i.
Proof.
  intros Hi. rewrite index_horner.
  rewrite <-(horner_digits_of radices i) at 2; [|by repeat constructor|done].
  f_equal. unfold index_digit_list. cbn [digits_of radices].
  unfold store_digit, dynamic_digit, store_setter_digit, optimistic_digit, spread_digit,
    disposal_digit. cbn [from_index store_root dynamic_options store_setter_roots
    optimistic_store_setter spread_event_keys disposal_write_guard omit_predicate_form until
    flush_in_action store_strict_keys_audited lazy_renders_component flush_in_effect_callback
    render_creates_root optimistic_signal_setter_guarded latest_rejects_pending_read
    hydrate_code_inline rc17_callback_exports].
  rewrite !N.Div0.div_div, !bit_digit2. cbn [N.mul Pos.mul].
  assert (H2 : ∀ w (A : Type) (a b : A) (f : A → N), f a = 1%N → f b = 0%N →
    f (if digit2 i w then a else b) = ((i / w) mod 2)%N).
  { intros w A a b f Ha Hb. rewrite <-bit_digit2. by destruct (digit2 i w). }
  assert (H3 : ∀ n (A : Type) (a b c : A) (f : A → N), f a = 0%N → f b = 1%N → f c = 2%N →
    f (match (n mod 3)%N with 0%N => a | 1%N => b | _ => c end) = (n mod 3)%N).
  { intros n A a b c f Ha Hb Hc. pose proof (N.mod_lt n 3 ltac:(lia)) as H.
    revert H. generalize (n mod 3)%N. intros d Hd.
    destruct d as [|[p|[p|p|]|]]; try done; exfalso; lia. }
  f_equal.
  { pose proof (N.mod_lt i 2 ltac:(lia)) as H. revert H. generalize (i mod 2)%N. intros d Hd.
    destruct (d =? 1)%N eqn:E; [by apply N.eqb_eq in E|apply N.eqb_neq in E; lia]. }
  do 2 f_equal. f_equal; [apply (H3 _ _ _ _ _ (λ d, match d with DynamicOptions.Ignored => 0%N
    | DynamicOptions.StaticForm => 1%N | DynamicOptions.Unread => 2%N end)); done|].
  f_equal; [apply (H2 24%N _ _ _ (λ d, match d with StoreSetterRootGuard.Exempt => 0%N
    | StoreSetterRootGuard.Guarded => 1%N end)); done|].
  f_equal. f_equal; [apply (H2 96%N _ _ _ (λ d, match d with OptimisticStoreSetterGuard.Guarded => 0%N
    | OptimisticStoreSetterGuard.Unguarded => 1%N end)); done|].
  do 4 f_equal. f_equal; [apply (H3 _ _ _ _ _ (λ d, match d with SpreadEventKeys.Unaudited => 0%N
    | SpreadEventKeys.AnyOn => 1%N | SpreadEventKeys.OnUppercase => 2%N end)); done|].
  do 4 f_equal. f_equal. apply (H3 _ _ _ _ _ (λ d, match d with WriteGuardInDisposal.Unknown => 0%N
    | WriteGuardInDisposal.Rejects => 1%N | WriteGuardInDisposal.StandsDown => 2%N end)); done.
Qed.

(** ** The token key *)

Lemma tokens_step (assign : Solid2 → Solid2) u (seg rest : list string) r :
  foldM apply_token u seg = Some (assign u) → foldM apply_token (assign u) rest = r →
  foldM apply_token u (seg ++ rest)%list = r.
Proof. intros Hs Hr. rewrite foldM_app, Hs. done. Qed.

(** The tokens of a vocabulary, applied to the conservative one, rebuild it. *)
Lemma apply_key_tokens v : foldM apply_token CONSERVATIVE (key_tokens v) = Some v.
Proof.
  destruct v as [f0 f1 f2 f3 f4 f5 f6 f7 f8 f9 f10 f11 f12 f13 f14 f15 f16].
  unfold key_tokens, CONSERVATIVE. cbn -[apply_token foldM flag app].
  apply (tokens_step (set_store_strict_keys_audited f0)); [by destruct f0|]. cbn -[apply_token foldM flag app].
  apply (tokens_step (set_store_root f1)); [by destruct f1|]. cbn -[apply_token foldM flag app].
  apply (tokens_step (set_omit_predicate_form f2)); [by destruct f2|]. cbn -[apply_token foldM flag app].
  apply (tokens_step (set_until f3)); [by destruct f3|]. cbn -[apply_token foldM flag app].
  apply (tokens_step (set_flush_in_action f4)); [by destruct f4|]. cbn -[apply_token foldM flag app].
  apply (tokens_step (set_flush_in_effect_callback f5)); [by destruct f5|]. cbn -[apply_token foldM flag app].
  apply (tokens_step (set_dynamic_options f6)); [by destruct f6|]. cbn -[apply_token foldM flag app].
  apply (tokens_step (set_store_setter_roots f7)); [by destruct f7|]. cbn -[apply_token foldM flag app].
  apply (tokens_step (set_optimistic_store_setter f8)); [by destruct f8|]. cbn -[apply_token foldM flag app].
  apply (tokens_step (set_lazy_renders_component f9)); [by destruct f9|]. cbn -[apply_token foldM flag app].
  apply (tokens_step (set_render_creates_root f10)); [by destruct f10|]. cbn -[apply_token foldM flag app].
  apply (tokens_step (set_spread_event_keys f11)); [by destruct f11|]. cbn -[apply_token foldM flag app].
  apply (tokens_step (set_optimistic_signal_setter_guarded f12)); [by destruct f12|]. cbn -[apply_token foldM flag app].
  apply (tokens_step (set_latest_rejects_pending_read f13)); [by destruct f13|]. cbn -[apply_token foldM flag app].
  apply (tokens_step (set_hydrate_code_inline f14)); [by destruct f14|]. cbn -[apply_token foldM flag app].
  apply (tokens_step (set_rc17_callback_exports f16)); [by destruct f16|]. cbn -[apply_token foldM flag app].
  by destruct f15.
Qed.

Lemma interned_self v : interned v = Some v.
Proof.
  unfold interned, VARIANTS. rewrite (proj2 (N.ltb_lt _ _) (index_lt v)). by rewrite from_index_index.
Qed.

Lemma key_tokens_nil v : key_tokens v = [] ↔ index v = 0%N.
Proof.
  split.
  - intros Ht. pose proof (apply_key_tokens v) as Hv. rewrite Ht in Hv.
    simpl in Hv. by injection Hv as <-.
  - intros Hi. rewrite <-(from_index_index v), Hi. done.
Qed.

Lemma key_tokens_plain v :
  Forall (λ t, all_bytes (λ c, negb (c =? "+")%char) t = true) (key_tokens v).
Proof.
  destruct v as [f0 f1 f2 f3 f4 f5 f6 f7 f8 f9 f10 f11 f12 f13 f14 f15 f16].
  unfold key_tokens, flag. cbn -[app all_bytes]. repeat apply Forall_app_2.
  - by destruct f0; repeat constructor.
  - by destruct f1; repeat constructor.
  - by destruct f2; repeat constructor.
  - by destruct f3; repeat constructor.
  - by destruct f4; repeat constructor.
  - by destruct f5; repeat constructor.
  - by destruct f6; repeat constructor.
  - by destruct f7; repeat constructor.
  - by destruct f8; repeat constructor.
  - by destruct f9; repeat constructor.
  - by destruct f10; repeat constructor.
  - by destruct f11; repeat constructor.
  - by destruct f12; repeat constructor.
  - by destruct f13; repeat constructor.
  - by destruct f14; repeat constructor.
  - by destruct f16; repeat constructor.
  - by destruct f15; repeat constructor.
Qed.

(** A key's tokens, split back. *)
Lemma variant_key_split v k :
  variant_key v = Some k → split_on (λ c, (c =? "+")%char) k = key_tokens v.
Proof.
  unfold variant_key. pose proof (key_tokens_plain v) as Hp.
  destruct (key_tokens v) as [|t ts]; [done|].
  intros Hk. apply (inj Some) in Hk. subst k. by apply (split_join _ "+"%char).
Qed.

Definition cache_ok (keys : KeyCache) : Prop :=
  ∀ i k, keys !! i = Some k → ∃ v, index v = i ∧ variant_key v = Some k.

(** [key] answers [variant_key] whatever was spelled before, and keeps only
    right spellings. *)
Lemma key_spec keys v :
  cache_ok keys → ∃ keys', key keys v = Some (keys', variant_key v) ∧ cache_ok keys'.
Proof.
  intros Hc. unfold key. destruct (index v =? 0)%N eqn:Hi.
  - apply N.eqb_eq, key_tokens_nil in Hi. unfold variant_key. rewrite Hi. eauto.
  - destruct (keys !! index v) as [k|] eqn:Hk.
    + exists keys. split; [|done]. destruct (Hc _ _ Hk) as (v' & Hv' & Hkey).
      rewrite <-Hkey, <-(from_index_index v), <-Hv', from_index_index. done.
    + assert (is_Some (variant_key v)) as [k Hkey].
      { unfold variant_key. destruct (key_tokens v) eqn:Ht; [|eauto].
        apply key_tokens_nil in Ht. by rewrite Ht in Hi. }
      rewrite Hkey. simpl. eexists. split; [done|]. intros i k'.
      rewrite lookup_insert_Some. intros [[<- <-]|[_ Hi']]; eauto.
Qed.

Lemma of_key_spec keys k :
  cache_ok keys →
  ∃ keys' r, of_key keys k = Some (keys', r) ∧ cache_ok keys' ∧
    ∀ v, r = Some v ↔ variant_key v = Some k.
Proof.
  intros Hc. unfold of_key.
  destruct (foldM apply_token CONSERVATIVE (split_on (λ c, (c =? "+")%char) k)) as [v|] eqn:Hf.
  - rewrite interned_self. simpl. destruct (key_spec keys v Hc) as (keys' & -> & Hc'). simpl.
    eexists _, _. split; [done|]. split; [done|]. intros u. case_bool_decide as Hv.
    + split; [by intros [= <-]|]. intros Hu. apply variant_key_split in Hu.
      rewrite Hu, apply_key_tokens in Hf. congruence.
    + split; [done|]. intros Hu. pose proof (variant_key_split u k Hu) as Hs.
      rewrite Hs, apply_key_tokens in Hf. congruence.
  - eexists _, _. split; [done|]. split; [done|]. intros u. split; [done|]. intros Hu.
    apply variant_key_split in Hu. by rewrite Hu, apply_key_tokens in Hf.
Qed.

(** ** Gaps *)

(** What [release_of] can answer. *)
Definition release_ok (r : Release) : Prop :=
  match r with Release.Read n => n ∈ READ_RELEASES | _ => True end.

Definition unscoped (g : InstallationGap) : Prop := ig_scope g = None.

Lemma gaps_for_total j s w : is_Some (gaps_for j s w).
Proof.
  unfold gaps_for.
  assert (Ho : ∀ v p r, is_Some (owner_gaps v p r)).
  { intros v p [n|u|]; simpl; [eauto| |eauto]. unfold unread_consequence.
    destruct (p =? SIGNALS)%string; simpl; [eauto|].
    destruct (p =? WEB)%string; simpl; eauto. }
  assert (Hg : is_Some (mapM (λ '(package, release),
    owner_gaps (vocabulary_for j s w) package release)
    [(SOLID_JS, j); (SIGNALS, s); (WEB, w)])).
  { apply mapM_is_Some. repeat constructor; apply Ho. }
  destruct Hg as [gaps ->]. cbn -[owner_gaps older_owner older_gap mixed_gap].
  unfold older_owner at 1 2 3. cbn -[older_gap mixed_gap release_of].
  assert (Hold : ∀ l, is_Some (older_gap l)) by (intros [|x l]; simpl; eauto).
  edestruct Hold as [g Hg]. rewrite Hg. cbn -[mixed_gap]. eauto.
Qed.

(** The spelling of an owner older than the audited release, if it is. *)
Definition older_name (package : string) (r : Release) : option string :=
  match r with
  | Release.Read n => if (n <? 17)%N then Some (package ++ " " ++ release_spelled r) else None
  | _ => None
  end.

Lemma older_owner_spec package r :
  package ∈ [SOLID_JS; SIGNALS; WEB] → older_owner (package, r) = Some (older_name package r).
Proof.
  intros Hp. repeat (apply elem_of_cons in Hp as [->|Hp]; [by destruct r|]).
  by apply elem_of_nil in Hp.
Qed.

Lemma gaps_for_inv j s w gaps :
  gaps_for j s w = Some gaps →
  ∃ gj gs gw older,
    owner_gaps (vocabulary_for j s w) SOLID_JS j = Some gj ∧
    owner_gaps (vocabulary_for j s w) SIGNALS s = Some gs ∧
    owner_gaps (vocabulary_for j s w) WEB w = Some gw ∧
    older_gap (omap id [older_name SOLID_JS j; older_name SIGNALS s; older_name WEB w])
      = Some older ∧
    gaps = (gj ++ gs ++ gw ++ older ++ mixed_gap j s w)%list.
Proof.
  unfold gaps_for. intros Hg. apply bind_Some in Hg as (gs & Hgs & Hg).
  apply mapM_Some in Hgs.
  inversion Hgs as [|? gj ? gs1 Hj Hgs1]; subst. inversion Hgs1 as [|? gs' ? gs2 Hs Hgs2]; subst.
  inversion Hgs2 as [|? gw ? gs3 Hw Hgs3]; subst. inversion Hgs3; subst.
  apply bind_Some in Hg as (olders & Ho & Hg). apply mapM_Some in Ho.
  inversion Ho as [|? o1 ? ? Ho1 Hr1]; subst. inversion Hr1 as [|? o2 ? ? Ho2 Hr2]; subst.
  inversion Hr2 as [|? o3 ? ? Ho3 Hr3]; subst. inversion Hr3; subst.
  rewrite older_owner_spec in Ho1, Ho2, Ho3 by set_solver. simplify_eq.
  apply bind_Some in Hg as (older & Hold & Hg). apply (inj Some) in Hg.
  exists gj, gs', gw, older. split_and!; [done..|]. subst gaps. cbn [List.concat].
  by rewrite app_nil_r, <-!app_assoc.
Qed.

(** Every gap scoped to named exports: only on the audited [solid-js] and
    signals, with the audited web or none. *)
Lemma scoped_gaps_audited j s w gaps :
  release_ok j → release_ok s → release_ok w →
  gaps_for j s w = Some gaps → Forall (λ g, ¬ unscoped g) gaps →
  j = Release.Read 17 ∧ s = Release.Read 17 ∧ (w = Release.Read 17 ∨ w = Release.Unresolved).
Proof.
  intros Hj Hs Hw (gj & gs & gw & older & Hgj & Hgs & Hgw & Hold & ->)%gaps_for_inv.
  rewrite !Forall_app. intros (Fj & Fs & Fw & Fo & _).
  assert (Hyoung : omap id [older_name SOLID_JS j; older_name SIGNALS s; older_name WEB w] = []).
  { destruct (omap id _) as [|x l]; [done|]. cbn in Hold. apply (inj Some) in Hold. subst older.
    apply Forall_inv in Fo. by destruct Fo. }
  assert (Hno : older_name SOLID_JS j = None ∧ older_name SIGNALS s = None ∧ older_name WEB w = None).
  { clear -Hyoung. destruct (older_name SOLID_JS j), (older_name SIGNALS s), (older_name WEB w);
      simpl in Hyoung; try discriminate; done. }
  destruct Hno as (Nj & Ns & Nw).
  assert (Hread : ∀ p n, n ∈ READ_RELEASES → older_name p (Release.Read n) = None → n = 17%N).
  { intros p n Hn. unfold older_name, READ_RELEASES in *.
    repeat (apply elem_of_cons in Hn as [->|Hn]; [done|]). by apply elem_of_nil in Hn. }
  assert (Hunread : ∀ v p u l, owner_gaps v p (Release.Unread u) = Some l →
    Forall (λ g, ¬ unscoped g) l → False).
  { intros v p u l Hl Hf. cbn -[unread_consequence] in Hl. destruct (unread_consequence p); [|done].
    simpl in Hl. apply (inj Some) in Hl. subst l. apply Forall_inv in Hf. by destruct Hf. }
  split_and!.
  - destruct j as [n|u|]; [|by destruct (Hunread _ _ _ _ Hgj Fj)|].
    + by rewrite (Hread _ _ Hj Nj).
    + simpl in Hgj. apply (inj Some) in Hgj. subst gj. apply Forall_inv in Fj. by destruct Fj.
  - destruct s as [n|u|]; [|by destruct (Hunread _ _ _ _ Hgs Fs)|].
    + by rewrite (Hread _ _ Hs Ns).
    + simpl in Hgs. apply (inj Some) in Hgs. subst gs. apply Forall_inv in Fs. by destruct Fs.
  - destruct w as [n|u|]; [left; by rewrite (Hread _ _ Hw Nw)
      |by destruct (Hunread _ _ _ _ Hgw Fw)|by right].
Qed.

(** ** Version strings *)

Lemma str_app_assoc (a b c : string) : (a ++ b) ++ c = a ++ b ++ c.
Proof. induction a as [|x a IH]; [done|]. change (String x ((a ++ b) ++ c) = String x (a ++ b ++ c)). by f_equal. Qed.

Lemma str_app_nil (a : string) : a ++ EmptyString = a.
Proof. induction a as [|x a IH]; [done|]. change (String x (a ++ EmptyString) = String x a). by f_equal. Qed.

Lemma all_bytes_app p s1 s2 : all_bytes p (s1 ++ s2) = all_bytes p s1 && all_bytes p s2.
Proof. induction s1 as [|c s1 IH]; simpl; [done|]. by rewrite IH, andb_assoc. Qed.

Lemma N_of_ascii_digit c : is_digit c = true ↔ (48 ≤ N_of_ascii c ≤ 57)%N.
Proof.
  unfold is_digit. rewrite bool_decide_eq_true. unfold nat_of_ascii. lia.
Qed.

Lemma digit_ascii d : (d < 10)%N → N_of_ascii (ascii_of_N (48 + d)) = (48 + d)%N.
Proof. intros Hd. apply N_ascii_embedding. lia. Qed.

(** The digits [show_rounds] writes in front of [acc]. *)
Lemma show_rounds_spec fuel n acc :
  (n < 10 ^ N.of_nat fuel)%N → (0 < fuel)%nat →
  ∃ ds, show_rounds fuel n acc = ds ++ acc ∧ ds ≠ EmptyString ∧ all_bytes is_digit ds = true ∧
    ∀ a, ∃ m, digits_value a ds = (a * m + n)%N.
Proof.
  revert n acc. induction fuel as [|fuel IH]; intros n acc Hn Hf; [lia|]. cbn [show_rounds].
  assert (Hdig : is_digit (ascii_of_N (48 + n mod 10)) = true).
  { apply N_of_ascii_digit. pose proof (N.mod_lt n 10 ltac:(lia)) as Hm. revert Hm.
    generalize (n mod 10)%N. intros d Hd. rewrite digit_ascii by done. lia. }
  pose proof (N.mod_lt n 10 ltac:(lia)) as Hm. pose proof (N.Div0.div_mod n 10) as Hdm.
  destruct (n <? 10)%N eqn:Hlt.
  - apply N.ltb_lt in Hlt. exists (String (ascii_of_N (48 + n mod 10)) EmptyString).
    split_and!; [done|done|by simpl; rewrite Hdig|]. intros a. exists 10%N. cbn [digits_value].
    rewrite digit_ascii, N.mod_small by lia. lia.
  - apply N.ltb_ge in Hlt.
    destruct (IH (n / 10)%N (String (ascii_of_N (48 + n mod 10)) acc)) as (ds & Hs & Hne & Hd & Hv).
    { apply N.Div0.div_lt_upper_bound. rewrite Nat2N.inj_succ, N.pow_succ_r' in Hn. lia. }
    { destruct fuel; [simpl in Hn; lia|lia]. }
    exists (ds ++ String (ascii_of_N (48 + n mod 10)) EmptyString). rewrite Hs. split_and!.
    + rewrite str_app_assoc. done.
    + by destruct ds.
    + rewrite all_bytes_app, Hd. simpl. by rewrite Hdig.
    + intros a. destruct (Hv a) as [m Hm']. exists (10 * m)%N.
      assert (Happ : ∀ b s c, digits_value b (s ++ String c EmptyString) =
        (10 * digits_value b s + N_of_ascii c - 48)%N).
      { clear. intros b s. revert b. induction s as [|x s IH]; intros b c; simpl; [done|apply IH]. }
      rewrite Happ, Hm', digit_ascii by lia. lia.
Qed.

Lemma parse_show bound n :
  (n < bound)%N → (n < 10 ^ 20)%N → parse_uint bound (show_uint n) = Some n.
Proof.
  intros Hb Hn. unfold show_uint.
  destruct (show_rounds_spec 20 n EmptyString) as (ds & Hs & Hne & Hd & Hv); [done|lia|].
  rewrite Hs, str_app_nil. unfold parse_uint. destruct ds as [|c ds]; [done|].
  assert (Hplus : (c =? "+")%char = false).
  { simpl in Hd. apply andb_true_iff in Hd as [Hc _]. apply Ascii.eqb_neq. intros ->. done. }
  assert (Hd' : match c with "+"%char => ds | _ => String c ds end = String c ds).
  { apply Ascii.eqb_neq in Hplus. destruct c as [[] [] [] [] [] [] [] []]; done. }
  change (match String c ds with String "+" rest => rest | _ => String c ds end)
    with (match c with "+"%char => ds | _ => String c ds end).
  rewrite Hd', Hd. simpl negb. cbn [orb String.eqb].
  destruct (Hv 0%N) as [m Hm]. rewrite Hm, N.mul_0_l, N.add_0_l. by rewrite (proj2 (N.ltb_lt _ _) Hb).
Qed.

(** ** Matching on release 17 *)

Lemma match_17 {A} (n : N) (x y : A) :
  match n with 17%N => x | _ => y end = if decide (n = 17%N) then x else y.
Proof.
  destruct (decide (n = 17%N)) as [->|Hn]; [done|]. destruct n as [|q]; [done|].
  do 5 (try destruct q as [q|q|]); try done.
Qed.

Lemma read_17 {A} (r : Release) (x y : A) :
  match r with Release.Read 17 => x | _ => y end =
  if decide (r = Release.Read 17) then x else y.
Proof.
  destruct r as [n|u|]; [|done|done]. rewrite match_17.
  destruct (decide (n = 17%N)) as [->|Hn]; [done|]. rewrite decide_False; [done|congruence].
Qed.
