(* ===== verification/ReleasesTheorems.v ===== *)
(** * What the release review guarantees

    The numbering and naming of vocabularies, the reading of version strings
    and the review of an installation, stated of the modelled functions alone. *)
From stdpp Require Import strings.
From S2P Require Import Prelude Text Vocabulary Releases ReleasesSpec.
Open Scope string_scope.

(** ** Canonical release numbers *)

Lemma digits_value_ge s a : (a ≤ digits_value a s)%N ∨ all_bytes is_digit s = false.
Proof.
  revert a. induction s as [|c s IH]; intros a; simpl; [by left|].
  destruct (is_digit c) eqn:Hc; [|by right]. apply N_of_ascii_digit in Hc.
  destruct (IH (10 * a + N_of_ascii c - 48)%N) as [H|H]; [left; lia|by right].
Qed.

Lemma is_digit_cases c :
  is_digit c = true → c ∈ ["0"; "1"; "2"; "3"; "4"; "5"; "6"; "7"; "8"; "9"]%char.
Proof. destruct c as [[] [] [] [] [] [] [] []]; intros Hc; try done; set_solver. Qed.

(** A digit string with no leading zero and a value below 100 is the display
    of its value. *)
Lemma canonical_number s n :
  release_number s = true → parse_uint 256 s = Some n → (n < 100)%N → s = show_uint n.
Proof.
  unfold release_number. intros [[Hne Hd]%andb_true_iff Hz]%andb_true_iff Hp Hn.
  destruct s as [|c s]; [done|]. pose proof Hd as Hd'. simpl in Hd.
  apply andb_true_iff in Hd as [Hc Hs]. pose proof (is_digit_cases c Hc) as Hcs.
  assert (Hv : digits_value 0 (String c s) = n).
  { unfold parse_uint in Hp.
    repeat (apply elem_of_cons in Hcs as [->|Hcs];
      [rewrite Hd' in Hp; simpl negb in Hp; cbn [orb String.eqb] in Hp; by case_match; simplify_eq|]).
    by apply elem_of_nil in Hcs. }
  destruct s as [|d s].
  { clear Hne Hz Hp Hd' Hc Hs. subst n.
    repeat (apply elem_of_cons in Hcs as [->|Hcs]; [vm_compute; reflexivity|]).
    by apply elem_of_nil in Hcs. }
  assert (Hc0 : c ≠ "0"%char) by (intros ->; done).
  simpl in Hs. apply andb_true_iff in Hs as [Hd Hs]. pose proof (is_digit_cases d Hd) as Hds.
  destruct s as [|e s].
  { clear Hne Hz Hp Hd' Hc Hd Hs. subst n. apply elem_of_cons in Hcs as [->|Hcs]; [done|].
    repeat (apply elem_of_cons in Hcs as [->|Hcs];
      [repeat (apply elem_of_cons in Hds as [->|Hds]; [vm_compute; reflexivity|]); by apply elem_of_nil in Hds|]).
    by apply elem_of_nil in Hcs. }
  exfalso. simpl in Hs. apply andb_true_iff in Hs as [He Hs].
  apply N_of_ascii_digit in Hc, Hd, He. cbn [digits_value] in Hv.
  assert (N_of_ascii c ≠ 48%N).
  { intros H. apply Hc0. apply (f_equal ascii_of_N) in H. by rewrite ascii_N_embedding in H. }
  destruct (digits_value_ge s (10 * (10 * (10 * 0 + N_of_ascii c - 48) + N_of_ascii d - 48)
    + N_of_ascii e - 48)%N) as [H1|H1]; [|congruence]. lia.
Qed.

Lemma read_lt n : n ∈ READ_RELEASES → (n < 100)%N.
Proof. apply (proj1 (Forall_forall (λ n, n < 100)%N READ_RELEASES)). by repeat constructor. Qed.

Lemma release_number_show n : n ∈ READ_RELEASES → release_number (show_uint n) = true.
Proof.
  apply (proj1 (Forall_forall (λ n, release_number (show_uint n) = true) READ_RELEASES)).
  by repeat constructor.
Qed.

Lemma release_of_Some s :
  (∃ n, release_of (Some s) = Release.Read n ∧ n ∈ READ_RELEASES ∧
    trim s = "2.0.0-rc." ++ show_uint n) ∨
  release_of (Some s) = Release.Unread s ∧
    (∀ n, n ∈ READ_RELEASES → trim s ≠ "2.0.0-rc." ++ show_uint n).
Proof.
  unfold release_of. destruct (strip_prefix "2.0.0-rc." (trim s)) as [number|] eqn:Hpre; simpl.
  - destruct (release_number number) eqn:Hnum; simpl.
    + destruct (parse_uint 256 number) as [n|] eqn:Hn; simpl.
      * case_bool_decide as Hin.
        -- left. exists n. split; [done|]. split; [done|].
           rewrite <-(canonical_number _ _ Hnum Hn) by by apply read_lt.
           by apply strip_prefix_Some.
        -- right. split; [done|]. intros m Hm Hs. rewrite Hs, strip_prefix_app in Hpre.
           simplify_eq. pose proof (read_lt _ Hm). rewrite parse_show in Hn by lia. by simplify_eq.
      * right. split; [done|]. intros m Hm Hs. rewrite Hs, strip_prefix_app in Hpre.
        simplify_eq. pose proof (read_lt _ Hm). by rewrite parse_show in Hn by lia.
    + right. split; [done|]. intros m Hm Hs. rewrite Hs, strip_prefix_app in Hpre.
      simplify_eq. by rewrite release_number_show in Hnum.
  - right. split; [done|]. intros m Hm Hs. by rewrite Hs, strip_prefix_app in Hpre.
Qed.

Lemma release_of_ok v : release_ok (release_of v).
Proof.
  destruct v as [s|]; [|done]. by destruct (release_of_Some s) as [(n & -> & ? & _)|[-> _]].
Qed.

Lemma release_of_read v n :
  release_of v = Release.Read n ↔
  n ∈ READ_RELEASES ∧ ∃ s, v = Some s ∧ trim s = "2.0.0-rc." ++ show_uint n.
Proof.
  destruct v as [s|]; [|split; [done|by intros (_ & ? & ? & _)]].
  destruct (release_of_Some s) as [(m & Hm & Hin & Ht)|[Hu Hno]].
  - rewrite Hm. split; [intros [= <-]; eauto|].
    intros (Hn & ? & [= <-] & Hs). rewrite Ht in Hs.
    apply (f_equal (strip_prefix "2.0.0-rc.")) in Hs. rewrite !strip_prefix_app in Hs.
    injection Hs as Hs. f_equal. pose proof (read_lt _ Hin). pose proof (read_lt _ Hn).
    apply (f_equal (parse_uint 256)) in Hs. rewrite !parse_show in Hs by lia. by simplify_eq.
  - rewrite Hu. split; [done|].
    intros (Hn & ? & [= <-] & Hs). by destruct (Hno n).
Qed.

Lemma release_of_unresolved v : release_of v = Release.Unresolved ↔ v = None.
Proof.
  destruct v as [s|]; [|done].
  by destruct (release_of_Some s) as [(n & -> & _)|[-> _]].
Qed.

(** ** The version operators [for_solid_js] strips *)

Definition version_operators : list string := ["^"; "~"; "="; "v"; " "; ">"; "<"].

Lemma operator_stripped op s :
  op ∈ version_operators →
  head (omap (λ p, strip_prefix p (op ++ s)) version_operators) = Some s ∧
  (0 < String.length op)%nat.
Proof.
  intros Hop. unfold version_operators in Hop.
  repeat (apply elem_of_cons in Hop as [->|Hop]; [split; [done|simpl; lia]|]).
  by apply elem_of_nil in Hop.
Qed.

Lemma operators_stripped ops r fuel :
  Forall (.∈ version_operators) ops →
  head (omap (λ p, strip_prefix p r) version_operators) = None →
  (List.length ops ≤ fuel)%nat →
  trim_rounds fuel version_operators (foldr String.append r ops) = r.
Proof.
  intros Hops Hr. revert fuel. induction Hops as [|op ops Hop _ IH]; intros fuel Hf.
  - destruct fuel; [done|]. cbn -[version_operators omap]. by rewrite Hr.
  - destruct fuel as [|fuel]; [simpl in Hf; lia|]. cbn -[version_operators omap String.append].
    destruct (operator_stripped op (foldr String.append r ops) Hop) as [-> _].
    apply IH. simpl in Hf. lia.
Qed.

Lemma str_length_app (a b : string) :
  String.length (a ++ b) = (String.length a + String.length b)%nat.
Proof.
  induction a as [|x a IH]; [done|].
  change (S (String.length (a ++ b)) = S (String.length a + String.length b)). by f_equal.
Qed.

Lemma operators_length ops r :
  Forall (.∈ version_operators) ops →
  (List.length ops ≤ String.length (foldr String.append r ops))%nat.
Proof.
  induction 1 as [|op ops Hop _ IH]; simpl; [lia|]. rewrite str_length_app.
  destruct (operator_stripped op r Hop) as [_ ?]. lia.
Qed.

Lemma show_uint_digits n :
  (n < 10 ^ 20)%N →
  ∃ c ds, show_uint n = String c ds ∧ all_bytes is_digit (String c ds) = true.
Proof.
  intros Hn. unfold show_uint.
  destruct (show_rounds_spec 20 n EmptyString) as (ds & -> & Hne & Hd & _); [done|lia|].
  rewrite str_app_nil. destruct ds as [|c ds]; [done|]. by exists c, ds.
Qed.

Lemma all_bytes_impl (p q : ascii → bool) s :
  (∀ c, p c = true → q c = true) → all_bytes p s = true → all_bytes q s = true.
Proof.
  intros Hpq. induction s as [|c s IH]; simpl; [done|].
  intros [Hc Hs]%andb_true_iff. by rewrite (Hpq _ Hc), IH.
Qed.

Lemma digit_not_operator c s :
  is_digit c = true → head (omap (λ p, strip_prefix p (String c s)) version_operators) = None.
Proof. intros Hc. by destruct c as [[] [] [] [] [] [] [] []]. Qed.

Definition version_separator (c : ascii) : bool := (c =? ".")%char || (c =? "-")%char || (c =? "+")%char.

Lemma digit_not_separator c : is_digit c = true → negb (version_separator c) = true.
Proof. intros Hc. by destruct c as [[] [] [] [] [] [] [] []]. Qed.

(** What may follow the major number. *)
Definition version_tail (s : string) : Prop :=
  match s with EmptyString => True | String c _ => version_separator c = true end.

Lemma split_major n tail :
  (n < 10 ^ 20)%N → version_tail tail →
  head (split_on version_separator (show_uint n ++ tail)) = Some (show_uint n).
Proof.
  intros Hn Ht. destruct (show_uint_digits n Hn) as (c & ds & -> & Hd).
  pose proof (all_bytes_impl _ _ _ digit_not_separator Hd) as Hs.
  destruct tail as [|t tail].
  - rewrite str_app_nil. by rewrite split_piece.
  - by rewrite split_join_piece.
Qed.

(** ** Gaps of a review *)

Lemma scoped_gaps_iff j s w gaps :
  release_ok j → release_ok s → release_ok w → gaps_for j s w = Some gaps →
  (Forall (λ g, ¬ unscoped g) gaps ↔
    j = Release.Read 17 ∧ s = Release.Read 17 ∧ (w = Release.Read 17 ∨ w = Release.Unresolved)).
Proof.
  intros Hj Hs Hw Hg. split; [by apply scoped_gaps_audited|].
  intros (-> & -> & [-> | ->]); vm_compute in Hg; apply (inj Some) in Hg; subst gaps;
    by repeat constructor.
Qed.

Lemma gaps_not_empty j s w gaps :
  release_ok j → release_ok s → release_ok w → gaps_for j s w = Some gaps → gaps ≠ [].
Proof.
  intros Hj Hs Hw Hg ->.
  destruct (scoped_gaps_audited j s w [] Hj Hs Hw Hg (Forall_nil_2 _)) as (-> & -> & [-> | ->]);
    vm_compute in Hg; discriminate.
Qed.

Lemma review_analyzed installed v gaps :
  review installed = Some (Analyzed v gaps) →
  let release package := release_of (version_of installed package) in
  v = Some (vocabulary_for (release SOLID_JS) (release SIGNALS) (release WEB)) ∧
  gaps_for (release SOLID_JS) (release SIGNALS) (release WEB) = Some gaps.
Proof.
  unfold review. destruct (from_option _ _ _); [done|]. rewrite interned_self. simpl.
  intros Hr. apply bind_Some in Hr as (gaps' & Hg & Hr). by simplify_eq.
Qed.

(** ** The theorems *)

(** The mixed-radix index numbers the vocabularies: a slot of the static
    table holds a vocabulary exactly when the slot is the vocabulary's index,
    and the table's length is the number of vocabularies. *)
Theorem vocabulary_index_bijection (v : Solid2) (i : N) :
  (VARIANTS i = Some v ↔ i = index v) ∧
  (is_Some (VARIANTS i) ↔ (i < VARIANT_COUNT)%N) ∧
  interned v = Some v.
Proof.
  split; [|split; [|apply interned_self]].
  - unfold VARIANTS. destruct (i <? VARIANT_COUNT)%N eqn:Hi.
    + apply N.ltb_lt in Hi. split.
      * intros [= <-]. by rewrite index_from_index.
      * intros ->. by rewrite from_index_index.
    + apply N.ltb_ge in Hi. split; [done|]. intros ->. pose proof (index_lt v). lia.
  - unfold VARIANTS. destruct (i <? VARIANT_COUNT)%N eqn:Hi.
    + apply N.ltb_lt in Hi. by split.
    + apply N.ltb_ge in Hi. split; [by intros []|lia].
Qed.

(** C40: a vocabulary's key is its spelling, whatever keys were spelled before,
    and reading a key back never panics: it gives the one vocabulary the key
    spells, or nothing when none does. Only the conservative vocabulary has no
    key. *)
Theorem vocabulary_key_roundtrip (keys : KeyCache) (v : Solid2) (k : string) :
  cache_ok keys →
  ∃ keys' keys'' r,
    key keys v = Some (keys', variant_key v) ∧ cache_ok keys' ∧
    of_key keys' k = Some (keys'', r) ∧ cache_ok keys'' ∧
    (variant_key v = Some k ↔ r = Some v) ∧
    (variant_key v = None ↔ v = CONSERVATIVE).
Proof.
  intros Hc. destruct (key_spec keys v Hc) as (keys' & Hk & Hc').
  destruct (of_key_spec keys' k Hc') as (keys'' & r & Ho & Hc'' & Hr).
  exists keys', keys'', r. split_and!; [done..|by rewrite (Hr v)|].
  unfold variant_key. split.
  - destruct (key_tokens v) eqn:Ht; [|done]. intros _. apply key_tokens_nil in Ht.
    by rewrite <-(from_index_index v), Ht.
  - by intros ->.
Qed.

Lemma vocabulary_key_roundtrip_witness :
  cache_ok ∅ ∧
  ∃ keys' keys'' r,
    key ∅ RC9 = Some (keys', variant_key RC9) ∧ cache_ok keys' ∧
    of_key keys' "until" = Some (keys'', r) ∧ cache_ok keys'' ∧
    (variant_key RC9 = Some "until" ↔ r = Some RC9) ∧
    (variant_key RC9 = None ↔ RC9 = CONSERVATIVE).
Proof.
  assert (Hc : cache_ok ∅) by (intros i k Hk; by rewrite lookup_empty in Hk).
  split; [exact Hc|]. exact (vocabulary_key_roundtrip ∅ RC9 "until" Hc).
Defined.

(** A version string is read as release [n] exactly when a review read
    [n] and the string, trimmed, is ["2.0.0-rc."] and [n] in canonical decimal:
    a leading zero, a build suffix or an unreviewed number leaves the release
    unread, and only a missing version is unresolved. *)
Theorem release_of_exact (version : string) (n : N) :
  (release_of (Some version) = Release.Read n ↔
    n ∈ READ_RELEASES ∧ trim version = "2.0.0-rc." ++ show_uint n) ∧
  (release_of (Some version) = Release.Unread version ↔
    ∀ m, m ∈ READ_RELEASES → trim version ≠ "2.0.0-rc." ++ show_uint m) ∧
  release_of (Some version) ≠ Release.Unresolved.
Proof.
  split_and!.
  - rewrite release_of_read. split.
    + by intros (Hn & s & [= <-] & Hs).
    + intros [Hn Hs]. eauto.
  - destruct (release_of_Some version) as [(m & Hm & Hin & Ht)|[Hu Hno]].
    + rewrite Hm. split; [done|]. intros Hno. by destruct (Hno m).
    + done.
  - by destruct (release_of_Some version) as [(m & -> & _)|[-> _]].
Qed.

(** A review never panics. It refuses the pre-beta experiment of
    [solid-js] and nothing else; every other installation is analyzed under the
    vocabulary of its three releases, with the gaps of the same releases, and
    that list is never empty. *)
Theorem review_total (installed : list InstalledRelease) :
  let version := version_of installed in
  let release package := release_of (version package) in
  match version SOLID_JS with
  | Some s => is_pre_beta_experiment s = true ∧ review installed = Some (Refused PRE_BETA_EXPERIMENT)
  | None => False
  end ∨
  from_option is_pre_beta_experiment false (version SOLID_JS) = false ∧
  ∃ gaps,
    review installed = Some (Analyzed
      (Some (vocabulary_for (release SOLID_JS) (release SIGNALS) (release WEB))) gaps) ∧
    gaps_for (release SOLID_JS) (release SIGNALS) (release WEB) = Some gaps ∧ gaps ≠ [].
Proof.
  cbv zeta. unfold review. destruct (from_option _ _ _) eqn:Hp.
  - left. destruct (version_of installed SOLID_JS); [|done]. done.
  - right. split; [done|]. rewrite interned_self. simpl.
    edestruct gaps_for_total as [gaps Hg]. exists gaps. rewrite Hg. simpl.
    split; [done|]. split; [done|]. eapply gaps_not_empty, Hg; apply release_of_ok.
Qed.

(** Every gap an analysed installation leaves is scoped to named exports,
    that is, costs nothing to a program that names none of them, exactly when
    the installation is the audited one: [solid-js] and the signals package on
    rc.17 and the web package on rc.17 or not installed. *)
Theorem review_scoped_gaps_audited (installed : list InstalledRelease) v gaps :
  review installed = Some (Analyzed v gaps) →
  let audited package := ∃ s, version_of installed package = Some s ∧ trim s = "2.0.0-rc.17" in
  (Forall (λ g, is_Some (ig_scope g)) gaps ↔
    audited SOLID_JS ∧ audited SIGNALS ∧ (audited WEB ∨ version_of installed WEB = None)).
Proof.
  intros [_ Hg]%review_analyzed. cbv zeta.
  assert (Ha : ∀ p, release_of (version_of installed p) = Release.Read 17 ↔
    ∃ s, version_of installed p = Some s ∧ trim s = "2.0.0-rc.17").
  { intros p. rewrite release_of_read. split; [by intros [_ H]|]. intros H. split; [|done].
    by repeat constructor. }
  rewrite <-!Ha, <-release_of_unresolved, <-(scoped_gaps_iff _ _ _ _ (release_of_ok _)
    (release_of_ok _) (release_of_ok _) Hg).
  apply Forall_proper; [|done]. intros g. unfold unscoped. rewrite <-not_eq_None_Some. done.
Qed.

Definition audited_installed : list InstalledRelease :=
  (λ '(package, version), mk_installed package (Some version)) <$> AUDITED_INSTALLATION.

Lemma review_scoped_gaps_audited_witness :
  match review audited_installed with
  | Some (Analyzed v gaps) =>
      let audited package :=
        ∃ s, version_of audited_installed package = Some s ∧ trim s = "2.0.0-rc.17" in
      (Forall (λ g, is_Some (ig_scope g)) gaps ↔
        audited SOLID_JS ∧ audited SIGNALS ∧
        (audited WEB ∨ version_of audited_installed WEB = None))
  | _ => False
  end.
Proof.
  destruct (review audited_installed) as [[v gaps|r]|] eqn:Hr.
  - exact (review_scoped_gaps_audited audited_installed v gaps Hr).
  - vm_compute in Hr. discriminate.
  - vm_compute in Hr. discriminate.
Defined.

(** ** Which installations have a named vocabulary *)

(** An unread release is read nowhere, so its spelling does not matter. *)
Definition unspelled (r : Release) : Release :=
  match r with Release.Unread _ => Release.Unread EmptyString | r => r end.

Definition release_classes : list Release :=
  Release.Unread EmptyString :: Release.Unresolved :: (Release.Read <$> READ_RELEASES).

Lemma unspelled_class r : release_ok r → unspelled r ∈ release_classes.
Proof.
  destruct r as [n|u|]; simpl; intros Hr; [|by left|by right; left].
  right. right. by eapply list_elem_of_fmap_2'.
Qed.

Lemma vocabulary_unspelled j s w :
  vocabulary_for j s w = vocabulary_for (unspelled j) (unspelled s) (unspelled w).
Proof. by destruct j, s, w. Qed.

Lemma elem_of_reads_unspelled r (ns : list N) : unspelled r ∈ Release.Read <$> ns ↔ r ∈ Release.Read <$> ns.
Proof. destruct r; try done. rewrite !list_elem_of_fmap. naive_solver. Qed.

(** A property of every combination of releases, checked on the classes. *)
Lemma forall_classes (P : Release → Release → Release → Prop) `{∀ j s w, Decision (P j s w)} :
  forallb (λ j, forallb (λ s, forallb (λ w, bool_decide (P j s w)) release_classes)
    release_classes) release_classes = true →
  ∀ j s w, release_ok j → release_ok s → release_ok w →
  P (unspelled j) (unspelled s) (unspelled w).
Proof.
  intros HP j s w Hj%unspelled_class Hs%unspelled_class Hw%unspelled_class.
  rewrite forallb_forall in HP. apply list_elem_of_In in Hj, Hs, Hw.
  pose proof (HP _ Hj) as HP1. rewrite forallb_forall in HP1.
  pose proof (HP1 _ Hs) as HP2. rewrite forallb_forall in HP2.
  pose proof (HP2 _ Hw) as HP3. by apply bool_decide_eq_true in HP3.
Qed.

(** The releases of [solid-js], the signals package and the web package that
    are each given one of the numbers listed. *)
Definition reads_of (ns : list N) (r : Release) : Prop := r ∈ Release.Read <$> ns.

#[export] Instance reads_of_dec ns r : Decision (reads_of ns r) := decide (r ∈ Release.Read <$> ns).

Lemma reads_of_unspelled ns r : reads_of ns (unspelled r) ↔ reads_of ns r.
Proof. apply elem_of_reads_unspelled. Qed.

(** The named vocabularies are answered on exactly the installations they
    were read on, as far as the answers tell releases apart: the audited one
    only when all three packages are rc.17; the rc.13 one only with signals and
    web on rc.13; the rc.9 one only with signals and web on rc.9; and the
    conservative one only when neither signals nor web was read. A mixed
    installation never gets the audited answers. *)
Theorem named_vocabularies_exact (j s w : Release) :
  release_ok j → release_ok s → release_ok w →
  (vocabulary_for j s w = AUDITED ↔ reads_of [17]%N j ∧ reads_of [17]%N s ∧ reads_of [17]%N w) ∧
  (vocabulary_for j s w = RC13 ↔ reads_of [13; 17]%N j ∧ reads_of [13]%N s ∧ reads_of [13]%N w) ∧
  (vocabulary_for j s w = RC9 ↔
    reads_of [5; 6; 7; 8; 9]%N j ∧ reads_of [9]%N s ∧ reads_of [9]%N w) ∧
  (vocabulary_for j s w = RC3 ↔
    ¬ reads_of [13; 17]%N j ∧ reads_of [1; 2; 3; 4; 5; 6]%N s ∧
    ¬ (reads_of [5; 6; 7; 8; 9]%N j ∧ reads_of [5; 6]%N s) ∧
    reads_of [0; 1; 2; 3; 4; 5; 6; 7; 8]%N w) ∧
  (vocabulary_for j s w = CONSERVATIVE ↔
    ¬ reads_of [13; 17]%N j ∧ ¬ reads_of READ_RELEASES s ∧ w = Release.Unresolved).
Proof.
  intros Hj Hs Hw. rewrite vocabulary_unspelled.
  rewrite <-!(reads_of_unspelled _ j), <-!(reads_of_unspelled _ s), <-!(reads_of_unspelled _ w).
  assert (Hun : w = Release.Unresolved ↔ unspelled w = Release.Unresolved) by by destruct w.
  rewrite Hun. clear Hun. revert j s w Hj Hs Hw.
  apply (forall_classes (λ j s w,
    (vocabulary_for j s w = AUDITED ↔ reads_of [17]%N j ∧ reads_of [17]%N s ∧ reads_of [17]%N w) ∧
    (vocabulary_for j s w = RC13 ↔ reads_of [13; 17]%N j ∧ reads_of [13]%N s ∧ reads_of [13]%N w) ∧
    (vocabulary_for j s w = RC9 ↔
      reads_of [5; 6; 7; 8; 9]%N j ∧ reads_of [9]%N s ∧ reads_of [9]%N w) ∧
    (vocabulary_for j s w = RC3 ↔
      ¬ reads_of [13; 17]%N j ∧ reads_of [1; 2; 3; 4; 5; 6]%N s ∧
      ¬ (reads_of [5; 6; 7; 8; 9]%N j ∧ reads_of [5; 6]%N s) ∧
      reads_of [0; 1; 2; 3; 4; 5; 6; 7; 8]%N w) ∧
    (vocabulary_for j s w = CONSERVATIVE ↔
      ¬ reads_of [13; 17]%N j ∧ ¬ reads_of READ_RELEASES s ∧ w = Release.Unresolved))).
  by vm_compute.
Qed.

Lemma named_vocabularies_exact_witness :
  release_ok (Release.Read 17) ∧ release_ok (Release.Read 13) ∧
  release_ok (Release.Unread "2.0.0-rc.16") ∧
  vocabulary_for (Release.Read 17) (Release.Read 13) (Release.Read 13) = RC13 ∧
  vocabulary_for (Release.Read 17) (Release.Read 17) (Release.Unread "2.0.0-rc.16") ≠ AUDITED.
Proof.
  assert (H17 : release_ok (Release.Read 17)) by by repeat constructor.
  assert (H13 : release_ok (Release.Read 13)) by by repeat constructor.
  assert (Hu : release_ok (Release.Unread "2.0.0-rc.16")) by done.
  split_and!; [done..| |].
  - apply (named_vocabularies_exact _ _ _ H17 H13 H13). split_and!; by repeat constructor.
  - intros Ha. apply (named_vocabularies_exact _ _ _ H17 H17 Hu) in Ha as (_ & _ & Hw).
    unfold reads_of in Hw. simpl in Hw. apply elem_of_cons in Hw as [Hw|Hw]; [done|].
    by apply elem_of_nil in Hw.
Defined.

(** [Version::for_solid_js] reads the major number of a version string:
    white space around it, any run of range operators before it and anything
    after the first dot, dash or plus are ignored, and majors 1 and 2 are the
    modelled languages. *)
Theorem for_solid_js_major (operators : list string) (n : N) (tail version : string) :
  Forall (.∈ version_operators) operators → (n < 2 ^ 32)%N → version_tail tail →
  trim version = foldr String.append (show_uint n ++ tail) operators →
  for_solid_js version = Some (
    if (n =? 1)%N then Classification.Modelled Version.V1
    else if (n =? 2)%N then Classification.Modelled Version.V2
    else Classification.UnmodelledMajor n).
Proof.
  intros Hops Hn Ht Htrim. assert (Hn20 : (n < 10 ^ 20)%N) by lia.
  unfold for_solid_js. rewrite Htrim. fold version_operators. fold version_separator.
  unfold trim_start_matches. rewrite operators_stripped; [|done| |by apply operators_length].
  - rewrite split_major by done. simpl. rewrite parse_show by done. simpl. f_equal.
    by destruct n as [|[|[]|]].
  - destruct (show_uint_digits n Hn20) as (c & ds & -> & Hd). simpl in Hd.
    apply andb_true_iff in Hd as [Hc _]. by apply (digit_not_operator c).
Qed.

Lemma for_solid_js_major_witness :
  Forall (.∈ version_operators) [">"; "="; " "] ∧ version_tail ".0.0-rc.17" ∧
  for_solid_js " >= 2.0.0-rc.17" = Some (Classification.Modelled Version.V2).
Proof.
  assert (Hops : Forall (.∈ version_operators) [">"; "="; " "]) by by repeat constructor.
  split; [exact Hops|]. split; [reflexivity|].
  exact (for_solid_js_major [">"; "="; " "] 2 ".0.0-rc.17" " >= 2.0.0-rc.17" Hops
    (eq_refl : (2 < 2 ^ 32)%N) eq_refl eq_refl).
Defined.

(** The answers of a mixed installation, against the notice [gaps_for]
    gives it. The store typing, the store setter's root guard, the
    optimistic-store setter's guard and flush's action-step throw are the signals
    package's alone, and [until] ignores the web package, as the notice says. It
    also says [dynamic]'s options are the web package's; they are, except that on
    a web package at rc.17 they also turn on whether [solid-js] is at rc.17. *)
Theorem mixed_answers_by_declarer (j j' s w w' : Release) :
  let v := vocabulary_for j s w in
  let v' := vocabulary_for j' s w' in
  store_root v = store_root v' ∧
  store_setter_roots v = store_setter_roots v' ∧
  optimistic_store_setter v = optimistic_store_setter v' ∧
  flush_in_action v = flush_in_action v' ∧
  until v = until (vocabulary_for j s w') ∧
  (dynamic_options v = dynamic_options (vocabulary_for j' s w) ↔
    w ≠ Release.Read 17 ∨ (j = Release.Read 17 ↔ j' = Release.Read 17)).
Proof.
  cbv zeta. do 5 (split; [reflexivity|]). cbn [vocabulary_for dynamic_options].
  destruct (decide (w = Release.Read 17)) as [->|Hw].
  - assert (H17 : ∀ r : Release,
      match r with Release.Read 17 => DynamicOptions.StaticForm | _ => DynamicOptions.Unread end =
      if decide (r = Release.Read 17) then DynamicOptions.StaticForm else DynamicOptions.Unread)
      by (intros r; apply read_17).
    rewrite !H17. destruct (decide (j = _)), (decide (j' = _)); naive_solver.
  - split; [by left|]. intros _. destruct w as [n|u|]; [|done|done].
    destruct n as [|q]; [done|]. do 5 (try destruct q as [q|q|]); try done.
Qed.
