(* ===== verification/Exports.v ===== *)
(** * Which module of a Solid package exports which name

    Model of [solid-dialect/src/exports/]: the frozen declaration tables of the
    two packages, the binary search that reads them, and the proof that on a
    sorted table the search is the scan. *)
From stdpp Require Import strings.
From S2P Require Import Prelude Order Vocabulary.
Open Scope string_scope.

(** ** Lookup *)

(** A table: a name and the module specifiers that export it. *)
Abbreviation ExportTable := (list (string * list string)) (only parsing).

(** [slice::binary_search_by]: the base moves up whenever the probe is not
    above the key; one round halves the window, so its size bounds the rounds.
    [None] is an out-of-range probe. *)
Fixpoint search_rounds (fuel : nat) (table : ExportTable) (name : string) (base size : nat)
  : option nat :=
  if bool_decide (size ≤ 1)%nat then Some base
  else match fuel with
       | 0 => None
       | S fuel =>
           let half := Nat.div2 size in
           '(candidate, _) ← table !! (base + half)%nat;
           search_rounds fuel table name
             (match String.compare candidate name with Gt => base | _ => base + half end)%nat
             (size - half)%nat
       end.

Definition binary_search (table : ExportTable) (name : string) : option (option nat) :=
  if bool_decide (table = []) then Some None
  else
    base ← search_rounds (List.length table) table name 0 (List.length table);
    '(candidate, _) ← table !! base;
    Some (match String.compare candidate name with Eq => Some base | _ => None end).

(** [exports::lookup]: [None] is a panic. *)
Definition export_lookup (table : ExportTable) (name : string) : option (list string) :=
  found ← binary_search table name;
  match found with
  | Some index => snd <$> table !! index
  | None => Some []
  end.

(** The loop that adds the modules not yet found. *)
Definition push_new (found modules : list string) : list string :=
  foldl (λ found module, if bool_decide (module ∈ found) then found else (found ++ [module])%list)
    found modules.

(** [exports::modules]. *)
Definition modules (values types : ExportTable) (name : string) (position : Position)
  : option (list string) :=
  found ← export_lookup values name;
  if bool_decide (position = Position.Ty) then
    found_types ← export_lookup types name;
    Some (push_new found found_types)
  else Some found.

(** ** The tables *)

(** [solid_v2_solid_js::VALUES]. *)
Definition solid_js_VALUES : ExportTable := [
  ("$$component", ["solid-js/refresh"]);
  ("$$decline", ["solid-js/refresh"]);
  ("$$refresh", ["solid-js/refresh"]);
  ("$$registry", ["solid-js/refresh"]);
  ("$DEVCOMP", ["solid-js"]);
  ("$PROXY", ["solid-js"]);
  ("$REFRESH", ["solid-js"]);
  ("$TRACK", ["solid-js"]);
  ("DEV", ["solid-js"]);
  ("Errored", ["solid-js"]);
  ("For", ["solid-js"]);
  ("Hydration", ["solid-js"]);
  ("Loading", ["solid-js"]);
  ("Match", ["solid-js"]);
  ("NoHydrateContext", ["solid-js"]);
  ("NoHydration", ["solid-js"]);
  ("NotReadyError", ["solid-js"]);
  ("Repeat", ["solid-js"]);
  ("Reveal", ["solid-js"]);
  ("Show", ["solid-js"]);
  ("Switch", ["solid-js"]);
  ("action", ["solid-js"]);
  ("affects", ["solid-js"]);
  ("children", ["solid-js"]);
  ("configureRefresh", ["solid-js/refresh"]);
  ("createComponent", ["solid-js"]);
  ("createContext", ["solid-js"]);
  ("createDeferred", ["solid-js"]);
  ("createEffect", ["solid-js"]);
  ("createErrorBoundary", ["solid-js"; "solid-js/internal"]);
  ("createLoadingBoundary", ["solid-js"; "solid-js/internal"]);
  ("createMemo", ["solid-js"]);
  ("createOptimistic", ["solid-js"]);
  ("createOptimisticStore", ["solid-js"]);
  ("createOwner", ["solid-js"]);
  ("createProjection", ["solid-js"]);
  ("createReaction", ["solid-js"]);
  ("createRenderEffect", ["solid-js"]);
  ("createRevealOrder", ["solid-js"; "solid-js/internal"]);
  ("createRoot", ["solid-js"]);
  ("createSignal", ["solid-js"]);
  ("createStore", ["solid-js"]);
  ("createTrackedEffect", ["solid-js"]);
  ("createUniqueId", ["solid-js"]);
  ("creationStamp", ["solid-js"]);
  ("deep", ["solid-js"]);
  ("dynamicComponent", ["solid-js"]);
  ("enableExternalSource", ["solid-js"]);
  ("enableHydration", ["solid-js"]);
  ("enforceLoadingBoundary", ["solid-js"]);
  ("flatten", ["solid-js"]);
  ("flush", ["solid-js"]);
  ("getNextChildId", ["solid-js"]);
  ("getObserver", ["solid-js"]);
  ("getOwner", ["solid-js"]);
  ("getProjectionTrace", ["solid-js"]);
  ("inServerComponentScope", ["solid-js"]);
  ("isDisposed", ["solid-js"]);
  ("isEqual", ["solid-js"]);
  ("isPending", ["solid-js"]);
  ("isWrappable", ["solid-js"]);
  ("latest", ["solid-js"]);
  ("lazy", ["solid-js"]);
  ("lazyModule", ["solid-js"]);
  ("mapArray", ["solid-js"]);
  ("materializeContainerTrace", ["solid-js"]);
  ("merge", ["solid-js"]);
  ("omit", ["solid-js"]);
  ("onCleanup", ["solid-js"]);
  ("onHydrationEnd", ["solid-js"]);
  ("onSettled", ["solid-js"]);
  ("reconcile", ["solid-js"]);
  ("refresh", ["solid-js"]);
  ("repeat", ["solid-js"]);
  ("resolve", ["solid-js"]);
  ("runInServerComponentScope", ["solid-js"]);
  ("runWithOwner", ["solid-js"]);
  ("sharedConfig", ["solid-js"]);
  ("snapshot", ["solid-js"]);
  ("ssrHandleError", ["solid-js"]);
  ("ssrScope", ["solid-js"]);
  ("storePath", ["solid-js"]);
  ("until", ["solid-js"]);
  ("untrack", ["solid-js"]);
  ("useContext", ["solid-js"])].

(** [solid_v2_solid_js::TYPES]. *)
Definition solid_js_TYPES : ExportTable := [
  ("Accessor", ["solid-js"]);
  ("AnyMatchProps", ["solid-js"]);
  ("ArrayElement", ["solid-js"]);
  ("ArrayFilterFn", ["solid-js"]);
  ("BaseComponent", ["solid-js/refresh"]);
  ("ChildrenReturn", ["solid-js"]);
  ("Component", ["solid-js"]);
  ("ComponentProps", ["solid-js"]);
  ("ComponentRegistrationData", ["solid-js/refresh"]);
  ("ComputeFunction", ["solid-js"]);
  ("Context", ["solid-js"]);
  ("ContextProviderComponent", ["solid-js"]);
  ("CustomPartial", ["solid-js"]);
  ("DynamicOptions", ["solid-js"]);
  ("ESMRuntimeType", ["solid-js/refresh"]);
  ("EffectBundle", ["solid-js"]);
  ("EffectFunction", ["solid-js"]);
  ("EffectOptions", ["solid-js"]);
  ("Element", ["solid-js"]);
  ("ExternalSource", ["solid-js"]);
  ("ExternalSourceConfig", ["solid-js"]);
  ("ExternalSourceFactory", ["solid-js"]);
  ("FlowComponent", ["solid-js"]);
  ("FlowProps", ["solid-js"]);
  ("KeyedMatchProps", ["solid-js"]);
  ("MatchProps", ["solid-js"]);
  ("MemoOptions", ["solid-js"]);
  ("Merge", ["solid-js"]);
  ("NoInfer", ["solid-js"]);
  ("NotWrappable", ["solid-js"]);
  ("Omit", ["solid-js"]);
  ("Owner", ["solid-js"]);
  ("ParentComponent", ["solid-js"]);
  ("ParentProps", ["solid-js"]);
  ("Part", ["solid-js"]);
  ("PathSetter", ["solid-js"]);
  ("ProjectionOptions", ["solid-js"]);
  ("ProjectionStoreReturn", ["solid-js"]);
  ("Ref", ["solid-js"]);
  ("RefreshConfig", ["solid-js/refresh"]);
  ("Refreshable", ["solid-js"]);
  ("Registry", ["solid-js/refresh"]);
  ("ResolvedChildren", ["solid-js"]);
  ("ResolvedElement", ["solid-js"]);
  ("RevealOrder", ["solid-js"]);
  ("RevealProps", ["solid-js"]);
  ("RuntimeType", ["solid-js/refresh"]);
  ("Setter", ["solid-js"]);
  ("Signal", ["solid-js"]);
  ("SignalOptions", ["solid-js"]);
  ("SolidStore", ["solid-js"]);
  ("SourceAccessor", ["solid-js"]);
  ("StandardRuntimeType", ["solid-js/refresh"]);
  ("Store", ["solid-js"]);
  ("StoreNode", ["solid-js"]);
  ("StoreOptions", ["solid-js"]);
  ("StorePathRange", ["solid-js"]);
  ("StoreReturn", ["solid-js"]);
  ("StoreSetter", ["solid-js"]);
  ("ValidComponent", ["solid-js"]);
  ("VoidComponent", ["solid-js"]);
  ("VoidProps", ["solid-js"])].

(** [solid_v2_solidjs_web::VALUES]. *)
Definition solidjs_web_VALUES : ExportTable := [
  ("ChildProperties", ["@solidjs/web"]);
  ("ChunkReader", ["@solidjs/web/server-functions"; "@solidjs/web/server-functions/client"]);
  ("DEFAULT_WEB_PLUGINS", ["@solidjs/web/serialization"; "@solidjs/web/serialization/decode"]);
  ("DOMElements", ["@solidjs/web"]);
  ("DOMWithState", ["@solidjs/web"]);
  ("DelegatedEvents", ["@solidjs/web"]);
  ("Dynamic", ["@solidjs/web"]);
  ("ERROR_HEADER", ["@solidjs/web/server-functions"; "@solidjs/web/server-functions/client"; "@solidjs/web/server-functions/server"]);
  ("Errored", ["@solidjs/web"]);
  ("FLASH_COOKIE", ["@solidjs/web/server-functions"; "@solidjs/web/server-functions/client"; "@solidjs/web/server-functions/server"]);
  ("FRAME_APPLIED_EVENT", ["@solidjs/web/frames"; "@solidjs/web/frames/client"]);
  ("FRAME_STREAM_HEADER", ["@solidjs/web/frames"; "@solidjs/web/frames/client"; "@solidjs/web/frames/server"]);
  ("FUNCTION_HEADER", ["@solidjs/web/server-functions"; "@solidjs/web/server-functions/client"; "@solidjs/web/server-functions/server"]);
  ("For", ["@solidjs/web"]);
  ("GENERIC_SERVER_ERROR_MESSAGE", ["@solidjs/web/server-functions"; "@solidjs/web/server-functions/server"]);
  ("GET", ["@solidjs/web/server-functions"; "@solidjs/web/server-functions/client"; "@solidjs/web/server-functions/server"]);
  ("HREF", ["@solidjs/web"]);
  ("Hydration", ["@solidjs/web"]);
  ("HydrationScript", ["@solidjs/web"]);
  ("INSTANCE_HEADER", ["@solidjs/web/server-functions"; "@solidjs/web/server-functions/client"; "@solidjs/web/server-functions/server"]);
  ("Loading", ["@solidjs/web"]);
  ("Match", ["@solidjs/web"]);
  ("MathMLElements", ["@solidjs/web"]);
  ("Namespaces", ["@solidjs/web"]);
  ("NoHydration", ["@solidjs/web"]);
  ("OpaqueReference", ["@solidjs/web/serialization"]);
  ("Portal", ["@solidjs/web"]);
  ("REVALIDATE_HEADER", ["@solidjs/web"; "@solidjs/web/server-functions"; "@solidjs/web/server-functions/client"]);
  ("RawTextElements", ["@solidjs/web"]);
  ("Repeat", ["@solidjs/web"]);
  ("RequestContext", ["@solidjs/web"]);
  ("ResponseEnvelope", ["@solidjs/web"]);
  ("Reveal", ["@solidjs/web"]);
  ("SAFE_ERROR", ["@solidjs/web"]);
  ("SERVER_COMPONENT_BOOTSTRAP", ["@solidjs/web/frames"; "@solidjs/web/frames/server"]);
  ("SINGLE_FLIGHT_HEADER", ["@solidjs/web/server-functions"; "@solidjs/web/server-functions/client"; "@solidjs/web/server-functions/server"]);
  ("SVGElements", ["@solidjs/web"]);
  ("ServerComponentPlugin", ["@solidjs/web/frames"; "@solidjs/web/frames/server"]);
  ("Show", ["@solidjs/web"]);
  ("Switch", ["@solidjs/web"]);
  ("VoidElements", ["@solidjs/web"]);
  ("acquireAsset", ["@solidjs/web"]);
  ("addEvent", ["@solidjs/web"]);
  ("applyFrameResponse", ["@solidjs/web/frames"; "@solidjs/web/frames/client"]);
  ("applyRef", ["@solidjs/web"]);
  ("assign", ["@solidjs/web"]);
  ("asyncArg", ["@solidjs/web/frames"; "@solidjs/web/frames/client"; "@solidjs/web/frames/server"]);
  ("claimElement", ["@solidjs/web"]);
  ("claimElementTree", ["@solidjs/web"]);
  ("className", ["@solidjs/web"]);
  ("clearFlashCookie", ["@solidjs/web"; "@solidjs/web/server-functions"; "@solidjs/web/server-functions/client"; "@solidjs/web/server-functions/server"]);
  ("clientOnly", ["@solidjs/web"]);
  ("commitEventResponse", ["@solidjs/web"]);
  ("composeMiddleware", ["@solidjs/web"]);
  ("configureServerFunctionsClient", ["@solidjs/web/server-functions"; "@solidjs/web/server-functions/client"]);
  ("configureServerFunctionsServer", ["@solidjs/web/server-functions"; "@solidjs/web/server-functions/server"]);
  ("createChunk", ["@solidjs/web/server-functions"; "@solidjs/web/server-functions/client"]);
  ("createComponent", ["@solidjs/web"]);
  ("createFrame", ["@solidjs/web/frames"; "@solidjs/web/frames/client"]);
  ("createFrameElement", ["@solidjs/web/frames"; "@solidjs/web/frames/client"]);
  ("createFrameHost", ["@solidjs/web/frames"; "@solidjs/web/frames/client"]);
  ("createFrameSink", ["@solidjs/web/frames"; "@solidjs/web/frames/server"]);
  ("createHydrationSerializer", ["@solidjs/web/serialization"]);
  ("createJSONDataTable", ["@solidjs/web/serialization"; "@solidjs/web/serialization/decode"]);
  ("createJSONDeserializer", ["@solidjs/web/serialization"; "@solidjs/web/serialization/decode"]);
  ("createJSONSerializer", ["@solidjs/web/serialization"]);
  ("createNoJSHandler", ["@solidjs/web/server-functions"; "@solidjs/web/server-functions/server"]);
  ("createPlugin", ["@solidjs/web/serialization"]);
  ("createRequestEvent", ["@solidjs/web"]);
  ("createResponseStub", ["@solidjs/web"]);
  ("createSSRResponse", ["@solidjs/web"]);
  ("createSerializer", ["@solidjs/web/serialization"]);
  ("createServerComponentHandler", ["@solidjs/web/frames"; "@solidjs/web/frames/client"]);
  ("createServerReference", ["@solidjs/web/server-functions"; "@solidjs/web/server-functions/client"; "@solidjs/web/server-functions/server"]);
  ("decodeErrorHeaderValue", ["@solidjs/web/server-functions"; "@solidjs/web/server-functions/client"; "@solidjs/web/server-functions/server"]);
  ("decodeFlashCookie", ["@solidjs/web/server-functions"; "@solidjs/web/server-functions/server"]);
  ("decodeResponse", ["@solidjs/web/server-functions"; "@solidjs/web/server-functions/client"; "@solidjs/web/server-functions/server"]);
  ("decodeResponsePayload", ["@solidjs/web/server-functions"; "@solidjs/web/server-functions/client"; "@solidjs/web/server-functions/server"]);
  ("delegateEvents", ["@solidjs/web"]);
  ("deserializeStream", ["@solidjs/web/server-functions"; "@solidjs/web/server-functions/client"]);
  ("dispatchAsInteraction", ["@solidjs/web"]);
  ("dynamic", ["@solidjs/web"]);
  ("dynamicComponent", ["@solidjs/web"]);
  ("dynamicProperty", ["@solidjs/web"]);
  ("effect", ["@solidjs/web"]);
  ("enableRichArguments", ["@solidjs/web/server-functions/rich-args"]);
  ("encodeErrorHeaderValue", ["@solidjs/web/server-functions"; "@solidjs/web/server-functions/client"; "@solidjs/web/server-functions/server"]);
  ("encodeFlashCookie", ["@solidjs/web/server-functions"; "@solidjs/web/server-functions/server"]);
  ("escape", ["@solidjs/web"]);
  ("foldSetCookies", ["@solidjs/web/server-functions"; "@solidjs/web/server-functions/server"]);
  ("frameAddress", ["@solidjs/web/server-functions"; "@solidjs/web/server-functions/client"]);
  ("frameTransformDirectResult", ["@solidjs/web/frames"; "@solidjs/web/frames/server"]);
  ("frameTransformFlightResult", ["@solidjs/web/frames"; "@solidjs/web/frames/server"]);
  ("frameTransformResult", ["@solidjs/web/frames"; "@solidjs/web/frames/server"]);
  ("generateHydrationScript", ["@solidjs/web"]);
  ("getDelegatedRoot", ["@solidjs/web"]);
  ("getEventServerFunctionInvocation", ["@solidjs/web/server-functions"; "@solidjs/web/server-functions/server"]);
  ("getExpectedRedirectStatus", ["@solidjs/web"]);
  ("getFlightDataConsumer", ["@solidjs/web/server-functions"; "@solidjs/web/server-functions/client"]);
  ("getFrameHost", ["@solidjs/web/frames"; "@solidjs/web/frames/client"]);
  ("getHydrationKey", ["@solidjs/web"]);
  ("getLocalHeaderScript", ["@solidjs/web/serialization"]);
  ("getNextElement", ["@solidjs/web"]);
  ("getNextMarker", ["@solidjs/web"]);
  ("getNextMatch", ["@solidjs/web"]);
  ("getOwner", ["@solidjs/web"]);
  ("getRequestEvent", ["@solidjs/web"]);
  ("getServerFunction", ["@solidjs/web/server-functions"; "@solidjs/web/server-functions/server"]);
  ("getServerFunctionInvocation", ["@solidjs/web/server-functions"; "@solidjs/web/server-functions/client"; "@solidjs/web/server-functions/server"]);
  ("getServerFunctionMetadata", ["@solidjs/web"; "@solidjs/web/server-functions"; "@solidjs/web/server-functions/client"; "@solidjs/web/server-functions/server"]);
  ("getServerFunctionRPC", ["@solidjs/web"]);
  ("getServerFunctionsCodec", ["@solidjs/web/server-functions"; "@solidjs/web/server-functions/client"]);
  ("handleServerFunctionRequest", ["@solidjs/web/server-functions"; "@solidjs/web/server-functions/server"]);
  ("hasFlashCookie", ["@solidjs/web"; "@solidjs/web/server-functions"; "@solidjs/web/server-functions/client"; "@solidjs/web/server-functions/server"]);
  ("hasServerLinkState", ["@solidjs/web"]);
  ("httpHeader", ["@solidjs/web"]);
  ("httpStatus", ["@solidjs/web"]);
  ("hydrate", ["@solidjs/web"]);
  ("insert", ["@solidjs/web"]);
  ("installServerComponentHydration", ["@solidjs/web"]);
  ("installServerComponents", ["@solidjs/web/frames"; "@solidjs/web/frames/client"]);
  ("isDev", ["@solidjs/web"]);
  ("isFrameStreamResponse", ["@solidjs/web/frames"; "@solidjs/web/frames/client"; "@solidjs/web/frames/server"]);
  ("isHref", ["@solidjs/web"]);
  ("isResponseEnvelope", ["@solidjs/web"]);
  ("isSafeError", ["@solidjs/web"]);
  ("isServer", ["@solidjs/web"]);
  ("isServerFunction", ["@solidjs/web"; "@solidjs/web/server-functions"; "@solidjs/web/server-functions/client"; "@solidjs/web/server-functions/server"]);
  ("markSafeError", ["@solidjs/web"]);
  ("memo", ["@solidjs/web"]);
  ("mergeProps", ["@solidjs/web"]);
  ("parseCookieHeader", ["@solidjs/web"]);
  ("provideRequestEvent", ["@solidjs/web/storage"]);
  ("redirect", ["@solidjs/web"]);
  ("ref", ["@solidjs/web"]);
  ("registerDelegatedContainer", ["@solidjs/web"]);
  ("registerDelegatedRoot", ["@solidjs/web"]);
  ("registerElementClaim", ["@solidjs/web"]);
  ("registerServerFunction", ["@solidjs/web/server-functions"; "@solidjs/web/server-functions/server"]);
  ("registerServerReference", ["@solidjs/web/server-functions"; "@solidjs/web/server-functions/client"; "@solidjs/web/server-functions/server"]);
  ("reload", ["@solidjs/web"]);
  ("render", ["@solidjs/web"]);
  ("renderServerComponent", ["@solidjs/web/frames"; "@solidjs/web/frames/server"]);
  ("renderToFrameStream", ["@solidjs/web/frames"; "@solidjs/web/frames/server"]);
  ("renderToStream", ["@solidjs/web"]);
  ("renderToString", ["@solidjs/web"]);
  ("resolveSSRNode", ["@solidjs/web"]);
  ("resolveSerializerPlugins", ["@solidjs/web/serialization"; "@solidjs/web/serialization/decode"]);
  ("respond", ["@solidjs/web"]);
  ("runHydrationEvents", ["@solidjs/web"]);
  ("sanitizeServerError", ["@solidjs/web/server-functions"; "@solidjs/web/server-functions/server"]);
  ("scope", ["@solidjs/web"]);
  ("serializeCookie", ["@solidjs/web"]);
  ("serializeJSON", ["@solidjs/web/serialization"]);
  ("serializeString", ["@solidjs/web/server-functions"; "@solidjs/web/server-functions/client"]);
  ("serverComponentResponse", ["@solidjs/web/frames"; "@solidjs/web/frames/server"]);
  ("setAttribute", ["@solidjs/web"]);
  ("setAttributeNS", ["@solidjs/web"]);
  ("setLinkClaim", ["@solidjs/web"]);
  ("setProperty", ["@solidjs/web"]);
  ("setServerFunctionsDev", ["@solidjs/web/server-functions"; "@solidjs/web/server-functions/server"]);
  ("setStatefulProperty", ["@solidjs/web"]);
  ("setStyleProperty", ["@solidjs/web"]);
  ("spread", ["@solidjs/web"]);
  ("ssr", ["@solidjs/web"]);
  ("ssrAttribute", ["@solidjs/web"]);
  ("ssrClassName", ["@solidjs/web"]);
  ("ssrElement", ["@solidjs/web"]);
  ("ssrGroup", ["@solidjs/web"]);
  ("ssrHydrationKey", ["@solidjs/web"]);
  ("ssrStyle", ["@solidjs/web"]);
  ("ssrStyleProperty", ["@solidjs/web"]);
  ("style", ["@solidjs/web"]);
  ("subscribeFlightData", ["@solidjs/web/server-functions"; "@solidjs/web/server-functions/client"; "@solidjs/web/server-functions/server"]);
  ("template", ["@solidjs/web"]);
  ("unregisterDelegatedContainer", ["@solidjs/web"]);
  ("unregisterDelegatedRoot", ["@solidjs/web"]);
  ("untrack", ["@solidjs/web"]);
  ("useHead", ["@solidjs/web"]);
  ("warmAsset", ["@solidjs/web"]);
  ("withMeta", ["@solidjs/web/server-functions"; "@solidjs/web/server-functions/client"; "@solidjs/web/server-functions/server"])].

(** [solid_v2_solidjs_web::TYPES]. *)
Definition solidjs_web_TYPES : ExportTable := [
  ("AssetDescriptor", ["@solidjs/web"]);
  ("AssetEntry", ["@solidjs/web"]);
  ("AssetManifest", ["@solidjs/web"]);
  ("AssetResolver", ["@solidjs/web"]);
  ("AssetResolverFn", ["@solidjs/web"]);
  ("AsyncParsePluginContext", ["@solidjs/web/serialization"; "@solidjs/web/serialization/decode"]);
  ("ClassValue", ["@solidjs/web/jsx-dev-runtime"; "@solidjs/web/jsx-runtime"]);
  ("CollectFlightDataHook", ["@solidjs/web/server-functions"; "@solidjs/web/server-functions/server"]);
  ("ComponentProps", ["@solidjs/web"]);
  ("CookieOptions", ["@solidjs/web"]);
  ("DeserializePluginContext", ["@solidjs/web/serialization"; "@solidjs/web/serialization/decode"]);
  ("DynamicProps", ["@solidjs/web"]);
  ("ElementClaimOptions", ["@solidjs/web"]);
  ("ExclusiveAssetDescriptor", ["@solidjs/web"]);
  ("FetchMiddleware", ["@solidjs/web"]);
  ("FlashSubmission", ["@solidjs/web/server-functions"; "@solidjs/web/server-functions/server"]);
  ("FlightDataConsumer", ["@solidjs/web/server-functions"; "@solidjs/web/server-functions/client"; "@solidjs/web/server-functions/server"]);
  ("FlightDataContext", ["@solidjs/web/server-functions"; "@solidjs/web/server-functions/client"; "@solidjs/web/server-functions/server"]);
  ("HandleServerFunctionOptions", ["@solidjs/web/server-functions"; "@solidjs/web/server-functions/server"]);
  ("HeadTag", ["@solidjs/web"]);
  ("Href", ["@solidjs/web"]);
  ("HydrationSerializerOptions", ["@solidjs/web/serialization"]);
  ("InlineStyleAsset", ["@solidjs/web"]);
  ("IntrinsicElement", ["@solidjs/web"]);
  ("JSONCodecOptions", ["@solidjs/web/serialization"; "@solidjs/web/serialization/decode"]);
  ("JSONDataTable", ["@solidjs/web/serialization"; "@solidjs/web/serialization/decode"]);
  ("JSONSerializeOptions", ["@solidjs/web/serialization"]);
  ("JSONSerializerOptions", ["@solidjs/web/serialization"]);
  ("JSX", ["@solidjs/web"; "@solidjs/web/jsx-dev-runtime"; "@solidjs/web/jsx-runtime"]);
  ("LinkClaimHandler", ["@solidjs/web"]);
  ("NoJSHandlerOptions", ["@solidjs/web/server-functions"; "@solidjs/web/server-functions/server"]);
  ("PluginData", ["@solidjs/web/serialization"; "@solidjs/web/serialization/decode"]);
  ("PluginInfo", ["@solidjs/web/serialization"; "@solidjs/web/serialization/decode"]);
  ("PrepareRequestContext", ["@solidjs/web/server-functions"; "@solidjs/web/server-functions/client"]);
  ("PrepareRequestHook", ["@solidjs/web/server-functions"; "@solidjs/web/server-functions/client"]);
  ("RequestEvent", ["@solidjs/web"]);
  ("RequestEventLocals", ["@solidjs/web"]);
  ("ResolvedAssets", ["@solidjs/web"]);
  ("ResponseHelperInit", ["@solidjs/web"]);
  ("ResponseStub", ["@solidjs/web"]);
  ("SerializePluginContext", ["@solidjs/web/serialization"; "@solidjs/web/serialization/decode"]);
  ("SerializerPlugin", ["@solidjs/web/serialization"; "@solidjs/web/serialization/decode"]);
  ("SerovalNode", ["@solidjs/web/serialization"; "@solidjs/web/serialization/decode"]);
  ("ServerFunction", ["@solidjs/web"; "@solidjs/web/server-functions"; "@solidjs/web/server-functions/client"; "@solidjs/web/server-functions/server"]);
  ("ServerFunctionEvent", ["@solidjs/web/server-functions"; "@solidjs/web/server-functions/server"]);
  ("ServerFunctionInvocation", ["@solidjs/web/server-functions"; "@solidjs/web/server-functions/client"; "@solidjs/web/server-functions/server"]);
  ("ServerFunctionMetadata", ["@solidjs/web"; "@solidjs/web/server-functions"; "@solidjs/web/server-functions/client"; "@solidjs/web/server-functions/server"]);
  ("ServerFunctionOutcome", ["@solidjs/web/server-functions"; "@solidjs/web/server-functions/server"]);
  ("ServerFunctionRPC", ["@solidjs/web"]);
  ("ServerFunctionReference", ["@solidjs/web/server-functions"; "@solidjs/web/server-functions/server"]);
  ("ServerFunctionsClientConfig", ["@solidjs/web/server-functions"; "@solidjs/web/server-functions/client"]);
  ("ServerFunctionsServerConfig", ["@solidjs/web/server-functions"; "@solidjs/web/server-functions/server"]);
  ("SingleFlightPayload", ["@solidjs/web/server-functions"; "@solidjs/web/server-functions/client"; "@solidjs/web/server-functions/server"]);
  ("Slot", ["@solidjs/web/frames"; "@solidjs/web/frames/client"; "@solidjs/web/frames/server"]);
  ("StreamParsePluginContext", ["@solidjs/web/serialization"; "@solidjs/web/serialization/decode"]);
  ("SyncParsePluginContext", ["@solidjs/web/serialization"; "@solidjs/web/serialization/decode"]);
  ("ValidComponent", ["@solidjs/web"]);
  ("WebSerializerOptions", ["@solidjs/web/serialization"]);
  ("WrapInvocationHook", ["@solidjs/web/server-functions"; "@solidjs/web/server-functions/server"])].

(** ** The search is the scan *)

Definition scan (table : ExportTable) (name : string) : list string :=
  from_option snd [] (find (λ '(candidate, _), (candidate =? name)%string) table).

Definition table_sorted (table : ExportTable) : Prop :=
  StronglySorted (λ a b, String.compare a b = Lt) table.*1.

Lemma sorted_lt (l : list string) i j x y :
  StronglySorted (λ a b, String.compare a b = Lt) l → (i < j)%nat →
  l !! i = Some x → l !! j = Some y → String.compare x y = Lt.
Proof.
  intros Hl. revert i j. induction Hl as [|a l _ IH Ha]; intros i j Hij Hi Hj; [done|].
  destruct j as [|j]; [lia|]. simpl in Hj. destruct i as [|i]; simpl in Hi.
  - simplify_eq. rewrite Forall_forall in Ha. apply Ha. by eapply list_elem_of_lookup_2.
  - apply (IH i j); [lia|done..].
Qed.

Section search.
Context (table : ExportTable) (Hs : table_sorted table) (name : string).

Lemma row_lt i j (p q : string * list string) :
  (i < j)%nat → table !! i = Some p → table !! j = Some q → String.compare p.1 q.1 = Lt.
Proof.
  intros Hij Hi Hj. apply (sorted_lt _ i j p.1 q.1 Hs Hij).
  - by rewrite list_lookup_fmap, Hi.
  - by rewrite list_lookup_fmap, Hj.
Qed.

(** The window always holds the row of the name, when there is one. *)
Lemma search_rounds_spec fuel base size :
  (size ≤ fuel)%nat → (0 < size)%nat → (base + size ≤ List.length table)%nat →
  (∀ i ms, table !! i = Some (name, ms) → base ≤ i < base + size)%nat →
  ∃ r, search_rounds fuel table name base size = Some r ∧ (r < List.length table)%nat ∧
    ∀ i ms, table !! i = Some (name, ms) → i = r.
Proof.
  revert base size. induction fuel as [|fuel IH]; intros base size Hf Hsz Hlen Hin; [lia|].
  cbn [search_rounds]. case_bool_decide as Hone.
  { exists base. split; [done|]. split; [lia|]. intros i ms Hi. specialize (Hin i ms Hi). lia. }
  assert (Hhalf : (2 * Nat.div2 size ≤ size)%nat).
  { pose proof (Nat.div2_odd size) as Ho. revert Ho. generalize (Nat.div2 size). lia. }
  assert (Hpos : (0 < Nat.div2 size)%nat) by (destruct size as [|[|n]]; [lia|lia|]; change (0 < S (Nat.div2 n))%nat; apply Nat.lt_0_succ).
  revert Hhalf Hpos. generalize (Nat.div2 size). intros half Hhalf Hpos.
  destruct (lookup_lt_is_Some_2 table (base + half)) as [[c ms'] Hc]; [lia|].
  rewrite Hc. simpl.
  destruct (String.compare c name) eqn:E; (apply IH; [lia|lia|lia|]); intros i ms Hi;
    specialize (Hin i ms Hi); split; try lia.
  - apply String.compare_eq_iff in E. subst c.
    destruct (Nat.lt_trichotomy i (base + half)) as [Hlt|[Heq|Hgt]]; [|lia|lia].
    pose proof (row_lt _ _ _ _ Hlt Hi Hc) as Hr. simpl in Hr.
    by rewrite (proj2 (cmp_eq _ string_cmp_order name name) eq_refl) in Hr.
  - destruct (Nat.lt_ge_cases i (base + half)) as [Hlt|]; [|lia].
    pose proof (row_lt _ _ _ _ Hlt Hi Hc) as Hr. simpl in Hr.
    rewrite (cmp_sym _ string_cmp_order), E in Hr. done.
  - destruct (Nat.lt_ge_cases i (base + half)) as [|Hge]; [lia|].
    destruct (decide (i = base + half)%nat) as [->|].
    + rewrite Hi in Hc. simplify_eq.
      by rewrite (proj2 (cmp_eq _ string_cmp_order c c) eq_refl) in E.
    + pose proof (row_lt _ _ _ _ (ltac:(lia) : (base + half < i)%nat) Hc Hi) as Hr.
      simpl in Hr. congruence.
Qed.

Lemma binary_search_spec :
  ∃ r, binary_search table name = Some r ∧
    match r with
    | Some i => ∃ ms, table !! i = Some (name, ms)
    | None => name ∉ table.*1
    end.
Proof.
  unfold binary_search. case_bool_decide as Hn.
  { exists None. split; [done|]. subst. set_solver. }
  assert (Hlen : (0 < List.length table)%nat) by (destruct table; [done|simpl; lia]).
  destruct (search_rounds_spec (List.length table) 0 (List.length table)) as (r & -> & Hr & Hu);
    [lia|lia|lia|intros i ms Hi; apply lookup_lt_Some in Hi; lia|]. simpl.
  destruct (lookup_lt_is_Some_2 table r Hr) as [[c ms] Hc]. rewrite Hc. simpl.
  eexists. split; [done|]. destruct (String.compare c name) eqn:E.
  - apply String.compare_eq_iff in E. subst. eauto.
  - intros (i & Hi)%list_elem_of_lookup. apply list_lookup_fmap_Some in Hi as ([n ms2] & Hn2 & Hi).
    simpl in Hn2. subst n. rewrite (Hu _ _ Hi), Hc in Hi. simplify_eq.
    by rewrite (proj2 (cmp_eq _ string_cmp_order name name) eq_refl) in E.
  - intros (i & Hi)%list_elem_of_lookup. apply list_lookup_fmap_Some in Hi as ([n ms2] & Hn2 & Hi).
    simpl in Hn2. subst n. rewrite (Hu _ _ Hi), Hc in Hi. simplify_eq.
    by rewrite (proj2 (cmp_eq _ string_cmp_order name name) eq_refl) in E.
Qed.

Lemma scan_first i ms : table !! i = Some (name, ms) → scan table name = ms.
Proof.
  unfold scan. clear -Hs. unfold table_sorted in Hs. revert i Hs.
  induction table as [|[n ns] t IH]; intros i Hs Hi; [done|]. simpl.
  inversion Hs as [|? ? Hs' Ha]; subst. destruct i as [|i]; simpl in Hi.
  - simplify_eq. by rewrite String.eqb_refl.
  - destruct (n =? name)%string eqn:E; [|by apply (IH i)]. apply String.eqb_eq in E. subst n.
    rewrite Forall_forall in Ha. specialize (Ha name). simpl in Ha.
    rewrite (proj2 (cmp_eq _ string_cmp_order name name) eq_refl) in Ha.
    discriminate Ha. apply list_elem_of_fmap. exists (name, ms). split; [done|].
    by eapply list_elem_of_lookup_2.
Qed.

Lemma scan_absent : name ∉ table.*1 → scan table name = [].
Proof.
  unfold scan. clear Hs. induction table as [|[n ns] t IH]; intros Hn; [done|]. simpl.
  destruct (n =? name)%string eqn:E.
  - apply String.eqb_eq in E. subst n. set_solver.
  - apply IH. set_solver.
Qed.

(** The lookup is the scan of the table. *)
Lemma export_lookup_scan : export_lookup table name = Some (scan table name).
Proof.
  unfold export_lookup. destruct binary_search_spec as ([i|] & -> & Hr); simpl.
  - destruct Hr as [ms Hi]. rewrite Hi. simpl. by rewrite (scan_first _ _ Hi).
  - by rewrite scan_absent.
Qed.

End search.

#[export] Instance string_lt_dec (a b : string) : Decision (String.compare a b = Lt) := decide _.

(** A table is sorted when each row is below the next. *)
Fixpoint rows_increasing (l : list string) : bool :=
  match l with
  | a :: (b :: _) as l' => bool_decide (String.compare a b = Lt) && rows_increasing l'
  | _ => true
  end.

Lemma rows_increasing_sorted l :
  rows_increasing l = true → StronglySorted (λ a b, String.compare a b = Lt) l.
Proof.
  intros Hl. apply Sorted_StronglySorted.
  { intros a b c. apply (cmp_trans _ string_cmp_order). }
  induction l as [|a l IH]; [constructor|]. destruct l as [|b l]; [repeat constructor|].
  cbn [rows_increasing] in Hl. apply andb_true_iff in Hl as [Hab Hl].
  constructor; [by apply IH|]. constructor. by apply bool_decide_eq_true in Hab.
Qed.

Lemma tables_sorted :
  table_sorted solid_js_VALUES ∧ table_sorted solid_js_TYPES ∧
  table_sorted solidjs_web_VALUES ∧ table_sorted solidjs_web_TYPES.
Proof. split_and!; apply rows_increasing_sorted; by vm_compute. Qed.

Lemma modules_scan values types name position :
  table_sorted values → table_sorted types →
  modules values types name position = Some
    (if bool_decide (position = Position.Ty) then push_new (scan values name) (scan types name)
     else scan values name).
Proof.
  intros Hv Ht. unfold modules. rewrite !export_lookup_scan by done. simpl.
  by case_bool_decide.
Qed.

Lemma elem_of_push_new found ms m : m ∈ push_new found ms ↔ m ∈ found ∨ m ∈ ms.
Proof.
  unfold push_new. revert found. induction ms as [|x ms IH]; intros found; simpl; [set_solver|].
  rewrite IH. case_bool_decide; set_solver.
Qed.

Lemma push_new_NoDup found ms : NoDup found → NoDup (push_new found ms).
Proof.
  unfold push_new. revert found. induction ms as [|x ms IH]; intros found Hf; simpl; [done|].
  apply IH. case_bool_decide; [done|]. apply NoDup_app. split; [done|].
  split; [set_solver|]. apply NoDup_singleton.
Qed.
