(* ===== verification/Solid2.v ===== *)
(** * The Solid 2 dialect

    Model of [solid-dialect/src/solid_2.rs]: the answers [Solid2] gives as a
    [Dialect], one definition per method, with the trait's default methods it
    keeps ([dialect.rs]) and the name tables. Answers that depend on the
    installed release read the vocabulary's fields ([Releases.Solid2]). *)
From stdpp Require Import strings.
From S2P Require Import Prelude Text Vocabulary Releases Exports.
Open Scope string_scope.
Open Scope nat_scope.

(** ** Names *)

(** [TABLE]. *)
Definition TABLE : list (string * Primitive) := [
  ("action", Primitive.Action);
  ("affects", Primitive.Affects);
  ("children", Primitive.Children);
  ("clientOnly", Primitive.ClientOnly);
  ("createContext", Primitive.CreateContext);
  ("createDeferred", Primitive.CreateDeferred);
  ("createEffect", Primitive.CreateEffect);
  ("createErrorBoundary", Primitive.CreateErrorBoundary);
  ("createLoadingBoundary", Primitive.CreateLoadingBoundary);
  ("createMemo", Primitive.CreateMemo);
  ("createOptimistic", Primitive.CreateOptimistic);
  ("createOptimisticStore", Primitive.CreateOptimisticStore);
  ("createOwner", Primitive.CreateOwner);
  ("createProjection", Primitive.CreateProjection);
  ("createReaction", Primitive.CreateReaction);
  ("createRenderEffect", Primitive.CreateRenderEffect);
  ("createRevealOrder", Primitive.CreateRevealOrder);
  ("createRoot", Primitive.CreateRoot);
  ("createSignal", Primitive.CreateSignal);
  ("createStore", Primitive.CreateStore);
  ("createTrackedEffect", Primitive.CreateTrackedEffect);
  ("deep", Primitive.Deep);
  ("dispatchAsInteraction", Primitive.DispatchAsInteraction);
  ("dynamic", Primitive.Dynamic);
  ("dynamicComponent", Primitive.DynamicComponent);
  ("Errored", Primitive.Errored);
  ("flush", Primitive.Flush);
  ("For", Primitive.For);
  ("getOwner", Primitive.GetOwner);
  ("httpHeader", Primitive.HttpHeader);
  ("httpStatus", Primitive.HttpStatus);
  ("hydrate", Primitive.Hydrate);
  ("isPending", Primitive.IsPending);
  ("latest", Primitive.Latest);
  ("lazy", Primitive.Lazy);
  ("lazyModule", Primitive.LazyModule);
  ("Loading", Primitive.Loading);
  ("mapArray", Primitive.MapArray);
  ("Match", Primitive.Match);
  ("merge", Primitive.Merge);
  ("omit", Primitive.Omit);
  ("onCleanup", Primitive.OnCleanup);
  ("onHydrationEnd", Primitive.OnHydrationEnd);
  ("onSettled", Primitive.OnSettled);
  ("reconcile", Primitive.Reconcile);
  ("refresh", Primitive.Refresh);
  ("render", Primitive.Render);
  ("Repeat", Primitive.Repeat);
  ("repeat", Primitive.RepeatMap);
  ("resolve", Primitive.Resolve);
  ("runWithOwner", Primitive.RunWithOwner);
  ("Show", Primitive.Show);
  ("snapshot", Primitive.Snapshot);
  ("Switch", Primitive.Switch);
  ("until", Primitive.Until);
  ("untrack", Primitive.Untrack);
  ("useContext", Primitive.UseContext);
  ("useHead", Primitive.UseHead)].

(** [NameIndex] and [crate::lookup]: a map collected from the rows, so a later
    row of the same name wins. *)
Definition name_index (tables : list (list (string * Primitive))) : gmap string Primitive :=
  foldl (λ m '(name, p), <[name := p]> m) ∅ (List.concat tables).

Definition lookup (tables : list (list (string * Primitive))) (name : string) : option Primitive :=
  name_index tables !! name.

(** [crate::reverse]: the first row of the primitive. *)
Definition reverse (table : list (string * Primitive)) (p : Primitive) : option string :=
  fst <$> find (λ '(_, candidate), bool_decide (candidate = p)) table.

Definition primitive (self : Solid2) (name : string) : option Primitive :=
  p ← lookup [TABLE] name; if exports self p then Some p else None.

Definition name_of (self : Solid2) (p : Primitive) : option string :=
  match p with
  | Primitive.DynamicStatic | Primitive.DynamicUnknownForm => Some "dynamic"
  | _ => if negb (exports self p) then None else reverse TABLE p
  end.

(** ** Call forms *)

Definition dynamic_component_form (self : Solid2) (option : nat → string → OptionLiteral)
  : Primitive :=
  if negb (rc17_callback_exports self) then Primitive.DynamicComponent
  else if negb (bool_decide (option 2 EmptyString = OptionLiteral.Absent))
  then Primitive.DynamicUnknownForm
  else match option 1 "static" with
       | OptionLiteral.Absent | OptionLiteral.False => Primitive.Dynamic
       | OptionLiteral.True => Primitive.DynamicStatic
       | OptionLiteral.Unknown => Primitive.DynamicUnknownForm
       end.

Definition call_form (self : Solid2) (p : Primitive) (option : nat → string → OptionLiteral)
  : Primitive :=
  if bool_decide (p = Primitive.DynamicComponent) then dynamic_component_form self option
  else if negb (bool_decide (p = Primitive.Dynamic)) then p
  else match dynamic_options self, option 1 "static" with
       | DynamicOptions.Ignored, _
       | _, (OptionLiteral.Absent | OptionLiteral.False) => Primitive.Dynamic
       | DynamicOptions.StaticForm, OptionLiteral.True => Primitive.DynamicStatic
       | DynamicOptions.StaticForm, OptionLiteral.Unknown
       | DynamicOptions.Unread, (OptionLiteral.True | OptionLiteral.Unknown) =>
           Primitive.DynamicUnknownForm
       end.

(** ** Attributes, hosts and packages *)

(** Byte 2 of a name that starts with [on]. *)
Definition on_uppercase (name : string) : bool :=
  match strip_prefix "on" name with
  | Some (String c _) => is_uppercase c
  | _ => false
  end.

Definition compiler_lowers_event_attribute (name : string) : bool := on_uppercase name.

Definition spread_key_is_event (self : Solid2) (key : string) : option bool :=
  match spread_event_keys self with
  | SpreadEventKeys.Unaudited => None
  | SpreadEventKeys.AnyOn => Some (starts_with "on" key && negb (contains_char ":" key))
  | SpreadEventKeys.OnUppercase => Some (negb (contains_char ":" key) && on_uppercase key)
  end.

Definition document_dispatch_reaches_no_element_handler (self : Solid2) : bool :=
  match spread_event_keys self with SpreadEventKeys.OnUppercase => true | _ => false end.

(** [HostBooleanExport]. *)
Record HostBooleanExport := mk_host_boolean {
  hb_module : string;
  hb_export : string;
  hb_version : string;
  hb_client : bool;
  hb_server : bool;
  hb_runtime_targets : list string
}.

Definition host_boolean_exports : list HostBooleanExport :=
  let targets := ["dist/web.js"; "dist/web.dev.js"; "dist/web.observe.js"; "dist/server.js";
    "dist/server.dev.js"; "dist/server.observe.js"] in
  [mk_host_boolean "@solidjs/web" "isServer" "2.0.0-rc.13" false true targets;
   mk_host_boolean "@solidjs/web" "isServer" "2.0.0-rc.17" false true targets].

Definition callback_handles_pending_accessor_read (self : Solid2) (p : Primitive) (index : nat)
  : bool :=
  (index =? 0) &&
  (bool_decide (p = Primitive.IsPending) ||
   (bool_decide (p = Primitive.Latest) && negb (latest_rejects_pending_read self))).

Definition version : Version := Version.V2.

Definition direct_jsx_return_is_component : bool := true.

(** [modules]: every specifier the dialect owns. *)
Definition dialect_modules : list string :=
  ["solid-js"; "solid-js/internal"; "solid-js/refresh"; "@solidjs/web";
   "@solidjs/web/frames"; "@solidjs/web/frames/client"; "@solidjs/web/frames/server";
   "@solidjs/web/jsx-dev-runtime"; "@solidjs/web/jsx-runtime"; "@solidjs/web/serialization";
   "@solidjs/web/serialization/decode"; "@solidjs/web/server-functions";
   "@solidjs/web/server-functions/client"; "@solidjs/web/server-functions/rich-args";
   "@solidjs/web/server-functions/server"; "@solidjs/web/storage"].

Definition primitive_defining_packages : list string := ["solid-js"; "@solidjs/signals"; "@solidjs/web"].

Definition ecosystem_scopes : list string := ["@solidjs/"].

(** ** Callback positions and scheduling *)

Definition callback_positions (p : Primitive) : list nat :=
  match p with
  | Primitive.CreateEffect | Primitive.CreateRenderEffect | Primitive.RunWithOwner
  | Primitive.DispatchAsInteraction => [1]
  | Primitive.CreateErrorBoundary | Primitive.CreateLoadingBoundary => [0; 1]
  | Primitive.RepeatMap | Primitive.MapArray => [1]
  | Primitive.CreateMemo | Primitive.CreateDeferred | Primitive.CreateTrackedEffect
  | Primitive.CreateSignal | Primitive.CreateStore | Primitive.CreateProjection
  | Primitive.CreateOptimistic | Primitive.CreateOptimisticStore | Primitive.Dynamic
  | Primitive.LazyModule | Primitive.OnHydrationEnd | Primitive.DynamicStatic
  | Primitive.DynamicUnknownForm | Primitive.ClientOnly | Primitive.Flush | Primitive.Untrack
  | Primitive.OnSettled | Primitive.CreateReaction | Primitive.Action | Primitive.Latest
  | Primitive.IsPending | Primitive.Resolve | Primitive.Until | Primitive.Lazy
  | Primitive.UseHead | Primitive.Children | Primitive.CreateRevealOrder => [0]
  | _ => []
  end.

Definition runs_callback_deferred (p : Primitive) : bool :=
  match p with
  | Primitive.CreateRoot | Primitive.CreateRevealOrder | Primitive.Untrack | Primitive.OnSettled
  | Primitive.CreateReaction | Primitive.Action | Primitive.ClientOnly | Primitive.RunWithOwner
  | Primitive.Resolve | Primitive.Until | Primitive.Lazy | Primitive.LazyModule
  | Primitive.OnHydrationEnd | Primitive.DynamicStatic => true
  | _ => false
  end.

Definition leaf_scopes_allow_writes : bool := true.

Definition callback_preserves_owner_write_context (p : Primitive) : bool :=
  match p with
  | Primitive.Untrack | Primitive.DynamicStatic | Primitive.Flush
  | Primitive.DispatchAsInteraction => true
  | _ => false
  end.

(** ** Disposal *)

(** [self.disposal_write_guard == StandsDown]: the signals release read is rc.17. *)
Definition stands_down (self : Solid2) : bool :=
  bool_decide (disposal_write_guard self = WriteGuardInDisposal.StandsDown).

Definition callback_runs_only_in_disposal (p : Primitive) (argument : nat) : bool :=
  bool_decide (p = Primitive.OnCleanup) && (argument =? 0).

Definition disposal_callback_returned (self : Solid2) (p : Primitive) (argument : nat)
  : DisposalCallbackReturn :=
  if bool_decide (p = Primitive.OnCleanup) && (argument =? 0) && stands_down self
  then DisposalCallbackReturn.Returned else DisposalCallbackReturn.Unknown.

Definition returned_cleanup_runs_outside_disposal (p : Primitive) (argument : nat) : bool :=
  match p, argument with
  | (Primitive.CreateEffect | Primitive.CreateRenderEffect), 1
  | Primitive.CreateTrackedEffect, 0 => true
  | _, _ => false
  end.

Definition returned_cleanup_reruns_in_read_window (p : Primitive) (argument : nat) : bool :=
  match p, argument with
  | (Primitive.CreateEffect | Primitive.CreateRenderEffect), 1 => true
  | _, _ => false
  end.

Definition write_guard_in_disposal (self : Solid2) : WriteGuardInDisposal :=
  disposal_write_guard self.

(** ** Roots, drains and windows *)

Definition is_mount (p : Primitive) : bool :=
  match p with Primitive.Render | Primitive.Hydrate => true | _ => false end.

Definition callback_runs_in_created_root (self : Solid2) (p : Primitive) (argument : nat) : bool :=
  (argument =? 0) &&
  (bool_decide (p = Primitive.CreateRoot) || (render_creates_root self && is_mount p)).

Definition callback_runs_drained_by_flush (p : Primitive) (argument : nat) : bool :=
  match p, argument with
  | (Primitive.CreateEffect | Primitive.CreateRenderEffect), 1
  | (Primitive.CreateReaction | Primitive.OnSettled), 0 => true
  | _, _ => false
  end.

Definition callback_runs_as_created_computation (self : Solid2) (p : Primitive) (argument : nat)
  : bool :=
  (argument =? 0) &&
  match p with Primitive.Resolve | Primitive.Until => true | _ => false end && stands_down self.

Definition callback_root_is_unaudited (self : Solid2) (p : Primitive) (argument : nat) : bool :=
  (argument =? 0) && negb (render_creates_root self) && is_mount p.

Definition callback_inherits_calling_window (p : Primitive) (argument : nat) : bool :=
  match p, argument with
  | Primitive.CreateRoot, 0 | Primitive.RunWithOwner, 1 | Primitive.CreateRevealOrder, 0 => true
  | _, _ => false
  end.

Definition component_body_runs_under_root : bool := true.

Definition store_setter_guard_exempts_roots (self : Solid2) : bool :=
  bool_decide (store_setter_roots self = StoreSetterRootGuard.Exempt).

Definition optimistic_store_setter_guarded (self : Solid2) : bool :=
  bool_decide (optimistic_store_setter self = OptimisticStoreSetterGuard.Guarded).

Definition leaf_owner_requires_owned_call_site (p : Primitive) : bool :=
  bool_decide (p = Primitive.OnSettled).

Definition fresh_stack_callback_owner : option CallbackOwner := Some CallbackOwner.None.

Definition store_root_properties_are_readonly (self : Solid2) : bool :=
  bool_decide (store_root self = StoreRootTyping.Readonly).

(** ** Releases *)

Definition release_owners : list ReleaseOwner := OWNERS.

Definition router_params_are_url_strings (version : string) : bool :=
  bool_decide (version ∈ AUDITED_ROUTER_RELEASES).

Definition audited_router_releases : list string := AUDITED_ROUTER_RELEASES.

(** The digest audited for a version: the [find_map] over a table of pairs. *)
Definition find_digest (table : list (string * string)) (version : string) : option string :=
  snd <$> find (λ '(audited, _), (audited =? version)%string) table.

Definition audited_router_digest (version : string) : option string :=
  find_digest AUDITED_ROUTER_DIGESTS version.

Definition audited_route_config_digest (version : string) : option string :=
  find_digest AUDITED_ROUTE_CONFIG_DIGESTS version.

Definition audited_route_components (version : string) : option AuditedRouteRelease :=
  find (λ release, (rr_version release =? version)%string) AUDITED_ROUTE_RELEASES.

Definition audited_installation : list (string * string) := AUDITED_INSTALLATION.

Definition review_installation (installed : list InstalledRelease) : option InstallationReview :=
  review installed.

Definition dialect_variant_key (keys : KeyCache) (self : Solid2) : option (KeyCache * option string) :=
  key keys self.

Definition variant_by_key (keys : KeyCache) (k : string) : option (KeyCache * option Solid2) :=
  of_key keys k.

(** The outer [None] is a panic. *)
Definition defaulted_vocabulary : option Solid2 := interned DEFAULTED.

(** ** Stores and components *)

Definition store_setter_callback_enables_proxy_writes : bool := true.

Definition store_key_warns_strict_read (self : Solid2) (key : string) : bool :=
  store_strict_keys_audited self && negb (key =? "then")%string.

Definition store_key_may_skip_strict_read (key : string) : bool := (key =? "then")%string.

Definition props_require_caller_proof : bool := true.
Definition reports_member_reads_after_await : bool := true.
Definition models_server_functions : bool := true.

Definition boundary_kind (tag : string) : option Boundary :=
  if (tag =? "Loading")%string then Some Boundary.Async
  else if (tag =? "Errored")%string then Some Boundary.Error
  else None.

Definition boundary_name (boundary : Boundary) : string :=
  match boundary with Boundary.Async => "Loading" | Boundary.Error => "Errored" end.

(** ** Callback owners *)

Definition callback_owners (p : Primitive) : list (nat * CallbackOwner) :=
  match p with
  | Primitive.CreateRoot | Primitive.CreateMemo | Primitive.CreateDeferred
  | Primitive.CreateSignal | Primitive.CreateStore | Primitive.CreateProjection
  | Primitive.CreateOptimistic | Primitive.CreateOptimisticStore | Primitive.Children
  | Primitive.Resolve => [(0, CallbackOwner.Creates)]
  | Primitive.Until => [(0, CallbackOwner.Creates)]
  | Primitive.RunWithOwner => [(1, CallbackOwner.Conditional)]
  | Primitive.CreateRevealOrder => [(0, CallbackOwner.Creates)]
  | Primitive.Lazy => [(0, CallbackOwner.Inherits)]
  | Primitive.LazyModule => [(0, CallbackOwner.Inherits)]
  | Primitive.OnHydrationEnd => [(0, CallbackOwner.Conditional)]
  | Primitive.CreateErrorBoundary | Primitive.CreateLoadingBoundary =>
      [(0, CallbackOwner.Creates); (1, CallbackOwner.Creates)]
  | Primitive.CreateEffect => [(0, CallbackOwner.Creates); (1, CallbackOwner.None)]
  | Primitive.CreateRenderEffect =>
      [(0, CallbackOwner.Creates); (1, CallbackOwner.InheritsFirstRun)]
  | Primitive.CreateTrackedEffect | Primitive.OnSettled => [(0, CallbackOwner.Leaf)]
  | Primitive.CreateReaction => [(0, CallbackOwner.None)]
  | Primitive.ClientOnly => [(0, CallbackOwner.Conditional)]
  | Primitive.UseHead => [(0, CallbackOwner.Creates)]
  | Primitive.MapArray | Primitive.RepeatMap => [(1, CallbackOwner.Creates)]
  | Primitive.Flush | Primitive.Untrack | Primitive.Latest | Primitive.IsPending =>
      [(0, CallbackOwner.Inherits)]
  | Primitive.DispatchAsInteraction => [(1, CallbackOwner.Inherits)]
  | Primitive.Render | Primitive.Hydrate => [(0, CallbackOwner.Creates)]
  | Primitive.Dynamic => [(0, CallbackOwner.Creates)]
  | Primitive.DynamicStatic => [(0, CallbackOwner.Inherits)]
  | _ => []
  end.

(** A row of a table by argument: the first one with the index. *)
Definition row_at {A} (rows : list (nat * A)) (argument : nat) : option A :=
  snd <$> find (λ '(index, _), index =? argument) rows.

Definition callback_owner_at (p : Primitive) (argument argument_count : nat)
  : option CallbackOwner :=
  row_at (callback_owners p) argument.

(** ** Children, results and options *)

Definition children_accessor_parameters (p : Primitive) (key : KeyForm) : list nat :=
  match p with
  | Primitive.Show | Primitive.Match =>
      match key with
      | KeyForm.Keyed | KeyForm.CustomKey | KeyForm.DynamicFlag => []
      | KeyForm.Unkeyed | KeyForm.Absent => [0]
      end
  | Primitive.For =>
      match key with
      | KeyForm.CustomKey => [0; 1]
      | KeyForm.Unkeyed => [0]
      | KeyForm.Absent | KeyForm.Keyed => [1]
      | KeyForm.DynamicFlag => []
      end
  | _ => []
  end.

Definition returns_store (p : Primitive) : bool :=
  match p with
  | Primitive.CreateStore | Primitive.CreateOptimisticStore | Primitive.CreateProjection => true
  | _ => false
  end.

Definition returned_callback_value (p : Primitive) : option nat :=
  if bool_decide (p = Primitive.CreateRoot) then Some 0 else None.

Definition reactive_result_slot (p : Primitive) (slot : ResultSlot) : option ReactiveRole :=
  match p, slot with
  | Primitive.CreateSignal, ResultSlot.TupleItem 0 => Some ReactiveRole.Accessor
  | Primitive.CreateSignal, ResultSlot.TupleItem 1 => Some ReactiveRole.Setter
  | (Primitive.CreateMemo | Primitive.CreateDeferred), ResultSlot.Whole =>
      Some ReactiveRole.Accessor
  | _, _ => None
  end.

Definition accessor_getter_length (p : Primitive) (slot : ResultSlot) : option nat :=
  match p, slot with
  | (Primitive.CreateSignal | Primitive.CreateOptimistic), ResultSlot.TupleItem 0
  | (Primitive.CreateMemo | Primitive.CreateDeferred), ResultSlot.Whole => Some 0
  | _, _ => None
  end.

Definition eager_owned_computation_slot (p : Primitive) (argument argument_count : nat) : bool :=
  match p, argument, argument_count with
  | (Primitive.CreateMemo | Primitive.CreateDeferred), 0, 1 | Primitive.CreateEffect, 0, 2 => true
  | _, _, _ => false
  end.

Definition options_argument (p : Primitive) : option nat :=
  match p with
  | Primitive.CreateMemo | Primitive.CreateDeferred | Primitive.CreateSignal
  | Primitive.CreateOptimistic | Primitive.CreateTrackedEffect => Some 1
  | Primitive.CreateStore | Primitive.CreateProjection | Primitive.CreateOptimisticStore
  | Primitive.CreateEffect | Primitive.CreateRenderEffect => Some 2
  | _ => None
  end.

Definition supports_sync_option (p : Primitive) : bool :=
  match p with
  | Primitive.CreateMemo | Primitive.CreateSignal | Primitive.CreateOptimistic
  | Primitive.CreateTrackedEffect | Primitive.CreateEffect | Primitive.CreateRenderEffect => true
  | _ => false
  end.

Definition wraps_function_arguments_in_memo (p : Primitive) : bool :=
  bool_decide (p = Primitive.Merge).

Definition browser_callback_member_trigger (p : Primitive) (argument argument_count : nat)
    (member : string) : option BrowserCallbackTrigger :=
  if match p with Primitive.CreateEffect | Primitive.CreateRenderEffect => true | _ => false end &&
     (argument =? 1) && (2 <=? argument_count) &&
     ((member =? "effect")%string || (member =? "error")%string)
  then Some (if (member =? "error")%string then BrowserCallbackTrigger.ComputationError
             else BrowserCallbackTrigger.EffectFlush)
  else None.

Definition effect_apply_defer_options (p : Primitive) (argument : nat) : option nat :=
  match p, argument with
  | (Primitive.CreateEffect | Primitive.CreateRenderEffect), 1 => Some 2
  | _, _ => None
  end.

Definition effect_apply_schedule_options (p : Primitive) (argument : nat) : option nat :=
  match p, argument with Primitive.CreateRenderEffect, 1 => Some 2 | _, _ => None end.

Definition browser_callback_defer_options (p : Primitive) (argument : nat) : option nat :=
  effect_apply_defer_options p argument.

Definition browser_children_dead (p : Primitive) (when_false each_empty count_zero : bool) : bool :=
  (when_false && match p with Primitive.Show | Primitive.Match => true | _ => false end) ||
  (each_empty && bool_decide (p = Primitive.For)) ||
  (count_zero && bool_decide (p = Primitive.Repeat)).

(** ** Callback executions *)

Definition callback_executions (self : Solid2) (p : Primitive) : list (nat * Execution) :=
  match p with
  | Primitive.CreateMemo | Primitive.CreateDeferred | Primitive.CreateProjection
  | Primitive.CreateTrackedEffect | Primitive.CreateSignal | Primitive.CreateStore
  | Primitive.CreateOptimistic | Primitive.CreateOptimisticStore | Primitive.Dynamic
  | Primitive.UseHead | Primitive.Children => [(0, Execution.Tracked)]
  | Primitive.CreateEffect | Primitive.CreateRenderEffect =>
      [(0, Execution.Tracked); (1, Execution.Deferred)]
  | Primitive.CreateErrorBoundary | Primitive.CreateLoadingBoundary =>
      [(0, Execution.Tracked); (1, Execution.Tracked)]
  | Primitive.MapArray => [(1, Execution.Tracked)]
  | Primitive.RepeatMap => [(0, Execution.Tracked); (1, Execution.Inline)]
  | Primitive.OnCleanup | Primitive.CreateReaction | Primitive.OnSettled | Primitive.Resolve
  | Primitive.Until | Primitive.Lazy | Primitive.LazyModule | Primitive.OnHydrationEnd
  | Primitive.Action | Primitive.ClientOnly => [(0, Execution.Deferred)]
  | Primitive.CreateRoot | Primitive.CreateRevealOrder | Primitive.Flush | Primitive.Untrack
  | Primitive.DynamicStatic | Primitive.Latest | Primitive.IsPending => [(0, Execution.Inline)]
  | Primitive.RunWithOwner => [(1, Execution.Inline)]
  | Primitive.DispatchAsInteraction => [(1, Execution.Inline)]
  | Primitive.Render => [(0, Execution.Inline)]
  | Primitive.Hydrate => if hydrate_code_inline self then [(0, Execution.Inline)] else []
  | _ => []
  end.

Definition callback_execution_at (self : Solid2) (p : Primitive) (argument argument_count : nat)
  : option Execution :=
  row_at (callback_executions self p) argument.

Definition callback_execution_word_at (self : Solid2) (p : Primitive)
    (argument argument_count : nat) : option Execution :=
  match p, argument with
  | Primitive.CreateEffect, _ | Primitive.CreateRenderEffect, 0 =>
      callback_execution_at self p argument argument_count
  | (Primitive.CreateMemo | Primitive.CreateDeferred | Primitive.CreateTrackedEffect
     | Primitive.CreateSignal | Primitive.CreateStore | Primitive.CreateProjection
     | Primitive.CreateOptimistic | Primitive.CreateOptimisticStore | Primitive.Dynamic), 0 =>
      Some Execution.Tracked
  | (Primitive.OnSettled | Primitive.Action | Primitive.CreateReaction | Primitive.OnCleanup
     | Primitive.OnHydrationEnd), 0 => Some Execution.Deferred
  | (Primitive.CreateRoot | Primitive.Untrack | Primitive.Flush | Primitive.DynamicStatic), 0
  | (Primitive.RunWithOwner | Primitive.DispatchAsInteraction), 1 => Some Execution.Inline
  | _, _ => None
  end.

Definition tracked_callback_timing (self : Solid2) (p : Primitive) (argument argument_count : nat)
  : option TrackedCallbackTiming :=
  if negb (bool_decide
    (callback_execution_at self p argument argument_count = Some Execution.Tracked)) then None
  else match p with
       | Primitive.CreateMemo | Primitive.CreateDeferred | Primitive.CreateSignal
       | Primitive.CreateOptimistic | Primitive.CreateProjection | Primitive.CreateEffect
       | Primitive.CreateRenderEffect => Some TrackedCallbackTiming.DuringCall
       | Primitive.CreateTrackedEffect => Some TrackedCallbackTiming.AfterCall
       | _ => None
       end.

Definition lazy_option_argument (p : Primitive) : option nat :=
  match p with
  | Primitive.CreateMemo | Primitive.CreateSignal | Primitive.CreateOptimistic => Some 1
  | _ => None
  end.

Definition apply_callback_argument (p : Primitive) : option nat :=
  match p with Primitive.CreateEffect | Primitive.CreateRenderEffect => Some 1 | _ => None end.

Definition is_mapper (p : Primitive) : bool :=
  match p with Primitive.MapArray | Primitive.RepeatMap => true | _ => false end.

Definition reports_untracked_reads_at (p : Primitive) (argument argument_count : nat) : bool :=
  (match p with
   | Primitive.Hydrate | Primitive.Lazy | Primitive.Render | Primitive.CreateReaction => true
   | _ => false
   end && (argument =? 0)) ||
  (bool_decide (p = Primitive.RunWithOwner) && (argument =? 1)) ||
  (is_mapper p && (argument =? 1)).

Definition callback_may_open_strict_window (p : Primitive) (argument argument_count : nat) : bool :=
  (argument =? 1) && (2 <? argument_count) && is_mapper p.

Definition callback_preserves_read_window (self : Solid2) (p : Primitive) (argument : nat) : bool :=
  callback_inherits_calling_window p argument ||
  (rc17_callback_exports self && bool_decide (p = Primitive.Flush) && (argument =? 0)).

Definition dynamic_mount_is_unwindowed (self : Solid2) (p : Primitive) : bool :=
  rc17_callback_exports self &&
  match p with Primitive.Dynamic | Primitive.DynamicComponent => true | _ => false end.

Definition callback_runs_untracked_without_window (p : Primitive) (argument : nat) : bool :=
  (argument =? 1) && is_mapper p.

Definition callback_clears_tracking_in_calling_window (p : Primitive) (argument : nat) : bool :=
  bool_decide (p = Primitive.RunWithOwner) && (argument =? 1).

Definition callback_requires_return_invocation (p : Primitive) (argument : nat) : bool :=
  ((argument =? 0) &&
   match p with
   | Primitive.CreateReaction | Primitive.Lazy | Primitive.LazyModule => true
   | _ => false
   end) ||
  ((argument <=? 1) && bool_decide (p = Primitive.MapArray)) ||
  ((argument =? 1) && bool_decide (p = Primitive.RepeatMap)).

Definition returned_callback_execution_at (p : Primitive) (result_slot : option nat)
    (argument argument_count : nat) : option Execution :=
  match p, result_slot, argument, argument_count with
  | Primitive.CreateReaction, None, 0, S _ => Some Execution.Tracked
  | _, _, _, _ => None
  end.

Definition returned_callback_owner_at (p : Primitive) (result_slot : option nat)
    (argument argument_count : nat) : option CallbackOwner :=
  match p, result_slot, argument, argument_count with
  | Primitive.CreateReaction, None, 0, S _ => Some CallbackOwner.Creates
  | _, _, _, _ => None
  end.

Definition returned_callback_semantics_at (p : Primitive) (result_slot : option nat)
    (argument argument_count : nat) : ReturnedCallbackSemantics :=
  mk_returned_semantics
    (returned_callback_execution_at p result_slot argument argument_count)
    (returned_callback_owner_at p result_slot argument argument_count).

(** The two trait defaults [Solid2] keeps. *)
Definition stores_function_argument_as_value (p : Primitive) (argument : nat) : bool := false.
Definition callback_accessor_parameters (p : Primitive) (argument : nat) : list nat := [].

(** [callback_semantics_at]: everything the dialect says of one callback. *)
Definition callback_semantics_at (self : Solid2) (p : Primitive) (argument argument_count : nat)
  : CallbackSemantics :=
  let execution := callback_execution_at self p argument argument_count in
  mk_callback_semantics execution (callback_owner_at p argument argument_count)
    (bool_decide (execution = Some Execution.Tracked) && negb (runs_callback_deferred p) &&
     negb (callback_runs_untracked_without_window p argument))
    (callback_requires_return_invocation p argument)
    (stores_function_argument_as_value p argument)
    (callback_accessor_parameters p argument).

(** [runs_callback_synchronously]: every row of a deferred-reads primitive is inline. *)
Definition runs_callback_synchronously (self : Solid2) (p : Primitive) : bool :=
  let rows := callback_executions self p in
  runs_callback_deferred p && negb (bool_decide (rows = [])) &&
  forallb (λ '(_, execution), bool_decide (execution = Execution.Inline)) rows.

Definition synchronous_callback_slot (self : Solid2) (p : Primitive) (argument argument_count : nat)
  : bool :=
  runs_callback_synchronously self p &&
  bool_decide (cs_execution (callback_semantics_at self p argument argument_count)
    = Some Execution.Inline).

(** ** Browser triggers *)

Definition browser_callback_trigger (self : Solid2) (p : Primitive) (argument argument_count : nat)
  : option BrowserCallbackTrigger :=
  _ ← callback_execution_at self p argument argument_count;
  if match p with Primitive.CreateMemo | Primitive.CreateDeferred => true | _ => false end &&
     (argument =? 0) && (1 <? argument_count)
  then Some BrowserCallbackTrigger.ComputationDemand
  else if synchronous_callback_slot self p argument argument_count
  then Some BrowserCallbackTrigger.DuringCall
  else if match p, argument with
          | (Primitive.CreateMemo | Primitive.CreateDeferred | Primitive.CreateEffect
             | Primitive.CreateRenderEffect), 0 =>
              bool_decide (tracked_callback_timing self p argument argument_count
                = Some TrackedCallbackTiming.DuringCall)
          | _, _ => false
          end
  then Some BrowserCallbackTrigger.DuringCall
  else match p, argument with
       | (Primitive.CreateEffect | Primitive.CreateRenderEffect), 1
       | Primitive.CreateTrackedEffect, 0 => Some BrowserCallbackTrigger.EffectFlush
       | Primitive.OnCleanup, 0 => Some BrowserCallbackTrigger.OwnerDisposal
       | Primitive.OnSettled, 0 => Some BrowserCallbackTrigger.Settlement
       | _, _ => None
       end.

Definition renders_children_through_callback (p : Primitive) : bool :=
  match p with
  | Primitive.For | Primitive.Repeat | Primitive.Show | Primitive.Match | Primitive.Switch => true
  | _ => false
  end.

Definition children_callback_requires_parameters (p : Primitive) : bool :=
  match p with Primitive.Show | Primitive.Match => true | _ => false end.

Definition browser_children_trigger (p : Primitive) : option BrowserCallbackTrigger :=
  if renders_children_through_callback p ||
     match p with Primitive.Loading | Primitive.Errored => true | _ => false end
  then Some BrowserCallbackTrigger.RenderSelection else None.

(** ** Cleanup and ownership *)

Definition cleanup_rule (self : Solid2) (p : Primitive) : CleanupRule :=
  match p with
  | Primitive.OnCleanup | Primitive.Flush | Primitive.CreateMemo | Primitive.CreateDeferred
  | Primitive.CreateEffect | Primitive.CreateRenderEffect | Primitive.CreateReaction
  | Primitive.CreateTrackedEffect | Primitive.CreateProjection | Primitive.CreateRoot
  | Primitive.CreateOwner | Primitive.MapArray | Primitive.RepeatMap
  | Primitive.CreateRevealOrder | Primitive.CreateErrorBoundary
  | Primitive.CreateLoadingBoundary | Primitive.UseHead | Primitive.Children =>
      CleanupRule.Always
  | Primitive.Loading | Primitive.Errored | Primitive.Resolve | Primitive.Until =>
      if stands_down self then CleanupRule.Always else CleanupRule.Never
  | Primitive.CreateSignal | Primitive.CreateStore | Primitive.CreateOptimistic
  | Primitive.CreateOptimisticStore => CleanupRule.WhenFirstArgumentIsFunction
  | _ => CleanupRule.Never
  end.

Definition accepts_cleanup_return (p : Primitive) : bool :=
  match p with
  | Primitive.OnSettled | Primitive.CreateTrackedEffect | Primitive.CreateReaction
  | Primitive.CreateEffect | Primitive.CreateRenderEffect => true
  | _ => false
  end.

Definition creates_reactive_source (p : Primitive) : bool :=
  match p with
  | Primitive.CreateSignal | Primitive.CreateMemo | Primitive.CreateDeferred
  | Primitive.CreateStore | Primitive.CreateProjection | Primitive.CreateOptimistic
  | Primitive.CreateOptimisticStore => true
  | _ => false
  end.

Definition computation_read_is_render (p : Primitive) : bool :=
  bool_decide (p = Primitive.CreateRenderEffect).

Definition mounts_component_tree (p : Primitive) : bool := is_mount p.

Definition mount_runs_component_synchronously (p : Primitive) : bool :=
  bool_decide (p = Primitive.Render).

Definition merges_props_reactivity (p : Primitive) : bool := bool_decide (p = Primitive.Merge).
Definition splits_props (p : Primitive) : bool := bool_decide (p = Primitive.Omit).

Definition callback_runs_on_result_access (self : Solid2) (p : Primitive)
    (argument argument_count : nat) : bool :=
  omit_predicate_form self && bool_decide (p = Primitive.Omit) && (argument =? 1) &&
  (argument_count =? 2).

Definition callback_runs_as_action_steps (p : Primitive) (argument : nat) : bool :=
  bool_decide (p = Primitive.Action) && (argument =? 0).

Definition bundle_error_member_runs_unowned (self : Solid2) (p : Primitive) (argument : nat) : bool :=
  match p, argument with
  | Primitive.CreateEffect, 1 | Primitive.CreateReaction, 0 => true
  | _, _ => false
  end && stands_down self.

Definition action_step_inherits_calling_window (self : Solid2) (p : Primitive) (argument : nat)
  : bool :=
  bool_decide (p = Primitive.Action) && (argument =? 0) && stands_down self.

Definition renders_component_argument (name : string) : option nat :=
  if (name =? "createComponent")%string then Some 0 else None.

Definition renders_loaded_default_argument (self : Solid2) (p : Primitive) (arguments : nat)
  : option nat :=
  if lazy_renders_component self && bool_decide (p = Primitive.Lazy) && (arguments =? 1)
  then Some 0 else None.

Definition context_role (name : string) : option ContextRole :=
  if (name =? "createContext")%string then Some ContextRole.Create
  else if (name =? "useContext")%string then Some ContextRole.Read
  else if (name =? "createComponent")%string then Some ContextRole.Render
  else None.

(** [dialect::shared_owner_requirement_role]. *)
Definition shared_owner_requirement_role (p : Primitive) : option OwnerRequirementRole :=
  match p with
  | Primitive.CreateEffect | Primitive.CreateRenderEffect | Primitive.CreateTrackedEffect =>
      Some OwnerRequirementRole.Effect
  | Primitive.OnCleanup => Some OwnerRequirementRole.Cleanup
  | Primitive.OnSettled => Some OwnerRequirementRole.SettledCleanup
  | _ => None
  end.

Definition owner_requirement_role (p : Primitive) : option OwnerRequirementRole :=
  match p with
  | Primitive.UseContext => Some OwnerRequirementRole.ContextRead
  | Primitive.Loading | Primitive.Errored => Some OwnerRequirementRole.Boundary
  | _ => shared_owner_requirement_role p
  end.

Definition returned_invocation_owner_requirement_role (self : Solid2) (p : Primitive)
  : option OwnerRequirementRole :=
  if bool_decide (p = Primitive.CreateReaction) && stands_down self
  then Some OwnerRequirementRole.Effect else None.

Definition component_prop_renderers : list (string * string) := [("Dynamic", "component")].
Definition intrinsic_tag_renderers : list (string * string) := [("Dynamic", "component")].

Definition accessor_yields_only_its_compute (p : Primitive) : bool :=
  bool_decide (p = Primitive.CreateMemo).

(** ** Flush and effect phases *)

Definition throws_inside_action_step (self : Solid2) (p : Primitive) : bool :=
  flush_in_action self && bool_decide (p = Primitive.Flush).

Definition callback_runs_in_effect_phase (self : Solid2) (p : Primitive) (argument : nat) : bool :=
  (bool_decide (p = Primitive.CreateEffect) && (argument =? 1)) ||
  (bool_decide (p = Primitive.CreateReaction) && (argument =? 0) && stands_down self).

Definition callback_reruns_in_effect_phase (self : Solid2) (p : Primitive) (argument : nat) : bool :=
  bool_decide (p = Primitive.CreateRenderEffect) && (argument =? 1) && stands_down self.

Definition warns_inside_effect_phase (self : Solid2) (p : Primitive) : bool :=
  flush_in_effect_callback self && bool_decide (p = Primitive.Flush).

Definition boundary_on_may_hold_outside (p : Primitive) : bool :=
  bool_decide (p = Primitive.Loading).

Definition throws_creating_in_effect_callback (self : Solid2) (p : Primitive)
    (first_argument_is_function : bool) : bool :=
  stands_down self &&
  match p with
  | Primitive.CreateMemo | Primitive.CreateEffect | Primitive.CreateRenderEffect
  | Primitive.CreateRoot | Primitive.CreateProjection | Primitive.Loading | Primitive.Errored
  | Primitive.Resolve | Primitive.Until => true
  | Primitive.CreateSignal | Primitive.CreateStore => first_argument_is_function
  | _ => false
  end.

Definition returns_reactive_tuple (p : Primitive) : bool :=
  match p with
  | Primitive.CreateSignal | Primitive.CreateStore | Primitive.CreateOptimistic
  | Primitive.CreateOptimisticStore => true
  | _ => false
  end.

Definition creates_directive_owner (p : Primitive) : bool :=
  match p with
  | Primitive.CreateSignal | Primitive.CreateMemo | Primitive.CreateDeferred
  | Primitive.CreateStore | Primitive.CreateProjection | Primitive.CreateOptimistic
  | Primitive.CreateOptimisticStore | Primitive.CreateEffect | Primitive.CreateRenderEffect
  | Primitive.CreateTrackedEffect | Primitive.CreateReaction | Primitive.CreateRoot
  | Primitive.CreateOwner | Primitive.CreateErrorBoundary | Primitive.CreateLoadingBoundary
  | Primitive.UseHead => true
  | _ => false
  end.

(** ** Exports and namespaces *)

Definition rc17_gated (name : string) : bool :=
  (name =? "dynamicComponent")%string || (name =? "dispatchAsInteraction")%string ||
  (name =? "createDeferred")%string || (name =? "lazyModule")%string ||
  (name =? "onHydrationEnd")%string.

(** [export_modules]: [None] is a panic of the table lookup. *)
Definition export_modules (self : Solid2) (name : string) (position : Position)
  : option (list string) :=
  if ((name =? "until")%string && negb (until self)) ||
     (rc17_gated name && negb (rc17_callback_exports self))
  then Some []
  else
    found ← modules solid_js_VALUES solid_js_TYPES name position;
    web ← modules solidjs_web_VALUES solidjs_web_TYPES name position;
    Some (push_new found web).

(** [type_role], the trait's default over [export_modules]. *)
Definition type_role (self : Solid2) (origin_module name : string) : option (option TypeRole) :=
  found ← export_modules self name Position.Ty;
  Some (
    if negb (bool_decide (origin_module ∈ found)) then None
    else if (name =? "Owner")%string then Some TypeRole.Owner
    else if bool_decide (name ∈ ["Accessor"; "SourceAccessor"; "Resource"; "InitializedResource"])
    then Some TypeRole.Accessor
    else if (name =? "Signal")%string then Some TypeRole.Signal
    else if (name =? "Store")%string then Some TypeRole.Store
    else if (name =? "Setter")%string then Some TypeRole.Setter
    else if (name =? "StoreSetter")%string then Some TypeRole.StoreSetter
    else if bool_decide (name ∈ ["Component"; "ContextProviderComponent"; "FlowComponent";
      "ParentComponent"; "VoidComponent"])
    then Some TypeRole.Component
    else None).

Definition NAMESPACE_SOLID_JS_INTERNAL : list string :=
  ["createErrorBoundary"; "createLoadingBoundary"; "createRevealOrder"].

Definition NAMESPACE_SOLID_JS : list string :=
  ["Errored"; "For"; "Loading"; "Match"; "Repeat"; "Show"; "Switch"; "action"; "affects";
   "children"; "createContext"; "createDeferred"; "createEffect"; "createErrorBoundary";
   "createLoadingBoundary"; "createMemo"; "createOptimistic"; "createOptimisticStore";
   "createOwner"; "createProjection"; "createReaction"; "createRenderEffect";
   "createRevealOrder"; "createRoot"; "createSignal"; "createStore"; "createTrackedEffect";
   "deep"; "dynamicComponent"; "flush"; "getOwner"; "isPending"; "latest"; "lazy";
   "lazyModule"; "mapArray"; "merge"; "omit"; "onCleanup"; "onHydrationEnd"; "onSettled";
   "reconcile"; "refresh"; "repeat"; "resolve"; "runWithOwner"; "snapshot"; "until";
   "untrack"; "useContext"].

Definition NAMESPACE_SOLIDJS_WEB : list string :=
  ["Errored"; "For"; "Loading"; "Match"; "Repeat"; "Show"; "Switch"; "clientOnly";
   "dispatchAsInteraction"; "dynamic"; "dynamicComponent"; "getOwner"; "httpHeader";
   "httpStatus"; "hydrate"; "render"; "untrack"; "useHead"].

Definition namespace_import_primitives (module : string) : list string :=
  if (module =? "solid-js")%string then NAMESPACE_SOLID_JS
  else if (module =? "solid-js/internal")%string then NAMESPACE_SOLID_JS_INTERNAL
  else if (module =? "@solidjs/web")%string then NAMESPACE_SOLIDJS_WEB
  else [].

(** ** Packages *)

(** [packages.rs] over [DIALECTS], which holds this dialect alone. *)
Definition primitive_defining_package (package : string) : bool :=
  if (package =? EmptyString)%string then false
  else bool_decide (package ∈ primitive_defining_packages).

Definition core_runtime_specifier (specifier : string) : bool :=
  existsb (λ name, (specifier =? name)%string ||
    from_option (starts_with "/") false (strip_prefix name specifier))
    primitive_defining_packages.

Definition core_runtime_reference (package specifier : string) : bool :=
  primitive_defining_package package || core_runtime_specifier specifier.

(** [HostTargetCondition]'s names. *)
Definition host_conditions : list HostTargetCondition :=
  [HostTargetCondition.Browser; HostTargetCondition.Node; HostTargetCondition.Deno;
   HostTargetCondition.Worker].

Definition host_condition_name (h : HostTargetCondition) : string :=
  match h with
  | HostTargetCondition.Browser => "browser"
  | HostTargetCondition.Node => "node"
  | HostTargetCondition.Deno => "deno"
  | HostTargetCondition.Worker => "worker"
  end.

Definition from_condition (condition : string) : option HostTargetCondition :=
  find (λ host, (host_condition_name host =? condition)%string) host_conditions.

Definition names_host (condition : string) : bool := bool_decide (is_Some (from_condition condition)).

(** ** Runtime configuration *)

(** [RuntimeConfigurationApi]. *)
Module RuntimeConfigurationApi.
Inductive configuration_api : Set :=
  | ExternalSource | DevelopmentHooks | Observation | HydrationHost.
End RuntimeConfigurationApi.
Abbreviation RuntimeConfigurationApi :=
  RuntimeConfigurationApi.configuration_api (only parsing).

(** The arms of [runtime_configuration::api]: a declaration file under
    [node_modules] and a span in it. *)
Definition api_identities : list (string * N * N * RuntimeConfigurationApi) := [
  ("@solidjs/signals/dist/types/core/external.d.ts", 457%N, 477%N, RuntimeConfigurationApi.ExternalSource);
  ("solid-js/types/index.d.ts", 2531%N, 2534%N, RuntimeConfigurationApi.DevelopmentHooks);
  ("solid-js/types/server/index.d.ts", 2142%N, 2145%N, RuntimeConfigurationApi.DevelopmentHooks);
  ("@solidjs/signals/dist/types/index.d.ts", 1148%N, 1151%N, RuntimeConfigurationApi.DevelopmentHooks);
  ("@solidjs/signals/dist/types/core/dev.d.ts", 22966%N, 22969%N, RuntimeConfigurationApi.DevelopmentHooks);
  ("solid-js/types/index.d.ts", 2652%N, 2655%N, RuntimeConfigurationApi.DevelopmentHooks);
  ("solid-js/types/server/index.d.ts", 2244%N, 2247%N, RuntimeConfigurationApi.DevelopmentHooks);
  ("solid-js/types/internal.d.ts", 3434%N, 3446%N, RuntimeConfigurationApi.DevelopmentHooks);
  ("solid-js/types/internal.d.ts", 3970%N, 3982%N, RuntimeConfigurationApi.DevelopmentHooks);
  ("@solidjs/signals/dist/types/index.d.ts", 1635%N, 1638%N, RuntimeConfigurationApi.DevelopmentHooks);
  ("@solidjs/signals/dist/types/core/dev.d.ts", 24681%N, 24684%N, RuntimeConfigurationApi.DevelopmentHooks);
  ("@solidjs/signals/dist/types/core/core.d.ts", 18505%N, 18517%N, RuntimeConfigurationApi.DevelopmentHooks);
  ("@solidjs/signals/dist/types/core/identities.d.ts", 879%N, 891%N, RuntimeConfigurationApi.DevelopmentHooks);
  ("solid-js/types/index.d.ts", 2480%N, 2487%N, RuntimeConfigurationApi.Observation);
  ("solid-js/types/server/index.d.ts", 2091%N, 2098%N, RuntimeConfigurationApi.Observation);
  ("@solidjs/signals/dist/types/index.d.ts", 1010%N, 1017%N, RuntimeConfigurationApi.Observation);
  ("@solidjs/signals/dist/types/core/dev.d.ts", 22529%N, 22536%N, RuntimeConfigurationApi.Observation);
  ("solid-js/types/index.d.ts", 2601%N, 2608%N, RuntimeConfigurationApi.Observation);
  ("solid-js/types/server/index.d.ts", 2193%N, 2200%N, RuntimeConfigurationApi.Observation);
  ("@solidjs/signals/dist/types/index.d.ts", 1497%N, 1504%N, RuntimeConfigurationApi.Observation);
  ("@solidjs/signals/dist/types/core/dev.d.ts", 24244%N, 24251%N, RuntimeConfigurationApi.Observation);
  ("solid-js/types/internal.d.ts", 7472%N, 7484%N, RuntimeConfigurationApi.HydrationHost);
  ("solid-js/types/server/shared.d.ts", 4285%N, 4297%N, RuntimeConfigurationApi.HydrationHost);
  ("solid-js/types/internal.d.ts", 9454%N, 9466%N, RuntimeConfigurationApi.HydrationHost);
  ("solid-js/types/server/shared.d.ts", 5282%N, 5294%N, RuntimeConfigurationApi.HydrationHost)].

(** [str::replace] of a backslash by a slash. *)
Fixpoint forward_slashes (path : string) : string :=
  match path with
  | EmptyString => EmptyString
  | String c path =>
      String (if (c =? "\")%char then "/"%char else c) (forward_slashes path)
  end.

(** [str::rsplit_once]'s second half: what follows the last occurrence. *)
Fixpoint after_last (pattern s : string) : option string :=
  match s with
  | EmptyString => strip_prefix pattern EmptyString
  | String _ rest =>
      match after_last pattern rest with
      | Some found => Some found
      | None => strip_prefix pattern s
      end
  end.

(** [runtime_configuration::api]. *)
Definition runtime_configuration_api (path : string) (start finish : N)
  : option RuntimeConfigurationApi :=
  declaration ← after_last "/node_modules/" (forward_slashes path);
  snd <$> find (λ '(p, a, b, _), (p =? declaration)%string && (a =? start)%N && (b =? finish)%N)
    api_identities.

Definition hydration_host_member_read_is_harmless (member : string) (truthiness_only : bool) : bool :=
  (member =? "hydrating")%string || (member =? "done")%string ||
  ((member =? "context")%string && truthiness_only).
