(* ===== verification/DialectSpec.v ===== *)
(** * Lemmas on the dialect's tables

    The name index and the export tables as relations, and the case analyses
    over every primitive and argument the dialect's theorems share. *)
From stdpp Require Import strings.
From S2P Require Import Prelude Order Text Vocabulary Releases ReleasesSpec Exports Solid2.
Open Scope string_scope.
Open Scope nat_scope.

(** ** The name table *)

Definition add_row (m : gmap string Primitive) (row : string * Primitive) : gmap string Primitive :=
  let '(name, p) := row in <[name := p]> m.

Lemma index_rows (rows : list (string * Primitive)) m name p :
  NoDup rows.*1 →
  (foldl add_row m rows) !! name = Some p ↔
  (name, p) ∈ rows ∨ ((name ∉ rows.*1) ∧ (m !! name) = Some p).
Proof.
  revert m. induction rows as [|[n q] rows IH]; intros m Hnd; simpl; [set_solver|].
  apply NoDup_cons in Hnd as [Hn Hnd]. simpl in Hn. rewrite IH by done.
  rewrite lookup_insert_Some. simpl. split.
  - intros [Hin|[Hna [[-> ->]|[Hne Hm]]]]; [left; by right|left; by left|right].
    split; [|done]. rewrite not_elem_of_cons. by split; [intros ->|].
  - intros [[[= -> ->]|Hin]%elem_of_cons|[[Hne Hna]%not_elem_of_cons Hm]].
    + right. split; [done|]. by left.
    + by left.
    + right. split; [done|]. right. split; [by intros ->|done].
Qed.

Lemma TABLE_names : NoDup TABLE.*1.
Proof. apply (bool_decide_unpack (NoDup TABLE.*1)). by vm_compute. Qed.

Lemma TABLE_primitives : NoDup TABLE.*2.
Proof. apply (bool_decide_unpack (NoDup TABLE.*2)). by vm_compute. Qed.

Lemma lookup_TABLE name p : lookup [TABLE] name = Some p ↔ (name, p) ∈ TABLE.
Proof.
  unfold lookup, name_index. cbn [List.concat]. rewrite app_nil_r.
  change ((foldl add_row ∅ TABLE) !! name = Some p ↔ (name, p) ∈ TABLE).
  rewrite index_rows by apply TABLE_names. rewrite lookup_empty. naive_solver.
Qed.

Lemma reverse_row (rows : list (string * Primitive)) name p :
  NoDup rows.*2 → reverse rows p = Some name ↔ (name, p) ∈ rows.
Proof.
  unfold reverse. induction rows as [|[n q] rows IH]; intros Hnd; simpl; [set_solver|].
  apply NoDup_cons in Hnd as [Hq Hnd]. simpl in Hq. rewrite elem_of_cons.
  case_bool_decide as Hqp; simpl.
  - subst q. split; [intros Hs; simplify_eq/=; by left|]. intros [Heq|Hin]; [by simplify_eq|].
    destruct Hq. by apply (list_elem_of_fmap_2 snd) in Hin.
  - rewrite IH by done. naive_solver.
Qed.

Lemma primitive_row self name p :
  primitive self name = Some p ↔ (name, p) ∈ TABLE ∧ exports self p = true.
Proof.
  unfold primitive. rewrite <-lookup_TABLE. destruct (lookup [TABLE] name) as [q|]; simpl.
  - destruct (exports self q) eqn:E; split; intros Hq.
    + by simplify_eq.
    + by destruct Hq.
    + done.
    + destruct Hq as [Hq Hp]. simplify_eq. by rewrite E in Hp.
  - split; [done|by intros []].
Qed.

(** The call forms of [dynamic], which have no row of their own. *)
Definition dynamic_forms : list Primitive := [Primitive.DynamicStatic; Primitive.DynamicUnknownForm].

Lemma dynamic_forms_no_row p : p ∈ dynamic_forms → p ∉ TABLE.*2.
Proof.
  apply (proj1 (Forall_forall (λ p, p ∉ TABLE.*2) dynamic_forms)).
  apply (bool_decide_unpack (Forall (λ p, p ∉ TABLE.*2) dynamic_forms)). by vm_compute.
Qed.

Lemma name_of_row self name p :
  p ∉ dynamic_forms → name_of self p = Some name ↔ (name, p) ∈ TABLE ∧ exports self p = true.
Proof.
  intros Hp. rewrite <-(reverse_row TABLE name p TABLE_primitives).
  assert (name_of self p = if negb (exports self p) then None else reverse TABLE p) as ->.
  { destruct p; try done; destruct Hp; unfold dynamic_forms; set_solver. }
  destruct (exports self p); simpl; [tauto|]. split; [done|by intros []].
Qed.

(** ** Every callback position *)

(** A property of the positions 0, 1 and 2 that higher positions share. *)
Lemma forall_positions (P : Primitive → nat → Prop) :
  (∀ p a, P p 2 → P p (S (S (S a)))) →
  Forall (λ p, P p 0 ∧ P p 1 ∧ P p 2) primitives → ∀ p a, P p a.
Proof.
  intros Hhigh HP p a. destruct (forall_primitives _ HP p) as (H0 & H1 & H2).
  destruct a as [|[|[|a]]]; auto.
Qed.

(** Rows only describe positions 0 and 1. *)
Lemma row_at_high {A} (rows : list (nat * A)) a :
  Forall (λ row, row.1 < 2) rows → row_at rows (S (S a)) = None.
Proof.
  unfold row_at. induction 1 as [|[i x] rows Hi _ IH]; simpl in *; [done|].
  destruct i as [|[|i]]; [done|done|lia].
Qed.

Lemma execution_high self p a n : callback_execution_at self p (S (S a)) n = None.
Proof.
  apply row_at_high. unfold callback_executions.
  destruct p; try destruct (hydrate_code_inline self); repeat constructor.
Qed.

Lemma owner_high p a n : callback_owner_at p (S (S a)) n = None.
Proof. apply row_at_high. destruct p; repeat constructor. Qed.

(** Every listed position is attributed. *)
Lemma positions_attributed self p a n :
  a ∈ callback_positions p →
  is_Some (callback_execution_at self p a n) ∨ p = Primitive.DynamicUnknownForm.
Proof.
  revert a. apply Forall_forall. destruct p; cbn [callback_positions];
    repeat apply Forall_cons_2; try apply Forall_nil_2; try (right; reflexivity);
    left; eexists; reflexivity.
Qed.

Lemma word_agrees self p a n :
  callback_execution_word_at self p a n = None ∨
  callback_execution_word_at self p a n = callback_execution_at self p a n.
Proof. destruct p; try (by left); (destruct a as [|[|a]]; first [by left|by right]). Qed.

Lemma owner_attributed self p a n :
  callback_owner_at p a n = None ∨ is_Some (callback_execution_at self p a n) ∨
  (p = Primitive.Hydrate ∧ hydrate_code_inline self = false).
Proof.
  destruct a as [|[|a]]; [| |left; apply owner_high];
    destruct p; try (by left); right;
    try (by left; eexists; reflexivity).
  unfold callback_execution_at, callback_executions.
  destruct (hydrate_code_inline self); [left; eexists; reflexivity|by right].
Qed.

Lemma tracked_not_deferred self p a n :
  callback_execution_at self p a n = Some Execution.Tracked → runs_callback_deferred p = false.
Proof.
  destruct p; try done; (destruct a as [|[|a]]; [done|done|]);
    rewrite execution_high; discriminate.
Qed.

Lemma synchronous_rows self p a n :
  runs_callback_deferred p = true → callback_execution_at self p a n = Some Execution.Inline →
  runs_callback_synchronously self p = true.
Proof.
  destruct p; try discriminate; intros _; try reflexivity; intros He; exfalso; revert He;
    (destruct a as [|[|a]]; [discriminate|discriminate|by rewrite execution_high]).
Qed.

Lemma trigger_execution self p a n :
  is_Some (browser_callback_trigger self p a n) → is_Some (callback_execution_at self p a n).
Proof.
  unfold browser_callback_trigger. destruct (callback_execution_at self p a n); [eauto|].
  by intros [].
Qed.

(** When a callback runs during the call, as a test. *)
Definition is_effect (p : Primitive) : bool :=
  bool_decide (p ∈ [Primitive.CreateEffect; Primitive.CreateRenderEffect]).
Definition is_memo (p : Primitive) : bool :=
  bool_decide (p ∈ [Primitive.CreateMemo; Primitive.CreateDeferred]).
Definition runs_during (self : Solid2) (p : Primitive) (a n : nat) : bool :=
  synchronous_callback_slot self p a n ||
  ((a =? 0) && (is_effect p || (is_memo p && (n <=? 1)))).

Definition is_during (t : option BrowserCallbackTrigger) : bool :=
  match t with Some BrowserCallbackTrigger.DuringCall => true | _ => false end.

Lemma synchronous_high self p a n : synchronous_callback_slot self p (S (S a)) n = false.
Proof.
  unfold synchronous_callback_slot, callback_semantics_at. cbn [cs_execution].
  rewrite execution_high. by rewrite andb_false_r.
Qed.

Lemma trigger_test self p a n :
  is_during (browser_callback_trigger self p a n) = runs_during self p a n.
Proof.
  destruct a as [|[|a]].
  - destruct p; try reflexivity; try (destruct n as [|[|n]]; reflexivity).
    unfold browser_callback_trigger, runs_during, synchronous_callback_slot,
      runs_callback_synchronously, callback_execution_at, callback_executions.
    by destruct (hydrate_code_inline self).
  - destruct p; try reflexivity.
    unfold browser_callback_trigger, runs_during, synchronous_callback_slot,
      runs_callback_synchronously, callback_execution_at, callback_executions.
    by destruct (hydrate_code_inline self).
  - unfold browser_callback_trigger, runs_during. by rewrite execution_high, synchronous_high.
Qed.

(** A callback that runs during the call is neither late nor deferred. *)
Lemma during_test self p a n :
  runs_during self p a n = true →
  match tracked_callback_timing self p a n with
  | Some TrackedCallbackTiming.AfterCall => false
  | _ => true
  end && negb (bool_decide (callback_execution_at self p a n = Some Execution.Deferred)) = true.
Proof.
  destruct a as [|[|a]].
  - destruct p; try reflexivity; try discriminate.
    all: unfold tracked_callback_timing, callback_execution_at, callback_executions;
      by destruct (hydrate_code_inline self).
  - destruct p; try reflexivity; try discriminate.
    all: unfold tracked_callback_timing, callback_execution_at, callback_executions;
      by destruct (hydrate_code_inline self).
  - unfold runs_during. by rewrite synchronous_high.
Qed.

Lemma trigger_during self p a n :
  browser_callback_trigger self p a n = Some BrowserCallbackTrigger.DuringCall ↔
  synchronous_callback_slot self p a n = true ∨
  (a = 0 ∧ (p ∈ [Primitive.CreateEffect; Primitive.CreateRenderEffect] ∨
            (p ∈ [Primitive.CreateMemo; Primitive.CreateDeferred] ∧ n ≤ 1))).
Proof.
  transitivity (is_during (browser_callback_trigger self p a n) = true).
  { unfold is_during. split; [by intros ->|].
    by destruct (browser_callback_trigger self p a n) as [[]|]. }
  rewrite trigger_test. unfold runs_during, is_effect, is_memo.
  by rewrite orb_true_iff, andb_true_iff, orb_true_iff, andb_true_iff, !bool_decide_eq_true,
    Nat.eqb_eq, Nat.leb_le.
Qed.

Lemma eager_slot p a n :
  eager_owned_computation_slot p a n = true →
  (p ∈ [Primitive.CreateMemo; Primitive.CreateDeferred] ∧ a = 0 ∧ n = 1) ∨
  (p = Primitive.CreateEffect ∧ a = 0 ∧ n = 2).
Proof.
  destruct p; try done; destruct a as [|a]; try done; destruct n as [|[|[|n]]]; try done; intros _.
  - left. split; [by left|done].
  - by right.
  - left. split; [by right; left|done].
Qed.

Lemma during_not_late self p a n :
  browser_callback_trigger self p a n = Some BrowserCallbackTrigger.DuringCall →
  tracked_callback_timing self p a n ≠ Some TrackedCallbackTiming.AfterCall ∧
  callback_execution_at self p a n ≠ Some Execution.Deferred.
Proof.
  intros Ht. pose proof (trigger_test self p a n) as Hr. rewrite Ht in Hr.
  pose proof (during_test self p a n (eq_sym Hr)) as Hl.
  apply andb_true_iff in Hl as [H1 H2]. rewrite negb_true_iff, bool_decide_eq_false in H2.
  split; [|done]. intros Ha. by rewrite Ha in H1.
Qed.

(** ** Release 17 *)

Lemma stands_down_read_17 j s w :
  stands_down (vocabulary_for j s w) = true ↔ s = Release.Read 17.
Proof.
  unfold stands_down. rewrite bool_decide_eq_true. cbn [vocabulary_for disposal_write_guard].
  destruct s as [n|u|]; [|done|done]. rewrite match_17.
  destruct (decide (n = 17%N)) as [->|Hn]; [done|]. split; [done|congruence].
Qed.

Lemma rc17_exports_read_17 j s w :
  rc17_callback_exports (vocabulary_for j s w) = true ↔
  j = Release.Read 17 ∧ s = Release.Read 17 ∧ w = Release.Read 17.
Proof.
  cbn [vocabulary_for rc17_callback_exports]. rewrite (read_17 w), (read_17 s), (read_17 j).
  destruct (decide (w = Release.Read 17)), (decide (s = Release.Read 17)),
    (decide (j = Release.Read 17)); split; try done; by intros (? & ? & ?).
Qed.

(** ** Export tables *)

Definition gated_off (self : Solid2) (name : string) : bool :=
  ((name =? "until")%string && negb (until self)) ||
  (rc17_gated name && negb (rc17_callback_exports self)).

(** A table's row of the name lists the module. *)
Definition row_lists (table : list (string * list string)) (name module : string) : Prop :=
  ∃ ms, (name, ms) ∈ table ∧ module ∈ ms.

Lemma elem_of_scan table name m : table_sorted table → m ∈ scan table name ↔ row_lists table name m.
Proof.
  intros Hs. split.
  - unfold scan. destruct (find _ table) as [[n ms]|] eqn:Hf; simpl; [|set_solver].
    apply find_some in Hf as [Hin Hn]. apply String.eqb_eq in Hn as ->.
    intros Hm. exists ms. split; [by apply list_elem_of_In|done].
  - intros (ms & (i & Hi)%list_elem_of_lookup & Hm). by rewrite (scan_first _ Hs _ _ _ Hi).
Qed.

Lemma scan_NoDup table name :
  forallb (λ row, bool_decide (NoDup row.2)) table = true → NoDup (scan table name).
Proof.
  rewrite forallb_forall. intros Hall. unfold scan.
  destruct (find _ table) as [[n ms]|] eqn:Hf; simpl; [|constructor].
  apply find_some in Hf as [Hin _]. specialize (Hall _ Hin). by apply bool_decide_eq_true in Hall.
Qed.

(** [export_modules] over the scans. *)
Definition exported (position : Position) (values types : list (string * list string))
    (name : string) : list string :=
  if bool_decide (position = Position.Ty) then push_new (scan values name) (scan types name)
  else scan values name.

Lemma export_modules_scan self name position :
  export_modules self name position = Some
    (if gated_off self name then []
     else push_new (exported position solid_js_VALUES solid_js_TYPES name)
            (exported position solidjs_web_VALUES solidjs_web_TYPES name)).
Proof.
  destruct tables_sorted as (H1 & H2 & H3 & H4). unfold export_modules, gated_off.
  destruct (_ || _); [done|]. rewrite !modules_scan by done. done.
Qed.

Lemma elem_of_exported position values types name m :
  table_sorted values → table_sorted types →
  m ∈ exported position values types name ↔
  row_lists values name m ∨ (position = Position.Ty ∧ row_lists types name m).
Proof.
  intros Hv Ht. unfold exported. case_bool_decide.
  - rewrite elem_of_push_new, !elem_of_scan by done. tauto.
  - rewrite elem_of_scan by done. tauto.
Qed.

Lemma exported_NoDup position name :
  NoDup (exported position solid_js_VALUES solid_js_TYPES name).
Proof.
  unfold exported. case_bool_decide; [apply push_new_NoDup|]; apply scan_NoDup; by vm_compute.
Qed.

(** Every module a table lists is one the dialect owns. *)
Definition owned (table : list (string * list string)) : bool :=
  forallb (λ row, forallb (λ m, bool_decide (m ∈ dialect_modules)) row.2) table.

Lemma rows_owned table name m :
  table ∈ [solid_js_VALUES; solid_js_TYPES; solidjs_web_VALUES; solidjs_web_TYPES] →
  row_lists table name m → m ∈ dialect_modules.
Proof.
  intros Ht (ms & Hrow & Hm).
  assert (Ho : forallb owned [solid_js_VALUES; solid_js_TYPES; solidjs_web_VALUES;
    solidjs_web_TYPES] = true) by by vm_compute.
  rewrite forallb_forall in Ho. apply list_elem_of_In in Ht. specialize (Ho _ Ht).
  unfold owned in Ho. rewrite forallb_forall in Ho. apply list_elem_of_In in Hrow.
  specialize (Ho _ Hrow). rewrite forallb_forall in Ho. apply list_elem_of_In in Hm.
  specialize (Ho _ Hm). by apply bool_decide_eq_true in Ho.
Qed.

(** ** Namespaces *)

(** The gate on a name is the gate on its primitive. *)
Lemma exported_not_gated self name p :
  (name, p) ∈ TABLE → exports self p = true → gated_off self name = false.
Proof.
  intros Hrow Hx.
  assert (Hg : forallb (λ '(n, q), negb (exports self q) || negb (gated_off self n)) TABLE = true).
  { unfold gated_off, exports.
    destruct (until self), (rc17_callback_exports self); by vm_compute. }
  rewrite forallb_forall in Hg. apply list_elem_of_In in Hrow. specialize (Hg _ Hrow).
  simpl in Hg. rewrite Hx in Hg. by apply negb_true_iff in Hg.
Qed.

Lemma namespace_rows name p module :
  (name, p) ∈ TABLE → module ∈ ["solid-js"; "solid-js/internal"; "@solidjs/web"] →
  let found := push_new (exported Position.Value solid_js_VALUES solid_js_TYPES name)
    (exported Position.Value solidjs_web_VALUES solidjs_web_TYPES name) in
  found ≠ [] ∧ (module ∈ found ↔ name ∈ namespace_import_primitives module).
Proof.
  intros Hrow Hm.
  assert (Ha : forallb (λ row, forallb (λ module,
    let found := push_new (exported Position.Value solid_js_VALUES solid_js_TYPES row.1)
      (exported Position.Value solidjs_web_VALUES solidjs_web_TYPES row.1) in
    bool_decide (found ≠ [] ∧ (module ∈ found ↔ row.1 ∈ namespace_import_primitives module)))
    ["solid-js"; "solid-js/internal"; "@solidjs/web"]) TABLE = true) by by vm_compute.
  rewrite forallb_forall in Ha. apply list_elem_of_In in Hrow. specialize (Ha _ Hrow).
  rewrite forallb_forall in Ha. apply list_elem_of_In in Hm. specialize (Ha _ Hm).
  by apply bool_decide_eq_true in Ha.
Qed.

(** ** Declaration identities *)

Lemma after_last_Some pattern s d :
  after_last pattern s = Some d → ∃ prefix, s = (prefix ++ pattern ++ d)%string.
Proof.
  induction s as [|c s IH]; cbn [after_last].
  - intros Hs. apply strip_prefix_Some in Hs. by exists EmptyString.
  - destruct (after_last pattern s) as [found|].
    + intros [= ->]. destruct (IH eq_refl) as [prefix ->]. by exists (String c prefix).
    + intros Hs. apply strip_prefix_Some in Hs. by exists EmptyString.
Qed.

Lemma after_last_app pattern prefix s d :
  after_last pattern s = Some d → after_last pattern (prefix ++ s)%string = Some d.
Proof.
  intros Hs. induction prefix as [|c prefix IH]; [done|].
  change (after_last pattern (String c (prefix ++ s)) = Some d). cbn [after_last]. by rewrite IH.
Qed.

Lemma identity_after_last declaration start finish kind :
  (declaration, start, finish, kind) ∈ api_identities →
  after_last "/node_modules/" ("/node_modules/" ++ declaration)%string = Some declaration.
Proof.
  intros Hin.
  assert (Ha : forallb (λ '(d, _, _, _), bool_decide
    (after_last "/node_modules/" ("/node_modules/" ++ d)%string = Some d)) api_identities = true)
    by by vm_compute.
  rewrite forallb_forall in Ha. apply list_elem_of_In in Hin. specialize (Ha _ Hin).
  by apply bool_decide_eq_true in Ha.
Qed.

(** The catalogue pairs a declaration and a span with one kind. *)
Lemma find_identity declaration start finish kind :
  snd <$> find (λ '(p, a, b, _), (p =? declaration)%string && (a =? start)%N && (b =? finish)%N)
    api_identities = Some kind ↔
  (declaration, start, finish, kind) ∈ api_identities.
Proof.
  assert (Hnd : NoDup api_identities.*1).
  { apply (bool_decide_unpack (NoDup api_identities.*1)). by vm_compute. }
  revert Hnd. generalize api_identities. intros l.
  induction l as [|[[[d a] b] k] l IH]; intros Hnd; simpl; [set_solver|].
  apply NoDup_cons in Hnd as [Hx Hnd]. rewrite elem_of_cons.
  destruct ((d =? declaration)%string && (a =? start)%N && (b =? finish)%N) eqn:E.
  - apply andb_true_iff in E as [[->%String.eqb_eq ->%N.eqb_eq]%andb_true_iff ->%N.eqb_eq].
    simpl. split; [intros Hk; simplify_eq; by left|]. intros [Hk|Hin]; [by simplify_eq|].
    destruct Hx. by apply (list_elem_of_fmap_2 fst) in Hin.
  - rewrite IH by done. split; [by right|]. intros [Hk|Hin]; [|done]. simplify_eq.
    by rewrite String.eqb_refl, !N.eqb_refl in E.
Qed.
