(* ===== verification/DialectTheorems.v ===== *)
(** * What the Solid 2 dialect guarantees

    Consistency of the dialect's tables with each other: names, call forms,
    callback statements, browser triggers, cleanup, exports and namespaces. *)
From stdpp Require Import strings.
From S2P Require Import Prelude Order Text Vocabulary Releases ReleasesSpec Exports Solid2 DialectSpec.
Open Scope string_scope.
Open Scope nat_scope.

(** The name table is a partial bijection cut down to what the
    installation exports: a name reads as a primitive exactly when the table
    pairs them and the release exports it, and a primitive is spelled by that
    name alone; the two call forms of [dynamic] are spelled as the call's name. *)
Theorem primitive_names_bijection (self : Solid2) (name : string) (p : Primitive) :
  (primitive self name = Some p ↔ (name, p) ∈ TABLE ∧ exports self p = true) ∧
  (name_of self p = Some name ↔
    primitive self name = Some p ∨ (p ∈ dynamic_forms ∧ name = "dynamic")).
Proof.
  split; [apply primitive_row|]. destruct (decide (p ∈ dynamic_forms)) as [Hp|Hp].
  - assert (Hn : name_of self p = Some "dynamic" ∧ (name, p) ∉ TABLE).
    { split; [unfold dynamic_forms in Hp; set_solver|].
      intros Hin%(list_elem_of_fmap_2 snd). by apply (dynamic_forms_no_row p Hp). }
    destruct Hn as [-> Hn]. rewrite primitive_row. naive_solver.
  - rewrite name_of_row, primitive_row by done. naive_solver.
Qed.

(** A call's form is stable: taking the form of a form changes nothing,
    only [dynamic] and [dynamicComponent] have forms, and a [dynamic] call is the
    static form exactly when the web release reads the option and the call
    passes a literal [static: true]; where no release reads it, it is the
    default form whatever the call passes. *)
Theorem call_form_stable (self : Solid2) (p : Primitive) (option : nat → string → OptionLiteral) :
  call_form self (call_form self p option) option = call_form self p option ∧
  (call_form self p option = p ∨
    (p ∈ [Primitive.Dynamic; Primitive.DynamicComponent] ∧
     call_form self p option ∈
       [Primitive.Dynamic; Primitive.DynamicStatic; Primitive.DynamicUnknownForm])) ∧
  (call_form self Primitive.Dynamic option = Primitive.DynamicStatic ↔
    dynamic_options self = DynamicOptions.StaticForm ∧ option 1 "static" = OptionLiteral.True) ∧
  (call_form self Primitive.Dynamic option = Primitive.Dynamic ↔
    dynamic_options self = DynamicOptions.Ignored ∨
    option 1 "static" = OptionLiteral.Absent ∨ option 1 "static" = OptionLiteral.False).
Proof.
  assert (Hd : call_form self Primitive.Dynamic option =
    match dynamic_options self, option 1 "static" with
    | DynamicOptions.Ignored, _
    | _, (OptionLiteral.Absent | OptionLiteral.False) => Primitive.Dynamic
    | DynamicOptions.StaticForm, OptionLiteral.True => Primitive.DynamicStatic
    | DynamicOptions.StaticForm, OptionLiteral.Unknown
    | DynamicOptions.Unread, (OptionLiteral.True | OptionLiteral.Unknown) =>
        Primitive.DynamicUnknownForm
    end) by done.
  assert (Hc : call_form self Primitive.DynamicComponent option =
    dynamic_component_form self option) by done.
  assert (Hother : ∀ q, q ≠ Primitive.Dynamic → q ≠ Primitive.DynamicComponent →
    call_form self q option = q).
  { intros q H1 H2. unfold call_form. by rewrite !bool_decide_eq_false_2. }
  split; [|split; [|split]].
  - destruct (decide (p = Primitive.Dynamic)) as [->|H1];
      [|destruct (decide (p = Primitive.DynamicComponent)) as [->|H2]].
    + rewrite Hd. destruct (dynamic_options self) eqn:E, (option 1 "static") eqn:E1;
        rewrite ?Hother by done; try done; rewrite Hd, E, ?E1; done.
    + rewrite Hc. unfold dynamic_component_form.
      destruct (rc17_callback_exports self) eqn:Er; cbn [negb].
      * case_bool_decide; cbn [negb]; [|by rewrite Hother].
        destruct (option 1 "static") eqn:E1; rewrite ?Hother by done; try done;
          rewrite Hd, ?E1; destruct (dynamic_options self); by rewrite ?E1.
      * rewrite Hc. unfold dynamic_component_form. by rewrite Er.
    + by rewrite !(Hother p H1 H2).
  - destruct (decide (p = Primitive.Dynamic)) as [->|H1];
      [|destruct (decide (p = Primitive.DynamicComponent)) as [->|H2]].
    + right. rewrite Hd. split; [set_solver|].
      destruct (dynamic_options self), (option 1 "static"); set_solver.
    + rewrite Hc. unfold dynamic_component_form. destruct (rc17_callback_exports self); [right|by left].
      split; [set_solver|]. simpl. case_bool_decide; simpl; [|set_solver].
      destruct (option 1 "static"); set_solver.
    + left. by apply Hother.
  - rewrite Hd. destruct (dynamic_options self), (option 1 "static"); naive_solver.
  - rewrite Hd. destruct (dynamic_options self), (option 1 "static"); naive_solver.
Qed.

(** The answers about one callback agree, at every position of every
    primitive: the execution word is the attributed execution where it is
    stated at all; a callback tracks reads exactly when it is attributed
    tracked, [mapArray]'s map apart; a slot is synchronous exactly when a
    primitive that defers its reads runs it inline; an owner is stated only of a
    callback whose execution is, [hydrate]'s on the releases that may defer it
    apart; and every position the dialect lists is attributed, the unproved form
    of [dynamic] apart. *)
Theorem callback_statements_agree (self : Solid2) (p : Primitive) (a n : nat) :
  let execution := callback_execution_at self p a n in
  (callback_execution_word_at self p a n = None ∨
   callback_execution_word_at self p a n = execution) ∧
  (cs_tracks_reads (callback_semantics_at self p a n) = true ↔
    execution = Some Execution.Tracked ∧ (p, a) ≠ (Primitive.MapArray, 1)) ∧
  (synchronous_callback_slot self p a n = true ↔
    runs_callback_deferred p = true ∧ execution = Some Execution.Inline) ∧
  (callback_owner_at p a n = None ∨ is_Some execution ∨
   (p = Primitive.Hydrate ∧ hydrate_code_inline self = false)) ∧
  (a ∉ callback_positions p ∨ is_Some execution ∨ p = Primitive.DynamicUnknownForm).
Proof.
  cbv zeta. split; [apply word_agrees|]. split; [|split; [|split; [apply owner_attributed|]]].
  - unfold callback_semantics_at. cbn [cs_tracks_reads].
    rewrite !andb_true_iff, bool_decide_eq_true, !negb_true_iff.
    split; [intros [[Ht _] Hu]|intros [Ht Hm]].
    + split; [done|]. by intros [= -> ->].
    + split; [split; [done|by eapply tracked_not_deferred]|].
      unfold callback_runs_untracked_without_window.
      destruct (Nat.eqb_spec a 1) as [->|]; [|done]. by destruct p.
  - unfold synchronous_callback_slot, callback_semantics_at. cbn [cs_execution].
    rewrite andb_true_iff, bool_decide_eq_true. split.
    + intros [Hs He]. split; [|done]. unfold runs_callback_synchronously in Hs.
      by destruct (runs_callback_deferred p).
    + intros [Hd He]. split; [by eapply synchronous_rows|done].
  - destruct (decide (a ∈ callback_positions p)) as [Ha|Ha]; [right|by left].
    by apply positions_attributed.
Qed.

(** The browser runs a callback during the call exactly when its slot is
    synchronous or it is the compute of an effect or of a memo given no second
    argument. A computation the dialect calls eager is one of those and owns
    what it creates; a callback whose timing is after the call, or whose
    execution is deferred, never runs during it; and no trigger is stated of a
    callback whose execution is not. *)
Theorem browser_trigger_during_call (self : Solid2) (p : Primitive) (a n : nat) :
  let trigger := browser_callback_trigger self p a n in
  (trigger = Some BrowserCallbackTrigger.DuringCall ↔
    synchronous_callback_slot self p a n = true ∨
    (a = 0 ∧ (p ∈ [Primitive.CreateEffect; Primitive.CreateRenderEffect] ∨
              (p ∈ [Primitive.CreateMemo; Primitive.CreateDeferred] ∧ n ≤ 1)))) ∧
  (eager_owned_computation_slot p a n = false ∨
   (trigger = Some BrowserCallbackTrigger.DuringCall ∧
    callback_owner_at p a n = Some CallbackOwner.Creates)) ∧
  ¬ (trigger = Some BrowserCallbackTrigger.DuringCall ∧
     (tracked_callback_timing self p a n = Some TrackedCallbackTiming.AfterCall ∨
      callback_execution_at self p a n = Some Execution.Deferred)) ∧
  (trigger = None ∨ is_Some (callback_execution_at self p a n)).
Proof.
  cbv zeta. assert (Hdur := trigger_during self p a n).
  split; [exact Hdur|]. split; [|split].
  - destruct (eager_owned_computation_slot p a n) eqn:He; [right|by left].
    destruct (eager_slot _ _ _ He) as [(Hp & -> & ->)|(-> & -> & ->)].
    + split; [apply Hdur; right; split; [done|right]; by split|].
      by repeat (apply elem_of_cons in Hp as [->|Hp]; [done|]); apply elem_of_nil in Hp.
    + split; [apply Hdur; right|done]. split; [done|]. left. by left.
  - intros [Hd Hl]. apply during_not_late in Hd. tauto.
  - destruct (browser_callback_trigger self p a n) eqn:Ht; [right|by left].
    apply trigger_execution. by rewrite Ht.
Qed.

(** The rc.17-only answers are given on rc.17 alone. The disposal guard
    stands down exactly when the signals release read is rc.17; no other
    installation refuses a creation in an effect callback, and what an effect
    callback refuses to create a cleanup scope refuses too. *)
Theorem effect_callback_refusals (j s w : Release) (p : Primitive) (function : bool) (a : nat) :
  let self := vocabulary_for j s w in
  (stands_down self = true ↔ s = Release.Read 17) ∧
  (throws_creating_in_effect_callback self p function = false ∨
   (s = Release.Read 17 ∧
    (cleanup_rule self p = CleanupRule.Always ∨
     (cleanup_rule self p = CleanupRule.WhenFirstArgumentIsFunction ∧ function = true)))) ∧
  (bundle_error_member_runs_unowned self p a = false ∨
   callback_runs_in_effect_phase self p a = true) ∧
  (exports self Primitive.DynamicComponent = true ↔
    j = Release.Read 17 ∧ s = Release.Read 17 ∧ w = Release.Read 17).
Proof.
  cbv zeta. pose proof (stands_down_read_17 j s w) as Hs.
  split; [exact Hs|]. split; [|split].
  - destruct (stands_down (vocabulary_for j s w)) eqn:Hd.
    + pose proof (proj1 Hs eq_refl) as Hs17. unfold cleanup_rule, throws_creating_in_effect_callback.
      rewrite Hd. destruct p; try (by left); try (right; split; [done|]; by left).
      all: destruct function; [right; split; [done|]; by right|by left].
    + left. unfold throws_creating_in_effect_callback. by rewrite Hd.
  - unfold bundle_error_member_runs_unowned, callback_runs_in_effect_phase.
    destruct (stands_down _); destruct p; try (by left); (destruct a as [|[|a]]; (by left) || (by right)).
  - apply rc17_exports_read_17.
Qed.

(** Asking where a name is exported never panics. The answer lists a module
    once, and lists it exactly when the installation exports the name at all and
    a row of one of the two packages' tables lists it, a type row counting in
    type position only: the binary search loses nothing. Every module listed is
    one the dialect owns. *)
Theorem export_modules_exact (self : Solid2) (name : string) (position : Position) :
  ∃ found, export_modules self name position = Some found ∧ NoDup found ∧
    (∀ m, m ∈ found ↔ gated_off self name = false ∧
      (row_lists solid_js_VALUES name m ∨ row_lists solidjs_web_VALUES name m ∨
       (position = Position.Ty ∧
        (row_lists solid_js_TYPES name m ∨ row_lists solidjs_web_TYPES name m)))) ∧
    Forall (.∈ dialect_modules) found.
Proof.
  rewrite export_modules_scan. eexists. split; [done|].
  destruct tables_sorted as (H1 & H2 & H3 & H4).
  assert (Hin : ∀ m, m ∈ (if gated_off self name then []
     else push_new (exported position solid_js_VALUES solid_js_TYPES name)
            (exported position solidjs_web_VALUES solidjs_web_TYPES name)) ↔
    gated_off self name = false ∧
      (row_lists solid_js_VALUES name m ∨ row_lists solidjs_web_VALUES name m ∨
       (position = Position.Ty ∧
        (row_lists solid_js_TYPES name m ∨ row_lists solidjs_web_TYPES name m)))).
  { intros m. destruct (gated_off self name); [set_solver|].
    rewrite elem_of_push_new, !elem_of_exported by done. tauto. }
  split; [|split; [exact Hin|]].
  - destruct (gated_off self name); [constructor|]. apply push_new_NoDup, exported_NoDup.
  - apply Forall_forall. intros m Hm. apply Hin in Hm as [_ Hm].
    destruct Hm as [Hr|[Hr|[_ [Hr|Hr]]]]; (eapply rows_owned; [|exact Hr]).
    + left.
    + right. right. left.
    + right. left.
    + right. right. right. left.
Qed.

(** A primitive is reachable through a namespace import exactly where it is
    by name: of the three modules with a namespace list, one lists a name the
    vocabulary knows exactly when the module exports it, and every primitive the
    installation exports is exported by a module the dialect owns. *)
Theorem namespace_lists_complete (self : Solid2) (name module : string) (p : Primitive) :
  primitive self name = Some p →
  module ∈ ["solid-js"; "solid-js/internal"; "@solidjs/web"] →
  ∃ found, export_modules self name Position.Value = Some found ∧ found ≠ [] ∧
    (module ∈ found ↔ name ∈ namespace_import_primitives module).
Proof.
  intros [Hrow Hx]%primitive_row Hm. rewrite export_modules_scan.
  rewrite (exported_not_gated self name p Hrow Hx). eexists. split; [done|].
  exact (namespace_rows name p module Hrow Hm).
Qed.

Lemma namespace_lists_complete_witness :
  primitive RC17 "createDeferred" = Some Primitive.CreateDeferred ∧
  "solid-js" ∈ ["solid-js"; "solid-js/internal"; "@solidjs/web"] ∧
  ∃ found, export_modules RC17 "createDeferred" Position.Value = Some found ∧ found ≠ [] ∧
    ("solid-js" ∈ found ↔ "createDeferred" ∈ namespace_import_primitives "solid-js").
Proof.
  assert (Hp : primitive RC17 "createDeferred" = Some Primitive.CreateDeferred) by by vm_compute.
  assert (Hm : "solid-js" ∈ ["solid-js"; "solid-js/internal"; "@solidjs/web"]) by by left.
  split; [exact Hp|]. split; [exact Hm|].
  exact (namespace_lists_complete RC17 "createDeferred" "solid-js" Primitive.CreateDeferred Hp Hm).
Defined.

(** A declaration is a runtime-configuration API exactly when its path,
    with forward slashes, ends in [node_modules] and a catalogued declaration
    file and the span is the catalogued one; nothing before that directory, and
    neither kind of separator, matters. *)
Theorem runtime_configuration_exact (path : string) (start finish : N)
    (kind : RuntimeConfigurationApi) :
  runtime_configuration_api path start finish = Some kind ↔
  ∃ prefix declaration,
    forward_slashes path = (prefix ++ "/node_modules/" ++ declaration)%string ∧
    (declaration, start, finish, kind) ∈ api_identities.
Proof.
  unfold runtime_configuration_api. rewrite bind_Some. split.
  - intros (declaration & Hd & Hk). apply after_last_Some in Hd as [prefix ->].
    exists prefix, declaration. split; [done|]. by apply find_identity.
  - intros (prefix & declaration & -> & Hin). exists declaration.
    split; [|by apply find_identity]. apply after_last_app. by eapply identity_after_last.
Qed.
