(* ===== verification/Reachability.v ===== *)
(** * Call multiplicity: counting the paths that reach each function

    Model of [path_counts], [condensation_counts] and [reached_components] of
    [rust/crates/solid-reactive-ir/src/reachability.rs]. The vectors the code
    uses as stacks ([stack], [ready], [frames]) are lists with the top first;
    [order] and [members] are pushed at the end. An index out of range, a
    subtraction below zero and a loop that outlives its fuel are all [None].
    The work counter [visits] is an unbounded number here; its exact value is
    proved in the theorem file. *)
From S2P Require Import Prelude.

(** ** [u64] counts *)

Definition u64_max : N := (2 ^ 64 - 1)%N.

(** [u64::saturating_add]. *)
Definition saturating_add (a b : N) : N := N.min (a + b) u64_max.

(** [x -= 1] on a [usize]. *)
Definition checked_pred (n : nat) : option nat :=
  match n with 0 => None | S n => Some n end.

(** [v[i] = f(v[i])]. *)
Definition vec_update {A} (v : list A) (i : nat) (f : A → A) : option (list A) :=
  x ← v !! i; v.[i <- f x].

(** ** The functions some root reaches *)

(** The body of [for &root in roots]. *)
Definition mark_root (s : list bool * list nat) (root : nat)
  : option (list bool * list nat) :=
  let '(reached, stack) := s in
  seen ← reached !! root;
  if (seen : bool) then Some (reached, stack)
  else reached ← reached.[root <- true]; Some (reached, root :: stack).

Record Walk := mk_walk {
  wk_reached : list bool;
  wk_stack : list nat;
  wk_incoming : list nat;
  wk_count : nat;
  wk_visits : N
}.

(** The body of [for &target in &edges[function]]. *)
Definition walk_edge (function : nat) (w : Walk) (target : nat) : option Walk :=
  let visits := (wk_visits w + 1)%N in
  if decide (target = function) then
    Some (mk_walk (wk_reached w) (wk_stack w) (wk_incoming w) (wk_count w) visits)
  else
    incoming ← vec_update (wk_incoming w) target S;
    seen ← wk_reached w !! target;
    if (seen : bool) then
      Some (mk_walk (wk_reached w) (wk_stack w) incoming (wk_count w) visits)
    else
      reached ← (wk_reached w).[target <- true];
      Some (mk_walk reached (target :: wk_stack w) incoming (wk_count w) visits).

(** [while let Some(function) = stack.pop()]. *)
Fixpoint walk (fuel : nat) (edges : list (list nat)) (w : Walk) : option Walk :=
  match wk_stack w with
  | [] => Some w
  | function :: stack =>
      match fuel with
      | 0 => None
      | S fuel =>
          targets ← edges !! function;
          w ← foldM (walk_edge function)
                (mk_walk (wk_reached w) stack (wk_incoming w) (S (wk_count w))
                         (wk_visits w + 1)) targets;
          walk fuel edges w
      end
  end.

(** ** Topological order *)

Definition order_edge (function : nat) (s : list nat * list nat) (target : nat)
  : option (list nat * list nat) :=
  let '(incoming, ready) := s in
  if decide (target = function) then Some (incoming, ready)
  else
    n ← incoming !! target;
    n ← checked_pred n;
    incoming ← incoming.[target <- n];
    Some (incoming, if decide (n = 0) then target :: ready else ready).

(** [while let Some(function) = ready.pop()]. *)
Fixpoint kahn (fuel : nat) (edges : list (list nat)) (incoming ready order : list nat)
  : option (list nat) :=
  match ready with
  | [] => Some order
  | function :: ready =>
      match fuel with
      | 0 => None
      | S fuel =>
          targets ← edges !! function;
          '(incoming, ready) ← foldM (order_edge function) (incoming, ready) targets;
          kahn fuel edges incoming ready (order ++ [function])
      end
  end.

(** ** Counting in topological order *)

(** [counts[root] = counts[root].saturating_add(1)]. *)
Definition count_root (counts : list N) (root : nat) : option (list N) :=
  vec_update counts root (λ c, saturating_add c 1).

Definition count_edge (function : nat) (count : N) (s : list N * N) (target : nat)
  : option (list N * N) :=
  let '(counts, visits) := s in
  if decide (target = function) then Some (counts, (visits + 1)%N)
  else
    counts ← vec_update counts target (λ c, saturating_add c count);
    Some (counts, (visits + 1)%N).

(** The body of [for function in order]. *)
Definition count_function (edges : list (list nat)) (s : list N * N) (function : nat)
  : option (list N * N) :=
  let '(counts, visits) := s in
  count ← counts !! function;
  targets ← edges !! function;
  foldM (count_edge function count) (counts, (visits + 1)%N) targets.

(** ** Strongly connected components (Tarjan, iterative)

    [index] and [component] hold [UNSEEN = usize::MAX] for a function not seen:
    here [None]. *)

Record Tarjan := mk_tarjan {
  tj_index : list (option nat);
  tj_low : list nat;
  tj_on_stack : list bool;
  tj_component : list (option nat);
  tj_stack : list nat;
  tj_frames : list (nat * nat);
  tj_next : nat;
  tj_components : nat;
  tj_visits : N
}.

(** Numbering a function and opening its frame. *)
Definition tj_enter (t : Tarjan) (function : nat) : option Tarjan :=
  index ← (tj_index t).[function <- Some (tj_next t)];
  low ← (tj_low t).[function <- tj_next t];
  on_stack ← (tj_on_stack t).[function <- true];
  Some (mk_tarjan index low on_stack (tj_component t) (function :: tj_stack t)
          ((function, 0) :: tj_frames t) (S (tj_next t)) (tj_components t) (tj_visits t)).

(** [while let Some(member) = stack.pop()], up to and including [function]. *)
Fixpoint tj_pop (stack : list nat) (function held : nat)
    (on_stack : list bool) (component : list (option nat))
  : option (list nat * list bool * list (option nat)) :=
  match stack with
  | [] => Some ([], on_stack, component)
  | member :: stack =>
      on_stack ← on_stack.[member <- false];
      component ← component.[member <- Some held];
      if decide (member = function) then Some (stack, on_stack, component)
      else tj_pop stack function held on_stack component
  end.

Definition tj_set_low (t : Tarjan) (low : list nat) : Tarjan :=
  mk_tarjan (tj_index t) low (tj_on_stack t) (tj_component t) (tj_stack t) (tj_frames t)
    (tj_next t) (tj_components t) (tj_visits t).

Definition tj_set_frames (t : Tarjan) (frames : list (nat * nat)) : Tarjan :=
  mk_tarjan (tj_index t) (tj_low t) (tj_on_stack t) (tj_component t) (tj_stack t) frames
    (tj_next t) (tj_components t) (tj_visits t + 1).

(** The edge branch of the loop body. *)
Definition tj_edge (t : Tarjan) (function target : nat) : option Tarjan :=
  seen ← tj_index t !! target;
  match seen with
  | None => tj_enter t target
  | Some i =>
      on_stack ← tj_on_stack t !! target;
      if (on_stack : bool) then
        low ← vec_update (tj_low t) function (λ l, l `min` i);
        Some (tj_set_low t low)
      else Some t
  end.

(** The end of a frame, already popped. *)
Definition tj_leave (t : Tarjan) (function : nat) : option Tarjan :=
  low_function ← tj_low t !! function;
  low ← match tj_frames t with
        | (parent, _) :: _ => vec_update (tj_low t) parent (λ l, l `min` low_function)
        | [] => Some (tj_low t)
        end;
  let t := tj_set_low t low in
  low_function ← low !! function;
  index_function ← tj_index t !! function;
  if decide (index_function = Some low_function) then
    '(stack, on_stack, component) ←
      tj_pop (tj_stack t) function (tj_components t) (tj_on_stack t) (tj_component t);
    Some (mk_tarjan (tj_index t) (tj_low t) on_stack component stack (tj_frames t)
            (tj_next t) (S (tj_components t)) (tj_visits t))
  else Some t.

(** [while let Some(frame) = frames.last_mut()]. *)
Fixpoint tj_run (fuel : nat) (edges : list (list nat)) (t : Tarjan) : option Tarjan :=
  match tj_frames t with
  | [] => Some t
  | (function, next) :: frames =>
      match fuel with
      | 0 => None
      | S fuel =>
          targets ← edges !! function;
          t ← match targets !! next with
              | Some target =>
                  tj_edge (tj_set_frames t ((function, S next) :: frames)) function target
              | None => tj_leave (tj_set_frames t frames) function
              end;
          tj_run fuel edges t
      end
  end.

(** The body of [for start in 0..edges.len()]. *)
Definition tj_start (edges : list (list nat)) (reached : list bool) (fuel : nat)
    (t : Tarjan) (start : nat) : option Tarjan :=
  is_reached ← reached !! start;
  if negb is_reached then Some t
  else
    seen ← tj_index t !! start;
    match seen with
    | Some _ => Some t
    | None => t ← tj_enter t start; tj_run fuel edges t
    end.

(** A frame per function and a step per edge. *)
Definition edge_count (edges : list (list nat)) : nat := sum_list (length <$> edges).

Definition reached_components (edges : list (list nat)) (reached : list bool) (visits : N)
  : option (list (option nat) * nat * N) :=
  let n := length edges in
  t ← foldM (tj_start edges reached (n + edge_count edges))
        (mk_tarjan (replicate n None) (replicate n 0) (replicate n false) (replicate n None)
           [] [] 0 0 visits)
        (seq 0 n);
  Some (tj_component t, tj_components t, tj_visits t).

(** ** Counting on the condensation *)

(** [members[held].push(function)] for a reached function; [held] is
    [UNSEEN], hence out of range, where [component] is [None]. *)
Definition add_member (reached : list bool) (members : list (list nat))
    (e : nat * option nat) : option (list (list nat)) :=
  let '(function, held) := e in
  is_reached ← reached !! function;
  if (is_reached : bool) then
    held ← held;
    vec_update members held (λ l, l ++ [function])
  else Some members.

Definition count_component_root (component : list (option nat)) (counts : list N)
    (root : nat) : option (list N) :=
  held ← mjoin (component !! root);
  vec_update counts held (λ c, saturating_add c 1).

Definition count_component_edge (component : list (option nat)) (held : nat) (count : N)
    (s : list N * N) (target : nat) : option (list N * N) :=
  let '(counts, visits) := s in
  target_component ← component !! target;
  if decide (target_component = Some held) then Some (counts, (visits + 1)%N)
  else
    into ← target_component;
    counts ← vec_update counts into (λ c, saturating_add c count);
    Some (counts, (visits + 1)%N).

Definition count_member (edges : list (list nat)) (component : list (option nat))
    (held : nat) (count : N) (s : list N * N) (function : nat) : option (list N * N) :=
  let '(counts, visits) := s in
  targets ← edges !! function;
  foldM (count_component_edge component held count) (counts, (visits + 1)%N) targets.

(** The body of [for held in (0..components).rev()]. *)
Definition count_component (edges : list (list nat)) (component : list (option nat))
    (members : list (list nat)) (s : list N * N) (held : nat) : option (list N * N) :=
  count ← s.1 !! held;
  functions ← members !! held;
  foldM (count_member edges component held count) s functions.

Definition condensation_counts (roots : list nat) (edges : list (list nat))
    (reached : list bool) (visits : N) : option (list N * N) :=
  '(component, components, visits) ← reached_components edges reached visits;
  members ← foldM (add_member reached) (replicate components []) (imap pair component);
  component_counts ← foldM (count_component_root component) (replicate components 0%N) roots;
  '(component_counts, visits) ←
    foldM (count_component edges component members) (component_counts, visits)
          (reverse (seq 0 components));
  counts ← mapM (λ function,
      is_reached ← reached !! function;
      if (is_reached : bool) then
        held ← mjoin (component !! function);
        component_counts !! held
      else Some 0%N) (seq 0 (length edges));
  Some (counts, visits).

(** ** [path_counts] *)

Definition path_counts (roots : list nat) (edges : list (list nat)) (visits : N)
  : option (list N * N) :=
  let n := length edges in
  '(reached, stack) ← foldM mark_root (replicate n false, []) roots;
  w ← walk n edges (mk_walk reached stack (replicate n 0) 0 visits);
  let ready := reverse (filter (λ function,
      wk_reached w !! function = Some true ∧ wk_incoming w !! function = Some 0) (seq 0 n)) in
  order ← kahn n edges (wk_incoming w) ready [];
  if decide (length order = wk_count w) then
    counts ← foldM count_root (replicate n 0%N) roots;
    foldM (count_function edges) (counts, wk_visits w) order
  else condensation_counts roots edges (wk_reached w) (wk_visits w).

(** ** The walk the counts replace

    [walk_paths] and [walked] of the file's tests: every path from every root
    that revisits no function. The depth is bounded by the number of functions,
    so [S (length edges)] is enough fuel. *)

Fixpoint walk_paths (fuel : nat) (edges : list (list nat)) (visiting : gset nat)
    (counts : list N) (function : nat) : option (list N) :=
  if decide (function ∈ visiting) then Some counts
  else
    match fuel with
    | 0 => None
    | S fuel =>
        counts ← vec_update counts function (λ c, saturating_add c 1);
        targets ← edges !! function;
        foldM (walk_paths fuel edges ({[function]} ∪ visiting)) counts targets
    end.

Definition walked (roots : list nat) (edges : list (list nat)) : option (list N) :=
  foldM (walk_paths (length edges) edges ∅) (replicate (length edges) 0%N) roots.

(** The file's test graphs. *)
Example path_counts_after_cycle :
  fst <$> path_counts [0] [[1]; [2]; [1; 3; 3]; []] 0 = Some [1; 1; 1; 2]%N.
Proof. vm_compute. reflexivity. Qed.

Example path_counts_unreached_cycle :
  fst <$> path_counts [0] [[1; 1]; [2; 2]; []; [4]; [3]] 0 = Some [1; 2; 4; 0; 0]%N
  ∧ walked [0] [[1; 1]; [2; 2]; []; [4]; [3]] = Some [1; 2; 4; 0; 0]%N.
Proof. vm_compute. done. Qed.
