(* ===== verification/ReachabilitySpec.v ===== *)
(** * Reachability: the walk and the topological order

    What the first two loops of [path_counts] compute: the functions a root
    reaches with their incoming edge counts, and a topological order of them
    exactly when no root reaches a cycle.

    Then: reachability: what the counts are where no root reaches a cycle. *)
From S2P Require Import Prelude Reachability.

(** ** Graphs *)

Definition succs (edges : list (list nat)) (u : nat) : list nat := default [] (edges !! u).

Definition edge (edges : list (list nat)) (u v : nat) : Prop := v ∈ succs edges u.

(** An edge a path can take: a self edge never extends one. *)
Definition strict_edge (edges : list (list nat)) (u v : nat) : Prop :=
  edge edges u v ∧ u ≠ v.

(** Every root and every edge target is a function. *)
Record graph_wf (roots : list nat) (edges : list (list nat)) : Prop := {
  gw_roots : ∀ r, r ∈ roots → r < length edges;
  gw_edges : ∀ u v, edge edges u v → v < length edges
}.

Definition from_roots (roots : list nat) (edges : list (list nat)) (v : nat) : Prop :=
  ∃ r, r ∈ roots ∧ rtc (edge edges) r v.

(** No function a root reaches comes back to itself through another. *)
Definition acyclic (roots : list nat) (edges : list (list nat)) : Prop :=
  ∀ f, from_roots roots edges f → ¬ tc (strict_edge edges) f f.

(** How often [t] is listed. *)
Definition occ (t : nat) (l : list nat) : nat := length (filter (λ x, x = t) l).

(** The edges into [t] from other functions of [l]. *)
Definition inc (edges : list (list nat)) (l : list nat) (t : nat) : nat :=
  sum_list_with (λ f, if decide (f = t) then 0 else occ t (succs edges f)) l.

(** The work of visiting every function of [l] and its edges once. *)
Definition work (edges : list (list nat)) (l : list nat) : nat :=
  sum_list_with (λ f, S (length (succs edges f))) l.

#[global] Arguments occ : simpl never.
#[global] Arguments inc : simpl never.
#[global] Arguments work : simpl never.
#[local] Arguments order_edge : simpl never.

(** ** Counting lemmas *)

Lemma occ_app t l1 l2 : occ t (l1 ++ l2) = occ t l1 + occ t l2.
Proof. unfold occ. by rewrite filter_app, length_app. Qed.

Lemma occ_cons t x l : occ t (x :: l) = (if decide (x = t) then 1 else 0) + occ t l.
Proof. unfold occ. rewrite filter_cons. by destruct (decide (x = t)). Qed.

Lemma occ_snoc t l x : occ t (l ++ [x]) = occ t l + (if decide (x = t) then 1 else 0).
Proof. rewrite occ_app, occ_cons. change (occ t []) with 0. lia. Qed.

Lemma occ_pos t l : 0 < occ t l ↔ t ∈ l.
Proof.
  induction l as [|x l IH]; [unfold occ; simpl; split; [lia|by intros ?%elem_of_nil]|].
  rewrite occ_cons, elem_of_cons. destruct (decide (x = t)); naive_solver lia.
Qed.

Lemma occ_nil t : occ t [] = 0.
Proof. done. Qed.

Lemma inc_cons edges f l t :
  inc edges (f :: l) t =
    (if decide (f = t) then 0 else occ t (succs edges f)) + inc edges l t.
Proof. done. Qed.

Lemma work_cons edges f l : work edges (f :: l) = S (length (succs edges f)) + work edges l.
Proof. done. Qed.

Lemma sum_list_with_perm {A} (f : A → nat) l1 l2 :
  l1 ≡ₚ l2 → sum_list_with f l1 = sum_list_with f l2.
Proof. induction 1; simpl; lia. Qed.

Lemma inc_perm edges l1 l2 t : l1 ≡ₚ l2 → inc edges l1 t = inc edges l2 t.
Proof. apply sum_list_with_perm. Qed.

Lemma inc_zero edges l t :
  inc edges l t = 0 ↔ ∀ u, u ∈ l → edge edges u t → u = t.
Proof.
  unfold inc. induction l as [|f l IH]; simpl.
  - split; [intros _ ? []%elem_of_nil|done].
  - pose proof (occ_pos t (succs edges f)). unfold edge in *.
    setoid_rewrite elem_of_cons. destruct (decide (f = t)); [naive_solver lia|].
    split.
    + intros Hz. assert (occ t (succs edges f) = 0) as Hz1 by lia.
      assert (sum_list_with (λ f, if decide (f = t) then 0 else occ t (succs edges f)) l = 0)
        as Hz2 by lia.
      rewrite IH in Hz2. intros u [->|Hu] Hut; [|by apply Hz2].
      exfalso. apply H in Hut. lia.
    + intros Hall. assert (¬ t ∈ succs edges f) as Hn by naive_solver.
      rewrite <- H in Hn. assert (occ t (succs edges f) = 0) as -> by lia.
      apply IH. naive_solver.
Qed.

(** The work of the whole graph bounds that of any part. *)
Lemma work_all es : work es (seq 0 (length es)) = length es + edge_count es.
Proof.
  unfold edge_count. induction es as [|ts es IH]; [done|].
  cbn [length seq fmap list_fmap]. rewrite <- fmap_S_seq, work_cons. simpl.
  assert (∀ l, work (ts :: es) (S <$> l) = work es l) as ->.
  { induction l as [|a l IHl]; [done|]. rewrite fmap_cons, !work_cons, IHl. done. }
  rewrite IH. change (succs (ts :: es) 0) with ts. simpl. lia.
Qed.

Lemma work_bound es (P : nat → Prop) `{!∀ v, Decision (P v)} :
  work es (filter P (seq 0 (length es))) ≤ length es + edge_count es.
Proof.
  rewrite <- (work_all es). induction (seq 0 (length es)) as [|v l IH]; [done|].
  rewrite filter_cons, work_cons. case_decide; [rewrite work_cons|]; lia.
Qed.

Lemma NoDup_bound n (l : list nat) : NoDup l → (∀ x, x ∈ l → x < n) → length l ≤ n.
Proof.
  intros Hnd Hlt. rewrite <- (length_seq n 0). apply submseteq_length.
  apply NoDup_submseteq; [done|]. intros x Hx. apply elem_of_seq. split; [lia|]. by apply Hlt.
Qed.

Lemma vec_update_spec {A} (v : list A) i f x :
  v !! i = Some x → vec_update v i f = Some (<[i := f x]> v).
Proof.
  intros Hx. unfold vec_update. rewrite Hx. simpl.
  by rewrite vec_set_spec by (by eapply lookup_lt_Some).
Qed.

Section graph.
Context (roots : list nat) (edges : list (list nat)) (Hwf : graph_wf roots edges).

Lemma succs_lookup u : u < length edges → edges !! u = Some (succs edges u).
Proof. intros [ts Hts]%lookup_lt_is_Some_2. unfold succs. by rewrite Hts. Qed.

Lemma from_roots_lt v : from_roots roots edges v → v < length edges.
Proof.
  intros (r & Hr & Hrv). destruct (rtc_inv_r _ _ Hrv) as [->|(u & _ & Hu)].
  - by apply Hwf.
  - by eapply gw_edges.
Qed.

Lemma from_roots_edge u v :
  from_roots roots edges u → edge edges u v → from_roots roots edges v.
Proof. intros (r & Hr & Hru) Huv. exists r. split; [done|]. by eapply rtc_r. Qed.

Lemma from_roots_root r : r ∈ roots → from_roots roots edges r.
Proof. intros Hr. exists r. split; [done|]. apply rtc_refl. Qed.

(** ** The walk *)

Record mark_inv (seen : list nat) (s : list bool * list nat) : Prop := {
  mi_len : length s.1 = length edges;
  mi_nodup : NoDup s.2;
  mi_reached : ∀ v, s.1 !! v = Some true ↔ v ∈ s.2;
  mi_stack : ∀ v, v ∈ s.2 ↔ v ∈ seen
}.

Lemma mark_roots_spec :
  ∃ s, foldM mark_root (replicate (length edges) false, []) roots = Some s ∧
       mark_inv roots s.
Proof.
  apply (foldM_spec mark_inv).
  - split; simpl; [apply length_replicate|apply NoDup_nil_2| |done].
    intros v. rewrite lookup_replicate, elem_of_nil. naive_solver.
  - intros seen [reached stack] r rest Hr [Hl Hnd Hre Hst]; simpl in *.
    assert (r < length edges) as Hlt.
    { apply Hwf. rewrite Hr. apply elem_of_app. right. by left. }
    destruct (lookup_lt_is_Some_2 reached r) as [b Hb]; [lia|]. rewrite Hb; simpl.
    destruct b.
    + eexists; split; [done|]. split; simpl; [done..|].
      intros v. rewrite elem_of_app, list_elem_of_singleton, <- Hst.
      split; [by left|intros [?| ->]; [done|]]. by apply Hre.
    + rewrite vec_set_spec by lia. simpl. eexists; split; [done|]. split; simpl.
      * by rewrite length_insert.
      * apply NoDup_cons. split; [|done]. rewrite <- Hre. congruence.
      * intros v. rewrite elem_of_cons, <- Hre. destruct (decide (v = r)) as [->|].
        -- rewrite list_lookup_insert_eq by lia. naive_solver.
        -- rewrite list_lookup_insert_ne by done. naive_solver.
      * intros v. rewrite elem_of_app, elem_of_cons, list_elem_of_singleton, Hst. tauto.
Qed.

(** After the functions [done] are walked; [cur] is the part of the edges of
    [f] already taken when a function is being walked. *)
Record walk_inv (v0 : N) (done : list nat) (f : option nat) (cur : list nat) (w : Walk)
  : Prop := {
  wi_len : length (wk_reached w) = length edges;
  wi_len' : length (wk_incoming w) = length edges;
  wi_count : wk_count w = length (option_list f ++ done);
  wi_nodup : NoDup (option_list f ++ done ++ wk_stack w);
  wi_reached : ∀ v, wk_reached w !! v = Some true ↔ v ∈ option_list f ++ done ++ wk_stack w;
  wi_from : ∀ v, v ∈ option_list f ++ done ++ wk_stack w → from_roots roots edges v;
  wi_roots : ∀ r, r ∈ roots → r ∈ option_list f ++ done ++ wk_stack w;
  wi_closed : ∀ u v, u ∈ done → edge edges u v → v ∈ option_list f ++ done ++ wk_stack w;
  wi_cur : ∀ v, v ∈ cur → v ∈ option_list f ++ done ++ wk_stack w;
  wi_incoming : ∀ t, t < length edges → wk_incoming w !! t =
    Some (inc edges done t + (if decide (f = Some t) then 0 else occ t cur));
  wi_visits : wk_visits w =
    (v0 + N.of_nat (work edges done + length (option_list f) + length cur))%N
}.

Lemma walk_edge_spec v0 done f cur w t :
  edge edges f t → walk_inv v0 done (Some f) cur w →
  ∃ w', walk_edge f w t = Some w' ∧ walk_inv v0 done (Some f) (cur ++ [t]) w'.
Proof.
  intros Hft [Hl Hl' Hc Hnd Hre Hfr Hro Hcl Hcu Hin Hvi]. simpl in *.
  assert (t < length edges) as Ht by (by eapply gw_edges).
  assert (from_roots roots edges t) as Hfrt.
  { eapply from_roots_edge; [|done]. apply Hfr. by left. }
  assert (∀ a : nat, (a + length (cur ++ [t]) = S (a + length cur))%nat) as Hlen.
  { intros. rewrite length_app. simpl. lia. }
  unfold walk_edge. destruct (decide (t = f)) as [->|Hne].
  { eexists; split; [done|]. split; simpl; try done.
    - intros v [?|Hv]%elem_of_app; [by apply Hcu|]. apply list_elem_of_singleton in Hv as ->. by left.
    - intros v Hv. rewrite Hin by done. rewrite occ_snoc.
      destruct (decide (Some f = Some v)), (decide (f = v)); simplify_eq; f_equal; lia.
    - rewrite Hvi, Hlen. lia. }
  assert (∃ i, wk_incoming w !! t = Some i) as [i Hi] by (rewrite Hin by done; eauto).
  rewrite (vec_update_spec _ _ _ _ Hi). simpl.
  destruct (lookup_lt_is_Some_2 (wk_reached w) t) as [b Hb]; [lia|]. rewrite Hb; simpl.
  assert (∀ x, x < length edges → <[t:=S i]> (wk_incoming w) !! x =
    Some (inc edges done x + (if decide (Some f = Some x) then 0 else occ x (cur ++ [t]))))
    as Hin'.
  { intros x Hx. rewrite occ_snoc. destruct (decide (t = x)) as [<-|].
    - rewrite list_lookup_insert_eq by lia. rewrite Hin in Hi by done.
      destruct (decide (Some f = Some t)); simplify_eq; f_equal; lia.
    - rewrite list_lookup_insert_ne, Hin by done.
      destruct (decide (Some f = Some x)); f_equal; lia. }
  destruct b.
  - eexists; split; [done|]. split; simpl; try done.
    + by rewrite length_insert.
    + intros v [?|Hv]%elem_of_app; [by apply Hcu|]. apply list_elem_of_singleton in Hv as ->.
      by apply Hre.
    + rewrite Hvi, Hlen. lia.
  - rewrite vec_set_spec by lia. simpl. eexists; split; [done|].
    assert (t ∉ f :: done ++ wk_stack w) as Hnt by (rewrite <- Hre; congruence).
    assert (f :: done ++ t :: wk_stack w ≡ₚ t :: f :: done ++ wk_stack w) as Hp
      by (rewrite <- Permutation_middle; constructor).
    split; simpl; try done.
    + by rewrite length_insert.
    + by rewrite length_insert.
    + rewrite Hp. by apply NoDup_cons.
    + intros v. rewrite Hp, elem_of_cons, <- Hre. destruct (decide (v = t)) as [->|].
      * rewrite list_lookup_insert_eq by lia. naive_solver.
      * rewrite list_lookup_insert_ne by done. naive_solver.
    + intros v. rewrite Hp, elem_of_cons. intros [->|?]; [done|by apply Hfr].
    + intros r Hr. rewrite Hp. right. by apply Hro.
    + intros u v Hu Huv. rewrite Hp. right. by eapply Hcl.
    + intros v [?|Hv]%elem_of_app; rewrite Hp; [right; by apply Hcu|].
      apply list_elem_of_singleton in Hv as ->. by left.
    + rewrite Hvi, Hlen. lia.
Qed.

Lemma walk_spec v0 fuel done w :
  length edges ≤ fuel + length done →
  walk_inv v0 done None [] w →
  ∃ w' all, walk fuel edges w = Some w' ∧ wk_stack w' = [] ∧ walk_inv v0 all None [] w'.
Proof.
  revert done w. induction fuel as [|fuel IH]; intros done w Hf Hw.
  all: destruct (wk_stack w) as [|f stack] eqn:Hst; [by eexists w, done; simpl; rewrite Hst|].
  { exfalso. assert (length (done ++ wk_stack w) ≤ length edges) as Hb.
    { apply NoDup_bound; [apply Hw|]. intros x Hx. eapply from_roots_lt, wi_from; done. }
    rewrite length_app, Hst in Hb. simpl in *. lia. }
  simpl. rewrite Hst. destruct Hw as [Hl Hl' Hc Hnd Hre Hfr Hro Hcl Hcu Hin Hvi]; simpl in *.
  rewrite Hst in *.
  assert (∀ v, v ∈ done ++ f :: stack ↔ v ∈ f :: done ++ stack) as Heq.
  { intros v. by rewrite <- Permutation_middle. }
  rewrite succs_lookup by (apply from_roots_lt, Hfr, Heq; by left). simpl.
  edestruct (foldM_spec (λ cur w, walk_inv v0 done (Some f) cur w) (walk_edge f)
    (succs edges f)) as (w' & -> & Hw'); swap 1 3; simpl.
  - destruct Hw' as [Hl2 Hl2' Hc2 Hnd2 Hre2 Hfr2 Hro2 Hcl2 Hcu2 Hin2 Hvi2]; simpl in *.
    apply (IH (f :: done)); [simpl; lia|]. split; simpl; try done.
    + intros u v [->|Hu]%elem_of_cons Huv; [by apply Hcu2|by eapply Hcl2].
    + by intros v ?%elem_of_nil.
    + intros t Ht. rewrite Hin2 by done. rewrite inc_cons, occ_nil. simpl.
      destruct (decide (Some f = Some t)), (decide (f = t)); simplify_eq;
      f_equal; lia.
    + rewrite Hvi2. lia.
  - intros cur w0 t rest Hts Hw0. apply walk_edge_spec; [|done].
    unfold edge. rewrite Hts. apply elem_of_app. right. by left.
  - split; simpl; try done.
    + lia.
    + by rewrite Permutation_middle.
    + intros v. by rewrite <- Heq.
    + intros v. rewrite <- Heq. apply Hfr.
    + intros r Hr. apply Heq. by apply Hro.
    + intros u v Hu Huv. apply Heq. by eapply Hcl.
    + by intros v ?%elem_of_nil.
    + intros t Ht. rewrite Hin, occ_nil by done. simpl. by destruct (decide _).
    + rewrite Hvi. simpl. lia.
Qed.

(** What the walk of the whole graph returns. *)
Record walked_all (v0 : N) (all : list nat) (w : Walk) : Prop := {
  wa_len : length (wk_reached w) = length edges;
  wa_len' : length (wk_incoming w) = length edges;
  wa_count : wk_count w = length all;
  wa_nodup : NoDup all;
  wa_reached : ∀ v, wk_reached w !! v = Some true ↔ v ∈ all;
  wa_from : ∀ v, v ∈ all ↔ from_roots roots edges v;
  wa_incoming : ∀ t, t < length edges → wk_incoming w !! t = Some (inc edges all t);
  wa_visits : wk_visits w = (v0 + N.of_nat (work edges all))%N
}.

Lemma walk_all_spec v0 :
  ∃ reached stack w all,
    foldM mark_root (replicate (length edges) false, []) roots = Some (reached, stack) ∧
    walk (length edges) edges (mk_walk reached stack (replicate (length edges) 0) 0 v0) = Some w ∧
    walked_all v0 all w.
Proof.
  destruct mark_roots_spec as ([reached stack] & Hm & [Hl Hnd Hre Hst]); simpl in *.
  edestruct (walk_spec v0 (length edges) [] (mk_walk reached stack
    (replicate (length edges) 0) 0 v0)) as (w & all & Hw & Hws & Hinv); [simpl; lia| |].
  - split; simpl; try done.
    + by rewrite length_replicate.
    + intros v Hv. by apply from_roots_root, Hst.
    + intros r Hr. by apply Hst.
    + intros u v Hu. by apply elem_of_nil in Hu.
    + intros v Hv. by apply elem_of_nil in Hv.
    + intros t Ht. rewrite lookup_replicate_2 by done. done.
    + lia.
  - destruct Hinv as [Hl2 Hl2' Hc2 Hnd2 Hre2 Hfr2 Hro2 Hcl2 Hcu2 Hin2 Hvi2]; simpl in *.
    rewrite Hws, app_nil_r in *.
    exists reached, stack, w, all. split; [done|]. split; [done|]. split; try done.
    + intros v. split; [apply Hfr2|]. intros (r & Hr & Hrv). revert v Hrv. apply rtc_ind_r; [by apply Hro2|].
      intros y z _ Hyz Hy. by eapply Hcl2.
    + intros t Ht. rewrite Hin2, occ_nil by done. f_equal. simpl. lia.
    + rewrite Hvi2. simpl. lia.
Qed.

(** ** The topological order *)

(** [rest] are the functions not ordered yet; [f] the one being ordered, with
    the part [todo] of its edges still to be subtracted. *)
Record kahn_inv (all : list nat) (order rest : list nat) (f : option nat) (todo : list nat)
    (incoming ready : list nat) : Prop := {
  ki_len : length incoming = length edges;
  ki_split : all ≡ₚ option_list f ++ order ++ rest;
  ki_nodup : NoDup ready;
  ki_ready : ∀ t, t ∈ ready ↔ t ∈ rest ∧ incoming !! t = Some 0;
  ki_incoming : ∀ t, t < length edges → incoming !! t =
    Some (inc edges rest t + (if decide (f = Some t) then 0 else occ t todo));
  ki_order : ∀ P x Q u, order = P ++ x :: Q → u ∈ all → strict_edge edges u x → u ∈ P
}.

Definition closed (all : list nat) : Prop :=
  ∀ u v, u ∈ all → edge edges u v → v ∈ all.

Lemma order_edge_spec all order rest f todo incoming ready t :
  NoDup all → t ∈ all → (∀ x, x ∈ all → x < length edges) →
  (t ≠ f → t ∉ order) →
  kahn_inv all order rest (Some f) (t :: todo) incoming ready →
  ∃ incoming' ready', order_edge f (incoming, ready) t = Some (incoming', ready') ∧
    kahn_inv all order rest (Some f) todo incoming' ready'.
Proof.
  intros Hnd Ht Hlt Hno [Hl Hs Hndr Hre Hin Ho]. unfold order_edge.
  destruct (decide (t = f)) as [->|Hne].
  { eexists _, _. split; [done|]. split; try done.
    intros x Hx. rewrite Hin, occ_cons by done. f_equal.
    destruct (decide (Some f = Some x)), (decide (f = x)); simplify_eq; lia. }
  assert (t < length edges) as Htl by auto.
  assert (incoming !! t = Some (S (inc edges rest t + occ t todo))) as Hit.
  { rewrite Hin by done. rewrite decide_False by naive_solver.
    rewrite occ_cons, decide_True by done. f_equal. lia. }
  rewrite Hit. simpl. rewrite vec_set_spec by lia. simpl.
  assert (t ∈ rest) as Htr.
  { rewrite Hs in Ht. simpl in Ht. rewrite elem_of_cons, elem_of_app in Ht. naive_solver. }
  assert (t ∉ ready) as Htn by (rewrite Hre; naive_solver).
  eexists _, _. split; [done|]. split; try done.
  - by rewrite length_insert.
  - case_decide; [by apply NoDup_cons|done].
  - intros x. destruct (decide (x = t)) as [->|Hx].
    + rewrite list_lookup_insert_eq by lia. case_decide as Hz.
      * rewrite elem_of_cons. rewrite Hz. naive_solver.
      * split; [done|]. intros [_ [= ?]]. done.
    + rewrite list_lookup_insert_ne by done. rewrite <- Hre.
      case_decide; [rewrite elem_of_cons; naive_solver|done].
  - intros x Hx. destruct (decide (x = t)) as [->|Hxt].
    + rewrite list_lookup_insert_eq by lia. f_equal. rewrite decide_False by naive_solver. lia.
    + rewrite list_lookup_insert_ne, Hin by done. f_equal.
      rewrite occ_cons, (decide_False (P := t = x)) by done. done.
Qed.

Lemma kahn_spec all fuel order rest incoming ready :
  NoDup all → closed all → (∀ x, x ∈ all → x < length edges) →
  length edges ≤ fuel + length order →
  kahn_inv all order rest None [] incoming ready →
  ∃ order' rest' incoming', kahn fuel edges incoming ready order = Some order' ∧
    kahn_inv all order' rest' None [] incoming' [].
Proof.
  intros Hnd Hcl Hlt. revert order rest incoming ready.
  induction fuel as [|fuel IH]; intros order rest incoming ready Hf Hk.
  all: destruct ready as [|f ready]; [by eexists _, _, _|].
  all: destruct Hk as [Hl Hs Hndr Hre Hin Ho]; simpl in *.
  all: destruct (proj1 (Hre f) ltac:(by left)) as [Hfr Hf0].
  { exfalso. pose proof (Permutation_length Hs) as Hpl. rewrite length_app in Hpl.
    assert (length all ≤ length edges) by (by apply NoDup_bound).
    destruct rest; [by apply elem_of_nil in Hfr|]. simpl in *. lia. }
  apply elem_of_Permutation in Hfr as [rest' Hp].
  assert (f ∈ all) as Hfa. { rewrite Hs, Hp. apply elem_of_app. right. by left. }
  rewrite succs_lookup by auto. simpl.
  assert (∀ u, u ∈ all → strict_edge edges u f → u ∈ order) as Hpre.
  { intros u Hu [Huf Hne]. rewrite Hs, elem_of_app in Hu. destruct Hu as [?|Hu]; [done|].
    rewrite Hin in Hf0 by auto. injection Hf0 as Hf0. destruct Hne.
    eapply (proj1 (inc_zero edges rest f)); [|done|done]. lia. }
  edestruct (foldM_spec (λ cur s, ∃ todo, succs edges f = cur ++ todo ∧
     kahn_inv all order rest' (Some f) todo s.1 s.2) (order_edge f) (succs edges f)
     (incoming, ready)) as ([incoming' ready'] & -> & todo & Hsplit & Hk); swap 1 3.
  - assert (todo = []) as ->.
    { apply (f_equal length) in Hsplit. rewrite length_app in Hsplit.
      destruct todo; [done|simpl in *; lia]. }
    destruct Hk as [Hl2 Hs2 Hndr2 Hre2 Hin2 Ho2]; simpl in *.
    apply (IH _ rest'); [rewrite length_app; simpl; lia|]. split; simpl; try done.
    + rewrite Hs, Hp, <- app_assoc. done.
    + intros t Ht. rewrite Hin2, occ_nil by done. by destruct (decide (Some f = Some t)).
    + intros P x Q u Heq Hu Hux. destruct Q as [|q Q _] using rev_ind.
      * apply app_inj_tail in Heq as [<- <-]. by apply Hpre.
      * rewrite app_comm_cons, app_assoc in Heq. apply app_inj_tail in Heq as [-> _].
        by eapply Ho2.
  - intros cur [inc0 ready0] t rest0 Hsplit (todo & Hsp & Hk). simpl in *.
    rewrite Hsplit in Hsp. apply app_inv_head in Hsp as <-.
    assert (edge edges f t) as Hft.
    { unfold edge. rewrite Hsplit. apply elem_of_app. right. by left. }
    edestruct (order_edge_spec all order rest' f rest0 inc0 ready0 t) as (i' & r' & -> & Hk');
      [done|by eapply Hcl|done| |done|].
    + intros Hne Hto. apply list_elem_of_split in Hto as (P & Q & Hto).
      assert (f ∈ P) as HfP by (eapply Ho; [done|done|by split]).
      assert (NoDup (order ++ rest)) as Hnd2 by (by rewrite <- Hs).
      apply NoDup_app in Hnd2 as (_ & Hd & _). apply (Hd f).
      * rewrite Hto. apply elem_of_app. by left.
      * rewrite Hp. by left.
    + eexists; split; [done|]. exists rest0. split; [|done]. by rewrite <- app_assoc.
  - exists (succs edges f). split; [done|]. simpl.
    apply NoDup_cons in Hndr as [Hfn Hndr].
    assert (f ∉ rest') as Hfr'.
    { rewrite Hs, Hp in Hnd. apply NoDup_app in Hnd as (_ & _ & Hnd).
      by apply NoDup_cons in Hnd as [? _]. }
    split; simpl; try done.
    + by rewrite Hs, Hp, Permutation_middle.
    + intros t. specialize (Hre t). rewrite Hp, !elem_of_cons in Hre.
      destruct (decide (t = f)) as [->|]; naive_solver.
    + intros t Ht. rewrite Hin, (inc_perm _ _ _ t Hp), inc_cons by done. f_equal.
      destruct (decide (Some f = Some t)), (decide (f = t)); simplify_eq; rewrite ?occ_nil;
      simpl; lia.
Qed.

End graph.

(** * Reachability: what the counts are where no root reaches a cycle

    The order the second loop builds is complete exactly when no root reaches
    a cycle, and then the counts are those of the walk over every path. *)

(** ** Sums and saturation *)

Definition Nsum {A} (f : A → N) (l : list A) : N := foldr (λ a n, f a + n)%N 0%N l.

(** A count as the [u64] that holds it. *)
Definition sat (n : N) : N := N.min n u64_max.

Lemma sat_add a b : saturating_add (sat a) (sat b) = sat (a + b).
Proof. unfold saturating_add, sat. lia. Qed.

Lemma sat_add_1 a : saturating_add (sat a) 1 = sat (a + 1).
Proof. rewrite <- sat_add. done. Qed.

Lemma sat_zero a : sat a = 0%N ↔ a = 0%N.
Proof. unfold sat, u64_max. lia. Qed.

Lemma Nsum_app {A} (f : A → N) l1 l2 : Nsum f (l1 ++ l2) = (Nsum f l1 + Nsum f l2)%N.
Proof. induction l1; simpl; lia. Qed.

Lemma Nsum_ext {A} (f g : A → N) l : (∀ x, x ∈ l → f x = g x) → Nsum f l = Nsum g l.
Proof.
  induction l as [|x l IH]; intros H; simpl; [done|].
  rewrite (H x) by (by left). rewrite IH; [done|]. intros; apply H. by right.
Qed.

Lemma Nsum_add {A} (f g : A → N) l :
  Nsum (λ x, f x + g x)%N l = (Nsum f l + Nsum g l)%N.
Proof. induction l; simpl; lia. Qed.

Lemma Nsum_mul {A} c (f : A → N) l : Nsum (λ x, c * f x)%N l = (c * Nsum f l)%N.
Proof. induction l; simpl; lia. Qed.

Lemma Nsum_zero {A} (f : A → N) l : Nsum f l = 0%N ↔ ∀ x, x ∈ l → f x = 0%N.
Proof.
  induction l as [|y l IH]; simpl.
  - split; [intros _ ? []%elem_of_nil|done].
  - setoid_rewrite elem_of_cons. split.
    + intros Hz x [->|Hx]; [lia|]. apply IH; [lia|done].
    + intros Hz. rewrite (Hz y) by (by left). rewrite (proj2 IH); [done|]. auto.
Qed.

Lemma Nsum_single {A} `{EqDecision A} (f : A → N) x l :
  NoDup l → x ∈ l → Nsum (λ y, if decide (x = y) then f y else 0)%N l = f x.
Proof.
  induction 1 as [|y l Hy Hnd IH]; [by intros ?%elem_of_nil|].
  intros [<-|Hx]%elem_of_cons; simpl.
  - rewrite decide_True by done.
    rewrite (proj2 (Nsum_zero _ _)); [lia|]. intros z Hz. rewrite decide_False; [done|]. congruence.
  - rewrite decide_False by congruence. rewrite IH by done. lia.
Qed.

(** Summing by value or by occurrence. *)
Lemma Nsum_occ (g : nat → N) l all :
  NoDup all → (∀ t, t ∈ l → t ∈ all) →
  Nsum (λ y, N.of_nat (occ y l) * g y)%N all = Nsum g l.
Proof.
  intros Hnd. induction l as [|x l IH]; intros Hl; simpl.
  - apply Nsum_zero. intros y _. by rewrite occ_nil.
  - rewrite <- IH by (intros; apply Hl; by right).
    rewrite <- (Nsum_single g x all) by (try done; apply Hl; by left).
    rewrite <- Nsum_add. apply Nsum_ext. intros y _. rewrite occ_cons.
    destruct (decide (x = y)); lia.
Qed.

(** ** The walk over every path *)

(** The paths from [u] to [v] that revisit nothing and avoid [visiting]. *)
Fixpoint simple_paths (fuel : nat) (edges : list (list nat)) (visiting : gset nat)
    (v u : nat) : N :=
  if decide (u ∈ visiting) then 0%N
  else
    match fuel with
    | 0 => 0%N
    | S fuel =>
        ((if decide (u = v) then 1 else 0) +
         Nsum (simple_paths fuel edges ({[u]} ∪ visiting) v) (succs edges u))%N
    end.

(** The exact number of paths from the roots to [v]. *)
Definition paths_to (roots : list nat) (edges : list (list nat)) (v : nat) : N :=
  Nsum (simple_paths (length edges) edges ∅ v) roots.

(** [counts] holds the exact counts [c], saturated. *)
Definition holds (n : nat) (counts : list N) (c : nat → N) : Prop :=
  length counts = n ∧ ∀ v, v < n → counts !! v = Some (sat (c v)).

Lemma holds_ext n counts c c' :
  (∀ v, v < n → c v = c' v) → holds n counts c → holds n counts c'.
Proof. intros Hc [Hl H]. split; [done|]. intros v Hv. by rewrite H, Hc. Qed.

Lemma holds_eq n l1 l2 c : holds n l1 c → holds n l2 c → l1 = l2.
Proof.
  intros [Hl1 H1] [Hl2 H2]. apply list_eq. intros i.
  destruct (decide (i < n)); [by rewrite H1, H2|].
  by rewrite !lookup_ge_None_2 by lia.
Qed.

Lemma holds_add n counts c u (f : N → N) d :
  holds n counts c → u < n → (∀ a, f (sat a) = sat (a + d)) →
  ∃ counts', vec_update counts u f = Some counts' ∧
    holds n counts' (λ v, c v + if decide (u = v) then d else 0)%N.
Proof.
  intros [Hl H] Hu Hf. rewrite (vec_update_spec _ _ _ _ (H u Hu)). eexists; split; [done|].
  split; [by rewrite length_insert|]. intros v Hv. destruct (decide (u = v)) as [<-|].
  - rewrite list_lookup_insert_eq by lia. by rewrite Hf.
  - rewrite list_lookup_insert_ne, H by done. by rewrite N.add_0_r.
Qed.

Lemma holds_zero n : holds n (replicate n 0%N) (λ _, 0%N).
Proof. split; [apply length_replicate|]. intros v Hv. by rewrite lookup_replicate_2. Qed.

Section count.
Context (roots : list nat) (edges : list (list nat)) (Hwf : graph_wf roots edges).
Let n := length edges.

Lemma visiting_bound (X : gset nat) u :
  (∀ x, x ∈ X → x < n) → u < n → u ∉ X → size X < n.
Proof.
  intros HX Hu Hn. assert (size ({[u]} ∪ X) ≤ n) as Hs.
  - rewrite <- (length_ascending ({[u]} ∪ X)). apply NoDup_bound; [apply ascending_NoDup|].
    intros x. rewrite elem_of_ascending. set_solver.
  - rewrite size_union in Hs by set_solver. rewrite size_singleton in Hs. lia.
Qed.

Lemma walk_paths_spec fuel visiting counts c u :
  (∀ x, x ∈ visiting → x < n) → n ≤ fuel + size visiting → u < n →
  holds n counts c →
  ∃ counts', walk_paths fuel edges visiting counts u = Some counts' ∧
    holds n counts' (λ v, c v + simple_paths fuel edges visiting v u)%N.
Proof.
  revert visiting counts c u. induction fuel as [|fuel IH]; intros X counts c u HX Hf Hu Hc.
  all: simpl; case_decide as Hin.
  1, 3: eexists; split; [done|]; eapply holds_ext; [|done]; simpl; intros; lia.
  { pose proof (visiting_bound X u HX Hu Hin). lia. }
  destruct (holds_add n counts c u (λ c, saturating_add c 1) 1 Hc Hu sat_add_1)
    as (counts1 & -> & H1). simpl.
  rewrite succs_lookup by done. simpl.
  edestruct (foldM_spec (λ done counts, holds n counts (λ v, c v + (if decide (u = v) then 1 else 0)
      + Nsum (simple_paths fuel edges ({[u]} ∪ X) v) done)%N)
      (walk_paths fuel edges ({[u]} ∪ X)) (succs edges u) counts1) as (counts' & Hw & Hh).
  - eapply holds_ext; [|exact H1]. simpl. intros. lia.
  - intros cur s t rest Hs Hh.
    edestruct (IH ({[u]} ∪ X) s) as (s' & Hs' & Hh'); [| | |exact Hh|].
    + intros x [->%elem_of_singleton|?]%elem_of_union; auto.
    + rewrite size_union by set_solver. rewrite size_singleton. lia.
    + eapply gw_edges; [done|]. unfold edge. rewrite Hs. apply elem_of_app. right. by left.
    + exists s'. split; [done|]. eapply holds_ext; [|exact Hh']. simpl. intros v Hv.
      rewrite Nsum_app. simpl. lia.
  - exists counts'. split; [done|]. eapply holds_ext; [|exact Hh]. simpl. intros. lia.
Qed.

(** The test's reference walk never fails, and saturates the exact numbers. *)
Lemma walked_spec :
  ∃ counts, walked roots edges = Some counts ∧ holds n counts (paths_to roots edges).
Proof.
  unfold walked, paths_to. edestruct (foldM_spec (λ done counts,
    holds n counts (λ v, Nsum (simple_paths n edges ∅ v) done))
    (walk_paths n edges ∅) roots) as (counts & Hw & Hh); [apply (holds_zero n)| |by eauto].
  intros cur s r rest Hs Hh.
  edestruct (walk_paths_spec n ∅ s) as (s' & Hs' & Hh'); [| | |exact Hh|].
  - set_solver.
  - lia.
  - eapply gw_roots; [done|]. rewrite Hs. apply elem_of_app. right. by left.
  - exists s'. split; [done|]. eapply holds_ext; [|exact Hh']. simpl. intros v Hv.
    rewrite Nsum_app. simpl. lia.
Qed.

(** ** A path that revisits nothing exists where any path does *)

Definition avoid (X : gset nat) (u v : nat) : Prop := edge edges u v ∧ v ∉ X.

(** The part of a path after its last visit of [a]. *)
Lemma avoid_split X a x y :
  rtc (avoid X) x y → y ≠ a →
  (x ≠ a ∧ rtc (avoid ({[a]} ∪ X)) x y) ∨
  ∃ t, avoid ({[a]} ∪ X) a t ∧ rtc (avoid ({[a]} ∪ X)) t y.
Proof.
  induction 1 as [x|x t y [Hxt HtX] Hty IH]; intros Hy; [left; split; [done|apply rtc_refl]|].
  destruct (IH Hy) as [[Hta Hr]|?]; [|by right].
  assert (avoid ({[a]} ∪ X) x t) by (split; [done|set_solver]).
  destruct (decide (x = a)) as [->|]; [right; by exists t|].
  left. split; [done|]. by eapply rtc_l.
Qed.

Lemma simple_paths_pos fuel X v u :
  (∀ x, x ∈ X → x < n) → n ≤ fuel + size X → u < n → u ∉ X →
  (0 < simple_paths fuel edges X v u)%N ↔ rtc (avoid X) u v.
Proof.
  revert X u. induction fuel as [|fuel IH]; intros X u HX Hf Hu Hin.
  all: assert (∀ x, x ∈ ({[u]} ∪ X) → x < n) as HX'
    by (intros x [->%elem_of_singleton|?]%elem_of_union; auto).
  { pose proof (visiting_bound X u HX Hu Hin). lia. }
  assert (∀ t, edge edges u t → t ∉ {[u]} ∪ X →
    (0 < simple_paths fuel edges ({[u]} ∪ X) v t)%N ↔ rtc (avoid ({[u]} ∪ X)) t v) as IHt.
  { intros t Ht Htn. apply IH; try done.
    - rewrite size_union by set_solver. rewrite size_singleton. lia.
    - by eapply gw_edges. }
  simpl. rewrite decide_False by done. split.
  - intros Hpos. destruct (decide (u = v)) as [->|Huv]; [apply rtc_refl|].
    destruct (decide (Exists (λ t, 0 < simple_paths fuel edges ({[u]} ∪ X) v t)%N (succs edges u)))
      as [He|He].
    + apply Exists_exists in He as (t & Ht & Hp).
      assert (t ∉ {[u]} ∪ X) as Htn.
      { intros Hti. destruct fuel; simpl in Hp; rewrite decide_True in Hp by done; lia. }
      apply IHt in Hp; [|done..]. eapply rtc_l with t; [split; [done|set_solver]|].
      eapply rtc_subrel; [|exact Hp]. intros x y [? ?]. split; [done|set_solver].
    + rewrite (proj2 (Nsum_zero _ _)) in Hpos; [lia|]. intros t Ht.
      destruct (simple_paths fuel edges ({[u]} ∪ X) v t) eqn:E; [done|].
      exfalso. apply He, Exists_exists. exists t. split; [done|]. rewrite E. lia.
  - intros Hr. destruct (decide (u = v)) as [->|Huv]; [lia|].
    assert (∃ t, avoid ({[u]} ∪ X) u t ∧ rtc (avoid ({[u]} ∪ X)) t v) as (t & [Hut Htn] & Htv).
    { by destruct (avoid_split X u u v Hr) as [[? _]|?]. }
    apply IHt in Htv; [|done..].
    assert (Nsum (simple_paths fuel edges ({[u]} ∪ X) v) (succs edges u) ≠ 0%N); [|lia].
    intros Hz. rewrite Nsum_zero in Hz. specialize (Hz t Hut). lia.
Qed.

(** A function's number of paths is nonzero exactly when a root reaches it. *)
Lemma paths_to_pos v : paths_to roots edges v ≠ 0%N ↔ from_roots roots edges v.
Proof.
  assert (∀ r, r ∈ roots →
    (0 < simple_paths n edges ∅ v r)%N ↔ rtc (edge edges) r v) as Hr.
  { intros r Hr. rewrite simple_paths_pos; [|set_solver|lia|by eapply gw_roots|set_solver].
    split; apply rtc_subrel; unfold avoid; [by intros x y [? _]|].
    intros x y Hxy. split; [done|set_solver]. }
  unfold paths_to. rewrite Nsum_zero. split.
  - intros Hn. destruct (decide (Exists (λ r, 0 < simple_paths n edges ∅ v r)%N roots)) as [He|He].
    + apply Exists_exists in He as (r & Hin & Hp). exists r. split; [done|]. by apply Hr.
    + destruct Hn. intros r Hin. destruct (simple_paths n edges ∅ v r) eqn:E; [done|].
      exfalso. apply He, Exists_exists. exists r. split; [done|]. rewrite E. lia.
  - intros (r & Hin & Hrv) Hz. apply Hr in Hrv; [|done]. specialize (Hz r Hin).
    fold n in Hz. lia.
Qed.

(** ** The order is complete exactly on an acyclic graph *)

Lemma inc_pos l t : inc edges l t ≠ 0 → ∃ u, u ∈ l ∧ strict_edge edges u t.
Proof.
  induction l as [|f l IH]; [done|]. rewrite inc_cons. intros Hp.
  destruct (decide (inc edges l t = 0)) as [Hz|Hz].
  - exists f. destruct (decide (f = t)); [lia|]. split; [by left|]. split; [|done].
    apply occ_pos. lia.
  - destruct (IH Hz) as (u & Hu & Hs). exists u. split; [by right|done].
Qed.

Lemma order_spec v0 all w :
  walked_all roots edges v0 all w →
  ∃ order rest,
    kahn n edges (wk_incoming w)
      (reverse (filter (λ f, wk_reached w !! f = Some true ∧ wk_incoming w !! f = Some 0)
                       (seq 0 n))) [] = Some order ∧
    all ≡ₚ order ++ rest ∧
    (∀ P x Q u, order = P ++ x :: Q → u ∈ all → strict_edge edges u x → u ∈ P) ∧
    (∀ t, t ∈ rest → ∃ u, u ∈ rest ∧ strict_edge edges u t).
Proof.
  intros [Hl Hl' Hc Hnd Hre Hfr Hin Hv].
  assert (∀ x, x ∈ all → x < n) as Hlt by (intros x Hx; by eapply from_roots_lt, Hfr).
  edestruct (kahn_spec edges all n [] all (wk_incoming w)
    (reverse (filter (λ f, wk_reached w !! f = Some true ∧ wk_incoming w !! f = Some 0)
                     (seq 0 n)))) as (order & rest & inc' & Hk & [Hl2 Hs Hnd2 Hre2 Hin2 Ho]);
    [done| |done|simpl; lia| |].
  - intros u v Hu Huv. apply Hfr. eapply from_roots_edge; [|done]. by apply Hfr.
  - split; simpl; try done.
    + rewrite reverse_Permutation. apply NoDup_filter, NoDup_seq.
    + intros t. rewrite elem_of_reverse, list_elem_of_filter, elem_of_seq, Hre.
      split; [naive_solver|]. intros [Ht ?]. specialize (Hlt t Ht). naive_solver lia.
    + intros t Ht. rewrite Hin by done. rewrite occ_nil. f_equal. simpl. lia.
    + intros P x Q u Heq. by destruct P.
  - exists order, rest. split; [done|]. split; [done|]. split; [done|].
    intros t Ht. simpl in Hs. apply inc_pos. intros Hz.
    assert (t < n) as Htn by (apply Hlt; rewrite Hs; apply elem_of_app; by right).
    apply (not_elem_of_nil t), Hre2. split; [done|]. rewrite Hin2, Hz, occ_nil by done. done.
Qed.

Lemma tc_step_rest (rest : list nat) x y :
  tc (λ a b, strict_edge edges b a ∧ a ∈ rest ∧ b ∈ rest) x y →
  tc (strict_edge edges) y x ∧ x ∈ rest ∧ y ∈ rest.
Proof.
  induction 1 as [x y (? & ? & ?)|x y z (? & ? & ?) _ (? & ? & ?)].
  - split; [by apply tc_once|done].
  - split; [|done]. by eapply tc_r.
Qed.

Lemma acyclic_complete (rest : list nat) :
  acyclic roots edges → (∀ x, x ∈ rest → from_roots roots edges x) →
  (∀ t, t ∈ rest → ∃ u, u ∈ rest ∧ strict_edge edges u t) → rest = [].
Proof.
  intros Hac Hfr Hp. destruct rest as [|x0 rest0] eqn:Hr; [done|exfalso]. rewrite <- Hr in *.
  assert (x0 ∈ rest) as Hx0 by (rewrite Hr; by left).
  set (R := λ a b, strict_edge edges b a ∧ a ∈ rest ∧ b ∈ rest).
  assert (Irreflexive (tc R)) as Hirr.
  { intros x Hx. apply tc_step_rest in Hx as (Hx & ? & _). eapply Hac; [|done]. by apply Hfr. }
  assert (sn R x0) as Hsn.
  { apply tc_finite_sn; [done|]. exists rest. intros y Hy. by apply tc_step_rest in Hy as (_ & _ & ?). }
  clear Hr. induction Hsn as [x _ IH]. destruct (Hp x Hx0) as (u & Hu & Hs).
  apply (IH u); done.
Qed.

Lemma order_acyclic order all :
  NoDup all → (∀ v, v ∈ all ↔ from_roots roots edges v) → all ≡ₚ order →
  (∀ P x Q u, order = P ++ x :: Q → u ∈ all → strict_edge edges u x → u ∈ P) →
  acyclic roots edges.
Proof.
  intros Hnd Hfr Hp Ho f Hf Htc.
  assert (∀ u v, tc (strict_edge edges) u v → u ∈ all →
    ∃ P Q, order = P ++ v :: Q ∧ u ∈ P) as Hb.
  { intros u v. induction 1 as [u v Huv|u t v Hut Htv IH]; intros Hu.
    - assert (v ∈ order) as Hv.
      { rewrite <- Hp, Hfr. eapply from_roots_edge; [by apply Hfr|apply Huv]. }
      apply list_elem_of_split in Hv as (P & Q & HPQ). exists P, Q. split; [done|]. by eapply Ho.
    - destruct IH as (P & Q & -> & HtP).
      { apply Hfr. eapply from_roots_edge; [by apply Hfr|apply Hut]. }
      apply list_elem_of_split in HtP as (P1 & P2 & ->). exists (P1 ++ t :: P2), Q.
      split; [done|]. apply elem_of_app. left.
      eapply (Ho P1 t (P2 ++ v :: Q)); [by rewrite <- app_assoc|done|done]. }
  destruct (Hb f f Htc) as (P & Q & -> & HfP); [by apply Hfr|].
  rewrite Hp in Hnd. apply NoDup_app in Hnd as (_ & Hd & _). apply (Hd f HfP). by left.
Qed.

(** ** Counting along a complete order *)

(** The paths from [u] to [v] inside a suffix of the order. *)
Fixpoint suffix_paths (order : list nat) (v u : nat) : N :=
  match order with
  | [] => 0%N
  | x :: order =>
      if decide (u = x) then
        ((if decide (x = v) then 1 else 0) +
         Nsum (suffix_paths order v) (filter (λ t, t ≠ x) (succs edges x)))%N
      else suffix_paths order v u
  end.

Lemma suffix_paths_out Q v u : v ∉ Q ∨ u ∉ Q → suffix_paths Q v u = 0%N.
Proof.
  revert u. induction Q as [|x Q IH]; intros u Hv; simpl; [done|].
  rewrite !not_elem_of_cons in Hv. case_decide; [|apply IH; tauto].
  destruct Hv as [[Hvx Hv]|[? _]]; [|done]. rewrite decide_False by done.
  rewrite (proj2 (Nsum_zero _ _)); [done|]. auto.
Qed.

(** Every edge from a function of the suffix stays in it. *)
Definition topo (order : list nat) : Prop :=
  ∀ P x Q t, order = P ++ x :: Q → strict_edge edges x t → t ∈ Q.

Lemma topo_tail x Q : topo (x :: Q) → topo Q.
Proof. intros H P y Q' t ->. by apply (H (x :: P)). Qed.

Lemma topo_targets x Q t :
  topo (x :: Q) → t ∈ filter (λ t, t ≠ x) (succs edges x) → t ∈ Q.
Proof. intros H [? ?]%list_elem_of_filter. apply (H [] x); done. Qed.

Lemma simple_paths_suffix Q fuel X v u :
  NoDup Q → topo Q → (∀ x, x ∈ X → x ∉ Q) → length Q ≤ fuel → u ∈ Q →
  simple_paths fuel edges X v u = suffix_paths Q v u.
Proof.
  revert fuel X u. induction Q as [|x Q IH]; intros fuel X u Hnd Ht HX Hf Hu;
    [by apply elem_of_nil in Hu|].
  apply NoDup_cons in Hnd as [Hx Hnd]. simpl in Hf. simpl. case_decide as Hux.
  - subst u. destruct fuel as [|fuel]; [lia|]. simpl.
    rewrite decide_False by (intros Hin; apply (HX x Hin); by left). f_equal.
    assert (∀ l, (∀ t, t ∈ l → t ≠ x → t ∈ Q) →
      Nsum (simple_paths fuel edges ({[x]} ∪ X) v) l =
      Nsum (suffix_paths Q v) (filter (λ t, t ≠ x) l)) as Hl.
    { induction l as [|t l IHl]; intros Hl; [done|]. rewrite filter_cons. simpl.
      rewrite IHl by (intros; apply Hl; [by right|done]). case_decide as Htx.
      - simpl. f_equal. apply IH; [done|by eapply topo_tail| |lia|apply Hl; [by left|done]].
        intros y [->%elem_of_singleton|Hy]%elem_of_union; [done|].
        intros HyQ. apply (HX y Hy). by right.
      - subst t.
        replace (simple_paths fuel edges ({[x]} ∪ X) v x) with 0%N; [done|].
        symmetry. destruct fuel; simpl; rewrite decide_True by set_solver; done. }
    apply Hl. intros t Htx Hne. apply (Ht [] x); done.
  - apply elem_of_cons in Hu as [?|Hu]; [done|].
    apply IH; [done|by eapply topo_tail| |lia|done]. intros y Hy HyQ. apply (HX y Hy). by right.
Qed.

(** The total is split between the functions still to be counted and the counts
    already final. *)
Definition counting (Q : list nat) (c : nat → N) (v : nat) : N :=
  (Nsum (λ x, c x * suffix_paths Q v x) Q + if decide (v ∈ Q) then 0 else c v)%N.

Lemma counting_step x Q c v :
  NoDup (x :: Q) → topo (x :: Q) →
  counting Q (λ t, c t + N.of_nat (occ t (filter (λ t, t ≠ x) (succs edges x))) * c x)%N v
  = counting (x :: Q) c v.
Proof.
  intros [Hx Hnd]%NoDup_cons Ht. unfold counting. simpl. rewrite (decide_True (P := x = x)) by done.
  rewrite (Nsum_ext _ (λ y, c y * suffix_paths Q v y +
    c x * (N.of_nat (occ y (filter (λ t, t ≠ x) (succs edges x))) * suffix_paths Q v y))%N)
    by (intros; lia).
  rewrite Nsum_add, Nsum_mul, Nsum_occ by (try done; intros; by eapply topo_targets).
  rewrite (Nsum_ext (λ y, c y * (if decide (y = x) then _ else _))%N
    (λ y, c y * suffix_paths Q v y)%N)
    by (intros y Hy; rewrite decide_False by congruence; done).
  destruct (decide (v ∈ Q)) as [HvQ|HvQ].
  - rewrite (decide_True (P := v ∈ x :: Q)) by (by right).
    rewrite (decide_False (P := x = v)) by congruence. lia.
  - replace (occ v (filter (λ t, t ≠ x) (succs edges x))) with 0; swap 1 2.
    { symmetry. destruct (decide (occ v (filter (λ t, t ≠ x) (succs edges x)) = 0)) as [|Hp];
        [done|]. destruct HvQ. eapply topo_targets; [done|]. apply occ_pos. lia. }
    destruct (decide (x = v)) as [->|Hxv].
    + rewrite (decide_True (P := v ∈ v :: Q)) by (by left). lia.
    + rewrite (decide_False (P := v ∈ x :: Q)) by (rewrite not_elem_of_cons; naive_solver). lia.
Qed.

Lemma count_function_spec x counts c visits :
  x < n → holds n counts c →
  ∃ counts', count_function edges (counts, visits) x =
      Some (counts', (visits + N.of_nat (S (length (succs edges x))))%N) ∧
    holds n counts'
      (λ t, c t + N.of_nat (occ t (filter (λ t, t ≠ x) (succs edges x))) * c x)%N.
Proof.
  intros Hx Hc. unfold count_function. rewrite (proj2 Hc) by done. simpl.
  rewrite succs_lookup by done. simpl.
  edestruct (foldM_spec (λ done s, s.2 = (visits + 1 + N.of_nat (length done))%N ∧
    holds n s.1 (λ t, c t + N.of_nat (occ t (filter (λ t, t ≠ x) done)) * c x)%N)
    (count_edge x (sat (c x))) (succs edges x) (counts, (visits + 1)%N))
    as ([counts' visits'] & Hf & Hv & Hh).
  - simpl. split; [lia|]. eapply holds_ext; [|exact Hc]. simpl. intros. rewrite occ_nil. lia.
  - intros cur [s vs] t rest Hs [Hv Hh]. simpl in *. unfold count_edge.
    assert (t < n) as Htn.
    { eapply gw_edges; [done|]. unfold edge. rewrite Hs. apply elem_of_app. right. by left. }
    rewrite length_app. case_decide as Htx.
    + eexists; split; [done|]. simpl. split; [lia|]. eapply holds_ext; [|exact Hh]. simpl.
      intros v Hvn. rewrite filter_app, filter_cons_False by (intros Hn; by apply Hn).
      by rewrite app_nil_r.
    + destruct (holds_add n s _ t (λ a, saturating_add a (sat (c x))) (c x) Hh Htn)
        as (s' & -> & Hh'); [intros; apply sat_add|].
      eexists; split; [done|]. simpl. split; [lia|]. eapply holds_ext; [|exact Hh']. simpl.
      intros v Hvn. rewrite filter_app, filter_cons_True, occ_app, occ_cons by done.
      rewrite filter_nil, occ_nil. destruct (decide (t = v)); lia.
  - exists counts'. split; [|done]. rewrite Hf. simpl in Hv. rewrite Hv. do 2 f_equal. lia.
Qed.

Lemma count_order_spec Q counts c visits :
  NoDup Q → topo Q → (∀ x, x ∈ Q → x < n) → holds n counts c →
  ∃ counts', foldM (count_function edges) (counts, visits) Q =
      Some (counts', (visits + N.of_nat (work edges Q))%N) ∧
    holds n counts' (counting Q c).
Proof.
  revert counts c visits. induction Q as [|x Q IH]; intros counts c visits Hnd Ht Hlt Hc.
  - exists counts. simpl. split; [by rewrite N.add_0_r|]. eapply holds_ext; [|exact Hc].
    intros v Hv. unfold counting. simpl. lia.
  - destruct (count_function_spec x counts c visits) as (counts1 & H1 & Hh1);
      [apply Hlt; by left|done|].
    cbn [foldM]. rewrite H1. simpl.
    destruct (IH counts1 _ (visits + N.of_nat (S (length (succs edges x))))%N
      (proj2 (proj1 (NoDup_cons _ _) Hnd)) (topo_tail _ _ Ht)
      (λ y Hy, Hlt y (list_elem_of_further _ _ _ Hy)) Hh1) as (counts' & -> & Hh').
    exists counts'. split; [rewrite work_cons; do 2 f_equal; lia|].
    eapply holds_ext; [|exact Hh']. intros v Hv. by apply counting_step.
Qed.

(** The root counts: each root once. *)
Lemma count_roots_spec :
  ∃ counts, foldM count_root (replicate n 0%N) roots = Some counts ∧
    holds n counts (λ v, N.of_nat (occ v roots)).
Proof.
  apply (foldM_spec (λ done counts, holds n counts (λ v, N.of_nat (occ v done)))).
  - apply (holds_zero n).
  - intros cur s r rest Hs Hh. unfold count_root.
    destruct (holds_add n s _ r (λ a, saturating_add a 1) 1 Hh) as (s' & -> & Hh').
    + eapply gw_roots; [done|]. rewrite Hs. apply elem_of_app. right. by left.
    + apply sat_add_1.
    + eexists; split; [done|]. eapply holds_ext; [|exact Hh']. simpl. intros v Hv.
      rewrite occ_snoc. destruct (decide (r = v)); lia.
Qed.

(** Along a complete order the counts are the exact numbers of paths. *)
Lemma counting_exact order v :
  NoDup order → topo order → (∀ r, r ∈ roots → r ∈ order) → length order ≤ n →
  counting order (λ v, N.of_nat (occ v roots)) v = paths_to roots edges v.
Proof.
  intros Hnd Ht Hr Hlen. unfold counting, paths_to.
  rewrite Nsum_occ by done. destruct (decide (v ∈ order)) as [Hv|Hv].
  - rewrite N.add_0_r. apply Nsum_ext. intros r Hin. symmetry.
    apply simple_paths_suffix; auto. set_solver.
  - replace (occ v roots) with 0; swap 1 2.
    { symmetry. destruct (decide (occ v roots = 0)) as [|Hp]; [done|].
      destruct Hv. apply Hr, occ_pos. lia. }
    rewrite N.add_0_r. apply Nsum_ext. intros r Hin. symmetry.
    apply simple_paths_suffix; auto. set_solver.
Qed.

(** The order the second loop builds, when it is complete, is topological. *)
Lemma order_topo order all :
  NoDup order → (∀ v, v ∈ all ↔ from_roots roots edges v) → all ≡ₚ order →
  (∀ P x Q u, order = P ++ x :: Q → u ∈ all → strict_edge edges u x → u ∈ P) →
  topo order.
Proof.
  intros Hnd Hfr Hp Ho P x Q t -> Hxt.
  assert (x ∈ all) as Hx by (rewrite Hp; apply elem_of_app; right; by left).
  assert (t ∈ all) as Hta.
  { apply Hfr. eapply from_roots_edge; [by apply Hfr|apply Hxt]. }
  assert (∀ P' Q', P ++ x :: Q = P' ++ t :: Q' → x ∉ P' → False) as Hcontra.
  { intros P' Q' Heq Hn. apply Hn. by eapply Ho. }
  rewrite Hp, elem_of_app, elem_of_cons in Hta. destruct Hta as [HtP|[->|?]]; [| |done].
  - exfalso. apply list_elem_of_split in HtP as (P1 & P2 & ->).
    apply (Hcontra P1 (P2 ++ x :: Q)); [by rewrite <- app_assoc|].
    intros HxP. rewrite <- app_assoc in Hnd. apply NoDup_app in Hnd as (_ & Hd & _).
    apply (Hd x HxP). right. apply elem_of_app. right. by left.
  - by destruct (proj2 Hxt).
Qed.

End count.
