(* ===== verification/ReachabilityScc.v ===== *)
(** * Reachability: the components are the strongly connected ones

    The iterative Tarjan loop of [reached_components]: its invariant, that it
    ends, and that the components it numbers are the classes of mutual
    reachability in reverse topological order. *)
From S2P Require Import Prelude Reachability ReachabilitySpec.

(** A frame with the part of the stack its function is responsible for:
    the function itself last, above it the finished functions it absorbed. *)
Definition Layer : Type := nat * nat * list nat.

Definition ly_frame (l : Layer) : nat * nat := l.1.
Definition ly_fun (l : Layer) : nat := l.1.1.
Definition ly_seg (l : Layer) : list nat := l.2.
Arguments ly_fun !_ /.
Arguments ly_seg !_ /.
Arguments ly_frame !_ /.

Definition idx (t : Tarjan) (v : nat) : option nat := mjoin (tj_index t !! v).
Definition comp (t : Tarjan) (v : nat) : option nat := mjoin (tj_component t !! v).

Lemma mjoin_Some {A} (m : option (option A)) x : mjoin m = Some x ↔ m = Some (Some x).
Proof. destruct m as [[]|]; simpl; naive_solver. Qed.

(** An update of one vector entry, seen through [mjoin]. *)
Lemma mjoin_insert {A} (v : list (option A)) i x w :
  i < length v → mjoin (<[i := x]> v !! w) = if decide (w = i) then x else mjoin (v !! w).
Proof.
  intros Hi. destruct (decide (w = i)) as [->|].
  - by rewrite list_lookup_insert_eq.
  - by rewrite list_lookup_insert_ne.
Qed.

Lemma StronglySorted_mono {A} (R1 R2 : relation A) l :
  (∀ a b, R1 a b → R2 a b) → StronglySorted R1 l → StronglySorted R2 l.
Proof.
  intros HR. induction 1; constructor; [done|]. eapply Forall_impl; [done|]. auto.
Qed.

Section tarjan.
Context (edges : list (list nat)) (reached : list bool).
Context (Hedges : ∀ u v, edge edges u v → v < length edges).
Context (Hreached : ∀ u v, reached !! u = Some true → edge edges u v → reached !! v = Some true).
Let n := length edges.
Implicit Types (t : Tarjan) (L : list Layer).

(** [target] has been reached along the edges of the layer of [f]. *)
Definition explored t (stack : list nat) (f target : nat) : Prop :=
  is_Some (comp t target) ∨
  ∃ i l, target ∈ stack ∧ idx t target = Some i ∧ tj_low t !! f = Some l ∧ l ≤ i.

(** The state of the loop against the layers; the frames and the work counter
    are not part of it. *)
Record tj_inv L t : Prop := {
  ti_index : length (tj_index t) = n;
  ti_lows : length (tj_low t) = n;
  ti_ons : length (tj_on_stack t) = n;
  ti_comps : length (tj_component t) = n;
  ti_stack : tj_stack t = L ≫= ly_seg;
  ti_last : ∀ l, l ∈ L → ∃ vs, ly_seg l = vs ++ [ly_fun l];
  ti_sorted : StronglySorted (λ a b, ∃ i j, idx t a = Some i ∧ idx t b = Some j ∧ j < i)
                (tj_stack t);
  ti_next : ∀ v i, idx t v = Some i → i < tj_next t;
  ti_seen : ∀ v, is_Some (idx t v) ↔ v ∈ tj_stack t ∨ is_Some (comp t v);
  ti_disj : ∀ v, v ∈ tj_stack t → comp t v = None;
  ti_on : ∀ v, tj_on_stack t !! v = Some true ↔ v ∈ tj_stack t;
  ti_reached : ∀ v, is_Some (idx t v) → reached !! v = Some true;
  ti_done : ∀ u v c, comp t u = Some c → edge edges u v → ∃ c', comp t v = Some c' ∧ c' ≤ c;
  ti_bound : ∀ u c, comp t u = Some c → c < tj_components t;
  ti_full : ∀ c, c < tj_components t → ∃ u, comp t u = Some c;
  ti_mutual : ∀ u v c, comp t u = Some c → comp t v = Some c → rtc (edge edges) u v;
  ti_seg : ∀ l v, l ∈ L → v ∈ ly_seg l → rtc (edge edges) (ly_fun l) v ∧ rtc (edge edges) v (ly_fun l);
  ti_low : ∀ l, l ∈ L → ∃ i m w, idx t (ly_fun l) = Some i ∧ tj_low t !! ly_fun l = Some m ∧
    m ≤ i ∧ w ∈ tj_stack t ∧ idx t w = Some m ∧ rtc (edge edges) (ly_fun l) w;
  ti_edges : ∀ f p seg v k target, (f, p, seg) ∈ L → v ∈ seg →
    succs edges v !! k = Some target → (v = f → k < p) → explored t (tj_stack t) f target;
  ti_chain : Sorted (λ child parent, edge edges parent child) (ly_fun <$> L);
  ti_pos : ∀ f p seg, (f, p, seg) ∈ L → p ≤ length (succs edges f)
}.

Lemma idx_lt L t v : tj_inv L t → is_Some (idx t v) → v < n.
Proof.
  intros Hi [i Hv]. apply mjoin_Some, lookup_lt_Some in Hv. by rewrite (ti_index _ _ Hi) in Hv.
Qed.

Lemma stack_seen L t v : tj_inv L t → v ∈ tj_stack t → is_Some (idx t v).
Proof. intros Hi Hv. apply (ti_seen _ _ Hi). by left. Qed.

Lemma layer_stack L t l v : tj_inv L t → l ∈ L → v ∈ ly_seg l → v ∈ tj_stack t.
Proof. intros Hi Hl Hv. rewrite (ti_stack _ _ Hi). apply list_elem_of_bind. eauto. Qed.

Lemma fun_seg L t l : tj_inv L t → l ∈ L → ly_fun l ∈ ly_seg l.
Proof.
  intros Hi Hl. destruct (ti_last _ _ Hi l Hl) as [vs ->].
  apply elem_of_app. right. by left.
Qed.

Lemma fun_stack L t l : tj_inv L t → l ∈ L → ly_fun l ∈ tj_stack t.
Proof. intros Hi Hl. eapply layer_stack; [done..|by eapply fun_seg]. Qed.

(** Looking past one edge of a layer's function. *)
Lemma tj_inv_bump L1 f p seg L2 t x :
  tj_inv (L1 ++ (f, p, seg) :: L2) t → succs edges f !! p = Some x →
  explored t (tj_stack t) f x → tj_inv (L1 ++ (f, S p, seg) :: L2) t.
Proof.
  intros [] Hx Hex.
  assert (∀ l, l ∈ L1 ++ (f, S p, seg) :: L2 → ∃ l', l' ∈ L1 ++ (f, p, seg) :: L2 ∧
    ly_fun l' = ly_fun l ∧ ly_seg l' = ly_seg l) as Hl.
  { intros l. rewrite elem_of_app, elem_of_cons. setoid_rewrite elem_of_app.
    setoid_rewrite elem_of_cons. intros [?|[->|?]].
    - exists l. auto.
    - exists (f, p, seg). auto.
    - exists l. auto. }
  split; try done.
  - rewrite ti_stack0, !bind_app. done.
  - intros l (l' & H & <- & <-)%Hl. by apply ti_last0.
  - intros l v (l' & H & <- & <-)%Hl. by apply ti_seg0.
  - intros l (l' & H & <- & _)%Hl. by apply ti_low0.
  - intros f' p' seg' v k target. rewrite elem_of_app, elem_of_cons.
    intros [Hin|[[= -> -> ->]|Hin]] Hv Hk Hp.
    + eapply ti_edges0; [apply elem_of_app; by left|done..].
    + destruct (decide (v = f ∧ k = p)) as [[-> ->]|Hn]; [congruence|].
      eapply (ti_edges0 f p seg); [apply elem_of_app; right; by left|done..|].
      intros ->. specialize (Hp eq_refl). assert (k ≠ p) by naive_solver. lia.
    + eapply ti_edges0; [apply elem_of_app; right; by right|done..].
  - rewrite !fmap_app in *. done.
  - intros f' p' seg'. rewrite elem_of_app, elem_of_cons.
    intros [Hin|[[= -> -> ->]|Hin]].
    + eapply ti_pos0. apply elem_of_app. by left.
    + by apply lookup_lt_Some in Hx.
    + eapply ti_pos0. apply elem_of_app. right. by right.
Qed.
(** The numbers of two stacked functions are distinct. *)
Lemma stack_NoDup L t : tj_inv L t → NoDup (tj_stack t).
Proof.
  intros Hi. pose proof (ti_sorted _ _ Hi) as Hs. induction Hs as [|x l Hs IH Hf]; constructor; [|done].
  intros Hx. rewrite Forall_forall in Hf. destruct (Hf x Hx) as (i & j & ? & ? & ?).
  assert (i = j) by congruence. lia.
Qed.

(** Numbering a function. *)
Lemma tj_enter_spec L t x :
  tj_inv L t → reached !! x = Some true → x < n → idx t x = None →
  HdRel (λ child parent, edge edges parent child) x (ly_fun <$> L) →
  ∃ t', tj_enter t x = Some t' ∧ tj_inv ((x, 0, [x]) :: L) t' ∧
    tj_frames t' = (x, 0) :: tj_frames t ∧ tj_visits t' = tj_visits t ∧
    (∀ v, idx t' v = if decide (v = x) then Some (tj_next t) else idx t v) ∧
    (∀ l, l ∈ L → explored t' (tj_stack t') (ly_fun l) x).
Proof.
  intros Hinv Hr Hx Hnone Hhd. unfold tj_enter.
  pose proof (ti_index _ _ Hinv) as Hl1. pose proof (ti_lows _ _ Hinv) as Hl2.
  pose proof (ti_ons _ _ Hinv) as Hl3.
  rewrite !vec_set_spec by lia. simpl. eexists. split; [done|].
  assert (x ∉ tj_stack t) as Hns.
  { intros Hs. destruct (stack_seen _ _ _ Hinv Hs). congruence. }
  assert (comp t x = None) as Hnc.
  { destruct (comp t x) eqn:E; [|done]. exfalso.
    assert (is_Some (idx t x)) as [? ?] by (apply (ti_seen _ _ Hinv); right; by rewrite E).
    congruence. }
  set (t' := mk_tarjan _ _ _ _ _ _ _ _ _).
  assert (∀ v, idx t' v = if decide (v = x) then Some (tj_next t) else idx t v) as Hidx
    by (intros v; unfold idx; simpl; by rewrite mjoin_insert by lia).
  assert (∀ v i, idx t v = Some i → idx t' v = Some i) as Hold.
  { intros v i Hv. rewrite Hidx, decide_False; [done|]. intros ->. congruence. }
  assert (∀ v, comp t' v = comp t v) as Hcomp by done.
  assert (∀ l, l ∈ L → tj_low t' !! ly_fun l = tj_low t !! ly_fun l) as Hlow.
  { intros l Hl. simpl. rewrite list_lookup_insert_ne; [done|]. intros ->.
    apply Hns. by eapply fun_stack. }
  assert (∀ l, l ∈ L → explored t' (tj_stack t') (ly_fun l) x) as Hexp.
  { intros l Hl. right. destruct (ti_low _ _ Hinv l Hl) as (i & m & w & Hi & Hm & Hmi & _).
    exists (tj_next t), m. rewrite Hidx, decide_True by done. rewrite Hlow by done.
    split; [by left|]. split; [done|]. split; [done|]. apply (ti_next _ _ Hinv) in Hi. lia. }
  split; [|done]. destruct Hinv. split.
  1-4: simpl; rewrite ?length_insert; done.
  - simpl. by rewrite ti_stack0.
  - intros l [->|Hl]%elem_of_cons; [by exists []|auto].
  - simpl. constructor.
    + eapply StronglySorted_mono; [|exact ti_sorted0].
      intros a b (i & j & Ha & Hb & ?). exists i, j. auto.
    + apply Forall_forall. intros y Hy. destruct (proj2 (ti_seen0 y)) as [j Hj]; [by left|].
      exists (tj_next t), j. rewrite Hidx, decide_True by done.
      split; [done|]. split; [by apply Hold|]. by eapply ti_next0.
  - intros v i. rewrite Hidx. simpl. case_decide; [intros [= <-]; lia|].
    intros Hv. apply ti_next0 in Hv. lia.
  - intros v. rewrite Hidx, Hcomp. simpl. rewrite elem_of_cons. case_decide; [naive_solver|].
    rewrite ti_seen0. naive_solver.
  - intros v. simpl. rewrite Hcomp. intros [->|?]%elem_of_cons; auto.
  - intros v. simpl. rewrite elem_of_cons. destruct (decide (v = x)) as [->|].
    + rewrite list_lookup_insert_eq by lia. naive_solver.
    + rewrite list_lookup_insert_ne by done. rewrite ti_on0. naive_solver.
  - intros v. rewrite Hidx. case_decide; [by subst|auto].
  - done.
  - done.
  - done.
  - done.
  - intros l v [->|Hl]%elem_of_cons Hv; [|auto].
    apply list_elem_of_singleton in Hv as ->. split; apply rtc_refl.
  - intros l [->|Hl]%elem_of_cons.
    + exists (tj_next t), (tj_next t), x. simpl. rewrite Hidx, decide_True by done.
      rewrite list_lookup_insert_eq by lia.
      split; [done|]. split; [done|]. split; [lia|]. split; [by left|].
      split; [done|apply rtc_refl].
    + destruct (ti_low0 l Hl) as (i & m & w & ? & ? & ? & ? & ? & ?).
      exists i, m, w. rewrite Hlow by done. split; [auto|]. split; [done|]. split; [done|].
      split; [by right|]. auto.
  - intros f p seg v k target [[= -> -> ->]|Hin]%elem_of_cons Hv Hk Hp.
    + apply list_elem_of_singleton in Hv as ->. specialize (Hp eq_refl). lia.
    + destruct (ti_edges0 f p seg v k target Hin Hv Hk Hp) as [?|(i & l & ? & ? & ? & ?)];
        [by left|right]. exists i, l. split; [by right|]. split; [auto|].
      split; [|done]. etrans; [exact (Hlow (f, p, seg) Hin)|done].
  - simpl. by constructor.
  - intros f p seg [[= -> -> ->]|Hin]%elem_of_cons; [lia|by eapply ti_pos0].
Qed.

(** An edge back into the stack. *)
Lemma tj_lower_spec f p seg L t x i :
  tj_inv ((f, p, seg) :: L) t → edge edges f x → x ∈ tj_stack t → idx t x = Some i →
  ∃ low m, vec_update (tj_low t) f (λ l, l `min` i) = Some low ∧
    low !! f = Some m ∧ m ≤ i ∧ tj_inv ((f, p, seg) :: L) (tj_set_low t low).
Proof.
  intros Hinv Hfx Hx Hi.
  destruct (ti_low _ _ Hinv (f, p, seg)) as (j & m & w & Hj & Hm & Hmj & Hw & Hwm & Hfw);
    [by left|]. simpl in *.
  pose proof (ti_lows _ _ Hinv) as Hl.
  assert (f < n) as Hf by (rewrite <- Hl; by eapply lookup_lt_Some).
  assert (f ∉ L ≫= ly_seg) as HfL.
  { pose proof (stack_NoDup _ _ Hinv) as Hnd. rewrite (ti_stack _ _ Hinv) in Hnd. simpl in Hnd.
    apply NoDup_app in Hnd as (_ & Hd & _). apply Hd. apply (fun_seg _ _ (f, p, seg) Hinv). by left. }
  rewrite (vec_update_spec _ _ _ _ Hm).
  exists (<[f := m `min` i]> (tj_low t)), (m `min` i).
  split; [done|]. split; [by rewrite list_lookup_insert_eq by lia|]. split; [lia|].
  assert (∀ l, l ∈ L → <[f := m `min` i]> (tj_low t) !! ly_fun l = tj_low t !! ly_fun l) as Hlow.
  { intros l HlL. rewrite list_lookup_insert_ne; [done|]. intros ->. apply HfL.
    apply list_elem_of_bind. exists l. split; [|done]. eapply fun_seg; [done|]. by right. }
  destruct Hinv. split; try done.
  - simpl. by rewrite length_insert.
  - intros l [->|HlL]%elem_of_cons.
    + simpl. rewrite list_lookup_insert_eq by lia.
      destruct (decide (m ≤ i)).
      * exists j, m, w. rewrite Nat.min_l by lia. done.
      * exists j, i, x. rewrite Nat.min_r by lia. split; [done|]. split; [done|].
        split; [lia|]. split; [done|]. split; [done|]. by apply rtc_once.
    + destruct (ti_low0 l) as (j' & m' & w' & ? & ? & ? & ? & ? & ?); [by right|].
      exists j', m', w'. simpl. rewrite Hlow by done. done.
  - intros f' p' seg' v k target Hin Hv Hk Hp.
    destruct (ti_edges0 f' p' seg' v k target Hin Hv Hk Hp) as [?|(i' & l & ? & ? & Hl' & ?)];
      [by left|right]. simpl. apply elem_of_cons in Hin as [[= -> -> ->]|Hin].
    + exists i', (m `min` i). rewrite list_lookup_insert_eq by lia.
      split; [done|]. split; [done|]. split; [done|]. assert (m = l) by congruence. lia.
    + exists i', l. split; [done|]. split; [done|]. split; [|done].
      etrans; [exact (Hlow (f', p', seg') Hin)|done].
Qed.

(** ** The end of a frame *)

Lemma tj_pop_spec vs f rest c on_stack component :
  f ∉ vs → (∀ v, v ∈ vs ++ [f] → v < length on_stack ∧ v < length component) →
  ∃ on_stack' component',
    tj_pop (vs ++ f :: rest) f c on_stack component = Some (rest, on_stack', component') ∧
    length on_stack' = length on_stack ∧ length component' = length component ∧
    (∀ v, on_stack' !! v = if decide (v ∈ vs ++ [f]) then Some false else on_stack !! v) ∧
    (∀ v, mjoin (component' !! v) =
      if decide (v ∈ vs ++ [f]) then Some c else mjoin (component !! v)).
Proof.
  revert on_stack component. induction vs as [|x vs IH]; intros on_stack component Hf Hlt; simpl.
  - destruct (Hlt f) as [H1 H2]; [by left|].
    rewrite !vec_set_spec by done. simpl. rewrite decide_True by done.
    eexists _, _. split; [done|]. rewrite !length_insert. split; [done|]. split; [done|].
    split; intros v; (case_decide as Hv; [apply list_elem_of_singleton in Hv as ->|
      rewrite list_elem_of_singleton in Hv]).
    + by rewrite list_lookup_insert_eq.
    + by rewrite list_lookup_insert_ne.
    + by rewrite list_lookup_insert_eq.
    + by rewrite list_lookup_insert_ne.
  - rewrite not_elem_of_cons in Hf. destruct Hf as [Hfx Hf].
    destruct (Hlt x) as [H1 H2]; [by left|].
    rewrite !vec_set_spec by done. simpl. rewrite decide_False by done.
    destruct (IH (<[x:=false]> on_stack) (<[x:=Some c]> component)) as (on' & c' & -> & Hl1 & Hl2 & Hon & Hc);
      [done|intros v Hv; rewrite !length_insert; apply Hlt; by right|].
    rewrite length_insert in Hl1. rewrite length_insert in Hl2.
    eexists _, _. split; [done|]. split; [done|]. split; [done|].
    split; intros v.
    + rewrite Hon. destruct (decide (v = x)) as [->|].
      * rewrite list_lookup_insert_eq by done. rewrite (decide_True (P := x ∈ x :: _)) by (by left).
        by case_decide.
      * rewrite list_lookup_insert_ne by done. apply decide_ext. rewrite elem_of_cons. naive_solver.
    + rewrite Hc, mjoin_insert by done. destruct (decide (v = x)) as [->|].
      * rewrite (decide_True (P := x ∈ x :: _)) by (by left). by case_decide.
      * apply decide_ext. rewrite elem_of_cons. naive_solver.
Qed.

End tarjan.
