(* ===== verification/ReachabilityComponents.v ===== *)
(** * Reachability: closing a component, and the whole of Tarjan's loop *)
From S2P Require Import Prelude Reachability ReachabilitySpec ReachabilityScc.

Lemma StronglySorted_app_inv {A} (R : relation A) l1 l2 :
  StronglySorted R (l1 ++ l2) →
  StronglySorted R l1 ∧ StronglySorted R l2 ∧ ∀ a b, a ∈ l1 → b ∈ l2 → R a b.
Proof.
  induction l1 as [|x l1 IH]; simpl; intros Hs.
  - split; [constructor|]. split; [done|]. by intros a b ?%elem_of_nil.
  - apply StronglySorted_inv in Hs as [Hs Hf]. destruct (IH Hs) as (H1 & H2 & H3).
    apply Forall_app in Hf as [Hf1 Hf2]. rewrite Forall_forall in Hf2.
    split; [by constructor|]. split; [done|].
    intros a b [->|Ha]%elem_of_cons Hb; [by apply Hf2|by apply H3].
Qed.

Lemma Sorted_mono {A} (R1 R2 : relation A) l :
  (∀ a b, R1 a b → R2 a b) → Sorted R1 l → Sorted R2 l.
Proof.
  intros HR. induction 1 as [|x l Hs IH Hd]; constructor; [done|].
  destruct Hd; constructor. auto.
Qed.

Section tarjan.
Context (edges : list (list nat)) (reached : list bool).
Context (Hedges : ∀ u v, edge edges u v → v < length edges).
Context (Hreached : ∀ u v, reached !! u = Some true → edge edges u v → reached !! v = Some true).
Context (Hlen : length reached = length edges).
Let n := length edges.
Implicit Types (t : Tarjan) (L : list Layer).
Abbreviation inv := (tj_inv edges reached).

(** The numbers of the top segment are those from its function's on. *)
Lemma seg_index f p seg L t i :
  inv ((f, p, seg) :: L) t → idx t f = Some i →
  (∀ v, v ∈ seg → ∃ j, idx t v = Some j ∧ i ≤ j) ∧
  (∀ v, v ∈ L ≫= ly_seg → ∃ j, idx t v = Some j ∧ j < i).
Proof.
  intros Hinv Hi. destruct (ti_last _ _ _ _ Hinv (f, p, seg)) as [vs Hvs]; [by left|].
  simpl in Hvs. subst seg. pose proof (ti_sorted _ _ _ _ Hinv) as Hs.
  rewrite (ti_stack _ _ _ _ Hinv) in Hs. simpl in Hs. rewrite <- app_assoc in Hs.
  apply StronglySorted_app_inv in Hs as (_ & Hs & Hv). simpl in Hs.
  apply StronglySorted_inv in Hs as [_ Hr]. rewrite Forall_forall in Hr. split.
  - intros v [Hin|Hin]%elem_of_app.
    + destruct (Hv v f Hin) as (a & b & ? & ? & ?); [by left|].
      exists a. split; [done|]. assert (b = i) by congruence. lia.
    + apply list_elem_of_singleton in Hin as ->. exists i. done.
  - intros v Hin. destruct (Hr v Hin) as (a & b & ? & ? & ?). exists b.
    split; [done|]. assert (a = i) by congruence. lia.
Qed.

(** Every edge of a finished segment is explored. *)
Lemma seg_explored f p seg L t v target :
  inv ((f, p, seg) :: L) t → succs edges f !! p = None → v ∈ seg → edge edges v target →
  explored t (tj_stack t) f target.
Proof.
  intros Hinv Hp Hv Ht. apply list_elem_of_lookup in Ht as [k Hk].
  eapply (ti_edges _ _ _ _ Hinv f p seg v k target); [by left|done|done|].
  intros ->. apply lookup_lt_Some in Hk. apply lookup_ge_None in Hp. lia.
Qed.

(** A function that is its own lowest closes its segment as a component. *)
Lemma tj_close_spec f p seg L t i :
  inv ((f, p, seg) :: L) t → succs edges f !! p = None →
  idx t f = Some i → tj_low t !! f = Some i →
  ∃ on_stack component,
    tj_pop (tj_stack t) f (tj_components t) (tj_on_stack t) (tj_component t) =
      Some (L ≫= ly_seg, on_stack, component) ∧
    inv L (mk_tarjan (tj_index t) (tj_low t) on_stack component (L ≫= ly_seg) (tj_frames t)
            (tj_next t) (S (tj_components t)) (tj_visits t)).
Proof.
  intros Hinv Hp Hi Hlow. destruct (seg_index _ _ _ _ _ _ Hinv Hi) as [Hge Hlt].
  pose proof (stack_NoDup _ _ _ _ Hinv) as Hnd.
  assert (∀ v, v ∈ seg → comp t v = None) as Hsn.
  { intros v Hv. eapply ti_disj; [done|]. eapply (layer_stack _ _ _ _ (f, p, seg)); [done|by left|done]. }
  assert (∀ v, v ∈ seg → v ∉ L ≫= ly_seg) as Hdis.
  { intros v Hv HvL. destruct (Hge v Hv) as (j & ? & ?), (Hlt v HvL) as (j' & ? & ?).
    assert (j = j') by congruence. lia. }
  assert (∀ v target, v ∈ seg → edge edges v target →
    target ∈ seg ∨ ∃ c, comp t target = Some c) as Hout.
  { intros v target Hv Ht.
    destruct (seg_explored _ _ _ _ _ _ _ Hinv Hp Hv Ht) as [[c Hc]|(j & l & Hst & Hj & Hl & ?)];
      [right; by exists c|left].
    rewrite (ti_stack _ _ _ _ Hinv) in Hst. apply elem_of_app in Hst as [?|HvL]; [done|].
    destruct (Hlt _ HvL) as (j' & ? & ?). assert (j = j') by congruence.
    assert (l = i) by congruence. lia. }
  destruct (ti_last _ _ _ _ Hinv (f, p, seg)) as [vs Hvs]; [by left|]. simpl in Hvs.
  assert (∀ v, v ∈ seg → v < n) as Hseglt.
  { intros v Hv. destruct (Hge v Hv) as (j & ? & _). eapply idx_lt; [exact Hinv|by eexists]. }
  assert (tj_stack t = vs ++ f :: L ≫= ly_seg) as Hst.
  { rewrite (ti_stack _ _ _ _ Hinv). simpl. rewrite Hvs. by rewrite <- app_assoc. }
  destruct (tj_pop_spec vs f (L ≫= ly_seg) (tj_components t) (tj_on_stack t) (tj_component t))
    as (on' & comp' & Hpop & Hl1 & Hl2 & Hon & Hc).
  { rewrite Hst in Hnd. apply NoDup_app in Hnd as (_ & Hd & _). intros Hf.
    apply (Hd f Hf). by left. }
  { rewrite <- Hvs. intros v Hv. rewrite (ti_ons _ _ _ _ Hinv), (ti_comps _ _ _ _ Hinv).
    split; by apply Hseglt. }
  rewrite <- Hvs in Hon, Hc. exists on', comp'. rewrite Hst. split; [done|].
  set (t' := mk_tarjan _ _ _ _ _ _ _ _ _).
  assert (∀ v, comp t' v = if decide (v ∈ seg) then Some (tj_components t) else comp t v)
    as Hcomp by done.
  assert (∀ v c, comp t v = Some c → comp t' v = Some c) as Hkeep.
  { intros v c Hv. rewrite Hcomp, decide_False; [done|]. intros Hin. rewrite Hsn in Hv; done. }
  assert (∀ v c, comp t' v = Some c →
    (v ∈ seg ∧ c = tj_components t) ∨ (comp t v = Some c ∧ c < tj_components t)) as Hinvc.
  { intros v c. rewrite Hcomp. case_decide; [intros [= <-]; by left|].
    intros Hv. right. split; [done|]. by eapply ti_bound. }
  assert (∀ f target, explored t (tj_stack t) f target → explored t' (tj_stack t') f target)
    as Hexp.
  { intros g target [[c Hcx]|(j & l & Hs & ? & ? & ?)]; [left; by eexists; apply Hkeep|].
    rewrite (ti_stack _ _ _ _ Hinv) in Hs. apply elem_of_app in Hs as [Hs|Hs].
    - left. rewrite Hcomp, decide_True by done. by eexists.
    - right. exists j, l. done. }
  assert (Hmut : ∀ v, v ∈ seg → rtc (edge edges) f v ∧ rtc (edge edges) v f).
  { intros v Hv. apply (ti_seg _ _ _ _ Hinv (f, p, seg)); [by left|done]. }
  destruct Hinv. split.
  - done.
  - done.
  - simpl. by rewrite Hl1.
  - simpl. by rewrite Hl2.
  - done.
  - intros l Hl. apply ti_last. by right.
  - rewrite ti_stack in ti_sorted. simpl in ti_sorted.
    by apply StronglySorted_app_inv in ti_sorted as (_ & ? & _).
  - done.
  - intros v. change (idx t' v) with (idx t v). rewrite ti_seen, ti_stack. simpl.
    rewrite elem_of_app, Hcomp. case_decide; [|naive_solver].
    split; [intros _; right; by eexists|intros _; left; by left].
  - intros v Hv. rewrite Hcomp, decide_False; [|intros Hs; by apply (Hdis v)].
    apply ti_disj. rewrite ti_stack. apply elem_of_app. by right.
  - intros v. simpl. rewrite Hon. case_decide as Hv.
    + split; [done|]. intros. by destruct (Hdis v).
    + rewrite ti_on, ti_stack. simpl. rewrite elem_of_app. naive_solver.
  - done.
  - intros u v c Hu Huv. apply Hinvc in Hu as [[Hu ->]|[Hu _]].
    + destruct (Hout u v Hu Huv) as [Hv|[c Hcv]].
      * exists (tj_components t). by rewrite Hcomp, decide_True by done.
      * exists c. split; [by apply Hkeep|]. apply ti_bound in Hcv. lia.
    + destruct (ti_done u v c Hu Huv) as (c' & ? & ?). exists c'. auto.
  - intros u c [[_ ->]|[_ ?]]%Hinvc; simpl; lia.
  - intros c Hlt'. simpl in Hlt'. destruct (decide (c = tj_components t)) as [->|].
    + exists f. rewrite Hcomp, decide_True; [done|]. rewrite Hvs. apply elem_of_app. right. by left.
    + destruct (ti_full c) as [u Hu]; [lia|]. exists u. by apply Hkeep.
  - intros u v c [[Hu ->]|[Hu Hclt]]%Hinvc [[Hv Heq]|[Hv Hclt']]%Hinvc; try lia.
    + etrans; [by apply Hmut|by apply Hmut].
    + by eapply ti_mutual.
  - intros l v Hl. apply ti_seg. by right.
  - intros l Hl. destruct (ti_low l) as (j & m & w & Hj & ? & ? & Hw & Hwm & ?); [by right|].
    exists j, m, w. split; [done|]. split; [done|]. split; [done|]. split; [|done].
    simpl. rewrite ti_stack in Hw. apply elem_of_app in Hw as [Hw|Hw]; [exfalso|done].
    destruct (Hge w Hw) as (j' & ? & ?). assert (m = j') by congruence.
    destruct (Hlt (ly_fun l)) as (j'' & ? & ?).
    { apply list_elem_of_bind. exists l. split; [|done].
      destruct (ti_last l) as [us ->]; [by right|]. apply elem_of_app. right. by left. }
    assert (j = j'') by congruence. lia.
  - intros f' p' seg' v k target Hin Hv Hk Hp'. apply Hexp.
    eapply ti_edges; [by right|done|done|done].
  - by apply Sorted_inv in ti_chain as [? _].
  - intros f' p' seg' Hin. eapply ti_pos. by right.
Qed.

(** A function that reaches below itself gives its segment to its parent. *)
Lemma tj_merge_spec f p seg L t i m :
  inv ((f, p, seg) :: L) t → succs edges f !! p = None →
  idx t f = Some i → tj_low t !! f = Some m → m ≠ i →
  ∃ fp pp sp L2 lp, L = (fp, pp, sp) :: L2 ∧ tj_low t !! fp = Some lp ∧
    inv ((fp, pp, seg ++ sp) :: L2) (tj_set_low t (<[fp := lp `min` m]> (tj_low t))).
Proof.
  intros Hinv Hp Hi Hm Hne. destruct (seg_index _ _ _ _ _ _ Hinv Hi) as [Hge Hlt].
  destruct (ti_low _ _ _ _ Hinv (f, p, seg)) as (i' & m' & w & Hi' & Hm' & Hmi & Hw & Hwm & Hfw);
    [by left|]. simpl in Hi', Hm', Hfw.
  assert (i' = i) as -> by congruence. assert (m' = m) as -> by congruence.
  assert (w ∈ L ≫= ly_seg) as HwL.
  { rewrite (ti_stack _ _ _ _ Hinv) in Hw. apply elem_of_app in Hw as [Hw|]; [|done].
    destruct (Hge w Hw) as (j & ? & ?). assert (j = m) by congruence. lia. }
  destruct L as [|[[fp pp] sp] L2]; [by apply elem_of_nil in HwL|].
  destruct (ti_low _ _ _ _ Hinv (fp, pp, sp)) as (ip & lp & wp & Hip & Hlp & Hlpi & Hwp & Hwpm & Hfwp);
    [right; by left|]. simpl in Hip, Hlp, Hfwp.
  exists fp, pp, sp, L2, lp. split; [done|]. split; [done|].
  assert (fp < n) as Hfp by (eapply idx_lt; [exact Hinv|by eexists]).
  pose proof (ti_lows _ _ _ _ Hinv) as Hll. fold n in Hll.
  assert (edge edges fp f) as Hedge.
  { pose proof (ti_chain _ _ _ _ Hinv) as Hc. apply Sorted_inv in Hc as [_ Hc].
    by apply HdRel_inv in Hc. }
  (* the whole chain of lower functions leads to the parent *)
  assert (∀ l, l ∈ (fp, pp, sp) :: L2 → rtc (edge edges) (ly_fun l) fp) as Hchain.
  { pose proof (ti_chain _ _ _ _ Hinv) as Hc. apply Sorted_inv in Hc as [Hc _].
    assert (StronglySorted (λ c p, rtc (edge edges) p c) (ly_fun <$> (fp, pp, sp) :: L2)) as Hss.
    { apply Sorted_StronglySorted; [intros x y z Hxy Hyz; by etrans|].
      eapply Sorted_mono; [|exact Hc]. intros x y Hyx. by apply rtc_once. }
    simpl in Hss. apply StronglySorted_inv in Hss as [_ Hf]. rewrite Forall_forall in Hf.
    intros l [->|Hl]%elem_of_cons; [apply rtc_refl|]. apply Hf. by apply list_elem_of_fmap_2. }
  assert (rtc (edge edges) w fp) as Hwfp.
  { apply list_elem_of_bind in HwL as (l & Hwl & Hl). etrans; [|by apply Hchain].
    apply (ti_seg _ _ _ _ Hinv l); [by right|done]. }
  assert (∀ l, l ∈ L2 → ly_fun l ≠ fp) as Hfpn.
  { intros l Hl Heq. pose proof (stack_NoDup _ _ _ _ Hinv) as Hnd.
    rewrite (ti_stack _ _ _ _ Hinv) in Hnd. simpl in Hnd.
    apply NoDup_app in Hnd as (_ & _ & Hnd). apply NoDup_app in Hnd as (_ & Hd & _).
    apply (Hd fp).
    - apply (fun_seg _ _ _ _ (fp, pp, sp) Hinv). right. by left.
    - apply list_elem_of_bind. exists l. split; [|done]. rewrite <- Heq.
      eapply fun_seg; [exact Hinv|]. right. by right. }
  assert (∀ l, l ∈ L2 →
    <[fp := lp `min` m]> (tj_low t) !! ly_fun l = tj_low t !! ly_fun l) as Hlow.
  { intros l Hl. rewrite list_lookup_insert_ne; [done|]. intros Heq. by apply (Hfpn l). }
  assert (<[fp := lp `min` m]> (tj_low t) !! fp = Some (lp `min` m)) as Hlowp
    by (rewrite list_lookup_insert_eq; [done|lia]).
  assert (∀ v target, v ∈ seg → edge edges v target → explored t (tj_stack t) f target) as Hse
    by (intros v target Hv Ht; by eapply seg_explored).
  destruct Hinv. split; try done.
  - simpl. by rewrite length_insert.
  - simpl. rewrite ti_stack. simpl. by rewrite app_assoc.
  - intros l [->|Hl]%elem_of_cons.
    + destruct (ti_last (fp, pp, sp)) as [us Hus]; [right; by left|]. simpl in *.
      rewrite Hus. exists (seg ++ us). by rewrite app_assoc.
    + apply ti_last. right. by right.
  - intros l v [->|Hl]%elem_of_cons Hv; simpl in *.
    + apply elem_of_app in Hv as [Hv|Hv].
      * destruct (ti_seg (f, p, seg) v) as [H1 H2]; [by left|done|]. simpl in *. split.
        -- by eapply rtc_l.
        -- etrans; [exact H2|]. etrans; [exact Hfw|exact Hwfp].
      * apply (ti_seg (fp, pp, sp)); [right; by left|done].
    + apply ti_seg; [right; by right|done].
  - intros l [->|Hl]%elem_of_cons; simpl.
    + rewrite Hlowp. destruct (decide (lp ≤ m)).
      * exists ip, lp, wp. rewrite Nat.min_l by done. done.
      * exists ip, m, w. rewrite Nat.min_r by lia. split; [done|]. split; [done|].
        split; [lia|]. split; [done|]. split; [done|]. by eapply rtc_l.
    + destruct (ti_low l) as (j & l' & w' & ?); [right; by right|]. exists j, l', w'.
      by rewrite Hlow.
  - intros f' p' seg' v k target [[= -> -> ->]|Hin]%elem_of_cons Hv Hk Hp'.
    + assert (explored t (tj_stack t) f target ∨ explored t (tj_stack t) fp target) as Hex.
      { apply elem_of_app in Hv as [Hv|Hv].
        - left. eapply Hse; [done|]. apply list_elem_of_lookup. by eexists.
        - right. eapply (ti_edges fp pp sp v k target); [right; by left|done..]. }
      destruct Hex as [[?|(j & l & ? & ? & ? & ?)]|[?|(j & l & ? & ? & ? & ?)]]; [by left| |by left|].
      all: right; exists j, (lp `min` m); split; [done|]; split; [done|]; split; [done|].
      * assert (l = m) by congruence. lia.
      * assert (l = lp) by congruence. lia.
    + destruct (ti_edges f' p' seg' v k target) as [?|(j & l & ? & ? & ? & ?)];
        [right; by right|done..|by left|right].
      exists j, l. split; [done|]. split; [done|]. split; [|done]. simpl.
      etrans; [exact (Hlow (f', p', seg') Hin)|done].
  - by apply Sorted_inv in ti_chain as [? _].
  - intros f' p' seg' [[= -> -> ->]|Hin]%elem_of_cons; [eapply (ti_pos fp pp sp)|eapply ti_pos].
    + right. by left.
    + right. by right.
Qed.

(** ** One turn of the loop *)

(** The layers of the frames the loop holds. *)
Definition framed (frames : list (nat * nat)) t : Prop :=
  ∃ L, inv L t ∧ frames = ly_frame <$> L.

Lemma framed_ext frames t frames' :
  framed frames t → framed frames (tj_set_frames t frames').
Proof.
  intros (L & Hinv & ->). exists L. split; [|done]. destruct Hinv. split; assumption.
Qed.

Lemma tj_leave_spec f p frames t :
  framed ((f, p) :: frames) t → succs edges f !! p = None → tj_frames t = frames →
  ∃ t', tj_leave t f = Some t' ∧ framed frames t' ∧ tj_frames t' = frames ∧
    tj_visits t' = tj_visits t ∧ tj_index t' = tj_index t.
Proof.
  intros (L & Hinv & HL) Hp Hfr. destruct L as [|[[f' p'] seg] L]; [done|].
  simpl in HL. injection HL as <- <- HL.
  destruct (ti_low _ _ _ _ Hinv (f, p, seg)) as (i & m & w & Hi & Hm & Hmi & _); [by left|].
  simpl in Hi, Hm. unfold tj_leave. rewrite Hm. simpl. rewrite Hfr.
  destruct (decide (m = i)) as [->|Hne].
  - assert (match frames with
      | [] => Some (tj_low t)
      | (parent, _) :: _ => vec_update (tj_low t) parent (λ l, l `min` i)
      end = Some (tj_low t)) as ->.
    { rewrite HL. destruct L as [|[[fp pp] sp] L2]; [done|]. simpl.
      destruct (ti_low _ _ _ _ Hinv (fp, pp, sp)) as (ip & lp & wp & Hip & Hlp & Hlpi & _);
        [right; by left|]. simpl in Hip, Hlp. rewrite (vec_update_spec _ _ _ _ Hlp).
      destruct (proj2 (seg_index _ _ _ _ _ _ Hinv Hi) fp) as (j & Hj & ?).
      { apply elem_of_app. left. apply (fun_seg _ _ _ _ (fp, pp, sp) Hinv). right. by left. }
      assert (ip = j) by congruence. rewrite Nat.min_l by lia.
      by rewrite list_insert_id. }
    simpl. rewrite Hm. simpl. rewrite (proj1 (mjoin_Some _ _) Hi). simpl.
    rewrite decide_True by done.
    destruct (tj_close_spec _ _ _ _ _ _ Hinv Hp Hi Hm) as (on' & c' & -> & Hinv').
    simpl. eexists. split; [done|]. split; [|done]. rewrite Hfr in Hinv'. by exists L.
  - destruct (tj_merge_spec _ _ _ _ _ _ _ Hinv Hp Hi Hm Hne)
      as (fp & pp & sp & L2 & lp & -> & Hlp & Hinv').
    rewrite HL. simpl. rewrite (vec_update_spec _ _ _ _ Hlp). simpl.
    rewrite list_lookup_insert_ne.
    2: { intros ->. pose proof (stack_NoDup _ _ _ _ Hinv) as Hnd.
      rewrite (ti_stack _ _ _ _ Hinv) in Hnd. simpl in Hnd.
      apply NoDup_app in Hnd as (_ & Hd & _). apply (Hd f).
      - apply (fun_seg _ _ _ _ (f, p, seg) Hinv). by left.
      - apply elem_of_app. left. apply (fun_seg _ _ _ _ (f, pp, sp) Hinv). right. by left. }
    rewrite Hm. simpl. rewrite (proj1 (mjoin_Some _ _) Hi). simpl.
    rewrite decide_False by congruence.
    eexists. split; [done|]. split; [eexists; by split; [exact Hinv'|]|].
    split; [simpl; by rewrite Hfr, HL|done].
Qed.

Lemma tj_edge_spec f p frames t target :
  framed ((f, p) :: frames) t → succs edges f !! p = Some target →
  tj_frames t = (f, S p) :: frames →
  ∃ t', tj_edge t f target = Some t' ∧ framed (tj_frames t') t' ∧
    tj_visits t' = tj_visits t ∧
    ((idx t target = None ∧ tj_frames t' = (target, 0) :: (f, S p) :: frames ∧
      reached !! target = Some true ∧
      ∀ v, is_Some (idx t' v) ↔ v = target ∨ is_Some (idx t v)) ∨
     (tj_frames t' = (f, S p) :: frames ∧ tj_index t' = tj_index t)).
Proof.
  intros (L & Hinv & HL) Hp Hfr. destruct L as [|[[f' p'] seg] L]; [done|].
  simpl in HL. injection HL as <- <- HL.
  assert (edge edges f target) as Hft by (apply list_elem_of_lookup; by eexists).
  assert (target < n) as Htn by (by eapply Hedges).
  unfold tj_edge.
  destruct (lookup_lt_is_Some_2 (tj_index t) target) as [seen Hseen];
    [rewrite (ti_index _ _ _ _ Hinv); done|].
  rewrite Hseen. simpl. destruct seen as [i|].
  - assert (idx t target = Some i) as Hi by (unfold idx; by rewrite Hseen).
    destruct (lookup_lt_is_Some_2 (tj_on_stack t) target) as [b Hb];
      [rewrite (ti_ons _ _ _ _ Hinv); done|].
    rewrite Hb. simpl. destruct b.
    + apply (ti_on _ _ _ _ Hinv) in Hb.
      destruct (tj_lower_spec _ _ _ _ _ _ _ _ _ Hinv Hft Hb Hi) as (low & m & -> & Hm & Hmi & Hinv').
      simpl. eexists. split; [done|]. split; [|split; [done|right; done]].
      exists ((f, S p, seg) :: L). split; [|simpl; by rewrite Hfr, HL].
      apply (tj_inv_bump _ _ [] f p seg L _ target); [done|done|].
      right. exists i, m. done.
    + eexists. split; [done|]. split; [|split; [done|right; done]].
      exists ((f, S p, seg) :: L). split; [|simpl; by rewrite Hfr, HL].
      apply (tj_inv_bump _ _ [] f p seg L _ target); [done|done|]. left.
      destruct (proj1 (ti_seen _ _ _ _ Hinv target)) as [Hs|?]; [by eexists| |done].
      apply (ti_on _ _ _ _ Hinv) in Hs. congruence.
  - assert (idx t target = None) as Hi by (unfold idx; by rewrite Hseen).
    assert (reached !! target = Some true) as Hr.
    { eapply Hreached; [|exact Hft]. eapply ti_reached; [exact Hinv|].
      eapply stack_seen; [exact Hinv|]. apply (fun_stack _ _ _ _ (f, p, seg) Hinv). by left. }
    destruct (tj_enter_spec _ _ _ _ _ Hinv Hr Htn Hi) as (t' & -> & Hinv' & Hfr' & Hv & Hidx & Hex).
    { simpl. by constructor. }
    exists t'. split; [done|]. split.
    + exists ((target, 0, [target]) :: (f, S p, seg) :: L). split.
      * apply (tj_inv_bump _ _ [(target, 0, [target])] f p seg L _ target); [done|done|].
        apply (Hex (f, p, seg)). by left.
      * rewrite Hfr', Hfr, HL. done.
    + split; [done|]. left. split; [done|]. split; [by rewrite Hfr', Hfr|]. split; [done|].
      intros v. rewrite Hidx. case_decide; [naive_solver|]. naive_solver.
Qed.

(** ** Termination and work *)

(** The work left: every reached function not seen, and the rest of the open
    frames. *)
Definition unseen t : nat :=
  sum_list_with (λ v, if decide (reached !! v = Some true ∧ idx t v = None)
                      then S (length (succs edges v)) else 0) (seq 0 n).
Definition open_frames (frames : list (nat * nat)) : nat :=
  sum_list_with (λ '(f, p), S (length (succs edges f)) - p) frames.

Lemma unseen_ext t t' :
  (∀ v, is_Some (idx t' v) ↔ is_Some (idx t v)) → unseen t' = unseen t.
Proof.
  intros H. unfold unseen. induction (seq 0 n) as [|v l IH]; simpl; [done|]. rewrite IH. f_equal.
  apply decide_ext. rewrite !eq_None_not_Some, H. done.
Qed.

Lemma unseen_mono t t' :
  (∀ v, is_Some (idx t v) → is_Some (idx t' v)) → unseen t' ≤ unseen t.
Proof.
  intros H. unfold unseen. induction (seq 0 n) as [|v l IH]; simpl; [done|].
  case_decide as H1; case_decide as H2; try lia.
  destruct H2. destruct H1 as [? Hn]. split; [done|].
  rewrite !eq_None_not_Some in *. naive_solver.
Qed.

Lemma unseen_enter t t' x :
  x < n → reached !! x = Some true → idx t x = None →
  (∀ v, is_Some (idx t' v) ↔ v = x ∨ is_Some (idx t v)) →
  unseen t = S (length (succs edges x)) + unseen t'.
Proof.
  intros Hx Hr Hi H. unfold unseen.
  assert (∀ l, NoDup l →
    sum_list_with (λ v, if decide (reached !! v = Some true ∧ idx t v = None)
                        then S (length (succs edges v)) else 0) l =
    (if decide (x ∈ l) then S (length (succs edges x)) else 0) +
    sum_list_with (λ v, if decide (reached !! v = Some true ∧ idx t' v = None)
                        then S (length (succs edges v)) else 0) l) as Hl.
  { induction 1 as [|v l Hv Hnd IH]; [done|]. cbn [sum_list_with]. rewrite IH.
    destruct (decide (v = x)) as [->|Hvx].
    - rewrite (decide_True (P := reached !! x = _ ∧ idx t x = _)) by done.
      rewrite (decide_False (P := x ∈ l)) by done.
      rewrite (decide_True (P := x ∈ x :: l)) by (by left).
      rewrite (decide_False (P := reached !! x = _ ∧ idx t' x = _)); [lia|].
      intros [_ Hn]. rewrite eq_None_not_Some, H in Hn. naive_solver.
    - assert (x ∈ l ↔ x ∈ v :: l) as Hxl by (rewrite elem_of_cons; naive_solver).
      rewrite (decide_ext _ _ _ _ Hxl).
      assert (reached !! v = Some true ∧ idx t v = None ↔
              reached !! v = Some true ∧ idx t' v = None) as Hvi
        by (rewrite !eq_None_not_Some, H; naive_solver).
      rewrite (decide_ext _ _ _ _ Hvi). lia. }
  rewrite Hl by apply NoDup_seq. rewrite decide_True; [done|]. apply elem_of_seq. lia.
Qed.

Lemma framed_pos f p frames t : framed ((f, p) :: frames) t → p ≤ length (succs edges f) ∧ f < n.
Proof.
  intros (L & Hinv & HL). destruct L as [|[[f' p'] seg] L]; [done|]. simpl in HL.
  injection HL as <- <- HL. split; [eapply (ti_pos _ _ _ _ Hinv); by left|].
  eapply idx_lt; [exact Hinv|]. eapply stack_seen; [exact Hinv|].
  apply (fun_stack _ _ _ _ (f, p, seg) Hinv). by left.
Qed.

(** The loop ends within the work left, having done exactly that. *)
Lemma tj_run_spec fuel t :
  framed (tj_frames t) t → unseen t + open_frames (tj_frames t) ≤ fuel →
  ∃ t', tj_run fuel edges t = Some t' ∧ framed [] t' ∧ tj_frames t' = [] ∧
    (∀ v, is_Some (idx t v) → is_Some (idx t' v)) ∧
    (tj_visits t' + N.of_nat (unseen t') =
     tj_visits t + N.of_nat (unseen t + open_frames (tj_frames t)))%N.
Proof.
  revert t. induction fuel as [|fuel IH]; intros t Hfr Hf.
  all: destruct (tj_frames t) as [|[f p] frames] eqn:Efr.
  1, 3: exists t; simpl; rewrite Efr; split; [done|]; split; [done|]; split; [done|];
    split; [done|]; simpl; lia.
  all: destruct (framed_pos _ _ _ _ Hfr) as [Hp Hfn].
  { simpl in Hf. lia. }
  simpl. rewrite Efr, succs_lookup by done. simpl.
  destruct (succs edges f !! p) as [target|] eqn:Et.
  - assert (p < length (succs edges f)) as Hplt by (by eapply lookup_lt_Some).
    set (t1 := tj_set_frames t ((f, S p) :: frames)).
    destruct (tj_edge_spec f p frames t1 target) as (t2 & -> & Hfr2 & Hv2 & Hcase);
      [by apply framed_ext|done|done|]. simpl.
    assert (tj_visits t1 = tj_visits t + 1)%N as Hv1 by done.
    assert (unseen t2 + open_frames (tj_frames t2) + 1 =
      unseen t + open_frames ((f, p) :: frames) ∧
      ∀ v, is_Some (idx t v) → is_Some (idx t2 v)) as [Hdec Hmon].
    { destruct Hcase as [(Hnone & -> & Hr & Hidx)|[-> Hidx]].
      - assert (target < n) as Htn.
        { apply (Hedges f). apply list_elem_of_lookup. by eexists. }
        rewrite (unseen_enter t t2 target Htn Hr Hnone Hidx). split; [simpl; lia|].
        intros v Hv. apply Hidx. by right.
      - rewrite (unseen_ext t t2) by (intros v; unfold idx; by rewrite Hidx).
        split; [simpl; lia|]. intros v. unfold idx. by rewrite Hidx. }
    simpl in Hdec, Hf.
    destruct (IH t2) as (t' & Hrun & Hf' & Hfr' & Hmon' & Hvis); [done|lia|].
    exists t'. split; [done|]. split; [done|]. split; [done|]. split; [auto|].
    rewrite Hvis. lia.
  - apply lookup_ge_None in Et as Hplen.
    set (t1 := tj_set_frames t frames).
    destruct (tj_leave_spec f p frames t1) as (t2 & -> & Hfr2 & Hfr2' & Hv2 & Hidx);
      [by apply framed_ext|done|done|]. simpl.
    assert (tj_visits t1 = tj_visits t + 1)%N as Hv1 by done.
    assert (unseen t2 = unseen t) as Hun by (apply unseen_ext; intros v; unfold idx; by rewrite Hidx).
    destruct (IH t2) as (t' & Hrun & Hf' & Hfr' & Hmon' & Hvis);
      [by rewrite Hfr2'|rewrite Hfr2', Hun; simpl in Hf; lia|].
    exists t'. split; [done|]. split; [done|]. split; [done|]. split.
    + intros v Hv. apply Hmon'. unfold idx in *. by rewrite Hidx.
    + rewrite Hvis, Hfr2', Hun. simpl. lia.
Qed.

(** ** The whole loop *)

Lemma tj_init_inv v0 :
  inv [] (mk_tarjan (replicate n None) (replicate n 0) (replicate n false)
            (replicate n None) [] [] 0 0 v0).
Proof.
  set (t := mk_tarjan _ _ _ _ _ _ _ _ _).
  assert (∀ v : nat, mjoin (replicate n (None : option nat) !! v) = None) as Hr.
  { intros v. destruct (replicate n None !! v) as [o|] eqn:E; [|done].
    by apply lookup_replicate in E as [-> _]. }
  assert (∀ v, idx t v = None) as Hidx by exact Hr.
  assert (∀ v, comp t v = None) as Hcomp by exact Hr.
  split; try (simpl; by rewrite ?length_replicate).
  all: try (intros; by match goal with
    | H : _ ∈ [] |- _ => apply elem_of_nil in H
    | H : idx _ _ = Some _ |- _ => rewrite Hidx in H
    | H : comp _ _ = Some _ |- _ => rewrite Hcomp in H
    end).
  - constructor.
  - intros v. rewrite Hidx, Hcomp. simpl. rewrite elem_of_nil. split; [by intros []|].
    by intros [|[]].
  - intros v. simpl. rewrite elem_of_nil. split; [|done].
    by intros [? _]%lookup_replicate.
  - intros v. rewrite Hidx. by intros [].
  - intros c Hc. simpl in Hc. lia.
Qed.

Lemma tj_starts_spec v0 :
  ∃ t, foldM (tj_start edges reached (n + edge_count edges))
         (mk_tarjan (replicate n None) (replicate n 0) (replicate n false)
            (replicate n None) [] [] 0 0 v0) (seq 0 n) = Some t ∧
    inv [] t ∧ (∀ v, reached !! v = Some true → is_Some (idx t v)) ∧
    tj_visits t = (v0 + N.of_nat (work edges (filter (λ v, reached !! v = Some true) (seq 0 n))))%N.
Proof.
  set (t0 := mk_tarjan _ _ _ _ _ _ _ _ _).
  assert (∀ v, idx t0 v = None) as Hidx0.
  { intros v. unfold idx. simpl. destruct (replicate n None !! v) as [o|] eqn:E; [|done].
    by apply lookup_replicate in E as [-> _]. }
  assert (unseen t0 = work edges (filter (λ v, reached !! v = Some true) (seq 0 n))) as Hun0.
  { unfold unseen. induction (seq 0 n) as [|v l IH]; [done|]. cbn [sum_list_with]. rewrite IH, filter_cons.
    case_decide as H1; case_decide as H2; try (exfalso; naive_solver).
    - rewrite work_cons. lia.
    - done. }
  pose proof (work_bound edges (λ v, reached !! v = Some true)) as Hbound. fold n in Hbound.
  edestruct (foldM_spec (λ done t, inv [] t ∧ tj_frames t = [] ∧
    (∀ v, v ∈ done → reached !! v = Some true → is_Some (idx t v)) ∧
    (tj_visits t + N.of_nat (unseen t) = v0 + N.of_nat (unseen t0))%N ∧ unseen t ≤ unseen t0)
    (tj_start edges reached (n + edge_count edges)) (seq 0 n) t0)
    as (t & Hrun & Hinv & _ & Hseen & Hvis & _).
  - split; [apply tj_init_inv|]. split; [done|]. split; [by intros v ?%elem_of_nil|]. done.
  - intros done t v rest Hseq (Hinv & Hfr & Hseen & Hvis & Hle).
    assert (v < n) as Hv.
    { assert (v ∈ seq 0 n) as Hin by (rewrite Hseq; apply elem_of_app; right; by left).
      apply elem_of_seq in Hin. lia. }
    unfold tj_start. destruct (lookup_lt_is_Some_2 reached v) as [b Hb]; [lia|]. rewrite Hb. simpl.
    assert (∀ t', (∀ w, is_Some (idx t w) → is_Some (idx t' w)) →
      (reached !! v = Some true → is_Some (idx t' v)) →
      ∀ w, w ∈ done ++ [v] → reached !! w = Some true → is_Some (idx t' w)) as Hdone.
    { intros t' Hm Hv' w [Hw|Hw]%elem_of_app Hr; [by apply Hm, Hseen|].
      by apply list_elem_of_singleton in Hw as ->; auto. }
    destruct b; simpl; [|exists t; split; [done|]; split; [done|]; split; [done|];
      split; [apply Hdone; [done|congruence]|done]].
    destruct (lookup_lt_is_Some_2 (tj_index t) v) as [seen Hs];
      [rewrite (ti_index _ _ _ _ Hinv); done|].
    rewrite Hs. simpl. destruct seen as [i|].
    { exists t. split; [done|]. split; [done|]. split; [done|]. split; [|done].
      apply Hdone; [done|]. intros _. unfold idx. rewrite Hs. by eexists. }
    assert (idx t v = None) as Hnone by (unfold idx; by rewrite Hs).
    destruct (tj_enter_spec _ _ _ _ _ Hinv Hb Hv Hnone) as (t1 & -> & Hinv1 & Hfr1 & Hv1 & Hidx1 & _);
      [constructor|]. simpl.
    assert (unseen t = S (length (succs edges v)) + unseen t1) as Hun.
    { apply unseen_enter; [done..|]. intros w. rewrite Hidx1. case_decide; naive_solver. }
    rewrite Hfr in Hfr1.
    destruct (tj_run_spec (n + edge_count edges) t1) as (t2 & -> & (L & Hinv2 & HL) & Hfr2 & Hmon & Hvis2).
    + rewrite Hfr1. by exists [(v, 0, [v])].
    + rewrite Hfr1. simpl. lia.
    + destruct L; [|done]. exists t2. split; [done|]. split; [done|]. split; [done|].
      rewrite Hfr1 in Hvis2. simpl in Hvis2.
      assert (∀ w, is_Some (idx t w) → is_Some (idx t2 w)) as Hmon2.
      { intros w Hw. apply Hmon. rewrite Hidx1. by case_decide. }
      pose proof (unseen_mono _ _ Hmon2). split; [|lia].
      apply Hdone; [done|].
      intros _. apply Hmon. rewrite Hidx1, decide_True by done. by eexists.
  - exists t. split; [done|]. split; [done|].
    assert (∀ v, reached !! v = Some true → is_Some (idx t v)) as Hall.
    { intros v Hv. apply Hseen; [|done]. apply elem_of_seq. apply lookup_lt_Some in Hv. lia. }
    split; [done|]. rewrite Hun0 in Hvis. rewrite <- Hvis.
    assert (unseen t = 0) as ->; [|lia].
    unfold unseen. clear -Hall. induction (seq 0 n) as [|v l IH]; simpl; [done|]. rewrite IH.
    rewrite decide_False; [done|]. intros [Hr Hn]. destruct (Hall v Hr). congruence.
Qed.

(** What [reached_components] promises. *)
Record components_ok (component : list (option nat)) (components : nat) : Prop := {
  co_len : length component = n;
  co_reached : ∀ v, reached !! v = Some true ↔ is_Some (mjoin (component !! v));
  co_bound : ∀ v c, mjoin (component !! v) = Some c → c < components;
  co_full : ∀ c, c < components → ∃ v, mjoin (component !! v) = Some c;
  co_edge : ∀ u v c, mjoin (component !! u) = Some c → edge edges u v →
    ∃ c', mjoin (component !! v) = Some c' ∧ c' ≤ c;
  co_mutual : ∀ u v c, mjoin (component !! u) = Some c → mjoin (component !! v) = Some c →
    rtc (edge edges) u v
}.

Lemma reached_components_spec v0 :
  ∃ component components,
    reached_components edges reached v0 =
      Some (component, components,
            (v0 + N.of_nat (work edges (filter (λ v, reached !! v = Some true) (seq 0 n))))%N) ∧
    components_ok component components.
Proof.
  destruct (tj_starts_spec v0) as (t & Hrun & Hinv & Hall & Hvis).
  unfold reached_components. fold n. rewrite Hrun. simpl.
  exists (tj_component t), (tj_components t). rewrite Hvis. split; [done|].
  destruct Hinv. split; try done. intros v. split.
  - intros Hv. apply Hall, ti_seen in Hv as [Hv|Hv]; [|done].
    rewrite ti_stack in Hv. by apply elem_of_nil in Hv.
  - intros Hv. apply ti_reached, ti_seen. by right.
Qed.

(** Equal components are mutual reachability. *)
Lemma components_scc component components u v cu cv :
  components_ok component components →
  mjoin (component !! u) = Some cu → mjoin (component !! v) = Some cv →
  cu = cv ↔ rtc (edge edges) u v ∧ rtc (edge edges) v u.
Proof.
  intros Hok Hu Hv. split.
  - intros ->. split; by eapply co_mutual.
  - intros [Huv Hvu].
    assert (∀ x y, rtc (edge edges) x y → ∀ cx cy, mjoin (component !! x) = Some cx →
      mjoin (component !! y) = Some cy → cy ≤ cx) as Hle.
    { clear -Hok. induction 1 as [x|x y z Hxy Hyz IH]; intros cx cz Hx Hz.
      - assert (cx = cz) by congruence. lia.
      - destruct (co_edge _ _ Hok x y cx Hx Hxy) as (cy & Hy & ?).
        specialize (IH cy cz Hy Hz). lia. }
    pose proof (Hle _ _ Huv _ _ Hu Hv). pose proof (Hle _ _ Hvu _ _ Hv Hu). lia.
Qed.

End tarjan.
