(* ===== verification/ReachabilityTheorems.v ===== *)
(** * Reachability: theorems

    [path_counts] as a whole: what it counts, that it ends and how much work it
    does. *)
From S2P Require Import Prelude Reachability ReachabilitySpec ReachabilityScc ReachabilityComponents.

#[local] Arguments count_component_edge : simpl never.
#[local] Arguments count_member : simpl never.
#[local] Arguments count_component : simpl never.

(** ** Counting on the condensation *)

Section condensation.
Context (roots : list nat) (edges : list (list nat)) (reached : list bool).
Context (Hwf : graph_wf roots edges).
Context (Hlen : length reached = length edges).
Context (Hfrom : ∀ v, reached !! v = Some true ↔ from_roots roots edges v).
Let n := length edges.
Context (component : list (option nat)) (components : nat).
Context (Hok : components_ok edges reached component components).

Definition component_of (v : nat) : option nat := mjoin (component !! v).

(** The functions of component [c]. *)
Definition members_of (c : nat) : list nat :=
  filter (λ f, component_of f = Some c) (seq 0 n).

(** The edges from component [h] into component [c]. *)
Definition component_edges (h c : nat) : N :=
  Nsum (λ f, Nsum (λ t, if decide (component_of t = Some c) then 1 else 0)%N (succs edges f))
       (members_of h).

Definition component_roots (c : nat) : N :=
  Nsum (λ r, if decide (component_of r = Some c) then 1 else 0)%N roots.

(** The numbers of paths on the condensation: the roots of a component and, per
    edge into it from another component, that component's number. *)
Definition condensed (e : nat → N) : Prop :=
  ∀ c, c < components → e c = (component_roots c +
    Nsum (λ h, if decide (h = c) then 0 else component_edges h c * e h) (seq 0 components))%N.

Lemma component_of_reached v : from_roots roots edges v ↔ is_Some (component_of v).
Proof. rewrite <- Hfrom. apply (co_reached _ _ _ _ Hok). Qed.

Lemma component_of_lt v : is_Some (component_of v) → v < n.
Proof. intros Hv%component_of_reached. by eapply from_roots_lt. Qed.

Lemma component_edges_zero h c : h < c → component_edges h c = 0%N.
Proof.
  intros Hlt. apply Nsum_zero. intros f [Hf _]%list_elem_of_filter.
  apply Nsum_zero. intros t Ht. destruct (co_edge _ _ _ _ Hok f t h Hf Ht) as (c' & Hc' & ?).
  rewrite decide_False; [done|]. unfold component_of. rewrite Hc'. intros [= ->]. lia.
Qed.

Lemma imap_pair_lookup {A} (l : list A) :
  imap pair l = zip (seq 0 (length l)) l.
Proof.
  apply list_eq. intros i. rewrite list_lookup_imap, lookup_zip_with.
  destruct (l !! i) eqn:E; simpl.
  - rewrite lookup_seq_lt by (by eapply lookup_lt_Some). done.
  - by destruct (seq 0 (length l) !! i).
Qed.

(** [members] lists every component's functions. *)
Lemma members_spec :
  ∃ members, foldM (add_member reached) (replicate components []) (imap pair component)
      = Some members ∧ length members = components ∧
    ∀ c, c < components → members !! c = Some (members_of c).
Proof.
  pose proof (co_len _ _ _ _ Hok) as Hcl. fold n in Hcl.
  edestruct (foldM_spec (λ done members, length members = components ∧
    ∃ k, done = imap pair (take k component) ∧ length done = k ∧
    ∀ c, c < components →
      members !! c = Some (filter (λ f, component_of f = Some c) (seq 0 k)))
    (add_member reached) (imap pair component) (replicate components []))
    as (members & Hm & Hl & k & Hk & Hkl & Hmem).
  - rewrite length_replicate. split; [done|]. exists 0. simpl. split; [done|]. split; [done|].
    intros c Hc. by rewrite lookup_replicate_2.
  - intros done members [f held] rest Hsplit (Hl & k & -> & Hkl & Hmem).
    assert (f = k ∧ component !! k = Some held) as [-> Hheld].
    { assert (imap pair component !! k = Some (f, held)) as Hlk.
      { rewrite Hsplit, lookup_app_r by lia. by rewrite Hkl, Nat.sub_diag. }
      rewrite list_lookup_imap in Hlk. destruct (component !! k); naive_solver. }
    assert (k < n) as Hkn by (rewrite <- Hcl; by eapply lookup_lt_Some).
    assert (imap pair (take k component) ++ [(k, held)] = imap pair (take (S k) component))
      as Happ.
    { rewrite (take_S_r _ _ _ Hheld), imap_app. simpl. rewrite length_take.
      replace (k `min` length component + 0) with k by lia. done. }
    assert (∀ c, filter (λ f, component_of f = Some c) (seq 0 (S k)) =
      filter (λ f, component_of f = Some c) (seq 0 k) ++
      if decide (held = Some c) then [k] else []) as Hfil.
    { intros c. rewrite seq_S, filter_app. f_equal. rewrite filter_cons, filter_nil.
      unfold component_of. simpl. by rewrite Hheld. }
    unfold add_member. destruct (lookup_lt_is_Some_2 reached k) as [b Hb]; [lia|].
    rewrite Hb. simpl. pose proof (co_reached _ _ _ _ Hok k) as Hre.
    rewrite Hb, Hheld in Hre. simpl in Hre. destruct b.
    + destruct (proj1 Hre eq_refl) as [h Hh]. simpl in Hh. subst held. simpl.
      assert (h < components) as Hhc by (eapply (co_bound _ _ _ _ Hok k); by rewrite Hheld).
      rewrite (vec_update_spec _ _ _ _ (Hmem h Hhc)). eexists. split; [done|].
      split; [by rewrite length_insert|]. exists (S k). split; [done|].
      split; [rewrite length_app; simpl; lia|]. intros c Hc. rewrite Hfil.
      destruct (decide (h = c)) as [->|Hne].
      * rewrite list_lookup_insert_eq by lia. by rewrite decide_True.
      * rewrite list_lookup_insert_ne, decide_False by naive_solver.
        rewrite app_nil_r. by apply Hmem.
    + exists members. split; [done|]. split; [done|]. exists (S k). split; [done|].
      split; [rewrite length_app; simpl; lia|]. intros c Hc. rewrite Hfil, decide_False.
      * rewrite app_nil_r. by apply Hmem.
      * intros ->. assert (Some false = Some true) by (apply Hre; by eexists). done.
  - exists members. split; [done|]. split; [done|]. intros c Hc. rewrite Hmem by done.
    rewrite length_imap, Hcl in Hkl. unfold members_of. fold n. by rewrite Hkl.
Qed.

Lemma component_root_spec :
  ∃ counts, foldM (count_component_root component) (replicate components 0%N) roots
      = Some counts ∧ holds components counts component_roots.
Proof.
  unfold component_roots. edestruct (foldM_spec (λ done counts, holds components counts
    (λ c, Nsum (λ r, if decide (component_of r = Some c) then 1 else 0)%N done))
    (count_component_root component) roots) as (counts & H & Hh);
    [apply holds_zero| |by eauto].
  intros done s r rest Hs Hh. unfold count_component_root.
  destruct (proj1 (component_of_reached r)) as [h Hr].
  { apply from_roots_root. rewrite Hs. apply elem_of_app. right. by left. }
  pose proof Hr as Hr0. unfold component_of in Hr0. simpl in Hr0 |- *. rewrite Hr0. simpl.
  destruct (holds_add components s _ h (λ c, saturating_add c 1) 1 Hh) as (s' & -> & Hh').
  - by eapply (co_bound _ _ _ _ Hok).
  - apply sat_add_1.
  - eexists. split; [done|]. eapply holds_ext; [|exact Hh']. simpl. intros c Hc.
    rewrite Nsum_app. simpl. rewrite Hr.
    destruct (decide (h = c)) as [->|]; [rewrite decide_True by done; lia|].
    rewrite decide_False by naive_solver. lia.
Qed.

(** One edge, then one function, then one component. *)
Lemma component_edge_spec h (count : N) counts c visits t :
  is_Some (component_of t) → holds components counts c →
  ∃ counts', count_component_edge component h (sat count) (counts, visits) t =
      Some (counts', (visits + 1)%N) ∧
    holds components counts' (λ x, c x +
      if decide (x = h) then 0 else if decide (component_of t = Some x) then count else 0)%N.
Proof.
  intros [x Hx] Hh. unfold count_component_edge. unfold component_of in Hx.
  assert (component !! t = Some (Some x)) as -> by (by apply mjoin_Some). simpl.
  unfold component_of. rewrite Hx.
  case_decide as Heq.
  - injection Heq as ->. eexists. split; [done|]. eapply holds_ext; [|exact Hh]. simpl.
    intros y Hy. destruct (decide (y = h)); [lia|]. rewrite decide_False by naive_solver. lia.
  - destruct (holds_add components counts c x (λ a, saturating_add a (sat count)) count Hh)
      as (s' & Hs & Hh').
    + by eapply (co_bound _ _ _ _ Hok).
    + intros. apply sat_add.
    + simpl. rewrite Hs. simpl. eexists. split; [done|]. eapply holds_ext; [|exact Hh'].
      simpl. intros y Hy. destruct (decide (x = y)) as [->|].
      * rewrite (decide_False (P := y = h)) by congruence. by rewrite decide_True.
      * rewrite (decide_False (P := Some x = Some y)) by congruence. by destruct (decide (y = h)).
Qed.

(** What one function's targets add to component [x] when [h] is counted. *)
Definition added (h : nat) (count : N) (l : list nat) (x : nat) : N :=
  if decide (x = h) then 0%N
  else (Nsum (λ t, if decide (component_of t = Some x) then 1 else 0) l * count)%N.

Lemma count_member_spec h (count : N) counts c visits f :
  is_Some (component_of f) → holds components counts c →
  ∃ counts', count_member edges component h (sat count) (counts, visits) f =
      Some (counts', (visits + N.of_nat (S (length (succs edges f))))%N) ∧
    holds components counts' (λ x, c x + added h count (succs edges f) x)%N.
Proof.
  intros Hf Hh. unfold count_member. rewrite succs_lookup by (by apply component_of_lt). simpl.
  edestruct (foldM_spec (λ done s, s.2 = (visits + 1 + N.of_nat (length done))%N ∧
    holds components s.1 (λ x, c x + added h count done x)%N)
    (count_component_edge component h (sat count)) (succs edges f) (counts, (visits + 1)%N))
    as ([counts' visits'] & Hfold & Hv & Hh').
  - simpl. split; [lia|]. eapply holds_ext; [|exact Hh]. intros x Hx. unfold added. simpl.
    destruct (decide (x = h)); lia.
  - intros done [s vs] t rest Hs [Hv Hh']. simpl in *.
    assert (is_Some (component_of t)) as Ht.
    { apply component_of_reached. eapply from_roots_edge; [by apply component_of_reached|].
      unfold edge. rewrite Hs. apply elem_of_app. right. by left. }
    destruct (component_edge_spec h count s _ vs t Ht Hh') as (s' & -> & Hh'').
    eexists. split; [done|]. simpl. rewrite length_app. split; [simpl; lia|].
    eapply holds_ext; [|exact Hh'']. simpl. intros x Hx. unfold added.
    rewrite Nsum_app. simpl. destruct (decide (x = h)); [lia|]. case_decide; lia.
  - exists counts'. rewrite Hfold. simpl in Hv. rewrite Hv. split; [|done].
    do 2 f_equal. lia.
Qed.

Lemma count_component_spec h members counts c visits :
  h < components → (∀ c, c < components → members !! c = Some (members_of c)) →
  holds components counts c →
  ∃ counts', count_component edges component members (counts, visits) h =
      Some (counts', (visits + N.of_nat (work edges (members_of h)))%N) ∧
    holds components counts'
      (λ x, c x + if decide (x = h) then 0 else component_edges h x * c h)%N.
Proof.
  intros Hlt Hm Hh. unfold count_component. simpl. rewrite (proj2 Hh) by done. simpl.
  rewrite Hm by done. simpl.
  edestruct (foldM_spec (λ done s, s.2 = (visits + N.of_nat (work edges done))%N ∧
    holds components s.1 (λ x, c x + Nsum (λ f, added h (c h) (succs edges f) x) done)%N)
    (count_member edges component h (sat (c h))) (members_of h) (counts, visits))
    as ([counts' visits'] & Hfold & Hv & Hh').
  - change (work edges []) with 0. simpl. split; [lia|]. eapply holds_ext; [|exact Hh]. simpl. intros. lia.
  - intros done [s vs] f rest Hs [Hv Hh']. simpl in *.
    assert (is_Some (component_of f)) as Hcf.
    { assert (f ∈ members_of h) as Hf by (rewrite Hs; apply elem_of_app; right; by left).
      apply list_elem_of_filter in Hf as [Hf _]. by eexists. }
    destruct (count_member_spec h (c h) s _ vs f Hcf Hh') as (s' & -> & Hh'').
    eexists. split; [done|]. simpl. split.
    + rewrite Hv. unfold work. rewrite sum_list_with_app. simpl. lia.
    + eapply holds_ext; [|exact Hh'']. simpl. intros x Hx. rewrite Nsum_app. simpl. lia.
  - exists counts'. rewrite Hfold. simpl in Hv. rewrite Hv. split; [done|].
    eapply holds_ext; [|exact Hh']. simpl. intros x Hx. f_equal.
    unfold added, component_edges. destruct (decide (x = h)) as [|Hne].
    + by apply Nsum_zero.
    + rewrite N.mul_comm, <- Nsum_mul. apply Nsum_ext. intros. lia.
Qed.

(** Every component is final when it is reached, from the highest down. *)
Lemma count_components_spec members counts visits k :
  k ≤ components → (∀ c, c < components → members !! c = Some (members_of c)) →
  ∀ c, holds components counts c →
  (∀ x, x < components → c x = (component_roots x + Nsum (λ h, if decide (h = x) then 0
     else component_edges h x * c h) (seq k (components - k)))%N) →
  ∃ counts' e, foldM (count_component edges component members) (counts, visits)
      (reverse (seq 0 k)) =
    Some (counts', (visits + N.of_nat (sum_list_with (λ h, work edges (members_of h)) (seq 0 k)))%N) ∧
    holds components counts' e ∧ condensed e.
Proof.
  intros Hk Hm. revert counts visits Hk. induction k as [|k IH]; intros counts visits Hk c Hh Hc.
  - exists counts, c. simpl. rewrite N.add_0_r, Nat.sub_0_r in *. split; [done|].
    split; [done|]. exact Hc.
  - rewrite seq_S, reverse_snoc. change (0 + k) with k. cbn [foldM].
    destruct (count_component_spec k members counts c visits) as (counts1 & -> & Hh1);
      [lia|done|done|]. cbn [mbind option_bind].
    edestruct (IH counts1 (visits + N.of_nat (work edges (members_of k)))%N) as
      (counts' & e & -> & He & Hcond); [lia|exact Hh1| |].
    + intros x Hx. cbv beta. rewrite (Hc x Hx).
      replace (components - k) with (S (components - S k)) by lia. simpl.
      rewrite (decide_True (P := k = k)) by done.
      rewrite (Nsum_ext (λ h, if decide (h = x) then 0 else component_edges h x *
        (c h + (if decide (h = k) then 0 else component_edges k h * c k)))%N
        (λ h, if decide (h = x) then 0 else component_edges h x * c h)%N).
      * destruct (decide (k = x)) as [->|].
        -- rewrite decide_True by done. lia.
        -- rewrite decide_False by congruence. lia.
      * intros h Hin. apply elem_of_seq in Hin. destruct (decide (h = x)); [done|].
        rewrite (decide_False (P := h = k)) by lia. rewrite (component_edges_zero k h) by lia. lia.
    + exists counts', e. split; [|done]. do 2 f_equal.
      rewrite sum_list_with_app. simpl. lia.
Qed.

(** The work of the members of every component is the work of all. *)
Lemma members_work :
  sum_list_with (λ h, work edges (members_of h)) (seq 0 components) =
  work edges (filter (λ v, reached !! v = Some true) (seq 0 n)).
Proof.
  unfold members_of. induction (seq 0 n) as [|v l IH]; simpl.
  - induction (seq 0 components); simpl; [done|]. done.
  - rewrite filter_cons. pose proof (co_reached _ _ _ _ Hok v) as Hre.
    assert (∀ hs, NoDup hs → sum_list_with (λ h, work edges
        (filter (λ f, component_of f = Some h) (v :: l))) hs =
      (match component_of v with
       | Some h => if decide (h ∈ hs) then S (length (succs edges v)) else 0
       | None => 0 end) +
      sum_list_with (λ h, work edges (filter (λ f, component_of f = Some h) l)) hs) as ->.
    { induction 1 as [|h hs Hh Hnd IHl]; simpl.
      - destruct (component_of v) as [h|]; [|done].
        destruct (decide (h ∈ [])) as [Hin|]; [by apply elem_of_nil in Hin|done].
      - rewrite IHl, filter_cons. case_decide as Hv.
        + rewrite Hv, work_cons. rewrite (decide_False (P := h ∈ hs)) by done.
          rewrite decide_True by (by left). lia.
        + destruct (component_of v) as [h'|]; [|lia].
          assert (h' ∈ hs ↔ h' ∈ h :: hs) as Hext by (rewrite elem_of_cons; naive_solver).
          rewrite (decide_ext _ _ _ _ Hext). lia. }
    2: apply NoDup_seq.
    rewrite IH. unfold component_of. case_decide as Hv.
    + destruct (proj1 Hre Hv) as [h Hh]. rewrite Hh, work_cons.
      rewrite decide_True; [done|]. apply elem_of_seq.
      pose proof (co_bound _ _ _ _ Hok v h Hh). lia.
    + destruct (mjoin (component !! v)) eqn:E; [|done].
      exfalso. apply Hv, Hre. by eexists.
Qed.

(** A component a root reaches has a nonzero number. *)
Lemma condensed_pos e v c :
  condensed e → component_of v = Some c → e c ≠ 0%N.
Proof.
  intros He Hv. destruct (proj2 (component_of_reached v)) as (r & Hr & Hrv); [by eexists|].
  revert c Hv. pattern v. revert v Hrv. apply rtc_ind_r.
  - intros c Hc. rewrite He by (by eapply (co_bound _ _ _ _ Hok)).
    assert (component_roots c ≠ 0%N); [|lia].
    unfold component_roots. rewrite Nsum_zero. intros Hz. specialize (Hz r Hr).
    by rewrite decide_True in Hz by done.
  - intros u v Hru Huv IH c Hc.
    destruct (proj1 (component_of_reached u)) as [h Hh]; [by exists r|].
    specialize (IH h Hh). destruct (decide (h = c)) as [->|Hne]; [done|].
    rewrite He by (by eapply (co_bound _ _ _ _ Hok)). intros Hz.
    assert (Nsum (λ h, if decide (h = c) then 0 else component_edges h c * e h)%N
      (seq 0 components) = 0%N) as Hs by lia.
    rewrite Nsum_zero in Hs. specialize (Hs h). rewrite decide_False in Hs by done.
    assert (h < components) as Hhc by (by eapply (co_bound _ _ _ _ Hok)).
    assert (component_edges h c ≠ 0%N) as Hed; [|assert (component_edges h c * e h = 0)%N
      by (apply Hs, elem_of_seq; lia); nia].
    unfold component_edges. rewrite Nsum_zero. intros Hz2.
    assert (u ∈ members_of h) as Hum.
    { apply list_elem_of_filter. split; [done|]. apply elem_of_seq.
      pose proof (component_of_lt u). rewrite Hh in *. assert (u < n) by auto. lia. }
    specialize (Hz2 u Hum). rewrite Nsum_zero in Hz2. specialize (Hz2 v Huv).
    by rewrite decide_True in Hz2 by done.
Qed.

End condensation.

Lemma work_perm edges l1 l2 : l1 ≡ₚ l2 → work edges l1 = work edges l2.
Proof. apply sum_list_with_perm. Qed.

Section path_counts.
Context (roots : list nat) (edges : list (list nat)) (Hwf : graph_wf roots edges).
Let n := length edges.

(** The two ways out of [path_counts]. *)
Definition counted_paths (counts : list N) : Prop :=
  acyclic roots edges ∧ holds n counts (paths_to roots edges).

Definition counted_components (counts : list N) : Prop :=
  ¬ acyclic roots edges ∧
  ∃ reached component components e,
    length reached = n ∧
    (∀ v, reached !! v = Some true ↔ from_roots roots edges v) ∧
    components_ok edges reached component components ∧
    condensed roots edges component components e ∧
    holds n counts (λ v, match component_of component v with Some c => e c | None => 0 end)%N.

Lemma condensation_counts_spec v0 all w :
  walked_all roots edges v0 all w →
  ∃ counts component components e visits,
    condensation_counts roots edges (wk_reached w) visits =
      Some (counts, (visits + 2 * N.of_nat (work edges all))%N) ∧
    components_ok edges (wk_reached w) component components ∧
    condensed roots edges component components e ∧
    visits = wk_visits w ∧
    holds n counts (λ v, match component_of component v with Some c => e c | None => 0 end)%N.
Proof.
  intros [Hl _ _ Hnd Hre Hfr _ _].
  assert (∀ v, wk_reached w !! v = Some true ↔ from_roots roots edges v) as Hfrom
    by (intros v; by rewrite Hre, Hfr).
  destruct (reached_components_spec edges (wk_reached w)) with (v0 := wk_visits w)
    as (component & components & Hrun & Hok).
  { intros u v. by apply (gw_edges _ _ Hwf). }
  { intros u v Hu Huv. apply Hfrom. eapply from_roots_edge; [by apply Hfrom|done]. }
  { done. }
  assert (work edges (filter (λ v, wk_reached w !! v = Some true) (seq 0 n)) = work edges all)
    as Hwork.
  { apply work_perm, NoDup_Permutation; [apply NoDup_filter, NoDup_seq|done|].
    intros v. rewrite list_elem_of_filter, elem_of_seq, Hre. split; [tauto|].
    intros Hv. split; [done|]. apply Hre, lookup_lt_Some in Hv. unfold n. lia. }
  destruct (members_spec roots edges (wk_reached w) Hl Hfrom component components Hok)
    as (members & Hm & Hml & Hmem).
  destruct (component_root_spec roots edges (wk_reached w) Hwf Hl Hfrom component components Hok)
    as (counts0 & Hc0 & Hh0).
  edestruct (count_components_spec roots edges (wk_reached w) Hwf Hl Hfrom component components Hok
    members counts0 (wk_visits w + N.of_nat (work edges all))%N components (le_n _) Hmem
    (component_roots roots component) Hh0) as (counts1 & e & Hrun1 & Hh1 & Hcond).
  { intros x Hx. rewrite Nat.sub_diag. simpl. lia. }
  rewrite (members_work roots edges (wk_reached w) Hl Hfrom component components Hok) in Hrun1.
  fold n in Hrun, Hrun1. rewrite Hwork in Hrun, Hrun1.
  assert (mapM (λ function,
      is_reached ← wk_reached w !! function;
      if (is_reached : bool) then
        held ← mjoin (component !! function);
        counts1 !! held
      else Some 0%N) (seq 0 n) =
    Some ((λ v, sat (match component_of component v with Some c => e c | None => 0 end)%N)
      <$> seq 0 n)) as Hmap.
  { apply mapM_Some. apply Forall2_fmap_r, Forall2_same_length_lookup_2; [done|].
    intros i x y Hx Hy. assert (x = y) as -> by congruence.
    apply lookup_seq in Hx as [-> Hx]. simpl.
    destruct (lookup_lt_is_Some_2 (wk_reached w) i) as [b Hb]; [unfold n in Hx; lia|].
    rewrite Hb. simpl. pose proof (co_reached _ _ _ _ Hok i) as Hri. rewrite Hb in Hri.
    unfold component_of. destruct b.
    - destruct (proj1 Hri eq_refl) as [c Hc]. pose proof Hc as Hc'. simpl in Hc' |- *.
      rewrite Hc'. simpl. apply (proj2 Hh1). by eapply (co_bound _ _ _ _ Hok).
    - destruct (mjoin (component !! i)); [|done].
      assert (Some false = Some true) by (apply Hri; by eexists). done. }
  eexists _, component, components, e, _. split; [|split; [done|split; [done|split; [done|]]]].
  - unfold condensation_counts. rewrite Hrun. fold n. simpl. rewrite Hm. simpl. rewrite Hc0. simpl.
    rewrite Hrun1. simpl in Hmap |- *. rewrite Hmap. simpl. do 2 f_equal. lia.
  - split; [by rewrite length_fmap, length_seq|]. intros v Hv.
    by rewrite list_lookup_fmap, lookup_seq_lt by done.
Qed.

Lemma path_counts_cases v0 :
  ∃ counts all, NoDup all ∧ (∀ v, v ∈ all ↔ from_roots roots edges v) ∧
    ((path_counts roots edges v0 = Some (counts, v0 + 2 * N.of_nat (work edges all))%N ∧
      counted_paths counts) ∨
     (path_counts roots edges v0 = Some (counts, v0 + 3 * N.of_nat (work edges all))%N ∧
      counted_components counts)).
Proof.
  destruct (walk_all_spec roots edges Hwf v0) as (reached & stack & w & all & Hm & Hw & Hall).
  destruct (order_spec roots edges Hwf v0 all w Hall) as (order & rest & Hk & Hp & Ho & Hrest).
  pose proof Hall as [Hl _ Hc Hnd Hre Hfr _ Hvis].
  assert (∀ x, x ∈ all → x < n) as Hlt by (intros x Hx; eapply from_roots_lt; [done|by apply Hfr]).
  unfold path_counts. rewrite Hm. cbn [mbind option_bind]. rewrite Hw. cbn [mbind option_bind].
  fold n in Hk |- *. rewrite Hk. cbn [mbind option_bind]. rewrite Hc.
  pose proof (Permutation_length Hp) as Hplen. rewrite length_app in Hplen.
  case_decide as Hord.
  - assert (rest = []) as -> by (apply nil_length_inv; lia). rewrite app_nil_r in Hp.
    assert (NoDup order) as Hndo by (by rewrite <- Hp).
    assert (topo edges order) as Htopo by (by eapply order_topo).
    destruct (count_roots_spec roots edges Hwf) as (counts0 & Hr0 & Hh0).
    fold n in Hr0. rewrite Hr0. cbn [mbind option_bind].
    assert (∀ x, x ∈ order → x < n) as Hlto by (intros x; rewrite <- Hp; apply Hlt).
    destruct (count_order_spec roots edges Hwf order counts0 _ (wk_visits w) Hndo Htopo Hlto Hh0)
      as (counts & -> & Hh).
    exists counts, all. split; [done|]. split; [done|]. left. split.
    + rewrite Hvis, (work_perm edges order all) by done. do 2 f_equal. lia.
    + split; [by eapply (order_acyclic roots edges order all)|].
      eapply holds_ext; [|exact Hh]. intros v Hv. apply counting_exact; try done.
      * intros r Hr. rewrite <- Hp, Hfr. by apply from_roots_root.
      * apply NoDup_bound; [done|]. intros x. rewrite <- Hp. apply Hlt.
  - destruct (condensation_counts_spec v0 all w Hall)
      as (counts & component & components & e & visits & Hrun & Hok & Hcond & -> & Hh).
    exists counts, all. split; [done|]. split; [done|]. right. split.
    + rewrite Hrun, Hvis. do 2 f_equal. lia.
    + split.
      * intros Hac. apply Hord. rewrite Hplen.
        rewrite (acyclic_complete roots edges rest Hac); [simpl; lia| |done].
        intros x Hx. apply Hfr. rewrite Hp. apply elem_of_app. by right.
      * exists (wk_reached w), component, components, e.
        split; [done|]. split; [intros v; by rewrite Hre, Hfr|]. done.
Qed.

Lemma counted_components_pos counts v :
  counted_components counts → v < n →
  ∃ c, counts !! v = Some (sat c) ∧ (c ≠ 0%N ↔ from_roots roots edges v).
Proof.
  intros (_ & reached & component & components & e & Hlen & Hfrom & Hok & Hcond & Hh) Hv.
  eexists. split; [by apply (proj2 Hh)|]. simpl.
  pose proof (co_reached _ _ _ _ Hok v) as Hre. rewrite Hfrom in Hre. unfold component_of.
  destruct (mjoin (component !! v)) as [c|] eqn:E.
  - split; [intros _; apply Hre; by eexists|intros _].
    by eapply (condensed_pos roots edges reached Hwf Hlen Hfrom component components Hok e v c).
  - split; [done|]. intros Hr. apply Hre in Hr as [? ?]. done.
Qed.

End path_counts.

(** ** Concrete graphs *)

Definition graph_wf_check (roots : list nat) (edges : list (list nat)) : bool :=
  forallb (λ r, r <? length edges) roots &&
  forallb (forallb (λ t, t <? length edges)) edges.

Lemma graph_wf_check_ok roots edges :
  graph_wf_check roots edges = true → graph_wf roots edges.
Proof.
  unfold graph_wf_check. rewrite andb_true_iff, !forallb_forall. intros [Hr He]. split.
  - intros r Hin. apply Nat.ltb_lt, Hr. by apply list_elem_of_In.
  - intros u v Huv. unfold edge, succs in Huv.
    destruct (edges !! u) as [ts|] eqn:E; [|by apply elem_of_nil in Huv].
    apply list_elem_of_lookup_2, list_elem_of_In, He in E. rewrite forallb_forall in E.
    apply Nat.ltb_lt, E. by apply list_elem_of_In.
Qed.

(** Edges that only go up make no cycle. *)
Lemma acyclic_forward roots edges :
  (∀ u v, strict_edge edges u v → u < v) → acyclic roots edges.
Proof.
  intros Hup f _ Hc. assert (∀ u v, tc (strict_edge edges) u v → u < v) as Ht.
  { induction 1 as [u v Huv|u v w Huv _ IH]; apply Hup in Huv; lia. }
  specialize (Ht f f Hc). lia.
Qed.

(** The test's layers, and a cycle of two. *)
Definition layered : list (list nat) := [[1; 1]; [2; 2]; []].
Definition mutual : list (list nat) := [[1]; [0; 2]; []].

Lemma layered_acyclic : acyclic [0] layered.
Proof.
  apply acyclic_forward. intros u v [Huv Hne]. unfold edge, succs in Huv.
  destruct u as [|[|[|u]]]; simpl in Huv; rewrite ?elem_of_cons, ?elem_of_nil in Huv; lia.
Qed.

Lemma mutual_cyclic : ¬ acyclic [0] mutual.
Proof.
  assert (∀ u v, mutual !! u = Some [v] ∨ mutual !! u = Some [v; 2] → u ≠ v →
    strict_edge mutual u v) as Hs.
  { intros u v H Hne. split; [|done]. unfold edge, succs.
    destruct H as [-> | ->]; simpl; by left. }
  intros Hac. apply (Hac 0).
  - exists 0. split; [by left|apply rtc_refl].
  - eapply tc_l with 1; [apply Hs; [by left|lia]|apply tc_once, Hs; [by right|lia]].
Qed.

(** ** Properties *)

(** C36: [path_counts] never panics and never runs out of its bounded loops,
    gives every function one [u64] count, and the count is nonzero exactly for
    the functions some root reaches: saturation never makes one zero, and a
    cycle never hides one. *)
Theorem path_counts_nonzero_iff_reached roots edges visits :
  graph_wf roots edges →
  ∃ counts visits', path_counts roots edges visits = Some (counts, visits') ∧
    length counts = length edges ∧
    ∀ v, v < length edges →
      ∃ c, counts !! v = Some c ∧ (c ≤ u64_max)%N ∧
           (c ≠ 0%N ↔ from_roots roots edges v).
Proof.
  intros Hwf. destruct (path_counts_cases roots edges Hwf visits)
    as (counts & all & _ & _ & [[-> [_ Hh]]|[-> Hc]]).
  - eexists _, _. split; [done|]. split; [apply Hh|]. intros v Hv. eexists.
    split; [by apply (proj2 Hh)|]. rewrite sat_zero, paths_to_pos by done.
    split; [unfold sat; lia|done].
  - eexists _, _. split; [done|]. split.
    { by destruct Hc as (_ & ? & ? & ? & ? & _ & _ & _ & _ & [? _]). }
    intros v Hv. destruct (counted_components_pos _ _ Hwf _ v Hc Hv) as (c & Hcv & Hp).
    exists (sat c). split; [done|]. rewrite sat_zero. split; [unfold sat; lia|done].
Qed.

Lemma path_counts_nonzero_iff_reached_witness :
  graph_wf_check [0] mutual = true ∧
  ∃ counts visits', path_counts [0] mutual 0 = Some (counts, visits') ∧
    length counts = length mutual ∧
    ∀ v, v < length mutual →
      ∃ c, counts !! v = Some c ∧ (c ≤ u64_max)%N ∧ (c ≠ 0%N ↔ from_roots [0] mutual v).
Proof.
  split; [reflexivity|].
  apply path_counts_nonzero_iff_reached, graph_wf_check_ok. reflexivity.
Defined.

(** C19: the counts agree with the walk over every path that the arithmetic
    replaced: they are its counts where no root reaches a cycle, and they are
    zero exactly where its counts are on every graph. *)
Theorem path_counts_is_walked roots edges visits :
  graph_wf roots edges →
  ∃ counts visits' reference,
    path_counts roots edges visits = Some (counts, visits') ∧
    walked roots edges = Some reference ∧
    (acyclic roots edges → counts = reference) ∧
    ∀ v, counts !! v = Some 0%N ↔ reference !! v = Some 0%N.
Proof.
  intros Hwf. destruct (walked_spec roots edges Hwf) as (reference & Hw & Hr).
  destruct (path_counts_cases roots edges Hwf visits)
    as (counts & all & _ & _ & [[-> [_ Hh]]|[-> Hc]]).
  - assert (counts = reference) as -> by (by eapply holds_eq). eexists _, _, _. done.
  - eexists _, _, reference. split; [done|]. split; [done|].
    split; [by destruct Hc as [Hn _]|]. intros v.
    destruct (decide (v < length edges)) as [Hv|Hv].
    + destruct (counted_components_pos _ _ Hwf _ v Hc Hv) as (c & -> & Hp).
      rewrite (proj2 Hr) by done.
      pose proof (paths_to_pos roots edges Hwf v) as Hpp. pose proof (sat_zero c) as H1.
      pose proof (sat_zero (paths_to roots edges v)) as H2.
      rewrite <- Hp in Hpp. split; intros [= Hz]; f_equal.
      * apply H2. destruct (N.eq_dec (paths_to roots edges v) 0%N); [done|].
        exfalso. tauto.
      * apply H1. destruct (N.eq_dec c 0%N); [done|]. exfalso. tauto.
    + rewrite !lookup_ge_None_2; [done|rewrite (proj1 Hr); lia|].
      destruct Hc as (_ & ? & ? & ? & ? & _ & _ & _ & _ & [Hl _]). lia.
Qed.

Lemma path_counts_is_walked_witness :
  ∃ counts visits' reference,
    path_counts [0] layered 0 = Some (counts, visits') ∧
    walked [0] layered = Some reference ∧
    (acyclic [0] layered → counts = reference) ∧
    ∀ v, counts !! v = Some 0%N ↔ reference !! v = Some 0%N.
Proof. apply path_counts_is_walked, graph_wf_check_ok. reflexivity. Defined.

(** On a graph without a reached cycle the count of a function is exactly
    the number of paths from the roots to it that revisit nothing, capped at
    [u64::MAX]. *)
Theorem path_counts_saturates roots edges visits :
  graph_wf roots edges → acyclic roots edges →
  ∃ counts visits', path_counts roots edges visits = Some (counts, visits') ∧
    ∀ v, v < length edges →
      counts !! v = Some (N.min (paths_to roots edges v) u64_max).
Proof.
  intros Hwf Hac. destruct (path_counts_cases roots edges Hwf visits)
    as (counts & all & _ & _ & [[-> [_ Hh]]|[-> [Hn _]]]); [|done].
  eexists _, _. split; [done|]. apply Hh.
Qed.

Lemma path_counts_saturates_witness :
  paths_to [0] layered 2 = 4%N ∧
  ∃ counts visits', path_counts [0] layered 0 = Some (counts, visits') ∧
    ∀ v, v < length layered →
      counts !! v = Some (N.min (paths_to [0] layered v) u64_max).
Proof.
  split; [vm_compute; reflexivity|].
  apply path_counts_saturates; [apply graph_wf_check_ok; reflexivity|apply layered_acyclic].
Defined.

(** Where a root reaches a cycle, every reached function has its
    component's number on the condensation (capped at [u64::MAX]): the
    component's roots plus, once per edge into it from another component, that
    component's number; an unreached function has zero. *)
Theorem path_counts_condensation roots edges visits :
  graph_wf roots edges → ¬ acyclic roots edges →
  ∃ counts visits' reached component components e,
    path_counts roots edges visits = Some (counts, visits') ∧
    components_ok edges reached component components ∧
    (∀ v, reached !! v = Some true ↔ from_roots roots edges v) ∧
    (∀ c, c < components → e c = (component_roots roots component c +
       Nsum (λ h, if decide (h = c) then 0 else component_edges edges component h c * e h)
            (seq 0 components))%N) ∧
    ∀ v, v < length edges →
      counts !! v = Some (match component_of component v with
                          | Some c => N.min (e c) u64_max
                          | None => 0 end)%N.
Proof.
  intros Hwf Hcy. destruct (path_counts_cases roots edges Hwf visits)
    as (counts & all & _ & _ & [[_ [Hac _]]|[-> (_ & reached & component & components & e & Hl & Hf & Hok & He & Hh)]]);
    [done|].
  eexists counts, _, reached, component, components, e. split; [done|]. split; [done|].
  split; [done|]. split; [exact He|]. intros v Hv. rewrite (proj2 Hh) by done.
  by destruct (component_of component v).
Qed.

Lemma path_counts_condensation_witness :
  ∃ counts visits' reached component components e,
    path_counts [0] mutual 0 = Some (counts, visits') ∧
    components_ok mutual reached component components ∧
    (∀ v, reached !! v = Some true ↔ from_roots [0] mutual v) ∧
    (∀ c, c < components → e c = (component_roots [0%nat] component c +
       Nsum (λ h, if decide (h = c) then 0 else component_edges mutual component h c * e h)
            (seq 0 components))%N) ∧
    ∀ v, v < length mutual →
      counts !! v = Some (match component_of component v with
                          | Some c => N.min (e c) u64_max
                          | None => 0 end)%N.
Proof.
  apply path_counts_condensation; [apply graph_wf_check_ok; reflexivity|apply mutual_cyclic].
Defined.

(** C11: [reached_components] is Tarjan's algorithm: on a set of functions
    closed under edges it ends without a panic, numbers exactly those
    functions, gives two of them one number exactly when each reaches the
    other, leaves no number unused, and numbers against the edges (no edge goes
    to a higher number). *)
Theorem reached_components_scc edges reached visits :
  (∀ u v, edge edges u v → v < length edges) →
  (∀ u v, reached !! u = Some true → edge edges u v → reached !! v = Some true) →
  length reached = length edges →
  ∃ component components visits',
    reached_components edges reached visits = Some (component, components, visits') ∧
    (∀ v, reached !! v = Some true ↔ is_Some (mjoin (component !! v))) ∧
    (∀ c, c < components ↔ ∃ v, mjoin (component !! v) = Some c) ∧
    (∀ u v cu cv, mjoin (component !! u) = Some cu → mjoin (component !! v) = Some cv →
       cu = cv ↔ rtc (edge edges) u v ∧ rtc (edge edges) v u) ∧
    ∀ u v cu cv, mjoin (component !! u) = Some cu → mjoin (component !! v) = Some cv →
       edge edges u v → cv ≤ cu.
Proof.
  intros He Hr Hl. destruct (reached_components_spec edges reached He Hr Hl visits)
    as (component & components & Hrun & Hok).
  exists component, components. eexists. split; [exact Hrun|].
  split; [apply Hok|]. split.
  - intros c. split; [apply Hok|]. intros [v Hv]. by eapply (co_bound _ _ _ _ Hok).
  - split; [intros; by eapply components_scc|].
    intros u v cu cv Hu Hv Huv. destruct (co_edge _ _ _ _ Hok u v cu Hu Huv) as (c' & Hc' & ?).
    assert (c' = cv) by congruence. lia.
Qed.

Lemma reached_components_scc_witness :
  ∃ component components visits',
    reached_components mutual [true; true; true] 0 = Some (component, components, visits') ∧
    (∀ v, [true; true; true] !! v = Some true ↔ is_Some (mjoin (component !! v))) ∧
    (∀ c, c < components ↔ ∃ v, mjoin (component !! v) = Some c) ∧
    (∀ u v cu cv, mjoin (component !! u) = Some cu → mjoin (component !! v) = Some cv →
       cu = cv ↔ rtc (edge mutual) u v ∧ rtc (edge mutual) v u) ∧
    ∀ u v cu cv, mjoin (component !! u) = Some cu → mjoin (component !! v) = Some cv →
       edge mutual u v → cv ≤ cu.
Proof.
  assert (graph_wf [0] mutual) as [_ He] by (apply graph_wf_check_ok; reflexivity).
  apply reached_components_scc; [exact He| |reflexivity].
  intros u v _ Huv. apply He in Huv. destruct v as [|[|[|v]]]; simpl in *; [done..|lia].
Defined.

(** [path_counts] is linear in the part of the graph the roots reach: it
    visits every reached function and its edges exactly twice where no root
    reaches a cycle and exactly three times otherwise. *)
Theorem path_counts_work roots edges visits :
  graph_wf roots edges →
  ∃ counts visits' passes all,
    path_counts roots edges visits = Some (counts, visits') ∧
    NoDup all ∧ (∀ v, v ∈ all ↔ from_roots roots edges v) ∧
    visits' = (visits + passes * N.of_nat (work edges all))%N ∧
    (passes = 2%N ∧ acyclic roots edges ∨ passes = 3%N ∧ ¬ acyclic roots edges) ∧
    work edges all ≤ length edges + edge_count edges.
Proof.
  intros Hwf. destruct (path_counts_cases roots edges Hwf visits)
    as (counts & all & Hnd & Hfr & Hcase).
  assert (work edges all ≤ length edges + edge_count edges) as Hb.
  { rewrite <- (work_bound edges (λ v, v ∈ all)). apply Nat.eq_le_incl, work_perm.
    apply NoDup_Permutation; [done|apply NoDup_filter, NoDup_seq|].
    intros v. rewrite list_elem_of_filter, elem_of_seq. split; [|tauto].
    intros Hv. split; [done|]. apply Hfr, from_roots_lt in Hv; [lia|done]. }
  destruct Hcase as [[-> [Hac _]]|[-> [Hac _]]];
    eexists counts, _, _, all; split; [done| |done|]; split; [done| |done|];
    split; [done| |done|]; split; [reflexivity| |reflexivity|]; (split; [|done]); tauto.
Qed.

Lemma path_counts_work_witness :
  path_counts [0] layered 0 = Some ([1; 2; 4]%N, 14%N) ∧
  ∃ counts visits' passes all,
    path_counts [0] layered 0 = Some (counts, visits') ∧
    NoDup all ∧ (∀ v, v ∈ all ↔ from_roots [0] layered v) ∧
    visits' = (0 + passes * N.of_nat (work layered all))%N ∧
    (passes = 2%N ∧ acyclic [0] layered ∨ passes = 3%N ∧ ¬ acyclic [0] layered) ∧
    work layered all ≤ length layered + edge_count layered.
Proof.
  split; [vm_compute; reflexivity|].
  apply path_counts_work, graph_wf_check_ok. reflexivity.
Defined.
