(* ===== verification/RoundReplay.v ===== *)
(** * K3: a bounded Jacobi loop, replayed

    Model of [rust/crates/solid-reactive-ir/src/base/fixpoint/rounds.rs]: the
    loop [x 0 n = init n], [x r n = step n (x (r-1) n) (x (r-1) preds)], run until
    a round changes nothing or [cap] rounds have run, with every node's value
    per round kept so that an update only re-runs the cone of its changes. A
    [u32] round is a [nat]: it never passes [cap]. [None] is a panic. *)
From S2P Require Import Prelude SolverBase KeptGraph.

(** [Trajectory<V>]: the value at round 0 and at every round it changed. *)
Abbreviation Trajectory V := (list (nat * V)) (only parsing).

(** [slice::partition_point]: the length of the prefix on which [p] holds. *)
Fixpoint partition_point {A} (p : A → bool) (l : list A) : nat :=
  match l with
  | [] => 0
  | a :: l => if p a then S (partition_point p l) else 0
  end.

(** [at]: the last entry at or before [round]. *)
Definition at_round {V} (t : Trajectory V) (round : nat) : option V :=
  match partition_point (λ e, bool_decide (e.1 ≤ round)) t with
  | 0 => None
  | S index => snd <$> t !! index
  end.

(** [trait Step]. *)
Class Step (K I V E : Type) := {
  step_init : K → I → V;
  step_next : K → I → V → list (E * option V) → V
}.

Record RoundReplay (K I V E : Type) `{Countable K} := mk_rounds {
  rr_graph : KeptGraph K I E;
  rr_trajectories : list (Trajectory V);
  rr_last_changes : gmap nat nat;
  rr_cap : nat;
  rr_converged : bool;
  rr_rounds : nat
}.
Arguments mk_rounds {K I V E _ _} _ _ _ _ _ _.
Arguments rr_graph {K I V E _ _} _.
Arguments rr_trajectories {K I V E _ _} _.
Arguments rr_last_changes {K I V E _ _} _.
Arguments rr_cap {K I V E _ _} _.
Arguments rr_converged {K I V E _ _} _.
Arguments rr_rounds {K I V E _ _} _.

Section rounds.
Context {K I V E : Type} `{Countable K, EqDecision I, EqDecision V, EqDecision E}.
Context `{Step K I V E}.
Implicit Types (g : KeptGraph K I E) (m : RoundReplay K I V E).
Implicit Types (trajectories : list (Trajectory V)).

(** [new]: the assertion on [cap]. *)
Definition rr_new (cap : nat) : option (RoundReplay K I V E) :=
  if decide (1 ≤ cap) then Some (mk_rounds kg_default [] ∅ cap false 0) else None.

(** A slot of the cone no longer counted at its last change. *)
Definition rr_uncount trajectories (last_changes : gmap nat nat) (slot : nat)
  : option (gmap nat nat) :=
  t ← trajectories !! slot;
  match last t with
  | Some (l, _) =>
      count ← last_changes !! l;
      count ← match count with 0 => None | S count => Some count end;
      Some (if decide (count = 0) then delete l last_changes
            else <[l := count]> last_changes)
  | None => Some last_changes
  end.

(** The last value of a slot of the cone, if it was defined before. *)
Definition rr_before g (ap : Applied K) trajectories (slot : nat) : option (option V) :=
  let defined := if bool_decide (slot ∈ ap_seeds ap)
                 then bool_decide (slot ∈ ap_was_defined ap)
                 else kg_is_defined g slot in
  if (defined : bool) then
    t ← trajectories !! slot; Some (snd <$> last t)
  else Some None.

(** [position]: [u32::MAX] marks a slot outside the cone, here [None]. *)
Definition rr_position (position : list (option nat)) (e : nat * nat)
  : option (list (option nat)) :=
  let '(index, slot) := e in
  index ← u32_try_from index;
  position.[slot <- Some index].

(** The value of a predecessor at the round before. *)
Definition rr_seen trajectories (position : list (option nat)) (current : list (option V))
    (round : nat) (e : nat * E) : option (E * option V) :=
  let '(pred, edge) := e in
  inside ← position !! pred;
  value ← match inside with
          | None => t ← trajectories !! pred; Some (at_round t (round - 1))
          | Some inside => current !! inside
          end;
  Some (edge, value).

(** One node of one round; the index is into the cone's slots. *)
Definition rr_step g trajectories (position : list (option nat)) (keys : list K)
    (current : list (option V)) (round : nat) (e : nat * nat) : option (option V) :=
  let '(index, slot) := e in
  definition ← kg_definition g slot;
  match definition with
  | None => Some None
  | Some (input, preds) =>
      seen ← mapM (rr_seen trajectories position current round) preds;
      own ← mjoin (current !! index);
      key ← keys !! index;
      Some (Some (step_next key input own seen))
  end.

(** The entry a round adds to a trajectory, when the value moved. *)
Definition rr_push (round : nat) (t : Trajectory V) (current next : option V) : Trajectory V :=
  match next with
  | Some value => if decide (next = current) then t else t ++ [(round, value)]
  | None => t
  end.

Definition rr_moved (current next : list (option V)) : bool :=
  existsb (λ '(current, next), bool_decide (next ≠ current) && bool_decide (is_Some next))
    (zip current next).

(** [while round < self.cap]: [rest] is [self.cap - round]. *)
Fixpoint rr_loop (rest : nat) g trajectories (position : list (option nat))
    (slots : list nat) (keys : list K) (outside_last round : nat)
    (current : list (option V)) (own : list (Trajectory V))
  : option (list (Trajectory V) * nat * bool) :=
  match rest with
  | 0 => Some (own, round, false)
  | S rest =>
      let round := S round in
      next ← mapM (rr_step g trajectories position keys current round) (imap pair slots);
      let own := zip_with (λ t cn, rr_push round t cn.1 cn.2) own (zip current next) in
      if negb (rr_moved current next) && bool_decide (outside_last < round)
      then Some (own, round, true)
      else rr_loop rest g trajectories position slots keys outside_last round next own
  end.

(** Storing a slot's trajectory and counting its last change. *)
Definition rr_store (s : gmap nat nat * list (Trajectory V)) (e : nat * Trajectory V)
  : option (gmap nat nat * list (Trajectory V)) :=
  let '(last_changes, trajectories) := s in
  let '(slot, t) := e in
  let last_changes :=
    match last t with
    | Some (l, _) => <[l := S (default 0 (last_changes !! l))]> last_changes
    | None => last_changes
    end in
  trajectories ← trajectories.[slot <- t];
  Some (last_changes, trajectories).

(** The largest key of [last_changes], 0 when it is empty. *)
Definition last_round (last_changes : gmap nat nat) : nat :=
  foldr max 0 (map_to_list last_changes).*1.

(** A slot's value at round 0, and the trajectory it starts. *)
Definition rr_init g (e : nat * K) : option (option V) :=
  let '(slot, key) := e in
  definition ← kg_definition g slot;
  Some (match definition with Some (input, _) => Some (step_init key input) | None => None end).

Definition rr_first (value : option V) : Trajectory V :=
  match value with Some v => [(0, v)] | None => [] end.

(** [solve]. *)
Definition rr_solve g trajectories (last_changes : gmap nat nat) (cap : nat)
    (cone : gset nat) (fresh : bool)
  : option (list (Trajectory V) * gmap nat nat * nat * bool) :=
  let outside_last := if fresh then 0 else last_round last_changes in
  let slots := ascending cone in
  position ← foldM rr_position (replicate (di_capacity (kg_index g)) None) (imap pair slots);
  keys ← mapM (di_key (kg_index g)) slots;
  current ← mapM (rr_init g) (zip slots keys);
  '(own, round, converged) ←
    rr_loop cap g trajectories position slots keys outside_last 0 current (rr_first <$> current);
  '(last_changes, trajectories) ← foldM rr_store (last_changes, trajectories) (zip slots own);
  Some (trajectories, last_changes, round, converged).

(** The changed keys of an update, after [solve]. *)
Definition rr_changed g trajectories (changed : list K) (e : nat * option V) : option (list K) :=
  let '(slot, before) := e in
  if kg_is_defined g slot then
    t ← trajectories !! slot;
    Some (if decide (before = (snd <$> last t)) then changed
          else match di_key (kg_index g) slot with
               | Some key => changed ++ [key]
               | None => changed
               end)
  else Some changed.

(** [update_with]. *)
Definition rr_update_with m (changes : list (Change K I E)) (force_fresh : bool)
  : option (RoundReplay K I V E * Solved K) :=
  '(g, ap) ← kg_apply (rr_graph m) changes;
  let capacity := di_capacity (kg_index g) in
  let trajectories := if decide (length (rr_trajectories m) < capacity)
                      then resize capacity [] (rr_trajectories m) else rr_trajectories m in
  cone ← kg_cone g (ap_seeds ap);
  let fresh := force_fresh || negb (rr_converged m) ||
               fresh_cone (size cone) (di_len (kg_index g)) in
  '(cone, last_changes) ←
    (if fresh then cone ← kg_slots g; Some (cone, ∅)
     else last_changes ← foldM (rr_uncount trajectories) (rr_last_changes m) (ascending cone);
          Some (cone, last_changes));
  before ← mapM (rr_before g ap trajectories) (ascending cone);
  '(trajectories, last_changes, round, converged) ←
    (if decide (cone = ∅) then
       if (fresh : bool) then Some (trajectories, last_changes, 0, true)
       else Some (trajectories, last_changes, rr_rounds m, rr_converged m)
     else rr_solve g trajectories last_changes (rr_cap m) cone fresh);
  changed ← foldM (rr_changed g trajectories) (ap_undefined ap) (zip (ascending cone) before);
  g ← kg_sweep g ap;
  Some (mk_rounds g trajectories last_changes (rr_cap m) converged round,
        mk_solved changed (size cone) fresh).

(** [update]. *)
Definition rr_update m (changes : list (Change K I E)) := rr_update_with m changes false.

(** [value]: the final value of a defined node. *)
Definition rr_value m (k : K) : option V :=
  slot ← di_get (kg_index (rr_graph m)) k;
  if kg_is_defined (rr_graph m) slot
  then t ← rr_trajectories m !! slot; snd <$> last t
  else None.

(** [value_at]: its value at a round. *)
Definition rr_value_at m (k : K) (round : nat) : option V :=
  slot ← di_get (kg_index (rr_graph m)) k;
  if kg_is_defined (rr_graph m) slot
  then t ← rr_trajectories m !! slot; at_round t round
  else None.

End rounds.
