(* ===== verification/RoundReplaySpec.v ===== *)
(** * Correctness of the K3 replay

    What the loop computes, round by round, and how a trajectory records it;
    one solve of the loop; then the invariant of the kept trajectories and the
    update that keeps it. *)
From S2P Require Import Prelude SolverBase KeptGraph KeptGraphSpec RoundReplay.

(** ** Trajectories *)

Section history.
Context {V : Type} `{EqDecision V}.
Implicit Types (x : nat → option V) (t : Trajectory V).

(** The trajectory of a sequence of values up to round [R]. *)
Fixpoint history x (R : nat) : Trajectory V :=
  match R with
  | 0 => rr_first (x 0)
  | S R => rr_push (S R) (history x R) (x R) (x (S R))
  end.

(** A node is defined at every round or at none. *)
Definition steady x : Prop := ∀ r, is_Some (x r) ↔ is_Some (x 0).

Lemma partition_point_le {A} (p : A → bool) l : partition_point p l ≤ length l.
Proof. induction l as [|a l IH]; simpl; [lia|]. destruct (p a); lia. Qed.

Lemma partition_point_all {A} (p : A → bool) l :
  Forall (λ a, p a = true) l → partition_point p l = length l.
Proof. induction 1 as [|a l Ha _ IH]; simpl; [done|]. by rewrite Ha, IH. Qed.

Lemma partition_point_snoc {A} (p : A → bool) l a :
  p a = false → partition_point p (l ++ [a]) = partition_point p l.
Proof.
  intros Ha. induction l as [|b l IH]; simpl; [by rewrite Ha|]. by destruct (p b); rewrite ?IH.
Qed.

Lemma at_round_all t r : Forall (λ e, e.1 ≤ r) t → at_round t r = snd <$> last t.
Proof.
  intros Hf. unfold at_round. rewrite partition_point_all.
  - destruct t as [|e t]; [done|]. rewrite last_lookup. done.
  - eapply Forall_impl; [exact Hf|]. intros e He. by apply bool_decide_eq_true_2.
Qed.

Lemma at_round_snoc t r R v : r < R → at_round (t ++ [(R, v)]) r = at_round t r.
Proof.
  intros Hr. unfold at_round.
  rewrite partition_point_snoc by (apply bool_decide_eq_false_2; simpl; lia).
  destruct (partition_point _ t) as [|i] eqn:Hp; [done|].
  pose proof (partition_point_le (λ e, bool_decide (e.1 ≤ r)) t).
  by rewrite lookup_app_l by lia.
Qed.

Lemma history_le x R : Forall (λ e, e.1 ≤ R) (history x R).
Proof.
  induction R as [|R IH]; simpl.
  - destruct (x 0); simpl; [by apply Forall_singleton|done].
  - assert (Forall (λ e : nat * V, e.1 ≤ S R) (history x R)) as Hf
      by (eapply Forall_impl; [exact IH|]; intros; simpl in *; lia).
    unfold rr_push. destruct (x (S R)); [|done]. case_decide; [done|].
    apply Forall_app. split; [done|]. by apply Forall_singleton.
Qed.

Lemma history_last x R : steady x → snd <$> last (history x R) = x R.
Proof.
  intros Hs. induction R as [|R IH]; simpl; [by destruct (x 0)|].
  unfold rr_push. pose proof (Hs R) as HR. pose proof (Hs (S R)) as HS.
  destruct (x (S R)) as [v|] eqn:E.
  - case_decide as Hd; [by rewrite IH, Hd|]. by rewrite last_snoc.
  - rewrite IH. destruct (x R) as [w|]; [|done].
    assert (is_Some (@None V)) as []; [|done]. apply HS, HR. by eexists.
Qed.

(** Before round [R] a trajectory answers the round's value, after it the last. *)
Lemma at_history x R r : steady x → at_round (history x R) r = x (r `min` R).
Proof.
  intros Hs. destruct (decide (R ≤ r)) as [Hr|Hr].
  - rewrite at_round_all.
    + rewrite history_last by done. f_equal. lia.
    + eapply Forall_impl; [apply history_le|]. intros; simpl in *; lia.
  - rewrite Nat.min_l by lia. induction R as [|R IH]; [lia|]. simpl.
    assert (at_round (rr_push (S R) (history x R) (x R) (x (S R))) r =
      at_round (history x R) r) as ->.
    { unfold rr_push. destruct (x (S R)); [|done]. case_decide; [done|].
      apply at_round_snoc. lia. }
    destruct (decide (r = R)) as [->|]; [|apply IH; lia].
    rewrite at_round_all by apply history_le. by apply history_last.
Qed.

(** A quiet stretch adds nothing. *)
Lemma history_quiet x a b :
  a ≤ b → (∀ r, a ≤ r → r < b → x (S r) = x r) → history x b = history x a.
Proof.
  intros Hab. induction Hab as [|b Hab IH]; intros Hq; [done|]. simpl.
  rewrite IH by (intros; apply Hq; lia). unfold rr_push.
  rewrite (Hq b) by lia. destruct (x b); [|done]. by rewrite decide_True.
Qed.

(** The last entry is at the last change. *)
Lemma history_last_change x R l v :
  last (history x R) = Some (l, v) →
  l ≤ R ∧ (l = 0 ∨ x l ≠ x (l - 1)) ∧ ∀ r, l ≤ r → r < R → x (S r) = x r ∨ x (S r) = None.
Proof.
  induction R as [|R IH]; simpl.
  - destruct (x 0); simpl; [|done]. intros [= <- <-]. split; [done|]. split; [by left|]. lia.
  - unfold rr_push. destruct (x (S R)) as [w|] eqn:E.
    + case_decide as Hd.
      * intros Hl. destruct (IH Hl) as (H1 & H2 & H3). split; [lia|]. split; [done|].
        intros r Hr HrR. destruct (decide (r = R)) as [->|]; [left; congruence|]. apply H3; lia.
      * rewrite last_snoc. intros [= <- <-]. split; [done|]. split; [|lia]. right.
        replace (S R - 1) with R by lia. congruence.
    + intros Hl. destruct (IH Hl) as (H1 & H2 & H3). split; [lia|]. split; [done|].
      intros r Hr HrR. destruct (decide (r = R)) as [->|]; [by right|]. apply H3; lia.
Qed.

Lemma history_nil x R : (∀ r, x r = None) → history x R = [].
Proof. intros Hx. induction R as [|R IH]; simpl; [by rewrite Hx|]. rewrite IH. by rewrite (Hx (S R)). Qed.

End history.

(** ** The Jacobi iterates *)

Section jacobi.
Context {K I V E : Type} `{Countable K, EqDecision I, EqDecision V, EqDecision E}.
Context `{Step K I V E}.
Implicit Types (g : KeptGraph K I E) (s p r : nat) (k : K).

(** The value of a key at a round, from the definitions alone. *)
Fixpoint jacobi (defs : K → option (NodeDef K I E)) r k : option V :=
  match defs k with
  | None => None
  | Some d =>
      match r with
      | 0 => Some (step_init k (input d))
      | S r =>
          own ← jacobi defs r k;
          Some (step_next k (input d) own ((λ '(p, e), (e, jacobi defs r p)) <$> preds d))
      end
  end.

(** The same by slot. *)
Fixpoint jac g r s : option V :=
  match defined_at g s, di_key (kg_index g) s with
  | Some (i, ps), Some k =>
      match r with
      | 0 => Some (step_init k i)
      | S r =>
          own ← jac g r s;
          Some (step_next k i own ((λ '(p, e), (e, jac g r p)) <$> ps))
      end
  | _, _ => None
  end.

Lemma jac_0 g s :
  jac g 0 s =
  match defined_at g s, di_key (kg_index g) s with
  | Some (i, _), Some k => Some (step_init k i)
  | _, _ => None
  end.
Proof. done. Qed.

Lemma jac_S g r s :
  jac g (S r) s =
  match defined_at g s, di_key (kg_index g) s with
  | Some (i, ps), Some k =>
      own ← jac g r s;
      Some (step_next k i own ((λ '(p, e), (e, jac g r p)) <$> ps))
  | _, _ => None
  end.
Proof. done. Qed.

Lemma jac_steady g s : steady (λ r, jac g r s).
Proof.
  intros r. induction r as [|r IH]; [done|].
  cbn [jac]. revert IH. cbn [jac]. destruct (defined_at g s) as [[i ps]|] eqn:Hd; [|done].
  destruct (di_key (kg_index g) s) as [k|] eqn:Hk; [|done].
  intros IH. destruct (proj2 IH) as [own Hown]; [by eexists|]. rewrite Hown. simpl.
  split; intros _; by eexists.
Qed.

Lemma jac_undefined g r s : defined_at g s = None → jac g r s = None.
Proof. intros Hd. destruct r; cbn [jac]; by rewrite Hd. Qed.

Lemma jac_defined g r s :
  kg_inv g → is_Some (defined_at g s) → is_Some (jac g r s).
Proof.
  intros Hi [[i ps] Hd]. apply (jac_steady g s). cbn [jac]. rewrite Hd.
  destruct (inv_defined _ _ Hi s i ps Hd) as [[k Hk] _].
  assert (di_key (kg_index g) s = Some k) as ->; [|by eexists].
  by apply di_key_Some, (di_wf_bij _ (inv_index _ _ Hi)).
Qed.

Lemma jac_is_Some g r s : kg_inv g → is_Some (jac g r s) ↔ is_Some (defined_at g s).
Proof.
  intros Hi. split; [|by apply jac_defined]. intros [v Hv].
  destruct (defined_at g s) eqn:Hd; [by eexists|]. by rewrite jac_undefined in Hv.
Qed.

(** A slot's iterates are its key's. *)
Lemma jac_key g r s k :
  kg_inv g → di_slots (kg_index g) !! k = Some s → jac g r s = jacobi (den g) r k.
Proof.
  intros Hi. revert s k. induction r as [|r IH]; intros s k Hk.
  all: assert (di_key (kg_index g) s = Some k) as Hks
    by (by apply di_key_Some, (di_wf_bij _ (inv_index _ _ Hi))).
  all: cbn [jac jacobi]; rewrite Hks; unfold den at 1; rewrite Hk; simpl.
  all: destruct (defined_at g s) as [[i ps]|] eqn:Hd; [|done]; simpl.
  all: assert (is_Some (den g k)) as [dk Hdk] by (apply (den_is_Some _ _ _ _ Hi Hk); by rewrite Hd).
  all: unfold den in Hdk; rewrite Hk in Hdk; simpl in Hdk; rewrite Hd in Hdk; simpl in Hdk.
  all: destruct (mapM (key_edge (kg_index g)) ps) as [qs|] eqn:Hm; simpl in *; [|done].
  - done.
  - rewrite (IH s k Hk). destruct (jacobi (den g) r k) as [own|]; simpl; [|done]. do 2 f_equal.
    apply mapM_Some in Hm. clear Hdk Hd. induction Hm as [|[p e] [q e'] ps qs Hpq Hm IHm]; [done|].
    simpl. f_equal; [|done]. unfold key_edge in Hpq. simpl in Hpq.
    destruct (di_key (kg_index g) p) as [q'|] eqn:Hp; simplify_eq/=.
    apply di_key_Some, (di_wf_bij _ (inv_index _ _ Hi)) in Hp. by rewrite (IH p q).
Qed.

Lemma jacobi_undefined (defs : K → option (NodeDef K I E)) r k :
  defs k = None → jacobi defs r k = None.
Proof. intros Hd. destruct r; cbn [jacobi]; by rewrite Hd. Qed.

Lemma jacobi_is_Some (defs : K → option (NodeDef K I E)) r k :
  is_Some (jacobi defs r k) ↔ is_Some (defs k).
Proof.
  destruct (defs k) as [d|] eqn:Hd; [|by rewrite jacobi_undefined].
  split; intros _; [by eexists|]. induction r as [|r [own IH]]; cbn [jacobi]; rewrite Hd; [by eexists|].
  rewrite IH. by eexists.
Qed.

Lemma jacobi_ext d1 d2 r k : (∀ k, d1 k = d2 k) → jacobi d1 r k = jacobi d2 r k.
Proof.
  intros Hd. revert k. induction r as [|r IH]; intros k; cbn [jacobi]; rewrite Hd; [done|].
  destruct (d2 k) as [d|]; [|done]. rewrite IH. destruct (jacobi d2 r k); simpl; [|done].
  do 2 f_equal. apply list_fmap_ext. intros _ [p e] _. by rewrite IH.
Qed.

(** Slots outside a set closed under readers keep their iterates when only
    slots of the set are redefined. *)
Lemma jac_frame g0 g (C : gset nat) :
  kg_inv g → closed_readers g C →
  (∀ s, s ∉ C → defined_at g s = defined_at g0 s) →
  (∀ s k, di_key (kg_index g0) s = Some k → di_key (kg_index g) s = Some k) →
  kg_inv g0 →
  ∀ r s, s ∉ C → jac g r s = jac g0 r s.
Proof.
  intros Hi Hc Hd Hk Hi0.
  assert (∀ s i ps, defined_at g s = Some (i, ps) → s ∉ C →
    ∃ k, di_key (kg_index g0) s = Some k ∧ di_key (kg_index g) s = Some k ∧
      ∀ p e, (p, e) ∈ ps → p ∉ C) as Hpre.
  { intros s i ps Hs HsC. pose proof Hs as Hs0. rewrite Hd in Hs0 by done.
    destruct (inv_defined _ _ Hi0 s i ps Hs0) as [[k Hks] _].
    apply (di_wf_bij _ (inv_index _ _ Hi0)), di_key_Some in Hks.
    exists k. split; [done|]. split; [by apply Hk|].
    intros p e Hp HpC. apply HsC. eapply Hc; [exact HpC|].
    by eapply (inv_defined _ _ Hi s i ps Hs). }
  induction r as [|r IH]; intros s HsC; cbn [jac]; rewrite <- Hd by done.
  all: destruct (defined_at g s) as [[i ps]|] eqn:Hds; [|done].
  all: destruct (Hpre s i ps Hds HsC) as (k & -> & -> & Hps).
  1: done.
  rewrite IH by done. destruct (jac g0 r s); simpl; [|done]. do 2 f_equal.
  apply list_fmap_ext. intros j [p e] Hj. rewrite IH; [done|].
  eapply Hps. by eapply list_elem_of_lookup_2.
Qed.

(** A quiet round makes every later one quiet. *)
Definition quiet g r : Prop := ∀ s, jac g (S r) s = jac g r s.

Lemma quiet_later g r r' : kg_inv g → quiet g r → r ≤ r' → quiet g r'.
Proof.
  intros Hi Hq Hle. induction Hle as [|r' Hle IH]; [done|]. intros s.
  rewrite (jac_S g r' s), (jac_S g (S r') s), (IH s).
  destruct (defined_at g s) as [[i ps]|]; [|done].
  destruct (di_key (kg_index g) s) as [k|]; [|done].
  destruct (jac g r' s) as [own|]; cbn [mbind option_bind]; [|done]. do 2 f_equal.
  apply list_fmap_ext. intros _ [p e] _. by rewrite (IH p).
Qed.

Lemma quiet_const g r r' s : kg_inv g → quiet g r → r ≤ r' → jac g r' s = jac g r s.
Proof.
  intros Hi Hq Hle. induction Hle as [|r' Hle IH]; [done|].
  rewrite (quiet_later g r r' Hi Hq Hle s). done.
Qed.

End jacobi.

#[global] Arguments jac : simpl never.
#[global] Arguments jacobi : simpl never.

(** * Correctness of the K3 replay: one solve

    [solve] leaves on the cone the histories of the Jacobi iterates, stops at
    the first round that changes nothing past the rounds the other nodes still
    changed in, and keeps the counts of last changes. *)

(** ** Counts of last changes *)

Section counts.
Context {V : Type}.
Implicit Types (lc : gmap nat nat) (f : nat → Trajectory V) (ss : list nat).

Definition tr_at (trs : list (Trajectory V)) (s : nat) : Trajectory V := default [] (trs !! s).

Lemma tr_at_lookup trs s (t : Trajectory V) : trs !! s = Some t → tr_at trs s = t.
Proof. unfold tr_at. intros ->. done. Qed.

(** The slots of [ss] whose last change is at [l]. *)
Definition cnt (l : nat) f ss : nat :=
  sum_list_with (λ s, if decide (fst <$> last (f s) = Some l) then 1 else 0) ss.

#[global] Arguments cnt : simpl never.

Definition counts_ok lc f ss : Prop :=
  (∀ l c, lc !! l = Some c → 0 < c) ∧ ∀ l, default 0 (lc !! l) = cnt l f ss.

Lemma cnt_app l f s1 s2 : cnt l f (s1 ++ s2) = cnt l f s1 + cnt l f s2.
Proof. apply sum_list_with_app. Qed.

Lemma cnt_ext l f f' ss : (∀ s, s ∈ ss → f s = f' s) → cnt l f ss = cnt l f' ss.
Proof.
  unfold cnt. induction ss as [|s ss IH]; intros H; simpl; [done|].
  rewrite (H s) by (by left). rewrite IH; [done|]. intros; apply H. by right.
Qed.

Lemma cnt_perm l f s1 s2 : s1 ≡ₚ s2 → cnt l f s1 = cnt l f s2.
Proof. unfold cnt. induction 1; simpl; lia. Qed.

Lemma cnt_pos l f ss : 0 < cnt l f ss ↔ ∃ s, s ∈ ss ∧ fst <$> last (f s) = Some l.
Proof.
  unfold cnt. induction ss as [|s ss IH]; simpl.
  - split; [lia|]. by intros (? & ?%elem_of_nil & _).
  - setoid_rewrite elem_of_cons. case_decide; naive_solver lia.
Qed.

Lemma rr_uncount_spec trs lc s ss :
  s < length trs → counts_ok lc (tr_at trs) (s :: ss) →
  ∃ lc', rr_uncount trs lc s = Some lc' ∧ counts_ok lc' (tr_at trs) ss.
Proof.
  intros Hs [Hpos Hc]. unfold rr_uncount. destruct (lookup_lt_is_Some_2 trs s Hs) as [t Ht].
  pose proof (tr_at_lookup trs s t Ht) as Hat.
  assert (∀ l, cnt l (tr_at trs) (s :: ss) =
    (if decide (fst <$> last t = Some l) then 1 else 0) + cnt l (tr_at trs) ss) as Hcons
    by (intros; unfold cnt; simpl; by rewrite Hat).
  rewrite Ht. simpl. destruct (last t) as [[l v]|]; simpl in Hcons.
  - pose proof (Hc l) as Hl. rewrite Hcons, decide_True in Hl by done.
    destruct (lc !! l) as [[|c]|] eqn:El; simpl in Hl; [lia| |lia]. simpl.
    eexists. split; [done|]. split.
    + intros l' c'. case_decide.
      * intros [? ?]%lookup_delete_Some. by eapply Hpos.
      * intros [[<- <-]|[? ?]]%lookup_insert_Some; [lia|]. by eapply Hpos.
    + intros l'. specialize (Hc l'). rewrite Hcons in Hc. destruct (decide (l = l')) as [->|Hne].
      * rewrite decide_True in Hc by done. case_decide.
        -- rewrite lookup_delete_eq. rewrite El in Hc. simpl in *. lia.
        -- rewrite lookup_insert_eq. rewrite El in Hc. simpl in *. lia.
      * rewrite decide_False in Hc by congruence. case_decide.
        -- rewrite lookup_delete_ne by done. lia.
        -- rewrite lookup_insert_ne by done. lia.
  - exists lc. split; [done|]. split; [done|]. intros l. by rewrite Hc, Hcons.
Qed.

Lemma rr_uncount_all trs lc cs ss :
  (∀ s, s ∈ cs → s < length trs) → counts_ok lc (tr_at trs) (cs ++ ss) →
  ∃ lc', foldM (rr_uncount trs) lc cs = Some lc' ∧ counts_ok lc' (tr_at trs) ss.
Proof.
  revert lc. induction cs as [|s cs IH]; intros lc Hlt Hc; simpl in *; [by exists lc|].
  destruct (rr_uncount_spec trs lc s (cs ++ ss)) as (lc' & -> & Hc');
    [apply Hlt; by left|done|]. simpl. apply IH; [|done]. intros; apply Hlt. by right.
Qed.

Lemma last_round_ge lc l c : lc !! l = Some c → l ≤ last_round lc.
Proof.
  intros Hl. apply elem_of_map_to_list in Hl. unfold last_round.
  assert (∀ ls, l ∈ ls → l ≤ foldr max 0 ls) as Hm.
  { induction ls as [|x ls IH]; [by intros ?%elem_of_nil|].
    intros [->|Hin]%elem_of_cons; simpl; [lia|]. apply IH in Hin. lia. }
  apply Hm. apply list_elem_of_fmap. by exists (l, c).
Qed.

Lemma last_round_in lc : last_round lc = 0 ∨ is_Some (lc !! last_round lc).
Proof.
  unfold last_round.
  assert (∀ ls, foldr max 0 ls = 0 ∨ foldr max 0 ls ∈ ls) as Hm.
  { induction ls as [|x ls [IH|IH]]; simpl; [by left|..].
    - rewrite IH. destruct (decide (x = 0)) as [->|]; [by left|].
      right. rewrite Nat.max_l by lia. by left.
    - right. destruct (Nat.max_spec x (foldr max 0 ls)) as [[_ ->]|[_ ->]]; [by right|by left]. }
  destruct (Hm (map_to_list lc).*1) as [?|Hin]; [by left|right].
  apply list_elem_of_fmap in Hin as ([l c] & -> & Hin). apply elem_of_map_to_list in Hin.
  simpl. by eexists.
Qed.

(** Storing new trajectories for distinct slots. *)
Lemma rr_store_spec trs lc (f : nat → Trajectory V) cs :
  NoDup cs → (∀ s, s ∈ cs → s < length trs) → (∀ l c, lc !! l = Some c → 0 < c) →
  ∃ lc' trs', foldM rr_store (lc, trs) (zip cs (f <$> cs)) = Some (lc', trs') ∧
    length trs' = length trs ∧
    (∀ s, tr_at trs' s = if decide (s ∈ cs) then f s else tr_at trs s) ∧
    (∀ l c, lc' !! l = Some c → 0 < c) ∧
    (∀ l, default 0 (lc' !! l) = default 0 (lc !! l) + cnt l f cs).
Proof.
  revert trs lc. induction cs as [|s cs IH]; intros trs lc Hnd Hlt Hpos; simpl.
  - exists lc, trs. split; [done|]. split; [done|]. split; [|split; [done|]].
    + done.
    + intros l. unfold cnt. simpl. lia.
  - apply NoDup_cons in Hnd as [Hs Hnd]. rewrite vec_set_spec by (apply Hlt; by left). simpl.
    set (lc1 := match last (f s) with
      | Some (l, _) => <[l := S (default 0 (lc !! l))]> lc | None => lc end).
    destruct (IH (<[s := f s]> trs) lc1) as (lc' & trs' & Hrun & Hl & Htr & Hpos' & Hcnt).
    + done.
    + intros s' Hs'. rewrite length_insert. apply Hlt. by right.
    + intros l c. unfold lc1. destruct (last (f s)) as [[l0 v]|]; [|apply Hpos].
      intros [[<- <-]|[? ?]]%lookup_insert_Some; [lia|]. by eapply Hpos.
    + exists lc', trs'. split; [done|]. rewrite length_insert in Hl. split; [done|].
      split; [|split; [done|]].
      * intros s'. rewrite Htr. destruct (decide (s' = s)) as [->|Hne].
        -- rewrite decide_False by done. rewrite decide_True by (by left).
           apply tr_at_lookup, list_lookup_insert_eq. apply Hlt. by left.
        -- assert (tr_at (<[s := f s]> trs) s' = tr_at trs s') as ->
             by (unfold tr_at; by rewrite list_lookup_insert_ne).
           apply decide_ext. rewrite elem_of_cons. naive_solver.
      * intros l. rewrite Hcnt. unfold cnt. simpl. unfold lc1.
        destruct (last (f s)) as [[l0 v]|]; simpl; [|done].
        destruct (decide (l0 = l)) as [->|Hne].
        -- rewrite lookup_insert_eq, decide_True by done. simpl. lia.
        -- rewrite lookup_insert_ne, decide_False by congruence. lia.
Qed.

End counts.

(** ** The loop *)

Section solve.
Context {K I V E : Type} `{Countable K, EqDecision I, EqDecision V, EqDecision E}.
Context `{Step K I V E}.
Context (g : KeptGraph K I E) (C : gset nat) (trs : list (Trajectory V)).
Context (Hinv : kg_inv g) (Clive : ∀ s, s ∈ C → live g s).
Context (Hlen : length trs = length (kg_nodes g)).
Context (Hout : ∀ p r, p ∉ C → live g p → at_round (tr_at trs p) r = jac g r p).
Let slots := ascending C.

Lemma slots_lt s : s ∈ slots → s < length (kg_nodes g).
Proof. intros Hs. eapply live_lt; [exact Hinv|]. by apply Clive, elem_of_ascending. Qed.

Lemma slots_small : (Z.of_nat (length slots) ≤ 2 ^ 32)%Z.
Proof.
  pose proof (size_live_set g C Hinv Clive) as Hs. unfold slots. rewrite length_ascending.
  pose proof (di_wf_bound _ (inv_index _ _ Hinv)). unfold di_capacity in Hs. lia.
Qed.

(** [position] sends a slot of the cone to its index. *)
Definition position_ok (position : list (option nat)) : Prop :=
  length position = length (kg_nodes g) ∧
  ∀ s, s < length (kg_nodes g) → ∃ o, position !! s = Some o ∧
    ∀ i, o = Some i ↔ slots !! i = Some s.

Lemma rr_position_spec :
  ∃ position, foldM rr_position (replicate (di_capacity (kg_index g)) None) (imap pair slots)
      = Some position ∧ position_ok position.
Proof.
  pose proof (inv_len _ _ Hinv) as Hcap.
  edestruct (foldM_spec (λ done position, length position = length (kg_nodes g) ∧
    ∀ s, s < length (kg_nodes g) → ∃ o, position !! s = Some o ∧
      ∀ i, o = Some i ↔ i < length done ∧ slots !! i = Some s)
    rr_position (imap pair slots) (replicate (di_capacity (kg_index g)) None))
    as (position & Hrun & Hl & Hp).
  - rewrite length_replicate. split; [done|]. intros s Hs. exists None.
    rewrite lookup_replicate_2 by lia. split; [done|]. intros i. simpl. naive_solver lia.
  - intros done position [i s] rest Hsplit [Hl Hp].
    assert (i = length done ∧ slots !! i = Some s) as [-> His].
    { assert (imap pair slots !! length done = Some (i, s)) as Hlk
        by (by rewrite Hsplit, lookup_app_r, Nat.sub_diag by lia).
      rewrite list_lookup_imap in Hlk. destruct (slots !! length done) eqn:Esl; naive_solver. }
    assert (s < length (kg_nodes g)) as Hs by (apply slots_lt; by eapply list_elem_of_lookup_2).
    pose proof (lookup_lt_Some _ _ _ His) as Hlt. pose proof slots_small.
    unfold rr_position. rewrite u32_try_from_spec by lia. simpl.
    rewrite vec_set_spec by lia. eexists. split; [done|]. split; [by rewrite length_insert|].
    intros s' Hs'. rewrite length_app. simpl. destruct (decide (s' = s)) as [->|Hne].
    + exists (Some (length done)). rewrite list_lookup_insert_eq by lia. split; [done|].
      intros j. split; [intros [= <-]; split; [lia|done]|].
      intros [_ Hj]. f_equal. eapply NoDup_lookup; [apply ascending_NoDup|done..].
    + destruct (Hp s' Hs') as (o & Ho & Hio). exists o. rewrite list_lookup_insert_ne by done.
      split; [done|]. intros j. rewrite Hio. split; [intros [? ?]; split; [lia|done]|].
      intros [? Hj]. split; [|done]. destruct (decide (j = length done)) as [->|]; [congruence|lia].
  - exists position. split; [done|]. split; [done|]. intros s Hs.
    destruct (Hp s Hs) as (o & Ho & Hio). exists o. split; [done|]. intros i. rewrite Hio.
    rewrite length_imap. split; [by intros [_ ?]|]. intros Hi. split; [|done].
    by eapply lookup_lt_Some.
Qed.

Lemma rr_keys_spec :
  ∃ keys, mapM (di_key (kg_index g)) slots = Some keys ∧
    ∀ i s, slots !! i = Some s → ∃ k, keys !! i = Some k ∧ di_key (kg_index g) s = Some k.
Proof.
  assert (is_Some (mapM (di_key (kg_index g)) slots)) as [keys Hk].
  { apply mapM_is_Some, Forall_forall. intros s Hs%elem_of_ascending.
    destruct (Clive s Hs) as [k Hk]. exists k. by apply di_key_Some, (di_wf_bij _ (inv_index _ _ Hinv)). }
  exists keys. split; [done|]. apply mapM_Some in Hk. intros i s Hs.
  destruct (Forall2_lookup_l _ _ _ _ _ Hk Hs) as (k & ? & ?). eauto.
Qed.

Lemma kg_definition_spec s : s < length (kg_nodes g) → kg_definition g s = Some (defined_at g s).
Proof.
  intros [n Hn]%lookup_lt_is_Some_2. unfold kg_definition, defined_at. by rewrite Hn.
Qed.

Lemma rr_init_spec keys :
  mapM (di_key (kg_index g)) slots = Some keys →
  mapM (rr_init g) (zip slots keys) = Some (jac g 0 <$> slots).
Proof.
  intros Hk. apply mapM_Some in Hk. apply mapM_Some.
  assert (∀ s, s ∈ slots → s < length (kg_nodes g)) as Hlt by (intros; by apply slots_lt).
  induction Hk as [|s k ss ks Hsk Hk IH]; simpl; constructor.
  - simpl. rewrite kg_definition_spec by (apply Hlt; by left). simpl. f_equal.
    rewrite jac_0, Hsk. by destruct (defined_at g s) as [[i ps]|].
  - apply IH. intros; apply Hlt. by right.
Qed.

Lemma rr_step_spec position keys r i s :
  position_ok position → mapM (di_key (kg_index g)) slots = Some keys →
  slots !! i = Some s →
  rr_step g trs position keys (jac g r <$> slots) (S r) (i, s) = Some (jac g (S r) s).
Proof.
  intros [Hpl Hp] Hk Hs. unfold rr_step.
  rewrite kg_definition_spec by (apply slots_lt; by eapply list_elem_of_lookup_2).
  rewrite jac_S. simpl. destruct (defined_at g s) as [[inp ps]|] eqn:Hd; [|done].
  destruct (rr_keys_spec) as (keys' & Hk' & Hkeys).
  assert (keys' = keys) as -> by congruence. destruct (Hkeys i s Hs) as (k & Hik & Hks).
  rewrite Hks, list_lookup_fmap, Hs. simpl.
  assert (mapM (rr_seen trs position (jac g r <$> slots) (S r)) ps =
    Some ((λ '(p, e), (e, jac g r p)) <$> ps)) as ->.
  { apply mapM_Some. apply Forall2_fmap_r, Forall_Forall2_diag, Forall_forall.
    intros [p e] Hpe. simpl.
    destruct (proj2 (inv_defined _ _ Hinv s inp ps Hd) p e Hpe) as [Hpl' _].
    assert (p < length (kg_nodes g)) as Hplt by (by eapply live_lt).
    destruct (Hp p Hplt) as (o & -> & Ho). simpl. destruct o as [j|].
    - rewrite list_lookup_fmap, (proj1 (Ho j) eq_refl). done.
    - destruct (lookup_lt_is_Some_2 trs p) as [t Ht]; [lia|]. rewrite Ht. simpl.
      rewrite Nat.sub_0_r. do 2 f_equal. rewrite <- (Hout p r).
      + by rewrite (tr_at_lookup trs p t Ht).
      + intros HpC. apply elem_of_ascending, list_elem_of_lookup in HpC as [j Hj].
        by apply Ho in Hj.
      + done. }
  simpl. destruct (jac_defined g r s Hinv) as [own Hown]; [by rewrite Hd|].
  rewrite Hown. simpl. rewrite Hik. done.
Qed.

(** A round of the whole cone. *)
Lemma rr_round_spec position keys r :
  position_ok position → mapM (di_key (kg_index g)) slots = Some keys →
  mapM (rr_step g trs position keys (jac g r <$> slots) (S r)) (imap pair slots) =
    Some (jac g (S r) <$> slots).
Proof.
  intros Hp Hk. apply mapM_Some, Forall2_same_length_lookup_2.
  - by rewrite length_imap, length_fmap.
  - intros i [j s] o. rewrite list_lookup_imap, list_lookup_fmap.
    destruct (slots !! i) as [s'|] eqn:Hs; simpl; [|done]. intros [= <- <-] [= <-].
    by apply rr_step_spec.
Qed.

(** The cone changes nothing in the round after [r]. *)
Definition quiet_on r : Prop := ∀ s, s ∈ C → jac g (S r) s = jac g r s.

Lemma rr_moved_spec r :
  rr_moved (jac g r <$> slots) (jac g (S r) <$> slots) = false ↔ quiet_on r.
Proof.
  assert (quiet_on r ↔ ∀ s, s ∈ slots → jac g (S r) s = jac g r s) as ->
    by (unfold quiet_on, slots; by setoid_rewrite elem_of_ascending).
  unfold rr_moved. induction slots as [|s ss IH].
  - simpl. split; [intros _ ? []%elem_of_nil|done].
  - cbn [fmap list_fmap zip zip_with existsb]. rewrite orb_false_iff, IH.
    setoid_rewrite elem_of_cons.
    assert (bool_decide (jac g (S r) s ≠ jac g r s) && bool_decide (is_Some (jac g (S r) s)) = false
      ↔ jac g (S r) s = jac g r s) as ->; [|naive_solver].
    rewrite andb_false_iff, !bool_decide_eq_false. split; [|tauto].
    intros [Hn|Hn]; [by apply dec_stable|].
    pose proof (jac_is_Some g (S r) s Hinv) as H1. pose proof (jac_is_Some g r s Hinv) as H2.
    destruct (jac g (S r) s); [by destruct Hn; eexists|].
    destruct (jac g r s); [|done]. assert (is_Some (@None V)) as []; [|done].
    apply H1, H2. by eexists.
Qed.

Lemma rr_push_all r R :
  R = S r →
  zip_with (λ t cn, rr_push R t cn.1 cn.2) ((λ s, history (λ r, jac g r s) r) <$> slots)
    (zip (jac g r <$> slots) (jac g R <$> slots)) =
  (λ s, history (λ r, jac g r s) R) <$> slots.
Proof. intros ->. induction slots as [|s ss IH]; [done|]. rewrite !fmap_cons.
  cbn [zip zip_with]. f_equal. exact IH. Qed.

(** The loop, from any round on. *)
Lemma rr_loop_spec rest position keys outside_last round :
  position_ok position → mapM (di_key (kg_index g)) slots = Some keys →
  ∃ R converged,
    rr_loop rest g trs position slots keys outside_last round (jac g round <$> slots)
      ((λ s, history (λ r, jac g r s) round) <$> slots) =
      Some ((λ s, history (λ r, jac g r s) R) <$> slots, R, converged) ∧
    round ≤ R ≤ round + rest ∧
    (∀ r, round ≤ r → S r < R → ¬ (quiet_on r ∧ outside_last < S r)) ∧
    match converged with
    | true => round < R ∧ quiet_on (R - 1) ∧ outside_last < R
    | false => R = round + rest ∧ (round < R → ¬ (quiet_on (R - 1) ∧ outside_last < R))
    end.
Proof.
  intros Hp Hk. revert round. induction rest as [|rest IH]; intros round.
  - exists round, false. simpl. split; [done|]. split; [lia|]. split; [lia|]. split; [lia|lia].
  - cbn [rr_loop]. rewrite rr_round_spec by done. cbn [mbind option_bind].
    rewrite rr_push_all by done.
    destruct (negb (rr_moved (jac g round <$> slots) (jac g (S round) <$> slots)) &&
              bool_decide (outside_last < S round)) eqn:Hstop.
    + apply andb_true_iff in Hstop as [Hm Hb]. apply negb_true_iff, rr_moved_spec in Hm.
      apply bool_decide_eq_true in Hb.
      exists (S round), true. split; [done|]. split; [lia|]. split; [lia|].
      split; [lia|]. replace (S round - 1) with round by lia. done.
    + assert (¬ (quiet_on round ∧ outside_last < S round)) as Hno.
      { intros [Hq Ho]. apply rr_moved_spec in Hq. rewrite Hq in Hstop. simpl in Hstop.
        apply bool_decide_eq_false in Hstop. done. }
      destruct (IH (S round)) as (R & converged & Hrun & Hle & Hbefore & Hend).
      exists R, converged. split; [done|]. split; [lia|]. split.
      * intros r Hr HrR. destruct (decide (r = round)) as [->|]; [done|]. apply Hbefore; lia.
      * destruct converged.
        -- destruct Hend as (? & ? & ?). split; [lia|done].
        -- destruct Hend as [HR Hend]. split; [lia|]. intros _.
           destruct (decide (S round < R)); [by apply Hend|].
           assert (R = S round) as -> by lia. replace (S round - 1) with round by lia. done.
Qed.

(** [solve]. *)
Lemma rr_solve_spec lc cap (fresh : bool) :
  (∀ l c, lc !! l = Some c → 0 < c) →
  let outside_last := if fresh then 0 else last_round lc in
  ∃ trs' lc' R converged,
    rr_solve g trs lc cap C fresh = Some (trs', lc', R, converged) ∧
    length trs' = length trs ∧
    (∀ s, tr_at trs' s = if decide (s ∈ C) then history (λ r, jac g r s) R else tr_at trs s) ∧
    (∀ l c, lc' !! l = Some c → 0 < c) ∧
    (∀ l, default 0 (lc' !! l) = default 0 (lc !! l) + cnt l (λ s, history (λ r, jac g r s) R) slots) ∧
    R ≤ cap ∧
    (∀ r, S r < R → ¬ (quiet_on r ∧ outside_last < S r)) ∧
    match converged with
    | true => 0 < R ∧ quiet_on (R - 1) ∧ outside_last < R
    | false => R = cap ∧ (0 < R → ¬ (quiet_on (R - 1) ∧ outside_last < R))
    end.
Proof.
  intros Hpos outside_last. unfold rr_solve. fold outside_last. fold slots.
  destruct rr_position_spec as (position & Hpos1 & Hp). rewrite Hpos1. simpl.
  destruct rr_keys_spec as (keys & Hk & _). rewrite Hk. cbn [mbind option_bind].
  rewrite (rr_init_spec keys Hk). cbn [mbind option_bind].
  assert (rr_first <$> (jac g 0 <$> slots) = (λ s, history (λ r, jac g r s) 0) <$> slots) as ->
    by (by rewrite <- list_fmap_compose).
  destruct (rr_loop_spec cap position keys outside_last 0 Hp Hk)
    as (R & converged & -> & Hle & Hbefore & Hend). simpl.
  destruct (rr_store_spec trs lc (λ s, history (λ r, jac g r s) R) slots (ascending_NoDup _))
    as (lc' & trs' & -> & Hl & Htr & Hpos' & Hcnt); [|done|].
  { intros s Hs. rewrite Hlen. by apply slots_lt. }
  simpl. exists trs', lc', R, converged. split; [done|]. split; [done|].
  split; [intros s; rewrite Htr; apply decide_ext; apply elem_of_ascending|].
  split; [done|]. split; [done|]. split; [lia|].
  split; [intros r; apply Hbefore; lia|]. done.
Qed.

End solve.

(** * Correctness of the K3 replay: the invariant and the update *)

Section update.
Context {K I V E : Type} `{Countable K, EqDecision I, EqDecision V, EqDecision E}.
Context `{Step K I V E}.
Implicit Types (g : KeptGraph K I E) (m : RoundReplay K I V E) (s p r : nat) (k : K).

(** Every trajectory is the history of its node's iterates up to the last
    round run; the solver stopped at the first quiet round or at the cap. *)
Record rr_inv m : Prop := {
  ri_graph : kg_inv (rr_graph m);
  ri_swept : ∀ s, live (rr_graph m) s → ¬ idle (rr_graph m) s;
  ri_len : length (rr_trajectories m) = length (kg_nodes (rr_graph m));
  ri_cap : 1 ≤ rr_cap m;
  ri_rounds : rr_rounds m ≤ rr_cap m;
  ri_history : ∀ s, tr_at (rr_trajectories m) s =
    history (λ r, jac (rr_graph m) r s) (rr_rounds m);
  ri_first : ∀ r, S r < rr_rounds m → ¬ quiet (rr_graph m) r;
  ri_converged : rr_converged m = true → ∀ r, rr_rounds m ≤ S r → quiet (rr_graph m) r;
  ri_capped : rr_converged m = false →
    (rr_rounds m = rr_cap m ∧ ∀ r, r < rr_cap m → ¬ quiet (rr_graph m) r) ∨
    ∀ s, defined_at (rr_graph m) s = None;
  ri_started : ∀ s, is_Some (defined_at (rr_graph m) s) → 1 ≤ rr_rounds m;
  ri_counts : counts_ok (rr_last_changes m) (tr_at (rr_trajectories m))
    (seq 0 (length (rr_trajectories m)))
}.

Lemma history_ext (x y : nat → option V) R :
  (∀ r, r ≤ R → x r = y r) → history x R = history y R.
Proof.
  induction R as [|R IH]; intros Hxy; simpl; [by rewrite Hxy|].
  rewrite IH by (intros; apply Hxy; lia). by rewrite !Hxy by lia.
Qed.

(** What an update has prepared when it solves the cone [C]: nothing outside
    it moves any more, and no entry outside it is later than [ol]. *)
Record cone_ready m g (trs : list (Trajectory V)) (C : gset nat) (lc : gmap nat nat)
    (fresh : bool) : Prop := {
  cr_live : ∀ s, s ∈ C → live g s;
  cr_frame : ∀ s, s ∉ C → defined_at g s = defined_at (rr_graph m) s;
  cr_out : ∀ p r, p ∉ C → at_round (tr_at trs p) r = jac g r p;
  cr_history : ∀ p R, p ∉ C → (if fresh then 0 else last_round lc) ≤ R →
    tr_at trs p = history (λ r, jac g r p) R;
  cr_quiet : ∀ p r, p ∉ C → (if fresh then 0 else last_round lc) ≤ r →
    jac g (S r) p = jac g r p;
  cr_last : (if fresh then 0 else last_round lc) = 0 ∨
    ∃ p, (p ∉ C) ∧ (jac g (if fresh then 0 else last_round lc) p ≠
                  jac g ((if fresh then 0 else last_round lc) - 1) p);
  cr_bound : (if fresh then 0 else last_round lc) ≤ rr_rounds m;
  cr_counts : counts_ok lc (tr_at trs) (filter (λ s, s ∉ C) (seq 0 (length trs)));
  cr_fresh : fresh = true → ∀ s, s ∉ C → defined_at g s = None;
  cr_kept : fresh = false →
    rr_converged m = true ∧ ∀ p r, p ∉ C → jac g r p = jac (rr_graph m) r p
}.

(** A node whose trajectory is empty is undefined at every round. *)
Lemma history_empty (x : nat → option V) R r : steady x → history x R = [] → x r = None.
Proof.
  intros Hs Hh. pose proof (history_last x R Hs) as Hl. rewrite Hh in Hl. simpl in Hl.
  apply eq_None_not_Some. intros Hx. apply Hs, (Hs R) in Hx. rewrite <- Hl in Hx.
  by destruct Hx.
Qed.

(** Past its last change a node of a converged solver is quiet. *)
Lemma quiet_after m s r :
  rr_inv m → rr_converged m = true →
  (∀ l v, last (tr_at (rr_trajectories m) s) = Some (l, v) → l ≤ r) →
  jac (rr_graph m) (S r) s = jac (rr_graph m) r s.
Proof.
  intros Hm Hc Hl. rewrite (ri_history _ Hm) in Hl.
  pose proof (jac_steady (rr_graph m) s) as Hst.
  destruct (last (history (λ r, jac (rr_graph m) r s) (rr_rounds m))) as [[l v]|] eqn:Hlast.
  - destruct (decide (r < rr_rounds m)) as [Hr|Hr]; [|apply (ri_converged _ Hm Hc); lia].
    destruct (history_last_change _ _ _ _ Hlast) as (_ & _ & Hq).
    destruct (Hq r) as [?|Hn]; [by eapply Hl|done|done|]. rewrite Hn. symmetry.
    apply eq_None_not_Some. intros Hx. apply (Hst r), (Hst (S r)) in Hx. rewrite Hn in Hx.
    by destruct Hx.
  - apply last_None in Hlast.
    by rewrite !(history_empty _ _ _ Hst Hlast : jac (rr_graph m) _ s = None).
Qed.

Lemma seq_split (C : gset nat) n :
  (∀ s, s ∈ C → s < n) → seq 0 n ≡ₚ ascending C ++ filter (λ s, s ∉ C) (seq 0 n).
Proof.
  intros HC. apply NoDup_Permutation; [apply NoDup_seq| |].
  - apply NoDup_app. split; [apply ascending_NoDup|]. split; [|apply NoDup_filter, NoDup_seq].
    intros s Hs%elem_of_ascending [? _]%list_elem_of_filter. done.
  - intros s. rewrite elem_of_app, elem_of_ascending, list_elem_of_filter, elem_of_seq.
    split; [|naive_solver lia]. intros Hs. destruct (decide (s ∈ C)); naive_solver.
Qed.

Lemma counts_ok_perm lc (f : nat → Trajectory V) l1 l2 :
  l1 ≡ₚ l2 → counts_ok lc f l1 → counts_ok lc f l2.
Proof. intros Hp [? Hc]. split; [done|]. intros l. by rewrite Hc, (cnt_perm l f l1 l2). Qed.

Section ready.
Context m (Hm : rr_inv m) g (ap : Applied K) (n : nat).
Context (Ha : applied_inv (rr_graph m) g ap n).
Context (trs : list (Trajectory V)).
Context (Hlen : length trs = length (kg_nodes g)).
Context (Htr : ∀ s, tr_at trs s = tr_at (rr_trajectories m) s).

Lemma tr_undefined s : defined_at (rr_graph m) s = None → tr_at trs s = [].
Proof.
  intros Hd. rewrite Htr, (ri_history _ Hm). apply history_nil. intros r.
  by apply jac_undefined.
Qed.

Lemma fresh_ready C :
  (∀ s, s ∈ C ↔ live g s) → cone_ready m g trs C ∅ true.
Proof.
  intros HC. pose proof (ai_inv _ _ _ _ Ha) as Hi.
  assert (∀ s, s ∉ C → defined_at g s = None) as Hnone.
  { intros s Hs. eapply dead_undefined; [exact Hi|]. by rewrite <- HC. }
  assert (∀ s, s ∉ C → defined_at g s = defined_at (rr_graph m) s) as Hframe.
  { intros s Hs. apply (ai_frame _ _ _ _ Ha). intros Hsd. apply Hs, HC.
    by apply (ai_seeds _ _ _ _ Ha). }
  assert (∀ s, s ∉ C → tr_at trs s = []) as Hnil.
  { intros s Hs. apply tr_undefined. rewrite <- Hframe by done. by apply Hnone. }
  split.
  - intros s. apply HC.
  - done.
  - intros p r Hp. by rewrite Hnil, jac_undefined by auto.
  - intros p R Hp _. rewrite Hnil by done. symmetry. apply history_nil.
    intros r. apply jac_undefined. auto.
  - intros p r Hp _. by rewrite !jac_undefined by auto.
  - by left.
  - lia.
  - split; [by intros l c|]. intros l. rewrite lookup_empty. simpl.
    assert (¬ 0 < cnt l (tr_at trs) (filter (λ s, s ∉ C) (seq 0 (length trs)))) as Hz; [|lia].
    intros (s & [Hs _]%list_elem_of_filter & Hl)%cnt_pos. by rewrite Hnil in Hl.
  - done.
  - done.
Qed.

Lemma kept_ready C lc :
  rr_converged m = true → closed_readers g C → (∀ s, s ∈ C → live g s) →
  ap_seeds ap ⊆ C →
  counts_ok lc (tr_at trs) (filter (λ s, s ∉ C) (seq 0 (length trs))) →
  cone_ready m g trs C lc false.
Proof.
  intros Hc Hcl HC Hsub Hcnt. pose proof (ai_inv _ _ _ _ Ha) as Hi.
  assert (∀ s, s ∉ C → defined_at g s = defined_at (rr_graph m) s) as Hframe
    by (intros s Hs; apply (ai_frame _ _ _ _ Ha); set_solver).
  assert (∀ r s, s ∉ C → jac g r s = jac (rr_graph m) r s) as Hjac.
  { apply (jac_frame _ _ C); [done|done|done| |apply Hm].
    intros s k. eapply grows_key; [apply (ri_graph _ Hm)|apply Hi|apply (ai_grows _ _ _ _ Ha)]. }
  assert (∀ s l v, s ∉ C → last (tr_at trs s) = Some (l, v) → l ≤ last_round lc) as Hlast.
  { intros s l v Hs Hl. destruct Hcnt as [_ Hcnt].
    assert (0 < cnt l (tr_at trs) (filter (λ s, s ∉ C) (seq 0 (length trs)))) as Hp.
    { apply cnt_pos. exists s. rewrite Hl. split; [|done]. apply list_elem_of_filter.
      split; [done|]. apply elem_of_seq. split; [lia|]. simpl.
      destruct (decide (s < length trs)); [done|]. unfold tr_at in Hl.
      by rewrite lookup_ge_None_2 in Hl by lia. }
    rewrite <- Hcnt in Hp. destruct (lc !! l) as [c|] eqn:El; [|simpl in Hp; lia].
    by eapply last_round_ge. }
  assert (last_round lc = 0 ∨ ∃ p v, (p ∉ C) ∧ last (tr_at trs p) = Some (last_round lc, v)) as Hin.
  { destruct (last_round_in lc) as [?|[c El]]; [by left|right].
    destruct Hcnt as [Hpos Hcnt]. pose proof (Hpos _ _ El) as Hp. pose proof (Hcnt (last_round lc)) as Hq.
    rewrite El in Hq. simpl in Hq.
    assert (0 < cnt (last_round lc) (tr_at trs) (filter (λ s, s ∉ C) (seq 0 (length trs))))
      as (p & [HpC _]%list_elem_of_filter & Hl)%cnt_pos by lia.
    destruct (last (tr_at trs p)) as [[l v]|] eqn:E1; [|done]. simpl in Hl.
    exists p, v. split; [done|]. rewrite E1. congruence. }
  assert (∀ p r, p ∉ C → last_round lc ≤ r → jac g (S r) p = jac g r p) as Hq.
  { intros p r Hp Hr. rewrite !Hjac by done. apply (quiet_after m p r Hm Hc).
    intros l v Hl. rewrite <- Htr in Hl. transitivity (last_round lc); [by eapply Hlast|done]. }
  assert (last_round lc ≤ rr_rounds m) as Hb.
  { destruct Hin as [->|(p & v & _ & Hl)]; [lia|]. rewrite Htr, (ri_history _ Hm) in Hl.
    by apply history_last_change in Hl as [? _]. }
  assert (∀ p, p ∉ C → tr_at trs p = history (λ r, jac g r p) (rr_rounds m)) as Hh.
  { intros p Hp. rewrite Htr, (ri_history _ Hm). apply history_ext. intros. by rewrite Hjac. }
  split; try done.
  - intros p r Hp. rewrite Hh by done. rewrite at_history by apply jac_steady.
    destruct (decide (r ≤ rr_rounds m)); [by rewrite Nat.min_l|]. rewrite Nat.min_r by lia.
    symmetry. rewrite !Hjac by done.
    assert (∀ d, jac (rr_graph m) (rr_rounds m + d) p = jac (rr_graph m) (rr_rounds m) p) as Hd.
    { induction d as [|d IH]; [by rewrite Nat.add_0_r|]. rewrite Nat.add_succ_r.
      rewrite (ri_converged _ Hm Hc (rr_rounds m + d)) by lia. done. }
    rewrite <- (Hd (r - rr_rounds m)). f_equal. lia.
  - intros p R Hp HR. rewrite Hh by done.
    rewrite (history_quiet _ (last_round lc) (rr_rounds m)) by (try done; intros; by apply Hq).
    symmetry. apply history_quiet; [done|]. intros; by apply Hq.
  - destruct Hin as [?|(p & v & HpC & Hl)]; [by left|].
    rewrite Htr, (ri_history _ Hm) in Hl.
    destruct (history_last_change _ _ _ _ Hl) as (_ & [?|Hne] & _); [by left|right].
    exists p. split; [done|]. rewrite !Hjac by done. exact Hne.
  - intros _. split; [done|]. intros. by apply Hjac.
Qed.

End ready.
(** ** The update *)

(** Resizing the trajectories to the graph's capacity. *)
Lemma rr_prepare_spec m g ap n :
  rr_inv m → applied_inv (rr_graph m) g ap n →
  let capacity := di_capacity (kg_index g) in
  let trs := if decide (length (rr_trajectories m) < capacity)
             then resize capacity [] (rr_trajectories m) else rr_trajectories m in
  length trs = length (kg_nodes g) ∧
  (∀ s, tr_at trs s = tr_at (rr_trajectories m) s) ∧
  counts_ok (rr_last_changes m) (tr_at trs) (seq 0 (length trs)).
Proof.
  intros Hm Ha capacity trs. pose proof (ai_inv _ _ _ _ Ha) as Hi.
  pose proof (gr_mono _ _ _ _ _ (ai_grows _ _ _ _ Ha)) as Hmono.
  pose proof (inv_len _ _ (ri_graph _ Hm)) as H1. pose proof (inv_len _ _ Hi) as H2.
  pose proof (ri_len _ Hm) as H3. unfold trs, capacity. case_decide as Hlt.
  - rewrite length_resize. split; [done|].
    assert (∀ s, tr_at (resize (di_capacity (kg_index g)) [] (rr_trajectories m)) s =
      tr_at (rr_trajectories m) s) as Htr.
    { intros s. unfold tr_at. destruct (decide (s < length (rr_trajectories m))).
      - by rewrite lookup_resize by lia.
      - rewrite (lookup_ge_None_2 (rr_trajectories m)) by lia.
        destruct (decide (s < di_capacity (kg_index g)));
          [by rewrite lookup_resize_new by lia|by rewrite lookup_resize_old by lia]. }
    split; [done|]. destruct (ri_counts _ Hm) as [Hpos Hc]. split; [done|].
    intros l. rewrite Hc, (cnt_ext _ _ (tr_at (rr_trajectories m)) _ (λ s _, Htr s)).
    replace (di_capacity (kg_index g)) with (length (rr_trajectories m) +
      (di_capacity (kg_index g) - length (rr_trajectories m))) by lia.
    rewrite seq_app, cnt_app. simpl.
    assert (¬ 0 < cnt l (tr_at (rr_trajectories m)) (seq (length (rr_trajectories m))
      (di_capacity (kg_index g) - length (rr_trajectories m)))) as Hz; [|lia].
    intros (s & Hs%elem_of_seq & Hl)%cnt_pos. unfold tr_at in Hl.
    by rewrite lookup_ge_None_2 in Hl by lia.
  - split; [lia|]. split; [done|]. apply Hm.
Qed.

(** The cone an update solves is ready, fresh or kept. *)
Lemma rr_cone_spec m g ap n trs (force : bool) :
  rr_inv m → applied_inv (rr_graph m) g ap n →
  length trs = length (kg_nodes g) → (∀ s, tr_at trs s = tr_at (rr_trajectories m) s) →
  counts_ok (rr_last_changes m) (tr_at trs) (seq 0 (length trs)) →
  ∃ C0, kg_cone g (ap_seeds ap) = Some C0 ∧
  let fresh := force || negb (rr_converged m) || fresh_cone (size C0) (di_len (kg_index g)) in
  ∃ C lc,
    (if fresh then cone ← kg_slots g; Some (cone, ∅)
     else last_changes ← foldM (rr_uncount trs) (rr_last_changes m) (ascending C0);
          Some (C0, last_changes)) = Some (C, lc) ∧
    ap_seeds ap ⊆ C ∧ cone_ready m g trs C lc fresh.
Proof.
  intros Hm Ha Hlen Htr Hcnt. pose proof (ai_inv _ _ _ _ Ha) as Hi.
  destruct (kg_cone_spec g (ap_seeds ap) Hi (ai_seeds _ _ _ _ Ha))
    as (C0 & Hc & Hsub & Hlive & Hcl & _).
  exists C0. split; [done|]. intros fresh. destruct fresh eqn:Hf.
  - destruct (kg_slots_spec g Hi) as (C & Hs & HC). rewrite Hs. simpl.
    exists C, ∅. split; [done|]. split.
    + intros s Hs'. by apply HC, (ai_seeds _ _ _ _ Ha).
    + by eapply fresh_ready.
  - assert (∀ s, s ∈ C0 → s < length trs) as Hlt
      by (intros s Hs; rewrite Hlen; eapply live_lt; [exact Hi|auto]).
    destruct (rr_uncount_all trs (rr_last_changes m) (ascending C0)
      (filter (λ s, s ∉ C0) (seq 0 (length trs)))) as (lc & Hrun & Hlc).
    + intros s Hs%elem_of_ascending. auto.
    + eapply counts_ok_perm; [|exact Hcnt]. by apply seq_split.
    + rewrite Hrun. simpl. exists C0, lc. split; [done|]. split; [done|].
      eapply kept_ready; try done. unfold fresh in Hf.
      by destruct (rr_converged m), force.
Qed.

(** The values before: those of the last round. *)
Lemma rr_before_spec m g ap n trs (C : gset nat) :
  rr_inv m → applied_inv (rr_graph m) g ap n →
  length trs = length (kg_nodes g) → (∀ s, tr_at trs s = tr_at (rr_trajectories m) s) →
  (∀ s, s ∈ C → live g s) →
  mapM (rr_before g ap trs) (ascending C) =
    Some ((λ s, jac (rr_graph m) (rr_rounds m) s) <$> ascending C).
Proof.
  intros Hm Ha Hlen Htr HC. apply mapM_Some, Forall2_fmap_r, Forall_Forall2_diag.
  apply Forall_forall. intros s Hs%elem_of_ascending. unfold rr_before.
  rewrite (was_defined_spec _ _ _ _ s Ha). case_bool_decide as Hd.
  - destruct (lookup_lt_is_Some_2 trs s) as [t Ht].
    { rewrite Hlen. eapply live_lt; [apply (ai_inv _ _ _ _ Ha)|auto]. }
    rewrite Ht. simpl. f_equal. rewrite <- (tr_at_lookup trs s t Ht), Htr, (ri_history _ Hm).
    apply (history_last (λ r, jac (rr_graph m) r s)), jac_steady.
  - unfold compose. rewrite jac_undefined; [done|]. by apply eq_None_not_Some.
Qed.

(** The state [solve] leaves, with the rounds it ran. *)
Record solved_ok g (cap : nat) (trs : list (Trajectory V)) (lc : gmap nat nat) (R : nat)
    (converged : bool) : Prop := {
  so_len : length trs = length (kg_nodes g);
  so_rounds : R ≤ cap;
  so_history : ∀ s, tr_at trs s = history (λ r, jac g r s) R;
  so_first : ∀ r, S r < R → ¬ quiet g r;
  so_converged : converged = true → ∀ r, R ≤ S r → quiet g r;
  so_capped : converged = false → R = cap ∧ ∀ r, r < cap → ¬ quiet g r;
  so_started : ∀ s, is_Some (defined_at g s) → 1 ≤ R;
  so_counts : counts_ok lc (tr_at trs) (seq 0 (length trs))
}.

Lemma rr_solved_spec m g trs C lc fresh :
  rr_inv m → kg_inv g → length trs = length (kg_nodes g) →
  cone_ready m g trs C lc fresh →
  ∃ trs' lc' R converged,
    (if decide (C = ∅) then
       if (fresh : bool) then Some (trs, lc, 0, true)
       else Some (trs, lc, rr_rounds m, rr_converged m)
     else rr_solve g trs lc (rr_cap m) C fresh) = Some (trs', lc', R, converged) ∧
    solved_ok g (rr_cap m) trs' lc' R converged.
Proof.
  intros Hm Hi Hlen Hcr. set (ol := if fresh then 0 else last_round lc).
  destruct (decide (C = ∅)) as [->|HC].
  - assert (counts_ok lc (tr_at trs) (seq 0 (length trs))) as Hcnt.
    { eapply counts_ok_perm; [|apply Hcr]. symmetry.
      pose proof (seq_split ∅ (length trs)) as Hp. unfold ascending in Hp.
      rewrite elements_empty in Hp. apply Hp. set_solver. }
    assert (∀ s : nat, s ∉ (∅ : gset nat)) as Hout by set_solver.
    destruct fresh; eexists _, _, _, _; (split; [done|]).
    + assert (∀ r, quiet g r) as Hq by (intros r s; apply Hcr; [done|unfold ol; lia]).
      split; try done; [lia|intros s; by apply Hcr|lia|].
      intros s Hs. rewrite (cr_fresh _ _ _ _ _ _ Hcr) in Hs by done. by destruct Hs.
    + destruct (cr_kept _ _ _ _ _ _ Hcr eq_refl) as [Hc Hjac].
      assert (∀ r, quiet g r ↔ quiet (rr_graph m) r) as Hq
        by (intros r; unfold quiet; by setoid_rewrite Hjac; [|done..]).
      split; try done.
      * apply Hm.
      * intros s. apply Hcr; [done|]. apply (cr_bound _ _ _ _ _ _ Hcr).
      * intros r Hr. rewrite Hq. by apply (ri_first _ Hm).
      * intros _ r Hr. apply Hq. by apply (ri_converged _ Hm).
      * by rewrite Hc.
      * intros s Hs. rewrite (cr_frame _ _ _ _ _ _ Hcr) in Hs by done. by eapply ri_started.
  - destruct (rr_solve_spec g C trs Hi (cr_live _ _ _ _ _ _ Hcr) Hlen
      (λ p r Hp _, cr_out _ _ _ _ _ _ Hcr p r Hp) lc (rr_cap m) fresh)
      as (trs' & lc' & R & converged & Hrun & Hl & Htr & Hpos & Hcnt & HR & Hbefore & Hend);
      [apply Hcr|]. fold ol in Hbefore, Hend.
    exists trs', lc', R, converged. split; [done|].
    assert (∀ r, ol ≤ r → quiet_on g C r → quiet g r) as Hqo.
    { intros r Hr Hq s. destruct (decide (s ∈ C)); [by apply Hq|]. by apply Hcr. }
    assert (∀ r, ¬ (quiet_on g C r ∧ ol < S r) → ¬ quiet g r) as Hnq.
    { intros r Hn Hq. assert (S r ≤ ol) as Hle.
      { destruct (decide (ol < S r)); [|lia]. destruct Hn. split; [|done]. intros s _. apply Hq. }
      destruct (cr_last _ _ _ _ _ _ Hcr) as [H1|(p & _ & Hne)];
        [unfold ol in *; lia|].
      apply Hne. fold ol. rewrite (quiet_const g r ol), (quiet_const g r (ol - 1)); try done; lia. }
    assert (ol ≤ rr_cap m) as Hol
      by (pose proof (cr_bound _ _ _ _ _ _ Hcr); pose proof (ri_rounds _ Hm); unfold ol; lia).
    assert (ol ≤ R) as HolR by (destruct converged; naive_solver lia).
    assert (∀ s, tr_at trs' s = history (λ r, jac g r s) R) as Hh.
    { intros s. rewrite Htr. case_decide; [done|]. by apply Hcr. }
    pose proof (ri_cap _ Hm) as Hcap1.
    split.
    + lia.
    + done.
    + done.
    + intros r Hr. apply Hnq. by apply Hbefore.
    + intros -> r Hr. destruct Hend as (HR0 & Hq & HolR').
      apply (quiet_later g (R - 1)); [done| |lia]. apply Hqo; [lia|done].
    + intros ->. destruct Hend as [-> Hlast]. split; [done|]. intros r Hr.
      destruct (decide (S r < rr_cap m)); [by apply Hnq, Hbefore|].
      replace r with (rr_cap m - 1) by lia. apply Hnq.
      replace (S (rr_cap m - 1)) with (rr_cap m) by lia. apply Hlast. lia.
    + intros _ _. destruct converged; [lia|]. lia.
    + rewrite Hl. eapply counts_ok_perm; [symmetry; apply (seq_split C)|].
      { intros s Hs. rewrite Hlen. eapply live_lt; [exact Hi|by apply (cr_live _ _ _ _ _ _ Hcr)]. }
      split; [done|]. intros l. rewrite Hcnt, cnt_app, (proj2 (cr_counts _ _ _ _ _ _ Hcr) l).
      rewrite Nat.add_comm. f_equal.
      * apply cnt_ext. intros s Hs%elem_of_ascending. by rewrite Htr, decide_True.
      * apply cnt_ext. intros s [Hs _]%list_elem_of_filter. by rewrite Htr, decide_False.
Qed.

End update.
