(* ===== verification/RoundReplayTheorems.v ===== *)
(** * What the K3 replay guarantees

    The properties of [rounds.rs]: an update answers as the plain Jacobi loop
    run on the changed definitions from scratch. *)
From S2P Require Import Prelude SolverBase KeptGraph KeptGraphSpec RoundReplay RoundReplaySpec.

Section theorems.
Context {K I V E : Type} `{Countable K, EqDecision I, EqDecision V, EqDecision E}.
Context `{Step K I V E}.
Implicit Types (g : KeptGraph K I E) (m : RoundReplay K I V E) (s p r : nat) (k : K).

(** ** Reading a solver *)

(** Past the last round run nothing moves, up to the cap. *)
Lemma jac_rounds m r s :
  rr_inv m → jac (rr_graph m) (r `min` rr_rounds m) s = jac (rr_graph m) (r `min` rr_cap m) s.
Proof.
  intros Hm. pose proof (ri_rounds _ Hm) as Hle. pose proof (ri_graph _ Hm) as Hi.
  destruct (rr_converged m) eqn:Hc.
  - destruct (decide (r ≤ rr_rounds m)); [f_equal; lia|]. rewrite Nat.min_r by lia.
    symmetry. apply quiet_const; [done| |lia]. by apply (ri_converged _ Hm Hc); lia.
  - destruct (ri_capped _ Hm Hc) as [[-> _]|Hn]; [done|]. by rewrite !jac_undefined.
Qed.

Lemma rr_value_at_spec m k r :
  rr_inv m → rr_value_at m k r = jacobi (den (rr_graph m)) (r `min` rr_cap m) k.
Proof.
  intros Hm. pose proof (ri_graph _ Hm) as Hi. unfold rr_value_at, di_get.
  destruct (di_slots (kg_index (rr_graph m)) !! k) as [s|] eqn:Hk; simpl.
  - rewrite <- (jac_key _ _ _ _ Hi Hk), <- jac_rounds by done.
    rewrite kg_is_defined_spec. case_bool_decide as Hd.
    + destruct (lookup_lt_is_Some_2 (rr_trajectories m) s) as [t Ht].
      { rewrite (ri_len _ Hm). eapply live_lt; [exact Hi|by exists k]. }
      rewrite Ht. simpl. rewrite <- (tr_at_lookup _ _ _ Ht), (ri_history _ Hm).
      apply (at_history (λ r, jac (rr_graph m) r s)), jac_steady.
    + rewrite jac_undefined; [done|]. by apply eq_None_not_Some.
  - rewrite jacobi_undefined; [done|]. unfold den. by rewrite Hk.
Qed.

Lemma rr_value_last m k : rr_inv m → rr_value m k = rr_value_at m k (rr_cap m).
Proof.
  intros Hm. unfold rr_value, rr_value_at, di_get.
  destruct (di_slots (kg_index (rr_graph m)) !! k) as [s|] eqn:Hk; [|done]. simpl.
  destruct (kg_is_defined _ _); [|done].
  destruct (rr_trajectories m !! s) as [t|] eqn:Ht; [|done]. simpl.
  rewrite <- (tr_at_lookup _ _ _ Ht), (ri_history _ Hm). symmetry. apply at_round_all.
  eapply Forall_impl; [apply history_le|]. intros e He. pose proof (ri_rounds _ Hm). simpl in *. lia.
Qed.

Lemma rr_value_spec m k :
  rr_inv m → rr_value m k = jacobi (den (rr_graph m)) (rr_cap m) k.
Proof. intros Hm. by rewrite rr_value_last, rr_value_at_spec, Nat.min_id. Qed.

Lemma jac_cap m s :
  rr_inv m → jac (rr_graph m) (rr_rounds m) s = jac (rr_graph m) (rr_cap m) s.
Proof.
  intros Hm. pose proof (jac_rounds m (rr_cap m) s Hm) as Hj.
  rewrite Nat.min_id, Nat.min_r in Hj by apply (ri_rounds _ Hm). done.
Qed.

(** A slot's last iterate is its key's value. *)
Lemma rr_value_slot m k s :
  rr_inv m → di_slots (kg_index (rr_graph m)) !! k = Some s →
  rr_value m k = jac (rr_graph m) (rr_rounds m) s.
Proof.
  intros Hm Hk. by rewrite jac_cap, rr_value_spec, <- (jac_key _ _ _ _ (ri_graph _ Hm) Hk).
Qed.

Lemma rr_value_None m k : rr_inv m → rr_value m k = None ↔ den (rr_graph m) k = None.
Proof.
  intros Hm. rewrite rr_value_spec by done. rewrite !eq_None_not_Some.
  by rewrite jacobi_is_Some.
Qed.

(** The value a slot of the changed graph had before is its key's old value. *)
Lemma old_jac_key m g ap n k s :
  rr_inv m → applied_inv (rr_graph m) g ap n → di_slots (kg_index g) !! k = Some s →
  jac (rr_graph m) (rr_rounds m) s = rr_value m k.
Proof.
  intros Hm Ha Hk. pose proof (ai_grows _ _ _ _ Ha) as Hgr.
  destruct (di_slots (kg_index (rr_graph m)) !! k) as [s'|] eqn:Hk'.
  - pose proof (lookup_weaken _ _ _ _ Hk' (gr_slots _ _ _ _ _ Hgr)). simplify_eq.
    symmetry. by apply rr_value_slot.
  - assert (rr_value m k = None) as ->.
    { apply rr_value_None; [done|]. unfold den. by rewrite Hk'. }
    apply jac_undefined. destruct (defined_at (rr_graph m) s) as [[i ps]|] eqn:Hd; [|done].
    destruct (inv_defined _ _ (ri_graph _ Hm) _ _ _ Hd) as [[k2 Hk2] _].
    pose proof (lookup_weaken _ _ _ _ Hk2 (gr_slots _ _ _ _ _ Hgr)) as Hk3.
    rewrite (di_slot_inj _ _ _ _ (inv_index _ _ (ai_inv _ _ _ _ Ha)) Hk3 Hk) in Hk2. congruence.
Qed.

(** ** The operations *)

Lemma rr_new_spec cap :
  1 ≤ cap → ∃ m, rr_new (K := K) (I := I) (V := V) (E := E) cap = Some m ∧ rr_inv m ∧
    rr_cap m = cap ∧ (∀ k, den (rr_graph m) k = None).
Proof.
  intros Hcap. unfold rr_new. rewrite decide_True by done. eexists. split; [done|].
  pose proof (kg_default_inv (K := K) (I := I) (E := E)) as Hi.
  split; [|done]. split; simpl; try done; try lia.
  - intros s [k Hk]. done.
  - intros _. right. by intros s.
  - by intros s [].
Qed.

Lemma rr_changed_spec g ap trs lc cap R converged (C : gset nat) (old : nat → option V) :
  kg_inv g → (∀ s, s ∈ C → live g s) → solved_ok g cap trs lc R converged →
  NoDup (ap_undefined ap) → (∀ k, k ∈ ap_undefined ap → den g k = None) →
  ∃ changed, foldM (rr_changed g trs) (ap_undefined ap) (zip (ascending C) (old <$> ascending C))
      = Some changed ∧ NoDup changed ∧
    (∀ k, k ∈ changed ↔ k ∈ ap_undefined ap ∨
      ∃ s, s ∈ C ∧ di_slots (kg_index g) !! k = Some s ∧ is_Some (defined_at g s) ∧
        old s ≠ jac g R s).
Proof.
  intros Hi HC Hso Hnd Hund.
  destruct (kg_changed_spec g C (ap_undefined ap) (λ s, (λ t, snd <$> last t) <$> trs !! s) old
    (λ s, jac g R s) Hi HC Hnd Hund) as (changed & Hf & ?).
  { intros s Hs _. destruct (lookup_lt_is_Some_2 trs s) as [t Ht].
    { rewrite (so_len _ _ _ _ _ _ Hso). eapply live_lt; [done|by apply HC]. }
    rewrite Ht. simpl. f_equal. rewrite <- (tr_at_lookup _ _ _ Ht), (so_history _ _ _ _ _ _ Hso).
    apply (history_last (λ r, jac g r s)), jac_steady. }
  exists changed. split; [|done]. rewrite <- Hf. apply foldM_ext. intros ch [slot before] _.
  unfold rr_changed. destruct (kg_is_defined g slot); [|done]. by destruct (trs !! slot).
Qed.

(** Removing idle slots moves no iterate. *)
Lemma jac_swept g g' r s :
  kg_inv g → kg_inv g' → kg_nodes g' = kg_nodes g →
  di_slots (kg_index g') ⊆ di_slots (kg_index g) → jac g' r s = jac g r s.
Proof.
  intros Hi Hi' Hn Hss.
  assert (∀ s, defined_at g' s = defined_at g s) as Hd by (unfold defined_at; by rewrite Hn).
  assert (∀ s, is_Some (defined_at g' s) → di_key (kg_index g') s = di_key (kg_index g) s) as Hk.
  { intros q [[i ps] Hq]. destruct (inv_defined _ _ Hi' q i ps Hq) as [[k Hk] _].
    rewrite (proj2 (di_key_Some _ _ _) (proj1 (di_wf_bij _ (inv_index _ _ Hi') _ _) Hk)).
    symmetry. apply di_key_Some, (di_wf_bij _ (inv_index _ _ Hi)). by eapply lookup_weaken. }
  revert s. induction r as [|r IH]; intros s; rewrite ?jac_0, ?jac_S, <- Hd.
  all: destruct (defined_at g' s) as [[i ps]|] eqn:Es; [|done].
  all: rewrite <- Hk by (by rewrite Es).
  - done.
  - destruct (di_key _ s); [|done]. rewrite IH.
    destruct (jac g r s); cbn [mbind option_bind]; [|done]. do 2 f_equal.
    apply list_fmap_ext. intros _ [p e] _. by rewrite IH.
Qed.

Lemma rr_inv_swept m g g' ap n cap trs lc R converged :
  rr_inv m → applied_inv (rr_graph m) g ap n → cap = rr_cap m →
  solved_ok g cap trs lc R converged → kg_inv g' → kg_nodes g' = kg_nodes g →
  (∀ s, live g' s ↔ live g s ∧ ¬ (s ∈ ap_candidates ap ∧ idle g s)) →
  di_slots (kg_index g') ⊆ di_slots (kg_index g) →
  rr_inv (mk_rounds g' trs lc cap converged R) ∧
  (converged = false → R = cap ∧ ∀ r, r < cap → ¬ quiet g' r).
Proof.
  intros Hm Ha -> Hso Hi' Hn Hl Hss. pose proof (ai_inv _ _ _ _ Ha) as Hi.
  assert (∀ s, defined_at g' s = defined_at g s) as Hd by (unfold defined_at; by rewrite Hn).
  assert (∀ s, readers_at g' s = readers_at g s) as Hr by (unfold readers_at; by rewrite Hn).
  assert (∀ r s, jac g' r s = jac g r s) as Hj by (intros; by apply jac_swept).
  assert (∀ r, quiet g' r ↔ quiet g r) as Hq by (intros r; unfold quiet; by setoid_rewrite Hj).
  destruct Hso as [H1 H2 H3 H4 H5 H6 H7 H8].
  assert (converged = false → R = rr_cap m ∧ ∀ r, r < rr_cap m → ¬ quiet g' r) as Hcap
    by (intros Hc; destruct (H6 Hc) as [-> Hnq]; split; [done|]; intros r; rewrite Hq; apply Hnq).
  split; [|done]. split; simpl; try done.
  - intros s Hs [Hid1 Hid2]. apply Hl in Hs as [Hs Hns]. rewrite Hd in Hid1. rewrite Hr in Hid2.
    apply Hns. split; [|done]. destruct (ai_cand _ _ _ _ Ha s Hs Hid1 Hid2) as [|(Hs0 & ? & ?)]; [done|].
    by destruct (ri_swept _ Hm s Hs0).
  - by rewrite Hn.
  - apply Hm.
  - intros s. rewrite H3. apply history_ext. intros. by rewrite Hj.
  - intros r. rewrite Hq. apply H4.
  - intros Hc r Hr'. by apply Hq, H5.
  - intros Hc. left. by apply Hcap.
  - intros s. rewrite Hd. apply H7.
Qed.

(** [update_with], whole: it never panics, keeps the invariant, and reports
    the keys whose final value moved. *)
Lemma rr_update_spec m changes force :
  rr_inv m → di_room (kg_index (rr_graph m)) (changes_size changes) →
  ∃ m' solved, rr_update_with m changes force = Some (m', solved) ∧ rr_inv m' ∧
    rr_cap m' = rr_cap m ∧
    (∀ k, den (rr_graph m') k = defs_after (den (rr_graph m)) changes k) ∧
    (rr_converged m' = false →
      rr_rounds m' = rr_cap m ∧ ∀ r, r < rr_cap m → ¬ quiet (rr_graph m') r) ∧
    NoDup (so_changed solved) ∧
    (∀ k, k ∈ so_changed solved ↔ rr_value m' k ≠ rr_value m k).
Proof.
  intros Hm Hroom. unfold rr_update_with.
  destruct (kg_apply_spec _ changes (ri_graph _ Hm) Hroom)
    as (g & ap & Hap & Ha & Hden & Hndu & Hund). rewrite Hap. simpl.
  pose proof (ai_inv _ _ _ _ Ha) as Hi.
  destruct (rr_prepare_spec m g ap _ Hm Ha) as (Hlen & Htr & Hcnt). simpl in Hlen, Htr, Hcnt.
  set (trs := if decide _ then _ else _) in *.
  destruct (rr_cone_spec m g ap _ trs force Hm Ha Hlen Htr Hcnt)
    as (C0 & Hc0 & C & lc & Hc & Hseeds & Hcr).
  rewrite Hc0. simpl. simpl in Hc. rewrite Hc. simpl.
  rewrite (rr_before_spec m g ap _ trs C Hm Ha Hlen Htr (cr_live _ _ _ _ _ _ Hcr)). simpl.
  destruct (rr_solved_spec m g trs C lc _ Hm Hi Hlen Hcr) as (trs' & lc' & R & cv & Hrun & Hso).
  rewrite Hrun. simpl.
  destruct (rr_changed_spec g ap trs' lc' (rr_cap m) R cv C (λ s, jac (rr_graph m) (rr_rounds m) s)
    Hi (cr_live _ _ _ _ _ _ Hcr) Hso Hndu) as (changed & Hch & Hndc & Hmem).
  { intros k Hk. by apply Hund in Hk as []. }
  rewrite Hch. simpl.
  destruct (kg_sweep_spec g ap Hi (ai_cand_live _ _ _ _ Ha))
    as (g' & Hsw & Hi' & Hn' & Hd' & Hl' & _ & Hss'). rewrite Hsw. simpl.
  destruct (rr_inv_swept m g g' ap _ _ trs' lc' R cv Hm Ha eq_refl Hso Hi' Hn' Hl' Hss')
    as [Hm' Hcap'].
  eexists _, _. split; [done|]. split; [done|]. split; [done|]. simpl.
  split; [intros k; by rewrite Hd'|]. split; [done|]. split; [done|].
  set (m' := mk_rounds g' trs' lc' (rr_cap m) cv R) in *.
  intros k. rewrite Hmem, Hund. destruct (den g k) as [dk|] eqn:Hdk.
  - destruct (di_slots (kg_index g') !! k) as [s|] eqn:Hk.
    2:{ rewrite <- Hd' in Hdk. unfold den in Hdk. by rewrite Hk in Hdk. }
    pose proof (lookup_weaken _ _ _ _ Hk Hss') as Hkg.
    assert (is_Some (defined_at g s)) as Hds by (apply (den_is_Some _ _ _ _ Hi Hkg); by rewrite Hdk).
    rewrite (rr_value_slot m' k s Hm' Hk), <- (old_jac_key m g ap _ k s Hm Ha Hkg). simpl.
    rewrite (jac_swept g g') by done. split.
    + intros [[_ ?]|(s' & _ & Hk' & _ & Hne)]; [done|]. simplify_eq. congruence.
    + intros Hne. right. exists s. split; [|split; [done|split; [done|congruence]]].
      apply dec_stable. intros HsC. apply Hne.
      pose proof (jac_cap m' s Hm') as Hcap. simpl in Hcap.
      rewrite !(jac_swept g g') in Hcap by done. rewrite Hcap, (jac_cap m s Hm). destruct (_ || _) eqn:Hfresh.
      * rewrite (cr_fresh _ _ _ _ _ _ Hcr eq_refl s HsC) in Hds. by destruct Hds.
      * by apply (cr_kept _ _ _ _ _ _ Hcr eq_refl).
  - assert (rr_value m' k = None) as -> by (apply rr_value_None; [done|]; simpl; by rewrite Hd').
    assert (is_Some (den (rr_graph m) k) ↔ rr_value m k ≠ None) as ->.
    { rewrite (rr_value_None m k Hm). by rewrite not_eq_None_Some. }
    split; [|by left; split; [|done]].
    intros [[Hv _]|(s & _ & Hk & Hds & _)]; [done|].
    apply (den_is_Some _ _ _ _ Hi Hk) in Hds. rewrite Hdk in Hds. by destruct Hds.
Qed.

(** ** The claims *)

(** Quietness by key: round [S r] moves no key. *)
Definition settled (defs : K → option (NodeDef K I E)) r : Prop :=
  ∀ k, jacobi defs (S r) k = jacobi defs r k.

Lemma quiet_settled g r : kg_inv g → quiet g r ↔ settled (den g) r.
Proof.
  intros Hi. split.
  - intros Hq k. destruct (di_slots (kg_index g) !! k) as [s|] eqn:Hk.
    + rewrite <- !(jac_key _ _ _ _ Hi Hk). apply Hq.
    + by rewrite !jacobi_undefined by (unfold den; by rewrite Hk).
  - intros Hq s. destruct (defined_at g s) as [[i ps]|] eqn:Hd.
    + destruct (inv_defined _ _ Hi s i ps Hd) as [[k Hk] _]. rewrite !(jac_key _ _ _ _ Hi Hk).
      apply Hq.
    + by rewrite !jac_undefined.
Qed.

Lemma settled_ext d1 d2 r : (∀ k, d1 k = d2 k) → settled d1 r ↔ settled d2 r.
Proof. intros Hd. unfold settled. by setoid_rewrite (λ r k, jacobi_ext d1 d2 r k Hd). Qed.

(** Two solvers of the same definitions and cap, whatever they replayed. *)
Lemma rr_agree m1 m2 :
  rr_inv m1 → rr_inv m2 → rr_cap m1 = rr_cap m2 →
  (∀ k, den (rr_graph m1) k = den (rr_graph m2) k) →
  (∀ k r, rr_value_at m1 k r = rr_value_at m2 k r) ∧
  ((∃ k, is_Some (den (rr_graph m1) k)) → rr_rounds m1 = rr_rounds m2 ∧
    rr_converged m1 = rr_converged m2).
Proof.
  intros H1 H2 Hcap Hd. split.
  { intros k r. by rewrite !rr_value_at_spec, Hcap, (jacobi_ext _ _ _ _ Hd). }
  intros [k Hk].
  assert (∀ m1 m2, rr_inv m1 → rr_inv m2 → rr_cap m1 = rr_cap m2 →
    (∀ k, den (rr_graph m1) k = den (rr_graph m2) k) → is_Some (den (rr_graph m1) k) →
    rr_rounds m1 ≤ rr_rounds m2 ∧ (rr_converged m2 = true → rr_converged m1 = true)) as Hle.
  { clear m1 m2 H1 H2 Hcap Hd Hk. intros m1 m2 H1 H2 Hcap Hd Hk.
    pose proof (ri_graph _ H1) as Hi1. pose proof (ri_graph _ H2) as Hi2.
    assert (∀ r, quiet (rr_graph m1) r ↔ quiet (rr_graph m2) r) as Hq
      by (intros r; rewrite !quiet_settled by done; by apply settled_ext).
    assert (∀ m, rr_inv m → is_Some (den (rr_graph m) k) →
      ∃ s, is_Some (defined_at (rr_graph m) s)) as Hdef.
    { intros m Hm Hmk. destruct (di_slots (kg_index (rr_graph m)) !! k) as [s|] eqn:Es.
      - exists s. by apply (den_is_Some _ _ _ _ (ri_graph _ Hm) Es).
      - unfold den in Hmk. rewrite Es in Hmk. by destruct Hmk. }
    destruct (Hdef m2 H2) as [s2 Hs2]; [by rewrite <- Hd|].
    pose proof (ri_started _ H2 _ Hs2) as Hst2.
    pose proof (ri_rounds _ H1). pose proof (ri_rounds _ H2).
    destruct (rr_converged m2) eqn:Hc2.
    - assert (quiet (rr_graph m1) (rr_rounds m2 - 1)) as Hq1
        by (apply Hq, (ri_converged _ H2 Hc2); lia).
      split.
      + destruct (decide (rr_rounds m1 ≤ rr_rounds m2)) as [|Hgt]; [done|].
        by destruct (ri_first _ H1 (rr_rounds m2 - 1)); [lia|].
      + intros _. destruct (rr_converged m1) eqn:Hc1; [done|].
        destruct (ri_capped _ H1 Hc1) as [[_ Hn]|Hn].
        * by destruct (Hn (rr_rounds m2 - 1)); [lia|].
        * destruct (Hdef m1 H1 Hk) as [s1 Hs1]. rewrite Hn in Hs1. by destruct Hs1.
    - split; [|done]. destruct (ri_capped _ H2 Hc2) as [[-> _]|Hn]; [lia|].
      rewrite Hn in Hs2. by destruct Hs2. }
  destruct (Hle m1 m2) as [Hr1 Hc1]; [done..|].
  destruct (Hle m2 m1) as [Hr2 Hc2]; [done|done|done|by intros; rewrite Hd|by rewrite <- Hd|].
  split; [lia|]. destruct (rr_converged m1), (rr_converged m2); try done; [by rewrite Hc2|by rewrite Hc1].
Qed.

(** C5: [RoundReplay::update_with] never panics on a kept solver, and leaves
    every node, at every round, the value the plain Jacobi loop computes from
    the changed definitions alone, whichever cone it re-ran; the keys it
    reports are exactly those whose final value moved, each once. *)
Theorem round_replay_is_jacobi m changes force :
  rr_inv m → di_room (kg_index (rr_graph m)) (changes_size changes) →
  ∃ m' solved, rr_update_with m changes force = Some (m', solved) ∧ rr_inv m' ∧
    rr_cap m' = rr_cap m ∧
    let defs := defs_after (den (rr_graph m)) changes in
    (∀ k r, rr_value_at m' k r = jacobi defs (r `min` rr_cap m) k) ∧
    (∀ k, rr_value m' k = jacobi defs (rr_cap m) k) ∧
    NoDup (so_changed solved) ∧
    (∀ k, k ∈ so_changed solved ↔ rr_value m' k ≠ rr_value m k).
Proof.
  intros Hm Hroom. destruct (rr_update_spec m changes force Hm Hroom)
    as (m' & solved & Hup & Hm' & Hcap & Hd & _ & Hnd & Hch).
  exists m', solved. split; [done|]. split; [done|]. split; [done|]. split.
  { intros k r. by rewrite rr_value_at_spec, Hcap, (jacobi_ext _ _ _ _ Hd). }
  split; [|done]. intros k. by rewrite rr_value_spec, Hcap, (jacobi_ext _ _ _ _ Hd).
Qed.

(** C18: replaying is unobservable. Two solvers of one cap, of any history and
    whether forced fresh or not, whose updates leave the same definitions
    answer alike for every key at every round; with a node defined they also
    ran the same number of rounds and agree on having converged. *)
Theorem round_replay_history_independent m1 m2 m1' m2' changes1 changes2 f1 f2
    (s1 s2 : Solved K) :
  rr_inv m1 → rr_inv m2 → rr_cap m1 = rr_cap m2 →
  di_room (kg_index (rr_graph m1)) (changes_size changes1) →
  di_room (kg_index (rr_graph m2)) (changes_size changes2) →
  (∀ k, defs_after (den (rr_graph m1)) changes1 k = defs_after (den (rr_graph m2)) changes2 k) →
  rr_update_with m1 changes1 f1 = Some (m1', s1) →
  rr_update_with m2 changes2 f2 = Some (m2', s2) →
  (∀ k r, rr_value_at m1' k r = rr_value_at m2' k r) ∧
  (∀ k, rr_value m1' k = rr_value m2' k) ∧
  ((∃ k, is_Some (rr_value m1' k)) →
    rr_rounds m1' = rr_rounds m2' ∧ rr_converged m1' = rr_converged m2').
Proof.
  intros H1 H2 Hcap Hr1 Hr2 Hdefs Hu1 Hu2.
  destruct (rr_update_spec m1 changes1 f1 H1 Hr1)
    as (? & ? & ? & Hm1 & Hc1 & Hd1 & _). simplify_eq.
  destruct (rr_update_spec m2 changes2 f2 H2 Hr2)
    as (? & ? & ? & Hm2 & Hc2 & Hd2 & _). simplify_eq.
  destruct (rr_agree m1' m2') as [Hv Hr]; [done|done|congruence|by intros k; rewrite Hd1, Hd2|].
  split; [done|]. split; [intros k; rewrite !rr_value_last, Hv, Hc1, Hc2, Hcap by done; done|].
  intros [k Hk]. apply Hr. exists k. apply not_eq_None_Some. intros Hn%rr_value_None; [|done].
  rewrite Hn in Hk. by destruct Hk.
Qed.


End theorems.

(** ** Witnesses: the longest path seen so far, capped at six rounds *)

#[local] Instance ex_step : Step nat nat nat unit := {|
  step_init _ i := i;
  step_next _ i own seen :=
    foldr (λ e acc, max acc (match e.2 with Some v => S v | None => 0 end)) own seen
|}.

Definition ex_rounds : RoundReplay nat nat nat unit := mk_rounds kg_default [] ∅ 6 false 0.

Lemma ex_rounds_inv : rr_inv ex_rounds.
Proof. destruct (rr_new_spec (K := nat) (I := nat) (V := nat) (E := unit) 6) as (m & [= <-] & Hm & _); [lia|exact Hm]. Qed.

Definition ex_chain : list (Change nat nat unit) :=
  [(1, Some (mk_def 5 [])); (2, Some (mk_def 0 [(1, ())])); (3, Some (mk_def 0 [(2, ())]))].

Lemma ex_chain_room : di_room (kg_index (rr_graph ex_rounds)) (changes_size ex_chain).
Proof. vm_compute. discriminate. Qed.

Lemma round_replay_is_jacobi_witness :
  ∃ m' solved, rr_update_with ex_rounds ex_chain false = Some (m', solved) ∧
    rr_value m' 3 = Some 7 ∧ rr_value_at m' 3 1 = Some 1 ∧ rr_inv m'.
Proof.
  destruct (round_replay_is_jacobi ex_rounds ex_chain false ex_rounds_inv ex_chain_room)
    as (m' & solved & Hup & Hm' & _ & Hat & Hlast & _).
  exists m', solved. split; [exact Hup|]. split; [rewrite Hlast; vm_compute; reflexivity|].
  split; [rewrite Hat; vm_compute; reflexivity|exact Hm'].
Defined.

Lemma round_replay_history_independent_witness :
  ∃ m1 m2 s1 s2, rr_update_with ex_rounds ex_chain false = Some (m1, s1) ∧
    rr_update_with ex_rounds (reverse ex_chain) true = Some (m2, s2) ∧
    ∀ k r, rr_value_at m1 k r = rr_value_at m2 k r.
Proof.
  destruct (rr_update_with ex_rounds ex_chain false) as [[m1 s1]|] eqn:H1; [|vm_compute in H1; discriminate H1].
  destruct (rr_update_with ex_rounds (reverse ex_chain) true) as [[m2 s2]|] eqn:H2;
    [|vm_compute in H2; discriminate H2].
  exists m1, m2, s1, s2. split; [reflexivity|]. split; [reflexivity|].
  refine (proj1 (round_replay_history_independent ex_rounds ex_rounds m1 m2 ex_chain
    (reverse ex_chain) false true s1 s2 ex_rounds_inv ex_rounds_inv eq_refl ex_chain_room _ _ H1 H2)).
  - vm_compute. discriminate.
  - intros [|[|[|[|k]]]]; vm_compute; reflexivity.
Defined.

