(* ===== verification/Published.v ===== *)
(** * Published values

    Model of [Published] in [rust/crates/solid-reactive-ir/src/base/fixpoint.rs]
    and of the sharded derived tables over it in [base/memo/derived.rs]: a
    solver's output as memo readers see it, a value per key with the revision
    in which it last changed, and an interned id per key a reader recorded.
    Ids and revisions ([u32]) are [nat]; the two places an id is computed with
    checked arithmetic keep the check, [None] being the panic. A lock and its
    guard are the table itself: one operation runs at a time. *)
From S2P Require Import Prelude Order.

(** ** [Published] *)

Record Published (K V : Type) `{Countable K} := mk_published {
  pb_values : gmap K (V * nat);
  pb_published_at : option nat;
  pb_ids : gmap K nat;
  pb_keys : gmap nat K;
  pb_next : nat
}.
Arguments mk_published {K V _ _} _ _ _ _ _.
Arguments pb_values {K V _ _} _.
Arguments pb_published_at {K V _ _} _.
Arguments pb_ids {K V _ _} _.
Arguments pb_keys {K V _ _} _.
Arguments pb_next {K V _ _} _.

(** [sort_unstable] on [u32]s: equal elements are the same. *)
Definition sort_ids (l : list nat) : list nat := merge_sort (cmp_le Nat.compare) l.

(** [u32::checked_add] and [u32::checked_mul]. *)
Definition u32_checked (n : nat) : option nat :=
  if decide (Z.of_nat n < 2 ^ 32)%Z then Some n else None.

Section published.
Context {K V : Type} `{Countable K, EqDecision V}.
Implicit Types (p : Published K V) (k : K).

(** [Default]. *)
Definition pb_default : Published K V := mk_published ∅ None ∅ ∅ 0.

(** One change of [publish]: the entry written, and whether it differs. *)
Definition pb_change (revision : nat) (values : gmap K (V * nat)) (change : K * option V)
  : gmap K (V * nat) * bool :=
  let '(key, value) := change in
  match value with
  | Some value =>
      match values !! key with
      | Some entry =>
          if decide (entry.1 = value) then (values, false)
          else (<[key := (value, revision)]> values, true)
      | None => (<[key := (value, revision)]> values, true)
      end
  | None => (delete key values, bool_decide (is_Some (values !! key)))
  end.

Definition pb_publish_one (revision : nat) (ids : gmap K nat)
    (s : gmap K (V * nat) * list nat) (change : K * option V) : gmap K (V * nat) * list nat :=
  let '(values, moved) := s in
  let '(values, differs) := pb_change revision values change in
  (values, if differs : bool then
             match ids !! change.1 with Some id => moved ++ [id] | None => moved end
           else moved).

(** [publish]. *)
Definition pb_publish p (revision : nat) (changes : list (K * option V))
  : Published K V * list nat :=
  let '(values, moved) := foldl (pb_publish_one revision (pb_ids p)) (pb_values p, []) changes in
  (mk_published values (Some revision) (pb_ids p) (pb_keys p) (pb_next p),
   dedup (sort_ids moved)).

(** [get]. *)
Definition pb_get p k : option V := fst <$> pb_values p !! k.

(** [revision]: 0 for no value. *)
Definition pb_revision p k : nat :=
  match pb_values p !! k with Some (_, revision) => revision | None => 0 end.

(** [intern]. *)
Definition pb_intern p k : option (Published K V * nat) :=
  match pb_ids p !! k with
  | Some id => Some (p, id)
  | None =>
      let id := pb_next p in
      next ← u32_checked (pb_next p + 1);
      Some (mk_published (pb_values p) (pb_published_at p) (<[k := id]> (pb_ids p))
              (<[id := k]> (pb_keys p)) next, id)
  end.

(** [id]. *)
Definition pb_id p k : option nat := pb_ids p !! k.

(** [release]. *)
Definition pb_release p (id : nat) : Published K V :=
  match pb_keys p !! id with
  | Some key => mk_published (pb_values p) (pb_published_at p) (delete key (pb_ids p))
                  (delete id (pb_keys p)) (pb_next p)
  | None => p
  end.

End published.

(** ** Derived tables *)

Definition derived_shards : nat := 16.

(** [Sharded]: its shards, in order. *)
Abbreviation Sharded K V := (list (Published K V)) (only parsing).

(** [Read]. *)
Record Read (V : Type) := mk_read {
  read_id : nat;
  read_value : option V;
  read_published_now : bool
}.
Arguments mk_read {V} _ _ _.
Arguments read_id {V} _.
Arguments read_value {V} _.
Arguments read_published_now {V} _.

Section sharded.
Context {K V : Type} `{Countable K, EqDecision V}.

(** The 64-bit FxHash of a key. *)
Context (fx_hash : K → Z).
Implicit Types (t : Sharded K V) (k : K).

(** [Default]. *)
Definition sh_default : Sharded K V := replicate derived_shards pb_default.

(** [shard_of]: the hash's high four bits. *)
Definition shard_of k : nat := Z.to_nat (Z.shiftr (fx_hash k) 60) mod derived_shards.

(** [sharded_id]. *)
Definition sharded_id (shard local : nat) : option nat :=
  id ← u32_checked (local * derived_shards); u32_checked (id + shard).

(** [publish]: each shard publishes its part, in order. *)
Definition sh_part (changes : list (K * option V)) (shard : nat) : list (K * option V) :=
  filter (λ change, shard_of change.1 = shard) changes.

Definition sh_publish_shard (revision : nat) (changes : list (K * option V))
    (s : Sharded K V * list nat) (shard : nat) : option (Sharded K V * list nat) :=
  let '(t, moved) := s in
  p ← t !! shard;
  let '(p, local) := pb_publish p revision (sh_part changes shard) in
  t ← t.[shard <- p];
  ids ← mapM (sharded_id shard) local;
  Some (t, moved ++ ids).

Definition sh_publish t (revision : nat) (changes : list (K * option V))
  : option (Sharded K V * list nat) :=
  '(t, moved) ← foldM (sh_publish_shard revision changes) (t, []) (seq 0 derived_shards);
  Some (t, sort_ids moved).

(** [published_at]. *)
Definition sh_published_at t : option (option nat) := pb_published_at <$> t !! 0.

(** [read]: an uninterned key is interned under the write lock. *)
Definition sh_read t k (revision : nat) : option (Sharded K V * Read V) :=
  let shard := shard_of k in
  p ← t !! shard;
  match pb_id p k with
  | Some id =>
      id ← sharded_id shard id;
      Some (t, mk_read id (pb_get p k) (bool_decide (pb_published_at p = Some revision)))
  | None =>
      '(p, id) ← pb_intern p k;
      id ← sharded_id shard id;
      t ← t.[shard <- p];
      Some (t, mk_read id (pb_get p k) (bool_decide (pb_published_at p = Some revision)))
  end.

(** [ErasedPublished::release]. *)
Definition sh_release t (id : nat) : option (Sharded K V) :=
  let shard := id mod derived_shards in
  p ← t !! shard;
  t.[shard <- pb_release p (id / derived_shards)].

End sharded.

#[global] Arguments shard_of : simpl never.
#[global] Arguments sharded_id : simpl never.
