(* ===== verification/PublishedTheorems.v ===== *)
(** * What published values guarantee *)
From S2P Require Import Prelude Order Published.

Section published.
Context {K V : Type} `{Countable K, EqDecision V}.
Implicit Types (p q : Published K V) (k : K) (id r : nat).

(** ** One table *)

(** The value a key is left with by a list of changes. *)
Definition value_after (value : K → option V) (changes : list (K * option V)) k : option V :=
  foldl (λ v c, if decide (c.1 = k) then c.2 else v) (value k) changes.

Definition entry_value (values : gmap K (V * nat)) k : option V := fst <$> values !! k.

Lemma pb_change_spec r values c :
  let '(values', differs) := pb_change r values c in
  (∀ k, entry_value values' k = if decide (c.1 = k) then c.2 else entry_value values k) ∧
  (∀ k, k ≠ c.1 → values' !! k = values !! k) ∧
  (differs = false → values' = values ∧ entry_value values c.1 = c.2) ∧
  (differs = true → entry_value values c.1 ≠ c.2 ∧
    values' !! c.1 = (λ v, (v, r)) <$> c.2).
Proof.
  destruct c as [k0 [v|]]; simpl; unfold entry_value.
  - destruct (values !! k0) as [[old ro]|] eqn:Hk; simpl; [case_decide as Hv; simplify_eq|].
    + split; [intros k; case_decide; [by subst; rewrite Hk|done]|]. done.
    + split; [intros k; case_decide; [by subst; rewrite lookup_insert_eq|by rewrite lookup_insert_ne]|].
      split; [intros; by rewrite lookup_insert_ne|]. split; [done|]. intros _.
      rewrite lookup_insert_eq. split; [congruence|done].
    + split; [intros k; case_decide; [by subst; rewrite lookup_insert_eq|by rewrite lookup_insert_ne]|].
      split; [intros; by rewrite lookup_insert_ne|]. split; [done|]. intros _.
      by rewrite lookup_insert_eq.
  - split; [intros k; case_decide; [by subst; rewrite lookup_delete_eq|by rewrite lookup_delete_ne]|].
    split; [intros; by rewrite lookup_delete_ne|]. split; intros Hb.
    + apply bool_decide_eq_false in Hb. rewrite <- eq_None_not_Some in Hb.
      rewrite Hb. split; [|done]. by apply delete_id.
    + apply bool_decide_eq_true in Hb as [e He]. rewrite He, lookup_delete_eq. done.
Qed.

Lemma pb_publish_fold r ids changes : ∀ values moved,
  let '(values', moved') := foldl (pb_publish_one r ids) (values, moved) changes in
  (∀ k, entry_value values' k = value_after (entry_value values) changes k) ∧
  (∀ k, values' !! k = values !! k ∨
    (k ∈ changes.*1 ∧ ∀ e, values' !! k = Some e → e.2 = r)) ∧
  (∀ id, id ∈ moved → id ∈ moved') ∧
  (∀ k id, ids !! k = Some id → values' !! k ≠ values !! k → id ∈ moved') ∧
  (∀ id, id ∈ moved' → id ∈ moved ∨ ∃ k, k ∈ changes.*1 ∧ ids !! k = Some id ∧
    (NoDup changes.*1 → entry_value values' k ≠ entry_value values k)).
Proof.
  induction changes as [|c changes IH]; intros values moved; cbn [foldl fmap list_fmap].
  { split; [done|]. split; [by left|]. split; [done|]. split; [done|]. by left. }
  pose proof (pb_change_spec r values c) as Hc.
  assert (pb_publish_one r ids (values, moved) c = ((pb_change r values c).1,
    if (pb_change r values c).2 then
      match ids !! c.1 with Some id => moved ++ [id] | None => moved end else moved)) as ->
    by (simpl; by destruct (pb_change r values c)).
  destruct (pb_change r values c) as [values1 differs]. destruct Hc as (Hv & Hf & Hno & Hyes).
  cbn [fst snd]. set (moved1 := if differs then _ else moved). specialize (IH values1 moved1).
  destruct (foldl _ (values1, moved1) changes) as [values' moved'].
  destruct IH as (I1 & I2 & I3 & I4 & I5).
  assert (∀ id, id ∈ moved → id ∈ moved1) as Hm1.
  { intros id Hid. unfold moved1. destruct differs; [|done]. destruct (ids !! c.1); [|done].
    apply elem_of_app. by left. }
  split; [|split; [|split; [|split]]].
  - intros k. rewrite I1. unfold value_after. simpl. by rewrite Hv.
  - intros k. destruct (I2 k) as [Heq|[Hin Hr]]; [|right; split; [by right|done]].
    destruct (decide (k = c.1)) as [->|Hne]; [|left; by rewrite Heq, Hf].
    destruct differs; [right|left; rewrite Heq; f_equal; by apply Hno].
    split; [by left|]. rewrite Heq. destruct (Hyes eq_refl) as [_ ->].
    intros e. destruct c.2; [|done]. by intros [= <-].
  - auto.
  - intros k id Hk Hne. destruct (decide (values' !! k = values1 !! k)) as [Heq|]; [|by eapply I4].
    apply I3. unfold moved1. destruct differs; [|by destruct (Hno eq_refl) as [-> _]].
    destruct (decide (k = c.1)) as [->|Hkc].
    + rewrite Hk. apply elem_of_app. right. by left.
    + by rewrite Heq, Hf in Hne.
  - intros id Hid. destruct (I5 id Hid) as [Hid1|(k & Hk & Hids & Hd)].
    + unfold moved1 in Hid1. destruct differs; [|by left].
      destruct (ids !! c.1) as [id'|] eqn:Hc; [|by left].
      apply elem_of_app in Hid1 as [?|Heq%list_elem_of_singleton]; [by left|]. subst id'.
      right. exists c.1. split; [by left|]. split; [done|]. intros [Hnin Hnd]%NoDup_cons.
      destruct (Hyes eq_refl) as [Hd _].
      assert (entry_value values' c.1 = c.2) as ->; [|congruence].
      destruct (I2 c.1) as [Heq|[? _]]; [|done]. unfold entry_value in *. rewrite Heq.
      rewrite Hv. by rewrite decide_True.
    + right. exists k. split; [by right|]. split; [done|]. intros [Hnin Hnd]%NoDup_cons.
      specialize (Hd Hnd). rewrite Hv in Hd.
      rewrite decide_False in Hd by (intros <-; done). done.
Qed.

(** Ids and keys are inverse and every id was allocated. *)
Record pb_inv p : Prop := {
  pi_bij : ∀ k id, pb_ids p !! k = Some id ↔ pb_keys p !! id = Some k;
  pi_next : ∀ k id, pb_ids p !! k = Some id → id < pb_next p;
  pi_revision : ∀ k e, pb_values p !! k = Some e →
    0 < e.2 ∧ ∃ r, pb_published_at p = Some r ∧ e.2 ≤ r
}.

(** The operations, in any order: revisions grow and start at 1. *)
Inductive pb_step p : Published K V → Prop :=
  | step_publish r changes :
      0 < r → (∀ r0, pb_published_at p = Some r0 → r0 < r) →
      pb_step p (pb_publish p r changes).1
  | step_intern k q id : pb_intern p k = Some (q, id) → pb_step p q
  | step_release id : pb_step p (pb_release p id).

Lemma pb_default_inv : pb_inv (pb_default (K := K) (V := V)).
Proof. by split. Qed.

Lemma pb_publish_inv p r changes :
  pb_inv p → 0 < r → (∀ r0, pb_published_at p = Some r0 → r0 < r) →
  pb_inv (pb_publish p r changes).1.
Proof.
  intros [Hb Hn Hr] Hpos Hlt. unfold pb_publish.
  pose proof (pb_publish_fold r (pb_ids p) changes (pb_values p) []) as Hf.
  destruct (foldl _ _ changes) as [values' moved']. destruct Hf as (_ & Hval & _).
  split; simpl; [done|done|]. intros k e He.
  destruct (Hval k) as [Heq|[_ Hr']].
  - rewrite Heq in He. destruct (Hr k e He) as (? & r0 & H0 & ?). split; [done|].
    exists r. split; [done|]. specialize (Hlt r0 H0). lia.
  - rewrite (Hr' e He). eauto.
Qed.

Lemma pb_intern_spec p k :
  pb_inv p → (Z.of_nat (pb_next p) + 1 < 2 ^ 32)%Z ∨ is_Some (pb_id p k) →
  ∃ q id, pb_intern p k = Some (q, id) ∧ pb_inv q ∧ pb_id q k = Some id ∧
    pb_values q = pb_values p ∧ pb_published_at q = pb_published_at p ∧
    (∀ k', k' ≠ k → pb_id q k' = pb_id p k') ∧
    (pb_id p k = Some id ∧ q = p ∨ pb_id p k = None ∧ id = pb_next p ∧ pb_next q = S (pb_next p)).
Proof.
  intros [Hb Hn Hr] Hroom. unfold pb_intern, pb_id in *.
  destruct (pb_ids p !! k) as [id|] eqn:Hk.
  { exists p, id. repeat split; auto; naive_solver. }
  destruct Hroom as [Hroom|[? ?]]; [|done].
  unfold u32_checked. rewrite decide_True by lia. simpl.
  eexists _, _. split; [done|]. simpl. split; [|repeat split; try done].
  - split; simpl.
    + intros k' id'. destruct (decide (k' = k)) as [->|Hne].
      * rewrite lookup_insert_eq. destruct (decide (id' = pb_next p)) as [->|Hid].
        -- by rewrite lookup_insert_eq.
        -- rewrite lookup_insert_ne by done. rewrite <- Hb, Hk. naive_solver.
      * rewrite lookup_insert_ne by done. destruct (decide (id' = pb_next p)) as [->|Hid].
        -- rewrite lookup_insert_eq. split; [intros Hx%Hn; lia|naive_solver].
        -- rewrite lookup_insert_ne by done. apply Hb.
    + intros k' id'. destruct (decide (k' = k)) as [->|Hne].
      * rewrite lookup_insert_eq. intros [= <-]. lia.
      * rewrite lookup_insert_ne by done. intros Hx%Hn. lia.
    + done.
  - by rewrite lookup_insert_eq.
  - intros k' Hne. by rewrite lookup_insert_ne.
  - right. split; [done|]. split; [done|]. lia.
Qed.

Lemma pb_release_spec p id :
  pb_inv p → pb_inv (pb_release p id) ∧ pb_values (pb_release p id) = pb_values p ∧
    pb_published_at (pb_release p id) = pb_published_at p ∧
    pb_next (pb_release p id) = pb_next p ∧
    (∀ k id', pb_id (pb_release p id) k = Some id' ↔ pb_id p k = Some id' ∧ id' ≠ id).
Proof.
  intros [Hb Hn Hr]. unfold pb_release, pb_id. destruct (pb_keys p !! id) as [k0|] eqn:Hk.
  - apply Hb in Hk as Hk0.
    assert (∀ k id', delete k0 (pb_ids p) !! k = Some id' ↔ pb_ids p !! k = Some id' ∧ id' ≠ id) as Hd.
    { intros k id'. rewrite lookup_delete_Some. split; intros [H1 H2].
      - split; [done|]. intros ->. apply Hb in H2. congruence.
      - split; [|done]. intros ->. congruence. }
    split; [|done]. split; simpl.
    + intros k id'. rewrite Hd, lookup_delete_Some, Hb. naive_solver.
    + intros k id' [? _]%Hd. eauto.
    + done.
  - split; [done|]. repeat (split; [done|]). intros k id'.
    split; [|naive_solver]. intros Hx. split; [done|]. intros ->. apply Hb in Hx. congruence.
Qed.

Lemma pb_step_inv p q : pb_step p q → pb_inv p → pb_inv q.
Proof.
  intros Hs Hp. destruct Hs as [r changes Hpos Hlt|k q id Hi|id].
  - by apply pb_publish_inv.
  - unfold pb_intern in Hi. destruct (pb_ids p !! k) eqn:Hk; [by simplify_eq|].
    unfold u32_checked in Hi. case_decide as Hr; [|done].
    destruct (pb_intern_spec p k Hp) as (q' & id' & Hi' & Hq & _); [left; lia|].
    unfold pb_intern, u32_checked in Hi'. rewrite Hk, decide_True in Hi' by done. by simplify_eq.
  - by apply pb_release_spec.
Qed.

(** What later operations keep of a table: an entry stays or moved at a later
    revision, and an id stays its key's. *)
Record pb_later p q : Prop := {
  pl_entry : ∀ k, pb_values q !! k = pb_values p !! k ∨
    (∀ e, pb_values q !! k = Some e → ∀ r, pb_published_at p = Some r → r < e.2);
  pl_id : ∀ k id, pb_id q k = Some id → pb_id p k = Some id ∨ pb_next p ≤ id;
  pl_next : pb_next p ≤ pb_next q;
  pl_at : ∀ r, pb_published_at p = Some r → ∃ r', pb_published_at q = Some r' ∧ r ≤ r'
}.

Lemma pb_step_later p0 p q : pb_inv p → pb_later p0 p → pb_step p q → pb_later p0 q.
Proof.
  intros Hp Hl Hs. destruct Hl as [H1 H2 H3 H4]. destruct Hs as [r changes Hpos Hlt|k q id Hi|id].
  - unfold pb_publish.
    pose proof (pb_publish_fold r (pb_ids p) changes (pb_values p) []) as Hf.
    destruct (foldl _ _ changes) as [values' moved']. destruct Hf as (_ & Hval & _).
    split; simpl; [|done|done|].
    + intros k. destruct (Hval k) as [->|[_ Hr]]; [done|]. right. intros e He r0 H0.
      rewrite (Hr e He). destruct (H4 r0 H0) as (r1 & Hr1 & ?). specialize (Hlt _ Hr1). lia.
    + intros r0 H0. destruct (H4 r0 H0) as (r1 & Hr1 & ?). specialize (Hlt _ Hr1).
      exists r. split; [done|lia].
  - unfold pb_intern in Hi. destruct (pb_ids p !! k) eqn:Hk; [by simplify_eq|].
    unfold u32_checked in Hi. case_decide as Hr; [|done]. simplify_eq/=.
    split; simpl; [done| |lia|done]. unfold pb_id. simpl. intros k' id'.
    destruct (decide (k' = k)) as [->|Hne].
    + rewrite lookup_insert_eq. intros [= <-]. by right.
    + rewrite lookup_insert_ne by done. apply H2.
  - destruct (pb_release_spec p id Hp) as (_ & Hv & Hat & Hn & Hid).
    split; rewrite ?Hv, ?Hat, ?Hn; [done| |done|done]. intros k id' [Hk _]%Hid. by apply H2.
Qed.

Lemma pb_steps_inv p q : rtc pb_step p q → pb_inv p → pb_inv q.
Proof. induction 1; [done|]. intros. eauto using pb_step_inv. Qed.

Lemma pb_steps_later p0 p q : rtc pb_step p q → pb_inv p → pb_later p0 p → pb_later p0 q.
Proof. induction 1; [done|]. intros. eauto using pb_step_inv, pb_step_later. Qed.

Lemma pb_later_refl p : pb_later p p.
Proof. split; [by left|by left|done|by eauto]. Qed.

(** C33: what a reader records stays meaningful. Between any two points of a
    table's life, whatever was published, interned and released in between, a
    key with the same revision has the same value (revision 0 being no value),
    and an interned id still names the key it was given to. *)
Theorem published_revision_sound p q :
  rtc pb_step pb_default p → rtc pb_step p q →
  (∀ k, pb_revision q k = pb_revision p k → pb_get q k = pb_get p k) ∧
  (∀ k, pb_revision q k = 0 ↔ pb_get q k = None) ∧
  (∀ k1 k2 id, pb_id p k1 = Some id → pb_id q k2 = Some id → k1 = k2).
Proof.
  intros H0 Hpq. pose proof (pb_steps_inv _ _ H0 pb_default_inv) as Hp.
  pose proof (pb_steps_inv _ _ Hpq Hp) as Hq.
  pose proof (pb_steps_later p _ _ Hpq Hp (pb_later_refl p)) as Hl.
  assert (∀ p, pb_inv p → ∀ k, pb_revision p k = 0 ↔ pb_get p k = None) as Hz.
  { intros p' Hp' k. unfold pb_revision, pb_get.
    destruct (pb_values p' !! k) as [[v r]|] eqn:Hk; [|done]. simpl.
    destruct (pi_revision _ Hp' k _ Hk) as [? _]. simpl in *. split; [lia|done]. }
  split; [|split; [by apply Hz|]].
  - intros k Hr. destruct (pl_entry _ _ Hl k) as [Heq|Hlt]; [unfold pb_get; by rewrite Heq|].
    unfold pb_revision in Hr. destruct (pb_values q !! k) as [[v r]|] eqn:Eq.
    + destruct (pb_values p !! k) as [[w r']|] eqn:Ep; simpl in Hr; subst.
      * destruct (pi_revision _ Hp k _ Ep) as (_ & r0 & Hr0 & ?).
        specialize (Hlt _ eq_refl r0 Hr0). simpl in *. lia.
      * destruct (pi_revision _ Hq k _ Eq) as [? _]. simpl in *. lia.
    + destruct (pb_values p !! k) as [[w r']|] eqn:Ep; simpl in Hr; subst;
        [|unfold pb_get; by rewrite Eq, Ep].
      destruct (pi_revision _ Hp k _ Ep) as [? _]. simpl in *. lia.
  - intros k1 k2 id H1 H2. destruct (pl_id _ _ Hl k2 id H2) as [H3|H3].
    + apply (pi_bij _ Hp) in H1, H3. congruence.
    + apply (pi_next _ Hp) in H1. lia.
Qed.

End published.

(** ** The sharded table *)

(** What one [publish] does to a table whose keys are listed once each. *)
Lemma pb_publish_spec {K V : Type} `{Countable K, EqDecision V} (p : Published K V) r changes :
  pb_inv p → NoDup changes.*1 →
  let '(p', moved) := pb_publish p r changes in
  (∀ k, pb_get p' k = value_after (pb_get p) changes k) ∧
  pb_published_at p' = Some r ∧ (∀ k, pb_id p' k = pb_id p k) ∧ pb_next p' = pb_next p ∧
  NoDup moved ∧
  (∀ id, id ∈ moved ↔ ∃ k, pb_id p k = Some id ∧ pb_get p' k ≠ pb_get p k).
Proof.
  intros Hp Hnd. unfold pb_publish.
  pose proof (pb_publish_fold r (pb_ids p) changes (pb_values p) []) as Hf.
  destruct (foldl _ _ changes) as [values' moved']. destruct Hf as (Hv & _ & _ & Hin & Hout).
  split; [exact Hv|]. repeat (split; [done|]). split.
  - eapply increasing_NoDup; [apply nat_cmp_order|]. apply sort_dedup_increasing, nat_cmp_order.
  - intros id. unfold sort_ids. rewrite elem_of_sort_dedup. unfold pb_get, pb_id. simpl. split.
    + intros [[]%elem_of_nil|(k & _ & Hk & Hd)]%Hout. exists k. split; [done|by apply Hd].
    + intros (k & Hk & Hd). apply (Hin k id Hk). congruence.
Qed.

Section sharded.
Context {K V : Type} `{Countable K, EqDecision V} (fx_hash : K → Z).
Implicit Types (t : Sharded K V) (p : Published K V) (k : K) (id r : nat).

Record sh_inv t : Prop := {
  si_len : length t = derived_shards;
  si_shard : ∀ i p, t !! i = Some p → pb_inv p ∧ (Z.of_nat (pb_next p) ≤ 2 ^ 28)%Z ∧
    ∀ k id, pb_id p k = Some id → shard_of fx_hash k = i;
  si_at : ∀ i j p q, t !! i = Some p → t !! j = Some q →
    pb_published_at p = pb_published_at q
}.

(** The table's answers, whatever shard holds the key. *)
Definition sh_get t k : option V := p ← t !! shard_of fx_hash k; pb_get p k.
Definition sh_id t k : option nat :=
  p ← t !! shard_of fx_hash k; id ← pb_id p k; sharded_id (shard_of fx_hash k) id.
Definition sh_at t : option nat := p ← t !! 0; pb_published_at p.

Lemma shard_of_lt k : shard_of fx_hash k < derived_shards.
Proof. apply Nat.mod_upper_bound. done. Qed.

Lemma sharded_id_spec shard local :
  shard < derived_shards → (Z.of_nat local < 2 ^ 28)%Z →
  sharded_id shard local = Some (local * derived_shards + shard).
Proof.
  unfold derived_shards, sharded_id, u32_checked. intros Hs Hl.
  rewrite decide_True by (unfold derived_shards; lia). simpl.
  by rewrite decide_True by (unfold derived_shards; lia).
Qed.

Lemma sharded_id_inj i j a b id :
  i < derived_shards → j < derived_shards →
  sharded_id i a = Some id → sharded_id j b = Some id → i = j ∧ a = b.
Proof.
  unfold sharded_id, u32_checked. intros Hi Hj H1 H2.
  repeat (case_decide; simpl in *; [|done]). simplify_eq. unfold derived_shards in *. lia.
Qed.

Lemma sh_default_inv : sh_inv sh_default.
Proof.
  split.
  - apply length_replicate.
  - intros i p [-> _]%lookup_replicate_1. split; [apply pb_default_inv|]. split; [done|].
    intros k id. unfold pb_id. simpl. by rewrite lookup_empty.
  - intros i j p q [-> _]%lookup_replicate_1 [-> _]%lookup_replicate_1. done.
Qed.

Lemma sh_part_value (changes : list (K * option V)) i k (value : K → option V) :
  shard_of fx_hash k = i →
  value_after value (sh_part fx_hash changes i) k = value_after value changes k.
Proof.
  intros Hk. unfold value_after, sh_part. generalize (value k).
  induction changes as [|c changes IH]; intros v; [done|]. rewrite filter_cons.
  case_decide as Hc; simpl; [apply IH|]. rewrite decide_False by congruence. apply IH.
Qed.

Lemma sh_part_NoDup (changes : list (K * option V)) i : NoDup changes.*1 → NoDup (sh_part fx_hash changes i).*1.
Proof.
  intros Hnd. eapply sublist_NoDup; [exact Hnd|]. apply fmap_sublist, sublist_filter.
Qed.

(** Every shard publishes its part. *)
Lemma sh_publish_fold t r changes :
  sh_inv t → NoDup changes.*1 →
  ∃ t' moved, foldM (sh_publish_shard fx_hash r changes) (t, []) (seq 0 derived_shards) =
      Some (t', moved) ∧ length t' = derived_shards ∧
    (∀ i p, t !! i = Some p → t' !! i = Some (pb_publish p r (sh_part fx_hash changes i)).1) ∧
    NoDup moved ∧
    (∀ id, id ∈ moved ↔ ∃ i p local, t !! i = Some p ∧
      local ∈ (pb_publish p r (sh_part fx_hash changes i)).2 ∧ sharded_id i local = Some id).
Proof.
  intros Ht Hnd.
  destruct (foldM_spec (λ done '(t', moved), length t' = derived_shards ∧
      (∀ i p, t !! i = Some p → t' !! i =
        Some (if decide (i ∈ done) then (pb_publish p r (sh_part fx_hash changes i)).1 else p)) ∧
      NoDup moved ∧
      (∀ id, id ∈ moved ↔ ∃ i p local, i ∈ done ∧ t !! i = Some p ∧
        local ∈ (pb_publish p r (sh_part fx_hash changes i)).2 ∧ sharded_id i local = Some id))
    (sh_publish_shard fx_hash r changes) (seq 0 derived_shards) (t, []))
    as ([t' moved] & Hf & Hlen & Hsh & Hndm & Hmem).
  - split; [apply Ht|]. split; [done|]. split; [constructor|]. intros id.
    split; [by intros ?%elem_of_nil|]. by intros (? & ? & ? & ?%elem_of_nil & _).
  - intros done [t1 moved1] i rest Heq (Hlen & Hsh & Hndm & Hmem).
    assert (i ∈ seq 0 derived_shards) as [_ Hi]%elem_of_seq by (rewrite Heq; set_solver).
    simpl in Hi.
    assert (i ∉ done) as Hnin.
    { pose proof (NoDup_seq 0 derived_shards) as Hs. rewrite Heq in Hs.
      apply NoDup_app in Hs as (_ & Hs & _). intros Hx. apply (Hs i Hx). by left. }
    destruct (lookup_lt_is_Some_2 t i) as [p Hp]; [by rewrite (si_len _ Ht)|].
    destruct (si_shard _ Ht i p Hp) as (Hpi & Hnext & Hkeys).
    pose proof (Hsh i p Hp) as Hp1. rewrite decide_False in Hp1 by done.
    unfold sh_publish_shard. cbv beta iota. rewrite Hp1. cbn [mbind option_bind].
    pose proof (pb_publish_spec p r (sh_part fx_hash changes i) Hpi (sh_part_NoDup _ _ Hnd)) as Hpub.
    destruct (pb_publish p r (sh_part fx_hash changes i)) as [p' local] eqn:Epub.
    destruct Hpub as (_ & _ & _ & _ & Hndl & Hl).
    rewrite vec_set_spec by lia. cbn [mbind option_bind].
    assert (mapM (sharded_id i) local = Some ((λ l, l * derived_shards + i) <$> local)) as ->.
    { apply mapM_Some, Forall2_fmap_r, Forall_Forall2_diag, Forall_forall. intros l Hin.
      apply sharded_id_spec; [done|]. apply Hl in Hin as (k & Hk & _).
      apply (pi_next _ Hpi) in Hk. lia. }
    cbn [mbind option_bind]. eexists. split; [reflexivity|]. simpl.
    assert (∀ l, l ∈ local → sharded_id i l = Some (l * derived_shards + i)) as Hlid.
    { intros l Hin. apply sharded_id_spec; [done|]. apply Hl in Hin as (k & Hk & _).
      apply (pi_next _ Hpi) in Hk. lia. }
    split; [by rewrite length_insert|]. split; [|split].
    + intros j q Hq. destruct (decide (j = i)) as [->|Hne].
      * rewrite list_lookup_insert_eq by lia. rewrite decide_True by set_solver.
        assert (q = p) as -> by congruence. by rewrite Epub.
      * rewrite list_lookup_insert_ne by done. rewrite (Hsh j q Hq). f_equal.
        destruct (decide (j ∈ done)); [by rewrite decide_True by set_solver|].
        by rewrite decide_False by set_solver.
    + apply NoDup_app. split; [done|]. split.
      * intros id (j & q & l & Hj & Hq & Hlq & Hid)%Hmem (l' & -> & Hl')%list_elem_of_fmap.
        assert (j < derived_shards) as Hjlt
          by (rewrite <- (si_len _ Ht); by eapply lookup_lt_Some).
        by destruct (sharded_id_inj j i l l' _ Hjlt Hi Hid (Hlid l' Hl')) as [-> _].
      * apply NoDup_fmap_2; [|done]. intros a b. unfold derived_shards. lia.
    + intros id. rewrite elem_of_app, Hmem, list_elem_of_fmap. split.
      * intros [(j & q & l & Hj & Hrest)|(l & -> & Hin)].
        -- exists j, q, l. split; [set_solver|done].
        -- exists i, p, l. split; [set_solver|]. split; [done|]. rewrite Epub. auto.
      * intros (j & q & l & Hj & Hq & Hlq & Hid).
        apply elem_of_app in Hj as [Hj| ->%list_elem_of_singleton].
        -- left. exists j, q, l. done.
        -- right. assert (q = p) as -> by congruence. rewrite Epub in Hlq. exists l.
           split; [|done]. rewrite Hlid in Hid by done. congruence.
  - exists t', moved. split; [done|]. split; [done|]. split; [|split; [done|]].
    + intros i p Hp. rewrite (Hsh i p Hp). rewrite decide_True; [done|].
      apply elem_of_seq. split; [lia|]. rewrite <- (si_len _ Ht). by eapply lookup_lt_Some.
    + intros id. rewrite Hmem. split; [intros (i & p & l & _ & ?); eauto|].
      intros (i & p & l & Hp & ?). exists i, p, l. split; [|done].
      apply elem_of_seq. split; [lia|]. rewrite <- (si_len _ Ht). by eapply lookup_lt_Some.
Qed.

Lemma sh_id_Some t k id :
  sh_inv t → sh_id t k = Some id ↔ ∃ p local, t !! shard_of fx_hash k = Some p ∧
    pb_id p k = Some local ∧ sharded_id (shard_of fx_hash k) local = Some id.
Proof.
  intros Ht. unfold sh_id. destruct (t !! shard_of fx_hash k) as [p|]; simpl.
  - destruct (pb_id p k) as [local|] eqn:Hk; simpl.
    + split; [eauto|]. intros (p' & l & [= <-] & ? & ?). congruence.
    + split; [done|]. intros (p' & l & [= <-] & ? & ?). congruence.
  - split; [done|]. by intros (p' & l & ? & _).
Qed.

(** A read answers the key's value, interning the key where it must. *)
Lemma sh_read_spec t k r :
  sh_inv t →
  (∀ p, t !! shard_of fx_hash k = Some p → (Z.of_nat (pb_next p) < 2 ^ 28)%Z) →
  ∃ t' rd, sh_read fx_hash t k r = Some (t', rd) ∧ sh_inv t' ∧
    (∀ k, sh_get t' k = sh_get t k) ∧ sh_id t' k = Some (read_id rd) ∧
    read_value rd = sh_get t k ∧ read_published_now rd = bool_decide (sh_at t = Some r) ∧
    (∀ id, sh_id t k = Some id → read_id rd = id).
Proof.
  intros Ht Hroom. pose proof (shard_of_lt k) as Hlt. pose proof (si_len _ Ht) as Hlen.
  destruct (lookup_lt_is_Some_2 t (shard_of fx_hash k)) as [p Hp]; [by rewrite Hlen|].
  destruct (lookup_lt_is_Some_2 t 0) as [p0 Hp0]; [rewrite Hlen; unfold derived_shards; lia|].
  destruct (si_shard _ Ht _ p Hp) as (Hpi & Hn & Hkeys).
  assert (sh_at t = pb_published_at p) as Hat.
  { unfold sh_at. rewrite Hp0. simpl. by eapply (si_at _ Ht). }
  unfold sh_read. rewrite Hp. cbn [mbind option_bind]. destruct (pb_id p k) as [id|] eqn:Hid.
  - rewrite sharded_id_spec by (exact Hlt || (apply (pi_next _ Hpi) in Hid; lia)).
    cbn [mbind option_bind]. eexists _, _. split; [done|]. split; [done|]. split; [done|].
    assert (sh_id t k = Some (id * derived_shards + shard_of fx_hash k)) as Hsid.
    { apply sh_id_Some; [done|]. exists p, id. split; [done|]. split; [done|].
      apply sharded_id_spec; [exact Hlt|]. apply (pi_next _ Hpi) in Hid. lia. }
    cbn [read_id read_value read_published_now]. split; [done|]. split; [unfold sh_get; by rewrite Hp|]. split; [by rewrite Hat|].
    intros id'. rewrite Hsid. by intros [= <-].
  - specialize (Hroom p Hp).
    destruct (pb_intern_spec p k Hpi) as (q & id & Hin & Hq & Hqk & Hv & Hqat & Hother & Hcase);
      [left; lia|].
    destruct Hcase as [[? _]|(_ & Hidn & Hqn)]; [congruence|].
    rewrite Hin. cbn [mbind option_bind]. rewrite sharded_id_spec by (exact Hlt || (subst id; exact Hroom)).
    cbn [mbind option_bind]. rewrite vec_set_spec by lia. cbn [mbind option_bind].
    eexists _, _. split; [reflexivity|]. cbn [read_id read_value read_published_now].
    assert (∀ i p', <[shard_of fx_hash k := q]> t !! i = Some p' →
      (i = shard_of fx_hash k ∧ p' = q) ∨ t !! i = Some p') as Hcases.
    { intros i p'. destruct (decide (i = shard_of fx_hash k)) as [->|Hne].
      - rewrite list_lookup_insert_eq by lia. intros [= <-]. by left.
      - rewrite list_lookup_insert_ne by done. by right. }
    assert (sh_inv (<[shard_of fx_hash k := q]> t)) as Ht'.
    { split.
      - by rewrite length_insert.
      - intros i p' [[-> ->]|Hp']%Hcases; [|by apply (si_shard _ Ht)].
        split; [done|]. split; [lia|]. intros k' id'. destruct (decide (k' = k)) as [->|Hne]; [done|].
        rewrite Hother by done. apply Hkeys.
      - intros i j p1 p2 [[-> ->]|H1]%Hcases [[-> ->]|H2]%Hcases; rewrite ?Hqat;
          [done| | |]; by eapply (si_at _ Ht). }
    split; [done|]. split.
    { intros k'. unfold sh_get. destruct (decide (shard_of fx_hash k' = shard_of fx_hash k)) as [->|Hne].
      - rewrite list_lookup_insert_eq, Hp by lia. simpl. unfold pb_get. by rewrite Hv.
      - by rewrite list_lookup_insert_ne by done. }
    split; [|split; [|split]].
    + apply sh_id_Some; [done|]. exists q, id. rewrite list_lookup_insert_eq by lia.
      split; [done|]. split; [done|]. apply sharded_id_spec; [exact Hlt|]. subst id. exact Hroom.
    + unfold sh_get, pb_get. rewrite Hp. simpl. by rewrite Hv.
    + by rewrite Hqat, Hat.
    + intros id' (p' & local & Hp' & Hl & _)%sh_id_Some; [|done].
      assert (p' = p) as -> by congruence. congruence.
Qed.

(** *** The table a [publish] leaves *)
Section published_table.
Context t t' r (changes : list (K * option V)) (Ht : sh_inv t) (Hnd : NoDup changes.*1).
Context (Hlen' : length t' = derived_shards).
Context (Hsh : ∀ i p, t !! i = Some p →
  t' !! i = Some (pb_publish p r (sh_part fx_hash changes i)).1).

Lemma published_shard i p : t !! i = Some p →
  let '(p', local) := pb_publish p r (sh_part fx_hash changes i) in
  t' !! i = Some p' ∧
  (∀ k, pb_get p' k = value_after (pb_get p) (sh_part fx_hash changes i) k) ∧
  pb_published_at p' = Some r ∧ (∀ k, pb_id p' k = pb_id p k) ∧ pb_next p' = pb_next p ∧
  (∀ id, id ∈ local ↔ ∃ k, pb_id p k = Some id ∧ pb_get p' k ≠ pb_get p k).
Proof.
  intros Hi. destruct (si_shard _ Ht i p Hi) as (Hpi & _).
  pose proof (pb_publish_spec p r (sh_part fx_hash changes i) Hpi (sh_part_NoDup _ _ Hnd)) as Hx.
  pose proof (Hsh i p Hi) as Hi'. destruct (pb_publish p r _) as [p' local].
  destruct Hx as (? & ? & ? & ? & _ & ?). done.
Qed.

Lemma published_back i p' : t' !! i = Some p' →
  ∃ p, t !! i = Some p ∧ p' = (pb_publish p r (sh_part fx_hash changes i)).1.
Proof.
  intros Hi'. destruct (lookup_lt_is_Some_2 t i) as [p Hi].
  { rewrite (si_len _ Ht), <- Hlen'. by eapply lookup_lt_Some. }
  exists p. split; [done|]. rewrite (Hsh i p Hi) in Hi'. congruence.
Qed.

Lemma key_shard k : ∃ p, t !! shard_of fx_hash k = Some p.
Proof. apply lookup_lt_is_Some_2. rewrite (si_len _ Ht). apply shard_of_lt. Qed.

Lemma first_shard : ∃ p, t !! 0 = Some p.
Proof. apply lookup_lt_is_Some_2. rewrite (si_len _ Ht). unfold derived_shards. lia. Qed.

Lemma published_get k : sh_get t' k = value_after (sh_get t) changes k.
Proof.
  destruct (key_shard k) as [p Hi]. pose proof (published_shard _ p Hi) as Hx.
  destruct (pb_publish p r _) as [p' local]. destruct Hx as (Hi' & Hv & _).
  unfold sh_get at 1. rewrite Hi'. simpl. rewrite Hv, sh_part_value by done.
  unfold value_after. f_equal. unfold sh_get. by rewrite Hi.
Qed.

Lemma published_id k : sh_id t' k = sh_id t k.
Proof.
  destruct (key_shard k) as [p Hi]. pose proof (published_shard _ p Hi) as Hx.
  destruct (pb_publish p r _) as [p' local]. destruct Hx as (Hi' & _ & _ & Hid & _).
  unfold sh_id. rewrite Hi, Hi'. simpl. by rewrite Hid.
Qed.

Lemma published_now : sh_at t' = Some r.
Proof.
  destruct first_shard as [q Hq]. pose proof (published_shard 0 q Hq) as Hx.
  destruct (pb_publish q r _) as [p' local]. destruct Hx as (Hi' & _ & Hx & _).
  unfold sh_at. by rewrite Hi'.
Qed.

Lemma published_inv : 0 < r → (∀ r0, sh_at t = Some r0 → r0 < r) → sh_inv t'.
Proof.
  intros Hpos Hlater. split; [done| |].
  - intros i p' (p & Hi & ->)%published_back. destruct (si_shard _ Ht i p Hi) as (Hpi & Hn & Hk).
    pose proof (published_shard i p Hi) as Hx.
    assert (pb_inv (pb_publish p r (sh_part fx_hash changes i)).1) as Hinv.
    { apply pb_publish_inv; [done|done|]. intros r0 H0. apply Hlater.
      destruct first_shard as [q Hq]. unfold sh_at. rewrite Hq. simpl.
      rewrite (si_at _ Ht 0 i q p Hq Hi). done. }
    destruct (pb_publish p r _) as [p' local]. destruct Hx as (_ & _ & _ & Hid & Hnx & _).
    cbn [fst] in *. split; [done|]. rewrite Hnx. split; [done|]. intros k id. rewrite Hid. apply Hk.
  - intros i j p1 p2 (q1 & Hi & ->)%published_back (q2 & Hj & ->)%published_back.
    pose proof (published_shard i q1 Hi) as H1. pose proof (published_shard j q2 Hj) as H2.
    destruct (pb_publish q1 r _), (pb_publish q2 r _).
    destruct H1 as (_ & _ & H1 & _), H2 as (_ & _ & H2 & _). simpl. congruence.
Qed.

Lemma published_moved id :
  (∃ i p local, t !! i = Some p ∧ local ∈ (pb_publish p r (sh_part fx_hash changes i)).2 ∧
    sharded_id i local = Some id) ↔
  ∃ k, sh_id t k = Some id ∧ sh_get t' k ≠ sh_get t k.
Proof.
  split.
  - intros (i & p & local & Hi & Hl & Hid). pose proof (published_shard i p Hi) as Hx.
    destruct (pb_publish p r _) as [p' locals]. destruct Hx as (Hi' & _ & _ & _ & _ & Hx).
    simpl in Hl. apply Hx in Hl as (k & Hk & Hd). exists k.
    destruct (si_shard _ Ht i p Hi) as (_ & _ & Hkeys). pose proof (Hkeys k local Hk) as Hs.
    rewrite <- Hs in Hi, Hi', Hid. split; [apply sh_id_Some; eauto|].
    unfold sh_get. by rewrite Hi, Hi'.
  - intros (k & (p & local & Hi & Hk & Hid)%sh_id_Some & Hd); [|done].
    exists (shard_of fx_hash k), p, local. split; [done|]. split; [|done].
    pose proof (published_shard _ p Hi) as Hx. destruct (pb_publish p r _) as [p' locals].
    destruct Hx as (Hi' & _ & _ & _ & _ & Hx). simpl. apply Hx. exists k. split; [done|].
    unfold sh_get in Hd. by rewrite Hi, Hi' in Hd.
Qed.

Lemma published_room k :
  (∀ p, t !! shard_of fx_hash k = Some p → (Z.of_nat (pb_next p) < 2 ^ 28)%Z) →
  ∀ p, t' !! shard_of fx_hash k = Some p → (Z.of_nat (pb_next p) < 2 ^ 28)%Z.
Proof.
  intros Hroom p' (p & Hi & ->)%published_back. specialize (Hroom p Hi).
  pose proof (published_shard _ p Hi) as Hx. destruct (pb_publish p r _).
  destruct Hx as (_ & _ & _ & _ & Hx & _). simpl. by rewrite Hx.
Qed.

End published_table.

(** Two keys have two ids. *)
Lemma sh_id_inj t k1 k2 id :
  sh_inv t → sh_id t k1 = Some id → sh_id t k2 = Some id → k1 = k2.
Proof.
  intros Ht (p1 & l1 & Hi1 & Hk1 & Hid1)%sh_id_Some (p2 & l2 & Hi2 & Hk2 & Hid2)%sh_id_Some;
    [|done..].
  destruct (sharded_id_inj _ _ _ _ _ (shard_of_lt k1) (shard_of_lt k2) Hid1 Hid2) as [Hs ->].
  rewrite Hs in Hi1. assert (p1 = p2) as -> by congruence.
  destruct (si_shard _ Ht _ p2 Hi2) as (Hpi & _). apply (pi_bij _ Hpi) in Hk1, Hk2. congruence.
Qed.

(** One build of a derived table. Publishing the changes of a solver
    (each key once) in a revision later than the last leaves every key its
    last value, answers the interned ids of exactly the keys whose value
    differs, sorted and each once, and makes every later read of the build see
    the published value under the key's own id. *)
Theorem derived_publish_exact t r changes :
  sh_inv t → 0 < r → (∀ r0, sh_at t = Some r0 → r0 < r) → NoDup changes.*1 →
  ∃ t' moved, sh_publish fx_hash t r changes = Some (t', moved) ∧ sh_inv t' ∧
    Sorted (cmp_le Nat.compare) moved ∧ NoDup moved ∧
    (∀ k, sh_get t' k = value_after (sh_get t) changes k) ∧
    (∀ id, id ∈ moved ↔ ∃ k, sh_id t k = Some id ∧ sh_get t' k ≠ sh_get t k) ∧
    (∀ k1 k2 id, sh_id t k1 = Some id → sh_id t k2 = Some id → k1 = k2) ∧
    (∀ k, (∀ p, t !! shard_of fx_hash k = Some p → (Z.of_nat (pb_next p) < 2 ^ 28)%Z) →
      ∃ t'' rd, sh_read fx_hash t' k r = Some (t'', rd) ∧ sh_inv t'' ∧
        read_published_now rd = true ∧ read_value rd = value_after (sh_get t) changes k ∧
        (∀ id, sh_id t k = Some id → read_id rd = id)).
Proof.
  intros Ht Hpos Hlater Hnd.
  destruct (sh_publish_fold t r changes Ht Hnd) as (t' & moved & Hf & Hlen' & Hsh & Hndm & Hmem).
  unfold sh_publish. rewrite Hf. cbn [mbind option_bind]. exists t', (sort_ids moved).
  pose proof (published_inv t t' r changes Ht Hnd Hlen' Hsh Hpos Hlater) as Ht'.
  split; [done|]. split; [done|]. split; [|split; [|split; [|split; [|split]]]].
  - apply Sorted_merge_sort, cmp_le_total, nat_cmp_order.
  - unfold sort_ids. by rewrite merge_sort_Permutation.
  - intros k. by apply (published_get t t' r changes).
  - intros id. unfold sort_ids. rewrite merge_sort_Permutation, Hmem. by apply published_moved.
  - intros k1 k2 id. by apply sh_id_inj.
  - intros k Hroom.
    destruct (sh_read_spec t' k r Ht') as (t'' & rd & Hr & Ht'' & _ & _ & Hv & Hnow & Hid).
    { eapply published_room; [exact Ht|exact Hnd|exact Hlen'|exact Hsh|exact Hroom]. }
    exists t'', rd. split; [done|]. split; [done|]. split; [|split].
    + rewrite Hnow. apply bool_decide_eq_true. by apply (published_now t t' r changes).
    + rewrite Hv. by apply (published_get t t' r changes).
    + intros id Hk. apply Hid. by rewrite (published_id t t' r changes Ht Hnd Hsh).
Qed.

End sharded.

(** ** Witnesses *)

Definition ex_hash (k : nat) : Z := Z.shiftl (Z.of_nat k) 60.

Definition ex_changes : list (nat * option nat) := [(1, Some 10); (17, Some 20); (2, None)].

Lemma published_revision_sound_witness :
  let p := (pb_publish (K := nat) (V := nat) pb_default 1 [(1, Some 10)]).1 in
  let q := (pb_publish p 2 [(1, Some 10); (3, Some 4)]).1 in
  pb_revision q 1 = pb_revision p 1 ∧ pb_get q 1 = pb_get p 1.
Proof.
  intros p q. assert (Hr : pb_revision q 1 = pb_revision p 1) by reflexivity.
  split; [exact Hr|].
  refine (proj1 (published_revision_sound p q _ _) 1 Hr).
  - apply rtc_once. apply step_publish; [lia|discriminate].
  - apply rtc_once. apply step_publish; [lia|]. intros r0 Hr0.
    assert (Some 1 = Some r0) as [= <-] by exact Hr0. lia.
Defined.

(** Key 1 is read before its first publication, so its id moves. *)
Lemma derived_publish_exact_witness :
  ∃ t rd t' moved,
    sh_read ex_hash (sh_default (K := nat) (V := nat)) 1 0 = Some (t, rd) ∧
    sh_publish ex_hash t 1 ex_changes = Some (t', moved) ∧
    moved = [1] ∧ sh_get ex_hash t' 17 = Some 20.
Proof.
  destruct (sh_read_spec (K := nat) (V := nat) ex_hash sh_default 1 0 (sh_default_inv ex_hash))
    as (t & rd & Hr & Ht & _).
  { intros p Hp. vm_compute in Hp. injection Hp as <-. reflexivity. }
  destruct (derived_publish_exact (K := nat) (V := nat) ex_hash t 1 ex_changes Ht)
    as (t' & moved & Hp & _ & _ & _ & Hg & Hm & _).
  - lia.
  - intros r0 Hr0. vm_compute in Hr. injection Hr as <- _. vm_compute in Hr0. discriminate Hr0.
  - vm_compute. repeat constructor; set_solver.
  - exists t, rd, t', moved. split; [exact Hr|]. split; [exact Hp|].
    vm_compute in Hr. injection Hr as <- _. vm_compute in Hp. injection Hp as <- <-.
    split; reflexivity.
Defined.
