(* ===== verification/MemoGraph.v ===== *)
(** * The memo store's read graph

    Model of the read graph of [rust/crates/solid-reactive-ir/src/base/memo.rs]
    (lines 428-821): every recorded query's reads and readers, in
    [TABLE_SHARDS] shards, with the reverse edges applied in batches. A
    [QueryId] ([u32]) and a fingerprint ([u64]) are [N]. [each_shard] runs its
    work on every shard and returns the results in shard order, on one thread
    or several: here a map. An array indexed by a shard number is always in
    range (the number is a remainder), so [alter] writes it. *)
From S2P Require Import Prelude Order.

(** [QueryId]. *)
Abbreviation QueryId := N (only parsing).

Definition table_shards : N := 16.

(** [INPUT_READ]: [u64::MAX]. *)
Definition input_read : N := (2 ^ 64 - 1)%N.

Inductive NodeKind (I : Type) :=
  | Input (input : I)
  | Memo (table : N).
Arguments Input {I} _.
Arguments Memo {I} _.

Record Node (I : Type) := mk_node {
  nd_kind : NodeKind I;
  nd_reads : list (QueryId * N);
  nd_readers : list QueryId
}.
Arguments mk_node {I} _ _ _.
Arguments nd_kind {I} _.
Arguments nd_reads {I} _.
Arguments nd_readers {I} _.

Record GraphShard (I : Type) := mk_graph_shard {
  gs_nodes : gmap QueryId (Node I);
  gs_unread : list QueryId;
  gs_pending : list (QueryId * list (QueryId * N))
}.
Arguments mk_graph_shard {I} _ _ _.
Arguments gs_nodes {I} _.
Arguments gs_unread {I} _.
Arguments gs_pending {I} _.

(** [Graph]: its shards, in order. *)
Abbreviation Graph I := (list (GraphShard I)) (only parsing).

(** Reverse edges split by the shard of the node read: lost and gained. *)
Abbreviation Edges := (list (list N * list N)) (only parsing).

(** ** Packed edges *)

(** [edge], [edge_read], [edge_reader]. *)
Definition edge (read reader : QueryId) : N := N.lor (N.shiftl read 32) reader.

Definition edge_read (edge : N) : QueryId := N.shiftr edge 32.

(** [edge as u32]. *)
Definition edge_reader (edge : N) : QueryId := N.land edge (2 ^ 32 - 1).

(** The loop of [merge_sorted]. *)
Fixpoint merge_loop (readers : list QueryId) : list QueryId → list QueryId :=
  fix aux gained :=
    match readers, gained with
    | [], _ => gained
    | _, [] => readers
    | a :: readers', b :: gained' =>
        match N.compare a b with
        | Lt => a :: merge_loop readers' gained
        | Gt => b :: aux gained'
        | Eq => a :: merge_loop readers' gained'
        end
    end.

(** [merge_sorted]. *)
Definition merge_sorted (readers gained : list QueryId) : list QueryId :=
  match gained with
  | [] => readers
  | first :: _ =>
      match last readers with
      | None => readers ++ gained
      | Some last => if (last <? first)%N then readers ++ gained else merge_loop readers gained
      end
  end.

(** [sort_unstable] then [dedup] of packed edges or ids. *)
Definition sort_dedup (l : list N) : list N := dedup (merge_sort (cmp_le N.compare) l).

Definition graph_shard (query : QueryId) : nat := N.to_nat (query mod table_shards).

Section graph.
Context {I : Type}.
Implicit Types (s : GraphShard I) (g : Graph I) (n : Node I) (query : QueryId).

Definition shard_default : GraphShard I := mk_graph_shard ∅ [] [].

Definition graph_default : Graph I := replicate (N.to_nat table_shards) shard_default.

(** [Node::new]. *)
Definition node_new (kind : NodeKind I) : Node I := mk_node kind [] [].

(** [Graph::node]. *)
Definition gr_node g query : option (Node I) := s ← g !! graph_shard query; gs_nodes s !! query.

(** [Graph::remove], with the node removed. *)
Definition gr_remove g query : Graph I * option (Node I) :=
  (alter (λ s, mk_graph_shard (delete query (gs_nodes s)) (gs_unread s) (gs_pending s))
     (graph_shard query) g, gr_node g query).

(** [Graph::nodes]. *)
Definition gr_nodes g : list (Node I) := g ≫= λ s, (map_to_list (gs_nodes s)).*2.

(** [GraphShard::record]. *)
Definition gs_record s query (reads : list (QueryId * N)) : GraphShard I :=
  let previous := match gs_nodes s !! query with Some node => nd_reads node | None => [] end in
  mk_graph_shard
    (alter (λ node, mk_node (nd_kind node) reads (nd_readers node)) query (gs_nodes s))
    (gs_unread s) (gs_pending s ++ [(query, previous)]).

(** [GraphShard::pending_edges]. *)
Definition push_lost query (edges : Edges) (read : QueryId * N) : Edges :=
  alter (λ e, (e.1 ++ [edge read.1 query], e.2)) (graph_shard read.1) edges.

Definition push_gained query (edges : Edges) (read : QueryId * N) : Edges :=
  alter (λ e, (e.1, e.2 ++ [edge read.1 query])) (graph_shard read.1) edges.

Definition no_edges : Edges := replicate (N.to_nat table_shards) ([], []).

Definition gs_pending_edges s : GraphShard I * Edges :=
  let edges := foldl (λ edges p, foldl (push_lost p.1) edges p.2) no_edges (gs_pending s) in
  let readers := sort_dedup (gs_pending s).*1 in
  (mk_graph_shard (gs_nodes s) (gs_unread s) [],
   foldl (λ edges query, match gs_nodes s !! query with
                         | Some node => foldl (push_gained query) edges (nd_reads node)
                         | None => edges
                         end) edges readers).

(** The readers of the leading edges of [read], and the edges after them. *)
Fixpoint take_readers (read : QueryId) (edges : list N) : list QueryId * list N :=
  match edges with
  | [] => ([], [])
  | packed :: rest =>
      if decide (edge_read packed = read) then
        let '(readers, rest) := take_readers read rest in (edge_reader packed :: readers, rest)
      else ([], edges)
  end.

(** One node of [GraphShard::apply_edges]: [binary_search] in the sorted
    [lost_readers] is membership. *)
Definition gs_apply_node s (read : QueryId) (lost_readers gained_readers : list QueryId)
  : GraphShard I :=
  match gs_nodes s !! read with
  | None => s
  | Some node =>
      let '(readers, unread) :=
        match lost_readers with
        | [] => (nd_readers node, gs_unread s)
        | _ => (filter (λ reader, reader ∉ lost_readers) (nd_readers node), gs_unread s ++ [read])
        end in
      mk_graph_shard
        (<[read := mk_node (nd_kind node) (nd_reads node) (merge_sorted readers gained_readers)]>
           (gs_nodes s))
        unread (gs_pending s)
  end.

(** [while l < lost.len() || g < gained.len()]: every turn takes an edge. *)
Fixpoint gs_apply_loop (fuel : nat) (lost gained : list N) s : option (GraphShard I) :=
  match fuel with
  | 0 => match lost, gained with [], [] => Some s | _, _ => None end
  | S fuel =>
      let turn read :=
        let '(lost_readers, lost) := take_readers read lost in
        let '(gained_readers, gained) := take_readers read gained in
        gs_apply_loop fuel lost gained (gs_apply_node s read lost_readers gained_readers) in
      match lost, gained with
      | a :: _, b :: _ => turn (N.min (edge_read a) (edge_read b))
      | a :: _, [] => turn (edge_read a)
      | [], b :: _ => turn (edge_read b)
      | [], [] => Some s
      end
  end.

(** [GraphShard::apply_edges]. *)
Definition gs_apply_edges s (lost gained : list N) : option (GraphShard I) :=
  let lost := sort_dedup lost in
  let gained := sort_dedup gained in
  gs_apply_loop (length lost + length gained) lost gained s.

(** [Graph::apply_edges]. *)
Definition gr_apply_edges g (by_read : Edges) : option (Graph I) :=
  mapM (λ '(s, (lost, gained)), gs_apply_edges s lost gained) (zip g by_read).

(** [Graph::flush]. *)
Definition gr_flush g : option (Graph I) :=
  if forallb (λ s, match gs_pending s with [] => true | _ => false end) g then Some g
  else
    let done := gs_pending_edges <$> g in
    gr_apply_edges done.*1
      (foldl (zip_with (λ (all e : list N * list N), (all.1 ++ e.1, all.2 ++ e.2))) no_edges done.*2).

End graph.

#[global] Arguments graph_shard : simpl never.
#[global] Arguments edge : simpl never.
#[global] Arguments edge_read : simpl never.
#[global] Arguments edge_reader : simpl never.
