(* ===== verification/MemoGraphSpec.v ===== *)
(** * The read graph's reverse edges are exact

    Then: flushing the read graph's pending edges. *)
From S2P Require Import Prelude Order MemoGraph.

(** ** Sorted ids and packed edges *)

Abbreviation increasing l := (StronglySorted N.lt l) (only parsing).

Lemma sort_dedup_spec (l : list N) : increasing (sort_dedup l) ∧ ∀ x, x ∈ sort_dedup l ↔ x ∈ l.
Proof.
  unfold sort_dedup. split; [|intros; apply elem_of_sort_dedup].
  pose proof (sort_dedup_increasing _ N_cmp_order l) as Hs.
  induction Hs as [|a l' Hs IH Ha]; constructor; [done|].
  eapply Forall_impl; [exact Ha|]. intros x. apply N.compare_lt_iff.
Qed.

Lemma increasing_cons x (l : list N) : increasing (x :: l) ↔ increasing l ∧ ∀ y, y ∈ l → (x < y)%N.
Proof.
  split.
  - intros Hs. inversion Hs as [|? ? Hl Hf]; subst. split; [done|]. by apply Forall_forall.
  - intros [Hl Hf]. constructor; [done|]. by apply Forall_forall.
Qed.

Lemma increasing_app (l1 l2 : list N) :
  increasing (l1 ++ l2) ↔ increasing l1 ∧ increasing l2 ∧ ∀ x y, x ∈ l1 → y ∈ l2 → (x < y)%N.
Proof.
  induction l1 as [|a l1 IH]; simpl.
  - split; [intros; split; [constructor|split; [done|by intros ? ? ?%elem_of_nil]]|by intros (_ & ? & _)].
  - rewrite !increasing_cons, IH. split.
    + intros ((H1 & H2 & H3) & H4). repeat split; try done.
      * intros y Hy. apply H4, elem_of_app. by left.
      * intros x y [->|Hx]%elem_of_cons Hy; [apply H4, elem_of_app; by right|by apply H3].
    + intros ((H1 & H2) & H3 & H4). split; [split; [done|split; [done|]]|].
      * intros x y Hx. apply H4. by right.
      * intros y [Hy|Hy]%elem_of_app; [by apply H2|]. apply H4; [by left|done].
Qed.

Lemma increasing_filter (P : N → Prop) `{!∀ x, Decision (P x)} (l : list N) :
  increasing l → increasing (filter P l).
Proof.
  induction 1 as [|a l Hl IH Ha]; [constructor|]. rewrite filter_cons.
  case_decide; [|done]. apply increasing_cons. split; [done|].
  intros y [_ Hy]%list_elem_of_filter. rewrite Forall_forall in Ha. by apply Ha.
Qed.

Lemma filter_all {A} (P : A → Prop) `{!∀ x, Decision (P x)} (l : list A) :
  (∀ x, x ∈ l → P x) → filter P l = l.
Proof.
  induction l as [|x l IH]; intros Hl; [done|].
  rewrite filter_cons_True by (apply Hl; by left). f_equal. apply IH. intros; apply Hl. by right.
Qed.

Lemma merge_loop_nil_l l : merge_loop [] l = l.
Proof. by destruct l. Qed.

Lemma merge_loop_cons a readers b gained :
  merge_loop (a :: readers) (b :: gained) =
  match N.compare a b with
  | Lt => a :: merge_loop readers (b :: gained)
  | Gt => b :: merge_loop (a :: readers) gained
  | Eq => a :: merge_loop readers gained
  end.
Proof. done. Qed.

Lemma merge_loop_spec readers : ∀ gained, increasing readers → increasing gained →
  increasing (merge_loop readers gained) ∧
  ∀ x, x ∈ merge_loop readers gained ↔ x ∈ readers ∨ x ∈ gained.
Proof.
  induction readers as [|a readers IH]; intros gained Hr Hg.
  { rewrite merge_loop_nil_l. split; [done|]. set_solver. }
  induction gained as [|b gained IHg]; [split; [done|set_solver]|].
  rewrite merge_loop_cons. pose proof Hr as Hr0. pose proof Hg as Hg0.
  apply increasing_cons in Hr as [Hr Ha]. apply increasing_cons in Hg as [Hg Hb].
  destruct (N.compare_spec a b) as [->|Hlt|Hgt].
  - destruct (IH gained Hr Hg) as [I1 I2]. split; [|set_solver].
    apply increasing_cons. split; [done|]. intros y [Hy|Hy]%I2; auto.
  - destruct (IH (b :: gained) Hr Hg0) as [I1 I2]. split; [|set_solver].
    apply increasing_cons. split; [done|]. intros y [Hy|[->|Hy]%elem_of_cons]%I2; auto.
    etrans; [exact Hlt|auto].
  - destruct (IHg Hg) as [I1 I2]. split; [|set_solver].
    apply increasing_cons. split; [done|]. intros y [[->|Hy]%elem_of_cons|Hy]%I2; auto.
    etrans; [exact Hgt|auto].
Qed.

Lemma merge_sorted_spec readers gained : increasing readers → increasing gained →
  increasing (merge_sorted readers gained) ∧
  ∀ x, x ∈ merge_sorted readers gained ↔ x ∈ readers ∨ x ∈ gained.
Proof.
  intros Hr Hg. unfold merge_sorted. destruct gained as [|b gained]; [split; [done|set_solver]|].
  destruct (last readers) as [l|] eqn:Hl.
  - destruct (l <? b)%N eqn:Hlt; [|by apply merge_loop_spec].
    apply N.ltb_lt in Hlt. split; [|intros; by rewrite elem_of_app].
    apply last_Some in Hl as [init ->]. apply increasing_app. split; [done|]. split; [done|].
    intros x y Hx Hy. apply increasing_cons in Hg as [_ Hb]. apply increasing_app in Hr as (_ & _ & Hr).
    assert (x ≤ l)%N by (apply elem_of_app in Hx as [Hx| ->%list_elem_of_singleton];
      [apply N.lt_le_incl, Hr; [done|by left]|done]).
    apply elem_of_cons in Hy as [->|Hy]; [lia|]. specialize (Hb y Hy). lia.
  - apply last_None in Hl as ->. simpl. split; [done|set_solver].
Qed.

(** An edge is its read and its reader. *)
Lemma edge_read_div e : edge_read e = (e / 4294967296)%N.
Proof. unfold edge_read. by rewrite N.shiftr_div_pow2. Qed.

Lemma edge_reader_mod e : edge_reader e = (e mod 4294967296)%N.
Proof. unfold edge_reader. apply (N.land_ones e 32). Qed.

Lemma edge_add read reader :
  (reader < 4294967296)%N → edge read reader = (read * 4294967296 + reader)%N.
Proof.
  intros Hr. unfold edge.
  assert (N.land (N.shiftl read 32) reader = 0)%N as Hland.
  { apply N.bits_inj. intros i. rewrite N.land_spec, N.bits_0.
    destruct (N.ltb_spec i 32) as [Hi|Hi]; [by rewrite N.shiftl_spec_low|].
    assert (N.testbit reader i = false) as ->; [|apply andb_false_r].
    rewrite <- (N.mod_small reader 4294967296) by done.
    by apply (N.mod_pow2_bits_high reader 32). }
  rewrite <- N.lxor_lor, <- N.add_nocarry_lxor by done. by rewrite N.shiftl_mul_pow2.
Qed.

Lemma edge_spec read reader : (reader < 4294967296)%N →
  edge_read (edge read reader) = read ∧ edge_reader (edge read reader) = reader.
Proof.
  intros Hr. rewrite edge_read_div, edge_reader_mod, edge_add by done. split.
  - rewrite N.div_add_l by done. rewrite N.div_small by done. lia.
  - rewrite N.add_comm, N.Div0.mod_add. by apply N.mod_small.
Qed.

Lemma edge_split e : e = (4294967296 * edge_read e + edge_reader e)%N.
Proof. rewrite edge_read_div, edge_reader_mod. by apply N.div_mod. Qed.

Lemma edge_read_mono a b : (a ≤ b → edge_read a ≤ edge_read b)%N.
Proof. rewrite !edge_read_div. by apply N.Div0.div_le_mono. Qed.

Lemma edge_same_read a b :
  (a < b)%N → edge_read a = edge_read b → (edge_reader a < edge_reader b)%N.
Proof. pose proof (edge_split a). pose proof (edge_split b). lia. Qed.

Lemma edge_inj a b : edge_read a = edge_read b → edge_reader a = edge_reader b → a = b.
Proof. pose proof (edge_split a). pose proof (edge_split b). lia. Qed.

(** [l] holds the edge [read -> reader]. *)
Definition has_edge (l : list N) (read reader : QueryId) : Prop :=
  ∃ e, e ∈ l ∧ edge_read e = read ∧ edge_reader e = reader.

Lemma has_edge_cons a l n r :
  has_edge (a :: l) n r ↔ (edge_read a = n ∧ edge_reader a = r) ∨ has_edge l n r.
Proof. unfold has_edge. set_solver. Qed.

Lemma take_readers_spec read l :
  increasing l → (∀ e, e ∈ l → (read ≤ edge_read e)%N) →
  let '(readers, rest) := take_readers read l in
  increasing readers ∧ increasing rest ∧ length rest ≤ length l ∧
  (∀ e, head l = Some e → edge_read e = read → length rest < length l) ∧
  (∀ r, r ∈ readers ↔ has_edge l read r) ∧
  (∀ e, e ∈ rest → (read < edge_read e)%N) ∧
  (∀ n r, n ≠ read → has_edge rest n r ↔ has_edge l n r).
Proof.
  induction l as [|a l IH]; intros Hs Hge; cbn [take_readers length].
  { split; [constructor|]. split; [constructor|]. split; [done|]. split; [done|]. split.
    - intros r. split; [by intros ?%elem_of_nil|by intros (e & []%elem_of_nil & _)].
    - split; [by intros e ?%elem_of_nil|done]. }
  apply increasing_cons in Hs as [Hs Ha]. case_decide as Hread.
  - assert (∀ e, e ∈ l → (read ≤ edge_read e)%N) as Hge' by (intros; apply Hge; by right).
    specialize (IH Hs Hge'). destruct (take_readers read l) as [readers rest].
    destruct IH as (I1 & I2 & I3 & I4 & I5 & I6 & I7).
    split; [|split; [done|split; [lia|split; [intros; lia|split; [|split; [done|]]]]]].
    + apply increasing_cons. split; [done|]. intros r (e & He & Hr & <-)%I5.
      apply edge_same_read; [by apply Ha|congruence].
    + intros r. rewrite elem_of_cons, I5, has_edge_cons. naive_solver.
    + intros n r Hn. rewrite I7, has_edge_cons by done. naive_solver.
  - assert (∀ e, e ∈ a :: l → (read < edge_read e)%N) as Hlt.
    { intros e He. assert (edge_read a ≤ edge_read e)%N as Hae.
      { apply edge_read_mono. apply elem_of_cons in He as [->|He]; [done|]. specialize (Ha e He). lia. }
      specialize (Hge a ltac:(by left)). lia. }
    split; [constructor|]. split; [by apply increasing_cons|]. split; [done|].
    split; [by intros e [= ->]|]. split; [|split; [exact Hlt|done]].
    intros r. split; [by intros ?%elem_of_nil|]. intros (e & He & Hr & _).
    specialize (Hlt e He). lia.
Qed.

(** ** Applying edges to one shard *)
Section shard.
Context {I : Type}.
Implicit Types (s : GraphShard I) (g : Graph I) (n : Node I) (q r : QueryId).

(** What [apply_edges] leaves of a node. *)
Definition relinked (lost gained : list N) q (n n' : Node I) : Prop :=
  nd_kind n' = nd_kind n ∧ nd_reads n' = nd_reads n ∧
  (increasing (nd_readers n) → increasing (nd_readers n') ∧
    ∀ r, r ∈ nd_readers n' ↔ (r ∈ nd_readers n ∧ ¬ has_edge lost q r) ∨ has_edge gained q r).

Definition relinked_nodes (lost gained : list N) (nodes nodes' : gmap QueryId (Node I)) : Prop :=
  ∀ q, match nodes !! q, nodes' !! q with
       | Some n, Some n' => relinked lost gained q n n'
       | None, None => True
       | _, _ => False
       end.

Lemma relinked_none (lost gained : list N) q n :
  (∀ r, ¬ has_edge lost q r) → (∀ r, ¬ has_edge gained q r) → relinked lost gained q n n.
Proof. intros Hl Hg. split; [done|]. split; [done|]. intros Hs. split; [done|]. naive_solver. Qed.

Lemma gs_apply_node_spec s q (lost gained : list N) lost_readers gained_readers :
  increasing gained_readers →
  (∀ r, r ∈ lost_readers ↔ has_edge lost q r) → (∀ r, r ∈ gained_readers ↔ has_edge gained q r) →
  let s' := gs_apply_node s q lost_readers gained_readers in
  gs_pending s' = gs_pending s ∧
  (∀ q', q' ≠ q → gs_nodes s' !! q' = gs_nodes s !! q') ∧
  match gs_nodes s !! q, gs_nodes s' !! q with
  | Some n, Some n' => relinked lost gained q n n'
  | None, None => True
  | _, _ => False
  end.
Proof.
  intros Hsg Hl Hg. unfold gs_apply_node. destruct (gs_nodes s !! q) as [n|] eqn:Hn;
    [|cbn; rewrite Hn; done].
  set (kept := filter (λ reader, reader ∉ lost_readers) (nd_readers n)).
  assert (∃ unread, (match lost_readers with
    | [] => (nd_readers n, gs_unread s)
    | _ => (kept, gs_unread s ++ [q]) end) = (kept, unread)) as [unread ->].
  { destruct lost_readers; [|by eexists]. exists (gs_unread s). f_equal. unfold kept.
    symmetry. apply filter_all. intros x _. by apply not_elem_of_nil. }
  cbn [gs_pending gs_nodes]. split; [done|].
  split; [intros; by rewrite lookup_insert_ne|]. rewrite lookup_insert_eq.
  split; [done|]. split; [done|]. intros Hs. simpl.
  destruct (merge_sorted_spec kept gained_readers) as [H1 H2];
    [by apply increasing_filter|done|].
  split; [done|]. intros r. rewrite H2, Hg. unfold kept. rewrite list_elem_of_filter, Hl. tauto.
Qed.

Lemma gs_apply_loop_spec fuel : ∀ lost gained s,
  increasing lost → increasing gained → length lost + length gained ≤ fuel →
  ∃ s', gs_apply_loop fuel lost gained s = Some s' ∧ gs_pending s' = gs_pending s ∧
    relinked_nodes lost gained (gs_nodes s) (gs_nodes s').
Proof.
  induction fuel as [|fuel IH]; intros lost gained s Hl Hg Hfuel.
  { destruct lost, gained; simpl in Hfuel; try lia. exists s. split; [done|]. split; [done|].
    intros q. destruct (gs_nodes s !! q); [|done].
    apply relinked_none; by intros r (e & []%elem_of_nil & _). }
  assert (∀ q, (∀ e, e ∈ lost ++ gained → (q ≤ edge_read e)%N) →
    (∃ e, (head lost = Some e ∨ head gained = Some e) ∧ edge_read e = q) →
    ∃ s', (let '(lost_readers, lost) := take_readers q lost in
           let '(gained_readers, gained) := take_readers q gained in
           gs_apply_loop fuel lost gained (gs_apply_node s q lost_readers gained_readers)) = Some s' ∧
      gs_pending s' = gs_pending s ∧ relinked_nodes lost gained (gs_nodes s) (gs_nodes s')) as Hturn.
  { intros q Hq (e & Hhead & He).
    pose proof (take_readers_spec q lost Hl) as HL. pose proof (take_readers_spec q gained Hg) as HG.
    destruct (take_readers q lost) as [lr lost'], (take_readers q gained) as [gr gained'].
    destruct HL as (L1 & L2 & L3 & L4 & L5 & L6 & L7); [intros; apply Hq, elem_of_app; by left|].
    destruct HG as (G1 & G2 & G3 & G4 & G5 & G6 & G7); [intros; apply Hq, elem_of_app; by right|].
    destruct (gs_apply_node_spec s q lost gained lr gr G1 L5 G5) as (Hp & Hother & Hnode).
    destruct (IH lost' gained' (gs_apply_node s q lr gr) L2 G2) as (s' & Hrun & Hp' & Hrel).
    { destruct Hhead as [Hh|Hh]; [specialize (L4 e Hh He)|specialize (G4 e Hh He)]; lia. }
    exists s'. split; [done|]. split; [congruence|]. intros q'. specialize (Hrel q').
    destruct (decide (q' = q)) as [->|Hne].
    - destruct (gs_nodes s !! q) as [n|], (gs_nodes (gs_apply_node s q lr gr) !! q) as [n1|]; try done.
      destruct (gs_nodes s' !! q) as [n'|]; [|done].
      destruct Hnode as (K1 & K2 & K3), Hrel as (R1 & R2 & R3).
      split; [congruence|]. split; [congruence|]. intros Hs. destruct (K3 Hs) as [Hs1 Hr1].
      destruct (R3 Hs1) as [Hs' Hr']. split; [done|]. intros r. rewrite Hr', Hr1.
      assert (¬ has_edge lost' q r) by (intros (x & Hx & <- & _); specialize (L6 x Hx); lia).
      assert (¬ has_edge gained' q r) by (intros (x & Hx & <- & _); specialize (G6 x Hx); lia).
      tauto.
    - rewrite <- (Hother q' Hne). destruct (gs_nodes (gs_apply_node s q lr gr) !! q') as [n|];
        destruct (gs_nodes s' !! q') as [n'|]; try done.
      destruct Hrel as (R1 & R2 & R3). split; [done|]. split; [done|]. intros Hs.
      destruct (R3 Hs) as [Hs' Hr']. split; [done|]. intros r. by rewrite Hr', L7, G7. }
  assert (∀ a (l : list N), increasing (a :: l) → ∀ e, e ∈ a :: l → (edge_read a ≤ edge_read e)%N) as Hmin.
  { intros a l [_ Ha]%increasing_cons e [->|He]%elem_of_cons; [done|].
    apply edge_read_mono. specialize (Ha e He). lia. }
  cbn [gs_apply_loop]. destruct lost as [|a lost], gained as [|b gained].
  - exists s. split; [done|]. split; [done|]. intros q. destruct (gs_nodes s !! q); [|done].
    apply relinked_none; by intros r (e & []%elem_of_nil & _).
  - apply Hturn; [intros e He; by eapply Hmin|]. exists b. simpl. auto.
  - apply Hturn; [rewrite app_nil_r; intros e He; by eapply Hmin|]. exists a. simpl. auto.
  - apply Hturn.
    + intros e [He|He]%elem_of_app; [pose proof (Hmin _ _ Hl e He)|pose proof (Hmin _ _ Hg e He)]; lia.
    + destruct (N.min_spec (edge_read a) (edge_read b)) as [[_ ->]|[_ ->]];
        [exists a|exists b]; simpl; auto.
Qed.

Lemma gs_apply_edges_spec s (lost gained : list N) :
  ∃ s', gs_apply_edges s lost gained = Some s' ∧ gs_pending s' = gs_pending s ∧
    relinked_nodes lost gained (gs_nodes s) (gs_nodes s').
Proof.
  destruct (sort_dedup_spec lost) as [L1 L2]. destruct (sort_dedup_spec gained) as [G1 G2].
  destruct (gs_apply_loop_spec (length (sort_dedup lost) + length (sort_dedup gained))
    (sort_dedup lost) (sort_dedup gained) s L1 G1) as (s' & Hr & Hp & Hrel); [lia|].
  exists s'. split; [done|]. split; [done|]. intros q. specialize (Hrel q).
  destruct (gs_nodes s !! q), (gs_nodes s' !! q); try done.
  destruct Hrel as (R1 & R2 & R3). split; [done|]. split; [done|]. intros Hs.
  destruct (R3 Hs) as [Hs' Hr']. split; [done|]. intros r. rewrite Hr'. unfold has_edge.
  setoid_rewrite L2. by setoid_rewrite G2.
Qed.


(** ** Splitting edges by shard *)

Definition lost_at (edges : Edges) j (e : N) : Prop := ∃ p, edges !! j = Some p ∧ e ∈ p.1.
Definition gained_at (edges : Edges) j (e : N) : Prop := ∃ p, edges !! j = Some p ∧ e ∈ p.2.

Definition shards : nat := N.to_nat table_shards.

Lemma graph_shard_lt q : graph_shard q < shards.
Proof. unfold graph_shard, shards, table_shards. pose proof (N.mod_upper_bound q 16). lia. Qed.

Lemma alter_edges (f : list N * list N → list N * list N) i (edges : Edges) j
    (P : list N * list N → Prop) :
  (∃ p, alter f i edges !! j = Some p ∧ P p) ↔
  ∃ p, edges !! j = Some p ∧ P (if decide (i = j) then f p else p).
Proof.
  destruct (decide (i = j)) as [->|Hne].
  - rewrite list_lookup_alter, decide_True by done. destruct (edges !! j); simpl;
      (split; intros (p' & Hp & HP); simplify_eq; eauto).
  - by rewrite list_lookup_alter_ne.
Qed.

Lemma push_lost_spec q (edges : Edges) rd :
  length edges = shards → length (push_lost q edges rd) = shards ∧
  (∀ j e, lost_at (push_lost q edges rd) j e ↔
    lost_at edges j e ∨ (graph_shard rd.1 = j ∧ e = edge rd.1 q)) ∧
  (∀ j e, gained_at (push_lost q edges rd) j e ↔ gained_at edges j e).
Proof.
  intros Hlen. unfold push_lost. split; [by rewrite length_alter|].
  assert (is_Some (edges !! graph_shard rd.1)) as [p0 Hp0]
    by (apply lookup_lt_is_Some_2; rewrite Hlen; apply graph_shard_lt).
  unfold lost_at, gained_at. split; intros j e; rewrite alter_edges.
  - destruct (decide (graph_shard rd.1 = j)) as [<-|Hne]; [|naive_solver].
    rewrite Hp0. simpl. split.
    + intros (p & [= <-] & [He| ->%list_elem_of_singleton]%elem_of_app); eauto.
    + intros [(p & [= <-] & He)|[_ ->]]; exists p0; (split; [done|]); apply elem_of_app;
        [by left|right; by left].
  - by destruct (decide (graph_shard rd.1 = j)).
Qed.

Lemma push_gained_spec q (edges : Edges) rd :
  length edges = shards → length (push_gained q edges rd) = shards ∧
  (∀ j e, lost_at (push_gained q edges rd) j e ↔ lost_at edges j e) ∧
  (∀ j e, gained_at (push_gained q edges rd) j e ↔
    gained_at edges j e ∨ (graph_shard rd.1 = j ∧ e = edge rd.1 q)).
Proof.
  intros Hlen. unfold push_gained. split; [by rewrite length_alter|].
  assert (is_Some (edges !! graph_shard rd.1)) as [p0 Hp0]
    by (apply lookup_lt_is_Some_2; rewrite Hlen; apply graph_shard_lt).
  unfold lost_at, gained_at. split; intros j e; rewrite alter_edges.
  - by destruct (decide (graph_shard rd.1 = j)).
  - destruct (decide (graph_shard rd.1 = j)) as [<-|Hne]; [|naive_solver].
    rewrite Hp0. simpl. split.
    + intros (p & [= <-] & [He| ->%list_elem_of_singleton]%elem_of_app); eauto.
    + intros [(p & [= <-] & He)|[_ ->]]; exists p0; (split; [done|]); apply elem_of_app;
        [by left|right; by left].
Qed.

(** A fold of edge pushes collects what each step adds. *)
Lemma foldl_edges {A} (f : Edges → A → Edges) (L G : A → nat → N → Prop) (l : list A) :
  (∀ edges a, a ∈ l → length edges = shards → length (f edges a) = shards ∧
    (∀ j e, lost_at (f edges a) j e ↔ lost_at edges j e ∨ L a j e) ∧
    (∀ j e, gained_at (f edges a) j e ↔ gained_at edges j e ∨ G a j e)) →
  ∀ edges, length edges = shards → length (foldl f edges l) = shards ∧
    (∀ j e, lost_at (foldl f edges l) j e ↔ lost_at edges j e ∨ ∃ a, a ∈ l ∧ L a j e) ∧
    (∀ j e, gained_at (foldl f edges l) j e ↔ gained_at edges j e ∨ ∃ a, a ∈ l ∧ G a j e).
Proof.
  induction l as [|a l IH]; intros Hf edges Hlen; simpl.
  { split; [done|]. split; intros j e; (split; [by left|]); intros [?|(? & []%elem_of_nil & _)]; done. }
  destruct (Hf edges a) as (F1 & F2 & F3); [by left|done|].
  destruct (IH ltac:(intros; apply Hf; [by right|done]) _ F1) as (I1 & I2 & I3).
  split; [done|]. split; intros j e.
  - rewrite I2, F2. setoid_rewrite elem_of_cons. naive_solver.
  - rewrite I3, F3. setoid_rewrite elem_of_cons. naive_solver.
Qed.

Lemma no_edges_spec : length no_edges = shards ∧
  (∀ j e, ¬ lost_at no_edges j e) ∧ (∀ j e, ¬ gained_at no_edges j e).
Proof.
  split; [apply length_replicate|].
  split; intros j e (p & [-> _]%lookup_replicate_1 & He); by apply elem_of_nil in He.
Qed.

Lemma gs_pending_edges_spec s :
  let '(s', edges) := gs_pending_edges s in
  gs_nodes s' = gs_nodes s ∧ gs_pending s' = [] ∧ length edges = shards ∧
  (∀ j e, lost_at edges j e ↔ ∃ q prev rd, (q, prev) ∈ gs_pending s ∧ rd ∈ prev ∧
    graph_shard rd.1 = j ∧ e = edge rd.1 q) ∧
  (∀ j e, gained_at edges j e ↔ ∃ q n rd, q ∈ (gs_pending s).*1 ∧ gs_nodes s !! q = Some n ∧
    rd ∈ nd_reads n ∧ graph_shard rd.1 = j ∧ e = edge rd.1 q).
Proof.
  unfold gs_pending_edges. split; [done|]. split; [done|].
  destruct no_edges_spec as (N1 & N2 & N3).
  destruct (foldl_edges (λ edges p, foldl (push_lost p.1) edges p.2)
    (λ p j e, ∃ rd, rd ∈ p.2 ∧ graph_shard rd.1 = j ∧ e = edge rd.1 p.1) (λ _ _ _, False)
    (gs_pending s)) with (edges := no_edges) as (A1 & A2 & A3); [|done|].
  { intros edges [q prev] _ Hlen. simpl.
    destruct (foldl_edges (push_lost q) (λ rd j e, graph_shard rd.1 = j ∧ e = edge rd.1 q)
      (λ _ _ _, False) prev) with (edges := edges) as (B1 & B2 & B3); [|done|].
    - intros es rd _ Hl. destruct (push_lost_spec q es rd Hl) as (? & ? & Hg).
      split; [done|]. split; [done|]. intros j e. rewrite Hg. tauto.
    - split; [done|]. split; [done|]. intros j e. rewrite B3. naive_solver. }
  destruct (sort_dedup_spec (gs_pending s).*1) as [_ Hsd].
  destruct (foldl_edges (λ edges q, match gs_nodes s !! q with
      | Some node => foldl (push_gained q) edges (nd_reads node) | None => edges end)
    (λ _ _ _, False)
    (λ q j e, ∃ n rd, gs_nodes s !! q = Some n ∧ rd ∈ nd_reads n ∧
      graph_shard rd.1 = j ∧ e = edge rd.1 q) (sort_dedup (gs_pending s).*1))
    with (edges := foldl (λ edges p, foldl (push_lost p.1) edges p.2) no_edges (gs_pending s))
    as (C1 & C2 & C3); [|done|].
  { intros edges q _ Hlen. destruct (gs_nodes s !! q) as [n|].
    - destruct (foldl_edges (push_gained q) (λ _ _ _, False)
        (λ rd j e, graph_shard rd.1 = j ∧ e = edge rd.1 q) (nd_reads n))
        with (edges := edges) as (B1 & B2 & B3); [|done|].
      + intros es rd _ Hl. destruct (push_gained_spec q es rd Hl) as (? & Hg & ?).
        split; [done|]. split; [intros j e; rewrite Hg; tauto|done].
      + split; [done|]. split; [intros j e; rewrite B2; naive_solver|].
        intros j e. rewrite B3. naive_solver.
    - split; [done|]. split; intros j e; naive_solver. }
  split; [done|]. split; intros j e.
  - rewrite C2, A2. split.
    + intros [[Hn|([q prev] & Hp & rd & Hrd & Hj & He)]|(? & _ & [])]; [by apply N2 in Hn|].
      by exists q, prev, rd.
    + intros (q & prev & rd & Hp & Hrd & Hj & He). left. right. exists (q, prev). split; [done|].
      by exists rd.
  - rewrite C3, A3. setoid_rewrite Hsd. split.
    + intros [[Hn|(? & _ & [])]|(q & Hq & n & rd & Hn)]; [by apply N3 in Hn|]. by exists q, n, rd.
    + intros (q & n & rd & Hq & Hn). right. exists q. split; [done|]. by exists n, rd.
Qed.

(** Every source's edges, gathered by the shard of the node read. *)
Lemma gathered_spec (l : list Edges) :
  Forall (λ e, length e = shards) l →
  ∀ all, length all = shards →
  let by_read := foldl (zip_with (λ (all e : list N * list N), (all.1 ++ e.1, all.2 ++ e.2))) all l in
  length by_read = shards ∧
  (∀ j e, lost_at by_read j e ↔ lost_at all j e ∨ ∃ edges, edges ∈ l ∧ lost_at edges j e) ∧
  (∀ j e, gained_at by_read j e ↔ gained_at all j e ∨ ∃ edges, edges ∈ l ∧ gained_at edges j e).
Proof.
  intros Hall all Hlen. rewrite Forall_forall in Hall.
  apply (foldl_edges (zip_with (λ (all e : list N * list N), (all.1 ++ e.1, all.2 ++ e.2)))
    (λ edges j e, lost_at edges j e) (λ edges j e, gained_at edges j e)); [|done].
  clear all Hlen. intros all edges Hin Hlen. specialize (Hall edges Hin).
  split; [rewrite length_zip_with, Hlen, Hall; lia|].
  unfold lost_at, gained_at. split; intros j e; setoid_rewrite lookup_zip_with_Some.
  - split.
    + intros (p & (x & y & -> & Hx & Hy) & [He|He]%elem_of_app); eauto.
    + intros [(p & Hp & He)|(p & Hp & He)].
      * assert (is_Some (edges !! j)) as [y Hy]
          by (apply lookup_lt_is_Some_2; rewrite Hall, <- Hlen; by eapply lookup_lt_Some).
        eexists. split; [exists p, y; eauto|]. apply elem_of_app. by left.
      * assert (is_Some (all !! j)) as [y Hy]
          by (apply lookup_lt_is_Some_2; rewrite Hlen, <- Hall; by eapply lookup_lt_Some).
        eexists. split; [exists y, p; eauto|]. apply elem_of_app. by right.
  - split.
    + intros (p & (x & y & -> & Hx & Hy) & [He|He]%elem_of_app); eauto.
    + intros [(p & Hp & He)|(p & Hp & He)].
      * assert (is_Some (edges !! j)) as [y Hy]
          by (apply lookup_lt_is_Some_2; rewrite Hall, <- Hlen; by eapply lookup_lt_Some).
        eexists. split; [exists p, y; eauto|]. apply elem_of_app. by left.
      * assert (is_Some (all !! j)) as [y Hy]
          by (apply lookup_lt_is_Some_2; rewrite Hlen, <- Hall; by eapply lookup_lt_Some).
        eexists. split; [exists y, p; eauto|]. apply elem_of_app. by right.
Qed.

End shard.

(** * Flushing the read graph's pending edges

    The reverse map is recorded lazily: [record] only queues what a reader
    read before, and [flush] brings every node's readers up to date. *)

Section flush.
Context {I : Type}.
Implicit Types (s : GraphShard I) (g : Graph I) (n : Node I) (q r : QueryId).

(** The reads a node's reader lists still reflect: those before its first
    pending change. *)
Definition shard_flushed s q : list QueryId :=
  match list_find (λ p, p.1 = q) (gs_pending s) with
  | Some (_, (_, prev)) => prev.*1
  | None => match gs_nodes s !! q with Some n => (nd_reads n).*1 | None => [] end
  end.

Definition flushed_reads g q : list QueryId :=
  match g !! graph_shard q with Some s => shard_flushed s q | None => [] end.

(** The reads recorded of a query. *)
Definition reads_of g q : list QueryId :=
  match gr_node g q with Some n => (nd_reads n).*1 | None => [] end.

Record graph_ok g : Prop := {
  go_len : length g = shards;
  go_shard : ∀ i s q, g !! i = Some s → is_Some (gs_nodes s !! q) → graph_shard q = i;
  go_pending : ∀ i s q prev, g !! i = Some s → (q, prev) ∈ gs_pending s →
    graph_shard q = i ∧ is_Some (gs_nodes s !! q) ∧ (q < 4294967296)%N;
  go_sorted : ∀ q n, gr_node g q = Some n → increasing (nd_readers n);
  go_readers : ∀ q n r, gr_node g q = Some n → r ∈ nd_readers n ↔ q ∈ flushed_reads g r
}.

(** Every node a reader list stands for is there. *)
Definition closed g : Prop := ∀ q r, q ∈ flushed_reads g r → is_Some (gr_node g q).

(** No change is pending: the reader lists are exact. *)
Definition settled g : Prop := ∀ i s, g !! i = Some s → gs_pending s = [].

Lemma shard_at g q : graph_ok g → ∃ s, g !! graph_shard q = Some s.
Proof. intros Hg. apply lookup_lt_is_Some_2. rewrite (go_len _ Hg). apply graph_shard_lt. Qed.

Lemma settled_readers g q n r :
  graph_ok g → settled g → gr_node g q = Some n → r ∈ nd_readers n ↔ q ∈ reads_of g r.
Proof.
  intros Hg Hs Hn. rewrite (go_readers _ Hg q n r Hn). unfold flushed_reads, reads_of, gr_node.
  destruct (shard_at g r Hg) as [s Hsr]. rewrite Hsr. simpl. unfold shard_flushed.
  by rewrite (Hs _ _ Hsr).
Qed.

(** The edges every shard hands out, gathered. *)
Lemma flush_edges g :
  graph_ok g →
  let by_read := foldl (zip_with (λ (all e : list N * list N), (all.1 ++ e.1, all.2 ++ e.2)))
    no_edges (gs_pending_edges <$> g).*2 in
  length by_read = shards ∧
  ∀ j lost gained, by_read !! j = Some (lost, gained) → ∀ q r, graph_shard q = j →
    (has_edge lost q r ↔ ∃ i s prev, g !! i = Some s ∧ (r, prev) ∈ gs_pending s ∧ q ∈ prev.*1) ∧
    (has_edge gained q r ↔ ∃ i s n, g !! i = Some s ∧ r ∈ (gs_pending s).*1 ∧
      gs_nodes s !! r = Some n ∧ q ∈ (nd_reads n).*1).
Proof.
  intros Hg by_read. destruct no_edges_spec as (N1 & N2 & N3).
  destruct (gathered_spec (gs_pending_edges <$> g).*2) with (all := no_edges)
    as (B1 & B2 & B3); [|done|].
  { apply Forall_forall. intros edges (p & -> & (s & -> & Hs)%list_elem_of_fmap)%list_elem_of_fmap.
    pose proof (gs_pending_edges_spec s) as Hp. destruct (gs_pending_edges s). apply Hp. }
  fold by_read in B1, B2, B3. split; [done|]. intros j lost gained Hj q r Hq.
  assert (∀ e, e ∈ lost ↔ lost_at by_read j e) as Hlost.
  { intros e. unfold lost_at. rewrite Hj. split; [eauto|by intros (p & [= <-] & ?)]. }
  assert (∀ e, e ∈ gained ↔ gained_at by_read j e) as Hgained.
  { intros e. unfold gained_at. rewrite Hj. split; [eauto|by intros (p & [= <-] & ?)]. }
  assert (∀ edges, edges ∈ (gs_pending_edges <$> g).*2 ↔
    ∃ i s, g !! i = Some s ∧ edges = (gs_pending_edges s).2) as Hsrc.
  { intros edges. rewrite list_elem_of_fmap. split.
    - intros (p & -> & (s & -> & [i Hs]%list_elem_of_lookup)%list_elem_of_fmap). eauto.
    - intros (i & s & Hs & ->). exists (gs_pending_edges s). split; [done|].
      apply list_elem_of_fmap. exists s. split; [done|]. by eapply list_elem_of_lookup_2. }
  unfold has_edge. setoid_rewrite Hlost. setoid_rewrite Hgained. split.
  - split.
    + intros (e & [Hn|(edges & (i & s & Hs & ->)%Hsrc & He)]%B2 & He1 & He2); [by apply N2 in Hn|].
      pose proof (gs_pending_edges_spec s) as Hp. destruct (gs_pending_edges s) as [s' edges].
      destruct Hp as (_ & _ & _ & HL & _). apply HL in He as (r' & prev & rd & Hpend & Hrd & _ & ->).
      destruct (go_pending _ Hg i s r' prev Hs Hpend) as (_ & _ & Hb).
      destruct (edge_spec rd.1 r' Hb) as [E1 E2]. rewrite E1 in He1. rewrite E2 in He2. subst.
      exists i, s, prev. split; [done|]. split; [done|]. apply list_elem_of_fmap. by exists rd.
    + intros (i & s & prev & Hs & Hpend & (rd & -> & Hrd)%list_elem_of_fmap).
      destruct (go_pending _ Hg i s r prev Hs Hpend) as (_ & _ & Hb).
      exists (edge rd.1 r). split; [|by apply edge_spec]. apply B2. right.
      exists (gs_pending_edges s).2. split; [apply Hsrc; eauto|].
      pose proof (gs_pending_edges_spec s) as Hp. destruct (gs_pending_edges s) as [s' edges].
      destruct Hp as (_ & _ & _ & HL & _). apply HL. by exists r, prev, rd.
  - split.
    + intros (e & [Hn|(edges & (i & s & Hs & ->)%Hsrc & He)]%B3 & He1 & He2); [by apply N3 in Hn|].
      pose proof (gs_pending_edges_spec s) as Hp. destruct (gs_pending_edges s) as [s' edges].
      destruct Hp as (_ & _ & _ & _ & HG).
      apply HG in He as (r' & n & rd & Hpend & Hnode & Hrd & _ & ->).
      apply list_elem_of_fmap in Hpend as ([r0 prev] & -> & Hpend).
      destruct (go_pending _ Hg i s r0 prev Hs Hpend) as (_ & _ & Hb). simpl in *.
      destruct (edge_spec rd.1 r0 Hb) as [E1 E2]. rewrite E1 in He1. rewrite E2 in He2. subst.
      exists i, s, n. split; [done|]. split; [|split; [done|]].
      * apply list_elem_of_fmap. by exists (r, prev).
      * apply list_elem_of_fmap. by exists rd.
    + intros (i & s & n & Hs & Hin & Hnode & (rd & -> & Hrd)%list_elem_of_fmap).
      pose proof Hin as ([r0 prev] & -> & Hpend)%list_elem_of_fmap. simpl in *.
      destruct (go_pending _ Hg i s r0 prev Hs Hpend) as (_ & _ & Hb).
      exists (edge rd.1 r0). split; [|by apply edge_spec]. apply B3. right.
      exists (gs_pending_edges s).2. split; [apply Hsrc; eauto|].
      pose proof (gs_pending_edges_spec s) as Hp. destruct (gs_pending_edges s) as [s' edges].
      destruct Hp as (_ & _ & _ & _ & HG). apply HG. exists r0, n, rd. done.
Qed.

(** Applying gathered edges relinks every node, shard by shard. *)
Lemma gr_apply_edges_spec g (by_read : Edges) :
  length g = shards → length by_read = shards →
  ∃ g', gr_apply_edges g by_read = Some g' ∧ length g' = shards ∧
    ∀ i s, g !! i = Some s → ∃ s' lost gained, g' !! i = Some s' ∧
      by_read !! i = Some (lost, gained) ∧ gs_pending s' = gs_pending s ∧
      relinked_nodes lost gained (gs_nodes s) (gs_nodes s').
Proof.
  intros Hg Hb. unfold gr_apply_edges.
  assert (is_Some (mapM (λ '(s, (lost, gained)), gs_apply_edges s lost gained) (zip g by_read)))
    as [g' Hg'].
  { apply mapM_is_Some, Forall_forall. intros [s [lost gained]] _.
    destruct (gs_apply_edges_spec s lost gained) as (s' & Hs' & _). by exists s'. }
  exists g'. split; [done|]. apply mapM_Some in Hg'.
  pose proof (Forall2_length _ _ _ Hg') as Hl. rewrite length_zip_with, Hg, Hb, Nat.min_id in Hl.
  split; [done|]. intros i s Hs.
  destruct (lookup_lt_is_Some_2 by_read i) as [[lost gained] Hi].
  { rewrite Hb, <- Hg. by eapply lookup_lt_Some. }
  assert (zip g by_read !! i = Some (s, (lost, gained))) as Hz by (apply lookup_zip_with_Some; eauto).
  destruct (Forall2_lookup_l _ _ _ _ _ Hg' Hz) as (s' & Hs' & Hrun).
  destruct (gs_apply_edges_spec s lost gained) as (s'' & Hrun' & Hp & Hrel).
  assert (s'' = s') as -> by congruence. exists s', lost, gained. done.
Qed.

Lemma list_find_pending s q prev :
  (q, prev) ∈ gs_pending s → ∃ i prev0, list_find (λ p, p.1 = q) (gs_pending s) = Some (i, (q, prev0)) ∧
    (q, prev0) ∈ gs_pending s.
Proof.
  intros Hin. destruct (list_find_elem_of (λ p, p.1 = q) (gs_pending s) (q, prev) Hin eq_refl)
    as [[i [q' prev0]] Hf].
  pose proof Hf as (Hi & Hq & _)%list_find_Some. simpl in Hq. subst q'.
  exists i, prev0. split; [done|]. by eapply list_elem_of_lookup_2.
Qed.

Lemma gr_node_shard g q n : gr_node g q = Some n →
  ∃ s, g !! graph_shard q = Some s ∧ gs_nodes s !! q = Some n.
Proof.
  unfold gr_node. intros Hn. destruct (g !! graph_shard q) as [s|] eqn:E; simpl in Hn; [eauto|done].
Qed.

Lemma flush_empty g : graph_ok g →
  forallb (λ s, match gs_pending s with [] => true | _ => false end) g = true → settled g.
Proof.
  intros Hg Hf i s Hs. rewrite forallb_forall in Hf. specialize (Hf s).
  assert (In s g) as Hin by (apply list_elem_of_In; by eapply list_elem_of_lookup_2).
  specialize (Hf Hin). by destruct (gs_pending s).
Qed.

(** What [flush] does shard by shard. *)
Lemma flush_shards g :
  graph_ok g →
  forallb (λ s, match gs_pending s with [] => true | _ => false end) g = false →
  ∃ g', gr_flush g = Some g' ∧ length g' = shards ∧
    ∀ i s, g !! i = Some s → ∃ s', g' !! i = Some s' ∧ gs_pending s' = [] ∧
      (∀ q, is_Some (gs_nodes s' !! q) → is_Some (gs_nodes s !! q)) ∧
      ∀ q, graph_shard q = i →
      match gs_nodes s !! q, gs_nodes s' !! q with
      | Some n, Some n' => nd_kind n' = nd_kind n ∧ nd_reads n' = nd_reads n ∧
          increasing (nd_readers n') ∧ ∀ r, r ∈ nd_readers n' ↔ q ∈ reads_of g r
      | None, None => True
      | _, _ => False
      end.
Proof.
  intros Hg Hf. unfold gr_flush. rewrite Hf.
  destruct (flush_edges g Hg) as [Hlen Hedges].
  set (by_read := foldl _ no_edges _) in *.
  destruct (gr_apply_edges_spec (gs_pending_edges <$> g).*1 by_read) as (g' & Hrun & Hlen' & Hsh);
    [by rewrite !length_fmap, (go_len _ Hg)|done|].
  exists g'. split; [exact Hrun|]. split; [done|]. intros i s Hs.
  destruct (Hsh i (gs_pending_edges s).1) as (s' & lost & gained & Hs' & Hb & Hp & Hrel).
  { by rewrite !list_lookup_fmap, Hs. }
  pose proof (gs_pending_edges_spec s) as Hpe. destruct (gs_pending_edges s) as [s1 edges].
  destruct Hpe as (Hn1 & Hp1 & _). simpl in Hp, Hrel. rewrite Hn1 in Hrel.
  exists s'. split; [done|]. split; [congruence|]. split.
  { intros q [n' Hn']. specialize (Hrel q). rewrite Hn' in Hrel. by destruct (gs_nodes s !! q). }
  intros q Hq. specialize (Hrel q).
  destruct (gs_nodes s !! q) as [n|] eqn:Hn, (gs_nodes s' !! q) as [n'|]; try done.
  destruct Hrel as (K & R & Hr). split; [done|]. split; [done|].
  assert (gr_node g q = Some n) as Hgn by (unfold gr_node; rewrite Hq, Hs; exact Hn).
  destruct (Hr (go_sorted _ Hg q n Hgn)) as [Hinc Hmem]. split; [done|]. intros r. rewrite Hmem.
  destruct (Hedges i lost gained Hb q r Hq) as [HL HG]. rewrite HL, HG, (go_readers _ Hg q n r Hgn).
  destruct (shard_at g r Hg) as [sr Hsr]. unfold flushed_reads, reads_of, gr_node, shard_flushed.
  rewrite Hsr. cbn [mbind option_bind].
  assert (∀ i0 s0 prev, g !! i0 = Some s0 → (r, prev) ∈ gs_pending s0 → s0 = sr) as Hown.
  { intros i0 s0 prev H0 Hin. destruct (go_pending _ Hg i0 s0 r prev H0 Hin) as [<- _]. congruence. }
  destruct (list_find (λ p, p.1 = r) (gs_pending sr)) as [[j [r0 prev0]]|] eqn:Hfind.
  - pose proof Hfind as (Hj & Hr0 & _)%list_find_Some. simpl in Hr0. subst r0.
    apply list_elem_of_lookup_2 in Hj.
    destruct (go_pending _ Hg _ sr r prev0 Hsr Hj) as (_ & [nr Hnr] & _). rewrite Hnr. split.
    + intros [[Hin Hno]|(i0 & s0 & n0 & H0 & Hin & Hn0 & Hq0)].
      * destruct Hno. by exists (graph_shard r), sr, prev0.
      * apply list_elem_of_fmap in Hin as ([r1 prev1] & -> & Hin).
        assert (s0 = sr) as -> by (by eapply Hown). simpl in *. congruence.
    + intros Hin. right. exists (graph_shard r), sr, nr. split; [done|]. split; [|done].
      apply list_elem_of_fmap. by exists (r, prev0).
  - apply list_find_None in Hfind. rewrite Forall_forall in Hfind.
    assert (∀ prev, (r, prev) ∉ gs_pending sr) as Hno by (intros prev Hin; by apply (Hfind _ Hin)).
    split.
    + intros [[Hin _]|(i0 & s0 & n0 & H0 & ([r1 prev1] & -> & Hin)%list_elem_of_fmap & _)]; [done|].
      assert (s0 = sr) as -> by (by eapply Hown). by destruct (Hno prev1).
    + intros Hin. left. split; [done|]. intros (i0 & s0 & prev & H0 & Hin0 & _).
      assert (s0 = sr) as -> by (by eapply Hown). by destruct (Hno prev).
Qed.

Section flushed.
Context g g' (Hg : graph_ok g) (Hlen : length g' = shards).
Context (Hsh : ∀ i s, g !! i = Some s → ∃ s', g' !! i = Some s' ∧ gs_pending s' = [] ∧
  (∀ q, is_Some (gs_nodes s' !! q) → is_Some (gs_nodes s !! q)) ∧
  ∀ q, graph_shard q = i →
  match gs_nodes s !! q, gs_nodes s' !! q with
  | Some n, Some n' => nd_kind n' = nd_kind n ∧ nd_reads n' = nd_reads n ∧
      increasing (nd_readers n') ∧ ∀ r, r ∈ nd_readers n' ↔ q ∈ reads_of g r
  | None, None => True
  | _, _ => False
  end).

Lemma flushed_settled : settled g'.
Proof.
  intros i s' Hs'. destruct (lookup_lt_is_Some_2 g i) as [s Hs].
  { rewrite (go_len _ Hg), <- Hlen. by eapply lookup_lt_Some. }
  destruct (Hsh i s Hs) as (s'' & Hs'' & Hp & _). congruence.
Qed.

Lemma flushed_node q :
  match gr_node g q, gr_node g' q with
  | Some n, Some n' => nd_kind n' = nd_kind n ∧ nd_reads n' = nd_reads n ∧
      increasing (nd_readers n') ∧ ∀ r, r ∈ nd_readers n' ↔ q ∈ reads_of g r
  | None, None => True
  | _, _ => False
  end.
Proof.
  destruct (shard_at g q Hg) as [s Hs]. destruct (Hsh _ s Hs) as (s' & Hs' & _ & _ & Hq).
  unfold gr_node. rewrite Hs, Hs'. by apply Hq.
Qed.

Lemma flushed_reads_of q : reads_of g' q = reads_of g q.
Proof.
  pose proof (flushed_node q) as Hq. unfold reads_of.
  destruct (gr_node g q), (gr_node g' q); try done. destruct Hq as (_ & Hr & _). by rewrite Hr.
Qed.

Lemma flushed_graph_ok : graph_ok g'.
Proof.
  assert (∀ i s', g' !! i = Some s' → ∃ s, g !! i = Some s) as Hback.
  { intros i s' Hs'. apply lookup_lt_is_Some_2. rewrite (go_len _ Hg), <- Hlen.
    by eapply lookup_lt_Some. }
  split; [done| | | |].
  - intros i s' q Hs' Hn'. destruct (Hback i s' Hs') as [s Hs].
    destruct (Hsh i s Hs) as (s'' & Hs'' & _ & Hdom & _). simplify_eq.
    eapply (go_shard _ Hg); [exact Hs|by apply Hdom].
  - intros i s' q prev Hs' Hin. rewrite (flushed_settled _ _ Hs') in Hin. by apply elem_of_nil in Hin.
  - intros q n' Hn'. pose proof (flushed_node q) as Hq. rewrite Hn' in Hq.
    destruct (gr_node g q); [|done]. apply Hq.
  - intros q n' r Hn'. pose proof (flushed_node q) as Hq. rewrite Hn' in Hq.
    destruct (gr_node g q); [|done]. destruct Hq as (_ & _ & _ & Hr). rewrite Hr.
    rewrite <- flushed_reads_of. unfold flushed_reads, reads_of, gr_node, shard_flushed.
    destruct (g' !! graph_shard r) as [s|] eqn:Hs; [|done]. simpl. by rewrite (flushed_settled _ _ Hs).
Qed.

End flushed.

(** The lazy reverse map is exact. *)
Lemma flush_spec g :
  graph_ok g →
  ∃ g', gr_flush g = Some g' ∧ graph_ok g' ∧ settled g' ∧
    (∀ q, option_map (λ n, (nd_kind n, nd_reads n)) (gr_node g' q) =
      option_map (λ n, (nd_kind n, nd_reads n)) (gr_node g q)) ∧
    (∀ q n, gr_node g' q = Some n → increasing (nd_readers n) ∧
      ∀ r, r ∈ nd_readers n ↔ q ∈ reads_of g r).
Proof.
  intros Hg.
  destruct (forallb (λ s, match gs_pending s with [] => true | _ => false end) g) eqn:Hf.
  { pose proof (flush_empty g Hg Hf) as Hset. exists g. unfold gr_flush. rewrite Hf.
    split; [done|]. split; [done|]. split; [done|]. split; [done|]. intros q n Hn.
    split; [by eapply go_sorted|]. intros r. by apply settled_readers. }
  destruct (flush_shards g Hg Hf) as (g' & Hrun & Hlen & Hsh). exists g'. split; [done|].
  split; [by eapply flushed_graph_ok|]. split; [by eapply flushed_settled|].
  pose proof (flushed_node g g' Hg Hsh) as Hnode. split.
  - intros q. specialize (Hnode q). destruct (gr_node g q), (gr_node g' q); try done.
    destruct Hnode as (Hk & Hr & _). simpl. by rewrite Hk, Hr.
  - intros q n Hn. specialize (Hnode q). rewrite Hn in Hnode. destruct (gr_node g q); [|done].
    apply Hnode.
Qed.

End flush.
