(* ===== verification/Memo.v ===== *)
(** * The memo store

    Model of [Store] and [Ctx] in
    [rust/crates/solid-reactive-ir/src/base/memo.rs]: answers memoized per key,
    each with its recorded reads, invalidated by [begin] and brought up to date
    when asked (clean, verified, or recomputed with early cutoff).

    A schema's tables are one table here: a key [K] names its table, a value
    [V] is any table's. The shards of the tables, the interned inputs and the
    queued records only split locks, so each is one map or list; a query's id
    still names its shard, and the graph keeps its shards ([MemoGraph]). One
    thread runs: an atomic is a field. A computation ([Memo::compute]) is a
    tree: it answers, or reads an input or another memo and goes on with the
    answer; a memo read that met a cycle ends it ([?]). Statistics and report
    texts are left out. [Panicked] is an [expect] that fails. *)
From S2P Require Import Prelude Order MemoGraph.

(** ** Outcomes *)

Inductive Outcome (A : Type) :=
  | Out_of_fuel
  | Panicked
  | Ret (a : A).
Arguments Out_of_fuel {A}.
Arguments Panicked {A}.
Arguments Ret {A} _.

#[export] Instance outcome_bind : MBind Outcome := λ A B f o,
  match o with Out_of_fuel => Out_of_fuel | Panicked => Panicked | Ret a => f a end.

(** A function of the graph panics on a [None]. *)
Definition or_panic {A} (o : option A) : Outcome A :=
  match o with Some a => Ret a | None => Panicked end.

(** ** Computations *)

(** What [Memo::compute] does with its [Ctx]. *)
Inductive Comp (I A K V : Type) :=
  | Done (value : V)
  | ReadInput (input : I) (next : A → Comp I A K V)
  | ReadMemo (key : K) (next : V → Comp I A K V).
Arguments Done {I A K V} _.
Arguments ReadInput {I A K V} _ _.
Arguments ReadMemo {I A K V} _ _.

(** [CLEAN], [MAYBE_DIRTY], [DIRTY]. *)
Inductive EntryState := Clean | MaybeDirty | Dirty.

#[export] Instance EntryState_eq_dec : EqDecision EntryState.
Proof. solve_decision. Defined.

(** [fetch_max]. *)
Definition state_max (a b : EntryState) : EntryState :=
  match a, b with
  | Dirty, _ | _, Dirty => Dirty
  | MaybeDirty, _ | _, MaybeDirty => MaybeDirty
  | Clean, Clean => Clean
  end.

Record Entry (V : Type) := mk_entry {
  en_value : V;
  en_state : EntryState;
  en_changed_at : N;
  en_computed_at : N;
  en_used_at : N;
  en_reuse_checked_at : N
}.
Arguments mk_entry {V} _ _ _ _ _ _.
Arguments en_value {V} _.
Arguments en_state {V} _.
Arguments en_changed_at {V} _.
Arguments en_computed_at {V} _.
Arguments en_used_at {V} _.
Arguments en_reuse_checked_at {V} _.

(** [TableData]. *)
Record TableData (K V : Type) `{Countable K} := mk_table {
  td_ids : gmap K QueryId;
  td_keys : gmap QueryId K;
  td_entries : gmap QueryId (Entry V)
}.
Arguments mk_table {K V _ _} _ _ _.
Arguments td_ids {K V _ _} _.
Arguments td_keys {K V _ _} _.
Arguments td_entries {K V _ _} _.

(** [Interned]. *)
Record Interned (I : Type) `{Countable I} := mk_interned {
  in_ids : gmap I QueryId;
  in_fresh : list (QueryId * I)
}.
Arguments mk_interned {I _ _} _ _.
Arguments in_ids {I _ _} _.
Arguments in_fresh {I _ _} _.

(** [Record]: an install's reads, queued for the graph. *)
Abbreviation QueuedRecord := (QueryId * N * list (QueryId * N))%type (only parsing).

(** [Read]: one recorded read, before its input is interned. *)
Inductive CtxRead (I : Type) :=
  | RInput (input : I)
  | RMemo (query : QueryId) (changed_at : N).
Arguments RInput {I} _.
Arguments RMemo {I} _ _.

(** [Answer]. *)
Record Answer (V : Type) := mk_answer {
  an_value : V;
  an_query : QueryId;
  an_changed_at : N
}.
Arguments mk_answer {V} _ _ _.
Arguments an_value {V} _.
Arguments an_query {V} _.
Arguments an_changed_at {V} _.

(** [Cycle]: the queries on the way, innermost last. *)
Abbreviation Cycle := (list QueryId) (only parsing).

(** [Store]. *)
Record Store (I K V : Type) `{Countable I, Countable K} := mk_store {
  st_table : TableData K V;
  st_graph : list (GraphShard I);
  st_next : N;
  st_inputs : Interned I;
  st_records : list QueuedRecord;
  st_revision : N;
  st_poisoned : bool;
  st_verify_reused : bool
}.
Arguments mk_store {I K V _ _ _ _} _ _ _ _ _ _ _ _.
Arguments st_table {I K V _ _ _ _} _.
Arguments st_graph {I K V _ _ _ _} _.
Arguments st_next {I K V _ _ _ _} _.
Arguments st_inputs {I K V _ _ _ _} _.
Arguments st_records {I K V _ _ _ _} _.
Arguments st_revision {I K V _ _ _ _} _.
Arguments st_poisoned {I K V _ _ _ _} _.
Arguments st_verify_reused {I K V _ _ _ _} _.

(** [SCANNED_READS]. *)
Definition scanned_reads : nat := 16.

(** ** Writing one field *)
Section setters.
Context {I K V : Type} `{Countable I, Countable K}.
Implicit Types (s : Store I K V).

Definition set_table s t : Store I K V :=
  mk_store t (st_graph s) (st_next s) (st_inputs s) (st_records s) (st_revision s)
    (st_poisoned s) (st_verify_reused s).
Definition set_graph s g : Store I K V :=
  mk_store (st_table s) g (st_next s) (st_inputs s) (st_records s) (st_revision s)
    (st_poisoned s) (st_verify_reused s).
Definition set_next s next : Store I K V :=
  mk_store (st_table s) (st_graph s) next (st_inputs s) (st_records s) (st_revision s)
    (st_poisoned s) (st_verify_reused s).
Definition set_inputs s inputs : Store I K V :=
  mk_store (st_table s) (st_graph s) (st_next s) inputs (st_records s) (st_revision s)
    (st_poisoned s) (st_verify_reused s).
Definition set_records s records : Store I K V :=
  mk_store (st_table s) (st_graph s) (st_next s) (st_inputs s) records (st_revision s)
    (st_poisoned s) (st_verify_reused s).
Definition set_revision s revision : Store I K V :=
  mk_store (st_table s) (st_graph s) (st_next s) (st_inputs s) (st_records s) revision
    (st_poisoned s) (st_verify_reused s).
Definition set_poisoned s poisoned : Store I K V :=
  mk_store (st_table s) (st_graph s) (st_next s) (st_inputs s) (st_records s) (st_revision s)
    poisoned (st_verify_reused s).

Definition st_entry s (query : QueryId) : option (Entry V) := td_entries (st_table s) !! query.
Definition set_entry s (query : QueryId) (e : Entry V) : Store I K V :=
  set_table s (mk_table (td_ids (st_table s)) (td_keys (st_table s))
    (<[query := e]> (td_entries (st_table s)))).

Definition entry_state (e : Entry V) (state : EntryState) : Entry V :=
  mk_entry (en_value e) state (en_changed_at e) (en_computed_at e) (en_used_at e)
    (en_reuse_checked_at e).
Definition entry_used (e : Entry V) (revision : N) : Entry V :=
  mk_entry (en_value e) (en_state e) (en_changed_at e) (en_computed_at e) revision
    (en_reuse_checked_at e).
Definition entry_checked (e : Entry V) (revision : N) : Entry V :=
  mk_entry (en_value e) (en_state e) (en_changed_at e) (en_computed_at e) (en_used_at e) revision.

End setters.

(** ** The store's operations *)
Section store.
Context {I A K V : Type} `{Countable I, Countable K, EqDecision V}.

(** The schema: a key's table and hash, an input's hash and order, and each
    table's computation, implied inputs and cycle answer. *)
Context (table_of : K → N) (key_hash : K → N) (input_hash : I → N).
Context (input_cmp : I → I → comparison).
Context (compute_of : K → Comp I A K V) (implied_of : K → list I) (on_cycle : K → V).
Implicit Types (s : Store I K V) (key : K) (query : QueryId) (frames : list QueryId).

(** [Store::new]. *)
Definition store_new (verify_reused : bool) : Store I K V :=
  mk_store (mk_table ∅ ∅ ∅) graph_default 0 (mk_interned ∅ []) [] 0 false verify_reused.

(** [key_shard] and [input_shard]: the hash's high four bits. *)
Definition key_shard key : N := N.shiftr (key_hash key) 60 mod table_shards.
Definition input_shard (input : I) : N := N.shiftr (input_hash input) 60 mod table_shards.

(** [allocate]. *)
Definition allocate s (shard : N) : Outcome (Store I K V * QueryId) :=
  let next := st_next s in
  let s := set_next s ((next + 1) mod 2 ^ 32)%N in
  if decide (next * table_shards + shard < 2 ^ 32)%N
  then Ret (s, (next * table_shards + shard)%N)
  else Panicked.

(** [query_of]. *)
Definition query_of s key : Outcome (Store I K V * QueryId) :=
  match td_ids (st_table s) !! key with
  | Some query => Ret (s, query)
  | None =>
      '(s, query) ← allocate s (key_shard key);
      let t := st_table s in
      Ret (set_table s (mk_table (<[key := query]> (td_ids t)) (<[query := key]> (td_keys t))
                          (td_entries t)), query)
  end.

(** [interned]. *)
Definition interned s (input : I) : option QueryId := in_ids (st_inputs s) !! input.

(** [intern]. *)
Definition intern s (input : I) : Outcome (Store I K V * QueryId) :=
  match in_ids (st_inputs s) !! input with
  | Some id => Ret (s, id)
  | None =>
      '(s, id) ← allocate s (input_shard input);
      let i := st_inputs s in
      Ret (set_inputs s (mk_interned (<[input := id]> (in_ids i)) (in_fresh i ++ [(id, input)])), id)
  end.

(** [Ctx::record_input], in a computation; [recorded] is empty until the scan
    is given up. *)
Definition record_input (implied : list I) (r : list (CtxRead I) * gset I) (input : I)
  : list (CtxRead I) * gset I :=
  let '(reads, recorded) := r in
  if decide (input ∈ implied) then r
  else if decide (recorded = ∅) then
    if existsb (λ read, match read with RInput i => bool_decide (i = input) | _ => false end) reads
    then r
    else if decide (length reads < scanned_reads) then (reads ++ [RInput input], recorded)
    else (reads ++ [RInput input],
          {[input]} ∪ list_to_set (omap (λ read, match read with RInput i => Some i | _ => None end) reads))
  else if decide (input ∈ recorded) then r
  else (reads ++ [RInput input], {[input]} ∪ recorded).

(** One computation with its context: [get_memo] is [Ctx::memo]'s read of
    another table, [world] the build's inputs. *)
Fixpoint run_comp (get_memo : K → Store I K V → Outcome (Store I K V * (Cycle + Answer V)))
    (world : I → A) (implied : list I) (c : Comp I A K V) (r : list (CtxRead I) * gset I) s
  : Outcome (Store I K V * (Cycle + (V * list (CtxRead I)))) :=
  match c with
  | Done value => Ret (s, inr (value, r.1))
  | ReadInput input next =>
      run_comp get_memo world implied (next (world input)) (record_input implied r input) s
  | ReadMemo key next =>
      '(s, answer) ← get_memo key s;
      match answer with
      | inl cycle => Ret (s, inl cycle)
      | inr answer =>
          run_comp get_memo world implied (next (an_value answer))
            (r.1 ++ [RMemo (an_query answer) (an_changed_at answer)], r.2) s
      end
  end.

(** The path of a [Cycle], innermost last. *)
Definition cycle_path query frames : Cycle := reverse (query :: frames).

(** [compute]. *)
Definition compute (get_memo : list QueryId → K → Store I K V → Outcome (Store I K V * (Cycle + Answer V)))
    (world : I → A) frames query key s
  : Outcome (Store I K V * (Cycle + (V * list (CtxRead I)))) :=
  if decide (query ∈ frames) then Ret (s, inl (cycle_path query frames))
  else run_comp (get_memo (query :: frames)) world (implied_of key) (compute_of key) ([], ∅) s.

Definition is_memo_read (read : CtxRead I) : bool :=
  match read with RMemo _ _ => true | RInput _ => false end.

(** The reads an install keeps: the implied inputs, then the reads with each
    memo's first. *)
Definition kept_read (s : list (CtxRead I) * gset QueryId) (read : CtxRead I)
  : list (CtxRead I) * gset QueryId :=
  let '(kept, seen) := s in
  match read with
  | RInput _ => (kept ++ [read], seen)
  | RMemo id _ => if decide (id ∈ seen) then s else (kept ++ [read], {[id]} ∪ seen)
  end.

Definition install_reads (implied : list I) (reads : list (CtxRead I)) : list (CtxRead I) :=
  let memo_reads := length (filter (λ read, is_memo_read read = true) reads) in
  if decide (1 < memo_reads) then (foldl kept_read ([], ∅) ((RInput <$> implied) ++ reads)).1
  else (RInput <$> implied) ++ reads.

(** A read with its fingerprint. *)
Definition recorded_read (r : Store I K V * list (QueryId * N)) (read : CtxRead I)
  : Outcome (Store I K V * list (QueryId * N)) :=
  let '(s, recorded) := r in
  match read with
  | RInput input => '(s, id) ← intern s input; Ret (s, recorded ++ [(id, input_read)])
  | RMemo id changed_at => Ret (s, recorded ++ [(id, changed_at)])
  end.

Fixpoint recorded_reads (r : Store I K V * list (QueryId * N)) (reads : list (CtxRead I))
  : Outcome (Store I K V * list (QueryId * N)) :=
  match reads with
  | [] => Ret r
  | read :: reads => r ← recorded_read r read; recorded_reads r reads
  end.

(** [install], once the reads are recorded. *)
Definition install_entry s query key (value : V) (recorded : list (QueryId * N))
  : Store I K V * Answer V :=
  let revision := st_revision s in
  match st_entry s query with
  | Some entry =>
      if decide (en_computed_at entry = revision ∧ en_state entry = Clean) then
        (s, mk_answer (en_value entry) query (en_changed_at entry))
      else
        let s := set_records s (st_records s ++ [(query, table_of key, recorded)]) in
        let t := st_table s in
        let t := match td_ids t !! key with
                 | Some _ => t
                 | None => mk_table (<[key := query]> (td_ids t)) (<[query := key]> (td_keys t))
                             (td_entries t)
                 end in
        let changed_at := if decide (en_value entry = value) then en_changed_at entry else revision in
        let entry := mk_entry value Clean changed_at revision revision (en_reuse_checked_at entry) in
        (set_entry (set_table s t) query entry, mk_answer value query changed_at)
  | None =>
      let s := set_records s (st_records s ++ [(query, table_of key, recorded)]) in
      let t := st_table s in
      let t := match td_ids t !! key with
               | Some _ => t
               | None => mk_table (<[key := query]> (td_ids t)) (<[query := key]> (td_keys t))
                           (td_entries t)
               end in
      (set_entry (set_table s t) query (mk_entry value Clean revision revision revision 0),
       mk_answer value query revision)
  end.

(** [install]. *)
Definition install s query key (value : V) (reads : list (CtxRead I)) (implied : list I)
  : Outcome (Store I K V * Answer V) :=
  '(s, recorded) ← recorded_reads (s, []) (install_reads implied reads);
  Ret (install_entry s query key value recorded).

(** [get]'s [look]: the entry as found, its use stamped. *)
Definition look s query : Store I K V * option (Entry V) :=
  match st_entry s query with
  | Some entry => (set_entry s query (entry_used entry (st_revision s)), Some entry)
  | None => (s, None)
  end.

(** [clean_changed_at]. *)
Definition clean_changed_at s query : Store I K V * option N :=
  match st_entry s query with
  | Some entry =>
      if decide (en_state entry = Clean) then
        (set_entry s query (entry_used entry (st_revision s)), Some (en_changed_at entry))
      else (s, None)
  | None => (s, None)
  end.

(** [ensure]: [get_memo] reads the entry's key. *)
Definition ensure (get_memo : K → Store I K V → Outcome (Store I K V * (Cycle + Answer V))) s query
  : Outcome (Store I K V * (Cycle + option N)) :=
  match st_entry s query, td_keys (st_table s) !! query with
  | Some _, Some key =>
      '(s, answer) ← get_memo key s;
      Ret (s, match answer with inl cycle => inl cycle | inr a => inr (Some (an_changed_at a)) end)
  | _, _ => Ret (s, inr None)
  end.

(** The loop of [reads_unchanged], over the reads with their nodes' kinds. *)
Fixpoint check_reads (get_memo : K → Store I K V → Outcome (Store I K V * (Cycle + Answer V)))
    (reads : list (QueryId * N * option (NodeKind I))) s : Outcome (Store I K V * (Cycle + bool)) :=
  match reads with
  | [] => Ret (s, inr true)
  | (read, fingerprint, kind) :: reads =>
      match kind with
      | None => Ret (s, inr false)
      | Some (Input _) => check_reads get_memo reads s
      | Some (Memo _) =>
          let '(s, clean) := if st_verify_reused s then (s, None) else clean_changed_at s read in
          '(s, current) ← match clean with
                          | Some changed_at => Ret (s, inr (Some changed_at))
                          | None => ensure get_memo s read
                          end;
          match current with
          | inl cycle => Ret (s, inl cycle)
          | inr current =>
              if decide (current = Some fingerprint) then check_reads get_memo reads s
              else Ret (s, inr false)
          end
      end
  end.

(** [reads_unchanged]. *)
Definition reads_unchanged
    (get_memo : list QueryId → K → Store I K V → Outcome (Store I K V * (Cycle + Answer V)))
    frames query s : Outcome (Store I K V * (Cycle + bool)) :=
  match gr_node (st_graph s) query with
  | None => Ret (s, inr false)
  | Some node =>
      check_reads (get_memo (query :: frames))
        ((λ '(read, fingerprint), (read, fingerprint, nd_kind <$> gr_node (st_graph s) read))
           <$> nd_reads node) s
  end.

(** [recompute]. *)
Definition recompute
    (get_memo : list QueryId → K → Store I K V → Outcome (Store I K V * (Cycle + Answer V)))
    (world : I → A) frames query key s : Outcome (Store I K V * (Cycle + Answer V)) :=
  '(s, computed) ← compute get_memo world frames query key s;
  match computed with
  | inl cycle => Ret (s, inl cycle)
  | inr (value, reads) =>
      '(s, answer) ← install s query key value reads (implied_of key);
      Ret (s, inr answer)
  end.

(** [verify_reuse]. *)
Definition verify_reuse
    (get_memo : list QueryId → K → Store I K V → Outcome (Store I K V * (Cycle + Answer V)))
    (world : I → A) frames query key (value : V) (changed_at : N) s
  : Outcome (Store I K V * (Cycle + Answer V)) :=
  let revision := st_revision s in
  let '(s, first) :=
    match st_entry s query with
    | Some entry => (set_entry s query (entry_checked entry revision),
                     bool_decide (en_reuse_checked_at entry ≠ revision))
    | None => (s, false)
    end in
  if negb first then Ret (s, inr (mk_answer value query changed_at))
  else
    '(s, computed) ← compute get_memo world frames query key s;
    match computed with
    | inl cycle => Ret (s, inl cycle)
    | inr (fresh, reads) =>
        if decide (fresh = value) then Ret (s, inr (mk_answer value query changed_at))
        else
          let s := set_poisoned s true in
          let s := match st_entry s query with
                   | Some entry => set_entry s query (entry_state entry Dirty)
                   | None => s
                   end in
          '(s, answer) ← install s query key fresh reads (implied_of key);
          Ret (s, inr answer)
    end.

(** [get]: the second turn of its loop looks the same query up again. *)
Fixpoint get (fuel : nat) (world : I → A) frames key s
  : Outcome (Store I K V * (Cycle + Answer V)) :=
  match fuel with
  | 0 => Out_of_fuel
  | S fuel =>
      '(s, query) ← query_of s key;
      let '(s, found) := look s query in
      match found with
      | Some entry =>
          match en_state entry with
          | Clean =>
              if st_verify_reused s && bool_decide (en_computed_at entry ≠ st_revision s) then
                verify_reuse (get fuel world) world frames query key (en_value entry)
                  (en_changed_at entry) s
              else Ret (s, inr (mk_answer (en_value entry) query (en_changed_at entry)))
          | MaybeDirty =>
              if decide (query ∈ frames) then Ret (s, inl (cycle_path query frames))
              else
                '(s, unchanged) ← reads_unchanged (get fuel world) frames query s;
                match unchanged with
                | inl cycle => Ret (s, inl cycle)
                | inr true =>
                    let s := match st_entry s query with
                             | Some entry =>
                                 if decide (en_state entry = MaybeDirty)
                                 then set_entry s query (entry_state entry Clean) else s
                             | None => s
                             end in
                    get fuel world frames key s
                | inr false => recompute (get fuel world) world frames query key s
                end
          | Dirty => recompute (get fuel world) world frames query key s
          end
      | None => recompute (get fuel world) world frames query key s
      end
  end.

(** [answer_read]: a cycle answers [on_cycle] and poisons the store. *)
Definition answer_read (fuel : nat) (world : I → A) key s
  : Outcome (Store I K V * (V * option (QueryId * N))) :=
  '(s, answer) ← get fuel world [] key s;
  match answer with
  | inr answer => Ret (s, (an_value answer, Some (an_query answer, an_changed_at answer)))
  | inl _ => Ret (set_poisoned s true, (on_cycle key, None))
  end.

(** [changed_at]. *)
Definition changed_at (fuel : nat) (world : I → A) query s
  : Outcome (Store I K V * option N) :=
  let '(s, clean) := if st_verify_reused s then (s, None) else clean_changed_at s query in
  match clean with
  | Some changed_at => Ret (s, Some changed_at)
  | None =>
      '(s, current) ← ensure (get fuel world []) s query;
      Ret (s, match current with inl _ => None | inr current => current end)
  end.

(** [synced_graph]: interned inputs and queued records move into the graph. *)
Definition sync_input (g : list (GraphShard I)) (fresh : QueryId * I) : list (GraphShard I) :=
  let '(id, input) := fresh in
  alter (λ shard, mk_graph_shard (<[id := node_new (Input input)]> (gs_nodes shard))
                    (gs_unread shard ++ [id]) (gs_pending shard)) (graph_shard id) g.

Definition sync_record (g : list (GraphShard I)) (record : QueuedRecord) : list (GraphShard I) :=
  let '(query, table, reads) := record in
  alter (λ shard,
    let nodes := match gs_nodes shard !! query with
                 | Some _ => gs_nodes shard
                 | None => <[query := node_new (Memo table)]> (gs_nodes shard)
                 end in
    gs_record (mk_graph_shard nodes (gs_unread shard) (gs_pending shard)) query reads)
    (graph_shard query) g.

Definition synced_graph s : Store I K V :=
  let g := foldl sync_input (st_graph s) (in_fresh (st_inputs s)) in
  let g := foldl sync_record g (st_records s) in
  set_records (set_inputs (set_graph s g) (mk_interned (in_ids (st_inputs s)) [])) [].

(** [Store::raise] and [ErasedTable::raise]. *)
Definition raise_entry (state : EntryState) (t : TableData K V) query : TableData K V :=
  mk_table (td_ids t) (td_keys t)
    (alter (λ e, entry_state e (state_max (en_state e) state)) query (td_entries t)).

Definition raise (g : list (GraphShard I)) (state : EntryState) (t : TableData K V) query
  : TableData K V :=
  match gr_node g query with
  | Some node => match nd_kind node with Memo _ => raise_entry state t query | Input _ => t end
  | None => t
  end.

Definition node_readers (g : list (GraphShard I)) query : list QueryId :=
  match gr_node g query with Some node => nd_readers node | None => [] end.

(** One popped query's readers: [while let Some(query) = queue.pop()]. *)
Definition mark_reader (g : list (GraphShard I)) (dirty : gset QueryId)
    (m : TableData K V * gset QueryId * list QueryId) (reader : QueryId)
  : TableData K V * gset QueryId * list QueryId :=
  let '(t, maybe, queue) := m in
  if decide (reader ∈ dirty ∨ reader ∈ maybe) then m
  else (raise g MaybeDirty t reader, {[reader]} ∪ maybe, reader :: queue).

Fixpoint mark_loop (fuel : nat) (g : list (GraphShard I)) (dirty : gset QueryId)
    (m : TableData K V * gset QueryId * list QueryId) : Outcome (TableData K V * gset QueryId) :=
  let '(t, maybe, queue) := m in
  match queue with
  | [] => Ret (t, maybe)
  | query :: queue =>
      match fuel with
      | 0 => Out_of_fuel
      | S fuel =>
          mark_loop fuel g dirty
            (foldl (mark_reader g dirty) (t, maybe, queue) (node_readers g query))
      end
  end.

(** Every reader, once. *)
Definition mark_fuel (g : list (GraphShard I)) (direct : list QueryId) : nat :=
  length direct + sum_list_with (λ node, length (nd_readers node)) (gr_nodes g).

(** [Invalidation]. *)
Record Invalidation := mk_invalidation {
  iv_changed_inputs : nat;
  iv_dirty : nat;
  iv_maybe_dirty : nat
}.

(** [mark]. *)
Definition mark s (changed : list I) : Outcome (Store I K V * Invalidation) :=
  let found := omap (interned s) changed in
  match found with
  | [] => Ret (s, mk_invalidation 0 0 0)
  | _ =>
      let s := synced_graph s in
      g ← or_panic (gr_flush (st_graph s));
      let s := set_graph s g in
      let direct := sort_dedup (found ≫= node_readers g) in
      let dirty : gset QueryId := list_to_set direct in
      let t := foldl (raise g Dirty) (st_table s) direct in
      '(t, maybe) ← mark_loop (mark_fuel g direct) g dirty (t, ∅, reverse direct);
      Ret (set_table s t, mk_invalidation (length found) (size dirty) (size maybe))
  end.

(** [clear]. *)
Definition clear s : Store I K V :=
  mk_store (mk_table ∅ ∅ ∅) graph_default 0 (mk_interned ∅ []) [] (st_revision s)
    (st_poisoned s) (st_verify_reused s).

(** [begin]. *)
Definition begin_build s (changed : list I) : Outcome (Store I K V * Invalidation) :=
  let s := if st_poisoned s then clear (set_poisoned s false) else s in
  let s := set_revision s ((st_revision s + 1) mod 2 ^ 32) in
  mark s changed.

(** [invalidate]. *)
Definition invalidate s (changed : list I) : Outcome (Store I K V * Invalidation) := mark s changed.

(** ** [end] *)

(** A live entry's memo reads are live. *)
Definition live_read (m : gset QueryId * list QueryId) (read : QueryId * N)
  : gset QueryId * list QueryId :=
  let '(live, queue) := m in
  if decide (read.2 ≠ input_read ∧ read.1 ∉ live) then ({[read.1]} ∪ live, read.1 :: queue) else m.

Fixpoint live_loop (fuel : nat) (g : list (GraphShard I)) (m : gset QueryId * list QueryId)
  : Outcome (gset QueryId) :=
  let '(live, queue) := m in
  match queue with
  | [] => Ret live
  | query :: queue =>
      match fuel with
      | 0 => Out_of_fuel
      | S fuel =>
          live_loop fuel g
            (match gr_node g query with
             | Some node => foldl live_read (live, queue) (nd_reads node)
             | None => (live, queue)
             end)
      end
  end.

Definition live_fuel (g : list (GraphShard I)) (used : list QueryId) : nat :=
  length used + sum_list_with (λ node, length (nd_reads node)) (gr_nodes g).

(** [sweep]: the dropped queries, sorted. *)
Definition sweep (t : TableData K V) (live : gset QueryId) : TableData K V * list QueryId :=
  let entries := filter (λ e, e.1 ∈ live) (td_entries t) in
  let dropped := filter (λ e, entries !! e.1 = None) (map_to_list (td_keys t)) in
  (mk_table (foldl (λ ids e, delete e.2 ids) (td_ids t) dropped)
            (filter (λ e, is_Some (entries !! e.1)) (td_keys t)) entries,
   sort_dedup dropped.*1).

(** One dropped query's node, its lost edges and its readers. *)
Definition drop_node (m : list (GraphShard I) * Edges * list QueryId) query
  : list (GraphShard I) * Edges * list QueryId :=
  let '(g, lost, stale) := m in
  let '(g, node) := gr_remove g query in
  match node with
  | None => (g, lost, stale)
  | Some node => (g, foldl (push_lost query) lost (nd_reads node), stale ++ nd_readers node)
  end.

(** The sweep of [end]. *)
Definition sweep_unused s (used : list QueryId) : Outcome (Store I K V) :=
  let g := st_graph s in
  live ← live_loop (live_fuel g used) g (list_to_set used, reverse used);
  let '(t, dropped) := sweep (st_table s) live in
  let '(g, lost, stale) := foldl drop_node (g, no_edges, []) dropped in
  g ← or_panic (gr_apply_edges g lost);
  Ret (set_table (set_graph s g) (foldl (raise g Dirty) t stale)).

(** One candidate of one shard's unread inputs. *)
Definition release_unread (m : gmap QueryId (Node I) * gmap I QueryId * list I) query
  : gmap QueryId (Node I) * gmap I QueryId * list I :=
  let '(nodes, ids, released) := m in
  match nodes !! query with
  | Some (mk_node (Input input) _ []) =>
      (delete query nodes, delete input ids, released ++ [input])
  | _ => m
  end.

Fixpoint release_shards (shards : list (GraphShard I)) (ids : gmap I QueryId) (released : list I)
  : list (GraphShard I) * gmap I QueryId * list I :=
  match shards with
  | [] => ([], ids, released)
  | shard :: shards =>
      let '(nodes, ids, released) :=
        foldl release_unread (gs_nodes shard, ids, released) (gs_unread shard) in
      let '(shards, ids, released) := release_shards shards ids released in
      (mk_graph_shard nodes [] (gs_pending shard) :: shards, ids, released)
  end.

(** [end]: the inputs no entry reads any more. *)
Definition end_build s : Outcome (Store I K V * list I) :=
  let revision := st_revision s in
  let s := synced_graph s in
  g ← or_panic (gr_flush (st_graph s));
  let s := set_graph s g in
  let used := sort_dedup
    (filter (λ e, en_used_at e.2 = revision) (map_to_list (td_entries (st_table s)))).*1 in
  s ← (if decide (length used < size (td_entries (st_table s))) then sweep_unused s used else Ret s);
  let '(g, ids, released) := release_shards (st_graph s) (in_ids (st_inputs s)) [] in
  Ret (set_inputs (set_graph s g) (mk_interned ids (in_fresh (st_inputs s))),
       merge_sort (cmp_le input_cmp) released).

End store.
