(* ===== verification/MemoSpec.v ===== *)
(** * What a memo store holds

    The from-scratch meaning of a key, the invariant that ties every entry and
    its record to it, and the steps that keep the invariant.

    Then: the memo store's steps keep its invariant. *)
From S2P Require Import Prelude Order MemoGraph MemoGraphSpec Memo.

(** ** Evaluation from scratch *)
Section eval.
Context {I A K V : Type} (compute_of : K → Comp I A K V).
Implicit Types (w : I → A) (c : Comp I A K V) (k : K) (v : V).

Inductive Event :=
  | EvInput (i : I)
  | EvMemo (k : K) (v : V).

(** The reads of a computation in a world, with the memo answers it saw. *)
Inductive follows w : Comp I A K V → list Event → V → Prop :=
  | follows_done v : follows w (Done v) [] v
  | follows_input i next tr v :
      follows w (next (w i)) tr v → follows w (ReadInput i next) (EvInput i :: tr) v
  | follows_memo k v0 next tr v :
      follows w (next v0) tr v → follows w (ReadMemo k next) (EvMemo k v0 :: tr) v.

(** The answer computed with nothing memoized. *)
Inductive eval w : K → V → Prop :=
  | eval_intro k v tr :
      follows w (compute_of k) tr v →
      (∀ k' v', EvMemo k' v' ∈ tr → eval w k' v') →
      eval w k v.

Lemma follows_world w w' c tr v :
  follows w c tr v → (∀ i, EvInput i ∈ tr → w' i = w i) → follows w' c tr v.
Proof.
  induction 1 as [v|i next tr v Hf IH|k v0 next tr v Hf IH]; intros Hw.
  - constructor.
  - constructor. rewrite (Hw i) by (by left). apply IH. intros; apply Hw. by right.
  - constructor. apply IH. intros; apply Hw. by right.
Qed.

Lemma follows_agree w c tr v : follows w c tr v → ∀ tr' v', follows w c tr' v' →
  (∀ k a b, EvMemo k a ∈ tr → EvMemo k b ∈ tr' → a = b) → tr' = tr ∧ v' = v.
Proof.
  induction 1 as [v|i next tr v Hf IH|k v0 next tr v Hf IH]; intros tr' v' Hf' Hag;
    inversion Hf' as [|? ? tr1 ? Hf1|? v1 ? tr1 ? Hf1]; subst.
  - done.
  - destruct (IH _ _ Hf1) as [-> ->]; [|done]. intros k a b Ha Hb. apply (Hag k); by right.
  - assert (v1 = v0) as -> by (symmetry; apply (Hag k); by left).
    destruct (IH _ _ Hf1) as [-> ->]; [|done]. intros k' a b Ha Hb. apply (Hag k'); by right.
Qed.

Lemma eval_det w k v : eval w k v → ∀ v', eval w k v' → v' = v.
Proof.
  induction 1 as [k v tr Hf Hsub IH]. intros v' Hv'.
  inversion Hv' as [? ? tr' Hf' Hsub']; subst.
  eapply follows_agree; [exact Hf|exact Hf'|].
  intros k' a b Ha Hb. symmetry. by apply (IH k' a Ha), Hsub'.
Qed.

(** Two traces of one computation that agree up to a point go on alike. *)
Lemma follows_prefix w c tr v : follows w c tr v → ∀ tr' v', follows w c tr' v' →
  ∀ t1 k a t2, tr = t1 ++ EvMemo k a :: t2 →
  (∀ k' x y, EvMemo k' x ∈ t1 → EvMemo k' y ∈ tr' → x = y) →
  ∃ b, EvMemo k b ∈ tr'.
Proof.
  induction 1 as [v|i next tr v Hf IH|k0 v0 next tr v Hf IH]; intros tr' v' Hf' t1 k a t2 Heq Hag.
  - by destruct t1.
  - inversion Hf' as [|? ? tr1 ? Hf1|]; subst. destruct t1 as [|ev t1]; [done|]. simplify_eq/=.
    destruct (IH _ _ Hf1 t1 k a t2 eq_refl) as [b Hb]; [|exists b; by right].
    intros k' x y Hx Hy. apply (Hag k'); by right.
  - inversion Hf' as [| |? v1 ? tr1 ? Hf1]; subst. destruct t1 as [|ev t1]; simplify_eq/=.
    + exists v1. by left.
    + assert (v1 = v0) as -> by (symmetry; apply (Hag k0); by left).
      destruct (IH _ _ Hf1 t1 k a t2 eq_refl) as [b Hb]; [|exists b; by right].
      intros k' x y Hx Hy. apply (Hag k'); by right.
Qed.

End eval.
Arguments EvInput {I K V} _.
Arguments EvMemo {I K V} _ _.

(** ** The invariant *)
Section invariant.
Context {I A K V : Type} `{Countable I, Countable K, EqDecision V}.
Context (compute_of : K → Comp I A K V) (w : I → A).
Implicit Types (s : Store I K V) (q : QueryId) (k : K) (v : V) (e : Entry V).
Implicit Types (tr : list (Event (I := I) (K := K) (V := V))) (rds : list (QueryId * N)).

(** The reads last recorded of a query: queued, or in the graph. *)
Definition queued s q : list QueuedRecord := filter (λ r, r.1.1 = q) (st_records s).

Definition recorded s q : option (list (QueryId * N)) :=
  match last (queued s q) with
  | Some r => Some r.2
  | None => nd_reads <$> gr_node (st_graph s) q
  end.

(** The queries a query is recorded to have read. *)
Definition reads_at s q : list QueryId := (default [] (recorded s q)).*1.

(** A record names nodes that are there. *)
Definition known s (r : QueryId * N) : Prop :=
  if decide (r.2 = input_read) then ∃ i, in_ids (st_inputs s) !! i = Some r.1
  else is_Some (st_entry s r.1).

(** An interned input enters the graph once. *)
Definition fresh_ok s : Prop :=
  NoDup (in_fresh (st_inputs s)).*1 ∧
  ∀ q i, (q, i) ∈ in_fresh (st_inputs s) → gr_node (st_graph s) q = None.

(** Every read of a trace is recorded, memo reads in the order first made. *)
Record trace_recorded s tr rds : Prop := {
  tc_input : ∀ i, EvInput i ∈ tr → ∃ q, in_ids (st_inputs s) !! i = Some q ∧ (q, input_read) ∈ rds;
  tc_memo : ∀ k v, EvMemo k v ∈ tr → ∃ q rev, td_ids (st_table s) !! k = Some q ∧ (q, rev) ∈ rds ∧
    rev ≠ input_read;
  tc_order : ∀ r1 q rev r2, rds = r1 ++ (q, rev) :: r2 → rev ≠ input_read →
    ∃ t1 k v t2, tr = t1 ++ EvMemo k v :: t2 ∧ td_ids (st_table s) !! k = Some q ∧
      ∀ k' v', EvMemo k' v' ∈ t1 → ∃ q' rev', td_ids (st_table s) !! k' = Some q' ∧
        (q', rev') ∈ r1 ∧ rev' ≠ input_read
}.

(** The record of an entry that is not dirty: the trace of its computation,
    in today's inputs, with the answers the recorded revisions stand for. *)
Definition entry_trace s q k e : Prop :=
  ∃ tr rds, recorded s q = Some rds ∧
    follows w (compute_of k) tr (en_value e) ∧ trace_recorded s tr rds ∧
    (∀ q' rev, (q', rev) ∈ rds → rev ≠ input_read →
      (rev ≤ st_revision s)%N ∧ (en_state e ≠ Clean → (rev < st_revision s)%N)) ∧
    (∀ k' v' q' rev, EvMemo k' v' ∈ tr → td_ids (st_table s) !! k' = Some q' →
      (q', rev) ∈ rds → rev ≠ input_read →
      ∃ e', st_entry s q' = Some e' ∧ (en_changed_at e' = rev → en_value e' = v') ∧
        (en_state e = Clean → en_state e' = Clean ∧ en_changed_at e' = rev)).

Record entry_ok s q e : Prop := {
  eo_key : ∃ k, td_keys (st_table s) !! q = Some k ∧
    (en_state e ≠ Dirty → entry_trace s q k e) ∧
    (en_state e = Clean → eval compute_of w k (en_value e));
  eo_changed : (en_changed_at e ≤ en_computed_at e ≤ st_revision s)%N;
  eo_stale : en_state e ≠ Clean → (en_changed_at e < st_revision s)%N ∧ queued s q = []
}.

(** Ids are allocated once, for a key or for an input. *)
Record ids_ok s : Prop := {
  io_bij : ∀ k q, td_ids (st_table s) !! k = Some q ↔ td_keys (st_table s) !! q = Some k;
  io_key : ∀ q k, td_keys (st_table s) !! q = Some k → (q < 16 * st_next s)%N;
  io_next : (16 * st_next s ≤ 2 ^ 32)%N;
  io_input : ∀ i q, in_ids (st_inputs s) !! i = Some q →
    (q < 16 * st_next s)%N ∧ td_keys (st_table s) !! q = None;
  io_inj : ∀ i j q, in_ids (st_inputs s) !! i = Some q →
    in_ids (st_inputs s) !! j = Some q → i = j;
  io_fresh : ∀ q i, (q, i) ∈ in_fresh (st_inputs s) → in_ids (st_inputs s) !! i = Some q
}.

Record store_ok s : Prop := {
  so_ids : ids_ok s;
  so_entries : ∀ q e, st_entry s q = Some e → entry_ok s q e;
  so_records : ∀ r, r ∈ st_records s → is_Some (st_entry s r.1.1);
  so_born : ∀ q, is_Some (st_entry s q) → is_Some (recorded s q);
  so_born_input : ∀ i q, in_ids (st_inputs s) !! i = Some q →
    (q, i) ∈ in_fresh (st_inputs s) ∨ is_Some (gr_node (st_graph s) q);
  so_nodes : ∀ q n, gr_node (st_graph s) q = Some n →
    match nd_kind n with
    | Memo _ => is_Some (st_entry s q)
    | Input i => in_ids (st_inputs s) !! i = Some q
    end;
  so_reads : ∀ q rds, recorded s q = Some rds → Forall (known s) rds;
  so_input_reads : ∀ i q, in_ids (st_inputs s) !! i = Some q → reads_at s q = [];
  so_fresh : fresh_ok s;
  so_graph : graph_ok (st_graph s);
  so_closed : closed (st_graph s);
  so_revision : (st_revision s < 2 ^ 32)%N
}.

(** ** What a build's reads may do to a store *)

(** An entry keeps its answer, perhaps verified, or takes today's. *)
Definition entry_later (revision : N) e e' : Prop :=
  (en_value e' = en_value e ∧ en_changed_at e' = en_changed_at e ∧
    (en_state e' = en_state e ∨ en_state e' = Clean)) ∨
  (en_state e ≠ Clean ∧ en_state e' = Clean ∧ en_changed_at e' = revision).

Record later s s' : Prop := {
  lt_revision : st_revision s' = st_revision s;
  lt_graph : st_graph s' = st_graph s;
  lt_verify : st_verify_reused s' = st_verify_reused s;
  lt_poisoned : st_poisoned s' = st_poisoned s;
  lt_ids : td_ids (st_table s) ⊆ td_ids (st_table s');
  lt_inputs : in_ids (st_inputs s) ⊆ in_ids (st_inputs s');
  lt_entries : ∀ q e, st_entry s q = Some e →
    ∃ e', st_entry s' q = Some e' ∧ entry_later (st_revision s) e e'
}.

(** Everything but the stamps of use. *)
Definition same_answer e e' : Prop :=
  en_value e' = en_value e ∧ en_state e' = en_state e ∧
  en_changed_at e' = en_changed_at e ∧ en_computed_at e' = en_computed_at e.

Lemma same_answer_later rev e e' : same_answer e e' → entry_later rev e e'.
Proof. intros (? & ? & ? & ?). left. auto. Qed.

Lemma entry_later_trans rev e1 e2 e3 :
  entry_later rev e1 e2 → entry_later rev e2 e3 → entry_later rev e1 e3.
Proof.
  intros [(H1 & H2 & H3)|(H1 & H2 & H3)] [(H4 & H5 & H6)|(H4 & H5 & H6)].
  - left. split; [congruence|]. split; [congruence|]. destruct H3, H6; first [left; congruence|right; congruence].
  - right. destruct H3 as [H3|H3]; [|congruence]. rewrite <- H3. auto.
  - right. split; [done|]. split; [destruct H6; congruence|congruence].
  - congruence.
Qed.

Lemma later_refl s : later s s.
Proof. split; try done. intros q e He. exists e. split; [done|]. by apply same_answer_later. Qed.

Lemma later_trans s1 s2 s3 : later s1 s2 → later s2 s3 → later s1 s3.
Proof.
  intros H1 H2. destruct H1 as [R1 G1 V1 P1 D1 N1 E1], H2 as [R2 G2 V2 P2 D2 N2 E2].
  split; try congruence; try (by etrans).
  intros q e He. destruct (E1 q e He) as (e2 & He2 & L1).
  destruct (E2 q e2 He2) as (e3 & He3 & L2). exists e3. split; [done|].
  eapply entry_later_trans; [exact L1|]. by rewrite <- R1.
Qed.

Lemma later_clean s s' q e :
  later s s' → st_entry s q = Some e → en_state e = Clean →
  ∃ e', st_entry s' q = Some e' ∧ en_state e' = Clean ∧ en_value e' = en_value e ∧
    en_changed_at e' = en_changed_at e.
Proof.
  intros Hl He Hc. destruct (lt_entries _ _ Hl q e He) as (e' & He' & [(H1 & H2 & H3)|(H1 & _)]);
    [|done]. exists e'. split; [done|]. split; [|done]. destruct H3; congruence.
Qed.

Lemma recorded_same s s' q :
  queued s' q = queued s q → st_graph s' = st_graph s → recorded s' q = recorded s q.
Proof. intros H1 H2. unfold recorded. by rewrite H1, H2. Qed.

Lemma known_later s s' r : later s s' → known s r → known s' r.
Proof.
  intros Hl. unfold known. case_decide.
  - intros [i Hi]. exists i. eapply lookup_weaken; [exact Hi|apply Hl].
  - intros [e He]. destruct (lt_entries _ _ Hl _ e He) as (e' & He' & _). by exists e'.
Qed.

Lemma queued_nil s q : (∀ r, r ∈ st_records s → r.1.1 ≠ q) → queued s q = [].
Proof.
  intros Hr. unfold queued. induction (st_records s) as [|r l IH]; [done|].
  rewrite filter_cons_False; [apply IH; intros; apply Hr; by right|]. apply Hr. by left.
Qed.

Lemma trace_recorded_later s s' tr rds :
  td_ids (st_table s) ⊆ td_ids (st_table s') → in_ids (st_inputs s) ⊆ in_ids (st_inputs s') →
  trace_recorded s tr rds → trace_recorded s' tr rds.
Proof.
  intros Hd Hn [Hi Hm Ho]. split.
  - intros i Hin. destruct (Hi i Hin) as (q & Hq & ?). exists q. split; [by eapply lookup_weaken|done].
  - intros k v Hin. destruct (Hm k v Hin) as (q & rev & Hq & ?). exists q, rev.
    split; [by eapply lookup_weaken|done].
  - intros r1 q rev r2 Heq Hrev. destruct (Ho r1 q rev r2 Heq Hrev) as (t1 & k & v & t2 & Ht & Hk & Hsub).
    exists t1, k, v, t2. split; [done|]. split; [by eapply lookup_weaken|].
    intros k' v' Hin. destruct (Hsub k' v' Hin) as (q' & rev' & Hq' & ?). exists q', rev'.
    split; [by eapply lookup_weaken|done].
Qed.

(** An entry that is not written keeps its invariant. *)
Lemma entry_ok_later s s' q e e' :
  ids_ok s → ids_ok s' → later s s' → queued s' q = queued s q → same_answer e e' →
  entry_ok s q e → entry_ok s' q e'.
Proof.
  intros Hids0 Hids Hl Hq (Sv & Ss & Sc & Sp) [(k & Hk & Htr & Hev) Hch Hst].
  pose proof (lt_revision _ _ Hl) as Hrev. pose proof (lt_ids _ _ Hl) as Hd.
  pose proof (recorded_same s s' q Hq (lt_graph _ _ Hl)) as Hrec.
  split.
  - exists k. rewrite Ss, Sv. split; [|split; [|done]].
    { apply (io_bij _ Hids). eapply lookup_weaken; [|exact Hd]. by apply (io_bij _ Hids0). }
    intros Hnd. destruct (Htr Hnd) as (tr & rds & Hr & Hf & Htc & Hrevs & Hans).
    exists tr, rds. rewrite Sv, Ss, Hrev. split; [congruence|]. split; [done|].
    split; [eapply trace_recorded_later; [exact Hd|apply Hl|done]|]. split; [done|].
    intros k' v' q' rev Hin Hk' Hrd Hinp.
    destruct (tc_memo _ _ _ Htc k' v' Hin) as (q0 & rev0 & Hq0 & _).
    pose proof (lookup_weaken _ _ _ _ Hq0 Hd). assert (q0 = q') as -> by congruence.
    destruct (Hans k' v' q' rev Hin Hq0 Hrd Hinp) as (e0 & He0 & Hval & Hclean).
    destruct (lt_entries _ _ Hl q' e0 He0) as (e1 & He1 & [(L1 & L2 & L3)|(L1 & L2 & L3)]).
    + exists e1. split; [done|]. split; [rewrite L1, L2; exact Hval|]. intros Hc.
      destruct (Hclean Hc) as [C1 C2]. split; [destruct L3; congruence|congruence].
    + exists e1. split; [done|]. destruct (Hrevs q' rev Hrd Hinp) as [_ Hlt].
      assert (en_state e ≠ Clean) as Hnc by (intros Hc; by destruct (Hclean Hc)).
      split; [|done]. intros Heq. specialize (Hlt Hnc). lia.
  - by rewrite Sc, Sp, Hrev.
  - rewrite Ss, Sc, Hrev, Hq. done.
Qed.

(** A step of a build keeps the invariant when every entry it writes does. *)
Lemma store_ok_later s s' :
  store_ok s → later s s' → ids_ok s' →
  (∀ r, r ∈ in_fresh (st_inputs s) → r ∈ in_fresh (st_inputs s')) →
  (∀ i q, in_ids (st_inputs s') !! i = Some q →
    in_ids (st_inputs s) !! i = Some q ∨ (q, i) ∈ in_fresh (st_inputs s')) →
  fresh_ok s' →
  (∀ r, r ∈ st_records s' → r ∈ st_records s ∨ is_Some (st_entry s' r.1.1)) →
  (∀ q e', st_entry s' q = Some e' →
    (∃ e, st_entry s q = Some e ∧ same_answer e e' ∧ queued s' q = queued s q) ∨
    (entry_ok s' q e' ∧ ∃ rds, recorded s' q = Some rds ∧ Forall (known s') rds)) →
  store_ok s'.
Proof.
  intros Hs Hl Hids Hfresh Hin Hfr Hrecs Hent. pose proof (lt_graph _ _ Hl) as Hg.
  assert (∀ r, r ∈ st_records s' → is_Some (st_entry s' r.1.1)) as Hrecs'.
  { intros r [Hr|?]%Hrecs; [|done]. destruct (so_records _ Hs r Hr) as [e He].
    destruct (lt_entries _ _ Hl _ e He) as (e' & He' & _). by exists e'. }
  split.
  - done.
  - intros q e' He'. destruct (Hent q e' He') as [(e & He & Hsame & Hq)|[? _]]; [|done].
    eapply entry_ok_later; [apply Hs|done|done|done|done|by apply (so_entries _ Hs)].
  - done.
  - intros q [e' He']. destruct (Hent q e' He') as [(e & He & _ & Hq)|(_ & rds & -> & _)]; [|done].
    rewrite (recorded_same s s' q Hq Hg). apply (so_born _ Hs). by exists e.
  - intros i q [Hi|Hi]%Hin; [|by left]. rewrite Hg.
    destruct (so_born_input _ Hs i q Hi) as [?|?]; [left; auto|by right].
  - intros q n. rewrite Hg. intros Hn. pose proof (so_nodes _ Hs q n Hn) as Hk.
    destruct (nd_kind n); [by eapply lookup_weaken, Hl|]. destruct Hk as [e He].
    destruct (lt_entries _ _ Hl q e He) as (e' & He' & _). by exists e'.
  - intros q rds Hrds.
    assert (queued s' q = queued s q → Forall (known s') rds) as Hsame.
    { intros Hq. rewrite (recorded_same s s' q Hq Hg) in Hrds.
      eapply Forall_impl; [by apply (so_reads _ Hs q)|]. intros. by eapply known_later. }
    destruct (st_entry s' q) as [e'|] eqn:He'.
    + destruct (Hent q e' He') as [(_ & _ & _ & Hq)|(_ & rds' & Hr & Hk)]; [by apply Hsame|].
      by assert (rds' = rds) as -> by congruence.
    + apply Hsame. rewrite !queued_nil; [done| |].
      * intros r Hr <-. destruct (so_records _ Hs r Hr) as [e He].
        destruct (lt_entries _ _ Hl _ e He) as (e' & He1 & _). congruence.
      * intros r Hr <-. destruct (Hrecs' r Hr). congruence.
  - intros i q Hi.
    assert (queued s' q = []) as Hq'.
    { apply queued_nil. intros r Hr <-. destruct (Hrecs' r Hr) as [e' He'].
      assert (entry_ok s' r.1.1 e') as [(k & Hk & _) _ _].
      { destruct (Hent _ e' He') as [(e & He & Hsame & Hqe)|[? _]]; [|done].
        eapply entry_ok_later; [apply Hs|done|done|done|done|by apply (so_entries _ Hs)]. }
      destruct (io_input _ Hids i _ Hi). congruence. }
    destruct (Hin i q Hi) as [Hi0|Hf].
    + pose proof (so_input_reads _ Hs i q Hi0) as Hr. unfold reads_at in *.
      rewrite (recorded_same s s' q); [done| |done]. rewrite Hq'. symmetry. apply queued_nil.
      intros r Hrc <-. destruct (so_records _ Hs r Hrc) as [e He].
      destruct (so_entries _ Hs _ e He) as [(k & Hk & _) _ _].
      destruct (io_input _ (so_ids _ Hs) i _ Hi0). congruence.
    + unfold reads_at, recorded. destruct Hfr as [_ Hnew]. by rewrite Hq', (Hnew q i Hf).
  - done.
  - rewrite Hg. apply Hs.
  - rewrite Hg. apply Hs.
  - rewrite (lt_revision _ _ Hl). apply Hs.
Qed.

End invariant.

(** * The memo store's steps keep its invariant *)

Section steps.
Context {I A K V : Type} `{Countable I, Countable K, EqDecision V}.
Context (table_of : K → N) (key_hash : K → N) (input_hash : I → N).
Context (compute_of : K → Comp I A K V) (w : I → A).
Implicit Types (s : Store I K V) (q : QueryId) (k : K) (v : V) (e : Entry V).
Implicit Types (tr : list (Event (I := I) (K := K) (V := V))) (rds : list (QueryId * N)).

Local Abbreviation store_ok := (store_ok compute_of w) (only parsing).
Local Abbreviation entry_ok := (entry_ok compute_of w) (only parsing).

Lemma st_entry_set s q e q' :
  st_entry (set_entry s q e) q' = if decide (q = q') then Some e else st_entry s q'.
Proof.
  unfold st_entry. simpl. case_decide as Hq; [subst; by rewrite lookup_insert_eq|].
  by rewrite lookup_insert_ne.
Qed.

(** ** Stamping an entry *)
Lemma touch_ok s q e e' :
  store_ok s → st_entry s q = Some e → same_answer e e' →
  store_ok (set_entry s q e') ∧ later s (set_entry s q e').
Proof.
  intros Hs He Hsame.
  assert (later s (set_entry s q e')) as Hl.
  { split; try done. intros q0 e0 He0. rewrite st_entry_set. case_decide as Hq.
    - subst q0. exists e'. split; [done|]. assert (e0 = e) as -> by congruence.
      by apply same_answer_later.
    - exists e0. split; [done|]. by apply same_answer_later. }
  split; [|done]. eapply store_ok_later; [exact Hs|exact Hl|..].
  - destruct (so_ids _ _ _ Hs). by split.
  - done.
  - by left.
  - apply (so_fresh _ _ _ Hs).
  - by left.
  - intros q0 e0. rewrite st_entry_set. case_decide as Hq; intros He0; left.
    + subst q0. exists e. split; [done|]. split; [|done]. congruence.
    + exists e0. split; [done|]. done.
Qed.

Lemma look_ok s q s' found :
  store_ok s → look s q = (s', found) →
  store_ok s' ∧ later s s' ∧ found = st_entry s q ∧
  ∀ e, found = Some e → ∃ e', st_entry s' q = Some e' ∧ same_answer e e'.
Proof.
  intros Hs. unfold look. destruct (st_entry s q) as [e|] eqn:He; intros [= <- <-].
  - destruct (touch_ok s q e (entry_used e (st_revision s)) Hs He) as [H1 H2]; [done|].
    split; [done|]. split; [done|]. split; [done|]. intros e0 [= <-].
    eexists. split; [rewrite st_entry_set; by rewrite decide_True|done].
  - split; [done|]. split; [apply later_refl|]. done.
Qed.

Lemma clean_changed_at_ok s q s' changed_at :
  store_ok s → clean_changed_at s q = (s', changed_at) →
  store_ok s' ∧ later s s' ∧
  ∀ rev, changed_at = Some rev → ∃ e, st_entry s' q = Some e ∧ en_state e = Clean ∧
    en_changed_at e = rev.
Proof.
  intros Hs. unfold clean_changed_at. destruct (st_entry s q) as [e|] eqn:He.
  - case_decide as Hc; intros [= <- <-].
    + destruct (touch_ok s q e (entry_used e (st_revision s)) Hs He) as [H1 H2]; [done|].
      split; [done|]. split; [done|]. intros rev [= <-].
      eexists. split; [rewrite st_entry_set; by rewrite decide_True|done].
    + split; [done|]. split; [apply later_refl|]. done.
  - intros [= <- <-]. split; [done|]. split; [apply later_refl|]. done.
Qed.

(** ** Allocating ids *)
Lemma allocate_ok s shard s' q :
  ids_ok s → (shard < 16)%N → allocate s shard = Ret (s', q) →
  s' = set_next s (st_next s + 1) ∧ (q < 16 * (st_next s + 1))%N ∧
  (16 * st_next s ≤ q)%N ∧ (16 * (st_next s + 1) ≤ 2 ^ 32)%N.
Proof.
  intros Hids Hshard. unfold allocate, table_shards. case_decide as Hlt; [|done].
  intros [= <- <-]. assert (st_next s < 2 ^ 28)%N as Hn by lia.
  rewrite N.mod_small by lia. split; [done|]. lia.
Qed.

Lemma shard_lt (h : N) : (h mod table_shards < 16)%N.
Proof. unfold table_shards. by apply N.mod_upper_bound. Qed.

Lemma query_of_ok s k s' q :
  store_ok s → query_of key_hash s k = Ret (s', q) →
  store_ok s' ∧ later s s' ∧ td_ids (st_table s') !! k = Some q ∧
  (∀ q, st_entry s' q = st_entry s q) ∧ st_records s' = st_records s.
Proof.
  intros Hs. unfold query_of. destruct (td_ids (st_table s) !! k) as [q0|] eqn:Hk.
  { intros [= <- <-]. split; [done|]. split; [apply later_refl|]. done. }
  destruct (allocate s (key_shard key_hash k)) as [| |[s1 q1]] eqn:Ha; [done..|]. simpl.
  intros [= <- <-]. pose proof (so_ids _ _ _ Hs) as Hids.
  destruct (allocate_ok _ _ _ _ Hids (shard_lt _) Ha) as (-> & Hq1 & Hq2 & Hnext).
  assert (td_keys (st_table s) !! q1 = None) as Hfree.
  { apply eq_None_not_Some. intros [k' Hk']. apply (io_key _ Hids) in Hk'. lia. }
  match goal with |- store_ok ?s2 ∧ _ => set (s' := s2) end.
  assert (later s s') as Hl.
  { split; try done; simpl.
    - by apply insert_subseteq.
    - intros q e He. exists e. split; [done|]. by apply same_answer_later. }
  split; [|split; [done|split; [|done]]].
  - eapply store_ok_later; [exact Hs|exact Hl|..].
    + destruct Hids as [H1 H2 H3 H4 H5 H6]. split; simpl.
      * intros k' q'. destruct (decide (k' = k)) as [->|Hne].
        -- rewrite lookup_insert_eq. destruct (decide (q' = q1)) as [->|Hq'].
           ++ by rewrite lookup_insert_eq.
           ++ rewrite lookup_insert_ne by done. rewrite <- H1, Hk. split; [congruence|done].
        -- rewrite lookup_insert_ne by done. destruct (decide (q' = q1)) as [->|Hq'].
           ++ rewrite lookup_insert_eq. split; [|congruence]. intros Hx%H1. congruence.
           ++ rewrite lookup_insert_ne by done. apply H1.
      * intros q' k'. rewrite lookup_insert_Some. intros [[<- _]|[_ Hx%H2]]; lia.
      * done.
      * intros i q' Hi. destruct (H4 i q' Hi) as [Hlt Hn]. split; [lia|].
        rewrite lookup_insert_ne by lia. done.
      * done.
      * done.
    + done.
    + by left.
    + apply (so_fresh _ _ _ Hs).
    + by left.
    + intros q e He. left. exists e. done.
  - simpl. by rewrite lookup_insert_eq.
Qed.

(** A node's id was allocated. *)
Lemma node_id_lt s q : store_ok s → is_Some (gr_node (st_graph s) q) → (q < 16 * st_next s)%N.
Proof.
  intros Hs [n Hn]. pose proof (so_nodes _ _ _ Hs q n Hn) as Hk. pose proof (so_ids _ _ _ Hs) as Hids.
  destruct (nd_kind n) as [i|t]; [by apply (io_input _ Hids) in Hk as [? _]|]. destruct Hk as [e He].
  destruct (so_entries _ _ _ Hs q e He) as [(k & Hk & _) _ _]. by apply (io_key _ Hids) in Hk.
Qed.

Lemma intern_ok s i s' q :
  store_ok s → intern input_hash s i = Ret (s', q) →
  store_ok s' ∧ later s s' ∧ in_ids (st_inputs s') !! i = Some q ∧
  (∀ q, st_entry s' q = st_entry s q) ∧ st_records s' = st_records s ∧
  td_ids (st_table s') = td_ids (st_table s).
Proof.
  intros Hs. unfold intern. destruct (in_ids (st_inputs s) !! i) as [q0|] eqn:Hi.
  { intros [= <- <-]. split; [done|]. split; [apply later_refl|]. done. }
  destruct (allocate s (input_shard input_hash i)) as [| |[s1 q1]] eqn:Ha; [done..|]. simpl.
  intros [= <- <-]. pose proof (so_ids _ _ _ Hs) as Hids.
  destruct (allocate_ok _ _ _ _ Hids (shard_lt _) Ha) as (-> & Hq1 & Hq2 & Hnext).
  match goal with |- store_ok ?s2 ∧ _ => set (s' := s2) end.
  assert (later s s') as Hl.
  { split; try done; simpl.
    - by apply insert_subseteq.
    - intros q e He. exists e. split; [done|]. by apply same_answer_later. }
  split; [|split; [done|split; [|done]]].
  - eapply store_ok_later; [exact Hs|exact Hl|..].
    + destruct Hids as [H1 H2 H3 H4 H5 H6]. split; simpl.
      * done.
      * intros q' k' Hx%H2. lia.
      * done.
      * intros i' q'. rewrite lookup_insert_Some. intros [[<- <-]|[_ Hx]].
        -- split; [lia|]. apply eq_None_not_Some. intros [k' Hk'%H2]. lia.
        -- destruct (H4 i' q' Hx). split; [lia|done].
      * intros i1 i2 q'. rewrite !lookup_insert_Some.
        intros [[<- <-]|[_ Hx]] [[<- Heq]|[_ Hy]]; [done| | |by eapply H5].
        -- apply H4 in Hy as [? _]. lia.
        -- subst. apply H4 in Hx as [? _]. lia.
      * intros q' i'. rewrite elem_of_app, list_elem_of_singleton.
        intros [Hf%H6|[= -> ->]]; [|by rewrite lookup_insert_eq].
        rewrite lookup_insert_ne; [done|]. intros <-. congruence.
    + simpl. intros r Hr. apply elem_of_app. by left.
    + simpl. intros i' q'. rewrite lookup_insert_Some. intros [[<- <-]|[_ Hx]]; [right|by left].
      apply elem_of_app. right. by left.
    + destruct (so_fresh _ _ _ Hs) as [Hnd Hnew]. split; simpl.
      * rewrite fmap_app. apply NoDup_app. split; [done|]. split; [|apply NoDup_singleton].
        intros q Hq Heq1%list_elem_of_singleton.
        apply list_elem_of_fmap in Hq as ([q2 i2] & Heq & Hf). simpl in Heq, Heq1. subst.
        apply (io_fresh _ Hids), (io_input _ Hids) in Hf as [? _]. lia.
      * intros q i2 [?|[= -> ->]%list_elem_of_singleton]%elem_of_app; [by eapply Hnew|].
        apply eq_None_not_Some. intros Hq. apply node_id_lt in Hq; [lia|done].
    + by left.
    + intros q e He. left. exists e. done.
  - simpl. by rewrite lookup_insert_eq.
Qed.

(** ** Writing a clean entry *)

(** The computation behind a clean answer, with what it read. *)
Record computed s k v rds : Prop := {
  cp_trace : ∃ tr, follows w (compute_of k) tr v ∧ trace_recorded s tr rds ∧
    ∀ k' v' q' rev, EvMemo k' v' ∈ tr → td_ids (st_table s) !! k' = Some q' →
      (q', rev) ∈ rds → rev ≠ input_read →
      ∃ e', st_entry s q' = Some e' ∧ en_state e' = Clean ∧ en_changed_at e' = rev ∧
        en_value e' = v';
  cp_known : Forall (known s) rds;
  cp_reads : ∀ q' rev, (q', rev) ∈ rds → rev ≠ input_read → (rev ≤ st_revision s)%N;
  cp_eval : eval compute_of w k v
}.

(** What an install may write over an entry. *)
Definition may_write (revision : N) (old : option (Entry V)) e : Prop :=
  en_state e = Clean ∧ (en_changed_at e ≤ en_computed_at e ≤ revision)%N ∧
  match old with
  | Some e0 => entry_later revision e0 e
  | None => True
  end.

Lemma put_ok s s' q k e rds :
  store_ok s → td_ids (st_table s) !! k = Some q →
  may_write (st_revision s) (st_entry s q) e → computed s k (en_value e) rds →
  st_table s' = st_table (set_entry s q e) → st_graph s' = st_graph s →
  st_inputs s' = st_inputs s → st_next s' = st_next s → st_revision s' = st_revision s →
  st_poisoned s' = st_poisoned s → st_verify_reused s' = st_verify_reused s →
  (st_records s' = st_records s ∨ ∃ t r, st_records s' = st_records s ++ [(q, t, r)]) →
  recorded s' q = Some rds →
  store_ok s' ∧ later s s'.
Proof.
  intros Hs Hk (Hclean & Hrevs & Hold) [Htrace Hknown Hreads Heval] Ht Hg Hn Hnx Hrev Hp Hv Hrecs Hrec.
  pose proof (so_ids _ _ _ Hs) as Hids.
  assert (∀ q', st_entry s' q' = if decide (q = q') then Some e else st_entry s q') as Hent.
  { intros q'. unfold st_entry at 1. rewrite Ht. apply st_entry_set. }
  assert (later s s') as Hl.
  { split; try done; try (by rewrite Ht); [by rewrite Hn|].
    intros q0 e0 He0. rewrite Hent. case_decide as Hq.
    - subst q0. rewrite He0 in Hold. by exists e.
    - exists e0. split; [done|]. by apply same_answer_later. }
  split; [|done]. eapply store_ok_later; [exact Hs|exact Hl|..].
  - destruct Hids as [H1 H2 H3 H4 H5 H6]. split; rewrite ?Ht, ?Hn, ?Hnx; done.
  - by rewrite Hn.
  - rewrite Hn. by left.
  - unfold fresh_ok. rewrite Hn, Hg. apply (so_fresh _ _ _ Hs).
  - destruct Hrecs as [->|(t & r & ->)]; [by left|].
    intros r0 [?| ->%list_elem_of_singleton]%elem_of_app; [by left|right].
    simpl. rewrite Hent. rewrite decide_True by done. by eexists.
  - intros q0 e0. rewrite Hent. case_decide as Hq; intros He0; [right|left].
    + subst q0. injection He0 as <-. split.
      2: { exists rds. split; [done|]. eapply Forall_impl; [exact Hknown|]. intros. by eapply known_later. }
      split.
      * exists k. split; [rewrite Ht; simpl; by apply (io_bij _ Hids)|]. split; [|done].
        intros _. destruct Htrace as (tr & Hf & Htc & Hans). exists tr, rds.
        split; [done|]. split; [done|].
        split; [eapply trace_recorded_later; [apply Hl|apply Hl|done]|]. split.
        -- intros q' rev Hin Hne. rewrite Hrev. split; [by apply Hreads in Hin|done].
        -- intros k' v' q' rev Hin Hk' Hrd Hne. rewrite Ht in Hk'.
           destruct (Hans k' v' q' rev Hin Hk' Hrd Hne) as (e' & He' & C1 & C2 & C3).
           destruct (later_clean _ _ _ _ Hl He' C1) as (e'' & He'' & D1 & D2 & D3).
           exists e''. split; [done|]. split; [congruence|]. intros _. split; congruence.
      * by rewrite Hrev.
      * done.
    + exists e0. split; [done|]. split; [done|]. unfold queued.
      destruct Hrecs as [->|(t & r & ->)]; [done|]. rewrite filter_app, filter_cons_False by done.
      by rewrite filter_nil, app_nil_r.
Qed.

End steps.
