(* ===== verification/MemoAnswer.v ===== *)
(** * Bringing an answer up to date

    Every answer [get] gives is the from-scratch one, and the store it leaves
    keeps the invariant, cycles included.

    Then: every answer is the from-scratch one. *)
From S2P Require Import Prelude Order MemoGraph MemoGraphSpec Memo MemoSpec.

(** ** Recording reads *)
Section reads.
Context {I : Type} `{Countable I}.
Implicit Types (implied : list I) (reads kept : list (CtxRead I)) (i : I) (q rev : N).

Lemma record_input_spec implied reads (recorded : gset I) i :
  (∀ i, i ∈ recorded → RInput i ∈ reads) →
  let '(reads', recorded') := record_input implied (reads, recorded) i in
  (reads' = reads ∨ reads' = reads ++ [RInput i]) ∧ (i ∈ implied ∨ RInput i ∈ reads') ∧
  (∀ i, i ∈ recorded' → RInput i ∈ reads').
Proof.
  intros Hrec. unfold record_input. case_decide as Himp.
  { split; [by left|]. split; [by left|done]. }
  assert (RInput i ∈ reads ++ [RInput i]) as Hin by (apply elem_of_app; right; by left).
  case_decide as Hempty.
  - destruct (existsb _ reads) eqn:Hex.
    { split; [by left|]. split; [|done]. right. apply existsb_exists in Hex as (r & Hr & Hi).
      destruct r as [i'|]; [|done]. apply bool_decide_eq_true in Hi as ->.
      by apply list_elem_of_In. }
    case_decide.
    + split; [by right|]. split; [by right|]. intros i' Hi'. apply elem_of_app. left. auto.
    + split; [by right|]. split; [by right|]. intros i'.
      rewrite elem_of_union, elem_of_singleton, elem_of_list_to_set, list_elem_of_omap.
      intros [->|(r & Hr & Hi)]; [done|]. apply elem_of_app. left. destruct r; by simplify_eq.
  - case_decide as Hi.
    + split; [by left|]. split; [right; auto|done].
    + split; [by right|]. split; [by right|]. intros i'.
      rewrite elem_of_union, elem_of_singleton. intros [->|Hi']; [done|].
      apply elem_of_app. left. auto.
Qed.

(** What [install] keeps of [reads]. *)
Record kept_of implied reads kept : Prop := {
  kp_input : ∀ i, RInput i ∈ kept ↔ i ∈ implied ∨ RInput i ∈ reads;
  kp_memo : ∀ q rev, RMemo q rev ∈ reads → ∃ rev', RMemo q rev' ∈ kept;
  kp_order : ∀ k1 q rev k2, kept = k1 ++ RMemo q rev :: k2 →
    ∃ a1 a2, reads = a1 ++ RMemo q rev :: a2 ∧
      ∀ q' rev', RMemo q' rev' ∈ a1 → ∃ rev'', RMemo q' rev'' ∈ k1
}.

Lemma memo_not_implied q rev implied : RMemo q rev ∉ RInput <$> (implied : list I).
Proof. intros (i & ? & _)%list_elem_of_fmap. done. Qed.

Lemma app_memo_split (l1 l2 k1 k2 : list (CtxRead I)) r :
  (∀ x, x ∈ l1 → x ≠ r) → l1 ++ l2 = k1 ++ r :: k2 →
  ∃ k1', k1 = l1 ++ k1' ∧ l2 = k1' ++ r :: k2.
Proof.
  revert k1. induction l1 as [|x l1 IH]; intros k1 Hne Heq; [by exists k1|].
  destruct k1 as [|y k1]; simplify_eq/=.
  - destruct (Hne r); [by left|done].
  - destruct (IH k1) as (k1' & -> & ->); [intros; apply Hne; by right|done|]. by exists k1'.
Qed.

Lemma kept_all implied reads : kept_of implied reads ((RInput <$> implied) ++ reads).
Proof.
  split.
  - intros i. rewrite elem_of_app, list_elem_of_fmap. split.
    + intros [(? & [= <-] & ?)|?]; auto.
    + intros [?|?]; [left; by exists i|by right].
  - intros q rev Hin. exists rev. apply elem_of_app. by right.
  - intros k1 q rev k2 Heq.
    destruct (app_memo_split _ _ _ _ _ (λ x Hx Hr, memo_not_implied q rev implied
      (eq_ind _ (λ y, y ∈ _) Hx _ Hr)) Heq) as (k1' & -> & ->).
    exists k1', k2. split; [done|]. intros q' rev' Hin. exists rev'. apply elem_of_app. by right.
Qed.

Lemma kept_fold l : ∀ done kept (seen : gset N),
  (∀ q, q ∈ seen ↔ ∃ rev, RMemo q rev ∈ kept) →
  (∀ i, RInput i ∈ kept ↔ RInput i ∈ done) →
  (∀ q rev, RMemo q rev ∈ done → ∃ rev', RMemo q rev' ∈ kept) →
  (∀ k1 q rev k2, kept = k1 ++ RMemo q rev :: k2 → ∃ a1 a2, done = a1 ++ RMemo q rev :: a2 ∧
    ∀ q' rev', RMemo q' rev' ∈ a1 → ∃ rev'', RMemo q' rev'' ∈ k1) →
  let kept' := (foldl kept_read (kept, seen) l).1 in
  (∀ i, RInput i ∈ kept' ↔ RInput i ∈ done ++ l) ∧
  (∀ q rev, RMemo q rev ∈ done ++ l → ∃ rev', RMemo q rev' ∈ kept') ∧
  (∀ k1 q rev k2, kept' = k1 ++ RMemo q rev :: k2 → ∃ a1 a2, done ++ l = a1 ++ RMemo q rev :: a2 ∧
    ∀ q' rev', RMemo q' rev' ∈ a1 → ∃ rev'', RMemo q' rev'' ∈ k1).
Proof.
  induction l as [|r l IH]; intros done kept seen Hseen Hin Hmem Hord; simpl.
  { rewrite app_nil_r. done. }
  rewrite (cons_middle r done l), (assoc_L (++)).
  assert (∀ (X : list (CtxRead I)) x, x ∈ X ++ [r] ↔ x ∈ X ∨ x = r) as Hsn
    by (intros; by rewrite elem_of_app, list_elem_of_singleton).
  destruct r as [i0|q0 rev0]; simpl.
  - apply IH.
    + intros q. rewrite Hseen. setoid_rewrite Hsn. naive_solver.
    + intros i. by rewrite !Hsn, Hin.
    + intros q rev. setoid_rewrite Hsn. intros [Hx|?]; [|done].
      destruct (Hmem q rev Hx) as [rev' ?]. eauto.
    + intros k1 q rev k2 Heq. destruct k2 as [|x k2' _] using rev_ind.
      * apply app_inj_tail in Heq as [_ ?]. done.
      * rewrite app_comm_cons, (assoc_L (++)) in Heq. apply app_inj_tail in Heq as [Heq <-].
        destruct (Hord k1 q rev k2' Heq) as (a1 & a2 & -> & Ha). exists a1, (a2 ++ [RInput i0]).
        split; [by rewrite <- (assoc_L (++))|done].
  - case_decide as Hs.
    + apply IH; [done| | |].
      * intros i. rewrite Hsn, Hin. naive_solver.
      * intros q rev. rewrite Hsn. intros [Hx|[= -> ->]]; [by eapply Hmem|by apply Hseen].
      * intros k1 q rev k2 Heq. destruct (Hord k1 q rev k2 Heq) as (a1 & a2 & -> & Ha).
        exists a1, (a2 ++ [RMemo q0 rev0]). split; [by rewrite <- (assoc_L (++))|done].
    + apply IH.
      * intros q. rewrite elem_of_union, elem_of_singleton, Hseen. setoid_rewrite Hsn. naive_solver.
      * intros i. rewrite !Hsn, Hin. naive_solver.
      * intros q rev. setoid_rewrite Hsn. intros [Hx|[= -> ->]]; [|by eauto].
        destruct (Hmem q rev Hx) as [rev' ?]. eauto.
      * intros k1 q rev k2 Heq. destruct k2 as [|x k2' _] using rev_ind.
        -- apply app_inj_tail in Heq as [-> [= <- <-]]. exists done, []. split; [done|]. apply Hmem.
        -- rewrite app_comm_cons, (assoc_L (++)) in Heq. apply app_inj_tail in Heq as [Heq <-].
           destruct (Hord k1 q rev k2' Heq) as (a1 & a2 & -> & Ha).
           exists a1, (a2 ++ [RMemo q0 rev0]). split; [by rewrite <- (assoc_L (++))|done].
Qed.

Lemma install_reads_spec implied reads : kept_of implied reads (install_reads implied reads).
Proof.
  unfold install_reads. case_decide; [|apply kept_all].
  destruct (kept_fold ((RInput <$> implied) ++ reads) [] [] ∅) as (H1 & H2 & H3).
  - intros q. split; [set_solver|]. intros [rev Hx]. by apply elem_of_nil in Hx.
  - done.
  - intros q rev Hx. by apply elem_of_nil in Hx.
  - intros k1 q rev k2 Heq. by destruct k1.
  - simpl in H1, H2, H3. destruct (kept_all implied reads) as [A1 A2 A3]. split.
    + intros i. rewrite H1. apply A1.
    + intros q rev Hin. apply (H2 q rev). apply elem_of_app. by right.
    + intros k1 q rev k2 Heq. destruct (H3 k1 q rev k2 Heq) as (a1 & a2 & Ha & Hsub).
      destruct (app_memo_split _ _ _ _ _ (λ x Hx Hr, memo_not_implied q rev implied
        (eq_ind _ (λ y, y ∈ _) Hx _ Hr)) Ha) as (a1' & -> & ->).
      exists a1', a2. split; [done|]. intros q' rev' Hx. apply (Hsub q' rev'), elem_of_app. by right.
Qed.

End reads.

(** ** One computation *)
Section comp.
Context {I A K V : Type} `{Countable I, Countable K, EqDecision V}.
Context (table_of : K → N) (key_hash : K → N) (input_hash : I → N).
Context (compute_of : K → Comp I A K V) (implied_of : K → list I) (w : I → A).
Implicit Types (s : Store I K V) (q : QueryId) (k : K) (v : V) (e : Entry V).
Implicit Types (tr : list (Event (I := I) (K := K) (V := V))) (rds : list (QueryId * N)).
Implicit Types (reads : list (CtxRead I)) (implied : list I).

Local Abbreviation store_ok := (store_ok compute_of w) (only parsing).
Local Abbreviation Get := (K → Store I K V → Outcome (Store I K V * (list N + Answer V))) (only parsing).

(** A clean entry holds the answer. *)
Definition clean_at s q v rev : Prop :=
  ∃ e, st_entry s q = Some e ∧ en_state e = Clean ∧ en_value e = v ∧ en_changed_at e = rev.

Definition answered s k (a : Answer V) : Prop :=
  td_ids (st_table s) !! k = Some (an_query a) ∧
  clean_at s (an_query a) (an_value a) (an_changed_at a).

Lemma clean_at_later s s' q v rev : later s s' → clean_at s q v rev → clean_at s' q v rev.
Proof.
  intros Hl (e & He & Hc & Hv & Hr). destruct (later_clean _ _ _ _ Hl He Hc) as (e' & ? & ? & ? & ?).
  exists e'. split; [done|]. split; [done|]. split; congruence.
Qed.

Lemma answered_later s s' k a : later s s' → answered s k a → answered s' k a.
Proof.
  intros Hl [Hk Hc]. split; [eapply lookup_weaken; [exact Hk|apply Hl]|by eapply clean_at_later].
Qed.

Lemma clean_at_eval s k q v rev :
  store_ok s → td_ids (st_table s) !! k = Some q → clean_at s q v rev →
  eval compute_of w k v ∧ (rev ≤ st_revision s)%N.
Proof.
  intros Hs Hk (e & He & Hc & <- & <-). destruct (so_entries _ _ _ Hs q e He) as [(k' & Hk' & _ & Hev) Hch _].
  apply (io_bij _ (so_ids _ _ _ Hs)) in Hk. assert (k' = k) as -> by congruence.
  split; [by apply Hev|lia].
Qed.

(** What a reading function promises. *)
Definition reads_ok (get_memo : Get) : Prop :=
  ∀ k s s' res, store_ok s → get_memo k s = Ret (s', res) →
    store_ok s' ∧ later s s' ∧ ∀ a, res = inr a → answered s' k a.

(** The memo reads of a trace and of a context, in order. *)
Definition memo_events tr : list (K * V) :=
  omap (λ ev, match ev with EvMemo k v => Some (k, v) | EvInput _ => None end) tr.
Definition memo_log reads : list (QueryId * N) :=
  omap (λ r, match r with RMemo q rev => Some (q, rev) | RInput _ => None end) reads.

Definition logged s (kv : K * V) (qr : QueryId * N) : Prop :=
  td_ids (st_table s) !! kv.1 = Some qr.1 ∧ clean_at s qr.1 kv.2 qr.2.

Lemma logged_later s s' kv qr : later s s' → logged s kv qr → logged s' kv qr.
Proof.
  intros Hl [Hk Hc]. split; [eapply lookup_weaken; [exact Hk|apply Hl]|by eapply clean_at_later].
Qed.

Lemma elem_of_memo_events tr k v : (k, v) ∈ memo_events tr ↔ EvMemo k v ∈ tr.
Proof.
  unfold memo_events. rewrite list_elem_of_omap. split.
  - intros ([i|k' v'] & Hin & Heq); by simplify_eq.
  - intros Hin. by exists (EvMemo k v).
Qed.

Lemma elem_of_memo_log reads q rev : (q, rev) ∈ memo_log reads ↔ RMemo q rev ∈ reads.
Proof.
  unfold memo_log. rewrite list_elem_of_omap. split.
  - intros ([i|q' r'] & Hin & Heq); by simplify_eq.
  - intros Hin. by exists (RMemo q rev).
Qed.

Lemma run_comp_ok (get_memo : Get) implied c : reads_ok get_memo →
  ∀ reads (recorded : gset I) s s' res, store_ok s →
  (∀ i, i ∈ recorded → RInput i ∈ reads) →
  run_comp get_memo w implied c (reads, recorded) s = Ret (s', res) →
  store_ok s' ∧ later s s' ∧
  ∀ v reads', res = inr (v, reads') → ∃ tr ext, follows w c tr v ∧ reads' = reads ++ ext ∧
    (∀ i, EvInput i ∈ tr → i ∈ implied ∨ RInput i ∈ reads') ∧
    Forall2 (logged s') (memo_events tr) (memo_log ext).
Proof.
  intros Hget. induction c as [v0|i next IH|k next IH]; intros reads recorded s s' res Hs Hrec; cbn [run_comp].
  - intros [= <- <-]. split; [done|]. split; [apply later_refl|]. intros v reads' [= <- <-].
    exists [], []. split; [constructor|]. split; [by rewrite app_nil_r|].
    split; [by intros i ?%elem_of_nil|constructor].
  - pose proof (record_input_spec implied reads recorded i Hrec) as Hri.
    destruct (record_input implied (reads, recorded) i) as [reads1 recorded1].
    destruct Hri as (Hr1 & Hi & Hrec1). intros Hrun.
    destruct (IH (w i) _ _ _ _ _ Hs Hrec1 Hrun) as (Hs' & Hl & Hres).
    split; [done|]. split; [done|]. intros v reads' Heq.
    destruct (Hres v reads' Heq) as (tr & ext & Hf & -> & Hin & Hlog).
    assert (∃ ext0, reads1 = reads ++ ext0 ∧ memo_log ext0 = []) as (ext0 & -> & Hlog0).
    { destruct Hr1 as [->| ->]; [exists []; by rewrite app_nil_r|by exists [RInput i]]. }
    exists (EvInput i :: tr), (ext0 ++ ext). split; [by constructor|].
    split; [by rewrite <- (assoc_L (++))|]. split.
    + intros i' [[= ->]|Hx]%elem_of_cons; [|by apply Hin].
      destruct Hi as [?|?]; [by left|right]. apply elem_of_app. by left.
    + unfold memo_log in *. by rewrite omap_app, Hlog0.
  - destruct (get_memo k s) as [| |[s1 answer]] eqn:Hg; [done..|].
    cbn [mbind outcome_bind fst snd].
    destruct (Hget k s s1 answer Hs Hg) as (Hs1 & Hl1 & Ha).
    destruct answer as [cycle|a]; [intros [= <- <-]; done|]. intros Hrun.
    destruct (Ha a eq_refl) as [Hk Hc].
    destruct (IH (an_value a) _ _ _ _ _ Hs1
      (λ i Hi, proj2 (elem_of_app _ _ _) (or_introl (Hrec i Hi))) Hrun) as (Hs' & Hl & Hres).
    split; [done|]. split; [by eapply later_trans|]. intros v reads' Heq.
    destruct (Hres v reads' Heq) as (tr & ext & Hf & -> & Hin & Hlog).
    exists (EvMemo k (an_value a) :: tr), (RMemo (an_query a) (an_changed_at a) :: ext).
    split; [by constructor|]. split; [by rewrite <- (assoc_L (++))|]. split.
    + intros i [?|Hx]%elem_of_cons; [done|by apply Hin].
    + simpl. constructor; [|exact Hlog]. apply (logged_later s1); [done|]. split; done.
Qed.

(** ** Installing it *)

Definition recorded_as s (read : CtxRead I) (qr : QueryId * N) : Prop :=
  match read with
  | RInput i => in_ids (st_inputs s) !! i = Some qr.1 ∧ qr.2 = input_read
  | RMemo q rev => qr = (q, rev)
  end.

Lemma recorded_as_later s s' read qr : later s s' → recorded_as s read qr → recorded_as s' read qr.
Proof.
  intros Hl. destruct read; simpl; [|done]. intros [Hi ?].
  split; [eapply lookup_weaken; [exact Hi|apply Hl]|done].
Qed.

Lemma recorded_reads_ok reads : ∀ s rds0 kept0 s' rds, store_ok s →
  Forall2 (recorded_as s) kept0 rds0 →
  recorded_reads input_hash (s, rds0) reads = Ret (s', rds) →
  store_ok s' ∧ later s s' ∧ Forall2 (recorded_as s') (kept0 ++ reads) rds ∧
  (∀ q, st_entry s' q = st_entry s q) ∧ st_records s' = st_records s ∧
  td_ids (st_table s') = td_ids (st_table s).
Proof.
  induction reads as [|read reads IH]; intros s rds0 kept0 s' rds Hs Hpre; cbn [recorded_reads recorded_read].
  { intros [= <- <-]. rewrite app_nil_r. split; [done|]. split; [apply later_refl|done]. }
  rewrite (cons_middle read kept0 reads), (assoc_L (++)). destruct read as [i|q rev].
  - destruct (intern input_hash s i) as [| |[s1 q]] eqn:Hi; [done..|]. cbn [mbind outcome_bind]. intros Hrun.
    destruct (intern_ok input_hash compute_of w s i s1 q Hs Hi) as (Hs1 & Hl1 & Hiq & He1 & Hr1 & Hd1).
    destruct (IH s1 (rds0 ++ [(q, input_read)]) (kept0 ++ [RInput i]) s' rds Hs1) as (I1 & I2 & I3 & I4 & I5 & I6).
    { apply Forall2_app; [|constructor; [done|constructor]].
      eapply Forall2_impl; [exact Hpre|]. intros. by eapply recorded_as_later. }
    { exact Hrun. }
    split; [done|]. split; [by eapply later_trans|]. split; [done|].
    split; [intros; by rewrite I4|]. split; congruence.
  - intros Hrun. apply (IH s (rds0 ++ [(q, rev)]) (kept0 ++ [RMemo q rev]) s' rds Hs); [|exact Hrun].
    apply Forall2_app; [exact Hpre|]. constructor; [done|constructor].
Qed.

Lemma omap_app_inv {X Y} (f : X → option Y) (l : list X) l1 y l2 :
  omap f l = l1 ++ y :: l2 →
  ∃ a1 x a2, l = a1 ++ x :: a2 ∧ omap f a1 = l1 ∧ f x = Some y.
Proof.
  revert l1. induction l as [|x l IH]; intros l1 Heq; simpl in Heq.
  - by destruct l1.
  - destruct (f x) as [y'|] eqn:Hx.
    + destruct l1 as [|y1 l1]; [simplify_eq/=; by exists [], x, l|].
      injection Heq as -> Heq. destruct (IH l1 Heq) as (a1 & x' & a2 & -> & <- & Hx').
      exists (x :: a1), x', a2. split; [done|]. split; [by simpl; rewrite Hx|done].
    + destruct (IH l1 Heq) as (a1 & x' & a2 & -> & <- & Hx').
      exists (x :: a1), x', a2. split; [done|]. split; [by simpl; rewrite Hx|done].
Qed.

Lemma memo_log_app r1 r2 : memo_log (r1 ++ r2) = memo_log r1 ++ memo_log r2.
Proof. apply omap_app. Qed.

(** The record of a computation stands for its trace. *)
Lemma record_computed s k v tr implied reads kept rds :
  store_ok s → follows w (compute_of k) tr v →
  (∀ i, EvInput i ∈ tr → i ∈ implied ∨ RInput i ∈ reads) →
  Forall2 (logged s) (memo_events tr) (memo_log reads) →
  kept_of implied reads kept → Forall2 (recorded_as s) kept rds →
  computed compute_of w s k v rds.
Proof.
  intros Hs Hf Hin Hlog [Kin Kmem Kord] Hrds. pose proof (so_revision _ _ _ Hs) as Hrev.
  assert (∀ kv qr, logged s kv qr →
    eval compute_of w kv.1 kv.2 ∧ (qr.2 ≤ st_revision s)%N ∧ qr.2 ≠ input_read) as Hlogged.
  { intros kv qr [Hk Hc]. destruct (clean_at_eval s _ _ _ _ Hs Hk Hc). split; [done|].
    split; [done|]. unfold input_read. lia. }
  assert (∀ k' v', EvMemo k' v' ∈ tr → ∃ q rev, logged s (k', v') (q, rev) ∧ RMemo q rev ∈ reads) as Hev.
  { intros k' v' Hx%elem_of_memo_events. apply list_elem_of_lookup in Hx as [j Hj].
    destruct (Forall2_lookup_l _ _ _ _ _ Hlog Hj) as ([q rev] & Hq & ?).
    exists q, rev. split; [done|]. apply elem_of_memo_log. by eapply list_elem_of_lookup_2. }
  assert (∀ q rev, RMemo q rev ∈ reads → ∃ k' v', logged s (k', v') (q, rev)) as Hback.
  { intros q rev Hx%elem_of_memo_log. apply list_elem_of_lookup in Hx as [j Hj].
    destruct (Forall2_lookup_r _ _ _ _ _ Hlog Hj) as ([k' v'] & _ & ?). eauto. }
  assert (∀ q rev, RMemo q rev ∈ kept → RMemo q rev ∈ reads) as Hkr.
  { intros q rev [k1 [k2 Hx]]%list_elem_of_split.
    destruct (Kord _ _ _ _ Hx) as (a1 & a2 & -> & _). apply elem_of_app. right. by left. }
  assert (∀ q rev, (q, rev) ∈ rds → rev ≠ input_read → RMemo q rev ∈ kept) as Hrk.
  { intros q rev Hx Hne. apply list_elem_of_lookup in Hx as [j Hj].
    destruct (Forall2_lookup_r _ _ _ _ _ Hrds Hj) as ([i|q' rev'] & Hr & Hrel); simpl in Hrel.
    - by destruct Hrel.
    - simplify_eq. by eapply list_elem_of_lookup_2. }
  assert (∀ read, read ∈ kept → ∃ qr, qr ∈ rds ∧ recorded_as s read qr) as Hkrds.
  { intros read Hx. apply list_elem_of_lookup in Hx as [j Hj].
    destruct (Forall2_lookup_l _ _ _ _ _ Hrds Hj) as (qr & Hqr & ?). exists qr.
    split; [by eapply list_elem_of_lookup_2|done]. }
  split.
  - exists tr. split; [done|]. split.
    + split.
      * intros i Hi%Hin%Kin. destruct (Hkrds _ Hi) as ([q fp] & Hqr & Hq & Hfp). simpl in *. subst.
        by exists q.
      * intros k' v' Hx. destruct (Hev k' v' Hx) as (q & rev & Hl & Hr).
        destruct (Kmem q rev Hr) as [rev' Hkept]. destruct (Hkrds _ Hkept) as ([q1 fp] & Hqr & Hq).
        simpl in Hq. injection Hq as -> ->. exists q, rev'. split; [apply Hl|]. split; [done|].
        apply Hkr in Hkept. destruct (Hback _ _ Hkept) as (k'' & v'' & Hl'').
        by apply (Hlogged _ _ Hl'').
      * intros r1 q rev r2 -> Hne.
        apply Forall2_app_inv_r in Hrds as (k1 & kr & Hk1 & Hkr' & ->).
        apply Forall2_cons_inv_r in Hkr' as (read & k2 & Hread & Hk2 & ->).
        destruct read as [i|q1 rev1]; simpl in Hread; [by destruct Hread|].
        injection Hread as <- <-. destruct (Kord _ _ _ _ eq_refl) as (a1 & a2 & -> & Hsub).
        rewrite memo_log_app in Hlog. simpl in Hlog.
        apply Forall2_app_inv_r in Hlog as (t1 & tr' & Ht1 & Ht' & Heq).
        apply Forall2_cons_inv_r in Ht' as ([k0 v0] & t2 & Hkv & _ & ->).
        apply omap_app_inv in Heq as (b1 & ev & b2 & -> & <- & Hev0).
        destruct ev as [|k0' v0']; [done|]. injection Hev0 as -> ->.
        exists b1, k0, v0, b2. split; [done|]. split; [apply Hkv|].
        intros k' v' Hx%elem_of_memo_events. apply list_elem_of_lookup in Hx as [j Hj].
        destruct (Forall2_lookup_l _ _ _ _ _ Ht1 Hj) as ([q' rev'] & Hq' & Hlg).
        assert (RMemo q' rev' ∈ a1) as Ha1
          by (apply elem_of_memo_log; by eapply list_elem_of_lookup_2).
        destruct (Hsub q' rev' Ha1) as [rev'' Hk''].
        apply list_elem_of_lookup in Hk'' as [j' Hj'].
        destruct (Forall2_lookup_l _ _ _ _ _ Hk1 Hj') as ([q1 fp] & Hr1 & Has).
        simpl in Has. injection Has as -> ->. exists q', rev''. split; [apply Hlg|].
        split; [by eapply list_elem_of_lookup_2|].
        assert (RMemo q' rev'' ∈ a1 ++ RMemo q rev :: a2) as Hin''.
        { apply Hkr, elem_of_app. left. by eapply list_elem_of_lookup_2. }
        destruct (Hback _ _ Hin'') as (k'' & v'' & Hl''). by apply (Hlogged _ _ Hl'').
    + intros k' v' q' rev Hx Hk' Hrd Hne. destruct (Hev k' v' Hx) as (q & rev0 & [Hq Hc] & _).
      simpl in Hq, Hc. assert (q = q') as -> by congruence.
      destruct (Hback q' rev (Hkr _ _ (Hrk _ _ Hrd Hne))) as (k2 & v2 & _ & Hc2). simpl in Hc2.
      destruct Hc as (e & He & C1 & C2 & C3), Hc2 as (e2 & He2 & D1 & D2 & D3).
      exists e. assert (e2 = e) as -> by congruence. done.
  - apply Forall_forall. intros [q' rev] Hrd. unfold known. simpl. case_decide as Hne.
    + apply list_elem_of_lookup in Hrd as [j Hj].
      destruct (Forall2_lookup_r _ _ _ _ _ Hrds Hj) as ([i|q1 rev1] & Hr & Hrel); simpl in Hrel.
      * exists i. by destruct Hrel.
      * simplify_eq. destruct (Hback q1 input_read) as (k2 & v2 & Hl2);
          [by eapply Hkr, list_elem_of_lookup_2|]. by destruct (Hlogged _ _ Hl2) as (_ & _ & []).
    + destruct (Hback q' rev (Hkr _ _ (Hrk _ _ Hrd Hne))) as (k2 & v2 & _ & e & He & _). by exists e.
  - intros q' rev Hrd Hne. destruct (Hback q' rev (Hkr _ _ (Hrk _ _ Hrd Hne))) as (k2 & v2 & Hl2).
    by apply (Hlogged _ _ Hl2).
  - apply (eval_intro compute_of w k v tr Hf). intros k' v' Hx.
    destruct (Hev k' v' Hx) as (q & rev & Hl & _). by apply (Hlogged _ _ Hl).
Qed.

End comp.

(** * Every answer is the from-scratch one

    [get] and the operations it is made of keep the store's invariant and
    answer what the computation evaluates to in today's inputs. *)

Section answer.
Context {I A K V : Type} `{Countable I, Countable K, EqDecision V}.
Context (table_of : K → N) (key_hash : K → N) (input_hash : I → N).
Context (compute_of : K → Comp I A K V) (implied_of : K → list I) (w : I → A).
Implicit Types (s : Store I K V) (q : QueryId) (k : K) (v : V) (e : Entry V).
Implicit Types (tr : list (Event (I := I) (K := K) (V := V))) (rds : list (QueryId * N)).
Implicit Types (reads : list (CtxRead I)) (implied : list I) (frames : list QueryId).

Local Abbreviation store_ok := (store_ok compute_of w) (only parsing).
Local Abbreviation eval := (eval compute_of w) (only parsing).
Local Abbreviation Get := (K → Store I K V → Outcome (Store I K V * (list N + Answer V))) (only parsing).
Local Abbreviation get := (get table_of key_hash input_hash compute_of implied_of) (only parsing).

Lemma queued_last s q t rds s' :
  st_records s' = st_records s ++ [(q, t, rds)] → recorded s' q = Some rds.
Proof.
  intros Hr. unfold recorded, queued. rewrite Hr, filter_app, filter_cons_True by done.
  by rewrite filter_nil, last_snoc.
Qed.

(** ** Install *)
Lemma install_entry_ok s q k v rds s' a :
  store_ok s → td_ids (st_table s) !! k = Some q → computed compute_of w s k v rds →
  install_entry table_of s q k v rds = (s', a) →
  store_ok s' ∧ later s s' ∧ answered s' k a.
Proof.
  intros Hs Hk Hc. unfold install_entry. cbn [set_records st_table]. rewrite Hk.
  assert (∀ s' changed_at checked,
    may_write (st_revision s) (st_entry s q)
      (mk_entry v Clean changed_at (st_revision s) (st_revision s) checked) →
    s' = set_entry (set_table (set_records s (st_records s ++ [(q, table_of k, rds)])) (st_table s))
      q (mk_entry v Clean changed_at (st_revision s) (st_revision s) checked) →
    store_ok s' ∧ later s s' ∧ answered s' k (mk_answer v q changed_at)) as Hput.
  { intros s2 changed_at checked Hw Heq.
    destruct (put_ok compute_of w s s2 q k _ rds Hs Hk Hw Hc) as [H1 H2]; subst s2; try done.
    - right. by eexists _, _.
    - by eapply queued_last.
    - split; [done|]. split; [done|]. split; [done|].
      eexists. split; [rewrite st_entry_set; by rewrite decide_True|done]. }
  destruct (st_entry s q) as [e|] eqn:He.
  - case_decide as Hd; intros [= <- <-].
    + split; [done|]. split; [apply later_refl|]. split; [done|]. exists e. by destruct Hd.
    + destruct (so_entries _ _ _ Hs q e He) as [(k' & Hk' & _ & Hev) Hch _].
      assert (k' = k) as -> by (apply (io_bij _ (so_ids _ _ _ Hs)) in Hk; congruence).
      apply (Hput _ _ (en_reuse_checked_at e)); [|done]. split; [done|].
      simpl. case_decide as Hv.
      * split; [lia|]. left. auto.
      * split; [lia|]. right. split; [|done]. intros Hclean. destruct Hv.
        eapply eval_det; [apply Hc|by apply Hev].
  - intros [= <- <-]. apply (Hput _ _ 0%N); [|done]. split; [done|]. simpl. split; [lia|done].
Qed.

(** What a finished computation is known by. *)
Record ran s k v reads : Prop := {
  rn_trace : ∃ tr, follows w (compute_of k) tr v ∧
    (∀ i, EvInput i ∈ tr → i ∈ implied_of k ∨ RInput i ∈ reads) ∧
    Forall2 (logged s) (memo_events tr) (memo_log reads);
  rn_eval : eval k v
}.

Lemma compute_ok (get_memo : list QueryId → Get) frames q k s s' res :
  (∀ frames, reads_ok compute_of w (get_memo frames)) → store_ok s →
  compute compute_of implied_of get_memo w frames q k s = Ret (s', res) →
  store_ok s' ∧ later s s' ∧ ∀ v reads, res = inr (v, reads) → ran s' k v reads.
Proof.
  intros Hget Hs. unfold compute. case_decide as Hq.
  { intros [= <- <-]. split; [done|]. split; [apply later_refl|done]. }
  intros Hrun. eapply run_comp_ok in Hrun; [|done..|by intros i ?%elem_of_empty].
  destruct Hrun as (Hs' & Hl & Hres). split; [done|]. split; [done|]. intros v reads Heq.
  destruct (Hres v reads Heq) as (tr & ext & Hf & -> & Hin & Hlog). split; [by exists tr|].
  apply (eval_intro compute_of w k v tr Hf). intros k' v' Hx%elem_of_memo_events.
  apply list_elem_of_lookup in Hx as [j Hj].
  destruct (Forall2_lookup_l _ _ _ _ _ Hlog Hj) as ([q' rev] & _ & [Hk' Hc]).
  by eapply clean_at_eval.
Qed.

Lemma install_ok s q k v reads s' a :
  store_ok s → td_ids (st_table s) !! k = Some q → ran s k v reads →
  install table_of input_hash s q k v reads (implied_of k) = Ret (s', a) →
  store_ok s' ∧ later s s' ∧ answered s' k a.
Proof.
  intros Hs Hk [(tr & Hf & Hin & Hlog) Hev]. unfold install.
  destruct (recorded_reads input_hash (s, []) (install_reads (implied_of k) reads))
    as [| |[s1 rds]] eqn:Hrec; [done..|]. cbn [mbind outcome_bind]. intros [= Hinst].
  destruct (recorded_reads_ok input_hash compute_of w _ s [] [] s1 rds Hs (List.Forall2_nil _) Hrec)
    as (Hs1 & Hl1 & Hrds & He1 & Hr1 & Hd1).
  assert (computed compute_of w s1 k v rds) as Hc.
  { eapply record_computed; [done|exact Hf|exact Hin| |apply install_reads_spec|exact Hrds].
    eapply Forall2_impl; [exact Hlog|]. intros. by eapply logged_later. }
  destruct (install_entry_ok s1 q k v rds s' a Hs1) as (H1 & H2 & H3); [by rewrite Hd1|done|done|].
  split; [done|]. split; [by eapply later_trans|done].
Qed.

Lemma recompute_ok (get_memo : list QueryId → Get) frames q k s s' res :
  (∀ frames, reads_ok compute_of w (get_memo frames)) → store_ok s →
  td_ids (st_table s) !! k = Some q →
  recompute table_of input_hash compute_of implied_of get_memo w frames q k s = Ret (s', res) →
  store_ok s' ∧ later s s' ∧ ∀ a, res = inr a → answered s' k a.
Proof.
  intros Hget Hs Hk. unfold recompute.
  destruct (compute compute_of implied_of get_memo w frames q k s) as [| |[s1 res1]] eqn:Hc; [done..|].
  cbn [mbind outcome_bind]. destruct (compute_ok _ _ _ _ _ _ _ Hget Hs Hc) as (Hs1 & Hl1 & Hran).
  destruct res1 as [cycle|[v reads]]; [by intros [= <- <-]|].
  destruct (install _ _ s1 q k v reads _) as [| |[s2 a]] eqn:Hi; [done..|].
  cbn [mbind outcome_bind]. intros [= <- <-].
  destruct (install_ok s1 q k v reads s2 a Hs1) as (H1 & H2 & H3);
    [by eapply lookup_weaken, Hl1|by apply Hran|done|].
  split; [done|]. split; [by eapply later_trans|]. by intros a' [= <-].
Qed.

(** ** Verification *)

Lemma ensure_ok (get_memo : Get) s q s' res :
  reads_ok compute_of w get_memo → store_ok s → ensure get_memo s q = Ret (s', res) →
  store_ok s' ∧ later s s' ∧ ∀ rev, res = inr (Some rev) → ∃ v, clean_at s' q v rev.
Proof.
  intros Hget Hs. unfold ensure.
  assert (Ret (s, inr None) = Ret (s', res) → store_ok s' ∧ later s s' ∧
    ∀ rev, res = inr (Some rev) → ∃ v, clean_at s' q v rev) as Hnone.
  { intros [= <- <-]. split; [done|]. split; [apply later_refl|done]. }
  destruct (st_entry s q) as [e|]; [|exact Hnone].
  destruct (td_keys (st_table s) !! q) as [k|] eqn:Hk; [|exact Hnone].
  destruct (get_memo k s) as [| |[s1 answer]] eqn:Hg; [done..|].
  cbn [mbind outcome_bind]. intros [= <- <-]. destruct (Hget k s s1 answer Hs Hg) as (Hs1 & Hl1 & Ha).
  split; [done|]. split; [done|]. intros rev. destruct answer as [cycle|a]; [done|]. intros [= <-].
  destruct (Ha a eq_refl) as [Hka Hc]. apply (io_bij _ (so_ids _ _ _ Hs)) in Hk.
  assert (an_query a = q) as <- by (eapply lookup_weaken in Hk; [|apply Hl1]; congruence).
  by exists (an_value a).
Qed.

Lemma check_reads_ok (get_memo : Get) l : reads_ok compute_of w get_memo → ∀ s s' res,
  store_ok s → check_reads get_memo l s = Ret (s', res) →
  store_ok s' ∧ later s s' ∧ (res = inr true → ∀ q rev kind, (q, rev, kind) ∈ l →
    kind ≠ None ∧ ∀ t, kind = Some (Memo t) → ∃ v, clean_at s' q v rev).
Proof.
  intros Hget. induction l as [|[[q rev] kind] l IH]; intros s s' res Hs; cbn [check_reads].
  { intros [= <- <-]. split; [done|]. split; [apply later_refl|]. by intros _ ??? ?%elem_of_nil. }
  destruct kind as [[i|t]|].
  - intros Hrun. destruct (IH s s' res Hs Hrun) as (H1 & H2 & H3). split; [done|]. split; [done|].
    intros Hres q0 rev0 kind0 [[= -> -> ->]|Hin]%elem_of_cons; [done|by apply (H3 Hres)].
  - destruct (if st_verify_reused s then (s, None) else clean_changed_at s q) as [s1 clean] eqn:Hcl.
    assert (store_ok s1 ∧ later s s1 ∧ ∀ r, clean = Some r → ∃ v, clean_at s1 q v r) as (Hs1 & Hl1 & Hc1).
    { destruct (st_verify_reused s); [injection Hcl as <- <-; split; [done|split; [apply later_refl|done]]|].
      destruct (clean_changed_at_ok compute_of w s q s1 clean Hs Hcl) as (H1 & H2 & H3).
      split; [done|]. split; [done|]. intros r Hr. destruct (H3 r Hr) as (e & ? & ? & ?).
      exists (en_value e), e. done. }
    destruct (match clean with Some changed_at => Ret (s1, inr (Some changed_at))
              | None => ensure get_memo s1 q end) as [| |[s2 current]] eqn:Hcur; [done..|].
    cbn [mbind outcome_bind].
    assert (store_ok s2 ∧ later s1 s2 ∧ ∀ r, current = inr (Some r) → ∃ v, clean_at s2 q v r)
      as (Hs2 & Hl2 & Hc2).
    { destruct clean as [r|].
      - injection Hcur as <- <-. split; [done|]. split; [apply later_refl|]. intros ? [= <-].
        by apply Hc1.
      - by eapply ensure_ok. }
    assert (later s s2) as Hl by (by eapply later_trans).
    destruct current as [cycle|current]; [by intros [= <- <-]|].
    case_decide as Heq; [|by intros [= <- <-]]. intros Hrun.
    destruct (IH s2 s' res Hs2 Hrun) as (H1 & H2 & H3). split; [done|].
    split; [by eapply later_trans|]. intros Hres q0 rev0 kind0 [Hx|Hin]%elem_of_cons; [|by apply H3].
    injection Hx as -> -> ->. split; [done|]. intros _ _. rewrite Heq in Hc2.
    destruct (Hc2 rev eq_refl) as [v Hv]. exists v. by eapply clean_at_later.
  - intros [= <- <-]. split; [done|]. split; [apply later_refl|done].
Qed.

(** A maybe-dirty entry's trace: a recorded revision stands for the answer
    the trace saw. *)
Lemma old_trace s q k e :
  store_ok s → td_ids (st_table s) !! k = Some q → st_entry s q = Some e → en_state e = MaybeDirty →
  ∃ tr rds, recorded s q = Some rds ∧ queued s q = [] ∧ follows w (compute_of k) tr (en_value e) ∧
    trace_recorded s tr rds ∧
    (∀ q' rev, (q', rev) ∈ rds → rev ≠ input_read → (rev ≤ st_revision s)%N) ∧
    ∀ s' k' v' q' rev v, later s s' → EvMemo k' v' ∈ tr → td_ids (st_table s) !! k' = Some q' →
      (q', rev) ∈ rds → rev ≠ input_read → clean_at s' q' v rev → v = v'.
Proof.
  intros Hs Hk He Hm. destruct (so_entries _ _ _ Hs q e He) as [(k' & Hk' & Htr & _) _ Hst].
  assert (k' = k) as -> by (apply (io_bij _ (so_ids _ _ _ Hs)) in Hk; congruence).
  destruct Hst as [_ Hq]; [congruence|].
  destruct Htr as (tr & rds & Hrec & Hf & Htc & Hrevs & Hans); [congruence|].
  exists tr, rds. split; [done|]. split; [done|]. split; [done|]. split; [done|].
  split; [intros q' rev Hrd Hne; by apply (Hrevs q' rev)|].
  intros s' k' v' q' rev v Hl Hev Hk2 Hrd Hne (e1 & He1 & C1 & <- & C3).
  destruct (Hans k' v' q' rev Hev Hk2 Hrd Hne) as (e0 & He0 & Hval & _).
  destruct (lt_entries _ _ Hl q' e0 He0) as (e2 & He2 & Hlat). assert (e2 = e1) as -> by congruence.
  destruct Hlat as [(L1 & L2 & _)|(_ & _ & L3)].
  - rewrite L1. apply Hval. congruence.
  - destruct (Hrevs q' rev Hrd Hne) as [_ Hlt]. rewrite Hm in Hlt. specialize (Hlt ltac:(done)). lia.
Qed.

(** A recorded id of a key is never an input's node. *)
Lemma memo_kind s k q n : store_ok s → td_ids (st_table s) !! k = Some q →
  gr_node (st_graph s) q = Some n → ∃ t, nd_kind n = Memo t.
Proof.
  intros Hs Hk Hn. pose proof (so_nodes _ _ _ Hs q n Hn) as Hkind.
  destruct (nd_kind n) as [i|t]; [|by exists t].
  destruct (io_input _ (so_ids _ _ _ Hs) i q Hkind) as [_ Hno].
  apply (io_bij _ (so_ids _ _ _ Hs)) in Hk. congruence.
Qed.

(** A maybe-dirty entry whose reads are unchanged holds today's answer. *)
Lemma reads_unchanged_ok (get_memo : list QueryId → Get) frames q k e s s' res :
  (∀ frames, reads_ok compute_of w (get_memo frames)) → store_ok s →
  td_ids (st_table s) !! k = Some q → st_entry s q = Some e → en_state e = MaybeDirty →
  reads_unchanged get_memo frames q s = Ret (s', res) →
  store_ok s' ∧ later s s' ∧ (res = inr true → ∃ rds, recorded s q = Some rds ∧
    computed compute_of w s' k (en_value e) rds).
Proof.
  intros Hget Hs Hk He Hm. unfold reads_unchanged.
  destruct (gr_node (st_graph s) q) as [n|] eqn:Hn.
  2: { intros [= <- <-]. split; [done|]. split; [apply later_refl|done]. }
  intros Hrun. destruct (check_reads_ok _ _ (Hget (q :: frames)) s s' res Hs Hrun) as (Hs' & Hl & Hres).
  split; [done|]. split; [done|]. intros Htrue. specialize (Hres Htrue).
  destruct (old_trace s q k e Hs Hk He Hm) as (tr & rds & Hrec & Hq & Hf & Htc & Hrevs & Hold).
  exists rds. split; [done|]. unfold recorded in Hrec. rewrite Hq, Hn in Hrec.
  injection Hrec as Hrec.
  assert (∀ k' v' q' rev, EvMemo k' v' ∈ tr → td_ids (st_table s) !! k' = Some q' →
    (q', rev) ∈ rds → rev ≠ input_read → clean_at s' q' v' rev) as Hclean.
  { intros k' v' q' rev Hev Hk2 Hrd Hne.
    destruct (Hres q' rev (nd_kind <$> gr_node (st_graph s) q')) as [Hsome Hmemo].
    { apply list_elem_of_fmap. exists (q', rev). split; [done|]. by rewrite Hrec. }
    destruct (gr_node (st_graph s) q') as [n'|] eqn:Hn'; [|done].
    destruct (memo_kind s k' q' n' Hs Hk2 Hn') as [t Hnk].
    destruct (Hmemo t) as [v1 Hv1]; [simpl; by rewrite Hnk|].
    assert (v1 = v') as -> by (by eapply Hold). done. }
  assert (∀ k' v' , EvMemo k' v' ∈ tr → ∃ q' rev, td_ids (st_table s) !! k' = Some q' ∧
    (q', rev) ∈ rds ∧ rev ≠ input_read) as Hmem by apply Htc.
  split.
  - exists tr. split; [done|].
    split; [eapply trace_recorded_later; [apply Hl|apply Hl|exact Htc]|].
    intros k' v' q' rev Hev Hk2 Hrd Hne. destruct (Hmem k' v' Hev) as (q0 & _ & Hq0 & _).
    assert (q0 = q') as -> by (eapply lookup_weaken in Hq0; [|apply Hl]; congruence).
    destruct (Hclean k' v' q' rev Hev Hq0 Hrd Hne) as (e1 & He1 & C1 & C2 & C3). by exists e1.
  - eapply Forall_impl; [apply (so_reads _ _ _ Hs q)|intros; by eapply known_later].
    unfold recorded. by rewrite Hq, Hn, <- Hrec.
  - intros q' rev Hrd Hne. rewrite (lt_revision _ _ Hl). by eapply Hrevs.
  - apply (eval_intro compute_of w k _ tr Hf). intros k' v' Hev.
    destruct (Hmem k' v' Hev) as (q' & rev & Hq' & Hrd & Hne).
    eapply clean_at_eval; [exact Hs'| |by eapply Hclean]. by eapply lookup_weaken, Hl.
Qed.

(** The entry the verification lowers. *)
Lemma verified_ok s s' q k e rds :
  store_ok s → later s s' → store_ok s' → td_ids (st_table s) !! k = Some q →
  st_entry s q = Some e → en_state e = MaybeDirty → recorded s q = Some rds →
  computed compute_of w s' k (en_value e) rds →
  let s2 := match st_entry s' q with
            | Some entry => if decide (en_state entry = MaybeDirty)
                            then set_entry s' q (entry_state entry Clean) else s'
            | None => s'
            end in
  store_ok s2 ∧ later s s2.
Proof.
  intros Hs Hl Hs' Hk He Hm Hrec Hc. cbv zeta.
  destruct (lt_entries _ _ Hl q e He) as (e1 & He1 & Hlat). rewrite He1.
  case_decide as Hm1; [|done].
  destruct Hlat as [(L1 & L2 & _)|(_ & Hcl & _)]; [|congruence].
  destruct (so_entries _ _ _ Hs' q e1 He1) as [_ Hch Hst1].
  destruct Hst1 as [_ Hq1]; [congruence|].
  destruct (so_entries _ _ _ Hs q e He) as [_ _ Hst]. destruct Hst as [_ Hq]; [congruence|].
  destruct (put_ok compute_of w s' (set_entry s' q (entry_state e1 Clean)) q k (entry_state e1 Clean)
    rds Hs') as [H1 H2]; try done.
  - by eapply lookup_weaken, Hl.
  - rewrite He1. split; [done|]. split; [exact Hch|]. left. split; [done|]. split; [done|]. by right.
  - by rewrite <- L1 in Hc.
  - by left.
  - rewrite (recorded_same s' (set_entry s' q (entry_state e1 Clean)) q) by done.
    rewrite <- Hrec. apply recorded_same; [congruence|apply Hl].
  - split; [done|]. by eapply later_trans.
Qed.

Lemma verify_reuse_ok (get_memo : list QueryId → Get) frames q k e s s' res :
  (∀ frames, reads_ok compute_of w (get_memo frames)) → store_ok s →
  td_ids (st_table s) !! k = Some q → st_entry s q = Some e → en_state e = Clean →
  verify_reuse table_of input_hash compute_of implied_of get_memo w frames q k (en_value e)
    (en_changed_at e) s = Ret (s', res) →
  store_ok s' ∧ later s s' ∧ ∀ a, res = inr a → answered s' k a.
Proof.
  intros Hget Hs Hk He Hcl. unfold verify_reuse. rewrite He.
  destruct (touch_ok compute_of w s q e (entry_checked e (st_revision s)) Hs He) as [Hs1 Hl1]; [done|].
  set (s1 := set_entry s q (entry_checked e (st_revision s))) in *.
  assert (clean_at s q (en_value e) (en_changed_at e)) as Hca by (by exists e).
  assert (∀ s2, later s s2 → answered s2 k (mk_answer (en_value e) q (en_changed_at e))) as Hans.
  { intros s2 Hl2. split; [by eapply lookup_weaken, Hl2|]. by eapply clean_at_later. }
  case_match.
  { intros [= <- <-]. split; [done|]. split; [done|]. intros a [= <-]. by apply Hans. }
  destruct (compute compute_of implied_of get_memo w frames q k s1) as [| |[s2 res1]] eqn:Hc; [done..|].
  cbn [mbind outcome_bind]. destruct (compute_ok _ _ _ _ _ _ _ Hget Hs1 Hc) as (Hs2 & Hl2 & Hran).
  assert (later s s2) as Hl by (by eapply later_trans).
  destruct res1 as [cycle|[fresh reads]]; [by intros [= <- <-]|].
  rewrite decide_True.
  - intros [= <- <-]. split; [done|]. split; [done|]. intros a [= <-]. by apply Hans.
  - destruct (clean_at_eval _ _ _ _ _ _ _ Hs Hk Hca) as [Hev _].
    eapply eval_det; [exact Hev|]. by apply (Hran fresh reads eq_refl).
Qed.

(** ** [get] *)
Lemma get_reads_ok fuel : ∀ frames, reads_ok compute_of w (get fuel w frames).
Proof.
  induction fuel as [|fuel IH]; intros frames k s s' res Hs; cbn [Memo.get]; [done|].
  destruct (query_of key_hash s k) as [| |[s0 q]] eqn:Hq; [done..|]. cbn [mbind outcome_bind].
  destruct (query_of_ok key_hash compute_of w s k s0 q Hs Hq) as (Hs0 & Hl0 & Hk0 & _ & _).
  destruct (look s0 q) as [s1 found] eqn:Hlook.
  destruct (look_ok compute_of w s0 q s1 found Hs0 Hlook) as (Hs1 & Hl1 & _ & Hfound).
  assert (later s s1) as Hl by (by eapply later_trans).
  assert (td_ids (st_table s1) !! k = Some q) as Hk by (by eapply lookup_weaken, Hl1).
  assert (∀ o, (o = Ret (s', res) → store_ok s' ∧ later s1 s' ∧ ∀ a, res = inr a → answered s' k a) →
    o = Ret (s', res) → store_ok s' ∧ later s s' ∧ ∀ a, res = inr a → answered s' k a) as Hstep.
  { intros o Ho Heq. destruct (Ho Heq) as (H1 & H2 & H3). split; [done|].
    split; [by eapply later_trans|done]. }
  pose proof (λ q, recompute_ok (get fuel w) frames q k s1 s' res IH Hs1) as Hre.
  destruct found as [e0|]; [|eauto].
  destruct (Hfound e0 eq_refl) as (e & He & Ev & Es & Ec & Ep).
  destruct (en_state e0) eqn:Hst; [| |eauto].
  - case_match.
    + apply Hstep. rewrite <- Ev, <- Ec. by eapply verify_reuse_ok.
    + intros [= <- <-]. split; [done|]. split; [done|]. intros a [= <-]. split; [done|]. exists e. by split_and!.
  - case_decide as Hfr; [by intros [= <- <-]|]. apply Hstep.
    destruct (reads_unchanged (get fuel w) frames q s1) as [| |[s2 unchanged]] eqn:Hun; [done..|].
    cbn [mbind outcome_bind].
    destruct (reads_unchanged_ok _ _ _ k e _ _ _ IH Hs1 Hk He Es Hun) as (Hs2 & Hl2 & Hcomp).
    destruct unchanged as [cycle|[|]]; [by intros [= <- <-]| |].
    + destruct (Hcomp eq_refl) as (rds & Hrec & Hc).
      destruct (verified_ok s1 s2 q k e rds) as [Hs3 Hl3]; try done.
      intros Hrun. destruct (IH frames k _ s' res Hs3 Hrun) as (H1 & H2 & H3).
      split; [done|]. split; [by eapply later_trans|done].
    + intros Hrun. destruct (recompute_ok (get fuel w) frames q k s2 s' res IH Hs2) as (H1 & H2 & H3);
        [by eapply lookup_weaken, Hl2|done|].
      split; [done|]. split; [by eapply later_trans|done].
Qed.

End answer.
