(* ===== verification/MemoBuild.v ===== *)
(** * Starting a build

    [synced_graph] and [flush] move a build's records into the read graph, keep
    the store's invariant and leave nothing queued or pending. Then what
    [begin] raises, closes over and leaves, for the inputs that changed. *)
From S2P Require Import Prelude Order MemoGraph MemoGraphSpec Memo MemoSpec.

(** ** One node written *)
Section graph.
Context {I : Type}.
Implicit Types (s : GraphShard I) (g : Graph I) (n : Node I) (q r : QueryId).

Lemma gr_node_alter g id f q :
  gr_node (alter f (graph_shard id) g) q =
    if decide (graph_shard id = graph_shard q) then s ← g !! graph_shard q; gs_nodes (f s) !! q
    else gr_node g q.
Proof.
  unfold gr_node. rewrite list_lookup_alter. case_decide as Hd; [|done].
  rewrite <- Hd. by destruct (g !! graph_shard id).
Qed.

(** [f] writes the node of [id]: its reads, with the old ones queued when
    they change. *)
Definition writes_node id n' (f : GraphShard I → GraphShard I) s : Prop :=
  gs_nodes (f s) = <[id := n']> (gs_nodes s) ∧
  nd_readers n' = match gs_nodes s !! id with Some n => nd_readers n | None => [] end ∧
  let prev := match gs_nodes s !! id with Some n => nd_reads n | None => [] end in
  (gs_pending (f s) = gs_pending s ++ [(id, prev)] ∨
   gs_pending (f s) = gs_pending s ∧ nd_reads n' = prev).

Lemma writes_flushed id n' f s q : writes_node id n' f s → shard_flushed (f s) q = shard_flushed s q.
Proof.
  intros (Hn & _ & Hp). unfold shard_flushed. rewrite Hn. destruct Hp as [Hp|[Hp Hr]]; rewrite Hp.
  - destruct (list_find (λ p, p.1 = q) (gs_pending s)) as [[j [q0 prev]]|] eqn:Hf.
    + by rewrite (list_find_app_l _ _ _ _ _ Hf).
    + rewrite list_find_app_r by done. simpl. destruct (decide (id = q)) as [->|Hne].
      * simpl. by destruct (gs_nodes s !! q).
      * simpl. by rewrite lookup_insert_ne.
  - destruct (list_find _ _) as [[? [? ?]]|]; [done|]. destruct (decide (id = q)) as [->|Hne].
    + rewrite lookup_insert_eq, Hr. by destruct (gs_nodes s !! q).
    + by rewrite lookup_insert_ne.
Qed.

Lemma put_node_ok g id n' f :
  graph_ok g → closed g → (id < 4294967296)%N →
  (∀ s, g !! graph_shard id = Some s → writes_node id n' f s) →
  let g' := alter f (graph_shard id) g in
  graph_ok g' ∧ closed g' ∧ (∀ q, flushed_reads g' q = flushed_reads g q) ∧
  ∀ q, gr_node g' q = if decide (id = q) then Some n' else gr_node g q.
Proof.
  intros Hg Hc Hid Hw g'. destruct (shard_at g id Hg) as [s0 Hs0]. specialize (Hw s0 Hs0).
  pose proof Hw as (Hn & Hrd & Hp).
  assert (∀ i s', g' !! i = Some s' →
    (i = graph_shard id ∧ s' = f s0) ∨ (i ≠ graph_shard id ∧ g !! i = Some s')) as Hsh.
  { intros i s'. unfold g'. rewrite list_lookup_alter. case_decide as Hd; [|by right].
    subst i. rewrite Hs0. intros [= <-]. by left. }
  assert (∀ q, gr_node g' q = if decide (id = q) then Some n' else gr_node g q) as Hnode.
  { intros q. unfold g'. rewrite gr_node_alter. case_decide as Hd.
    - unfold gr_node. rewrite <- Hd, Hs0. simpl. rewrite Hn, lookup_insert. done.
    - rewrite decide_False; [done|]. by intros ->. }
  assert (∀ q, flushed_reads g' q = flushed_reads g q) as Hfl.
  { intros q. unfold flushed_reads, g'. rewrite list_lookup_alter. case_decide as Hd; [|done].
    rewrite <- Hd, Hs0. simpl. by eapply writes_flushed. }
  assert (gr_node g id = gs_nodes s0 !! id) as Hid0 by (unfold gr_node; by rewrite Hs0).
  split; [|split; [|done]].
  - split.
    + unfold g'. rewrite length_alter. apply Hg.
    + intros i s' q Hs' Hq. destruct (Hsh i s' Hs') as [[-> ->]|[_ Hi]]; [|by eapply go_shard].
      rewrite Hn in Hq. destruct (decide (id = q)) as [->|Hne]; [done|].
      rewrite lookup_insert_ne in Hq by done. by eapply go_shard.
    + intros i s' q prev Hs' Hin.
      destruct (Hsh i s' Hs') as [[-> ->]|[_ Hi]]; [|by eapply go_pending].
      assert ((q, prev) ∈ gs_pending s0 ∨ q = id) as [Hin0| ->].
      { destruct Hp as [Hp|[Hp _]]; rewrite Hp in Hin; [|by left].
        apply elem_of_app in Hin as [?|[= -> _]%list_elem_of_singleton]; auto. }
      * destruct (go_pending _ Hg _ _ _ _ Hs0 Hin0) as (H1 & H2 & H3). split; [done|].
        split; [|done]. rewrite Hn. destruct (decide (id = q)) as [->|Hne].
        -- rewrite lookup_insert_eq. by eexists.
        -- by rewrite lookup_insert_ne.
      * split; [done|]. split; [|done]. rewrite Hn, lookup_insert_eq. by eexists.
    + intros q n. rewrite Hnode. case_decide as Hd; [|apply Hg]. intros [= <-]. subst q. rewrite Hrd.
      destruct (gs_nodes s0 !! id) as [n|] eqn:Hn0; [|constructor]. eapply (go_sorted _ Hg id).
      congruence.
    + intros q n r. rewrite Hnode. rewrite Hfl. case_decide as Hd; [|by apply Hg]. intros [= <-]. subst q.
      rewrite Hrd. destruct (gs_nodes s0 !! id) as [n|] eqn:Hn0.
      * apply (go_readers _ Hg). congruence.
      * split; [by intros ?%elem_of_nil|]. intros [n Hx]%Hc. congruence.
  - intros q r. rewrite Hfl. intros Hin%Hc. rewrite Hnode. case_decide; [by eexists|done].
Qed.

(** ** The queue *)

Lemma sync_input_ok g q0 (i : I) :
  graph_ok g → closed g → (q0 < 4294967296)%N → gr_node g q0 = None →
  let g' := sync_input g (q0, i) in
  graph_ok g' ∧ closed g' ∧
  ∀ q, gr_node g' q = if decide (q0 = q) then Some (node_new (Input i)) else gr_node g q.
Proof.
  intros Hg Hc Hq Hno. unfold sync_input.
  match goal with |- context [alter ?f _ _] => destruct (put_node_ok g q0 (node_new (Input i)) f)
    as (H1 & H2 & _ & H3) end; try done.
  intros s Hs. unfold gr_node in Hno. rewrite Hs in Hno. simpl in Hno. unfold writes_node. simpl.
  rewrite Hno. split; [done|]. split; [done|]. by right.
Qed.

Lemma sync_inputs_ok (fresh : list (QueryId * I)) : ∀ g,
  graph_ok g → closed g → NoDup fresh.*1 →
  (∀ q i, (q, i) ∈ fresh → (q < 4294967296)%N ∧ gr_node g q = None) →
  let g' := foldl sync_input g fresh in
  graph_ok g' ∧ closed g' ∧
  (∀ q i, (q, i) ∈ fresh → gr_node g' q = Some (node_new (Input i))) ∧
  (∀ q, q ∉ fresh.*1 → gr_node g' q = gr_node g q).
Proof.
  induction fresh as [|[q0 i0] fresh IH]; intros g Hg Hc Hnd Hfresh; cbn [foldl].
  { split; [done|]. split; [done|]. split; [by intros ?? ?%elem_of_nil|done]. }
  simpl in Hnd. apply NoDup_cons in Hnd as [Hq0 Hnd].
  destruct (Hfresh q0 i0) as [Hlt Hno]; [by left|].
  destruct (sync_input_ok g q0 i0 Hg Hc Hlt Hno) as (Hg1 & Hc1 & Hn1).
  destruct (IH _ Hg1 Hc1 Hnd) as (H1 & H2 & H3 & H4).
  { intros q i Hin. destruct (Hfresh q i) as [? ?]; [by right|]. split; [done|].
    rewrite Hn1, decide_False; [done|]. intros ->. destruct Hq0. apply list_elem_of_fmap.
    by exists (q, i). }
  split; [done|]. split; [done|]. split.
  - intros q i [[= -> ->]|Hin]%elem_of_cons; [|by apply H3]. rewrite H4, Hn1 by done.
    by rewrite decide_True.
  - intros q [Hne Hq]%not_elem_of_cons. simpl in Hne. rewrite H4, Hn1 by done.
    by rewrite decide_False by done.
Qed.

Lemma sync_record_ok g q0 t rds :
  graph_ok g → closed g → (q0 < 4294967296)%N →
  let g' := sync_record g (q0, t, rds) in
  let n' := match gr_node g q0 with
            | Some n => mk_node (nd_kind n) rds (nd_readers n)
            | None => mk_node (Memo t) rds []
            end in
  graph_ok g' ∧ closed g' ∧
  ∀ q, gr_node g' q = if decide (q0 = q) then Some n' else gr_node g q.
Proof.
  intros Hg Hc Hq. cbv zeta. unfold sync_record.
  match goal with |- context [alter ?f _ _] =>
    match goal with |- context [if decide (q0 = _) then Some ?n' else _] =>
      destruct (put_node_ok g q0 n' f) as (H1 & H2 & _ & H3) end end; try done.
  intros s Hs. unfold writes_node, gr_node. rewrite Hs. cbn [mbind option_bind].
  unfold gs_record. simpl. destruct (gs_nodes s !! q0) as [n|] eqn:Hn.
  - rewrite Hn. split; [|split; [done|by left]]. apply map_eq. intros q.
    destruct (decide (q = q0)) as [->|Hne].
    + by rewrite lookup_alter_eq, lookup_insert_eq, Hn.
    + by rewrite lookup_alter_ne, lookup_insert_ne by done.
  - rewrite lookup_insert_eq. split; [|split; [done|by left]]. apply map_eq. intros q.
    destruct (decide (q = q0)) as [->|Hne].
    + by rewrite lookup_alter_eq, !lookup_insert_eq.
    + by rewrite lookup_alter_ne, !lookup_insert_ne by done.
Qed.

Lemma sync_records_ok (records : list QueuedRecord) g :
  graph_ok g → closed g → (∀ rc, rc ∈ records → (rc.1.1 < 4294967296)%N) →
  let g' := foldl sync_record g records in
  graph_ok g' ∧ closed g' ∧
  (∀ q, nd_reads <$> gr_node g' q = match last (filter (λ rc, rc.1.1 = q) records) with
                                    | Some r => Some r.2
                                    | None => nd_reads <$> gr_node g q
                                    end) ∧
  (∀ q n', gr_node g' q = Some n' → (∃ n, gr_node g q = Some n ∧ nd_kind n' = nd_kind n) ∨
    (gr_node g q = None ∧ (∃ t, nd_kind n' = Memo t) ∧ ∃ rc, rc ∈ records ∧ rc.1.1 = q)).
Proof.
  intros Hg Hc. induction records as [|[[q0 t] rds] records IH] using rev_ind; intros Hlt.
  { split; [done|]. split; [done|]. split; [done|]. intros q n' Hn. left. by exists n'. }
  destruct IH as (H1 & H2 & H3 & H4). { intros r Hr. apply Hlt, elem_of_app. by left. }
  rewrite foldl_snoc.
  destruct (sync_record_ok (foldl sync_record g records) q0 t rds H1 H2) as (G1 & G2 & G3).
  { apply (Hlt (q0, t, rds)), elem_of_app. right. by left. }
  split; [done|]. split; [done|]. split.
  - intros q. rewrite G3, filter_app. case_decide as Hd.
    + subst q. rewrite filter_cons_True, filter_nil, last_snoc by done.
      by destruct (gr_node (foldl sync_record g records) q0).
    + rewrite filter_cons_False, filter_nil, app_nil_r by done. apply H3.
  - intros q n'. rewrite G3. case_decide as Hd.
    + subst q. destruct (gr_node (foldl sync_record g records) q0) as [n|] eqn:Hn; intros [= <-]; simpl.
      * destruct (H4 q0 n Hn) as [?|(Hno & Ht & r & Hr & ?)]; [by left|right].
        split; [done|]. split; [done|]. exists r. split; [|done]. apply elem_of_app. by left.
      * right. split; [|split; [by eexists|]].
        -- specialize (H3 q0). rewrite Hn in H3. by destruct (last _), (gr_node g q0).
        -- exists (q0, t, rds). split; [|done]. apply elem_of_app. right. by left.
    + intros Hn. destruct (H4 q n' Hn) as [?|(Hno & Ht & r & Hr & ?)]; [by left|right].
      split; [done|]. split; [done|]. exists r. split; [|done]. apply elem_of_app. by left.
Qed.

End graph.

(** ** The store *)
Section store.
Context {I A K V : Type} `{Countable I, Countable K, EqDecision V}.
Context (compute_of : K → Comp I A K V) (w : I → A).
Implicit Types (s : Store I K V) (q : QueryId) (k : K) (e : Entry V).

Local Abbreviation store_ok := (store_ok compute_of w) (only parsing).
Local Abbreviation entry_ok := (entry_ok compute_of w) (only parsing).

(** Two stores with the same tables, whose records are in different places. *)
Record regraphed s s' : Prop := {
  rg_table : st_table s' = st_table s;
  rg_inputs : in_ids (st_inputs s') = in_ids (st_inputs s);
  rg_next : st_next s' = st_next s;
  rg_revision : st_revision s' = st_revision s;
  rg_poisoned : st_poisoned s' = st_poisoned s;
  rg_verify : st_verify_reused s' = st_verify_reused s;
  rg_recorded : ∀ q, is_Some (st_entry s q) → recorded s' q = recorded s q;
  rg_reads : ∀ q, reads_at s' q = reads_at s q
}.

Lemma regraphed_refl s : regraphed s s.
Proof. by split. Qed.

Lemma regraphed_entry s s' q : regraphed s s' → st_entry s' q = st_entry s q.
Proof. intros Hr. unfold st_entry. by rewrite (rg_table _ _ Hr). Qed.

Lemma regraphed_trans s1 s2 s3 : regraphed s1 s2 → regraphed s2 s3 → regraphed s1 s3.
Proof.
  intros H1 H2. split.
  1-6: etrans; [apply H2|apply H1].
  2: { intros q. by rewrite (rg_reads _ _ H2), (rg_reads _ _ H1). }
  intros q Hq. rewrite (rg_recorded _ _ H2); [by apply H1|]. by rewrite (regraphed_entry _ _ _ H1).
Qed.

Lemma known_regraphed s s' r : regraphed s s' → known s r → known s' r.
Proof. intros Hr. unfold known. by rewrite (regraphed_entry _ _ _ Hr), (rg_inputs _ _ Hr). Qed.

Lemma entry_ok_regraphed s s' q e :
  regraphed s s' → queued s' q = [] → st_entry s q = Some e → entry_ok s q e → entry_ok s' q e.
Proof.
  intros Hr Hq He [(k & Hk & Htr & Hev) Hch Hst]. split.
  - exists k. rewrite (rg_table _ _ Hr). split; [done|]. split; [|done].
    intros Hnd. destruct (Htr Hnd) as (tr & rds & Hrec & Hf & [T1 T2 T3] & Hrevs & Hans).
    exists tr, rds. rewrite (rg_recorded _ _ Hr) by (by exists e). split; [done|]. split; [done|].
    split; [split; rewrite ?(rg_table _ _ Hr), ?(rg_inputs _ _ Hr); done|].
    rewrite (rg_revision _ _ Hr), (rg_table _ _ Hr). split; [done|].
    setoid_rewrite (regraphed_entry _ _ _ Hr). exact Hans.
  - by rewrite (rg_revision _ _ Hr).
  - rewrite (rg_revision _ _ Hr). intros Hc. split; [by apply Hst|done].
Qed.

Lemma id_lt s q : ids_ok s → (q < 16 * st_next s)%N → (q < 4294967296)%N.
Proof. intros Hids Hq. pose proof (io_next _ Hids). change (2 ^ 32)%N with 4294967296%N in *. lia. Qed.

Lemma entry_id_lt s q : store_ok s → is_Some (st_entry s q) → (q < 16 * st_next s)%N ∧
  ∀ i, in_ids (st_inputs s) !! i ≠ Some q.
Proof.
  intros Hs [e He]. destruct (so_entries _ _ _ Hs q e He) as [(k & Hk & _) _ _]. split.
  - by apply (io_key _ (so_ids _ _ _ Hs)) in Hk.
  - intros i Hi. destruct (io_input _ (so_ids _ _ _ Hs) i q Hi). congruence.
Qed.

Lemma synced_ok s :
  store_ok s → let s' := synced_graph s in
  store_ok s' ∧ regraphed s s' ∧ st_records s' = [] ∧ in_fresh (st_inputs s') = [].
Proof.
  intros Hs s'. pose proof (so_ids _ _ _ Hs) as Hids.
  destruct (so_fresh _ _ _ Hs) as [Hnd Hnew].
  destruct (sync_inputs_ok (in_fresh (st_inputs s)) (st_graph s)) as (G1 & C1 & F1 & O1);
    [apply Hs|apply Hs|done| |].
  { intros q i Hin. split; [|by eapply Hnew]. eapply id_lt; [done|].
    by eapply io_input, io_fresh. }
  set (g1 := foldl sync_input _ _) in *.
  destruct (sync_records_ok (st_records s) g1 G1 C1) as (G2 & C2 & R2 & K2).
  { intros rc Hin. eapply id_lt; [done|]. eapply entry_id_lt; [done|]. by apply (so_records _ _ _ Hs). }
  set (g2 := foldl sync_record g1 _) in *.
  assert (st_graph s' = g2) as Hg by done.
  assert (∀ q, recorded s' q = nd_reads <$> gr_node g2 q) as Hrec' by done.
  assert (∀ q, q ∈ (in_fresh (st_inputs s)).*1 → ∃ i, (q, i) ∈ in_fresh (st_inputs s) ∧
    in_ids (st_inputs s) !! i = Some q) as Hfr.
  { intros q ([q1 i] & -> & Hin)%list_elem_of_fmap. exists i. split; [done|].
    by apply (io_fresh _ Hids). }
  assert (∀ q, q ∉ (in_fresh (st_inputs s)).*1 → recorded s' q = recorded s q) as Hrec.
  { intros q Hq. rewrite Hrec', R2. unfold recorded, queued. by rewrite (O1 q Hq). }
  assert (regraphed s s') as Hrg.
  { split; try done.
    - intros q Hq. apply Hrec. intros (i & _ & Hi)%Hfr. by eapply entry_id_lt.
    - intros q. unfold reads_at. destruct (decide (q ∈ (in_fresh (st_inputs s)).*1)) as [Hq|Hq].
      + destruct (Hfr q Hq) as (i' & Hin & Hi').
        assert (queued s q = []) as Hno.
        { apply queued_nil. intros r Hr <-. eapply entry_id_lt; [done|by apply (so_records _ _ _ Hs)|done]. }
        rewrite Hrec', R2. fold (queued s q). unfold recorded. rewrite Hno, (F1 q i' Hin), (Hnew q i' Hin).
        done.
      + by rewrite (Hrec q Hq). }
  assert (∀ q, is_Some (gr_node g1 q) → is_Some (gr_node g2 q)) as Hdom.
  { intros q [n Hn]. specialize (R2 q). rewrite Hn in R2. destruct (gr_node g2 q); [by eexists|].
    by destruct (last _). }
  split; [|done]. split.
  - destruct Hids as [H1 H2 H3 H4 H5 H6]. split; try done. by intros q i ?%elem_of_nil.
  - intros q e He. apply (entry_ok_regraphed s); [done|done|done|by apply (so_entries _ _ _ Hs)].
  - by intros r ?%elem_of_nil.
  - intros q Hq. rewrite (rg_recorded _ _ Hrg); [by apply (so_born _ _ _ Hs)|done].
  - intros i q Hi. right. rewrite Hg. apply Hdom.
    destruct (decide (q ∈ (in_fresh (st_inputs s)).*1)) as [Hq|Hq].
    + destruct (Hfr q Hq) as (i' & Hin & _). rewrite (F1 q i' Hin). by eexists.
    + rewrite (O1 q Hq). destruct (so_born_input _ _ _ Hs i q Hi) as [Hin|?]; [|done].
      destruct Hq. apply list_elem_of_fmap. by exists (q, i).
  - intros q n. rewrite Hg. intros Hn. destruct (K2 q n Hn) as [(n1 & Hn1 & Hk)|(_ & (t & Hk) & r & Hr & <-)].
    + rewrite Hk. destruct (decide (q ∈ (in_fresh (st_inputs s)).*1)) as [Hq|Hq].
      * destruct (Hfr q Hq) as (i' & Hin & Hi'). rewrite (F1 q i' Hin) in Hn1. by injection Hn1 as <-.
      * rewrite (O1 q Hq) in Hn1. apply (so_nodes _ _ _ Hs q n1 Hn1).
    + rewrite Hk. apply (so_records _ _ _ Hs r Hr).
  - intros q rds Hrds. destruct (decide (q ∈ (in_fresh (st_inputs s)).*1)) as [Hq|Hq].
    + destruct (Hfr q Hq) as (i' & Hin & Hi'). rewrite Hrec', R2 in Hrds.
      fold (queued s q) in Hrds. rewrite queued_nil in Hrds.
      * rewrite (F1 q i' Hin) in Hrds. injection Hrds as <-. constructor.
      * intros r Hr <-. eapply entry_id_lt; [done|by apply (so_records _ _ _ Hs)|done].
    + rewrite (Hrec q Hq) in Hrds. eapply Forall_impl; [by apply (so_reads _ _ _ Hs q)|].
      intros. by eapply known_regraphed.
  - intros i q. rewrite (rg_reads _ _ Hrg). apply (so_input_reads _ _ _ Hs).
  - split; [constructor|]. by intros q i ?%elem_of_nil.
  - done.
  - done.
  - apply Hs.
Qed.

(** Nothing is queued and every reader list is exact. *)
Record flushed s : Prop := {
  fl_records : st_records s = [];
  fl_fresh : in_fresh (st_inputs s) = [];
  fl_settled : settled (st_graph s)
}.

Lemma flushed_queued s q : flushed s → queued s q = [].
Proof. intros Hf. unfold queued. by rewrite (fl_records _ Hf). Qed.

(** What [mark] and [end] work on. *)
Lemma synced_flush_ok s :
  store_ok s → ∃ g, gr_flush (st_graph (synced_graph s)) = Some g ∧
  let s' := set_graph (synced_graph s) g in store_ok s' ∧ regraphed s s' ∧ flushed s'.
Proof.
  intros Hs0. destruct (synced_ok s Hs0) as (Hs & Hrg0 & Hrecs & Hfresh).
  set (s1 := synced_graph s) in *. clearbody s1.
  destruct (flush_spec (st_graph s1)) as (g & Hrun & Hok & Hset & Hkr & Hrd); [apply Hs|].
  exists g. split; [done|]. set (s' := set_graph s1 g). cbv zeta.
  assert (∀ q, recorded s' q = recorded s1 q) as Hrec.
  { intros q. unfold recorded, queued. simpl. rewrite Hrecs. simpl. specialize (Hkr q).
    destruct (gr_node g q), (gr_node (st_graph s1) q); simpl in *; congruence. }
  assert (∀ q n, gr_node g q = Some n → ∃ n1, gr_node (st_graph s1) q = Some n1 ∧ nd_kind n = nd_kind n1)
    as Hback.
  { intros q n Hn. specialize (Hkr q). rewrite Hn in Hkr.
    destruct (gr_node (st_graph s1) q) as [n1|]; [|done]. exists n1. simpl in Hkr. split; congruence. }
  assert (∀ q, is_Some (gr_node (st_graph s1) q) → is_Some (gr_node g q)) as Hdom.
  { intros q [n Hn]. specialize (Hkr q). rewrite Hn in Hkr. by destruct (gr_node g q). }
  assert (regraphed s1 s') as Hrg by (split; try done; intros q; unfold reads_at; by rewrite Hrec).
  split; [|split; [by eapply regraphed_trans|by split]]. split.
  - destruct (so_ids _ _ _ Hs). by split.
  - intros q e He. apply (entry_ok_regraphed s1); [done| |done|by apply (so_entries _ _ _ Hs)].
    unfold queued. simpl. by rewrite Hrecs.
  - simpl. rewrite Hrecs. by intros r ?%elem_of_nil.
  - intros q Hq. rewrite Hrec. by apply (so_born _ _ _ Hs).
  - intros i q Hi. right. simpl. apply Hdom.
    destruct (so_born_input _ _ _ Hs i q Hi) as [Hin|?]; [|done].
    rewrite Hfresh in Hin. by apply elem_of_nil in Hin.
  - simpl. intros q n Hn. destruct (Hback q n Hn) as (n1 & Hn1 & ->).
    apply (so_nodes _ _ _ Hs q n1 Hn1).
  - intros q rds. rewrite Hrec. intros Hrds. eapply Forall_impl; [by apply (so_reads _ _ _ Hs q)|].
    intros. by eapply known_regraphed.
  - intros i q. rewrite (rg_reads _ _ Hrg). apply (so_input_reads _ _ _ Hs).
  - destruct (so_fresh _ _ _ Hs) as [Hnd _]. split; [done|]. simpl. rewrite Hfresh.
    by intros q i ?%elem_of_nil.
  - done.
  - intros q r Hin. apply Hdom. unfold flushed_reads, shard_flushed in Hin. simpl in Hin.
    destruct (g !! graph_shard r) as [sh|] eqn:Hsh; [|by apply elem_of_nil in Hin].
    rewrite (Hset _ _ Hsh) in Hin. simpl in Hin.
    destruct (gs_nodes sh !! r) as [n|] eqn:Hn; [|by apply elem_of_nil in Hin].
    assert (gr_node g r = Some n) as Hn' by (unfold gr_node; by rewrite Hsh).
    apply list_elem_of_fmap in Hin as ([q1 rev] & -> & Hin).
    assert (recorded s1 r = Some (nd_reads n)) as Hr1.
    { rewrite <- Hrec. unfold recorded, queued. simpl. rewrite Hrecs. simpl. by rewrite Hn'. }
    pose proof (so_reads _ _ _ Hs r _ Hr1) as Hk. rewrite Forall_forall in Hk.
    specialize (Hk _ Hin). unfold known in Hk. simpl in *. case_decide.
    + destruct Hk as [i Hi]. destruct (so_born_input _ _ _ Hs i q1 Hi) as [Hf|?]; [|done].
      rewrite Hfresh in Hf. by apply elem_of_nil in Hf.
    + pose proof (so_born _ _ _ Hs q1 Hk) as Hb. unfold recorded, queued in Hb. rewrite Hrecs in Hb.
      simpl in Hb. by apply fmap_is_Some in Hb.
  - apply Hs.
Qed.

End store.

(** * Starting a build

    [begin] marks every entry an input change can reach, so the store it
    leaves is right for the new inputs.

    Then: A build's start, for the inputs that changed. *)

Section marking.
Context {I A K V : Type} `{Countable I, Countable K, EqDecision V}.
Implicit Types (s : Store I K V) (t : TableData K V) (q : QueryId) (k : K) (e : Entry V).
Implicit Types (g : list (GraphShard I)) (D M : gset QueryId).

(** ** Raised entries *)

Definition mark_of D M q (state : EntryState) : EntryState :=
  state_max (state_max state (if decide (q ∈ D) then Dirty else Clean))
    (if decide (q ∈ M) then MaybeDirty else Clean).

(** [t'] is [t] with [D] raised to dirty and [M] to maybe-dirty. *)
Record raised D M t t' : Prop := {
  rs_ids : td_ids t' = td_ids t;
  rs_keys : td_keys t' = td_keys t;
  rs_entries : ∀ q, td_entries t' !! q =
    (λ e, entry_state e (mark_of D M q (en_state e))) <$> td_entries t !! q
}.

(** Every entry's node names its table. *)
Definition noded g t : Prop :=
  ∀ q, is_Some (td_entries t !! q) → ∃ n tb, gr_node g q = Some n ∧ nd_kind n = Memo tb.

Lemma mark_of_empty q state : mark_of ∅ ∅ q state = state.
Proof. unfold mark_of. rewrite !decide_False by set_solver. by destruct state. Qed.

Lemma entry_state_eta e : entry_state e (en_state e) = e.
Proof. by destruct e. Qed.

Lemma raised_refl t : raised ∅ ∅ t t.
Proof.
  split; try done. intros q. destruct (td_entries t !! q); [|done]. simpl.
  by rewrite mark_of_empty, entry_state_eta.
Qed.

Lemma raise_entries g t state q q' :
  noded g t → td_entries (raise g state t q) !! q' =
    (if decide (q = q') then (λ e, entry_state e (state_max (en_state e) state)) else id) <$>
      td_entries t !! q'.
Proof.
  intros Hn. unfold raise.
  destruct (decide (q = q')) as [->|Hne].
  - destruct (td_entries t !! q') as [e|] eqn:He.
    + destruct (Hn q') as (n & tb & -> & Hk); [by exists e|]. rewrite Hk. simpl.
      by rewrite lookup_alter_eq, He.
    + destruct (gr_node g q') as [n|]; [|done]. destruct (nd_kind n); [done|]. simpl.
      by rewrite lookup_alter_eq, He.
  - rewrite option_fmap_id. destruct (gr_node g q) as [n|]; [|done]. destruct (nd_kind n); [done|].
    simpl. by rewrite lookup_alter_ne.
Qed.

Lemma raise_keeps g t state q :
  td_ids (raise g state t q) = td_ids t ∧ td_keys (raise g state t q) = td_keys t.
Proof. unfold raise. destruct (gr_node g q) as [n|]; [|done]. by destruct (nd_kind n). Qed.

Lemma noded_raised g D M t t' : raised D M t t' → noded g t → noded g t'.
Proof. intros Hr Hn q. rewrite (rs_entries _ _ _ _ Hr), fmap_is_Some. apply Hn. Qed.

Lemma state_max_marks a b c d :
  state_max (state_max (state_max a b) c) d = state_max (state_max a (state_max b d)) c.
Proof. by destruct a, b, c, d. Qed.

Lemma raised_dirty g D t t' q :
  raised D ∅ t t' → noded g t → raised ({[q]} ∪ D) ∅ t (raise g Dirty t' q).
Proof.
  intros Hr Hn. destruct (raise_keeps g t' Dirty q) as [H1 H2]. split.
  - rewrite H1. apply Hr.
  - rewrite H2. apply Hr.
  - intros q'. rewrite raise_entries by (by eapply noded_raised). rewrite (rs_entries _ _ _ _ Hr).
    destruct (td_entries t !! q') as [e|]; [|done]. simpl. f_equal. unfold mark_of.
    destruct (decide (q = q')) as [->|Hne]; unfold entry_state; simpl; f_equal.
    + rewrite (decide_True (P := q' ∈ {[q']} ∪ D)) by set_solver.
      destruct (decide (q' ∈ D)), (decide (q' ∈ ∅)); by destruct (en_state e).
    + by rewrite (decide_ext (q' ∈ {[q]} ∪ D) (q' ∈ D)) by set_solver.
Qed.

Lemma raised_maybe g D M t t' q :
  raised D M t t' → noded g t → raised D ({[q]} ∪ M) t (raise g MaybeDirty t' q).
Proof.
  intros Hr Hn. destruct (raise_keeps g t' MaybeDirty q) as [H1 H2]. split.
  - rewrite H1. apply Hr.
  - rewrite H2. apply Hr.
  - intros q'. rewrite raise_entries by (by eapply noded_raised). rewrite (rs_entries _ _ _ _ Hr).
    destruct (td_entries t !! q') as [e|]; [|done]. simpl. f_equal. unfold mark_of.
    destruct (decide (q = q')) as [->|Hne]; unfold entry_state; simpl; f_equal.
    + rewrite (decide_True (P := q' ∈ {[q']} ∪ M)) by set_solver.
      destruct (decide (q' ∈ D)), (decide (q' ∈ M)); by destruct (en_state e).
    + by rewrite (decide_ext (q' ∈ {[q]} ∪ M) (q' ∈ M)) by set_solver.
Qed.

Lemma raised_direct g t direct : ∀ D t',
  raised D ∅ t t' → noded g t →
  raised (list_to_set direct ∪ D) ∅ t (foldl (raise g Dirty) t' direct).
Proof.
  induction direct as [|q direct IH]; intros D t' Hr Hn; cbn [foldl].
  - by rewrite list_to_set_nil, (left_id_L ∅ (∪)).
  - rewrite list_to_set_cons.
    replace ({[q]} ∪ list_to_set direct ∪ D) with (list_to_set direct ∪ ({[q]} ∪ D)) by set_solver.
    apply IH; [by apply raised_dirty|done].
Qed.

(** ** The closure *)

Definition readers_of g : gset QueryId := list_to_set (gr_nodes g ≫= nd_readers).

Lemma elem_of_gr_nodes g n q : gr_node g q = Some n → n ∈ gr_nodes g.
Proof.
  unfold gr_node, gr_nodes. intros Hn.
  destruct (g !! graph_shard q) as [sh|] eqn:Hs; [|done]. simpl in Hn.
  apply list_elem_of_bind. exists sh. split; [|by eapply list_elem_of_lookup_2].
  apply list_elem_of_fmap. exists (q, n). split; [done|]. by apply elem_of_map_to_list.
Qed.

Lemma node_readers_in g q r : r ∈ node_readers g q → r ∈ readers_of g.
Proof.
  unfold node_readers, readers_of. destruct (gr_node g q) as [n|] eqn:Hn; [|by intros ?%elem_of_nil].
  intros Hr. apply elem_of_list_to_set, list_elem_of_bind. exists n. split; [done|].
  by eapply elem_of_gr_nodes.
Qed.

Lemma size_to_set_le (l : list QueryId) : size (list_to_set l : gset QueryId) ≤ length l.
Proof.
  induction l as [|q l IH]; [by rewrite list_to_set_nil, size_empty|].
  rewrite list_to_set_cons, size_union_alt, size_singleton. simpl.
  assert (size ((list_to_set l : gset N) ∖ {[q]}) ≤ size (list_to_set l : gset N))
    by (apply subseteq_size; set_solver).
  lia.
Qed.

Lemma size_readers_of g : size (readers_of g) ≤ sum_list_with (λ n, length (nd_readers n)) (gr_nodes g).
Proof.
  unfold readers_of. etrans; [apply size_to_set_le|].
  induction (gr_nodes g) as [|n l IH]; cbn [mbind list_bind sum_list_with]; [done|].
  rewrite length_app. by apply Nat.add_le_mono_l.
Qed.

(** One popped query's readers: the new ones are queued. *)
Lemma mark_readers_spec g D t readers : ∀ t' M queue, noded g t → raised D M t t' →
  ∃ t'' M' queue', foldl (mark_reader g D) (t', M, queue) readers = (t'', M', queue') ∧
    raised D M' t t'' ∧ M ⊆ M' ∧ (∀ q, q ∈ readers → q ∈ D ∪ M') ∧
    (∀ q, q ∈ M' → q ∈ M ∨ q ∈ readers) ∧
    (∀ q, q ∈ queue → q ∈ queue') ∧ (∀ q, q ∈ queue' → q ∈ queue ∨ q ∈ M') ∧
    (∀ q, q ∈ M' → q ∈ M ∨ q ∈ queue') ∧
    ∀ U, (∀ q, q ∈ readers → q ∈ U) →
      length queue' + size (U ∖ (D ∪ M')) ≤ length queue + size (U ∖ (D ∪ M)).
Proof.
  induction readers as [|r readers IH]; intros t' M queue Hn Hr; cbn [foldl].
  { exists t', M, queue. split; [done|]. split; [done|]. split; [done|].
    split; [by intros ? ?%elem_of_nil|]. split; [by left|]. split; [done|]. split; [by left|].
    split; [by left|done]. }
  unfold mark_reader at 2. case_decide as Hd.
  - destruct (IH t' M queue Hn Hr) as (t'' & M' & queue' & H1 & H2 & H3 & H4 & H5 & H6 & H7 & H8 & H9).
    exists t'', M', queue'. split; [done|]. split; [done|]. split; [done|].
    split; [intros q [->|Hq]%elem_of_cons; [set_solver|auto]|].
    split; [intros q [?|?]%H5; [by left|right; by right]|].
    split; [done|]. split; [done|]. split; [done|].
    intros U HU. apply H9. intros q Hq. apply HU. by right.
  - destruct (IH (raise g MaybeDirty t' r) ({[r]} ∪ M) (r :: queue) Hn)
      as (t'' & M' & queue' & H1 & H2 & H3 & H4 & H5 & H6 & H7 & H8 & H9); [by apply raised_maybe|].
    exists t'', M', queue'. split; [done|]. split; [done|]. split; [set_solver|].
    split; [intros q [->|Hq]%elem_of_cons; [set_solver|auto]|].
    split; [intros q [Hq|?]%H5; [|right; by right]|].
    { apply elem_of_union in Hq as [->%elem_of_singleton|?]; [right; by left|by left]. }
    split; [intros q Hq; apply H6; by right|].
    split; [intros q [Hq|?]%H7; [apply elem_of_cons in Hq as [->|?]; [right; set_solver|by left]|by right]|].
    split; [intros q [Hq|?]%H8; [|by right]|].
    { apply elem_of_union in Hq as [->%elem_of_singleton|?]; [right; apply H6; by left|by left]. }
    intros U HU. etrans; [apply H9; intros q Hq; apply HU; by right|].
    assert (r ∈ U) as HrU by (apply HU; by left).
    assert (size (U ∖ (D ∪ ({[r]} ∪ M))) < size (U ∖ (D ∪ M))) by (apply subset_size; set_solver).
    simpl. lia.
Qed.

(** Everything marked is queued or has its readers marked. *)
Definition closing g D M (queue : list QueryId) : Prop :=
  (∀ q, q ∈ queue → q ∈ D ∪ M) ∧
  ∀ q, q ∈ D ∪ M → q ∈ queue ∨ ∀ r, r ∈ node_readers g q → r ∈ D ∪ M.

Lemma mark_loop_spec g D t fuel : ∀ t' M queue, noded g t → raised D M t t' →
  closing g D M queue → length queue + size (readers_of g ∖ (D ∪ M)) ≤ fuel →
  ∃ t'' M', mark_loop fuel g D (t', M, queue) = Ret (t'', M') ∧ raised D M' t t'' ∧
    closing g D M' [] ∧
    ∀ P : QueryId → Prop, (∀ q, q ∈ D ∪ M → P q) →
      (∀ q r, P q → r ∈ node_readers g q → P r) → ∀ q, q ∈ D ∪ M' → P q.
Proof.
  induction fuel as [|fuel IH]; intros t' M queue Hn Hr Hc Hf; destruct queue as [|q queue];
    cbn [mark_loop]; try (exists t', M; done); [simpl in Hf; lia|].
  destruct (mark_readers_spec g D t (node_readers g q) t' M queue Hn Hr)
    as (t1 & M1 & queue1 & H1 & H2 & H3 & H4 & H5 & H6 & H7 & H8 & H9). rewrite H1.
  destruct (IH t1 M1 queue1) as (t2 & M2 & R1 & R2 & R3 & R4); [done|done| | |].
  - destruct Hc as [C1 C2]. split.
    + intros r [Hq|?]%H7; [|set_solver]. pose proof (C1 r ltac:(by right)). set_solver.
    + intros r Hr1. assert (r ∈ D ∪ M ∨ r ∈ queue1) as [Hr2|?]; [|..|by left].
      { apply elem_of_union in Hr1 as [?|[?|?]%H8]; [left; set_solver|left; set_solver|by right]. }
      destruct (C2 r Hr2) as [[->|Hq]%elem_of_cons|Hq].
      * right. exact H4.
      * left. by apply H6.
      * right. intros r' Hr'%Hq. set_solver.
  - pose proof (H9 (readers_of g) (node_readers_in g q)). simpl in Hf. lia.
  - exists t2, M2. split; [done|]. split; [done|]. split; [done|].
    intros P HP Hstep. apply (R4 P); [|done]. intros r [?|[?|Hq]%H5]%elem_of_union.
    + apply HP. set_solver.
    + apply HP. set_solver.
    + eapply Hstep; [|exact Hq]. apply HP. destruct Hc as [C1 _]. apply C1. by left.
Qed.

End marking.

Section rebuild.
Context {I A K V : Type} `{Countable I, Countable K, EqDecision V}.
Context (compute_of : K → Comp I A K V) (w w' : I → A).
Implicit Types (s : Store I K V) (q : QueryId) (k : K) (e : Entry V).

(** The next build's store: every entry keeps its answer, perhaps marked. *)
Record rebuilt s s' : Prop := {
  rb_ids : td_ids (st_table s') = td_ids (st_table s);
  rb_keys : td_keys (st_table s') = td_keys (st_table s);
  rb_graph : st_graph s' = st_graph s;
  rb_inputs : st_inputs s' = st_inputs s;
  rb_records : st_records s' = st_records s;
  rb_next : st_next s' = st_next s;
  rb_revision : st_revision s' = (st_revision s + 1)%N;
  rb_bound : (st_revision s' < 2 ^ 32)%N;
  rb_entries : ∀ q, ∃ f, st_entry s' q = (λ e, entry_state e (f (en_state e))) <$> st_entry s q ∧
    (∀ state, f state = Clean → state = Clean) ∧ (f Dirty = Dirty) ∧
    (∀ state, f state = state ∨ queued s q = []);
  rb_world : ∀ q e' rds i q', st_entry s' q = Some e' → en_state e' ≠ Dirty →
    recorded s q = Some rds → in_ids (st_inputs s) !! i = Some q' → (q', input_read) ∈ rds →
    w' i = w i;
  rb_closed : ∀ q e' rds q' rev e0, st_entry s' q = Some e' → en_state e' = Clean →
    recorded s q = Some rds → (q', rev) ∈ rds → rev ≠ input_read → st_entry s q' = Some e0 →
    en_state e0 = Clean → ∃ e1, st_entry s' q' = Some e1 ∧ en_state e1 = Clean
}.

Lemma rebuilt_recorded s s' q : rebuilt s s' → recorded s' q = recorded s q.
Proof. intros Hr. unfold recorded, queued. by rewrite (rb_graph _ _ Hr), (rb_records _ _ Hr). Qed.

(** Forwards: an entry of [s] is in [s'], marked. *)
Lemma rebuilt_entry s s' q e : rebuilt s s' → st_entry s q = Some e →
  ∃ e', st_entry s' q = Some e' ∧ en_value e' = en_value e ∧ en_changed_at e' = en_changed_at e ∧
    en_computed_at e' = en_computed_at e ∧ (en_state e' = Clean → en_state e = Clean) ∧
    (en_state e' ≠ Dirty → en_state e ≠ Dirty) ∧ (en_state e' = en_state e ∨ queued s q = []).
Proof.
  intros Hr He. destruct (rb_entries _ _ Hr q) as (f & Hf & F1 & F2 & F3). rewrite He in Hf.
  eexists. split; [exact Hf|]. simpl. split; [done|]. split; [done|]. split; [done|].
  split; [apply F1|]. split; [|apply F3]. intros Hd Hx. apply Hd. by rewrite Hx.
Qed.

Lemma rebuilt_back s s' q e' : rebuilt s s' → st_entry s' q = Some e' → is_Some (st_entry s q).
Proof.
  intros Hr He. destruct (rb_entries _ _ Hr q) as (f & Hf & _). rewrite He in Hf.
  destruct (st_entry s q); [by eexists|done].
Qed.

Lemma rebuilt_trace s s' q e e' k tr rds :
  store_ok compute_of w s → rebuilt s s' → st_entry s' q = Some e' → en_state e' ≠ Dirty →
  recorded s q = Some rds → trace_recorded s tr rds →
  follows w (compute_of k) tr (en_value e) → follows w' (compute_of k) tr (en_value e).
Proof.
  intros Hs Hr He' Hd Hrec Htc Hf. eapply follows_world; [exact Hf|]. intros i Hi.
  destruct (tc_input _ _ _ Htc i Hi) as (q' & Hq' & Hin). by eapply (rb_world _ _ Hr).
Qed.

(** A clean answer is the from-scratch one in the new inputs. *)
Lemma rebuilt_eval s s' : store_ok compute_of w s → rebuilt s s' →
  ∀ k v, eval compute_of w k v → ∀ q e e', td_ids (st_table s) !! k = Some q →
  st_entry s q = Some e → en_value e = v → st_entry s' q = Some e' → en_state e' = Clean →
  eval compute_of w' k v.
Proof.
  intros Hs Hr k v Hev. induction Hev as [k v tr0 Hf0 Hsub IH].
  intros q e e' Hk He <- He' Hcl.
  destruct (rebuilt_entry _ _ _ _ Hr He) as (e'' & He'' & _ & _ & _ & Hc & _).
  assert (e'' = e') as -> by congruence. specialize (Hc Hcl).
  destruct (so_entries _ _ _ Hs q e He) as [(k' & Hk' & Htr & _) _ _].
  assert (k' = k) as -> by (apply (io_bij _ (so_ids _ _ _ Hs)) in Hk; congruence).
  destruct Htr as (tr & rds & Hrec & Hf & Htc & Hrevs & Hans); [congruence|].
  assert (∀ k' v', EvMemo k' v' ∈ tr → ∃ q' e0, td_ids (st_table s) !! k' = Some q' ∧
    st_entry s q' = Some e0 ∧ en_value e0 = v' ∧ en_state e0 = Clean ∧
    ∃ e1, st_entry s' q' = Some e1 ∧ en_state e1 = Clean) as Hchild.
  { intros k' v' Hin. destruct (tc_memo _ _ _ Htc k' v' Hin) as (q' & rev & Hq' & Hrd & Hne).
    destruct (Hans k' v' q' rev Hin Hq' Hrd Hne) as (e0 & He0 & Hval & Hcle).
    destruct (Hcle Hc) as [C1 C2]. exists q', e0. split; [done|]. split; [done|].
    split; [by apply Hval|]. split; [done|]. by eapply (rb_closed _ _ Hr). }
  assert (∀ k' v', EvMemo k' v' ∈ tr → eval compute_of w k' v') as Hevs.
  { intros k' v' Hin. destruct (Hchild k' v' Hin) as (q' & e0 & Hq' & He0 & <- & C1 & _).
    destruct (so_entries _ _ _ Hs q' e0 He0) as [(k2 & Hk2 & _ & Hev2) _ _].
    assert (k2 = k') as -> by (apply (io_bij _ (so_ids _ _ _ Hs)) in Hq'; congruence).
    by apply Hev2. }
  assert (tr0 = tr) as ->.
  { refine (proj1 (follows_agree _ _ _ _ Hf _ _ Hf0 _)). intros k' a b Ha Hb.
    eapply eval_det; [by apply Hsub|by apply Hevs]. }
  apply (eval_intro compute_of w' k _ tr).
  - eapply rebuilt_trace; try done. congruence.
  - intros k' v' Hin. destruct (Hchild k' v' Hin) as (q' & e0 & Hq' & He0 & Hv & C1 & e1 & He1 & C2).
    by eapply IH.
Qed.

Lemma rebuilt_ok s s' : store_ok compute_of w s → rebuilt s s' → store_ok compute_of w' s'.
Proof.
  intros Hs Hr. pose proof Hr as [Rids Rkeys Rgraph Rin Rrec Rnext Rrev Rb _ _ _].
  assert (∀ q, is_Some (st_entry s q) → is_Some (st_entry s' q)) as Hfwd.
  { intros q [e He]. destruct (rebuilt_entry _ _ _ _ Hr He) as (e' & He' & _). by exists e'. }
  split.
  - destruct (so_ids _ _ _ Hs). split; rewrite ?Rids, ?Rkeys, ?Rin, ?Rnext; done.
  - intros q e' He'. destruct (rebuilt_back _ _ _ _ Hr He') as [e He].
    destruct (rebuilt_entry _ _ _ _ Hr He) as (e2 & He2 & Ev & Ec & Ep & Ecl & Edi & Est).
    assert (e2 = e') as -> by congruence.
    destruct (so_entries _ _ _ Hs q e He) as [(k & Hk & Htr & Hev) Hch Hst]. split.
    + exists k. rewrite Rkeys. split; [done|]. split.
      * intros Hd. destruct (Htr (Edi Hd)) as (tr & rds & Hrc & Hf & Htc & Hrevs & Hans).
        exists tr, rds. rewrite (rebuilt_recorded _ _ _ Hr), Ev. split; [done|].
        split; [by eapply rebuilt_trace|].
        split; [destruct Htc; split; rewrite ?Rids, ?Rin; done|]. split.
        -- intros q' rev Hin Hne. rewrite Rrev. destruct (Hrevs q' rev Hin Hne). lia.
        -- intros k' v' q' rev Hin Hk' Hrd Hne. rewrite Rids in Hk'.
           destruct (Hans k' v' q' rev Hin Hk' Hrd Hne) as (e0 & He0 & Hval & Hcle).
           destruct (rebuilt_entry _ _ _ _ Hr He0) as (e1 & He1 & V1 & C1 & _).
           exists e1. split; [done|]. split; [rewrite V1, C1; exact Hval|]. intros Hcl.
           destruct (Hcle (Ecl Hcl)) as [D1 D2]. split; [|congruence].
           destruct (rb_closed _ _ Hr q e' rds q' rev e0 He' Hcl Hrc Hrd Hne He0 D1) as (e3 & He3 & ?).
           congruence.
      * intros Hcl. rewrite Ev. eapply rebuilt_eval; try done; [by apply Hev, Ecl|].
        by apply (io_bij _ (so_ids _ _ _ Hs)).
    + rewrite Ec, Ep, Rrev. lia.
    + intros Hnc. rewrite Ec, Rrev. split; [lia|]. unfold queued. rewrite Rrec.
      fold (queued s q). destruct Est as [Est|?]; [|done]. apply Hst. congruence.
  - rewrite Rrec. intros r Hin. by apply Hfwd, (so_records _ _ _ Hs).
  - intros q [e' He']. rewrite (rebuilt_recorded _ _ _ Hr). apply (so_born _ _ _ Hs).
    by eapply rebuilt_back.
  - rewrite Rin, Rgraph. apply Hs.
  - intros q n. rewrite Rgraph, Rin. intros Hn. pose proof (so_nodes _ _ _ Hs q n Hn) as Hk.
    destruct (nd_kind n); [done|by apply Hfwd].
  - intros q rds. rewrite (rebuilt_recorded _ _ _ Hr). intros Hrds.
    eapply Forall_impl; [by apply (so_reads _ _ _ Hs q)|]. intros r. unfold known. rewrite Rin.
    case_decide; [done|apply Hfwd].
  - rewrite Rin. intros i q. unfold reads_at. rewrite (rebuilt_recorded _ _ _ Hr). apply Hs.
  - unfold fresh_ok. rewrite Rin, Rgraph. apply Hs.
  - rewrite Rgraph. apply Hs.
  - rewrite Rgraph. apply Hs.
  - done.
Qed.

End rebuild.

(** * A build's start, for the inputs that changed

    What [mark] marks, and that the store [begin] leaves answers for the new
    inputs. *)

Section build.
Context {I A K V : Type} `{Countable I, Countable K, EqDecision V}.
Context (compute_of : K → Comp I A K V).
Implicit Types (s : Store I K V) (q : QueryId) (k : K) (e : Entry V) (w : I → A).
Implicit Types (changed : list I) (D M : gset QueryId).

(** The queries a change reaches: by a recorded read of a changed input, or
    of a query it reaches. *)
Definition reads_changed s changed q : Prop :=
  ∃ i id, i ∈ changed ∧ in_ids (st_inputs s) !! i = Some id ∧ id ∈ reads_at s q.

Inductive touched s changed : QueryId → Prop :=
  | touched_input q : reads_changed s changed q → touched s changed q
  | touched_memo q q' : touched s changed q' → q' ∈ reads_at s q → touched s changed q.

Lemma touched_regraphed s s' changed q : regraphed s s' → touched s' changed q → touched s changed q.
Proof.
  intros Hr. induction 1 as [q (i & id & Hi & Hid & Hq)|q q' _ IH Hq].
  - apply touched_input. exists i, id. rewrite <- (rg_inputs _ _ Hr), <- (rg_reads _ _ Hr). done.
  - eapply touched_memo; [exact IH|]. by rewrite <- (rg_reads _ _ Hr).
Qed.

Lemma regraphed_sym s s' : regraphed s s' → regraphed s' s.
Proof.
  intros Hr. destruct Hr as [H1 H2 H3 H4 H5 H6 H7 H8]. split; try done.
  intros q Hq. symmetry. apply H7. unfold st_entry in *. by rewrite <- H1.
Qed.

Lemma flushed_readers w s q r : store_ok compute_of w s → flushed s →
  r ∈ node_readers (st_graph s) q ↔ q ∈ reads_at s r.
Proof.
  intros Hs Hf. pose proof (so_graph _ _ _ Hs) as Hg.
  assert (reads_at s r = reads_of (st_graph s) r) as ->.
  { unfold reads_at, recorded, reads_of. rewrite flushed_queued by done. simpl.
    by destruct (gr_node (st_graph s) r). }
  unfold node_readers. destruct (gr_node (st_graph s) q) as [n|] eqn:Hn.
  - apply settled_readers; [done|apply Hf|done].
  - split; [by intros ?%elem_of_nil|]. intros Hin.
    destruct (so_closed _ _ _ Hs q r) as [n Hx]; [|congruence].
    unfold flushed_reads, shard_flushed. unfold reads_of, gr_node in Hin.
    destruct (shard_at _ r Hg) as [sh Hsh]. rewrite Hsh in Hin |- *. simpl in Hin.
    by rewrite (fl_settled _ Hf _ _ Hsh).
Qed.

Lemma flushed_noded w s : store_ok compute_of w s → flushed s → noded (st_graph s) (st_table s).
Proof.
  intros Hs Hf q Hq. pose proof (so_born _ _ _ Hs q Hq) as Hb. unfold recorded in Hb.
  rewrite flushed_queued in Hb by done. simpl in Hb. apply fmap_is_Some in Hb as [n Hn].
  pose proof (so_nodes _ _ _ Hs q n Hn) as Hk.
  destruct (nd_kind n) as [i|tb] eqn:Hkind; [|by exists n, tb].
  exfalso. by eapply entry_id_lt.
Qed.

Lemma mark_revision s r changed :
  mark (set_revision s r) changed = '(s', iv) ← mark s changed; Ret (set_revision s' r, iv).
Proof.
  unfold mark. change (omap (interned (set_revision s r)) changed) with (omap (interned s) changed).
  destruct (omap (interned s) changed) as [|id found]; [done|].
  change (synced_graph (set_revision s r)) with (set_revision (synced_graph s) r). cbn [set_revision st_graph].
  destruct (gr_flush (st_graph (synced_graph s))) as [g|]; [|done].
  cbn [or_panic mbind outcome_bind set_graph st_table].
  by destruct (mark_loop _ _ _ _) as [| |[t maybe]].
Qed.

(** [mark] finds exactly what the change reaches. *)
Lemma mark_spec w s changed :
  store_ok compute_of w s →
  ∃ s1 t' D M, mark s changed = Ret (set_table s1 t',
      mk_invalidation (length (omap (interned s) changed)) (size D) (size M)) ∧
    store_ok compute_of w s1 ∧ regraphed s s1 ∧ raised D M (st_table s1) t' ∧
    (flushed s1 ∨ D = ∅ ∧ M = ∅) ∧
    (∀ q, q ∈ D ↔ reads_changed s changed q) ∧ (∀ q, q ∈ D ∪ M ↔ touched s changed q).
Proof.
  intros Hs. unfold mark. destruct (omap (interned s) changed) as [|id0 found0] eqn:Hfound.
  { exists s, (st_table s), ∅, ∅. rewrite !size_empty. split; [by destruct s|]. split; [done|].
    split; [apply regraphed_refl|]. split; [apply raised_refl|]. split; [by right|].
    assert (∀ q, ¬ reads_changed s changed q) as Hno.
    { intros q (i & id & Hi & Hid & _).
      assert (id ∈ omap (interned s) changed) as Hin by (apply list_elem_of_omap; by exists i).
      rewrite Hfound in Hin. by apply elem_of_nil in Hin. }
    split; [set_solver|]. intros q. split; [set_solver|]. intros Ht. exfalso.
    induction Ht as [q Hx|]; [by eapply Hno|done]. }
  rewrite <- Hfound. clear id0 found0 Hfound.
  destruct (synced_flush_ok compute_of w s Hs) as (g & Hrun & Hs1 & Hrg & Hfl).
  rewrite Hrun. cbn [or_panic mbind outcome_bind].
  set (s1 := set_graph (synced_graph s) g) in *.
  change (st_table (synced_graph s)) with (st_table s1).
  change (st_table (set_graph (synced_graph s) g)) with (st_table s1).
  set (direct := sort_dedup (omap (interned s) changed ≫= node_readers g)).
  set (D := list_to_set direct : gset N).
  assert (∀ q, q ∈ direct ↔ reads_changed s changed q) as Hdirect.
  { intros q. unfold direct. destruct (sort_dedup_spec (omap (interned s) changed ≫= node_readers g)) as [_ ->].
    rewrite list_elem_of_bind. split.
    - intros (id & Hq & (i & Hi & Hid)%list_elem_of_omap). exists i, id. split; [done|].
      split; [done|]. rewrite <- (rg_reads _ _ Hrg). by apply (flushed_readers w s1).
    - intros (i & id & Hi & Hid & Hq). exists id. split; [|apply list_elem_of_omap; by exists i].
      apply (flushed_readers w s1); [done|done|]. by rewrite (rg_reads _ _ Hrg). }
  pose proof (flushed_noded w s1 Hs1 Hfl) as Hnoded.
  assert (raised D ∅ (st_table s1) (foldl (raise g Dirty) (st_table s1) direct)) as Hr0.
  { unfold D. rewrite <- (right_id_L ∅ (∪) (list_to_set direct)).
    apply raised_direct; [apply raised_refl|done]. }
  destruct (mark_loop_spec g D (st_table s1) (mark_fuel g direct)
    (foldl (raise g Dirty) (st_table s1) direct) ∅ (reverse direct) Hnoded Hr0)
    as (t' & M & Hloop & Hr & [_ Hcl] & Hleast).
  { split; [intros q Hq%elem_of_reverse; unfold D; set_solver|].
    intros q Hq. left. apply elem_of_reverse. unfold D in Hq. set_solver. }
  { unfold mark_fuel. rewrite length_reverse. pose proof (size_readers_of g).
    assert (size (readers_of g ∖ (D ∪ ∅)) ≤ size (readers_of g)) by (apply subseteq_size; set_solver).
    lia. }
  change (list_to_set direct) with D. rewrite Hloop. cbn [mbind outcome_bind].
  exists s1, t', D, M. split; [done|]. split; [done|]. split; [done|]. split; [done|].
  split; [by left|]. split; [intros q; unfold D; rewrite elem_of_list_to_set; apply Hdirect|].
  intros q. split.
  - apply (Hleast (touched s changed)).
    + intros r Hr1. apply touched_input, Hdirect. unfold D in Hr1. set_solver.
    + intros q' r Ht Hin. eapply touched_memo; [exact Ht|]. rewrite <- (rg_reads _ _ Hrg).
      by apply (flushed_readers w s1).
  - induction 1 as [r Hx%Hdirect|r q' Ht IH Hin]; [unfold D; set_solver|].
    destruct (Hcl q' IH) as [Hx%elem_of_nil|Hx]; [done|]. apply Hx.
    apply (flushed_readers w s1); [done|done|]. by rewrite (rg_reads _ _ Hrg).
Qed.

Lemma mark_of_untouched D M q state : q ∉ D ∪ M → mark_of D M q state = state.
Proof. intros Hq. unfold mark_of. rewrite !decide_False by set_solver. by destruct state. Qed.

Lemma mark_of_dirty D M q state : q ∈ D → mark_of D M q state = Dirty.
Proof. intros Hq. unfold mark_of. rewrite decide_True by done. destruct state; by case_decide. Qed.

Lemma mark_of_clean D M q state : mark_of D M q state = Clean → state = Clean ∧ q ∉ D ∪ M.
Proof. unfold mark_of. repeat case_decide; destruct state; try done. set_solver. Qed.

(** The marked store is the next build's. *)
Lemma marked_rebuilt w w' s s1 t' D M changed :
  store_ok compute_of w s1 → regraphed s s1 → raised D M (st_table s1) t' →
  (flushed s1 ∨ D = ∅ ∧ M = ∅) →
  (∀ q, q ∈ D ↔ reads_changed s changed q) → (∀ q, q ∈ D ∪ M ↔ touched s changed q) →
  (st_revision s1 + 1 < 2 ^ 32)%N → (∀ i, i ∉ changed → w' i = w i) →
  rebuilt w w' s1 (set_revision (set_table s1 t') (st_revision s1 + 1)).
Proof.
  intros Hs Hrg [Ri Rk Re] Hf HD HM Hb Hw. set (s' := set_revision _ _).
  assert (∀ q, st_entry s' q = (λ e, entry_state e (mark_of D M q (en_state e))) <$> st_entry s1 q)
    as Hent by exact Re.
  assert (∀ q e', st_entry s' q = Some e' → en_state e' = Clean → q ∉ D ∪ M) as Hclean.
  { intros q e' He' Hc. rewrite Hent in He'. destruct (st_entry s1 q) as [e|]; [|done].
    injection He' as <-. simpl in Hc. by apply mark_of_clean in Hc as [_ ?]. }
  assert (∀ q rds q' rev, recorded s1 q = Some rds → (q', rev) ∈ rds → q' ∈ reads_at s q) as Hread.
  { intros q rds q' rev Hrec Hin. rewrite <- (rg_reads _ _ Hrg). unfold reads_at. rewrite Hrec.
    apply list_elem_of_fmap. by exists (q', rev). }
  split; try done.
  - intros q. exists (mark_of D M q). split; [apply Hent|].
    split; [intros state Hc; by apply mark_of_clean in Hc as [? _]|]. split.
    + unfold mark_of. by repeat case_decide.
    + intros state. destruct Hf as [Hf|[-> ->]]; [right; by apply flushed_queued|left].
      apply mark_of_empty.
  - intros q e' rds i q' He' Hd Hrec Hi Hin. destruct (decide (i ∈ changed)) as [Hch|?]; [|by apply Hw].
    exfalso. rewrite Hent in He'. destruct (st_entry s1 q) as [e|]; [|done]. injection He' as <-.
    apply Hd. simpl. apply mark_of_dirty, HD. exists i, q'. split; [done|].
    split; [by rewrite <- (rg_inputs _ _ Hrg)|]. by eapply Hread.
  - intros q e' rds q' rev e0 He' Hc Hrec Hin Hne He0 Hc0. pose proof (Hclean q e' He' Hc) as Hq.
    eexists. split; [by rewrite Hent, He0|]. simpl. rewrite mark_of_untouched; [done|].
    intros Hq'%HM. apply Hq, HM. eapply touched_memo; [exact Hq'|]. by eapply Hread.
Qed.

(** ** Empty stores *)
Lemma graph_default_ok : graph_ok (I := I) graph_default ∧ closed (I := I) graph_default.
Proof.
  assert (∀ i (sh : GraphShard I), graph_default !! i = Some sh → sh = shard_default) as Hd.
  { intros i sh Hi. by apply lookup_replicate in Hi as [-> _]. }
  assert (∀ q, gr_node (I := I) graph_default q = None) as Hn.
  { intros q. unfold gr_node. destruct (graph_default !! graph_shard q) as [sh|] eqn:Hs; [|done].
    by rewrite (Hd _ _ Hs). }
  assert (∀ q, flushed_reads (I := I) graph_default q = []) as Hf.
  { intros q. unfold flushed_reads. destruct (graph_default !! graph_shard q) as [sh|] eqn:Hs; [|done].
    by rewrite (Hd _ _ Hs). }
  split; [split|].
  - unfold graph_default. by rewrite length_replicate.
  - intros i sh q Hs. rewrite (Hd _ _ Hs). by intros [? ?].
  - intros i sh q prev Hs. rewrite (Hd _ _ Hs). by intros ?%elem_of_nil.
  - intros q n. by rewrite Hn.
  - intros q n r. by rewrite Hn.
  - intros q r. rewrite Hf. by intros ?%elem_of_nil.
Qed.

(** Nothing memoized and nothing recorded. *)
Lemma empty_ok w r poisoned verify : (r < 2 ^ 32)%N →
  store_ok compute_of w (mk_store (I := I) (K := K) (V := V) (mk_table ∅ ∅ ∅) graph_default 0
    (mk_interned ∅ []) [] r poisoned verify).
Proof.
  intros Hr. destruct graph_default_ok as [Hg Hc].
  assert (∀ q, gr_node (I := I) graph_default q = None) as Hn.
  { intros q. destruct (gr_node graph_default q) as [n|] eqn:Hq; [|done]. unfold gr_node in Hq.
    destruct (graph_default !! graph_shard q) as [sh|] eqn:Hs; [|done].
    by apply lookup_replicate in Hs as [-> _]. }
  split; try done.
  - split; try done. by intros q i ?%elem_of_nil.
  - by intros r0 ?%elem_of_nil.
  - intros q [e He]. done.
  - intros q n. simpl. by rewrite Hn.
  - intros q rds. unfold recorded. simpl. by rewrite Hn.
  - split; [constructor|]. by intros q i ?%elem_of_nil.
Qed.

(** ** [begin] *)
Lemma begin_ok w w' s changed :
  store_ok compute_of w s → (st_revision s + 1 < 2 ^ 32)%N → (∀ i, i ∉ changed → w' i = w i) →
  ∃ s' iv, begin_build s changed = Ret (s', iv) ∧ store_ok compute_of w' s' ∧
    st_revision s' = (st_revision s + 1)%N ∧ st_poisoned s' = false ∧
    st_verify_reused s' = st_verify_reused s.
Proof.
  intros Hs Hb Hw. unfold begin_build.
  assert (∃ s0, (if st_poisoned s then clear (set_poisoned s false) else s) = s0 ∧
    store_ok compute_of w s0 ∧ st_revision s0 = st_revision s ∧ st_poisoned s0 = false ∧
    st_verify_reused s0 = st_verify_reused s) as (s0 & -> & Hs0 & Hr0 & Hp0 & Hv0).
  { destruct (st_poisoned s) eqn:Hp; eexists; split; [done| |done|].
    - split; [|done]. apply empty_ok. apply Hs.
    - done. }
  rewrite N.mod_small by (by rewrite Hr0). rewrite mark_revision.
  destruct (mark_spec w s0 changed Hs0) as (s1 & t' & D & M & -> & Hs1 & Hrg & Hr & Hf & HD & HM).
  cbn [mbind outcome_bind]. eexists _, _. split; [done|]. split; [|split; [|split]].
  - eapply (rebuilt_ok compute_of w); [exact Hs1|]. rewrite <- (rg_revision _ _ Hrg).
    eapply marked_rebuilt; try done. by rewrite (rg_revision _ _ Hrg), Hr0.
  - simpl. by rewrite Hr0.
  - simpl. by rewrite (rg_poisoned _ _ Hrg).
  - simpl. by rewrite (rg_verify _ _ Hrg).
Qed.

End build.
