(* ===== verification/MemoSweep.v ===== *)
(** * Ending a build

    A flushed store without some queries that no other reads keeps its
    invariant: what [end]'s sweep and its release of inputs do. Then which
    queries are live, and the store a build's end leaves. *)
From S2P Require Import Prelude Order MemoGraph MemoGraphSpec Memo MemoSpec MemoBuild.

Section graph.
Context {I : Type}.
Implicit Types (s : GraphShard I) (g : Graph I) (n : Node I) (q r : QueryId) (X : gset QueryId).

(** [g'] is [g] without [X]. *)
Record graph_dropped X g g' : Prop := {
  gd_len : length g' = shards;
  gd_settled : settled g';
  gd_shard : ∀ i s q, g' !! i = Some s → is_Some (gs_nodes s !! q) → graph_shard q = i;
  gd_node : ∀ q, match gr_node g' q with
    | Some n' => (q ∉ X) ∧ ∃ n, gr_node g q = Some n ∧ nd_kind n' = nd_kind n ∧
        nd_reads n' = nd_reads n ∧ increasing (nd_readers n') ∧
        ∀ r, r ∈ nd_readers n' ↔ r ∈ nd_readers n ∧ r ∉ X
    | None => q ∈ X ∨ gr_node g q = None
    end
}.

Lemma settled_flushed g r : graph_ok g → settled g → flushed_reads g r = reads_of g r.
Proof.
  intros Hg Hs. unfold flushed_reads, reads_of, gr_node, shard_flushed.
  destruct (shard_at g r Hg) as [sh Hsh]. rewrite Hsh. simpl. by rewrite (Hs _ _ Hsh).
Qed.

Lemma graph_dropped_reads X g g' r : graph_dropped X g g' →
  reads_of g' r = if decide (r ∈ X) then [] else reads_of g r.
Proof.
  intros Hd. pose proof (gd_node _ _ _ Hd r) as Hn. unfold reads_of.
  destruct (gr_node g' r) as [n'|].
  - destruct Hn as (Hr & n & -> & _ & -> & _). by rewrite decide_False.
  - case_decide; [done|]. destruct Hn as [?| ->]; done.
Qed.

Lemma graph_dropped_ok X g g' : graph_ok g → settled g → graph_dropped X g g' → graph_ok g'.
Proof.
  intros Hg Hs Hd. pose proof Hd as [Hl Hset Hsh Hnode]. split; [done|done| | |].
  - intros i s q prev Hi. rewrite (Hset i s Hi). by intros ?%elem_of_nil.
  - intros q n Hn. specialize (Hnode q). rewrite Hn in Hnode.
    by destruct Hnode as (_ & n0 & _ & _ & _ & ? & _).
  - intros q n r Hn. specialize (Hnode q). rewrite Hn in Hnode.
    destruct Hnode as (_ & n0 & Hn0 & _ & _ & _ & ->).
    rewrite (settled_readers g q n0 r Hg Hs Hn0).
    assert (flushed_reads g' r = reads_of g' r) as ->.
    { unfold flushed_reads, reads_of, gr_node, shard_flushed.
      destruct (g' !! graph_shard r) as [sh|] eqn:Hx; [|done]. simpl. by rewrite (Hset _ _ Hx). }
    rewrite (graph_dropped_reads _ _ _ r Hd). case_decide; [|naive_solver].
    split; [naive_solver|by intros ?%elem_of_nil].
Qed.

End graph.

Section drop.
Context {I A K V : Type} `{Countable I, Countable K, EqDecision V}.
Context (compute_of : K → Comp I A K V) (w : I → A).
Implicit Types (s : Store I K V) (q : QueryId) (k : K) (e : Entry V) (X : gset QueryId).

Local Abbreviation store_ok := (store_ok compute_of w) (only parsing).
Local Abbreviation entry_ok := (entry_ok compute_of w) (only parsing).

Definition unless X q {B} (o : option B) : option B := if decide (q ∈ X) then None else o.

Record dropped X s s' : Prop := {
  dp_keys : ∀ q, td_keys (st_table s') !! q = unless X q (td_keys (st_table s) !! q);
  dp_ids : ∀ k, td_ids (st_table s') !! k = (q ← td_ids (st_table s) !! k; unless X q (Some q));
  dp_entries : ∀ q, st_entry s' q = unless X q (st_entry s q);
  dp_inputs : ∀ i, in_ids (st_inputs s') !! i = (q ← in_ids (st_inputs s) !! i; unless X q (Some q));
  dp_fresh : in_fresh (st_inputs s') = [];
  dp_records : st_records s' = [];
  dp_next : st_next s' = st_next s;
  dp_revision : st_revision s' = st_revision s;
  dp_poisoned : st_poisoned s' = st_poisoned s;
  dp_verify : st_verify_reused s' = st_verify_reused s;
  dp_graph : graph_dropped X (st_graph s) (st_graph s');
  dp_sep : ∀ q q', q ∉ X → is_Some (st_entry s q) → q' ∈ reads_at s q → q' ∉ X
}.

Lemma unless_Some X q {B} (o : option B) b : unless X q o = Some b ↔ (q ∉ X) ∧ o = Some b.
Proof. unfold unless. case_decide; naive_solver. Qed.

Lemma dropped_bind X {B} `{Countable B} (m : gmap B QueryId) b q :
  (q ← m !! b; unless X q (Some q)) = Some q ↔ m !! b = Some q ∧ q ∉ X.
Proof.
  destruct (m !! b) as [q0|]; simpl; [|naive_solver]. rewrite unless_Some. naive_solver.
Qed.

Lemma flushed_recorded s q : flushed s → recorded s q = nd_reads <$> gr_node (st_graph s) q.
Proof. intros Hf. unfold recorded. by rewrite flushed_queued. Qed.

Lemma dropped_recorded X s s' q : store_ok s → flushed s → dropped X s s' → q ∉ X →
  recorded s' q = recorded s q.
Proof.
  intros Hs Hf Hd Hq. unfold recorded, queued. rewrite (dp_records _ _ _ Hd). cbn [filter].
  fold (queued s q). rewrite flushed_queued by done. simpl.
  pose proof (gd_node _ _ _ (dp_graph _ _ _ Hd) q) as Hn.
  destruct (gr_node (st_graph s') q) as [n'|].
  - destruct Hn as (_ & n & -> & _ & Hr & _). simpl. by rewrite Hr.
  - destruct Hn as [?| ->]; done.
Qed.

Lemma dropped_reads_in X s s' q e rds q' rev : dropped X s s' → q ∉ X →
  st_entry s q = Some e → recorded s q = Some rds → (q', rev) ∈ rds → q' ∉ X.
Proof.
  intros Hd Hq He Hrec Hin. eapply (dp_sep _ _ _ Hd q q' Hq); [by exists e|].
  unfold reads_at. rewrite Hrec. apply list_elem_of_fmap. by exists (q', rev).
Qed.

Lemma dropped_entry_ok X s s' q e : store_ok s → flushed s → dropped X s s' → q ∉ X →
  st_entry s q = Some e → entry_ok s' q e.
Proof.
  intros Hs Hf Hd Hq He. destruct (so_entries _ _ _ Hs q e He) as [(k & Hk & Htr & Hev) Hch Hst].
  split.
  - exists k. split; [rewrite (dp_keys _ _ _ Hd); by apply unless_Some|]. split; [|done].
    intros Hnd. destruct (Htr Hnd) as (tr & rds & Hrec & Hfo & [T1 T2 T3] & Hrevs & Hans).
    assert (∀ q' rev, (q', rev) ∈ rds → q' ∉ X) as Hx.
    { intros q' rev Hin. by eapply dropped_reads_in. }
    assert (∀ k' q' rev, td_ids (st_table s) !! k' = Some q' → (q', rev) ∈ rds →
      td_ids (st_table s') !! k' = Some q') as Hkeep.
    { intros k' q' rev Hk' Hin. rewrite (dp_ids _ _ _ Hd). apply dropped_bind. split; [done|]. by eapply Hx. }
    exists tr, rds. rewrite (dropped_recorded X s s') by done. split; [done|]. split; [done|].
    split; [split|split].
    + intros i Hi. destruct (T1 i Hi) as (q' & Hq' & Hin). exists q'. split; [|done].
      rewrite (dp_inputs _ _ _ Hd). apply dropped_bind. split; [done|]. by eapply Hx.
    + intros k' v' Hin. destruct (T2 k' v' Hin) as (q' & rev & Hq' & Hin' & Hne).
      exists q', rev. split; [by eapply Hkeep|done].
    + intros r1 q' rev r2 Heq Hne. destruct (T3 r1 q' rev r2 Heq Hne) as (t1 & k' & v' & t2 & Ht & Hk' & Hsub).
      exists t1, k', v', t2. split; [done|]. split.
      * eapply (Hkeep k' q' rev); [done|]. rewrite Heq. apply elem_of_app. right. by left.
      * intros k2 v2 Hin. destruct (Hsub k2 v2 Hin) as (q2 & rev2 & Hq2 & Hin2 & Hne2).
        exists q2, rev2. split; [|done]. eapply (Hkeep k2 q2 rev2); [done|].
        rewrite Heq. apply elem_of_app. by left.
    + rewrite (dp_revision _ _ _ Hd). done.
    + intros k' v' q' rev Hin Hk' Hrd Hne. rewrite (dp_ids _ _ _ Hd) in Hk'.
      destruct (td_ids (st_table s) !! k') as [q0|] eqn:Hk0; [|done]. simpl in Hk'.
      apply unless_Some in Hk' as [Hq' [= ->]].
      destruct (Hans k' v' q' rev Hin Hk0 Hrd Hne) as (e' & He' & ?). exists e'. split; [|done].
      rewrite (dp_entries _ _ _ Hd). by apply unless_Some.
  - by rewrite (dp_revision _ _ _ Hd).
  - rewrite (dp_revision _ _ _ Hd). unfold queued. rewrite (dp_records _ _ _ Hd). intros Hc.
    split; [by apply Hst|done].
Qed.

Lemma dropped_ok X s s' : store_ok s → flushed s → dropped X s s' → store_ok s' ∧ flushed s'.
Proof.
  intros Hs Hf Hd. pose proof (dp_graph _ _ _ Hd) as Hgd.
  pose proof (so_graph _ _ _ Hs) as Hg. pose proof (fl_settled _ Hf) as Hset.
  assert (flushed s') as Hf' by (split; [apply Hd|apply Hd|apply Hgd]).
  assert (∀ q, st_entry s' q = unless X q (st_entry s q)) as Hent by apply Hd.
  assert (∀ q n', gr_node (st_graph s') q = Some n' → (q ∉ X) ∧ ∃ n, gr_node (st_graph s) q = Some n ∧
    nd_kind n' = nd_kind n ∧ nd_reads n' = nd_reads n) as Hback.
  { intros q n' Hn'. pose proof (gd_node _ _ _ Hgd q) as Hn. rewrite Hn' in Hn.
    destruct Hn as (Hq & n & Hn & Hk & Hr & _). split; [done|]. by exists n. }
  assert (∀ q, q ∉ X → is_Some (gr_node (st_graph s) q) → is_Some (gr_node (st_graph s') q)) as Hfwd.
  { intros q Hq [n Hn]. pose proof (gd_node _ _ _ Hgd q) as Hx.
    destruct (gr_node (st_graph s') q); [by eexists|]. destruct Hx; congruence. }
  assert (∀ q n, q ∉ X → gr_node (st_graph s) q = Some n → ∀ q', q' ∈ (nd_reads n).*1 → q' ∉ X) as Hsep.
  { intros q n Hq Hn q' Hin.
    assert (q' ∈ reads_at s q) as Hra by (unfold reads_at; rewrite flushed_recorded, Hn by done; done).
    pose proof (so_nodes _ _ _ Hs q n Hn) as Hk.
    destruct (nd_kind n) as [i|t].
    - rewrite (so_input_reads _ _ _ Hs i q Hk) in Hra. by apply elem_of_nil in Hra.
    - by eapply (dp_sep _ _ _ Hd q). }
  split; [|done]. split.
  - destruct (so_ids _ _ _ Hs) as [H1 H2 H3 H4 H5 H6]. split.
    + intros k q. rewrite (dp_ids _ _ _ Hd), (dp_keys _ _ _ Hd), dropped_bind, unless_Some, H1. naive_solver.
    + intros q k. rewrite (dp_keys _ _ _ Hd), unless_Some, (dp_next _ _ _ Hd). intros [_ Hx]. by eapply H2.
    + by rewrite (dp_next _ _ _ Hd).
    + intros i q. rewrite (dp_inputs _ _ _ Hd), dropped_bind, (dp_next _ _ _ Hd), (dp_keys _ _ _ Hd).
      intros [Hi Hq]. destruct (H4 i q Hi) as [? Hn]. split; [done|]. rewrite Hn. unfold unless.
      by case_decide.
    + intros i j q. rewrite !(dp_inputs _ _ _ Hd), !dropped_bind. intros [Hi _] [Hj _]. by eapply H5.
    + rewrite (dp_fresh _ _ _ Hd). by intros q i ?%elem_of_nil.
  - intros q e. rewrite Hent, unless_Some. intros [Hq He]. by eapply dropped_entry_ok.
  - rewrite (dp_records _ _ _ Hd). by intros r ?%elem_of_nil.
  - intros q [e He]. rewrite Hent, unless_Some in He. destruct He as [Hq He].
    rewrite (dropped_recorded X s s') by done. apply (so_born _ _ _ Hs). by exists e.
  - intros i q. rewrite (dp_inputs _ _ _ Hd), dropped_bind. intros [Hi Hq]. right. apply Hfwd; [done|].
    destruct (so_born_input _ _ _ Hs i q Hi) as [Hx|?]; [|done].
    rewrite (fl_fresh _ Hf) in Hx. by apply elem_of_nil in Hx.
  - intros q n' Hn'. destruct (Hback q n' Hn') as (Hq & n & Hn & -> & _).
    pose proof (so_nodes _ _ _ Hs q n Hn) as Hk. destruct (nd_kind n) as [i|t].
    + rewrite (dp_inputs _ _ _ Hd). by apply dropped_bind.
    + destruct Hk as [e He]. exists e. rewrite Hent. by apply unless_Some.
  - intros q rds. rewrite flushed_recorded by done.
    destruct (gr_node (st_graph s') q) as [n'|] eqn:Hn'; [|done]. intros [= <-].
    destruct (Hback q n' Hn') as (Hq & n & Hn & _ & ->).
    assert (recorded s q = Some (nd_reads n)) as Hrec by (by rewrite flushed_recorded, Hn).
    pose proof (so_reads _ _ _ Hs q _ Hrec) as Hkn. rewrite Forall_forall in Hkn |- *.
    intros [q' rev] Hin. specialize (Hkn _ Hin).
    assert (q' ∉ X) as Hq' by (eapply Hsep; [exact Hq|exact Hn|apply list_elem_of_fmap; by exists (q', rev)]).
    unfold known in *. simpl in *. case_decide.
    + destruct Hkn as [i Hi]. exists i. rewrite (dp_inputs _ _ _ Hd). by apply dropped_bind.
    + destruct Hkn as [e He]. exists e. rewrite Hent. by apply unless_Some.
  - intros i q. rewrite (dp_inputs _ _ _ Hd), dropped_bind. intros [Hi Hq]. unfold reads_at.
    rewrite (dropped_recorded X s s') by done. by apply (so_input_reads _ _ _ Hs i).
  - split; rewrite (dp_fresh _ _ _ Hd); [constructor|]. by intros q i ?%elem_of_nil.
  - by eapply graph_dropped_ok.
  - assert (graph_ok (st_graph s')) as Hg' by (by eapply graph_dropped_ok).
    intros q r. rewrite settled_flushed by (done || apply Hf'). unfold reads_of.
    destruct (gr_node (st_graph s') r) as [n'|] eqn:Hn'; [|by intros ?%elem_of_nil].
    destruct (Hback r n' Hn') as (Hr & n & Hn & _ & ->). intros Hin.
    apply Hfwd; [by eapply Hsep|]. apply (so_closed _ _ _ Hs q r).
    rewrite settled_flushed by done. unfold reads_of. by rewrite Hn.
  - rewrite (dp_revision _ _ _ Hd). apply Hs.
Qed.

End drop.

(** * Ending a build

    [end] keeps what the build used and all it reads, and the inputs those
    entries read. *)

(** ** The live queries *)
Section live.
Context {I : Type}.
Implicit Types (g : list (GraphShard I)) (q r : QueryId) (live : gset QueryId) (queue : list QueryId).

Definition node_reads g q : list (QueryId * N) :=
  match gr_node g q with Some node => nd_reads node | None => [] end.

Definition read_ids g : gset QueryId := list_to_set (gr_nodes g ≫= nd_reads).*1.

Lemma size_read_ids g : size (read_ids g) ≤ sum_list_with (λ n, length (nd_reads n)) (gr_nodes g).
Proof.
  unfold read_ids. etrans; [apply size_to_set_le|]. rewrite length_fmap.
  induction (gr_nodes g) as [|n l IH]; cbn [mbind list_bind sum_list_with]; [done|].
  rewrite length_app. by apply Nat.add_le_mono_l.
Qed.

Lemma node_reads_in g q rd : rd ∈ node_reads g q → rd.1 ∈ read_ids g.
Proof.
  unfold node_reads, read_ids. destruct (gr_node g q) as [n|] eqn:Hn; [|by intros ?%elem_of_nil].
  intros Hr. apply elem_of_list_to_set, list_elem_of_fmap. exists rd. split; [done|].
  apply list_elem_of_bind. exists n. split; [done|]. by eapply elem_of_gr_nodes.
Qed.

Lemma live_reads_spec reads : ∀ live queue, (∀ q, q ∈ queue → q ∈ live) →
  ∃ live' queue', foldl live_read (live, queue) reads = (live', queue') ∧ live ⊆ live' ∧
    (∀ q rev, (q, rev) ∈ reads → rev ≠ input_read → q ∈ live') ∧
    (∀ q, q ∈ queue' → q ∈ live') ∧ (∀ q, q ∈ queue → q ∈ queue') ∧
    (∀ q, q ∈ live' → q ∈ live ∨ q ∈ queue') ∧
    (∀ q, q ∈ live' → q ∈ live ∨ ∃ rev, (q, rev) ∈ reads ∧ rev ≠ input_read) ∧
    ∀ U, (∀ rd, rd ∈ reads → rd.1 ∈ U) →
      length queue' + size (U ∖ live') ≤ length queue + size (U ∖ live).
Proof.
  induction reads as [|[q0 rev0] reads IH]; intros live queue Hq; cbn [foldl].
  { exists live, queue. split; [done|]. split; [done|]. split; [by intros ?? ?%elem_of_nil|].
    split; [done|]. split; [done|]. split; [by left|]. split; [by left|done]. }
  unfold live_read at 2. cbn [fst snd]. case_decide as Hd.
  - destruct (IH ({[q0]} ∪ live) (q0 :: queue)) as (live' & queue' & H1 & H2 & H3 & H4 & H5 & H6 & H8 & H7).
    { intros q [->|Hx%Hq]%elem_of_cons; set_solver. }
    exists live', queue'. split; [done|]. split; [set_solver|].
    split; [intros q rev [[= -> ->]|?]%elem_of_cons; [set_solver|eauto]|]. split; [done|].
    split; [intros q Hx; apply H5; by right|].
    split; [intros q [Hx|?]%H6; [|by right]|].
    { apply elem_of_union in Hx as [->%elem_of_singleton|?]; [right; apply H5; by left|by left]. }
    split; [intros q [Hx|(rev & ? & ?)]%H8; [|right; exists rev; split; [by right|done]]|].
    { apply elem_of_union in Hx as [->%elem_of_singleton|?]; [right|by left].
      exists rev0. split; [by left|]. by destruct Hd. }
    intros U HU. etrans; [apply H7; intros rd Hx; apply HU; by right|].
    assert (q0 ∈ U) by (apply (HU (q0, rev0)); by left).
    assert (size (U ∖ ({[q0]} ∪ live)) < size (U ∖ live)) by (apply subset_size; set_solver).
    simpl. lia.
  - destruct (IH live queue Hq) as (live' & queue' & H1 & H2 & H3 & H4 & H5 & H6 & H8 & H7).
    exists live', queue'. split; [done|]. split; [done|].
    split; [intros q rev [[= -> ->]|?]%elem_of_cons; [|eauto]|].
    { intros Hne. apply H2. destruct (decide (q0 ∈ live)); [done|]. destruct Hd. done. }
    split; [done|]. split; [done|]. split; [done|].
    split; [intros q [?|(rev & ? & ?)]%H8; [by left|right; exists rev; split; [by right|done]]|].
    intros U HU. apply H7. intros rd Hx. apply HU. by right.
Qed.

Lemma live_loop_spec g fuel : ∀ live queue, (∀ q, q ∈ queue → q ∈ live) →
  (∀ q, q ∈ live → q ∈ queue ∨ ∀ q' rev, (q', rev) ∈ node_reads g q → rev ≠ input_read → q' ∈ live) →
  length queue + size (read_ids g ∖ live) ≤ fuel →
  ∃ live', live_loop fuel g (live, queue) = Ret live' ∧ live ⊆ live' ∧
    (∀ q q' rev, q ∈ live' → (q', rev) ∈ node_reads g q → rev ≠ input_read → q' ∈ live') ∧
    ∀ P : QueryId → Prop, (∀ q, q ∈ live → P q) →
      (∀ q q' rev, P q → (q', rev) ∈ node_reads g q → rev ≠ input_read → P q') → ∀ q, q ∈ live' → P q.
Proof.
  assert (∀ live, (∀ q, q ∈ live → q ∈ ([] : list N) ∨ ∀ q' rev, (q', rev) ∈ node_reads g q →
    rev ≠ input_read → q' ∈ live) → ∀ q q' rev, q ∈ live → (q', rev) ∈ node_reads g q →
    rev ≠ input_read → q' ∈ live) as Hdone.
  { intros live Hl q q' rev Hq. destruct (Hl q Hq) as [Hx%elem_of_nil|Hx]; [done|apply Hx]. }
  induction fuel as [|fuel IH]; intros live queue Hq Hl Hf; destruct queue as [|q queue];
    cbn [live_loop]; try (exists live; split; [done|]; split; [done|]; split; [by apply Hdone|by auto]);
    [simpl in Hf; lia|].
  destruct (live_reads_spec (node_reads g q) live queue)
    as (live' & queue' & H1 & H2 & H3 & H4 & H5 & H6 & H8 & H7); [intros; apply Hq; by right|].
  assert ((match gr_node g q with Some node => foldl live_read (live, queue) (nd_reads node)
    | None => (live, queue) end) = (live', queue')) as ->.
  { rewrite <- H1. unfold node_reads. by destruct (gr_node g q). }
  destruct (IH live' queue' H4) as (live2 & R1 & R2 & R3 & R4).
  - intros r Hr. destruct (H6 r Hr) as [Hr1|?]; [|by left].
    destruct (Hl r Hr1) as [[->|Hx]%elem_of_cons|Hx]; [right; apply H3|left; by apply H5|].
    right. intros q' rev Hin Hne. by eapply H2, Hx.
  - pose proof (H7 (read_ids g) (node_reads_in g q)). simpl in Hf. lia.
  - exists live2. split; [done|]. split; [set_solver|]. split; [done|].
    intros P HP Hstep. apply (R4 P); [|done]. intros r [Hr|(rev & Hin & Hne)]%H8; [by apply HP|].
    eapply Hstep; [|exact Hin|exact Hne]. apply HP, Hq. by left.
Qed.

(** ** Dropped nodes *)

Lemma gr_remove_node g q q' :
  gr_node (gr_remove g q).1 q' = if decide (q = q') then None else gr_node g q'.
Proof.
  unfold gr_remove. cbn [fst]. unfold gr_node. rewrite list_lookup_alter.
  destruct (decide (q = q')) as [->|Hne].
  - rewrite decide_True by done. destruct (g !! graph_shard q'); [|done]. simpl. by rewrite lookup_delete_eq.
  - case_decide as Hs; [|done]. rewrite Hs. destruct (g !! graph_shard q'); [|done]. simpl.
    by rewrite lookup_delete_ne.
Qed.

Lemma gr_remove_shards g q i s' : (gr_remove g q).1 !! i = Some s' →
  ∃ s, g !! i = Some s ∧ gs_pending s' = gs_pending s ∧
    ∀ q', is_Some (gs_nodes s' !! q') → is_Some (gs_nodes s !! q').
Proof.
  unfold gr_remove. cbn [fst]. rewrite list_lookup_alter. case_decide as Hi; [|by exists s'].
  subst i. destruct (g !! graph_shard q) as [s|]; [|done]. intros [= <-]. exists s.
  split; [done|]. split; [done|]. simpl. intros q' [n Hn]. apply lookup_delete_Some in Hn as [_ ?].
  by exists n.
Qed.

(** What the nodes dropped so far leave. *)
Record drops g (done : gset QueryId) (m : list (GraphShard I) * Edges * list QueryId) : Prop := {
  dr_node : ∀ q, gr_node m.1.1 q = if decide (q ∈ done) then None else gr_node g q;
  dr_len : length m.1.1 = length g;
  dr_shards : ∀ i s', m.1.1 !! i = Some s' → ∃ s, g !! i = Some s ∧ gs_pending s' = gs_pending s ∧
    ∀ q', is_Some (gs_nodes s' !! q') → is_Some (gs_nodes s !! q');
  dr_edges : length m.1.2 = shards;
  dr_lost : ∀ j e, lost_at m.1.2 j e ↔ ∃ q rd, q ∈ done ∧ rd ∈ node_reads g q ∧
    graph_shard rd.1 = j ∧ e = edge rd.1 q;
  dr_gained : ∀ j e, ¬ gained_at m.1.2 j e;
  dr_stale : ∀ r, r ∈ m.2 → ∃ q, q ∈ done ∧ r ∈ node_readers g q
}.

Lemma foldl_lost q (reads : list (QueryId * N)) (lost : Edges) : length lost = shards →
  length (foldl (push_lost q) lost reads) = shards ∧
  (∀ j e, lost_at (foldl (push_lost q) lost reads) j e ↔ lost_at lost j e ∨
    ∃ rd, rd ∈ reads ∧ graph_shard rd.1 = j ∧ e = edge rd.1 q) ∧
  (∀ j e, gained_at (foldl (push_lost q) lost reads) j e ↔ gained_at lost j e).
Proof.
  intros Hlen. destruct (foldl_edges (push_lost q) (λ rd j e, graph_shard rd.1 = j ∧ e = edge rd.1 q)
    (λ _ _ _, False) reads) with (edges := lost) as (H1 & H2 & H3); [|done|].
  - intros es rd _ Hl. destruct (push_lost_spec q es rd Hl) as (? & ? & Hg).
    split; [done|]. split; [done|]. intros j e. rewrite Hg. naive_solver.
  - split; [done|]. split; [done|]. intros j e. rewrite H3. naive_solver.
Qed.

Lemma drop_node_ok g done m q : drops g done m → q ∉ done → drops g ({[q]} ∪ done) (drop_node m q).
Proof.
  intros [D1 D2 D3 D4 D5 D6 D7] Hq. destruct m as [[g1 lost] stale]. cbn [fst snd] in D1, D2, D3, D4, D5, D6, D7. unfold drop_node. cbv beta iota.
  destruct (gr_remove g1 q) as [g2 node] eqn:Hrm.
  assert (g2 = (gr_remove g1 q).1) as Hg2 by (by rewrite Hrm).
  assert (node = gr_node g q) as Hnode.
  { unfold gr_remove in Hrm. injection Hrm as _ <-. rewrite D1. by rewrite decide_False. }
  assert (∀ q', gr_node g2 q' = if decide (q' ∈ {[q]} ∪ done) then None else gr_node g q') as N1.
  { intros q'. rewrite Hg2, gr_remove_node, D1. destruct (decide (q = q')) as [->|Hne].
    - by rewrite decide_True by set_solver.
    - by rewrite (decide_ext (q' ∈ {[q]} ∪ done) (q' ∈ done)) by set_solver. }
  assert (length g2 = length g) as N2.
  { rewrite Hg2. unfold gr_remove. cbn [fst]. by rewrite length_alter. }
  assert (∀ i s', g2 !! i = Some s' → ∃ s, g !! i = Some s ∧ gs_pending s' = gs_pending s ∧
    ∀ q', is_Some (gs_nodes s' !! q') → is_Some (gs_nodes s !! q')) as N3.
  { intros i s' Hs'. rewrite Hg2 in Hs'. destruct (gr_remove_shards _ _ _ _ Hs') as (s1 & Hs1 & P1 & Q1).
    destruct (D3 i s1 Hs1) as (s0 & Hs0 & P0 & Q0). exists s0. split; [done|].
    split; [congruence|auto]. }
  destruct node as [n|].
  - destruct (foldl_lost q (nd_reads n) lost D4) as (L1 & L2 & L3). split; simpl; try done.
    + intros j e. rewrite L2, D5. split.
      * intros [(q' & rd & Hin & ?)|(rd & ?)]; [exists q', rd; split; [set_solver|done]|].
        exists q, rd. split; [set_solver|]. unfold node_reads. by rewrite <- Hnode.
      * intros (q' & rd & [->%elem_of_singleton|Hin]%elem_of_union & Hr & ?).
        -- right. exists rd. unfold node_reads in Hr. by rewrite <- Hnode in Hr.
        -- left. by exists q', rd.
    + intros j e. rewrite L3. apply D6.
    + intros r [Hr|Hr]%elem_of_app.
      * destruct (D7 r Hr) as (q' & ? & ?). exists q'. split; [set_solver|done].
      * exists q. split; [set_solver|]. unfold node_readers. by rewrite <- Hnode.
  - split; simpl; try done.
    + intros j e. rewrite D5. split.
      * intros (q' & rd & Hin & ?). exists q', rd. split; [set_solver|done].
      * intros (q' & rd & [->%elem_of_singleton|Hin]%elem_of_union & Hr & ?).
        -- unfold node_reads in Hr. rewrite <- Hnode in Hr. by apply elem_of_nil in Hr.
        -- by exists q', rd.
    + intros r Hr. destruct (D7 r Hr) as (q' & ? & ?). exists q'. split; [set_solver|done].
Qed.

Lemma drop_nodes_ok g l : ∀ done m, drops g done m → NoDup l → (∀ q, q ∈ l → q ∉ done) →
  drops g (list_to_set l ∪ done) (foldl drop_node m l).
Proof.
  induction l as [|q l IH]; intros done m Hd Hnd Hl; cbn [foldl].
  { by rewrite list_to_set_nil, (left_id_L ∅ (∪)). }
  apply NoDup_cons in Hnd as [Hq Hnd]. rewrite list_to_set_cons.
  replace ({[q]} ∪ list_to_set l ∪ done) with (list_to_set l ∪ ({[q]} ∪ done)) by set_solver.
  apply IH; [|done|].
  - apply drop_node_ok; [done|]. apply Hl. by left.
  - intros r Hr. assert (r ∉ done) by (apply Hl; by right).
    assert (r ≠ q) by (by intros ->). set_solver.
Qed.

(** A settled graph without the dropped nodes, relinked. *)
Lemma drop_graph_ok g (l : list QueryId) : graph_ok g → settled g → NoDup l →
  (∀ q, q ∈ l → (q < 4294967296)%N) →
  let '(g1, lost, stale) := foldl drop_node (g, no_edges, []) l in
  (∀ r, r ∈ stale → ∃ q, q ∈ l ∧ r ∈ node_readers g q) ∧
  ∃ g', gr_apply_edges g1 lost = Some g' ∧ graph_dropped (list_to_set l) g g'.
Proof.
  intros Hg Hset Hnd Hlt. destruct no_edges_spec as (E1 & E2 & E3).
  assert (drops g ∅ (g, no_edges, [])) as H0.
  { split; simpl; try done.
    - intros i s Hs. by exists s.
    - intros j e. split; [by intros ?%E2|]. intros (q & rd & ?%elem_of_empty & _). done.
    - by intros r ?%elem_of_nil. }
  pose proof (drop_nodes_ok g l ∅ _ H0 Hnd ltac:(set_solver)) as Hd.
  rewrite (right_id_L ∅ (∪)) in Hd.
  assert (∀ x, x ∈ (list_to_set l : gset N) → (x < 4294967296)%N) as HltX
    by (intros x Hx; apply Hlt; by apply elem_of_list_to_set in Hx).
  destruct (foldl drop_node (g, no_edges, []) l) as [[g1 lost] stale].
  destruct Hd as [D1 D2 D3 D4 D5 D6 D7]. simpl in *. split.
  { intros r Hr. destruct (D7 r Hr) as (q & Hq & ?). exists q. split; [set_solver|done]. }
  destruct (gr_apply_edges_spec g1 lost) as (g' & Hrun & Hlen & Hsh); [by rewrite D2; apply Hg|done|].
  exists g'. split; [done|].
  assert (∀ i s', g' !! i = Some s' → ∃ s1 l0 gn, g1 !! i = Some s1 ∧ lost !! i = Some (l0, gn) ∧
    gs_pending s' = gs_pending s1 ∧ relinked_nodes l0 gn (gs_nodes s1) (gs_nodes s')) as Hback.
  { intros i s' Hs'. destruct (lookup_lt_is_Some_2 g1 i) as [s1 Hs1].
    { rewrite D2, (go_len _ Hg), <- Hlen. by eapply lookup_lt_Some. }
    destruct (Hsh i s1 Hs1) as (s2 & l0 & gn & Hs2 & Hl & Hp & Hr).
    assert (s2 = s') as -> by congruence. by exists s1, l0, gn. }
  split; [done| | |].
  - intros i s' Hs'. destruct (Hback i s' Hs') as (s1 & l0 & gn & Hs1 & _ & -> & _).
    destruct (D3 i s1 Hs1) as (s0 & Hs0 & -> & _). by eapply Hset.
  - intros i s' q Hs' [n Hn]. destruct (Hback i s' Hs') as (s1 & l0 & gn & Hs1 & _ & _ & Hr).
    specialize (Hr q). rewrite Hn in Hr. destruct (gs_nodes s1 !! q) as [n1|] eqn:Hn1; [|done].
    destruct (D3 i s1 Hs1) as (s0 & Hs0 & _ & Hdom). eapply (go_shard _ Hg); [exact Hs0|].
    apply Hdom. by exists n1.
  - intros q.
    assert (∃ s1, g1 !! graph_shard q = Some s1) as [s1 Hs1].
    { apply lookup_lt_is_Some_2. rewrite D2, (go_len _ Hg). apply graph_shard_lt. }
    destruct (Hsh _ s1 Hs1) as (s' & l0 & gn & Hs' & Hl & _ & Hr). specialize (Hr q).
    assert (gr_node g1 q = gs_nodes s1 !! q) as H1 by (unfold gr_node; by rewrite Hs1).
    assert (gr_node g' q = gs_nodes s' !! q) as -> by (unfold gr_node; by rewrite Hs').
    rewrite <- H1, D1 in Hr. case_decide as Hq.
    { destruct (gs_nodes s' !! q); [done|by left]. }
    destruct (gs_nodes s' !! q) as [n'|], (gr_node g q) as [n|] eqn:Hn; try done; [|by right].
    destruct Hr as (Hk & Hrd & Hread). destruct (Hread (go_sorted _ Hg q n Hn)) as [Hinc Hmem].
    split; [done|]. exists n. split; [done|]. split; [done|]. split; [done|]. split; [done|].
    intros r. rewrite Hmem.
    assert (¬ has_edge gn q r) as Hngn.
    { intros (e & He & _). apply (D6 (graph_shard q) e). exists (l0, gn). done. }
    assert (r ∈ nd_readers n → has_edge l0 q r ↔ r ∈ (list_to_set l : gset N)) as Hlost.
    { intros Hrn. split.
      - intros (e & He & E4 & E5). assert (lost_at lost (graph_shard q) e) as Hat by (by exists (l0, gn)).
        apply D5 in Hat as (r' & rd & Hr' & _ & _ & ->).
        pose proof (HltX r' Hr') as Hb.
        destruct (edge_spec rd.1 r' Hb) as [_ E6]. by rewrite <- E5, E6.
      - intros Hrl. pose proof (HltX r Hrl) as Hb.
        apply (settled_readers g q n r Hg Hset Hn) in Hrn. unfold reads_of in Hrn.
        destruct (gr_node g r) as [nr|] eqn:Hnr; [|by apply elem_of_nil in Hrn].
        apply list_elem_of_fmap in Hrn as (rd & -> & Hrd').
        destruct (edge_spec rd.1 r Hb) as [E6 E7]. exists (edge rd.1 r). split; [|done].
        assert (lost_at lost (graph_shard rd.1) (edge rd.1 r)) as ([l1 gn1] & Hl1 & Hin).
        { apply D5. exists r, rd. split; [done|]. unfold node_reads. by rewrite Hnr. }
        rewrite Hl in Hl1. by injection Hl1 as -> ->. }
    split.
    + intros [[Hrn Hno]|?]; [|done]. split; [done|]. by rewrite <- Hlost.
    + intros [Hrn Hno]. left. split; [done|]. by rewrite Hlost.
Qed.

End live.

(** * The store a build's end leaves

    [end] never fails, keeps every entry the build used, and leaves a store
    whose answers are still right. *)

(** ** Swept tables *)
Section table.
Context {K V : Type} `{Countable K}.
Implicit Types (t : TableData K V) (q : QueryId) (k : K).

Lemma foldl_delete (l : list (QueryId * K)) : ∀ (ids : gmap K QueryId) k,
  foldl (λ ids e, delete e.2 ids) ids l !! k = if decide (k ∈ l.*2) then None else ids !! k.
Proof.
  induction l as [|[q0 k0] l IH]; intros ids k; cbn [foldl snd].
  { by rewrite decide_False by apply not_elem_of_nil. }
  rewrite IH. cbn [fmap list_fmap snd]. destruct (decide (k ∈ l.*2)) as [Hl|Hl].
  - by rewrite decide_True by (by right).
  - destruct (decide (k = k0)) as [->|Hne].
    + rewrite lookup_delete_eq. by rewrite decide_True by (by left).
    + rewrite lookup_delete_ne by done. rewrite decide_False; [done|].
      by intros [?|?]%elem_of_cons.
Qed.

Lemma sweep_spec t live t' gone :
  (∀ k q, td_ids t !! k = Some q ↔ td_keys t !! q = Some k) →
  (∀ q, is_Some (td_entries t !! q) → is_Some (td_keys t !! q)) →
  sweep t live = (t', gone) →
  let X := list_to_set gone : gset QueryId in
  NoDup gone ∧ (∀ q, q ∈ gone ↔ is_Some (td_keys t !! q) ∧ (td_entries t !! q = None ∨ q ∉ live)) ∧
  (∀ q, td_keys t' !! q = unless X q (td_keys t !! q)) ∧
  (∀ k, td_ids t' !! k = (q ← td_ids t !! k; unless X q (Some q))) ∧
  (∀ q, td_entries t' !! q = unless X q (td_entries t !! q)).
Proof.
  intros Hbij Hkey. unfold sweep.
  set (entries := filter (λ e, e.1 ∈ live) (td_entries t)).
  set (dropped := filter (λ e, entries !! e.1 = None) (map_to_list (td_keys t))).
  intros Heq. injection Heq as <- <-.
  set (X := list_to_set (sort_dedup dropped.*1) : gset N).
  assert (∀ q, entries !! q = None ↔ td_entries t !! q = None ∨ q ∉ live) as Hent.
  { intros q. unfold entries. rewrite map_lookup_filter_None. split.
    - intros [?|Hx]; [by left|]. destruct (td_entries t !! q) as [e|] eqn:He; [right|by left].
      by apply (Hx e).
    - intros [?|Hx]; [by left|]. right. by intros e _. }
  assert (∀ q k, (q, k) ∈ dropped ↔ td_keys t !! q = Some k ∧ entries !! q = None) as Hdr.
  { intros q k. unfold dropped. rewrite list_elem_of_filter, elem_of_map_to_list. naive_solver. }
  destruct (sort_dedup_spec dropped.*1) as [Hinc Hmem].
  assert (∀ q, q ∈ X ↔ is_Some (td_keys t !! q) ∧ entries !! q = None) as HX.
  { intros q. unfold X. rewrite elem_of_list_to_set, Hmem, list_elem_of_fmap. split.
    - intros ([q1 k] & -> & [Hk He]%Hdr). split; [by exists k|done].
    - intros [[k Hk] He]. exists (q, k). split; [done|]. by apply Hdr. }
  split; [by apply (increasing_NoDup _ N_cmp_order), sort_dedup_increasing, N_cmp_order|].
  split. { intros q. rewrite <- Hent, <- HX. unfold X. by rewrite elem_of_list_to_set. }
  split; [|split]; simpl.
  - intros q. apply option_eq. intros k. rewrite unless_Some, map_lookup_filter_Some, HX. simpl.
    split.
    + intros [Hk [e He]]. split; [|done]. intros [_ Hx]. congruence.
    + intros [Hx Hk]. split; [done|]. destruct (entries !! q) as [e|] eqn:He; [by exists e|].
      destruct Hx. split; [by exists k|done].
  - intros k. rewrite foldl_delete. destruct (td_ids t !! k) as [q|] eqn:Hk; simpl; [|by case_decide].
    pose proof Hk as Hkq%Hbij.
    assert (k ∈ dropped.*2 ↔ q ∈ X) as Hiff.
    { rewrite HX, list_elem_of_fmap. split.
      - intros ([q1 k1] & Hk1 & [Hk2 He]%Hdr). simpl in Hk1. subst k1. apply Hbij in Hk2.
        assert (q1 = q) as -> by congruence. split; [by exists k|done].
      - intros [_ He]. exists (q, k). split; [done|]. by apply Hdr. }
    unfold unless. by rewrite (decide_ext _ _ _ _ Hiff).
  - intros q. apply option_eq. intros e. rewrite unless_Some, HX. unfold entries at 1.
    rewrite map_lookup_filter_Some. simpl. split.
    + intros [He Hl]. split; [|done]. intros [_ [?|?]%Hent]; [congruence|done].
    + intros [Hx He]. split; [done|]. destruct (decide (q ∈ live)); [done|]. destruct Hx.
      split; [apply Hkey; by exists e|]. apply Hent. by right.
Qed.

End table.

(** ** Released inputs *)
Section release.
Context {I : Type} `{Countable I}.
Implicit Types (nodes : gmap QueryId (Node I)) (ids : gmap I QueryId) (R : list (QueryId * I)).
Implicit Types (g : list (GraphShard I)) (q : QueryId) (i : I).

Definition without R q {B} (o : option B) : option B := if decide (q ∈ R.*1) then None else o.

(** [R] taken out of a map of nodes and of the interned inputs. *)
Definition taken R ids ids' (released released' : list I) : Prop :=
  released' = released ++ R.*2 ∧ ∀ i, ids' !! i = if decide (i ∈ R.*2) then None else ids !! i.

Lemma taken_app R1 R2 ids ids1 ids2 l l1 l2 :
  taken R1 ids ids1 l l1 → taken R2 ids1 ids2 l1 l2 → taken (R1 ++ R2) ids ids2 l l2.
Proof.
  intros [-> H1] [-> H2]. split; [by rewrite fmap_app, (assoc_L (++))|]. intros i. rewrite H2, H1, fmap_app.
  repeat case_decide; try done; set_solver.
Qed.

Lemma release_unread_ok unread : ∀ nodes ids released,
  ∃ nodes' ids' released' R,
    foldl release_unread (nodes, ids, released) unread = (nodes', ids', released') ∧
    taken R ids ids' released released' ∧ (∀ q, nodes' !! q = without R q (nodes !! q)) ∧
    ∀ q i, (q, i) ∈ R → ∃ rds, nodes !! q = Some (mk_node (Input i) rds []).
Proof.
  induction unread as [|q0 unread IH]; intros nodes ids released; cbn [foldl].
  { exists nodes, ids, released, []. split; [done|]. split; [split; [by rewrite app_nil_r|]|split].
    - intros i. by rewrite decide_False by apply not_elem_of_nil.
    - intros q. unfold without. by rewrite decide_False by apply not_elem_of_nil.
    - by intros q i ?%elem_of_nil. }
  destruct (nodes !! q0) as [[[i0|tb] rds [|r readers]]|] eqn:Hn;
    try (unfold release_unread at 2; rewrite Hn; apply IH).
  unfold release_unread at 2. rewrite Hn.
  destruct (IH (delete q0 nodes) (delete i0 ids) (released ++ [i0]))
    as (nodes' & ids' & released' & R & H1 & H2 & H3 & H4).
  exists nodes', ids', released', ((q0, i0) :: R). split; [done|]. split; [|split].
  - apply (taken_app [(q0, i0)] R ids (delete i0 ids) ids' released (released ++ [i0])); [|done].
    split; [done|]. intros i. cbn [fmap list_fmap snd]. destruct (decide (i = i0)) as [->|Hne].
    + rewrite lookup_delete_eq. by rewrite decide_True by (by left).
    + rewrite lookup_delete_ne by done. rewrite decide_False; [done|]. by intros ?%list_elem_of_singleton.
  - intros q. rewrite H3. unfold without. cbn [fmap list_fmap fst].
    destruct (decide (q = q0)) as [->|Hne].
    + rewrite lookup_delete_eq. rewrite (decide_True (P := q0 ∈ q0 :: R.*1)) by (by left). by case_decide.
    + rewrite lookup_delete_ne by done. rewrite (decide_ext (q ∈ q0 :: R.*1) (q ∈ R.*1)); [done|].
      rewrite elem_of_cons. naive_solver.
  - intros q i [[= -> ->]|Hin]%elem_of_cons; [by exists rds|]. destruct (H4 q i Hin) as [rds' Hq].
    apply lookup_delete_Some in Hq as [_ Hq]. by exists rds'.
Qed.

Lemma release_shards_ok g : ∀ ids released,
  ∃ g' ids' released' R, release_shards g ids released = (g', ids', released') ∧
    taken R ids ids' released released' ∧ length g' = length g ∧
    (∀ j s, g !! j = Some s → ∃ s', g' !! j = Some s' ∧ gs_pending s' = gs_pending s ∧
      ∃ R', (∀ x, x ∈ R' → x ∈ R) ∧ ∀ q, gs_nodes s' !! q = without R' q (gs_nodes s !! q)) ∧
    ∀ q i, (q, i) ∈ R → ∃ j s s' rds, g !! j = Some s ∧ g' !! j = Some s' ∧
      gs_nodes s !! q = Some (mk_node (Input i) rds []) ∧ gs_nodes s' !! q = None.
Proof.
  induction g as [|s g IH]; intros ids released; cbn [release_shards].
  { exists [], ids, released, []. split; [done|]. split; [split; [by rewrite app_nil_r|]|].
    - intros i. by rewrite decide_False by apply not_elem_of_nil.
    - split; [done|]. split; [done|]. by intros q i ?%elem_of_nil. }
  destruct (release_unread_ok (gs_unread s) (gs_nodes s) ids released)
    as (nodes1 & ids1 & released1 & R1 & -> & T1 & N1 & M1).
  destruct (IH ids1 released1) as (g2 & ids2 & released2 & R2 & -> & T2 & L2 & N2 & M2).
  exists (mk_graph_shard nodes1 [] (gs_pending s) :: g2), ids2, released2, (R1 ++ R2).
  split; [done|]. split; [by eapply taken_app|]. split; [simpl; by rewrite L2|]. split.
  - intros [|j] s0 Hs0; simpl in Hs0.
    + injection Hs0 as <-. eexists. split; [done|]. split; [done|]. exists R1.
      split; [intros x Hx; apply elem_of_app; by left|exact N1].
    + destruct (N2 j s0 Hs0) as (s' & Hs' & Hp & R' & HR & HN). exists s'. split; [done|].
      split; [done|]. exists R'. split; [intros x Hx; apply elem_of_app; right; auto|done].
  - intros q i [Hin|Hin]%elem_of_app.
    + destruct (M1 q i Hin) as [rds Hq]. exists 0, s, (mk_graph_shard nodes1 [] (gs_pending s)), rds.
      split; [done|]. split; [done|]. split; [done|]. simpl. rewrite N1. unfold without.
      rewrite decide_True; [done|]. apply list_elem_of_fmap. by exists (q, i).
    + destruct (M2 q i Hin) as (j & s0 & s' & rds & ?). by exists (S j), s0, s', rds.
Qed.

End release.

(** ** [end] *)
Section ends.
Context {I A K V : Type} `{Countable I, Countable K, EqDecision V}.
Context (input_cmp : I → I → comparison).
Context (compute_of : K → Comp I A K V) (w : I → A).
Implicit Types (s : Store I K V) (q : QueryId) (k : K) (e : Entry V).

Local Abbreviation store_ok := (store_ok compute_of w) (only parsing).

Lemma key_not_input s q k i : store_ok s → td_keys (st_table s) !! q = Some k →
  in_ids (st_inputs s) !! i ≠ Some q.
Proof. intros Hs Hk Hi. destruct (io_input _ (so_ids _ _ _ Hs) i q Hi). congruence. Qed.

Lemma entry_keyed s q : store_ok s → is_Some (st_entry s q) → is_Some (td_keys (st_table s) !! q).
Proof.
  intros Hs [e He]. destruct (so_entries _ _ _ Hs q e He) as [(k & Hk & _) _ _]. by exists k.
Qed.

(** What a query reads: recorded inputs, or memos with an entry. *)
Lemma reads_at_known s q q' : store_ok s → q' ∈ reads_at s q →
  ∃ rev rds, recorded s q = Some rds ∧ (q', rev) ∈ rds ∧
    (is_Some (td_keys (st_table s) !! q') → rev ≠ input_read ∧ is_Some (st_entry s q')).
Proof.
  intros Hs. unfold reads_at. destruct (recorded s q) as [rds|] eqn:Hr; [|by intros ?%elem_of_nil].
  intros ([q1 rev] & -> & Hin)%list_elem_of_fmap. exists rev, rds. split; [done|]. split; [done|].
  intros [k Hk]. pose proof (so_reads _ _ _ Hs q rds Hr) as Hkn. rewrite Forall_forall in Hkn.
  specialize (Hkn _ Hin). unfold known in Hkn. simpl in *. case_decide; [|done].
  destruct Hkn as [i Hi]. by destruct (key_not_input s q1 k i Hs Hk).
Qed.

Lemma foldl_raise_nodeless (g : list (GraphShard I)) (t : TableData K V) (stale : list QueryId) :
  (∀ r, r ∈ stale → gr_node g r = None) → foldl (raise g Dirty) t stale = t.
Proof.
  intros Hr. induction stale as [|r stale IH]; [done|]. cbn [foldl]. unfold raise at 2.
  rewrite (Hr r) by (by left). apply IH. intros; apply Hr. by right.
Qed.

(** Read by a used query, through memo reads. *)
Inductive kept s (used : QueryId → Prop) : QueryId → Prop :=
  | kept_used q : used q → kept s used q
  | kept_memo q q' rev rds : kept s used q → recorded s q = Some rds → (q', rev) ∈ rds →
      rev ≠ input_read → kept s used q'.

Lemma kept_entry s used q : store_ok s → (∀ q, used q → is_Some (st_entry s q)) → kept s used q →
  is_Some (st_entry s q).
Proof.
  intros Hs Hu. induction 1 as [q Hq|q q' rev rds _ _ Hrec Hin Hne]; [by apply Hu|].
  pose proof (so_reads _ _ _ Hs q rds Hrec) as Hkn. rewrite Forall_forall in Hkn.
  specialize (Hkn _ Hin). unfold known in Hkn. simpl in Hkn. by rewrite decide_False in Hkn.
Qed.

Lemma kept_regraphed s s' (used used' : QueryId → Prop) q : store_ok s → regraphed s s' →
  (∀ q, used q → is_Some (st_entry s q)) → (∀ q, used q → used' q) → kept s used q → kept s' used' q.
Proof.
  intros Hs Hr Hu Huu. induction 1 as [q Hq|q q' rev rds Hq IH Hrec Hin Hne]; [by apply kept_used, Huu|].
  eapply kept_memo; [exact IH| |exact Hin|exact Hne].
  rewrite (rg_recorded _ _ Hr); [done|]. by eapply kept_entry.
Qed.

(** The sweep keeps exactly what the used entries read. *)
Lemma sweep_unused_ok s used :
  store_ok s → flushed s →
  ∃ s' X, sweep_unused s used = Ret s' ∧ dropped X s s' ∧ st_inputs s' = st_inputs s ∧
    ∀ q, is_Some (st_entry s q) → q ∉ X ↔ kept s (λ q, q ∈ used) q.
Proof.
  intros Hs Hf. unfold sweep_unused. set (g := st_graph s).
  destruct (live_loop_spec g (live_fuel g used) (list_to_set used) (reverse used))
    as (live & -> & Hused & Hlive & Hleast).
  { intros q. by rewrite elem_of_reverse, elem_of_list_to_set. }
  { intros q. rewrite elem_of_reverse, elem_of_list_to_set. by left. }
  { unfold live_fuel. rewrite length_reverse. pose proof (size_read_ids g).
    assert (size (read_ids g ∖ list_to_set used) ≤ size (read_ids g)) by (apply subseteq_size; set_solver).
    lia. }
  cbn [mbind outcome_bind]. destruct (sweep (st_table s) live) as [t' gone] eqn:Hsw.
  destruct (sweep_spec (st_table s) live t' gone) as (Hnd & Hgone & Hkeys & Hids & Hent);
    [apply (io_bij _ (so_ids _ _ _ Hs))|intros q Hq; by apply (entry_keyed s)|done|].
  set (X := list_to_set gone : gset N) in *.
  assert (∀ q, q ∈ X ↔ q ∈ gone) as HX by (intros q; unfold X; apply elem_of_list_to_set).
  assert (∀ q q', q ∉ X → is_Some (st_entry s q) → q' ∈ reads_at s q → q' ∉ X) as Hsep.
  { intros q q' Hq [e He] Hin. rewrite HX, Hgone in *. intros [Hk Hdead].
    destruct (reads_at_known s q q' Hs Hin) as (rev & rds & Hrec & Hrd & Hkn).
    destruct (Hkn Hk) as [Hne [e' He']]. destruct Hdead as [Hdead|Hdead].
    { unfold st_entry in He'. congruence. }
    destruct Hdead. destruct (decide (q ∈ live)) as [Hl|Hl].
    - eapply (Hlive q q' rev); [done| |done]. rewrite flushed_recorded in Hrec by done.
      unfold node_reads. unfold g. destruct (gr_node (st_graph s) q); [|done]. by injection Hrec as ->.
    - destruct Hq. split; [apply (entry_keyed s); [done|by exists e]|by right]. }
  pose proof (drop_graph_ok g gone (so_graph _ _ _ Hs) (fl_settled _ Hf) Hnd) as Hdrop.
  destruct (foldl drop_node (g, no_edges, []) gone) as [[g1 lost] stale].
  destruct Hdrop as (Hstale & g' & Hrun & Hgd).
  { intros q [[k Hk] _]%Hgone. eapply id_lt; [apply Hs|]. by apply (io_key _ (so_ids _ _ _ Hs)) in Hk. }
  rewrite Hrun. cbn [or_panic mbind outcome_bind]. rewrite foldl_raise_nodeless.
  - exists (set_table (set_graph s g') t'), X. split; [done|]. split.
    + split; try done; try apply Hf. intros i. simpl.
      destruct (in_ids (st_inputs s) !! i) as [q|] eqn:Hi; [|done]. simpl. unfold unless.
      rewrite decide_False; [done|]. rewrite HX, Hgone. intros [[k Hk] _].
      by destruct (key_not_input s q k i Hs Hk).
    + split; [done|]. intros q He.
      assert (q ∉ X ↔ q ∈ live) as ->.
      { rewrite HX, Hgone. split.
        - intros Hq. destruct (decide (q ∈ live)); [done|]. destruct Hq.
          split; [by apply (entry_keyed s)|by right].
        - intros Hq [_ [Hno|?]]; [|done]. unfold st_entry in He. rewrite Hno in He. by destruct He. }
      split.
      * apply (Hleast (kept s (λ q, q ∈ used))).
        -- intros x Hx. apply kept_used. by apply elem_of_list_to_set in Hx.
        -- intros x x' rev Hx Hin Hne. unfold node_reads in Hin.
           destruct (gr_node g x) as [n|] eqn:Hn; [|by apply elem_of_nil in Hin].
           eapply kept_memo; [exact Hx| |exact Hin|done]. rewrite flushed_recorded by done.
           unfold g in Hn. by rewrite Hn.
      * clear He. induction 1 as [x Hx|x x' rev rds _ IH Hrec Hin Hne].
        -- apply Hused. by rewrite elem_of_list_to_set.
        -- eapply (Hlive x x' rev); [done| |done]. rewrite flushed_recorded in Hrec by done.
           unfold node_reads, g. destruct (gr_node (st_graph s) x); [|done]. by injection Hrec as ->.
  - intros r Hr. destruct (Hstale r Hr) as (q & Hq & Hread).
    pose proof (gd_node _ _ _ Hgd r) as Hn. destruct (gr_node g' r) as [n'|]; [|done]. exfalso.
    destruct Hn as (HrX & n & Hn & Hk & _).
    apply (flushed_readers compute_of w s) in Hread; [|done|done].
    pose proof (so_nodes _ _ _ Hs r n Hn) as Hkind. destruct (nd_kind n) as [i|tb].
    + rewrite (so_input_reads _ _ _ Hs i r Hkind) in Hread. by apply elem_of_nil in Hread.
    + destruct (Hsep r q HrX Hkind Hread). by apply HX.
Qed.

Lemma nothing_dropped s : store_ok s → flushed s → dropped ∅ s s.
Proof.
  intros Hs Hf. assert (∀ q {B} (o : option B), unless ∅ q o = o) as Hun.
  { intros q B o. unfold unless. by rewrite decide_False by apply not_elem_of_empty. }
  split; try done; try apply Hf.
  - intros x. destruct (td_ids (st_table s) !! x) as [y|]; [simpl; by rewrite Hun|done].
  - intros x. destruct (in_ids (st_inputs s) !! x) as [y|]; [simpl; by rewrite Hun|done].
  - pose proof (so_graph _ _ _ Hs) as Hg. split; [apply Hg|apply Hf|apply Hg|].
    intros q. destruct (gr_node (st_graph s) q) as [n|] eqn:Hn; [|by right].
    split; [apply not_elem_of_empty|]. exists n. split; [done|]. split; [done|]. split; [done|].
    split; [by apply (go_sorted _ Hg q)|]. intros r. split; [|by intros [? _]].
    intros Hr. split; [done|apply not_elem_of_empty].
Qed.

(** Released inputs are read by nothing. *)
Lemma release_ok s : store_ok s → flushed s →
  ∃ g ids released X, release_shards (st_graph s) (in_ids (st_inputs s)) [] = (g, ids, released) ∧
    (∀ i, i ∈ released ↔ ∃ q, q ∈ X ∧ in_ids (st_inputs s) !! i = Some q) ∧
    (∀ q, q ∈ X → (∃ i, in_ids (st_inputs s) !! i = Some q) ∧ ∀ r, q ∉ reads_at s r) ∧
    dropped X s (set_inputs (set_graph s g) (mk_interned ids (in_fresh (st_inputs s)))).
Proof.
  intros Hs Hf. pose proof (so_graph _ _ _ Hs) as Hg. pose proof (so_ids _ _ _ Hs) as Hids.
  destruct (release_shards_ok (st_graph s) (in_ids (st_inputs s)) [])
    as (g & ids & released & R & -> & [-> Hids'] & Hlen & Hsh & Htaken).
  exists g, ids, ([] ++ R.*2), (list_to_set R.*1). split; [done|]. set (X := list_to_set R.*1 : gset N).
  assert (∀ q, q ∈ X ↔ ∃ i, (q, i) ∈ R) as HX.
  { intros q. unfold X. rewrite elem_of_list_to_set, list_elem_of_fmap. split.
    - intros ([q1 i] & -> & Hin). by exists i.
    - intros [i Hin]. by exists (q, i). }
  assert (∀ q i, (q, i) ∈ R → (∃ rds, gr_node (st_graph s) q = Some (mk_node (Input i) rds [])) ∧
    gr_node g q = None ∧ in_ids (st_inputs s) !! i = Some q) as HR.
  { intros q i Hin. destruct (Htaken q i Hin) as (j & sh & sh' & rds & Hj & Hj' & Hn & Hn').
    assert (graph_shard q = j) as <- by (eapply (go_shard _ Hg); [exact Hj|by eexists]).
    assert (gr_node (st_graph s) q = Some (mk_node (Input i) rds [])) as Hnode
      by (unfold gr_node; by rewrite Hj).
    split; [by exists rds|]. split; [unfold gr_node; by rewrite Hj'|].
    by pose proof (so_nodes _ _ _ Hs q _ Hnode). }
  assert (∀ q, q ∈ X → ∀ r, q ∉ reads_at s r) as Hunread.
  { intros q [i Hin]%HX r Hr. destruct (HR q i Hin) as ((rds & Hn) & _ & _).
    apply (flushed_readers compute_of w s q r Hs Hf) in Hr. unfold node_readers in Hr.
    rewrite Hn in Hr. by apply elem_of_nil in Hr. }
  split.
  { intros i. rewrite app_nil_l, list_elem_of_fmap. split.
    - intros ([q i'] & -> & Hin). exists q. split; [apply HX; by exists i'|]. by apply HR.
    - intros (q & [i' Hin]%HX & Hi). exists (q, i'). split; [|done]. simpl.
      eapply (io_inj _ Hids); [exact Hi|]. by apply HR. }
  split. { intros q Hq. split; [|by apply Hunread]. apply HX in Hq as [i Hin]. exists i. by apply HR. }
  assert (∀ q k, td_keys (st_table s) !! q = Some k → q ∉ X) as Hnokey.
  { intros q k Hk [i Hin]%HX. destruct (HR q i Hin) as (_ & _ & Hi).
    by destruct (key_not_input s q k i Hs Hk). }
  assert (∀ q n, gr_node g q = Some n → (q ∉ X) ∧ gr_node (st_graph s) q = Some n) as Hback.
  { intros q n Hn. split; [intros [i Hin]%HX; destruct (HR q i Hin) as (_ & Hx & _); congruence|].
    destruct (shard_at (st_graph s) q Hg) as [sh Hj].
    destruct (Hsh _ sh Hj) as (sh' & Hj' & _ & R' & _ & HN). unfold gr_node in *.
    rewrite Hj. rewrite Hj' in Hn. simpl in *. rewrite HN in Hn. unfold without in Hn. by case_decide. }
  split; simpl; try done; try apply Hf.
  - intros q. destruct (td_keys (st_table s) !! q) as [k|] eqn:Hk; unfold unless; [|by case_decide].
    rewrite decide_False by (by eapply Hnokey). done.
  - intros k. destruct (td_ids (st_table s) !! k) as [q|] eqn:Hk; [|done]. simpl. unfold unless.
    rewrite decide_False; [done|]. eapply Hnokey. by apply (io_bij _ Hids).
  - intros q. change (st_entry (set_inputs (set_graph s g) _) q) with (st_entry s q).
    destruct (st_entry s q) as [e|] eqn:He; unfold unless; [|by case_decide].
    rewrite decide_False; [done|]. destruct (entry_keyed s q Hs) as [k Hk]; [by exists e|]. by eapply Hnokey.
  - intros i. rewrite Hids'. destruct (in_ids (st_inputs s) !! i) as [q|] eqn:Hi; simpl;
      [|by case_decide].
    assert (i ∈ R.*2 ↔ q ∈ X) as Hiff.
    { rewrite HX, list_elem_of_fmap. split.
      - intros ([q1 i1] & -> & Hin). exists i1. simpl in Hi. destruct (HR q1 i1 Hin) as (_ & _ & Hx).
        by assert (q1 = q) as <- by congruence.
      - intros [i1 Hin]. exists (q, i1). split; [|done]. simpl.
        eapply (io_inj _ Hids); [exact Hi|]. by apply HR. }
    unfold unless. by rewrite (decide_ext _ _ _ _ Hiff).
  - split.
    + rewrite Hlen. apply Hg.
    + intros j sh' Hj'. destruct (lookup_lt_is_Some_2 (st_graph s) j) as [sh Hj].
      { rewrite <- Hlen. by eapply lookup_lt_Some. }
      destruct (Hsh j sh Hj) as (sh2 & Hj2 & Hp & _). assert (sh2 = sh') as -> by congruence.
      rewrite Hp. by eapply (fl_settled _ Hf).
    + intros j sh' q Hj' [n Hn]. destruct (lookup_lt_is_Some_2 (st_graph s) j) as [sh Hj].
      { rewrite <- Hlen. by eapply lookup_lt_Some. }
      destruct (Hsh j sh Hj) as (sh2 & Hj2 & _ & R' & _ & HN). assert (sh2 = sh') as -> by congruence.
      eapply (go_shard _ Hg); [exact Hj|]. rewrite HN in Hn. unfold without in Hn.
      case_decide; [done|by exists n].
    + intros q. destruct (gr_node g q) as [n|] eqn:Hn.
      * destruct (Hback q n Hn) as [Hq Hn0]. split; [done|]. exists n. split; [done|]. split; [done|].
        split; [done|]. split; [by apply (go_sorted _ Hg q)|]. intros r. split; [|by intros [? _]].
        intros Hr. split; [done|]. intros [i Hin]%HX.
        destruct (HR r i Hin) as (_ & _ & Hi).
        apply (settled_readers _ q n r Hg (fl_settled _ Hf) Hn0) in Hr.
        pose proof (so_input_reads _ _ _ Hs i r Hi) as Hno. unfold reads_at in Hno.
        rewrite flushed_recorded in Hno by done. unfold reads_of in Hr.
        destruct (gr_node (st_graph s) r); simpl in Hno; [rewrite Hno in Hr|]; by apply elem_of_nil in Hr.
      * destruct (gr_node (st_graph s) q) as [n|] eqn:Hn0; [left|by right]. apply HX.
        destruct (shard_at (st_graph s) q Hg) as [sh Hj].
        destruct (Hsh _ sh Hj) as (sh' & Hj' & _ & R' & HRR & HN). unfold gr_node in *.
        rewrite Hj in Hn0. rewrite Hj' in Hn. simpl in *. rewrite HN in Hn. unfold without in Hn.
        case_decide as Hin; [|congruence]. apply list_elem_of_fmap in Hin as ([q1 i] & -> & Hin).
        exists i. by apply HRR.
  - intros q q' _ _ Hin Hx. by eapply Hunread.
Qed.

Definition used_now s q : Prop := ∃ e, st_entry s q = Some e ∧ en_used_at e = st_revision s.

(** A build's end never fails, keeps exactly the entries the build used and
    those they read, as they are, and releases inputs. *)
Lemma end_ok s : store_ok s →
  ∃ s' released, end_build input_cmp s = Ret (s', released) ∧ store_ok s' ∧ flushed s' ∧
    st_revision s' = st_revision s ∧ st_poisoned s' = st_poisoned s ∧
    st_verify_reused s' = st_verify_reused s ∧
    (∀ q e, st_entry s' q = Some e ↔ st_entry s q = Some e ∧ kept s (used_now s) q) ∧
    (∀ i, i ∈ released ↔ is_Some (in_ids (st_inputs s) !! i) ∧ in_ids (st_inputs s') !! i = None).
Proof.
  intros Hs0. unfold end_build.
  destruct (synced_flush_ok compute_of w s Hs0) as (g & Hrun & Hs & Hrg & Hf). rewrite Hrun.
  cbn [or_panic mbind outcome_bind]. set (s1 := set_graph (synced_graph s) g) in *.
  change (set_graph (synced_graph s) g) with s1. set (used := sort_dedup _).
  assert (∀ q, q ∈ used ↔ used_now s q) as Hused.
  { intros q. destruct (sort_dedup_spec (filter (λ e : N * Entry V, en_used_at e.2 = st_revision s)
      (map_to_list (td_entries (st_table s1)))).*1) as [_ Hmem].
    unfold used_now. rewrite <- (regraphed_entry _ _ q Hrg). etrans; [apply Hmem|].
    rewrite list_elem_of_fmap. split.
    - intros ([q1 e] & -> & [Hu Hin]%list_elem_of_filter). exists e.
      by apply elem_of_map_to_list in Hin.
    - intros (e & He & Hu). exists (q, e). split; [done|]. apply list_elem_of_filter.
      split; [done|]. by apply elem_of_map_to_list. }
  assert (∃ s2 X, (if decide (length used < size (td_entries (st_table s1))) then sweep_unused s1 used
      else Ret s1) = Ret s2 ∧ dropped X s1 s2 ∧ st_inputs s2 = st_inputs s1 ∧
      ∀ q, is_Some (st_entry s1 q) → q ∉ X ↔ kept s1 (λ q, q ∈ used) q) as (s2 & X & -> & Hd & Hin2 & HX).
  { case_decide as Hlen; [by apply sweep_unused_ok|]. exists s1, ∅. split; [done|].
    split; [by apply nothing_dropped|]. split; [done|]. intros q Hq.
    split; [intros _|intros _; apply not_elem_of_empty]. apply kept_used.
    assert (dom (td_entries (st_table s1)) ⊆ (list_to_set used : gset N)) as Hsub.
    { assert ((list_to_set used : gset N) ⊆ dom (td_entries (st_table s1))) as Hle.
      { intros x Hx%elem_of_list_to_set. apply Hused in Hx as (e & He & _).
        apply elem_of_dom. exists e. by rewrite <- (regraphed_entry _ _ x Hrg) in He. }
      assert (NoDup used) as Hnd
        by (apply (increasing_NoDup _ N_cmp_order), sort_dedup_increasing, N_cmp_order).
      assert (size (dom (td_entries (st_table s1))) ≤ size (list_to_set used : gset N)) as Hsz.
      { rewrite size_list_to_set by done. rewrite size_dom. lia. }
      intros x Hx. destruct (decide (x ∈ (list_to_set used : gset N))); [done|].
      assert (size (list_to_set used : gset N) < size (dom (td_entries (st_table s1)))); [|lia].
      apply subset_size. split; [done|]. intros Hc. by apply Hc in Hx. }
    rewrite <- (elem_of_list_to_set (C := gset N)). by apply Hsub, elem_of_dom. }
  destruct (dropped_ok compute_of w X s1 s2 Hs Hf Hd) as [Hs2 Hf2]. cbn [mbind outcome_bind].
  destruct (release_ok s2 Hs2 Hf2) as (g' & ids & released & X2 & -> & Hrel & Hread & Hd2).
  destruct (dropped_ok compute_of w X2 s2 _ Hs2 Hf2 Hd2) as [Hs3 Hf3].
  eexists _, _. split; [done|]. split; [done|]. split; [done|].
  split; [by simpl; rewrite (dp_revision _ _ _ Hd), (rg_revision _ _ Hrg)|].
  split; [by simpl; rewrite (dp_poisoned _ _ _ Hd), (rg_poisoned _ _ Hrg)|].
  split; [by simpl; rewrite (dp_verify _ _ _ Hd), (rg_verify _ _ Hrg)|]. split.
  - intros q e. rewrite (dp_entries _ _ _ Hd2), unless_Some, (dp_entries _ _ _ Hd), unless_Some.
    rewrite (regraphed_entry _ _ q Hrg).
    assert (is_Some (st_entry s1 q) → q ∉ X ↔ kept s (used_now s) q) as Hkept.
    { intros Hq. rewrite (HX q Hq). split.
      - apply kept_regraphed; [done|by apply regraphed_sym| |apply Hused].
        intros x (e' & He' & _)%Hused. exists e'. by rewrite (regraphed_entry _ _ x Hrg).
      - apply kept_regraphed; [done|done| |apply Hused]. intros x (e' & He' & _). by exists e'. }
    split.
    + intros (_ & Hq & He). split; [done|]. apply Hkept; [|done]. exists e.
      by rewrite (regraphed_entry _ _ q Hrg).
    + intros [He Hk]. assert (st_entry s1 q = Some e) as He1 by (by rewrite (regraphed_entry _ _ q Hrg)).
      split; [|split; [by apply Hkept; [exists e|]|done]]. intros Hx.
      destruct (Hread q Hx) as [[i Hi] _]. rewrite Hin2 in Hi.
      destruct (entry_keyed s1 q Hs) as [k Hkk]; [by exists e|]. by destruct (key_not_input s1 q k i Hs Hkk).
  - intros i. rewrite merge_sort_Permutation, Hrel, (dp_inputs _ _ _ Hd2), Hin2, <- (rg_inputs _ _ Hrg).
    destruct (in_ids (st_inputs s1) !! i) as [q|]; simpl.
    + unfold unless. case_decide as Hq; [|naive_solver]. split; [|by exists q].
      intros _. split; [by eexists|done].
    + split; [by intros (q & _ & ?)|by intros [[? ?] _]].
Qed.

End ends.
