(* ===== verification/MemoTotal.v ===== *)
(** * Every key that evaluates is answered

    A key whose evaluation from scratch ends is answered, whatever the store
    remembers: verification asks only for keys the evaluation needs too, so it
    neither runs away nor meets a cycle. *)
From S2P Require Import Prelude Order MemoGraph MemoGraphSpec Memo MemoSpec MemoAnswer.

Section needs.
Context {I A K V : Type} (compute_of : K → Comp I A K V) (w : I → A).
Implicit Types (k : K) (v : V).

(** [k]'s evaluation asks for [k']. *)
Definition needs k k' : Prop :=
  ∃ tr v v', follows w (compute_of k) tr v ∧
    (∀ k0 v0, EvMemo k0 v0 ∈ tr → eval compute_of w k0 v0) ∧ EvMemo k' v' ∈ tr.

Lemma follows_eval_det k tr v tr' v' :
  follows w (compute_of k) tr v → (∀ k0 v0, EvMemo k0 v0 ∈ tr → eval compute_of w k0 v0) →
  follows w (compute_of k) tr' v' → (∀ k0 v0, EvMemo k0 v0 ∈ tr' → eval compute_of w k0 v0) →
  tr' = tr ∧ v' = v.
Proof.
  intros Hf He Hf' He'. eapply follows_agree; [exact Hf|exact Hf'|]. intros k0 a b Ha Hb.
  eapply eval_det; [by apply He'|by apply He].
Qed.

Lemma eval_acc k v : eval compute_of w k v → Acc (flip needs) k.
Proof.
  induction 1 as [k v tr Hf Hsub IH]. constructor. intros k' (tr' & v1 & v2 & Hf' & He' & Hin).
  destruct (follows_eval_det k tr v tr' v1 Hf Hsub Hf' He') as [-> _]. by eapply IH.
Qed.

(** No evaluation needs itself. *)
Lemma needs_irrefl k v : eval compute_of w k v → ¬ tc needs k k.
Proof.
  intros He%eval_acc. induction He as [k _ IH]. intros Htc.
  inversion Htc as [? ? Hn|? x ? Hn Hx]; subst; [by apply (IH k Hn)|].
  apply (IH x Hn). by eapply tc_r.
Qed.

End needs.

Section total.
Context {I A K V : Type} `{Countable I, Countable K, EqDecision V}.
Context (table_of : K → N) (key_hash : K → N) (input_hash : I → N).
Context (compute_of : K → Comp I A K V) (implied_of : K → list I) (w : I → A).
Implicit Types (s : Store I K V) (q : QueryId) (k : K) (v : V) (e : Entry V).
Implicit Types (tr : list (Event (I := I) (K := K) (V := V))) (rds : list (QueryId * N)).
Implicit Types (reads : list (CtxRead I)) (frames : list QueryId).

Local Abbreviation store_ok := (store_ok compute_of w) (only parsing).
Local Abbreviation eval := (eval compute_of w) (only parsing).
Local Abbreviation needs := (needs compute_of w) (only parsing).
Local Abbreviation Get := (K → Store I K V → Outcome (Store I K V * (list N + Answer V))) (only parsing).
Local Abbreviation get := (get table_of key_hash input_hash compute_of implied_of) (only parsing).

(** The keys and inputs an evaluation can touch, with room for their ids. *)
Context (UK : gset K) (UI : gset I).

Record within : Prop := {
  wi_implied : ∀ k i, k ∈ UK → i ∈ implied_of k → i ∈ UI;
  wi_memo : ∀ k k', k ∈ UK → needs k k' → k' ∈ UK;
  wi_input : ∀ k tr v i, k ∈ UK → follows w (compute_of k) tr v →
    (∀ k0 v0, EvMemo k0 v0 ∈ tr → eval k0 v0) → EvInput i ∈ tr → i ∈ UI
}.
Context (Hwithin : within).

Definition room s : Prop :=
  (st_next s + N.of_nat (size (UK ∖ dom (td_ids (st_table s)))) +
    N.of_nat (size (UI ∖ dom (in_ids (st_inputs s)))) ≤ 2 ^ 28)%N.

Definition gives {B} (o : Outcome (Store I K V * (list N + B))) : Prop :=
  ∃ s' b, o = Ret (s', inr b) ∧ room s'.

Lemma room_same s s' : st_next s' = st_next s → td_ids (st_table s') = td_ids (st_table s) →
  in_ids (st_inputs s') = in_ids (st_inputs s) → room s → room s'.
Proof. unfold room. by intros -> -> ->. Qed.

Lemma size_insert_dom {B} `{Countable B} {C} (U : gset B) (m : gmap B C) b c :
  b ∈ U → m !! b = None → size (U ∖ dom m) = S (size (U ∖ dom (<[b := c]> m))).
Proof.
  intros Hb Hm. apply not_elem_of_dom in Hm. rewrite dom_insert_L.
  assert (U ∖ dom m = {[b]} ∪ U ∖ ({[b]} ∪ dom m)) as ->.
  { apply set_eq. intros x. destruct (decide (x = b)) as [->|]; set_solver. }
  rewrite size_union, size_singleton by set_solver. done.
Qed.

Lemma allocate_total s (h : N) : (st_next s + 1 ≤ 2 ^ 28)%N →
  ∃ q, allocate s (h mod table_shards) = Ret (set_next s (st_next s + 1), q).
Proof.
  intros Hr. pose proof (shard_lt h). unfold allocate, table_shards in *.
  change (2 ^ 28)%N with 268435456%N in Hr. change (2 ^ 32)%N with 4294967296%N.
  rewrite decide_True by lia. eexists. rewrite N.mod_small by lia. done.
Qed.

Lemma query_of_total s k : room s → k ∈ UK → ∃ s' q, query_of key_hash s k = Ret (s', q) ∧ room s'.
Proof.
  intros Hr Hk. unfold query_of. destruct (td_ids (st_table s) !! k) as [q|] eqn:Hq; [by exists s, q|].
  pose proof (λ q, size_insert_dom UK _ k q Hk Hq) as Hsz. unfold room in Hr. rewrite (Hsz 0%N) in Hr.
  destruct (allocate_total s (N.shiftr (key_hash k) 60)) as [q Ha]; [lia|].
  unfold key_shard. rewrite Ha. cbn [mbind outcome_bind]. eexists _, _. split; [done|].
  unfold room. simpl. rewrite <- (Hsz 0%N) in Hr. rewrite (Hsz q) in Hr. lia.
Qed.

Lemma intern_total s i : room s → i ∈ UI → ∃ s' q, intern input_hash s i = Ret (s', q) ∧ room s'.
Proof.
  intros Hr Hi. unfold intern. destruct (in_ids (st_inputs s) !! i) as [q|] eqn:Hq; [by exists s, q|].
  pose proof (λ q, size_insert_dom UI _ i q Hi Hq) as Hsz. unfold room in Hr. rewrite (Hsz 0%N) in Hr.
  destruct (allocate_total s (N.shiftr (input_hash i) 60)) as [q Ha]; [lia|].
  unfold input_shard. rewrite Ha. cbn [mbind outcome_bind]. eexists _, _. split; [done|].
  unfold room. simpl. rewrite <- (Hsz 0%N) in Hr. rewrite (Hsz q) in Hr. lia.
Qed.

Lemma recorded_reads_total reads : ∀ s rds, room s → (∀ i, RInput i ∈ reads → i ∈ UI) →
  ∃ s' rds', recorded_reads input_hash (s, rds) reads = Ret (s', rds') ∧ room s' ∧
    td_ids (st_table s') = td_ids (st_table s).
Proof.
  induction reads as [|[i|q rev] reads IH]; intros s rds Hr Hin; cbn [recorded_reads recorded_read].
  - by exists s, rds.
  - destruct (intern_total s i Hr) as (s1 & q & Hi & Hr1); [apply Hin; by left|]. rewrite Hi.
    cbn [mbind outcome_bind].
    destruct (IH s1 (rds ++ [(q, input_read)]) Hr1) as (s' & rds' & Hrun & Hr' & Hd).
    { intros; apply Hin; by right. }
    exists s', rds'. split; [exact Hrun|]. split; [done|]. rewrite Hd.
    unfold intern in Hi. destruct (in_ids _ !! i); [by injection Hi as <- _|].
    unfold allocate in Hi. by destruct (decide _); [injection Hi as <- _|].
  - cbn [mbind outcome_bind]. apply IH; [done|]. intros; apply Hin; by right.
Qed.

Lemma install_total s q k v reads : room s → td_ids (st_table s) !! k = Some q → k ∈ UK →
  (∀ i, RInput i ∈ reads → i ∈ UI) →
  ∃ s' a, install table_of input_hash s q k v reads (implied_of k) = Ret (s', a) ∧ room s'.
Proof.
  intros Hr Hk HU Hin. unfold install. destruct (install_reads_spec (implied_of k) reads) as [Hkept _ _].
  destruct (recorded_reads_total (install_reads (implied_of k) reads) s [] Hr) as (s1 & rds & -> & Hr1 & Hd).
  { intros i [Hi|Hi]%Hkept; [by eapply (wi_implied Hwithin)|auto]. }
  cbn [mbind outcome_bind]. unfold install_entry. cbn [set_records st_table]. rewrite Hd, Hk.
  destruct (st_entry s1 q); [case_decide|]; eexists _, _; (split; [done|]); [done| |];
    (eapply room_same; [..|exact Hr1]); done.
Qed.

(** Asking for a key in a later store. *)
Definition gives_from s0 (get_memo : Get) k : Prop :=
  ∀ s, later s0 s → store_ok s → room s → gives (get_memo k s).

Lemma gives_later s0 s get_memo k : later s0 s → gives_from s0 get_memo k → gives_from s get_memo k.
Proof. intros Hl Hg s' Hl'. apply Hg. by eapply later_trans. Qed.

Lemma run_comp_total (get_memo : Get) implied c tr v : reads_ok compute_of w get_memo →
  follows w c tr v → (∀ i, EvInput i ∈ tr → i ∈ UI) →
  ∀ s reads (recorded : gset I), store_ok s → room s → (∀ i, i ∈ recorded → RInput i ∈ reads) →
  (∀ k' v', EvMemo k' v' ∈ tr → eval k' v' ∧ gives_from s get_memo k') →
  (∀ i, RInput i ∈ reads → i ∈ UI) →
  ∃ s' v' reads', run_comp get_memo w implied c (reads, recorded) s = Ret (s', inr (v', reads')) ∧
    room s' ∧ ∀ i, RInput i ∈ reads' → i ∈ UI.
Proof.
  intros Hget. induction 1 as [v|i next tr v Hf IH|k v0 next tr v Hf IH];
    intros HI s reads recorded Hs Hr Hrec Hm Hin; cbn [run_comp].
  - by exists s, v, reads.
  - pose proof (record_input_spec implied reads recorded i Hrec) as Hri.
    destruct (record_input implied (reads, recorded) i) as [reads1 recorded1].
    destruct Hri as (Hr1 & _ & Hrec1). apply IH; try done.
    + intros; apply HI; by right.
    + intros; apply Hm; by right.
    + intros i' Hi'. destruct Hr1 as [->| ->]; [by apply Hin|].
      apply elem_of_app in Hi' as [?|Hi']; [by apply Hin|]. apply list_elem_of_singleton in Hi' as [= ->].
      apply HI. by left.
  - destruct (Hm k v0) as [Hev Hg]; [by left|].
    destruct (Hg s (later_refl s) Hs Hr) as (s1 & a & Hrun & Hr1). rewrite Hrun. cbn [mbind outcome_bind].
    destruct (Hget k s s1 _ Hs Hrun) as (Hs1 & Hl1 & Ha). destruct (Ha a eq_refl) as [Hk Hc].
    destruct (clean_at_eval compute_of w s1 k _ _ _ Hs1 Hk Hc) as [Hev1 _].
    rewrite (eval_det _ _ _ _ Hev _ Hev1). cbn [fst snd]. apply IH; try done.
    + intros; apply HI; by right.
    + intros i Hi. apply elem_of_app. left. auto.
    + intros k' v' Hx. destruct (Hm k' v') as [? ?]; [by right|]. split; [done|]. by eapply gives_later.
    + intros i [?|Hx]%elem_of_app; [auto|]. by apply list_elem_of_singleton in Hx.
Qed.

(** A computation whose children are answered. *)
Section computation.
Context (get_memo : list QueryId → Get) (k : K) (tr : list (Event (I := I) (K := K) (V := V))) (v : V).
Context (Hget : ∀ frames, reads_ok compute_of w (get_memo frames)).
Context (Hk : k ∈ UK) (Hf : follows w (compute_of k) tr v).
Context (Hsub : ∀ k' v', EvMemo k' v' ∈ tr → eval k' v').

Lemma compute_total frames q s : store_ok s → room s → q ∉ frames →
  (∀ k' v', EvMemo k' v' ∈ tr → gives_from s (get_memo (q :: frames)) k') →
  ∃ s' v' reads', compute compute_of implied_of get_memo w frames q k s = Ret (s', inr (v', reads')) ∧
    room s' ∧ ∀ i, RInput i ∈ reads' → i ∈ UI.
Proof.
  intros Hs Hr Hq Hg. unfold compute. rewrite decide_False by done.
  eapply run_comp_total; [apply Hget|exact Hf| |done|done|by intros i ?%elem_of_empty| |
    by intros i ?%elem_of_nil].
  - intros i Hi. by eapply (wi_input Hwithin).
  - intros k' v' Hin. split; [by apply Hsub|by eapply Hg].
Qed.

Lemma recompute_total frames q s : store_ok s → room s → q ∉ frames →
  td_ids (st_table s) !! k = Some q →
  (∀ k' v', EvMemo k' v' ∈ tr → gives_from s (get_memo (q :: frames)) k') →
  gives (recompute table_of input_hash compute_of implied_of get_memo w frames q k s).
Proof.
  intros Hs Hr Hq Hkq Hg. unfold recompute.
  destruct (compute_total frames q s Hs Hr Hq Hg) as (s1 & v1 & reads & Hrun & Hr1 & Hin). rewrite Hrun.
  cbn [mbind outcome_bind].
  destruct (compute_ok compute_of implied_of w get_memo frames q k s s1 _ Hget Hs Hrun) as (Hs1 & Hl1 & _).
  destruct (install_total s1 q k v1 reads Hr1) as (s2 & a & Hi & Hr2);
    [by eapply lookup_weaken, Hl1|done|done|]. rewrite Hi. cbn [mbind outcome_bind]. by exists s2, a.
Qed.

Lemma verify_reuse_total frames q e s : store_ok s → room s → q ∉ frames →
  td_ids (st_table s) !! k = Some q → st_entry s q = Some e → en_state e = Clean →
  (∀ k' v', EvMemo k' v' ∈ tr → gives_from s (get_memo (q :: frames)) k') →
  gives (verify_reuse table_of input_hash compute_of implied_of get_memo w frames q k (en_value e)
    (en_changed_at e) s).
Proof.
  intros Hs Hr Hq Hkq He Hcl Hg. unfold verify_reuse. rewrite He.
  destruct (touch_ok compute_of w s q e (entry_checked e (st_revision s)) Hs He) as [Hs1 Hl1]; [done|].
  set (s1 := set_entry s q (entry_checked e (st_revision s))) in *.
  assert (room s1) as Hr1 by (eapply room_same; [..|exact Hr]; done).
  case_match; [by eexists _, _|].
  destruct (compute_total frames q s1 Hs1 Hr1 Hq) as (s2 & v2 & reads & Hrun & Hr2 & Hin).
  { intros. by eapply gives_later, Hg. }
  rewrite Hrun. cbn [mbind outcome_bind].
  destruct (compute_ok compute_of implied_of w get_memo frames q k s1 s2 _ Hget Hs1 Hrun) as (_ & _ & Hran).
  rewrite decide_True; [by eexists _, _|].
  assert (clean_at s q (en_value e) (en_changed_at e)) as Hca by (by exists e).
  destruct (clean_at_eval _ _ _ _ _ _ _ Hs Hkq Hca) as [Hev _].
  eapply eval_det; [exact Hev|]. by apply (Hran v2 reads eq_refl).
Qed.

(** Verification asks only for keys the computation needs. *)
Lemma reads_unchanged_total frames q e s : store_ok s → room s →
  td_ids (st_table s) !! k = Some q → st_entry s q = Some e → en_state e = MaybeDirty →
  (∀ k' v', EvMemo k' v' ∈ tr → gives_from s (get_memo (q :: frames)) k') →
  gives (reads_unchanged get_memo frames q s).
Proof.
  intros Hs Hr Hkq He Hm Hg. unfold reads_unchanged.
  destruct (gr_node (st_graph s) q) as [n|] eqn:Hn; [|by eexists _, _].
  destruct (old_trace compute_of w s q k e Hs Hkq He Hm) as (tr0 & rds & Hrec & Hqd & Hf0 & Htc & _ & Hold).
  assert (nd_reads n = rds) as ->. { unfold recorded in Hrec. rewrite Hqd, Hn in Hrec. by injection Hrec. }
  assert (Forall (known s) rds) as Hkn by (by eapply so_reads).
  assert (∀ r2 r1 s1, rds = r1 ++ r2 → later s s1 → store_ok s1 → room s1 →
    (∀ q' rev, (q', rev) ∈ r1 → rev ≠ input_read → ∃ v0, clean_at s1 q' v0 rev) →
    gives (check_reads (get_memo (q :: frames))
      ((λ '(read, fingerprint), (read, fingerprint, nd_kind <$> gr_node (st_graph s) read)) <$> r2) s1))
    as Hloop; [|by apply (Hloop rds [] s); try done; [apply later_refl|intros ?? ?%elem_of_nil]].
  induction r2 as [|[q' rev] r2 IH]; intros r1 s1 Heq Hl Hs1 Hr1 Hdone; cbn [fmap list_fmap check_reads].
  { by exists s1, true. }
  assert (∀ s2, later s1 s2 → store_ok s2 → room s2 → (rev ≠ input_read → ∃ v0, clean_at s2 q' v0 rev) →
    gives (check_reads (get_memo (q :: frames))
      ((λ '(read, fingerprint), (read, fingerprint, nd_kind <$> gr_node (st_graph s) read)) <$> r2) s2))
    as Hnext.
  { intros s2 Hl2 Hs2 Hr2 Hc2. apply (IH (r1 ++ [(q', rev)])); try done.
    - by rewrite <- (assoc_L (++)).
    - by eapply later_trans.
    - intros q0 rev0 [Hin|Hin]%elem_of_app Hne.
      + destruct (Hdone q0 rev0 Hin Hne) as [v0 Hc]. exists v0. by eapply clean_at_later.
      + apply list_elem_of_singleton in Hin as [= -> ->]. by apply Hc2. }
  destruct (gr_node (st_graph s) q') as [n'|] eqn:Hn'; cbn [fmap option_fmap option_map];
    [|by exists s1, false].
  pose proof (so_nodes _ _ _ Hs q' n' Hn') as Hkind.
  assert ((q', rev) ∈ rds) as Hin by (rewrite Heq; apply elem_of_app; right; by left).
  rewrite Forall_forall in Hkn. specialize (Hkn _ Hin). unfold known in Hkn. simpl in Hkn.
  destruct (nd_kind n') as [i|tb] eqn:Hnk.
  { apply Hnext; [apply later_refl|done|done|]. intros Hne. rewrite decide_False in Hkn by done.
    destruct Hkn as [e' He']. destruct (so_entries _ _ _ Hs q' e' He') as [(k' & Hk' & _) _ _].
    destruct (io_input _ (so_ids _ _ _ Hs) i q' Hkind). congruence. }
  destruct Hkind as [e' He']. destruct (so_entries _ _ _ Hs q' e' He') as [(k' & Hk' & _) _ _].
  assert (rev ≠ input_read) as Hne.
  { intros ->. rewrite decide_True in Hkn by done. destruct Hkn as [i Hi].
    destruct (io_input _ (so_ids _ _ _ Hs) i q' Hi). congruence. }
  clear Hkn. pose proof Hk' as Hkq'%(io_bij _ (so_ids _ _ _ Hs)).
  assert (∃ b, EvMemo k' b ∈ tr) as [b Hb].
  { destruct (tc_order _ _ _ Htc r1 q' rev r2 Heq Hne) as (t1 & k0 & v0 & t2 & Ht & Hk0 & Hsub0).
    assert (k0 = k') as -> by (apply (io_bij _ (so_ids _ _ _ Hs)) in Hk0; congruence).
    eapply (follows_prefix w _ _ _ Hf0 _ _ Hf t1 k' v0 t2 Ht). intros k2 x y Hx Hy.
    destruct (Hsub0 k2 x Hx) as (q2 & rev2 & Hq2 & Hin2 & Hne2).
    destruct (Hdone q2 rev2 Hin2 Hne2) as [v2 Hc2].
    assert (v2 = x) as ->.
    { eapply (Hold s1 k2 x q2 rev2); [done| |done| |done|done].
      - rewrite Ht. apply elem_of_app. by left.
      - rewrite Heq. apply elem_of_app. by left. }
    destruct (clean_at_eval compute_of w s1 k2 q2 x rev2 Hs1) as [Hev _];
      [by eapply lookup_weaken, Hl|done|].
    eapply eval_det; [by eapply Hsub|done]. }
  destruct (if st_verify_reused s1 then (s1, None) else clean_changed_at s1 q') as [s2 clean] eqn:Hcl.
  assert (store_ok s2 ∧ later s1 s2 ∧ room s2 ∧ ∀ r, clean = Some r → ∃ v, clean_at s2 q' v r)
    as (Hs2 & Hl2 & Hr2 & Hc2).
  { destruct (st_verify_reused s1).
    { injection Hcl as <- <-. split; [done|]. split; [apply later_refl|]. done. }
    destruct (clean_changed_at_ok compute_of w s1 q' s2 clean Hs1 Hcl) as (H1 & H2 & H3).
    split; [done|]. split; [done|]. split.
    - unfold clean_changed_at in Hcl. destruct (st_entry s1 q'); [case_decide|];
        injection Hcl as <- _; done.
    - intros r Hrr. destruct (H3 r Hrr) as (e0 & ? & ? & ?). by exists (en_value e0), e0. }
  destruct clean as [r|]; cbn [mbind outcome_bind].
  - case_decide as Hd; [|by exists s2, false]. injection Hd as ->. apply Hnext; auto.
  - unfold ensure. destruct (lt_entries _ _ Hl q' e' He') as (e1 & He1 & _).
    destruct (lt_entries _ _ Hl2 q' e1 He1) as (e2 & He2 & _). rewrite He2.
    assert (later s s2) as Hl02 by (by eapply later_trans).
    assert (td_keys (st_table s2) !! q' = Some k') as ->.
    { apply (io_bij _ (so_ids _ _ _ Hs2)). by eapply lookup_weaken, Hl02. }
    destruct (Hg k' b Hb s2 Hl02 Hs2 Hr2) as (s3 & a & Hrun & Hr3). rewrite Hrun. cbn [mbind outcome_bind].
    destruct (Hget (q :: frames) k' s2 s3 _ Hs2 Hrun) as (Hs3 & Hl3 & Ha).
    destruct (Ha a eq_refl) as [Hka Hca].
    assert (an_query a = q') as Hqa.
    { eapply lookup_weaken in Hkq'; [|apply (lt_ids _ _ Hl02)].
      eapply lookup_weaken in Hkq'; [|apply (lt_ids _ _ Hl3)]. congruence. }
    case_decide as Hd; [|by exists s3, false]. injection Hd as <-. apply Hnext; [|done|done|].
    + by eapply later_trans.
    + intros _. exists (an_value a). by rewrite <- Hqa.
Qed.

End computation.

(** ** [get] *)

(** Every frame's key needs the one asked for. *)
Definition framed s frames k : Prop :=
  ∀ q, q ∈ frames → ∃ kf, td_ids (st_table s) !! kf = Some q ∧ tc needs kf k.

Lemma framed_later s s' frames k : later s s' → framed s frames k → framed s' frames k.
Proof.
  intros Hl Hf q Hq. destruct (Hf q Hq) as (kf & Hk & ?). exists kf.
  split; [eapply lookup_weaken; [exact Hk|apply Hl]|done].
Qed.

Lemma framed_free s frames k q v : store_ok s → framed s frames k → eval k v →
  td_ids (st_table s) !! k = Some q → q ∉ frames.
Proof.
  intros Hs Hf Hev Hk Hq. destruct (Hf q Hq) as (kf & Hkf & Htc).
  apply (io_bij _ (so_ids _ _ _ Hs)) in Hk, Hkf. assert (kf = k) as -> by congruence.
  by eapply needs_irrefl.
Qed.

Lemma framed_push s frames k k' q : framed s frames k → td_ids (st_table s) !! k = Some q →
  needs k k' → framed s (q :: frames) k'.
Proof.
  intros Hf Hk Hn q' [->|Hq]%elem_of_cons; [exists k; split; [done|by apply tc_once]|].
  destruct (Hf q' Hq) as (kf & ? & ?). exists kf. split; [done|]. by eapply tc_r.
Qed.

(** Enough fuel for [k], whatever the store holds. *)
Definition enough k n : Prop := ∀ fuel frames s, n ≤ fuel → store_ok s → room s → framed s frames k →
  gives (get fuel w frames k s).

(** One fuel for all of a trace's keys. *)
Lemma enough_all tr : (∀ k' v', EvMemo k' v' ∈ tr → ∃ n, enough k' n) →
  ∃ n, ∀ k' v', EvMemo k' v' ∈ tr → enough k' n.
Proof.
  induction tr as [|[i|k v] tr IH]; intros Hex.
  - exists 0. by intros k' v' ?%elem_of_nil.
  - destruct IH as [n Hn]; [intros; eapply Hex; by right|]. exists n.
    intros k' v' [?|?]%elem_of_cons; [done|by eapply Hn].
  - destruct IH as [n Hn]; [intros; eapply Hex; by right|]. destruct (Hex k v) as [m Hm]; [by left|].
    exists (n + m). intros k' v' [[= -> ->]|Hin]%elem_of_cons fuel frames s Hf; [apply Hm; lia|].
    eapply Hn; [exact Hin|lia].
Qed.

Lemma look_room s q s' found : look s q = (s', found) → room s → room s'.
Proof. unfold look. destruct (st_entry s q); intros [= <- _]; done. Qed.

Section turn.
Context (k : K) (tr : list (Event (I := I) (K := K) (V := V))) (v : V) (n : nat) (Hk : k ∈ UK) (Hf : follows w (compute_of k) tr v).
Context (Hsub : ∀ k' v', EvMemo k' v' ∈ tr → eval k' v').
Context (Hn : ∀ k' v', EvMemo k' v' ∈ tr → enough k' n).

Lemma turn_children fuel frames q s k' v' : n ≤ fuel → framed s frames k →
  td_ids (st_table s) !! k = Some q → EvMemo k' v' ∈ tr → gives_from s (get fuel w (q :: frames)) k'.
Proof.
  intros Hfuel Hfr Hq Hin s' Hl Hs' Hr'. eapply Hn; [exact Hin|done|done|done|].
  eapply framed_later; [exact Hl|]. eapply framed_push; [done|done|]. by exists tr, v, v'.
Qed.

(** A turn that does not verify. *)
Lemma turn_total fuel frames s : n ≤ fuel → store_ok s → room s → framed s frames k →
  (∀ q e, td_ids (st_table s) !! k = Some q → st_entry s q = Some e → en_state e ≠ MaybeDirty) →
  gives (get (S fuel) w frames k s).
Proof.
  intros Hfuel Hs Hr Hfr Hnm. cbn [Memo.get].
  destruct (query_of_total s k Hr Hk) as (s0 & q & Hq & Hr0). rewrite Hq. cbn [mbind outcome_bind].
  destruct (query_of_ok key_hash compute_of w s k s0 q Hs Hq) as (Hs0 & Hl0 & Hk0 & He0 & _).
  destruct (look s0 q) as [s1 found] eqn:Hlook.
  destruct (look_ok compute_of w s0 q s1 found Hs0 Hlook) as (Hs1 & Hl1 & -> & Hfound).
  pose proof (look_room _ _ _ _ Hlook Hr0) as Hr1.
  assert (td_ids (st_table s1) !! k = Some q) as Hk1 by (by eapply lookup_weaken, Hl1).
  assert (framed s1 frames k) as Hfr1 by (eapply framed_later; [|exact Hfr]; by eapply later_trans).
  assert (eval k v) as Hev by (by eapply eval_intro).
  assert (q ∉ frames) as Hqf by (by eapply framed_free).
  assert (∀ k' v', EvMemo k' v' ∈ tr → gives_from s1 (get fuel w (q :: frames)) k') as Hg
    by (intros; by eapply turn_children).
  pose proof (get_reads_ok table_of key_hash input_hash compute_of implied_of w fuel) as Hget.
  destruct (st_entry s0 q) as [e0|] eqn:He; [|by eapply recompute_total].
  destruct (Hfound e0 eq_refl) as (e & Hee & Ev & Es & Ec & Ep).
  destruct (en_state e0) eqn:Hst; [| |by eapply recompute_total].
  - case_match; [|by eexists _, _]. rewrite <- Ev, <- Ec. by eapply verify_reuse_total.
  - exfalso. rewrite He0 in He. destruct (td_ids (st_table s) !! k) as [q'|] eqn:Hk'.
    + assert (q' = q) as -> by (eapply lookup_weaken in Hk'; [|apply Hl0]; congruence).
      by eapply Hnm.
    + destruct (so_entries _ _ _ Hs q e0 He) as [(k' & Hkk & _) _ _].
      pose proof Hkk as Hkk'%(io_bij _ (so_ids _ _ _ Hs)).
      eapply lookup_weaken in Hkk'; [|apply (lt_ids _ _ Hl0)].
      apply (io_bij _ (so_ids _ _ _ Hs0)) in Hk0, Hkk'. assert (k' = k) as -> by congruence.
      apply (io_bij _ (so_ids _ _ _ Hs)) in Hkk. congruence.
Qed.

Lemma lowered_not_maybe s q e :
  st_entry (match st_entry s q with
            | Some entry => if decide (en_state entry = MaybeDirty)
                            then set_entry s q (entry_state entry Clean) else s
            | None => s
            end) q = Some e → en_state e ≠ MaybeDirty.
Proof.
  destruct (st_entry s q) as [e0|] eqn:He; [|congruence]. case_decide as Hm; [|congruence].
  rewrite st_entry_set, decide_True by done. by intros [= <-].
Qed.

Lemma lowered_room s q : room s →
  room (match st_entry s q with
        | Some entry => if decide (en_state entry = MaybeDirty)
                        then set_entry s q (entry_state entry Clean) else s
        | None => s
        end).
Proof. intros Hr. destruct (st_entry s q); [|done]. by case_decide. Qed.

Lemma turns_total : enough k (S (S n)).
Proof.
  intros [|[|fuel]] frames s Hfuel Hs Hr Hfr; [lia..|].
  destruct (td_ids (st_table s) !! k) as [q|] eqn:Hkq.
  2: { apply turn_total; [lia|done..|]. congruence. }
  destruct (st_entry s q) as [e|] eqn:He.
  2: { apply turn_total; [lia|done..|]. congruence. }
  destruct (decide (en_state e = MaybeDirty)) as [Hm|Hm].
  2: { apply turn_total; [lia|done..|]. congruence. }
  assert (eval k v) as Hev by (by eapply eval_intro).
  pose proof (get_reads_ok table_of key_hash input_hash compute_of implied_of w (S fuel)) as Hget.
  set (fuel1 := S fuel) in *. cbn [Memo.get].
  unfold query_of. rewrite Hkq. cbn [mbind outcome_bind]. unfold look. rewrite He, Hm.
  destruct (touch_ok compute_of w s q e (entry_used e (st_revision s)) Hs He) as [Hs1 Hl1]; [done|].
  set (s1 := set_entry s q (entry_used e (st_revision s))) in *.
  assert (room s1) as Hr1 by done. assert (td_ids (st_table s1) !! k = Some q) as Hk1 by done.
  assert (framed s1 frames k) as Hfr1 by (by eapply framed_later).
  assert (q ∉ frames) as Hqf by (by eapply framed_free).
  assert (st_entry s1 q = Some (entry_used e (st_revision s))) as He1
    by (unfold s1; by rewrite st_entry_set, decide_True).
  assert (n ≤ fuel1) as Hn1 by (unfold fuel1; lia).
  rewrite decide_False by done.
  destruct (reads_unchanged_total (get fuel1 w) k tr v Hget Hf Hsub frames q _ s1 Hs1 Hr1 Hk1 He1 Hm)
    as (s2 & unchanged & Hrun & Hr2). { intros. by eapply turn_children. }
  rewrite Hrun. cbn [mbind outcome_bind].
  destruct (reads_unchanged_ok _ _ (get fuel1 w) frames q k _ s1 s2 _ Hget Hs1 Hk1 He1 Hm Hrun)
    as (Hs2 & Hl2 & Hcomp).
  assert (td_ids (st_table s2) !! k = Some q) as Hk2 by (by eapply lookup_weaken, Hl2).
  assert (framed s2 frames k) as Hfr2 by (by eapply framed_later).
  destruct unchanged.
  - destruct (Hcomp eq_refl) as (rds & Hrec & Hc).
    destruct (verified_ok compute_of w s1 s2 q k _ rds Hs1 Hl2 Hs2 Hk1 He1 Hm Hrec Hc) as [Hs3 Hl3].
    apply turn_total; [lia|done|by apply lowered_room|by eapply framed_later|].
    intros q' e' Hq' He'. assert (q' = q) as ->.
    { eapply lookup_weaken in Hk1; [|apply (lt_ids _ _ Hl3)]. congruence. }
    by eapply lowered_not_maybe.
  - eapply recompute_total; try done. intros. by eapply turn_children.
Qed.

End turn.

Lemma get_total k v : eval k v → k ∈ UK → ∃ n, enough k n.
Proof.
  induction 1 as [k v tr Hf Hsub IH]. intros Hk.
  destruct (enough_all tr) as [n Hn].
  { intros k' v' Hin. eapply IH; [exact Hin|]. eapply (wi_memo Hwithin); [exact Hk|]. by exists tr, v, v'. }
  exists (S (S n)). by eapply turns_total.
Qed.

End total.
