(* ===== verification/MemoTheorems.v ===== *)
(** * What a memo store promises

    The theorems on the store over every history of builds, with a small
    schema they are tried on. *)
From S2P Require Import Prelude Order MemoGraph MemoGraphSpec Memo MemoSpec MemoAnswer MemoBuild MemoSweep MemoTotal.

(** ** A schema of three keys

    Key 0 reads an input, key 1 its parity, key 2 the parity and another
    input; two further keys ask for each other. *)
Definition ex_compute (k : nat) : Comp nat nat nat nat :=
  match k with
  | 0 => ReadInput 0 Done
  | 1 => ReadMemo 0 (λ y, Done (y mod 2))
  | 2 => ReadMemo 1 (λ y, ReadInput 1 (λ x, Done (y + x)))
  | 3 => ReadMemo 4 Done
  | _ => ReadMemo 3 Done
  end.

Definition ex_world (a : nat) : nat → nat := λ i, if decide (i = 0) then a else 10.

Definition ex_answer (fuel a k : nat) (s : Store nat nat nat) :=
  answer_read (λ _, 0%N) (λ _, 0%N) (λ _, 0%N) ex_compute (λ _, []) (λ _, 7) fuel (ex_world a) k s.

Definition ex_store {B} (o : Outcome (Store nat nat nat * B)) : Store nat nat nat :=
  match o with Ret (s, _) => s | _ => store_new false end.

(** Two builds: every key asked for, and the next build with input 0 odd. *)
Definition ex_first : Store nat nat nat := ex_store (begin_build (store_new false) []).
Definition ex_asked : Store nat nat nat := ex_store (ex_answer 10 4 2 ex_first).
Definition ex_next : Store nat nat nat := ex_store (begin_build ex_asked [0]).

Section theorems.
Context {I A K V : Type} `{Countable I, Countable K, EqDecision V}.
Context (table_of : K → N) (key_hash : K → N) (input_hash : I → N).
Context (input_cmp : I → I → comparison).
Context (compute_of : K → Comp I A K V) (implied_of : K → list I) (on_cycle : K → V).
Implicit Types (s : Store I K V) (q : QueryId) (k : K) (v : V) (e : Entry V) (w : I → A).

Local Abbreviation store_ok := (store_ok compute_of) (only parsing).
Local Abbreviation eval := (eval compute_of) (only parsing).
Local Abbreviation answer_read :=
  (answer_read table_of key_hash input_hash compute_of implied_of on_cycle) (only parsing).
Local Abbreviation changed_at :=
  (changed_at table_of key_hash input_hash compute_of implied_of) (only parsing).

(** Builds over changing inputs: each begins with the inputs that changed,
    answers any keys, and may end. *)
Inductive history : (I → A) → Store I K V → Prop :=
  | history_new w verify_reused : history w (store_new verify_reused)
  | history_begin w w' s changed s' invalidation :
      history w s → (st_revision s + 1 < 2 ^ 32)%N → (∀ i, i ∉ changed → w' i = w i) →
      begin_build s changed = Ret (s', invalidation) → history w' s'
  | history_answer w s fuel k s' answer :
      history w s → answer_read fuel w k s = Ret (s', answer) → history w s'
  | history_changed_at w s fuel q s' revision :
      history w s → changed_at fuel w q s = Ret (s', revision) → history w s'
  | history_end w s s' released :
      history w s → end_build input_cmp s = Ret (s', released) → history w s'.

Lemma set_poisoned_ok w s b : store_ok w s → store_ok w (set_poisoned s b).
Proof.
  intros [Hids Hent H3 H4 H5 H6 H7 H8 H9 H10 H11 H12]. split; try done.
  - by destruct Hids.
  - intros q e He. destruct (Hent q e He) as [(k & Hk & Htr & Hev) Hch Hst].
    split; [|done|done]. exists k. split; [done|]. split; [|done]. intros Hd.
    destruct (Htr Hd) as (tr & rds & Hrec & Hf & [T1 T2 T3] & Hrest). by exists tr, rds.
Qed.

Lemma answer_read_ok w s fuel k s' v read :
  store_ok w s → answer_read fuel w k s = Ret (s', (v, read)) →
  store_ok w s' ∧ st_revision s' = st_revision s ∧
  match read with
  | Some (q, rev) => eval w k v ∧ (rev ≤ st_revision s)%N ∧ st_poisoned s' = st_poisoned s
  | None => v = on_cycle k ∧ st_poisoned s' = true
  end.
Proof.
  intros Hs. unfold Memo.answer_read.
  destruct (get _ _ _ _ _ fuel w [] k s) as [| |[s1 answer]] eqn:Hg; [done..|].
  cbn [mbind outcome_bind].
  destruct (get_reads_ok _ _ _ _ _ w fuel [] k s s1 answer Hs Hg) as (Hs1 & Hl & Ha).
  pose proof (lt_revision _ _ Hl) as Hrev.
  destruct answer as [cycle|a]; intros [= <- <- <-].
  - split; [by apply set_poisoned_ok|done].
  - destruct (Ha a eq_refl) as [Hk Hc].
    destruct (clean_at_eval compute_of w s1 k _ _ _ Hs1 Hk Hc) as [Hev Hle].
    split; [done|]. split; [done|]. split; [done|]. split; [by rewrite <- Hrev|apply Hl].
Qed.

Lemma changed_at_ok w s fuel q s' revision :
  store_ok w s → changed_at fuel w q s = Ret (s', revision) → store_ok w s'.
Proof.
  intros Hs. unfold Memo.changed_at.
  destruct (if st_verify_reused s then (s, None) else clean_changed_at s q) as [s1 clean] eqn:Hcl.
  assert (store_ok w s1) as Hs1.
  { destruct (st_verify_reused s); [by injection Hcl as <- _|].
    by apply (clean_changed_at_ok compute_of w s q s1 clean Hs Hcl). }
  destruct clean as [r|]; [by intros [= <- _]|].
  destruct (ensure _ s1 q) as [| |[s2 current]] eqn:He; [done..|]. cbn [mbind outcome_bind].
  intros [= <- _]. eapply ensure_ok; [|exact Hs1|exact He]. apply get_reads_ok.
Qed.

Lemma history_ok w s : history w s → store_ok w s.
Proof.
  induction 1 as [w verify|w w' s changed s' iv _ IH Hb Hw Hrun|w s fuel k s' [v read] _ IH Hrun
    |w s fuel q s' r _ IH Hrun|w s s' released _ IH Hrun].
  - by apply empty_ok.
  - destruct (begin_ok compute_of w w' s changed IH Hb Hw) as (s2 & iv2 & Hrun2 & Hs2 & _). congruence.
  - by eapply answer_read_ok.
  - by eapply changed_at_ok.
  - destruct (end_ok input_cmp compute_of w s IH) as (s2 & rel2 & Hrun2 & Hs2 & _). congruence.
Qed.

(** C3: whatever builds led to the store, an answer is the from-scratch one.
    Reused, verified or recomputed, in either mode, [answer_read] gives the
    value the key's computation evaluates to in today's inputs, last changed
    in a revision that has been, and does not poison the store; otherwise it
    met a cycle, answers [on_cycle], and poisons it. *)
Theorem memo_answers_from_scratch w s fuel k s' v read :
  history w s → answer_read fuel w k s = Ret (s', (v, read)) →
  match read with
  | Some (q, rev) => eval w k v ∧ (rev ≤ st_revision s)%N ∧ st_poisoned s' = st_poisoned s
  | None => v = on_cycle k ∧ st_poisoned s' = true
  end.
Proof. intros Hh%history_ok Hrun. by eapply answer_read_ok. Qed.

(** C20: a key that evaluates is answered. When the key's evaluation from
    scratch ends and ids remain for the keys and inputs it can touch,
    [answer_read] ends with its value, whatever the store remembers of
    earlier builds: verifying what it remembers neither runs away, nor meets
    a cycle, nor runs out of ids. *)
Theorem memo_answers_every_key w s k v (UK : gset K) (UI : gset I) :
  history w s → within compute_of implied_of w UK UI → k ∈ UK → room UK UI s → eval w k v →
  ∃ n, ∀ fuel, n ≤ fuel → ∃ s' q rev, answer_read fuel w k s = Ret (s', (v, Some (q, rev))).
Proof.
  intros Hs%history_ok Hw Hk Hr Hev.
  destruct (get_total table_of key_hash input_hash compute_of implied_of w UK UI Hw k v Hev Hk) as [n Hn].
  exists n. intros fuel Hfuel. destruct (Hn fuel [] s Hfuel Hs Hr) as (s' & a & Hrun & _).
  { by intros q ?%elem_of_nil. }
  unfold Memo.answer_read. rewrite Hrun. cbn [mbind outcome_bind].
  destruct (get_reads_ok _ _ _ _ _ w fuel [] k s s' _ Hs Hrun) as (Hs' & _ & Ha).
  destruct (Ha a eq_refl) as [Hka Hca].
  destruct (clean_at_eval compute_of w s' k _ _ _ Hs' Hka Hca) as [Hev' _].
  rewrite (eval_det _ _ _ _ Hev _ Hev'). by eexists _, _, _.
Qed.

(** C21: [begin] invalidates exactly what the change reaches. It never
    panics; of a store that is to be trusted it keeps every entry's answer,
    and marks dirty those recorded to have read a changed input, maybe-dirty
    those that only read such an entry in turn, and no other; a poisoned
    store it empties. *)
Theorem begin_marks_reached w s changed :
  history w s → (st_revision s + 1 < 2 ^ 32)%N →
  ∃ s' invalidation, begin_build s changed = Ret (s', invalidation) ∧
    if st_poisoned s then ∀ q, st_entry s' q = None
    else ∀ q e, st_entry s q = Some e → ∃ state, st_entry s' q = Some (entry_state e state) ∧
      (reads_changed s changed q → state = Dirty) ∧
      (touched s changed q → ¬ reads_changed s changed q → state = state_max (en_state e) MaybeDirty) ∧
      (¬ touched s changed q → state = en_state e).
Proof.
  intros Hs%history_ok Hb. unfold begin_build. destruct (st_poisoned s).
  - assert (store_ok w (clear (set_poisoned s false))) as Hs0 by (apply empty_ok, Hs).
    rewrite mark_revision.
    destruct (mark_spec compute_of w _ changed Hs0) as (s1 & t' & D & M & -> & _ & Hrg & Hr & _).
    cbn [mbind outcome_bind]. eexists _, _. split; [done|]. intros q. unfold st_entry. simpl.
    rewrite (rs_entries _ _ _ _ Hr), (rg_table _ _ Hrg). done.
  - rewrite mark_revision.
    destruct (mark_spec compute_of w s changed Hs) as (s1 & t' & D & M & -> & _ & Hrg & Hr & _ & HD & HM).
    cbn [mbind outcome_bind]. eexists _, _. split; [done|]. intros q e He.
    exists (mark_of D M q (en_state e)). split; [|split; [|split]].
    + unfold st_entry. simpl. rewrite (rs_entries _ _ _ _ Hr), (rg_table _ _ Hrg).
      unfold st_entry in He. by rewrite He.
    + intros Hq%HD. by apply mark_of_dirty.
    + intros Ht%HM Hno. assert (q ∉ D) as HqD by (by rewrite HD). unfold mark_of.
      rewrite (decide_False (P := q ∈ D)), (decide_True (P := q ∈ M)) by (done || set_solver).
      by destruct (en_state e).
    + intros Hno. apply mark_of_untouched. by rewrite HM.
Qed.

(** C34: [end] keeps exactly what the build is worth. It never panics, keeps,
    unchanged, exactly the entries the build used and those they are recorded
    to have read, in turn, leaves no entry's record naming a memo or an input
    that is gone, and answers exactly the inputs it released, each once
    interned and now not. *)
Theorem end_keeps_used w s :
  history w s →
  ∃ s' released, end_build input_cmp s = Ret (s', released) ∧
    (∀ q e, st_entry s' q = Some e ↔ st_entry s q = Some e ∧ kept s (used_now s) q) ∧
    (∀ q rds, recorded s' q = Some rds → Forall (known s') rds) ∧
    (∀ i, i ∈ released ↔ is_Some (in_ids (st_inputs s) !! i) ∧ in_ids (st_inputs s') !! i = None).
Proof.
  intros Hs%history_ok.
  destruct (end_ok input_cmp compute_of w s Hs) as (s' & released & Hrun & Hs' & _ & _ & _ & _ & Hent & Hrel).
  exists s', released. split; [done|]. split; [done|]. split; [apply Hs'|done].
Qed.

End theorems.

(** ** At the example *)

Lemma ex_first_history :
  history (λ _, 0%N) (λ _, 0%N) (λ _, 0%N) Nat.compare ex_compute (λ _, []) (λ _, 7) (ex_world 4) ex_first.
Proof.
  refine (history_begin _ _ _ _ _ _ _ _ _ _ [] _ _ (history_new _ _ _ _ _ _ _ (ex_world 4) false) _ _ _).
  - vm_compute. reflexivity.
  - done.
  - vm_compute. reflexivity.
Defined.

Lemma ex_asked_history :
  history (λ _, 0%N) (λ _, 0%N) (λ _, 0%N) Nat.compare ex_compute (λ _, []) (λ _, 7) (ex_world 4) ex_asked.
Proof.
  refine (history_answer _ _ _ _ _ _ _ _ _ 10 2 _ _ ex_first_history _).
  vm_compute. reflexivity.
Defined.

Lemma ex_next_history :
  history (λ _, 0%N) (λ _, 0%N) (λ _, 0%N) Nat.compare ex_compute (λ _, []) (λ _, 7) (ex_world 6) ex_next.
Proof.
  refine (history_begin _ _ _ _ _ _ _ _ _ _ [0] _ _ ex_asked_history _ _ _).
  - vm_compute. reflexivity.
  - intros i Hi. unfold ex_world. rewrite decide_False; [|by intros ->; apply Hi; left].
    by rewrite decide_False; [|by intros ->; apply Hi; left].
  - vm_compute. reflexivity.
Defined.

(** The second build reuses key 1's parity: key 2 is verified, not computed. *)
Lemma memo_answers_from_scratch_witness :
  ∃ s q rev, ex_answer 10 6 2 ex_next = Ret (s, (10, Some (q, rev))) ∧
    eval ex_compute (ex_world 6) 2 10 ∧ (rev ≤ st_revision ex_next)%N ∧
    st_poisoned s = st_poisoned ex_next.
Proof.
  eexists _, _, _. split; [vm_compute; reflexivity|].
  refine (memo_answers_from_scratch _ _ _ _ _ _ _ (ex_world 6) ex_next 10 2 _ 10 (Some (_, _))
    ex_next_history _).
  vm_compute. reflexivity.
Defined.

(** A computation of the first three keys reads keys 0 and 1, inputs 0 and 1. *)
Lemma ex_reads a k tr v : k ≤ 2 → follows (ex_world a) (ex_compute k) tr v →
  (∀ k' v', EvMemo k' v' ∈ tr → k' ≤ 1) ∧ ∀ i, EvInput i ∈ tr → i ≤ 1.
Proof.
  intros Hk Hf. destruct k as [|[|[|k]]]; [..|lia]; simpl in Hf;
    repeat match goal with
           | Hf : follows _ _ _ _ |- _ => inversion Hf; clear Hf; subst
           end;
    (split; [intros k' v'|intros i]); rewrite !elem_of_cons; intros Hin;
    repeat match goal with Hin : _ ∨ _ |- _ => destruct Hin as [Hin|Hin] end;
    simplify_eq; try lia; by apply elem_of_nil in Hin.
Qed.

Lemma ex_within a : within ex_compute (λ _, []) (ex_world a) {[0; 1; 2]} {[0; 1]}.
Proof.
  split.
  - by intros k i _ ?%elem_of_nil.
  - intros k k' Hk (tr & v & v' & Hf & _ & Hin). assert (k ≤ 2) as Hle by set_solver.
    destruct (ex_reads a k tr v Hle Hf) as [Hm _]. pose proof (Hm k' v' Hin) as Hk'.
    destruct k' as [|[|k']]; [set_solver|set_solver|lia].
  - intros k tr v i Hk Hf _ Hin. assert (k ≤ 2) as Hle by set_solver.
    destruct (ex_reads a k tr v Hle Hf) as [_ Hi]. pose proof (Hi i Hin) as Hi'.
    destruct i as [|[|i]]; [set_solver|set_solver|lia].
Qed.

Lemma ex_eval a : eval ex_compute (ex_world a) 2 (a mod 2 + 10).
Proof.
  assert (eval ex_compute (ex_world a) 0 a) as H0.
  { apply (eval_intro _ _ _ _ [EvInput 0]); [by do 2 constructor|]. by intros k' v' ?%list_elem_of_singleton. }
  assert (eval ex_compute (ex_world a) 1 (a mod 2)) as H1.
  { apply (eval_intro _ _ _ _ [EvMemo 0 a]); [by do 2 constructor|].
    by intros k' v' [= -> ->]%list_elem_of_singleton. }
  apply (eval_intro _ _ _ _ [EvMemo 1 (a mod 2); EvInput 1]).
  - by do 3 constructor.
  - intros k' v' [[= -> ->]|Hx]%elem_of_cons; [done|]. by apply list_elem_of_singleton in Hx.
Qed.

Lemma memo_answers_every_key_witness :
  ∃ n, ∀ fuel, n ≤ fuel → ∃ s' q rev, ex_answer fuel 6 2 ex_next = Ret (s', (10, Some (q, rev))).
Proof.
  refine (memo_answers_every_key _ _ _ _ _ _ _ (ex_world 6) ex_next 2 10 {[0; 1; 2]} {[0; 1]}
    ex_next_history (ex_within 6) _ _ (ex_eval 6)).
  - set_solver.
  - vm_compute. done.
Defined.

(** The change reaches all three keys: key 0 reads it, the others in turn. *)
Lemma begin_marks_reached_witness :
  ((λ e, en_state e) <$> st_entry ex_next 32 = Some Dirty ∧
   (λ e, en_state e) <$> st_entry ex_next 16 = Some MaybeDirty ∧
   (λ e, en_state e) <$> st_entry ex_next 0 = Some MaybeDirty) ∧
  ∃ s' invalidation, begin_build ex_asked [0] = Ret (s', invalidation) ∧
    if st_poisoned ex_asked then ∀ q, st_entry s' q = None
    else ∀ q e, st_entry ex_asked q = Some e → ∃ state, st_entry s' q = Some (entry_state e state) ∧
      (reads_changed ex_asked [0] q → state = Dirty) ∧
      (touched ex_asked [0] q → ¬ reads_changed ex_asked [0] q →
        state = state_max (en_state e) MaybeDirty) ∧
      (¬ touched ex_asked [0] q → state = en_state e).
Proof.
  split; [vm_compute; done|].
  refine (begin_marks_reached _ _ _ _ _ _ _ (ex_world 4) ex_asked [0] ex_asked_history _).
  vm_compute. reflexivity.
Defined.

(** Nothing was asked for in the second build: everything is dropped. *)
Lemma end_keeps_used_witness :
  size (td_entries (st_table (ex_store (end_build Nat.compare ex_next)))) = 0 ∧
  ∃ s' released, end_build Nat.compare ex_next = Ret (s', released) ∧
    (∀ q e, st_entry s' q = Some e ↔ st_entry ex_next q = Some e ∧ kept ex_next (used_now ex_next) q) ∧
    (∀ q rds, recorded s' q = Some rds → Forall (known s') rds) ∧
    (∀ i, i ∈ released ↔
      is_Some (in_ids (st_inputs ex_next) !! i) ∧ in_ids (st_inputs s') !! i = None).
Proof.
  split; [vm_compute; done|].
  exact (end_keeps_used _ _ _ _ _ _ _ (ex_world 6) ex_next ex_next_history).
Defined.
