(* ===== verification/WireInt.v ===== *)
(** * The packed integers of the TypeFacts wire

    [typefacts/src/v3.rs] (the [PackedCursor] primitives and [push_uvarint])
    and the varints of [producer/compact.rs]: unsigned LEB128 with the
    shortest-form rule, zigzag integers, counts, booleans and raw runs; the
    error monad of a reader, and the relation [reads] every round trip is
    stated with.  A byte is an [N] below 256, a [u64] an [N] below [2^64], an
    [i64] a [Z]. *)
From stdpp Require Export gmap list strings.
From S2P Require Export Prelude.

Declare Scope wire_scope.
Delimit Scope wire_scope with wire.

(** ** Results *)

Inductive result (E A : Type) := Ok (a : A) | Err (e : E).
Arguments Ok {E A} _.
Arguments Err {E A} _.

#[global] Instance result_ret E : MRet (result E) := λ A a, Ok a.
#[global] Instance result_bind E : MBind (result E) := λ A B k m,
  match m with Ok a => k a | Err e => Err e end.

(** [Option::ok_or]. *)
Definition ok_or {E A} (e : E) (o : option A) : result E A :=
  match o with Some a => Ok a | None => Err e end.

(** ** Machine integers *)

Definition u64_limit : N := 18446744073709551616.
Definition is_u64 (n : N) : Prop := (n < u64_limit)%N.
Definition i64_limit : Z := 9223372036854775808.
Definition is_i64 (z : Z) : Prop := (- i64_limit ≤ z < i64_limit)%Z.

Definition checked_add (a b : N) : option N :=
  if (a + b <? u64_limit)%N then Some (a + b)%N else None.
Definition checked_sub (a b : N) : option N :=
  if (b <=? a)%N then Some (a - b)%N else None.
Definition u64_shl (a s : N) : N := (N.shiftl a s mod u64_limit)%N.
(** [as u64] and [as i64]. *)
Definition as_u64 (z : Z) : N := Z.to_N (z mod Z.of_N u64_limit).
Definition as_i64 (n : N) : Z :=
  if (Z.of_N n <? i64_limit)%Z then Z.of_N n else (Z.of_N n - Z.of_N u64_limit)%Z.
(** [usize::try_from] of a [u64], a 64-bit [usize]. *)
Definition usize_try_from (n : N) : option N :=
  if (n <? u64_limit)%N then Some n else None.
(** [u32::try_from] of a [u64]. *)
Definition u32_of_u64 (n : N) : option N :=
  if (n <? 4294967296)%N then Some n else None.

(** ** Varints *)

(** The loop of [push_uvarint]; the fuel is the value's bit length, and every
    round drops seven bits. *)
Fixpoint uvarint_loop (fuel : nat) (value : N) : list N :=
  match fuel with
  | 0 => []
  | S fuel =>
      if (128 <=? value)%N
      then N.lor (value mod 256) 128 :: uvarint_loop fuel (N.shiftr value 7)
      else [(value mod 256)%N]
  end.

Definition uvarint (value : N) : list N := uvarint_loop (S (N.size_nat value)) value.

Definition push_uvarint (output : list N) (value : N) : list N := output ++ uvarint value.

(** [RowWriter::signed]'s zigzag, and its inverse in [PackedCursor::signed]. *)
Definition zigzag (value : Z) : N := N.lxor (u64_shl (as_u64 value) 1) (as_u64 (Z.shiftr value 63)).
Definition unzigzag (value : N) : Z :=
  Z.lxor (as_i64 (N.shiftr value 1)) (- as_i64 (N.land value 1)).

(** ** Errors of the decoder

    One constructor per message of the source; the arguments are what the
    message prints.  [DecodePanic] is an index out of range or an
    [unreachable!], which no input reaches. *)
Inductive DecodeError :=
  | PackedTruncated
  | PackedIntegerOverflow
  | PackedNotShortest
  | PackedCountOverflow (label : string)
  | PackedCountExceeds (label : string) (count : N)
  | PackedBoolean (label : string) (value : N)
  | PackedRangeOverflow
  | StringIndexOverflow (label : string)
  | StringIndexRange (label : string) (index : N)
  | RepeatedPathMarker
  | LocationPathOverflow
  | LocationPathRange (path : N)
  | LocationEndOverflow
  | DeltaOverflow (label : string)
  | StringPrefixOverflow
  | StringPrefixExceeds
  | StringLengthOverflow
  | StringNotUtf8
  | StringUnknownTag (tag : N)
  | DigestLength
  | DigestInvalid
  | UnknownTag (what : string) (value : N)
  | UnknownFlags (what : string) (flags : N)
  | UnknownCallability (value table_schema : N)
  | TargetSetEmpty
  | TargetWithoutSymbol
  | ArgumentStatusReason
  | EntityEndOverflow
  | ConstantNaN
  | LiteralNotFinite
  | LiteralCount (count : N)
  | LiteralBoolean (value : N)
  | TupleOverflow (field : string)
  | EntityResolvedAndUnresolved
  | InvalidOperation (label : string) (value : N)
  | UnsupportedVersion (version : N)
  | UnsupportedMode (value : N)
  | UnsupportedSchema (table_schema : N)
  | TargetGenerationZero
  | DictionaryWithoutEmpty
  | DictionaryDuplicate
  | ProjectIdEmpty
  | FullWithBase
  | DeltaWithoutBase
  | TargetPrecedesBase
  | PathEmpty
  | PathsNotOrdered
  | PathUnchanged
  | FullRemoves
  | EntityReplacementEmpty
  | EntityReplacementOrder
  | SymbolTag
  | SymbolIdEmpty
  | FullSymbolOperation
  | ReferencesOrder
  | AliasWithReferences
  | ReferencePathEmpty
  | SymbolsNotOrdered
  | TrailingBytes
  | DecodePanic.

(** ** The cursor *)

Record PackedCursor := { input : list N; offset : nat }.

Definition reader (A : Type) : Type := PackedCursor → result DecodeError (A * PackedCursor).

#[global] Instance reader_ret : MRet reader := λ A a c, Ok (a, c).
#[global] Instance reader_bind : MBind reader := λ A B k m c,
  match m c with Ok (a, c') => k a c' | Err e => Err e end.

Definition fail {A} (e : DecodeError) : reader A := λ _, Err e.
Definition lift {A} (r : result DecodeError A) : reader A := λ c,
  match r with Ok a => Ok (a, c) | Err e => Err e end.

(** A counted [for] loop that collects what its body reads. *)
Fixpoint repeat_read {A} (n : nat) (m : reader A) : reader (list A) :=
  match n with
  | 0 => mret []
  | S n => a ← m; rest ← repeat_read n m; mret (a :: rest)
  end.

(** The same loop with a state carried from one round to the next. *)
Fixpoint repeat_state {S A} (n : nat) (m : S → reader (A * S)) (s : S) : reader (list A) :=
  match n with
  | 0 => mret []
  | Datatypes.S n => '(a, s') ← m s; rest ← repeat_state n m s'; mret (a :: rest)
  end.

Module Cursor.

Definition new (input : list N) : PackedCursor := {| input := input; offset := 0 |}.

Definition shifts : list N := [0; 7; 14; 21; 28; 35; 42; 49; 56; 63]%N.

Definition next_byte : reader N := λ c,
  match input c !! offset c with
  | Some byte => Ok (byte, {| input := input c; offset := S (offset c) |})
  | None => Err PackedTruncated
  end.

Fixpoint u64_loop (shifts : list N) (value : N) : reader N :=
  match shifts with
  | [] => fail PackedIntegerOverflow
  | shift :: shifts =>
      byte ← next_byte;
      if (shift =? 63)%N && (1 <? byte)%N then fail PackedIntegerOverflow
      else
        let value := N.lor value (u64_shl (N.land byte 127) shift) in
        if (N.land byte 128 =? 0)%N
        then if negb (shift =? 0)%N && (byte =? 0)%N then fail PackedNotShortest else mret value
        else u64_loop shifts value
  end.

Definition u64 : reader N := u64_loop shifts 0.

Definition signed : reader Z := value ← u64; mret (unzigzag value).

Definition packed_collection_limit : N := 1000000.

Definition count (label : string) : reader N :=
  value ← u64;
  count ← lift (ok_or (PackedCountOverflow label) (usize_try_from value));
  if (packed_collection_limit <? count)%N then fail (PackedCountExceeds label count) else mret count.

Definition boolean (label : string) : reader bool :=
  value ← u64;
  if (value =? 0)%N then mret false
  else if (value =? 1)%N then mret true
  else fail (PackedBoolean label value).

Definition raw (length : N) : reader (list N) := λ c,
  match checked_add (N.of_nat (offset c)) length with
  | None => Err PackedRangeOverflow
  | Some stop =>
      if (stop <=? N.of_nat (List.length (input c)))%N
      then Ok (take (N.to_nat length) (drop (offset c) (input c)),
               {| input := input c; offset := N.to_nat stop |})
      else Err PackedTruncated
  end.

End Cursor.

Definition add_signed (base : N) (delta : Z) (label : string) : result DecodeError N :=
  ok_or (DeltaOverflow label)
    (if (0 <=? delta)%Z then checked_add base (as_u64 delta)
     else checked_sub base (Z.abs_N delta)).
