(* ===== verification/WireIntSpec.v ===== *)
(** * Round trips of the packed integers

    [reads m bs a]: a cursor in front of [bs] reads [a] with [m] and stops
    after them, whatever precedes and follows.  The lemmas compose it along the
    reader monad; the integers, counts, booleans and raw runs have it for the
    bytes the writer emits, and a varint read back is its own shortest form. *)
From S2P Require Import WireInt.

(** ** Bits *)

Lemma lor_shiftl_add a b n : (a < 2 ^ n)%N → N.lor a (N.shiftl b n) = (a + b * 2 ^ n)%N.
Proof.
  intros Ha. assert (2 ^ n ≠ 0)%N as Hn by (apply N.pow_nonzero; lia).
  assert (Hmod : ((a + b * 2 ^ n) mod 2 ^ n = a)%N) by
    (rewrite N.Div0.mod_add; by apply N.mod_small).
  assert (Hdiv : ((a + b * 2 ^ n) / 2 ^ n = b)%N) by
    (rewrite N.div_add, N.div_small by done; lia).
  apply N.bits_inj. intros i. rewrite N.lor_spec.
  destruct (decide (i < n)%N) as [Hi|Hi].
  - rewrite N.shiftl_spec_low, orb_false_r by done.
    rewrite <-Hmod at 1. by apply N.mod_pow2_bits_low.
  - rewrite N.shiftl_spec_high' by lia.
    replace (N.testbit a i) with false.
    + rewrite <-Hdiv at 1. rewrite N.div_pow2_bits. simpl. f_equal. lia.
    + symmetry. rewrite <-(N.mod_small a (2 ^ n)) by done. apply N.mod_pow2_bits_high. lia.
Qed.

Lemma land_127 b : N.land b 127 = (b mod 128)%N.
Proof. change 127%N with (N.ones 7). by rewrite N.land_ones. Qed.

Lemma land_128 b : (b < 256)%N → (N.land b 128 =? 0)%N = (b <? 128)%N.
Proof.
  intros Hb. change 128%N with (2 ^ 7)%N at 1.
  assert (H : N.testbit b 7 = (128 <=? b)%N).
  { rewrite N.testbit_eqb. destruct (N.leb_spec 128 b).
    - replace (b / 2 ^ 7)%N with 1%N; [done|].
      apply (N.div_unique b (2 ^ 7) 1 (b - 128)); simpl; lia.
    - rewrite N.div_small by (simpl; lia). done. }
  destruct (N.ltb_spec b 128) as [Hlt|Hge].
  - apply N.eqb_eq. apply N.bits_inj. intros i. rewrite N.land_spec, N.pow2_bits_eqb, N.bits_0.
    destruct (N.eqb_spec 7 i) as [<-|]; [|by rewrite andb_false_r].
    rewrite H. destruct (N.leb_spec 128 b); [lia|done].
  - apply N.eqb_neq. intros E. apply (f_equal (λ x, N.testbit x 7)) in E.
    rewrite N.land_spec, N.pow2_bits_eqb, N.bits_0, H in E.
    destruct (N.leb_spec 128 b); [done|lia].
Qed.

Lemma lor_128 b : (b < 128)%N → N.lor b 128 = (128 + b)%N.
Proof.
  intros. change 128%N with (N.shiftl 1 7) at 1. rewrite lor_shiftl_add by (simpl; lia). simpl. lia.
Qed.

(** ** The varint writer *)

Lemma size_nat_shiftr n : (128 ≤ n)%N → (N.size_nat (N.shiftr n 7) < N.size_nat n)%nat.
Proof.
  intros Hn. assert (Hd : ∀ p, N.size_nat (N.div2 p) ≤ N.size_nat p).
  { intros [|[p|p|]]; simpl; lia. }
  assert (Hle : ∀ k p, N.size_nat (N.shiftr p (N.of_nat k)) ≤ N.size_nat p).
  { intros k. induction k as [|k IH]; intros p; [by rewrite N.shiftr_0_r|].
    rewrite Nat2N.inj_succ, N.shiftr_succ_r. etrans; [apply Hd|apply IH]. }
  replace (N.shiftr n 7) with (N.shiftr (N.div2 n) 6)
    by (by rewrite N.div2_spec, N.shiftr_shiftr).
  specialize (Hle 6 (N.div2 n)). change (N.of_nat 6) with 6%N in Hle.
  assert (N.size_nat (N.div2 n) < N.size_nat n); [|lia].
  destruct n as [|[p|p|]]; simpl; lia.
Qed.

Lemma uvarint_loop_fuel f f' v :
  (N.size_nat v < f)%nat → (N.size_nat v < f')%nat → uvarint_loop f v = uvarint_loop f' v.
Proof.
  revert f' v. induction f as [|f IH]; intros [|f'] v Hf Hf'; try lia. simpl.
  destruct (N.leb_spec 128 v) as [Hv|Hv]; [|done].
  pose proof (size_nat_shiftr v Hv). f_equal. apply IH; lia.
Qed.

(** The loop's equation: seven bits and a continuation bit per byte. *)
Lemma uvarint_unfold v :
  uvarint v = if (128 <=? v)%N then (128 + v mod 128)%N :: uvarint (v / 128) else [v].
Proof.
  unfold uvarint at 1. cbn [uvarint_loop]. destruct (N.leb_spec 128 v) as [Hv|Hv].
  - f_equal.
    + assert (Hm : N.lor (v mod 256) 128 = N.lor ((v mod 256) mod 128) 128).
      { apply N.bits_inj. intros i. rewrite !N.lor_spec. change 128%N with (2 ^ 7)%N.
        rewrite N.pow2_bits_eqb. destruct (N.eqb_spec 7 i) as [<-|Hi]; [by rewrite !orb_true_r|].
        rewrite !orb_false_r. destruct (decide (i < 7)%N).
        - by rewrite (N.mod_pow2_bits_low (v mod 256) 7).
        - rewrite (N.mod_pow2_bits_high (v mod 256) 7) by lia.
          change 256%N with (2 ^ 8)%N. apply N.mod_pow2_bits_high. lia. }
      rewrite Hm, lor_128 by (apply N.mod_lt; lia). f_equal.
      change 256%N with (128 * 2)%N. rewrite N.Div0.mod_mul_r.
      rewrite N.Div0.add_mod, (N.mul_comm 128), N.Div0.mod_mul, N.add_0_r, !N.Div0.mod_mod. done.
    + pose proof (size_nat_shiftr v Hv) as Hs.
      rewrite N.shiftr_div_pow2 in *. change (2 ^ 7)%N with 128%N in *.
      apply uvarint_loop_fuel; lia.
  - f_equal. apply N.mod_small. lia.
Qed.

Lemma uvarint_nonempty v : uvarint v ≠ [].
Proof. rewrite uvarint_unfold. by case_match. Qed.

Lemma uvarint_bytes v : Forall (λ b, b < 256)%N (uvarint v).
Proof.
  induction v as [v IH] using (well_founded_induction N.lt_wf_0). rewrite uvarint_unfold.
  destruct (N.leb_spec 128 v); constructor; try constructor; try lia.
  - pose proof (N.mod_lt v 128). lia.
  - apply IH. apply N.div_lt; lia.
Qed.

(** A varint of [k] bytes holds [7 k] bits. *)
Lemma uvarint_length k v : (v < 128 ^ N.of_nat (S k))%N → (length (uvarint v) ≤ S k)%nat.
Proof.
  revert v. induction k as [|k IH]; intros v Hv; rewrite uvarint_unfold.
  - destruct (N.leb_spec 128 v); simpl in *; lia.
  - destruct (N.leb_spec 128 v); simpl; [|lia]. apply le_n_S, IH.
    apply N.Div0.div_lt_upper_bound. rewrite <-N.pow_succ_r', <-Nat2N.inj_succ. done.
Qed.

Lemma uvarint_u64_length v : is_u64 v → (length (uvarint v) ≤ 10)%nat.
Proof. intros Hv. apply (uvarint_length 9). unfold is_u64, u64_limit in Hv. simpl. lia. Qed.

(** ** Reading back *)

Definition cursor_at (pre rest : list N) : PackedCursor :=
  {| input := pre ++ rest; offset := length pre |}.

Definition fits (bs : list N) : Prop := is_u64 (N.of_nat (length bs)).

Definition reads {A} (m : reader A) (bs : list N) (a : A) : Prop :=
  ∀ pre post, fits (pre ++ bs ++ post) →
    m (cursor_at pre (bs ++ post)) = Ok (a, cursor_at (pre ++ bs) post).

Lemma reads_ret {A} (a : A) : reads (mret a) [] a.
Proof. intros pre post _. by rewrite app_nil_r. Qed.

Lemma reads_bind {A B} (m : reader A) (k : A → reader B) bs1 bs2 a b :
  reads m bs1 a → reads (k a) bs2 b → reads (m ≫= k) (bs1 ++ bs2) b.
Proof.
  intros Hm Hk pre post Hfit. rewrite <-!app_assoc in Hfit |- *.
  unfold mbind, reader_bind. rewrite Hm by done.
  rewrite Hk by (by rewrite <-!app_assoc). by rewrite <-!app_assoc.
Qed.

(** The last step that consumes bytes. *)
Lemma reads_last {A B} (m : reader A) (k : A → reader B) bs a b :
  reads m bs a → reads (k a) [] b → reads (m ≫= k) bs b.
Proof. intros Hm Hk. rewrite <-(app_nil_r bs). by eapply reads_bind. Qed.

(** A step that consumes nothing. *)
Lemma reads_lift {A B} (r : result DecodeError A) (k : A → reader B) bs a b :
  r = Ok a → reads (k a) bs b → reads (lift r ≫= k) bs b.
Proof.
  intros -> Hk. apply (reads_bind _ _ [] bs a b); [|done].
  intros pre post _. by rewrite app_nil_r.
Qed.

Lemma reads_map {A B} (m : reader A) (f : A → B) bs a :
  reads m bs a → reads (x ← m; mret (f x)) bs (f a).
Proof. intros Hm. rewrite <-(app_nil_r bs). eapply reads_bind; [done|apply reads_ret]. Qed.

Lemma reads_repeat {A} (m : reader A) (l : list A) (enc : A → list N) :
  (∀ a, a ∈ l → reads m (enc a) a) → reads (repeat_read (length l) m) (concat (enc <$> l)) l.
Proof.
  induction l as [|a l IH]; intros Hl; simpl; [apply reads_ret|].
  eapply reads_bind; [apply Hl; by left|].
  rewrite <-(app_nil_r (concat _)). eapply reads_bind; [apply IH; intros; apply Hl; by right|].
  apply reads_ret.
Qed.

Lemma next_byte_reads b : reads Cursor.next_byte [b] b.
Proof.
  intros pre post _. unfold Cursor.next_byte, cursor_at; cbn [input offset].
  rewrite lookup_app_r, Nat.sub_diag by lia. simpl. rewrite length_app, <-app_assoc; simpl.
  do 3 f_equal. lia.
Qed.

Lemma u64_loop_reads k v acc :
  (k < 10)%nat → (acc < 2 ^ (7 * N.of_nat k))%N →
  (acc + v * 2 ^ (7 * N.of_nat k) < u64_limit)%N → (k ≠ 0 → v ≠ 0%N) →
  reads (Cursor.u64_loop (drop k Cursor.shifts) acc) (uvarint v)
    (acc + v * 2 ^ (7 * N.of_nat k))%N.
Proof.
  revert k acc. induction v as [v IH] using (well_founded_induction N.lt_wf_0).
  intros k acc Hk Hacc Hv Hne.
  assert (Hdrop : drop k Cursor.shifts = (7 * N.of_nat k)%N :: drop (S k) Cursor.shifts)
    by (do 10 (destruct k as [|k]; [done|]); lia).
  assert (Hpow : (0 < 2 ^ (7 * N.of_nat k))%N) by (apply N.neq_0_lt_0, N.pow_nonzero; lia).
  assert (Hshl : ∀ x, (x ≤ v)%N →
    N.lor acc (u64_shl x (7 * N.of_nat k)) = (acc + x * 2 ^ (7 * N.of_nat k))%N).
  { intros x Hx. unfold u64_shl. rewrite N.mod_small; [by apply lor_shiftl_add|].
    rewrite N.shiftl_mul_pow2. nia. }
  assert (H63 : ∀ b, ((b < 128 ∧ b ≤ v) ∨ 128 ≤ v)%N → (7 * N.of_nat k =? 63)%N = true →
    (1 < v)%N → False).
  { intros b _ E%N.eqb_eq Hb. rewrite E in Hv. unfold u64_limit in Hv. simpl in Hv. lia. }
  rewrite Hdrop, uvarint_unfold. cbn [Cursor.u64_loop].
  destruct (N.leb_spec 128 v) as [Hge|Hlt].
  - apply (reads_bind _ _ [_] (uvarint (v / 128)) _ _ (next_byte_reads _)).
    pose proof (N.mod_lt v 128 ltac:(done)) as Hmod.
    destruct ((7 * N.of_nat k =? 63)%N) eqn:E; [exfalso; eapply (H63 0%N); [by right|done|lia]|].
    cbv beta zeta. rewrite andb_false_l, land_127, land_128 by lia.
    replace (128 + v mod 128 <? 128)%N with false by (symmetry; apply N.ltb_ge, N.le_add_r).
    replace ((128 + v mod 128) mod 128)%N with (v mod 128)%N.
    2:{ replace (128 + v mod 128)%N with (v mod 128 + 1 * 128)%N by lia.
        by rewrite N.Div0.mod_add, N.Div0.mod_mod. }
    rewrite Hshl by (apply N.Div0.mod_le).
    pose proof (N.div_mod v 128 ltac:(done)) as Hdm.
    assert (Hp : (2 ^ (7 * N.of_nat (S k)) = 128 * 2 ^ (7 * N.of_nat k))%N).
    { rewrite Nat2N.inj_succ, <-N.add_1_r, N.mul_add_distr_l, N.pow_add_r. simpl. lia. }
    assert (Hk9 : (k < 9)%nat).
    { destruct (decide (k = 9)) as [->|]; [|lia]. apply N.eqb_neq in E. lia. }
    replace (acc + v * 2 ^ (7 * N.of_nat k))%N with
      (acc + v mod 128 * 2 ^ (7 * N.of_nat k) + v / 128 * 2 ^ (7 * N.of_nat (S k)))%N
      by (rewrite Hp; nia).
    apply IH; rewrite ?Hp; try nia. apply N.div_lt; lia.
  - rewrite <-(app_nil_r [v]). apply (reads_bind _ _ [v] [] _ _ (next_byte_reads _)).
    cbv beta zeta. replace ((7 * N.of_nat k =? 63)%N && (1 <? v)%N) with false.
    2:{ symmetry. apply andb_false_iff. destruct (7 * N.of_nat k =? 63)%N eqn:E; [right|by left].
        apply N.ltb_ge. destruct (decide (1 < v)%N); [|lia]. exfalso. eapply (H63 v); [left; lia|done|done]. }
    rewrite land_127, land_128, N.mod_small, Hshl by lia.
    replace (v <? 128)%N with true by (symmetry; by apply N.ltb_lt).
    replace (negb (7 * N.of_nat k =? 0)%N && (v =? 0)%N) with false; [apply reads_ret|].
    symmetry. apply andb_false_iff. destruct (decide (k = 0)) as [->|]; [by left|right].
    apply N.eqb_neq. auto.
Qed.

Lemma u64_reads v : is_u64 v → reads Cursor.u64 (uvarint v) v.
Proof.
  intros Hv. replace v with (0 + v * 2 ^ (7 * N.of_nat 0))%N at 2 by (simpl; lia).
  unfold is_u64 in Hv. apply (u64_loop_reads 0); simpl; unfold u64_limit in *; lia.
Qed.

(** ** The reader accepts only shortest forms *)

Lemma uvarint_cons b x :
  (128 ≤ b < 256)%N → x ≠ 0%N → uvarint (b mod 128 + x * 128) = b :: uvarint x.
Proof.
  intros Hb Hx. rewrite uvarint_unfold. assert (b mod 128 = b - 128)%N as Hm.
  { symmetry. apply (N.mod_unique _ _ 1); lia. }
  rewrite Hm. replace (128 <=? b - 128 + x * 128)%N with true by (symmetry; apply N.leb_le; lia).
  rewrite N.Div0.mod_add, N.div_add, N.mod_small, N.div_small by lia.
  rewrite N.add_0_l. f_equal. lia.
Qed.

Lemma u64_loop_canonical j k acc c v c' :
  (k + j = 10)%nat → (acc < 2 ^ (7 * N.of_nat k))%N → Forall (λ b, b < 256)%N (input c) →
  Cursor.u64_loop (drop k Cursor.shifts) acc c = Ok (v, c') →
  ∃ x, input c' = input c ∧
    drop (offset c) (input c) = uvarint x ++ drop (offset c') (input c) ∧
    offset c' = (offset c + length (uvarint x))%nat ∧
    (v = acc + x * 2 ^ (7 * N.of_nat k))%N ∧ is_u64 v ∧ (k ≠ 0 → x ≠ 0%N).
Proof.
  revert k acc c. induction j as [|j IH]; intros k acc c Hk Hacc Hb.
  { by replace k with 10%nat by lia. }
  assert (Hdrop : drop k Cursor.shifts = (7 * N.of_nat k)%N :: drop (S k) Cursor.shifts)
    by (do 10 (destruct k as [|k]; [done|]); lia).
  rewrite Hdrop. cbn [Cursor.u64_loop]. unfold mbind, reader_bind, Cursor.next_byte.
  destruct (input c !! offset c) as [b|] eqn:Hl; [|done].
  assert (Hb256 : (b < 256)%N) by exact (Forall_lookup_1 _ _ _ _ Hb Hl).
  destruct ((7 * N.of_nat k =? 63)%N && (1 <? b)%N) eqn:Eo; [done|]. cbv zeta.
  assert (Hpow : (2 ^ (7 * N.of_nat k) ≤ 2 ^ 63)%N) by (apply N.pow_le_mono_r; lia).
  assert (H9 : (k < 9)%nat ∨ (b ≤ 1)%N).
  { apply andb_false_iff in Eo as [Eo%N.eqb_neq|Eo%N.ltb_ge]; [left; lia|by right]. }
  assert (Hsmall : (b mod 128 * 2 ^ (7 * N.of_nat k) + acc < u64_limit)%N).
  { pose proof (N.mod_lt b 128 ltac:(done)). unfold u64_limit. destruct H9 as [H9|H9].
    - assert (2 ^ (7 * N.of_nat k) ≤ 2 ^ 56)%N by (apply N.pow_le_mono_r; lia).
      change (2 ^ 56)%N with 72057594037927936%N in *. nia.
    - rewrite N.mod_small by lia. change (2 ^ 63)%N with 9223372036854775808%N in *. nia. }
  rewrite land_127, land_128 by done. unfold u64_shl.
  rewrite (N.mod_small (N.shiftl _ _)) by (rewrite N.shiftl_mul_pow2; lia).
  rewrite lor_shiftl_add by done.
  assert (Hdr : drop (offset c) (input c) = b :: drop (S (offset c)) (input c))
    by by apply drop_S.
  destruct (N.ltb_spec b 128) as [Hlt|Hge].
  - destruct (negb _ && _) eqn:En; [done|]. intros [= <- <-]. exists b. cbn [input offset].
    rewrite (uvarint_unfold b). replace (128 <=? b)%N with false by (symmetry; by apply N.leb_gt).
    rewrite N.mod_small in * by done. repeat split; try done.
    + simpl. lia.
    + unfold is_u64. lia.
    + intros Hk0 ->. apply andb_false_iff in En as [En|En]; [|done].
      apply negb_false_iff, N.eqb_eq in En. lia.
  - intros Hread. assert (Hp : (2 ^ (7 * N.of_nat (S k)) = 128 * 2 ^ (7 * N.of_nat k))%N).
    { rewrite Nat2N.inj_succ, <-N.add_1_r, N.mul_add_distr_l, N.pow_add_r. simpl. lia. }
    apply IH in Hread as (x & Hin & Hdrop' & Hoff & -> & Hu & Hx); cbn [input offset] in *; try done.
    2:{ lia. } 2:{ rewrite Hp. pose proof (N.mod_lt b 128 ltac:(done)). nia. }
    exists (b mod 128 + x * 128)%N. rewrite uvarint_cons by (try lia; auto).
    repeat split; try done.
    + rewrite Hdr, Hdrop'. done.
    + simpl. lia.
    + rewrite Hp. lia.
    + specialize (Hx ltac:(done)). intros _ [_ E]%N.eq_add_0. lia.
Qed.

(** What [u64] reads is the shortest form of its value, and nothing else. *)
Lemma u64_canonical c v c' :
  Forall (λ b, b < 256)%N (input c) → Cursor.u64 c = Ok (v, c') →
  is_u64 v ∧ input c' = input c ∧ offset c' = (offset c + length (uvarint v))%nat ∧
  drop (offset c) (input c) = uvarint v ++ drop (offset c') (input c).
Proof.
  intros Hb Hr. apply (u64_loop_canonical 10 0) in Hr as (x & ? & ? & ? & -> & ? & _);
    [|lia|simpl; lia|done].
  change (2 ^ (7 * N.of_nat 0))%N with 1%N in *. by rewrite N.mul_1_r, N.add_0_l in *.
Qed.

(** ** Zigzag *)

Lemma i64_to_u64 z : (0 ≤ z)%Z → is_i64 z → as_u64 z = Z.to_N z.
Proof.
  unfold is_i64, i64_limit, as_u64, u64_limit. intros. rewrite Z.mod_small by lia. done.
Qed.

Lemma zigzag_nonneg z : (0 ≤ z)%Z → is_i64 z → zigzag z = (2 * Z.to_N z)%N.
Proof.
  intros Hz Hi. unfold zigzag. rewrite i64_to_u64 by done.
  replace (Z.shiftr z 63) with 0%Z.
  2:{ rewrite Z.shiftr_div_pow2 by lia. unfold is_i64, i64_limit in Hi.
      change (2 ^ 63)%Z with 9223372036854775808%Z. rewrite Z.div_small; lia. }
  change (as_u64 0) with 0%N. rewrite N.lxor_0_r. unfold u64_shl.
  rewrite N.shiftl_mul_pow2, N.mod_small.
  - change (2 ^ 1)%N with 2%N. lia.
  - change (2 ^ 1)%N with 2%N. unfold is_i64, i64_limit, u64_limit in *. lia.
Qed.

Lemma zigzag_neg z : (z < 0)%Z → is_i64 z → zigzag z = Z.to_N (-2 * z - 1).
Proof.
  intros Hz Hi. unfold is_i64, i64_limit in Hi. unfold zigzag.
  replace (Z.shiftr z 63) with (-1)%Z.
  2:{ rewrite Z.shiftr_div_pow2 by lia. change (2 ^ 63)%Z with 9223372036854775808%Z.
      apply (Z.div_unique _ _ _ (z + 9223372036854775808)); lia. }
  assert (H1 : as_u64 z = Z.to_N (z + 18446744073709551616)).
  { unfold as_u64, u64_limit. f_equal. symmetry. apply (Z.mod_unique _ _ (-1)); lia. }
  assert (H2 : u64_shl (as_u64 z) 1 = Z.to_N (2 * z + 18446744073709551616)).
  { rewrite H1. unfold u64_shl, u64_limit. rewrite N.shiftl_mul_pow2. change (2 ^ 1)%N with 2%N.
    symmetry. apply (N.mod_unique _ _ 1); lia. }
  rewrite H2. change (as_u64 (-1)) with (N.ones 64).
  set (x := Z.to_N (2 * z + 18446744073709551616)).
  assert (Hx : (x < 2 ^ 64)%N) by (unfold x; change (2 ^ 64)%N with 18446744073709551616%N; lia).
  change (N.lxor x (N.ones 64)) with (N.lnot x 64).
  assert (Hadd : (x + N.lnot x 64 = N.ones 64)%N).
  { destruct (N.eq_dec x 0%N) as [->|]; [done|].
    apply N.add_lnot_diag_low, N.log2_lt_pow2; lia. }
  change (N.ones 64) with 18446744073709551615%N in Hadd. unfold x in *. lia.
Qed.

Lemma zigzag_u64 z : is_i64 z → is_u64 (zigzag z).
Proof.
  intros Hz. unfold is_u64, u64_limit. destruct (Z.ltb_spec z 0).
  - rewrite zigzag_neg by done. unfold is_i64, i64_limit in Hz. lia.
  - rewrite zigzag_nonneg by done. unfold is_i64, i64_limit in Hz. lia.
Qed.

Lemma unzigzag_zigzag z : is_i64 z → unzigzag (zigzag z) = z.
Proof.
  intros Hz. unfold unzigzag. rewrite N.shiftr_div_pow2. change (2 ^ 1)%N with 2%N.
  change 1%N with (N.ones 1). rewrite N.land_ones. change (2 ^ 1)%N with 2%N.
  assert (Hi : is_i64 z) by done. unfold is_i64, i64_limit in Hi. destruct (Z.ltb_spec z 0).
  - rewrite zigzag_neg by done.
    replace (Z.to_N (-2 * z - 1) mod 2)%N with 1%N by (apply (N.mod_unique _ _ (Z.to_N (- z - 1))); lia).
    replace (Z.to_N (-2 * z - 1) / 2)%N with (Z.to_N (- z - 1)) by (apply (N.div_unique _ _ _ 1); lia).
    unfold as_i64 at 1. replace (Z.of_N (Z.to_N (- z - 1)) <? i64_limit)%Z with true
      by (symmetry; apply Z.ltb_lt; unfold i64_limit; lia).
    change (- as_i64 1)%Z with (-1)%Z. rewrite Z.lxor_m1_r. unfold Z.lnot. lia.
  - rewrite zigzag_nonneg by done. rewrite (N.mul_comm 2), N.Div0.mod_mul, N.div_mul by done.
    change (- as_i64 0)%Z with 0%Z. rewrite Z.lxor_0_r. unfold as_i64.
    replace (Z.of_N (Z.to_N z) <? i64_limit)%Z with true
      by (symmetry; apply Z.ltb_lt; unfold i64_limit; lia). lia.
Qed.

(** ** The other primitives *)

Lemma signed_reads z : is_i64 z → reads Cursor.signed (uvarint (zigzag z)) z.
Proof.
  intros Hz. rewrite <-(unzigzag_zigzag z) at 2 by done.
  apply (reads_map _ unzigzag). by apply u64_reads, zigzag_u64.
Qed.

Lemma count_reads label n : (n ≤ Cursor.packed_collection_limit)%N →
  reads (Cursor.count label) (uvarint n) n.
Proof.
  intros Hn. assert (is_u64 n) by (unfold is_u64, u64_limit, Cursor.packed_collection_limit in *; lia).
  rewrite <-(app_nil_r (uvarint n)). eapply reads_bind; [by apply u64_reads|].
  eapply (reads_lift _ _ _ n).
  - unfold usize_try_from. by replace (n <? u64_limit)%N with true by (symmetry; by apply N.ltb_lt).
  - replace (_ <? n)%N with false by (symmetry; by apply N.ltb_ge). apply reads_ret.
Qed.

Lemma boolean_reads label (b : bool) : reads (Cursor.boolean label) (uvarint (if b then 1 else 0)%N) b.
Proof.
  rewrite <-(app_nil_r (uvarint (if b then 1 else 0)%N)).
  eapply reads_bind; [by apply u64_reads; destruct b|]. destruct b; simpl; apply reads_ret.
Qed.

Lemma raw_reads bs : reads (Cursor.raw (N.of_nat (length bs))) bs bs.
Proof.
  intros pre post Hfit. unfold fits, is_u64 in Hfit. rewrite !length_app in Hfit.
  unfold Cursor.raw, cursor_at; cbn [input offset]. unfold checked_add.
  replace (_ <? u64_limit)%N with true by (symmetry; apply N.ltb_lt; lia).
  replace (_ <=? _)%N with true by (symmetry; apply N.leb_le; rewrite !length_app; lia).
  rewrite Nat2N.id, drop_app_length, take_app_length, <-app_assoc. do 3 f_equal.
  rewrite length_app. lia.
Qed.

Lemma add_signed_delta base z label n :
  is_u64 base → is_u64 n → is_i64 z → (Z.of_N base + z = Z.of_N n)%Z →
  add_signed base z label = Ok n.
Proof.
  intros Hb Hn Hz E. unfold add_signed, is_u64, u64_limit in *.
  destruct (Z.leb_spec 0 z).
  - rewrite i64_to_u64 by done. unfold checked_add.
    replace (_ <? _)%N with true by (symmetry; apply N.ltb_lt; unfold u64_limit; lia).
    simpl. f_equal. lia.
  - unfold checked_sub. replace (_ <=? _)%N with true by (symmetry; apply N.leb_le; lia).
    simpl. f_equal. lia.
Qed.

Create HintDb wire.
#[export] Hint Resolve u64_reads signed_reads count_reads boolean_reads raw_reads reads_ret
  zigzag_u64 : wire.
