(* ===== verification/WireStr.v ===== *)
(** * Strings of the TypeFacts wire

    A Rust [str] is its bytes together with the proof that they are UTF-8, so
    a string the reader accepts is one the type admits.  The file has the
    standard library's UTF-8 check, the bytewise order of strings, the
    hexadecimal digits the packed forms use and [SourceHash] of
    [typefacts/src/lib.rs]. *)
From Stdlib Require Ascii String.
From S2P Require Export WireInt.

(** ** UTF-8 *)

Definition utf8_cont (b : N) : bool := (128 <=? b)%N && (b <=? 191)%N.
Definition between (lo b hi : N) : bool := (lo <=? b)%N && (b <=? hi)%N.

(** [core::str::from_utf8]'s check: the well-formed byte sequences of the
    Unicode standard. *)
Fixpoint utf8_valid (bs : list N) : bool :=
  match bs with
  | [] => true
  | b :: r =>
      if (b <? 128)%N then utf8_valid r
      else if between 194 b 223 then
        match r with c1 :: r => utf8_cont c1 && utf8_valid r | _ => false end
      else if between 224 b 239 then
        match r with
        | c1 :: c2 :: r =>
            (if (b =? 224)%N then between 160 c1 191
             else if (b =? 237)%N then between 128 c1 159 else utf8_cont c1) &&
            utf8_cont c2 && utf8_valid r
        | _ => false
        end
      else if between 240 b 244 then
        match r with
        | c1 :: c2 :: c3 :: r =>
            (if (b =? 240)%N then between 144 c1 191
             else if (b =? 244)%N then between 128 c1 143 else utf8_cont c1) &&
            utf8_cont c2 && utf8_cont c3 && utf8_valid r
        | _ => false
        end
      else false
  end.

Record str := Str { str_bytes : list N; str_utf8 : Is_true (utf8_valid str_bytes) }.

(** [std::str::from_utf8]. *)
Definition from_utf8 (bytes : list N) : option str :=
  (match utf8_valid bytes as ok return ((Is_true ok → str) → option str) with
   | true => λ k, Some (k I)
   | false => λ _, None
   end) (Str bytes).

Definition empty_str : str := Str [] I.
Definition is_empty (s : str) : bool := match str_bytes s with [] => true | _ => false end.

(** A string pushed together from ASCII characters. *)
Definition ascii_str (bytes : list N) : str := default empty_str (from_utf8 bytes).

(** A string literal. *)
Definition lit (s : string) : str := ascii_str (Ascii.N_of_ascii <$> String.list_ascii_of_string s).

Lemma str_eq (s t : str) : str_bytes s = str_bytes t → s = t.
Proof. destruct s as [b p], t as [b' q]; simpl. intros ->. f_equal. apply proof_irrel. Qed.

Lemma from_utf8_str (s : str) : from_utf8 (str_bytes s) = Some s.
Proof.
  destruct s as [b p]; simpl. unfold from_utf8. revert p.
  generalize (Str b). destruct (utf8_valid b); [|done]. intros k p. do 2 f_equal. by destruct p.
Qed.

Lemma from_utf8_Some bytes s : from_utf8 bytes = Some s → str_bytes s = bytes.
Proof.
  unfold from_utf8. assert (Hk : ∀ p, str_bytes (Str bytes p) = bytes) by done.
  revert Hk. generalize (Str bytes). destruct (utf8_valid bytes); [|done].
  intros k Hk [= <-]. apply Hk.
Qed.

#[global] Instance str_eq_dec : EqDecision str.
Proof.
  refine (λ s t, cast_if (decide (str_bytes s = str_bytes t))); [by apply str_eq|congruence].
Defined.

#[global] Instance str_countable : Countable str := inj_countable str_bytes from_utf8 from_utf8_str.

Definition str_eqb (s t : str) : bool := bool_decide (s = t).

(** ** Order *)

(** [Ord] of [str]: bytewise. *)
Fixpoint bytes_cmp (x y : list N) : comparison :=
  match x, y with
  | [], [] => Eq
  | [], _ :: _ => Lt
  | _ :: _, [] => Gt
  | a :: x, b :: y => match N.compare a b with Eq => bytes_cmp x y | c => c end
  end.

Definition str_cmp (s t : str) : comparison := bytes_cmp (str_bytes s) (str_bytes t).
Definition str_ltb (s t : str) : bool := match str_cmp s t with Lt => true | _ => false end.
Definition str_leb (s t : str) : bool := match str_cmp s t with Gt => false | _ => true end.

(** [Vec::dedup]: equal neighbours collapse. *)
Fixpoint dedup (l : list str) : list str :=
  match l with
  | [] => []
  | x :: l =>
      match dedup l with
      | y :: l => if str_eqb x y then y :: l else x :: y :: l
      | [] => [x]
      end
  end.

Definition is_nil {A} (l : list A) : bool := match l with [] => true | _ => false end.

(** ** Hexadecimal *)

(** The [HEX] tables: a nibble's digit. *)
Definition hex_digit (n : N) : N := if (n <? 10)%N then (48 + n)%N else (87 + n)%N.

Definition hex_of (raw : list N) : list N :=
  raw ≫= λ byte, [hex_digit (N.shiftr byte 4); hex_digit (N.land byte 15)].

Definition hex_value (digit : N) : option N :=
  if between 48 digit 57 then Some (digit - 48)%N
  else if between 97 digit 102 then Some (digit - 97 + 10)%N
  else if between 65 digit 70 then Some (digit - 65 + 10)%N
  else None.

(** [as_chunks::<2>().0]. *)
Fixpoint chunks2 (l : list N) : list (N * N) :=
  match l with a :: b :: l => (a, b) :: chunks2 l | _ => [] end.

(** [str::strip_prefix], on the bytes. *)
Fixpoint strip_prefix (p s : list N) : option (list N) :=
  match p, s with
  | [], _ => Some s
  | a :: p, b :: s => if (a =? b)%N then strip_prefix p s else None
  | _ :: _, [] => None
  end.

(** ** Source hashes *)

Definition sha256_prefix : list N := str_bytes (lit "sha256:").

Record SourceHash := { as_str : str }.

#[global] Instance SourceHash_eq_dec : EqDecision SourceHash.
Proof. solve_decision. Defined.

(** [is_ascii_hexdigit] and not [is_ascii_uppercase]. *)
Definition lower_hex_digit (b : N) : bool := between 48 b 57 || between 97 b 102.

Definition source_hash_parse (value : str) : option SourceHash :=
  digest ← strip_prefix sha256_prefix (str_bytes value);
  if negb (length digest =? 64) || negb (forallb lower_hex_digit digest)
  then None else Some {| as_str := value |}.

Definition raw_digest (bytes : list N) : result DecodeError SourceHash :=
  if negb (length bytes =? 32) then Err DigestLength
  else ok_or DigestInvalid (source_hash_parse (ascii_str (sha256_prefix ++ hex_of bytes))).
