(* ===== verification/WireFacts.v ===== *)
(** * Fact rows

    The rows a table carries, from [typefacts/src/lib.rs]: locations,
    declarations, resolved calls, entities, symbols and file facts, with the
    compact value types (value domains, tuple shapes) in their bit form.  Shared
    pointers are their contents.  A float is its 64 bits. *)
From S2P Require Export WireStr.

(** ** Floats *)

Record f64 := { to_bits : N }.
Definition f64_zero : f64 := {| to_bits := 0 |}.
Definition exponent (x : f64) : N := N.land (N.shiftr (to_bits x) 52) 2047.
Definition mantissa (x : f64) : N := N.land (to_bits x) (N.ones 52).
Definition is_nan (x : f64) : bool := (exponent x =? 2047)%N && negb (mantissa x =? 0)%N.
Definition is_finite (x : f64) : bool := negb (exponent x =? 2047)%N.
Definition is_zero (x : f64) : bool := (exponent x =? 0)%N && (mantissa x =? 0)%N.
(** [PartialEq] of [f64]. *)
Definition f64_eqb (x y : f64) : bool :=
  negb (is_nan x) && negb (is_nan y) &&
  ((to_bits x =? to_bits y)%N || (is_zero x && is_zero y)).

(** ** Locations and declarations *)

Record Location := { loc_path : str; end_byte : N; start_byte : N }.
Record Declaration := { decl_kind : str; decl_name : str; decl_location : Location }.

(** ** Enumerations *)

Inductive Callability :=
  | Callability_Callable | Callability_UntypedCallable | Callability_NonCallable
  | Callability_Mixed | Callability_Unknown.
Inductive Constructability :=
  | Constructability_Constructable | Constructability_NonConstructable
  | Constructability_Mixed | Constructability_Unknown.
Inductive RuntimeBindingKind :=
  | RuntimeBindingKind_Callable | RuntimeBindingKind_NonCallable
  | RuntimeBindingKind_Mixed | RuntimeBindingKind_Open.
Inductive ConstantValueKind := ConstantValueKind_String | ConstantValueKind_Number.
Inductive PrimitiveLiteralKind :=
  | PrimitiveLiteralKind_String | PrimitiveLiteralKind_Number | PrimitiveLiteralKind_Boolean.
Inductive ArrayShape :=
  | ArrayShape_Array | ArrayShape_NotArray | ArrayShape_Mixed | ArrayShape_Unknown.
Inductive ReferenceSpace :=
  | ReferenceSpace_Value | ReferenceSpace_Type | ReferenceSpace_Both | ReferenceSpace_Neither.
Inductive ResolvedCallValidity :=
  | ResolvedCallValidity_Valid | ResolvedCallValidity_Recovery | ResolvedCallValidity_Unresolved.
Inductive CallKind := CallKind_Unknown | CallKind_Call | CallKind_Construct.
Inductive ArgumentMappingStatus :=
  | ArgumentMappingStatus_Resolved | ArgumentMappingStatus_Unresolved.
Inductive ArgumentMappingReason :=
  | ArgumentMappingReason_CallUnresolved | ArgumentMappingReason_RecoverySignature
  | ArgumentMappingReason_CompositeSignature | ArgumentMappingReason_SpreadArgument
  | ArgumentMappingReason_ParameterUnavailable.
Inductive ConstructionWitness :=
  | ConstructionWitness_Unknown | ConstructionWitness_EmptyArray | ConstructionWitness_EmptyObject.
Inductive SymbolClaim :=
  | SymbolClaim_Absent | SymbolClaim_Unresolved | SymbolClaim_Partial | SymbolClaim_Covering.

(** ** Runtime value domains: a [u8] of four bits *)

Definition selected (value : bool) (bit : N) : N := if value then bit else 0%N.

Record RuntimeValueDomain := { rvd_bits : N }.

Definition rvd_new (may_be_callable may_be_undefined may_be_other unknown : bool)
    : RuntimeValueDomain :=
  {| rvd_bits := N.lor (N.lor (N.lor (N.b2n may_be_callable) (N.shiftl (N.b2n may_be_undefined) 1))
       (N.shiftl (N.b2n may_be_other) 2)) (N.shiftl (N.b2n unknown) 3) |}.
Definition rvd_may_be_callable (d : RuntimeValueDomain) : bool :=
  negb (N.land (rvd_bits d) 1 =? 0)%N.
Definition rvd_may_be_undefined (d : RuntimeValueDomain) : bool :=
  negb (N.land (rvd_bits d) 2 =? 0)%N.
Definition rvd_may_be_other (d : RuntimeValueDomain) : bool := negb (N.land (rvd_bits d) 4 =? 0)%N.
Definition rvd_unknown (d : RuntimeValueDomain) : bool := negb (N.land (rvd_bits d) 8 =? 0)%N.

(** ** Primitive value domains: a [u16], zero when absent *)

Record PrimitiveValueDomain := { pvd_bits : N }.
Definition pvd_default : PrimitiveValueDomain := {| pvd_bits := 0 |}.
Definition pvd_empty_bit : N := 512.
Definition pvd_unknown_bits : N := 65535.

Definition pvd_new (may_be_string may_be_number may_be_boolean may_be_big_int may_be_symbol
    may_be_null may_be_undefined may_be_object numbers_are_finite unknown : bool)
    : PrimitiveValueDomain :=
  if unknown then {| pvd_bits := pvd_unknown_bits |}
  else
    let bits := foldl N.lor (selected may_be_string 1)
      [selected may_be_number 2; selected may_be_boolean 4; selected may_be_big_int 8;
       selected may_be_symbol 16; selected may_be_null 32; selected may_be_undefined 64;
       selected may_be_object 128; selected (may_be_number && numbers_are_finite) 256] in
    if (bits =? 0)%N then {| pvd_bits := pvd_empty_bit |} else {| pvd_bits := bits |}.

Definition pvd_is_present (d : PrimitiveValueDomain) : bool := negb (pvd_bits d =? 0)%N.
Definition pvd_has (d : PrimitiveValueDomain) (bit : N) : bool :=
  negb (N.land (pvd_bits d) bit =? 0)%N.
Definition pvd_may_be_string d := pvd_has d 1.
Definition pvd_may_be_number d := pvd_has d 2.
Definition pvd_may_be_boolean d := pvd_has d 4.
Definition pvd_may_be_big_int d := pvd_has d 8.
Definition pvd_may_be_symbol d := pvd_has d 16.
Definition pvd_may_be_null d := pvd_has d 32.
Definition pvd_may_be_undefined d := pvd_has d 64.
Definition pvd_may_be_object d := pvd_has d 128.
Definition pvd_numbers_are_finite d := pvd_may_be_number d && pvd_has d 256.
Definition pvd_unknown (d : PrimitiveValueDomain) : bool := (pvd_bits d =? pvd_unknown_bits)%N.

(** ** Tuple shapes: three packed [u32] words *)

Record TupleShape := {
  packed_shape_plus_one : N;
  ts_element_zero_min_parameters : N;
  exact_length_plus_one : N
}.
Definition fixed_length_mask : N := 268435455.
Definition has_rest_bit : N := 268435456.
Definition element_zero_shift : N := 29.
Definition u32_limit : N := 4294967296.

Definition element_zero_code (c : option Callability) : N :=
  match c with
  | None => 0
  | Some Callability_Callable => 1
  | Some Callability_NonCallable => 2
  | Some Callability_Mixed => 3
  | Some Callability_Unknown => 4
  | Some Callability_UntypedCallable => 5
  end.

Definition ts_try_new (fixed_length : N) (has_rest : bool) (element_zero : option Callability)
    (element_zero_min_parameters : N) (exact_length : option N)
    : result DecodeError TupleShape :=
  if (fixed_length_mask <? fixed_length)%N then Err (TupleOverflow "fixed length")
  else
    exact_length_plus_one ←
      match exact_length with
      | None => Ok 0%N
      | Some length =>
          if (length + 1 <? u32_limit)%N then Ok (length + 1)%N
          else Err (TupleOverflow "exact length")
      end;
    let rest := selected has_rest has_rest_bit in
    let packed_shape := N.lor (N.lor fixed_length rest)
      (N.shiftl (element_zero_code element_zero) element_zero_shift) in
    Ok {| packed_shape_plus_one := packed_shape + 1;
          ts_element_zero_min_parameters := element_zero_min_parameters;
          exact_length_plus_one := exact_length_plus_one |}.

Definition ts_fixed_length (s : TupleShape) : N :=
  N.land (packed_shape_plus_one s - 1) fixed_length_mask.
Definition ts_has_rest (s : TupleShape) : bool :=
  negb (N.land (packed_shape_plus_one s - 1) has_rest_bit =? 0)%N.
Definition ts_element_zero (s : TupleShape) : option Callability :=
  match N.shiftr (packed_shape_plus_one s - 1) element_zero_shift with
  | 1 => Some Callability_Callable
  | 2 => Some Callability_NonCallable
  | 3 => Some Callability_Mixed
  | 4 => Some Callability_Unknown
  | 5 => Some Callability_UntypedCallable
  | _ => None
  end%N.
Definition ts_exact_length (s : TupleShape) : option N :=
  if (1 <=? exact_length_plus_one s)%N then Some (exact_length_plus_one s - 1)%N else None.

(** ** Rows *)

Record ConstantValue := { cv_kind : ConstantValueKind; cv_string : str; cv_number : f64 }.
Record PrimitiveLiteralCandidate := {
  plc_kind : PrimitiveLiteralKind; plc_string : str; plc_number : f64; plc_boolean : bool
}.

Record DeclarationOwner := {
  do_symbol : str; do_name : str; do_kind : str; do_location : Location
}.
Record ResolvedDeclaration := {
  rd_symbol : str; rd_name : str; rd_kind : str; rd_location : Location;
  rd_owners : list DeclarationOwner; rd_qualified_name : str; rd_origin_module : str;
  rd_source_file : str; rd_standard_library : bool
}.
Record TypeDescriptor := {
  td_text : str; td_origin_module : str; td_alias_declarations : list Declaration
}.
Record ObjectConstructionProperty := { ocp_name : str; ocp_witness : ConstructionWitness }.
Record ObjectConstructionShape := { ocs_required_properties : list ObjectConstructionProperty }.
Record ParameterFact := {
  pf_index : N; pf_symbol : str; pf_declaration : option Declaration; pf_rest : bool;
  pf_optional : bool; pf_callability : Callability; pf_type_descriptor : option TypeDescriptor;
  pf_object_shape : option ObjectConstructionShape
}.
Record ArgumentMapping := {
  am_argument_index : N; am_status : ArgumentMappingStatus;
  am_unresolved : option ArgumentMappingReason; am_parameter : option ParameterFact
}.
Record CallTargetSet := { cts_exhaustive : bool; cts_candidates : list ResolvedDeclaration }.
Record ResolvedCall := {
  rc_target : str; rc_return_type_text : str; rc_assertion_signature : bool;
  rc_never_returns : bool; rc_validity : ResolvedCallValidity; rc_kind : CallKind;
  rc_declaration : option ResolvedDeclaration;
  rc_default_library_binding : option ResolvedDeclaration;
  rc_targets : option CallTargetSet; rc_arguments : list ArgumentMapping
}.
Record EntityFact := {
  ef_location : Location; ef_symbol : str; ef_symbol_claim : SymbolClaim;
  ef_type_descriptor : option TypeDescriptor; ef_resolved_call : option ResolvedCall;
  ef_callability : option Callability; ef_constructability : option Constructability;
  ef_runtime_binding_kind : option RuntimeBindingKind;
  ef_runtime_value_domain : option RuntimeValueDomain;
  ef_primitive_value_domain : PrimitiveValueDomain;
  ef_primitive_literal_candidates : option (list PrimitiveLiteralCandidate);
  ef_call_result_domain : option RuntimeValueDomain;
  ef_constant_value : option ConstantValue; ef_array_shape : option ArrayShape;
  ef_tuple_shape : option TupleShape; ef_library_types : option (list str);
  ef_declared_keys : option (list str); ef_writable_optional_property : bool;
  ef_reference_space : option ReferenceSpace; ef_runtime_identity : str
}.
Record SymbolFact := {
  sf_id : str; sf_references : list Location; sf_alias_target : str;
  sf_declarations : list Declaration
}.
Record SourceCall := {
  sc_location : Location; sc_callee : Location; sc_arguments : list Location; sc_target : str
}.
Record SourceBinding := {
  sb_array : bool; sb_names : list Location; sb_initializer : SourceCall
}.
Record SourceFunction := {
  fn_name : Location; fn_body : Location; fn_parameters : list Location; fn_exported : bool;
  fn_async : bool; fn_arrow : bool
}.
Record AsyncFunctionFact := {
  af_expression : Location; af_symbol : str; af_target : str; af_can_return_async : bool;
  af_calls_after_await : list Location
}.
Record FileFact := {
  ff_path : str; ff_calls : list SourceCall; ff_bindings : list SourceBinding;
  ff_functions : list SourceFunction; ff_async_functions : list AsyncFunctionFact
}.
Record SourceDigest := { sd_path : str; sd_sha256 : SourceHash }.

(** ** Equality

    The derived [PartialEq]: field by field, floats by [f64_eqb]. *)

Ltac decide_rows := solve_decision.
#[global] Instance f64_eq_dec : EqDecision f64. Proof. decide_rows. Defined.
#[global] Instance Location_eq_dec : EqDecision Location. Proof. decide_rows. Defined.
#[global] Instance Declaration_eq_dec : EqDecision Declaration. Proof. decide_rows. Defined.
#[global] Instance Callability_eq_dec : EqDecision Callability. Proof. decide_rows. Defined.
#[global] Instance Constructability_eq_dec : EqDecision Constructability.
Proof. decide_rows. Defined.
#[global] Instance RuntimeBindingKind_eq_dec : EqDecision RuntimeBindingKind.
Proof. decide_rows. Defined.
#[global] Instance ConstantValueKind_eq_dec : EqDecision ConstantValueKind.
Proof. decide_rows. Defined.
#[global] Instance PrimitiveLiteralKind_eq_dec : EqDecision PrimitiveLiteralKind.
Proof. decide_rows. Defined.
#[global] Instance ArrayShape_eq_dec : EqDecision ArrayShape. Proof. decide_rows. Defined.
#[global] Instance ReferenceSpace_eq_dec : EqDecision ReferenceSpace. Proof. decide_rows. Defined.
#[global] Instance ResolvedCallValidity_eq_dec : EqDecision ResolvedCallValidity.
Proof. decide_rows. Defined.
#[global] Instance CallKind_eq_dec : EqDecision CallKind. Proof. decide_rows. Defined.
#[global] Instance ArgumentMappingStatus_eq_dec : EqDecision ArgumentMappingStatus.
Proof. decide_rows. Defined.
#[global] Instance ArgumentMappingReason_eq_dec : EqDecision ArgumentMappingReason.
Proof. decide_rows. Defined.
#[global] Instance ConstructionWitness_eq_dec : EqDecision ConstructionWitness.
Proof. decide_rows. Defined.
#[global] Instance SymbolClaim_eq_dec : EqDecision SymbolClaim. Proof. decide_rows. Defined.
#[global] Instance RuntimeValueDomain_eq_dec : EqDecision RuntimeValueDomain.
Proof. decide_rows. Defined.
#[global] Instance PrimitiveValueDomain_eq_dec : EqDecision PrimitiveValueDomain.
Proof. decide_rows. Defined.
#[global] Instance TupleShape_eq_dec : EqDecision TupleShape. Proof. decide_rows. Defined.
#[global] Instance DeclarationOwner_eq_dec : EqDecision DeclarationOwner.
Proof. decide_rows. Defined.
#[global] Instance ResolvedDeclaration_eq_dec : EqDecision ResolvedDeclaration.
Proof. decide_rows. Defined.
#[global] Instance TypeDescriptor_eq_dec : EqDecision TypeDescriptor. Proof. decide_rows. Defined.
#[global] Instance ObjectConstructionProperty_eq_dec : EqDecision ObjectConstructionProperty.
Proof. decide_rows. Defined.
#[global] Instance ObjectConstructionShape_eq_dec : EqDecision ObjectConstructionShape.
Proof. decide_rows. Defined.
#[global] Instance ParameterFact_eq_dec : EqDecision ParameterFact. Proof. decide_rows. Defined.
#[global] Instance ArgumentMapping_eq_dec : EqDecision ArgumentMapping. Proof. decide_rows. Defined.
#[global] Instance CallTargetSet_eq_dec : EqDecision CallTargetSet. Proof. decide_rows. Defined.
#[global] Instance ResolvedCall_eq_dec : EqDecision ResolvedCall. Proof. decide_rows. Defined.
#[global] Instance SymbolFact_eq_dec : EqDecision SymbolFact. Proof. decide_rows. Defined.
#[global] Instance SourceCall_eq_dec : EqDecision SourceCall. Proof. decide_rows. Defined.
#[global] Instance SourceBinding_eq_dec : EqDecision SourceBinding. Proof. decide_rows. Defined.
#[global] Instance SourceFunction_eq_dec : EqDecision SourceFunction. Proof. decide_rows. Defined.
#[global] Instance AsyncFunctionFact_eq_dec : EqDecision AsyncFunctionFact.
Proof. decide_rows. Defined.
#[global] Instance FileFact_eq_dec : EqDecision FileFact. Proof. decide_rows. Defined.
#[global] Instance SourceDigest_eq_dec : EqDecision SourceDigest. Proof. decide_rows. Defined.

Definition eqb {A} `{EqDecision A} (x y : A) : bool := bool_decide (x = y).

Fixpoint list_eqb {A} (f : A → A → bool) (l k : list A) : bool :=
  match l, k with
  | [], [] => true
  | x :: l, y :: k => f x y && list_eqb f l k
  | _, _ => false
  end.
Definition option_eqb {A} (f : A → A → bool) (x y : option A) : bool :=
  match x, y with Some x, Some y => f x y | None, None => true | _, _ => false end.

Definition ConstantValue_eqb (x y : ConstantValue) : bool :=
  eqb (cv_kind x) (cv_kind y) && eqb (cv_string x) (cv_string y) &&
  f64_eqb (cv_number x) (cv_number y).

Definition PrimitiveLiteralCandidate_eqb (x y : PrimitiveLiteralCandidate) : bool :=
  eqb (plc_kind x) (plc_kind y) && eqb (plc_string x) (plc_string y) &&
  f64_eqb (plc_number x) (plc_number y) && eqb (plc_boolean x) (plc_boolean y).

Definition EntityFact_eqb (x y : EntityFact) : bool :=
  eqb (ef_location x) (ef_location y) && eqb (ef_symbol x) (ef_symbol y) &&
  eqb (ef_symbol_claim x) (ef_symbol_claim y) &&
  eqb (ef_type_descriptor x) (ef_type_descriptor y) &&
  eqb (ef_resolved_call x) (ef_resolved_call y) &&
  eqb (ef_callability x) (ef_callability y) &&
  eqb (ef_constructability x) (ef_constructability y) &&
  eqb (ef_runtime_binding_kind x) (ef_runtime_binding_kind y) &&
  eqb (ef_runtime_value_domain x) (ef_runtime_value_domain y) &&
  eqb (ef_primitive_value_domain x) (ef_primitive_value_domain y) &&
  option_eqb (list_eqb PrimitiveLiteralCandidate_eqb)
    (ef_primitive_literal_candidates x) (ef_primitive_literal_candidates y) &&
  eqb (ef_call_result_domain x) (ef_call_result_domain y) &&
  option_eqb ConstantValue_eqb (ef_constant_value x) (ef_constant_value y) &&
  eqb (ef_array_shape x) (ef_array_shape y) && eqb (ef_tuple_shape x) (ef_tuple_shape y) &&
  eqb (ef_library_types x) (ef_library_types y) &&
  eqb (ef_declared_keys x) (ef_declared_keys y) &&
  eqb (ef_writable_optional_property x) (ef_writable_optional_property y) &&
  eqb (ef_reference_space x) (ef_reference_space y) &&
  eqb (ef_runtime_identity x) (ef_runtime_identity y).
