(* ===== verification/WireWriter.v ===== *)
(** * The packed row writer

    [typefacts/src/producer/writer.rs]: the transition's string dictionary, the
    row writer with its optional sink and chunked flushing, locations with the
    delta against the previous one, and the packed form of the dictionary.  The
    sink is a type class: the source only sees its trait. *)
From S2P Require Export WireFacts.

(** ** Errors of the encoder *)

Inductive EncodeContext :=
  | InPathOperation (index : nat) | InSymbolOperation (index : nat) | InEntityReplacement (path : str)
  | InEntity (index : nat) | InEntityLocation (index : nat) | InResolvedCall (index : nat)
  | InReferenceLocation (index : nat).

Inductive EncodeMessage :=
  | EndPrecedesStart (end_byte start_byte : N)
  | StartDeltaOverflow
  | PathOperationEmpty
  | DigestNotSha256 (hash : SourceHash)
  | DigestNotHex (hash : SourceHash)
  | EntityPathDiffers (index : nat)
  | EntityResolvedUnresolved (index : nat)
  | EntityCoversWithoutSymbol (index : nat)
  | ConstantNumberNaN
  | EntityStartOverflow (index : nat)
  | NonFiniteCandidate
  | NoTargetCandidates
  | CandidateWithoutSymbol (index : nat)
  | ArgumentDisagrees (index : nat)
  | FilePathDiffers
  | SymbolOperationEmpty
  | FullSymbolTag (tag : N)
  | SymbolIdDiffers
  | ReferenceOperationEmptyPath
  | ReferencePathDiffers (index : nat)
  | FullPathWithoutRows (index : nat)
  | EncoderSchema (table_schema : N)
  | InputProjectIdEmpty
  | TargetSchema (schema : N)
  | InputTargetGenerationZero
  | FullCarriesToken
  | BaseSchema (schema : N)
  | DeltaWithoutToken
  | BaseGenerationZero
  | TargetPrecedes (target base : N)
  | Within (context : EncodeContext) (message : EncodeMessage).

(** An [io::Error] is what it displays. *)
Inductive EncodeError :=
  | SparseUnavailable
  | Invalid (message : EncodeMessage)
  | Sink (error : string).

Definition within (context : EncodeContext) (e : EncodeError) : EncodeError :=
  match e with Invalid message => Invalid (Within context message) | other => other end.

Definition map_err {E F A} (f : E → F) (r : result E A) : result F A :=
  match r with Ok a => Ok a | Err e => Err (f e) end.

(** ** The sink *)

Class TransitionSink (S : Type) := {
  append_rows : S → list N → S * option string;
  sink_finish : S → list N → S * option string
}.

(** ** The dictionary *)

Record Dictionary := { indexes : gmap str N; values : list str }.

Definition dict_new : Dictionary := {| indexes := {[ empty_str := 0%N ]}; values := [empty_str] |}.

Definition dict_insert (d : Dictionary) (value : str) : N * Dictionary :=
  let index := N.of_nat (length (values d)) in
  (index, {| indexes := <[value := index]> (indexes d); values := values d ++ [value] |}).

(** [Dictionary::intern] and [intern_arc]. *)
Definition dict_intern (d : Dictionary) (value : str) : N * Dictionary :=
  match indexes d !! value with
  | Some index => (index, d)
  | None => dict_insert d value
  end.

(** ** The writer *)

Record LocationState := { ls_path : N; ls_start : N; ls_valid : bool }.
Definition location_state_default : LocationState :=
  {| ls_path := 0; ls_start := 0; ls_valid := false |}.

Definition streamed_chunk : N := 65536.

Record RowWriter (S : Type) := {
  bytes : list N; dict : Dictionary; sink : option S; flushed : N; error : option string
}.
Arguments bytes {S} _.
Arguments dict {S} _.
Arguments sink {S} _.
Arguments flushed {S} _.
Arguments error {S} _.
Arguments Build_RowWriter {S} _ _ _ _ _.

Definition writer (S A : Type) : Type := RowWriter S → result EncodeError (A * RowWriter S).

#[global] Instance writer_ret S : MRet (writer S) := λ A a w, Ok (a, w).
#[global] Instance writer_bind S : MBind (writer S) := λ A B k m w,
  match m w with Ok (a, w') => k a w' | Err e => Err e end.

Definition invalid {S A} (message : EncodeMessage) : writer S A := λ _, Err (Invalid message).
(** [map_err] on a fallible call: the context an error is reported in. *)
Definition in_context {S A} (context : EncodeContext) (m : writer S A) : writer S A := λ w,
  map_err (within context) (m w).
Definition ensure {S} (ok : bool) (message : EncodeMessage) : writer S () :=
  if ok then mret () else invalid message.

(** [for] loops over rows. *)
Fixpoint write_all {S A} (f : A → writer S ()) (l : list A) : writer S () :=
  match l with [] => mret () | a :: l => f a;; write_all f l end.
Fixpoint write_indexed {S A} (f : nat → A → writer S ()) (i : nat) (l : list A) : writer S () :=
  match l with [] => mret () | a :: l => f i a;; write_indexed f (Datatypes.S i) l end.
Fixpoint write_state {S A T} (f : A → T → writer S T) (l : list A) (s : T) : writer S T :=
  match l with [] => mret s | a :: l => s' ← f a s; write_state f l s' end.
Definition write_option {S A} (f : A → writer S ()) (o : option A) : writer S () :=
  match o with Some a => f a | None => mret () end.

Module Writer.
Section writer.
Context {S : Type} `{TransitionSink S}.

Definition new (sink : option S) : RowWriter S :=
  {| bytes := []; dict := dict_new; sink := sink; flushed := 0; error := None |}.

Definition flush (w : RowWriter S) : RowWriter S :=
  match sink w with
  | None => w
  | Some s =>
      let length := N.of_nat (List.length (bytes w)) in
      match append_rows s (bytes w) with
      | (s, None) => {| bytes := []; dict := dict w; sink := Some s;
                        flushed := flushed w + length; error := error w |}
      | (s, Some e) => {| bytes := []; dict := dict w; sink := Some s;
                          flushed := flushed w; error := Some e |}
      end
  end.

Definition maybe_flush (w : RowWriter S) : RowWriter S :=
  if bool_decide (sink w = None) || bool_decide (is_Some (error w)) ||
     (N.of_nat (length (bytes w)) <? streamed_chunk)%N
  then w else flush w.

(** Appends bytes and flushes a full chunk. *)
Definition append (bs : list N) : writer S () := λ w,
  Ok (tt, maybe_flush {| bytes := bytes w ++ bs; dict := dict w; sink := sink w;
                         flushed := flushed w; error := error w |}).

Definition u64 (value : N) : writer S () := λ w,
  Ok (tt, maybe_flush {| bytes := push_uvarint (bytes w) value; dict := dict w; sink := sink w;
                         flushed := flushed w; error := error w |}).

Definition bool (value : Datatypes.bool) : writer S () := u64 (if value then 1 else 0)%N.

Definition signed (value : Z) : writer S () := u64 (zigzag value).

Definition raw (value : list N) : writer S () := append value.

Definition intern (value : str) : writer S N := λ w,
  let '(index, d) := dict_intern (dict w) value in
  Ok (index, {| bytes := bytes w; dict := d; sink := sink w;
                flushed := flushed w; error := error w |}).

(** [RowWriter::text] and [text_arc]. *)
Definition text (value : str) : writer S () := index ← intern value; u64 index.

Definition location (l : Location) (state : LocationState) : writer S LocationState :=
  length ← (match checked_sub (end_byte l) (start_byte l) with
            | Some length => mret length
            | None => invalid (EndPrecedesStart (end_byte l) (start_byte l))
            end);
  path ← intern (loc_path l);
  let start := start_byte l in
  (if ls_valid state && (ls_path state =? path)%N then
     let delta := (Z.of_N start - Z.of_N (ls_start state))%Z in
     (if (- i64_limit <=? delta)%Z && (delta <? i64_limit)%Z
      then u64 1;; signed delta
      else invalid StartDeltaOverflow)
   else u64 (u64_shl path 1);; u64 start);;
  u64 length;;
  mret {| ls_path := path; ls_start := start; ls_valid := true |}.

Definition locations (ls : list Location) : writer S () :=
  u64 (N.of_nat (length ls));;
  write_state location ls location_state_default;;
  mret ().

Definition finish (w : RowWriter S) : result EncodeError (list N * Dictionary * option S) :=
  let w := if bool_decide (error w = None) && bool_decide (is_Some (sink w)) &&
              negb (bool_decide (bytes w = []))
           then flush w else w in
  match error w with
  | Some e => Err (Sink e)
  | None => Ok (bytes w, dict w, sink w)
  end.

End writer.
End Writer.

(** ** The packed dictionary *)

Definition hashed_symbol_prefix : list N := str_bytes (lit "symbol:h:").
Definition hashed_symbol_digest_bytes : nat := 12.
Definition string_prefix_coded : N := 0.
Definition string_hashed_symbol : N := 1.

Definition packed_hashed_symbol (symbol : str) : option (list N) :=
  digits ← strip_prefix hashed_symbol_prefix (str_bytes symbol);
  if negb (length digits =? hashed_symbol_digest_bytes * 2) then None
  else
    mapM (λ '(a, b), high ← hex_value a; low ← hex_value b;
                     Some (N.lor (N.shiftl high 4) low)) (chunks2 digits).

Fixpoint common_prefix (l r : list N) : nat :=
  match l, r with
  | a :: l, b :: r => if (a =? b)%N then Datatypes.S (common_prefix l r) else 0
  | _, _ => 0
  end.

Fixpoint append_strings (frame previous : list N) (values : list str) : list N :=
  match values with
  | [] => frame
  | value :: values =>
      match packed_hashed_symbol value with
      | Some digest => append_strings (push_uvarint frame string_hashed_symbol ++ digest) previous values
      | None =>
          let bytes := str_bytes value in
          let prefix := common_prefix previous bytes in
          let suffix := drop prefix bytes in
          let frame := push_uvarint frame string_prefix_coded in
          let frame := push_uvarint frame (N.of_nat prefix) in
          let frame := push_uvarint frame (N.of_nat (length suffix)) in
          append_strings (frame ++ suffix) bytes values
      end
  end.

Definition append_packed_dictionary (frame : list N) (d : Dictionary) : list N :=
  append_strings (push_uvarint frame (N.of_nat (length (values d)))) [] (values d).
