(* ===== verification/WireDecode.v ===== *)
(** * The transition decoder

    [typefacts/src/v3.rs]: the composite readers of [PackedCursor], the packed
    dictionary, the closed tag spaces per table schema, entity runs, file facts
    and [decode_table_transition], which validates a whole frame before
    anything of it is applied. *)
From S2P Require Export WireFacts WireWriter.

(** ** Table schemas *)

Definition schema_v1 : N := 1.
Definition table_transition_version : N := 1.
Definition supported_table_schemas : list N :=
  [3; 4; 5; 6; 7; 8; 9; 11; 12; 13; 14; 15; 16; 17; 18; 19; 20; 21; 22; 23; 24]%N.

(** ** Operations *)

Inductive TransitionMode := Full | Delta.
#[global] Instance TransitionMode_eq_dec : EqDecision TransitionMode.
Proof. solve_decision. Defined.

Inductive SlotOp (T : Type) := SlotUnchanged | SlotReplace (t : T) | SlotRemove.
Arguments SlotUnchanged {T}.
Arguments SlotReplace {T} _.
Arguments SlotRemove {T}.

Record PathOp := {
  po_path : str; po_source : SlotOp SourceHash; po_entities : SlotOp (list EntityFact);
  po_file : SlotOp FileFact
}.

Inductive SymbolOp :=
  | SymbolReplace (fact : SymbolFact)
  | SymbolRemove (id : str)
  | SymbolReplaceReferencePath (id path : str) (references : list Location).

Definition symbol_op_id (op : SymbolOp) : str :=
  match op with
  | SymbolReplace fact => sf_id fact
  | SymbolRemove id => id
  | SymbolReplaceReferencePath id _ _ => id
  end.

Record WireTableTransition := {
  wt_mode : TransitionMode; wt_table_schema : N; wt_base_generation : N;
  wt_target_generation : N; wt_project_id : str; wt_base_state_token : str;
  wt_paths : list PathOp; wt_symbols : list SymbolOp
}.

(** ** Closed tag spaces *)

Definition parse_runtime_value_domain (value : N) : result DecodeError RuntimeValueDomain :=
  if negb (N.ldiff value 15 =? 0)%N then Err (UnknownTag "runtime value-domain" value)
  else
    let has bit := negb (N.land value bit =? 0)%N in
    Ok (rvd_new (has 1%N) (has 2%N) (has 4%N) (has 8%N)).

Definition parse_primitive_value_domain (value : N) : result DecodeError PrimitiveValueDomain :=
  if negb (N.ldiff value 1023 =? 0)%N then Err (UnknownTag "primitive value-domain" value)
  else
    let has bit := negb (N.land value bit =? 0)%N in
    Ok (pvd_new (has 1%N) (has 2%N) (has 4%N) (has 8%N) (has 16%N) (has 32%N) (has 64%N)
          (has 128%N) (has 512%N) (has 256%N)).

Definition parse_array_shape (value : N) : result DecodeError ArrayShape :=
  match value with
  | 0 => Ok ArrayShape_Array
  | 1 => Ok ArrayShape_NotArray
  | 2 => Ok ArrayShape_Mixed
  | 3 => Ok ArrayShape_Unknown
  | _ => Err (UnknownTag "array-shape" value)
  end%N.

Definition parse_callability (value table_schema : N) : result DecodeError Callability :=
  match value with
  | 0 => Ok Callability_Callable
  | 1 => Ok Callability_NonCallable
  | 2 => Ok Callability_Mixed
  | 3 => Ok Callability_Unknown
  | 4 => if (15 <=? table_schema)%N then Ok Callability_UntypedCallable
         else Err (UnknownCallability value table_schema)
  | _ => Err (UnknownCallability value table_schema)
  end%N.

Definition parse_constructability (value : N) : result DecodeError Constructability :=
  match value with
  | 0 => Ok Constructability_Constructable
  | 1 => Ok Constructability_NonConstructable
  | 2 => Ok Constructability_Mixed
  | 3 => Ok Constructability_Unknown
  | _ => Err (UnknownTag "constructability" value)
  end%N.

Definition parse_reference_space (value : N) : result DecodeError ReferenceSpace :=
  match value with
  | 0 => Ok ReferenceSpace_Value
  | 1 => Ok ReferenceSpace_Type
  | 2 => Ok ReferenceSpace_Both
  | 3 => Ok ReferenceSpace_Neither
  | _ => Err (UnknownTag "reference-space" value)
  end%N.

Definition parse_resolved_call_validity (value : N) : result DecodeError ResolvedCallValidity :=
  match value with
  | 0 => Ok ResolvedCallValidity_Valid
  | 1 => Ok ResolvedCallValidity_Recovery
  | 2 => Ok ResolvedCallValidity_Unresolved
  | _ => Err (UnknownTag "resolved-call validity" value)
  end%N.

Definition parse_call_kind (value : N) : result DecodeError CallKind :=
  match value with
  | 0 => Ok CallKind_Unknown
  | 1 => Ok CallKind_Call
  | 2 => Ok CallKind_Construct
  | _ => Err (UnknownTag "call-kind" value)
  end%N.

Definition parse_argument_mapping_status (value : N) : result DecodeError ArgumentMappingStatus :=
  match value with
  | 0 => Ok ArgumentMappingStatus_Resolved
  | 1 => Ok ArgumentMappingStatus_Unresolved
  | _ => Err (UnknownTag "argument-mapping status" value)
  end%N.

Definition parse_argument_mapping_reason (status : ArgumentMappingStatus) (value : N)
    : result DecodeError (option ArgumentMappingReason) :=
  reason ←
    match value with
    | 0 => Ok None
    | 1 => Ok (Some ArgumentMappingReason_CallUnresolved)
    | 2 => Ok (Some ArgumentMappingReason_RecoverySignature)
    | 3 => Ok (Some ArgumentMappingReason_CompositeSignature)
    | 4 => Ok (Some ArgumentMappingReason_SpreadArgument)
    | 5 => Ok (Some ArgumentMappingReason_ParameterUnavailable)
    | _ => Err (UnknownTag "argument-mapping reason" value)
    end%N;
  match status, reason with
  | ArgumentMappingStatus_Resolved, Some _ => Err ArgumentStatusReason
  | ArgumentMappingStatus_Unresolved, None => Err ArgumentStatusReason
  | _, _ => Ok reason
  end.

Definition parse_construction_witness (value : N) : result DecodeError ConstructionWitness :=
  match value with
  | 0 => Ok ConstructionWitness_Unknown
  | 1 => Ok ConstructionWitness_EmptyArray
  | 2 => Ok ConstructionWitness_EmptyObject
  | tag => Err (UnknownTag "construction-witness" tag)
  end%N.

Definition parse_runtime_binding_kind (value : N) : result DecodeError RuntimeBindingKind :=
  match value with
  | 0 => Ok RuntimeBindingKind_Callable
  | 1 => Ok RuntimeBindingKind_NonCallable
  | 2 => Ok RuntimeBindingKind_Mixed
  | 3 => Ok RuntimeBindingKind_Open
  | tag => Err (UnknownTag "runtime binding kind" tag)
  end%N.

(** The entity flags a table schema knows. *)
Definition known_entity_flags (table_schema : N) : N :=
  match table_schema with
  | 16 | 17 => 32767
  | 18 | 19 | 20 | 21 | 22 => 65535
  | 23 => 131071
  | 24 => 262143
  | 15 | 14 => 16383
  | 13 => 8191
  | 12 => 4095
  | 11 => 2047
  | 9 => 1023
  | 8 => 511
  | 7 => 255
  | 5 | 6 => 127
  | 4 => 63
  | _ => 31
  end%N.

(** ** Reader helpers *)

Definition ensure_read (ok : bool) (e : DecodeError) : reader () := if ok then mret () else fail e.
Definition read_if {A} (present : bool) (m : reader A) : reader (option A) :=
  if present then a ← m; mret (Some a) else mret None.
Definition has_flag (flags bit : N) : bool := negb (N.land flags bit =? 0)%N.
Definition only_flags (flags known : N) : bool := (N.ldiff flags known =? 0)%N.

Record PackedLocationState := { pls_path : N; pls_start : N; pls_valid : bool }.
Definition packed_location_state_default : PackedLocationState :=
  {| pls_path := 0; pls_start := 0; pls_valid := false |}.

Module Decode.
Section decode.
(** The frame's dictionary. *)
Context (strings : list str).

Definition string_index (label : string) : reader str :=
  value ← Cursor.u64;
  index ← lift (ok_or (StringIndexOverflow label) (usize_try_from value));
  lift (ok_or (StringIndexRange label index) (strings !! N.to_nat index)).

Definition location (state : PackedLocationState) : reader (Location * PackedLocationState) :=
  path_token ← Cursor.u64;
  '(path, start) ←
    (if (N.land path_token 1 =? 1)%N then
       if negb (path_token =? 1)%N || negb (pls_valid state) then fail RepeatedPathMarker
       else
         delta ← Cursor.signed;
         start ← lift (add_signed (pls_start state) delta "location start");
         mret (pls_path state, start)
     else
       path ← lift (ok_or LocationPathOverflow (usize_try_from (N.shiftr path_token 1)));
       if (N.of_nat (length strings) <=? path)%N then fail (LocationPathRange path)
       else start ← Cursor.u64; mret (path, start));
  length ← Cursor.u64;
  stop ← lift (ok_or LocationEndOverflow (checked_add start length));
  text ← lift (ok_or DecodePanic (strings !! N.to_nat path));
  mret ({| loc_path := text; end_byte := stop; start_byte := start |},
        {| pls_path := path; pls_start := start; pls_valid := true |}).

Definition locations : reader (list Location) :=
  count ← Cursor.count "locations";
  repeat_state (N.to_nat count) location packed_location_state_default.

Definition declaration (state : PackedLocationState)
    : reader (Declaration * PackedLocationState) :=
  name ← string_index "declaration name";
  kind ← string_index "declaration kind";
  '(l, state) ← location state;
  mret ({| decl_kind := kind; decl_name := name; decl_location := l |}, state).

Definition declarations : reader (list Declaration) :=
  count ← Cursor.count "declarations";
  repeat_state (N.to_nat count) declaration packed_location_state_default.

Definition type_descriptor : reader TypeDescriptor :=
  text ← string_index "type text";
  origin_module ← string_index "origin module";
  alias_declarations ← declarations;
  mret {| td_text := text; td_origin_module := origin_module;
          td_alias_declarations := alias_declarations |}.

Definition owner (state : PackedLocationState)
    : reader (DeclarationOwner * PackedLocationState) :=
  symbol ← string_index "declaration owner symbol";
  name ← string_index "declaration owner name";
  kind ← string_index "declaration owner kind";
  '(l, state) ← location state;
  mret ({| do_symbol := symbol; do_name := name; do_kind := kind; do_location := l |}, state).

Definition resolved_declaration : reader ResolvedDeclaration :=
  symbol ← string_index "resolved declaration symbol";
  name ← string_index "resolved declaration name";
  kind ← string_index "resolved declaration kind";
  '(l, state) ← location packed_location_state_default;
  owner_count ← Cursor.count "declaration owners";
  owners ← repeat_state (N.to_nat owner_count) owner state;
  qualified_name ← string_index "qualified declaration name";
  origin_module ← string_index "declaration origin module";
  source_file ← string_index "declaration source file";
  standard_library ← Cursor.boolean "standard library";
  mret {| rd_symbol := symbol; rd_name := name; rd_kind := kind; rd_location := l;
          rd_owners := owners; rd_qualified_name := qualified_name;
          rd_origin_module := origin_module; rd_source_file := source_file;
          rd_standard_library := standard_library |}.

Definition candidate : reader ResolvedDeclaration :=
  candidate ← resolved_declaration;
  ensure_read (negb (is_empty (rd_symbol candidate))) TargetWithoutSymbol;;
  mret candidate.

Definition target_set : reader CallTargetSet :=
  exhaustive ← Cursor.boolean "target set exhaustiveness";
  candidate_count ← Cursor.count "target candidates";
  if (candidate_count =? 0)%N then fail TargetSetEmpty
  else
    candidates ← repeat_read (N.to_nat candidate_count) candidate;
    mret {| cts_exhaustive := exhaustive; cts_candidates := candidates |}.

Definition object_property : reader ObjectConstructionProperty :=
  name ← string_index "required object property";
  value ← Cursor.u64;
  witness ← lift (parse_construction_witness value);
  mret {| ocp_name := name; ocp_witness := witness |}.

Definition single_declaration : reader Declaration :=
  name ← string_index "parameter declaration name";
  kind ← string_index "parameter declaration kind";
  '(l, _) ← location packed_location_state_default;
  mret {| decl_kind := kind; decl_name := name; decl_location := l |}.

Definition object_shape : reader ObjectConstructionShape :=
  count ← Cursor.count "required object properties";
  properties ← repeat_read (N.to_nat count) object_property;
  mret {| ocs_required_properties := properties |}.

Definition parameter (table_schema : N) : reader ParameterFact :=
  index ← Cursor.u64;
  symbol ← string_index "parameter symbol";
  flags ← Cursor.u64;
  let known_flags := if (17 <=? table_schema)%N then 31%N else 15%N in
  ensure_read (only_flags flags known_flags) (UnknownFlags "parameter" flags);;
  declaration ← read_if (has_flag flags 1) single_declaration;
  value ← Cursor.u64;
  callability ← lift (parse_callability value table_schema);
  descriptor ← read_if (has_flag flags 8) type_descriptor;
  shape ← read_if (has_flag flags 16) object_shape;
  mret {| pf_index := index; pf_symbol := symbol; pf_declaration := declaration;
          pf_rest := has_flag flags 2; pf_optional := has_flag flags 4;
          pf_callability := callability; pf_type_descriptor := descriptor;
          pf_object_shape := shape |}.

Definition argument (table_schema : N) : reader ArgumentMapping :=
  argument_index ← Cursor.u64;
  status_tag ← Cursor.u64;
  status ← lift (parse_argument_mapping_status status_tag);
  reason_tag ← Cursor.u64;
  unresolved ← lift (parse_argument_mapping_reason status reason_tag);
  present ← Cursor.boolean "mapped parameter presence";
  parameter ← read_if present (parameter table_schema);
  mret {| am_argument_index := argument_index; am_status := status;
          am_unresolved := unresolved; am_parameter := parameter |}.

Definition call_flags (table_schema : N) : reader (bool * bool) :=
  if (19 <=? table_schema)%N then
    flags ← Cursor.u64;
    ensure_read (only_flags flags 3) (UnknownFlags "resolved call" flags);;
    mret (has_flag flags 1, has_flag flags 2)
  else mret (false, false).

Definition resolved_call (table_schema : N) : reader ResolvedCall :=
  target ← string_index "resolved target";
  return_type_text ← string_index "return type";
  validity_tag ← Cursor.u64;
  validity ← lift (parse_resolved_call_validity validity_tag);
  kind_tag ← Cursor.u64;
  kind ← lift (parse_call_kind kind_tag);
  declared ← Cursor.boolean "resolved declaration presence";
  declaration ← read_if declared resolved_declaration;
  has_targets ← (if (6 <=? table_schema)%N then Cursor.boolean "target set presence"
                 else mret false);
  targets ← read_if has_targets target_set;
  argument_count ← Cursor.count "argument mappings";
  arguments ← repeat_read (N.to_nat argument_count) (argument table_schema);
  '(assertion_signature, never_returns) ← call_flags table_schema;
  has_binding ← (if (20 <=? table_schema)%N then Cursor.boolean "default-library binding presence"
                 else mret false);
  default_library_binding ← read_if has_binding resolved_declaration;
  mret {| rc_target := target; rc_return_type_text := return_type_text;
          rc_assertion_signature := assertion_signature; rc_never_returns := never_returns;
          rc_validity := validity; rc_kind := kind; rc_declaration := declaration;
          rc_default_library_binding := default_library_binding; rc_targets := targets;
          rc_arguments := arguments |}.

Definition source_call : reader SourceCall :=
  '(l, state) ← location packed_location_state_default;
  '(callee, _) ← location state;
  arguments ← locations;
  target ← string_index "source call target";
  mret {| sc_location := l; sc_callee := callee; sc_arguments := arguments;
          sc_target := target |}.

(** ** Entity runs *)

Definition constant_value : reader ConstantValue :=
  tag ← Cursor.u64;
  match tag with
  | 0 =>
      string ← string_index "constant string";
      mret {| cv_kind := ConstantValueKind_String; cv_string := string; cv_number := f64_zero |}
  | 1 =>
      bits ← Cursor.u64;
      let number := {| to_bits := bits |} in
      if is_nan number then fail ConstantNaN
      else mret {| cv_kind := ConstantValueKind_Number; cv_string := empty_str;
                   cv_number := number |}
  | tag => fail (UnknownTag "constant-value" tag)
  end%N.

Definition tuple_shape (table_schema : N) : reader TupleShape :=
  packed ← Cursor.u64;
  value ← Cursor.u64;
  element_zero ← lift (parse_callability value table_schema);
  parameters ← Cursor.u64;
  element_zero_min_parameters ← lift (ok_or (TupleOverflow "parameter count") (u32_of_u64 parameters));
  exact_length ←
    (if (13 <=? table_schema)%N then
       encoded ← Cursor.u64;
       if (encoded =? 0)%N then mret None
       else
         length ← lift (ok_or (TupleOverflow "exact length") (u32_of_u64 (encoded - 1)));
         mret (Some length)
     else mret None);
  fixed_length ← lift (ok_or (TupleOverflow "fixed length") (u32_of_u64 (N.shiftr packed 1)));
  lift (ts_try_new fixed_length (negb (N.land packed 1 =? 0)%N) (Some element_zero)
          element_zero_min_parameters exact_length).

Definition names (label : string) : reader (list str) :=
  count ← Cursor.u64;
  repeat_read (N.to_nat count) (string_index label).

Definition literal_candidate : reader PrimitiveLiteralCandidate :=
  tag ← Cursor.u64;
  match tag with
  | 0 =>
      string ← string_index "primitive literal string";
      mret {| plc_kind := PrimitiveLiteralKind_String; plc_string := string;
              plc_number := f64_zero; plc_boolean := false |}
  | 1 =>
      bits ← Cursor.u64;
      let number := {| to_bits := bits |} in
      if negb (is_finite number) then fail LiteralNotFinite
      else mret {| plc_kind := PrimitiveLiteralKind_Number; plc_string := empty_str;
                   plc_number := number; plc_boolean := false |}
  | 2 =>
      value ← Cursor.u64;
      boolean ← (match value with
                 | 0 => mret false
                 | 1 => mret true
                 | value => fail (LiteralBoolean value)
                 end%N);
      mret {| plc_kind := PrimitiveLiteralKind_Boolean; plc_string := empty_str;
              plc_number := f64_zero; plc_boolean := boolean |}
  | tag => fail (UnknownTag "primitive literal" tag)
  end%N.

Definition literal_candidates : reader (list PrimitiveLiteralCandidate) :=
  count ← Cursor.u64;
  if (32 <? count)%N then fail (LiteralCount count)
  else repeat_read (N.to_nat count) literal_candidate.

(** A tag read through its parser. *)
Definition tagged {A} (parse : N → result DecodeError A) : reader A :=
  value ← Cursor.u64; lift (parse value).

Definition symbol_claim (symbol : str) (flag : bool) (table_schema : N)
    : result DecodeError SymbolClaim :=
  match is_empty symbol, flag, (21 <=? table_schema)%N with
  | true, true, _ => Ok SymbolClaim_Unresolved
  | true, false, _ => Ok SymbolClaim_Absent
  | false, false, _ => Ok SymbolClaim_Partial
  | false, true, true => Ok SymbolClaim_Covering
  | false, true, false => Err EntityResolvedAndUnresolved
  end.

Definition entity (path : str) (table_schema : N) (previous_start : N)
    : reader (EntityFact * N) :=
  delta ← Cursor.signed;
  start ← lift (add_signed previous_start delta "entity start");
  length ← Cursor.u64;
  stop ← lift (ok_or EntityEndOverflow (checked_add start length));
  symbol ← string_index "entity symbol";
  flags ← Cursor.u64;
  ensure_read (only_flags flags (known_entity_flags table_schema)) (UnknownFlags "entity" flags);;
  type_descriptor ← read_if (has_flag flags 1) type_descriptor;
  resolved_call ← read_if (has_flag flags 2) (resolved_call table_schema);
  callability ← read_if (has_flag flags 4) (tagged (λ v, parse_callability v table_schema));
  reference_space ← read_if (has_flag flags 8) (tagged parse_reference_space);
  runtime_identity ← (if has_flag flags 16 then string_index "runtime identity" else mret empty_str);
  runtime_value_domain ← read_if (has_flag flags 32) (tagged parse_runtime_value_domain);
  call_result_domain ← read_if (has_flag flags 128) (tagged parse_runtime_value_domain);
  constant_value ← read_if (has_flag flags 256) constant_value;
  array_shape ← read_if (has_flag flags 512) (tagged parse_array_shape);
  tuple_shape ← read_if (has_flag flags 1024) (tuple_shape table_schema);
  library_types ← read_if (has_flag flags 2048) (names "library type");
  primitive_value_domain ←
    (if has_flag flags 4096 then tagged parse_primitive_value_domain else mret pvd_default);
  constructability ← read_if (has_flag flags 8192) (tagged parse_constructability);
  candidates ← read_if (has_flag flags 16384) literal_candidates;
  runtime_binding_kind ← read_if (has_flag flags 32768) (tagged parse_runtime_binding_kind);
  declared_keys ← read_if (has_flag flags 65536) (names "declared key");
  claim ← lift (symbol_claim symbol (has_flag flags 64) table_schema);
  mret ({| ef_location := {| loc_path := path; end_byte := stop; start_byte := start |};
           ef_symbol := symbol; ef_symbol_claim := claim;
           ef_type_descriptor := type_descriptor; ef_resolved_call := resolved_call;
           ef_callability := callability; ef_constructability := constructability;
           ef_runtime_binding_kind := runtime_binding_kind;
           ef_runtime_value_domain := runtime_value_domain;
           ef_primitive_value_domain := primitive_value_domain;
           ef_primitive_literal_candidates := candidates;
           ef_call_result_domain := call_result_domain; ef_constant_value := constant_value;
           ef_array_shape := array_shape; ef_tuple_shape := tuple_shape;
           ef_library_types := library_types; ef_declared_keys := declared_keys;
           ef_writable_optional_property := has_flag flags 131072;
           ef_reference_space := reference_space; ef_runtime_identity := runtime_identity |},
        start).

Definition entity_run (path : str) (table_schema : N) : reader (list EntityFact) :=
  count ← Cursor.count "entities";
  repeat_state (N.to_nat count) (entity path table_schema) 0%N.

(** ** File facts *)

Definition binding : reader SourceBinding :=
  flags ← Cursor.u64;
  ensure_read (only_flags flags 1) (UnknownFlags "binding" flags);;
  names ← locations;
  initializer ← source_call;
  mret {| sb_array := has_flag flags 1; sb_names := names; sb_initializer := initializer |}.

Definition function : reader SourceFunction :=
  '(name, state) ← location packed_location_state_default;
  '(body, _) ← location state;
  parameters ← locations;
  flags ← Cursor.u64;
  ensure_read (only_flags flags 7) (UnknownFlags "function" flags);;
  mret {| fn_name := name; fn_body := body; fn_parameters := parameters;
          fn_exported := has_flag flags 1; fn_async := has_flag flags 2;
          fn_arrow := has_flag flags 4 |}.

Definition async_function : reader AsyncFunctionFact :=
  '(expression, _) ← location packed_location_state_default;
  symbol ← string_index "async symbol";
  target ← string_index "async target";
  flags ← Cursor.u64;
  ensure_read (only_flags flags 1) (UnknownFlags "async function" flags);;
  calls_after_await ← locations;
  mret {| af_expression := expression; af_symbol := symbol; af_target := target;
          af_can_return_async := has_flag flags 1; af_calls_after_await := calls_after_await |}.

Definition file_fact (path : str) : reader FileFact :=
  call_count ← Cursor.count "calls";
  calls ← repeat_read (N.to_nat call_count) source_call;
  binding_count ← Cursor.count "bindings";
  bindings ← repeat_read (N.to_nat binding_count) binding;
  function_count ← Cursor.count "functions";
  functions ← repeat_read (N.to_nat function_count) function;
  async_count ← Cursor.count "async functions";
  async_functions ← repeat_read (N.to_nat async_count) async_function;
  mret {| ff_path := path; ff_calls := calls; ff_bindings := bindings;
          ff_functions := functions; ff_async_functions := async_functions |}.

End decode.

(** ** The dictionary *)

Definition packed_string (previous : list N) : reader (str * list N) :=
  tag ← Cursor.u64;
  if (tag =? string_prefix_coded)%N then
    value ← Cursor.u64;
    prefix ← lift (ok_or StringPrefixOverflow (usize_try_from value));
    ensure_read (prefix <=? N.of_nat (length previous))%N StringPrefixExceeds;;
    value ← Cursor.u64;
    suffix_length ← lift (ok_or StringLengthOverflow (usize_try_from value));
    suffix ← Cursor.raw suffix_length;
    let previous := take (N.to_nat prefix) previous ++ suffix in
    text ← lift (ok_or StringNotUtf8 (from_utf8 previous));
    mret (text, previous)
  else if (tag =? string_hashed_symbol)%N then
    raw ← Cursor.raw (N.of_nat hashed_symbol_digest_bytes);
    mret (ascii_str (hashed_symbol_prefix ++ hex_of raw), previous)
  else fail (StringUnknownTag tag).

Definition packed_strings : reader (list str) :=
  count ← Cursor.count "strings";
  repeat_state (N.to_nat count) packed_string [].

(** ** Transitions *)

Definition slot_tag (value : N) (label : string) : result DecodeError N :=
  if (value <=? 2)%N then Ok value else Err (InvalidOperation label value).

Definition location_leb (x y : Location) : bool :=
  match str_cmp (loc_path x) (loc_path y) with
  | Lt => true
  | Gt => false
  | Eq =>
      match N.compare (start_byte x) (start_byte y) with
      | Lt => true
      | Gt => false
      | Eq => (end_byte x <=? end_byte y)%N
      end
  end.

(** [windows(2).all]. *)
Fixpoint windows_all {A} (f : A → A → bool) (l : list A) : bool :=
  match l with
  | x :: (y :: _) as l => f x y && windows_all f l
  | _ => true
  end.

Definition locations_are_canonical (ls : list Location) : bool := windows_all location_leb ls.

Definition span_leb (x y : Location) : bool :=
  match N.compare (start_byte x) (start_byte y) with
  | Lt => true
  | Gt => false
  | Eq => (end_byte x <=? end_byte y)%N
  end.

Definition entity_run_is_canonical (path : str) (entities : list EntityFact) : bool :=
  forallb (λ e, str_eqb (loc_path (ef_location e)) path) entities &&
  windows_all (λ x y, span_leb (ef_location x) (ef_location y)) entities.

Fixpoint has_duplicate (seen : gset str) (strings : list str) : bool :=
  match strings with
  | [] => false
  | s :: strings => if bool_decide (s ∈ seen) then true else has_duplicate ({[ s ]} ∪ seen) strings
  end.

Definition read_slot {A} (tag : N) (m : reader A) : reader (SlotOp A) :=
  match tag with
  | 0 => mret SlotUnchanged
  | 1 => a ← m; mret (SlotReplace a)
  | 2 => mret SlotRemove
  | _ => fail DecodePanic
  end%N.

Definition source_slot : reader SourceHash := raw ← Cursor.raw 32; lift (raw_digest raw).

Definition entity_slot (strings : list str) (path : str) (table_schema : N)
    : reader (list EntityFact) :=
  entities ← entity_run strings path table_schema;
  ensure_read (negb (bool_decide (entities = []))) EntityReplacementEmpty;;
  ensure_read (entity_run_is_canonical path entities) EntityReplacementOrder;;
  mret entities.

Definition path_operation (strings : list str) (mode : TransitionMode) (table_schema : N)
    (previous_path : option str) : reader (PathOp * option str) :=
  path ← string_index strings "path operation";
  ensure_read (negb (is_empty path)) PathEmpty;;
  ensure_read (match previous_path with Some previous => str_ltb previous path | None => true end)
    PathsNotOrdered;;
  flags ← Cursor.u64;
  ensure_read (only_flags flags 63) (UnknownFlags "table transition path" flags);;
  source_tag ← lift (slot_tag (N.land flags 3) "source");
  entity_tag ← lift (slot_tag (N.land (N.shiftr flags 2) 3) "entity");
  file_tag ← lift (slot_tag (N.land (N.shiftr flags 4) 3) "file");
  ensure_read (negb ((source_tag =? 0)%N && (entity_tag =? 0)%N && (file_tag =? 0)%N))
    PathUnchanged;;
  ensure_read (negb (bool_decide (mode = Full) &&
    ((source_tag =? 2)%N || (entity_tag =? 2)%N || (file_tag =? 2)%N))) FullRemoves;;
  source ← read_slot source_tag source_slot;
  entities ← read_slot entity_tag (entity_slot strings path table_schema);
  file ← read_slot file_tag (file_fact strings path);
  mret ({| po_path := path; po_source := source; po_entities := entities; po_file := file |},
        Some path).

Definition SymbolKey : Type := str * N * str.

(** The tuple order of a symbol operation's key. *)
Definition symbol_key_ltb (x y : SymbolKey) : bool :=
  match str_cmp x.1.1 y.1.1 with
  | Lt => true
  | Gt => false
  | Eq => match N.compare x.1.2 y.1.2 with Lt => true | Gt => false | Eq => str_ltb x.2 y.2 end
  end.

Definition symbol_body (strings : list str) (id : str) (tag : N) : reader (SymbolOp * str) :=
  match tag with
  | 0 =>
      alias_target ← string_index strings "alias target";
      declarations ← declarations strings;
      references ← locations strings;
      ensure_read (locations_are_canonical references) ReferencesOrder;;
      ensure_read (is_empty alias_target || bool_decide (references = [])) AliasWithReferences;;
      mret (SymbolReplace {| sf_id := id; sf_references := references;
                             sf_alias_target := alias_target;
                             sf_declarations := declarations |}, empty_str)
  | 1 => mret (SymbolRemove id, empty_str)
  | 2 =>
      path ← string_index strings "symbol reference path";
      ensure_read (negb (is_empty path)) ReferencePathEmpty;;
      references ← locations strings;
      ensure_read (forallb (λ r, str_eqb (loc_path r) path) references &&
                   locations_are_canonical references) ReferencesOrder;;
      mret (SymbolReplaceReferencePath id path references, path)
  | _ => fail DecodePanic
  end%N.

Definition symbol_header (mode : TransitionMode) (header : N) : result DecodeError (N * N) :=
  match mode with
  | Full => Ok (header, 0%N)
  | Delta =>
      let tag := N.land header 3 in
      if (tag =? 3)%N then Err SymbolTag else Ok (N.shiftr header 2, tag)
  end.

(** A symbol operation's header: the id it names and its tag. *)
Definition symbol_id (strings : list str) (mode : TransitionMode) : reader (str * N) :=
  header ← Cursor.u64;
  '(value, tag) ← lift (symbol_header mode header);
  id_index ← lift (ok_or (StringIndexOverflow "symbol id") (usize_try_from value));
  id ← lift (ok_or (StringIndexRange "symbol id" id_index) (strings !! N.to_nat id_index));
  ensure_read (negb (is_empty id)) SymbolIdEmpty;;
  ensure_read (negb (bool_decide (mode = Full) && negb (tag =? 0)%N)) FullSymbolOperation;;
  mret (id, tag).

Definition symbol_operation (strings : list str) (mode : TransitionMode)
    (previous_key : option SymbolKey) : reader (SymbolOp * option SymbolKey) :=
  '(id, tag) ← symbol_id strings mode;
  '(operation, reference_path) ← symbol_body strings id tag;
  let key := (id, tag, reference_path) in
  ensure_read (match previous_key with Some previous => symbol_key_ltb previous key | None => true end)
    SymbolsNotOrdered;;
  mret (operation, Some key).

Definition check_base (mode : TransitionMode) (base_generation target_generation : N)
    (base_state_token : str) : result DecodeError () :=
  match mode with
  | Full =>
      if negb (base_generation =? 0)%N || negb (is_empty base_state_token)
      then Err FullWithBase else Ok tt
  | Delta =>
      if (base_generation =? 0)%N || is_empty base_state_token then Err DeltaWithoutBase
      else if (target_generation <? base_generation)%N then Err TargetPrecedesBase else Ok tt
  end.

Definition transition_mode (value : N) : result DecodeError TransitionMode :=
  match value with 0 => Ok Full | 1 => Ok Delta | value => Err (UnsupportedMode value) end%N.

(** What follows the dictionary: the identity and the operations. *)
Definition operations (strings : list str) (mode : TransitionMode)
    (table_schema base_generation target_generation : N)
    : reader (str * str * list PathOp * list SymbolOp) :=
  project_id ← string_index strings "project id";
  ensure_read (negb (is_empty project_id)) ProjectIdEmpty;;
  base_state_token ← string_index strings "base state token";
  lift (check_base mode base_generation target_generation base_state_token);;
  path_count ← Cursor.count "path operations";
  paths ← repeat_state (N.to_nat path_count) (path_operation strings mode table_schema) None;
  symbol_count ← Cursor.count "symbol operations";
  symbols ← repeat_state (N.to_nat symbol_count) (symbol_operation strings mode) None;
  mret (project_id, base_state_token, paths, symbols).

(** The dictionary begins with the empty string and repeats nothing. *)
Definition dictionary : reader (list str) :=
  strings ← packed_strings;
  ensure_read (match strings with s :: _ => is_empty s | [] => false end) DictionaryWithoutEmpty;;
  ensure_read (negb (has_duplicate ∅ strings)) DictionaryDuplicate;;
  mret strings.

Definition end_of_input : reader () := λ c,
  if (offset c =? length (input c))%nat then Ok (tt, c) else Err TrailingBytes.

Definition transition : reader WireTableTransition :=
  version ← Cursor.u64;
  ensure_read (version =? table_transition_version)%N (UnsupportedVersion version);;
  mode_tag ← Cursor.u64;
  mode ← lift (transition_mode mode_tag);
  table_schema ← Cursor.u64;
  ensure_read (existsb (N.eqb table_schema) supported_table_schemas)
    (UnsupportedSchema table_schema);;
  base_generation ← Cursor.u64;
  target_generation ← Cursor.u64;
  ensure_read (negb (target_generation =? 0)%N) TargetGenerationZero;;
  strings ← dictionary;
  '(project_id, base_state_token, paths, symbols) ←
    operations strings mode table_schema base_generation target_generation;
  end_of_input;;
  mret {| wt_mode := mode; wt_table_schema := table_schema; wt_base_generation := base_generation;
          wt_target_generation := target_generation; wt_project_id := project_id;
          wt_base_state_token := base_state_token; wt_paths := paths; wt_symbols := symbols |}.

End Decode.

Definition decode_table_transition (input : list N) : result DecodeError WireTableTransition :=
  '(transition, _) ← Decode.transition (Cursor.new input);
  Ok transition.
