(* ===== verification/WireRows.v ===== *)
(** * Row writers and the transition frame

    [typefacts/src/producer/rows.rs], each writer mirroring one reader of
    [WireDecode], the operations of [producer/plan.rs] they write, and
    [write_transition] of [producer/encoder.rs]: rows and their dictionary are
    collected first, the header and the dictionary precede them in the frame. *)
From S2P Require Export WireDecode.

(** ** Operations to write *)

Inductive Slot (T : Type) := Unchanged | Replace (t : T) | Remove.
Arguments Unchanged {T}.
Arguments Replace {T} _.
Arguments Remove {T}.

Definition slot_code {T} (s : Slot T) : N :=
  match s with Unchanged => 0 | Replace _ => 1 | Remove => 2 end.
Definition is_unchanged {T} (s : Slot T) : bool := match s with Unchanged => true | _ => false end.

Record PathOpRef := {
  pr_path : str; pr_source : Slot SourceHash; pr_entities : Slot (list EntityFact);
  pr_file : Slot FileFact
}.

Inductive SymbolBody :=
  | BodyReplace (fact : SymbolFact)
  | BodyRemove
  | BodyReplaceReferencePath (path : str) (references : list Location).

Record SymbolOpRef := { sr_id : str; sr_body : SymbolBody }.

Definition body_tag (b : SymbolBody) : N :=
  match b with BodyReplace _ => 0 | BodyRemove => 1 | BodyReplaceReferencePath _ _ => 2 end.

(** ** Codes *)

Definition validity_code (value : ResolvedCallValidity) : N :=
  match value with
  | ResolvedCallValidity_Valid => 0
  | ResolvedCallValidity_Recovery => 1
  | ResolvedCallValidity_Unresolved => 2
  end.

Definition call_kind_code (value : CallKind) : N :=
  match value with CallKind_Unknown => 0 | CallKind_Call => 1 | CallKind_Construct => 2 end.

Definition callability_code (value : Callability) (schema : N) : N :=
  let value :=
    if eqb value Callability_UntypedCallable && (schema <? 15)%N then Callability_Unknown
    else value in
  match value with
  | Callability_Callable => 0
  | Callability_NonCallable => 1
  | Callability_Mixed => 2
  | Callability_Unknown => 3
  | Callability_UntypedCallable => 4
  end.

Definition constructability_code (value : Constructability) : N :=
  match value with
  | Constructability_Constructable => 0
  | Constructability_NonConstructable => 1
  | Constructability_Mixed => 2
  | Constructability_Unknown => 3
  end.

Definition array_shape_code (value : ArrayShape) : N :=
  match value with
  | ArrayShape_Array => 0 | ArrayShape_NotArray => 1 | ArrayShape_Mixed => 2
  | ArrayShape_Unknown => 3
  end.

Definition reference_space_code (value : ReferenceSpace) : N :=
  match value with
  | ReferenceSpace_Value => 0 | ReferenceSpace_Type => 1 | ReferenceSpace_Both => 2
  | ReferenceSpace_Neither => 3
  end.

Definition runtime_value_domain_bits (value : RuntimeValueDomain) : N :=
  N.lor (N.lor (N.lor (N.b2n (rvd_may_be_callable value))
    (N.shiftl (N.b2n (rvd_may_be_undefined value)) 1))
    (N.shiftl (N.b2n (rvd_may_be_other value)) 2)) (N.shiftl (N.b2n (rvd_unknown value)) 3).

Definition primitive_value_domain_bits (value : PrimitiveValueDomain) : N :=
  foldl N.lor (N.b2n (pvd_may_be_string value))
    [N.shiftl (N.b2n (pvd_may_be_number value)) 1; N.shiftl (N.b2n (pvd_may_be_boolean value)) 2;
     N.shiftl (N.b2n (pvd_may_be_big_int value)) 3; N.shiftl (N.b2n (pvd_may_be_symbol value)) 4;
     N.shiftl (N.b2n (pvd_may_be_null value)) 5; N.shiftl (N.b2n (pvd_may_be_undefined value)) 6;
     N.shiftl (N.b2n (pvd_may_be_object value)) 7; N.shiftl (N.b2n (pvd_unknown value)) 8;
     N.shiftl (N.b2n (pvd_numbers_are_finite value)) 9]%N.

Definition binding_kind_code (kind : RuntimeBindingKind) : N :=
  match kind with
  | RuntimeBindingKind_Callable => 0 | RuntimeBindingKind_NonCallable => 1
  | RuntimeBindingKind_Mixed => 2 | RuntimeBindingKind_Open => 3
  end.

Definition witness_code (witness : ConstructionWitness) : N :=
  match witness with
  | ConstructionWitness_Unknown => 0 | ConstructionWitness_EmptyArray => 1
  | ConstructionWitness_EmptyObject => 2
  end.

Definition status_code (status : ArgumentMappingStatus) : N :=
  match status with ArgumentMappingStatus_Resolved => 0 | ArgumentMappingStatus_Unresolved => 1 end.

Definition reason_code (reason : option ArgumentMappingReason) : N :=
  match reason with
  | None => 0
  | Some ArgumentMappingReason_CallUnresolved => 1
  | Some ArgumentMappingReason_RecoverySignature => 2
  | Some ArgumentMappingReason_CompositeSignature => 3
  | Some ArgumentMappingReason_SpreadArgument => 4
  | Some ArgumentMappingReason_ParameterUnavailable => 5
  end.

(** A flags word: each bit set when its row is present. *)
Definition flags_of (l : list (bool * N)) : N :=
  foldl (λ flags '(present, bit), if present : bool then N.lor flags bit else flags) 0%N l.

Definition digest_bytes (hash : SourceHash) : result EncodeError (list N) :=
  match strip_prefix sha256_prefix (str_bytes (as_str hash)) with
  | Some digits =>
      if negb (length digits =? 64) then Err (Invalid (DigestNotSha256 hash))
      else
        ok_or (Invalid (DigestNotHex hash))
          (mapM (λ '(a, b), high ← hex_value a; low ← hex_value b; Some (high * 16 + low)%N)
             (chunks2 digits))
  | None => Err (Invalid (DigestNotSha256 hash))
  end.

Definition nonempty {A} (l : option (list A)) : option (list A) :=
  match l with Some [] => None | l => l end.

Module Rows.
Section rows.
Context {S : Type} `{TransitionSink S}.
Local Abbreviation writer := (writer S).

Definition validate_location (l : Location) : writer () :=
  ensure (start_byte l <=? end_byte l)%N (EndPrecedesStart (end_byte l) (start_byte l)).

Definition declaration (d : Declaration) (state : LocationState) : writer LocationState :=
  Writer.text (decl_name d);;
  Writer.text (decl_kind d);;
  Writer.location (decl_location d) state.

Definition declarations (ds : list Declaration) : writer () :=
  Writer.u64 (N.of_nat (length ds));;
  write_state declaration ds location_state_default;;
  mret ().

Definition type_descriptor (d : TypeDescriptor) : writer () :=
  Writer.text (td_text d);;
  Writer.text (td_origin_module d);;
  declarations (td_alias_declarations d).

Definition owner (o : DeclarationOwner) (state : LocationState) : writer LocationState :=
  Writer.text (do_symbol o);;
  Writer.text (do_name o);;
  Writer.text (do_kind o);;
  Writer.location (do_location o) state.

Definition resolved_declaration (d : ResolvedDeclaration) : writer () :=
  Writer.text (rd_symbol d);;
  Writer.text (rd_name d);;
  Writer.text (rd_kind d);;
  state ← Writer.location (rd_location d) location_state_default;
  Writer.u64 (N.of_nat (length (rd_owners d)));;
  write_state owner (rd_owners d) state;;
  Writer.text (rd_qualified_name d);;
  Writer.text (rd_origin_module d);;
  Writer.text (rd_source_file d);;
  Writer.bool (rd_standard_library d).

Definition object_property (p : ObjectConstructionProperty) : writer () :=
  Writer.text (ocp_name p);;
  Writer.u64 (witness_code (ocp_witness p)).

Definition object_shape (s : ObjectConstructionShape) : writer () :=
  Writer.u64 (N.of_nat (length (ocs_required_properties s)));;
  write_all object_property (ocs_required_properties s).

Definition single_declaration (d : Declaration) : writer () :=
  declaration d location_state_default;;
  mret ().

Definition parameter (schema : N) (p : ParameterFact) : writer () :=
  let shape := if (17 <=? schema)%N then pf_object_shape p else None in
  Writer.u64 (pf_index p);;
  Writer.text (pf_symbol p);;
  Writer.u64 (flags_of
    [(bool_decide (is_Some (pf_declaration p)), 1); (pf_rest p, 2); (pf_optional p, 4);
     (bool_decide (is_Some (pf_type_descriptor p)), 8); (bool_decide (is_Some shape), 16)]%N);;
  write_option single_declaration (pf_declaration p);;
  Writer.u64 (callability_code (pf_callability p) schema);;
  write_option type_descriptor (pf_type_descriptor p);;
  write_option object_shape shape.

Definition argument_mapping (schema : N) (index : nat) (m : ArgumentMapping) : writer () :=
  let status := status_code (am_status m) in
  let reason := reason_code (am_unresolved m) in
  ensure (Bool.eqb (status =? 0)%N (reason =? 0)%N) (ArgumentDisagrees index);;
  Writer.u64 (am_argument_index m);;
  Writer.u64 status;;
  Writer.u64 reason;;
  Writer.bool (bool_decide (is_Some (am_parameter m)));;
  write_option (parameter schema) (am_parameter m).

Definition target_candidate (index : nat) (d : ResolvedDeclaration) : writer () :=
  ensure (negb (is_empty (rd_symbol d))) (CandidateWithoutSymbol index);;
  resolved_declaration d.

Definition target_set (t : CallTargetSet) : writer () :=
  ensure (negb (bool_decide (cts_candidates t = []))) NoTargetCandidates;;
  Writer.bool (cts_exhaustive t);;
  Writer.u64 (N.of_nat (length (cts_candidates t)));;
  write_indexed target_candidate 0 (cts_candidates t).

(** An optional row behind its presence boolean. *)
Definition present_row {A} (f : A → writer ()) (o : option A) : writer () :=
  Writer.bool (bool_decide (is_Some o));;
  write_option f o.

Definition resolved_call (schema : N) (c : ResolvedCall) : writer () :=
  let validity := validity_code (rc_validity c) in
  let kind := call_kind_code (rc_kind c) in
  Writer.text (rc_target c);;
  Writer.text (rc_return_type_text c);;
  Writer.u64 validity;;
  Writer.u64 kind;;
  present_row resolved_declaration (rc_declaration c);;
  (if (6 <=? schema)%N then present_row target_set (rc_targets c) else mret ());;
  Writer.u64 (N.of_nat (length (rc_arguments c)));;
  write_indexed (argument_mapping schema) 0 (rc_arguments c);;
  (if (19 <=? schema)%N
   then Writer.u64 (N.lor (N.b2n (rc_assertion_signature c) * 1) (N.b2n (rc_never_returns c) * 2))
   else mret ());;
  (if (20 <=? schema)%N then present_row resolved_declaration (rc_default_library_binding c)
   else mret ()).

Definition source_call (c : SourceCall) : writer () :=
  state ← Writer.location (sc_location c) location_state_default;
  Writer.location (sc_callee c) state;;
  Writer.locations (sc_arguments c);;
  Writer.text (sc_target c).

(** ** Entity runs *)

Definition check_claim (index : nat) (e : EntityFact) : writer () :=
  match ef_symbol_claim e with
  | SymbolClaim_Unresolved => ensure (is_empty (ef_symbol e)) (EntityResolvedUnresolved index)
  | SymbolClaim_Covering => ensure (negb (is_empty (ef_symbol e))) (EntityCoversWithoutSymbol index)
  | _ => mret ()
  end.

Definition check_constant (index : nat) (e : EntityFact) : writer () :=
  match ef_constant_value e with
  | Some constant =>
      if eqb (cv_kind constant) ConstantValueKind_Number && is_nan (cv_number constant)
      then in_context (InEntity index) (invalid ConstantNumberNaN) else mret ()
  | None => mret ()
  end.

Definition constant_value (c : ConstantValue) : writer () :=
  match cv_kind c with
  | ConstantValueKind_String => Writer.u64 0;; Writer.text (cv_string c)
  | ConstantValueKind_Number => Writer.u64 1;; Writer.u64 (to_bits (cv_number c))
  end.

Definition tuple_shape (schema : N) (s : TupleShape) : writer () :=
  Writer.u64 (N.lor (N.shiftl (ts_fixed_length s) 1) (N.b2n (ts_has_rest s)));;
  Writer.u64 (callability_code (default Callability_Unknown (ts_element_zero s)) schema);;
  Writer.u64 (ts_element_zero_min_parameters s);;
  if (13 <=? schema)%N
  then Writer.u64 (match ts_exact_length s with Some length => length + 1 | None => 0 end)%N
  else mret ().

Definition name_list (names : list str) : writer () :=
  Writer.u64 (N.of_nat (length names));;
  write_all Writer.text names.

Definition literal_candidate (index : nat) (c : PrimitiveLiteralCandidate) : writer () :=
  match plc_kind c with
  | PrimitiveLiteralKind_String => Writer.u64 0;; Writer.text (plc_string c)
  | PrimitiveLiteralKind_Number =>
      (if negb (is_finite (plc_number c))
       then in_context (InEntity index) (invalid NonFiniteCandidate) else mret ());;
      Writer.u64 1;;
      Writer.u64 (to_bits (plc_number c))
  | PrimitiveLiteralKind_Boolean => Writer.u64 2;; Writer.bool (plc_boolean c)
  end.

Definition literal_candidates (index : nat) (cs : list PrimitiveLiteralCandidate) : writer () :=
  Writer.u64 (N.of_nat (length cs));;
  write_all (literal_candidate index) cs.

Definition entity_flags (schema : N) (e : EntityFact) : N :=
  let at_least v present := (v <=? schema)%N && present in
  flags_of
    [(bool_decide (is_Some (ef_type_descriptor e)), 1);
     (bool_decide (is_Some (ef_resolved_call e)), 2);
     (bool_decide (is_Some (ef_callability e)), 4);
     (bool_decide (is_Some (ef_reference_space e)), 8);
     (negb (is_empty (ef_runtime_identity e)), 16);
     (bool_decide (is_Some (ef_runtime_value_domain e)), 32);
     (at_least 7 (bool_decide (is_Some (ef_call_result_domain e))), 128);
     (at_least 8 (bool_decide (is_Some (ef_constant_value e))), 256);
     (at_least 9 (bool_decide (is_Some (ef_array_shape e))), 512);
     (at_least 11 (bool_decide (is_Some (ef_tuple_shape e))), 1024);
     (at_least 12 (bool_decide (is_Some (nonempty (ef_library_types e)))), 2048);
     (at_least 13 (pvd_is_present (ef_primitive_value_domain e)), 4096);
     (at_least 14 (bool_decide (is_Some (ef_constructability e))), 8192);
     (at_least 16 (bool_decide (is_Some (nonempty (ef_primitive_literal_candidates e)))), 16384);
     (at_least 18 (bool_decide (is_Some (ef_runtime_binding_kind e))), 32768);
     (at_least 23 (bool_decide (is_Some (ef_declared_keys e))), 65536);
     (at_least 24 (ef_writable_optional_property e), 131072);
     (at_least 5 (eqb (ef_symbol_claim e) SymbolClaim_Unresolved), 64);
     (at_least 21 (eqb (ef_symbol_claim e) SymbolClaim_Covering), 64)]%N.

(** A row from the schema that knows it on. *)
Definition since {A} (v schema : N) (f : A → writer ()) (o : option A) : writer () :=
  if (v <=? schema)%N then write_option f o else mret ().

Definition entity_body (schema : N) (index : nat) (e : EntityFact) : writer () :=
  write_option type_descriptor (ef_type_descriptor e);;
  write_option (λ c, in_context (InResolvedCall index) (resolved_call schema c))
    (ef_resolved_call e);;
  write_option (λ c, Writer.u64 (callability_code c schema)) (ef_callability e);;
  write_option (λ c, Writer.u64 (reference_space_code c)) (ef_reference_space e);;
  (if negb (is_empty (ef_runtime_identity e)) then Writer.text (ef_runtime_identity e)
   else mret ());;
  write_option (λ d, Writer.u64 (runtime_value_domain_bits d)) (ef_runtime_value_domain e);;
  since 7 schema (λ d, Writer.u64 (runtime_value_domain_bits d)) (ef_call_result_domain e);;
  since 8 schema constant_value (ef_constant_value e);;
  since 9 schema (λ c, Writer.u64 (array_shape_code c)) (ef_array_shape e);;
  since 11 schema (tuple_shape schema) (ef_tuple_shape e);;
  since 12 schema name_list (nonempty (ef_library_types e));;
  (if (13 <=? schema)%N && pvd_is_present (ef_primitive_value_domain e)
   then Writer.u64 (primitive_value_domain_bits (ef_primitive_value_domain e)) else mret ());;
  since 14 schema (λ c, Writer.u64 (constructability_code c)) (ef_constructability e);;
  since 16 schema (literal_candidates index) (nonempty (ef_primitive_literal_candidates e));;
  since 18 schema (λ k, Writer.u64 (binding_kind_code k)) (ef_runtime_binding_kind e);;
  since 23 schema name_list (ef_declared_keys e).

Definition entity (path : str) (schema : N) (index : nat) (e : EntityFact)
    (previous_start : Z) : writer Z :=
  ensure (str_eqb (loc_path (ef_location e)) path) (EntityPathDiffers index);;
  in_context (InEntityLocation index) (validate_location (ef_location e));;
  check_claim index e;;
  check_constant index e;;
  let start := Z.of_N (start_byte (ef_location e)) in
  ensure (start <? i64_limit)%Z (EntityStartOverflow index);;
  Writer.signed (start - previous_start)%Z;;
  Writer.u64 (end_byte (ef_location e) - start_byte (ef_location e))%N;;
  Writer.text (ef_symbol e);;
  Writer.u64 (entity_flags schema e);;
  entity_body schema index e;;
  mret start.

Fixpoint entity_rows (path : str) (schema : N) (index : nat) (previous_start : Z)
    (entities : list EntityFact) : writer () :=
  match entities with
  | [] => mret ()
  | e :: entities =>
      start ← entity path schema index e previous_start;
      entity_rows path schema (Datatypes.S index) start entities
  end.

Definition entity_run (path : str) (schema : N) (entities : list EntityFact) : writer () :=
  Writer.u64 (N.of_nat (length entities));;
  entity_rows path schema 0 0%Z entities.

(** ** File facts *)

Definition binding (b : SourceBinding) : writer () :=
  Writer.u64 (if sb_array b then 1 else 0)%N;;
  Writer.locations (sb_names b);;
  source_call (sb_initializer b).

Definition function (f : SourceFunction) : writer () :=
  state ← Writer.location (fn_name f) location_state_default;
  Writer.location (fn_body f) state;;
  Writer.locations (fn_parameters f);;
  Writer.u64 (flags_of [(fn_exported f, 1); (fn_async f, 2); (fn_arrow f, 4)]%N).

Definition async_function (f : AsyncFunctionFact) : writer () :=
  Writer.location (af_expression f) location_state_default;;
  Writer.text (af_symbol f);;
  Writer.text (af_target f);;
  Writer.u64 (if af_can_return_async f then 1 else 0)%N;;
  Writer.locations (af_calls_after_await f).

Definition file_body (f : FileFact) : writer () :=
  Writer.u64 (N.of_nat (length (ff_calls f)));;
  write_all source_call (ff_calls f);;
  Writer.u64 (N.of_nat (length (ff_bindings f)));;
  write_all binding (ff_bindings f);;
  Writer.u64 (N.of_nat (length (ff_functions f)));;
  write_all function (ff_functions f);;
  Writer.u64 (N.of_nat (length (ff_async_functions f)));;
  write_all async_function (ff_async_functions f).

(** ** Operations *)

Definition lift_encode {A} (r : result EncodeError A) : writer A := λ w,
  match r with Ok a => Ok (a, w) | Err e => Err e end.

Definition write_path_op (operation : PathOpRef) (schema : N) : writer () :=
  ensure (negb (is_empty (pr_path operation))) PathOperationEmpty;;
  let flags := N.lor (N.lor (N.shiftl (slot_code (pr_source operation)) 0)
    (N.shiftl (slot_code (pr_entities operation)) 2))
    (N.shiftl (slot_code (pr_file operation)) 4) in
  Writer.text (pr_path operation);;
  Writer.u64 flags;;
  (match pr_source operation with
   | Replace source => raw ← lift_encode (digest_bytes source); Writer.raw raw
   | _ => mret ()
   end);;
  (match pr_entities operation with
   | Replace entities =>
       in_context (InEntityReplacement (pr_path operation))
         (entity_run (pr_path operation) schema entities)
   | _ => mret ()
   end);;
  (match pr_file operation with
   | Replace file =>
       ensure (str_eqb (ff_path file) (pr_path operation)) FilePathDiffers;;
       file_body file
   | _ => mret ()
   end).

Definition reference (path : str) (index : nat) (r : Location) : writer () :=
  ensure (str_eqb (loc_path r) path) (ReferencePathDiffers index);;
  in_context (InReferenceLocation index) (validate_location r).

Definition symbol_header (mode : TransitionMode) (id : N) (body : SymbolBody) : writer () :=
  match mode with
  | Full =>
      match body with
      | BodyReplace _ => Writer.u64 id
      | _ => invalid (FullSymbolTag (body_tag body))
      end
  | Delta => Writer.u64 (N.lor (u64_shl id 2) (body_tag body))
  end.

Definition symbol_body (id : str) (body : SymbolBody) : writer () :=
  match body with
  | BodyReplace fact =>
      ensure (str_eqb (sf_id fact) id) SymbolIdDiffers;;
      Writer.text (sf_alias_target fact);;
      declarations (sf_declarations fact);;
      if is_empty (sf_alias_target fact) then Writer.locations (sf_references fact)
      else Writer.u64 0
  | BodyRemove => mret ()
  | BodyReplaceReferencePath path references =>
      ensure (negb (is_empty path)) ReferenceOperationEmptyPath;;
      Writer.text path;;
      write_indexed (reference path) 0 references;;
      Writer.locations references
  end.

Definition write_symbol_op (mode : TransitionMode) (operation : SymbolOpRef) : writer () :=
  ensure (negb (is_empty (sr_id operation))) SymbolOperationEmpty;;
  id ← Writer.intern (sr_id operation);
  symbol_header mode id (sr_body operation);;
  symbol_body (sr_id operation) (sr_body operation).

End rows.
End Rows.

(** ** Frames *)

Record Plan := {
  pl_mode : TransitionMode; pl_table_schema : N; pl_base_generation : N;
  pl_target_generation : N; pl_project_id : str; pl_base_state_token : str;
  pl_paths : list PathOpRef; pl_symbols : list SymbolOpRef
}.

Section transition.
Context {S : Type} `{TransitionSink S}.

Definition intern_key (s : str) : writer S () := Writer.intern s;; mret ().

(** The keys, interned next to one another before any row. *)
Definition write_keys (plan : Plan) : writer S () :=
  Writer.text (pl_project_id plan);;
  Writer.text (pl_base_state_token plan);;
  write_all (λ op, intern_key (pr_path op)) (pl_paths plan);;
  write_all (λ op, intern_key (sr_id op)) (pl_symbols plan);;
  write_all (λ op, match sr_body op with
                   | BodyReplaceReferencePath path _ => intern_key path
                   | _ => mret ()
                   end) (pl_symbols plan).

Definition write_operations (plan : Plan) : writer S () :=
  Writer.u64 (N.of_nat (length (pl_paths plan)));;
  write_indexed (λ index op, in_context (InPathOperation index)
    (Rows.write_path_op op (pl_table_schema plan))) 0 (pl_paths plan);;
  Writer.u64 (N.of_nat (length (pl_symbols plan)));;
  write_indexed (λ index op, in_context (InSymbolOperation index)
    (Rows.write_symbol_op (pl_mode plan) op)) 0 (pl_symbols plan).

Definition mode_code (mode : TransitionMode) : N := match mode with Full => 0 | Delta => 1 end.

(** The header and the dictionary, which precede the rows. *)
Definition frame_prefix (plan : Plan) (d : Dictionary) : list N :=
  let frame := push_uvarint [] table_transition_version in
  let frame := push_uvarint frame (mode_code (pl_mode plan)) in
  let frame := push_uvarint frame (pl_table_schema plan) in
  let frame := push_uvarint frame (pl_base_generation plan) in
  let frame := push_uvarint frame (pl_target_generation plan) in
  append_packed_dictionary frame d.

(** [write_transition]: the frame, empty with a sink, and the sink. *)
Definition write_transition (plan : Plan) (sink : option S)
    : result EncodeError (list N * option S) :=
  '(_, rows) ← (write_keys plan;; write_operations plan) (Writer.new sink);
  '(row_bytes, dictionary, sink) ← Writer.finish rows;
  let frame := frame_prefix plan dictionary in
  match sink with
  | Some s =>
      match sink_finish s frame with
      | (s, None) => Ok ([], Some s)
      | (_, Some e) => Err (Sink e)
      end
  | None => Ok (frame ++ row_bytes, None)
  end.

End transition.

(** ** Writing decoded operations back *)

Definition slot_ref {T} (op : SlotOp T) : Slot T :=
  match op with SlotUnchanged => Unchanged | SlotReplace t => Replace t | SlotRemove => Remove end.

Definition path_ref (op : PathOp) : PathOpRef :=
  {| pr_path := po_path op; pr_source := slot_ref (po_source op);
     pr_entities := slot_ref (po_entities op); pr_file := slot_ref (po_file op) |}.

Definition symbol_ref (op : SymbolOp) : SymbolOpRef :=
  match op with
  | SymbolReplace fact => {| sr_id := sf_id fact; sr_body := BodyReplace fact |}
  | SymbolRemove id => {| sr_id := id; sr_body := BodyRemove |}
  | SymbolReplaceReferencePath id path references =>
      {| sr_id := id; sr_body := BodyReplaceReferencePath path references |}
  end.

(** The sink of a frame that stays in memory. *)
#[global] Instance no_sink : TransitionSink Empty_set := {
  append_rows := λ s _, (s, None); sink_finish := λ s _, (s, None)
}.

Definition write_frame (plan : Plan) : result EncodeError (list N) :=
  '(frame, _) ← write_transition (S := Empty_set) plan None; Ok frame.

Definition plan_of (t : WireTableTransition) : Plan :=
  {| pl_mode := wt_mode t; pl_table_schema := wt_table_schema t;
     pl_base_generation := wt_base_generation t; pl_target_generation := wt_target_generation t;
     pl_project_id := wt_project_id t; pl_base_state_token := wt_base_state_token t;
     pl_paths := path_ref <$> wt_paths t; pl_symbols := symbol_ref <$> wt_symbols t |}.

(** Errors of the two halves, kept apart. *)
Definition reencode_table_transition (input : list N)
    : result (DecodeError + EncodeError) (list N) :=
  transition ← map_err inl (decode_table_transition input);
  map_err inr (write_frame (plan_of transition)).
