(* ===== verification/WireValues.v ===== *)
(** * What a writer writes, a reader reads

    [encodes m d P]: run without a sink, the writer [m] appends bytes that the
    reader [d], given any dictionary extending the writer's, reads back to a
    value related by [P] to what [m] returned. The rules compose it along the
    two monads; the writer's primitives, the location runs and the compact
    values satisfy it, each as far as a table schema carries it. *)
From S2P Require Export WireRows WireIntSpec.

(** ** The dictionary *)

Definition dict_ok (d : Dictionary) : Prop :=
  ∀ s i, indexes d !! s = Some i ↔ values d !! N.to_nat i = Some s.

Lemma dict_new_ok : dict_ok dict_new.
Proof.
  intros s i. unfold dict_new; cbn [indexes values]. rewrite lookup_singleton_Some. split.
  - by intros [<- <-].
  - intros Hl. destruct (N.to_nat i) as [|n] eqn:E; simpl in Hl; [|by rewrite lookup_nil in Hl].
    injection Hl as <-. split; [done|lia].
Qed.

Lemma dict_intern_spec d s i d' :
  dict_ok d → dict_intern d s = (i, d') →
  dict_ok d' ∧ values d `prefix_of` values d' ∧ values d' !! N.to_nat i = Some s.
Proof.
  intros Hd. unfold dict_intern. destruct (indexes d !! s) as [j|] eqn:E.
  - intros [= <- <-]. split; [done|split; [done|by apply Hd]].
  - unfold dict_insert. intros [= <- <-]. cbn [indexes values]. split_and!.
    + intros t k. cbn [indexes values]. rewrite lookup_insert_Some, lookup_snoc_Some.
      rewrite (Hd t k). split.
      * intros [[<- <-]|[? ?]]; [right; split; [lia|done]|by left].
      * intros [Hk|[Hk ->]]; [right; split; [|done]|left; split; [done|lia]].
        intros ->. apply Hd in Hk. congruence.
    + by apply prefix_app_r.
    + rewrite lookup_app_r, Nat2N.id, Nat.sub_diag by lia. done.
Qed.

Lemma dict_ok_NoDup d : dict_ok d → NoDup (values d).
Proof.
  intros Hd. apply NoDup_alt. intros i j s Hi Hj.
  assert (indexes d !! s = Some (N.of_nat i)) as E1 by (apply Hd; by rewrite Nat2N.id).
  assert (indexes d !! s = Some (N.of_nat j)) as E2 by (apply Hd; by rewrite Nat2N.id).
  rewrite E1 in E2. injection E2. lia.
Qed.

(** ** The relation *)

Definition dictionary_limit : nat := N.to_nat Cursor.packed_collection_limit.

Section encodes.
Context {S : Type} `{TransitionSink S}.

Definition quiet (w : RowWriter S) : Prop := sink w = None ∧ error w = None ∧ dict_ok (dict w).

Definition encodes {A B} (m : writer S A) (d : list str → reader B) (P : A → B → Prop) : Prop :=
  ∀ w a w', quiet w → m w = Ok (a, w') →
    ∃ bs b, quiet w' ∧ bytes w' = bytes w ++ bs ∧
      values (dict w) `prefix_of` values (dict w') ∧ P a b ∧
      ∀ strings, values (dict w') `prefix_of` strings → length strings ≤ dictionary_limit →
        reads (d strings) bs b.

Lemma encodes_ret {A B} (P : A → B → Prop) a b :
  P a b → encodes (mret a) (λ _, mret b) P.
Proof.
  intros HP w ? ? Hw [= <- <-]. exists [], b. rewrite app_nil_r.
  split_and!; try done. intros. apply reads_ret.
Qed.

Lemma encodes_bind {A B A' B'} (m : writer S A) (k : A → writer S A') (d : list str → reader B)
    (k' : list str → B → reader B') (P : A → B → Prop) (Q : A' → B' → Prop) :
  encodes m d P → (∀ a b, P a b → encodes (k a) (λ s, k' s b) Q) →
  encodes (m ≫= k) (λ s, d s ≫= k' s) Q.
Proof.
  intros Hm Hk w a' w' Hw. unfold mbind at 1, writer_bind at 1.
  destruct (m w) as [[a w1]|] eqn:E; [|done]. intros Hrun.
  destruct (Hm _ _ _ Hw E) as (bs1 & b & Hw1 & Hb1 & Hp1 & HP & Hr1).
  destruct (Hk _ _ HP _ _ _ Hw1 Hrun) as (bs2 & b' & Hw2 & Hb2 & Hp2 & HQ & Hr2).
  exists (bs1 ++ bs2), b'. rewrite Hb2, Hb1, app_assoc. split_and!; try done; [by etrans|].
  intros strings Hs Hl. eapply reads_bind; [apply Hr1|apply Hr2]; try done. by etrans.
Qed.

(** The bind of a writer that returns nothing the reader needs. *)
Lemma encodes_seq {A A' B B'} (m : writer S A) (k : A → writer S A') (d : list str → reader B)
    (k' : list str → B → reader B') (v : B) (Q : A' → B' → Prop) :
  encodes m d (λ _ b, b = v) → (∀ a, encodes (k a) (λ s, k' s v) Q) →
  encodes (m ≫= k) (λ s, d s ≫= k' s) Q.
Proof. intros Hm Hk. eapply encodes_bind; [exact Hm|]. intros a b ->. apply Hk. Qed.

Lemma encodes_weaken {A B} (m : writer S A) (d : list str → reader B) (P Q : A → B → Prop) :
  encodes m d P → (∀ a b, P a b → Q a b) → encodes m d Q.
Proof.
  intros Hm HPQ w a w' Hw E. destruct (Hm _ _ _ Hw E) as (bs & b & ? & ? & ? & ? & ?).
  exists bs, b. eauto 10.
Qed.

(** Steps that write or read nothing. *)
Lemma encodes_ensure {A B} (ok : bool) msg (k : writer S A) (d : list str → reader B) Q :
  (ok = true → encodes k d Q) → encodes (ensure ok msg;; k) d Q.
Proof.
  intros Hk w a w' Hw. unfold ensure. destruct ok; [|done]. by apply Hk.
Qed.

Lemma encodes_read_lift {A B B'} (m : writer S A) (r : result DecodeError B) v
    (k : list str → B → reader B') Q :
  r = Ok v → encodes m (λ s, k s v) Q → encodes m (λ s, lift r ≫= k s) Q.
Proof.
  intros -> Hm w a w' Hw E. destruct (Hm _ _ _ Hw E) as (bs & b & ? & ? & ? & ? & Hr).
  exists bs, b. by split_and!.
Qed.

Lemma encodes_read_ensure {A B} (m : writer S A) (ok : bool) e (k : list str → reader B) Q :
  ok = true → encodes m k Q → encodes m (λ s, ensure_read ok e;; k s) Q.
Proof.
  intros -> Hm w a w' Hw E. destruct (Hm _ _ _ Hw E) as (bs & b & ? & ? & ? & ? & Hr).
  exists bs, b. by split_and!.
Qed.

(** A step at the end of a reader. *)
Lemma encodes_map {A B C} (m : writer S A) (d : list str → reader B) (f : B → C) v :
  encodes m d (λ _ b, b = v) → encodes m (λ s, x ← d s; mret (f x)) (λ _ b, b = f v).
Proof.
  intros Hm w a w' Hw E. destruct (Hm _ _ _ Hw E) as (bs & b & ? & ? & ? & -> & Hr).
  exists bs, (f v). split_and!; try done. intros. apply reads_map. by apply Hr.
Qed.

Lemma encodes_assoc {A A' A'' B} (m : writer S A) (f : A → writer S A') (g : A' → writer S A'')
    (d : list str → reader B) Q :
  encodes (m ≫= λ a, f a ≫= g) d Q → encodes ((m ≫= f) ≫= g) d Q.
Proof.
  intros Hm w a w' Hw E. apply Hm; [done|]. revert E. unfold mbind, writer_bind.
  by destruct (m w) as [[]|].
Qed.

Lemma encodes_in_context {A B} ctx (m : writer S A) (d : list str → reader B) Q :
  encodes m d Q → encodes (in_context ctx m) d Q.
Proof.
  intros Hm w a w' Hw. unfold in_context, map_err. destruct (m w) as [[]|] eqn:E; [|done].
  intros [= <- <-]. by apply Hm.
Qed.

Lemma encodes_ret_l {A A' B} (a : A) (k : A → writer S A') (d : list str → reader B) Q :
  encodes (k a) d Q → encodes (mret a ≫= k) d Q.
Proof. done. Qed.

(** The end of a writer, as a step before nothing. *)
Lemma encodes_end {B} (m : writer S ()) (d : list str → reader B) Q :
  encodes (m;; mret ()) d Q → encodes m d Q.
Proof.
  intros Hm w [] w' Hw E. apply Hm; [done|]. unfold mbind, writer_bind. by rewrite E.
Qed.

(** A writer that returns unit, and writes nothing the reader reads. *)
Lemma encodes_silent {A B} (m : writer S ()) (k : writer S A) (d : list str → reader B) Q :
  (∀ w w', m w = Ok (tt, w') → w' = w) → encodes k d Q → encodes (m;; k) d Q.
Proof.
  intros Hm Hk w a w' Hw. unfold mbind, writer_bind. destruct (m w) as [[[] w1]|] eqn:E; [|done].
  apply Hm in E as ->. by apply Hk.
Qed.

(** ** Primitives *)

Lemma quiet_maybe_flush w : sink w = None → Writer.maybe_flush w = w.
Proof. intros Hs. unfold Writer.maybe_flush. by rewrite Hs. Qed.

Lemma encodes_u64 {B} v (d : list str → reader B) b :
  (∀ strings, reads (d strings) (uvarint v) b) → encodes (Writer.u64 v) d (λ _ x, x = b).
Proof.
  intros Hr w a w' (Hs & He & Hd). unfold Writer.u64. rewrite quiet_maybe_flush by done.
  intros [= <- <-]. exists (uvarint v), b. by split_and!.
Qed.

Lemma u64_encodes v : is_u64 v → encodes (Writer.u64 v) (λ _, Cursor.u64) (λ _ b, b = v).
Proof. intros. apply encodes_u64. auto with wire. Qed.

Lemma signed_encodes z : is_i64 z → encodes (Writer.signed z) (λ _, Cursor.signed) (λ _ b, b = z).
Proof. intros. apply encodes_u64. auto with wire. Qed.

Lemma bool_encodes label b : encodes (Writer.bool b) (λ _, Cursor.boolean label) (λ _ x, x = b).
Proof. apply encodes_u64. auto with wire. Qed.

Lemma count_encodes label n : n ≤ dictionary_limit →
  encodes (Writer.u64 (N.of_nat n)) (λ _, Cursor.count label) (λ _ x, x = N.of_nat n).
Proof. intros Hn. apply encodes_u64. intros. apply count_reads. unfold dictionary_limit in Hn. lia. Qed.

Lemma raw_encodes bs n : n = N.of_nat (length bs) →
  encodes (Writer.raw bs) (λ _, Cursor.raw n) (λ _ x, x = bs).
Proof.
  intros -> w a w' (Hs & He & Hd). unfold Writer.raw, Writer.append.
  rewrite quiet_maybe_flush by done.
  intros [= <- <-]. exists bs, bs. split_and!; try done. intros. apply raw_reads.
Qed.

Lemma index_u64 (strings : list str) i s : strings !! N.to_nat i = Some s →
  length strings ≤ dictionary_limit → (i < Cursor.packed_collection_limit)%N.
Proof. intros Hl%lookup_lt_Some. unfold dictionary_limit. lia. Qed.

(** An index of the dictionary, read as a string. *)
Lemma string_index_reads strings i s label :
  strings !! N.to_nat i = Some s → length strings ≤ dictionary_limit →
  reads (Decode.string_index strings label) (uvarint i) s.
Proof.
  intros Hl Hlen. pose proof (index_u64 _ _ _ Hl Hlen) as Hi.
  assert (is_u64 i) by (unfold is_u64, u64_limit, Cursor.packed_collection_limit in *; lia).
  unfold Decode.string_index. rewrite <-(app_nil_r (uvarint i)).
  eapply reads_bind; [by apply u64_reads|]. eapply reads_lift.
  { unfold usize_try_from. by replace (i <? u64_limit)%N with true by (symmetry; by apply N.ltb_lt). }
  rewrite Hl. apply (reads_ret s).
Qed.

(** Interning alone: the index it returns denotes the string. *)
Lemma encodes_intern {A B} s (k : N → writer S A) (d : list str → reader B) Q :
  (∀ i w a w', quiet w → values (dict w) !! N.to_nat i = Some s → k i w = Ok (a, w') →
    ∃ bs b, quiet w' ∧ bytes w' = bytes w ++ bs ∧
      values (dict w) `prefix_of` values (dict w') ∧ Q a b ∧
      ∀ strings, values (dict w') `prefix_of` strings → length strings ≤ dictionary_limit →
        reads (d strings) bs b) →
  encodes (Writer.intern s ≫= k) d Q.
Proof.
  intros Hk w a w' (Hs & He & Hd). unfold mbind, writer_bind, Writer.intern.
  destruct (dict_intern (dict w) s) as [i d'] eqn:E.
  destruct (dict_intern_spec _ _ _ _ Hd E) as (Hd' & Hp & Hi). intros Hrun.
  edestruct Hk as (bs & b & Hw' & Hb & Hp' & HQ & Hr); [| |exact Hrun|]; [by split_and!|done|].
  exists bs, b. split_and!; try done. by etrans.
Qed.

Lemma text_encodes s label :
  encodes (Writer.text s) (λ strings, Decode.string_index strings label) (λ _ b, b = s).
Proof.
  apply encodes_intern. intros i w a w' (Hs & He & Hd) Hi. unfold Writer.u64.
  rewrite quiet_maybe_flush by done. intros [= <- <-]. exists (uvarint i), s. cbn [bytes dict].
  split_and!; try done. intros strings Hp Hl. apply string_index_reads; [|done].
  by eapply prefix_lookup_Some.
Qed.

Lemma intern_silent s {A B} (k : writer S A) (d : list str → reader B) Q :
  encodes k d Q → encodes (intern_key s;; k) d Q.
Proof.
  intros Hk. unfold intern_key. apply encodes_assoc, encodes_intern.
  intros i w a w' Hw _ Hrun. by apply Hk.
Qed.

(** ** Locations *)

Definition location_fits (l : Location) : Prop := is_u64 (start_byte l) ∧ is_u64 (end_byte l).

Definition state_rel (s : LocationState) (t : PackedLocationState) : Prop :=
  ls_path s = pls_path t ∧ ls_start s = pls_start t ∧ ls_valid s = pls_valid t ∧
  is_u64 (ls_start s).

Lemma state_rel_default : state_rel location_state_default packed_location_state_default.
Proof. by split_and!. Qed.

(** The bytes of a location: behind the repeated-path marker when the previous
    location of the run has the same path, behind its path otherwise. *)
Definition location_bytes (repeated : bool) (path delta start length : N) : list N :=
  (if repeated then uvarint 1 ++ uvarint delta else uvarint (u64_shl path 1) ++ uvarint start) ++
  uvarint length.

Lemma quiet_u64 v w : sink w = None → Writer.u64 v w =
  Ok (tt, {| bytes := bytes w ++ uvarint v; dict := dict w; sink := sink w;
             flushed := flushed w; error := error w |}).
Proof. intros. unfold Writer.u64. by rewrite quiet_maybe_flush. Qed.

Lemma location_run l s w s' w' :
  quiet w → Writer.location l s w = Ok (s', w') →
  ∃ length i, checked_sub (end_byte l) (start_byte l) = Some length ∧
    quiet w' ∧ values (dict w) `prefix_of` values (dict w') ∧
    values (dict w') !! N.to_nat i = Some (loc_path l) ∧
    s' = {| ls_path := i; ls_start := start_byte l; ls_valid := true |} ∧
    let delta := (Z.of_N (start_byte l) - Z.of_N (ls_start s))%Z in
    let repeated := ls_valid s && (ls_path s =? i)%N in
    (repeated = true → is_i64 delta) ∧
    bytes w' = bytes w ++ location_bytes repeated i (zigzag delta) (start_byte l) length.
Proof.
  intros (Hs & He & Hd). unfold Writer.location.
  destruct (checked_sub _ _) as [length|] eqn:El; [|done].
  unfold mbind, writer_bind, mret, writer_ret, Writer.intern.
  destruct (dict_intern (dict w) (loc_path l)) as [i d'] eqn:E.
  destruct (dict_intern_spec _ _ _ _ Hd E) as (Hd' & Hp & Hi). cbv beta iota zeta.
  destruct (ls_valid s && (ls_path s =? i)%N) eqn:Er; rewrite ?quiet_u64 by done.
  - destruct ((- i64_limit <=? _)%Z && _) eqn:Ei; [|done].
    rewrite quiet_u64 by done. unfold Writer.signed. rewrite !quiet_u64 by done.
    intros [= <- <-]. exists length, i. cbn [dict sink error]. split_and!; try done.
    + intros _. apply andb_true_iff in Ei as [?%Z.leb_le ?%Z.ltb_lt]. by split.
    + rewrite Er. unfold location_bytes. cbn [bytes]. by rewrite <-!app_assoc.
  - rewrite ?quiet_u64 by done. intros [= <- <-]. exists length, i. cbn [dict sink error].
    rewrite Er. split_and!; try done. unfold location_bytes. cbn [bytes]. by rewrite <-!app_assoc.
Qed.

Lemma location_reads strings l s t i length :
  state_rel s t → location_fits l → checked_sub (end_byte l) (start_byte l) = Some length →
  strings !! N.to_nat i = Some (loc_path l) → List.length strings ≤ dictionary_limit →
  let delta := (Z.of_N (start_byte l) - Z.of_N (ls_start s))%Z in
  let repeated := ls_valid s && (ls_path s =? i)%N in
  (repeated = true → is_i64 delta) →
  reads (Decode.location strings t)
    (location_bytes repeated i (zigzag delta) (start_byte l) length)
    (l, {| pls_path := i; pls_start := start_byte l; pls_valid := true |}).
Proof.
  intros (Hpath & Hstart & Hvalid & Hu) [Hsb Heb] Hlen Hi Hfit. cbv zeta.
  pose proof (index_u64 _ _ _ Hi Hfit) as Hiu. unfold Cursor.packed_collection_limit in Hiu.
  unfold checked_sub in Hlen. destruct (N.leb_spec (start_byte l) (end_byte l)) as [Hle|]; [|done].
  injection Hlen as <-.
  assert (Hend : ∀ r : reader (Location * PackedLocationState),
    r = (n ← Cursor.u64; stop ← lift (ok_or LocationEndOverflow (checked_add (start_byte l) n));
         text ← lift (ok_or DecodePanic (strings !! N.to_nat i));
         mret ({| loc_path := text; end_byte := stop; start_byte := start_byte l |},
               {| pls_path := i; pls_start := start_byte l; pls_valid := true |})) →
    reads r (uvarint (end_byte l - start_byte l))
      (l, {| pls_path := i; pls_start := start_byte l; pls_valid := true |})).
  { intros r ->. rewrite <-(app_nil_r (uvarint _)).
    eapply reads_bind; [apply u64_reads; unfold is_u64, u64_limit in *; lia|].
    eapply (reads_lift _ _ _ (end_byte l)).
    { unfold checked_add. replace (_ <? _)%N with true by (symmetry; apply N.ltb_lt; unfold is_u64 in *; lia).
      simpl. f_equal. lia. }
    eapply reads_lift; [by rewrite Hi|]. destruct l. apply reads_ret. }
  unfold Decode.location, location_bytes.
  destruct (ls_valid s && (ls_path s =? i)%N) eqn:Er; intros Hdelta.
  - apply andb_true_iff in Er as [Hv Hp%N.eqb_eq]. rewrite <-!app_assoc.
    eapply reads_bind; [by apply u64_reads|]. cbn -[add_signed Cursor.signed Cursor.u64 lift uvarint app].
    rewrite <-Hvalid, Hv. cbn -[add_signed Cursor.signed Cursor.u64 lift uvarint app].
    apply (reads_bind _ _ _ _ (i, start_byte l)); [|by apply Hend].
    rewrite <-(app_nil_r (uvarint (zigzag _))). eapply reads_bind; [apply signed_reads; auto|].
    eapply (reads_lift _ _ _ (start_byte l)).
    { apply add_signed_delta; rewrite <-?Hstart; auto. lia. }
    rewrite <-Hpath, Hp. apply reads_ret.
  - cbv iota. rewrite <-app_assoc. assert (Hshl : u64_shl i 1 = (2 * i)%N).
    { unfold u64_shl. rewrite N.shiftl_mul_pow2, N.mod_small; change (2 ^ 1)%N with 2%N; [lia|].
      unfold u64_limit. lia. }
    eapply reads_bind; [apply u64_reads; rewrite Hshl; unfold is_u64, u64_limit; lia|].
    rewrite Hshl. change 1%N with (N.ones 1). rewrite N.land_ones. change (2 ^ N.ones 1)%N with 2%N.
    rewrite (N.mul_comm 2), N.Div0.mod_mul. change (N.ones 1) with 1%N.
    change (0 =? 1)%N with false. cbv iota.
    apply (reads_bind _ _ _ _ (i, start_byte l)); [|by apply Hend].
    rewrite N.shiftr_div_pow2. change (2 ^ 1)%N with 2%N. rewrite N.div_mul by done.
    eapply reads_lift.
    { unfold usize_try_from. by replace (i <? u64_limit)%N with true
        by (symmetry; apply N.ltb_lt; unfold u64_limit; lia). }
    apply lookup_lt_Some in Hi as Hlt.
    replace (N.of_nat (List.length strings) <=? i)%N with false by (symmetry; apply N.leb_gt; lia).
    by apply (reads_map _ (λ x, (i, x))), u64_reads.
Qed.

Lemma location_encodes l s t : state_rel s t → location_fits l →
  encodes (Writer.location l s) (λ strings, Decode.location strings t)
    (λ s' p, p.1 = l ∧ state_rel s' p.2).
Proof.
  intros Hst Hl w s' w' Hw Hrun.
  destruct (location_run _ _ _ _ _ Hw Hrun) as (length & i & Hc & Hw' & Hp & Hi & -> & Hd & Hb).
  eexists _, _. split_and!; [done|exact Hb|done| | |].
  3:{ intros strings Hps Hfit. apply location_reads; try done. by eapply prefix_lookup_Some. }
  - done.
  - destruct Hl. by split_and!.
Qed.

(** ** Lists *)

Lemma encodes_all {A B} (f : A → writer S ()) (d : list str → reader B) (g : A → B) l :
  (∀ a, a ∈ l → encodes (f a) d (λ _ b, b = g a)) →
  encodes (write_all f l) (λ s, repeat_read (length l) (d s)) (λ _ bs, bs = g <$> l).
Proof.
  induction l as [|a l IH]; intros Hl; simpl; [by apply encodes_ret|].
  eapply encodes_seq; [apply Hl; by left|]. intros _.
  apply (encodes_map _ _ (λ x, g a :: x)), IH. intros b Hb. apply Hl. by right.
Qed.

Lemma encodes_indexed {A B} (f : nat → A → writer S ()) (d : list str → reader B) (g : A → B) i l :
  (∀ i a, a ∈ l → encodes (f i a) d (λ _ b, b = g a)) →
  encodes (write_indexed f i l) (λ s, repeat_read (length l) (d s)) (λ _ bs, bs = g <$> l).
Proof.
  revert i. induction l as [|a l IH]; intros i Hl; simpl; [by apply encodes_ret|].
  eapply encodes_seq; [apply Hl; by left|]. intros _.
  apply (encodes_map _ _ (λ x, g a :: x)), IH. intros j b Hb. apply Hl. by right.
Qed.

Lemma encodes_state {A B T U} (f : A → T → writer S T) (d : list str → U → reader (B * U))
    (g : A → B) (R : T → U → Prop) l s t :
  R s t →
  (∀ a s t, a ∈ l → R s t →
     encodes (f a s) (λ strings, d strings t) (λ s' p, p.1 = g a ∧ R s' p.2)) →
  encodes (write_state f l s) (λ strings, repeat_state (length l) (d strings) t)
    (λ _ bs, bs = g <$> l).
Proof.
  revert s t. induction l as [|a l IH]; intros s t Hst Hl; simpl; [by apply encodes_ret|].
  eapply encodes_bind; [by apply Hl; [left|]|]. intros s' [b t'] [Hb Hst']. simpl in Hb, Hst'. subst b.
  apply (encodes_map _ _ (λ x, g a :: x)), IH; [done|]. intros. apply Hl; [by right|done].
Qed.

Definition locations_fit (ls : list Location) : Prop :=
  length ls ≤ dictionary_limit ∧ Forall location_fits ls.

Lemma encodes_then_unit {A B} (m : writer S A) (d : list str → reader B) (v : B) :
  encodes m d (λ _ b, b = v) → encodes (m;; mret ()) d (λ _ b, b = v).
Proof.
  intros Hm w a w' Hw. unfold mbind, writer_bind. destruct (m w) as [[a' w1]|] eqn:E; [|done].
  intros [= <- <-]. by apply Hm in E.
Qed.

Lemma state_locations_encodes ls s t : state_rel s t → Forall location_fits ls →
  encodes (write_state Writer.location ls s)
    (λ strings, repeat_state (length ls) (Decode.location strings) t) (λ _ x, x = ls).
Proof.
  intros Hst Hls. apply (encodes_weaken _ _ (λ _ x, x = id <$> ls));
    [|intros _ x ->; apply list_fmap_id].
  apply (encodes_state _ _ id state_rel); [done|]. intros a s' t' Ha Hst'.
  apply location_encodes; [done|]. by eapply Forall_forall in Hls.
Qed.

Lemma locations_encodes ls : locations_fit ls →
  encodes (Writer.locations ls) Decode.locations (λ _ x, x = ls).
Proof.
  intros [Hlen Hls]. eapply encodes_seq; [by apply count_encodes|]. intros _.
  rewrite Nat2N.id. apply encodes_then_unit, state_locations_encodes; [|done].
  apply state_rel_default.
Qed.

(** ** Optional rows *)

Lemma encodes_option {A B A'} {B'} (f : A → writer S ()) (o : option A) (d : list str → reader B)
    (g : A → B) (k : writer S A') (k' : list str → option B → reader B') Q (present : bool) :
  present = bool_decide (is_Some o) →
  (∀ a, o = Some a → encodes (f a) d (λ _ b, b = g a)) →
  encodes k (λ s, k' s (g <$> o)) Q →
  encodes (write_option f o;; k) (λ s, read_if present (d s) ≫= k' s) Q.
Proof.
  intros -> Hf Hk. destruct o as [a|]; simpl; [|done].
  eapply encodes_seq; [|intros _; exact Hk].
  apply (encodes_map _ _ Some). by apply Hf.
Qed.

End encodes.

#[export] Hint Resolve u64_encodes signed_encodes bool_encodes count_encodes text_encodes
  locations_encodes state_rel_default : wire.

(** * What a table schema carries

    The specification side of the row round trips.  [*_fits] says that a row is
    one its Rust type can hold and that its collections stay under the
    decoder's limit; [project_*] is the row a reader of the schema gets back:
    the fields the schema does not know are dropped, an answer its tag space
    lacks degrades to unknown.

    Then: round trips of the compact values. *)

(** ** Value types built by their constructors *)

Definition rvd_valid (d : RuntimeValueDomain) : Prop :=
  ∃ a b c u, d = rvd_new a b c u.
Definition pvd_valid (d : PrimitiveValueDomain) : Prop :=
  d = pvd_default ∨ ∃ s n b g y l u o f k, d = pvd_new s n b g y l u o f k.
Definition tuple_valid (t : TupleShape) : Prop :=
  ∃ fixed rest zero parameters exact,
    ts_try_new fixed rest (Some zero) parameters exact = Ok t ∧
    (parameters < u32_limit)%N.

Definition constant_valid (c : ConstantValue) : Prop :=
  match cv_kind c with
  | ConstantValueKind_String => cv_number c = f64_zero
  | ConstantValueKind_Number => cv_string c = empty_str ∧ is_u64 (to_bits (cv_number c))
  end.
Definition candidate_valid (c : PrimitiveLiteralCandidate) : Prop :=
  match plc_kind c with
  | PrimitiveLiteralKind_String => plc_number c = f64_zero ∧ plc_boolean c = false
  | PrimitiveLiteralKind_Number =>
      plc_string c = empty_str ∧ plc_boolean c = false ∧ is_u64 (to_bits (plc_number c))
  | PrimitiveLiteralKind_Boolean => plc_string c = empty_str ∧ plc_number c = f64_zero
  end.

(** ** Rows within range *)

Definition list_fits {A} (P : A → Prop) (l : list A) : Prop :=
  length l ≤ dictionary_limit ∧ Forall P l.
Definition option_fits {A} (P : A → Prop) (o : option A) : Prop := ∀ a, o = Some a → P a.

Definition declaration_fits (d : Declaration) : Prop := location_fits (decl_location d).
Definition type_descriptor_fits (d : TypeDescriptor) : Prop :=
  list_fits declaration_fits (td_alias_declarations d).
Definition owner_fits (o : DeclarationOwner) : Prop := location_fits (do_location o).
Definition resolved_declaration_fits (d : ResolvedDeclaration) : Prop :=
  location_fits (rd_location d) ∧ list_fits owner_fits (rd_owners d).
Definition object_shape_fits (s : ObjectConstructionShape) : Prop :=
  length (ocs_required_properties s) ≤ dictionary_limit.
Definition parameter_fits (p : ParameterFact) : Prop :=
  is_u64 (pf_index p) ∧ option_fits declaration_fits (pf_declaration p) ∧
  option_fits type_descriptor_fits (pf_type_descriptor p) ∧
  option_fits object_shape_fits (pf_object_shape p).
Definition argument_fits (m : ArgumentMapping) : Prop :=
  is_u64 (am_argument_index m) ∧ option_fits parameter_fits (am_parameter m).
Definition target_set_fits (t : CallTargetSet) : Prop :=
  list_fits resolved_declaration_fits (cts_candidates t).
Definition resolved_call_fits (c : ResolvedCall) : Prop :=
  option_fits resolved_declaration_fits (rc_declaration c) ∧
  option_fits resolved_declaration_fits (rc_default_library_binding c) ∧
  option_fits target_set_fits (rc_targets c) ∧ list_fits argument_fits (rc_arguments c).
Definition source_call_fits (c : SourceCall) : Prop :=
  location_fits (sc_location c) ∧ location_fits (sc_callee c) ∧ locations_fit (sc_arguments c).
Definition names_fit (l : list str) : Prop := length l ≤ dictionary_limit.

(** The oldest schema has no bit for a runtime value domain. *)
Definition entity_fits (schema : N) (e : EntityFact) : Prop :=
  location_fits (ef_location e) ∧
  option_fits type_descriptor_fits (ef_type_descriptor e) ∧
  option_fits resolved_call_fits (ef_resolved_call e) ∧
  option_fits rvd_valid (ef_runtime_value_domain e) ∧
  option_fits rvd_valid (ef_call_result_domain e) ∧
  pvd_valid (ef_primitive_value_domain e) ∧
  option_fits (λ cs, length cs ≤ 32 ∧ Forall candidate_valid cs)
    (ef_primitive_literal_candidates e) ∧
  option_fits constant_valid (ef_constant_value e) ∧
  option_fits tuple_valid (ef_tuple_shape e) ∧
  option_fits names_fit (ef_library_types e) ∧
  option_fits names_fit (ef_declared_keys e) ∧
  (schema = 3%N → ef_runtime_value_domain e = None).

Definition binding_fits (b : SourceBinding) : Prop :=
  locations_fit (sb_names b) ∧ source_call_fits (sb_initializer b).
Definition function_fits (f : SourceFunction) : Prop :=
  location_fits (fn_name f) ∧ location_fits (fn_body f) ∧ locations_fit (fn_parameters f).
Definition async_function_fits (f : AsyncFunctionFact) : Prop :=
  location_fits (af_expression f) ∧ locations_fit (af_calls_after_await f).
Definition file_fits (f : FileFact) : Prop :=
  list_fits source_call_fits (ff_calls f) ∧ list_fits binding_fits (ff_bindings f) ∧
  list_fits function_fits (ff_functions f) ∧ list_fits async_function_fits (ff_async_functions f).
Definition symbol_fits (f : SymbolFact) : Prop :=
  locations_fit (sf_references f) ∧ list_fits declaration_fits (sf_declarations f).

(** ** Projection to a schema *)

Definition keep_if {A} (b : bool) (o : option A) : option A := if b then o else None.

Definition project_callability (schema : N) (c : Callability) : Callability :=
  if eqb c Callability_UntypedCallable && (schema <? 15)%N then Callability_Unknown else c.

Definition project_parameter (schema : N) (p : ParameterFact) : ParameterFact :=
  {| pf_index := pf_index p; pf_symbol := pf_symbol p; pf_declaration := pf_declaration p;
     pf_rest := pf_rest p; pf_optional := pf_optional p;
     pf_callability := project_callability schema (pf_callability p);
     pf_type_descriptor := pf_type_descriptor p;
     pf_object_shape := keep_if (17 <=? schema)%N (pf_object_shape p) |}.

Definition project_argument (schema : N) (m : ArgumentMapping) : ArgumentMapping :=
  {| am_argument_index := am_argument_index m; am_status := am_status m;
     am_unresolved := am_unresolved m;
     am_parameter := project_parameter schema <$> am_parameter m |}.

Definition project_call (schema : N) (c : ResolvedCall) : ResolvedCall :=
  {| rc_target := rc_target c; rc_return_type_text := rc_return_type_text c;
     rc_assertion_signature := (19 <=? schema)%N && rc_assertion_signature c;
     rc_never_returns := (19 <=? schema)%N && rc_never_returns c;
     rc_validity := rc_validity c; rc_kind := rc_kind c; rc_declaration := rc_declaration c;
     rc_default_library_binding := keep_if (20 <=? schema)%N (rc_default_library_binding c);
     rc_targets := keep_if (6 <=? schema)%N (rc_targets c);
     rc_arguments := project_argument schema <$> rc_arguments c |}.

Definition project_tuple (schema : N) (t : TupleShape) : TupleShape :=
  match ts_try_new (ts_fixed_length t) (ts_has_rest t)
    (Some (project_callability schema (default Callability_Unknown (ts_element_zero t))))
    (ts_element_zero_min_parameters t) (keep_if (13 <=? schema)%N (ts_exact_length t)) with
  | Ok t => t
  | Err _ => t
  end.

(** The claim a reader derives from the symbol and the flag. *)
Definition project_claim (schema : N) (symbol : str) (claim : SymbolClaim) : SymbolClaim :=
  match claim with
  | SymbolClaim_Unresolved =>
      if (5 <=? schema)%N then SymbolClaim_Unresolved else SymbolClaim_Absent
  | SymbolClaim_Covering =>
      if (21 <=? schema)%N then SymbolClaim_Covering else SymbolClaim_Partial
  | _ => if is_empty symbol then SymbolClaim_Absent else SymbolClaim_Partial
  end.

Definition project_entity (schema : N) (e : EntityFact) : EntityFact :=
  let since {A} v (o : option A) := keep_if (v <=? schema)%N o in
  {| ef_location := ef_location e; ef_symbol := ef_symbol e;
     ef_symbol_claim := project_claim schema (ef_symbol e) (ef_symbol_claim e);
     ef_type_descriptor := ef_type_descriptor e;
     ef_resolved_call := project_call schema <$> ef_resolved_call e;
     ef_callability := project_callability schema <$> ef_callability e;
     ef_constructability := since 14%N (ef_constructability e);
     ef_runtime_binding_kind := since 18%N (ef_runtime_binding_kind e);
     ef_runtime_value_domain := ef_runtime_value_domain e;
     ef_primitive_value_domain :=
       if (13 <=? schema)%N then ef_primitive_value_domain e else pvd_default;
     ef_primitive_literal_candidates := since 16%N (nonempty (ef_primitive_literal_candidates e));
     ef_call_result_domain := since 7%N (ef_call_result_domain e);
     ef_constant_value := since 8%N (ef_constant_value e);
     ef_array_shape := since 9%N (ef_array_shape e);
     ef_tuple_shape := project_tuple schema <$> since 11%N (ef_tuple_shape e);
     ef_library_types := since 12%N (nonempty (ef_library_types e));
     ef_declared_keys := since 23%N (ef_declared_keys e);
     ef_writable_optional_property := (24 <=? schema)%N && ef_writable_optional_property e;
     ef_reference_space := ef_reference_space e;
     ef_runtime_identity := ef_runtime_identity e |}.

(** An alias carries no references. *)
Definition project_symbol (f : SymbolFact) : SymbolFact :=
  if is_empty (sf_alias_target f) then f
  else {| sf_id := sf_id f; sf_references := []; sf_alias_target := sf_alias_target f;
          sf_declarations := sf_declarations f |}.

(** ** Flags *)

Lemma flags_of_testbit l k :
  N.testbit (flags_of l) k = existsb (λ '(present, bit), N.testbit bit k && present) l.
Proof.
  unfold flags_of. change false with (N.testbit 0 k || false) || idtac.
  assert (H : ∀ l acc, N.testbit (foldl (λ flags '(present, bit),
    if present : bool then N.lor flags bit else flags) acc l) k =
    N.testbit acc k || existsb (λ '(present, bit), N.testbit bit k && present) l).
  { clear l. induction l as [|[p b] l IH]; intros acc; simpl; [by rewrite orb_false_r|].
    rewrite IH. destruct p; rewrite ?N.lor_spec, ?andb_true_r, ?andb_false_r, ?orb_assoc; [done|].
    by rewrite orb_false_r. }
  by rewrite H, N.bits_0.
Qed.

Lemma has_flag_pow2 flags k : has_flag flags (2 ^ k) = N.testbit flags k.
Proof.
  unfold has_flag. destruct (N.testbit flags k) eqn:E.
  - apply negb_true_iff, N.eqb_neq. intros H. apply (f_equal (λ x, N.testbit x k)) in H.
    rewrite N.land_spec, N.bits_0, N.pow2_bits_eqb, N.eqb_refl, E in H. done.
  - apply negb_false_iff, N.eqb_eq, N.bits_inj. intros i.
    rewrite N.land_spec, N.bits_0, N.pow2_bits_eqb. destruct (N.eqb_spec k i) as [<-|];
      [by rewrite E|by rewrite andb_false_r].
Qed.

Lemma has_flag_of l k :
  has_flag (flags_of l) (2 ^ k) = existsb (λ '(present, bit), N.testbit bit k && present) l.
Proof. by rewrite has_flag_pow2, flags_of_testbit. Qed.

Lemma only_flags_of l known :
  Forall (λ '(present, bit), implb present (N.ldiff bit known =? 0)%N = true) l →
  only_flags (flags_of l) known = true.
Proof.
  intros Hl. apply N.eqb_eq, N.bits_inj. intros k.
  rewrite N.ldiff_spec, N.bits_0, flags_of_testbit.
  destruct (existsb _ l) eqn:E; [|done]. simpl. apply existsb_exists in E as ([p b] & Hin & Hb).
  apply andb_true_iff in Hb as [Hb ->]. apply list_elem_of_In in Hin.
  rewrite Forall_forall in Hl. specialize (Hl _ Hin). simpl in Hl.
  apply N.eqb_eq in Hl. apply (f_equal (λ x, N.testbit x k)) in Hl.
  by rewrite N.ldiff_spec, N.bits_0, Hb in Hl.
Qed.

Lemma only_flags_u64 flags known : only_flags flags known = true → is_u64 known → is_u64 flags.
Proof. intros H%N.eqb_eq%N.ldiff_le. unfold is_u64. lia. Qed.

(** Evaluates [has_flag] of an explicit flags word at an explicit bit. *)
Ltac flag_at k :=
  lazymatch goal with
  | |- context [has_flag (flags_of ?l) ?b] =>
      change (has_flag (flags_of l) b) with (has_flag (flags_of l) (2 ^ k)%N);
      rewrite (has_flag_of l k)
  end.

(** * Round trips of the compact values

    The closed tag spaces, value domains, tuple shapes and digests: what the
    writer's code maps to, the reader's parser maps back. *)

Lemma parse_callability_code c schema :
  parse_callability (callability_code c schema) schema = Ok (project_callability schema c).
Proof.
  unfold callability_code, project_callability. destruct c; try done.
  change (eqb Callability_UntypedCallable Callability_UntypedCallable) with true.
  destruct (N.ltb_spec schema 15); simpl; [done|].
  by replace (15 <=? schema)%N with true by (symmetry; by apply N.leb_le).
Qed.

Lemma parse_constructability_code c : parse_constructability (constructability_code c) = Ok c.
Proof. by destruct c. Qed.
Lemma parse_array_shape_code c : parse_array_shape (array_shape_code c) = Ok c.
Proof. by destruct c. Qed.
Lemma parse_reference_space_code c : parse_reference_space (reference_space_code c) = Ok c.
Proof. by destruct c. Qed.
Lemma parse_validity_code c : parse_resolved_call_validity (validity_code c) = Ok c.
Proof. by destruct c. Qed.
Lemma parse_call_kind_code c : parse_call_kind (call_kind_code c) = Ok c.
Proof. by destruct c. Qed.
Lemma parse_binding_kind_code c : parse_runtime_binding_kind (binding_kind_code c) = Ok c.
Proof. by destruct c. Qed.
Lemma parse_witness_code c : parse_construction_witness (witness_code c) = Ok c.
Proof. by destruct c. Qed.
Lemma parse_status_code c : parse_argument_mapping_status (status_code c) = Ok c.
Proof. by destruct c. Qed.
Lemma parse_reason_code s r :
  Bool.eqb (status_code s =? 0)%N (reason_code r =? 0)%N = true →
  parse_argument_mapping_reason s (reason_code r) = Ok r.
Proof. by destruct s, r as [[]|]. Qed.

Lemma parse_domain_bits d : rvd_valid d →
  parse_runtime_value_domain (runtime_value_domain_bits d) = Ok d.
Proof. intros ([] & [] & [] & [] & ->); reflexivity. Qed.

(** A property of finitely many booleans, checked by evaluation. *)
Fixpoint all_bools (n : nat) (P : list bool → bool) : bool :=
  match n with
  | 0 => P []
  | S n => all_bools n (λ l, P (true :: l)) && all_bools n (λ l, P (false :: l))
  end.

Lemma all_bools_spec n P l : all_bools n P = true → length l = n → P l = true.
Proof.
  revert P l. induction n as [|n IH]; intros P [|b l] HP Hl; try done. simpl in HP.
  apply andb_true_iff in HP as [H1 H2]. injection Hl as Hl.
  destruct b; [by apply (IH (λ l, P (true :: l)))|by apply (IH (λ l, P (false :: l)))].
Qed.

Definition pvd_of (l : list bool) : PrimitiveValueDomain :=
  match l with
  | [s; n; b; g; y; z; u; o; f; k] => pvd_new s n b g y z u o f k
  | _ => pvd_default
  end.

Definition domain_kept (l : list bool) : bool :=
  match parse_primitive_value_domain (primitive_value_domain_bits (pvd_of l)) with
  | Ok d => (pvd_bits d =? pvd_bits (pvd_of l))%N
  | Err _ => false
  end.

Lemma parse_primitive_bits d : pvd_valid d → pvd_is_present d = true →
  parse_primitive_value_domain (primitive_value_domain_bits d) = Ok d.
Proof.
  intros [->|(s & n & b & g & y & z & u & o & f & k & ->)] Hp; [done|]. clear Hp.
  change (pvd_new s n b g y z u o f k) with (pvd_of [s; n; b; g; y; z; u; o; f; k]).
  generalize (eq_refl : length [s; n; b; g; y; z; u; o; f; k] = 10).
  generalize [s; n; b; g; y; z; u; o; f; k]. intros l Hl.
  pose proof (all_bools_spec 10 domain_kept l ltac:(by vm_compute) Hl) as H. unfold domain_kept in H.
  destruct (parse_primitive_value_domain _) as [d|]; [|done]. apply N.eqb_eq in H.
  f_equal. destruct d, (pvd_of l). simpl in H. by subst.
Qed.

(** ** Tuple shapes *)

Lemma tuple_getters fixed rest zero parameters exact t :
  ts_try_new fixed rest (Some zero) parameters exact = Ok t →
  ts_fixed_length t = fixed ∧ ts_has_rest t = rest ∧ ts_element_zero t = Some zero ∧
  ts_element_zero_min_parameters t = parameters ∧ ts_exact_length t = exact ∧
  (fixed ≤ fixed_length_mask)%N ∧ (∀ n, exact = Some n → (n + 1 < u32_limit)%N).
Proof.
  unfold ts_try_new. destruct (N.ltb_spec fixed_length_mask fixed) as [|Hf]; [done|].
  unfold mbind, result_bind. destruct (match exact with None => _ | Some _ => _ end) as [x|] eqn:Ex;
    [|done]. remember (element_zero_code (Some zero)) as c eqn:Hc. intros [= <-].
  assert (Hpacked : N.lor (N.lor fixed (selected rest has_rest_bit))
      (N.shiftl c element_zero_shift) = (fixed + N.b2n rest * 2 ^ 28 + c * 2 ^ 29)%N).
  { replace (selected rest has_rest_bit) with (N.shiftl (N.b2n rest) 28) by by destruct rest.
    unfold fixed_length_mask in Hf. rewrite (lor_shiftl_add fixed) by (simpl; lia).
    apply lor_shiftl_add. destruct rest; simpl; lia. }
  unfold ts_fixed_length, ts_has_rest, ts_element_zero, ts_exact_length.
  cbn [packed_shape_plus_one ts_element_zero_min_parameters exact_length_plus_one].
  rewrite Hpacked, N.add_sub. unfold fixed_length_mask in *.
  change (2 ^ 28)%N with 268435456%N. change (2 ^ 29)%N with 536870912%N.
  assert (Hb : (N.b2n rest ≤ 1)%N) by (by destruct rest).
  split_and!.
  - change 268435455%N with (N.ones 28). rewrite N.land_ones.
    symmetry. apply (N.mod_unique _ _ (N.b2n rest + 2 * c)); simpl; lia.
  - change has_rest_bit with (2 ^ 28)%N. fold (has_flag (fixed + N.b2n rest * 268435456 + c * 536870912) (2 ^ 28)).
    rewrite has_flag_pow2, N.testbit_eqb.
    replace ((fixed + N.b2n rest * 268435456 + c * 536870912) / 2 ^ 28)%N with (N.b2n rest + c * 2)%N
      by (apply (N.div_unique _ _ _ fixed); simpl; lia).
    rewrite N.Div0.mod_add. by destruct rest.
  - rewrite N.shiftr_div_pow2. change (2 ^ element_zero_shift)%N with 536870912%N.
    replace ((fixed + N.b2n rest * 268435456 + c * 536870912) / 536870912)%N with c
      by (apply (N.div_unique _ _ _ (fixed + N.b2n rest * 268435456)); lia).
    subst c. by destruct zero.
  - done.
  - destruct exact as [n|]; [|by injection Ex as <-].
    destruct (N.ltb_spec (n + 1) u32_limit); [|done]. injection Ex as <-.
    replace (1 <=? n + 1)%N with true by (symmetry; apply N.leb_le; lia). f_equal. lia.
  - done.
  - intros n ->. destruct (N.ltb_spec (n + 1) u32_limit); [done|done].
Qed.

Lemma ts_try_new_ok fixed rest zero parameters exact :
  (fixed ≤ fixed_length_mask)%N → (∀ n, exact = Some n → (n + 1 < u32_limit)%N) →
  ∃ t, ts_try_new fixed rest zero parameters exact = Ok t.
Proof.
  intros Hf He. unfold ts_try_new.
  replace (fixed_length_mask <? fixed)%N with false by (symmetry; by apply N.ltb_ge).
  destruct exact as [n|]; [|by eexists].
  replace (n + 1 <? u32_limit)%N with true by (symmetry; apply N.ltb_lt; auto). by eexists.
Qed.

(** From the schema that has every field of it on, a tuple comes back as it is. *)
Lemma project_tuple_id schema t : (15 ≤ schema)%N → tuple_valid t → project_tuple schema t = t.
Proof.
  intros Hs (fixed & rest & zero & parameters & exact & Ht & Hp).
  destruct (tuple_getters _ _ _ _ _ _ Ht) as (H1 & H2 & H3 & H4 & H5 & _).
  unfold project_tuple. rewrite H1, H2, H3, H4, H5. unfold keep_if, project_callability.
  replace (13 <=? schema)%N with true by (symmetry; apply N.leb_le; lia).
  replace (schema <? 15)%N with false by (symmetry; by apply N.ltb_ge).
  rewrite andb_false_r. simpl. by rewrite Ht.
Qed.

(** ** Hexadecimal *)

Lemma hex_value_digit n : (n < 16)%N → hex_value (hex_digit n) = Some n.
Proof.
  intros Hn. unfold hex_value, hex_digit, between.
  destruct (N.ltb_spec n 10).
  - replace (48 <=? 48 + n)%N with true by (symmetry; apply N.leb_le; lia).
    replace (48 + n <=? 57)%N with true by (symmetry; apply N.leb_le; lia). simpl. f_equal. lia.
  - replace (87 + n <=? 57)%N with false by (symmetry; apply N.leb_gt; lia). rewrite andb_false_r.
    replace (97 <=? 87 + n)%N with true by (symmetry; apply N.leb_le; lia).
    replace (87 + n <=? 102)%N with true by (symmetry; apply N.leb_le; lia). simpl. f_equal. lia.
Qed.

(** A lower-case digit is the digit of its value. *)
Lemma hex_digit_value d n : hex_value d = Some n → lower_hex_digit d = true →
  (n < 16)%N ∧ hex_digit n = d.
Proof.
  unfold hex_value, lower_hex_digit, between, hex_digit. intros Hv Hl.
  destruct ((48 <=? d)%N && (d <=? 57)%N) eqn:E1.
  - apply andb_true_iff in E1 as [?%N.leb_le ?%N.leb_le]. injection Hv as <-.
    replace (d - 48 <? 10)%N with true by (symmetry; apply N.ltb_lt; lia). lia.
  - simpl in Hl. rewrite Hl in Hv. apply andb_true_iff in Hl as [?%N.leb_le ?%N.leb_le].
    injection Hv as <-.
    replace (d - 97 + 10 <? 10)%N with false by (symmetry; apply N.ltb_ge; lia). lia.
Qed.

Lemma hex_value_lt d n : hex_value d = Some n → (n < 16)%N.
Proof.
  unfold hex_value, between. intros H.
  repeat match type of H with context [if ?b then _ else _] => destruct b eqn:? end;
    try discriminate H; injection H as <-;
    repeat match goal with H : _ && _ = true |- _ => apply andb_true_iff in H as [?%N.leb_le ?%N.leb_le] end;
    lia.
Qed.

(** Packing two digits into a byte and unpacking it again. *)
Lemma nibbles h l : (h < 16)%N → (l < 16)%N →
  N.lor (N.shiftl h 4) l = (h * 16 + l)%N ∧
  N.shiftr (h * 16 + l) 4 = h ∧ N.land (h * 16 + l) 15 = l.
Proof.
  intros Hh Hl. split_and!.
  - rewrite N.lor_comm, lor_shiftl_add by (simpl; lia). change (2 ^ 4)%N with 16%N. lia.
  - rewrite N.shiftr_div_pow2. change (2 ^ 4)%N with 16%N. symmetry.
    apply (N.div_unique _ _ _ l); lia.
  - change 15%N with (N.ones 4). rewrite N.land_ones. change (2 ^ 4)%N with 16%N. symmetry.
    apply (N.mod_unique _ _ h); lia.
Qed.

(** A run of digits packed into bytes, and written out again. *)
Lemma hex_of_mapM digits (f : N → N → N) raw :
  (∀ h l, (h < 16)%N → (l < 16)%N → f h l = (h * 16 + l)%N) →
  forallb lower_hex_digit digits = true → Nat.even (length digits) = true →
  mapM (λ '(a, b), high ← hex_value a; low ← hex_value b; Some (f high low)) (chunks2 digits) =
    Some raw →
  hex_of raw = digits ∧ length raw = (length digits / 2)%nat.
Proof.
  intros Hf. revert raw. induction digits as [digits IH] using (induction_ltof1 _ length).
  destruct digits as [|a [|b digits]]; intros raw Hlow Heven Hm; simpl in Hm.
  - injection Hm as <-. done.
  - done.
  - destruct (hex_value a) as [h|] eqn:Ea; [|done]. simpl in Hm.
    destruct (hex_value b) as [l|] eqn:Eb; [|done]. simpl in Hm.
    destruct (mapM _ (chunks2 digits)) as [raw'|] eqn:Em; [|done]. injection Hm as <-.
    simpl in Hlow. apply andb_true_iff in Hlow as [Ha Hlow]. apply andb_true_iff in Hlow as [Hb Hlow].
    destruct (hex_digit_value _ _ Ea Ha) as [Hh Hda], (hex_digit_value _ _ Eb Hb) as [Hl Hdb].
    destruct (IH digits ltac:(unfold ltof; simpl; lia) raw' Hlow Heven Em) as [Hhex Hlen].
    rewrite Hf by done. destruct (nibbles h l Hh Hl) as (_ & E1 & E2). split.
    + unfold hex_of in *. rewrite bind_cons, E1, E2, Hda, Hdb, Hhex. done.
    + simpl length. rewrite Hlen.
      replace (S (S (length digits))) with (length digits + 1 * 2)%nat by lia.
      rewrite Nat.div_add by done. lia.
Qed.

Lemma strip_prefix_bytes p s r : strip_prefix p s = Some r ↔ s = p ++ r.
Proof.
  revert s. induction p as [|a p IH]; intros s; simpl.
  - split; [by intros [= ->]|by intros ->].
  - destruct s as [|b s]; [done|]. destruct (N.eqb_spec a b) as [->|Hne].
    + rewrite IH. split; [by intros ->|by intros [= ->]].
    + split; [done|by intros [= -> _]].
Qed.

Lemma ascii_str_bytes s bs : str_bytes s = bs → ascii_str bs = s.
Proof. intros <-. unfold ascii_str. by rewrite from_utf8_str. Qed.

(** A parsed digest survives its 32 raw bytes. *)
Lemma digest_roundtrip hash raw :
  source_hash_parse (as_str hash) = Some hash → digest_bytes hash = Ok raw →
  length raw = 32%nat ∧ raw_digest raw = Ok hash.
Proof.
  unfold source_hash_parse, digest_bytes.
  destruct (strip_prefix sha256_prefix _) as [digits|] eqn:Ep; [|done]. simpl.
  destruct (negb (length digits =? 64)) eqn:El; simpl; [done|].
  destruct (forallb lower_hex_digit digits) eqn:Elow; [|done]. intros _.
  destruct (mapM _ _) as [raw'|] eqn:Em; [|done]. intros [= <-].
  apply negb_false_iff, Nat.eqb_eq in El.
  destruct (hex_of_mapM digits (λ h l, h * 16 + l)%N raw') as [Hhex Hlen];
    [done|done|by rewrite El|done|].
  rewrite El in Hlen. change (64 / 2)%nat with 32%nat in Hlen. split; [done|].
  unfold raw_digest. rewrite Hlen. simpl negb. cbv iota. rewrite Hhex.
  apply strip_prefix_bytes in Ep as Hs. rewrite (ascii_str_bytes (as_str hash)) by done.
  unfold source_hash_parse. rewrite Ep. simpl. rewrite El, Elow. simpl. by destruct hash.
Qed.
