(* ===== verification/WireEntitySpec.v ===== *)
(** * Round trips of the rows

    Each row writer of [WireRows] encodes what its reader of [WireDecode] reads
    back, projected to the table schema.

    Then: round trips of entity runs and file facts. *)
From S2P Require Export WireValues.

(** One step of a writer against one step of its reader. *)
Ltac enc_seq := eapply encodes_seq; [solve [eauto 4 with wire]|intros _; cbv beta].
Ltac enc_tag :=
  eapply encodes_seq; [apply u64_encodes; solve [eauto with codes]|intros _; cbv beta];
  eapply encodes_read_lift; [solve [eauto with codes]|].
Ltac enc_lift := eapply encodes_read_lift; [solve [eauto with wire]|].
Ltac enc_ret := apply encodes_ret.

(** A tag word read through its parser. *)
Lemma tag_encodes {S} `{TransitionSink S} {A} code (parse : N → result DecodeError A) a :
  is_u64 code → parse code = Ok a →
  encodes (S := S) (Writer.u64 code) (λ _, Decode.tagged parse) (λ _ x, x = a).
Proof.
  intros Hu Hp. apply encodes_u64. intros _. unfold Decode.tagged.
  rewrite <-(app_nil_r (uvarint code)). eapply reads_bind; [by apply u64_reads|].
  rewrite Hp. apply (reads_ret a).
Qed.

Lemma list_fits_elem {A} (P : A → Prop) l a : list_fits P l → a ∈ l → P a.
Proof. intros [_ Hl]. by apply Forall_forall. Qed.
Lemma list_fits_length {A} (P : A → Prop) l : list_fits P l → length l ≤ dictionary_limit.
Proof. by intros []. Qed.
#[export] Hint Resolve list_fits_length : wire.
#[export] Hint Extern 6 => match goal with
  | Hl : list_fits ?P ?l, Ha : ?a ∈ ?l |- _ => exact (list_fits_elem P l a Hl Ha)
  end : wire.

Create HintDb codes.
Lemma small_u64 n : (n < 16)%N → is_u64 n.
Proof. unfold is_u64, u64_limit. lia. Qed.
#[export] Hint Extern 1 (is_u64 (validity_code ?c)) => by destruct c : codes.
#[export] Hint Extern 1 (is_u64 (call_kind_code ?c)) => by destruct c : codes.
#[export] Hint Extern 1 (is_u64 (constructability_code ?c)) => by destruct c : codes.
#[export] Hint Extern 1 (is_u64 (array_shape_code ?c)) => by destruct c : codes.
#[export] Hint Extern 1 (is_u64 (reference_space_code ?c)) => by destruct c : codes.
#[export] Hint Extern 1 (is_u64 (binding_kind_code ?c)) => by destruct c : codes.
#[export] Hint Extern 1 (is_u64 (witness_code ?c)) => by destruct c : codes.
#[export] Hint Extern 1 (is_u64 (status_code ?c)) => by destruct c : codes.
#[export] Hint Extern 1 (is_u64 (reason_code ?c)) => by destruct c as [[]|] : codes.
Lemma callability_code_u64 c s : is_u64 (callability_code c s).
Proof. apply small_u64. unfold callability_code. destruct (_ && _), c; done. Qed.
#[export] Hint Resolve callability_code_u64 : codes.
#[export] Hint Resolve parse_callability_code parse_constructability_code parse_array_shape_code
  parse_reference_space_code parse_validity_code parse_call_kind_code parse_binding_kind_code
  parse_witness_code parse_status_code parse_reason_code parse_domain_bits
  parse_primitive_bits : codes.

Section rows.
Context {S : Type} `{TransitionSink S}.

Lemma declaration_encodes d s t : state_rel s t → declaration_fits d →
  encodes (S := S) (Rows.declaration d s) (λ strings, Decode.declaration strings t)
    (λ s' p, p.1 = d ∧ state_rel s' p.2).
Proof.
  intros Hst Hd. unfold Rows.declaration, Decode.declaration. do 2 enc_seq.
  intros w a w' Hw Hrun. destruct (location_encodes _ _ _ Hst Hd _ _ _ Hw Hrun)
    as (bs & [l t'] & ? & ? & ? & [Hl Ht] & Hr). simpl in Hl, Ht. subst l.
  eexists bs, ({| decl_kind := decl_kind d; decl_name := decl_name d; decl_location := decl_location d |}, t').
  split_and!; try done; [by destruct d|]. intros strings Hs Hlen.
  rewrite <-(app_nil_r bs). eapply reads_bind; [by apply Hr|]. apply reads_ret.
Qed.

Lemma declarations_encodes ds : list_fits declaration_fits ds →
  encodes (S := S) (Rows.declarations ds) Decode.declarations (λ _ x, x = ds).
Proof.
  intros Hds. eapply encodes_seq; [eauto with wire|]. intros _. rewrite Nat2N.id.
  apply encodes_then_unit. apply (encodes_weaken _ _ (λ _ x, x = id <$> ds));
    [|intros _ x ->; apply list_fmap_id].
  apply (encodes_state _ _ id state_rel); [apply state_rel_default|].
  intros. apply declaration_encodes; eauto with wire.
Qed.
Local Hint Resolve declarations_encodes : wire.

Lemma type_descriptor_encodes d : type_descriptor_fits d →
  encodes (S := S) (Rows.type_descriptor d) Decode.type_descriptor (λ _ x, x = d).
Proof.
  intros Hd. unfold Rows.type_descriptor, Decode.type_descriptor. do 2 enc_seq.
  destruct d. eapply encodes_map. by apply declarations_encodes.
Qed.

Lemma owner_encodes o s t : state_rel s t → owner_fits o →
  encodes (S := S) (Rows.owner o s) (λ strings, Decode.owner strings t)
    (λ s' p, p.1 = o ∧ state_rel s' p.2).
Proof.
  intros Hst Hd. unfold Rows.owner, Decode.owner. do 3 enc_seq.
  intros w a w' Hw Hrun. destruct (location_encodes _ _ _ Hst Hd _ _ _ Hw Hrun)
    as (bs & [l t'] & ? & ? & ? & [Hl Ht] & Hr). simpl in Hl, Ht. subst l.
  eexists bs, ({| do_symbol := do_symbol o; do_name := do_name o; do_kind := do_kind o;
                 do_location := do_location o |}, t').
  split_and!; try done; [by destruct o|]. intros strings Hs Hlen.
  rewrite <-(app_nil_r bs). eapply reads_bind; [by apply Hr|]. apply reads_ret.
Qed.

Lemma resolved_declaration_encodes d : resolved_declaration_fits d →
  encodes (S := S) (Rows.resolved_declaration d) Decode.resolved_declaration (λ _ x, x = d).
Proof.
  intros [Hl Ho]. unfold Rows.resolved_declaration, Decode.resolved_declaration. do 3 enc_seq.
  eapply encodes_bind; [by apply location_encodes, Hl; apply state_rel_default|].
  intros s [l t] [Hll Hst]. simpl in Hll, Hst. subst l. cbv beta iota. enc_seq. rewrite Nat2N.id.
  eapply (encodes_seq _ _ _ _ (id <$> rd_owners d)).
  { apply (encodes_state _ _ id state_rel); [done|]. intros. apply owner_encodes; eauto with wire. }
  intros _. do 3 enc_seq. rewrite list_fmap_id. destruct d.
  eapply encodes_map. apply bool_encodes.
Qed.
Local Hint Resolve type_descriptor_encodes resolved_declaration_encodes : wire.

Lemma single_declaration_encodes d : declaration_fits d →
  encodes (S := S) (Rows.single_declaration d) Decode.single_declaration (λ _ x, x = d).
Proof.
  intros Hd. unfold Rows.single_declaration, Rows.declaration, Decode.single_declaration.
  apply encodes_assoc. enc_seq. apply encodes_assoc. enc_seq.
  eapply encodes_bind; [by apply location_encodes, Hd; apply state_rel_default|].
  intros s [l t] [Hll Hst]. simpl in Hll. subst l. enc_ret. by destruct d.
Qed.

Lemma object_property_encodes p :
  encodes (S := S) (Rows.object_property p) Decode.object_property (λ _ x, x = p).
Proof.
  unfold Rows.object_property, Decode.object_property. enc_seq.
  apply encodes_end. enc_tag. enc_ret. by destruct p.
Qed.

Local Hint Resolve single_declaration_encodes object_property_encodes : wire.

Lemma all_encodes {A B} (f : A → writer S ()) (d : list str → reader B) (g : A → B) l n :
  n = N.of_nat (length l) → (∀ a, a ∈ l → encodes (f a) d (λ _ b, b = g a)) →
  encodes (write_all f l) (λ s, repeat_read (N.to_nat n) (d s)) (λ _ x, x = g <$> l).
Proof. intros ->. rewrite Nat2N.id. apply encodes_all. Qed.

Lemma all_encodes_id {A} (f : A → writer S ()) (d : list str → reader A) l n :
  n = N.of_nat (length l) → (∀ a, a ∈ l → encodes (f a) d (λ _ b, b = a)) →
  encodes (write_all f l) (λ s, repeat_read (N.to_nat n) (d s)) (λ _ x, x = l).
Proof.
  intros -> Hl. apply (encodes_weaken _ _ (λ _ x, x = id <$> l));
    [by apply all_encodes|intros _ x ->; apply list_fmap_id].
Qed.

Lemma indexed_encodes {A B} (f : nat → A → writer S ()) (d : list str → reader B) (g : A → B) l n i :
  n = N.of_nat (length l) → (∀ i a, a ∈ l → encodes (f i a) d (λ _ b, b = g a)) →
  encodes (write_indexed f i l) (λ s, repeat_read (N.to_nat n) (d s)) (λ _ x, x = g <$> l).
Proof. intros ->. rewrite Nat2N.id. apply encodes_indexed. Qed.

Lemma object_shape_encodes sh : object_shape_fits sh →
  encodes (S := S) (Rows.object_shape sh) Decode.object_shape (λ _ x, x = sh).
Proof.
  intros Hsh. eapply encodes_seq; [by apply count_encodes|]. intros _. destruct sh as [ps].
  apply (encodes_map _ _ (λ x, {| ocs_required_properties := x |})).
  apply all_encodes_id; [done|]. intros. apply object_property_encodes.
Qed.
Local Hint Resolve object_shape_encodes : wire.

(** The last optional row of a writer. *)
Lemma encodes_last_option {A B B'} (f : A → writer S ()) (o : option A) (d : list str → reader B)
    (g : A → B) (k' : option B → B') present :
  present = bool_decide (is_Some o) →
  (∀ a, o = Some a → encodes (f a) d (λ _ b, b = g a)) →
  encodes (write_option f o) (λ s, x ← read_if present (d s); mret (k' x))
    (λ _ b, b = k' (g <$> o)).
Proof.
  intros Hp Hf. apply encodes_end. eapply (encodes_option f o d g); [done|done|]. by enc_ret.
Qed.

Lemma implb_true p x : x = true → implb p x = true.
Proof. intros ->. by destruct p. Qed.

Lemma parameter_flags schema p :
  let shape := if (17 <=? schema)%N then pf_object_shape p else None in
  let flags := flags_of
    [(bool_decide (is_Some (pf_declaration p)), 1); (pf_rest p, 2); (pf_optional p, 4);
     (bool_decide (is_Some (pf_type_descriptor p)), 8); (bool_decide (is_Some shape), 16)]%N in
  only_flags flags (if (17 <=? schema)%N then 31%N else 15%N) = true ∧
  has_flag flags 1 = bool_decide (is_Some (pf_declaration p)) ∧
  has_flag flags 2 = pf_rest p ∧ has_flag flags 4 = pf_optional p ∧
  has_flag flags 8 = bool_decide (is_Some (pf_type_descriptor p)) ∧
  has_flag flags 16 = bool_decide (is_Some shape).
Proof.
  intros shape flags. split_and!.
  - apply only_flags_of. subst shape. destruct (17 <=? schema)%N;
      repeat (apply Forall_cons_2; [first [done|by apply implb_true]|]); by constructor.
  - change 1%N with (2 ^ 0)%N at 1. unfold flags. rewrite has_flag_of. simpl. by rewrite orb_false_r.
  - change 2%N with (2 ^ 1)%N at 1. unfold flags. rewrite has_flag_of. simpl. by rewrite orb_false_r.
  - change 4%N with (2 ^ 2)%N at 1. unfold flags. rewrite has_flag_of. simpl. by rewrite orb_false_r.
  - change 8%N with (2 ^ 3)%N at 1. unfold flags. rewrite has_flag_of. simpl. by rewrite orb_false_r.
  - change 16%N with (2 ^ 4)%N at 1. unfold flags. rewrite has_flag_of. simpl. by rewrite orb_false_r.
Qed.

Lemma parameter_encodes schema p : parameter_fits p →
  encodes (S := S) (Rows.parameter schema p) (λ s, Decode.parameter s schema)
    (λ _ x, x = project_parameter schema p).
Proof.
  intros (Hi & Hd & Ht & Hs). unfold Rows.parameter, Decode.parameter. do 2 enc_seq.
  destruct (parameter_flags schema p) as (Ho & F1 & F2 & F4 & F8 & F16). cbv zeta in *.
  set (flags := flags_of _) in *.
  eapply encodes_seq.
  { apply u64_encodes. eapply only_flags_u64; [exact Ho|]. by destruct (17 <=? schema)%N. }
  intros _. apply encodes_read_ensure; [done|].
  eapply (encodes_option _ _ _ id); [done|intros; by apply single_declaration_encodes, Hd|].
  enc_tag.
  eapply (encodes_option _ _ _ id); [done|intros; by apply type_descriptor_encodes, Ht|].
  eapply encodes_weaken; [apply (encodes_last_option Rows.object_shape _ Decode.object_shape id); [done|]|].
  - intros a Ha. apply object_shape_encodes, Hs. by destruct (17 <=? schema)%N.
  - intros _ x ->. rewrite !option_fmap_id, F2, F4. done.
Qed.
Local Hint Resolve parameter_encodes : wire.

Lemma argument_encodes schema i m : argument_fits m →
  encodes (S := S) (Rows.argument_mapping schema i m) (λ s, Decode.argument s schema)
    (λ _ x, x = project_argument schema m).
Proof.
  intros (Hi & Hp). unfold Rows.argument_mapping, Decode.argument. apply encodes_ensure. intros He.
  enc_seq. enc_tag. enc_tag. enc_seq.
  apply (encodes_last_option (Rows.parameter schema) _ (λ s, Decode.parameter s schema)
    (project_parameter schema) (λ x, {| am_argument_index := _; am_status := _;
      am_unresolved := _; am_parameter := x |})); [done|].
  intros a Ha. by apply parameter_encodes, Hp.
Qed.

Lemma target_set_encodes t : target_set_fits t →
  encodes (S := S) (Rows.target_set t) Decode.target_set (λ _ x, x = t).
Proof.
  intros Ht. unfold Rows.target_set, Decode.target_set. apply encodes_ensure. intros Hne.
  do 2 enc_seq. destruct t as [ex cs]. simpl in *.
  replace (N.of_nat (length cs) =? 0)%N with false.
  2:{ symmetry. apply N.eqb_neq. destruct cs; simpl; [done|lia]. }
  apply (encodes_map _ _ (λ x, {| cts_exhaustive := ex; cts_candidates := x |})).
  apply (encodes_weaken _ _ (λ _ x, x = id <$> cs)); [|intros _ x ->; apply list_fmap_id].
  apply indexed_encodes; [done|]. intros i d Hd. unfold Rows.target_candidate, Decode.candidate.
  apply encodes_ensure. intros Hs. apply encodes_end. eapply encodes_seq.
  { apply resolved_declaration_encodes, (list_fits_elem _ _ _ Ht Hd). }
  intros _. apply encodes_read_ensure; [done|]. by enc_ret.
Qed.

(** A row behind its presence boolean, in a schema that may not know it. *)
Lemma encodes_present {A B A' B'} (f : A → writer S ()) (o : option A) (d : list str → reader B)
    (g : A → B) (known : bool) label (k : writer S A') (k' : list str → option B → reader B') Q :
  (∀ a, o = Some a → encodes (f a) d (λ _ b, b = g a)) →
  encodes k (λ s, k' s (keep_if known (g <$> o))) Q →
  encodes ((if known then Rows.present_row f o else mret ());; k)
    (λ s, present ← (if known then Cursor.boolean label else mret false);
          x ← read_if present (d s); k' s x) Q.
Proof.
  intros Hf Hk. destruct known; [|done]. unfold Rows.present_row. apply encodes_assoc.
  eapply encodes_seq; [apply bool_encodes|]. intros _. by eapply encodes_option.
Qed.

Lemma call_flags_encodes {A B} (a n : bool) schema (k : writer S A)
    (k' : list str → bool * bool → reader B) Q :
  encodes k (λ s, k' s ((19 <=? schema)%N && a, (19 <=? schema)%N && n)) Q →
  encodes ((if (19 <=? schema)%N then Writer.u64 (N.lor (N.b2n a * 1) (N.b2n n * 2)) else mret ());; k)
    (λ s, x ← Decode.call_flags schema; k' s x) Q.
Proof.
  intros Hk. unfold Decode.call_flags. destruct (19 <=? schema)%N; [|done].
  eapply encodes_seq; [|intros _; exact Hk]. apply encodes_end.
  eapply encodes_seq; [apply u64_encodes; by destruct a, n|intros _].
  apply encodes_read_ensure; [by destruct a, n|]. enc_ret. by destruct a, n.
Qed.

Lemma resolved_call_encodes schema c : resolved_call_fits c →
  encodes (S := S) (Rows.resolved_call schema c) (λ s, Decode.resolved_call s schema)
    (λ _ x, x = project_call schema c).
Proof.
  intros (Hd & Hb & Ht & Ha). unfold Rows.resolved_call, Decode.resolved_call.
  do 2 enc_seq. do 2 enc_tag.
  apply (encodes_present Rows.resolved_declaration _ Decode.resolved_declaration id true).
  { intros a Hs. by apply resolved_declaration_encodes, Hd. }
  apply (encodes_present Rows.target_set _ Decode.target_set id).
  { intros a Hs. by apply target_set_encodes, Ht. }
  enc_seq. eapply encodes_seq.
  { apply (indexed_encodes _ _ (project_argument schema)); [done|].
    intros i m Hm. apply argument_encodes. eauto with wire. }
  intros _. apply call_flags_encodes. cbv beta iota. apply encodes_end.
  apply (encodes_present Rows.resolved_declaration _ Decode.resolved_declaration id).
  { intros a Hs. by apply resolved_declaration_encodes, Hb. }
  enc_ret. unfold project_call. by rewrite !option_fmap_id.
Qed.

Lemma source_call_encodes c : source_call_fits c →
  encodes (S := S) (Rows.source_call c) Decode.source_call (λ _ x, x = c).
Proof.
  intros (Hl & Hc & Ha). unfold Rows.source_call, Decode.source_call.
  eapply encodes_bind; [by apply location_encodes, Hl; apply state_rel_default|].
  intros s [l t] [Hll Hst]. simpl in Hll, Hst. subst l. cbv beta iota.
  eapply encodes_bind; [by apply location_encodes, Hc|].
  intros s' [l t'] [Hll _]. simpl in Hll. subst l. cbv beta iota. enc_seq.
  destruct c. apply encodes_map, text_encodes.
Qed.

End rows.

(** * Round trips of entity runs and file facts

    The flagged fields of an entity, the delta-coded starts of a run, and the
    bodies of file facts and symbol rows. *)

(** ** The entity flags *)

Lemma entity_flag_bits b1 b2 b3 b4 b5 b6 b7 b8 b9 b10 b11 b12 b13 b14 b15 b16 b17 b18 b19 :
  let f := flags_of
    [(b1, 1); (b2, 2); (b3, 4); (b4, 8); (b5, 16); (b6, 32); (b7, 128); (b8, 256); (b9, 512);
     (b10, 1024); (b11, 2048); (b12, 4096); (b13, 8192); (b14, 16384); (b15, 32768);
     (b16, 65536); (b17, 131072); (b18, 64); (b19, 64)]%N in
  (has_flag f 1 = b1 ∧ has_flag f 2 = b2 ∧ has_flag f 4 = b3 ∧ has_flag f 8 = b4 ∧
   has_flag f 16 = b5 ∧ has_flag f 32 = b6) ∧
  (has_flag f 128 = b7 ∧ has_flag f 256 = b8 ∧ has_flag f 512 = b9 ∧ has_flag f 1024 = b10 ∧
   has_flag f 2048 = b11 ∧ has_flag f 4096 = b12) ∧
  has_flag f 8192 = b13 ∧ has_flag f 16384 = b14 ∧ has_flag f 32768 = b15 ∧
  has_flag f 65536 = b16 ∧ has_flag f 131072 = b17 ∧ has_flag f 64 = b18 || b19.
Proof.
  intros f. unfold f. clear f.
  split_and!;
    match goal with
    | |- has_flag _ ?b = _ =>
        let k := eval vm_compute in (N.log2 b) in change b with (2 ^ k)%N; rewrite has_flag_of
    end; simpl; by rewrite ?orb_false_r.
Qed.

(** What each flag of an entity says. *)
Lemma entity_flag_values schema e :
  let f := Rows.entity_flags schema e in
  (has_flag f 1 = bool_decide (is_Some (ef_type_descriptor e)) ∧
   has_flag f 2 = bool_decide (is_Some (ef_resolved_call e)) ∧
   has_flag f 4 = bool_decide (is_Some (ef_callability e)) ∧
   has_flag f 8 = bool_decide (is_Some (ef_reference_space e)) ∧
   has_flag f 16 = negb (is_empty (ef_runtime_identity e)) ∧
   has_flag f 32 = bool_decide (is_Some (ef_runtime_value_domain e))) ∧
  (has_flag f 128 = (7 <=? schema)%N && bool_decide (is_Some (ef_call_result_domain e)) ∧
   has_flag f 256 = (8 <=? schema)%N && bool_decide (is_Some (ef_constant_value e)) ∧
   has_flag f 512 = (9 <=? schema)%N && bool_decide (is_Some (ef_array_shape e)) ∧
   has_flag f 1024 = (11 <=? schema)%N && bool_decide (is_Some (ef_tuple_shape e)) ∧
   has_flag f 2048 = (12 <=? schema)%N && bool_decide (is_Some (nonempty (ef_library_types e))) ∧
   has_flag f 4096 = (13 <=? schema)%N && pvd_is_present (ef_primitive_value_domain e)) ∧
  has_flag f 8192 = (14 <=? schema)%N && bool_decide (is_Some (ef_constructability e)) ∧
  has_flag f 16384 =
    (16 <=? schema)%N && bool_decide (is_Some (nonempty (ef_primitive_literal_candidates e))) ∧
  has_flag f 32768 = (18 <=? schema)%N && bool_decide (is_Some (ef_runtime_binding_kind e)) ∧
  has_flag f 65536 = (23 <=? schema)%N && bool_decide (is_Some (ef_declared_keys e)) ∧
  has_flag f 131072 = (24 <=? schema)%N && ef_writable_optional_property e ∧
  has_flag f 64 = ((5 <=? schema)%N && eqb (ef_symbol_claim e) SymbolClaim_Unresolved) ||
    ((21 <=? schema)%N && eqb (ef_symbol_claim e) SymbolClaim_Covering).
Proof. apply entity_flag_bits. Qed.

(** Every flag the writer sets is one the reader of the schema knows. *)
Lemma entity_flags_known schema e :
  existsb (N.eqb schema) supported_table_schemas = true →
  (schema = 3%N → ef_runtime_value_domain e = None) →
  only_flags (Rows.entity_flags schema e) (known_entity_flags schema) = true.
Proof.
  intros Hs H3. apply only_flags_of.
  apply existsb_exists in Hs as (v & Hin & <-%N.eqb_eq). simpl in Hin.
  repeat destruct Hin as [<-|Hin]; try done.
  all: try rewrite (H3 eq_refl);
    repeat (apply Forall_cons_2; [first [done|by apply implb_true]|]); by constructor.
Qed.

Lemma known_flags_u64 schema : existsb (N.eqb schema) supported_table_schemas = true →
  is_u64 (known_entity_flags schema).
Proof.
  intros Hs. apply existsb_exists in Hs as (v & Hin & <-%N.eqb_eq). simpl in Hin.
  repeat destruct Hin as [<-|Hin]; done.
Qed.

Lemma dictionary_limit_u64 n : n ≤ dictionary_limit → is_u64 (N.of_nat n).
Proof.
  unfold dictionary_limit, Cursor.packed_collection_limit, is_u64, u64_limit. lia.
Qed.

Lemma is_empty_eq s : is_empty s = true → s = empty_str.
Proof. unfold is_empty. destruct (str_bytes s) eqn:E; [|done]. intros _. by apply str_eq. Qed.

Section entity.
Context {S : Type} `{TransitionSink S}.

(** ** Fields *)

Lemma encodes_since {A B A' B'} (v schema : N) (f : A → writer S ()) (o : option A)
    (d : list str → reader B) (g : A → B) (k : writer S A') (k' : list str → option B → reader B')
    Q present :
  present = (v <=? schema)%N && bool_decide (is_Some o) →
  (∀ a, (v ≤ schema)%N → o = Some a → encodes (f a) d (λ _ b, b = g a)) →
  encodes k (λ s, k' s (g <$> keep_if (v <=? schema)%N o)) Q →
  encodes (Rows.since v schema f o;; k) (λ s, read_if present (d s) ≫= k' s) Q.
Proof.
  intros -> Hf Hk. unfold Rows.since. destruct (N.leb_spec v schema); [|done].
  eapply encodes_option; [done| |exact Hk]. auto.
Qed.

(** A field the reader fills with a default when it is absent. *)
Lemma encodes_default {A B B'} (m : writer S ()) (present : bool) (d : list str → reader B)
    (v v0 : B) (k : writer S A) (k' : list str → B → reader B') Q :
  (present = true → encodes m d (λ _ b, b = v)) →
  encodes k (λ s, k' s (if present then v else v0)) Q →
  encodes ((if present then m else mret ());; k)
    (λ s, (if present then d s else mret v0) ≫= k' s) Q.
Proof. intros Hm Hk. destruct present; [|done]. eapply encodes_seq; [by apply Hm|by intros _]. Qed.

Lemma constant_encodes c :
  constant_valid c → eqb (cv_kind c) ConstantValueKind_Number && is_nan (cv_number c) = false →
  encodes (S := S) (Rows.constant_value c) Decode.constant_value (λ _ x, x = c).
Proof.
  intros Hc Hn. unfold Rows.constant_value, Decode.constant_value, constant_valid in *.
  destruct c as [[] st nu]; cbn [cv_kind cv_string cv_number] in *.
  - eapply encodes_seq; [by apply u64_encodes|]. intros _. subst nu.
    apply (encodes_map _ _ (λ x, {| cv_kind := _; cv_string := x; cv_number := f64_zero |})),
      text_encodes.
  - eapply encodes_seq; [by apply u64_encodes|]. intros _. destruct Hc as [-> Hu].
    apply encodes_end. eapply encodes_seq; [by apply u64_encodes|]. intros _. cbv beta zeta.
    change (eqb _ _) with true in Hn. rewrite andb_true_l in Hn.
    destruct nu as [bits]. cbn [to_bits]. rewrite Hn. by enc_ret.
Qed.

Lemma tuple_encodes schema t : tuple_valid t →
  encodes (S := S) (Rows.tuple_shape schema t) (λ _, Decode.tuple_shape schema)
    (λ _ x, x = project_tuple schema t).
Proof.
  intros (fixed & rest & zero & parameters & exact & Ht & Hp).
  destruct (tuple_getters _ _ _ _ _ _ Ht) as (H1 & H2 & H3 & H4 & H5 & Hf & He).
  unfold Rows.tuple_shape, Decode.tuple_shape, project_tuple. rewrite H1, H2, H3, H4, H5.
  unfold fixed_length_mask, u32_limit in *.
  assert (Hpk : N.lor (N.shiftl fixed 1) (N.b2n rest) = (N.b2n rest + fixed * 2)%N).
  { rewrite N.lor_comm, lor_shiftl_add by by destruct rest. done. }
  assert (Hr : (N.b2n rest ≤ 1)%N) by by destruct rest.
  rewrite Hpk. eapply encodes_seq; [apply u64_encodes; unfold is_u64, u64_limit; lia|]. intros _.
  cbv beta. enc_tag. eapply encodes_seq; [apply u64_encodes; unfold is_u64, u64_limit; lia|].
  intros _. cbv beta. eapply (encodes_read_lift _ _ parameters).
  { unfold u32_of_u64. by replace (_ <? _)%N with true by (symmetry; by apply N.ltb_lt). }
  replace (N.shiftr (N.b2n rest + fixed * 2) 1) with fixed.
  2:{ rewrite N.shiftr_div_pow2. change (2 ^ 1)%N with 2%N. symmetry.
      rewrite N.div_add, N.div_small by lia. lia. }
  replace (negb (N.land (N.b2n rest + fixed * 2) 1 =? 0)%N) with rest.
  2:{ change 1%N with (N.ones 1). rewrite N.land_ones. change (2 ^ 1)%N with 2%N.
      rewrite N.Div0.mod_add. by destruct rest. }
  assert (Hend : ∀ x, (∀ n, x = Some n → (n + 1 < 4294967296)%N) →
    encodes (S := S) (mret ()) (λ _ : list str, fixed_length ← lift (ok_or (TupleOverflow "fixed length") (u32_of_u64 fixed));
      lift (ts_try_new fixed_length rest (Some (project_callability schema zero)) parameters x))
      (λ _ y, y = match ts_try_new fixed rest (Some (project_callability schema zero)) parameters x with
                  | Ok t => t | Err _ => t end)).
  { intros x Hx. eapply (encodes_read_lift _ _ fixed).
    { unfold u32_of_u64. by replace (_ <? _)%N with true by (symmetry; apply N.ltb_lt; lia). }
    destruct (ts_try_new_ok fixed rest (Some (project_callability schema zero)) parameters x)
      as [t' Ht']; [done|done|]. rewrite Ht'. by enc_ret. }
  destruct (13 <=? schema)%N; cbn [keep_if]; [|by apply Hend].
  apply encodes_end. eapply (encodes_seq _ _ _ _ exact); [|intros _; by apply Hend].
  apply encodes_end. eapply encodes_seq; [apply u64_encodes|intros _; cbv beta].
  { destruct exact as [n|]; [|done]. specialize (He n eq_refl). unfold is_u64, u64_limit. lia. }
  destruct exact as [n|]; [|by enc_ret].
  replace (n + 1 =? 0)%N with false by (symmetry; apply N.eqb_neq; lia).
  rewrite N.add_sub. specialize (He n eq_refl). eapply (encodes_read_lift _ _ n).
  { unfold u32_of_u64. by replace (_ <? _)%N with true by (symmetry; apply N.ltb_lt; lia). }
  by enc_ret.
Qed.

Lemma names_encodes label l : names_fit l →
  encodes (S := S) (Rows.name_list l) (λ s, Decode.names s label) (λ _ x, x = l).
Proof.
  intros Hl. eapply encodes_seq; [by apply u64_encodes, dictionary_limit_u64|]. intros _.
  apply all_encodes_id; [done|]. intros. apply text_encodes.
Qed.

Lemma candidate_encodes i c : candidate_valid c →
  encodes (S := S) (Rows.literal_candidate i c) Decode.literal_candidate (λ _ x, x = c).
Proof.
  intros Hc. unfold Rows.literal_candidate, Decode.literal_candidate, candidate_valid in *.
  destruct c as [[] st nu bo]; cbn [plc_kind plc_string plc_number plc_boolean] in *.
  - eapply encodes_seq; [by apply u64_encodes|]. intros _. destruct Hc as [-> ->].
    apply (encodes_map _ _ (λ x, {| plc_kind := _; plc_string := x; plc_number := f64_zero;
      plc_boolean := false |})), text_encodes.
  - destruct Hc as (-> & -> & Hu). destruct (is_finite nu) eqn:Hf; [|by intros w a w' Hw].
    apply encodes_ret_l. eapply encodes_seq; [by apply u64_encodes|]. intros _.
    apply encodes_end. eapply encodes_seq; [by apply u64_encodes|]. intros _. cbv beta zeta.
    destruct nu as [bits]. cbn [to_bits]. rewrite Hf. by enc_ret.
  - eapply encodes_seq; [by apply u64_encodes|]. intros _. destruct Hc as [-> ->].
    apply encodes_end. eapply encodes_seq; [by apply u64_encodes; destruct bo|]. intros _.
    destruct bo; by enc_ret.
Qed.

Lemma candidates_encodes i cs : length cs ≤ 32 → Forall candidate_valid cs →
  encodes (S := S) (Rows.literal_candidates i cs) Decode.literal_candidates (λ _ x, x = cs).
Proof.
  intros Hl Hc. eapply encodes_seq; [apply u64_encodes; unfold is_u64, u64_limit; lia|]. intros _.
  cbv beta. replace (32 <? N.of_nat (length cs))%N with false by (symmetry; apply N.ltb_ge; lia).
  apply all_encodes_id; [done|]. intros c Hin. apply candidate_encodes.
  by eapply Forall_forall in Hc.
Qed.

(** ** Entities *)

Lemma claim_encodes {A B} schema i e (k : writer S A) (d : list str → reader B) Q :
  (Decode.symbol_claim (ef_symbol e) (has_flag (Rows.entity_flags schema e) 64) schema =
     Ok (project_claim schema (ef_symbol e) (ef_symbol_claim e)) → encodes k d Q) →
  encodes (Rows.check_claim i e;; k) d Q.
Proof.
  intros Hk. destruct (entity_flag_values schema e) as (_ & _ & _ & _ & _ & _ & _ & E).
  cbv zeta in E. rewrite E in Hk. unfold Rows.check_claim, Decode.symbol_claim, project_claim in *.
  destruct (ef_symbol_claim e); cbn [eqb bool_decide decide] in *.
  - apply encodes_ret_l, Hk. change (eqb _ _) with false. rewrite !andb_false_r.
    by destruct (is_empty _).
  - apply encodes_ensure. intros He. apply Hk. rewrite He.
    change (eqb SymbolClaim_Unresolved SymbolClaim_Unresolved) with true.
    change (eqb SymbolClaim_Unresolved SymbolClaim_Covering) with false.
    rewrite andb_true_r, andb_false_r, orb_false_r. by destruct (5 <=? schema)%N.
  - apply encodes_ret_l, Hk. change (eqb _ _) with false. rewrite !andb_false_r.
    by destruct (is_empty _).
  - apply encodes_ensure. intros He%negb_true_iff. apply Hk. rewrite He.
    change (eqb SymbolClaim_Covering SymbolClaim_Unresolved) with false.
    change (eqb SymbolClaim_Covering SymbolClaim_Covering) with true.
    rewrite andb_true_r, andb_false_r, orb_false_l. by destruct (21 <=? schema)%N.
Qed.

(** A domain whose bits the reader parses has no bit past the tenth. *)
Lemma primitive_bits_u64 v d : parse_primitive_value_domain v = Ok d → is_u64 v.
Proof.
  unfold parse_primitive_value_domain. destruct (N.ldiff v 1023 =? 0)%N eqn:E; [|done].
  intros _. by apply (only_flags_u64 v 1023).
Qed.

(** A check that writes nothing and lets the rest run only when [P] holds. *)
Lemma encodes_guard {A B} (P : Prop) (m : writer S ()) (k : writer S A) (d : list str → reader B) Q :
  (∀ w a w', m w = Ok (a, w') → w' = w ∧ P) → (P → encodes k d Q) → encodes (m;; k) d Q.
Proof.
  intros Hm Hk w a w' Hw. unfold mbind, writer_bind. destruct (m w) as [[[] w1]|] eqn:E; [|done].
  apply Hm in E as [-> HP]. by apply Hk.
Qed.

Lemma validate_guard {A B} ctx l (k : writer S A) (d : list str → reader B) Q :
  ((start_byte l ≤ end_byte l)%N → encodes k d Q) →
  encodes (in_context ctx (Rows.validate_location l);; k) d Q.
Proof.
  intros Hk. apply (encodes_guard (start_byte l ≤ end_byte l)%N); [|done].
  intros w a w'. unfold in_context, map_err, Rows.validate_location, ensure.
  destruct (N.leb_spec (start_byte l) (end_byte l)); [|done]. intros [= <- <-]. done.
Qed.

Lemma constant_guard {A B} i e (k : writer S A) (d : list str → reader B) Q :
  (option_fits (λ c, eqb (cv_kind c) ConstantValueKind_Number && is_nan (cv_number c) = false)
     (ef_constant_value e) → encodes k d Q) →
  encodes (Rows.check_constant i e;; k) d Q.
Proof.
  intros Hk. eapply encodes_guard; [|exact Hk]. intros w a w'. unfold Rows.check_constant.
  destruct (ef_constant_value e) as [c|]; [|by intros [= <- <-]; split].
  destruct (eqb _ _ && _) eqn:E; [done|]. intros [= <- <-]. split; [done|]. by intros c' [= <-].
Qed.

Definition start_rel (z : Z) (n : N) : Prop := z = Z.of_N n ∧ (z < i64_limit)%Z.

Lemma nonempty_Some {A} (o : option (list A)) l : nonempty o = Some l → o = Some l.
Proof. by destruct o as [[]|]. Qed.

Lemma entity_encodes path schema i e z n :
  existsb (N.eqb schema) supported_table_schemas = true → entity_fits schema e → start_rel z n →
  encodes (S := S) (Rows.entity path schema i e z) (λ s, Decode.entity s path schema n)
    (λ z' p, p.1 = project_entity schema e ∧ start_rel z' p.2).
Proof.
  intros Hs ([Hsb Heb] & Htd & Hrc & Hrv & Hcr & Hpv & Hlc & Hcv & Hts & Hlt & Hdk & H3) [-> Hz].
  unfold Rows.entity, Decode.entity. apply encodes_ensure. intros Hpath%bool_decide_eq_true.
  apply validate_guard. intros Hle. apply (claim_encodes schema). intros Hclaim. apply constant_guard.
  intros Hnan. cbv zeta. apply encodes_ensure. intros Hst%Z.ltb_lt.
  assert (Hdelta : is_i64 (Z.of_N (start_byte (ef_location e)) - Z.of_N n)%Z)
    by (unfold is_i64, i64_limit in *; lia).
  eapply encodes_seq; [by apply signed_encodes|intros _; cbv beta].
  eapply (encodes_read_lift _ _ (start_byte (ef_location e))).
  { apply add_signed_delta; [unfold is_u64, u64_limit, i64_limit in *; lia|done|done|lia]. }
  eapply encodes_seq; [apply u64_encodes; unfold is_u64 in *; lia|intros _; cbv beta].
  eapply (encodes_read_lift _ _ (end_byte (ef_location e))).
  { unfold checked_add. unfold is_u64 in Heb.
    replace (_ <? _)%N with true by (symmetry; apply N.ltb_lt; lia). simpl. f_equal. lia. }
  eapply encodes_seq; [apply text_encodes|intros _; cbv beta].
  pose proof (entity_flags_known schema e Hs H3) as Hknown.
  eapply encodes_seq.
  { apply u64_encodes. eapply only_flags_u64; [exact Hknown|by apply known_flags_u64]. }
  intros _. cbv beta. apply encodes_read_ensure; [done|].
  destruct (entity_flag_values schema e) as
    ((F1 & F2 & F4 & F8 & F16 & F32) & (F128 & F256 & F512 & F1024 & F2048 & F4096) &
     F8192 & F16384 & F32768 & F65536 & F131072 & F64). cbv zeta in *.
  set (flags := Rows.entity_flags schema e) in *. unfold Rows.entity_body.
  apply encodes_assoc. eapply (encodes_option _ _ _ id); [done|by intros; apply type_descriptor_encodes, Htd|].
  apply encodes_assoc. eapply (encodes_option _ _ _ (project_call schema)); [done| |].
  { intros. by apply encodes_in_context, resolved_call_encodes, Hrc. }
  apply encodes_assoc. eapply (encodes_option _ _ _ (project_callability schema)); [done| |].
  { intros. apply tag_encodes; [eauto with codes|cbv beta; eauto with codes]. }
  apply encodes_assoc. eapply (encodes_option _ _ _ id); [done| |].
  { intros. apply tag_encodes; [eauto with codes|cbv beta; eauto with codes]. }
  apply encodes_assoc. rewrite F16. eapply encodes_default; [intros _; apply text_encodes|].
  apply encodes_assoc. eapply (encodes_option _ _ _ id); [done| |].
  { intros d Hd. apply Hrv in Hd. apply tag_encodes; [|by apply parse_domain_bits].
    by destruct Hd as ([] & [] & [] & [] & ->). }
  apply encodes_assoc. eapply (encodes_since 7 _ _ _ _ id); [done| |].
  { intros d _ Hd. apply Hcr in Hd. apply tag_encodes; [|by apply parse_domain_bits].
    by destruct Hd as ([] & [] & [] & [] & ->). }
  apply encodes_assoc. eapply (encodes_since 8 _ _ _ _ id); [done| |].
  { intros c _ Hc. apply constant_encodes; [by apply Hcv|by apply Hnan]. }
  apply encodes_assoc. eapply (encodes_since 9 _ _ _ _ id); [done| |].
  { intros. apply tag_encodes; [eauto with codes|cbv beta; eauto with codes]. }
  apply encodes_assoc. eapply (encodes_since 11 _ _ _ _ (project_tuple schema)); [done| |].
  { intros t _ Ht. by apply tuple_encodes, Hts. }
  apply encodes_assoc. eapply (encodes_since 12 _ _ _ _ id); [done| |].
  { intros l _ Hl%nonempty_Some. by apply names_encodes, Hlt. }
  apply encodes_assoc. rewrite F4096.
  eapply (encodes_default _ _ _ (ef_primitive_value_domain e)).
  { intros [_ Hp]%andb_true_iff. pose proof (parse_primitive_bits _ Hpv Hp) as Hparse.
    apply tag_encodes; [|done]. by eapply primitive_bits_u64. }
  apply encodes_assoc. eapply (encodes_since 14 _ _ _ _ id); [done| |].
  { intros. apply tag_encodes; [eauto with codes|cbv beta; eauto with codes]. }
  apply encodes_assoc. eapply (encodes_since 16 _ _ _ _ id); [done| |].
  { intros cs _ Hc%nonempty_Some. destruct (Hlc _ Hc). by apply candidates_encodes. }
  apply encodes_assoc. eapply (encodes_since 18 _ _ _ _ id); [done| |].
  { intros. apply tag_encodes; [eauto with codes|cbv beta; eauto with codes]. }
  eapply (encodes_since 23 _ _ _ _ id); [done| |].
  { intros l _ Hl. by apply names_encodes, Hdk. }
  eapply encodes_read_lift; [exact Hclaim|]. enc_ret. split; [|by split].
  unfold project_entity. rewrite !option_fmap_id, F131072. cbn [fst].
  f_equal; [by destruct (ef_location e); simpl in *; subst path| |].
  - destruct (13 <=? schema)%N; [|done]. rewrite andb_true_l.
    destruct (pvd_is_present _) eqn:E; [done|]. unfold pvd_is_present in E.
    apply negb_false_iff, N.eqb_eq in E. destruct (ef_primitive_value_domain e). simpl in E. by subst.
  - destruct (is_empty (ef_runtime_identity e)) eqn:E; [|done]. by rewrite (is_empty_eq _ E).
Qed.

Lemma entity_rows_encode path schema i z n es :
  existsb (N.eqb schema) supported_table_schemas = true → Forall (entity_fits schema) es →
  start_rel z n →
  encodes (S := S) (Rows.entity_rows path schema i z es)
    (λ s, repeat_state (length es) (Decode.entity s path schema) n)
    (λ _ x, x = project_entity schema <$> es).
Proof.
  intros Hs Hes. revert i z n. induction Hes as [|e es He Hes IH]; intros i z n Hz; simpl.
  - by enc_ret.
  - eapply encodes_bind; [by apply entity_encodes|]. intros z' [e' n'] [He' Hz']. simpl in He', Hz'.
    subst e'. apply (encodes_map _ _ (λ x, project_entity schema e :: x)). by apply IH.
Qed.

Lemma entity_run_encodes path schema es :
  existsb (N.eqb schema) supported_table_schemas = true → list_fits (entity_fits schema) es →
  encodes (S := S) (Rows.entity_run path schema es) (λ s, Decode.entity_run s path schema)
    (λ _ x, x = project_entity schema <$> es).
Proof.
  intros Hs [Hl Hes]. eapply encodes_seq; [by apply count_encodes|]. intros _. rewrite Nat2N.id.
  by apply entity_rows_encode.
Qed.

(** ** File facts *)

Lemma binding_encodes b : binding_fits b →
  encodes (S := S) (Rows.binding b) Decode.binding (λ _ x, x = b).
Proof.
  intros [Hn Hi]. unfold Rows.binding, Decode.binding.
  eapply encodes_seq; [apply u64_encodes; by destruct (sb_array b)|intros _; cbv beta].
  apply encodes_read_ensure; [by destruct (sb_array b)|]. enc_seq.
  apply encodes_end. eapply encodes_seq; [by apply source_call_encodes|intros _; cbv beta].
  enc_ret. by destruct b as [[] ? ?].
Qed.

Lemma function_encodes f : function_fits f →
  encodes (S := S) (Rows.function f) Decode.function (λ _ x, x = f).
Proof.
  intros (Hn & Hb & Hp). unfold Rows.function, Decode.function.
  eapply encodes_bind; [by apply location_encodes, Hn; apply state_rel_default|].
  intros s [l t] [Hl Hst]. simpl in Hl, Hst. subst l. cbv beta iota.
  eapply encodes_bind; [by apply location_encodes, Hb|].
  intros s' [l t'] [Hl _]. simpl in Hl. subst l. cbv beta iota. enc_seq.
  apply encodes_end. eapply encodes_seq; [apply u64_encodes; by destruct (fn_exported f), (fn_async f), (fn_arrow f)|].
  intros _. cbv beta. apply encodes_read_ensure; [by destruct (fn_exported f), (fn_async f), (fn_arrow f)|].
  enc_ret. by destruct f as [? ? ? [] [] []].
Qed.

Lemma async_function_encodes f : async_function_fits f →
  encodes (S := S) (Rows.async_function f) Decode.async_function (λ _ x, x = f).
Proof.
  intros (He & Hc). unfold Rows.async_function, Decode.async_function.
  eapply encodes_bind; [by apply location_encodes, He; apply state_rel_default|].
  intros s [l t] [Hl _]. simpl in Hl. subst l. cbv beta iota. do 2 enc_seq.
  eapply encodes_seq; [apply u64_encodes; by destruct (af_can_return_async f)|intros _; cbv beta].
  apply encodes_read_ensure; [by destruct (af_can_return_async f)|].
  apply encodes_end. enc_seq. enc_ret. by destruct f as [? ? ? [] ?].
Qed.

(** A counted list of rows, in the middle of a row. *)
Lemma counted_encodes {A A' B} (f : A → writer S ()) (d : list str → reader A) l label
    (k : writer S A') (k' : list str → list A → reader B) Q :
  length l ≤ dictionary_limit → (∀ a, a ∈ l → encodes (f a) d (λ _ b, b = a)) →
  encodes k (λ s, k' s l) Q →
  encodes (Writer.u64 (N.of_nat (length l));; write_all f l;; k)
    (λ s, count ← Cursor.count label; x ← repeat_read (N.to_nat count) (d s); k' s x) Q.
Proof.
  intros Hl Hf Hk. eapply encodes_seq; [by apply count_encodes|]. intros _. cbv beta.
  eapply encodes_seq; [by apply all_encodes_id|]. by intros _.
Qed.

Lemma file_encodes f : file_fits f →
  encodes (S := S) (Rows.file_body f) (λ s, Decode.file_fact s (ff_path f)) (λ _ x, x = f).
Proof.
  intros (Hc & Hb & Hf & Ha). unfold Rows.file_body, Decode.file_fact.
  apply counted_encodes; [by destruct Hc|intros; apply source_call_encodes; eauto with wire|].
  apply counted_encodes; [by destruct Hb|intros; apply binding_encodes; eauto with wire|].
  apply counted_encodes; [by destruct Hf|intros; apply function_encodes; eauto with wire|].
  eapply encodes_seq; [apply count_encodes; by destruct Ha|]. intros _. cbv beta.
  destruct f. apply (encodes_map _ _ (λ x, {| ff_path := _; ff_calls := _; ff_bindings := _;
    ff_functions := _; ff_async_functions := x |})).
  apply all_encodes_id; [done|]. intros. apply async_function_encodes. eauto with wire.
Qed.

End entity.
