(* ===== verification/WireFrame.v ===== *)
(** * A written frame decodes to its plan

    The strings a frame's dictionary is read back as: the strings interned,
    except that a hashed symbol comes back in lower case. Then the round trip
    of a transition and of the frame around it, and the writer with a sink, in
    step with the one without. *)
From S2P Require Export WireEntitySpec WireRows.

(** What a string of the dictionary is read back as. *)
Definition unpacked (s : str) : str :=
  match packed_hashed_symbol s with
  | Some digest => ascii_str (hashed_symbol_prefix ++ hex_of digest)
  | None => s
  end.

(** A hashed symbol in lower case, or any other string. *)
Definition canonical_symbol (s : str) : Prop := unpacked s = s.

Definition str_fits (s : str) : Prop := is_u64 (N.of_nat (length (str_bytes s))).

(** ** Strings of the dictionary *)

Lemma common_prefix_take l r : take (common_prefix l r) l = take (common_prefix l r) r ∧
  common_prefix l r ≤ length l ∧ common_prefix l r ≤ length r.
Proof.
  revert r. induction l as [|a l IH]; intros [|b r]; simpl; try (split_and!; [done|lia|lia]).
  destruct (N.eqb_spec a b) as [->|]; simpl; [|split_and!; [done|lia|lia]].
  destruct (IH r) as (-> & ? & ?). split_and!; [done|lia|lia].
Qed.

Lemma chunks2_length n l : length l = (2 * n)%nat → length (chunks2 l) = n.
Proof.
  revert l. induction n as [|n IH]; intros [|a [|b l]] Hl; simpl in *; try lia.
  rewrite (IH l); lia.
Qed.

Lemma packed_hashed_length s digest : packed_hashed_symbol s = Some digest →
  length digest = hashed_symbol_digest_bytes.
Proof.
  unfold packed_hashed_symbol. destruct (strip_prefix _ _) as [digits|]; [|done]. simpl.
  destruct (negb (length digits =? 24)) eqn:E; [done|]. intros Hm.
  apply negb_false_iff, Nat.eqb_eq in E. apply length_mapM in Hm.
  rewrite <-Hm. by apply chunks2_length.
Qed.

(** Lower-case digits are canonical. *)
Lemma lower_canonical s digits :
  str_bytes s = hashed_symbol_prefix ++ digits → forallb lower_hex_digit digits = true →
  canonical_symbol s.
Proof.
  intros Hs Hlow. unfold canonical_symbol, unpacked.
  destruct (packed_hashed_symbol s) as [digest|] eqn:E; [|done]. unfold packed_hashed_symbol in E.
  replace (strip_prefix hashed_symbol_prefix (str_bytes s)) with (Some digits) in E
    by (symmetry; by apply strip_prefix_bytes).
  simpl in E. destruct (negb (length digits =? 24)) eqn:El; [done|].
  apply negb_false_iff, Nat.eqb_eq in El.
  destruct (hex_of_mapM digits (λ h l, N.lor (N.shiftl h 4) l) digest) as [Hhex _];
    [intros; by apply nibbles|done|by rewrite El|exact E|].
  rewrite Hhex. by apply ascii_str_bytes.
Qed.

(** The bytes of one dictionary string behind the prefix window. *)
Definition string_bytes (previous : list N) (s : str) : list N * list N :=
  match packed_hashed_symbol s with
  | Some digest => (uvarint 1 ++ digest, previous)
  | None =>
      let prefix := common_prefix previous (str_bytes s) in
      let suffix := drop prefix (str_bytes s) in
      (uvarint 0 ++ uvarint (N.of_nat prefix) ++ uvarint (N.of_nat (length suffix)) ++ suffix,
       str_bytes s)
  end.

Fixpoint strings_bytes (previous : list N) (l : list str) : list N :=
  match l with
  | [] => []
  | s :: l => (string_bytes previous s).1 ++ strings_bytes (string_bytes previous s).2 l
  end.

Lemma append_strings_bytes frame previous l :
  append_strings frame previous l = frame ++ strings_bytes previous l.
Proof.
  revert frame previous. induction l as [|s l IH]; intros frame previous; simpl.
  - by rewrite app_nil_r.
  - unfold string_bytes. destruct (packed_hashed_symbol s); cbn [fst snd]; rewrite IH;
      unfold push_uvarint; by rewrite <-!app_assoc.
Qed.

Lemma packed_string_reads previous s :
  str_fits s →
  reads (Decode.packed_string previous) (string_bytes previous s).1
    (unpacked s, (string_bytes previous s).2).
Proof.
  intros Hs. unfold Decode.packed_string, string_bytes, unpacked.
  destruct (packed_hashed_symbol s) as [digest|] eqn:E; cbn [fst snd].
  - eapply reads_bind; [by apply u64_reads|].
    change (reads (raw ← Cursor.raw (N.of_nat hashed_symbol_digest_bytes);
      mret (ascii_str (hashed_symbol_prefix ++ hex_of raw), previous)) digest
      (ascii_str (hashed_symbol_prefix ++ hex_of digest), previous)).
    apply (reads_map _ (λ raw, (ascii_str (hashed_symbol_prefix ++ hex_of raw), previous))).
    rewrite <-(packed_hashed_length _ _ E). apply raw_reads.
  - destruct (common_prefix_take previous (str_bytes s)) as (Htake & Hp & Hb).
    set (prefix := common_prefix previous (str_bytes s)) in *. unfold str_fits, is_u64 in Hs.
    eapply reads_bind; [by apply u64_reads|]. cbn [N.eqb].
    eapply reads_bind; [apply u64_reads; unfold is_u64; lia|]. eapply reads_lift.
    { unfold usize_try_from. replace (_ <? _)%N with true by (symmetry; apply N.ltb_lt; lia). done. }
    eapply (reads_bind _ _ [] _ tt).
    { replace (_ <=? _)%N with true by (symmetry; apply N.leb_le; lia). apply reads_ret. }
    eapply reads_bind; [apply u64_reads; unfold is_u64; rewrite length_drop; lia|].
    eapply reads_lift.
    { unfold usize_try_from.
      replace (_ <? _)%N with true by (symmetry; apply N.ltb_lt; rewrite length_drop; lia). done. }
    eapply reads_last; [apply raw_reads|].
    rewrite Nat2N.id, Htake, take_drop. eapply reads_lift; [by rewrite from_utf8_str|].
    apply reads_ret.
Qed.

Lemma strings_reads previous l : Forall str_fits l →
  reads (repeat_state (length l) Decode.packed_string previous) (strings_bytes previous l)
    (unpacked <$> l).
Proof.
  intros Hl. revert previous. induction Hl as [|s l Hs Hl IH]; intros previous; simpl.
  - apply reads_ret.
  - eapply reads_bind; [by apply packed_string_reads|]. cbv beta iota.
    apply (reads_map _ (λ rest, unpacked s :: rest)), IH.
Qed.

Definition dictionary_bytes (d : Dictionary) : list N :=
  uvarint (N.of_nat (length (values d))) ++ strings_bytes [] (values d).

Lemma append_packed_bytes frame d : append_packed_dictionary frame d = frame ++ dictionary_bytes d.
Proof.
  unfold append_packed_dictionary, dictionary_bytes, push_uvarint.
  by rewrite append_strings_bytes, <-app_assoc.
Qed.

Lemma packed_strings_reads d :
  length (values d) ≤ dictionary_limit → Forall str_fits (values d) →
  reads Decode.packed_strings (dictionary_bytes d) (unpacked <$> values d).
Proof.
  intros Hl Hs. unfold Decode.packed_strings, dictionary_bytes.
  eapply reads_bind; [apply count_reads; unfold dictionary_limit in Hl; lia|].
  rewrite Nat2N.id. by apply strings_reads.
Qed.

(** ** The distinctness check *)

Lemma has_duplicate_spec seen l :
  Decode.has_duplicate seen l = false ↔ NoDup l ∧ ∀ s, s ∈ l → s ∉ seen.
Proof.
  revert seen. induction l as [|s l IH]; intros seen; simpl.
  - split; [|done]. intros _. split; [constructor|]. intros s Hs. by apply elem_of_nil in Hs.
  - case_bool_decide as Hs.
    + split; [done|]. intros [_ H]. destruct (H s); [by left|done].
    + rewrite IH, NoDup_cons. split.
      * intros [Hnd Hl]. split_and!; [|done|].
        -- intros Hin. apply (Hl s Hin). set_solver.
        -- intros t [->|Ht]%elem_of_cons; [done|]. specialize (Hl t Ht). set_solver.
      * intros [[Hns Hnd] Hl]. split; [done|]. intros t Ht.
        assert (t ∉ seen) by (apply Hl; by right). assert (t ≠ s) by (by intros ->). set_solver.
Qed.

Lemma dictionary_reads d :
  dict_ok d → head (values d) = Some empty_str → Forall canonical_symbol (values d) →
  length (values d) ≤ dictionary_limit → Forall str_fits (values d) →
  reads Decode.dictionary (dictionary_bytes d) (values d).
Proof.
  intros Hd Hh Hc Hl Hs. unfold Decode.dictionary.
  eapply reads_last; [by apply packed_strings_reads|].
  assert (unpacked <$> values d = values d) as ->.
  { revert Hc. generalize (values d). clear. induction 1 as [|s l E Hc IH]; [done|].
    rewrite fmap_cons, IH. by rewrite E. }
  destruct (values d) as [|s l] eqn:E; [done|]. injection Hh as ->.
  eapply (reads_bind _ _ [] [] tt); [apply reads_ret|].
  replace (Decode.has_duplicate ∅ _) with false.
  2:{ symmetry. apply has_duplicate_spec. rewrite <-E. split; [by apply dict_ok_NoDup|].
      intros t _. apply not_elem_of_empty. }
  eapply (reads_bind _ _ [] [] tt); [apply reads_ret|]. apply reads_ret.
Qed.

(** * Round trip of a transition

    The specification side of a frame: the operations a plan may carry
    ([plan_valid]: what the reader checks and the writer takes on trust) and
    the transition its frame decodes to ([project_plan]), with the round trips
    of path and symbol operations. *)

(** ** What a plan decodes to *)

Definition slot_map {A B} (f : A → B) (s : Slot A) : SlotOp B :=
  match s with Unchanged => SlotUnchanged | Replace a => SlotReplace (f a) | Remove => SlotRemove end.

Definition project_path (schema : N) (op : PathOpRef) : PathOp :=
  {| po_path := pr_path op; po_source := slot_map id (pr_source op);
     po_entities := slot_map (fmap (project_entity schema)) (pr_entities op);
     po_file := slot_map id (pr_file op) |}.

Definition project_symbol_op (op : SymbolOpRef) : SymbolOp :=
  match sr_body op with
  | BodyReplace fact => SymbolReplace (project_symbol fact)
  | BodyRemove => SymbolRemove (sr_id op)
  | BodyReplaceReferencePath path references =>
      SymbolReplaceReferencePath (sr_id op) path references
  end.

Definition project_plan (plan : Plan) : WireTableTransition :=
  {| wt_mode := pl_mode plan; wt_table_schema := pl_table_schema plan;
     wt_base_generation := pl_base_generation plan;
     wt_target_generation := pl_target_generation plan; wt_project_id := pl_project_id plan;
     wt_base_state_token := pl_base_state_token plan;
     wt_paths := project_path (pl_table_schema plan) <$> pl_paths plan;
     wt_symbols := project_symbol_op <$> pl_symbols plan |}.

(** ** Plans a reader accepts *)

Definition path_valid (mode : TransitionMode) (schema : N) (op : PathOpRef) : Prop :=
  (is_unchanged (pr_source op) && is_unchanged (pr_entities op) && is_unchanged (pr_file op) = false) ∧
  (mode = Full → pr_source op ≠ Remove ∧ pr_entities op ≠ Remove ∧ pr_file op ≠ Remove) ∧
  (∀ h, pr_source op = Replace h → source_hash_parse (as_str h) = Some h) ∧
  (∀ es, pr_entities op = Replace es → es ≠ [] ∧ list_fits (entity_fits schema) es ∧
     Decode.entity_run_is_canonical (pr_path op) es = true) ∧
  (∀ f, pr_file op = Replace f → file_fits f).

Fixpoint paths_ordered (previous : option str) (ops : list PathOpRef) : Prop :=
  match ops with
  | [] => True
  | op :: ops =>
      match previous with Some p => str_ltb p (pr_path op) = true | None => True end ∧
      paths_ordered (Some (pr_path op)) ops
  end.

Definition symbol_key (op : SymbolOpRef) : Decode.SymbolKey :=
  (sr_id op, body_tag (sr_body op),
   match sr_body op with BodyReplaceReferencePath path _ => path | _ => empty_str end).

Definition symbol_valid (op : SymbolOpRef) : Prop :=
  match sr_body op with
  | BodyReplace fact =>
      symbol_fits fact ∧ Decode.locations_are_canonical (sf_references fact) = true
  | BodyRemove => True
  | BodyReplaceReferencePath _ references =>
      locations_fit references ∧ Decode.locations_are_canonical references = true
  end.

Fixpoint symbols_ordered (previous : option Decode.SymbolKey) (ops : list SymbolOpRef) : Prop :=
  match ops with
  | [] => True
  | op :: ops =>
      match previous with
      | Some key => Decode.symbol_key_ltb key (symbol_key op) = true
      | None => True
      end ∧ symbols_ordered (Some (symbol_key op)) ops
  end.

Definition plan_valid (plan : Plan) : Prop :=
  existsb (N.eqb (pl_table_schema plan)) supported_table_schemas = true ∧
  (is_u64 (pl_base_generation plan) ∧ is_u64 (pl_target_generation plan) ∧
   pl_target_generation plan ≠ 0%N) ∧
  is_empty (pl_project_id plan) = false ∧
  Decode.check_base (pl_mode plan) (pl_base_generation plan) (pl_target_generation plan)
    (pl_base_state_token plan) = Ok tt ∧
  (list_fits (path_valid (pl_mode plan) (pl_table_schema plan)) (pl_paths plan) ∧
   paths_ordered None (pl_paths plan)) ∧
  list_fits symbol_valid (pl_symbols plan) ∧ symbols_ordered None (pl_symbols plan).

(** ** Path operations *)

Lemma windows_all_map {A B} (f : B → B → bool) (g : A → B) l :
  Decode.windows_all f (g <$> l) = Decode.windows_all (λ x y, f (g x) (g y)) l.
Proof.
  induction l as [|x l IH]; [done|]. destruct l as [|y l]; [done|].
  change (f (g x) (g y) && Decode.windows_all f (g <$> y :: l) =
    f (g x) (g y) && Decode.windows_all (λ x y, f (g x) (g y)) (y :: l)). by rewrite IH.
Qed.

(** The order of a run is the order of its locations, which every schema carries. *)
Lemma canonical_projected path schema es :
  Decode.entity_run_is_canonical path (project_entity schema <$> es) =
    Decode.entity_run_is_canonical path es.
Proof.
  unfold Decode.entity_run_is_canonical. f_equal.
  2:{ apply (windows_all_map (λ x y, Decode.span_leb (ef_location x) (ef_location y))
        (project_entity schema)). }
  induction es as [|e es IH]; [done|]. cbn. f_equal. exact IH.
Qed.

Definition path_flags (op : PathOpRef) : N :=
  N.lor (N.lor (N.shiftl (slot_code (pr_source op)) 0) (N.shiftl (slot_code (pr_entities op)) 2))
    (N.shiftl (slot_code (pr_file op)) 4).

Lemma path_flags_spec op :
  is_u64 (path_flags op) ∧ only_flags (path_flags op) 63 = true ∧
  N.land (path_flags op) 3 = slot_code (pr_source op) ∧
  N.land (N.shiftr (path_flags op) 2) 3 = slot_code (pr_entities op) ∧
  N.land (N.shiftr (path_flags op) 4) 3 = slot_code (pr_file op).
Proof. unfold path_flags. by destruct (pr_source op), (pr_entities op), (pr_file op). Qed.

Lemma slot_tag_code {T} (s : Slot T) label : Decode.slot_tag (slot_code s) label = Ok (slot_code s).
Proof. by destruct s. Qed.

Section frame.
Context {S : Type} `{TransitionSink S}.

Lemma encodes_assoc' {A A' A'' B} (m : writer S A) (f : A → writer S A') (g : A' → writer S A'')
    (d : list str → reader B) Q :
  encodes ((m ≫= f) ≫= g) d Q → encodes (m ≫= λ a, f a ≫= g) d Q.
Proof.
  intros Hm w a w' Hw E. apply Hm; [done|]. revert E. unfold mbind, writer_bind.
  by destruct (m w) as [[]|].
Qed.

(** A slot's rows, between other rows. *)
Lemma slot_encodes {A B A' B'} (s : Slot A) (m : A → writer S ()) (d : list str → reader B)
    (g : A → B) (k : writer S A') (k' : list str → SlotOp B → reader B') Q :
  (∀ a, s = Replace a → encodes (m a) d (λ _ b, b = g a)) →
  encodes k (λ str, k' str (slot_map g s)) Q →
  encodes ((match s with Replace a => m a | _ => mret () end);; k)
    (λ str, Decode.read_slot (slot_code s) (d str) ≫= k' str) Q.
Proof.
  intros Hm Hk. destruct s as [|a|]; [exact Hk| |exact Hk].
  eapply encodes_seq; [|by intros _]. apply (encodes_map _ _ SlotReplace). by apply Hm.
Qed.

Lemma source_encodes h : source_hash_parse (as_str h) = Some h →
  encodes (S := S) (raw ← Rows.lift_encode (digest_bytes h); Writer.raw raw)
    (λ _, Decode.source_slot) (λ _ x, x = h).
Proof.
  intros Hh. destruct (digest_bytes h) as [raw|] eqn:E; [|by intros w a w' Hw].
  destruct (digest_roundtrip _ _ Hh E) as [Hlen Hraw].
  change (encodes (S := S) (Writer.raw raw) (λ _, raw ← Cursor.raw 32; lift (raw_digest raw))
    (λ _ x, x = h)).
  apply encodes_end. eapply encodes_seq; [by apply raw_encodes; rewrite Hlen|]. intros _. cbv beta.
  rewrite Hraw. by apply (encodes_ret (λ _ x, x = h)).
Qed.

Lemma entity_slot_encodes path schema es :
  existsb (N.eqb schema) supported_table_schemas = true → es ≠ [] →
  list_fits (entity_fits schema) es → Decode.entity_run_is_canonical path es = true →
  encodes (S := S) (in_context (InEntityReplacement path) (Rows.entity_run path schema es))
    (λ s, Decode.entity_slot s path schema) (λ _ x, x = project_entity schema <$> es).
Proof.
  intros Hs Hne Hes Hc. apply encodes_in_context, encodes_end.
  eapply encodes_seq; [by apply entity_run_encodes|]. intros _. cbv beta.
  apply encodes_read_ensure; [|apply encodes_read_ensure; [by rewrite canonical_projected|by enc_ret]].
  apply negb_true_iff, bool_decide_eq_false. by destruct es.
Qed.

Lemma path_op_encodes mode schema previous op :
  existsb (N.eqb schema) supported_table_schemas = true → path_valid mode schema op →
  match previous with Some p => str_ltb p (pr_path op) = true | None => True end →
  encodes (S := S) (Rows.write_path_op op schema)
    (λ s, Decode.path_operation s mode schema previous)
    (λ _ p, p = (project_path schema op, Some (pr_path op))).
Proof.
  intros Hs (Hch & Hfull & Hsrc & Hent & Hfile) Hprev.
  unfold Rows.write_path_op, Decode.path_operation. apply encodes_ensure. intros Hpath. cbv zeta.
  fold (path_flags op). destruct (path_flags_spec op) as (Hu & Hk & F1 & F2 & F3).
  eapply encodes_seq; [apply text_encodes|]. intros _. cbv beta.
  apply encodes_read_ensure; [done|]. apply encodes_read_ensure; [by destruct previous|].
  eapply encodes_seq; [by apply u64_encodes|]. intros _. cbv beta.
  apply encodes_read_ensure; [done|]. rewrite F1, F2, F3.
  do 3 (eapply encodes_read_lift; [apply slot_tag_code|]).
  apply encodes_read_ensure.
  { by destruct (pr_source op), (pr_entities op), (pr_file op). }
  apply encodes_read_ensure.
  { destruct mode; [|done]. destruct (Hfull eq_refl) as (? & ? & ?).
    by destruct (pr_source op), (pr_entities op), (pr_file op). }
  eapply (slot_encodes _ _ _ id); [intros h E; by apply source_encodes, Hsrc|].
  eapply (slot_encodes _ _ _ (fmap (project_entity schema))).
  { intros es E. destruct (Hent es E) as (? & ? & ?). by apply entity_slot_encodes. }
  apply encodes_end. eapply (slot_encodes _ _ _ id); [|by enc_ret].
  intros f E. apply encodes_ensure. intros Hp%bool_decide_eq_true. rewrite <-Hp.
  by apply file_encodes, Hfile.
Qed.

Lemma paths_encode mode schema i previous ops :
  existsb (N.eqb schema) supported_table_schemas = true →
  Forall (path_valid mode schema) ops → paths_ordered previous ops →
  encodes (S := S)
    (write_indexed (λ index op, in_context (InPathOperation index) (Rows.write_path_op op schema)) i ops)
    (λ s, repeat_state (length ops) (Decode.path_operation s mode schema) previous)
    (λ _ x, x = project_path schema <$> ops).
Proof.
  intros Hs Hops. revert i previous.
  induction Hops as [|op ops Hop Hops IH]; intros i previous Hord; simpl; [by enc_ret|].
  destruct Hord as [Hp Hord]. eapply encodes_seq.
  { by apply encodes_in_context, path_op_encodes. }
  intros _. cbv beta iota. apply (encodes_map _ _ (λ x, project_path schema op :: x)). by apply IH.
Qed.

(** ** Symbol operations *)

Lemma header_reads mode strings i (body : SymbolBody) s :
  strings !! N.to_nat i = Some s → length strings ≤ dictionary_limit → is_empty s = false →
  (mode = Full → body_tag body = 0%N) →
  reads (Decode.symbol_id strings mode)
    (uvarint (match mode with Full => i | Delta => N.lor (u64_shl i 2) (body_tag body) end))
    (s, body_tag body).
Proof.
  intros Hi Hl Hne Hfull. pose proof (index_u64 _ _ _ Hi Hl) as Hiu.
  unfold Cursor.packed_collection_limit in Hiu.
  assert (Htag : (body_tag body < 3)%N) by by destruct body.
  assert (Hshl : N.lor (u64_shl i 2) (body_tag body) = (body_tag body + i * 4)%N).
  { unfold u64_shl. rewrite N.mod_small; [by rewrite N.lor_comm, lor_shiftl_add by (simpl; lia)|].
    rewrite N.shiftl_mul_pow2. change (2 ^ 2)%N with 4%N. unfold u64_limit. lia. }
  set (header := match mode with Full => i | Delta => _ end).
  assert (Hh : is_u64 header)
    by (unfold header; destruct mode; rewrite ?Hshl; unfold is_u64, u64_limit; lia).
  unfold Decode.symbol_id. eapply reads_last; [by apply u64_reads|].
  eapply (reads_lift _ _ _ (i, body_tag body)).
  { unfold header. destruct mode; simpl; [by rewrite Hfull|]. rewrite Hshl.
    change 3%N with (N.ones 2). rewrite N.land_ones. change (2 ^ 2)%N with 4%N.
    rewrite N.Div0.mod_add, N.mod_small by lia.
    replace (body_tag body =? N.ones 2)%N with false
      by (symmetry; apply N.eqb_neq; change (N.ones 2) with 3%N; lia).
    rewrite N.shiftr_div_pow2. change (2 ^ 2)%N with 4%N.
    rewrite N.div_add, N.div_small by lia. done. }
  eapply reads_lift.
  { unfold usize_try_from. replace (_ <? _)%N with true
      by (symmetry; apply N.ltb_lt; unfold u64_limit; lia). done. }
  rewrite Hi. eapply reads_lift; [done|].
  eapply (reads_bind _ _ [] [] tt); [rewrite Hne; apply reads_ret|].
  eapply (reads_bind _ _ [] [] tt); [|apply reads_ret].
  destruct mode; simpl; [rewrite Hfull by done|]; apply reads_ret.
Qed.

Lemma symbol_id_encodes mode id body : is_empty id = false →
  encodes (S := S) (i ← Writer.intern id; Rows.symbol_header mode i body)
    (λ s, Decode.symbol_id s mode) (λ _ x, x = (id, body_tag body)).
Proof.
  intros Hne. apply encodes_intern. intros i w a w' (Hs & He & Hd) Hi Hrun.
  assert (Hfull : mode = Full → body_tag body = 0%N).
  { intros ->. unfold Rows.symbol_header in Hrun. by destruct body. }
  assert (E : Rows.symbol_header mode i body = Writer.u64
    (match mode with Full => i | Delta => N.lor (u64_shl i 2) (body_tag body) end)).
  { destruct mode; [|done]. specialize (Hfull eq_refl). by destruct body. }
  rewrite E, quiet_u64 in Hrun by done. injection Hrun as <- <-.
  eexists _, (id, body_tag body). cbn [dict bytes sink error]. split_and!; try done.
  intros strings Hp Hl. apply header_reads; [|done|done|done]. by eapply prefix_lookup_Some.
Qed.

Lemma references_guard {A B} path i refs (k : writer S A) (d : list str → reader B) Q :
  (forallb (λ r, str_eqb (loc_path r) path) refs = true → encodes k d Q) →
  encodes (write_indexed (Rows.reference path) i refs;; k) d Q.
Proof.
  intros Hk. eapply encodes_guard; [|exact Hk]. clear Hk. intros w a w'. revert i w a.
  induction refs as [|r refs IH]; intros i w a; simpl; [by intros [= <- <-]|].
  unfold mbind, writer_bind, Rows.reference, ensure, in_context, Rows.validate_location.
  unfold mbind, writer_bind, ensure, map_err.
  destruct (str_eqb (loc_path r) path); [|done]. cbn.
  destruct (start_byte r <=? end_byte r)%N; [|done]. cbn. apply IH.
Qed.

Lemma symbol_body_encodes op : symbol_valid op → is_empty (sr_id op) = false →
  encodes (S := S) (Rows.symbol_body (sr_id op) (sr_body op))
    (λ s, Decode.symbol_body s (sr_id op) (body_tag (sr_body op)))
    (λ _ x, x = (project_symbol_op op, (symbol_key op).2)).
Proof.
  intros Hv Hid. unfold symbol_valid, project_symbol_op, symbol_key in *.
  destruct op as [sid [fact| |path refs]]; cbn [sr_id sr_body body_tag Rows.symbol_body snd] in *.
  - destruct Hv as ([Hr Hd] & Hc). apply encodes_ensure. intros He%bool_decide_eq_true.
    eapply encodes_seq; [apply text_encodes|]. intros _. cbv beta.
    eapply encodes_seq; [by apply declarations_encodes|]. intros _. cbv beta.
    unfold project_symbol. destruct (is_empty (sf_alias_target fact)) eqn:Ea.
    + apply encodes_end. eapply encodes_seq; [by apply locations_encodes|]. intros _. cbv beta.
      apply encodes_read_ensure; [done|]. apply encodes_read_ensure; [by rewrite ?Ea|]. enc_ret.
      subst sid. by destruct fact.
    + apply encodes_end. eapply (encodes_seq _ _ _ _ []); [|intros _; cbv beta].
      { apply encodes_end. eapply encodes_seq; [by apply (count_encodes _ 0), Nat.le_0_l|].
        intros _. by enc_ret. }
      apply encodes_read_ensure; [done|]. apply encodes_read_ensure; [by rewrite orb_true_r|].
      enc_ret. by subst sid.
  - by enc_ret.
  - destruct Hv as [Hr Hc]. apply encodes_ensure. intros Hp.
    eapply encodes_seq; [apply text_encodes|]. intros _. cbv beta.
    apply encodes_read_ensure; [done|]. apply references_guard. intros Hrefs.
    apply encodes_end. eapply encodes_seq; [by apply locations_encodes|]. intros _. cbv beta.
    apply encodes_read_ensure; [by rewrite Hrefs, Hc|]. by enc_ret.
Qed.

Lemma symbol_op_encodes mode previous op : symbol_valid op →
  match previous with Some key => Decode.symbol_key_ltb key (symbol_key op) = true | None => True end →
  encodes (S := S) (Rows.write_symbol_op mode op)
    (λ s, Decode.symbol_operation s mode previous)
    (λ _ p, p = (project_symbol_op op, Some (symbol_key op))).
Proof.
  intros Hv Hprev. unfold Rows.write_symbol_op, Decode.symbol_operation.
  apply encodes_ensure. intros Hne%negb_true_iff. apply encodes_assoc'.
  eapply encodes_seq; [by apply symbol_id_encodes|]. intros _. cbv beta iota.
  apply encodes_end. eapply encodes_seq; [by apply symbol_body_encodes|]. intros _. cbv beta iota zeta.
  change (sr_id op, body_tag (sr_body op), (symbol_key op).2) with (symbol_key op).
  apply encodes_read_ensure; [by destruct previous|]. by enc_ret.
Qed.

Lemma symbols_encode mode i previous ops :
  Forall symbol_valid ops → symbols_ordered previous ops →
  encodes (S := S)
    (write_indexed (λ index op, in_context (InSymbolOperation index) (Rows.write_symbol_op mode op)) i ops)
    (λ s, repeat_state (length ops) (Decode.symbol_operation s mode) previous)
    (λ _ x, x = project_symbol_op <$> ops).
Proof.
  intros Hops. revert i previous.
  induction Hops as [|op ops Hop Hops IH]; intros i previous Hord; simpl; [by enc_ret|].
  destruct Hord as [Hp Hord]. eapply encodes_seq.
  { by apply encodes_in_context, symbol_op_encodes. }
  intros _. cbv beta iota. apply (encodes_map _ _ (λ x, project_symbol_op op :: x)). by apply IH.
Qed.

(** ** The rows of a plan *)

Lemma interned_encodes {A A' B} (f : A → writer S ()) l (k : writer S A') (d : list str → reader B) Q :
  (∀ a (k : writer S A'), encodes k d Q → encodes (f a;; k) d Q) →
  encodes k d Q → encodes (write_all f l;; k) d Q.
Proof.
  intros Hf Hk. induction l as [|a l IH]; simpl; [exact Hk|]. by apply encodes_assoc, Hf.
Qed.

Lemma plan_encodes plan : plan_valid plan →
  encodes (S := S) (write_keys plan;; write_operations plan)
    (λ s, Decode.operations s (pl_mode plan) (pl_table_schema plan) (pl_base_generation plan)
       (pl_target_generation plan))
    (λ _ x, x = (pl_project_id plan, pl_base_state_token plan,
                 project_path (pl_table_schema plan) <$> pl_paths plan,
                 project_symbol_op <$> pl_symbols plan)).
Proof.
  intros (Hs & Hg & Hpid & Hbase & ([Hpl Hp] & Hpo) & [Hsl Hsy] & Hso).
  unfold write_keys, write_operations, Decode.operations.
  apply encodes_assoc. eapply encodes_seq; [apply text_encodes|]. intros _. cbv beta.
  apply encodes_read_ensure; [by rewrite Hpid|].
  apply encodes_assoc. eapply encodes_seq; [apply text_encodes|]. intros _. cbv beta.
  eapply encodes_read_lift; [exact Hbase|].
  apply encodes_assoc, interned_encodes; [intros; by apply intern_silent|].
  apply encodes_assoc, interned_encodes; [intros; by apply intern_silent|].
  apply interned_encodes.
  { intros op k Hk. destruct (sr_body op); [exact Hk|exact Hk|]. by apply intern_silent. }
  eapply encodes_seq; [by apply count_encodes|]. intros _. cbv beta. rewrite Nat2N.id.
  eapply encodes_seq; [by apply paths_encode|]. intros _. cbv beta.
  eapply encodes_seq; [by apply count_encodes|]. intros _. cbv beta. rewrite Nat2N.id.
  apply (encodes_map _ _ (λ x, (_, _, _, x))). by apply symbols_encode.
Qed.

End frame.

(** * A written frame decodes to its plan

    The header, the dictionary and the rows put together: the frame
    [write_transition] returns is decoded by [decode_table_transition] to the
    plan projected to the frame's schema. *)

(** The rows of a plan and the dictionary they index. *)
Definition plan_rows (plan : Plan) : result EncodeError (() * RowWriter Empty_set) :=
  (write_keys plan;; write_operations plan) (Writer.new None).

(** A dictionary the reader accepts: at most a million strings, no hashed
    symbol spelled in upper case. *)
Definition dictionary_fits (d : Dictionary) : Prop :=
  Forall canonical_symbol (values d) ∧ length (values d) ≤ dictionary_limit ∧
  Forall str_fits (values d).

Definition rows_fit (plan : Plan) : Prop :=
  ∀ w, plan_rows plan = Ok (tt, w) → dictionary_fits (dict w).

(** ** Reading to the end of the input *)

Definition reads_all {A} (m : reader A) (bs : list N) (a : A) : Prop :=
  ∀ pre, fits (pre ++ bs) → ∃ c, m (cursor_at pre bs) = Ok (a, c).

Lemma reads_all_bind {A B} (m : reader A) (k : A → reader B) bs1 bs2 a b :
  reads m bs1 a → reads_all (k a) bs2 b → reads_all (m ≫= k) (bs1 ++ bs2) b.
Proof.
  intros Hm Hk pre Hfit. unfold mbind, reader_bind. rewrite Hm by done.
  apply Hk. by rewrite <-app_assoc.
Qed.

Lemma reads_all_end {A} (a : A) : reads_all (Decode.end_of_input;; mret a) [] a.
Proof.
  intros pre Hfit. unfold mbind, reader_bind, Decode.end_of_input, cursor_at. cbn [offset input].
  rewrite app_nil_r, Nat.eqb_refl. by eexists.
Qed.

Lemma quiet_new {S} `{TransitionSink S} : quiet (Writer.new (S := S) None).
Proof. split_and!; [done|done|apply dict_new_ok]. Qed.

(** ** The frame *)

Lemma write_frame_shape plan frame : write_frame plan = Ok frame →
  ∃ w, plan_rows plan = Ok (tt, w) ∧
    (sink w = None → error w = None → frame = frame_prefix plan (dict w) ++ bytes w).
Proof.
  unfold write_frame, write_transition. fold (plan_rows plan). unfold mbind, result_bind.
  destruct (plan_rows plan) as [[[] w]|]; [|done]. intros Hf. exists w. split; [done|].
  intros Hs He. revert Hf. unfold Writer.finish. rewrite Hs, He.
  rewrite bool_decide_eq_false_2 with (P := is_Some None) by (by intros []).
  rewrite andb_false_r, andb_false_l, He, Hs. by intros [= <-].
Qed.

Lemma header_bytes plan d : frame_prefix plan d =
  uvarint table_transition_version ++ uvarint (mode_code (pl_mode plan)) ++
  uvarint (pl_table_schema plan) ++ uvarint (pl_base_generation plan) ++
  uvarint (pl_target_generation plan) ++ dictionary_bytes d.
Proof.
  unfold frame_prefix, push_uvarint. rewrite append_packed_bytes. by rewrite <-!app_assoc.
Qed.

Lemma supported_u64 schema :
  existsb (N.eqb schema) supported_table_schemas = true → is_u64 schema.
Proof.
  intros Hs. apply existsb_exists in Hs as (v & Hin & <-%N.eqb_eq). simpl in Hin.
  repeat destruct Hin as [<-|Hin]; done.
Qed.

Lemma frame_decodes plan frame :
  write_frame plan = Ok frame → plan_valid plan → rows_fit plan → fits frame →
  decode_table_transition frame = Ok (project_plan plan).
Proof.
  intros Hw Hv Hrows Hfit. destruct (write_frame_shape _ _ Hw) as (w & Hrun & Hshape).
  destruct (Hrows w Hrun) as (Hcan & Hlen & Hstr).
  destruct (plan_encodes plan Hv _ _ _ quiet_new Hrun)
    as (bs & b & (Hs & He & Hd) & Hb & Hp & -> & Hr).
  specialize (Hr (values (dict w)) (reflexivity _) Hlen). simpl in Hb.
  specialize (Hshape Hs He). rewrite Hb in Hshape.
  assert (Hhead : head (values (dict w)) = Some empty_str) by (destruct Hp as [l ->]; done).
  destruct Hv as (Hsch & (Hbg & Htg & Htg0) & _).
  assert (Hall : reads_all Decode.transition frame (project_plan plan)).
  { rewrite Hshape, header_bytes, <-!app_assoc. unfold Decode.transition.
    eapply reads_all_bind; [by apply u64_reads|].
    eapply (reads_all_bind _ _ [] _ tt); [apply reads_ret|].
    eapply reads_all_bind; [apply u64_reads; by destruct (pl_mode plan)|].
    eapply (reads_all_bind _ _ [] _ (pl_mode plan)); [destruct (pl_mode plan); apply reads_ret|].
    eapply reads_all_bind; [by apply u64_reads, supported_u64|].
    eapply (reads_all_bind _ _ [] _ tt); [rewrite Hsch; apply reads_ret|].
    eapply reads_all_bind; [by apply u64_reads|]. eapply reads_all_bind; [by apply u64_reads|].
    eapply (reads_all_bind _ _ [] _ tt).
    { replace (pl_target_generation plan =? 0)%N with false by (symmetry; by apply N.eqb_neq).
      apply reads_ret. }
    eapply reads_all_bind; [by apply dictionary_reads|].
    rewrite <-(app_nil_r bs). eapply reads_all_bind; [exact Hr|]. cbv beta iota.
    apply reads_all_end. }
  destruct (Hall [] Hfit) as [c Hc]. unfold decode_table_transition.
  change (Cursor.new frame) with (cursor_at [] frame). unfold mbind, result_bind. by rewrite Hc.
Qed.

(** * Streaming a transition

    A writer with a sink ([TransitionEncoder::encode_into]) and one without run
    in step: the same dictionary, the same error, and the chunks the sink took
    followed by the bytes still buffered are the bytes of the writer in memory.
    [in_step] is that relation and [steps] says that two runs of one writer
    keep it; the rules follow the writer's combinators and the row writers of
    [producer/rows.rs] are closed under them. *)

(** ** What a sink promises *)

Class RecordingSink (S : Type) `{TransitionSink S} := {
  chunks_sent : S → list (list N);
  header_sent : S → list N;
  append_sent s bs s' : append_rows s bs = (s', None) → chunks_sent s' = chunks_sent s ++ [bs];
  finish_sent s header s' :
    sink_finish s header = (s', None) → chunks_sent s' = chunks_sent s ∧ header_sent s' = header
}.

Section stream.
Context {S : Type} `{RecordingSink S}.

Definition full_chunk (chunk : list N) : Prop := (streamed_chunk <= N.of_nat (length chunk))%N.

(** The streaming writer and the writer in memory. *)
Definition in_step (w1 : RowWriter S) (w2 : RowWriter Empty_set) : Prop :=
  sink w2 = None ∧ error w2 = None ∧ dict w1 = dict w2 ∧
  ∃ s, sink w1 = Some s ∧
    (error w1 = None → concat (chunks_sent s) ++ bytes w1 = bytes w2 ∧
       Forall full_chunk (chunks_sent s)).

Definition steps {A} (m1 : writer S A) (m2 : writer Empty_set A) : Prop :=
  ∀ w1 w2, in_step w1 w2 →
    match m1 w1, m2 w2 with
    | Ok (a1, w1'), Ok (a2, w2') => a1 = a2 ∧ in_step w1' w2'
    | Err e1, Err e2 => e1 = e2
    | _, _ => False
    end.

(** ** Combinators *)

Lemma steps_ret {A} (a : A) : steps (mret a) (mret a).
Proof. done. Qed.

Lemma steps_invalid {A} message : steps (A := A) (invalid message) (invalid message).
Proof. done. Qed.

Lemma steps_bind {A B} (m1 : writer S A) m2 (k1 : A → writer S B) k2 :
  steps m1 m2 → (∀ a, steps (k1 a) (k2 a)) → steps (m1 ≫= k1) (m2 ≫= k2).
Proof.
  intros Hm Hk w1 w2 Hw. unfold mbind, writer_bind. specialize (Hm _ _ Hw).
  destruct (m1 w1) as [[a1 w1']|], (m2 w2) as [[a2 w2']|]; try done.
  destruct Hm as [-> Hm]. by apply Hk.
Qed.

Lemma steps_in_context {A} context (m1 : writer S A) m2 :
  steps m1 m2 → steps (in_context context m1) (in_context context m2).
Proof.
  intros Hm w1 w2 Hw. unfold in_context. specialize (Hm _ _ Hw).
  destruct (m1 w1) as [[a1 w1']|], (m2 w2) as [[a2 w2']|]; try done. cbn [map_err]. by rewrite Hm.
Qed.

Lemma steps_ensure ok message : steps (ensure ok message) (ensure ok message).
Proof. by destruct ok. Qed.

Lemma steps_lift {A} (r : result EncodeError A) : steps (Rows.lift_encode r) (Rows.lift_encode r).
Proof. intros w1 w2 Hw. by destruct r. Qed.

Lemma steps_all {A} (f1 : A → writer S ()) f2 l :
  (∀ a, steps (f1 a) (f2 a)) → steps (write_all f1 l) (write_all f2 l).
Proof.
  intros Hf. induction l as [|a l IH]; [apply steps_ret|]. by apply steps_bind; [|intros _].
Qed.

Lemma steps_indexed {A} (f1 : nat → A → writer S ()) f2 i l :
  (∀ i a, steps (f1 i a) (f2 i a)) → steps (write_indexed f1 i l) (write_indexed f2 i l).
Proof.
  intros Hf. revert i. induction l as [|a l IH]; intros i; [apply steps_ret|].
  by apply steps_bind; [|intros _].
Qed.

Lemma steps_state {A T} (f1 : A → T → writer S T) f2 l s :
  (∀ a s, steps (f1 a s) (f2 a s)) → steps (write_state f1 l s) (write_state f2 l s).
Proof.
  intros Hf. revert s. induction l as [|a l IH]; intros s; [apply steps_ret|].
  by apply steps_bind; [|intros s'].
Qed.

Lemma steps_option {A} (f1 : A → writer S ()) f2 o :
  (∀ a, steps (f1 a) (f2 a)) → steps (write_option f1 o) (write_option f2 o).
Proof. intros Hf. destruct o; [apply Hf|apply steps_ret]. Qed.

(** ** Primitives *)


Lemma pushed_in_step w1 w2 bs : in_step w1 w2 →
  in_step
    (Writer.maybe_flush {| bytes := bytes w1 ++ bs; dict := dict w1; sink := sink w1;
                           flushed := flushed w1; error := error w1 |})
    (Writer.maybe_flush {| bytes := bytes w2 ++ bs; dict := dict w2; sink := sink w2;
                           flushed := flushed w2; error := error w2 |}).
Proof.
  intros (Hs2 & He2 & Hd & s & Hs1 & Hb). unfold Writer.maybe_flush. cbn [sink error bytes].
  rewrite Hs1, Hs2, He2. rewrite (bool_decide_eq_true_2 (None = None)) by done.
  rewrite (bool_decide_eq_false_2 (Some s = None)) by done. cbn [orb].
  destruct (error w1) as [e|] eqn:He.
  { rewrite bool_decide_eq_true_2 by eauto. cbn [orb]. split_and!; cbn; try done. by exists s. }
  rewrite bool_decide_eq_false_2 by (by intros []). cbn [orb]. destruct (Hb eq_refl) as [Hb1 Hb2].
  destruct (N.ltb_spec (N.of_nat (length (bytes w1 ++ bs))) streamed_chunk) as [Hlt|Hge].
  - split_and!; cbn; try done. exists s. split; [done|]. intros _. by rewrite app_assoc, Hb1.
  - unfold Writer.flush. cbn [sink bytes dict error flushed].
    destruct (append_rows s (bytes w1 ++ bs)) as [s' [e|]] eqn:Ea.
    + split_and!; cbn; try done. by exists s'.
    + split_and!; cbn; try done. exists s'. split; [done|]. intros _.
      rewrite (append_sent _ _ _ Ea), concat_app, <-Hb1. cbn [concat].
      rewrite !app_nil_r, <-!app_assoc. split; [done|]. apply Forall_app. split; [done|].
      by repeat constructor.
Qed.

Lemma steps_append bs : steps (Writer.append bs) (Writer.append bs).
Proof. intros w1 w2 Hw. split; [done|by apply pushed_in_step]. Qed.

Lemma steps_u64 v : steps (Writer.u64 v) (Writer.u64 v).
Proof. intros w1 w2 Hw. split; [done|by apply pushed_in_step]. Qed.

Lemma steps_intern s : steps (Writer.intern s) (Writer.intern s).
Proof.
  intros w1 w2 (Hs2 & He2 & Hd & Hw). unfold Writer.intern. rewrite Hd.
  destruct (dict_intern (dict w2) s) as [i d]. split; [done|]. by split_and!.
Qed.

End stream.

(** ** Rows *)

Create HintDb steps.
#[export] Hint Resolve steps_ret steps_invalid steps_ensure steps_lift steps_append steps_u64
  steps_intern : steps.

(** Follows the structure of a writer down to its primitives. *)
Ltac steps :=
  repeat first
    [ solve [eauto with steps nocore]
    | apply steps_bind; [|intros ?] | apply steps_in_context | apply steps_all; intros ?
    | apply steps_indexed; intros ? ? | apply steps_state; intros ? ? | apply steps_option; intros ?
    | match goal with |- steps (match ?x with _ => _ end) _ => destruct x end ].

Section rows.
Context {S : Type} `{RecordingSink S}.

Lemma steps_bool b : steps (S := S) (Writer.bool b) (Writer.bool b).
Proof. unfold Writer.bool; steps. Qed.
#[local] Hint Resolve steps_bool : steps.
Lemma steps_signed z : steps (S := S) (Writer.signed z) (Writer.signed z).
Proof. unfold Writer.signed; steps. Qed.
#[local] Hint Resolve steps_signed : steps.
Lemma steps_raw bs : steps (S := S) (Writer.raw bs) (Writer.raw bs).
Proof. unfold Writer.raw; steps. Qed.
#[local] Hint Resolve steps_raw : steps.
Lemma steps_text s : steps (S := S) (Writer.text s) (Writer.text s).
Proof. unfold Writer.text; steps. Qed.
#[local] Hint Resolve steps_text : steps.
Lemma steps_location l st : steps (S := S) (Writer.location l st) (Writer.location l st).
Proof. unfold Writer.location; steps. Qed.
#[local] Hint Resolve steps_location : steps.
Lemma steps_locations ls : steps (S := S) (Writer.locations ls) (Writer.locations ls).
Proof. unfold Writer.locations; steps. Qed.
#[local] Hint Resolve steps_locations : steps.
Lemma steps_validate l : steps (S := S) (Rows.validate_location l) (Rows.validate_location l).
Proof. unfold Rows.validate_location; steps. Qed.
#[local] Hint Resolve steps_validate : steps.
Lemma steps_declaration d st : steps (S := S) (Rows.declaration d st) (Rows.declaration d st).
Proof. unfold Rows.declaration; steps. Qed.
#[local] Hint Resolve steps_declaration : steps.
Lemma steps_declarations ds : steps (S := S) (Rows.declarations ds) (Rows.declarations ds).
Proof. unfold Rows.declarations; steps. Qed.
#[local] Hint Resolve steps_declarations : steps.
Lemma steps_type_descriptor d : steps (S := S) (Rows.type_descriptor d) (Rows.type_descriptor d).
Proof. unfold Rows.type_descriptor; steps. Qed.
#[local] Hint Resolve steps_type_descriptor : steps.
Lemma steps_owner o st : steps (S := S) (Rows.owner o st) (Rows.owner o st).
Proof. unfold Rows.owner; steps. Qed.
#[local] Hint Resolve steps_owner : steps.
Lemma steps_resolved_declaration d : steps (S := S) (Rows.resolved_declaration d) (Rows.resolved_declaration d).
Proof. unfold Rows.resolved_declaration; steps. Qed.
#[local] Hint Resolve steps_resolved_declaration : steps.
Lemma steps_object_property p : steps (S := S) (Rows.object_property p) (Rows.object_property p).
Proof. unfold Rows.object_property; steps. Qed.
#[local] Hint Resolve steps_object_property : steps.
Lemma steps_object_shape s : steps (S := S) (Rows.object_shape s) (Rows.object_shape s).
Proof. unfold Rows.object_shape; steps. Qed.
#[local] Hint Resolve steps_object_shape : steps.
Lemma steps_single_declaration d : steps (S := S) (Rows.single_declaration d) (Rows.single_declaration d).
Proof. unfold Rows.single_declaration; steps. Qed.
#[local] Hint Resolve steps_single_declaration : steps.
Lemma steps_parameter v p : steps (S := S) (Rows.parameter v p) (Rows.parameter v p).
Proof. unfold Rows.parameter; steps. Qed.
#[local] Hint Resolve steps_parameter : steps.
Lemma steps_argument v i m : steps (S := S) (Rows.argument_mapping v i m) (Rows.argument_mapping v i m).
Proof. unfold Rows.argument_mapping; steps. Qed.
#[local] Hint Resolve steps_argument : steps.
Lemma steps_target_candidate i d : steps (S := S) (Rows.target_candidate i d) (Rows.target_candidate i d).
Proof. unfold Rows.target_candidate; steps. Qed.
#[local] Hint Resolve steps_target_candidate : steps.
Lemma steps_target_set t : steps (S := S) (Rows.target_set t) (Rows.target_set t).
Proof. unfold Rows.target_set; steps. Qed.
#[local] Hint Resolve steps_target_set : steps.
Lemma steps_present {A} (f1 : A → writer S ()) f2 o :
  (∀ a, steps (f1 a) (f2 a)) → steps (Rows.present_row f1 o) (Rows.present_row f2 o).
Proof. intros Hf. unfold Rows.present_row. steps. Qed.
#[local] Hint Resolve steps_present : steps.
Lemma steps_resolved_call v c : steps (S := S) (Rows.resolved_call v c) (Rows.resolved_call v c).
Proof. unfold Rows.resolved_call; steps. Qed.
#[local] Hint Resolve steps_resolved_call : steps.
Lemma steps_source_call c : steps (S := S) (Rows.source_call c) (Rows.source_call c).
Proof. unfold Rows.source_call; steps. Qed.
#[local] Hint Resolve steps_source_call : steps.
Lemma steps_check_claim i e : steps (S := S) (Rows.check_claim i e) (Rows.check_claim i e).
Proof. unfold Rows.check_claim; steps. Qed.
#[local] Hint Resolve steps_check_claim : steps.
Lemma steps_check_constant i e : steps (S := S) (Rows.check_constant i e) (Rows.check_constant i e).
Proof. unfold Rows.check_constant; steps. Qed.
#[local] Hint Resolve steps_check_constant : steps.
Lemma steps_constant_value c : steps (S := S) (Rows.constant_value c) (Rows.constant_value c).
Proof. unfold Rows.constant_value; steps. Qed.
#[local] Hint Resolve steps_constant_value : steps.
Lemma steps_tuple_shape v s : steps (S := S) (Rows.tuple_shape v s) (Rows.tuple_shape v s).
Proof. unfold Rows.tuple_shape; steps. Qed.
#[local] Hint Resolve steps_tuple_shape : steps.
Lemma steps_name_list l : steps (S := S) (Rows.name_list l) (Rows.name_list l).
Proof. unfold Rows.name_list; steps. Qed.
#[local] Hint Resolve steps_name_list : steps.
Lemma steps_literal_candidate i c : steps (S := S) (Rows.literal_candidate i c) (Rows.literal_candidate i c).
Proof. unfold Rows.literal_candidate; steps. Qed.
#[local] Hint Resolve steps_literal_candidate : steps.
Lemma steps_literal_candidates i l : steps (S := S) (Rows.literal_candidates i l) (Rows.literal_candidates i l).
Proof. unfold Rows.literal_candidates; steps. Qed.
#[local] Hint Resolve steps_literal_candidates : steps.
Lemma steps_since {A} v schema (f1 : A → writer S ()) f2 o :
  (∀ a, steps (f1 a) (f2 a)) → steps (Rows.since v schema f1 o) (Rows.since v schema f2 o).
Proof. intros Hf. unfold Rows.since. steps. Qed.
#[local] Hint Resolve steps_since : steps.
Lemma steps_entity_body v i e : steps (S := S) (Rows.entity_body v i e) (Rows.entity_body v i e).
Proof. unfold Rows.entity_body; steps. Qed.
#[local] Hint Resolve steps_entity_body : steps.
Lemma steps_entity p v i e z : steps (S := S) (Rows.entity p v i e z) (Rows.entity p v i e z).
Proof. unfold Rows.entity; steps. Qed.
#[local] Hint Resolve steps_entity : steps.
Lemma steps_entity_rows p v i z l :
  steps (S := S) (Rows.entity_rows p v i z l) (Rows.entity_rows p v i z l).
Proof. revert i z. induction l as [|e l IH]; intros i z; cbn [Rows.entity_rows]; steps. Qed.
#[local] Hint Resolve steps_entity_rows : steps.
Lemma steps_entity_run p v l : steps (S := S) (Rows.entity_run p v l) (Rows.entity_run p v l).
Proof. unfold Rows.entity_run; steps. Qed.
#[local] Hint Resolve steps_entity_run : steps.
Lemma steps_binding b : steps (S := S) (Rows.binding b) (Rows.binding b).
Proof. unfold Rows.binding; steps. Qed.
#[local] Hint Resolve steps_binding : steps.
Lemma steps_function f : steps (S := S) (Rows.function f) (Rows.function f).
Proof. unfold Rows.function; steps. Qed.
#[local] Hint Resolve steps_function : steps.
Lemma steps_async_function f : steps (S := S) (Rows.async_function f) (Rows.async_function f).
Proof. unfold Rows.async_function; steps. Qed.
#[local] Hint Resolve steps_async_function : steps.
Lemma steps_file_body f : steps (S := S) (Rows.file_body f) (Rows.file_body f).
Proof. unfold Rows.file_body; steps. Qed.
#[local] Hint Resolve steps_file_body : steps.
Lemma steps_path_op op v : steps (S := S) (Rows.write_path_op op v) (Rows.write_path_op op v).
Proof. unfold Rows.write_path_op; steps. Qed.
#[local] Hint Resolve steps_path_op : steps.
Lemma steps_reference p i r : steps (S := S) (Rows.reference p i r) (Rows.reference p i r).
Proof. unfold Rows.reference; steps. Qed.
#[local] Hint Resolve steps_reference : steps.
Lemma steps_symbol_header m i b : steps (S := S) (Rows.symbol_header m i b) (Rows.symbol_header m i b).
Proof. unfold Rows.symbol_header; steps. Qed.
#[local] Hint Resolve steps_symbol_header : steps.
Lemma steps_symbol_body i b : steps (S := S) (Rows.symbol_body i b) (Rows.symbol_body i b).
Proof. unfold Rows.symbol_body; steps. Qed.
#[local] Hint Resolve steps_symbol_body : steps.
Lemma steps_symbol_op m op : steps (S := S) (Rows.write_symbol_op m op) (Rows.write_symbol_op m op).
Proof. unfold Rows.write_symbol_op; steps. Qed.
#[local] Hint Resolve steps_symbol_op : steps.
Lemma steps_intern_key s : steps (S := S) (intern_key s) (intern_key s).
Proof. unfold intern_key; steps. Qed.
#[local] Hint Resolve steps_intern_key : steps.
Lemma steps_keys plan : steps (S := S) (write_keys plan) (write_keys plan).
Proof. unfold write_keys; steps. Qed.
#[local] Hint Resolve steps_keys : steps.
Lemma steps_operations plan : steps (S := S) (write_operations plan) (write_operations plan).
Proof. unfold write_operations; steps. Qed.
#[local] Hint Resolve steps_operations : steps.

(** ** Frames *)

Lemma new_in_step s : chunks_sent s = [] →
  in_step (Writer.new (S := S) (Some s)) (Writer.new None).
Proof. intros Hs. split_and!; try done. exists s. split; [done|]. intros _. by rewrite Hs. Qed.

(** The chunks of a stream: full ones, then at most one more. *)
Definition chunked (chunks : list (list N)) : Prop :=
  ∃ full tail, chunks = full ++ tail ∧ Forall full_chunk full ∧ length tail ≤ 1.

(** Finishing flushes the tail. *)
Lemma finish_in_step w1 w2 : in_step w1 w2 →
  Writer.finish w2 = Ok (bytes w2, dict w2, None) ∧
  match Writer.finish w1 with
  | Ok (rest, d, sent) => rest = [] ∧ d = dict w2 ∧ ∃ s, sent = Some s ∧
      concat (chunks_sent s) = bytes w2 ∧ chunked (chunks_sent s)
  | Err e => ∃ m, e = Sink m
  end.
Proof.
  intros (Hs2 & He2 & Hd & s & Hs1 & Hb). split.
  { unfold Writer.finish. rewrite Hs2, He2.
    rewrite (bool_decide_eq_false_2 (is_Some None)) by (by intros []).
    by rewrite andb_false_r, andb_false_l, He2, Hs2. }
  unfold Writer.finish. rewrite Hs1, (bool_decide_eq_true_2 (is_Some _)) by eauto.
  destruct (error w1) as [e|] eqn:He.
  { rewrite (bool_decide_eq_false_2 (Some e = None)) by done. cbn [andb]. rewrite He. eauto. }
  destruct (Hb eq_refl) as [Hb1 Hb2]. rewrite (bool_decide_eq_true_2 (None = None)) by done.
  cbn [andb]. destruct (bytes w1) as [|b bs] eqn:Ebs.
  - rewrite bool_decide_eq_true_2 by done. cbn [negb]. rewrite He, Hs1, Ebs. rewrite app_nil_r in Hb1.
    split_and!; [done|done|]. exists s. split_and!; [done..|].
    exists (chunks_sent s), []. rewrite app_nil_r. split_and!; [done..|simpl; lia].
  - rewrite bool_decide_eq_false_2 by done. cbn [negb]. unfold Writer.flush. rewrite Hs1.
    destruct (append_rows s (bytes w1)) as [s' [e|]] eqn:Ea; cbn [error bytes dict sink]; [eauto|].
    rewrite He. split_and!; [done|done|]. exists s'.
    rewrite (append_sent _ _ _ Ea), Ebs, concat_app. cbn [concat]. rewrite app_nil_r.
    split_and!; [done..|]. exists (chunks_sent s), [b :: bs]. split_and!; [done..|simpl; lia].
Qed.

(** Streamed or in memory, a transition is the same bytes. *)
Lemma write_transition_streams plan (s : S) : chunks_sent s = [] →
  match write_frame plan, write_transition plan (Some s) with
  | Err e, streamed => streamed = Err e
  | Ok frame, Ok (rest, sent) => rest = [] ∧ ∃ s', sent = Some s' ∧
      frame = header_sent s' ++ concat (chunks_sent s') ∧ chunked (chunks_sent s')
  | Ok frame, Err e => ∃ m, e = Sink m
  end.
Proof.
  intros Hs. pose proof (steps_bind _ _ (λ _, write_operations plan) _ (steps_keys plan)
    (λ _, steps_operations plan) _ _ (new_in_step s Hs)) as Hrun.
  unfold write_frame, write_transition.
  destruct ((write_keys plan;; write_operations plan) (Writer.new (Some s))) as [[u1 w1]|e1],
    ((write_keys plan;; write_operations plan) (Writer.new None)) as [[u2 w2]|e2];
    cbn [mbind result_bind]; try done; [|by rewrite Hrun].
  destruct Hrun as [_ Hw]. destruct (finish_in_step _ _ Hw) as [-> Hf]. cbn [mbind result_bind].
  destruct (Writer.finish w1) as [[[rest d] sent]|e]; cbn [mbind result_bind]; [|done].
  destruct Hf as (-> & -> & s' & -> & Hc & Hchunks).
  destruct (sink_finish s' (frame_prefix plan (dict w2))) as [s'' [e|]] eqn:Ef; cbn [mbind result_bind].
  - by exists e.
  - destruct (finish_sent _ _ _ Ef) as [Hs'' Hh]. split; [done|]. exists s''.
    by rewrite Hh, Hs'', Hc.
Qed.

End rows.
