(* ===== verification/PackedIndex.v ===== *)
(** * The packed index of a retained table

    [PackedIndex] of [typefacts/src/retained_table.rs]: rows ordered by key in
    leaves of bounded size, shared between tables and edited one leaf at a time.
    Shared pointers are their contents. *)
From S2P Require Export WireFacts.

Definition leaf_target : nat := 64.
Definition leaf_max : nat := leaf_target * 2.

(** [slice::partition_point]. *)
Fixpoint partition_point {A} (p : A → bool) (l : list A) : nat :=
  match l with
  | [] => 0
  | a :: l => if p a then S (partition_point p l) else 0
  end.

Class Keyed (T : Type) := key : T → str.

Record PackedIndex (T : Type) := { leaves : list (list T); index_len : nat }.
Arguments leaves {T} _.
Arguments index_len {T} _.
Arguments Build_PackedIndex {T} _ _.

Section index.
Context {T : Type}.

Definition index_default : PackedIndex T := {| leaves := []; index_len := 0 |}.

(** Leaves of [leaf_target] rows; the fuel is the number of rows. *)
Fixpoint chunks_of (fuel : nat) (rows : list T) : list (list T) :=
  match fuel with
  | 0 => []
  | S fuel =>
      match take leaf_target rows with
      | [] => []
      | leaf => leaf :: chunks_of fuel (drop leaf_target rows)
      end
  end.

Definition from_sorted (rows : list T) : PackedIndex T :=
  match rows with
  | [] => index_default
  | _ => {| leaves := chunks_of (length rows) rows; index_len := length rows |}
  end.

(** [iter]. *)
Definition rows (idx : PackedIndex T) : list T := concat (leaves idx).

Context `{Keyed T}.

(** [binary_search_by] on a leaf: the row's position, or where it would be. *)
Definition binary_search (leaf : list T) (k : str) : nat + nat :=
  let index := partition_point (λ row, str_ltb (key row) k) leaf in
  match leaf !! index with
  | Some row => if str_eqb (key row) k then inl index else inr index
  | None => inr index
  end.

(** The last key of a leaf; a leaf is never empty. *)
Definition last_below (k : str) (leaf : list T) : bool :=
  match last leaf with Some row => str_ltb (key row) k | None => false end.

Definition leaf_index (idx : PackedIndex T) (k : str) : nat :=
  Nat.min (partition_point (last_below k) (leaves idx)) (length (leaves idx) - 1).

Definition leaf_for (idx : PackedIndex T) (k : str) : option (list T) :=
  match leaves idx with
  | [] => None
  | _ => leaves idx !! leaf_index idx k
  end.

Definition index_get (idx : PackedIndex T) (k : str) : option T :=
  leaf ← leaf_for idx k;
  match binary_search leaf k with inl index => leaf !! index | inr _ => None end.

Definition edit_leaf (leaf : list T) (k : str) (replacement : option T) : list T :=
  match binary_search leaf k, replacement with
  | inl index, Some row => <[index := row]> leaf
  | inl index, None => delete index leaf
  | inr index, Some row => take index leaf ++ row :: drop index leaf
  | inr _, None => leaf
  end.

(** The edited leaf put back: dropped when empty, split when too large. *)
Definition replace_leaf (ls : list (list T)) (i : nat) (leaf : list T) : list (list T) :=
  match leaf with
  | [] => delete i ls
  | _ =>
      if (leaf_max <? length leaf)%nat
      then take i ls ++ take leaf_target leaf :: drop leaf_target leaf :: drop (S i) ls
      else <[i := leaf]> ls
  end.

Definition updated (idx : PackedIndex T) (k : str) (replacement : option T) : PackedIndex T :=
  match leaves idx with
  | [] => match replacement with Some row => from_sorted [row] | None => index_default end
  | _ =>
      let i := leaf_index idx k in
      let leaf := default [] (leaves idx !! i) in
      let ls := replace_leaf (leaves idx) i (edit_leaf leaf k replacement) in
      {| leaves := ls; index_len := sum_list (length <$> ls) |}
  end.

End index.

(** The keys of table rows. *)
#[global] Instance SourceDigest_keyed : Keyed SourceDigest := sd_path.
#[global] Instance FileFact_keyed : Keyed FileFact := ff_path.
#[global] Instance SymbolFact_keyed : Keyed SymbolFact := sf_id.
