(* ===== verification/PackedIndexSpec.v ===== *)
(** * The packed index is an ordered map

    [str_cmp] is a total order; an index in order is its list of rows, a lookup
    finds the row of the key, and an update is the insertion or removal of that
    row, whatever leaf it falls in; leaves stay non-empty and bounded. *)
From S2P Require Export PackedIndex.
From S2P Require Import Order.

(** ** Order of strings *)

Lemma bytes_cmp_order : cmp_order bytes_cmp.
Proof.
  split.
  - induction a as [|a x IH]; intros [|b y]; simpl; try done.
    destruct (N.compare_spec a b) as [->|Hl|Hl]; simpl.
    + rewrite IH. split; [by intros ->|by intros [= ->]].
    + split; [done|intros [= -> _]; lia].
    + split; [done|intros [= -> _]; lia].
  - induction a as [|a x IH]; intros [|b y]; simpl; try done.
    rewrite (N.compare_antisym a b). destruct (a ?= b)%N; simpl; auto.
  - induction a as [|a x IH]; intros [|b y] [|c z]; simpl; try done.
    destruct (N.compare_spec a b) as [->|Hab|Hab]; try done.
    + destruct (b ?= c)%N; try done. apply IH.
    + intros _. destruct (N.compare_spec b c) as [->|Hbc|Hbc]; try done.
      * by rewrite (proj2 (N.compare_lt_iff a c)).
      * intros _. by rewrite (proj2 (N.compare_lt_iff a c)) by lia.
Qed.

Lemma str_cmp_order : cmp_order str_cmp.
Proof.
  split.
  - intros a b. unfold str_cmp. rewrite (cmp_eq _ bytes_cmp_order). split; [apply str_eq|by intros ->].
  - intros a b. apply bytes_cmp_order.
  - intros a b c. apply bytes_cmp_order.
Qed.

Definition str_lt (a b : str) : Prop := str_cmp a b = Lt.

Lemma str_ltb_lt a b : str_ltb a b = true ↔ str_lt a b.
Proof. unfold str_ltb, str_lt. by destruct (str_cmp a b). Qed.
Lemma str_lt_irrefl a : ¬ str_lt a a.
Proof. unfold str_lt. by rewrite (proj2 (cmp_eq _ str_cmp_order a a)). Qed.
Lemma str_lt_trans a b c : str_lt a b → str_lt b c → str_lt a c.
Proof. apply str_cmp_order. Qed.
Lemma str_lt_trichotomy a b : str_lt a b ∨ a = b ∨ str_lt b a.
Proof.
  unfold str_lt. rewrite (cmp_sym _ str_cmp_order a b). destruct (str_cmp a b) eqn:E; auto.
  right; left. by apply (cmp_eq _ str_cmp_order).
Qed.
Lemma str_lt_not_gt a b : str_lt a b → ¬ str_lt b a.
Proof. intros H1 H2. by apply (str_lt_irrefl a), (str_lt_trans _ b). Qed.
#[global] Instance str_lt_dec a b : Decision (str_lt a b).
Proof. unfold str_lt. apply _. Defined.
#[global] Instance str_lt_transitive : Transitive str_lt.
Proof. intros a b c. apply str_lt_trans. Qed.

Lemma str_ltb_decide a b : str_ltb a b = bool_decide (str_lt a b).
Proof. apply eq_true_iff_eq. by rewrite str_ltb_lt, bool_decide_eq_true. Qed.

(** ** Sorted lists of rows *)

Section sorted.
Context {T : Type} `{Keyed T}.

Definition row_lt (x y : T) : Prop := str_lt (key x) (key y).
Abbreviation sorted_rows := (StronglySorted row_lt).

(** The rows below and above a key. *)
Definition rows_below (k : str) (l : list T) : list T := filter (λ r, str_lt (key r) k) l.
Definition rows_above (k : str) (l : list T) : list T := filter (λ r, str_lt k (key r)) l.

(** The reference update: [k]'s row replaced, inserted or removed. *)
Definition set_row (k : str) (replacement : option T) (l : list T) : list T :=
  rows_below k l ++ option_list replacement ++ rows_above k l.

(** The reference lookup. *)
Fixpoint find_row (k : str) (l : list T) : option T :=
  match l with
  | [] => None
  | r :: l => if decide (key r = k) then Some r else find_row k l
  end.

Lemma find_row_Some k l r : find_row k l = Some r → r ∈ l ∧ key r = k.
Proof.
  induction l as [|x l IH]; simpl; [done|]. destruct (decide (key x = k)) as [<-|].
  - intros [= <-]. split; [by left|done].
  - intros [? ?]%IH. split; [by right|done].
Qed.

Lemma find_row_None k l : (∀ r, r ∈ l → key r ≠ k) → find_row k l = None.
Proof.
  intros Hl. destruct (find_row k l) as [r|] eqn:E; [|done].
  apply find_row_Some in E as [Hr Hk]. by destruct (Hl r Hr).
Qed.

Lemma find_row_app k l1 l2 :
  find_row k (l1 ++ l2) = match find_row k l1 with Some r => Some r | None => find_row k l2 end.
Proof. induction l1 as [|x l1 IH]; simpl; [done|]. destruct (decide _); auto. Qed.

Lemma find_row_elem l r : sorted_rows l → r ∈ l → find_row (key r) l = Some r.
Proof.
  induction 1 as [|x l Hl IH Hx]; intros Hr; [by apply elem_of_nil in Hr|]. simpl.
  apply elem_of_cons in Hr as [->|Hr]; [by rewrite decide_True|].
  rewrite decide_False; [by apply IH|]. intros E. rewrite Forall_forall in Hx. apply Hx in Hr.
  unfold row_lt in Hr. rewrite E in Hr. by apply str_lt_irrefl in Hr.
Qed.

Lemma rows_below_all k l : (∀ r, r ∈ l → str_lt (key r) k) → rows_below k l = l.
Proof.
  intros Hl. unfold rows_below. induction l as [|x l IH]; [done|].
  rewrite filter_cons_True by (apply Hl; by left). f_equal. apply IH. intros; apply Hl. by right.
Qed.
Lemma rows_above_all k l : (∀ r, r ∈ l → str_lt k (key r)) → rows_above k l = l.
Proof.
  intros Hl. unfold rows_above. induction l as [|x l IH]; [done|].
  rewrite filter_cons_True by (apply Hl; by left). f_equal. apply IH. intros; apply Hl. by right.
Qed.
Lemma rows_below_none k l : (∀ r, r ∈ l → ¬ str_lt (key r) k) → rows_below k l = [].
Proof. apply filter_none. Qed.
Lemma rows_above_none k l : (∀ r, r ∈ l → ¬ str_lt k (key r)) → rows_above k l = [].
Proof. apply filter_none. Qed.
Lemma rows_below_app k l1 l2 : rows_below k (l1 ++ l2) = rows_below k l1 ++ rows_below k l2.
Proof. apply filter_app. Qed.
Lemma rows_above_app k l1 l2 : rows_above k (l1 ++ l2) = rows_above k l1 ++ rows_above k l2.
Proof. apply filter_app. Qed.

(** A sorted list around a key, as the parts a search finds. *)
Lemma set_row_split k repl l1 mid l2 :
  (∀ r, r ∈ l1 → str_lt (key r) k) → (∀ r, r ∈ mid → key r = k) →
  (∀ r, r ∈ l2 → str_lt k (key r)) →
  set_row k repl (l1 ++ mid ++ l2) = l1 ++ option_list repl ++ l2.
Proof.
  intros H1 Hm H2. unfold set_row. rewrite !rows_below_app, !rows_above_app.
  rewrite (rows_below_all k l1), (rows_above_all k l2) by done.
  rewrite (rows_below_none k mid), (rows_above_none k mid)
    by (intros r Hr; rewrite (Hm r Hr); apply str_lt_irrefl).
  rewrite (rows_below_none k l2), (rows_above_none k l1); [by rewrite app_nil_r| |].
  - intros r Hr. by apply str_lt_not_gt, H1.
  - intros r Hr. by apply str_lt_not_gt, H2.
Qed.

Lemma sorted_app_inv (l1 l2 : list T) : sorted_rows (l1 ++ l2) →
  sorted_rows l1 ∧ sorted_rows l2 ∧ ∀ x y, x ∈ l1 → y ∈ l2 → row_lt x y.
Proof.
  induction l1 as [|a l1 IH]; simpl; intros Hs.
  - split_and!; [constructor|done|]. intros x y Hx. by apply elem_of_nil in Hx.
  - inversion Hs as [|? ? Hs' Ha]; subst. destruct (IH Hs') as (H1 & H2 & H3).
    rewrite Forall_app in Ha. destruct Ha as [Ha1 Ha2]. split_and!; [by constructor|done|].
    intros x y [->|Hx]%elem_of_cons Hy; [by rewrite Forall_forall in Ha2; apply Ha2|by apply H3].
Qed.

Lemma sorted_app (l1 l2 : list T) : sorted_rows l1 → sorted_rows l2 →
  (∀ x y, x ∈ l1 → y ∈ l2 → row_lt x y) → sorted_rows (l1 ++ l2).
Proof.
  induction 1 as [|a l1 Hs IH Ha]; intros H2 H3; simpl; [done|]. constructor.
  - apply IH; [done|]. intros x y Hx. apply H3. by right.
  - apply Forall_app. split; [done|]. apply Forall_forall. intros y Hy. apply H3; [by left|done].
Qed.

Lemma sorted_split k (l : list T) : sorted_rows l →
  ∃ l1 mid l2, l = l1 ++ mid ++ l2 ∧ (∀ r, r ∈ l1 → str_lt (key r) k) ∧
    (∀ r, r ∈ mid → key r = k) ∧ (∀ r, r ∈ l2 → str_lt k (key r)) ∧
    (mid = [] ∨ ∃ r, mid = [r]).
Proof.
  induction 1 as [|a l Hs IH Ha].
  - exists [], [], []. split_and!; try done; auto; intros r Hr; by apply elem_of_nil in Hr.
  - rewrite Forall_forall in Ha. destruct (str_lt_trichotomy (key a) k) as [Hlt|[Heq|Hgt]].
    + destruct IH as (l1 & mid & l2 & -> & H1 & Hm & H2 & Hc).
      exists (a :: l1), mid, l2. split_and!; try done.
      intros r [->|Hr]%elem_of_cons; auto.
    + exists [], [a], l. split_and!; try done; eauto.
      * intros r Hr. by apply elem_of_nil in Hr.
      * intros r ->%list_elem_of_singleton. done.
      * intros r Hr. rewrite <-Heq. by apply Ha.
    + exists [], [], (a :: l). split_and!; try done; auto.
      * intros r Hr. by apply elem_of_nil in Hr.
      * intros r Hr. by apply elem_of_nil in Hr.
      * intros r [->|Hr]%elem_of_cons; [done|]. etrans; [exact Hgt|by apply Ha].
Qed.

Lemma set_row_sorted k repl l : sorted_rows l → (∀ r, repl = Some r → key r = k) →
  sorted_rows (set_row k repl l).
Proof.
  intros Hs Hk. destruct (sorted_split k l Hs) as (l1 & mid & l2 & -> & H1 & Hm & H2 & _).
  rewrite set_row_split by done. apply sorted_app_inv in Hs as (S1 & Hs & _).
  apply sorted_app_inv in Hs as (_ & S2 & _).
  assert (Hrepl : ∀ r, r ∈ option_list repl → key r = k).
  { intros r Hr. destruct repl as [r'|]; [|by apply elem_of_nil in Hr].
    apply list_elem_of_singleton in Hr as ->. auto. }
  apply sorted_app; [done| |].
  - apply sorted_app; [destruct repl; repeat constructor|done|].
    intros x y Hx Hy. unfold row_lt. rewrite (Hrepl x Hx). auto.
  - intros x y Hx [Hy|Hy]%elem_of_app; unfold row_lt; [rewrite (Hrepl y Hy); auto|].
    etrans; [by apply H1|by apply H2].
Qed.

Lemma find_set_row k k' repl l : sorted_rows l → (∀ r, repl = Some r → key r = k) →
  find_row k' (set_row k repl l) = if decide (k' = k) then repl else find_row k' l.
Proof.
  intros Hs Hk. destruct (sorted_split k l Hs) as (l1 & mid & l2 & -> & H1 & Hm & H2 & _).
  rewrite set_row_split by done. rewrite !find_row_app.
  assert (Hr : ∀ x, find_row x (option_list repl) = if decide (x = k) then repl else None).
  { intros x. destruct repl as [r|]; simpl; [|by destruct (decide _)].
    rewrite (Hk r eq_refl). destruct (decide (k = x)), (decide (x = k)); congruence. }
  rewrite Hr. destruct (decide (k' = k)) as [->|Hne].
  - rewrite (find_row_None k l1), (find_row_None k l2); [by destruct repl| |].
    + intros r Hin E. apply H2 in Hin. rewrite E in Hin. by apply str_lt_irrefl in Hin.
    + intros r Hin E. apply H1 in Hin. rewrite E in Hin. by apply str_lt_irrefl in Hin.
  - rewrite (find_row_None k' mid); [done|]. intros r Hin. rewrite (Hm r Hin). congruence.
Qed.

(** Sorted lists with the same rows are equal. *)
Lemma sorted_rows_ext l1 l2 : sorted_rows l1 → sorted_rows l2 →
  (∀ k, find_row k l1 = find_row k l2) → l1 = l2.
Proof.
  revert l2. induction l1 as [|a l1 IH]; intros l2 H1 H2 He.
  - destruct l2 as [|b l2]; [done|]. specialize (He (key b)). simpl in He. by rewrite decide_True in He.
  - destruct l2 as [|b l2].
    { specialize (He (key a)). simpl in He. by rewrite decide_True in He. }
    inversion H1 as [|? ? S1 F1]; inversion H2 as [|? ? S2 F2]; subst.
    rewrite Forall_forall in F1, F2.
    assert (Hab : key a = key b).
    { destruct (str_lt_trichotomy (key a) (key b)) as [Hl|[?|Hl]]; [exfalso|done|exfalso].
      - pose proof (He (key a)) as E. simpl in E. rewrite decide_True in E by done.
        symmetry in E. destruct (decide (key b = key a)) as [E'|].
        { rewrite E' in Hl. by apply str_lt_irrefl in Hl. }
        apply find_row_Some in E as [Hin _]. apply F2 in Hin.
        by apply (str_lt_irrefl (key a)), (str_lt_trans _ (key b)).
      - pose proof (He (key b)) as E. simpl in E. rewrite (decide_True _ _ (eq_refl (key b))) in E.
        destruct (decide (key a = key b)) as [E'|].
        { rewrite E' in Hl. by apply str_lt_irrefl in Hl. }
        apply find_row_Some in E as [Hin _]. apply F1 in Hin.
        by apply (str_lt_irrefl (key b)), (str_lt_trans _ (key a)). }
    assert (a = b) as <-.
    { specialize (He (key a)). simpl in He. rewrite decide_True in He by done.
      rewrite <-Hab, decide_True in He by done. congruence. }
    f_equal. apply IH; [done|done|]. intros k. specialize (He k). simpl in He.
    destruct (decide (key a = k)) as [<-|]; [|done].
    rewrite (find_row_None (key a) l1), (find_row_None (key a) l2); [done| |].
    + intros r Hr E. apply F2 in Hr. unfold row_lt in Hr. rewrite E in Hr. by apply str_lt_irrefl in Hr.
    + intros r Hr E. apply F1 in Hr. unfold row_lt in Hr. rewrite E in Hr. by apply str_lt_irrefl in Hr.
Qed.

End sorted.

(** ** The index in order *)

Section index.
Context {T : Type} `{Keyed T}.

Definition index_ok (idx : PackedIndex T) : Prop :=
  Forall (λ l, l ≠ []) (leaves idx) ∧ Forall (λ l, length l ≤ leaf_max) (leaves idx) ∧
  StronglySorted row_lt (rows idx) ∧ index_len idx = length (rows idx).

Lemma partition_point_app {A} (p : A → bool) l1 l2 :
  (∀ x, x ∈ l1 → p x = true) → match l2 with [] => True | x :: _ => p x = false end →
  partition_point p (l1 ++ l2) = length l1.
Proof.
  intros H1 H2. induction l1 as [|a l1 IH]; simpl.
  - destruct l2 as [|x l2]; [done|]. simpl. by rewrite H2.
  - rewrite H1 by (by left). f_equal. apply IH. intros; apply H1. by right.
Qed.

(** The prefix a partition point counts, and the first row past it. *)
Lemma partition_point_split {A} (p : A → bool) l :
  ∃ l1 l2, l = l1 ++ l2 ∧ partition_point p l = length l1 ∧ (∀ x, x ∈ l1 → p x = true) ∧
    match l2 with [] => True | x :: _ => p x = false end.
Proof.
  induction l as [|a l IH]; simpl.
  - exists [], []. split_and!; try done. intros x Hx. by apply elem_of_nil in Hx.
  - destruct (p a) eqn:E.
    + destruct IH as (l1 & l2 & -> & -> & H1 & H2). exists (a :: l1), l2. split_and!; try done.
      intros x [->|Hx]%elem_of_cons; auto.
    + exists [], (a :: l). split_and!; try done. intros x Hx. by apply elem_of_nil in Hx.
Qed.

Lemma chunks_of_spec fuel (l : list T) : length l ≤ fuel →
  concat (chunks_of fuel l) = l ∧ Forall (λ c, c ≠ []) (chunks_of fuel l) ∧
  Forall (λ c, length c ≤ leaf_max) (chunks_of fuel l).
Proof.
  revert l. induction fuel as [|fuel IH]; intros l Hl.
  - destruct l; [|simpl in Hl; lia]. by split_and!; constructor.
  - cbn [chunks_of]. destruct l as [|a l]; [by split_and!; constructor|].
    destruct (take leaf_target (a :: l)) as [|b c] eqn:E; [done|].
    destruct (IH (drop leaf_target (a :: l))) as (H1 & H2 & H3).
    { rewrite length_drop. unfold leaf_target. simpl in *. lia. }
    split_and!.
    + cbn [concat]. rewrite H1, <-E. apply take_drop.
    + by constructor.
    + constructor; [|done]. rewrite <-E, length_take. unfold leaf_max. lia.
Qed.

Lemma from_sorted_ok l : StronglySorted row_lt l →
  index_ok (from_sorted l) ∧ rows (from_sorted l) = l.
Proof.
  intros Hs. unfold from_sorted, rows, index_ok. destruct l as [|a l].
  { split; [|done]. split_and!; by constructor. }
  destruct (chunks_of_spec (length (a :: l)) (a :: l)) as (H1 & H2 & H3); [done|].
  unfold rows. cbn [leaves index_len]. rewrite H1. by split_and!.
Qed.

(** The leaf a key falls in, with the rows on both sides. *)
Lemma leaf_index_split idx k : index_ok idx → leaves idx ≠ [] →
  ∃ ls1 leaf ls2, leaves idx = ls1 ++ leaf :: ls2 ∧ leaf_index idx k = length ls1 ∧
    (∀ r, r ∈ concat ls1 → str_lt (key r) k) ∧ (∀ r, r ∈ concat ls2 → str_lt k (key r)).
Proof.
  intros (Hne & _ & Hs & _) Hnil. unfold leaf_index, rows in *.
  destruct (partition_point_split (last_below k) (leaves idx)) as (ls1 & ls2 & E & Hpp & H1 & H2).
  rewrite E, Hpp in *.
  assert (Hbelow : ∀ l, l ∈ ls1 → ∀ r, r ∈ l → str_lt (key r) k).
  { intros l Hl r Hr. specialize (H1 l Hl). unfold last_below in H1.
    destruct (last l) as [z|] eqn:El; [|done]. apply str_ltb_lt in H1.
    apply last_Some in El as [l' ->]. apply elem_of_app in Hr as [Hr|Hr].
    - apply list_elem_of_split in Hl as (a & b & ->). rewrite <-app_assoc, concat_app in Hs.
      apply sorted_app_inv in Hs as (_ & Hs & _). simpl in Hs. rewrite <-!app_assoc in Hs.
      apply sorted_app_inv in Hs as (_ & _ & Hs). etrans; [apply (Hs r z Hr)|done].
      simpl. by left.
    - by apply list_elem_of_singleton in Hr as ->. }
  assert (Hls1 : ∀ ls, ls ⊆ ls1 → ∀ r, r ∈ concat ls → str_lt (key r) k).
  { intros ls Hsub r Hr. apply list_elem_of_In, in_concat in Hr as (l & Hl & Hr).
    apply list_elem_of_In in Hl, Hr. by eapply Hbelow; [apply Hsub|]. }
  destruct ls2 as [|leaf ls2].
  - rewrite app_nil_r in *. destruct ls1 as [|leaf ls1' _] using rev_ind; [done|].
    exists ls1', leaf, []. rewrite length_app. simpl. split_and!; [done|lia| |].
    + apply Hls1. set_solver.
    + intros r Hr. by apply elem_of_nil in Hr.
  - exists ls1, leaf, ls2. rewrite length_app. simpl. split_and!; [done|lia|by apply Hls1|].
    intros r Hr. rewrite concat_app in Hs. apply sorted_app_inv in Hs as (_ & Hs & _).
    simpl in Hs. apply sorted_app_inv in Hs as (Hsl & _ & Hlt).
    apply Forall_app in Hne as [_ Hne]. inversion Hne as [|? ? Hleaf _]; subst.
    unfold last_below in H2. destruct (last leaf) as [z|] eqn:El.
    2:{ by apply last_None in El. }
    assert (Hz : z ∈ leaf) by (apply last_Some in El as [l' ->]; set_solver).
    pose proof (Hlt z r Hz Hr) as Hzr. unfold row_lt in Hzr.
    destruct (str_lt_trichotomy (key z) k) as [Hc|[<-|Hc]]; [|done|by etrans].
    apply str_ltb_lt in Hc. congruence.
Qed.

Lemma binary_search_split leaf k l1 mid l2 :
  leaf = l1 ++ mid ++ l2 → (∀ r, r ∈ l1 → str_lt (key r) k) → (∀ r, r ∈ mid → key r = k) →
  (∀ r, r ∈ l2 → str_lt k (key r)) →
  binary_search leaf k = match mid with [] => inr (length l1) | _ => inl (length l1) end.
Proof.
  intros -> H1 Hm H2. unfold binary_search.
  assert (Hge : ∀ r, r ∈ mid ++ l2 → str_ltb (key r) k = false).
  { intros r Hr. apply not_true_is_false. rewrite str_ltb_lt. apply elem_of_app in Hr as [Hr|Hr].
    - rewrite (Hm r Hr). apply str_lt_irrefl.
    - by apply str_lt_not_gt, H2. }
  rewrite (partition_point_app _ l1 (mid ++ l2)).
  2:{ intros r Hr. by apply str_ltb_lt, H1. }
  2:{ destruct (mid ++ l2) as [|x rest]; [done|]. apply Hge. by left. }
  rewrite lookup_app_r, Nat.sub_diag by lia. destruct mid as [|r mid]; simpl.
  - destruct l2 as [|r l2]; [done|]. simpl. unfold str_eqb. rewrite bool_decide_eq_false_2; [done|].
    intros E. specialize (H2 r ltac:(by left)). rewrite E in H2. by apply str_lt_irrefl in H2.
  - unfold str_eqb. rewrite bool_decide_eq_true_2; [done|]. apply Hm. by left.
Qed.

Lemma edit_leaf_set_row leaf k repl : StronglySorted row_lt leaf →
  edit_leaf leaf k repl = set_row k repl leaf.
Proof.
  intros Hs. destruct (sorted_split k leaf Hs) as (l1 & mid & l2 & E & H1 & Hm & H2 & Hc).
  unfold edit_leaf. rewrite (binary_search_split leaf k l1 mid l2) by done.
  rewrite E, set_row_split by done. destruct Hc as [->|[r ->]]; simpl.
  - destruct repl as [x|]; [|done]. by rewrite take_app_length, drop_app_length.
  - destruct repl as [x|]; simpl.
    + by rewrite insert_app_r_alt, Nat.sub_diag by lia.
    + by rewrite delete_middle.
Qed.

Lemma set_row_length k repl (l : list T) : StronglySorted row_lt l →
  length (set_row k repl l) ≤ S (length l).
Proof.
  intros Hs. destruct (sorted_split k l Hs) as (l1 & mid & l2 & -> & H1 & Hm & H2 & _).
  rewrite set_row_split, !length_app by done. destruct repl; simpl; lia.
Qed.

Lemma replace_leaf_spec ls1 (leaf0 leaf : list T) ls2 :
  length leaf ≤ S leaf_max →
  let ls := replace_leaf (ls1 ++ leaf0 :: ls2) (length ls1) leaf in
  concat ls = concat ls1 ++ leaf ++ concat ls2 ∧
  (Forall (λ l, l ≠ []) (ls1 ++ ls2) → Forall (λ l, l ≠ []) ls) ∧
  (Forall (λ l, length l ≤ leaf_max) (ls1 ++ ls2) → Forall (λ l, length l ≤ leaf_max) ls).
Proof.
  intros Hlen ls. subst ls. unfold replace_leaf. destruct leaf as [|a leaf].
  { rewrite delete_middle, concat_app. by split_and!. }
  destruct (Nat.ltb_spec leaf_max (length (a :: leaf))) as [Hbig|Hsmall].
  - rewrite take_app_length, (app_assoc ls1 [leaf0] ls2 : ls1 ++ leaf0 :: ls2 = _).
    replace (S (length ls1)) with (length (ls1 ++ [leaf0])) by (rewrite length_app; simpl; lia).
    rewrite drop_app_length, concat_app. split_and!.
    + cbn [concat]. by rewrite (app_assoc (take _ _)), take_drop.
    + rewrite !Forall_app. intros [? ?]. split; [done|]. repeat constructor; [done| |done].
      intros E. apply (f_equal length) in E. rewrite length_drop in E. unfold leaf_max in *.
      simpl in *. lia.
    + rewrite !Forall_app. intros [? ?]. split; [done|]. apply Forall_cons; split; [|apply Forall_cons; split; [|done]].
      * rewrite length_take. unfold leaf_max. lia.
      * rewrite length_drop. unfold leaf_max, leaf_target in *. lia.
  - rewrite insert_app_r_alt, Nat.sub_diag by lia. cbn [list_insert insert]. rewrite concat_app.
    split_and!; [done| |]; rewrite !Forall_app; intros [? ?]; (split; [done|by constructor]).
Qed.

Lemma rows_len (ls : list (list T)) : sum_list (length <$> ls) = length (concat ls).
Proof.
  induction ls as [|l ls IH]; [done|]. rewrite fmap_cons. cbn [concat].
  by rewrite length_app, <-IH.
Qed.

(** An update is the reference update of the rows, and keeps the index in order. *)
Lemma updated_spec idx k repl : index_ok idx → (∀ r, repl = Some r → key r = k) →
  index_ok (updated idx k repl) ∧ rows (updated idx k repl) = set_row k repl (rows idx).
Proof.
  intros Hok Hk. unfold updated. destruct (leaves idx) as [|l0 ls0] eqn:El.
  { assert (rows idx = []) as -> by (unfold rows; by rewrite El).
    destruct repl as [r|]; [apply (from_sorted_ok [r])|apply (from_sorted_ok [])]; repeat constructor. }
  rewrite <-El. assert (Hnil : leaves idx ≠ []) by (by rewrite El).
  destruct (leaf_index_split idx k Hok Hnil) as (ls1 & leaf & ls2 & E & Hi & H1 & H2).
  destruct Hok as (Hne & Hmax & Hs & _). rewrite Hi, E.
  rewrite lookup_app_r, Nat.sub_diag by lia. cbn [list_lookup lookup default from_option].
  change (id leaf) with leaf.
  unfold rows in Hs. rewrite E, concat_app in Hs. simpl in Hs.
  pose proof Hs as Hs0. apply sorted_app_inv in Hs0 as (_ & Hs1 & _).
  apply sorted_app_inv in Hs1 as (Hleaf & _ & _). rewrite edit_leaf_set_row by done.
  rewrite E in Hne, Hmax. apply Forall_app in Hne as [Hne1 Hne2], Hmax as [Hmax1 Hmax2].
  inversion Hne2; inversion Hmax2; subst.
  destruct (replace_leaf_spec ls1 leaf (set_row k repl leaf) ls2) as (Hc & Hn & Hm).
  { etrans; [by apply set_row_length|]. lia. }
  assert (Hrows : concat (replace_leaf (ls1 ++ leaf :: ls2) (length ls1) (set_row k repl leaf)) =
    set_row k repl (rows idx)).
  { rewrite Hc. unfold rows. rewrite E, concat_app. simpl.
    destruct (sorted_split k leaf Hleaf) as (a & mid & b & -> & A1 & Am & A2 & _).
    rewrite (set_row_split k repl a mid b) by done.
    replace (concat ls1 ++ (a ++ mid ++ b) ++ concat ls2)
      with ((concat ls1 ++ a) ++ mid ++ (b ++ concat ls2)) by (by rewrite <-!app_assoc).
    rewrite set_row_split; [by rewrite <-!app_assoc| |done|]; set_unfold; naive_solver. }
  unfold rows at 1. cbn [leaves]. split; [|exact Hrows].
  split_and!; cbn [leaves index_len].
  - apply Hn. apply Forall_app. done.
  - apply Hm. apply Forall_app. done.
  - unfold rows. cbn [leaves]. rewrite Hrows. apply set_row_sorted; [|done].
    unfold rows. by rewrite E, concat_app.
  - unfold rows. cbn [leaves]. apply rows_len.
Qed.

(** A lookup finds the row of the key. *)
Lemma index_get_spec idx k : index_ok idx → index_get idx k = find_row k (rows idx).
Proof.
  intros Hok. unfold index_get, leaf_for. destruct (leaves idx) as [|l0 ls0] eqn:El.
  { assert (rows idx = []) as -> by (unfold rows; by rewrite El). done. }
  rewrite <-El. assert (Hnil : leaves idx ≠ []) by (by rewrite El).
  destruct (leaf_index_split idx k Hok Hnil) as (ls1 & leaf & ls2 & E & Hi & H1 & H2).
  destruct Hok as (_ & _ & Hs & _). rewrite Hi, E, lookup_app_r, Nat.sub_diag by lia. simpl.
  unfold rows in *. rewrite E, concat_app in *. simpl in *.
  pose proof Hs as Hs0. apply sorted_app_inv in Hs0 as (_ & Hs1 & _).
  apply sorted_app_inv in Hs1 as (Hleaf & _ & _).
  destruct (sorted_split k leaf Hleaf) as (a & mid & b & Ea & A1 & Am & A2 & Hc).
  rewrite (binary_search_split leaf k a mid b) by done. rewrite Ea, !find_row_app.
  rewrite (find_row_None k (concat ls1)), (find_row_None k a).
  2:{ intros r Hr Er. apply A1 in Hr. rewrite Er in Hr. by apply str_lt_irrefl in Hr. }
  2:{ intros r Hr Er. apply H1 in Hr. rewrite Er in Hr. by apply str_lt_irrefl in Hr. }
  destruct Hc as [->|[r ->]]; simpl.
  - rewrite (find_row_None k b), (find_row_None k (concat ls2)); [done| |].
    + intros r Hr Er. apply H2 in Hr. rewrite Er in Hr. by apply str_lt_irrefl in Hr.
    + intros r Hr Er. apply A2 in Hr. rewrite Er in Hr. by apply str_lt_irrefl in Hr.
  - rewrite lookup_app_r, Nat.sub_diag by lia. simpl. rewrite decide_True; [done|].
    apply Am. by left.
Qed.

End index.
