(* ===== verification/ProducerTable.v ===== *)
(** * The producer's table

    [typefacts/src/producer/table.rs] and the record of
    [producer/manifest.rs]: entity rows flat or in per-path runs with one
    cursor over both, and the lookups of a table by path and id. *)
From S2P Require Export WireRows PackedIndex.

(** ** Entity rows *)

Inductive EntityRows :=
  | Flat (entities : list EntityFact)
  | Runs (runs : list (list EntityFact)).

Definition entity_path (e : EntityFact) : str := loc_path (ef_location e).

(** The rows at the front that are in a path. *)
Fixpoint same_path (path : str) (entities : list EntityFact) : nat :=
  match entities with
  | e :: entities => if str_eqb (entity_path e) path then S (same_path path entities) else 0
  | [] => 0
  end.

Definition path_end (entities : list EntityFact) (start : nat) : nat :=
  match entities !! start with
  | Some first => S start + same_path (entity_path first) (drop (S start) entities)
  | None => start
  end.

Definition slice {A} (l : list A) (start stop : nat) : list A := take (stop - start) (drop start l).

(** The path a run is in: that of its first row. *)
Definition run_path (run : list EntityFact) : option str := entity_path <$> head run.

Module Entities.

(** The fuel is the number of rows. *)
Fixpoint group_runs (fuel : nat) (entities : list EntityFact) (start : nat) : list (list EntityFact) :=
  match fuel with
  | 0 => []
  | S fuel =>
      if (start <? length entities)%nat
      then
        let stop := path_end entities start in
        slice entities start stop :: group_runs fuel entities stop
      else []
  end.

Definition into_runs (rows : EntityRows) : EntityRows :=
  match rows with
  | Flat entities => Runs (group_runs (length entities) entities 0)
  | Runs runs => Runs runs
  end.

Definition len (rows : EntityRows) : nat :=
  match rows with
  | Flat entities => length entities
  | Runs runs => sum_list (length <$> runs)
  end.

(** The rows [for_each] visits. *)
Definition visited (rows : EntityRows) : list EntityFact :=
  match rows with Flat entities => entities | Runs runs => concat runs end.

Definition cursor_len (rows : EntityRows) : nat :=
  match rows with Flat entities => length entities | Runs runs => length runs end.

Definition cursor_path (rows : EntityRows) (index : nat) : option str :=
  match rows with
  | Flat entities => entity_path <$> entities !! index
  | Runs runs => runs !! index ≫= run_path
  end.

Definition cursor_run (rows : EntityRows) (index : nat) : list EntityFact :=
  match rows with
  | Flat entities => slice entities index (path_end entities index)
  | Runs runs => default [] (runs !! index)
  end.

Definition cursor_next (rows : EntityRows) (index : nat) : nat :=
  match rows with
  | Flat entities => path_end entities index
  | Runs _ => S index
  end.

Definition below (path : str) (other : option str) : bool :=
  match other with Some other => str_ltb other path | None => false end.

Definition path (rows : EntityRows) (p : str) : list EntityFact :=
  match rows with
  | Flat entities =>
      let start := partition_point (λ e, str_ltb (entity_path e) p) entities in
      match entities !! start with
      | Some e => if str_eqb (entity_path e) p then slice entities start (path_end entities start) else []
      | None => []
      end
  | Runs runs =>
      let index := partition_point (λ run, below p (run_path run)) runs in
      match runs !! index with
      | Some run => if bool_decide (run_path run = Some p) then run else []
      | None => []
      end
  end.

End Entities.

(** ** The table *)

Record TransportChanges := {
  tm_base_generation : N; tm_base_state_id : N; tm_source_paths : gset str;
  tm_entity_paths : gset str; tm_file_paths : gset str; tm_symbol_ids : gset str; tm_exact : bool
}.

Record ProducerTable := {
  pt_schema : N; pt_generation : N; pt_project_id : str; pt_sources : list SourceDigest;
  pt_entities : EntityRows; pt_files : list FileFact; pt_symbols : list SymbolFact;
  pt_state_id : N; pt_transport : option TransportChanges;
  pt_path_symbols : option (gmap str (list str))
}.

(** [partition_point], then the row if it is the key's. *)
Definition sorted_lookup {T} `{Keyed T} (l : list T) (k : str) : option T :=
  match l !! partition_point (λ row, str_ltb (key row) k) l with
  | Some row => if str_eqb (key row) k then Some row else None
  | None => None
  end.

Definition producer_new (generation : N) (project_id : str) : ProducerTable :=
  {| pt_schema := schema_v1; pt_generation := generation; pt_project_id := project_id;
     pt_sources := []; pt_entities := Flat []; pt_files := []; pt_symbols := []; pt_state_id := 0;
     pt_transport := None; pt_path_symbols := None |}.

Definition producer_source (t : ProducerTable) (path : str) : option SourceDigest :=
  sorted_lookup (pt_sources t) path.
Definition producer_file (t : ProducerTable) (path : str) : option FileFact :=
  sorted_lookup (pt_files t) path.
Definition producer_entities (t : ProducerTable) (path : str) : list EntityFact :=
  Entities.path (pt_entities t) path.
Definition producer_symbol (t : ProducerTable) (id : str) : option SymbolFact :=
  sorted_lookup (pt_symbols t) id.

(** ** Transport manifests *)

(** [filepath.Clean] for slash-separated paths. *)
Definition slash : N := 47.

Fixpoint split_slash (bytes : list N) : list (list N) :=
  match bytes with
  | [] => [[]]
  | b :: bytes =>
      if (b =? slash)%N then [] :: split_slash bytes
      else match split_slash bytes with [] => [[b]] | part :: parts => (b :: part) :: parts end
  end.

Fixpoint join_slash (parts : list (list N)) : list N :=
  match parts with
  | [] => []
  | [part] => part
  | part :: parts => part ++ slash :: join_slash parts
  end.

Definition dot : list N := [46%N].
Definition dot_dot : list N := [46%N; 46%N].

(** One element of a path; the parts kept so far, last first. *)
Definition clean_element (rooted : bool) (parts : list (list N)) (element : list N)
    : list (list N) :=
  if bool_decide (element = []) || bool_decide (element = dot) then parts
  else if bool_decide (element = dot_dot) then
    match parts with
    | last :: rest =>
        if negb (bool_decide (last = dot_dot)) then rest
        else if negb rooted then dot_dot :: parts else parts
    | [] => if negb rooted then [dot_dot] else parts
    end
  else element :: parts.

(** On the bytes of a path. *)
Definition clean_path (path : list N) : list N :=
  match path with
  | [] => dot
  | first :: _ =>
      let rooted := (first =? slash)%N in
      let joined := join_slash (reverse (foldl (clean_element rooted) [] (split_slash path))) in
      if rooted then slash :: joined
      else match joined with [] => dot | _ => joined end
  end.
