(* ===== verification/WirePlan.v ===== *)
(** * Transition planning and encoding

    [typefacts/src/producer/plan.rs]: which operations take a client from its
    retained table to the target, over all paths, the paths of a manifest, or a
    walk of both tables; and [TransitionEncoder::encode_with] of
    [producer/encoder.rs], which validates, plans and writes. *)
From S2P Require Export ProducerTable.

(** ** Rows of a path *)

Record PathRows := {
  pw_path : str; pw_source : option SourceDigest; pw_entities : list EntityFact;
  pw_file : option FileFact
}.
#[global] Instance PathRows_keyed : Keyed PathRows := pw_path.
#[global] Instance PathOpRef_keyed : Keyed PathOpRef := pr_path.

Definition rows_empty (path : str) : PathRows :=
  {| pw_path := path; pw_source := None; pw_entities := []; pw_file := None |}.

Definition rows_at (t : ProducerTable) (path : str) : PathRows :=
  {| pw_path := path; pw_source := producer_source t path;
     pw_entities := producer_entities t path; pw_file := producer_file t path |}.

Record Candidates := { cn_source : bool; cn_entity : bool; cn_file : bool }.
Definition all_candidates : Candidates := {| cn_source := true; cn_entity := true; cn_file := true |}.

Definition source_slot (previous next : option SourceDigest) : Slot SourceHash :=
  match previous, next with
  | Some _, None => Remove
  | None, Some n => Replace (sd_sha256 n)
  | Some p, Some n =>
      if negb (bool_decide (sd_sha256 p = sd_sha256 n)) then Replace (sd_sha256 n) else Unchanged
  | None, None => Unchanged
  end.

Definition entity_slot (previous next : list EntityFact) : Slot (list EntityFact) :=
  if negb (is_nil previous) && is_nil next then Remove
  else if negb (is_nil next) && negb (list_eqb EntityFact_eqb previous next) then Replace next
  else Unchanged.

Definition file_slot (previous next : option FileFact) : Slot FileFact :=
  match previous, next with
  | Some _, None => Remove
  | None, Some n => Replace n
  | Some p, Some n => if negb (bool_decide (p = n)) then Replace n else Unchanged
  | None, None => Unchanged
  end.

Definition rows_difference (previous next : PathRows) (candidates : Candidates) : option PathOpRef :=
  let operation :=
    {| pr_path := pw_path next;
       pr_source := if cn_source candidates then source_slot (pw_source previous) (pw_source next)
                    else Unchanged;
       pr_entities := if cn_entity candidates then entity_slot (pw_entities previous) (pw_entities next)
                      else Unchanged;
       pr_file := if cn_file candidates then file_slot (pw_file previous) (pw_file next)
                  else Unchanged |} in
  if negb (is_unchanged (pr_source operation)) || negb (is_unchanged (pr_entities operation)) ||
     negb (is_unchanged (pr_file operation))
  then Some operation else None.

Definition path_difference (base : option ProducerTable) (target : ProducerTable) (path : str)
    (candidates : Candidates) : option PathOpRef :=
  let previous := match base with Some base => rows_at base path | None => rows_empty path end in
  rows_difference previous (rows_at target path) candidates.

(** ** The path cursor *)

Record PathCursor := { pc_source : nat; pc_entity : nat; pc_file : nat }.
Definition cursor_new : PathCursor := {| pc_source := 0; pc_entity := 0; pc_file := 0 |}.

Definition str_min (a b : str) : str := if str_ltb b a then b else a.
Definition min_path (a b : option str) : option str :=
  match a, b with Some a, Some b => Some (str_min a b) | Some a, None => Some a | None, b => b end.

Section cursor.
Context (t : ProducerTable).

Definition cursor_valid (c : PathCursor) : bool :=
  (pc_source c <? length (pt_sources t))%nat ||
  (pc_entity c <? Entities.cursor_len (pt_entities t))%nat ||
  (pc_file c <? length (pt_files t))%nat.

Definition head_source (c : PathCursor) : option str := sd_path <$> pt_sources t !! pc_source c.
Definition head_entity (c : PathCursor) : option str :=
  if (pc_entity c <? Entities.cursor_len (pt_entities t))%nat
  then Entities.cursor_path (pt_entities t) (pc_entity c) else None.
Definition head_file (c : PathCursor) : option str := ff_path <$> pt_files t !! pc_file c.

(** The least head; a valid cursor has one. *)
Definition cursor_path (c : PathCursor) : str :=
  default empty_str (min_path (min_path (head_source c) (head_entity c)) (head_file c)).

Definition cursor_rows (c : PathCursor) : PathRows :=
  let path := cursor_path c in
  {| pw_path := path;
     pw_source := if bool_decide (head_source c = Some path) then pt_sources t !! pc_source c else None;
     pw_entities := if bool_decide (head_entity c = Some path)
                    then Entities.cursor_run (pt_entities t) (pc_entity c) else [];
     pw_file := if bool_decide (head_file c = Some path) then pt_files t !! pc_file c else None |}.

Definition cursor_next (c : PathCursor) : PathCursor :=
  let path := cursor_path c in
  {| pc_source := if bool_decide (head_source c = Some path) then S (pc_source c) else pc_source c;
     pc_entity := if bool_decide (head_entity c = Some path)
                  then Entities.cursor_next (pt_entities t) (pc_entity c) else pc_entity c;
     pc_file := if bool_decide (head_file c = Some path) then S (pc_file c) else pc_file c |}.

(** Enough steps for a whole walk: each passes a row. *)
Definition cursor_fuel : nat :=
  length (pt_sources t) + Entities.cursor_len (pt_entities t) + length (pt_files t).

End cursor.

(** ** Path operations *)

Fixpoint plan_full_loop (fuel : nat) (target : ProducerTable) (c : PathCursor)
    (operations : list PathOpRef) : result EncodeError (list PathOpRef) :=
  match fuel with
  | 0 => Ok operations
  | S fuel =>
      if cursor_valid target c
      then
        match path_difference None target (cursor_path target c) all_candidates with
        | None => Err (Invalid (FullPathWithoutRows (length operations)))
        | Some operation =>
            plan_full_loop fuel target (cursor_next target c) (operations ++ [operation])
        end
      else Ok operations
  end.

Definition plan_full (target : ProducerTable) : result EncodeError (list PathOpRef) :=
  plan_full_loop (S (cursor_fuel target)) target cursor_new [].

(** [sort_unstable] of strings. *)
Fixpoint insert_str (s : str) (l : list str) : list str :=
  match l with
  | [] => [s]
  | x :: rest => if str_ltb x s then x :: insert_str s rest else s :: l
  end.
Definition sort_strs (l : list str) : list str := foldr insert_str [] l.

Definition sorted_manifest_paths (m : TransportChanges) : list str :=
  dedup (sort_strs (elements (tm_source_paths m) ++ elements (tm_entity_paths m) ++
                    elements (tm_file_paths m))).

Definition manifest_candidates (m : TransportChanges) (path : str) : Candidates :=
  {| cn_source := bool_decide (path ∈ tm_source_paths m);
     cn_entity := bool_decide (path ∈ tm_entity_paths m);
     cn_file := bool_decide (path ∈ tm_file_paths m) |}.

Definition plan_exact_path_delta (base target : ProducerTable) (m : TransportChanges)
    : list PathOpRef :=
  omap (λ path, path_difference (Some base) target path (manifest_candidates m path))
    (sorted_manifest_paths m).

(** The walk of both tables, with the two loops that finish either one. *)
Fixpoint fallback_loop (fuel : nat) (base target : ProducerTable) (previous next : PathCursor)
    : list PathOpRef :=
  match fuel with
  | 0 => []
  | S fuel =>
      let push a b := option_list (rows_difference a b all_candidates) in
      let previous_rows := cursor_rows base previous in
      let next_rows := cursor_rows target next in
      if cursor_valid base previous && cursor_valid target next
      then
        match str_cmp (pw_path previous_rows) (pw_path next_rows) with
        | Lt =>
            push previous_rows (rows_empty (pw_path previous_rows)) ++
              fallback_loop fuel base target (cursor_next base previous) next
        | Gt =>
            push (rows_empty (pw_path next_rows)) next_rows ++
              fallback_loop fuel base target previous (cursor_next target next)
        | Eq =>
            push previous_rows next_rows ++
              fallback_loop fuel base target (cursor_next base previous) (cursor_next target next)
        end
      else if cursor_valid base previous
      then
        push previous_rows (rows_empty (pw_path previous_rows)) ++
          fallback_loop fuel base target (cursor_next base previous) next
      else if cursor_valid target next
      then
        push (rows_empty (pw_path next_rows)) next_rows ++
          fallback_loop fuel base target previous (cursor_next target next)
      else []
  end.

Definition plan_fallback_path_delta (base target : ProducerTable) : list PathOpRef :=
  fallback_loop (cursor_fuel base + cursor_fuel target) base target cursor_new cursor_new.

Definition sparse_operation (target : ProducerTable) (m : TransportChanges) (path : str) : PathOpRef :=
  let rows := rows_at target path in
  {| pr_path := path;
     pr_source :=
       if bool_decide (path ∈ tm_source_paths m)
       then match pw_source rows with Some source => Replace (sd_sha256 source) | None => Remove end
       else Unchanged;
     pr_entities :=
       if bool_decide (path ∈ tm_entity_paths m)
       then if is_nil (pw_entities rows) then Remove else Replace (pw_entities rows)
       else Unchanged;
     pr_file :=
       if bool_decide (path ∈ tm_file_paths m)
       then match pw_file rows with Some file => Replace file | None => Remove end
       else Unchanged |}.

Definition plan_sparse_paths (target : ProducerTable) (m : TransportChanges) : list PathOpRef :=
  sparse_operation target m <$> sorted_manifest_paths m.

(** ** Symbol operations *)

Fixpoint reference_path_end (path : str) (references : list Location) : nat :=
  match references with
  | r :: references => if str_eqb (loc_path r) path then S (reference_path_end path references) else 0
  | [] => 0
  end.

(** The fuel is the number of references of both. *)
Fixpoint plan_exact_reference_delta (fuel : nat) (id : str) (previous next : list Location)
    : list SymbolOpRef :=
  match fuel with
  | 0 => []
  | S fuel =>
      let step path :=
        let previous_end := reference_path_end path previous in
        let next_end := reference_path_end path next in
        let previous_run := take previous_end previous in
        let next_run := take next_end next in
        (if bool_decide (previous_run = next_run) then []
         else [{| sr_id := id; sr_body := BodyReplaceReferencePath path next_run |}]) ++
          plan_exact_reference_delta fuel id (drop previous_end previous) (drop next_end next) in
      match head previous, head next with
      | None, None => []
      | None, Some n => step (loc_path n)
      | Some p, None => step (loc_path p)
      | Some p, Some n =>
          step (if str_ltb (loc_path p) (loc_path n) then loc_path p else loc_path n)
      end
  end.

Definition symbol_difference (base target : ProducerTable) (id : str) : list SymbolOpRef :=
  match producer_symbol base id, producer_symbol target id with
  | Some _, None => [{| sr_id := id; sr_body := BodyRemove |}]
  | None, Some next => [{| sr_id := id; sr_body := BodyReplace next |}]
  | Some previous, Some next =>
      if negb (bool_decide (sf_alias_target previous = sf_alias_target next)) ||
         negb (bool_decide (sf_declarations previous = sf_declarations next))
      then [{| sr_id := id; sr_body := BodyReplace next |}]
      else plan_exact_reference_delta
             (length (sf_references previous) + length (sf_references next)) id
             (sf_references previous) (sf_references next)
  | None, None => []
  end.

Definition plan_exact_symbol_delta (base target : ProducerTable) (m : TransportChanges)
    : list SymbolOpRef :=
  sort_strs (elements (tm_symbol_ids m)) ≫= symbol_difference base target.

Definition replace_op (fact : SymbolFact) : SymbolOpRef :=
  {| sr_id := sf_id fact; sr_body := BodyReplace fact |}.
Definition remove_op (fact : SymbolFact) : SymbolOpRef :=
  {| sr_id := sf_id fact; sr_body := BodyRemove |}.

(** The fuel is the number of symbols of both. *)
Fixpoint fallback_symbols (fuel : nat) (ls rs : list SymbolFact) : list SymbolOpRef :=
  match fuel, ls, rs with
  | S fuel, previous :: ls', next :: rs' =>
      match str_cmp (sf_id previous) (sf_id next) with
      | Lt => remove_op previous :: fallback_symbols fuel ls' rs
      | Gt => replace_op next :: fallback_symbols fuel ls rs'
      | Eq =>
          (if bool_decide (previous = next) then [] else [replace_op next]) ++
            fallback_symbols fuel ls' rs'
      end
  | _, ls, rs => (remove_op <$> ls) ++ (replace_op <$> rs)
  end.

Definition plan_fallback_symbol_delta (base target : ProducerTable) : list SymbolOpRef :=
  fallback_symbols (length (pt_symbols base) + length (pt_symbols target))
    (pt_symbols base) (pt_symbols target).

(** ** The encoder *)

Record TransitionInput := {
  ti_project_id : str; ti_base_state_token : str; ti_base : option ProducerTable;
  ti_target : ProducerTable; ti_sparse : bool
}.

Record EncodedTransition := {
  et_bytes : list N; et_mode : TransitionMode; et_path_operations : nat; et_symbol_operations : nat
}.

(** [TransitionEncoder::new]. *)
Definition encoder_new (table_schema : N) : N := if (table_schema =? 0)%N then 24 else table_schema.

Definition ensure_encode (ok : bool) (message : EncodeMessage) : result EncodeError () :=
  if ok then Ok tt else Err (Invalid message).

Definition validate (input : TransitionInput) : result EncodeError (TransitionMode * N) :=
  ensure_encode (negb (is_empty (ti_project_id input))) InputProjectIdEmpty;;
  let target := ti_target input in
  ensure_encode (pt_schema target =? schema_v1)%N (TargetSchema (pt_schema target));;
  ensure_encode (negb (pt_generation target =? 0)%N) InputTargetGenerationZero;;
  match ti_base input with
  | None =>
      ensure_encode (is_empty (ti_base_state_token input)) FullCarriesToken;;
      Ok (Full, 0%N)
  | Some base =>
      ensure_encode (pt_schema base =? schema_v1)%N (BaseSchema (pt_schema base));;
      ensure_encode (negb (is_empty (ti_base_state_token input))) DeltaWithoutToken;;
      ensure_encode (negb (pt_generation base =? 0)%N) BaseGenerationZero;;
      ensure_encode (negb (pt_generation target <? pt_generation base)%N)
        (TargetPrecedes (pt_generation target) (pt_generation base));;
      Ok (Delta, pt_generation base)
  end.

Definition exact_manifest (t : ProducerTable) : option TransportChanges :=
  m ← pt_transport t; if tm_exact m then Some m else None.

Definition manifest_matches (base : ProducerTable) (m : TransportChanges) : bool :=
  negb (pt_state_id base =? 0)%N && (tm_base_generation m =? pt_generation base)%N &&
  (tm_base_state_id m =? pt_state_id base)%N.

Definition plan_operations (mode : TransitionMode) (input : TransitionInput)
    : result EncodeError (list PathOpRef * list SymbolOpRef) :=
  let target := ti_target input in
  match mode, ti_base input with
  | Delta, Some base =>
      if ti_sparse input
      then
        m ← ok_or SparseUnavailable (exact_manifest target);
        Ok (plan_sparse_paths target m, plan_exact_symbol_delta base target m)
      else
        match exact_manifest target with
        | Some m =>
            if manifest_matches base m
            then Ok (plan_exact_path_delta base target m, plan_exact_symbol_delta base target m)
            else Ok (plan_fallback_path_delta base target, plan_fallback_symbol_delta base target)
        | None => Ok (plan_fallback_path_delta base target, plan_fallback_symbol_delta base target)
        end
  | _, _ =>
      paths ← plan_full target;
      Ok (paths, replace_op <$> pt_symbols target)
  end.

Definition plan_for (table_schema : N) (input : TransitionInput) (mode : TransitionMode)
    (base_generation : N) (ops : list PathOpRef * list SymbolOpRef) : Plan :=
  {| pl_mode := mode; pl_table_schema := table_schema; pl_base_generation := base_generation;
     pl_target_generation := pt_generation (ti_target input); pl_project_id := ti_project_id input;
     pl_base_state_token := ti_base_state_token input; pl_paths := ops.1; pl_symbols := ops.2 |}.

Section encode.
Context {S : Type} `{TransitionSink S}.

(** The encoded transition and the sink it went to. *)
Definition encode_with (table_schema : N) (input : TransitionInput) (sink : option S)
    : result EncodeError (EncodedTransition * option S) :=
  ensure_encode (existsb (N.eqb table_schema) supported_table_schemas) (EncoderSchema table_schema);;
  '(mode, base_generation) ← validate input;
  ops ← plan_operations mode input;
  if bool_decide (mode = Delta) && (base_generation =? pt_generation (ti_target input))%N &&
     is_nil ops.1 && is_nil ops.2
  then
    Ok ({| et_bytes := []; et_mode := mode; et_path_operations := 0; et_symbol_operations := 0 |}, sink)
  else
    '(bytes, sink) ← write_transition (plan_for table_schema input mode base_generation ops) sink;
    Ok ({| et_bytes := bytes; et_mode := mode; et_path_operations := length ops.1;
           et_symbol_operations := length ops.2 |}, sink).

End encode.
