(* ===== verification/RetainedTable.v ===== *)
(** * The retained table

    [FactTable] of [typefacts/src/retained_table.rs]: path entries and symbols
    in packed indexes, the counters kept beside them, the validation of a
    delta's symbol operations and its application, sparse or by one linear
    merge.  A [None] of [apply_one_symbol] is the [expect] that panics. *)
From S2P Require Export PackedIndex WireDecode.

Definition linear_rebuild_min_operations : nat := 32.

(** ** Path entries *)

Record PathEntry := {
  pe_path : str; pe_source : option SourceDigest; pe_entities : list EntityFact;
  pe_file : option FileFact
}.

#[global] Instance PathEntry_keyed : Keyed PathEntry := pe_path.

Definition empty_entry (path : str) : PathEntry :=
  {| pe_path := path; pe_source := None; pe_entities := []; pe_file := None |}.

Definition entry_is_empty (e : PathEntry) : bool :=
  match pe_source e, pe_entities e, pe_file e with None, [], None => true | _, _, _ => false end.

Definition entry_apply (e : PathEntry) (operation : PathOp) : option PathEntry :=
  let e := {| pe_path := pe_path e;
              pe_source := match po_source operation with
                           | SlotUnchanged => pe_source e
                           | SlotReplace h => Some {| sd_path := po_path operation; sd_sha256 := h |}
                           | SlotRemove => None
                           end;
              pe_entities := match po_entities operation with
                             | SlotUnchanged => pe_entities e
                             | SlotReplace entities => entities
                             | SlotRemove => []
                             end;
              pe_file := match po_file operation with
                         | SlotUnchanged => pe_file e
                         | SlotReplace file => Some file
                         | SlotRemove => None
                         end |} in
  if entry_is_empty e then None else Some e.

(** ** Symbols *)

Record ReferenceRun := { rr_path : str; rr_locations : list Location }.
#[global] Instance ReferenceRun_keyed : Keyed ReferenceRun := rr_path.
#[global] Instance ReferenceRun_eq_dec : EqDecision ReferenceRun.
Proof. solve_decision. Defined.

Record StoredSymbol := {
  ss_id : str; ss_alias_target : str; ss_declarations : list Declaration;
  ss_references : PackedIndex ReferenceRun; ss_reference_count : nat
}.
#[global] Instance StoredSymbol_keyed : Keyed StoredSymbol := ss_id.

(** The references that follow in the same path, and the rest. *)
Fixpoint take_run (path : str) (references : list Location) : list Location * list Location :=
  match references with
  | [] => ([], [])
  | l :: rest =>
      if str_eqb (loc_path l) path
      then let '(run, rest) := take_run path rest in (l :: run, rest)
      else ([], references)
  end.

(** The fuel is the number of references. *)
Fixpoint reference_runs (fuel : nat) (references : list Location) : list ReferenceRun :=
  match fuel, references with
  | S fuel, first :: rest =>
      let '(run, rest) := take_run (loc_path first) rest in
      {| rr_path := loc_path first; rr_locations := first :: run |} :: reference_runs fuel rest
  | _, _ => []
  end.

Definition from_fact (symbol : SymbolFact) : StoredSymbol :=
  {| ss_id := sf_id symbol; ss_alias_target := sf_alias_target symbol;
     ss_declarations := sf_declarations symbol;
     ss_references :=
       from_sorted (reference_runs (length (sf_references symbol)) (sf_references symbol));
     ss_reference_count := length (sf_references symbol) |}.

(** The count is the number of references, so what its path's run holds can be
    taken off it ([reference_count_covers]). *)
Definition replace_reference_path (s : StoredSymbol) (path : str) (references : list Location)
    : StoredSymbol :=
  let old_len := from_option (λ run, length (rr_locations run)) 0 (index_get (ss_references s) path) in
  let new_len := length references in
  let replacement :=
    if bool_decide (references = []) then None
    else Some {| rr_path := path; rr_locations := references |} in
  {| ss_id := ss_id s; ss_alias_target := ss_alias_target s; ss_declarations := ss_declarations s;
     ss_references := updated (ss_references s) path replacement;
     ss_reference_count := ss_reference_count s - old_len + new_len |}.

Definition symbol_references (s : StoredSymbol) : list Location :=
  rows (ss_references s) ≫= rr_locations.

Definition to_fact (s : StoredSymbol) : SymbolFact :=
  {| sf_id := ss_id s; sf_references := symbol_references s;
     sf_alias_target := ss_alias_target s; sf_declarations := ss_declarations s |}.

(** [PartialEq] of [StoredSymbol]. *)
Definition stored_symbol_eqb (x y : StoredSymbol) : bool :=
  eqb (ss_id x) (ss_id y) && eqb (ss_alias_target x) (ss_alias_target y) &&
  eqb (ss_declarations x) (ss_declarations y) &&
  (ss_reference_count x =? ss_reference_count y)%nat &&
  eqb (rows (ss_references x)) (rows (ss_references y)).

(** ** The table *)

Record FactTable := {
  ft_schema : N; ft_generation : N; ft_project_id : str; ft_paths : PackedIndex PathEntry;
  ft_symbols : PackedIndex StoredSymbol; ft_source_count : nat; ft_entity_count : nat;
  ft_file_count : nat; ft_strict_null_checks : option bool
}.

Definition source (t : FactTable) (path : str) : option SourceDigest :=
  index_get (ft_paths t) path ≫= pe_source.
Definition entities_for_path (t : FactTable) (path : str) : list EntityFact :=
  from_option pe_entities [] (index_get (ft_paths t) path).
Definition file (t : FactTable) (path : str) : option FileFact :=
  index_get (ft_paths t) path ≫= pe_file.
Definition symbol_fact (t : FactTable) (id : str) : option SymbolFact :=
  to_fact <$> index_get (ft_symbols t) id.

Definition sources (t : FactTable) : list SourceDigest := omap pe_source (rows (ft_paths t)).
Definition entities (t : FactTable) : list EntityFact := rows (ft_paths t) ≫= pe_entities.
Definition files (t : FactTable) : list FileFact := omap pe_file (rows (ft_paths t)).
Definition symbols (t : FactTable) : list SymbolFact := to_fact <$> rows (ft_symbols t).

(** [usize::from(option.is_some())]. *)
Definition present {A} (o : option A) : nat := match o with Some _ => 1 | None => 0 end.
Definition has_source (e : PathEntry) : nat := present (pe_source e).
Definition entity_len (e : PathEntry) : nat := length (pe_entities e).
Definition has_file (e : PathEntry) : nat := present (pe_file e).

(** ** A full transition *)

Definition full_entry (operation : PathOp) : PathEntry :=
  {| pe_path := po_path operation;
     pe_source := match po_source operation with
                  | SlotReplace h => Some {| sd_path := po_path operation; sd_sha256 := h |}
                  | _ => None
                  end;
     pe_entities := match po_entities operation with SlotReplace es => es | _ => [] end;
     pe_file := match po_file operation with SlotReplace f => Some f | _ => None end |}.

(** [None] is the [unreachable!] of an operation a full transition never has. *)
Definition full_symbol (operation : SymbolOp) : option StoredSymbol :=
  match operation with SymbolReplace symbol => Some (from_fact symbol) | _ => None end.

Definition materialize_full (t : WireTableTransition) : option FactTable :=
  let entries := filter (λ e, entry_is_empty e = false) (full_entry <$> wt_paths t) in
  symbols ← mapM full_symbol (wt_symbols t);
  Some {| ft_schema := wt_table_schema t; ft_generation := wt_target_generation t;
          ft_project_id := wt_project_id t; ft_paths := from_sorted entries;
          ft_symbols := from_sorted symbols;
          ft_source_count := sum_list_with has_source entries;
          ft_entity_count := sum_list_with entity_len entries;
          ft_file_count := sum_list_with has_file entries;
          ft_strict_null_checks := None |}.

(** ** Validating a delta *)

Inductive DeltaError := MissingSymbol (id : str) | AliasSymbol (id : str).

Record Validation := { va_current_id : str; va_exists : bool; va_alias : bool }.

Definition validate_operation (t : FactTable) (v : Validation) (operation : SymbolOp)
    : result DeltaError Validation :=
  let id := symbol_op_id operation in
  let v :=
    if str_eqb id (va_current_id v) then v
    else
      let retained := index_get (ft_symbols t) id in
      {| va_current_id := id; va_exists := bool_decide (is_Some retained);
         va_alias := match retained with
                     | Some symbol => negb (is_empty (ss_alias_target symbol))
                     | None => false
                     end |} in
  match operation with
  | SymbolReplace symbol =>
      Ok {| va_current_id := va_current_id v; va_exists := true;
            va_alias := negb (is_empty (sf_alias_target symbol)) |}
  | SymbolRemove _ =>
      Ok {| va_current_id := va_current_id v; va_exists := false; va_alias := false |}
  | SymbolReplaceReferencePath _ _ _ =>
      if negb (va_exists v) then Err (MissingSymbol id)
      else if va_alias v then Err (AliasSymbol id) else Ok v
  end.

Fixpoint validate_operations (t : FactTable) (v : Validation) (operations : list SymbolOp)
    : result DeltaError () :=
  match operations with
  | [] => Ok tt
  | operation :: operations =>
      v ← validate_operation t v operation; validate_operations t v operations
  end.

Definition validate_delta (t : FactTable) (transition : WireTableTransition)
    : result DeltaError () :=
  validate_operations t {| va_current_id := empty_str; va_exists := false; va_alias := false |}
    (wt_symbols transition).

(** ** Applying a delta *)

(** [x - y] on [usize]: below zero it panics ([None]). *)
Definition usize_minus (x y : nat) : option nat := if (y <=? x)%nat then Some (x - y) else None.

(** [None]: a count goes below zero, which panics. *)
Definition apply_path_sparse (state : PackedIndex PathEntry * nat * nat * nat) (operation : PathOp)
    : option (PackedIndex PathEntry * nat * nat * nat) :=
  let '(result, source_count, entity_count, file_count) := state in
  let path := po_path operation in
  let existing := index_get result path in
  let replacement := entry_apply (default (empty_entry path) existing) operation in
  source_count ← usize_minus source_count (from_option has_source 0 existing);
  entity_count ← usize_minus entity_count (from_option entity_len 0 existing);
  file_count ← usize_minus file_count (from_option has_file 0 existing);
  Some (updated result path replacement,
    source_count + from_option has_source 0 replacement,
    entity_count + from_option entity_len 0 replacement,
    file_count + from_option has_file 0 replacement).

Fixpoint apply_each_path (state : PackedIndex PathEntry * nat * nat * nat)
    (operations : list PathOp) : option (PackedIndex PathEntry * nat * nat * nat) :=
  match operations with
  | [] => Some state
  | operation :: operations =>
      state ← apply_path_sparse state operation; apply_each_path state operations
  end.

Definition apply_path_operations_sparse (retained : FactTable) (operations : list PathOp)
    : option (PackedIndex PathEntry * nat * nat * nat) :=
  apply_each_path
    (ft_paths retained, ft_source_count retained, ft_entity_count retained,
     ft_file_count retained) operations.

(** The rows below a key, and the rest. *)
Fixpoint span_below {T} `{Keyed T} (k : str) (l : list T) : list T * list T :=
  match l with
  | [] => ([], [])
  | r :: rest =>
      if str_ltb (key r) k then let '(below, rest) := span_below k rest in (r :: below, rest)
      else ([], l)
  end.

(** The row at a key, when the next one is. *)
Definition take_at {T} `{Keyed T} (k : str) (l : list T) : option T * list T :=
  match l with
  | r :: rest => if str_eqb (key r) k then (Some r, rest) else (None, l)
  | [] => (None, [])
  end.

Fixpoint merge_paths (retained : list PathEntry) (operations : list PathOp) : list PathEntry :=
  match operations with
  | [] => retained
  | operation :: operations =>
      let path := po_path operation in
      let '(below, retained) := span_below path retained in
      let '(entry, retained) := take_at path retained in
      below ++ option_list (entry_apply (default (empty_entry path) entry) operation) ++
        merge_paths retained operations
  end.

Definition apply_path_operations_linear (retained : PackedIndex PathEntry)
    (operations : list PathOp) : PackedIndex PathEntry :=
  from_sorted (merge_paths (rows retained) operations).

Definition apply_one_symbol (symbol : option StoredSymbol) (operation : SymbolOp)
    : option (option StoredSymbol) :=
  match operation with
  | SymbolReplace symbol => Some (Some (from_fact symbol))
  | SymbolRemove _ => Some None
  | SymbolReplaceReferencePath _ path references =>
      s ← symbol; Some (Some (replace_reference_path s path references))
  end.

Fixpoint apply_symbol_operations_sparse (retained : PackedIndex StoredSymbol)
    (operations : list SymbolOp) : option (PackedIndex StoredSymbol) :=
  match operations with
  | [] => Some retained
  | operation :: operations =>
      let id := symbol_op_id operation in
      replacement ← apply_one_symbol (index_get retained id) operation;
      apply_symbol_operations_sparse (updated retained id replacement) operations
  end.

(** The operations of one symbol, applied to it; the operations that remain. *)
Fixpoint apply_symbol_group (id : str) (symbol : option StoredSymbol) (operations : list SymbolOp)
    : option (option StoredSymbol * list SymbolOp) :=
  match operations with
  | operation :: rest =>
      if str_eqb (symbol_op_id operation) id
      then symbol ← apply_one_symbol symbol operation; apply_symbol_group id symbol rest
      else Some (symbol, operations)
  | [] => Some (symbol, [])
  end.

(** The fuel is the number of operations: a group is never empty. *)
Fixpoint merge_symbol_operations (fuel : nat) (retained : list StoredSymbol)
    (operations : list SymbolOp) : option (list StoredSymbol) :=
  match fuel, operations with
  | S fuel, operation :: _ =>
      let id := symbol_op_id operation in
      let '(below, retained) := span_below id retained in
      let '(symbol, retained) := take_at id retained in
      '(symbol, operations) ← apply_symbol_group id symbol operations;
      merged ← merge_symbol_operations fuel retained operations;
      Some (below ++ option_list symbol ++ merged)
  | _, _ => Some retained
  end.

Definition apply_symbol_operations_linear (retained : PackedIndex StoredSymbol)
    (operations : list SymbolOp) : option (PackedIndex StoredSymbol) :=
  from_sorted <$> merge_symbol_operations (length operations) (rows retained) operations.

Definition apply_paths (t : FactTable) (operations : list PathOp)
    : option (PackedIndex PathEntry * nat * nat * nat) :=
  if (linear_rebuild_min_operations <=? length operations)%nat
  then
    let paths := apply_path_operations_linear (ft_paths t) operations in
    Some (paths, sum_list_with has_source (rows paths), sum_list_with entity_len (rows paths),
      sum_list_with has_file (rows paths))
  else apply_path_operations_sparse t operations.

Definition apply_symbols (t : FactTable) (operations : list SymbolOp)
    : option (PackedIndex StoredSymbol) :=
  if (linear_rebuild_min_operations <=? length operations)%nat
  then apply_symbol_operations_linear (ft_symbols t) operations
  else apply_symbol_operations_sparse (ft_symbols t) operations.

Definition apply_delta (t : FactTable) (transition : WireTableTransition) : option FactTable :=
  '(paths, source_count, entity_count, file_count) ← apply_paths t (wt_paths transition);
  symbols ← apply_symbols t (wt_symbols transition);
  Some {| ft_schema := wt_table_schema transition;
          ft_generation := wt_target_generation transition;
          ft_project_id := ft_project_id t; ft_paths := paths; ft_symbols := symbols;
          ft_source_count := source_count; ft_entity_count := entity_count;
          ft_file_count := file_count; ft_strict_null_checks := ft_strict_null_checks t |}.
