(* ===== verification/RetainedTableSpec.v ===== *)
(** * The retained table follows its reference

    The reference of a delta is a fold of single-row updates over the sorted
    rows ([fold_paths], [fold_symbols]).  The sparse and the linear application
    both compute it, the counters stay exact, and a delta that
    [validate_delta] accepts never reaches the [expect].

    Then: the invariant of a retained table. *)
From S2P Require Import Order.
From S2P Require Export RetainedTable PackedIndexSpec.

(** ** Counting rows *)

Lemma sum_with_app {A} (f : A → nat) l1 l2 :
  sum_list_with f (l1 ++ l2) = sum_list_with f l1 + sum_list_with f l2.
Proof. induction l1 as [|a l1 IH]; simpl; lia. Qed.

Lemma sum_with_option {A} (f : A → nat) o :
  sum_list_with f (option_list o) = from_option f 0 o.
Proof. destruct o; simpl; lia. Qed.

Lemma find_row_split {T} `{Keyed T} k (l1 mid l2 : list T) :
  (∀ r, r ∈ l1 → str_lt (key r) k) → (∀ r, r ∈ mid → key r = k) →
  (∀ r, r ∈ l2 → str_lt k (key r)) → find_row k (l1 ++ mid ++ l2) = head mid.
Proof.
  intros H1 Hm H2. rewrite !find_row_app.
  rewrite (find_row_None k l1), (find_row_None k l2).
  - destruct mid as [|r mid]; [done|]. simpl. by rewrite decide_True by (apply Hm; by left).
  - intros r Hr E. apply H2 in Hr. rewrite E in Hr. by apply str_lt_irrefl in Hr.
  - intros r Hr E. apply H1 in Hr. rewrite E in Hr. by apply str_lt_irrefl in Hr.
Qed.

Lemma count_set_row {T} `{Keyed T} (f : T → nat) k repl l : StronglySorted row_lt l →
  sum_list_with f (set_row k repl l) =
    sum_list_with f l - from_option f 0 (find_row k l) + from_option f 0 repl.
Proof.
  intros Hs. destruct (sorted_split k l Hs) as (l1 & mid & l2 & -> & H1 & Hm & H2 & Hc).
  rewrite set_row_split, find_row_split by done. rewrite !sum_with_app, sum_with_option.
  destruct Hc as [->|[r ->]]; simpl; lia.
Qed.

Lemma find_row_le {T} `{Keyed T} (f : T → nat) k l :
  from_option f 0 (find_row k l) ≤ sum_list_with f l.
Proof. induction l as [|r l IH]; simpl; [lia|]. destruct (decide _); simpl; lia. Qed.

Lemma set_row_forall {T} `{Keyed T} (P : T → Prop) k repl l :
  Forall P l → (∀ r, repl = Some r → P r) → Forall P (set_row k repl l).
Proof.
  rewrite !Forall_forall. intros Hl Hr x. unfold set_row, rows_below, rows_above.
  intros [[_ Hx]%list_elem_of_filter|[Hx|[_ Hx]%list_elem_of_filter]%elem_of_app]%elem_of_app; auto.
  destruct repl as [y|]; [|by apply elem_of_nil in Hx]. apply list_elem_of_singleton in Hx as ->. auto.
Qed.

Lemma set_row_twice {T} `{Keyed T} k (r1 r2 : option T) l : StronglySorted row_lt l →
  (∀ r, r1 = Some r → key r = k) → set_row k r2 (set_row k r1 l) = set_row k r2 l.
Proof.
  intros Hs Hk. destruct (sorted_split k l Hs) as (l1 & mid & l2 & -> & H1 & Hm & H2 & _).
  rewrite (set_row_split k r1), (set_row_split k r2 l1 mid) by done.
  apply set_row_split; [done| |done]. intros r Hr. destruct r1 as [r'|]; [|by apply elem_of_nil in Hr].
  apply list_elem_of_singleton in Hr as ->. auto.
Qed.

(** ** One merge step *)

Section merge.
Context {T : Type} `{Keyed T}.

Lemma span_below_app k (l1 l2 : list T) : (∀ r, r ∈ l1 → str_lt (key r) k) →
  span_below k (l1 ++ l2) = let '(below, rest) := span_below k l2 in (l1 ++ below, rest).
Proof.
  intros H1. induction l1 as [|r l1 IH]; simpl; [by destruct (span_below k l2)|].
  rewrite (proj2 (str_ltb_lt (key r) k)) by (apply H1; by left).
  rewrite IH by (intros; apply H1; by right). by destruct (span_below k l2).
Qed.

Lemma span_below_none k (l : list T) :
  (∀ r, r ∈ l → ¬ str_lt (key r) k) → span_below k l = ([], l).
Proof.
  intros Hl. destruct l as [|r l]; [done|]. simpl.
  destruct (str_ltb (key r) k) eqn:E; [|done].
  apply str_ltb_lt in E. by destruct (Hl r); [by left|].
Qed.

(** The rows below a key, the row at it and the rows above: what one step takes. *)
Lemma merge_step k (l1 mid l2 : list T) :
  (∀ r, r ∈ l1 → str_lt (key r) k) → (∀ r, r ∈ mid → key r = k) →
  (∀ r, r ∈ l2 → str_lt k (key r)) → mid = [] ∨ (∃ r, mid = [r]) →
  span_below k (l1 ++ mid ++ l2) = (l1, mid ++ l2) ∧ take_at k (mid ++ l2) = (head mid, l2).
Proof.
  intros H1 Hm H2 Hc. split.
  - rewrite span_below_app by done. rewrite span_below_none; [by rewrite app_nil_r|].
    intros r [Hr|Hr]%elem_of_app; [rewrite (Hm r Hr); apply str_lt_irrefl|by apply str_lt_not_gt, H2].
  - destruct Hc as [->|[r ->]]; simpl.
    + destruct l2 as [|r l2]; [done|]. simpl. unfold str_eqb.
      rewrite bool_decide_eq_false_2; [done|]. intros E. specialize (H2 r ltac:(by left)).
      rewrite E in H2. by apply str_lt_irrefl in H2.
    + unfold str_eqb. rewrite bool_decide_eq_true_2; [done|]. apply Hm. by left.
Qed.

End merge.

(** ** Path operations *)

Definition path_update (l : list PathEntry) (op : PathOp) : list PathEntry :=
  set_row (po_path op)
    (entry_apply (default (empty_entry (po_path op)) (find_row (po_path op) l)) op) l.

(** The reference: one row updated after another. *)
Definition fold_paths (l : list PathEntry) (ops : list PathOp) : list PathEntry :=
  foldl path_update l ops.

Lemma entry_apply_key e op r : entry_apply e op = Some r → pe_path r = pe_path e.
Proof. unfold entry_apply. destruct (entry_is_empty _); [done|]. by intros [= <-]. Qed.

Lemma path_update_key l op r :
  entry_apply (default (empty_entry (po_path op)) (find_row (po_path op) l)) op = Some r →
  key r = po_path op.
Proof.
  intros Hr%entry_apply_key. unfold key, PathEntry_keyed. rewrite Hr.
  destruct (find_row _ l) as [e|] eqn:E; simpl; [by apply find_row_Some in E as [_ E]|done].
Qed.

Lemma path_update_sorted l op : StronglySorted row_lt l → StronglySorted row_lt (path_update l op).
Proof. intros Hs. apply set_row_sorted; [done|]. apply path_update_key. Qed.

Lemma fold_paths_sorted l ops : StronglySorted row_lt l → StronglySorted row_lt (fold_paths l ops).
Proof.
  revert l. induction ops as [|op ops IH]; intros l Hs; [done|]. simpl.
  by apply IH, path_update_sorted.
Qed.

(** The merge of sorted operations is the fold. *)
Lemma merge_paths_fold l ops :
  StronglySorted row_lt l → StronglySorted str_lt (po_path <$> ops) →
  merge_paths l ops = fold_paths l ops.
Proof.
  revert l. induction ops as [|op ops IH]; intros l Hl Hops; [done|].
  cbn [fmap list_fmap] in Hops. inversion Hops as [|? ? Hops' Hgt]; subst.
  destruct (sorted_split (po_path op) l Hl) as (l1 & mid & l2 & -> & H1 & Hm & H2 & Hc).
  destruct (merge_step _ l1 mid l2 H1 Hm H2 Hc) as [E1 E2]. simpl. rewrite E1, E2.
  unfold fold_paths. simpl. fold (fold_paths (path_update (l1 ++ mid ++ l2) op) ops).
  rewrite <-IH; [|by apply path_update_sorted|done].
  unfold path_update. pose proof (path_update_key (l1 ++ mid ++ l2) op) as Hkey.
  rewrite find_row_split in * by done. rewrite set_row_split by done.
  set (repl := entry_apply _ op) in *.
  assert (Hpre : ∀ r, r ∈ l1 ++ option_list repl → ∀ op', op' ∈ ops → str_lt (key r) (po_path op')).
  { intros r Hr op' Hop. rewrite Forall_forall in Hgt.
    assert (Hlt : str_lt (po_path op) (po_path op')) by (apply Hgt, list_elem_of_fmap; eauto).
    apply elem_of_app in Hr as [Hr|Hr]; [by etrans; [apply H1|]|].
    destruct repl as [x|]; [|by apply elem_of_nil in Hr].
    apply list_elem_of_singleton in Hr as ->. by rewrite (Hkey x eq_refl). }
  destruct ops as [|op' ops]; [done|]. rewrite !(app_assoc l1 (option_list repl)). simpl.
  rewrite (span_below_app _ (l1 ++ option_list repl)) by (intros r Hr; apply Hpre; [done|by left]).
  destruct (span_below (po_path op') l2) as [b rest]. destruct (take_at (po_path op') rest).
  by rewrite <-!app_assoc.
Qed.

Definition counts_of (l : list PathEntry) : nat * nat * nat :=
  (sum_list_with has_source l, sum_list_with entity_len l, sum_list_with has_file l).

(** What one row counts for can be taken off the count of all of them. *)
Lemma sum_covers {T} `{Keyed T} (f : T → nat) l k : from_option f 0 (find_row k l) ≤ sum_list_with f l.
Proof.
  destruct (find_row k l) as [r|] eqn:E; [|apply Nat.le_0_l]. apply find_row_Some in E as [Hr _].
  cbn [from_option]. induction Hr as [x l|x y l Hr IH]; cbn; lia.
Qed.

Lemma usize_minus_covered {T} `{Keyed T} (f : T → nat) l k :
  usize_minus (sum_list_with f l) (from_option f 0 (find_row k l)) =
  Some (sum_list_with f l - from_option f 0 (find_row k l)).
Proof. unfold usize_minus. by rewrite (proj2 (Nat.leb_le _ _) (sum_covers f l k)). Qed.

Lemma sparse_step idx op a b c : index_ok idx → counts_of (rows idx) = (a, b, c) →
  ∃ idx' a' b' c', apply_path_sparse (idx, a, b, c) op = Some (idx', a', b', c') ∧ index_ok idx' ∧
    rows idx' = path_update (rows idx) op ∧ counts_of (rows idx') = (a', b', c').
Proof.
  intros Hok [= <- <- <-]. unfold apply_path_sparse. cbv zeta. rewrite index_get_spec by done.
  rewrite !(usize_minus_covered _ (rows idx)). cbn [mbind option_bind].
  do 4 eexists. split; [reflexivity|].
  destruct (updated_spec idx (po_path op) _ Hok (path_update_key (rows idx) op)) as [Hok' Hrows].
  split; [done|]. split; [exact Hrows|].
  destruct Hok as (_ & _ & Hs & _). unfold counts_of. rewrite Hrows, !count_set_row by done. done.
Qed.

Lemma sparse_paths_fold idx a b c ops : index_ok idx → counts_of (rows idx) = (a, b, c) →
  ∃ idx' a' b' c', apply_each_path (idx, a, b, c) ops = Some (idx', a', b', c') ∧
    index_ok idx' ∧ rows idx' = fold_paths (rows idx) ops ∧ counts_of (rows idx') = (a', b', c').
Proof.
  revert idx a b c. induction ops as [|op ops IH]; intros idx a b c Hok Hc.
  { by exists idx, a, b, c. }
  destruct (sparse_step idx op a b c Hok Hc) as (idx1 & a1 & b1 & c1 & E1 & Hok1 & Hr1 & Hc1).
  cbn [apply_each_path]. rewrite E1. cbn [mbind option_bind].
  destruct (IH idx1 a1 b1 c1 Hok1 Hc1) as (idx2 & a2 & b2 & c2 & E2 & Hok2 & Hr2 & Hc2).
  exists idx2, a2, b2, c2. split_and!; [done|done| |done]. rewrite Hr2, Hr1. done.
Qed.

(** ** Symbol operations *)

Definition symbol_update (l : list StoredSymbol) (op : SymbolOp) : option (list StoredSymbol) :=
  let id := symbol_op_id op in
  r ← apply_one_symbol (find_row id l) op; Some (set_row id r l).

Fixpoint fold_symbols (l : list StoredSymbol) (ops : list SymbolOp) : option (list StoredSymbol) :=
  match ops with [] => Some l | op :: ops => l ← symbol_update l op; fold_symbols l ops end.

Lemma apply_one_key s op r :
  (∀ x, s = Some x → ss_id x = symbol_op_id op) → apply_one_symbol s op = Some (Some r) →
  key r = symbol_op_id op.
Proof.
  intros Hs. destruct op as [fact|id|id path refs]; simpl; [by intros [= <-]|done|].
  destruct s as [x|]; simpl; [|done]. intros [= <-]. exact (Hs x eq_refl).
Qed.

Lemma find_key k l (x : StoredSymbol) : find_row k l = Some x → ss_id x = k.
Proof. by intros [_ ?]%find_row_Some. Qed.

Lemma symbol_update_key l op repl :
  apply_one_symbol (find_row (symbol_op_id op) l) op = Some repl →
  ∀ r, repl = Some r → key r = symbol_op_id op.
Proof. intros E r ->. eapply apply_one_key; [|exact E]. intros x. apply find_key. Qed.

Lemma symbol_update_sorted l op l' : StronglySorted row_lt l → symbol_update l op = Some l' →
  StronglySorted row_lt l'.
Proof.
  intros Hs. unfold symbol_update. destruct (apply_one_symbol _ op) as [r|] eqn:E; [|done].
  intros [= <-]. apply set_row_sorted; [done|]. by eapply symbol_update_key.
Qed.

Lemma fold_symbols_sorted l ops l' : StronglySorted row_lt l → fold_symbols l ops = Some l' →
  StronglySorted row_lt l'.
Proof.
  revert l. induction ops as [|op ops IH]; simpl; intros l Hs; [by intros [= <-]|].
  destruct (symbol_update l op) as [l1|] eqn:E; [|done].
  apply IH. by eapply symbol_update_sorted.
Qed.

Lemma set_row_same {T} `{Keyed T} k (l : list T) :
  StronglySorted row_lt l → set_row k (find_row k l) l = l.
Proof.
  intros Hs. destruct (sorted_split k l Hs) as (l1 & mid & l2 & -> & H1 & Hm & H2 & Hc).
  rewrite find_row_split, set_row_split by done. by destruct Hc as [->|[r ->]].
Qed.

Lemma sparse_symbols_fold idx ops : index_ok idx →
  match apply_symbol_operations_sparse idx ops with
  | Some idx' => index_ok idx' ∧ fold_symbols (rows idx) ops = Some (rows idx')
  | None => fold_symbols (rows idx) ops = None
  end.
Proof.
  revert idx. induction ops as [|op ops IH]; intros idx Hok; [done|]. simpl.
  unfold symbol_update. rewrite index_get_spec by done.
  destruct (apply_one_symbol (find_row (symbol_op_id op) (rows idx)) op) as [r|] eqn:E; [|done].
  destruct (updated_spec idx _ r Hok (symbol_update_key (rows idx) op r E)) as [Hok' Hr].
  cbn [mbind option_bind]. rewrite <-Hr. by apply IH.
Qed.

Definition str_le (a b : str) : Prop := str_lt a b ∨ a = b.

Lemma group_fold id s ops l : StronglySorted row_lt l → find_row id l = s →
  fold_symbols l ops =
    ('(s', rest) ← apply_symbol_group id s ops; fold_symbols (set_row id s' l) rest).
Proof.
  revert s l. induction ops as [|op ops IH]; intros s l Hs <-; simpl.
  { by rewrite set_row_same. }
  unfold str_eqb. case_bool_decide as Hid.
  - unfold symbol_update. rewrite Hid.
    destruct (apply_one_symbol (find_row id l) op) as [r|] eqn:E; [|done].
    cbn [mbind option_bind]. subst id. pose proof (symbol_update_key l op r E) as Hk.
    rewrite (IH r); [|by apply set_row_sorted|by rewrite find_set_row, decide_True].
    destruct (apply_symbol_group _ r ops) as [[s' rest]|]; [|done].
    cbn [mbind option_bind]. by rewrite set_row_twice.
  - cbn [mbind option_bind]. rewrite set_row_same by done. done.
Qed.

Lemma group_rest id s ops s' rest : apply_symbol_group id s ops = Some (s', rest) →
  (∀ x, s = Some x → ss_id x = id) →
  ∃ g, ops = g ++ rest ∧ (∀ x, s' = Some x → ss_id x = id) ∧
    match rest with op :: _ => symbol_op_id op ≠ id | [] => True end.
Proof.
  revert s. induction ops as [|op ops IH]; intros s; simpl.
  { intros [= <- <-] ?. by exists []. }
  unfold str_eqb. case_bool_decide as Hid.
  - destruct (apply_one_symbol s op) as [r|] eqn:E; [|done]. intros Hg Hs.
    destruct (IH r Hg) as (g & -> & Hs' & Hr).
    { intros x ->. rewrite <-Hid. eapply apply_one_key; [|exact E]. by rewrite Hid. }
    by exists (op :: g).
  - intros [= <- <-] Hs. by exists [].
Qed.

Lemma merge_symbols_prefix fuel pre l ops :
  (∀ r, r ∈ pre → ∀ op, op ∈ ops → str_lt (key r) (symbol_op_id op)) →
  merge_symbol_operations fuel (pre ++ l) ops = app pre <$> merge_symbol_operations fuel l ops.
Proof.
  intros Hpre. destruct fuel as [|fuel]; [done|]. destruct ops as [|op ops]; [done|].
  cbn [merge_symbol_operations]. rewrite span_below_app by (intros r Hr; apply Hpre; [done|by left]).
  destruct (span_below _ l) as [b rest]. destruct (take_at _ rest) as [s rest'].
  destruct (apply_symbol_group _ s (op :: ops)) as [[s' ops']|]; [|done]. cbn [mbind option_bind].
  destruct (merge_symbol_operations fuel rest' ops') as [m|]; [|done]. simpl.
  by rewrite <-app_assoc.
Qed.

Lemma rest_above id (g rest : list SymbolOp) :
  StronglySorted str_le (symbol_op_id <$> g ++ rest) → head (symbol_op_id <$> g ++ rest) = Some id →
  match rest with op :: _ => symbol_op_id op ≠ id | [] => True end →
  ∀ op, op ∈ rest → str_lt id (symbol_op_id op).
Proof.
  intros Hs Hh Hne op Hop. destruct rest as [|op0 rest]; [by apply elem_of_nil in Hop|].
  rewrite fmap_app in Hs. assert (Hle : str_le id (symbol_op_id op0)).
  { destruct g as [|g0 g]; [injection Hh as <-; by destruct Hne|]. injection Hh as <-.
    cbn [fmap list_fmap app] in Hs. apply StronglySorted_inv in Hs as [_ Hs].
    rewrite Forall_forall in Hs. apply Hs, elem_of_app. right. by left. }
  assert (Hs' : StronglySorted str_le (symbol_op_id <$> op0 :: rest)).
  { clear -Hs. induction (symbol_op_id <$> g) as [|a gs IH]; [done|].
    apply StronglySorted_inv in Hs as [Hs _]. auto. }
  destruct Hle as [Hlt|Hlt]; [|by destruct Hne]. cbn [fmap list_fmap] in Hs'.
  apply StronglySorted_inv in Hs' as [_ Hs']. rewrite Forall_forall in Hs'.
  apply elem_of_cons in Hop as [->|Hop]; [done|].
  destruct (Hs' (symbol_op_id op)) as [Hop'|Hop']; [apply list_elem_of_fmap; eauto| |].
  - by etrans.
  - by rewrite <-Hop'.
Qed.

Lemma sorted_suffix {A} (R : A → A → Prop) l1 l2 : StronglySorted R (l1 ++ l2) → StronglySorted R l2.
Proof.
  induction l1 as [|a l1 IH]; [done|]. intros Hs. apply IH. by apply StronglySorted_inv in Hs as [? _].
Qed.

(** The merge of sorted operations is the fold; the fuel suffices. *)
Lemma merge_symbols_fold fuel l ops : length ops ≤ fuel → StronglySorted row_lt l →
  StronglySorted str_le (symbol_op_id <$> ops) →
  merge_symbol_operations fuel l ops = fold_symbols l ops.
Proof.
  revert l ops. induction fuel as [|fuel IH]; intros l ops Hf Hl Hops.
  { by destruct ops; [|simpl in Hf; lia]. }
  destruct ops as [|op ops]; [done|]. set (id := symbol_op_id op).
  destruct (sorted_split id l Hl) as (l1 & mid & l2 & -> & H1 & Hm & H2 & Hc).
  destruct (merge_step _ l1 mid l2 H1 Hm H2 Hc) as [E1 E2].
  rewrite (group_fold id _ (op :: ops) (l1 ++ mid ++ l2)) by done.
  cbn [merge_symbol_operations]. fold id. rewrite E1, E2, find_row_split by done.
  destruct (apply_symbol_group id (head mid) (op :: ops)) as [[s' rest]|] eqn:Eg; [|done].
  cbn [mbind option_bind]. rewrite set_row_split by done.
  destruct (group_rest _ _ _ _ _ Eg) as (g & Eo & Hk & Hrest).
  { intros x Hx. apply (Hm x). destruct mid; [done|]. injection Hx as ->. by left. }
  assert (Habove : ∀ op', op' ∈ rest → str_lt id (symbol_op_id op')).
  { rewrite Eo in Hops. eapply rest_above; [exact Hops|by rewrite <-Eo|done]. }
  assert (length rest ≤ fuel).
  { destruct g as [|g0 g].
    - simpl in Eo. subst rest. by destruct Hrest.
    - apply (f_equal length) in Eo. simpl in *. rewrite length_app in Eo. lia. }
  rewrite <-(IH (l1 ++ option_list s' ++ l2) rest); [|done| |].
  - rewrite (app_assoc l1), merge_symbols_prefix.
    { destruct (merge_symbol_operations fuel l2 rest); simpl; [|done]. by rewrite <-app_assoc. }
    intros r [Hr|Hr]%elem_of_app op' Hop; [etrans; [by apply H1|by apply Habove]|].
    destruct s' as [x|]; [|by apply elem_of_nil in Hr]. apply list_elem_of_singleton in Hr as ->.
    unfold key, StoredSymbol_keyed. rewrite (Hk x eq_refl). by apply Habove.
  - rewrite <-(set_row_split id s' l1 mid l2) by done. by apply set_row_sorted.
  - rewrite Eo, fmap_app in Hops. by eapply sorted_suffix.
Qed.

(** * The invariant of a retained table

    [table_ok]: indexes in order, counters exact, every entry non-empty and in
    its own path, references grouped by path, none on an alias.  The facts a
    table stands for ([facts]) follow the reference update of its operations
    ([fact_update]), and validation rules out every panic of the application. *)

(** ** Locations in order *)

Definition loc_le (x y : Location) : Prop := Decode.location_leb x y = true.

Lemma str_cmp_lt_eq a b : str_cmp a b = Eq ↔ a = b.
Proof. apply (cmp_eq _ str_cmp_order). Qed.

Lemma loc_le_spec x y : loc_le x y ↔
  str_lt (loc_path x) (loc_path y) ∨
  loc_path x = loc_path y ∧ ((start_byte x < start_byte y)%N ∨
    start_byte x = start_byte y ∧ (end_byte x <= end_byte y)%N).
Proof.
  unfold loc_le, Decode.location_leb, str_lt.
  destruct (str_cmp (loc_path x) (loc_path y)) eqn:E.
  - apply str_cmp_lt_eq in E. rewrite E. destruct (N.compare_spec (start_byte x) (start_byte y)).
    + rewrite N.leb_le. naive_solver lia.
    + naive_solver.
    + split; [done|]. intros [?|[_ ?]]; [done|lia].
  - naive_solver.
  - split; [done|]. intros [?|[Hp _]]; [done|]. apply str_cmp_lt_eq in Hp. congruence.
Qed.

#[global] Instance loc_le_trans : Transitive loc_le.
Proof.
  intros x y z. rewrite !loc_le_spec. intros [H1|[E1 H1]] [H2|[E2 H2]].
  - left. by etrans.
  - left. by rewrite <-E2.
  - left. by rewrite E1.
  - right. split; [congruence|]. lia.
Qed.

Lemma windows_all_sorted {A} (f : A → A → bool) l : Transitive (λ x y, f x y = true) →
  Decode.windows_all f l = true ↔ StronglySorted (λ x y, f x y = true) l.
Proof.
  intros Ht. induction l as [|x l IH]; [split; [constructor|done]|].
  destruct l as [|y l]; [split; [repeat constructor|done]|].
  change (f x y && Decode.windows_all f (y :: l) = true ↔
    StronglySorted (λ x y, f x y = true) (x :: y :: l)).
  rewrite andb_true_iff, IH. split.
  - intros [Hxy Hs]. constructor; [done|]. constructor; [done|].
    apply StronglySorted_inv in Hs as [_ Hs]. eapply Forall_impl; [exact Hs|].
    intros z Hz. by apply (Ht x y z).
  - intros Hs. apply StronglySorted_inv in Hs as [Hs Hx]. by inversion Hx.
Qed.

Lemma canonical_sorted ls :
  Decode.locations_are_canonical ls = true ↔ StronglySorted loc_le ls.
Proof. apply (windows_all_sorted Decode.location_leb), loc_le_trans. Qed.

Lemma sorted_app_iff {A} (R : A → A → Prop) l1 l2 :
  StronglySorted R (l1 ++ l2) ↔
  StronglySorted R l1 ∧ StronglySorted R l2 ∧ ∀ x y, x ∈ l1 → y ∈ l2 → R x y.
Proof.
  induction l1 as [|a l1 IH]; simpl.
  { split; [|naive_solver]. intros. split_and!; [constructor|done|]. intros x y Hx.
    by apply elem_of_nil in Hx. }
  split.
  - intros [Hs Ha]%StronglySorted_inv. apply IH in Hs as (S1 & S2 & S3).
    rewrite Forall_app in Ha. destruct Ha as [Ha1 Ha2]. split_and!; [by constructor|done|].
    intros x y [->|Hx]%elem_of_cons Hy; [by rewrite Forall_forall in Ha2; apply Ha2|by apply S3].
  - intros ([S1 Ha]%StronglySorted_inv & S2 & S3). constructor.
    + apply IH. split_and!; [done|done|]. intros x y Hx. apply S3. by right.
    + apply Forall_app. split; [done|]. apply Forall_forall. intros y Hy. apply S3; [by left|done].
Qed.

(** ** Runs of references *)

Definition run_ok (r : ReferenceRun) : Prop :=
  rr_locations r ≠ [] ∧ Forall (λ l, loc_path l = rr_path r) (rr_locations r) ∧
  StronglySorted loc_le (rr_locations r).

Lemma take_run_spec p ls run rest : take_run p ls = (run, rest) →
  ls = run ++ rest ∧ Forall (λ l, loc_path l = p) run ∧
  match rest with l :: _ => loc_path l ≠ p | [] => True end.
Proof.
  revert run rest. induction ls as [|l ls IH]; simpl; intros run rest; [by intros [= <- <-]|].
  unfold str_eqb. case_bool_decide as Hp; [|by intros [= <- <-]].
  destruct (take_run p ls) as [run0 rest0]. intros [= <- <-].
  destruct (IH run0 rest0 eq_refl) as (-> & ? & ?). split_and!; [done|by constructor|done].
Qed.

Lemma reference_runs_spec fuel ls : length ls ≤ fuel → StronglySorted loc_le ls →
  reference_runs fuel ls ≫= rr_locations = ls ∧ Forall run_ok (reference_runs fuel ls) ∧
  StronglySorted row_lt (reference_runs fuel ls).
Proof.
  revert ls. induction fuel as [|fuel IH]; intros ls Hf Hs.
  { destruct ls; [|simpl in Hf; lia]. by split_and!; constructor. }
  destruct ls as [|l ls]; [by split_and!; constructor|]. cbn [reference_runs].
  destruct (take_run (loc_path l) ls) as [run rest] eqn:E.
  destruct (take_run_spec _ _ _ _ E) as (-> & Hrun & Hrest).
  rewrite app_comm_cons in Hs. apply sorted_app_iff in Hs as (S1 & S2 & S3).
  destruct (IH rest) as (H1 & H2 & H3); [|done|].
  { simpl in Hf. rewrite length_app in Hf. lia. }
  split_and!.
  - cbn [mbind list_bind]. rewrite H1. done.
  - constructor; [|done]. split_and!; [done|by constructor|done].
  - constructor; [done|]. apply Forall_forall. intros r Hr. unfold row_lt. cbn [key].
    assert (Hin : ∃ y, y ∈ rest ∧ loc_path y = rr_path r).
    { rewrite Forall_forall in H2. destruct (H2 r Hr) as (Hne & Hp & _).
      destruct (rr_locations r) as [|y ys] eqn:Ey; [done|]. exists y.
      rewrite Forall_forall in Hp. split; [|apply Hp; by left]. rewrite <-H1.
      apply list_elem_of_bind. exists r. split; [rewrite Ey; by left|done]. }
    destruct Hin as (y & Hy & Hyp). unfold key, ReferenceRun_keyed. simpl. rewrite <-Hyp.
    destruct rest as [|z rest]; [by apply elem_of_nil in Hy|].
    assert (Hz : str_lt (loc_path l) (loc_path z)).
    { destruct (proj1 (loc_le_spec l z)) as [?|[? _]]; [apply S3; by left|done|congruence]. }
    apply elem_of_cons in Hy as [->|Hy]; [done|].
    apply StronglySorted_inv in S2 as [_ S2]. rewrite Forall_forall in S2.
    destruct (proj1 (loc_le_spec z y) (S2 y Hy)) as [?|[<- _]]; [by etrans|done].
Qed.

(** ** Symbols *)

Definition symbol_ok (s : StoredSymbol) : Prop :=
  index_ok (ss_references s) ∧ Forall run_ok (rows (ss_references s)) ∧
  ss_reference_count s = length (symbol_references s) ∧
  (ss_alias_target s ≠ empty_str → rows (ss_references s) = []).

Definition fact_ok (f : SymbolFact) : Prop :=
  StronglySorted loc_le (sf_references f) ∧ (sf_alias_target f ≠ empty_str → sf_references f = []).

Lemma from_fact_ok f : fact_ok f → symbol_ok (from_fact f) ∧ to_fact (from_fact f) = f.
Proof.
  intros [Hs Ha]. destruct (reference_runs_spec _ _ (le_n _) Hs) as (H1 & H2 & H3).
  destruct (from_sorted_ok _ H3) as [Hok Hrows].
  unfold symbol_ok, to_fact, symbol_references, from_fact; simpl. rewrite Hrows, H1.
  split; [|by destruct f]. split_and!; try done. intros Hne. by rewrite (Ha Hne).
Qed.

(** The references of one path replaced. *)
Definition replace_refs (path : str) (refs l : list Location) : list Location :=
  filter (λ r, str_lt (loc_path r) path) l ++ refs ++ filter (λ r, str_lt path (loc_path r)) l.

Lemma runs_filter (P : str → Prop) (Pdec : ∀ p, Decision (P p)) (runs : list ReferenceRun) :
  Forall run_ok runs →
  filter (λ r, P (rr_path r)) runs ≫= rr_locations =
    filter (λ l, P (loc_path l)) (runs ≫= rr_locations).
Proof.
  induction 1 as [|r runs (_ & Hp & _) Hr IH]; [done|]. cbn [mbind list_bind].
  rewrite filter_app, <-IH. destruct (decide (P (rr_path r))) as [HP|HP].
  - rewrite filter_cons_True by done. cbn [mbind list_bind]. f_equal. clear -Hp HP.
    induction Hp as [|l ls Hl Hp IH]; [done|]. rewrite filter_cons_True by by rewrite Hl. by f_equal.
  - rewrite filter_cons_False by done. replace (filter _ (rr_locations r)) with (@nil Location); [done|].
    clear -Hp HP. induction Hp as [|l ls Hl Hp IH]; [done|]. by rewrite filter_cons_False by by rewrite Hl.
Qed.

Lemma reference_count_covers s path : symbol_ok s →
  from_option (λ run, length (rr_locations run)) 0 (index_get (ss_references s) path) ≤
  ss_reference_count s.
Proof.
  intros (Hidx & _ & -> & _). rewrite index_get_spec by done.
  etrans; [apply (sum_covers (λ run, length (rr_locations run)))|]. unfold symbol_references.
  apply Nat.eq_le_incl. induction (rows (ss_references s)) as [|r l IH]; [done|].
  cbn [mbind list_bind sum_list_with]. rewrite length_app. by f_equal.
Qed.

Lemma replace_reference_path_ok s path refs : symbol_ok s → ss_alias_target s = empty_str →
  Forall (λ l, loc_path l = path) refs → StronglySorted loc_le refs →
  let s' := replace_reference_path s path refs in
  symbol_ok s' ∧ to_fact s' =
    {| sf_id := ss_id s; sf_references := replace_refs path refs (symbol_references s);
       sf_alias_target := ss_alias_target s; sf_declarations := ss_declarations s |}.
Proof.
  intros (Hidx & Hruns & Hcount & _) Ha Hp Hs. cbv zeta.
  set (repl := if bool_decide (refs = []) then None else Some {| rr_path := path; rr_locations := refs |}).
  assert (Hk : ∀ r, repl = Some r → key r = path).
  { subst repl. case_bool_decide; [done|]. by intros r [= <-]. }
  assert (Hr : option_list repl ≫= rr_locations = refs).
  { subst repl. case_bool_decide as E; [by rewrite E|]. simpl. by rewrite app_nil_r. }
  destruct (updated_spec (ss_references s) path repl Hidx Hk) as [Hok Hrows].
  assert (Hrefs : rows (updated (ss_references s) path repl) ≫= rr_locations =
    replace_refs path refs (symbol_references s)).
  { rewrite Hrows. unfold set_row, replace_refs, symbol_references, rows_below, rows_above.
    unfold key, ReferenceRun_keyed. rewrite !bind_app, Hr.
    f_equal; [|f_equal].
    - by apply (runs_filter (λ p, str_lt p path) (λ p, str_lt_dec p path)).
    - by apply (runs_filter (λ p, str_lt path p) (λ p, str_lt_dec path p)). }
  assert (Hlen : length (replace_refs path refs (symbol_references s)) =
    length (symbol_references s) -
      from_option (λ run, length (rr_locations run)) 0 (index_get (ss_references s) path) + length refs).
  { rewrite <-Hrefs, Hrows, index_get_spec by done. unfold symbol_references.
    assert (Hsum : ∀ l : list ReferenceRun, length (l ≫= rr_locations) =
      sum_list_with (λ run, length (rr_locations run)) l).
    { induction l as [|r l IH]; [done|]. cbn [mbind list_bind]. rewrite length_app. simpl. by rewrite <-IH. }
    rewrite !Hsum. destruct Hidx as (_ & _ & Hsort & _). rewrite count_set_row by done. f_equal.
    rewrite <-sum_with_option, <-Hsum. by rewrite Hr. }
  unfold replace_reference_path, symbol_ok, to_fact, symbol_references. fold repl.
  cbn [ss_references ss_reference_count ss_alias_target ss_id ss_declarations].
  rewrite Hrefs. split; [|done]. split_and!; [done| | |congruence].
  - rewrite Hrows. apply set_row_forall; [done|]. subst repl. case_bool_decide; [done|].
    intros r [= <-]. by split_and!.
  - by rewrite Hlen, Hcount.
Qed.
