(* ===== verification/RetainedDelta.v ===== *)
(** * A delta on a retained table

    What the decoder promises of a transition ([transition_ok]) and what
    applying it does: the facts of the table are those of the reference
    update, the invariant holds again, and a delta that validates never
    panics; a full transition materialises to exactly its rows. Last, that
    every transition the decoder returns is [transition_ok]. *)
From S2P Require Export RetainedTableSpec.

(** ** Operations a decoder accepts *)

Definition path_op_ok (op : PathOp) : Prop :=
  (∀ es, po_entities op = SlotReplace es →
     Decode.entity_run_is_canonical (po_path op) es = true) ∧
  (∀ f, po_file op = SlotReplace f → ff_path f = po_path op).

Definition symbol_op_ok (op : SymbolOp) : Prop :=
  symbol_op_id op ≠ empty_str ∧
  match op with
  | SymbolReplace f => fact_ok f
  | SymbolRemove _ => True
  | SymbolReplaceReferencePath _ path refs =>
      Forall (λ l, loc_path l = path) refs ∧ StronglySorted loc_le refs
  end.

Definition is_replace (op : SymbolOp) : bool :=
  match op with SymbolReplace _ => true | _ => false end.

Definition transition_ok (t : WireTableTransition) : Prop :=
  StronglySorted str_lt (po_path <$> wt_paths t) ∧ Forall path_op_ok (wt_paths t) ∧
  StronglySorted str_le (symbol_op_id <$> wt_symbols t) ∧ Forall symbol_op_ok (wt_symbols t) ∧
  (wt_mode t = Full → Forall (λ op, is_replace op = true) (wt_symbols t) ∧
     StronglySorted str_lt (symbol_op_id <$> wt_symbols t)).

(** ** Facts *)

(** The rows a table stands for. *)
Definition facts (t : FactTable) : list PathEntry * list SymbolFact :=
  (rows (ft_paths t), symbols t).

Definition entry_ok (e : PathEntry) : Prop :=
  entry_is_empty e = false ∧
  (∀ d, pe_source e = Some d → sd_path d = pe_path e) ∧
  Decode.entity_run_is_canonical (pe_path e) (pe_entities e) = true ∧
  (∀ f, pe_file e = Some f → ff_path f = pe_path e).

Definition table_ok (t : FactTable) : Prop :=
  index_ok (ft_paths t) ∧ Forall entry_ok (rows (ft_paths t)) ∧
  counts_of (rows (ft_paths t)) = (ft_source_count t, ft_entity_count t, ft_file_count t) ∧
  index_ok (ft_symbols t) ∧ Forall symbol_ok (rows (ft_symbols t)).

(** The reference of one symbol operation, on the facts: a reference operation
    needs a symbol that is no alias. *)
Definition fact_update (l : list SymbolFact) (op : SymbolOp) : option (list SymbolFact) :=
  match op with
  | SymbolReplace f => Some (set_row (sf_id f) (Some f) l)
  | SymbolRemove id => Some (set_row id None l)
  | SymbolReplaceReferencePath id path refs =>
      f ← find_row id l;
      if is_empty (sf_alias_target f)
      then
        Some (set_row id
          (Some {| sf_id := sf_id f; sf_references := replace_refs path refs (sf_references f);
                   sf_alias_target := sf_alias_target f; sf_declarations := sf_declarations f |}) l)
      else None
  end.

Fixpoint fold_facts (l : list SymbolFact) (ops : list SymbolOp) : option (list SymbolFact) :=
  match ops with [] => Some l | op :: ops => l ← fact_update l op; fold_facts l ops end.

Definition apply_facts (t : list PathEntry * list SymbolFact) (tr : WireTableTransition)
    : option (list PathEntry * list SymbolFact) :=
  symbols ← fold_facts t.2 (wt_symbols tr); Some (fold_paths t.1 (wt_paths tr), symbols).

Lemma find_row_map {A B} `{Keyed A, Keyed B} (f : A → B) k l : (∀ a, key (f a) = key a) →
  find_row k (f <$> l) = f <$> find_row k l.
Proof.
  intros Hk. induction l as [|a l IH]; [done|]. simpl. rewrite Hk. destruct (decide _); [done|]. apply IH.
Qed.

Lemma set_row_map {A B} `{Keyed A, Keyed B} (f : A → B) k repl l : (∀ a, key (f a) = key a) →
  f <$> set_row k repl l = set_row k (f <$> repl) (f <$> l).
Proof.
  intros Hk. unfold set_row, rows_below, rows_above. rewrite !fmap_app.
  assert (Hf : ∀ (P : str → Prop) (Pdec : ∀ s, Decision (P s)),
    f <$> filter (λ r, P (key r)) l = filter (λ r, P (key r)) (f <$> l)).
  { intros P Pdec. induction l as [|a l IH]; [done|]. cbn [fmap list_fmap].
    destruct (decide (P (key a))) as [HP|HP].
    - rewrite !filter_cons_True by (by rewrite ?Hk). cbn [fmap list_fmap]. f_equal. exact IH.
    - rewrite !filter_cons_False by (by rewrite ?Hk). exact IH. }
  rewrite (Hf (λ s, str_lt s k) (λ s, str_lt_dec s k)), (Hf (λ s, str_lt k s) (λ s, str_lt_dec k s)).
  by destruct repl.
Qed.

Lemma row_lt_map l : StronglySorted row_lt (to_fact <$> l) ↔ StronglySorted row_lt l.
Proof.
  induction l as [|s l IH]; [split; constructor|]. cbn [fmap list_fmap].
  split; intros [Hs Hl]%StronglySorted_inv; (constructor; [by apply IH|]);
    rewrite Forall_forall in Hl; apply Forall_forall; intros x Hx.
  - apply (Hl (to_fact x)). by apply list_elem_of_fmap_2.
  - apply list_elem_of_fmap in Hx as (y & -> & Hy). by apply Hl.
Qed.

(** ** Entries *)

Lemma empty_entry_ok_paths path e :
  (e = empty_entry path ∨ (entry_ok e ∧ pe_path e = path)) →
  pe_path e = path ∧ (∀ d, pe_source e = Some d → sd_path d = path) ∧
  Decode.entity_run_is_canonical path (pe_entities e) = true ∧
  (∀ f, pe_file e = Some f → ff_path f = path).
Proof.
  intros [->|[(_ & Hd & Hc & Hf) <-]]; [|by split_and!].
  split_and!; done.
Qed.

Lemma entry_apply_ok path e op r : po_path op = path → path_op_ok op →
  (e = empty_entry path ∨ (entry_ok e ∧ pe_path e = path)) →
  entry_apply e op = Some r → entry_ok r.
Proof.
  intros Hp [Hoe Hof] He. destruct (empty_entry_ok_paths path e He) as (Hep & Hed & Hec & Hef).
  unfold entry_apply. destruct (entry_is_empty _) eqn:Ee; [done|]. intros [= <-].
  split_and!; [done| | |]; cbn [pe_source pe_entities pe_file pe_path]; rewrite Hep.
  - destruct (po_source op); [exact Hed| |done]. by intros d [= <-].
  - destruct (po_entities op) as [|es|]; [done| |done]. rewrite <-Hp. by apply Hoe.
  - destruct (po_file op) as [|f|]; [exact Hef| |done]. intros f' [= <-]. rewrite <-Hp. by apply Hof.
Qed.

Lemma path_update_ok l op : path_op_ok op → Forall entry_ok l → Forall entry_ok (path_update l op).
Proof.
  intros Hop Hl. apply set_row_forall; [done|]. intros r Hr.
  eapply entry_apply_ok; [reflexivity|done| |exact Hr].
  destruct (find_row (po_path op) l) as [e|] eqn:E; [|by left]. right.
  apply find_row_Some in E as [Hin Hk]. rewrite Forall_forall in Hl. split; [by apply Hl|done].
Qed.

Lemma fold_paths_ok l ops : Forall path_op_ok ops → Forall entry_ok l →
  Forall entry_ok (fold_paths l ops).
Proof.
  intros Hops. revert l. induction Hops as [|op ops Hop Hops IH]; intros l Hl; [done|].
  by apply IH, path_update_ok.
Qed.

(** ** Symbols, validated *)

(** What the validation knows of the symbol it is at. *)
Definition knows (v : Validation) (l : list StoredSymbol) : Prop :=
  va_current_id v ≠ empty_str →
  va_exists v = bool_decide (is_Some (find_row (va_current_id v) l)) ∧
  va_alias v = match find_row (va_current_id v) l with
               | Some s => negb (is_empty (ss_alias_target s)) | None => false end.

(** Rows past the current symbol are still the retained ones. *)
Definition unvisited (t : FactTable) (v : Validation) (l : list StoredSymbol) : Prop :=
  ∀ k, str_lt (va_current_id v) k → find_row k l = find_row k (rows (ft_symbols t)).

Lemma is_empty_spec s : is_empty s = true ↔ s = empty_str.
Proof.
  unfold is_empty. destruct s as [[|b bs] H]; split; intros E; try done.
  by apply str_eq.
Qed.

Lemma symbol_step_ok l op l' : Forall symbol_ok l → StronglySorted row_lt l →
  symbol_op_ok op →
  (∀ id path refs s, op = SymbolReplaceReferencePath id path refs → find_row id l = Some s →
     ss_alias_target s = empty_str) →
  symbol_update l op = Some l' →
  Forall symbol_ok l' ∧ fact_update (to_fact <$> l) op = Some (to_fact <$> l').
Proof.
  intros Hl Hs [_ Hop] Hal. unfold symbol_update, fact_update.
  destruct op as [f|id|id path refs]; cbn [symbol_op_id apply_one_symbol mbind option_bind].
  - intros [= <-]. destruct (from_fact_ok f Hop) as [Hok Hf]. split.
    + apply set_row_forall; [done|]. by intros r [= <-].
    + rewrite set_row_map by done. simpl. by rewrite Hf.
  - intros [= <-]. split; [by apply set_row_forall|]. by rewrite set_row_map.
  - rewrite (find_row_map to_fact) by done. destruct (find_row id l) as [s|] eqn:E; [|done].
    cbn [mbind option_bind fmap option_fmap option_map]. intros [= <-].
    pose proof (Hal id path refs s eq_refl E) as Hae. cbn [sf_alias_target to_fact].
    rewrite (proj2 (is_empty_spec _) Hae).
    destruct (find_row_Some _ _ _ E) as [Hin _]. rewrite Forall_forall in Hl.
    destruct (replace_reference_path_ok s path refs) as [Hok Hf]; [by apply Hl|by eapply Hal|apply Hop..|].
    split.
    + apply set_row_forall; [by apply Forall_forall|]. by intros r [= <-].
    + rewrite set_row_map by done. cbn [fmap option_fmap option_map]. by rewrite Hf.
Qed.

(** The lookup a validation makes when it meets a new symbol. *)
Definition look_up (t : FactTable) (v : Validation) (id : str) : Validation :=
  if str_eqb id (va_current_id v) then v
  else {| va_current_id := id; va_exists := bool_decide (is_Some (index_get (ft_symbols t) id));
          va_alias := match index_get (ft_symbols t) id with
                      | Some s => negb (is_empty (ss_alias_target s)) | None => false end |}.

Lemma look_up_ok t v l id : index_ok (ft_symbols t) → knows v l → unvisited t v l →
  str_le (va_current_id v) id → id ≠ empty_str →
  va_current_id (look_up t v id) = id ∧ knows (look_up t v id) l ∧ unvisited t (look_up t v id) l.
Proof.
  intros Hok Hk Hu Hle Hid. unfold look_up, str_eqb. case_bool_decide as E; [by subst id|].
  assert (Hlt : str_lt (va_current_id v) id) by (destruct Hle; congruence).
  cbn [va_current_id]. split_and!; [done| |].
  - intros _. cbn [va_current_id va_exists va_alias].
    rewrite index_get_spec, (Hu id Hlt) by done. done.
  - intros k Hlt'. cbn [va_current_id] in Hlt'. apply Hu. by etrans.
Qed.

Lemma unvisited_set t v l repl : StronglySorted row_lt l → unvisited t v l →
  (∀ r, repl = Some r → key r = va_current_id v) →
  ∀ v', va_current_id v' = va_current_id v → unvisited t v' (set_row (va_current_id v) repl l).
Proof.
  intros Hs Hu Hk v' Hv k Hlt. rewrite find_set_row by done. rewrite Hv in Hlt.
  destruct (decide (k = va_current_id v)) as [->|_]; [by apply str_lt_irrefl in Hlt|]. by apply Hu.
Qed.

Lemma validate_step t v l op : StronglySorted row_lt l → knows v l → unvisited t v l →
  va_current_id v = symbol_op_id op → symbol_op_id op ≠ empty_str →
  match validate_operation t v op with
  | Ok v' => ∃ l', symbol_update l op = Some l' ∧ knows v' l' ∧ unvisited t v' l' ∧
      va_current_id v' = symbol_op_id op ∧
      ∀ id path refs s, op = SymbolReplaceReferencePath id path refs → find_row id l = Some s →
        ss_alias_target s = empty_str
  | Err e => fact_update (to_fact <$> l) op = None ∧
      match e with MissingSymbol _ => symbol_update l op = None | AliasSymbol _ => True end
  end.
Proof.
  intros Hs Hk Hu Hc Hne. unfold validate_operation. rewrite <-Hc.
  assert (str_eqb (va_current_id v) (va_current_id v) = true) as -> by by apply bool_decide_eq_true.
  specialize (Hk ltac:(by rewrite Hc)) as [Hx Ha]. unfold symbol_update.
  assert (Hset : ∀ repl v', (∀ r, repl = Some r → key r = va_current_id v) →
    va_current_id v' = va_current_id v →
    find_row (va_current_id v) (set_row (va_current_id v) repl l) = repl ∧
    unvisited t v' (set_row (va_current_id v) repl l)).
  { intros repl v' Hrk Hv. split; [by rewrite find_set_row, decide_True|by apply unvisited_set]. }
  destruct op as [f|id|id path refs]; cbn [symbol_op_id apply_one_symbol mbind option_bind] in *.
  - rewrite <-Hc. destruct (Hset (Some (from_fact f))
      {| va_current_id := va_current_id v; va_exists := true;
         va_alias := negb (is_empty (sf_alias_target f)) |}) as [Hf Hun]; [|done|].
    { intros r [= <-]. by rewrite Hc. }
    eexists. split_and!; [done| |exact Hun|done|done].
    intros _. cbn [va_current_id va_exists va_alias]. by rewrite Hf.
  - rewrite <-Hc. destruct (Hset None
      {| va_current_id := va_current_id v; va_exists := false; va_alias := false |})
      as [Hf Hun]; [done|done|].
    eexists. split_and!; [done| |exact Hun|done|done].
    intros _. cbn [va_current_id va_exists va_alias]. by rewrite Hf.
  - unfold fact_update. rewrite (find_row_map to_fact) by done. rewrite <-Hc, Hx.
    destruct (find_row (va_current_id v) l) as [s|] eqn:E; [|done].
    rewrite bool_decide_eq_true_2 by done. cbn [negb]. rewrite Ha. destruct (negb _) eqn:Eal.
    { split; [|done]. apply negb_true_iff in Eal. cbn. by rewrite Eal. }
    assert (Hal : ss_alias_target s = empty_str) by (by apply negb_false_iff, is_empty_spec in Eal).
    destruct (find_row_Some _ _ _ E) as [_ Hkey]. cbn [mbind option_bind].
    destruct (Hset (Some (replace_reference_path s path refs)) v) as [Hf Hun]; [|done|].
    { intros r [= <-]. exact Hkey. }
    eexists. split_and!; [done| |exact Hun|done|].
    + intros _. rewrite Hf, Hx, Ha. split; [done|]. cbn [ss_alias_target replace_reference_path].
      by rewrite Eal.
    + intros id' path' refs' s' [= <- <- <-]. rewrite E. by intros [= <-].
Qed.

Lemma validate_look_up t v op : validate_operation t v op = validate_operation t (look_up t v (symbol_op_id op)) op.
Proof.
  unfold validate_operation, look_up. destruct (str_eqb _ (va_current_id v)) eqn:E; [by rewrite E|].
  cbn [va_current_id].
  by rewrite (proj2 (bool_decide_eq_true _) eq_refl : str_eqb (symbol_op_id op) (symbol_op_id op) = true).
Qed.

Lemma validate_operations_spec t v l ops : index_ok (ft_symbols t) → StronglySorted row_lt l →
  Forall symbol_ok l → knows v l → unvisited t v l →
  StronglySorted str_le (va_current_id v :: (symbol_op_id <$> ops)) → Forall symbol_op_ok ops →
  match validate_operations t v ops with
  | Ok _ => ∃ l', fold_symbols l ops = Some l' ∧ Forall symbol_ok l' ∧
      fold_facts (to_fact <$> l) ops = Some (to_fact <$> l')
  | Err e => fold_facts (to_fact <$> l) ops = None ∧
      match e with MissingSymbol _ => fold_symbols l ops = None | AliasSymbol _ => True end
  end.
Proof.
  intros Hok. revert v l. induction ops as [|op ops IH]; intros v l Hs Hl Hk Hu Hle Hops.
  { by exists l. }
  cbn [fmap list_fmap] in Hle. inversion Hops as [|? ? Hop Hops']; subst.
  apply StronglySorted_inv in Hle as [Hle Hv]. inversion Hv as [|? ? Hv1 _]; subst.
  destruct (look_up_ok t v l (symbol_op_id op)) as (Hc & Hk1 & Hu1); [done..|by destruct Hop|].
  cbn [validate_operations fold_symbols fold_facts]. rewrite validate_look_up.
  pose proof (validate_step t _ l op Hs Hk1 Hu1 Hc ltac:(by destruct Hop)) as Hstep.
  destruct (validate_operation t _ op) as [v'|e].
  2:{ cbn [mbind result_bind]. destruct Hstep as [-> Hm]. split; [done|]. destruct e; [by rewrite Hm|done]. }
  destruct Hstep as (l1 & Hl1 & Hk2 & Hu2 & Hc2 & Hal).
  destruct (symbol_step_ok l op l1 Hl Hs Hop Hal Hl1) as [Hok1 Hf1].
  cbn [mbind result_bind]. rewrite Hl1, Hf1. cbn [mbind option_bind].
  apply IH; [by eapply symbol_update_sorted|done|done|done| |done]. by rewrite Hc2.
Qed.

Lemma validate_delta_spec t tr : table_ok t → transition_ok tr →
  match validate_delta t tr with
  | Ok _ => ∃ l', fold_symbols (rows (ft_symbols t)) (wt_symbols tr) = Some l' ∧
      Forall symbol_ok l' ∧ fold_facts (symbols t) (wt_symbols tr) = Some (to_fact <$> l')
  | Err e => fold_facts (symbols t) (wt_symbols tr) = None ∧
      match e with
      | MissingSymbol _ => fold_symbols (rows (ft_symbols t)) (wt_symbols tr) = None
      | AliasSymbol _ => True
      end
  end.
Proof.
  intros (_ & _ & _ & Hok & Hsym) (_ & _ & Hord & Hops & _).
  apply (validate_operations_spec t _ (rows (ft_symbols t))); [done| |done|done|done| |done].
  - apply Hok.
  - constructor; [done|]. apply Forall_forall. intros k _. cbn [va_current_id].
    destruct (str_lt_trichotomy empty_str k) as [?|[?|Hlt]]; [by left|by right|].
    by destruct k as [[|b bs] Hb].
Qed.

(** ** The delta *)

Lemma apply_paths_spec t ops : table_ok t → StronglySorted str_lt (po_path <$> ops) →
  ∃ idx a b c, apply_paths t ops = Some (idx, a, b, c) ∧ index_ok idx ∧
    rows idx = fold_paths (rows (ft_paths t)) ops ∧ counts_of (rows idx) = (a, b, c).
Proof.
  intros (Hok & _ & Hc & _) Hord. unfold apply_paths. destruct (_ <=? _)%nat.
  - assert (Hs : StronglySorted row_lt (rows (ft_paths t))) by apply Hok.
    pose proof (merge_paths_fold _ _ Hs Hord) as Hm.
    destruct (from_sorted_ok (merge_paths (rows (ft_paths t)) ops)) as [Hok' Hr].
    { rewrite Hm. by apply fold_paths_sorted. }
    do 4 eexists. split_and!; [reflexivity|done| |done].
    unfold apply_path_operations_linear. by rewrite Hr, Hm.
  - apply sparse_paths_fold; [done|]. exact Hc.
Qed.

Lemma apply_symbols_spec t ops : table_ok t → StronglySorted str_le (symbol_op_id <$> ops) →
  match apply_symbols t ops with
  | Some idx => index_ok idx ∧ fold_symbols (rows (ft_symbols t)) ops = Some (rows idx)
  | None => fold_symbols (rows (ft_symbols t)) ops = None
  end.
Proof.
  intros (_ & _ & _ & Hok & _) Hord. unfold apply_symbols. destruct (_ <=? _)%nat.
  - assert (Hs : StronglySorted row_lt (rows (ft_symbols t))) by apply Hok.
    unfold apply_symbol_operations_linear. rewrite (merge_symbols_fold _ _ _ (le_n _) Hs Hord).
    destruct (fold_symbols _ ops) as [l|] eqn:E; [|done]. simpl.
    destruct (from_sorted_ok l) as [? ->]; [by eapply fold_symbols_sorted|]. done.
  - by apply sparse_symbols_fold.
Qed.

(** A validated delta: applied without a panic, to the reference's facts. *)
Lemma apply_delta_spec t tr : table_ok t → transition_ok tr → validate_delta t tr = Ok tt →
  ∃ t', apply_delta t tr = Some t' ∧ table_ok t' ∧ apply_facts (facts t) tr = Some (facts t') ∧
    ft_schema t' = wt_table_schema tr ∧ ft_generation t' = wt_target_generation tr ∧
    ft_project_id t' = ft_project_id t.
Proof.
  intros Ht Htr Hv. pose proof (validate_delta_spec t tr Ht Htr) as Hspec. rewrite Hv in Hspec.
  destruct Hspec as (l' & Hl' & Hok' & Hf). destruct Htr as (Hpo & Hpok & Hso & _ & _).
  destruct (apply_paths_spec t (wt_paths tr) Ht Hpo) as (idx & a & b & c & E & Hidx & Hrows & Hc).
  pose proof (apply_symbols_spec t (wt_symbols tr) Ht Hso) as Hsym.
  unfold apply_delta. rewrite E. cbn [mbind option_bind]. destruct (apply_symbols t _) as [sidx|]; [|congruence].
  destruct Hsym as [Hsok Hsr]. rewrite Hsr in Hl'. injection Hl' as <-.
  cbn [mbind option_bind]. eexists. split_and!; try reflexivity; cbn; try done.
  - split_and!; cbn; [done| |done|done|done]. rewrite Hrows. apply fold_paths_ok; [done|apply Ht].
  - unfold apply_facts, facts. cbn [fst snd ft_paths]. rewrite Hf. cbn. by rewrite Hrows.
Qed.

(** ** The full transition *)

Definition no_facts : list PathEntry * list SymbolFact := ([], []).

Lemma full_entry_apply op : entry_apply (empty_entry (po_path op)) op =
  if entry_is_empty (full_entry op) then None else Some (full_entry op).
Proof. unfold entry_apply, full_entry, empty_entry. by destruct op as [? [] [] []]. Qed.

Lemma fold_paths_empty ops : StronglySorted str_lt (po_path <$> ops) →
  fold_paths [] ops = filter (λ e, entry_is_empty e = false) (full_entry <$> ops).
Proof.
  intros Hs. rewrite <-(merge_paths_fold [] ops) by (done || constructor).
  clear Hs. induction ops as [|op ops IH]; [done|]. cbn [merge_paths span_below take_at fmap list_fmap default].
  rewrite IH. change (id (empty_entry (po_path op))) with (empty_entry (po_path op)).
  cbn [from_option]. rewrite full_entry_apply. destruct (entry_is_empty (full_entry op)) eqn:E.
  - by rewrite filter_cons_False by (by rewrite E).
  - by rewrite filter_cons_True.
Qed.

Definition replaced (op : SymbolOp) : list SymbolFact :=
  match op with SymbolReplace f => [f] | _ => [] end.

Lemma fold_facts_append l ops : Forall (λ op, is_replace op = true) ops →
  StronglySorted str_lt (symbol_op_id <$> ops) →
  (∀ f op, f ∈ l → op ∈ ops → str_lt (sf_id f) (symbol_op_id op)) →
  fold_facts l ops = Some (l ++ (ops ≫= replaced)).
Proof.
  intros Hr. revert l. induction Hr as [|op ops Hop Hr IH]; intros l Hs Hlt.
  { by rewrite app_nil_r. }
  destruct op as [f| |]; [|done..]. cbn [fold_facts fact_update mbind option_bind list_bind replaced].
  cbn [fmap list_fmap symbol_op_id] in Hs. apply StronglySorted_inv in Hs as [Hs Hf].
  pose proof (set_row_split (sf_id f) (Some f) l [] []) as E. rewrite !app_nil_r in E. rewrite E.
  - rewrite IH; [by rewrite <-app_assoc|done|]. intros g op [Hg|Hg]%elem_of_app Hop'.
    + apply Hlt; [done|by right].
    + apply list_elem_of_singleton in Hg as ->. rewrite Forall_forall in Hf.
      apply Hf, list_elem_of_fmap. eauto.
  - intros g Hg. by apply (Hlt g (SymbolReplace f) Hg (list_elem_of_here _ _)).
  - intros g Hg. by apply elem_of_nil in Hg.
  - intros g Hg. by apply elem_of_nil in Hg.
Qed.

Lemma full_symbols ops : Forall (λ op, is_replace op = true) ops → Forall symbol_op_ok ops →
  ∃ l, mapM full_symbol ops = Some l ∧ Forall symbol_ok l ∧ to_fact <$> l = ops ≫= replaced.
Proof.
  intros Hr Hok. induction Hok as [|op ops Hop Hok IH]; [by exists []|].
  inversion Hr as [|? ? Hr1 Hr2]; subst. destruct (IH Hr2) as (l & E & Hl & Hf).
  destruct op as [f| |]; [|done..]. destruct Hop as [_ Hop]. destruct (from_fact_ok f Hop) as [H1 H2].
  exists (from_fact f :: l). cbn [mapM full_symbol mbind option_bind]. rewrite E. split_and!; [done|by constructor|].
  cbn [fmap list_fmap mbind list_bind replaced]. by rewrite H2, Hf.
Qed.

(** A full transition materialises to what its operations give an empty table. *)
Lemma materialize_full_spec tr : wt_mode tr = Full → transition_ok tr →
  ∃ t, materialize_full tr = Some t ∧ table_ok t ∧ apply_facts no_facts tr = Some (facts t) ∧
    ft_schema t = wt_table_schema tr ∧ ft_generation t = wt_target_generation tr ∧
    ft_project_id t = wt_project_id tr.
Proof.
  intros Hm (Hpo & Hpok & _ & Hsok & Hfull). destruct (Hfull Hm) as [Hrep Hord].
  destruct (full_symbols _ Hrep Hsok) as (l & E & Hl & Hf). unfold materialize_full. rewrite E.
  cbn [mbind option_bind]. pose proof (fold_paths_empty _ Hpo) as Hp.
  assert (Hps : StronglySorted row_lt (fold_paths [] (wt_paths tr))) by (apply fold_paths_sorted; constructor).
  rewrite <-Hp. destruct (from_sorted_ok _ Hps) as [Hi Hr].
  assert (Hls : StronglySorted row_lt l).
  { apply row_lt_map. rewrite Hf. clear -Hord Hrep.
    induction Hrep as [|op ops Hop Hrep IH]; [constructor|]. destruct op as [f| |]; [|done..].
    cbn [fmap list_fmap symbol_op_id] in Hord. apply StronglySorted_inv in Hord as [Hord Hlt].
    cbn [mbind list_bind replaced app]. constructor; [by apply IH|]. apply Forall_forall. intros g Hg.
    apply list_elem_of_bind in Hg as (op & Hg & Hop'). rewrite Forall_forall in Hlt.
    destruct op as [f'|?|? ? ?]; [|by apply elem_of_nil in Hg..].
    apply list_elem_of_singleton in Hg as ->. apply Hlt, list_elem_of_fmap.
    by exists (SymbolReplace f'). }
  destruct (from_sorted_ok l Hls) as [Hi' Hr'].
  eexists. split_and!; try reflexivity; cbn.
  - split_and!; cbn; [done| |by rewrite Hr|done|by rewrite Hr'].
    rewrite Hr. apply fold_paths_ok; [done|constructor].
  - unfold apply_facts, facts, symbols, no_facts. cbn [fst snd ft_paths ft_symbols].
    rewrite (fold_facts_append [] _ Hrep Hord) by (intros ? ? Hx; by apply elem_of_nil in Hx).
    cbn. by rewrite Hr, Hr', Hf.
Qed.

(** * What a decoded transition promises

    A Hoare rule set for readers ([yields]) and the promises of
    [decode_table_transition]: paths strictly ordered, runs and references in
    order and in their own path, symbol operations ordered by key, no removal
    in a full transition.  A retained table relies on exactly these
    ([transition_ok]). *)

(** ** Readers *)

Definition yields {A} (m : reader A) (Q : A → Prop) : Prop :=
  ∀ c a c', m c = Ok (a, c') → Q a.

Lemma yields_any {A} (m : reader A) : yields m (λ _, True).
Proof. by intros c a c'. Qed.

Lemma yields_ret {A} (Q : A → Prop) a : Q a → yields (mret a) Q.
Proof. intros HQ c b c' [= <- <-]. exact HQ. Qed.

Lemma yields_bind {A B} (m : reader A) (k : A → reader B) P Q :
  yields m P → (∀ a, P a → yields (k a) Q) → yields (m ≫= k) Q.
Proof.
  intros Hm Hk c b c' E. unfold mbind, reader_bind in E.
  destruct (m c) as [[a c1]|] eqn:Em; [|done]. by eapply Hk; [eapply Hm|].
Qed.

(** A read whose value no promise depends on. *)
Lemma yields_skip {A B} (m : reader A) (k : A → reader B) Q :
  (∀ a, yields (k a) Q) → yields (m ≫= k) Q.
Proof. intros Hk. apply (yields_bind m k (λ _, True)); [apply yields_any|by intros a _]. Qed.

Lemma yields_ensure {B} (ok : bool) e (k : () → reader B) Q :
  (ok = true → yields (k tt) Q) → yields (ensure_read ok e ≫= k) Q.
Proof. destruct ok; [intros Hk; by apply Hk|by intros _ c b c' [=]]. Qed.

Lemma yields_lift {A B} (r : result DecodeError A) (k : A → reader B) Q :
  (∀ a, r = Ok a → yields (k a) Q) → yields (lift r ≫= k) Q.
Proof. intros Hk. destruct r as [a|e]; [exact (Hk a eq_refl)|by intros c b c' [=]]. Qed.

(** A counted loop: each round's promise, and the state it hands on. *)
Lemma yields_repeat {A St} (m : St → reader (A * St)) (R : St → A → St → Prop) (I : St → list A → Prop) :
  (∀ s, yields (m s) (λ p, R s p.1 p.2)) → (∀ s, I s []) →
  (∀ s a s' l, R s a s' → I s' l → I s (a :: l)) →
  ∀ n s, yields (repeat_state n m s) (I s).
Proof.
  intros Hm Hnil Hcons. induction n as [|n IH]; intros s; simpl; [by apply yields_ret|].
  eapply yields_bind; [apply Hm|]. intros [a s'] Hr. simpl in Hr.
  eapply yields_bind; [apply IH|]. intros l Hl. apply yields_ret. by eapply Hcons.
Qed.

(** ** Path operations *)

Lemma read_slot_yields {A} tag (m : reader A) (Q : A → Prop) : yields m Q →
  yields (Decode.read_slot tag m) (λ op, (tag = 0%N ↔ op = SlotUnchanged) ∧ (tag = 2%N ↔ op = SlotRemove) ∧
    ∀ a, op = SlotReplace a → Q a).
Proof.
  intros Hm. unfold Decode.read_slot. destruct tag as [|[p|[p|p|]|]]; try by intros c b c' [=].
  - apply yields_ret. naive_solver.
  - apply yields_ret. naive_solver.
  - eapply yields_bind; [exact Hm|]. intros a Ha. apply yields_ret. naive_solver.
Qed.

Lemma entity_slot_yields strings path schema :
  yields (Decode.entity_slot strings path schema)
    (λ es, es ≠ [] ∧ Decode.entity_run_is_canonical path es = true).
Proof.
  unfold Decode.entity_slot. apply yields_skip. intros es. apply yields_ensure. intros Hne.
  apply yields_ensure. intros Hc. apply yields_ret. split; [|done].
  by apply negb_true_iff, bool_decide_eq_false in Hne.
Qed.

Lemma file_fact_yields strings path :
  yields (Decode.file_fact strings path) (λ f, ff_path f = path).
Proof.
  unfold Decode.file_fact. repeat (apply yields_skip; intros ?). by apply yields_ret.
Qed.

(** A path operation names a path past the previous one and changes it. *)
Definition path_promise (mode : TransitionMode) (previous : option str) (op : PathOp)
    (next : option str) : Prop :=
  next = Some (po_path op) ∧ po_path op ≠ empty_str ∧
  match previous with Some p => str_lt p (po_path op) | None => True end ∧ path_op_ok op ∧
  ¬ (po_source op = SlotUnchanged ∧ po_entities op = SlotUnchanged ∧ po_file op = SlotUnchanged) ∧
  (mode = Full → po_source op ≠ SlotRemove ∧ po_entities op ≠ SlotRemove ∧ po_file op ≠ SlotRemove).

Lemma path_operation_yields strings mode schema previous :
  yields (Decode.path_operation strings mode schema previous)
    (λ p, path_promise mode previous p.1 p.2).
Proof.
  unfold Decode.path_operation. apply yields_skip. intros path. apply yields_ensure. intros Hpath.
  apply yields_ensure. intros Hprev. apply yields_skip. intros flags. apply yields_ensure. intros _.
  apply yields_skip. intros t1. apply yields_skip. intros t2. apply yields_skip. intros t3.
  apply yields_ensure. intros Hch. apply yields_ensure. intros Hfull.
  eapply yields_bind; [apply (read_slot_yields _ _ (λ _, True)), yields_any|]. intros s (S0 & S2 & _).
  eapply yields_bind; [apply read_slot_yields, entity_slot_yields|]. intros es (E0 & E2 & Ees).
  eapply yields_bind; [apply read_slot_yields, file_fact_yields|]. intros f (F0 & F2 & Ff).
  apply yields_ret. unfold path_promise. cbn [fst snd po_path po_source po_entities po_file].
  split_and!; [done| | | | |].
  - intros ->. done.
  - destruct previous; [by apply str_ltb_lt|done].
  - split; cbn [po_entities po_file po_path]; [|exact Ff]. intros es' Hes. by apply Ees.
  - intros (Hs & He & Hf). apply S0 in Hs as ->. apply E0 in He as ->. apply F0 in Hf as ->. done.
  - intros ->. rewrite bool_decide_eq_true_2 in Hfull by done.
    split_and!; intros Hx; [apply S2 in Hx as ->|apply E2 in Hx as ->|apply F2 in Hx as ->]; simpl in Hfull;
      by rewrite ?orb_true_r in Hfull.
Qed.

(** ** Symbol operations *)

Definition key_lt (x y : Decode.SymbolKey) : Prop := Decode.symbol_key_ltb x y = true.

Lemma key_lt_spec x y : key_lt x y ↔
  str_lt x.1.1 y.1.1 ∨ x.1.1 = y.1.1 ∧ ((x.1.2 < y.1.2)%N ∨ x.1.2 = y.1.2 ∧ str_lt x.2 y.2).
Proof.
  unfold key_lt, Decode.symbol_key_ltb. unfold str_lt at 1. destruct (str_cmp x.1.1 y.1.1) eqn:E.
  - apply str_cmp_lt_eq in E. rewrite E. destruct (N.compare_spec x.1.2 y.1.2).
    + rewrite str_ltb_lt. naive_solver lia.
    + naive_solver.
    + split; [done|]. intros [?|[_ ?]]; [done|lia].
  - naive_solver.
  - split; [done|]. intros [?|[Hp _]]; [done|]. apply str_cmp_lt_eq in Hp. congruence.
Qed.

#[global] Instance key_lt_trans : Transitive key_lt.
Proof.
  intros x y z. rewrite !key_lt_spec. intros [H1|[E1 H1]] [H2|[E2 H2]].
  - left. by etrans.
  - left. by rewrite <-E2.
  - left. by rewrite E1.
  - right. split; [congruence|]. destruct H1 as [H1|[F1 H1]], H2 as [H2|[F2 H2]]; [left; lia..|].
    right. split; [congruence|by etrans].
Qed.

(** The key a decoder orders an operation by. *)
Definition op_key (op : SymbolOp) : Decode.SymbolKey :=
  match op with
  | SymbolReplace f => (sf_id f, 0%N, empty_str)
  | SymbolRemove id => (id, 1%N, empty_str)
  | SymbolReplaceReferencePath id path _ => (id, 2%N, path)
  end.

Lemma op_key_id op : (op_key op).1.1 = symbol_op_id op.
Proof. by destruct op. Qed.

Lemma forallb_path path refs :
  forallb (λ r, str_eqb (loc_path r) path) refs = true → Forall (λ l, loc_path l = path) refs.
Proof.
  intros Hr. apply Forall_forall. intros l Hl. rewrite forallb_forall in Hr.
  apply list_elem_of_In, Hr in Hl. by apply bool_decide_eq_true in Hl.
Qed.

Lemma symbol_body_yields strings id tag : id ≠ empty_str →
  yields (Decode.symbol_body strings id tag)
    (λ p, op_key p.1 = (id, tag, p.2) ∧ symbol_op_ok p.1 ∧ (tag = 0%N → is_replace p.1 = true)).
Proof.
  intros Hid. unfold Decode.symbol_body. destruct tag as [|[p|[p|p|]|]]; try by intros c b c' [=].
  - apply yields_skip. intros al. apply yields_skip. intros ds. apply yields_skip. intros refs.
    apply yields_ensure. intros Hc. apply yields_ensure. intros Ha. apply yields_ret.
    split_and!; [done| |done]. split; [done|]. split; [by apply canonical_sorted|].
    cbn [sf_alias_target sf_references]. intros Hne. apply orb_true_iff in Ha as [Ha|Ha].
    + by apply is_empty_spec in Ha.
    + by apply bool_decide_eq_true in Ha.
  - apply yields_skip. intros path. apply yields_ensure. intros Hp. apply yields_skip. intros refs.
    apply yields_ensure. intros [Hf Hc]%andb_true_iff. apply yields_ret.
    split_and!; [done| |done]. split; [done|]. split; [by apply forallb_path|by apply canonical_sorted].
  - apply yields_ret. by split_and!.
Qed.

Definition symbol_promise (mode : TransitionMode) (previous : option Decode.SymbolKey)
    (op : SymbolOp) (next : option Decode.SymbolKey) : Prop :=
  next = Some (op_key op) ∧ match previous with Some key => key_lt key (op_key op) | None => True end ∧
  symbol_op_ok op ∧ (mode = Full → is_replace op = true).

Lemma symbol_id_yields strings mode :
  yields (Decode.symbol_id strings mode) (λ p, p.1 ≠ empty_str ∧ (mode = Full → p.2 = 0%N)).
Proof.
  unfold Decode.symbol_id. apply yields_skip. intros header. apply yields_skip. intros [value tag].
  apply yields_skip. intros i. apply yields_skip. intros id. apply yields_ensure. intros Hid.
  apply yields_ensure. intros Hf. apply yields_ret. cbn [fst snd]. split.
  - intros ->. done.
  - intros ->. rewrite bool_decide_eq_true_2 in Hf by done. by destruct (N.eqb_spec tag 0).
Qed.

Lemma symbol_operation_yields strings mode previous :
  yields (Decode.symbol_operation strings mode previous) (λ p, symbol_promise mode previous p.1 p.2).
Proof.
  unfold Decode.symbol_operation. eapply yields_bind; [apply symbol_id_yields|].
  intros [id tag] [Hid Hfull]. cbn [fst snd] in *.
  eapply yields_bind; [by apply symbol_body_yields|]. intros [op path] (Hk & Hok & Hr).
  cbn [fst snd] in *. cbv zeta. apply yields_ensure. intros Hprev. apply yields_ret.
  split_and!; cbn [fst snd]; [by rewrite Hk| |done|].
  - rewrite Hk. by destruct previous.
  - intros Hm. by apply Hr, Hfull.
Qed.

(** ** The transition *)

Definition paths_promise (mode : TransitionMode) (previous : option str) (ops : list PathOp) : Prop :=
  StronglySorted str_lt (option_list previous ++ (po_path <$> ops)) ∧
  Forall (λ op, ∃ p n, path_promise mode p op n) ops.

Definition symbols_promise (mode : TransitionMode) (previous : option Decode.SymbolKey)
    (ops : list SymbolOp) : Prop :=
  StronglySorted key_lt (option_list previous ++ (op_key <$> ops)) ∧
  Forall (λ op, symbol_op_ok op ∧ (mode = Full → is_replace op = true)) ops.

Lemma sorted_step {K} (R : K → K → Prop) `{!Transitive R} (previous : option K) k ks :
  match previous with Some p => R p k | None => True end →
  StronglySorted R (k :: ks) → StronglySorted R (option_list previous ++ k :: ks).
Proof.
  intros Hp Hs. destruct previous as [p|]; [|done]. simpl. constructor; [done|].
  apply StronglySorted_inv in Hs as [_ Hs]. constructor; [done|].
  eapply Forall_impl; [exact Hs|]. intros k' Hk. by etrans.
Qed.

Lemma path_loop strings mode schema n :
  yields (repeat_state n (Decode.path_operation strings mode schema) None) (paths_promise mode None).
Proof.
  apply (yields_repeat _ (path_promise mode)); [apply path_operation_yields| |].
  - intros s. split; [destruct s; repeat constructor|constructor].
  - intros s op s' l Hop [Hs Hl]. pose proof Hop as (-> & _ & Hp & _). split.
    + by apply (sorted_step str_lt).
    + constructor; [by exists s, (Some (po_path op))|done].
Qed.

Lemma symbol_loop strings mode n :
  yields (repeat_state n (Decode.symbol_operation strings mode) None) (symbols_promise mode None).
Proof.
  apply (yields_repeat _ (symbol_promise mode)); [apply symbol_operation_yields| |].
  - intros s. split; [destruct s; repeat constructor|constructor].
  - intros s op s' l (-> & Hp & Hok & Hm) [Hs Hl]. split.
    + by apply (sorted_step key_lt).
    + by constructor.
Qed.

(** Everything the reader checks of a whole transition. *)
Definition transition_promise (t : WireTableTransition) : Prop :=
  existsb (N.eqb (wt_table_schema t)) supported_table_schemas = true ∧
  wt_target_generation t ≠ 0%N ∧ wt_project_id t ≠ empty_str ∧
  Decode.check_base (wt_mode t) (wt_base_generation t) (wt_target_generation t)
    (wt_base_state_token t) = Ok tt ∧
  paths_promise (wt_mode t) None (wt_paths t) ∧ symbols_promise (wt_mode t) None (wt_symbols t).

Lemma operations_yields strings mode schema bg tg :
  yields (Decode.operations strings mode schema bg tg)
    (λ '(project, token, paths, symbols), project ≠ empty_str ∧
       Decode.check_base mode bg tg token = Ok tt ∧
       paths_promise mode None paths ∧ symbols_promise mode None symbols).
Proof.
  unfold Decode.operations. apply yields_skip. intros project. apply yields_ensure. intros Hp.
  apply yields_skip. intros token. apply yields_lift. intros [] Hb.
  apply yields_skip. intros n. eapply yields_bind; [apply path_loop|]. intros paths Hpaths.
  apply yields_skip. intros m. eapply yields_bind; [apply symbol_loop|]. intros symbols Hsymbols.
  apply yields_ret. split_and!; [by intros ->|done|done|done].
Qed.

Lemma transition_yields : yields Decode.transition transition_promise.
Proof.
  unfold Decode.transition. apply yields_skip. intros version. apply yields_ensure. intros _.
  apply yields_skip. intros mode_tag. apply yields_skip. intros mode. apply yields_skip. intros schema.
  apply yields_ensure. intros Hs. apply yields_skip. intros bg. apply yields_skip. intros tg.
  apply yields_ensure. intros Hg. apply yields_skip. intros strings.
  eapply yields_bind; [apply operations_yields|].
  intros [[[project token] paths] symbols] (Hp & Hb & Hpaths & Hsymbols).
  apply yields_skip. intros _. apply yields_ret. split_and!; cbn; try done.
  by apply negb_true_iff, N.eqb_neq in Hg.
Qed.

Lemma decoded_promise bytes t : decode_table_transition bytes = Ok t → transition_promise t.
Proof.
  unfold decode_table_transition, mbind, result_bind.
  destruct (Decode.transition (Cursor.new bytes)) as [[t' c]|] eqn:E; [|done]. intros [= <-].
  by eapply transition_yields.
Qed.

Lemma sorted_keys_ids ops : StronglySorted key_lt (op_key <$> ops) →
  StronglySorted str_le (symbol_op_id <$> ops) ∧
  (Forall (λ op, is_replace op = true) ops → StronglySorted str_lt (symbol_op_id <$> ops)).
Proof.
  induction ops as [|op ops IH]; intros Hs; [split; [|intros _]; constructor|].
  cbn [fmap list_fmap] in *. apply StronglySorted_inv in Hs as [Hs Hop].
  destruct (IH Hs) as [H1 H2]. rewrite Forall_forall in Hop.
  assert (Hlt : ∀ op', op' ∈ ops → key_lt (op_key op) (op_key op')).
  { intros op' Hin. apply Hop, list_elem_of_fmap. eauto. }
  split.
  - constructor; [done|]. apply Forall_forall. intros k (op' & -> & Hin)%list_elem_of_fmap.
    destruct (proj1 (key_lt_spec _ _) (Hlt op' Hin)) as [Hx|[Hx _]]; rewrite !op_key_id in Hx;
      [by left|by right].
  - intros Hr. inversion Hr as [|? ? Hr1 Hr2]; subst. constructor; [by apply H2|].
    apply Forall_forall. intros k (op' & -> & Hin)%list_elem_of_fmap. rewrite Forall_forall in Hr2.
    specialize (Hr2 op' Hin). pose proof (proj1 (key_lt_spec _ _) (Hlt op' Hin)) as Hx.
    destruct op as [f| |]; [|done..]. destruct op' as [f'| |]; [|done..]. simpl in Hx.
    destruct Hx as [?|[_ [?|[_ Hx]]]]; [done|lia|by apply str_lt_irrefl in Hx].
Qed.

Lemma promise_ok t : transition_promise t → transition_ok t.
Proof.
  intros (_ & _ & _ & _ & [Hp Hpok] & [Hs Hsok]). destruct (sorted_keys_ids _ Hs) as [H1 H2].
  split_and!; [done| |done| |].
  - eapply Forall_impl; [exact Hpok|]. by intros op (p & n & _ & _ & _ & ? & _).
  - eapply Forall_impl; [exact Hsok|]. by intros op [? _].
  - intros Hm. assert (Hr : Forall (λ op, is_replace op = true) (wt_symbols t)).
    { eapply Forall_impl; [exact Hsok|]. intros op [_ ?]. auto. }
    split; [done|by apply H2].
Qed.

Lemma decoded_ok bytes t : decode_table_transition bytes = Ok t → transition_ok t.
Proof. intros E. by eapply promise_ok, decoded_promise. Qed.


(** ** The decoder does not panic

    [DecodePanic] stands for the one indexing of the reader ([strings[path]] in
    [PackedCursor::location]) and its [unreachable!] arms.  No bytes reach
    them: a location's path is checked against the dictionary when it is read
    and carried over unchanged, and a slot's or an operation's tag has been
    narrowed to the three the arms cover. *)

(** A reader that never panics and whose results satisfy [Q]. *)
Definition calm {A} (m : reader A) (Q : A → Prop) : Prop :=
  ∀ c, match m c with Ok (a, _) => Q a | Err e => e ≠ DecodePanic end.
Notation "'quiet' m" := (calm m (λ _, True)) (at level 10, m at level 9).

Lemma calm_bind {A B} (m : reader A) (k : A → reader B) P Q :
  calm m P → (∀ a, P a → calm (k a) Q) → calm (m ≫= k) Q.
Proof.
  intros Hm Hk c. unfold mbind, reader_bind. specialize (Hm c).
  destruct (m c) as [[a c']|e]; [|done]. by apply Hk.
Qed.

Lemma calm_seq {A B} (m : reader A) (k : A → reader B) Q :
  quiet m → (∀ a, calm (k a) Q) → calm (m ≫= k) Q.
Proof. intros Hm Hk. eapply calm_bind; [exact Hm|auto]. Qed.

Lemma calm_any {A} (m : reader A) Q : calm m Q → quiet m.
Proof. intros Hm c. specialize (Hm c). by destruct (m c) as [[]|]. Qed.

Lemma calm_ret {A} (a : A) (Q : A → Prop) : Q a → calm (mret a) Q.
Proof. intros Ha c. exact Ha. Qed.

Lemma calm_fail {A} e (Q : A → Prop) : e ≠ DecodePanic → calm (fail e) Q.
Proof. intros He c. exact He. Qed.

Lemma calm_lift {A} (r : result DecodeError A) : r ≠ Err DecodePanic → quiet (lift r).
Proof. intros Hr c. unfold lift. destruct r as [a|e]; [done|]. intros ->. done. Qed.

Lemma calm_lift_bind {A B} (r : result DecodeError A) (k : A → reader B) Q :
  r ≠ Err DecodePanic → (∀ a, r = Ok a → calm (k a) Q) → calm (lift r ≫= k) Q.
Proof.
  intros Hr Hk c. unfold mbind, reader_bind, lift. destruct r as [a|e]; [by apply Hk|]. by intros ->.
Qed.

Lemma ok_or_calm {A} e (o : option A) : e ≠ DecodePanic → ok_or e o ≠ Err DecodePanic.
Proof. destruct o; [done|]. intros He [= ->]. done. Qed.

Lemma calm_ensure {B} b e (k : () → reader B) Q : e ≠ DecodePanic →
  (b = true → calm (k tt) Q) → calm (ensure_read b e ≫= k) Q.
Proof. intros He Hk c. unfold ensure_read, mbind, reader_bind. destruct b; [by apply Hk|exact He]. Qed.

Lemma calm_read_if {A} b (m : reader A) : quiet m → quiet (read_if b m).
Proof. intros Hm. destruct b; [|by apply calm_ret]. apply calm_seq; [done|]. intros a. by apply calm_ret. Qed.

Lemma calm_repeat {A} n (m : reader A) : quiet m → quiet (repeat_read n m).
Proof.
  intros Hm. induction n as [|n IH]; [by apply calm_ret|]. apply calm_seq; [done|]. intros a.
  apply calm_seq; [done|]. intros l. by apply calm_ret.
Qed.

Lemma calm_repeat_state {S A} (I : S → Prop) n (m : S → reader (A * S)) s :
  (∀ s, I s → calm (m s) (λ p, I p.2)) → I s → quiet (repeat_state n m s).
Proof.
  intros Hm. revert s. induction n as [|n IH]; intros s Hs; [by apply calm_ret|].
  eapply calm_bind; [by apply Hm|]. intros [a s'] Hs'. apply calm_seq; [by apply IH|].
  intros l. by apply calm_ret.
Qed.

(** The cursor. *)
Lemma next_byte_calm : quiet Cursor.next_byte.
Proof. intros c. unfold Cursor.next_byte. by destruct (input c !! offset c). Qed.

Lemma raw_calm n : quiet (Cursor.raw n).
Proof. intros c. unfold Cursor.raw. destruct (checked_add _ _); [|done]. by destruct (_ <=? _)%N. Qed.

Lemma u64_loop_calm shifts value : quiet (Cursor.u64_loop shifts value).
Proof.
  revert value. induction shifts as [|s shifts IH]; intros value; [by apply calm_fail|].
  apply calm_seq; [apply next_byte_calm|]. intros b. destruct (_ && _); [by apply calm_fail|].
  cbv zeta. destruct (_ =? 0)%N; [|apply IH]. destruct (_ && _); [by apply calm_fail|by apply calm_ret].
Qed.

Lemma u64_calm : quiet Cursor.u64.
Proof. apply u64_loop_calm. Qed.

Create HintDb calm.
#[export] Hint Resolve u64_calm raw_calm calm_any : calm.

(** A parser of a tag gives an error of its own, never a panic. *)
Ltac parse_calm := intros; repeat (case_match; try discriminate).

(** One step of a reader that ends in no location state. *)
Ltac calm_step :=
  match goal with
  | |- calm (let '(_, _) := ?p in _) _ => destruct p
  | |- calm (mret _) _ => apply calm_ret; done
  | |- calm (fail _) _ => apply calm_fail; done
  | |- calm (ensure_read _ _ ≫= _) _ => apply calm_ensure; [done|intros _]
  | |- calm (lift (ok_or _ _) ≫= _) _ => apply calm_lift_bind; [by apply ok_or_calm|intros ? _]
  | |- calm (_ ≫= _) _ => apply calm_seq; [solve [auto with calm nocore]|intros]
  | |- calm (if ?b then _ else _) _ => destruct b
  | |- calm (read_if _ _) _ => apply calm_read_if
  | |- calm (repeat_read _ _) _ => apply calm_repeat
  | |- calm _ _ => solve [auto with calm nocore]
  end.

Lemma signed_calm : quiet Cursor.signed.
Proof. unfold Cursor.signed. repeat calm_step. Qed.

Lemma count_calm label : quiet (Cursor.count label).
Proof. unfold Cursor.count. repeat calm_step. Qed.

Lemma boolean_calm label : quiet (Cursor.boolean label).
Proof. unfold Cursor.boolean. repeat calm_step. Qed.
#[export] Hint Resolve signed_calm count_calm boolean_calm : calm.

Section calm.
Context (strings : list str).

Lemma string_index_calm label : quiet (Decode.string_index strings label).
Proof.
  unfold Decode.string_index. repeat calm_step. by apply calm_lift, ok_or_calm.
Qed.
Hint Resolve string_index_calm : calm.

(** The path a later location may repeat is in the dictionary. *)
Definition state_held (s : PackedLocationState) : Prop :=
  pls_valid s = true → (N.to_nat (pls_path s) < length strings)%nat.

Lemma default_held : state_held packed_location_state_default.
Proof. by intros [=]. Qed.

Lemma location_calm s : state_held s →
  calm (Decode.location strings s) (λ p, state_held p.2).
Proof.
  intros Hs. unfold Decode.location. calm_step.
  apply (calm_bind _ _ (λ p, (N.to_nat p.1 < length strings)%nat)).
  - destruct (_ =? 1)%N.
    + destruct (_ || _) eqn:E; [by apply calm_fail|]. calm_step.
      apply calm_lift_bind; [by apply ok_or_calm|]. intros start _. apply calm_ret.
      apply Hs. apply orb_false_iff in E as [_ E]. by apply negb_false_iff.
    + calm_step. destruct (N.leb_spec (N.of_nat (length strings)) a0); [by apply calm_fail|].
      calm_step. apply calm_ret. cbn [fst]. lia.
  - intros [path start] Hp. cbn [fst] in Hp. repeat calm_step.
    apply lookup_lt_is_Some in Hp as [text Ht]. rewrite Ht.
    apply calm_lift_bind; [done|]. intros text' [= <-]. apply calm_ret. intros _. cbn.
    by eapply lookup_lt_Some.
Qed.

Lemma first_location_calm : calm (Decode.location strings packed_location_state_default) (λ p, state_held p.2).
Proof. apply location_calm, default_held. Qed.

Lemma location_step {B} s (k : Location * PackedLocationState → reader B) Q : state_held s →
  (∀ l s', state_held s' → calm (k (l, s')) Q) → calm (Decode.location strings s ≫= k) Q.
Proof.
  intros Hs Hk. eapply calm_bind; [by apply location_calm|]. intros [l s'] Hs'. by apply Hk.
Qed.

Ltac read_step := first [apply location_step; [by first [apply default_held|assumption]|intros]|calm_step].

Lemma locations_calm : quiet (Decode.locations strings).
Proof.
  unfold Decode.locations. calm_step. eapply calm_repeat_state; [apply location_calm|apply default_held].
Qed.
Hint Resolve locations_calm : calm.

Lemma declaration_calm s : state_held s → calm (Decode.declaration strings s) (λ p, state_held p.2).
Proof. intros Hs. unfold Decode.declaration. do 3 read_step. by apply calm_ret. Qed.

Lemma declarations_calm : quiet (Decode.declarations strings).
Proof.
  unfold Decode.declarations. calm_step.
  eapply calm_repeat_state; [apply declaration_calm|apply default_held].
Qed.
Hint Resolve declarations_calm : calm.

Lemma type_descriptor_calm : quiet (Decode.type_descriptor strings).
Proof. unfold Decode.type_descriptor. repeat read_step. Qed.
Hint Resolve type_descriptor_calm : calm.

Lemma owner_calm s : state_held s → calm (Decode.owner strings s) (λ p, state_held p.2).
Proof. intros Hs. unfold Decode.owner. do 4 read_step. by apply calm_ret. Qed.

Lemma resolved_declaration_calm : quiet (Decode.resolved_declaration strings).
Proof.
  unfold Decode.resolved_declaration. do 5 read_step. apply calm_seq;
    [eapply calm_repeat_state; [apply owner_calm|done]|].
  intros owners. repeat read_step.
Qed.
Hint Resolve resolved_declaration_calm : calm.

Lemma candidate_calm : quiet (Decode.candidate strings).
Proof. unfold Decode.candidate. repeat read_step. Qed.

Lemma target_set_calm : quiet (Decode.target_set strings).
Proof.
  unfold Decode.target_set. do 3 read_step; [read_step|].
  apply calm_seq; [apply calm_repeat, candidate_calm|]. intros. read_step.
Qed.

Lemma object_property_calm : quiet (Decode.object_property strings).
Proof.
  unfold Decode.object_property. do 2 read_step. apply calm_lift_bind; [unfold parse_construction_witness; parse_calm|].
  intros. read_step.
Qed.

Lemma single_declaration_calm : quiet (Decode.single_declaration strings).
Proof. unfold Decode.single_declaration. repeat read_step. Qed.

Lemma object_shape_calm : quiet (Decode.object_shape strings).
Proof.
  unfold Decode.object_shape. read_step. apply calm_seq; [apply calm_repeat, object_property_calm|].
  intros. read_step.
Qed.

Lemma parse_callability_calm v schema : parse_callability v schema ≠ Err DecodePanic.
Proof. unfold parse_callability. parse_calm. Qed.

Lemma parameter_calm schema : quiet (Decode.parameter strings schema).
Proof.
  unfold Decode.parameter. do 3 read_step. cbv zeta. read_step.
  apply calm_seq; [apply calm_read_if, single_declaration_calm|]. intros. read_step.
  apply calm_lift_bind; [apply parse_callability_calm|]. intros.
  apply calm_seq; [apply calm_read_if, type_descriptor_calm|]. intros.
  apply calm_seq; [apply calm_read_if, object_shape_calm|]. intros. read_step.
Qed.

Lemma argument_calm schema : quiet (Decode.argument strings schema).
Proof.
  unfold Decode.argument. do 2 read_step.
  apply calm_lift_bind; [unfold parse_argument_mapping_status; parse_calm|]. intros. read_step.
  apply calm_lift_bind.
  { unfold parse_argument_mapping_reason, mbind, result_bind. repeat case_match; simplify_eq; discriminate. }
  intros. read_step. apply calm_seq; [apply calm_read_if, parameter_calm|]. intros. read_step.
Qed.

Lemma call_flags_calm schema : quiet (Decode.call_flags schema).
Proof. unfold Decode.call_flags. repeat read_step. Qed.

Lemma flag_calm (b : bool) (m : reader bool) : quiet m → quiet (if b then m else mret false).
Proof. intros Hm. destruct b; [done|by apply calm_ret]. Qed.

Lemma resolved_call_calm schema : quiet (Decode.resolved_call strings schema).
Proof.
  unfold Decode.resolved_call. do 3 read_step.
  apply calm_lift_bind; [unfold parse_resolved_call_validity; parse_calm|]. intros. read_step.
  apply calm_lift_bind; [unfold parse_call_kind; parse_calm|]. intros. read_step.
  apply calm_seq; [apply calm_read_if, resolved_declaration_calm|]. intros.
  apply calm_seq; [apply flag_calm, boolean_calm|]. intros.
  apply calm_seq; [apply calm_read_if, target_set_calm|]. intros. read_step.
  apply calm_seq; [apply calm_repeat, argument_calm|]. intros.
  apply calm_seq; [apply call_flags_calm|]. intros [].
  apply calm_seq; [apply flag_calm, boolean_calm|]. intros.
  apply calm_seq; [apply calm_read_if, resolved_declaration_calm|]. intros. read_step.
Qed.

Lemma source_call_calm : quiet (Decode.source_call strings).
Proof. unfold Decode.source_call. repeat read_step. Qed.

Lemma constant_value_calm : quiet (Decode.constant_value strings).
Proof.
  unfold Decode.constant_value. read_step. destruct a as [|[]]; cbv zeta; repeat read_step.
Qed.

Lemma ts_try_new_calm fixed rest zero params exact : ts_try_new fixed rest zero params exact ≠ Err DecodePanic.
Proof. unfold ts_try_new, mbind, result_bind. repeat case_match; simplify_eq; discriminate. Qed.

Lemma exact_length_calm (b : bool) :
  quiet (if b then
       encoded ← Cursor.u64;
       if (encoded =? 0)%N then mret None
       else
         length ← lift (ok_or (TupleOverflow "exact length") (u32_of_u64 (encoded - 1)));
         mret (Some length)
     else mret None).
Proof. destruct b; repeat read_step. Qed.

Lemma tuple_shape_calm schema : quiet (Decode.tuple_shape schema).
Proof.
  unfold Decode.tuple_shape. do 2 read_step. apply calm_lift_bind; [apply parse_callability_calm|].
  intros. do 2 read_step. apply calm_seq; [apply exact_length_calm|]. intros. read_step.
  apply calm_lift, ts_try_new_calm.
Qed.

Lemma names_calm label : quiet (Decode.names strings label).
Proof. unfold Decode.names. repeat read_step. Qed.

Lemma literal_candidate_calm : quiet (Decode.literal_candidate strings).
Proof.
  unfold Decode.literal_candidate. read_step.
  destruct a as [|[p|[]|]]; cbv zeta; repeat read_step.
  apply calm_seq; [|intros; read_step]. destruct a as [|[]]; read_step.
Qed.

Lemma literal_candidates_calm : quiet (Decode.literal_candidates strings).
Proof.
  unfold Decode.literal_candidates. do 2 read_step; [read_step|]. apply calm_repeat, literal_candidate_calm.
Qed.

Lemma tagged_calm {A} (parse : N → result DecodeError A) : (∀ v, parse v ≠ Err DecodePanic) →
  quiet (Decode.tagged parse).
Proof. intros Hp. unfold Decode.tagged. read_step. by apply calm_lift. Qed.

Lemma text_calm (b : bool) label :
  quiet (if b then Decode.string_index strings label else mret empty_str).
Proof. destruct b; read_step. Qed.

Lemma entity_calm path schema start : quiet (Decode.entity strings path schema start).
Proof.
  unfold Decode.entity. read_step. apply calm_lift_bind; [by apply ok_or_calm|]. intros. do 5 read_step.
  apply calm_seq; [apply calm_read_if, type_descriptor_calm|]. intros.
  apply calm_seq; [apply calm_read_if, resolved_call_calm|]. intros.
  apply calm_seq; [apply calm_read_if, tagged_calm; intros; apply parse_callability_calm|]. intros.
  apply calm_seq; [apply calm_read_if, tagged_calm; unfold parse_reference_space; parse_calm|]. intros.
  apply calm_seq; [apply text_calm|]. intros.
  apply calm_seq; [apply calm_read_if, tagged_calm; unfold parse_runtime_value_domain; parse_calm|]. intros.
  apply calm_seq; [apply calm_read_if, tagged_calm; unfold parse_runtime_value_domain; parse_calm|]. intros.
  apply calm_seq; [apply calm_read_if, constant_value_calm|]. intros.
  apply calm_seq; [apply calm_read_if, tagged_calm; unfold parse_array_shape; parse_calm|]. intros.
  apply calm_seq; [apply calm_read_if, tuple_shape_calm|]. intros.
  apply calm_seq; [apply calm_read_if, names_calm|]. intros.
  apply calm_seq.
  { destruct (has_flag _ _); [|read_step]. apply tagged_calm. unfold parse_primitive_value_domain. parse_calm. }
  intros.
  apply calm_seq; [apply calm_read_if, tagged_calm; unfold parse_constructability; parse_calm|]. intros.
  apply calm_seq; [apply calm_read_if, literal_candidates_calm|]. intros.
  apply calm_seq; [apply calm_read_if, tagged_calm; unfold parse_runtime_binding_kind; parse_calm|]. intros.
  apply calm_seq; [apply calm_read_if, names_calm|]. intros.
  apply calm_lift_bind; [unfold Decode.symbol_claim; parse_calm|]. intros. read_step.
Qed.

Lemma calm_loop {S A} n (m : S → reader (A * S)) s : (∀ s, quiet (m s)) → quiet (repeat_state n m s).
Proof. intros Hm. by apply (calm_repeat_state (λ _, True)). Qed.

Lemma entity_run_calm path schema : quiet (Decode.entity_run strings path schema).
Proof. unfold Decode.entity_run. read_step. apply calm_loop. intros. apply entity_calm. Qed.

Lemma binding_calm : quiet (Decode.binding strings).
Proof.
  unfold Decode.binding. do 3 read_step. apply calm_seq; [apply source_call_calm|]. intros. read_step.
Qed.

Lemma function_calm : quiet (Decode.function strings).
Proof. unfold Decode.function. repeat read_step. Qed.

Lemma async_function_calm : quiet (Decode.async_function strings).
Proof. unfold Decode.async_function. repeat read_step. Qed.

Lemma file_fact_calm path : quiet (Decode.file_fact strings path).
Proof.
  unfold Decode.file_fact. read_step. apply calm_seq; [apply calm_repeat, source_call_calm|]. intros. read_step.
  apply calm_seq; [apply calm_repeat, binding_calm|]. intros. read_step.
  apply calm_seq; [apply calm_repeat, function_calm|]. intros. read_step.
  apply calm_seq; [apply calm_repeat, async_function_calm|]. intros. read_step.
Qed.

Lemma slot_tag_calm v label : Decode.slot_tag v label ≠ Err DecodePanic.
Proof. unfold Decode.slot_tag. by destruct (_ <=? _)%N. Qed.

(** A tag [slot_tag] accepted reaches an arm of its own. *)
Lemma read_slot_calm {A} v label tag (m : reader A) : Decode.slot_tag v label = Ok tag →
  quiet m → quiet (Decode.read_slot tag m).
Proof.
  unfold Decode.slot_tag. destruct (N.leb_spec v 2) as [Hv|]; [|done]. intros [= <-] Hm.
  assert (v = 0 ∨ v = 1 ∨ v = 2)%N as [->|[->| ->]] by lia; cbn [Decode.read_slot].
  - read_step.
  - apply calm_seq; [done|]. intros. read_step.
  - read_step.
Qed.

Lemma source_slot_calm : quiet Decode.source_slot.
Proof.
  unfold Decode.source_slot. read_step. apply calm_lift. unfold raw_digest.
  destruct (negb _); [done|]. by apply ok_or_calm.
Qed.

Lemma entity_slot_calm path schema : quiet (Decode.entity_slot strings path schema).
Proof.
  unfold Decode.entity_slot. apply calm_seq; [apply entity_run_calm|]. intros. repeat read_step.
Qed.

Lemma path_operation_calm mode schema previous :
  quiet (Decode.path_operation strings mode schema previous).
Proof.
  unfold Decode.path_operation. do 5 read_step.
  apply calm_lift_bind; [apply slot_tag_calm|]. intros source_tag Hs.
  apply calm_lift_bind; [apply slot_tag_calm|]. intros entity_tag He.
  apply calm_lift_bind; [apply slot_tag_calm|]. intros file_tag Hf. do 2 read_step.
  apply calm_seq; [by eapply read_slot_calm, source_slot_calm|]. intros.
  apply calm_seq; [by eapply read_slot_calm, entity_slot_calm|]. intros.
  apply calm_seq; [by eapply read_slot_calm, file_fact_calm|]. intros. read_step.
Qed.

(** The header leaves a tag the operation's arms cover. *)
Lemma symbol_header_spec mode header :
  match Decode.symbol_header mode header with
  | Ok (_, tag) => (tag ≤ 2)%N
  | Err e => e ≠ DecodePanic
  end.
Proof.
  destruct mode; cbn; [lia|]. destruct (N.eqb_spec (N.land header 3) 3) as [|Hne]; [done|].
  assert (N.land header 3 = header mod 4)%N as E by (change 3%N with (N.ones 2); apply N.land_ones).
  rewrite E in *. pose proof (N.mod_upper_bound header 4). lia.
Qed.

Lemma symbol_id_calm mode : calm (Decode.symbol_id strings mode) (λ p, (p.2 ≤ 2)%N).
Proof.
  unfold Decode.symbol_id. read_step. pose proof (symbol_header_spec mode a) as Hh.
  destruct (Decode.symbol_header mode a) as [[value tag]|e].
  - apply calm_lift_bind; [done|]. intros [] [= <- <-]. repeat read_step.
  - apply calm_lift_bind; [congruence|done].
Qed.

Lemma symbol_body_calm id tag : (tag ≤ 2)%N → quiet (Decode.symbol_body strings id tag).
Proof.
  intros Ht. assert (tag = 0 ∨ tag = 1 ∨ tag = 2)%N as [->|[->| ->]] by lia;
    unfold Decode.symbol_body; repeat read_step.
Qed.

Lemma symbol_operation_calm mode previous : quiet (Decode.symbol_operation strings mode previous).
Proof.
  unfold Decode.symbol_operation. eapply calm_bind; [apply symbol_id_calm|].
  intros [id tag] Ht. cbn [snd] in Ht. apply calm_seq; [by apply symbol_body_calm|].
  intros []. cbv zeta. repeat read_step.
Qed.

Lemma operations_calm mode schema bg tg : quiet (Decode.operations strings mode schema bg tg).
Proof.
  unfold Decode.operations. do 3 read_step.
  apply calm_lift_bind; [unfold Decode.check_base; parse_calm|]. intros _ _. read_step.
  apply calm_seq; [apply calm_loop, path_operation_calm|]. intros. read_step.
  apply calm_seq; [apply calm_loop; intros; apply symbol_operation_calm|]. intros. read_step.
Qed.

End calm.

Lemma packed_string_calm previous : quiet (Decode.packed_string previous).
Proof. unfold Decode.packed_string. do 2 calm_step; repeat (cbv zeta; calm_step). Qed.

Lemma dictionary_calm : quiet Decode.dictionary.
Proof.
  unfold Decode.dictionary, Decode.packed_strings. apply calm_seq.
  - calm_step. apply calm_loop, packed_string_calm.
  - intros. repeat calm_step.
Qed.

Lemma end_of_input_calm : quiet Decode.end_of_input.
Proof. intros c. unfold Decode.end_of_input. by destruct (_ =? _). Qed.

Lemma transition_calm : quiet Decode.transition.
Proof.
  unfold Decode.transition. do 3 calm_step.
  apply calm_lift_bind; [unfold Decode.transition_mode; parse_calm|]. intros mode _. do 5 calm_step.
  apply calm_seq; [apply dictionary_calm|]. intros strings.
  apply calm_seq; [apply operations_calm|]. intros [[[project token] paths] symbols].
  apply calm_seq; [apply end_of_input_calm|]. intros _. calm_step.
Qed.

(** Whatever the bytes, the decoder refuses or answers; it does not panic. *)
Lemma decode_never_panics bytes : decode_table_transition bytes ≠ Err DecodePanic.
Proof.
  unfold decode_table_transition, mbind, result_bind. pose proof (transition_calm (Cursor.new bytes)) as Ht.
  destruct (Decode.transition (Cursor.new bytes)) as [[]|e]; [done|]. intros [= ->]. done.
Qed.
