(* ===== verification/SessionTable.v ===== *)
(** * The table a session retains

    The acceptance of an analyze response ([prepare_analyze_response_mode] of
    [typefacts/src/session.rs]): the identity checks, reuse, a full table or a
    validated delta, with the changes a consumer is told of; and the symbol
    rows a closure replaces or merges ([replace_symbols], [merge_symbols] of
    [typefacts/src/retained_table.rs]). *)
From S2P Require Export RetainedDelta.

Definition type_facts_schema_v1 : N := 1.
Definition type_facts_table_schema_v24 : N := 24.

(** The fields of a response the acceptance reads. *)
Record Response := {
  rs_schema : N; rs_project_id : str; rs_generation : N; rs_state_token : str;
  rs_table_transition : list N
}.

Record TableChanges := {
  tc_unchanged : bool; tc_full : bool; tc_entity_paths : list str; tc_symbol_ids : list str;
  tc_file_paths : list str
}.

Definition reuse_changes : TableChanges :=
  {| tc_unchanged := true; tc_full := false; tc_entity_paths := []; tc_symbol_ids := [];
     tc_file_paths := [] |}.

Inductive SessionError :=
  | ResponseSchema (schema : N)
  | ResponseIdentity
  | NoStateToken
  | ReuseWithoutTable
  | RetainedIdentity
  | InvalidTransition (e : DecodeError)
  | TransitionIdentity
  | DeltaWithoutTable
  | DeltaBaseIdentity
  | InvalidDelta (e : DeltaError)
  | SessionPanic.

(** ** Changes *)

Definition is_unchanged_slot {T} (op : SlotOp T) : bool :=
  match op with SlotUnchanged => true | _ => false end.

Definition paths_where (f : PathOp → bool) (ops : list PathOp) : list str :=
  po_path <$> filter (λ op, f op = true) ops.

Definition table_changes (t : WireTableTransition) : TableChanges :=
  let entity_paths := paths_where (λ op, negb (is_unchanged_slot (po_entities op))) (wt_paths t) in
  let file_paths := paths_where (λ op, negb (is_unchanged_slot (po_file op))) (wt_paths t) in
  let symbol_ids := dedup (symbol_op_id <$> wt_symbols t) in
  {| tc_unchanged := bool_decide (wt_mode t = Delta) && is_nil entity_paths && is_nil symbol_ids &&
                     is_nil file_paths;
     tc_full := false; tc_entity_paths := entity_paths; tc_symbol_ids := symbol_ids;
     tc_file_paths := file_paths |}.

Definition entities_changed (table : FactTable) (op : PathOp) : bool :=
  match po_entities op with
  | SlotUnchanged => false
  | SlotReplace es => negb (list_eqb EntityFact_eqb (entities_for_path table (po_path op)) es)
  | SlotRemove => negb (is_nil (entities_for_path table (po_path op)))
  end.

Definition file_changed (table : FactTable) (op : PathOp) : bool :=
  match po_file op with
  | SlotUnchanged => false
  | SlotReplace f => negb (bool_decide (file table (po_path op) = Some f))
  | SlotRemove => bool_decide (is_Some (file table (po_path op)))
  end.

Definition table_changes_against (table : FactTable) (t : WireTableTransition) : TableChanges :=
  let entity_paths := paths_where (entities_changed table) (wt_paths t) in
  let file_paths := paths_where (file_changed table) (wt_paths t) in
  let symbol_ids := dedup (symbol_op_id <$> wt_symbols t) in
  {| tc_unchanged := is_nil entity_paths && is_nil symbol_ids && is_nil file_paths;
     tc_full := false; tc_entity_paths := entity_paths; tc_symbol_ids := symbol_ids;
     tc_file_paths := file_paths |}.

(** ** Acceptance *)

Definition ensure_session (ok : bool) (e : SessionError) : result SessionError () :=
  if ok then Ok tt else Err e.

Definition materialize_full_transition (t : WireTableTransition)
    : result SessionError (FactTable * TableChanges) :=
  let changes := table_changes t in
  table ← ok_or SessionPanic (materialize_full t);
  Ok (table, {| tc_unchanged := false; tc_full := true; tc_entity_paths := tc_entity_paths changes;
                tc_symbol_ids := tc_symbol_ids changes; tc_file_paths := tc_file_paths changes |}).

Definition check_response (response : Response) (expected_project : str) (expected_generation : N)
    : result SessionError () :=
  ensure_session (rs_schema response =? type_facts_schema_v1)%N (ResponseSchema (rs_schema response));;
  ensure_session (str_eqb (rs_project_id response) expected_project &&
                  (rs_generation response =? expected_generation)%N) ResponseIdentity;;
  ensure_session (negb (is_empty (rs_state_token response))) NoStateToken.

(** The reuse of the retained table. *)
Definition reuse_table (response : Response) (expected_project : str) (retained : option FactTable)
    : result SessionError FactTable :=
  candidate ← ok_or ReuseWithoutTable retained;
  ensure_session ((ft_schema candidate =? type_facts_table_schema_v24)%N &&
                  str_eqb (ft_project_id candidate) expected_project &&
                  (ft_generation candidate =? rs_generation response)%N) RetainedIdentity;;
  Ok candidate.

Definition apply_retained (retained : option FactTable) (retained_state_token : str)
    (t : WireTableTransition) : result SessionError (FactTable * TableChanges) :=
  table ← ok_or DeltaWithoutTable retained;
  ensure_session ((ft_schema table =? wt_table_schema t)%N &&
                  (ft_generation table =? wt_base_generation t)%N &&
                  str_eqb (ft_project_id table) (wt_project_id t) &&
                  str_eqb retained_state_token (wt_base_state_token t)) DeltaBaseIdentity;;
  map_err InvalidDelta (validate_delta table t);;
  candidate ← ok_or SessionPanic (apply_delta table t);
  Ok (candidate, table_changes_against table t).

Definition prepare_analyze_response_mode (response : Response) (expected_project : str)
    (expected_generation : N) (retained : option FactTable) (retained_state_token : str)
    : result SessionError (FactTable * TableChanges * bool) :=
  check_response response expected_project expected_generation;;
  if is_nil (rs_table_transition response)
  then
    candidate ← reuse_table response expected_project retained;
    Ok (candidate, reuse_changes, true)
  else
    t ← map_err InvalidTransition (decode_table_transition (rs_table_transition response));
    ensure_session (str_eqb (wt_project_id t) (rs_project_id response) &&
                    (wt_target_generation t =? rs_generation response)%N &&
                    (wt_table_schema t =? type_facts_table_schema_v24)%N) TransitionIdentity;;
    match wt_mode t with
    | Full => '(table, changes) ← materialize_full_transition t; Ok (table, changes, false)
    | Delta =>
        '(candidate, changes) ← apply_retained retained retained_state_token t;
        Ok (candidate, changes, true)
    end.

(** ** Symbol rows replaced by a closure *)

(** The ids of two ordered row lists where only one has a row or the rows
    differ: the loop of [replace_symbols]. *)
Fixpoint changed_ids {T} `{Keyed T} (same : T → T → bool) (fuel : nat) (previous successor : list T)
    : list str :=
  match fuel, previous, successor with
  | S fuel, x :: ls, y :: rs =>
      if str_eqb (key x) (key y)
      then (if same x y then [] else [key x]) ++ changed_ids same fuel ls rs
      else if str_ltb (key x) (key y)
      then key x :: changed_ids same fuel ls successor
      else key y :: changed_ids same fuel previous rs
  | S fuel, x :: ls, [] => key x :: changed_ids same fuel ls []
  | S fuel, [], y :: rs => key y :: changed_ids same fuel [] rs
  | _, _, _ => []
  end.

(** A stable sort by id. *)
Fixpoint insert_symbol (f : SymbolFact) (l : list SymbolFact) : list SymbolFact :=
  match l with
  | [] => [f]
  | g :: l => if str_ltb (sf_id g) (sf_id f) then g :: insert_symbol f l else f :: g :: l
  end.
Definition sort_symbols (l : list SymbolFact) : list SymbolFact := foldr insert_symbol [] l.

Definition with_symbols (t : FactTable) (idx : PackedIndex StoredSymbol) : FactTable :=
  {| ft_schema := ft_schema t; ft_generation := ft_generation t; ft_project_id := ft_project_id t;
     ft_paths := ft_paths t; ft_symbols := idx; ft_source_count := ft_source_count t;
     ft_entity_count := ft_entity_count t; ft_file_count := ft_file_count t;
     ft_strict_null_checks := ft_strict_null_checks t |}.

Definition replace_symbols (t : FactTable) (symbols : list SymbolFact) : FactTable * list str :=
  let next := from_fact <$> sort_symbols symbols in
  let previous := rows (ft_symbols t) in
  (with_symbols t (from_sorted next),
   changed_ids stored_symbol_eqb (length previous + length next) previous next).

(** [dedup_by] on equal ids: the first of a run stays. *)
Fixpoint dedup_symbols (previous : option str) (l : list StoredSymbol) : list StoredSymbol :=
  match l with
  | [] => []
  | s :: l =>
      if bool_decide (previous = Some (ss_id s)) then dedup_symbols previous l
      else s :: dedup_symbols (Some (ss_id s)) l
  end.

(** The ordered pass of [merge_symbols]: the next rows and the changed ids. *)
Fixpoint merge_symbol_rows (fuel : nat) (removed : gset str) (previous upserts : list StoredSymbol)
    : list StoredSymbol * list str :=
  match fuel, previous, upserts with
  | S fuel, x :: ls, y :: rs =>
      match str_cmp (ss_id x) (ss_id y) with
      | Eq =>
          let '(next, changed) := merge_symbol_rows fuel removed ls rs in
          if stored_symbol_eqb x y then (x :: next, changed)
          else (y :: next, ss_id x :: changed)
      | Lt =>
          let '(next, changed) := merge_symbol_rows fuel removed ls upserts in
          if bool_decide (ss_id x ∈ removed) then (next, ss_id x :: changed)
          else (x :: next, changed)
      | Gt =>
          let '(next, changed) := merge_symbol_rows fuel removed previous rs in
          (y :: next, ss_id y :: changed)
      end
  | S fuel, x :: ls, [] =>
      let '(next, changed) := merge_symbol_rows fuel removed ls [] in
      if bool_decide (ss_id x ∈ removed) then (next, ss_id x :: changed)
      else (x :: next, changed)
  | S fuel, [], y :: rs =>
      let '(next, changed) := merge_symbol_rows fuel removed [] rs in
      (y :: next, ss_id y :: changed)
  | _, _, _ => ([], [])
  end.

Definition merge_symbols (t : FactTable) (upserts : list SymbolFact) (removed : gset str)
    : FactTable * list str :=
  let upserts := dedup_symbols None (from_fact <$> sort_symbols upserts) in
  let previous := rows (ft_symbols t) in
  let '(next, changed) :=
    merge_symbol_rows (length previous + length upserts) removed previous upserts in
  (if is_nil changed then t else with_symbols t (from_sorted next), changed).
