(* ===== verification/SessionTableSpec.v ===== *)
(** * Accepting a response

    A session that holds a table in order accepts only responses that leave it
    with a table in order, of the expected project and generation; nothing the
    producer sends makes the acceptance panic; the reported changes cover every
    row that differs.

    Then: merging symbol rows. *)
From S2P Require Export SessionTable.

(** ** Result inversion *)

Lemma bind_ok {E A B} (m : result E A) (k : A → result E B) b :
  m ≫= k = Ok b → ∃ a, m = Ok a ∧ k a = Ok b.
Proof. destruct m as [a|e]; [|done]. by exists a. Qed.

Lemma ensure_session_ok ok e : ensure_session ok e = Ok tt → ok = true.
Proof. by destruct ok. Qed.

Lemma ensure_session_bind {B} ok e (k : () → result SessionError B) b :
  ensure_session ok e ≫= k = Ok b → ok = true ∧ k tt = Ok b.
Proof. by destruct ok. Qed.

(** ** A path after a delta *)

Lemma find_fold_paths l ops p : StronglySorted row_lt l → StronglySorted str_lt (po_path <$> ops) →
  (p ∉ po_path <$> ops → find_row p (fold_paths l ops) = find_row p l) ∧
  (∀ op, op ∈ ops → po_path op = p →
     find_row p (fold_paths l ops) = entry_apply (default (empty_entry p) (find_row p l)) op).
Proof.
  revert l. induction ops as [|op ops IH]; intros l Hl Hops.
  { split; [done|]. intros op Hop. by apply elem_of_nil in Hop. }
  cbn [fmap list_fmap] in *. apply StronglySorted_inv in Hops as [Hops Hgt].
  destruct (IH (path_update l op) (path_update_sorted l op Hl) Hops) as [I1 I2].
  cbn [fold_paths foldl]. fold (fold_paths (path_update l op) ops).
  assert (Hfind : find_row p (path_update l op) = if decide (p = po_path op)
    then entry_apply (default (empty_entry (po_path op)) (find_row (po_path op) l)) op
    else find_row p l) by (apply find_set_row; [done|apply path_update_key]).
  rewrite Forall_forall in Hgt. split.
  - intros [Hne Hnin]%not_elem_of_cons. rewrite I1 by done. rewrite Hfind. by rewrite decide_False.
  - intros op' [->|Hop]%elem_of_cons Hp.
    + rewrite I1. { rewrite Hfind, decide_True by done. by subst p. }
      intros Hin. apply Hgt in Hin. rewrite Hp in Hin. by apply str_lt_irrefl in Hin.
    + rewrite (I2 op' Hop Hp), Hfind. rewrite decide_False; [done|]. intros ->.
      assert (Hin : po_path op' ∈ po_path <$> ops) by (apply list_elem_of_fmap; eauto).
      apply Hgt in Hin. rewrite Hp in Hin. by apply str_lt_irrefl in Hin.
Qed.

Definition slot_entities (op : PathOp) (old : list EntityFact) : list EntityFact :=
  match po_entities op with SlotUnchanged => old | SlotReplace es => es | SlotRemove => [] end.
Definition slot_file (op : PathOp) (old : option FileFact) : option FileFact :=
  match po_file op with SlotUnchanged => old | SlotReplace f => Some f | SlotRemove => None end.

Lemma entry_apply_slots e op :
  from_option pe_entities [] (entry_apply e op) = slot_entities op (pe_entities e) ∧
  entry_apply e op ≫= pe_file = slot_file op (pe_file e).
Proof.
  unfold entry_apply, slot_entities, slot_file.
  destruct (entry_is_empty _) eqn:E; [|done]. unfold entry_is_empty in E. cbn in E |- *.
  destruct e as [ep [] [] []], op as [p [] [|es|] []]; try destruct es; simpl in *; naive_solver.
Qed.

Lemma entities_row t p : table_ok t →
  entities_for_path t p = from_option pe_entities [] (find_row p (rows (ft_paths t))).
Proof. intros (Hok & _). unfold entities_for_path. by rewrite index_get_spec. Qed.
Lemma file_row t p : table_ok t → file t p = find_row p (rows (ft_paths t)) ≫= pe_file.
Proof. intros (Hok & _). unfold file. by rewrite index_get_spec. Qed.

Section delta.
Context (t t' : FactTable) (tr : WireTableTransition).
Context (Ht : table_ok t) (Ht' : table_ok t').
Context (Hpaths : rows (ft_paths t') = fold_paths (rows (ft_paths t)) (wt_paths tr)).
Context (Hord : StronglySorted str_lt (po_path <$> wt_paths tr)).

(** An operation's slots decide what its path holds next. *)
Lemma delta_named op : op ∈ wt_paths tr →
  entities_for_path t' (po_path op) = slot_entities op (entities_for_path t (po_path op)) ∧
  file t' (po_path op) = slot_file op (file t (po_path op)).
Proof.
  intros Hop. rewrite !entities_row, !file_row, Hpaths by done.
  destruct (find_fold_paths (rows (ft_paths t)) (wt_paths tr) (po_path op)) as [_ Hn];
    [apply Ht|done|].
  rewrite (Hn op Hop eq_refl). destruct (entry_apply_slots
    (default (empty_entry (po_path op)) (find_row (po_path op) (rows (ft_paths t)))) op) as [-> ->].
  by destruct (find_row (po_path op) (rows (ft_paths t))).
Qed.

Lemma delta_unnamed p : p ∉ po_path <$> wt_paths tr →
  entities_for_path t' p = entities_for_path t p ∧ file t' p = file t p.
Proof.
  intros Hp. rewrite !entities_row, !file_row, Hpaths by done.
  destruct (find_fold_paths (rows (ft_paths t)) (wt_paths tr) p) as [Hn _]; [apply Ht|done|].
  by rewrite Hn.
Qed.

Lemma paths_where_spec f p :
  p ∈ paths_where f (wt_paths tr) ↔ ∃ op, op ∈ wt_paths tr ∧ po_path op = p ∧ f op = true.
Proof.
  unfold paths_where. rewrite list_elem_of_fmap. setoid_rewrite list_elem_of_filter. naive_solver.
Qed.

(** The changes name the paths whose rows differ: by [PartialEq] for entity
    rows, exactly for file rows. *)
Lemma entity_changes_spec p :
  (p ∈ tc_entity_paths (table_changes_against t tr) →
     list_eqb EntityFact_eqb (entities_for_path t p) (entities_for_path t' p) = false) ∧
  (p ∉ tc_entity_paths (table_changes_against t tr) →
     entities_for_path t' p = entities_for_path t p ∨
     list_eqb EntityFact_eqb (entities_for_path t p) (entities_for_path t' p) = true).
Proof.
  cbn [tc_entity_paths table_changes_against]. rewrite paths_where_spec. split.
  - intros (op & Hop & <- & Hc). destruct (delta_named op Hop) as [He _]. rewrite He.
    unfold entities_changed, slot_entities in *. destruct (po_entities op) as [|es|]; [done| |].
    + by apply negb_true_iff.
    + by destruct (entities_for_path t (po_path op)).
  - intros Hn. destruct (decide (p ∈ po_path <$> wt_paths tr)) as [Hin|Hin].
    2:{ left. by apply delta_unnamed. }
    apply list_elem_of_fmap in Hin as (op & -> & Hop). destruct (delta_named op Hop) as [He _].
    assert (Hc : entities_changed t op = false).
    { destruct (entities_changed t op) eqn:E; [|done]. destruct Hn. by exists op. }
    rewrite He. unfold entities_changed, slot_entities in *.
    destruct (po_entities op) as [|es|]; [by left| |].
    + right. by apply negb_false_iff.
    + left. by destruct (entities_for_path t (po_path op)).
Qed.

Lemma file_changes_spec p :
  p ∈ tc_file_paths (table_changes_against t tr) ↔ file t' p ≠ file t p.
Proof.
  cbn [tc_file_paths table_changes_against]. rewrite paths_where_spec. split.
  - intros (op & Hop & <- & Hc). destruct (delta_named op Hop) as [_ Hf]. rewrite Hf.
    unfold file_changed, slot_file in *. destruct (po_file op) as [|f|]; [done| |].
    + apply negb_true_iff, bool_decide_eq_false in Hc. congruence.
    + apply bool_decide_eq_true in Hc. intros E. rewrite <-E in Hc. by destruct Hc.
  - intros Hne. destruct (decide (p ∈ po_path <$> wt_paths tr)) as [Hin|Hin].
    2:{ destruct Hne. by apply delta_unnamed. }
    apply list_elem_of_fmap in Hin as (op & -> & Hop). destruct (delta_named op Hop) as [_ Hf].
    rewrite Hf in Hne. exists op. split_and!; [done|done|]. unfold file_changed, slot_file in *.
    destruct (po_file op) as [|f|]; [done| |].
    + apply negb_true_iff, bool_decide_eq_false. congruence.
    + apply bool_decide_eq_true, not_eq_None_Some. congruence.
Qed.

End delta.

(** ** Symbols outside the operations *)

Lemma fact_update_other l op l' id : StronglySorted row_lt l → fact_update l op = Some l' →
  StronglySorted row_lt l' ∧ (id ≠ symbol_op_id op → find_row id l' = find_row id l).
Proof.
  intros Hs. destruct op as [f|i|i path refs]; cbn [fact_update symbol_op_id].
  - intros [= <-]. split; [apply set_row_sorted; [done|by intros r [= <-]]|]. intros Hne.
    rewrite find_set_row, decide_False; try done. by intros r [= <-].
  - intros [= <-]. split; [by apply set_row_sorted|]. intros Hne. by rewrite find_set_row, decide_False.
  - destruct (find_row i l) as [f|] eqn:E; [|done]. cbn [mbind option_bind].
    destruct (is_empty _); [|done]. intros [= <-].
    apply find_row_Some in E as [_ E]. assert (Hk : ∀ r, Some {| sf_id := sf_id f;
      sf_references := replace_refs path refs (sf_references f);
      sf_alias_target := sf_alias_target f; sf_declarations := sf_declarations f |} = Some r → key r = i)
      by by intros r [= <-].
    split; [by apply set_row_sorted|]. intros Hne. by rewrite find_set_row, decide_False.
Qed.

Lemma fold_facts_other l ops l' id : StronglySorted row_lt l → fold_facts l ops = Some l' →
  StronglySorted row_lt l' ∧ (id ∉ symbol_op_id <$> ops → find_row id l' = find_row id l).
Proof.
  revert l. induction ops as [|op ops IH]; intros l Hs; cbn [fold_facts].
  { by intros [= <-]. }
  destruct (fact_update l op) as [l1|] eqn:E; [|done]. cbn [mbind option_bind]. intros Hf.
  destruct (fact_update_other l op l1 id Hs E) as [Hs1 Ho1].
  destruct (IH l1 Hs1 Hf) as [Hs2 Ho2]. split; [done|].
  intros [Hne Hnin]%not_elem_of_cons. by rewrite Ho2, Ho1.
Qed.

Lemma dedup_elem l x : x ∈ dedup l ↔ x ∈ l.
Proof.
  induction l as [|y l IH]; [done|]. cbn [dedup]. rewrite (elem_of_cons l x y), <-IH.
  destruct (dedup l) as [|z l']; [by rewrite elem_of_cons|]. unfold str_eqb. case_bool_decide as E.
  - subst z. rewrite elem_of_cons. naive_solver.
  - by rewrite elem_of_cons.
Qed.

Lemma symbol_row t id : table_ok t → symbol_fact t id = find_row id (symbols t).
Proof.
  intros (_ & _ & _ & Hok & _). unfold symbol_fact, symbols.
  by rewrite index_get_spec, (find_row_map to_fact).
Qed.

Lemma symbols_sorted t : table_ok t → StronglySorted row_lt (symbols t).
Proof. intros (_ & _ & _ & Hok & _). apply row_lt_map, Hok. Qed.

(** ** Acceptance *)

Definition retained_ok (retained : option FactTable) : Prop :=
  ∀ t, retained = Some t → table_ok t.

Definition identity (t : FactTable) (project : str) (generation : N) : Prop :=
  ft_schema t = type_facts_table_schema_v24 ∧ ft_project_id t = project ∧ ft_generation t = generation.

(** No panic: neither of the application of a decoded delta nor of the
    decoder. *)
Definition no_panic (e : SessionError) : Prop :=
  e ≠ SessionPanic ∧ e ≠ InvalidTransition DecodePanic.

Lemma apply_retained_spec retained token tr : retained_ok retained → transition_ok tr →
  match apply_retained retained token tr with
  | Ok (t', changes) => ∃ t, retained = Some t ∧ table_ok t' ∧
      apply_facts (facts t) tr = Some (facts t') ∧ changes = table_changes_against t tr ∧
      ft_schema t' = wt_table_schema tr ∧ ft_generation t' = wt_target_generation tr ∧
      ft_project_id t' = wt_project_id tr
  | Err e => no_panic e
  end.
Proof.
  intros Hret Htr. unfold apply_retained. destruct retained as [t|]; [|done].
  specialize (Hret t eq_refl). cbn [ok_or mbind result_bind]. unfold ensure_session.
  destruct (_ && _) eqn:E; [|done]. cbn [mbind result_bind].
  destruct (validate_delta t tr) as [[]|e] eqn:Ev; [|done]. cbn [map_err mbind result_bind].
  destruct (apply_delta_spec t tr Hret Htr Ev) as (t' & -> & Hok & Hf & Hs & Hg & Hp).
  cbn [ok_or mbind result_bind]. exists t. split_and!; try done. rewrite Hp.
  apply andb_true_iff in E as [E _]. apply andb_true_iff in E as [_ E]. by apply bool_decide_eq_true in E.
Qed.

(** The whole acceptance: what is kept, and that nothing panics. *)
Lemma prepare_spec response project generation retained token : retained_ok retained →
  match prepare_analyze_response_mode response project generation retained token with
  | Ok (t', changes, derived) => table_ok t' ∧ identity t' project generation ∧
      (derived = false → ∃ tr, decode_table_transition (rs_table_transition response) = Ok tr ∧
         apply_facts no_facts tr = Some (facts t')) ∧
      (derived = true → ∃ t, retained = Some t ∧
         (rs_table_transition response = [] ∧ t' = t ∨
          ∃ tr, decode_table_transition (rs_table_transition response) = Ok tr ∧
            apply_facts (facts t) tr = Some (facts t') ∧ changes = table_changes_against t tr))
  | Err e => no_panic e
  end.
Proof.
  intros Hret. unfold prepare_analyze_response_mode, check_response, ensure_session.
  destruct (rs_schema response =? _)%N; [|done]. cbn [mbind result_bind].
  destruct (str_eqb (rs_project_id response) project && _) eqn:Eid; [|done]. cbn [mbind result_bind].
  destruct (negb (is_empty (rs_state_token response))); [|done]. cbn [mbind result_bind].
  apply andb_true_iff in Eid as [Ep%bool_decide_eq_true Eg%N.eqb_eq].
  destruct (is_nil (rs_table_transition response)) eqn:Enil.
  - unfold reuse_table. destruct retained as [t|]; [|done]. cbn [ok_or mbind result_bind].
    unfold ensure_session. destruct (_ && _) eqn:E; [|done]. cbn [mbind result_bind].
    apply andb_true_iff in E as [E E3%N.eqb_eq]. apply andb_true_iff in E as [E1%N.eqb_eq E2%bool_decide_eq_true].
    split_and!; [by apply Hret|by split_and!; congruence|done|]. intros _. exists t. split; [done|].
    left. split; [|done]. by destruct (rs_table_transition response).
  - destruct (decode_table_transition _) as [tr|e] eqn:Ed;
      [|split; [done|]; cbn; intros [= ->]; by eapply decode_never_panics]. cbn [map_err mbind result_bind].
    destruct (_ && _) eqn:E; [|done]. cbn [mbind result_bind].
    apply andb_true_iff in E as [E E3%N.eqb_eq]. apply andb_true_iff in E as [E1%bool_decide_eq_true E2%N.eqb_eq].
    pose proof (decoded_ok _ _ Ed) as Htr. destruct (wt_mode tr) eqn:Em.
    + unfold materialize_full_transition.
      destruct (materialize_full_spec tr Em Htr) as (t & -> & Hok & Hf & Hs & Hg & Hp).
      cbn [ok_or mbind result_bind]. split_and!; [done| | |done].
      * split_and!; congruence.
      * intros _. by exists tr.
    + pose proof (apply_retained_spec retained token tr Hret Htr) as Ha.
      destruct (apply_retained retained token tr) as [[t' changes]|e]; [|exact Ha].
      destruct Ha as (t & Hr & Hok & Hf & Hc & Hs & Hg & Hp). cbn [mbind result_bind].
      split_and!; [done| |done|].
      * split_and!; congruence.
      * intros _. exists t. split; [done|]. right. by exists tr.
Qed.

(** * Merging symbol rows

    [merge_symbols] in one pass is [replace_symbols] of the successor set: the
    rows a lookup finds are the upserts, less the removed, over the retained
    ones; the changed ids are the same. *)

(** ** Equality of stored symbols *)

Lemma stored_symbol_eqb_refl s : stored_symbol_eqb s s = true.
Proof.
  unfold stored_symbol_eqb, WireFacts.eqb. rewrite !bool_decide_eq_true_2, Nat.eqb_refl by done. done.
Qed.

Lemma stored_symbol_eqb_spec x y : stored_symbol_eqb x y = true →
  ss_id x = ss_id y ∧ ss_alias_target x = ss_alias_target y ∧ ss_declarations x = ss_declarations y ∧
  ss_reference_count x = ss_reference_count y ∧ rows (ss_references x) = rows (ss_references y).
Proof.
  unfold stored_symbol_eqb, WireFacts.eqb. rewrite !andb_true_iff, !bool_decide_eq_true, Nat.eqb_eq. tauto.
Qed.

Lemma stored_symbol_eqb_fact x y : stored_symbol_eqb x y = true → to_fact x = to_fact y.
Proof.
  intros (H1 & H2 & H3 & _ & H5)%stored_symbol_eqb_spec. unfold to_fact, symbol_references.
  by rewrite H1, H2, H3, H5.
Qed.

(** ** Runs taken apart and grouped again *)

Lemma take_run_app p run rest : Forall (λ l, loc_path l = p) run →
  match rest with l :: _ => loc_path l ≠ p | [] => True end → take_run p (run ++ rest) = (run, rest).
Proof.
  intros Hr Hrest. induction Hr as [|l run Hl Hr IH]; simpl.
  - destruct rest as [|l rest]; [done|]. simpl. unfold str_eqb. by rewrite bool_decide_eq_false_2.
  - unfold str_eqb. rewrite bool_decide_eq_true_2 by done. by rewrite IH.
Qed.

Lemma regroup runs fuel : Forall run_ok runs → StronglySorted row_lt runs →
  length (runs ≫= rr_locations) ≤ fuel → reference_runs fuel (runs ≫= rr_locations) = runs.
Proof.
  intros Hok. revert fuel. induction Hok as [|r runs (Hne & Hp & _) Hok IH]; intros fuel Hs Hf.
  { by destruct fuel. }
  apply StronglySorted_inv in Hs as [Hs Hlt]. cbn [mbind list_bind] in *.
  destruct r as [p [|l ls]]; [done|]. cbn [rr_locations rr_path] in *.
  inversion Hp as [|? ? Hl Hp']; subst. rewrite length_app in Hf. simpl in Hf.
  destruct fuel as [|fuel]; [lia|]. cbn [reference_runs app].
  rewrite take_run_app; [|done|].
  - f_equal. apply IH; [done|]. rewrite <-Nat.succ_le_mono in Hf. lia.
  - destruct runs as [|r' runs]; [done|]. cbn [mbind list_bind].
    inversion Hok as [|? ? (Hne' & Hp'' & _) _]; subst. destruct (rr_locations r') as [|l' ls']; [done|].
    cbn [app]. inversion Hp'' as [|? ? Hl' _]; subst. inversion Hlt as [|? ? Hlt' _]; subst.
    rewrite Hl'. intros E. unfold row_lt, key, ReferenceRun_keyed in Hlt'. cbn [rr_path] in Hlt'.
    rewrite E in Hlt'. by apply str_lt_irrefl in Hlt'.
Qed.

Lemma from_to_fact s x : symbol_ok s → stored_symbol_eqb x (from_fact (to_fact s)) = stored_symbol_eqb x s.
Proof.
  intros (Hidx & Hruns & Hc & _). unfold stored_symbol_eqb, from_fact, to_fact.
  cbn [ss_id ss_alias_target ss_declarations ss_reference_count ss_references sf_id sf_references
    sf_alias_target sf_declarations]. unfold symbol_references in *.
  assert (Hs : StronglySorted row_lt (rows (ss_references s))) by apply Hidx.
  rewrite (regroup _ _ Hruns Hs (le_n _)), <-Hc. by destruct (from_sorted_ok _ Hs) as [_ ->].
Qed.

(** ** Changed ids *)

Section changed.
Context {T : Type} `{Keyed T} (same : T → T → bool).

Lemma changed_ids_fuel f1 f2 (ls rs : list T) :
  length ls + length rs ≤ f1 → length ls + length rs ≤ f2 →
  changed_ids same f1 ls rs = changed_ids same f2 ls rs.
Proof.
  revert f2 ls rs. induction f1 as [|f1 IH]; intros f2 ls rs H1 H2.
  { destruct ls, rs; simpl in H1; try lia. by destruct f2. }
  destruct f2 as [|f2]; [destruct ls, rs; simpl in H2; try lia; done|].
  destruct ls as [|x ls], rs as [|y rs]; cbn [changed_ids length] in *; [done| | |].
  - f_equal. apply IH; simpl; lia.
  - f_equal. apply IH; simpl; lia.
  - rewrite (IH f2 ls rs), (IH f2 ls (y :: rs)), (IH f2 (x :: ls) rs) by (simpl; lia). done.
Qed.

(** The ids whose rows differ, in order. *)
Definition changes (ls rs : list T) : list str := changed_ids same (length ls + length rs) ls rs.

Lemma changes_nil_l r rs : changes [] (r :: rs) = key r :: changes [] rs.
Proof. reflexivity. Qed.
Lemma changes_nil_r l ls : changes (l :: ls) [] = key l :: changes ls [].
Proof. reflexivity. Qed.

Lemma changes_cons l ls r rs : changes (l :: ls) (r :: rs) =
  if str_eqb (key l) (key r) then (if same l r then [] else [key l]) ++ changes ls rs
  else if str_ltb (key l) (key r) then key l :: changes ls (r :: rs) else key r :: changes (l :: ls) rs.
Proof.
  unfold changes. cbn [length changed_ids Nat.add].
  rewrite (changed_ids_fuel _ (length ls + length rs) ls rs),
    (changed_ids_fuel _ (length ls + length (r :: rs)) ls (r :: rs)),
    (changed_ids_fuel _ (length (l :: ls) + length rs) (l :: ls) rs) by (simpl; lia). done.
Qed.

(** A row on the left below everything on the right, and the converse. *)
Lemma changes_left l ls rs : (∀ r, r ∈ rs → str_lt (key l) (key r)) →
  changes (l :: ls) rs = key l :: changes ls rs.
Proof.
  intros Hlt. destruct rs as [|r rs]; [apply changes_nil_r|].
  pose proof (Hlt r (list_elem_of_here _ _)) as Hr. rewrite changes_cons. unfold str_eqb.
  rewrite bool_decide_eq_false_2 by (intros E; rewrite E in Hr; by apply str_lt_irrefl in Hr).
  by rewrite (proj2 (str_ltb_lt _ _) Hr).
Qed.

Lemma changes_right ls r rs : (∀ l, l ∈ ls → str_lt (key r) (key l)) →
  changes ls (r :: rs) = key r :: changes ls rs.
Proof.
  intros Hlt. destruct ls as [|l ls]; [apply changes_nil_l|].
  pose proof (Hlt l (list_elem_of_here _ _)) as Hr. rewrite changes_cons. unfold str_eqb.
  rewrite bool_decide_eq_false_2 by (intros E; rewrite E in Hr; by apply str_lt_irrefl in Hr).
  destruct (str_ltb (key l) (key r)) eqn:E; [|done]. apply str_ltb_lt in E.
  by apply str_lt_not_gt in Hr.
Qed.

Lemma changes_same ls rs rs' : length rs = length rs' →
  (∀ i x y, rs !! i = Some x → rs' !! i = Some y → key x = key y ∧ ∀ l, same l x = same l y) →
  changes ls rs = changes ls rs'.
Proof.
  revert ls rs'. induction rs as [|r rs IH]; intros ls [|r' rs'] Hlen Hs; [done|done|done|].
  injection Hlen as Hlen. destruct (Hs 0 r r' eq_refl eq_refl) as [Hk Hsame].
  assert (Hs' : ∀ i x y, rs !! i = Some x → rs' !! i = Some y → key x = key y ∧ ∀ l, same l x = same l y)
    by (intros i; apply (Hs (S i))).
  induction ls as [|l ls IHl].
  - by rewrite !changes_nil_l, Hk, (IH [] rs').
  - by rewrite !changes_cons, Hk, Hsame, IHl, (IH ls rs'), (IH (l :: ls) rs').
Qed.

End changed.

(** ** The pass *)

Section merge.
Context (removed : gset str).
Implicit Types prev ups next : list StoredSymbol.

(** The row a successor set holds for an id. *)
Definition merged_fact prev ups (k : str) : option SymbolFact :=
  match find_row k ups with
  | Some u => Some (to_fact u)
  | None => if decide (k ∈ removed) then None else to_fact <$> find_row k prev
  end.

Definition merged prev ups next (changed : list str) : Prop :=
  (∀ s, s ∈ next → s ∈ prev ∨ s ∈ ups) ∧ StronglySorted row_lt next ∧
  changed = changes stored_symbol_eqb prev next ∧
  ∀ k, to_fact <$> find_row k next = merged_fact prev ups k.

Definition above (s : StoredSymbol) (l : list StoredSymbol) : Prop :=
  ∀ r, r ∈ l → str_lt (key s) (key r).

Lemma above_find s l : above s l → find_row (key s) l = None.
Proof. intros Ha. apply find_row_None. intros r Hr E. apply Ha in Hr. rewrite E in Hr. by apply str_lt_irrefl in Hr. Qed.

Lemma above_next s prev ups next changed : merged prev ups next changed →
  above s prev → above s ups → above s next.
Proof. intros (Hin & _) H1 H2 r Hr. destruct (Hin r Hr); auto. Qed.

Lemma sorted_above s l : StronglySorted row_lt (s :: l) → above s l ∧ StronglySorted row_lt l.
Proof. intros [Hs Ha]%StronglySorted_inv. split; [|done]. rewrite Forall_forall in Ha. exact Ha. Qed.

Lemma sorted_cons s l : above s l → StronglySorted row_lt l → StronglySorted row_lt (s :: l).
Proof. intros Ha Hs. constructor; [done|]. apply Forall_forall. exact Ha. Qed.

Lemma merged_nil : merged [] [] [] [].
Proof.
  split_and!; [by left|constructor|done|]. intros k. unfold merged_fact. simpl. by destruct (decide _).
Qed.

(** A retained row below every other: kept, or removed. *)
Lemma merged_less s prev ups next changed : above s prev → above s ups →
  merged prev ups next changed →
  merged (s :: prev) ups (if bool_decide (ss_id s ∈ removed) then next else s :: next)
    (if bool_decide (ss_id s ∈ removed) then ss_id s :: changed else changed).
Proof.
  intros Hp Hu Hm. pose proof (above_next s _ _ _ _ Hm Hp Hu) as Hn.
  destruct Hm as (Hin & Hs & -> & Hf). change (ss_id s) with (key s).
  assert (Hrow : ∀ k, merged_fact (s :: prev) ups k = if decide (key s = k)
    then (if decide (k ∈ removed) then None else Some (to_fact s)) else merged_fact prev ups k).
  { intros k. unfold merged_fact. simpl. destruct (decide (key s = k)) as [<-|]; [|done].
    by rewrite above_find. }
  case_bool_decide as Hr.
  - split_and!; [|done|by rewrite changes_left|].
    + intros r Hr'. destruct (Hin r Hr'); [left; by right|by right].
    + intros k. rewrite Hrow, Hf. destruct (decide (key s = k)) as [<-|]; [|done].
      unfold merged_fact. rewrite (above_find s ups) by done. by rewrite !decide_True.
  - split_and!; [|by apply sorted_cons| |].
    + intros r [->|Hr']%elem_of_cons; [left; by left|]. destruct (Hin r Hr'); [left; by right|by right].
    + rewrite changes_cons. unfold str_eqb. by rewrite bool_decide_eq_true_2, stored_symbol_eqb_refl.
    + intros k. rewrite Hrow. simpl. destruct (decide (key s = k)) as [<-|]; [|apply Hf].
      by rewrite decide_False.
Qed.

(** An upsert below every other: added. *)
Lemma merged_greater u prev ups next changed : above u prev → above u ups →
  merged prev ups next changed → merged prev (u :: ups) (u :: next) (ss_id u :: changed).
Proof.
  intros Hp Hu Hm. pose proof (above_next u _ _ _ _ Hm Hp Hu) as Hn.
  destruct Hm as (Hin & Hs & -> & Hf). split_and!.
  - intros r [->|Hr]%elem_of_cons; [right; by left|]. destruct (Hin r Hr); [by left|right; by right].
  - by apply sorted_cons.
  - by rewrite changes_right.
  - intros k. unfold merged_fact. simpl. destruct (decide (key u = k)); [done|]. apply Hf.
Qed.

(** An upsert of a retained row: kept when equal, replaced when not. *)
Lemma merged_equal s u prev ups next changed : ss_id s = ss_id u → above s prev → above s ups →
  merged prev ups next changed →
  merged (s :: prev) (u :: ups) ((if stored_symbol_eqb s u then s else u) :: next)
    (if stored_symbol_eqb s u then changed else ss_id s :: changed).
Proof.
  intros Hid Hp Hu Hm. pose proof (above_next s _ _ _ _ Hm Hp Hu) as Hn.
  destruct Hm as (Hin & Hs & -> & Hf).
  assert (Hrow : ∀ k, merged_fact (s :: prev) (u :: ups) k =
    if decide (key s = k) then Some (to_fact u) else merged_fact prev ups k).
  { intros k. unfold merged_fact. simpl. change (key s) with (ss_id s). change (key u) with (ss_id u).
    rewrite Hid. by destruct (decide (ss_id u = k)). }
  destruct (stored_symbol_eqb s u) eqn:E.
  - split_and!; [|by apply sorted_cons| |].
    + intros r [->|Hr]%elem_of_cons; [left; by left|]. destruct (Hin r Hr); [left|right]; by right.
    + rewrite changes_cons. unfold str_eqb. by rewrite bool_decide_eq_true_2, stored_symbol_eqb_refl.
    + intros k. rewrite Hrow. simpl. destruct (decide (key s = k)); [|apply Hf].
      by apply (f_equal Some), stored_symbol_eqb_fact.
  - split_and!.
    + intros r [->|Hr]%elem_of_cons; [right; by left|]. destruct (Hin r Hr); [left|right]; by right.
    + apply sorted_cons; [|done]. intros r Hr. change (key u) with (ss_id u). rewrite <-Hid. by apply Hn.
    + rewrite changes_cons, E. change (key s) with (ss_id s). change (key u) with (ss_id u).
      unfold str_eqb. by rewrite bool_decide_eq_true_2.
    + intros k. rewrite Hrow. simpl. change (key s) with (ss_id s). change (key u) with (ss_id u).
      rewrite Hid. destruct (decide (ss_id u = k)); [done|]. apply Hf.
Qed.

Lemma str_cmp_gt a b : str_cmp a b = Gt → str_lt b a.
Proof.
  intros E. destruct (str_lt_trichotomy a b) as [H|[->|H]]; [|by rewrite (proj2 (str_cmp_lt_eq b b)) in E|done].
  unfold str_lt in H. congruence.
Qed.

Lemma above_trans s r l : str_lt (key s) (key r) → above r l → above s (r :: l).
Proof. intros Hlt Ha x [->|Hx]%elem_of_cons; [done|]. etrans; [done|]. by apply Ha. Qed.

Lemma merge_rows_spec fuel prev ups : length prev + length ups ≤ fuel →
  StronglySorted row_lt prev → StronglySorted row_lt ups →
  let '(next, changed) := merge_symbol_rows fuel removed prev ups in merged prev ups next changed.
Proof.
  revert prev ups. induction fuel as [|fuel IH]; intros prev ups Hf Hp Hu.
  { destruct prev, ups; simpl in Hf; try lia. apply merged_nil. }
  destruct prev as [|s prev]; [destruct ups as [|u ups]; [apply merged_nil|]|].
  - apply sorted_above in Hu as [Hau Hu]. cbn [merge_symbol_rows length] in *.
    specialize (IH [] ups ltac:(simpl; lia) Hp Hu). destruct (merge_symbol_rows fuel removed [] ups).
    apply merged_greater; [|done|done]. intros r Hr. by apply elem_of_nil in Hr.
  - pose proof Hp as [Hap Hp']%sorted_above. destruct ups as [|u ups].
    { cbn [merge_symbol_rows length] in *. specialize (IH prev [] ltac:(simpl; lia) Hp' Hu).
      destruct (merge_symbol_rows fuel removed prev []) as [next changed].
      pose proof (merged_less s prev [] next changed Hap) as Hm.
      case_bool_decide; apply Hm; try done; intros r Hr; by apply elem_of_nil in Hr. }
    pose proof Hu as [Hau Hu']%sorted_above. cbn [merge_symbol_rows length] in *.
    destruct (str_cmp (ss_id s) (ss_id u)) eqn:E.
    + apply str_cmp_lt_eq in E. specialize (IH prev ups ltac:(lia) Hp' Hu').
      destruct (merge_symbol_rows fuel removed prev ups) as [next changed].
      assert (Has : above s ups) by (intros r Hr; unfold key, StoredSymbol_keyed; rewrite E; by apply Hau).
      pose proof (merged_equal s u _ _ _ _ E Hap Has IH) as Hm. by destruct (stored_symbol_eqb s u).
    + specialize (IH prev (u :: ups) ltac:(simpl; lia) Hp' Hu).
      destruct (merge_symbol_rows fuel removed prev (u :: ups)) as [next changed].
      pose proof (merged_less s _ _ _ _ Hap (above_trans s u ups E Hau) IH) as Hm. by case_bool_decide.
    + apply str_cmp_gt in E. specialize (IH (s :: prev) ups ltac:(simpl; lia) Hp Hu').
      destruct (merge_symbol_rows fuel removed (s :: prev) ups) as [next changed].
      apply merged_greater; [by apply above_trans|done|done].
Qed.

End merge.

(** ** Sorting the upserts *)

Definition id_le (x y : SymbolFact) : Prop := str_le (sf_id x) (sf_id y).

Lemma str_le_total a b : str_ltb a b = false → str_le b a.
Proof.
  intros E. destruct (str_lt_trichotomy a b) as [H|[->|H]]; [|by right|by left].
  apply str_ltb_lt in H. congruence.
Qed.

Lemma str_le_lt_trans a b c : str_le a b → str_le b c → str_le a c.
Proof. intros [H1|<-] [H2|<-]; [left; by etrans|by left|by left|by right]. Qed.

Lemma insert_elem f l x : x ∈ insert_symbol f l ↔ x = f ∨ x ∈ l.
Proof.
  induction l as [|g l IH]; simpl; [by rewrite elem_of_cons|].
  destruct (str_ltb _ _); rewrite !elem_of_cons, ?IH; [tauto|done].
Qed.

Lemma insert_sorted f l : StronglySorted id_le l → StronglySorted id_le (insert_symbol f l).
Proof.
  induction 1 as [|g l Hs IH Hg]; simpl; [by repeat constructor|]. rewrite Forall_forall in Hg.
  destruct (str_ltb (sf_id g) (sf_id f)) eqn:E.
  - constructor; [done|]. apply Forall_forall. intros x [->|Hx]%insert_elem; [|by apply Hg].
    left. by apply str_ltb_lt.
  - apply str_le_total in E. constructor; [constructor; [done|by apply Forall_forall]|].
    apply Forall_forall. intros x [->|Hx]%elem_of_cons; [done|]. eapply str_le_lt_trans; [exact E|by apply Hg].
Qed.

Lemma sort_symbols_sorted l : StronglySorted id_le (sort_symbols l).
Proof. induction l as [|f l IH]; simpl; [constructor|by apply insert_sorted]. Qed.

Lemma sort_symbols_elem l x : x ∈ sort_symbols l ↔ x ∈ l.
Proof. induction l as [|f l IH]; simpl; [done|]. by rewrite insert_elem, IH, elem_of_cons. Qed.

(** The sort is stable: the first row of an id stays first. *)
Lemma find_insert k f l :
  find_row k (insert_symbol f l) = if decide (sf_id f = k) then Some f else find_row k l.
Proof.
  induction l as [|g l IH]; [done|]. simpl. change (key g) with (sf_id g).
  destruct (str_ltb (sf_id g) (sf_id f)) eqn:E; simpl; change (key g) with (sf_id g).
  - rewrite IH. destruct (decide (sf_id g = k)) as [<-|]; [|done]. rewrite decide_False; [done|].
    intros Ef. apply str_ltb_lt in E. rewrite Ef in E. by apply str_lt_irrefl in E.
  - change (key f) with (sf_id f). done.
Qed.

Lemma find_sort k l : find_row k (sort_symbols l) = find_row k l.
Proof. induction l as [|f l IH]; [done|]. simpl. by rewrite find_insert, IH. Qed.

Lemma sort_sorted l : StronglySorted row_lt l → sort_symbols l = l.
Proof.
  induction 1 as [|f l Hs IH Hf]; [done|]. simpl. rewrite IH. destruct l as [|g l]; [done|]. simpl.
  inversion Hf as [|? ? Hg _]; subst. destruct (str_ltb (sf_id g) (sf_id f)) eqn:E; [|done].
  apply str_ltb_lt in E. by apply str_lt_not_gt in Hg.
Qed.

Lemma dedup_spec prev l : StronglySorted id_le l →
  (∀ p f, prev = Some p → f ∈ l → str_le p (sf_id f)) →
  let l' := dedup_symbols prev (from_fact <$> l) in
  StronglySorted row_lt l' ∧ (∀ s, s ∈ l' → ∃ f, f ∈ l ∧ s = from_fact f ∧
    ∀ p, prev = Some p → str_lt p (sf_id f)) ∧
  ∀ k, find_row k l' = if decide (prev = Some k) then None else from_fact <$> find_row k l.
Proof.
  cbv zeta. intros Hs. revert prev. induction Hs as [|f l Hs IH Hf]; intros prev Hp.
  { split_and!; [constructor|intros s Hs; by apply elem_of_nil in Hs|]. intros k. by destruct (decide _). }
  rewrite Forall_forall in Hf. cbn [fmap list_fmap dedup_symbols]. change (ss_id (from_fact f)) with (sf_id f).
  case_bool_decide as E.
  - destruct (IH prev) as (S1 & S2 & S3); [intros p g Eg Hg; apply Hp; [done|by right]|].
    split_and!; [done| |].
    + intros s Hs'. destruct (S2 s Hs') as (g & Hg & ?). exists g. split; [by right|done].
    + intros k. change (list_fmap SymbolFact StoredSymbol from_fact l) with (from_fact <$> l).
      rewrite S3, E. simpl. change (key f) with (sf_id f).
      destruct (decide (Some (sf_id f) = Some k)), (decide (sf_id f = k)); congruence.
  - destruct (IH (Some (sf_id f))) as (S1 & S2 & S3); [intros p g [= <-] Hg; by apply Hf|].
    split_and!.
    + constructor; [done|]. apply Forall_forall. intros s Hs'. destruct (S2 s Hs') as (g & _ & -> & Hlt).
      by apply Hlt.
    + intros s [->|Hs']%elem_of_cons.
      * exists f. split_and!; [by left|done|]. intros p Ep. destruct (Hp p f Ep) as [?| ->]; [by left|done|congruence].
      * destruct (S2 s Hs') as (g & Hg & -> & Hlt). exists g. split_and!; [by right|done|]. intros p Ep.
        destruct (Hp p f Ep) as [Hpf|Hpf]; [by left|etrans; [exact Hpf|by apply Hlt]|rewrite Hpf; by apply Hlt].
    + intros k. change (list_fmap SymbolFact StoredSymbol from_fact l) with (from_fact <$> l). simpl.
      change (key (from_fact f)) with (sf_id f). change (key f) with (sf_id f).
      destruct (decide (sf_id f = k)) as [<-|Hne].
      * by rewrite decide_False.
      * rewrite S3. rewrite (decide_False (P := Some (sf_id f) = Some k)) by congruence.
        destruct (decide (prev = Some k)) as [->|]; [|done].
        rewrite find_row_None; [done|]. intros g Hg Eg. change (key g) with (sf_id g) in Eg.
        destruct (Hp k f eq_refl) as [Hlt|Hlt]; [by left| |congruence].
        destruct (Hf g Hg) as [Hfg|Hfg]; rewrite Eg in Hfg.
        -- by apply (str_lt_irrefl k), (str_lt_trans _ (sf_id f)).
        -- rewrite Hfg in Hlt. by apply str_lt_irrefl in Hlt.
Qed.

(** ** Merging is replacing by the successor set *)

Lemma changes_regrouped prev l : Forall symbol_ok l →
  changes stored_symbol_eqb prev (from_fact <$> (to_fact <$> l)) = changes stored_symbol_eqb prev l.
Proof.
  intros Hok. apply changes_same; [by rewrite !length_fmap|]. intros i x y Hx Hy.
  rewrite !list_lookup_fmap, Hy in Hx. injection Hx as <-. split; [done|]. intros s.
  apply from_to_fact. rewrite Forall_forall in Hok. apply Hok. by eapply list_elem_of_lookup_2.
Qed.

Lemma no_changes prev next : changes stored_symbol_eqb prev next = [] →
  to_fact <$> prev = to_fact <$> next.
Proof.
  revert next. induction prev as [|s prev IH]; intros [|u next]; [done|by rewrite changes_nil_l|
    by rewrite changes_nil_r|]. rewrite changes_cons.
  destruct (str_eqb (key s) (key u)); [|by destruct (str_ltb _ _)].
  destruct (stored_symbol_eqb s u) eqn:E; [|done]. intros Hc. cbn [fmap list_fmap].
  f_equal; [by apply stored_symbol_eqb_fact|by apply IH].
Qed.

Lemma refact l : Forall symbol_ok l → to_fact <$> (from_fact <$> (to_fact <$> l)) = to_fact <$> l.
Proof.
  induction 1 as [|s l Hs Hl IH]; [done|]. cbn [fmap list_fmap] in *. f_equal; [|exact IH].
  symmetry. apply stored_symbol_eqb_fact. by rewrite from_to_fact, stored_symbol_eqb_refl.
Qed.

Lemma replace_symbols_facts t l : Forall symbol_ok l → StronglySorted row_lt l →
  ∃ t', replace_symbols t (to_fact <$> l) = (t', changes stored_symbol_eqb (rows (ft_symbols t)) l) ∧
    symbols t' = to_fact <$> l.
Proof.
  intros Hok Hs. unfold replace_symbols. rewrite sort_sorted by by apply row_lt_map.
  rewrite <-(changes_regrouped _ l Hok). eexists. split; [reflexivity|].
  unfold symbols, with_symbols. cbn [ft_symbols].
  destruct (from_sorted_ok (from_fact <$> (to_fact <$> l))) as [_ ->].
  - apply row_lt_map. rewrite refact by done. by apply row_lt_map.
  - by apply refact.
Qed.

Lemma with_symbols_ok t idx : table_ok t → index_ok idx → Forall symbol_ok (rows idx) →
  table_ok (with_symbols t idx).
Proof. intros (H1 & H2 & H3 & _ & _) Hidx Hs. by split_and!. Qed.

Lemma merge_symbols_spec t upserts removed : table_ok t → Forall fact_ok upserts →
  let '(t', changed) := merge_symbols t upserts removed in
  table_ok t' ∧
  (∀ id, symbol_fact t' id = match find_row id upserts with
     | Some f => Some f
     | None => if decide (id ∈ removed) then None else symbol_fact t id end) ∧
  ∃ t2, replace_symbols t (symbols t') = (t2, changed) ∧ facts t2 = facts t'.
Proof.
  intros Ht Hups. pose proof Ht as (_ & _ & _ & Hidx & Hsym). unfold merge_symbols.
  set (ups := dedup_symbols None (from_fact <$> sort_symbols upserts)).
  destruct (dedup_spec None (sort_symbols upserts) (sort_symbols_sorted _)) as (U1 & U2 & U3); [done|].
  fold ups in U1, U2, U3.
  assert (Hupok : ∀ f, f ∈ sort_symbols upserts → symbol_ok (from_fact f) ∧ to_fact (from_fact f) = f).
  { intros f Hf. apply from_fact_ok. rewrite Forall_forall in Hups. by apply Hups, sort_symbols_elem. }
  assert (Hps : StronglySorted row_lt (rows (ft_symbols t))) by apply Hidx.
  pose proof (merge_rows_spec removed _ _ _ (le_n _) Hps U1) as Hm.
  destruct (merge_symbol_rows _ removed (rows (ft_symbols t)) ups) as [next changed].
  destruct Hm as (Hin & Hsn & -> & Hfind).
  assert (Hokn : Forall symbol_ok next).
  { apply Forall_forall. intros s Hs. rewrite Forall_forall in Hsym.
    destruct (Hin s Hs) as [?|Hs']; [by apply Hsym|].
    destruct (U2 s Hs') as (f & Hf & -> & _). by apply Hupok. }
  assert (Hrow : ∀ id, to_fact <$> find_row id next = match find_row id upserts with
     | Some f => Some f
     | None => if decide (id ∈ removed) then None else symbol_fact t id end).
  { intros id. rewrite Hfind. unfold merged_fact, symbol_fact. rewrite U3, decide_False by done.
    rewrite index_get_spec by done.
    rewrite find_sort. destruct (find_row id upserts) as [f|] eqn:E; [|done]. simpl.
    destruct (Hupok f) as [_ ->]; [|done]. apply sort_symbols_elem. by apply find_row_Some in E as [? _]. }
  set (ch := changes stored_symbol_eqb (rows (ft_symbols t)) next).
  assert (Hfacts : ∃ t', (if is_nil ch then t else with_symbols t (from_sorted next)) = t' ∧
    table_ok t' ∧ symbols t' = to_fact <$> next ∧ ft_paths t' = ft_paths t).
  { eexists. split; [reflexivity|]. destruct (is_nil ch) eqn:E.
    - split_and!; [done| |done]. unfold symbols. apply no_changes. unfold ch in E.
      by destruct (changes _ _ _).
    - destruct (from_sorted_ok next Hsn) as [Hok' Hr']. split_and!; [|by unfold symbols; cbn; rewrite Hr'|done].
      apply with_symbols_ok; [done|done|by rewrite Hr']. }
  destruct Hfacts as (t' & -> & Hok' & Hs' & Hp'). split_and!; [done| |].
  - intros id. rewrite (symbol_row t' id Hok'), Hs', (find_row_map to_fact) by done. apply Hrow.
  - rewrite Hs'. destruct (replace_symbols_facts t next Hokn Hsn) as (t2 & E & Ht2).
    exists t2. split; [exact E|]. unfold facts. rewrite Ht2, Hs', Hp'. f_equal.
    unfold replace_symbols in E. by injection E as <- _.
Qed.
