(* ===== verification/WirePlanSpec.v ===== *)
(** * What a plan is taken from and covers

    [producer_ok]: the canonical orders [ProducerTable] documents. A lookup is
    then the row of the key, and the entity rows of a path are the same whether
    the table keeps them flat or in runs. Then what a plan of paths covers, and
    that the form of the entity rows and the encoder's equality of rows change
    no plan. *)
From S2P Require Import Order.
From S2P Require Export WirePlan PackedIndexSpec WireValues.

(** ** Lookup *)

Lemma sorted_lookup_spec {T} `{Keyed T} (l : list T) k :
  StronglySorted row_lt l → sorted_lookup l k = find_row k l.
Proof.
  intros Hs. destruct (sorted_split k l Hs) as (l1 & mid & l2 & E & H1 & Hm & H2 & Hc).
  pose proof (binary_search_split l k l1 mid l2 E H1 Hm H2) as Hb.
  unfold sorted_lookup. unfold binary_search in Hb.
  assert (Hi : partition_point (λ row, str_ltb (key row) k) l = length l1).
  { destruct (l !! partition_point (λ row, str_ltb (key row) k) l) as [r|];
      [destruct (str_eqb (key r) k)|]; destruct mid; congruence. }
  rewrite Hi. rewrite E at 1. rewrite lookup_app_r, Nat.sub_diag by lia.
  subst l. destruct Hc as [->|[r ->]]; simpl.
  - rewrite find_row_app, !(find_row_None k).
    + destruct l2 as [|r l2]; [done|]. simpl. unfold str_eqb. rewrite bool_decide_eq_false_2; [done|].
      intros Ek. specialize (H2 r (list_elem_of_here _ _)). rewrite Ek in H2. by apply str_lt_irrefl in H2.
    + intros r Hr Ek. apply H2 in Hr. rewrite Ek in Hr. by apply str_lt_irrefl in Hr.
    + intros r Hr Ek. apply H1 in Hr. rewrite Ek in Hr. by apply str_lt_irrefl in Hr.
  - unfold str_eqb. rewrite bool_decide_eq_true_2 by (apply Hm; by left).
    rewrite find_row_app, find_row_None.
    + simpl. by rewrite decide_True by (apply Hm; by left).
    + intros x Hx Ek. apply H1 in Hx. rewrite Ek in Hx. by apply str_lt_irrefl in Hx.
Qed.

(** ** Entity rows in order *)

Definition path_le (x y : EntityFact) : Prop := ¬ str_lt (entity_path y) (entity_path x).

Definition run_of_path (run : list EntityFact) : Prop :=
  run ≠ [] ∧ ∀ x y, x ∈ run → y ∈ run → entity_path x = entity_path y.

Definition entities_ok (rows : EntityRows) : Prop :=
  StronglySorted path_le (Entities.visited rows) ∧
  match rows with
  | Flat _ => True
  | Runs runs =>
      Forall run_of_path runs ∧
      StronglySorted (λ r1 r2, ∀ x y, x ∈ r1 → y ∈ r2 → str_lt (entity_path x) (entity_path y)) runs
  end.

(** The rows of one path. *)
Definition in_path (p : str) (l : list EntityFact) : list EntityFact :=
  filter (λ e, entity_path e = p) l.

Lemma in_path_app p l1 l2 : in_path p (l1 ++ l2) = in_path p l1 ++ in_path p l2.
Proof. apply filter_app. Qed.
Lemma in_path_all p l : (∀ e, e ∈ l → entity_path e = p) → in_path p l = l.
Proof.
  intros Hl. unfold in_path. induction l as [|e l IH]; [done|].
  rewrite filter_cons_True by (apply Hl; by left). f_equal. apply IH. intros; apply Hl. by right.
Qed.
Lemma in_path_none p l : (∀ e, e ∈ l → entity_path e ≠ p) → in_path p l = [].
Proof. apply filter_none. Qed.

(** The rows still to come at a cursor, and those passed. *)
Definition remaining (rows : EntityRows) (i : nat) : list EntityFact :=
  match rows with Flat es => drop i es | Runs rs => concat (drop i rs) end.
Definition passed (rows : EntityRows) (i : nat) : list EntityFact :=
  match rows with Flat es => take i es | Runs rs => concat (take i rs) end.

Lemma passed_remaining rows i : passed rows i ++ remaining rows i = Entities.visited rows.
Proof.
  destruct rows as [es|rs]; simpl; [apply take_drop|]. by rewrite <-concat_app, take_drop.
Qed.

Lemma same_path_spec p l : StronglySorted path_le l → (∀ e, e ∈ l → ¬ str_lt (entity_path e) p) →
  take (same_path p l) l = in_path p l ∧ (∀ e, e ∈ drop (same_path p l) l → str_lt p (entity_path e)).
Proof.
  induction 1 as [|e l Hs IH He]; intros Hge; [split; [done|intros e He; by apply elem_of_nil in He]|].
  rewrite Forall_forall in He. simpl. unfold str_eqb. case_bool_decide as Hp.
  - destruct IH as [I1 I2]; [intros x Hx; apply Hge; by right|]. simpl. split; [|done].
    unfold in_path. rewrite filter_cons_True by done. f_equal. exact I1.
  - simpl. assert (Hlt : str_lt p (entity_path e)).
    { destruct (str_lt_trichotomy p (entity_path e)) as [?|[?|Hx]]; [done|congruence|].
      by destruct (Hge e (list_elem_of_here _ _)). }
    assert (Hall : ∀ x, x ∈ e :: l → str_lt p (entity_path x)).
    { intros x [->|Hx]%elem_of_cons; [done|].
      destruct (str_lt_trichotomy p (entity_path x)) as [?|[Ex|Hx']]; [done| |].
      - destruct (He x Hx). by rewrite <-Ex.
      - destruct (He x Hx). by etrans. }
    split; [|done]. symmetry. apply in_path_none. intros x Hx E. apply Hall in Hx. rewrite E in Hx.
    by apply str_lt_irrefl in Hx.
Qed.

(** A flat run: its rows are those of its path, what follows is above it. *)
Lemma flat_run es i e : StronglySorted path_le es → es !! i = Some e →
  slice es i (path_end es i) = in_path (entity_path e) (drop i es) ∧
  (∀ x, x ∈ drop (path_end es i) es → str_lt (entity_path e) (entity_path x)) ∧
  drop i es = slice es i (path_end es i) ++ drop (path_end es i) es ∧ i < path_end es i.
Proof.
  intros Hs Hi. pose proof (drop_S es e i Hi) as Hd.
  assert (Hsd : StronglySorted path_le (e :: drop (S i) es)).
  { rewrite <-Hd. clear -Hs. revert i. induction Hs as [|a l Hs IH Ha]; intros [|i]; simpl;
      [constructor..|by constructor|apply IH]. }
  pose proof Hsd as [Hsd1 Hge]%StronglySorted_inv. rewrite Forall_forall in Hge.
  destruct (same_path_spec (entity_path e) (drop (S i) es) Hsd1 Hge) as [H1 H2].
  unfold path_end. rewrite Hi. unfold slice. set (n := same_path _ _) in *.
  replace (S i + n - i) with (S n) by lia. rewrite Hd. cbn [take]. rewrite H1.
  assert (Hdd : drop (S i + n) es = drop n (drop (S i) es)) by (rewrite drop_drop; done).
  split_and!; [|by rewrite Hdd| |lia].
  - unfold in_path. by rewrite filter_cons_True.
  - rewrite Hdd, <-H1. cbn [app]. by rewrite take_drop.
Qed.

Lemma in_path_below p l1 l2 : (∀ x y, x ∈ l1 → y ∈ l2 → str_lt (entity_path x) (entity_path y)) →
  (∃ y, y ∈ l2 ∧ entity_path y = p) → in_path p (l1 ++ l2) = in_path p l2.
Proof.
  intros Hlt (y & Hy & <-). rewrite in_path_app, (in_path_none _ l1); [done|]. intros x Hx E.
  pose proof (Hlt x y Hx Hy) as Hxy. rewrite E in Hxy. by apply str_lt_irrefl in Hxy.
Qed.

Lemma list_head_drop {A} (l : list A) i : head (drop i l) = l !! i.
Proof. revert i. induction l as [|a l IH]; intros [|i]; simpl; auto. Qed.

(** One step of an entity cursor at a run's start. *)
Lemma entity_step rows i e rest : entities_ok rows →
  (∀ x y, x ∈ passed rows i → y ∈ remaining rows i → str_lt (entity_path x) (entity_path y)) →
  remaining rows i = e :: rest →
  Entities.cursor_path rows i = Some (entity_path e) ∧
  Entities.cursor_run rows i = in_path (entity_path e) (Entities.visited rows) ∧
  remaining rows i = Entities.cursor_run rows i ++ remaining rows (Entities.cursor_next rows i) ∧
  passed rows (Entities.cursor_next rows i) = passed rows i ++ Entities.cursor_run rows i ∧
  (∀ x, x ∈ remaining rows (Entities.cursor_next rows i) → str_lt (entity_path e) (entity_path x)) ∧
  i < Entities.cursor_next rows i.
Proof.
  intros [Hs Hr] Hb He. assert (Hin : in_path (entity_path e) (Entities.visited rows) =
    in_path (entity_path e) (remaining rows i)).
  { rewrite <-(passed_remaining rows i). apply in_path_below; [done|]. exists e. rewrite He. by split; [left|]. }
  rewrite Hin. destruct rows as [es|rs]; simpl in *.
  - assert (Hi : es !! i = Some e) by by rewrite <-list_head_drop, He.
    destruct (flat_run es i e Hs Hi) as (H1 & H2 & H3 & H4). split_and!; try done.
    + by rewrite Hi.
    + rewrite <-(take_drop (path_end es i) es) at 1.
      assert (Hp : take (path_end es i) es = take i es ++ slice es i (path_end es i)).
      { unfold slice. replace (path_end es i) with (i + (path_end es i - i)) at 1 by lia.
        by rewrite take_take_drop. }
      rewrite take_drop. exact Hp.
  - destruct Hr as [Hruns Hord]. destruct (rs !! i) as [run|] eqn:Ei.
    2:{ apply lookup_ge_None in Ei. by rewrite drop_ge in He by lia. }
    rewrite (drop_S rs run i Ei) in *. simpl in *. rewrite Forall_forall in Hruns.
    destruct (Hruns run) as [Hne Hsame]; [by eapply list_elem_of_lookup_2|].
    destruct run as [|e' run]; [done|]. injection He as -> <-.
    assert (Habove : ∀ x, x ∈ concat (drop (S i) rs) → str_lt (entity_path e) (entity_path x)).
    { intros x Hx. apply list_elem_of_In, in_concat in Hx as (r & Hr & Hx).
      apply list_elem_of_In in Hr, Hx.
      assert (Hd : StronglySorted (λ r1 r2, ∀ x y, x ∈ r1 → y ∈ r2 →
        str_lt (entity_path x) (entity_path y)) (drop i rs)).
      { clear -Hord. revert i. induction Hord as [|a l Hs IH Ha]; intros [|i]; simpl;
          [constructor..|by constructor|apply IH]. }
      rewrite (drop_S rs _ i Ei) in Hd. apply StronglySorted_inv in Hd as [_ Hd].
      rewrite Forall_forall in Hd. apply (Hd r Hr e x); [by left|done]. }
    split_and!; [done| | | |done|lia].
    + simpl. rewrite app_comm_cons, in_path_app, in_path_all, in_path_none; [by rewrite app_nil_r| |].
      * intros x Hx E. apply Habove in Hx. rewrite E in Hx. by apply str_lt_irrefl in Hx.
      * intros x Hx. apply Hsame; [done|by left].
    + done.
    + rewrite (take_S_r _ _ _ Ei), concat_app. simpl. by rewrite app_nil_r.
Qed.

Lemma not_lt_cases a b : ¬ str_lt a b → a = b ∨ str_lt b a.
Proof. destruct (str_lt_trichotomy a b) as [?|[?|?]]; auto. done. Qed.

Lemma remaining_nil rows i : entities_ok rows →
  remaining rows i = [] ↔ Entities.cursor_len rows ≤ i.
Proof.
  intros [_ Hr]. destruct rows as [es|rs]; simpl in *.
  - split; intros Hx; [|by apply drop_ge]. apply (f_equal length) in Hx. rewrite length_drop in Hx. simpl in Hx. lia.
  - split; intros Hx; [|by rewrite drop_ge].
    destruct (rs !! i) as [run|] eqn:Ei; [|by apply lookup_ge_None in Ei].
    rewrite (drop_S rs run i Ei) in Hx. destruct Hr as [Hr _]. rewrite Forall_forall in Hr.
    destruct (Hr run) as [Hne _]; [by eapply list_elem_of_lookup_2|]. by destruct run.
Qed.

Lemma visited_runs_below rs p : Forall run_of_path rs →
  (∀ r, r ∈ rs → Entities.below p (run_path r) = true) →
  ∀ e, e ∈ concat rs → str_lt (entity_path e) p.
Proof.
  intros Hr Hb e He. apply list_elem_of_In, in_concat in He as (r & Hin & He).
  apply list_elem_of_In in Hin, He. rewrite Forall_forall in Hr. destruct (Hr r Hin) as [_ Hs].
  specialize (Hb r Hin). destruct r as [|f r]; [done|]. simpl in Hb. apply str_ltb_lt in Hb.
  by rewrite (Hs e f He (list_elem_of_here _ _)).
Qed.

(** Both representations answer the rows of the path. *)
Lemma entities_path_spec rows p : entities_ok rows →
  Entities.path rows p = in_path p (Entities.visited rows).
Proof.
  intros Hok. pose proof Hok as [Hs Hr]. destruct rows as [es|rs]; cbn [Entities.path Entities.visited] in *.
  - destruct (partition_point_split (λ e, str_ltb (entity_path e) p) es) as (l1 & l2 & E & -> & H1 & H2).
    subst es. rewrite lookup_app_r, Nat.sub_diag by lia.
    assert (Hin : in_path p (l1 ++ l2) = in_path p l2).
    { rewrite in_path_app, (in_path_none p l1); [done|]. intros e He Ep. specialize (H1 e He).
      simpl in H1. apply str_ltb_lt in H1. rewrite Ep in H1. by apply str_lt_irrefl in H1. }
    rewrite Hin. destruct l2 as [|e l2]; [done|]. simpl. simpl in H2.
    assert (Hi : (l1 ++ e :: l2) !! length l1 = Some e) by by rewrite lookup_app_r, Nat.sub_diag by lia.
    destruct (flat_run _ _ _ Hs Hi) as (F1 & F2 & F3 & _). rewrite drop_app_length in F1, F3.
    unfold str_eqb. case_bool_decide as Hp; [by rewrite F1, Hp|].
    assert (Hlt : str_lt p (entity_path e)).
    { destruct (not_lt_cases (entity_path e) p) as [?|?]; [|done|done].
      intros Hx. apply str_ltb_lt in Hx. congruence. }
    symmetry. apply in_path_none. rewrite F3, F1. intros x [Hx|Hx]%elem_of_app Ep.
    + apply list_elem_of_filter in Hx as [Hx _]. congruence.
    + apply F2 in Hx. rewrite Ep in Hx. by apply str_lt_not_gt in Hx.
  - destruct Hr as [Hruns Hord].
    destruct (partition_point_split (λ run, Entities.below p (run_path run)) rs) as (l1 & l2 & E & -> & H1 & H2).
    subst rs. rewrite lookup_app_r, Nat.sub_diag by lia. rewrite concat_app, in_path_app.
    apply Forall_app in Hruns as [Hruns1 Hruns2].
    rewrite (in_path_none p (concat l1)).
    2:{ intros e He Ep. pose proof (visited_runs_below l1 p Hruns1 H1 e He) as Hx. rewrite Ep in Hx.
        by apply str_lt_irrefl in Hx. }
    destruct l2 as [|run l2]; [done|]. simpl. rewrite in_path_app.
    inversion Hruns2 as [|? ? [Hne Hsame] Hrest]; subst. destruct run as [|f run]; [done|].
    assert (Habove : ∀ x, x ∈ concat l2 → str_lt (entity_path f) (entity_path x)).
    { intros x Hx. apply list_elem_of_In, in_concat in Hx as (r & Hr & Hx).
      apply list_elem_of_In in Hr, Hx.
      assert (Hd : StronglySorted (λ r1 r2, ∀ x y, x ∈ r1 → y ∈ r2 →
        str_lt (entity_path x) (entity_path y)) ((f :: run) :: l2)).
      { clear -Hord. induction l1 as [|a l1 IH]; [done|]. apply StronglySorted_inv in Hord as [? _]. auto. }
      apply StronglySorted_inv in Hd as [_ Hd]. rewrite Forall_forall in Hd.
      apply (Hd r Hr f x); [by left|done]. }
    cbn [run_path head fmap option_fmap option_map]. case_bool_decide as Hp.
    + injection Hp as Hp. rewrite in_path_all, in_path_none; [by rewrite app_nil_r| |].
      * intros x Hx E. apply Habove in Hx. rewrite Hp, E in Hx. by apply str_lt_irrefl in Hx.
      * intros x Hx. rewrite <-Hp. apply Hsame; [done|by left].
    + simpl in H2. assert (Hlt : str_lt p (entity_path f)).
      { destruct (not_lt_cases (entity_path f) p) as [?|?]; [|congruence|done].
        intros Hx. apply str_ltb_lt in Hx. congruence. }
      rewrite in_path_none, in_path_none; [done| |].
      * intros x Hx E. apply Habove in Hx. rewrite E in Hx. by apply str_lt_not_gt in Hx.
      * intros x Hx E. rewrite (Hsame x f Hx (list_elem_of_here _ _)) in E. rewrite E in Hlt.
        by apply str_lt_irrefl in Hlt.
Qed.

(** ** Tables *)

Definition producer_ok (t : ProducerTable) : Prop :=
  StronglySorted row_lt (pt_sources t) ∧ entities_ok (pt_entities t) ∧
  StronglySorted row_lt (pt_files t) ∧ StronglySorted row_lt (pt_symbols t).

Section table.
Context (t : ProducerTable) (Hok : producer_ok t).

Lemma producer_source_spec p : producer_source t p = find_row p (pt_sources t).
Proof. apply sorted_lookup_spec, Hok. Qed.
Lemma producer_file_spec p : producer_file t p = find_row p (pt_files t).
Proof. apply sorted_lookup_spec, Hok. Qed.
Lemma producer_symbol_spec id : producer_symbol t id = find_row id (pt_symbols t).
Proof. apply sorted_lookup_spec, Hok. Qed.
Lemma producer_entities_spec p :
  producer_entities t p = in_path p (Entities.visited (pt_entities t)).
Proof. apply entities_path_spec, Hok. Qed.

(** ** The cursor *)

(** The paths still ahead of a cursor, and those behind it. *)
Definition ahead (c : PathCursor) : list str :=
  (sd_path <$> drop (pc_source c) (pt_sources t)) ++
  (entity_path <$> remaining (pt_entities t) (pc_entity c)) ++
  (ff_path <$> drop (pc_file c) (pt_files t)).
Definition behind (c : PathCursor) : list str :=
  (sd_path <$> take (pc_source c) (pt_sources t)) ++
  (entity_path <$> passed (pt_entities t) (pc_entity c)) ++
  (ff_path <$> take (pc_file c) (pt_files t)).

Definition cursor_ok (c : PathCursor) : Prop :=
  ∀ x y, x ∈ behind c → y ∈ ahead c → str_lt x y.

Definition distance (c : PathCursor) : nat :=
  (length (pt_sources t) - pc_source c) + (Entities.cursor_len (pt_entities t) - pc_entity c) +
  (length (pt_files t) - pc_file c).

Lemma drop_nil_iff {A} (l : list A) i : drop i l = [] ↔ length l ≤ i.
Proof.
  split; intros Hx; [|by apply drop_ge]. apply (f_equal length) in Hx. rewrite length_drop in Hx.
  simpl in Hx. lia.
Qed.

Lemma cursor_valid_ahead c : cursor_valid t c = true ↔ ahead c ≠ [].
Proof.
  unfold cursor_valid, ahead. rewrite !orb_true_iff, !Nat.ltb_lt. split.
  - intros Hv E. apply app_nil in E as [E1 E]. apply app_nil in E as [E2 E3].
    apply fmap_nil_inv in E1, E2, E3. apply drop_nil_iff in E1, E3.
    apply remaining_nil in E2; [lia|apply Hok].
  - intros Hne. destruct (decide (length (pt_sources t) ≤ pc_source c)) as [H1|]; [|lia].
    destruct (decide (length (pt_files t) ≤ pc_file c)) as [H3|]; [|lia].
    destruct (decide (Entities.cursor_len (pt_entities t) ≤ pc_entity c)) as [H2|]; [|lia].
    destruct Hne. apply remaining_nil in H2; [|apply Hok].
    by rewrite H2, !drop_ge by lia.
Qed.

Lemma head_source_spec c : head_source t c = head (sd_path <$> drop (pc_source c) (pt_sources t)).
Proof.
  unfold head_source. rewrite <-list_head_drop. by destruct (drop _ _).
Qed.
Lemma head_file_spec c : head_file t c = head (ff_path <$> drop (pc_file c) (pt_files t)).
Proof. unfold head_file. rewrite <-list_head_drop. by destruct (drop _ _). Qed.

Lemma cursor_ok_entities c : cursor_ok c →
  ∀ x y, x ∈ passed (pt_entities t) (pc_entity c) → y ∈ remaining (pt_entities t) (pc_entity c) →
    str_lt (entity_path x) (entity_path y).
Proof.
  intros Hc x y Hx Hy. apply Hc; unfold behind, ahead; set_unfold; naive_solver.
Qed.

Lemma head_entity_spec c : cursor_ok c →
  head_entity t c = head (entity_path <$> remaining (pt_entities t) (pc_entity c)).
Proof.
  intros Hc. unfold head_entity. destruct (remaining (pt_entities t) (pc_entity c)) as [|e rest] eqn:E.
  - apply remaining_nil in E; [|apply Hok]. destruct (Nat.ltb_spec (pc_entity c) (Entities.cursor_len (pt_entities t))); [lia|done].
  - destruct (entity_step (pt_entities t) (pc_entity c) e rest) as (-> & _); [apply Hok|by apply cursor_ok_entities|done|].
    destruct (Nat.ltb_spec (pc_entity c) (Entities.cursor_len (pt_entities t))) as [|Hge]; [done|].
    apply remaining_nil in Hge; [congruence|apply Hok].
Qed.

(** One stream's step past the least path [p]. *)
Lemma stream_step {T} `{Keyed T} (l : list T) i p : StronglySorted row_lt l →
  (∀ x, x ∈ take i l → str_lt (key x) p) → (∀ x, x ∈ drop i l → ¬ str_lt (key x) p) →
  let here := bool_decide (key <$> l !! i = Some p) in
  let i' := if here then S i else i in
  (if here then l !! i else None) = find_row p l ∧
  (∀ x, x ∈ key <$> drop i l ↔ here = true ∧ x = p ∨ x ∈ key <$> drop i' l) ∧
  (∀ x, x ∈ key <$> take i' l → x ∈ key <$> take i l ∨ x = p) ∧
  (∀ x, x ∈ key <$> drop i' l → str_lt p x) ∧ (here = true → i < length l).
Proof.
  cbv zeta. intros Hs Hb Ha.
  assert (Hfind : find_row p l = find_row p (drop i l)).
  { rewrite <-(take_drop i l) at 1. rewrite find_row_app, (find_row_None p (take i l)); [done|].
    intros r Hr E. apply Hb in Hr. rewrite E in Hr. by apply str_lt_irrefl in Hr. }
  assert (Hsd : StronglySorted row_lt (drop i l)).
  { rewrite <-(take_drop i l) in Hs. by apply sorted_app_inv in Hs as (_ & Hs & _). }
  rewrite Hfind. destruct (l !! i) as [r|] eqn:Ei.
  2:{ apply lookup_ge_None in Ei. rewrite bool_decide_eq_false_2, drop_ge by done. simpl.
      split_and!; try done; [naive_solver|auto|]. intros x Hx. by apply elem_of_nil in Hx. }
  rewrite (drop_S l r i Ei) in *. apply StronglySorted_inv in Hsd as [Hsd Hr].
  rewrite Forall_forall in Hr. cbn [fmap option_fmap option_map].
  assert (Hrest : str_lt p (key r) ∨ key r = p).
  { destruct (not_lt_cases (key r) p) as [?|?]; [apply Ha; by left|by right|by left]. }
  case_bool_decide as Hp.
  - injection Hp as Hp. cbn [find_row]. rewrite decide_True by done. split_and!.
    + done.
    + intros x. cbn [fmap list_fmap]. rewrite elem_of_cons, Hp. tauto.
    + intros x. rewrite (take_S_r _ _ _ Ei), fmap_app. intros [?|Hx]%elem_of_app; [by left|].
      apply list_elem_of_singleton in Hx as ->. by right.
    + intros x (y & -> & Hy)%list_elem_of_fmap. rewrite <-Hp. by apply Hr.
    + intros _. by apply lookup_lt_Some in Ei.
  - assert (Hlt : str_lt p (key r)) by (destruct Hrest; [done|congruence]).
    assert (Hall : ∀ x, x ∈ r :: drop (S i) l → str_lt p (key x)).
    { intros x [->|Hx]%elem_of_cons; [done|]. etrans; [exact Hlt|by apply Hr]. }
    split_and!.
    + symmetry. apply find_row_None. intros x Hx E. apply Hall in Hx. rewrite E in Hx.
      by apply str_lt_irrefl in Hx.
    + intros x. rewrite (drop_S l r i Ei). naive_solver.
    + auto.
    + intros x. rewrite (drop_S l r i Ei). intros (y & -> & Hy)%list_elem_of_fmap. by apply Hall.
    + done.
Qed.

Lemma entity_stream_step i p :
  (∀ x y, x ∈ passed (pt_entities t) i → y ∈ remaining (pt_entities t) i →
     str_lt (entity_path x) (entity_path y)) →
  (∀ x, x ∈ passed (pt_entities t) i → str_lt (entity_path x) p) →
  (∀ x, x ∈ remaining (pt_entities t) i → ¬ str_lt (entity_path x) p) →
  let here := bool_decide (head (entity_path <$> remaining (pt_entities t) i) = Some p) in
  let i' := if here then Entities.cursor_next (pt_entities t) i else i in
  (if here then Entities.cursor_run (pt_entities t) i else []) = producer_entities t p ∧
  (∀ x, x ∈ entity_path <$> remaining (pt_entities t) i ↔
     here = true ∧ x = p ∨ x ∈ entity_path <$> remaining (pt_entities t) i') ∧
  (∀ x, x ∈ entity_path <$> passed (pt_entities t) i' →
     x ∈ entity_path <$> passed (pt_entities t) i ∨ x = p) ∧
  (∀ x, x ∈ entity_path <$> remaining (pt_entities t) i' → str_lt p x) ∧
  (here = true → i < i' ∧ i < Entities.cursor_len (pt_entities t)).
Proof.
  cbv zeta. intros Hb Hbp Hap. destruct Hok as (_ & He & _).
  rewrite producer_entities_spec, <-(passed_remaining _ i), in_path_app, (in_path_none p (passed _ i)).
  2:{ intros x Hx E. apply Hbp in Hx. rewrite E in Hx. by apply str_lt_irrefl in Hx. }
  destruct (remaining (pt_entities t) i) as [|e rest] eqn:Er.
  { simpl. rewrite Er. split_and!; try done; [naive_solver|auto|].
    intros x Hx. by apply elem_of_nil in Hx. }
  destruct (entity_step _ _ _ _ He ltac:(by rewrite Er) Er) as (_ & Hrun & Hsplit & Hpass & Habove & Hlt).
  rewrite Er in Hsplit. cbn [head fmap list_fmap app].
  assert (Hrunp : ∀ x, x ∈ Entities.cursor_run (pt_entities t) i → entity_path x = entity_path e).
  { intros x. rewrite Hrun. by intros [? _]%list_elem_of_filter. }
  case_bool_decide as Hp.
  - injection Hp as Hp. split_and!.
    + rewrite Hsplit, in_path_app, in_path_all, in_path_none; [by rewrite app_nil_r| |].
      * intros x Hx E. apply Habove in Hx. rewrite Hp, E in Hx. by apply str_lt_irrefl in Hx.
      * intros x Hx. rewrite <-Hp. by apply Hrunp.
    + intros x. change (entity_path e :: (entity_path <$> rest)) with (entity_path <$> e :: rest).
      rewrite Hsplit, fmap_app, elem_of_app. split.
      * intros [(y & -> & Hy)%list_elem_of_fmap|?]; [|by right]. left. split; [done|].
        rewrite <-Hp. by apply Hrunp.
      * intros [[_ ->]|?]; [|by right]. left. rewrite <-Hp. apply list_elem_of_fmap. exists e.
        split; [done|]. rewrite Hrun. apply list_elem_of_filter. split; [done|].
        rewrite <-(passed_remaining _ i), Er. apply elem_of_app. right. by left.
    + intros x. rewrite Hpass, fmap_app. intros [?|(y & -> & Hy)%list_elem_of_fmap]%elem_of_app; [by left|].
      right. rewrite <-Hp. by apply Hrunp.
    + intros x (y & -> & Hy)%list_elem_of_fmap. rewrite <-Hp. by apply Habove.
    + intros _. split; [done|]. destruct (decide (Entities.cursor_len (pt_entities t) ≤ i)) as [Hge|]; [|lia].
      apply remaining_nil in Hge; [congruence|done].
  - assert (Hlt' : str_lt p (entity_path e)).
    { destruct (not_lt_cases (entity_path e) p) as [?|?]; [apply Hap; by left|congruence|done]. }
    assert (Hall : ∀ x, x ∈ e :: rest → str_lt p (entity_path x)).
    { intros x. rewrite Hsplit. intros [Hx|Hx]%elem_of_app; [by rewrite (Hrunp x Hx)|].
      etrans; [exact Hlt'|by apply Habove]. }
    split_and!; [| |auto| |done].
    + symmetry. apply in_path_none. intros x Hx E. apply Hall in Hx. rewrite E in Hx.
      by apply str_lt_irrefl in Hx.
    + intros x. rewrite Er. cbn [fmap list_fmap]. naive_solver.
    + intros x. rewrite Er. intros (y & -> & Hy)%list_elem_of_fmap. by apply Hall.
Qed.

Lemma str_min_spec a b : (str_min a b = a ∨ str_min a b = b) ∧
  ¬ str_lt a (str_min a b) ∧ ¬ str_lt b (str_min a b).
Proof.
  unfold str_min. destruct (str_ltb b a) eqn:E.
  - apply str_ltb_lt in E. split_and!; [by right|by apply str_lt_not_gt|apply str_lt_irrefl].
  - split_and!; [by left|apply str_lt_irrefl|]. intros Hx. apply str_ltb_lt in Hx. congruence.
Qed.

Lemma min_path_spec a b m : min_path a b = Some m →
  (a = Some m ∨ b = Some m) ∧ (∀ x, a = Some x ∨ b = Some x → ¬ str_lt x m).
Proof.
  destruct a as [a|], b as [b|]; simpl; intros [= <-].
  - destruct (str_min_spec a b) as ([->| ->] & H1 & H2); naive_solver.
  - split; [by left|]. intros x [[= ->]|?]; [apply str_lt_irrefl|done].
  - split; [by right|]. intros x [?|[= ->]]; [done|apply str_lt_irrefl].
Qed.

Lemma min_path_none a b : min_path a b = None → a = None ∧ b = None.
Proof. by destruct a, b. Qed.

Lemma head_least {T} `{Keyed T} (l : list T) x : StronglySorted row_lt l → x ∈ l →
  ∃ k, head (key <$> l) = Some k ∧ ¬ str_lt (key x) k.
Proof.
  intros Hs Hx. destruct l as [|r l]; [by apply elem_of_nil in Hx|]. exists (key r). split; [done|].
  apply StronglySorted_inv in Hs as [_ Hr]. rewrite Forall_forall in Hr.
  apply elem_of_cons in Hx as [->|Hx]; [apply str_lt_irrefl|]. apply str_lt_not_gt, Hr, Hx.
Qed.

(** The least path is ahead, and nothing ahead is below it. *)
Lemma cursor_path_least c : cursor_ok c → cursor_valid t c = true →
  cursor_path t c ∈ ahead c ∧ ∀ x, x ∈ ahead c → ¬ str_lt x (cursor_path t c).
Proof.
  intros Hc Hv. apply cursor_valid_ahead in Hv. unfold cursor_path.
  set (hs := head_source t c). set (he := head_entity t c). set (hf := head_file t c).
  assert (Hin : ∀ x, hs = Some x ∨ he = Some x ∨ hf = Some x → x ∈ ahead c).
  { unfold hs, he, hf, ahead. rewrite head_source_spec, head_file_spec, head_entity_spec by done.
    intros x [Hx|[Hx|Hx]]; apply head_Some_elem_of in Hx; set_solver. }
  assert (Hleast : ∀ x, x ∈ ahead c → ∃ k, (hs = Some k ∨ he = Some k ∨ hf = Some k) ∧ ¬ str_lt x k).
  { unfold hs, he, hf, ahead. rewrite head_source_spec, head_file_spec, head_entity_spec by done.
    destruct Hok as (Hs & [He _] & Hf & _).
    assert (Hdrop : ∀ {T} `{Keyed T} (l : list T) i, StronglySorted row_lt l → StronglySorted row_lt (drop i l)).
    { intros T HT l i Hl. rewrite <-(take_drop i l) in Hl. by apply sorted_app_inv in Hl as (_ & ? & _). }
    intros x [Hx|[Hx|Hx]%elem_of_app]%elem_of_app; apply list_elem_of_fmap in Hx as (y & -> & Hy).
    - destruct (head_least _ y (Hdrop _ _ _ (pc_source c) Hs) Hy) as (k & Hk & Hlt). exists k. eauto.
    - rewrite <-(passed_remaining _ (pc_entity c)) in He.
      destruct (remaining (pt_entities t) (pc_entity c)) as [|e rest]; [by apply elem_of_nil in Hy|].
      exists (entity_path e). split; [by right; left|].
      assert (Hr : StronglySorted path_le (e :: rest)).
      { clear -He. induction (passed _ _) as [|a l IH]; [done|]. apply StronglySorted_inv in He as [? _]. auto. }
      apply StronglySorted_inv in Hr as [_ Hr]. rewrite Forall_forall in Hr.
      apply elem_of_cons in Hy as [->|Hy]; [apply str_lt_irrefl|by apply Hr].
    - destruct (head_least _ y (Hdrop _ _ _ (pc_file c) Hf) Hy) as (k & Hk & Hlt). exists k. eauto. }
  destruct (min_path (min_path hs he) hf) as [m|] eqn:Em; simpl.
  - apply min_path_spec in Em as [Hm Hmin].
    assert (Hall : ∀ x, hs = Some x ∨ he = Some x ∨ hf = Some x → ¬ str_lt x m).
    { intros x Hx. destruct (min_path hs he) as [m'|] eqn:Em'.
      - apply min_path_spec in Em' as [_ Hmin']. destruct Hx as [Hx|[Hx|Hx]]; [| |by apply Hmin; right].
        all: intros Hlt; apply (Hmin m'); [by left|]; destruct (not_lt_cases x m') as [->|?];
          [apply Hmin'; by (left + right)|done|by etrans].
      - apply min_path_none in Em' as [-> ->]. destruct Hx as [?|[?|?]]; [done..|]. apply Hmin. by right. }
    split.
    + apply Hin. destruct Hm as [Hm|Hm]; [|by right; right].
      apply min_path_spec in Hm as [[?|?] _]; [by left|by right; left].
    + intros x Hx Hlt. destruct (Hleast x Hx) as (k & Hk & Hxk). specialize (Hall k Hk).
      destruct (not_lt_cases x k Hxk) as [->|?]; [done|]. apply Hall. by etrans.
  - apply min_path_none in Em as [Em Ef]. apply min_path_none in Em as [Es Ee].
    destruct (ahead c) as [|x l] eqn:Ea; [done|]. destruct (Hleast x) as (k & Hk & _); [by left|].
    rewrite Es, Ee, Ef in Hk. naive_solver.
Qed.

(** A step: the rows of the least path, which moves behind the cursor. *)
Lemma cursor_step c : cursor_ok c → cursor_valid t c = true →
  let p := cursor_path t c in
  cursor_rows t c = rows_at t p ∧ cursor_ok (cursor_next t c) ∧
  (∀ x, x ∈ ahead c ↔ x = p ∨ x ∈ ahead (cursor_next t c)) ∧
  (∀ x, x ∈ ahead (cursor_next t c) → str_lt p x) ∧ distance (cursor_next t c) < distance c.
Proof.
  intros Hc Hv p. destruct (cursor_path_least c Hc Hv) as [Hp Hmin]. fold p in Hp, Hmin.
  assert (Hbehind : ∀ x, x ∈ behind c → str_lt x p) by (intros x Hx; by apply Hc).
  destruct Hok as (Hs & He & Hf & _).
  destruct (stream_step (pt_sources t) (pc_source c) p Hs) as (S1 & S2 & S3 & S4 & S5).
  { intros x Hx. apply Hbehind. unfold behind. apply elem_of_app. left. by apply list_elem_of_fmap_2. }
  { intros x Hx. apply Hmin. unfold ahead. apply elem_of_app. left. by apply list_elem_of_fmap_2. }
  destruct (stream_step (pt_files t) (pc_file c) p Hf) as (F1 & F2 & F3 & F4 & F5).
  { intros x Hx. apply Hbehind. unfold behind. rewrite !elem_of_app. right; right. by apply list_elem_of_fmap_2. }
  { intros x Hx. apply Hmin. unfold ahead. rewrite !elem_of_app. right; right. by apply list_elem_of_fmap_2. }
  destruct (entity_stream_step (pc_entity c) p (cursor_ok_entities c Hc)) as (E1 & E2 & E3 & E4 & E5).
  { intros x Hx. apply Hbehind. unfold behind. rewrite !elem_of_app. right; left. by apply list_elem_of_fmap_2. }
  { intros x Hx. apply Hmin. unfold ahead. rewrite !elem_of_app. right; left. by apply list_elem_of_fmap_2. }
  rewrite <-(head_entity_spec c Hc) in *.
  change (key <$> pt_sources t !! pc_source c) with (head_source t c) in *.
  change (key <$> pt_files t !! pc_file c) with (head_file t c) in *.
  rewrite <-producer_source_spec in S1. rewrite <-producer_file_spec in F1.
  unfold key, SourceDigest_keyed, FileFact_keyed in *.
  assert (Hahead : ∀ x, x ∈ ahead (cursor_next t c) ↔
    x ∈ sd_path <$> drop (pc_source (cursor_next t c)) (pt_sources t) ∨
    x ∈ entity_path <$> remaining (pt_entities t) (pc_entity (cursor_next t c)) ∨
    x ∈ ff_path <$> drop (pc_file (cursor_next t c)) (pt_files t)).
  { intros x. unfold ahead. by rewrite !elem_of_app. }
  unfold cursor_next in Hahead |- *. cbn [pc_source pc_entity pc_file] in Hahead |- *. fold p in Hahead |- *.
  assert (Habove : ∀ x, x ∈ ahead (cursor_next t c) → str_lt p x).
  { intros x. unfold cursor_next. fold p. rewrite Hahead. intros [Hx|[Hx|Hx]]; auto. }
  assert (Hsplit : ∀ x, x ∈ ahead c ↔ x = p ∨ x ∈ ahead (cursor_next t c)).
  { intros x. unfold cursor_next. fold p. rewrite Hahead. split.
    - unfold ahead. rewrite !elem_of_app, S2, E2, F2. tauto.
    - intros [->|Hx]; [done|]. unfold ahead. rewrite !elem_of_app, S2, E2, F2. tauto. }
  split_and!.
  - unfold cursor_rows, rows_at. fold p. by rewrite S1, E1, F1.
  - intros x y Hx Hy. fold p in Hx, Hy. assert (Hpy : str_lt p y) by (by apply Habove).
    unfold behind in Hx. cbn [pc_source pc_entity pc_file] in Hx.
    assert (Hx' : x ∈ behind c ∨ x = p).
    { unfold behind. rewrite !elem_of_app in Hx |- *. destruct Hx as [Hx|[Hx|Hx]];
        [apply S3 in Hx|apply E3 in Hx|apply F3 in Hx]; tauto. }
    destruct Hx' as [Hx'| ->]; [|done]. etrans; [by apply Hbehind|done].
  - exact Hsplit.
  - exact Habove.
  - assert (Hhere : head_source t c = Some p ∨ head_entity t c = Some p ∨ head_file t c = Some p).
    { assert (Hp' : p ∉ ahead (cursor_next t c)).
      { intros Hx. apply Habove in Hx. by apply str_lt_irrefl in Hx. }
      unfold cursor_next in Hp'. fold p in Hp'. rewrite Hahead in Hp'.
      unfold ahead in Hp. rewrite !elem_of_app, S2, E2, F2, !bool_decide_eq_true in Hp. tauto. }
    unfold distance. cbn [pc_source pc_entity pc_file].
    repeat case_bool_decide; try specialize (S5 eq_refl); try specialize (E5 eq_refl);
      try specialize (F5 eq_refl); try lia; naive_solver.
Qed.

(** ** The walk *)

Fixpoint walk (fuel : nat) (c : PathCursor) : list PathRows :=
  match fuel with
  | 0 => []
  | S fuel => if cursor_valid t c then cursor_rows t c :: walk fuel (cursor_next t c) else []
  end.

Lemma invalid_ahead c : cursor_valid t c = false → ahead c = [].
Proof.
  intros Hv. destruct (ahead c) as [|x l] eqn:E; [done|].
  assert (cursor_valid t c = true) by (apply cursor_valid_ahead; congruence). congruence.
Qed.

Lemma cursor_walk_spec fuel c : cursor_ok c → distance c ≤ fuel →
  ∃ ps, walk fuel c = rows_at t <$> ps ∧ StronglySorted str_lt ps ∧ ∀ p, p ∈ ps ↔ p ∈ ahead c.
Proof.
  revert c. induction fuel as [|fuel IH]; intros c Hc Hd.
  { exists []. split_and!; [done|constructor|]. intros p. simpl.
    destruct (cursor_valid t c) eqn:Ev; [|by rewrite (invalid_ahead c Ev)].
    destruct (cursor_step c Hc Ev) as (_ & _ & _ & _ & Hlt). lia. }
  simpl. destruct (cursor_valid t c) eqn:Ev.
  2:{ exists []. split_and!; [done|constructor|]. intros p. by rewrite (invalid_ahead c Ev). }
  destruct (cursor_step c Hc Ev) as (Hr & Hn & Ha & Hgt & Hlt).
  destruct (IH (cursor_next t c) Hn ltac:(lia)) as (ps & Hw & Hps & Hin).
  exists (cursor_path t c :: ps). split_and!.
  - cbn [fmap list_fmap]. by rewrite Hr, Hw.
  - constructor; [done|]. apply Forall_forall. intros x Hx. by apply Hgt, Hin.
  - intros p. by rewrite elem_of_cons, Ha, Hin.
Qed.

Lemma cursor_new_ok : cursor_ok cursor_new.
Proof.
  intros x y Hx. unfold behind in Hx. simpl in Hx.
  assert (Hn : passed (pt_entities t) 0 = []) by by destruct (pt_entities t).
  rewrite Hn in Hx. simpl in Hx. by apply elem_of_nil in Hx.
Qed.

Lemma distance_new : distance cursor_new = cursor_fuel t.
Proof. unfold distance, cursor_fuel. simpl. lia. Qed.

(** The paths of a table. *)
Definition has_path (p : str) : Prop := p ∈ ahead cursor_new.

Lemma has_path_rows p : has_path p ↔
  producer_source t p ≠ None ∨ producer_entities t p ≠ [] ∨ producer_file t p ≠ None.
Proof.
  unfold has_path, ahead. simpl. rewrite !drop_0, !elem_of_app.
  assert (Hv : remaining (pt_entities t) 0 = Entities.visited (pt_entities t))
    by (destruct (pt_entities t); simpl; by rewrite ?drop_0).
  rewrite Hv, producer_source_spec, producer_file_spec, producer_entities_spec.
  assert (Hf : ∀ {T} `{Keyed T} (l : list T), p ∈ key <$> l ↔ find_row p l ≠ None).
  { intros T HT l. split.
    - intros (r & -> & Hr)%list_elem_of_fmap E. clear -Hr E. induction l as [|x l IH]; [by apply elem_of_nil in Hr|].
      simpl in E. destruct (decide _) as [|Hne]; [done|]. apply elem_of_cons in Hr as [->|Hr]; [done|auto].
    - intros Hne. destruct (find_row p l) as [r|] eqn:E; [|done]. apply find_row_Some in E as [Hr <-].
      by apply list_elem_of_fmap_2. }
  rewrite <-(Hf _ _ (pt_sources t)), <-(Hf _ _ (pt_files t)).
  assert (He : p ∈ entity_path <$> Entities.visited (pt_entities t) ↔
    in_path p (Entities.visited (pt_entities t)) ≠ []).
  { split.
    - intros (e & -> & He)%list_elem_of_fmap E. assert (Hx : e ∈ in_path (entity_path e) (Entities.visited (pt_entities t)))
        by by apply list_elem_of_filter. rewrite E in Hx. by apply elem_of_nil in Hx.
    - intros Hne. destruct (in_path p _) as [|e l] eqn:E; [done|].
      assert (Hx : e ∈ in_path p (Entities.visited (pt_entities t))) by (rewrite E; by left).
      apply list_elem_of_filter in Hx as [<- Hx]. by apply list_elem_of_fmap_2. }
  rewrite <-He. done.
Qed.

End table.

(** * What a plan of paths covers

    Each planner is the per-path difference over a sorted list of paths
    ([planned]): all paths of the target for a full transition, the paths of
    either table for the walk, those of the manifest for an exact delta. *)

(** ** Operations over sorted paths *)

Definition op_at (f : str → option PathOpRef) (paths : list str) : list PathOpRef := omap f paths.

Lemma diff_path previous next cands op : pw_path previous = pw_path next →
  rows_difference previous next cands = Some op → pr_path op = pw_path next.
Proof. intros _. unfold rows_difference. destruct (_ || _ || _); [|done]. by intros [= <-]. Qed.

Lemma path_difference_path base target p cands op :
  path_difference base target p cands = Some op → pr_path op = p.
Proof.
  unfold path_difference. intros Hd. apply diff_path in Hd; [done|]. by destruct base.
Qed.

Lemma omap_sorted f ps : (∀ p op, f p = Some op → pr_path op = p) → StronglySorted str_lt ps →
  StronglySorted row_lt (omap f ps) ∧
  (∀ p, find_row p (omap f ps) = if decide (p ∈ ps) then f p else None) ∧
  (∀ op, op ∈ omap f ps → pr_path op ∈ ps).
Proof.
  intros Hf. induction 1 as [|q ps Hs IH Hq].
  { simpl. split_and!; [apply SSorted_nil|done|]. intros op Hop. by apply elem_of_nil in Hop. }
  destruct IH as (I1 & I2 & I3). rewrite Forall_forall in Hq. cbn [omap list_omap].
  assert (Hcons : ∀ p, p ≠ q → (if decide (p ∈ q :: ps) then f p else None) =
    (if decide (p ∈ ps) then f p else None)).
  { intros p Hne. destruct (decide (p ∈ ps)); [by rewrite decide_True by by right|].
    rewrite decide_False; [done|]. by intros [?|?]%elem_of_cons. }
  destruct (f q) as [op|] eqn:E.
  - pose proof (Hf q op E) as Hop. split_and!.
    + constructor; [done|]. apply Forall_forall. intros x Hx. unfold row_lt, key, PathOpRef_keyed.
      rewrite Hop. by apply Hq, I3.
    + intros p. cbn [find_row]. change (key op) with (pr_path op). rewrite Hop.
      destruct (decide (q = p)) as [->|Hne]; [by rewrite decide_True by by left|].
      rewrite Hcons by congruence. apply I2.
    + intros x [->|Hx]%elem_of_cons; [rewrite Hop; by left|right; by apply I3].
  - split_and!; [done| |].
    + intros p. destruct (decide (p = q)) as [->|Hne]; [|by rewrite Hcons by done; apply I2].
      rewrite I2, (decide_True _ _ (list_elem_of_here q ps)), E. by destruct (decide _).
    + intros x Hx. right. by apply I3.
Qed.

(** ** Paths without rows *)

Section plans.
Context (base target : ProducerTable) (Hbase : producer_ok base) (Htarget : producer_ok target).

Lemma rows_at_empty t p : producer_ok t → ¬ has_path t p → rows_at t p = rows_empty p.
Proof.
  intros Hok Hp. rewrite has_path_rows in Hp by done. unfold rows_at, rows_empty.
  destruct (producer_source t p); [naive_solver|]. destruct (producer_file t p); [naive_solver|].
  destruct (producer_entities t p); [done|naive_solver].
Qed.

Lemma full_difference p : has_path target p →
  ∃ op, path_difference None target p all_candidates = Some op.
Proof.
  rewrite has_path_rows by done. unfold path_difference, rows_difference, rows_at, rows_empty.
  cbn -[producer_source producer_entities producer_file].
  destruct (producer_source target p); [by eexists|].
  destruct (producer_file target p); [cbn; rewrite orb_true_r; by eexists|].
  destruct (producer_entities target p); [naive_solver|]. by eexists.
Qed.

(** ** The full plan *)

Definition full_op (p : str) : option PathOpRef := path_difference None target p all_candidates.

Lemma full_loop fuel c ops : cursor_ok target c → distance target c < fuel →
  (∀ p, p ∈ ahead target c → has_path target p) →
  ∃ ps, plan_full_loop fuel target c ops = Ok (ops ++ omap full_op ps) ∧
    StronglySorted str_lt ps ∧ ∀ p, p ∈ ps ↔ p ∈ ahead target c.
Proof.
  revert c ops. induction fuel as [|fuel IH]; intros c ops Hc Hd Hin; [lia|]. simpl.
  destruct (cursor_valid target c) eqn:Ev.
  2:{ exists []. simpl. rewrite app_nil_r. split_and!; [done|constructor|].
      intros p. by rewrite (invalid_ahead target Htarget c Ev). }
  destruct (cursor_step target Htarget c Hc Ev) as (_ & Hn & Ha & Hgt & Hlt).
  destruct (full_difference (cursor_path target c)) as [op Hop].
  { apply Hin, Ha. by left. }
  rewrite Hop. destruct (IH (cursor_next target c) (ops ++ [op]) Hn ltac:(lia)) as (ps & Hps & Hs & Hm).
  { intros p Hp. apply Hin, Ha. by right. }
  exists (cursor_path target c :: ps). split_and!.
  - rewrite Hps. simpl. unfold full_op at 2. rewrite Hop. by rewrite <-app_assoc.
  - constructor; [done|]. apply Forall_forall. intros x Hx. by apply Hgt, Hm.
  - intros p. by rewrite elem_of_cons, Ha, Hm.
Qed.

Lemma plan_full_spec : ∃ ps, plan_full target = Ok (omap full_op ps) ∧
  StronglySorted str_lt ps ∧ ∀ p, p ∈ ps ↔ has_path target p.
Proof.
  unfold plan_full. destruct (full_loop (S (cursor_fuel target)) cursor_new []) as (ps & E & Hs & Hin).
  - by apply cursor_new_ok.
  - rewrite distance_new. lia.
  - done.
  - by exists ps.
Qed.

(** ** The walk of both tables *)

Definition delta_op (p : str) : option PathOpRef := path_difference (Some base) target p all_candidates.

(** A path one cursor has passed is below what the other has ahead. *)
Definition apart (c1 c2 : PathCursor) : Prop :=
  cursor_ok base c1 ∧ cursor_ok target c2 ∧
  (∀ x, x ∈ ahead base c1 → has_path base x) ∧ (∀ y, y ∈ ahead target c2 → has_path target y) ∧
  (∀ x y, has_path base x → x ∉ ahead base c1 → y ∈ ahead target c2 → str_lt x y) ∧
  (∀ x y, has_path target y → y ∉ ahead target c2 → x ∈ ahead base c1 → str_lt y x).

Definition planned (c1 c2 : PathCursor) (ops : list PathOpRef) : Prop :=
  ∃ ps, ops = omap delta_op ps ∧ StronglySorted str_lt ps ∧
    ∀ p, p ∈ ps ↔ p ∈ ahead base c1 ∨ p ∈ ahead target c2.

Lemma planned_cons c1 c2 c1' c2' p ops : planned c1' c2' ops →
  (∀ x, x ∈ ahead base c1' ∨ x ∈ ahead target c2' → str_lt p x) →
  (∀ x, x ∈ ahead base c1 ∨ x ∈ ahead target c2 ↔ x = p ∨ x ∈ ahead base c1' ∨ x ∈ ahead target c2') →
  planned c1 c2 (option_list (delta_op p) ++ ops).
Proof.
  intros (ps & -> & Hs & Hin) Hgt Hiff. exists (p :: ps). split_and!.
  - simpl. by destruct (delta_op p).
  - constructor; [done|]. apply Forall_forall. intros x Hx. by apply Hgt, Hin.
  - intros x. by rewrite elem_of_cons, Hiff, Hin.
Qed.

Lemma step_left c1 c2 : apart c1 c2 → cursor_valid base c1 = true →
  (∀ y, y ∈ ahead target c2 → str_lt (cursor_path base c1) y) →
  apart (cursor_next base c1) c2 ∧ distance base (cursor_next base c1) < distance base c1 ∧
  ∀ ops, planned (cursor_next base c1) c2 ops →
    planned c1 c2 (option_list (rows_difference (cursor_rows base c1)
      (rows_empty (pw_path (cursor_rows base c1))) all_candidates) ++ ops).
Proof.
  intros (H1 & H2 & H3 & H4 & H5 & H6) Hv Hlt. set (p := cursor_path base c1) in *.
  destruct (cursor_step base Hbase c1 H1 Hv) as (Hr & Hn & Ha & Hgt & Hd). fold p in Hr, Ha, Hgt.
  assert (Hp : p ∈ ahead base c1) by (apply Ha; by left).
  split_and!; [|done|].
  - split_and!; [done|done| |done| |].
    + intros x Hx. apply H3, Ha. by right.
    + intros x y Hx Hnx Hy. destruct (decide (x = p)) as [->|Hne]; [by apply Hlt|].
      apply H5; [done| |done]. rewrite Ha. tauto.
    + intros x y Hy Hny Hx. apply H6; [done|done|]. apply Ha. by right.
  - intros ops Hops. rewrite Hr.
    assert (Ht : rows_at target p = rows_empty p).
    { apply rows_at_empty; [done|]. intros Hp'. destruct (decide (p ∈ ahead target c2)) as [Hin|Hin].
      - apply Hlt in Hin. by apply str_lt_irrefl in Hin.
      - pose proof (H6 p p Hp' Hin Hp) as Hx. by apply str_lt_irrefl in Hx. }
    change (pw_path (rows_at base p)) with p. rewrite <-Ht.
    apply (planned_cons _ _ (cursor_next base c1) c2 p); [done| |].
    + intros x [Hx|Hx]; [by apply Hgt|by apply Hlt].
    + intros x. rewrite Ha. tauto.
Qed.

Lemma step_right c1 c2 : apart c1 c2 → cursor_valid target c2 = true →
  (∀ x, x ∈ ahead base c1 → str_lt (cursor_path target c2) x) →
  apart c1 (cursor_next target c2) ∧ distance target (cursor_next target c2) < distance target c2 ∧
  ∀ ops, planned c1 (cursor_next target c2) ops →
    planned c1 c2 (option_list (rows_difference (rows_empty (pw_path (cursor_rows target c2)))
      (cursor_rows target c2) all_candidates) ++ ops).
Proof.
  intros (H1 & H2 & H3 & H4 & H5 & H6) Hv Hlt. set (p := cursor_path target c2) in *.
  destruct (cursor_step target Htarget c2 H2 Hv) as (Hr & Hn & Ha & Hgt & Hd). fold p in Hr, Ha, Hgt.
  assert (Hp : p ∈ ahead target c2) by (apply Ha; by left).
  split_and!; [|done|].
  - split_and!; [done|done|done| | |].
    + intros x Hx. apply H4, Ha. by right.
    + intros x y Hx Hnx Hy. apply H5; [done|done|]. apply Ha. by right.
    + intros x y Hy Hny Hx. destruct (decide (y = p)) as [->|Hne]; [by apply Hlt|].
      apply H6; [done| |done]. rewrite Ha. tauto.
  - intros ops Hops. rewrite Hr.
    assert (Ht : rows_at base p = rows_empty p).
    { apply rows_at_empty; [done|]. intros Hp'. destruct (decide (p ∈ ahead base c1)) as [Hin|Hin].
      - apply Hlt in Hin. by apply str_lt_irrefl in Hin.
      - pose proof (H5 p p Hp' Hin Hp) as Hx. by apply str_lt_irrefl in Hx. }
    change (pw_path (rows_at target p)) with p. rewrite <-Ht.
    apply (planned_cons _ _ c1 (cursor_next target c2) p); [done| |].
    + intros x [Hx|Hx]; [by apply Hlt|by apply Hgt].
    + intros x. rewrite Ha. tauto.
Qed.

Lemma step_both c1 c2 : apart c1 c2 → cursor_valid base c1 = true → cursor_valid target c2 = true →
  cursor_path base c1 = cursor_path target c2 →
  apart (cursor_next base c1) (cursor_next target c2) ∧
  distance base (cursor_next base c1) < distance base c1 ∧
  distance target (cursor_next target c2) < distance target c2 ∧
  ∀ ops, planned (cursor_next base c1) (cursor_next target c2) ops →
    planned c1 c2 (option_list (rows_difference (cursor_rows base c1) (cursor_rows target c2)
      all_candidates) ++ ops).
Proof.
  intros (H1 & H2 & H3 & H4 & H5 & H6) Hv1 Hv2 Heq.
  destruct (cursor_step base Hbase c1 H1 Hv1) as (Hr1 & Hn1 & Ha1 & Hgt1 & Hd1).
  destruct (cursor_step target Htarget c2 H2 Hv2) as (Hr2 & Hn2 & Ha2 & Hgt2 & Hd2).
  rewrite <-Heq in *. set (p := cursor_path base c1) in *.
  split_and!; [|done|done|].
  - split_and!; [done|done| | | |].
    + intros x Hx. apply H3, Ha1. by right.
    + intros x Hx. apply H4, Ha2. by right.
    + intros x y Hx Hnx Hy. destruct (decide (x = p)) as [->|Hne]; [by apply Hgt2|].
      apply H5; [done| |apply Ha2; by right]. rewrite Ha1. tauto.
    + intros x y Hy Hny Hx. destruct (decide (y = p)) as [->|Hne]; [by apply Hgt1|].
      apply H6; [done| |apply Ha1; by right]. rewrite Ha2. tauto.
  - intros ops Hops. rewrite Hr1, Hr2.
    apply (planned_cons _ _ (cursor_next base c1) (cursor_next target c2) p); [done| |].
    + intros x [Hx|Hx]; [by apply Hgt1|by apply Hgt2].
    + intros x. rewrite Ha1, Ha2. tauto.
Qed.

Lemma least_above t c q : producer_ok t → cursor_ok t c → cursor_valid t c = true →
  str_lt q (cursor_path t c) → ∀ x, x ∈ ahead t c → str_lt q x.
Proof.
  intros Ht Hc Hv Hlt x Hx. destruct (cursor_path_least t Ht c Hc Hv) as [_ Hmin].
  destruct (not_lt_cases x (cursor_path t c) (Hmin x Hx)) as [->|?]; [done|by etrans].
Qed.

Lemma fallback_planned fuel c1 c2 : apart c1 c2 → distance base c1 + distance target c2 ≤ fuel →
  planned c1 c2 (fallback_loop fuel base target c1 c2).
Proof.
  revert c1 c2. induction fuel as [|fuel IH]; intros c1 c2 Hap Hd; pose proof Hap as (H1 & H2 & _).
  { assert (Hv1 : cursor_valid base c1 = false).
    { destruct (cursor_valid base c1) eqn:E; [|done].
      destruct (cursor_step base Hbase c1 H1 E) as (_ & _ & _ & _ & ?). lia. }
    assert (Hv2 : cursor_valid target c2 = false).
    { destruct (cursor_valid target c2) eqn:E; [|done].
      destruct (cursor_step target Htarget c2 H2 E) as (_ & _ & _ & _ & ?). lia. }
    exists []. split_and!; [done|constructor|]. intros p.
    rewrite (invalid_ahead base Hbase c1 Hv1), (invalid_ahead target Htarget c2 Hv2).
    split; [by intros ?%elem_of_nil|by intros [?%elem_of_nil|?%elem_of_nil]]. }
  cbn [fallback_loop]. cbv zeta. destruct (cursor_valid base c1) eqn:Ev1, (cursor_valid target c2) eqn:Ev2.
  - cbn [andb]. change (pw_path (cursor_rows base c1)) with (cursor_path base c1) at 1.
    change (pw_path (cursor_rows target c2)) with (cursor_path target c2) at 1.
    destruct (str_cmp (cursor_path base c1) (cursor_path target c2)) eqn:Ec.
    + assert (Heq : cursor_path base c1 = cursor_path target c2).
      { destruct (str_lt_trichotomy (cursor_path base c1) (cursor_path target c2)) as [Hx|[Hx|Hx]]; [|done|];
          unfold str_lt in Hx; [congruence|]. rewrite (cmp_sym _ str_cmp_order), Ec in Hx. done. }
      destruct (step_both c1 c2 Hap Ev1 Ev2 Heq) as (Hap' & ? & ? & Hk). apply Hk, IH; [done|lia].
    + destruct (step_left c1 c2 Hap Ev1) as (Hap' & ? & Hk); [by apply least_above|].
      apply Hk, IH; [done|lia].
    + assert (Hlt : str_lt (cursor_path target c2) (cursor_path base c1)).
      { unfold str_lt. rewrite (cmp_sym _ str_cmp_order), Ec. done. }
      destruct (step_right c1 c2 Hap Ev2) as (Hap' & ? & Hk); [by apply least_above|].
      apply Hk, IH; [done|lia].
  - destruct (step_left c1 c2 Hap Ev1) as (Hap' & ? & Hk).
    { rewrite (invalid_ahead target Htarget c2 Ev2). intros y Hy. by apply elem_of_nil in Hy. }
    apply Hk, IH; [done|lia].
  - destruct (step_right c1 c2 Hap Ev2) as (Hap' & ? & Hk).
    { rewrite (invalid_ahead base Hbase c1 Ev1). intros y Hy. by apply elem_of_nil in Hy. }
    apply Hk, IH; [done|lia].
  - exists []. split_and!; [done|constructor|]. intros p.
    rewrite (invalid_ahead base Hbase c1 Ev1), (invalid_ahead target Htarget c2 Ev2).
    split; [by intros ?%elem_of_nil|by intros [?%elem_of_nil|?%elem_of_nil]].
Qed.

(** The walk is the difference over every path of either table. *)
Lemma plan_fallback_spec : ∃ ps, plan_fallback_path_delta base target = omap delta_op ps ∧
  StronglySorted str_lt ps ∧ ∀ p, p ∈ ps ↔ has_path base p ∨ has_path target p.
Proof.
  apply fallback_planned.
  - split_and!; [by apply cursor_new_ok..|done|done|done|done].
  - by rewrite !distance_new.
Qed.

End plans.

(** * Entity rows flat and in runs

    [EntityRows] holds a table's rows either flat or grouped by path.
    Grouping ([into_runs]) keeps the rows and their order, and the encoder
    makes the same transition of a table whichever form its rows have.

    Then: rows up to the equality of the encoder. *)

(** ** Grouping *)

Definition runs_apart (r1 r2 : list EntityFact) : Prop :=
  ∀ x y, x ∈ r1 → y ∈ r2 → str_lt (entity_path x) (entity_path y).

Lemma in_path_run p l e : e ∈ in_path p l → entity_path e = p.
Proof. unfold in_path. by intros [? _]%list_elem_of_filter. Qed.

Lemma group_runs_spec es fuel start : StronglySorted path_le es → length es - start ≤ fuel →
  let runs := Entities.group_runs fuel es start in
  concat runs = drop start es ∧ Forall run_of_path runs ∧ StronglySorted runs_apart runs.
Proof.
  intros Hs. revert start. induction fuel as [|fuel IH]; intros start Hf; simpl.
  { rewrite drop_ge by lia. split_and!; [done|constructor..]. }
  destruct (Nat.ltb_spec start (length es)) as [Hlt|Hge].
  2:{ rewrite drop_ge by lia. split_and!; [done|constructor..]. }
  destruct (lookup_lt_is_Some_2 _ _ Hlt) as [e He].
  destruct (flat_run es start e Hs He) as (Hrun & Habove & Hsplit & Hnext).
  destruct (IH (path_end es start) ltac:(lia)) as (I1 & I2 & I3). cbn [concat]. split_and!.
  - by rewrite I1, <-Hsplit.
  - constructor; [|done]. split.
    + intros Hnil. rewrite Hnil in Hrun. assert (Hin : e ∈ in_path (entity_path e) (drop start es)).
      { apply list_elem_of_filter. split; [done|]. rewrite (drop_S _ _ _ He). by left. }
      rewrite <-Hrun in Hin. by apply elem_of_nil in Hin.
    + rewrite Hrun. intros x y Hx%in_path_run Hy%in_path_run. congruence.
  - constructor; [done|]. apply Forall_forall. intros run Hin x y Hx Hy. rewrite Hrun in Hx.
    apply in_path_run in Hx. rewrite Hx. apply Habove. rewrite <-I1. apply list_elem_of_In, in_concat. exists run. by rewrite <-!list_elem_of_In.
Qed.

Lemma into_runs_visited rows : entities_ok rows →
  Entities.visited (Entities.into_runs rows) = Entities.visited rows.
Proof.
  destruct rows as [es|runs]; [|done]. intros [Hs _].
  by destruct (group_runs_spec es (length es) 0 Hs ltac:(lia)) as (? & _).
Qed.

Lemma into_runs_ok rows : entities_ok rows → entities_ok (Entities.into_runs rows).
Proof.
  intros Hok. pose proof (into_runs_visited rows Hok) as Hv. split; [rewrite Hv; apply Hok|].
  destruct rows as [es|runs]; [|apply Hok]. destruct Hok as [Hs _].
  by destruct (group_runs_spec es (length es) 0 Hs ltac:(lia)) as (_ & ? & ?).
Qed.

(** ** Tables *)

Definition with_entities (t : ProducerTable) (rows : EntityRows) : ProducerTable :=
  {| pt_schema := pt_schema t; pt_generation := pt_generation t; pt_project_id := pt_project_id t;
     pt_sources := pt_sources t; pt_entities := rows; pt_files := pt_files t;
     pt_symbols := pt_symbols t; pt_state_id := pt_state_id t; pt_transport := pt_transport t;
     pt_path_symbols := pt_path_symbols t |}.

Definition in_runs (t : ProducerTable) : ProducerTable :=
  with_entities t (Entities.into_runs (pt_entities t)).

Definition input_in_runs (input : TransitionInput) : TransitionInput :=
  {| ti_project_id := ti_project_id input; ti_base_state_token := ti_base_state_token input;
     ti_base := in_runs <$> ti_base input; ti_target := in_runs (ti_target input);
     ti_sparse := ti_sparse input |}.

Lemma in_runs_ok t : producer_ok t → producer_ok (in_runs t).
Proof. intros (Hs & He & Hf & Hy). split_and!; [done|by apply into_runs_ok|done|done]. Qed.

Lemma in_runs_rows t p : producer_ok t → rows_at (in_runs t) p = rows_at t p.
Proof.
  intros Hok. unfold rows_at. f_equal. change (producer_entities (in_runs t) p = producer_entities t p).
  rewrite !producer_entities_spec by (done || by apply in_runs_ok).
  unfold in_runs. cbn [pt_entities with_entities]. by rewrite into_runs_visited by apply Hok.
Qed.

Lemma in_runs_path t p : producer_ok t → has_path (in_runs t) p ↔ has_path t p.
Proof.
  intros Hok. rewrite !has_path_rows by (done || by apply in_runs_ok).
  pose proof (in_runs_rows t p Hok) as Hr. unfold rows_at in Hr.
  change (Entities.path (pt_entities ?t)) with (producer_entities t) in Hr.
  change (producer_source (in_runs t) p) with (producer_source t p).
  change (producer_file (in_runs t) p) with (producer_file t p).
  assert (producer_entities (in_runs t) p = producer_entities t p) as -> by congruence. done.
Qed.

(** ** Plans *)

Lemma omap_same f g ps qs : (∀ p op, f p = Some op → pr_path op = p) → (∀ p, f p = g p) →
  StronglySorted str_lt ps → StronglySorted str_lt qs → (∀ p, p ∈ ps ↔ p ∈ qs) →
  omap f ps = omap g qs.
Proof.
  intros Hf Hfg Hps Hqs Hin.
  assert (Hg : ∀ p op, g p = Some op → pr_path op = p) by (intros p op; rewrite <-Hfg; apply Hf).
  destruct (omap_sorted f ps Hf Hps) as (S1 & F1 & _), (omap_sorted g qs Hg Hqs) as (S2 & F2 & _).
  apply sorted_rows_ext; [done|done|]. intros k. rewrite F1, F2, Hfg.
  destruct (decide (k ∈ ps)) as [Hk|Hk]; [by rewrite decide_True by by apply Hin|].
  rewrite decide_False; [done|]. by intros ?%Hin.
Qed.

Lemma in_runs_difference base target p cands : producer_ok target →
  (∀ b, base = Some b → producer_ok b) →
  path_difference (in_runs <$> base) (in_runs target) p cands = path_difference base target p cands.
Proof.
  intros Ht Hb. unfold path_difference. rewrite in_runs_rows by done.
  destruct base as [b|]; [|done]. cbn [fmap option_fmap option_map]. by rewrite in_runs_rows by auto.
Qed.

Lemma plan_full_in_runs target : producer_ok target → plan_full (in_runs target) = plan_full target.
Proof.
  intros Ht. destruct (plan_full_spec target Ht) as (ps & -> & Hps & Hin).
  destruct (plan_full_spec (in_runs target) (in_runs_ok _ Ht)) as (qs & -> & Hqs & Hinq).
  f_equal. apply omap_same; [|intros p; by apply (in_runs_difference None)|done..|].
  - intros p op. apply path_difference_path.
  - intros p. rewrite Hin, Hinq. by apply in_runs_path.
Qed.

Lemma plan_fallback_in_runs base target : producer_ok base → producer_ok target →
  plan_fallback_path_delta (in_runs base) (in_runs target) = plan_fallback_path_delta base target.
Proof.
  intros Hb Ht. destruct (plan_fallback_spec base target Hb Ht) as (ps & -> & Hps & Hin).
  destruct (plan_fallback_spec (in_runs base) (in_runs target) (in_runs_ok _ Hb) (in_runs_ok _ Ht))
    as (qs & -> & Hqs & Hinq).
  apply omap_same; [|intros p; apply (in_runs_difference (Some base)); naive_solver|done..|].
  - intros p op. apply path_difference_path.
  - intros p. by rewrite Hin, Hinq, !in_runs_path.
Qed.

Lemma plan_exact_in_runs base target m : producer_ok base → producer_ok target →
  plan_exact_path_delta (in_runs base) (in_runs target) m = plan_exact_path_delta base target m.
Proof.
  intros Hb Ht. unfold plan_exact_path_delta. apply list_omap_ext, Forall_Forall2_diag, Forall_true.
  intros p. apply (in_runs_difference (Some base)); naive_solver.
Qed.

Lemma plan_sparse_in_runs target m : producer_ok target →
  plan_sparse_paths (in_runs target) m = plan_sparse_paths target m.
Proof.
  intros Ht. unfold plan_sparse_paths. apply list_fmap_ext. intros i p _.
  unfold sparse_operation. by rewrite in_runs_rows.
Qed.

Definition input_ok (input : TransitionInput) : Prop :=
  producer_ok (ti_target input) ∧ ∀ b, ti_base input = Some b → producer_ok b.

Lemma plan_operations_in_runs mode input : input_ok input →
  plan_operations mode (input_in_runs input) = plan_operations mode input.
Proof.
  intros [Ht Hb]. unfold plan_operations, input_in_runs. cbn [ti_base ti_target ti_sparse].
  change (exact_manifest (in_runs (ti_target input))) with (exact_manifest (ti_target input)).
  destruct mode; [by rewrite plan_full_in_runs|].
  destruct (ti_base input) as [b|]; cbn [fmap option_fmap option_map]; [|by rewrite plan_full_in_runs].
  specialize (Hb b eq_refl). rewrite plan_fallback_in_runs by done.
  destruct (ti_sparse input), (exact_manifest (ti_target input)) as [m|]; cbn [ok_or mbind result_bind];
    try done; [by rewrite plan_sparse_in_runs|by rewrite plan_exact_in_runs].
Qed.

(** The encoder does not tell the two forms apart. *)
Lemma encode_in_runs {S} `{TransitionSink S} schema input (sink : option S) : input_ok input →
  encode_with schema (input_in_runs input) sink = encode_with schema input sink.
Proof.
  intros Hok. unfold encode_with.
  assert (Hv : validate (input_in_runs input) = validate input).
  { unfold validate, input_in_runs. cbn [ti_project_id ti_base ti_base_state_token ti_target].
    by destruct (ti_base input). }
  rewrite Hv. destruct (ensure_encode _ _); [|done]. cbn [mbind result_bind].
  destruct (validate input) as [[mode bg]|]; [|done]. cbn [mbind result_bind].
  by rewrite plan_operations_in_runs.
Qed.

(** * Rows up to the equality of the encoder

    A delta leaves out what [PartialEq] finds equal, and [PartialEq] on a float
    takes the two zeros for one.  [canon_entity] makes that identification:
    rows the encoder finds equal are the same row after it, at every schema. *)

Definition canon_f64 (x : f64) : f64 := if is_zero x then f64_zero else x.

Definition canon_constant (c : ConstantValue) : ConstantValue :=
  {| cv_kind := cv_kind c; cv_string := cv_string c; cv_number := canon_f64 (cv_number c) |}.

Definition canon_candidate (c : PrimitiveLiteralCandidate) : PrimitiveLiteralCandidate :=
  {| plc_kind := plc_kind c; plc_string := plc_string c; plc_number := canon_f64 (plc_number c);
     plc_boolean := plc_boolean c |}.

Definition canon_entity (e : EntityFact) : EntityFact :=
  {| ef_location := ef_location e; ef_symbol := ef_symbol e; ef_symbol_claim := ef_symbol_claim e;
     ef_type_descriptor := ef_type_descriptor e; ef_resolved_call := ef_resolved_call e;
     ef_callability := ef_callability e; ef_constructability := ef_constructability e;
     ef_runtime_binding_kind := ef_runtime_binding_kind e;
     ef_runtime_value_domain := ef_runtime_value_domain e;
     ef_primitive_value_domain := ef_primitive_value_domain e;
     ef_primitive_literal_candidates := (λ cs : list _, canon_candidate <$> cs) <$> ef_primitive_literal_candidates e;
     ef_call_result_domain := ef_call_result_domain e;
     ef_constant_value := canon_constant <$> ef_constant_value e;
     ef_array_shape := ef_array_shape e; ef_tuple_shape := ef_tuple_shape e;
     ef_library_types := ef_library_types e; ef_declared_keys := ef_declared_keys e;
     ef_writable_optional_property := ef_writable_optional_property e;
     ef_reference_space := ef_reference_space e; ef_runtime_identity := ef_runtime_identity e |}.

(** What a client of a schema can tell of a row. *)
Definition entity_view (schema : N) (e : EntityFact) : EntityFact :=
  canon_entity (project_entity schema e).

Lemma f64_eqb_canon x y : f64_eqb x y = true → canon_f64 x = canon_f64 y.
Proof.
  unfold f64_eqb, canon_f64. rewrite !andb_true_iff, orb_true_iff, andb_true_iff, N.eqb_eq.
  intros [_ [E|[-> ->]]]; [|done]. destruct x, y. simpl in E. by subst.
Qed.

Lemma eqb_eq {A} `{EqDecision A} (x y : A) : WireFacts.eqb x y = true ↔ x = y.
Proof. apply bool_decide_eq_true. Qed.

Lemma list_eqb_map {A B} (f : A → A → bool) (g : A → B) l k :
  (∀ x y, f x y = true → g x = g y) → list_eqb f l k = true → g <$> l = g <$> k.
Proof.
  intros Hf. revert k. induction l as [|x l IH]; intros [|y k]; simpl; try done.
  rewrite andb_true_iff. intros [Hx Hl]. cbn [fmap list_fmap]. f_equal; [by apply Hf|by apply IH].
Qed.

Lemma option_eqb_map {A B} (f : A → A → bool) (g : A → B) x y :
  (∀ x y, f x y = true → g x = g y) → option_eqb f x y = true → g <$> x = g <$> y.
Proof. intros Hf. destruct x, y; simpl; try done. intros E. by rewrite (Hf _ _ E). Qed.

Lemma constant_eqb_canon x y : ConstantValue_eqb x y = true → canon_constant x = canon_constant y.
Proof.
  unfold ConstantValue_eqb, canon_constant. rewrite !andb_true_iff, !eqb_eq.
  intros [[-> ->] E%f64_eqb_canon]. by rewrite E.
Qed.

Lemma candidate_eqb_canon x y : PrimitiveLiteralCandidate_eqb x y = true →
  canon_candidate x = canon_candidate y.
Proof.
  unfold PrimitiveLiteralCandidate_eqb, canon_candidate. rewrite !andb_true_iff, !eqb_eq.
  intros [[[-> ->] E%f64_eqb_canon] ->]. by rewrite E.
Qed.

Lemma entity_eqb_canon x y : EntityFact_eqb x y = true → canon_entity x = canon_entity y.
Proof.
  unfold EntityFact_eqb, canon_entity. rewrite !andb_true_iff, !eqb_eq. intros H.
  destruct_and!. assert (E1 := option_eqb_map _ (λ cs : list _, canon_candidate <$> cs)
    (ef_primitive_literal_candidates x) (ef_primitive_literal_candidates y)
    (λ l k, list_eqb_map _ canon_candidate l k candidate_eqb_canon) ltac:(done)).
  assert (E2 := option_eqb_map _ canon_constant (ef_constant_value x) (ef_constant_value y)
    constant_eqb_canon ltac:(done)).
  f_equal; done.
Qed.

(** The identification and the projection commute. *)
Lemma canon_project schema e : entity_view schema e = project_entity schema (canon_entity e).
Proof.
  unfold entity_view, canon_entity, project_entity.
  cbn [ef_location ef_symbol ef_symbol_claim ef_type_descriptor ef_resolved_call ef_callability
    ef_constructability ef_runtime_binding_kind ef_runtime_value_domain ef_primitive_value_domain
    ef_primitive_literal_candidates ef_call_result_domain ef_constant_value ef_array_shape
    ef_tuple_shape ef_library_types ef_declared_keys ef_writable_optional_property
    ef_reference_space ef_runtime_identity].
  f_equal.
  - destruct (ef_primitive_literal_candidates e) as [[|c cs]|]; unfold keep_if;
      by destruct (16 <=? schema)%N.
  - unfold keep_if. by destruct (8 <=? schema)%N.
Qed.

Lemma entity_eqb_view schema x y : EntityFact_eqb x y = true → entity_view schema x = entity_view schema y.
Proof. intros E%entity_eqb_canon. by rewrite !canon_project, E. Qed.

Lemma run_eqb_view schema l k : list_eqb EntityFact_eqb l k = true →
  entity_view schema <$> l = entity_view schema <$> k.
Proof. apply list_eqb_map, entity_eqb_view. Qed.
