(* ===== verification/PlanRefinement.v ===== *)
(** * A path delta takes the client to the target

    The rows a client holds for a producer table at a schema
    ([paths_follow]), the plans that take one table's rows to another's
    ([takes]), and that every planner makes such a plan.

    Then: A symbol delta takes the client to the target. *)
From S2P Require Import Order.
From S2P Require Export WirePlanSpec WireFrame SessionTableSpec.

(** ** Rows as a client holds them *)

Definition canon_entry (e : PathEntry) : PathEntry :=
  {| pe_path := pe_path e; pe_source := pe_source e;
     pe_entities := canon_entity <$> pe_entities e; pe_file := pe_file e |}.

Definition entry_of (schema : N) (r : PathRows) : option PathEntry :=
  let e := {| pe_path := pw_path r; pe_source := pw_source r;
              pe_entities := entity_view schema <$> pw_entities r; pe_file := pw_file r |} in
  if entry_is_empty e then None else Some e.

(** The rows a delta starts from; none for a full transition. *)
Definition base_rows (base : option ProducerTable) (p : str) : PathRows :=
  match base with Some t => rows_at t p | None => rows_empty p end.

Definition paths_follow (schema : N) (base : option ProducerTable) (l : list PathEntry) : Prop :=
  StronglySorted row_lt l ∧ ∀ p, canon_entry <$> find_row p l = entry_of schema (base_rows base p).

(** ** Operations that take rows to rows *)

Definition same_rows (schema : N) (a b : PathRows) : Prop :=
  pw_source a = pw_source b ∧ entity_view schema <$> pw_entities a = entity_view schema <$> pw_entities b ∧
  pw_file a = pw_file b.

Definition moves (schema : N) (o : PathOpRef) (a b : PathRows) : Prop :=
  match pr_source o with
  | Unchanged => pw_source a = pw_source b
  | Replace h => pw_source b = Some {| sd_path := pr_path o; sd_sha256 := h |}
  | Remove => pw_source b = None
  end ∧
  match pr_entities o with
  | Unchanged => entity_view schema <$> pw_entities a = entity_view schema <$> pw_entities b
  | Replace es => pw_entities b = es
  | Remove => pw_entities b = []
  end ∧
  match pr_file o with
  | Unchanged => pw_file a = pw_file b
  | Replace f => pw_file b = Some f
  | Remove => pw_file b = None
  end.

Definition takes (schema : N) (base : option ProducerTable) (target : ProducerTable)
    (ops : list PathOpRef) : Prop :=
  StronglySorted row_lt ops ∧
  ∀ p, match find_row p ops with
       | Some o => moves schema o (base_rows base p) (rows_at target p)
       | None => same_rows schema (base_rows base p) (rows_at target p)
       end.

Lemma view_nil schema (l : list EntityFact) : entity_view schema <$> l = [] ↔ l = [].
Proof. by destruct l. Qed.

(** One operation on what the client holds. *)
Lemma client_step schema o a b e : pw_path a = pr_path o → pw_path b = pr_path o →
  moves schema o a b → canon_entry e =
    {| pe_path := pw_path a; pe_source := pw_source a;
       pe_entities := entity_view schema <$> pw_entities a; pe_file := pw_file a |} →
  canon_entry <$> entry_apply e (project_path schema o) = entry_of schema b.
Proof.
  intros Ha Hb (Hs & He & Hf) Hc. injection Hc as Ep Es Ee Ef.
  assert (Hsrc : match po_source (project_path schema o) with
    | SlotUnchanged => pe_source e
    | SlotReplace h => Some {| sd_path := po_path (project_path schema o); sd_sha256 := h |}
    | SlotRemove => None end = pw_source b).
  { unfold project_path. simpl. destruct (pr_source o); simpl; congruence. }
  assert (Hent : canon_entity <$> match po_entities (project_path schema o) with
    | SlotUnchanged => pe_entities e | SlotReplace es => es | SlotRemove => [] end =
    entity_view schema <$> pw_entities b).
  { unfold project_path. simpl. destruct (pr_entities o); simpl.
    - by rewrite Ee, He.
    - subst. by rewrite <-list_fmap_compose.
    - by rewrite He. }
  assert (Hfile : match po_file (project_path schema o) with
    | SlotUnchanged => pe_file e | SlotReplace f => Some f | SlotRemove => None end = pw_file b).
  { unfold project_path. simpl. destruct (pr_file o); simpl; congruence. }
  unfold entry_apply, entry_of. rewrite Hsrc, Hfile, <-Hent, Hb.
  set (es := match po_entities (project_path schema o) with
    | SlotUnchanged => pe_entities e | SlotReplace es => es | SlotRemove => [] end).
  unfold entry_is_empty. cbn [pe_source pe_entities pe_file].
  destruct (pw_source b), es, (pw_file b); simpl; try done; unfold canon_entry; simpl; by rewrite Ep, Ha.
Qed.

Lemma entry_of_some schema r e : entry_of schema r = Some e →
  e = {| pe_path := pw_path r; pe_source := pw_source r;
         pe_entities := entity_view schema <$> pw_entities r; pe_file := pw_file r |}.
Proof. unfold entry_of. destruct (entry_is_empty _); [done|]. by intros [= <-]. Qed.

Lemma entry_of_none schema r : entry_of schema r = None →
  {| pe_path := pw_path r; pe_source := pw_source r;
     pe_entities := entity_view schema <$> pw_entities r; pe_file := pw_file r |} =
    empty_entry (pw_path r).
Proof.
  unfold entry_of, entry_is_empty. simpl.
  by destruct (pw_source r), (entity_view schema <$> pw_entities r), (pw_file r).
Qed.

Lemma base_rows_path base p : pw_path (base_rows base p) = p.
Proof. by destruct base. Qed.

Lemma same_entry schema a b : pw_path a = pw_path b → same_rows schema a b →
  entry_of schema a = entry_of schema b.
Proof. intros Hp (Hs & He & Hf). unfold entry_of. by rewrite Hp, Hs, He, Hf. Qed.

Lemma sorted_op_paths schema (ops : list PathOpRef) : StronglySorted row_lt ops →
  StronglySorted str_lt (po_path <$> (project_path schema <$> ops)).
Proof.
  induction 1 as [|o ops Hs IH Ho]; [constructor|]. cbn [fmap list_fmap]. constructor; [exact IH|].
  rewrite Forall_forall in Ho. apply Forall_forall.
  intros x (y & -> & (z & -> & Hz)%list_elem_of_fmap)%list_elem_of_fmap. by apply Ho.
Qed.

(** The delta on the client: base rows in, target rows out. *)
Lemma takes_follow schema base target ops l : takes schema base target ops →
  paths_follow schema base l →
  paths_follow schema (Some target) (fold_paths l (project_path schema <$> ops)).
Proof.
  intros [Hs Ht] [Hl Hf]. split; [by apply fold_paths_sorted|]. intros p.
  destruct (find_fold_paths l (project_path schema <$> ops) p Hl (sorted_op_paths schema ops Hs)) as [Hout Hin].
  specialize (Ht p). specialize (Hf p). destruct (find_row p ops) as [o|] eqn:Eo.
  - apply find_row_Some in Eo as [Ho Hk]. change (pr_path o = p) in Hk.
    rewrite (Hin (project_path schema o)); [|by apply list_elem_of_fmap_2|done].
    eapply client_step; [|by rewrite Hk|exact Ht|].
    { by rewrite base_rows_path. }
    destruct (find_row p l) as [e|]; simpl in Hf.
    + symmetry in Hf. apply entry_of_some in Hf. by rewrite <-Hf.
    + symmetry in Hf. apply entry_of_none in Hf. rewrite Hf. by rewrite base_rows_path.
  - rewrite Hout.
    + rewrite Hf. apply same_entry; [|done]. by rewrite !base_rows_path.
    + intros (q & -> & (o & -> & Ho)%list_elem_of_fmap)%list_elem_of_fmap.
      pose proof (find_row_elem ops o Hs Ho) as Hx. change (key o) with (pr_path o) in Hx.
      simpl in Eo. congruence.
Qed.

(** ** The planners *)

Definition digest_path (r : PathRows) : Prop :=
  ∀ d, pw_source r = Some d → sd_path d = pw_path r.

Lemma rows_at_digest t p : producer_ok t → digest_path (rows_at t p).
Proof.
  intros Hok d. simpl. rewrite producer_source_spec by done. by intros [_ Hk]%find_row_Some.
Qed.

Lemma base_rows_digest base p : (∀ t, base = Some t → producer_ok t) → digest_path (base_rows base p).
Proof. intros Hb. destruct base as [t|]; [apply rows_at_digest; auto|by intros d]. Qed.

Lemma source_slot_moves a b : digest_path a → digest_path b → pw_path a = pw_path b →
  match source_slot (pw_source a) (pw_source b) with
  | Unchanged => pw_source a = pw_source b
  | Replace h => pw_source b = Some {| sd_path := pw_path b; sd_sha256 := h |}
  | Remove => pw_source b = None
  end.
Proof.
  intros Ha Hb Hp. unfold source_slot. unfold digest_path in *.
  destruct (pw_source a) as [x|], (pw_source b) as [y|]; simpl; try done.
  - specialize (Ha x eq_refl). specialize (Hb y eq_refl). case_bool_decide; simpl; destruct x, y; simpl in *; congruence.
  - specialize (Hb y eq_refl). destruct y; simpl in *; congruence.
Qed.

Lemma entity_slot_moves schema a b :
  match entity_slot a b with
  | Unchanged => entity_view schema <$> a = entity_view schema <$> b
  | Replace es => b = es
  | Remove => b = []
  end.
Proof.
  unfold entity_slot. pose proof (run_eqb_view schema a b) as Hv.
  destruct (list_eqb EntityFact_eqb a b); destruct a, b; cbn [is_nil negb andb]; auto.
Qed.

Lemma file_slot_moves a b :
  match file_slot a b with
  | Unchanged => a = b
  | Replace f => b = Some f
  | Remove => b = None
  end.
Proof. unfold file_slot. destruct a, b; simpl; try done. case_bool_decide; simpl; congruence. Qed.

(** What the candidates leave out is the same in both tables. *)
Definition covered (cands : Candidates) (a b : PathRows) : Prop :=
  (cn_source cands = false → pw_source a = pw_source b) ∧
  (cn_entity cands = false → pw_entities a = pw_entities b) ∧
  (cn_file cands = false → pw_file a = pw_file b).

Lemma difference_moves schema a b cands : digest_path a → digest_path b → pw_path a = pw_path b →
  covered cands a b →
  match rows_difference a b cands with
  | Some o => moves schema o a b ∧ pr_path o = pw_path b
  | None => same_rows schema a b
  end.
Proof.
  intros Ha Hb Hp (Cs & Ce & Cf). unfold rows_difference.
  set (o := {| pr_path := pw_path b; pr_source := _; pr_entities := _; pr_file := _ |}).
  assert (Hm : moves schema o a b).
  { split_and!; simpl.
    - destruct (cn_source cands); [by apply source_slot_moves|auto].
    - destruct (cn_entity cands); [by apply entity_slot_moves|by rewrite Ce].
    - destruct (cn_file cands); [by apply file_slot_moves|auto]. }
  destruct (_ || _ || _) eqn:E; [done|]. apply orb_false_iff in E as [E E3].
  apply orb_false_iff in E as [E1 E2]. apply negb_false_iff in E1, E2, E3.
  destruct Hm as (Hs & He & Hf). destruct (pr_source o), (pr_entities o), (pr_file o); done.
Qed.

Lemma takes_omap schema base target f ps : (∀ p o, f p = Some o → pr_path o = p) →
  StronglySorted str_lt ps →
  (∀ p, p ∈ ps → match f p with
     | Some o => moves schema o (base_rows base p) (rows_at target p)
     | None => same_rows schema (base_rows base p) (rows_at target p) end) →
  (∀ p, p ∉ ps → same_rows schema (base_rows base p) (rows_at target p)) →
  takes schema base target (omap f ps).
Proof.
  intros Hf Hs Hin Hout. destruct (omap_sorted f ps Hf Hs) as (H1 & H2 & _). split; [done|].
  intros p. rewrite H2. destruct (decide (p ∈ ps)) as [Hp|Hp]; [by apply Hin|by apply Hout].
Qed.

Lemma empty_same schema p q : same_rows schema (rows_empty p) (rows_empty q).
Proof. done. Qed.

(** A full transition starts from nothing. *)
Lemma plan_full_takes schema target : producer_ok target →
  ∃ ops, plan_full target = Ok ops ∧ takes schema None target ops.
Proof.
  intros Hok. destruct (plan_full_spec target Hok) as (ps & E & Hs & Hin). eexists. split; [exact E|].
  apply takes_omap; [intros p o; apply path_difference_path|done| |].
  - intros p _. unfold full_op, path_difference.
    pose proof (difference_moves schema (rows_empty p) (rows_at target p) all_candidates) as Hd.
    destruct (rows_difference _ _ _); [apply Hd|apply Hd]; try done; by apply rows_at_digest.
  - intros p Hp. rewrite (rows_at_empty target p Hok); [done|]. by rewrite <-Hin.
Qed.

Section delta.
Context (base target : ProducerTable) (Hbase : producer_ok base) (Htarget : producer_ok target).
Context (schema : N).

Lemma rows_difference_at p cands : covered cands (rows_at base p) (rows_at target p) →
  match path_difference (Some base) target p cands with
  | Some o => moves schema o (rows_at base p) (rows_at target p)
  | None => same_rows schema (rows_at base p) (rows_at target p)
  end.
Proof.
  intros Hc. unfold path_difference.
  pose proof (difference_moves schema (rows_at base p) (rows_at target p) cands) as Hd.
  destruct (rows_difference _ _ _); apply Hd; try done; by apply rows_at_digest.
Qed.

Lemma plan_fallback_takes : takes schema (Some base) target (plan_fallback_path_delta base target).
Proof.
  destruct (plan_fallback_spec base target Hbase Htarget) as (ps & -> & Hs & Hin).
  apply takes_omap; [intros p o; apply path_difference_path|done| |].
  - intros p _. by apply rows_difference_at.
  - intros p Hp. rewrite Hin in Hp. cbn [base_rows].
    rewrite (rows_at_empty base p Hbase), (rows_at_empty target p Htarget) by tauto. done.
Qed.

(** ** Manifests *)

Definition manifest_covers (m : TransportChanges) : Prop :=
  ∀ p, covered (manifest_candidates m p) (rows_at base p) (rows_at target p).

Definition in_manifest (m : TransportChanges) (p : str) : Prop :=
  p ∈ tm_source_paths m ∨ p ∈ tm_entity_paths m ∨ p ∈ tm_file_paths m.

Lemma uncovered_same m p : manifest_covers m → ¬ in_manifest m p →
  same_rows schema (rows_at base p) (rows_at target p).
Proof.
  intros Hc Hp. destruct (Hc p) as (Hs & He & Hf). unfold in_manifest in Hp. simpl in Hs, He, Hf.
  rewrite !bool_decide_eq_false in *.
  split_and!; [apply Hs; tauto| |apply Hf; tauto]. f_equal. apply He. tauto.
Qed.

End delta.

(** ** Sorted strings *)

Lemma insert_str_elem s l x : x ∈ insert_str s l ↔ x = s ∨ x ∈ l.
Proof.
  induction l as [|y l IH]; simpl; [by rewrite elem_of_cons|].
  destruct (str_ltb _ _); rewrite !elem_of_cons, ?IH; [tauto|done].
Qed.

Lemma sort_strs_elem l x : x ∈ sort_strs l ↔ x ∈ l.
Proof. induction l as [|s l IH]; simpl; [done|]. by rewrite insert_str_elem, IH, elem_of_cons. Qed.

Lemma sort_strs_sorted l : StronglySorted (λ x y, ¬ str_lt y x) (sort_strs l).
Proof.
  induction l as [|s l IH]; simpl; [constructor|]. induction IH as [|x l' Hs IHl Hx]; simpl.
  { repeat constructor. }
  rewrite Forall_forall in Hx. destruct (str_ltb x s) eqn:E.
  - apply str_ltb_lt in E. constructor; [done|]. apply Forall_forall.
    intros y [->|Hy]%insert_str_elem; [by apply str_lt_not_gt|by apply Hx].
  - assert (Hsx : ¬ str_lt x s) by (intros Hlt; apply str_ltb_lt in Hlt; congruence).
    constructor; [by constructor; [|apply Forall_forall]|]. apply Forall_forall.
    intros y [->|Hy]%elem_of_cons; [done|]. intros Hlt.
    destruct (not_lt_cases x s Hsx) as [->|?]; [by apply (Hx y Hy)|]. apply (Hx y Hy). by etrans.
Qed.

Lemma dedup_cons x l : dedup (x :: l) =
  match dedup l with y :: l' => if str_eqb x y then y :: l' else x :: y :: l' | [] => [x] end.
Proof. reflexivity. Qed.

Lemma dedup_elem_of l x : x ∈ dedup l ↔ x ∈ l.
Proof. apply dedup_elem. Qed.

Lemma dedup_sorted l : StronglySorted (λ x y, ¬ str_lt y x) l → StronglySorted str_lt (dedup l).
Proof.
  induction 1 as [|x l Hs IH Hx]; [constructor|]. rewrite Forall_forall in Hx. rewrite dedup_cons.
  pose proof (dedup_elem_of l) as Hin. destruct (dedup l) as [|y l']; [repeat constructor|].
  unfold str_eqb. case_bool_decide as E; [done|]. constructor; [done|].
  apply StronglySorted_inv in IH as [IH Hy]. rewrite Forall_forall in Hy. apply Forall_forall.
  assert (Hxy : str_lt x y).
  { destruct (not_lt_cases y x) as [?|?]; [apply Hx, Hin; by left|congruence|done]. }
  intros z [->|Hz]%elem_of_cons; [done|]. etrans; [done|by apply Hy].
Qed.

Lemma manifest_paths_spec m : StronglySorted str_lt (sorted_manifest_paths m) ∧
  ∀ p, p ∈ sorted_manifest_paths m ↔ in_manifest m p.
Proof.
  split; [by apply dedup_sorted, sort_strs_sorted|]. intros p. unfold sorted_manifest_paths, in_manifest.
  by rewrite dedup_elem_of, sort_strs_elem, !elem_of_app, !elem_of_elements.
Qed.

Section manifest.
Context (base target : ProducerTable) (Hbase : producer_ok base) (Htarget : producer_ok target).
Context (schema : N) (m : TransportChanges) (Hm : manifest_covers base target m).

Lemma plan_exact_takes : takes schema (Some base) target (plan_exact_path_delta base target m).
Proof.
  destruct (manifest_paths_spec m) as [Hs Hin]. apply takes_omap; [|done| |].
  - intros p o. apply path_difference_path.
  - intros p _. by apply rows_difference_at.
  - intros p Hp. rewrite Hin in Hp. by apply (uncovered_same base target schema m).
Qed.

Lemma sparse_moves p : moves schema (sparse_operation target m p) (rows_at base p) (rows_at target p).
Proof.
  destruct (Hm p) as (Hs & He & Hf). pose proof (rows_at_digest target p Htarget) as Hd.
  unfold moves, sparse_operation. cbn [pr_path pr_source pr_entities pr_file rows_at pw_source
    pw_entities pw_file cn_source cn_entity cn_file manifest_candidates] in *. split_and!.
  - destruct (bool_decide (p ∈ tm_source_paths m)); [|by apply Hs].
    destruct (producer_source target p) as [d|] eqn:Ed; [|done].
    specialize (Hd d). simpl in Hd. rewrite Ed in Hd. specialize (Hd eq_refl). destruct d. simpl in *. by subst.
  - destruct (bool_decide (p ∈ tm_entity_paths m)); [|by rewrite He].
    by destruct (producer_entities target p).
  - destruct (bool_decide (p ∈ tm_file_paths m)); [|by apply Hf]. by destruct (producer_file target p).
Qed.

Lemma plan_sparse_takes : takes schema (Some base) target (plan_sparse_paths target m).
Proof.
  destruct (manifest_paths_spec m) as [Hs Hin].
  assert (Ho : plan_sparse_paths target m =
    omap (λ p, Some (sparse_operation target m p)) (sorted_manifest_paths m)).
  { unfold plan_sparse_paths. clear. induction (sorted_manifest_paths m) as [|p ps IH]; [done|].
    cbn [fmap list_fmap omap list_omap]. by f_equal. }
  rewrite Ho. apply takes_omap; [by intros p o [= <-]|done| |].
  - intros p _. apply sparse_moves.
  - intros p Hp. rewrite Hin in Hp. by apply (uncovered_same base target schema m).
Qed.

End manifest.

(** * A symbol delta takes the client to the target

    The symbol operations each planner emits, folded over the facts of the
    base table, give the facts of the target: references path by path, symbols
    by the manifest or by the walk of both tables. *)

(** Symbols as a producer keeps them: references in order, none on an alias. *)
Definition symbols_ok (t : ProducerTable) : Prop :=
  producer_ok t ∧ Forall fact_ok (pt_symbols t) ∧ Forall (λ f, sf_id f ≠ empty_str) (pt_symbols t).

Lemma project_symbol_id f : fact_ok f → project_symbol f = f.
Proof.
  intros [_ Ha]. unfold project_symbol. destruct (is_empty (sf_alias_target f)) eqn:E; [done|].
  rewrite <-Ha; [by destruct f|]. intros Hx. by rewrite (proj2 (is_empty_spec _) Hx) in E.
Qed.

Abbreviation client_ops ops := (project_symbol_op <$> ops).

Lemma fold_facts_app l ops1 ops2 :
  fold_facts l (ops1 ++ ops2) = (l ← fold_facts l ops1; fold_facts l ops2).
Proof.
  revert l. induction ops1 as [|op ops1 IH]; intros l; [done|]. simpl.
  destruct (fact_update l op); [apply IH|done].
Qed.

(** ** References of one symbol *)

Definition with_refs (f : SymbolFact) (refs : list Location) : SymbolFact :=
  {| sf_id := sf_id f; sf_references := refs; sf_alias_target := sf_alias_target f;
     sf_declarations := sf_declarations f |}.

Definition below_path (path : str) (l : list Location) : Prop := ∀ r, r ∈ l → str_lt (loc_path r) path.
Definition above_path (path : str) (l : list Location) : Prop := ∀ r, r ∈ l → str_lt path (loc_path r).

Lemma replace_refs_split path refs l1 run l2 : below_path path l1 → (∀ r, r ∈ run → loc_path r = path) →
  above_path path l2 → replace_refs path refs (l1 ++ run ++ l2) = l1 ++ refs ++ l2.
Proof.
  intros H1 Hr H2. unfold replace_refs. rewrite !filter_app.
  assert (Hall : ∀ (P : Location → Prop) `{∀ x, Decision (P x)} (l : list Location), (∀ x, x ∈ l → P x) → filter P l = l).
  { intros P HP l Hl. induction l as [|x l IH]; [done|]. rewrite filter_cons_True by (apply Hl; by left).
    f_equal. apply IH. intros; apply Hl. by right. }
  rewrite (Hall (λ r, str_lt (loc_path r) path) _ l1 H1), (Hall (λ r, str_lt path (loc_path r)) _ l2 H2).
  rewrite (filter_none (λ r, str_lt (loc_path r) path) run),
    (filter_none (λ r, str_lt path (loc_path r)) run), (filter_none (λ r, str_lt (loc_path r) path) l2),
    (filter_none (λ r, str_lt path (loc_path r)) l1).
  - by rewrite !app_nil_r.
  - intros r Hx. by apply str_lt_not_gt, H1.
  - intros r Hx. by apply str_lt_not_gt, H2.
  - intros r Hx. rewrite (Hr r Hx). apply str_lt_irrefl.
  - intros r Hx. rewrite (Hr r Hx). apply str_lt_irrefl.
Qed.

(** The run a step takes, and what is left above it. *)
Lemma path_run path l : StronglySorted loc_le l → (∀ r, r ∈ l → ¬ str_lt (loc_path r) path) →
  l = take (reference_path_end path l) l ++ drop (reference_path_end path l) l ∧
  (∀ r, r ∈ take (reference_path_end path l) l → loc_path r = path) ∧
  above_path path (drop (reference_path_end path l) l) ∧
  StronglySorted loc_le (drop (reference_path_end path l) l).
Proof.
  intros Hs Hge. split; [by rewrite take_drop|]. induction Hs as [|r l Hs IH Hr].
  { simpl. split_and!; [intros r Hr|intros r Hr|constructor]; by apply elem_of_nil in Hr. }
  rewrite Forall_forall in Hr. simpl. unfold str_eqb. case_bool_decide as E; simpl.
  - destruct IH as (I1 & I2 & I3); [intros x Hx; apply Hge; by right|].
    split_and!; [|done|done]. intros x [->|Hx]%elem_of_cons; [done|by apply I1].
  - assert (Hlt : str_lt path (loc_path r)).
    { destruct (not_lt_cases (loc_path r) path) as [?|?]; [apply Hge; by left|congruence|done]. }
    split_and!; [intros x Hx; by apply elem_of_nil in Hx| |by constructor; [|apply Forall_forall]].
    intros x [->|Hx]%elem_of_cons; [done|].
    destruct (proj1 (loc_le_spec r x) (Hr x Hx)) as [?|[<- _]]; [by etrans|done].
Qed.

Lemma least_head (l : list Location) r rest : StronglySorted loc_le l → l = r :: rest →
  ∀ x, x ∈ l → ¬ str_lt (loc_path x) (loc_path r).
Proof.
  intros Hs -> x Hx. apply StronglySorted_inv in Hs as [_ Hr]. rewrite Forall_forall in Hr.
  apply elem_of_cons in Hx as [->|Hx]; [apply str_lt_irrefl|].
  destruct (proj1 (loc_le_spec r x) (Hr x Hx)) as [?|[<- _]]; [by apply str_lt_not_gt|apply str_lt_irrefl].
Qed.

Section references.
Context (f : SymbolFact) (l : list SymbolFact).
Context (Hl : StronglySorted row_lt l) (Ha : sf_alias_target f = empty_str).

(** The facts while the references are being replaced. *)
Definition facts_with (refs : list Location) : list SymbolFact :=
  set_row (sf_id f) (Some (with_refs f refs)) l.

Lemma reference_op path run refs :
  fact_update (facts_with refs) (SymbolReplaceReferencePath (sf_id f) path run) =
    Some (facts_with (replace_refs path run refs)).
Proof.
  unfold fact_update, facts_with. assert (Hk : ∀ r x, Some (with_refs f x) = Some r → key r = sf_id f).
  { by intros r x [= <-]. }
  rewrite find_set_row, decide_True by eauto. cbn [mbind option_bind with_refs sf_alias_target].
  rewrite (proj2 (is_empty_spec _) Ha). f_equal. by rewrite set_row_twice by eauto.
Qed.

(** [done] is behind both runs; the rest of the target's references remain. *)
Lemma reference_delta_fold fuel done previous next :
  length previous + length next ≤ fuel → StronglySorted loc_le previous → StronglySorted loc_le next →
  (∀ x y, x ∈ done → y ∈ previous ∨ y ∈ next → str_lt (loc_path x) (loc_path y)) →
  fold_facts (facts_with (done ++ previous))
    (client_ops (plan_exact_reference_delta fuel (sf_id f) previous next)) =
    Some (facts_with (done ++ next)).
Proof.
  revert done previous next. induction fuel as [|fuel IH]; intros dn previous next Hf Hp Hn Hd.
  { by destruct previous, next; simpl in Hf; try lia. }
  assert (Hstep : ∀ path, (∀ x, x ∈ previous ∨ x ∈ next → ¬ str_lt (loc_path x) path) →
    (∃ x, (x ∈ previous ∨ x ∈ next) ∧ loc_path x = path) →
    length (drop (reference_path_end path previous) previous) +
      length (drop (reference_path_end path next) next) ≤ fuel →
    fold_facts (facts_with (dn ++ previous)) (client_ops
      ((if bool_decide (take (reference_path_end path previous) previous =
                        take (reference_path_end path next) next) then []
        else [{| sr_id := sf_id f; sr_body := BodyReplaceReferencePath path
                   (take (reference_path_end path next) next) |}]) ++
       plan_exact_reference_delta fuel (sf_id f) (drop (reference_path_end path previous) previous)
         (drop (reference_path_end path next) next))) = Some (facts_with (dn ++ next))).
  { intros path Hge (w & Hw & Hwp) Hfuel.
    destruct (path_run path previous Hp) as (Ep & Rp & Ap & Sp); [intros x Hx; apply Hge; by left|].
    destruct (path_run path next Hn) as (En & Rn & An & Sn); [intros x Hx; apply Hge; by right|].
    set (prun := take (reference_path_end path previous) previous) in *.
    set (nrun := take (reference_path_end path next) next) in *.
    set (prest := drop (reference_path_end path previous) previous) in *.
    set (nrest := drop (reference_path_end path next) next) in *.
    assert (Hbelow : below_path path dn) by (intros x Hx; rewrite <-Hwp; by apply Hd).
    assert (Hgoal : fold_facts (facts_with ((dn ++ nrun) ++ prest))
      (client_ops (plan_exact_reference_delta fuel (sf_id f) prest nrest)) =
      Some (facts_with ((dn ++ nrun) ++ nrest))).
    { apply IH; [done|done|done|]. intros x y Hx Hy.
      assert (Hxp : ¬ str_lt path (loc_path x)).
      { apply elem_of_app in Hx as [Hx|Hx]; [by apply str_lt_not_gt, Hbelow|].
        rewrite (Rn x Hx). apply str_lt_irrefl. }
      assert (Hyp : str_lt path (loc_path y)) by (destruct Hy; [by apply Ap|by apply An]).
      destruct (not_lt_cases path (loc_path x) Hxp) as [<-|?]; [done|by etrans]. }
    rewrite <-!app_assoc, <-En in Hgoal. rewrite fmap_app, fold_facts_app. case_bool_decide as E.
    - cbn [fmap list_fmap fold_facts mbind option_bind]. rewrite Ep, E. exact Hgoal.
    - cbn [fmap list_fmap fold_facts project_symbol_op sr_body sr_id].
      rewrite reference_op. cbn [mbind option_bind]. rewrite Ep, replace_refs_split by done. exact Hgoal. }
  cbn [plan_exact_reference_delta]. cbv zeta.
  destruct previous as [|p ps] eqn:Epv, next as [|n ns] eqn:Env; cbn [head].
  - done.
  - rewrite <-Env in *. apply Hstep.
    + intros x [Hx|Hx]; [by apply elem_of_nil in Hx|].
      exact (least_head next n ns Hn Env x Hx).
    + exists n. split; [right; rewrite Env; by left|done].
    + rewrite Env. simpl. unfold str_eqb. rewrite bool_decide_eq_true_2 by done. simpl.
      rewrite length_drop. rewrite Env in Hf. simpl in Hf. lia.
  - rewrite <-Epv in *. apply Hstep.
    + intros x [Hx|Hx]; [|by apply elem_of_nil in Hx].
      exact (least_head previous p ps Hp Epv x Hx).
    + exists p. split; [left; rewrite Epv; by left|done].
    + rewrite Epv. simpl. unfold str_eqb. rewrite bool_decide_eq_true_2 by done. simpl.
      rewrite length_drop. rewrite Epv in Hf. simpl in Hf. lia.
  - pose proof (least_head _ p ps Hp eq_refl) as Lp. pose proof (least_head _ n ns Hn eq_refl) as Ln.
    destruct (str_ltb (loc_path p) (loc_path n)) eqn:Elt.
    + apply str_ltb_lt in Elt. apply Hstep.
      * intros x [Hx|Hx]; [by apply Lp|]. intros Hlt. apply (Ln x Hx). by etrans.
      * exists p. split; [left; by left|done].
      * simpl. unfold str_eqb at 1. rewrite bool_decide_eq_true_2 by done. simpl.
        rewrite !length_drop. simpl in *. lia.
    + assert (Hnp : ¬ str_lt (loc_path p) (loc_path n)) by (intros Hx; apply str_ltb_lt in Hx; congruence).
      apply Hstep.
      * intros x [Hx|Hx]; [|by apply Ln]. intros Hlt. apply (Lp x Hx).
        destruct (not_lt_cases (loc_path p) (loc_path n) Hnp) as [->|?]; [done|by etrans].
      * exists n. split; [right; by left|done].
      * rewrite Nat.add_comm. simpl. unfold str_eqb at 1. rewrite bool_decide_eq_true_2 by done. simpl.
        rewrite !length_drop. simpl in *. destruct (if _ : bool then _ else _); simpl; lia.
Qed.

End references.

(** ** One symbol *)

Lemma with_refs_same f : with_refs f (sf_references f) = f.
Proof. by destruct f. Qed.

Section tables.
Context (base target : ProducerTable) (Hbase : symbols_ok base) (Htarget : symbols_ok target).

Lemma symbol_found t id f : symbols_ok t → producer_symbol t id = Some f → fact_ok f ∧ sf_id f = id.
Proof.
  intros (Hok & Hf & _). rewrite producer_symbol_spec by done. intros [Hin Hk]%find_row_Some.
  rewrite Forall_forall in Hf. split; [by apply Hf|done].
Qed.

Lemma symbol_difference_fold l id : StronglySorted row_lt l → find_row id l = producer_symbol base id →
  fold_facts l (client_ops (symbol_difference base target id)) =
    Some (set_row id (producer_symbol target id) l).
Proof.
  intros Hs Hfind. unfold symbol_difference.
  destruct (producer_symbol base id) as [p|] eqn:Ep, (producer_symbol target id) as [n|] eqn:En.
  - destruct (symbol_found base id p Hbase Ep) as [Hp Hpi].
    destruct (symbol_found target id n Htarget En) as [Hn Hni].
    destruct (decide (sf_alias_target p = sf_alias_target n)) as [Ea|Ea].
    2:{ rewrite bool_decide_eq_false_2 by done. cbn. by rewrite project_symbol_id, Hni. }
    destruct (decide (sf_declarations p = sf_declarations n)) as [Ed|Ed].
    2:{ rewrite (bool_decide_eq_false_2 _ Ed), orb_true_r. cbn. by rewrite project_symbol_id, Hni. }
    rewrite !bool_decide_eq_true_2 by done. cbn [negb orb].
    destruct (decide (sf_alias_target p = empty_str)) as [Hal|Hal].
    + pose proof (reference_delta_fold p l Hs Hal _ [] (sf_references p) (sf_references n) (le_n _)) as Hr.
      rewrite Hpi in Hr. simpl app in Hr. unfold facts_with in Hr. rewrite Hpi, with_refs_same in Hr.
      rewrite <-Hfind, set_row_same in Hr by done. rewrite Hr.
      * do 3 f_equal. destruct p, n. unfold with_refs. simpl in *. congruence.
      * apply Hp.
      * apply Hn.
      * intros x y Hx. by apply elem_of_nil in Hx.
    + destruct Hp as [_ Hp], Hn as [_ Hn]. rewrite (Hp Hal), (Hn ltac:(congruence)). simpl.
      f_equal. assert (n = p) as ->.
      { specialize (Hp Hal). specialize (Hn ltac:(congruence)). destruct p, n. simpl in *. congruence. }
      rewrite <-Hfind. by rewrite set_row_same.
  - cbn. done.
  - destruct (symbol_found target id n Htarget En) as [Hn Hni]. cbn. by rewrite project_symbol_id, Hni.
  - simpl. rewrite <-Hfind. by rewrite set_row_same.
Qed.

Lemma find_producer t k r : symbols_ok t → producer_symbol t k = Some r → key r = k.
Proof. intros Hok Hr. by apply (symbol_found t k r Hok). Qed.

Lemma symbol_ids_fold ids l : NoDup ids → StronglySorted row_lt l →
  (∀ k, k ∈ ids → find_row k l = producer_symbol base k) →
  ∃ l', fold_facts l (client_ops (ids ≫= symbol_difference base target)) = Some l' ∧
    StronglySorted row_lt l' ∧
    ∀ k, find_row k l' = if decide (k ∈ ids) then producer_symbol target k else find_row k l.
Proof.
  intros Hnd. revert l. induction Hnd as [|id ids Hid Hnd IH]; intros l Hs Hb.
  { exists l. split_and!; [done|done|]. intros k. by rewrite decide_False by apply not_elem_of_nil. }
  cbn [mbind list_bind]. rewrite fmap_app, fold_facts_app.
  rewrite symbol_difference_fold; [|done|apply Hb; by left]. cbn [option_bind].
  destruct (IH (set_row id (producer_symbol target id) l)) as (l' & E & Hs' & Hf).
  { apply set_row_sorted; [done|]. intros r. by apply find_producer. }
  { intros k Hk. rewrite find_set_row; [|done|intros r; by apply find_producer].
    rewrite decide_False; [apply Hb; by right|]. intros ->. done. }
  exists l'. split_and!; [exact E|done|]. intros k. rewrite Hf.
  rewrite find_set_row; [|done|intros r; by apply find_producer].
  destruct (decide (k = id)) as [->|Hne].
  - rewrite (decide_True _ _ (list_elem_of_here id ids)). by rewrite decide_False.
  - destruct (decide (k ∈ ids)); [by rewrite decide_True by by right|].
    rewrite decide_False; [done|]. by intros [?|?]%elem_of_cons.
Qed.

(** ** The exact delta *)

Lemma insert_str_perm s l : insert_str s l ≡ₚ s :: l.
Proof.
  induction l as [|x l IH]; simpl; [done|]. destruct (str_ltb x s); [|done]. rewrite IH. constructor.
Qed.
Lemma sort_strs_perm l : sort_strs l ≡ₚ l.
Proof. induction l as [|s l IH]; simpl; [done|]. by rewrite insert_str_perm, IH. Qed.

Definition symbols_covered (m : TransportChanges) : Prop :=
  ∀ id, id ∉ tm_symbol_ids m → producer_symbol base id = producer_symbol target id.

Lemma manifest_ids_nodup m : NoDup (sort_strs (elements (tm_symbol_ids m))).
Proof. rewrite sort_strs_perm. apply NoDup_elements. Qed.

Lemma exact_symbols_fold m : symbols_covered m →
  fold_facts (pt_symbols base) (client_ops (plan_exact_symbol_delta base target m)) =
    Some (pt_symbols target).
Proof.
  intros Hm. unfold plan_exact_symbol_delta. pose proof Hbase as (Hob & _). pose proof Htarget as (Hot & _).
  destruct (symbol_ids_fold (sort_strs (elements (tm_symbol_ids m))) (pt_symbols base))
    as (l' & E & Hs & Hf).
  - apply manifest_ids_nodup.
  - apply Hob.
  - intros k _. by rewrite producer_symbol_spec.
  - rewrite E. f_equal. apply sorted_rows_ext; [done|apply Hot|]. intros k. rewrite Hf.
    rewrite <-(producer_symbol_spec target Hot), <-(producer_symbol_spec base Hob).
    destruct (decide _) as [Hk|Hk]; [done|]. apply Hm. intros Hin. destruct Hk.
    by rewrite sort_strs_elem, elem_of_elements.
Qed.

(** ** The walk of both *)

Definition all_below (pre l : list SymbolFact) : Prop := ∀ x y, x ∈ pre → y ∈ l → row_lt x y.

Lemma all_below_snoc pre x l : all_below pre (x :: l) → StronglySorted row_lt (x :: l) →
  all_below (pre ++ [x]) l.
Proof.
  intros Hb [_ Hx]%StronglySorted_inv y z [Hy|Hy]%elem_of_app Hz; [by apply Hb; [|right]|].
  apply list_elem_of_singleton in Hy as ->. rewrite Forall_forall in Hx. by apply Hx.
Qed.

Lemma set_row_at pre x repl l : all_below pre (x :: l) → StronglySorted row_lt (x :: l) →
  set_row (sf_id x) repl (pre ++ x :: l) = pre ++ option_list repl ++ l.
Proof.
  intros Hb [_ Hx]%StronglySorted_inv. rewrite Forall_forall in Hx.
  apply (set_row_split (sf_id x) repl pre [x] l).
  - intros r Hr. apply (Hb r x Hr). by left.
  - by intros r ->%list_elem_of_singleton.
  - intros r Hr. by apply Hx.
Qed.

Lemma set_row_between pre x l : all_below pre [x] → (∀ y, y ∈ l → row_lt x y) →
  set_row (sf_id x) (Some x) (pre ++ l) = pre ++ x :: l.
Proof.
  intros Hb Hx. apply (set_row_split (sf_id x) (Some x) pre [] l).
  - intros r Hr. apply (Hb r x Hr). by left.
  - intros r Hr. by apply elem_of_nil in Hr.
  - intros r Hr. by apply Hx.
Qed.

Lemma below_cons pre x l : all_below pre (x :: l) → all_below pre [x] ∧ all_below pre l.
Proof.
  intros Hb. split; intros y z Hy Hz; apply Hb; try done; [|by right].
  apply list_elem_of_singleton in Hz as ->. by left.
Qed.

Lemma removed_fold pre ls : all_below pre ls → StronglySorted row_lt ls →
  fold_facts (pre ++ ls) (client_ops (remove_op <$> ls)) = Some pre.
Proof.
  revert pre. induction ls as [|x ls IH]; intros pre Hb Hs; [by rewrite app_nil_r|].
  cbn [fmap list_fmap fold_facts project_symbol_op remove_op sr_body sr_id fact_update mbind option_bind].
  rewrite set_row_at by done. apply IH; [by apply below_cons in Hb as [_ ?]|by apply StronglySorted_inv in Hs as [? _]].
Qed.

Lemma replaced_fold pre rs : all_below pre rs → StronglySorted row_lt rs → Forall fact_ok rs →
  fold_facts pre (client_ops (replace_op <$> rs)) = Some (pre ++ rs).
Proof.
  revert pre. induction rs as [|x rs IH]; intros pre Hb Hs Hok; [by rewrite app_nil_r|].
  inversion Hok as [|? ? Hx Hrs]; subst.
  cbn [fmap list_fmap fold_facts project_symbol_op replace_op sr_body sr_id]. rewrite project_symbol_id by done.
  cbn [fact_update mbind option_bind]. pose proof Hb as [Hb1 Hb2]%below_cons.
  pose proof (set_row_between pre x [] Hb1) as E. rewrite app_nil_r in E. rewrite E.
  - change (fold_facts (pre ++ [x]) (client_ops (replace_op <$> rs)) = Some (pre ++ x :: rs)).
    rewrite (IH (pre ++ [x])); [by rewrite <-app_assoc|by apply all_below_snoc| |done].
    by apply StronglySorted_inv in Hs as [? _].
  - intros y Hy. by apply elem_of_nil in Hy.
Qed.

Lemma fallback_symbols_fold fuel pre ls rs : length ls + length rs ≤ fuel →
  all_below pre ls → all_below pre rs → StronglySorted row_lt ls → StronglySorted row_lt rs →
  Forall fact_ok rs →
  fold_facts (pre ++ ls) (client_ops (fallback_symbols fuel ls rs)) = Some (pre ++ rs).
Proof.
  revert pre ls rs. induction fuel as [|fuel IH]; intros pre ls rs Hf Hl Hr Sl Sr Hok.
  { destruct ls, rs; simpl in Hf; try lia. done. }
  assert (Hend : ls = [] ∨ rs = [] →
    fold_facts (pre ++ ls) (client_ops ((remove_op <$> ls) ++ (replace_op <$> rs))) = Some (pre ++ rs)).
  { intros [->| ->]; [rewrite app_nil_r; by apply replaced_fold|].
    rewrite !app_nil_r. by apply removed_fold. }
  destruct ls as [|x ls]; [apply Hend; by left|]. destruct rs as [|y rs]; [apply Hend; by right|].
  clear Hend. cbn [fallback_symbols]. pose proof Hl as [Hl1 Hl2]%below_cons. pose proof Hr as [Hr1 Hr2]%below_cons.
  pose proof Sl as [Sl' Hx]%StronglySorted_inv. pose proof Sr as [Sr' Hy]%StronglySorted_inv.
  rewrite Forall_forall in Hx, Hy. inversion Hok as [|? ? Hyo Hrs]; subst. simpl in Hf.
  destruct (str_cmp (sf_id x) (sf_id y)) eqn:E.
  - apply str_cmp_lt_eq in E.
    assert (Hby : all_below (pre ++ [y]) ls ∧ all_below (pre ++ [y]) rs).
    { split; [|by apply all_below_snoc]. intros a b [Ha|Ha]%elem_of_app Hb; [by apply Hl; [|right]|].
      apply list_elem_of_singleton in Ha as ->. unfold row_lt, key, SymbolFact_keyed. rewrite <-E. by apply Hx. }
    destruct Hby as [Hb1 Hb2].
    specialize (IH (pre ++ [y]) ls rs ltac:(lia) Hb1 Hb2 Sl' Sr' Hrs). rewrite <-!app_assoc in IH. simpl in IH.
    rewrite fmap_app, fold_facts_app. case_bool_decide as Exy; [by subst y|].
    cbn [fmap list_fmap fold_facts project_symbol_op replace_op sr_body sr_id]. rewrite project_symbol_id by done.
    cbn [fact_update mbind option_bind]. rewrite <-E, set_row_at by done. exact IH.
  - cbn [fmap list_fmap fold_facts project_symbol_op remove_op sr_body sr_id fact_update mbind option_bind].
    rewrite set_row_at by done. apply IH; [simpl; lia|done|done|done|done|done].
  - assert (Hlt : row_lt y x).
    { unfold row_lt, key, SymbolFact_keyed. unfold str_lt. rewrite (cmp_sym _ str_cmp_order), E. done. }
    cbn [fmap list_fmap fold_facts project_symbol_op replace_op sr_body sr_id]. rewrite project_symbol_id by done.
    cbn [fact_update mbind option_bind]. rewrite set_row_between; [|done|].
    2:{ intros z [->|Hz]%elem_of_cons; [done|]. unfold row_lt in *. etrans; [exact Hlt|by apply Hx]. }
    assert (Hby : all_below (pre ++ [y]) (x :: ls)).
    { intros a b [Ha|Ha]%elem_of_app Hb; [by apply Hl|]. apply list_elem_of_singleton in Ha as ->.
      apply elem_of_cons in Hb as [->|Hb]; [done|]. unfold row_lt in *. etrans; [exact Hlt|by apply Hx]. }
    specialize (IH (pre ++ [y]) (x :: ls) rs ltac:(simpl; lia) Hby (all_below_snoc _ _ _ Hr Sr) Sl Sr' Hrs).
    by rewrite <-!app_assoc in IH.
Qed.

Lemma fallback_fold :
  fold_facts (pt_symbols base) (client_ops (plan_fallback_symbol_delta base target)) =
    Some (pt_symbols target).
Proof.
  pose proof Hbase as ((_ & _ & _ & Sb) & _). pose proof Htarget as ((_ & _ & _ & St) & Hok & _).
  apply (fallback_symbols_fold _ []); try done; intros x y Hx; by apply elem_of_nil in Hx.
Qed.

Lemma full_fold : fold_facts [] (client_ops (replace_op <$> pt_symbols target)) = Some (pt_symbols target).
Proof.
  pose proof Htarget as ((_ & _ & _ & St) & Hok & _).
  apply (replaced_fold []); try done. intros x y Hx; by apply elem_of_nil in Hx.
Qed.

End tables.
