(* ===== verification/DeltaRefinement.v ===== *)
(** * Plans of tables in order are plans a reader accepts

    From tables whose rows fit the wire ([producer_fits]) every planner makes
    operations that are valid one by one and in the order the decoder checks,
    so a written plan decodes.

    Then: from one producer table to the next, end to end. *)
From S2P Require Export PlanRefinement RetainedDelta SessionTableSpec WireFrame.

(** ** Rows that fit *)

Definition row_fits (schema : N) (r : PathRows) : Prop :=
  (∀ d, pw_source r = Some d → source_hash_parse (as_str (sd_sha256 d)) = Some (sd_sha256 d)) ∧
  list_fits (entity_fits schema) (pw_entities r) ∧
  Decode.entity_run_is_canonical (pw_path r) (pw_entities r) = true ∧
  (∀ f, pw_file r = Some f → file_fits f).

Definition producer_fits (schema : N) (t : ProducerTable) : Prop :=
  symbols_ok t ∧ is_u64 (pt_generation t) ∧ (∀ p, row_fits schema (rows_at t p)) ∧
  Forall symbol_fits (pt_symbols t).

(** ** Path operations *)

Lemma difference_valid mode schema a b cands o : row_fits schema b →
  (mode = Full → a = rows_empty (pw_path b)) → rows_difference a b cands = Some o →
  path_valid mode schema o.
Proof.
  intros (Hs & He & Hc & Hf) Hfull. unfold rows_difference.
  destruct (_ || _ || _) eqn:E; [|done]. intros [= <-].
  cbn [pr_source pr_entities pr_file] in E. unfold path_valid. cbn [pr_path pr_source pr_entities pr_file].
  split_and!.
  - apply not_true_is_false. intros E'. apply andb_true_iff in E' as [E' E3].
    apply andb_true_iff in E' as [E1 E2]. by rewrite E1, E2, E3 in E.
  - intros ->. rewrite (Hfull eq_refl). cbn [pw_source pw_entities pw_file rows_empty].
    unfold source_slot, entity_slot, file_slot. cbn [is_nil negb andb].
    split_and!.
    + by destruct (cn_source cands), (pw_source b).
    + destruct (cn_entity cands); [|done]. by destruct (_ && _).
    + by destruct (cn_file cands), (pw_file b).
  - intros h. destruct (cn_source cands); [|done]. unfold source_slot.
    destruct (pw_source a) as [x|], (pw_source b) as [y|]; try done.
    + case_bool_decide; [done|]. intros [= <-]. by apply Hs.
    + intros [= <-]. by apply Hs.
  - intros es. destruct (cn_entity cands); [|done]. unfold entity_slot.
    destruct (negb (is_nil (pw_entities a)) && is_nil (pw_entities b)); [done|].
    destruct (list_eqb EntityFact_eqb (pw_entities a) (pw_entities b)); [by rewrite andb_false_r|].
    rewrite andb_true_r. destruct (pw_entities b) as [|e l] eqn:Eb; [done|]. cbn [is_nil negb].
    intros [= <-]. by split_and!.
  - intros f. destruct (cn_file cands); [|done]. unfold file_slot.
    destruct (pw_file a) as [x|], (pw_file b) as [y|]; try done.
    + case_bool_decide; [done|]. intros [= <-]. by apply Hf.
    + intros [= <-]. by apply Hf.
Qed.

Lemma sparse_valid schema target m p : row_fits schema (rows_at target p) → in_manifest m p →
  path_valid Delta schema (sparse_operation target m p).
Proof.
  intros (Hs & He & Hc & Hf) Hin. unfold path_valid, sparse_operation.
  cbn [rows_at pw_source pw_entities pw_file pw_path pr_path pr_source pr_entities pr_file] in *.
  split_and!.
  - unfold in_manifest in Hin. destruct (bool_decide (p ∈ tm_source_paths m)) eqn:E1;
      [by destruct (producer_source target p)|].
    destruct (bool_decide (p ∈ tm_entity_paths m)) eqn:E2; [by destruct (producer_entities target p)|].
    destruct (bool_decide (p ∈ tm_file_paths m)) eqn:E3; [by destruct (producer_file target p)|].
    apply bool_decide_eq_false in E1, E2, E3. tauto.
  - done.
  - intros h. destruct (bool_decide _); [|done]. destruct (producer_source target p) as [d|]; [|done].
    intros [= <-]. by apply Hs.
  - intros es. destruct (bool_decide _); [|done]. destruct (producer_entities target p) as [|e l]; [done|].
    cbn [is_nil]. intros [= <-]. by split_and!.
  - intros f. destruct (bool_decide _); [|done]. destruct (producer_file target p) as [g|]; [|done].
    intros [= <-]. by apply Hf.
Qed.

Lemma sorted_paths_ordered ops previous : StronglySorted row_lt ops →
  match previous, ops with Some p, o :: _ => str_lt p (pr_path o) | _, _ => True end →
  paths_ordered previous ops.
Proof.
  intros Hs. revert previous. induction Hs as [|o ops Hs IH Ho]; intros previous Hp; [done|].
  rewrite Forall_forall in Ho. split.
  - destruct previous; [by apply str_ltb_lt|done].
  - apply IH. destruct ops as [|o' ops]; [done|]. apply (Ho o'). by left.
Qed.

Lemma forall_omap {A B} (f : A → option B) (P : B → Prop) l :
  (∀ a b, a ∈ l → f a = Some b → P b) → Forall P (omap f l).
Proof.
  intros Hf. apply Forall_forall. intros b (a & Ha & E)%list_elem_of_omap. by eapply Hf.
Qed.

Definition paths_valid (mode : TransitionMode) (schema : N) (ops : list PathOpRef) : Prop :=
  Forall (path_valid mode schema) ops ∧ paths_ordered None ops.

Section paths.
Context (schema : N) (base target : ProducerTable).
Context (Hbase : producer_ok base) (Htarget : producer_ok target).
Context (Hfits : ∀ p, row_fits schema (rows_at target p)).

Lemma path_op_valid mode b p cands o : (mode = Full → b = None) →
  path_difference b target p cands = Some o → path_valid mode schema o.
Proof.
  intros Hm Hd. unfold path_difference in Hd. eapply difference_valid; [apply (Hfits p)| |exact Hd].
  intros E. by rewrite (Hm E).
Qed.

Lemma full_paths_valid ops : plan_full target = Ok ops → paths_valid Full schema ops.
Proof.
  intros E. destruct (plan_full_spec target Htarget) as (ps & E' & Hs & _). rewrite E in E'.
  injection E' as ->. split.
  - apply forall_omap. intros p o _. by apply path_op_valid.
  - apply sorted_paths_ordered; [|done]. apply omap_sorted; [|done]. intros p o. apply path_difference_path.
Qed.

Lemma fallback_paths_valid : paths_valid Delta schema (plan_fallback_path_delta base target).
Proof.
  destruct (plan_fallback_spec base target Hbase Htarget) as (ps & -> & Hs & _). split.
  - apply forall_omap. intros p o _. by apply path_op_valid.
  - apply sorted_paths_ordered; [|done]. apply omap_sorted; [|done]. intros p o. apply path_difference_path.
Qed.

Lemma exact_paths_valid m : paths_valid Delta schema (plan_exact_path_delta base target m).
Proof.
  destruct (manifest_paths_spec m) as [Hs _]. split.
  - apply forall_omap. intros p o _. by apply path_op_valid.
  - apply sorted_paths_ordered; [|done]. apply omap_sorted; [|done]. intros p o. apply path_difference_path.
Qed.

Lemma sparse_paths_valid m : paths_valid Delta schema (plan_sparse_paths target m).
Proof.
  destruct (manifest_paths_spec m) as [Hs Hin]. unfold plan_sparse_paths. split.
  - apply Forall_forall. intros o (p & -> & Hp)%list_elem_of_fmap. by apply sparse_valid, Hin.
  - apply sorted_paths_ordered; [|done]. clear Hin. induction Hs as [|p ps Hs IH Hp]; [constructor|].
    cbn [fmap list_fmap]. constructor; [done|]. rewrite Forall_forall in Hp. apply Forall_forall.
    intros o (q & -> & Hq)%list_elem_of_fmap. by apply Hp.
Qed.

End paths.

(** ** Symbol operations *)

Definition symbols_valid (ops : list SymbolOpRef) : Prop :=
  Forall symbol_valid ops ∧ StronglySorted key_lt (symbol_key <$> ops).

Lemma sorted_symbols_ordered ops previous :
  StronglySorted key_lt (option_list previous ++ (symbol_key <$> ops)) → symbols_ordered previous ops.
Proof.
  revert previous. induction ops as [|o ops IH]; intros previous Hs; [done|]. cbn [fmap list_fmap] in Hs.
  split.
  - destruct previous as [k|]; [|done]. simpl in Hs. apply StronglySorted_inv in Hs as [_ Hk].
    rewrite Forall_forall in Hk. apply Hk. by left.
  - apply IH. simpl. destruct previous as [k|]; [|done]. simpl in Hs. by apply StronglySorted_inv in Hs as [? _].
Qed.

Lemma replace_valid f : fact_ok f → symbol_fits f → symbol_valid (replace_op f).
Proof. intros [Hs _] Hf. split; [done|by apply canonical_sorted]. Qed.

(** Keys of different symbols are ordered by their ids. *)
Lemma key_lt_ids x y : str_lt (sr_id x) (sr_id y) → key_lt (symbol_key x) (symbol_key y).
Proof. intros Hlt. apply key_lt_spec. by left. Qed.

Lemma sorted_ids_keys ops : StronglySorted str_lt (sr_id <$> ops) →
  StronglySorted key_lt (symbol_key <$> ops).
Proof.
  induction ops as [|o ops IH]; [constructor|]. cbn [fmap list_fmap].
  intros [Hs Ho]%StronglySorted_inv. rewrite Forall_forall in Ho. constructor; [by apply IH|].
  apply Forall_forall. intros k (o' & -> & Ho')%list_elem_of_fmap. apply key_lt_ids, Ho.
  apply list_elem_of_fmap. eauto.
Qed.

Lemma sorted_rows_ids l : StronglySorted row_lt l → StronglySorted str_lt (sf_id <$> l).
Proof.
  induction 1 as [|f l Hs IH Hf]; [constructor|]. rewrite Forall_forall in Hf. constructor; [exact IH|].
  apply Forall_forall. intros k (g & -> & Hg)%list_elem_of_fmap. by apply Hf.
Qed.

Lemma canonical_part ls l1 l2 : ls = l1 ++ l2 → StronglySorted loc_le ls → locations_fit ls →
  (StronglySorted loc_le l1 ∧ locations_fit l1) ∧ StronglySorted loc_le l2 ∧ locations_fit l2.
Proof.
  intros -> Hs [Hl Hf]. apply sorted_app_iff in Hs as (S1 & S2 & _). rewrite length_app in Hl.
  apply Forall_app in Hf as [F1 F2]. split; (split; [done|]); (split; [lia|done]).
Qed.

Definition reference_op_of (id : str) (previous next : list Location) (o : SymbolOpRef) : Prop :=
  sr_id o = id ∧ ∃ path refs, sr_body o = BodyReplaceReferencePath path refs ∧
    ∃ r, (r ∈ previous ∨ r ∈ next) ∧ loc_path r = path.

(** The reference operations of one symbol: valid, in the order of their paths. *)
Lemma reference_delta_valid fuel id previous next :
  StronglySorted loc_le previous → StronglySorted loc_le next → locations_fit next →
  let ops := plan_exact_reference_delta fuel id previous next in
  symbols_valid ops ∧ Forall (reference_op_of id previous next) ops.
Proof.
  cbv zeta. revert previous next. induction fuel as [|fuel IH]; intros previous next Sp Sn Fn.
  { split; [split; constructor|constructor]. }
  assert (Hstep : ∀ path, (∀ x, x ∈ previous ∨ x ∈ next → ¬ str_lt (loc_path x) path) →
    (∃ r, (r ∈ previous ∨ r ∈ next) ∧ loc_path r = path) →
    let ops := (if bool_decide (take (reference_path_end path previous) previous =
                        take (reference_path_end path next) next) then []
        else [{| sr_id := id; sr_body := BodyReplaceReferencePath path
                   (take (reference_path_end path next) next) |}]) ++
       plan_exact_reference_delta fuel id (drop (reference_path_end path previous) previous)
         (drop (reference_path_end path next) next) in
    symbols_valid ops ∧ Forall (reference_op_of id previous next) ops).
  { intros path Hge Hr. cbv zeta.
    destruct (path_run path previous Sp) as (Ep & Rp & Ap & Sp'); [intros x Hx; apply Hge; by left|].
    destruct (path_run path next Sn) as (En & Rn & An & Sn'); [intros x Hx; apply Hge; by right|].
    destruct (canonical_part _ _ _ En Sn Fn) as ([Sr Fr] & _ & Fn').
    destruct (IH _ _ Sp' Sn' Fn') as [[IHv IHs] IHb]. clear IH.
    set (rest := plan_exact_reference_delta fuel id _ _) in *. rewrite Forall_forall in IHb.
    assert (Hsub : ∀ r, r ∈ drop (reference_path_end path previous) previous ∨
      r ∈ drop (reference_path_end path next) next → (r ∈ previous ∨ r ∈ next) ∧ str_lt path (loc_path r)).
    { intros r [Hx|Hx]; (split; [|by (apply Ap + apply An)]).
      - left. rewrite Ep. apply elem_of_app. by right.
      - right. rewrite En. apply elem_of_app. by right. }
    assert (Hrest : Forall (reference_op_of id previous next) rest).
    { apply Forall_forall. intros o Ho. destruct (IHb o Ho) as (Hi & q & refs & Hb & r & Hin & Hq).
      split; [done|]. exists q, refs. split; [done|]. exists r. split; [by apply Hsub|done]. }
    case_bool_decide; [done|]. simpl. split; [split|].
    - constructor; [|done]. split; [done|by apply canonical_sorted].
    - cbn [fmap list_fmap]. constructor; [done|]. apply Forall_forall.
      intros k (o & -> & Ho)%list_elem_of_fmap.
      destruct (IHb o Ho) as (Hi & q & refs & Hb & r & Hin & Hq). apply key_lt_spec. right.
      unfold symbol_key. cbn [sr_id sr_body fst snd]. rewrite Hi, Hb. split; [done|]. right. split; [done|].
      rewrite <-Hq. by apply Hsub.
    - constructor; [|done]. split; [done|]. by exists path, (take (reference_path_end path next) next). }
  cbn [plan_exact_reference_delta]. cbv zeta.
  destruct previous as [|p ps] eqn:Epv, next as [|n ns] eqn:Env; cbn [head].
  - split; [split; constructor|constructor].
  - rewrite <-Env in *. apply Hstep.
    + intros x [Hx|Hx]; [by apply elem_of_nil in Hx|]. exact (least_head next n ns Sn Env x Hx).
    + exists n. split; [right; rewrite Env; by left|done].
  - rewrite <-Epv in *. apply Hstep.
    + intros x [Hx|Hx]; [|by apply elem_of_nil in Hx]. exact (least_head previous p ps Sp Epv x Hx).
    + exists p. split; [left; rewrite Epv; by left|done].
  - pose proof (least_head _ p ps Sp eq_refl) as Lp. pose proof (least_head _ n ns Sn eq_refl) as Ln.
    destruct (str_ltb (loc_path p) (loc_path n)) eqn:Elt.
    + apply str_ltb_lt in Elt. apply Hstep; [|exists p; split; [left; by left|done]].
      intros x [Hx|Hx]; [by apply Lp|]. intros Hlt. apply (Ln x Hx). by etrans.
    + assert (Hnp : ¬ str_lt (loc_path p) (loc_path n)) by (intros Hx; apply str_ltb_lt in Hx; congruence).
      apply Hstep; [|exists n; split; [right; by left|done]].
      intros x [Hx|Hx]; [|by apply Ln]. intros Hlt. apply (Lp x Hx).
      destruct (not_lt_cases (loc_path p) (loc_path n) Hnp) as [->|?]; [done|by etrans].
Qed.

(** ** Symbol planners *)

Section symbols.
Context (schema : N) (base target : ProducerTable).
Context (Hbase : symbols_ok base) (Htarget : symbols_ok target) (Hfits : Forall symbol_fits (pt_symbols target)).

Lemma target_symbol id f : producer_symbol target id = Some f → fact_ok f ∧ symbol_fits f ∧ sf_id f = id.
Proof.
  intros Hf. destruct (symbol_found target id f Htarget Hf) as [Hok Hid]. split_and!; [done| |done].
  rewrite producer_symbol_spec in Hf by apply Htarget. apply find_row_Some in Hf as [Hin _].
  rewrite Forall_forall in Hfits. by apply Hfits.
Qed.

Lemma symbol_difference_valid id :
  symbols_valid (symbol_difference base target id) ∧
  Forall (λ o, sr_id o = id) (symbol_difference base target id).
Proof.
  assert (Hone : ∀ b, symbol_valid {| sr_id := id; sr_body := b |} →
    symbols_valid [{| sr_id := id; sr_body := b |}] ∧
    Forall (λ o, sr_id o = id) [{| sr_id := id; sr_body := b |}]).
  { intros b Hb. split; [split|]; [by apply Forall_singleton| |by apply Forall_singleton].
    apply SSorted_cons; [apply SSorted_nil|apply Forall_nil_2]. }
  unfold symbol_difference. destruct (producer_symbol base id) as [p|] eqn:Ep, (producer_symbol target id) as [n|] eqn:En.
  - destruct (target_symbol id n En) as (Hn & Fn & Hni).
    destruct (symbol_found base id p Hbase Ep) as [Hp Hpi].
    destruct (_ || _); [by apply Hone, (replace_valid n)|].
    destruct (reference_delta_valid (length (sf_references p) + length (sf_references n)) id
      (sf_references p) (sf_references n)) as [Hv Hi]; [apply Hp|apply Hn|apply Fn|].
    split; [done|]. eapply Forall_impl; [exact Hi|]. by intros o [? _].
  - by apply Hone.
  - destruct (target_symbol id n En) as (Hn & Fn & Hni). by apply Hone, (replace_valid n).
  - split; [split|]; constructor.
Qed.

Lemma sorted_groups ids (f : str → list SymbolOpRef) : StronglySorted str_lt ids →
  (∀ id, id ∈ ids → symbols_valid (f id) ∧ Forall (λ o, sr_id o = id) (f id)) → symbols_valid (ids ≫= f).
Proof.
  induction 1 as [|id ids Hs IH Hid]; intros Hf; [split; constructor|].
  rewrite Forall_forall in Hid. destruct (Hf id) as [[Hv Hk] Hi]; [by left|].
  destruct IH as [IHv IHk]; [intros; apply Hf; by right|]. cbn [mbind list_bind]. split.
  - by apply Forall_app.
  - rewrite fmap_app. apply sorted_app_iff. split_and!; [done|done|].
    intros x y (o & -> & Ho)%list_elem_of_fmap (o' & -> & Ho')%list_elem_of_fmap.
    apply list_elem_of_bind in Ho' as (id' & Ho' & Hid'). apply key_lt_ids.
    rewrite Forall_forall in Hi. rewrite (Hi o Ho). destruct (Hf id') as [_ Hi']; [by right|].
    rewrite Forall_forall in Hi'. rewrite (Hi' o' Ho'). by apply Hid.
Qed.

Lemma strict_of_nodup l : StronglySorted (λ x y, ¬ str_lt y x) l → NoDup l → StronglySorted str_lt l.
Proof.
  induction 1 as [|x l Hs IH Hx]; [constructor|]. intros [Hnin Hnd]%NoDup_cons.
  constructor; [by apply IH|]. rewrite Forall_forall in Hx. apply Forall_forall. intros y Hy.
  destruct (not_lt_cases y x (Hx y Hy)) as [->|?]; [done|done].
Qed.

Lemma exact_symbols_valid m : symbols_valid (plan_exact_symbol_delta base target m).
Proof.
  apply sorted_groups; [apply strict_of_nodup; [apply sort_strs_sorted|apply manifest_ids_nodup]|].
  intros id _. apply symbol_difference_valid.
Qed.

Lemma full_symbols_valid : symbols_valid (replace_op <$> pt_symbols target).
Proof.
  pose proof Htarget as ((_ & _ & _ & Ss) & Hok & _). split.
  - apply Forall_forall. intros o (f & -> & Hf)%list_elem_of_fmap. rewrite Forall_forall in Hok, Hfits.
    apply replace_valid; auto.
  - apply sorted_ids_keys. rewrite <-list_fmap_compose. by apply sorted_rows_ids.
Qed.

(** The walk's operations: each of a symbol of one of the two lists. *)
Lemma fallback_valid fuel ls rs : StronglySorted row_lt ls → StronglySorted row_lt rs →
  Forall (λ f, fact_ok f ∧ symbol_fits f) rs → length ls + length rs ≤ fuel →
  let ops := fallback_symbols fuel ls rs in
  Forall symbol_valid ops ∧ StronglySorted str_lt (sr_id <$> ops) ∧
  Forall (λ o, sr_id o ∈ (sf_id <$> ls) ++ (sf_id <$> rs)) ops.
Proof.
  cbv zeta. revert ls rs. induction fuel as [|fuel IH]; intros ls rs Sl Sr Hok Hf.
  { destruct ls, rs; simpl in Hf; try lia. split_and!; constructor. }
  assert (Hend : ls = [] ∨ rs = [] → Forall symbol_valid ((remove_op <$> ls) ++ (replace_op <$> rs)) ∧
    StronglySorted str_lt (sr_id <$> (remove_op <$> ls) ++ (replace_op <$> rs)) ∧
    Forall (λ o, sr_id o ∈ (sf_id <$> ls) ++ (sf_id <$> rs)) ((remove_op <$> ls) ++ (replace_op <$> rs))).
  { intros Hn. split_and!.
    - apply Forall_app. split; apply Forall_forall; intros o (f & -> & Hx)%list_elem_of_fmap; [done|].
      rewrite Forall_forall in Hok. apply replace_valid; by apply Hok.
    - rewrite fmap_app, <-!list_fmap_compose. destruct Hn as [->| ->]; simpl.
      + by apply sorted_rows_ids.
      + rewrite app_nil_r. by apply sorted_rows_ids.
    - apply Forall_forall. intros o [Ho|Ho]%elem_of_app; apply list_elem_of_fmap in Ho as (f & -> & Hx);
        apply elem_of_app; [left|right]; simpl; by apply list_elem_of_fmap_2. }
  destruct ls as [|x ls]; [apply Hend; by left|]. destruct rs as [|y rs]; [apply Hend; by right|]. clear Hend.
  pose proof Sl as [Sl' Hx]%StronglySorted_inv. pose proof Sr as [Sr' Hy]%StronglySorted_inv.
  rewrite Forall_forall in Hx, Hy. inversion Hok as [|? ? [Hyo Hyf] Hrs]; subst. simpl in Hf.
  assert (Hcons : ∀ o ops ls' rs', symbol_valid o → Forall symbol_valid ops ∧
    StronglySorted str_lt (sr_id <$> ops) ∧ Forall (λ o, sr_id o ∈ (sf_id <$> ls') ++ (sf_id <$> rs')) ops →
    (∀ f, f ∈ ls' ∨ f ∈ rs' → str_lt (sr_id o) (sf_id f)) →
    (∀ f, f ∈ ls' → f ∈ x :: ls) → (∀ f, f ∈ rs' → f ∈ y :: rs) → sr_id o = sf_id x ∨ sr_id o = sf_id y →
    Forall symbol_valid (o :: ops) ∧ StronglySorted str_lt (sr_id <$> o :: ops) ∧
    Forall (λ o, sr_id o ∈ (sf_id <$> x :: ls) ++ (sf_id <$> y :: rs)) (o :: ops)).
  { intros o ops ls' rs' Ho (V & S & I) Hlt Hl Hr Hid. rewrite Forall_forall in I.
    assert (Hin : ∀ o', o' ∈ ops → ∃ f, (f ∈ ls' ∨ f ∈ rs') ∧ sr_id o' = sf_id f).
    { intros o' Ho'. specialize (I o' Ho').
      apply elem_of_app in I as [I|I]; apply list_elem_of_fmap in I as (f & E & Hf'); exists f; auto. }
    split_and!; [by constructor| |].
    - cbn [fmap list_fmap]. constructor; [done|]. apply Forall_forall.
      intros k (o' & -> & Ho')%list_elem_of_fmap. destruct (Hin o' Ho') as (f & Hf' & ->). by apply Hlt.
    - apply Forall_forall. intros o' [->|Ho']%elem_of_cons.
      + apply elem_of_app. destruct Hid as [->| ->]; [left|right]; by left.
      + destruct (Hin o' Ho') as (f & [Hf'|Hf'] & ->); apply elem_of_app;
          [left; apply list_elem_of_fmap_2, Hl, Hf'|right; apply list_elem_of_fmap_2, Hr, Hf']. }
  cbn [fallback_symbols]. destruct (str_cmp (sf_id x) (sf_id y)) eqn:E.
  - apply str_cmp_lt_eq in E. destruct (IH ls rs Sl' Sr' Hrs ltac:(lia)) as (V & S & I).
    case_bool_decide as Exy.
    + split_and!; [done|done|]. eapply Forall_impl; [exact I|]. intros o.
      rewrite !elem_of_app. cbn [fmap list_fmap]. rewrite !elem_of_cons. tauto.
    + apply (Hcons (replace_op y) _ ls rs); [by apply replace_valid|done| |by right|by right|by right].
      intros f [Hf'|Hf']; [simpl; rewrite <-E; by apply Hx|by apply Hy].
  - apply (Hcons (remove_op x) _ ls (y :: rs)); [done|apply IH; [done|done|done|simpl; lia]| |by right|done|by left].
    intros f [Hf'|[->|Hf']%elem_of_cons]; [by apply Hx|exact E|].
    simpl. etrans; [exact E|by apply Hy].
  - assert (Hlt : str_lt (sf_id y) (sf_id x)) by by apply str_cmp_gt.
    apply (Hcons (replace_op y) _ (x :: ls) rs);
      [by apply replace_valid|apply IH; [done|done|done|simpl; lia]| |done|by right|by right].
    intros f [[->|Hf']%elem_of_cons|Hf']; [exact Hlt| |by apply Hy].
    simpl. etrans; [exact Hlt|by apply Hx].
Qed.

Lemma fallback_symbols_valid : symbols_valid (plan_fallback_symbol_delta base target).
Proof.
  pose proof Hbase as ((_ & _ & _ & Sb) & _). pose proof Htarget as ((_ & _ & _ & St) & Hok & _).
  assert (Hboth : Forall (λ f, fact_ok f ∧ symbol_fits f) (pt_symbols target)).
  { rewrite Forall_forall in Hok, Hfits. apply Forall_forall. auto. }
  destruct (fallback_valid _ _ _ Sb St Hboth (le_n _)) as (V & S & _).
  split; [done|]. by apply sorted_ids_keys.
Qed.

End symbols.

(** * From one producer table to the next, end to end

    A session that holds a producer's table, and accepts the frame the encoder
    makes for the next one, holds the next one: planning, row writing, the
    packed frame, decoding, validation and application put together, for a full
    transition, a walk of both tables, an exact manifest and a sparse one. *)

(** ** The client of a producer table *)

(** What a session holds of a producer's table. *)
Definition client_follows (schema : N) (project : str) (t : FactTable) (p : ProducerTable) : Prop :=
  table_ok t ∧ paths_follow schema (Some p) (rows (ft_paths t)) ∧ symbols t = pt_symbols p ∧
  ft_schema t = schema ∧ ft_generation t = pt_generation p ∧ ft_project_id t = project.

(** A manifest the encoder uses names every row that differs. *)
Definition input_sound (input : TransitionInput) : Prop :=
  ∀ base m, ti_base input = Some base → exact_manifest (ti_target input) = Some m →
    ti_sparse input = true ∨ manifest_matches base m = true →
    manifest_covers base (ti_target input) m ∧ symbols_covered base (ti_target input) m.

Definition base_symbols (base : option ProducerTable) : list SymbolFact :=
  match base with Some b => pt_symbols b | None => [] end.

Definition input_fits (schema : N) (input : TransitionInput) : Prop :=
  producer_fits schema (ti_target input) ∧ ∀ b, ti_base input = Some b → producer_fits schema b.

Lemma validate_mode input mode bg : validate input = Ok (mode, bg) →
  is_empty (ti_project_id input) = false ∧ pt_generation (ti_target input) ≠ 0%N ∧
  match ti_base input with
  | None => mode = Full ∧ bg = 0%N ∧ is_empty (ti_base_state_token input) = true
  | Some b => mode = Delta ∧ bg = pt_generation b ∧ is_empty (ti_base_state_token input) = false ∧
      bg ≠ 0%N ∧ (pt_generation (ti_target input) <? bg)%N = false
  end.
Proof.
  unfold validate, ensure_encode. destruct (is_empty (ti_project_id input)); [done|].
  cbn [negb mbind result_bind]. destruct (_ =? schema_v1)%N; [|done]. cbn [mbind result_bind].
  destruct (pt_generation (ti_target input) =? 0)%N eqn:E0; [done|]. cbn [negb mbind result_bind].
  apply N.eqb_neq in E0. destruct (ti_base input) as [b|].
  - destruct (pt_schema b =? schema_v1)%N; [|done]. cbn [mbind result_bind].
    destruct (is_empty (ti_base_state_token input)); [done|]. cbn [negb mbind result_bind].
    destruct (pt_generation b =? 0)%N eqn:E1; [done|]. cbn [negb mbind result_bind].
    destruct (pt_generation (ti_target input) <? pt_generation b)%N eqn:E2; [done|].
    cbn [negb mbind result_bind]. intros [= <- <-]. apply N.eqb_neq in E1. done.
  - destruct (is_empty (ti_base_state_token input)); [|done]. cbn [mbind result_bind]. by intros [= <- <-].
Qed.

(** Every planner: right, and in the order and form a reader accepts. *)
Lemma plan_operations_spec schema input mode bg ops :
  input_fits schema input → input_sound input → validate input = Ok (mode, bg) →
  plan_operations mode input = Ok ops →
  takes schema (ti_base input) (ti_target input) ops.1 ∧
  fold_facts (base_symbols (ti_base input)) (project_symbol_op <$> ops.2) =
    Some (pt_symbols (ti_target input)) ∧
  paths_valid mode schema ops.1 ∧ symbols_valid ops.2.
Proof.
  intros [(Ht & _ & Hrows & Hsf) Hb] Hsound Hval. pose proof Ht as (Hpt & _).
  apply validate_mode in Hval as (_ & _ & Hm). unfold plan_operations.
  destruct (ti_base input) as [b|] eqn:Eb.
  2:{ destruct Hm as (-> & _). destruct (plan_full_takes schema (ti_target input) Hpt) as (paths & E & Htk).
      rewrite E. cbn [mbind result_bind]. intros [= <-]. cbn [fst snd base_symbols].
      split_and!; [done|by apply full_fold|by eapply full_paths_valid|by apply full_symbols_valid]. }
  destruct Hm as (-> & _). destruct (Hb b eq_refl) as (Hbs & _ & _ & _). pose proof Hbs as (Hpb & _).
  assert (Hman : ∀ m, exact_manifest (ti_target input) = Some m →
    ti_sparse input = true ∨ manifest_matches b m = true →
    manifest_covers b (ti_target input) m ∧ symbols_covered b (ti_target input) m)
    by (intros m; by apply Hsound).
  assert (Hfall : ∀ ops, Ok (plan_fallback_path_delta b (ti_target input),
      plan_fallback_symbol_delta b (ti_target input)) = Ok (E := EncodeError) ops →
    takes schema (Some b) (ti_target input) ops.1 ∧
    fold_facts (base_symbols (Some b)) (project_symbol_op <$> ops.2) = Some (pt_symbols (ti_target input)) ∧
    paths_valid Delta schema ops.1 ∧ symbols_valid ops.2).
  { intros ? [= <-]. cbn [fst snd base_symbols].
    split_and!; [by apply plan_fallback_takes|by apply fallback_fold|by apply fallback_paths_valid|
      by apply fallback_symbols_valid]. }
  destruct (ti_sparse input).
  - destruct (exact_manifest (ti_target input)) as [m|] eqn:Em; [|done]. cbn [ok_or mbind result_bind].
    destruct (Hman m eq_refl) as [Hc Hsc]; [by left|]. intros [= <-]. cbn [fst snd base_symbols].
    split_and!; [by apply plan_sparse_takes|by apply exact_symbols_fold|by apply sparse_paths_valid|
      by apply exact_symbols_valid].
  - destruct (exact_manifest (ti_target input)) as [m|] eqn:Em; [|by apply Hfall].
    destruct (manifest_matches b m) eqn:Emm; [|by apply Hfall].
    destruct (Hman m eq_refl) as [Hc Hsc]; [by right|]. intros [= <-]. cbn [fst snd base_symbols].
    split_and!; [by apply plan_exact_takes|by apply exact_symbols_fold|by apply exact_paths_valid|
      by apply exact_symbols_valid].
Qed.

(** ** The frame *)

(** The counts and strings of the frame stay within what a reader accepts. *)
Definition frame_in_limits (schema : N) (input : TransitionInput) : Prop :=
  ∀ mode bg ops, validate input = Ok (mode, bg) → plan_operations mode input = Ok ops →
    length ops.1 ≤ dictionary_limit ∧ length ops.2 ≤ dictionary_limit ∧
    rows_fit (plan_for schema input mode bg ops).

Definition encode (schema : N) (input : TransitionInput) : result EncodeError EncodedTransition :=
  '(encoded, _) ← encode_with (S := Empty_set) schema input None; Ok encoded.

Lemma plan_for_valid schema input mode bg ops :
  input_fits schema input → input_sound input → validate input = Ok (mode, bg) →
  plan_operations mode input = Ok ops → frame_in_limits schema input →
  existsb (N.eqb schema) supported_table_schemas = true →
  plan_valid (plan_for schema input mode bg ops).
Proof.
  intros Hfit Hsound Hval Hops Hlim Hsch.
  destruct (plan_operations_spec _ _ _ _ _ Hfit Hsound Hval Hops) as (_ & _ & [Hpv Hpo] & [Hsv Hsk]).
  destruct (Hlim _ _ _ Hval Hops) as (Hl1 & Hl2 & _). pose proof Hfit as [(_ & Hg & _ & _) Hb].
  apply validate_mode in Hval as (Hp & Ht0 & Hm). unfold plan_valid, plan_for.
  cbn [pl_table_schema pl_base_generation pl_target_generation pl_project_id pl_mode pl_base_state_token
    pl_paths pl_symbols]. split; [done|]. split.
  { destruct (ti_base input) as [b|]; [|by destruct Hm as (-> & -> & _)].
    destruct Hm as (_ & -> & _). destruct (Hb b eq_refl) as (_ & Hbg & _). done. }
  split; [done|]. split.
  { unfold Decode.check_base. destruct (ti_base input) as [b|].
    - destruct Hm as (-> & -> & He & H0 & Hlt). apply N.eqb_neq in H0. by rewrite H0, He, Hlt.
    - destruct Hm as (-> & -> & He). by rewrite He. }
  split; [done|]. split; [done|]. by apply sorted_symbols_ordered.
Qed.

Lemma decode_nothing : decode_table_transition [] = Err PackedTruncated.
Proof. vm_compute. reflexivity. Qed.

(** What an encoded transition is: empty, or a frame that decodes to its plan. *)
Lemma encode_spec schema input encoded :
  input_fits schema input → input_sound input → frame_in_limits schema input →
  encode schema input = Ok encoded → fits (et_bytes encoded) →
  ∃ mode bg ops, validate input = Ok (mode, bg) ∧ plan_operations mode input = Ok ops ∧
    (et_bytes encoded = [] ∧ mode = Delta ∧ bg = pt_generation (ti_target input) ∧ ops = ([], []) ∨
     et_bytes encoded ≠ [] ∧
     decode_table_transition (et_bytes encoded) = Ok (project_plan (plan_for schema input mode bg ops))).
Proof.
  intros Hfit Hsound Hlim Henc Hbytes. unfold encode, encode_with, ensure_encode in Henc.
  destruct (existsb (N.eqb schema) supported_table_schemas) eqn:Hsch; [|done].
  cbn [mbind result_bind] in Henc. destruct (validate input) as [[mode bg]|] eqn:Hval; [|done].
  cbn [mbind result_bind] in Henc. destruct (plan_operations mode input) as [ops|] eqn:Hops; [|done].
  cbn [mbind result_bind] in Henc. exists mode, bg, ops. split_and!; [done|done|].
  destruct (_ && is_nil ops.2) eqn:Eempty.
  - cbn [mbind result_bind] in Henc. injection Henc as <-. left.
    apply andb_true_iff in Eempty as [E E4]. apply andb_true_iff in E as [E E3].
    apply andb_true_iff in E as [E1%bool_decide_eq_true E2%N.eqb_eq].
    split_and!; [done|done|done|]. destruct ops as [[|? ?] [|? ?]]; done.
  - right. set (plan := plan_for schema input mode bg ops) in *.
    destruct (write_transition (S := Empty_set) plan None) as [[frame s]|] eqn:Ew; [|done].
    cbn [mbind result_bind] in Henc. injection Henc as <-. cbn [et_bytes] in *.
    assert (Hwf : write_frame plan = Ok frame) by (unfold write_frame; by rewrite Ew).
    assert (Hd : decode_table_transition frame = Ok (project_plan plan)).
    { apply frame_decodes; [done| | |done].
      - by apply plan_for_valid.
      - by destruct (Hlim _ _ _ Hval Hops) as (_ & _ & ?). }
    split; [|done]. intros ->. by rewrite decode_nothing in Hd.
Qed.

(** ** The session *)

Definition response_of (input : TransitionInput) (token : str) (encoded : EncodedTransition) : Response :=
  {| rs_schema := type_facts_schema_v1; rs_project_id := ti_project_id input;
     rs_generation := pt_generation (ti_target input); rs_state_token := token;
     rs_table_transition := et_bytes encoded |}.

Lemma check_response_ok input token encoded : is_empty token = false →
  check_response (response_of input token encoded) (ti_project_id input)
    (pt_generation (ti_target input)) = Ok tt.
Proof.
  intros Htok. unfold check_response, response_of, ensure_session, str_eqb.
  cbn [rs_schema rs_project_id rs_generation rs_state_token].
  rewrite N.eqb_refl, bool_decide_eq_true_2, N.eqb_refl, Htok by done. done.
Qed.

(** Before the response: the base's client, or any session for a full table. *)
Definition ready (schema : N) (input : TransitionInput) (retained : option FactTable) : Prop :=
  match ti_base input with
  | Some b => ∃ t, retained = Some t ∧ client_follows schema (ti_project_id input) t b
  | None => True
  end.

Lemma delta_followed schema input mode bg ops t b :
  input_fits schema input → input_sound input → validate input = Ok (mode, bg) →
  plan_operations mode input = Ok ops → ti_base input = Some b →
  client_follows schema (ti_project_id input) t b →
  let tr := project_plan (plan_for schema input mode bg ops) in
  transition_ok tr →
  ∃ t', apply_retained (Some t) (ti_base_state_token input) tr =
      Ok (t', table_changes_against t tr) ∧
    client_follows schema (ti_project_id input) t' (ti_target input).
Proof.
  intros Hfit Hsound Hval Hops Eb (Hok & Hpaths & Hsyms & Hsch & Hgen & Hproj) tr Htr.
  destruct (plan_operations_spec _ _ _ _ _ Hfit Hsound Hval Hops) as (Htk & Hfold & _).
  rewrite Eb in Htk, Hfold. cbn [base_symbols] in Hfold. apply validate_mode in Hval as (_ & _ & Hm).
  rewrite Eb in Hm. destruct Hm as (-> & -> & _). unfold apply_retained, ensure_session, str_eqb.
  cbn [ok_or mbind result_bind]. change (wt_table_schema tr) with schema.
  change (wt_base_generation tr) with (pt_generation b).
  change (wt_project_id tr) with (ti_project_id input).
  change (wt_base_state_token tr) with (ti_base_state_token input).
  rewrite Hsch, Hgen, Hproj, !N.eqb_refl, !bool_decide_eq_true_2 by done. cbn [andb mbind result_bind].
  pose proof (validate_delta_spec t tr Hok Htr) as Hv. rewrite Hsyms in Hv.
  change (wt_symbols tr) with (project_symbol_op <$> ops.2) in Hv. rewrite Hfold in Hv.
  destruct (validate_delta t tr) as [[]|e] eqn:Ev; [|by destruct Hv as [? _]].
  cbn [map_err mbind result_bind].
  destruct (apply_delta_spec t tr Hok Htr Ev) as (t' & -> & Hok' & Hf & Hs' & Hg' & Hp').
  cbn [ok_or mbind result_bind]. exists t'. split; [done|].
  unfold apply_facts, facts in Hf. cbn [fst snd] in Hf. rewrite Hsyms in Hf.
  change (wt_symbols tr) with (project_symbol_op <$> ops.2) in Hf. rewrite Hfold in Hf.
  cbn [mbind option_bind] in Hf. injection Hf as Hrows Hsyms'.
  split_and!; [done| |done|done|done|congruence]. rewrite <-Hrows.
  by apply (takes_follow schema (Some b)).
Qed.

(** The composition: a session ready for the base holds the target. *)
Lemma session_follows input token encoded retained :
  input_fits 24 input → input_sound input → frame_in_limits 24 input →
  encode 24 input = Ok encoded → fits (et_bytes encoded) → is_empty token = false →
  ready 24 input retained →
  ∃ t' changes derived,
    prepare_analyze_response_mode (response_of input token encoded) (ti_project_id input)
      (pt_generation (ti_target input)) retained (ti_base_state_token input) =
      Ok (t', changes, derived) ∧
    client_follows 24 (ti_project_id input) t' (ti_target input).
Proof.
  intros Hfit Hsound Hlim Henc Hbytes Htok Hready.
  destruct (encode_spec _ _ _ Hfit Hsound Hlim Henc Hbytes) as (mode & bg & ops & Hval & Hops & Hcase).
  pose proof (validate_mode _ _ _ Hval) as (_ & _ & Hm).
  unfold prepare_analyze_response_mode. rewrite check_response_ok by done. cbn [mbind result_bind].
  cbn [rs_table_transition response_of rs_project_id rs_generation].
  destruct Hcase as [(Hnil & -> & -> & ->)|[Hne Hd]].
  - rewrite Hnil. cbn [is_nil]. unfold ready in Hready. destruct (ti_base input) as [b|] eqn:Eb; [|by destruct Hm].
    destruct Hm as (_ & Hg & _). destruct Hready as (t & -> & Hok & Hpaths & Hsyms & Hsch & Hgen & Hproj).
    unfold reuse_table, ensure_session, str_eqb. cbn [ok_or mbind result_bind rs_generation response_of].
    rewrite Hsch, Hproj, Hgen, <-Hg, !N.eqb_refl, bool_decide_eq_true_2 by done. cbn [andb mbind result_bind].
    exists t, reuse_changes, true. split; [done|].
    destruct (plan_operations_spec _ _ _ _ _ Hfit Hsound Hval Hops) as (Htk & Hfold & _).
    rewrite Eb in Htk, Hfold. cbn in Hfold. injection Hfold as Hfold.
    split_and!; [done| |congruence|done|congruence|done].
    apply (takes_follow 24 (Some b) _ [] _ Htk Hpaths).
  - assert (Hnil : is_nil (et_bytes encoded) = false) by (by destruct (et_bytes encoded)).
    rewrite Hnil, Hd. cbn [map_err mbind result_bind].
    pose proof (decoded_ok _ _ Hd) as Htr. set (tr := project_plan (plan_for 24 input mode bg ops)) in *.
    unfold ensure_session, str_eqb. change (wt_project_id tr) with (ti_project_id input).
    change (wt_target_generation tr) with (pt_generation (ti_target input)).
    change (wt_table_schema tr) with 24%N. rewrite N.eqb_refl, bool_decide_eq_true_2 by done.
    cbn [andb mbind result_bind]. change (24 =? type_facts_table_schema_v24)%N with true. cbn [mbind result_bind].
    change (wt_mode tr) with mode. destruct (ti_base input) as [b|] eqn:Eb.
    + destruct Hm as (-> & _). unfold ready in Hready. rewrite Eb in Hready.
      destruct Hready as (t & -> & Hfol).
      destruct (delta_followed 24 input Delta bg ops t b Hfit Hsound Hval Hops Eb Hfol Htr) as (t' & E & Hf').
      fold tr in E. rewrite E. cbn [mbind result_bind]. by exists t', (table_changes_against t tr), true.
    + destruct Hm as (-> & _). unfold materialize_full_transition.
      destruct (materialize_full_spec tr eq_refl Htr) as (t' & -> & Hok' & Hf & Hs & Hg & Hp).
      cbn [ok_or mbind result_bind]. do 3 eexists. split; [reflexivity|].
      destruct (plan_operations_spec _ _ _ _ _ Hfit Hsound Hval Hops) as (Htk & Hfold & _).
      rewrite Eb in Htk, Hfold. unfold apply_facts, no_facts, facts in Hf. cbn [fst snd] in Hf.
      change (wt_symbols tr) with (project_symbol_op <$> ops.2) in Hf. cbn [base_symbols] in Hfold.
      rewrite Hfold in Hf. cbn [mbind option_bind] in Hf. injection Hf as Hrows Hsyms.
      split_and!; try done. rewrite <-Hrows. apply (takes_follow 24 None); [done|].
      split; [constructor|done].
Qed.
