(* ===== verification/CompactDemands.v ===== *)
(** * Compact demands

    The compact form of a demand snapshot: [compact_demands] of
    [typefacts/src/v3.rs], which the client packs it with, and the expansions of
    [producer/compact.rs], which read it back whole, group by group or only the
    rows that carry a flag. *)
From S2P Require Export WireRows.

(** ** Demands *)

Record EntityDemand := {
  ed_location : Location; ed_query_location : option Location;
  ed_symbol : bool; ed_references : bool; ed_type_descriptor : bool; ed_resolved_call : bool;
  ed_async : bool; ed_structural_accessor : bool; ed_callability : bool; ed_reference_space :
  bool; ed_runtime_identity : bool; ed_runtime_value_domain : bool; ed_call_result_domain : bool;
  ed_constant_value : bool; ed_array_shape : bool; ed_tuple_shape : bool; ed_library_types : bool;
  ed_primitive_value_domain : bool; ed_primitive_literal_candidates : bool;
  ed_parameter_object_shape : bool; ed_constructability : bool; ed_declared_keys : bool;
  ed_writable_optional_property : bool
}.

Inductive CompactError :=
  | DemandVarintOverflow
  | DemandVarintTruncated
  | StringIndex (index : N) (count : nat)
  | DemandLocationOverflow
  | DemandQueryOverflow
  | OutOfFuel.

(** The flags word, one bit per demanded fact. *)
Definition demand_flags (d : EntityDemand) : N := flags_of
  [(ed_symbol d, 1);
   (ed_references d, 2);
   (ed_type_descriptor d, 4);
   (ed_resolved_call d, 8);
   (ed_async d, 16);
   (ed_structural_accessor d, 32);
   (ed_callability d, 64);
   (ed_reference_space d, 128);
   (ed_runtime_identity d, 256);
   (ed_runtime_value_domain d, 512);
   (ed_call_result_domain d, 1024);
   (ed_constant_value d, 2048);
   (ed_array_shape d, 4096);
   (ed_tuple_shape d, 8192);
   (ed_library_types d, 16384);
   (ed_primitive_value_domain d, 32768);
   (ed_primitive_literal_candidates d, 131072);
   (ed_parameter_object_shape d, 262144);
   (ed_constructability d, 65536);
   (ed_declared_keys d, 524288);
   (ed_writable_optional_property d, 1048576)]%N.

(** [saturating_sub]: subtraction on [N] stops at zero. *)
Definition saturating_sub (a b : N) : N := (a - b)%N.

(** [StringTable::intern]. *)
Definition string_table_intern (t : Dictionary) (value : str) : N * Dictionary :=
  match indexes t !! value with
  | Some index => (index, t)
  | None =>
      let index := N.of_nat (length (values t)) in
      (index, {| indexes := <[value := index]> (indexes t); values := values t ++ [value] |})
  end.

(** ** Packing *)

Definition CompactDemandGroup : Type := N * list N.
Record CompactDemands := { cd_groups : list CompactDemandGroup; cd_strings : list str }.

Record CompactState := {
  cs_strings : Dictionary; cs_groups : list CompactDemandGroup; cs_previous_start : N
}.

Definition compact_state_new : CompactState :=
  {| cs_strings := dict_new; cs_groups := []; cs_previous_start := 0 |}.

(** The group a demand goes to: the last, or a new one. *)
Definition open_group (path start : N) (s : CompactState) : CompactState :=
  let fresh :=
    match last (cs_groups s) with
    | Some (group_path, _) => negb (group_path =? path)%N || (start <? cs_previous_start s)%N
    | None => true
    end in
  if fresh
  then {| cs_strings := cs_strings s; cs_groups := cs_groups s ++ [(path, [])]; cs_previous_start := 0 |}
  else s.

(** Bytes appended to the last group. *)
Definition push_group (groups : list CompactDemandGroup) (row : list N) : list CompactDemandGroup :=
  alter (λ '(path, packed), (path, packed ++ row)) (length groups - 1) groups.

Definition compact_demand (s : CompactState) (d : EntityDemand) : CompactState :=
  let '(path, strings) := string_table_intern (cs_strings s) (loc_path (ed_location d)) in
  let s := open_group path (start_byte (ed_location d))
             {| cs_strings := strings; cs_groups := cs_groups s;
                cs_previous_start := cs_previous_start s |} in
  let has_query := match ed_query_location d with Some _ => 1%N | None => 0%N end in
  let row := uvarint (N.lor (u64_shl (demand_flags d) 1) has_query) ++
             uvarint (saturating_sub (start_byte (ed_location d)) (cs_previous_start s)) ++
             uvarint (saturating_sub (end_byte (ed_location d)) (start_byte (ed_location d))) in
  let '(query, strings) :=
    match ed_query_location d with
    | Some q =>
        let '(path, strings) := string_table_intern (cs_strings s) (loc_path q) in
        (uvarint path ++ uvarint (start_byte q) ++
         uvarint (saturating_sub (end_byte q) (start_byte q)), strings)
    | None => ([], cs_strings s)
    end in
  {| cs_strings := strings; cs_groups := push_group (cs_groups s) (row ++ query);
     cs_previous_start := start_byte (ed_location d) |}.

Definition compact_demands (demands : list EntityDemand) : CompactDemands :=
  let s := foldl compact_demand compact_state_new demands in
  {| cd_groups := cs_groups s; cd_strings := values (cs_strings s) |}.

(** ** Reading back *)

Fixpoint take_uvarint_loop (whole : nat) (index : nat) (value : N) (input : list N)
    : result CompactError (N * list N) :=
  match input with
  | byte :: rest =>
      if (index =? 10)%nat then Err DemandVarintOverflow
      else if (index =? 9)%nat && (1 <? byte)%N then Err DemandVarintOverflow
      else
        let value := N.lor value (u64_shl (N.land byte 127) (7 * N.of_nat index)) in
        if (N.land byte 128 =? 0)%N then Ok (value, rest)
        else take_uvarint_loop whole (S index) value rest
  | [] => Err (if (10 <=? whole)%nat then DemandVarintOverflow else DemandVarintTruncated)
  end.

Definition take_uvarint (input : list N) : result CompactError (N * list N) :=
  take_uvarint_loop (length input) 0 0 input.

Definition lookup_string (strings : list str) (index : N) : result CompactError str :=
  ok_or (StringIndex index (length strings))
    (i ← usize_try_from index; strings !! N.to_nat i).

(** A row's header, start delta and length. *)
Definition take_head (packed : list N) : result CompactError (N * N * N * list N) :=
  '(header, rest) ← take_uvarint packed;
  '(start_delta, rest) ← take_uvarint rest;
  '(length, rest) ← take_uvarint rest;
  Ok (header, start_delta, length, rest).

(** The query's path, start and length, when the header has one. *)
Definition take_query (header : N) (packed : list N)
    : result CompactError (option (N * N * N) * list N) :=
  if negb (N.land header 1 =? 0)%N
  then
    '(path, rest) ← take_uvarint packed;
    '(start, rest) ← take_uvarint rest;
    '(length, rest) ← take_uvarint rest;
    Ok (Some (path, start, length), rest)
  else Ok (None, packed).

(** The rows and queries of one group; the fuel is the group's length. *)
Fixpoint group_shape (fuel : nat) (packed : list N) (shape : nat * nat)
    : result CompactError (nat * nat) :=
  match packed with
  | [] => Ok shape
  | _ =>
      match fuel with
      | 0 => Err OutOfFuel
      | S fuel =>
          '(header, _, _, rest) ← take_head packed;
          '(query, rest) ← take_query header rest;
          group_shape fuel rest
            (S shape.1, match query with Some _ => S shape.2 | None => shape.2 end)
      end
  end.

Fixpoint groups_shape (groups : list CompactDemandGroup) (shape : nat * nat)
    : result CompactError (nat * nat) :=
  match groups with
  | [] => Ok shape
  | group :: groups =>
      shape ← group_shape (length group.2) group.2 shape; groups_shape groups shape
  end.

Definition compact_demand_shape (groups : list CompactDemandGroup)
    : result CompactError (nat * nat) := groups_shape groups (0, 0).

Definition plain_demand (location : Location) (flags : N) : EntityDemand :=
  let has bit := negb (N.land flags bit =? 0)%N in
  {| ed_location := location; ed_query_location := None;
     ed_symbol := has 1%N;
     ed_references := has 2%N;
     ed_type_descriptor := has 4%N;
     ed_resolved_call := has 8%N;
     ed_async := has 16%N;
     ed_structural_accessor := has 32%N;
     ed_callability := has 64%N;
     ed_reference_space := has 128%N;
     ed_runtime_identity := has 256%N;
     ed_runtime_value_domain := has 512%N;
     ed_call_result_domain := has 1024%N;
     ed_constant_value := has 2048%N;
     ed_array_shape := has 4096%N;
     ed_tuple_shape := has 8192%N;
     ed_library_types := has 16384%N;
     ed_primitive_value_domain := has 32768%N;
     ed_primitive_literal_candidates := has 131072%N;
     ed_parameter_object_shape := has 262144%N;
     ed_constructability := has 65536%N;
     ed_declared_keys := has 524288%N;
     ed_writable_optional_property := has 1048576%N |}.

Definition with_query (d : EntityDemand) (query : Location) : EntityDemand :=
  {| ed_location := ed_location d; ed_query_location := Some query;
     ed_symbol := ed_symbol d;
     ed_references := ed_references d;
     ed_type_descriptor := ed_type_descriptor d;
     ed_resolved_call := ed_resolved_call d;
     ed_async := ed_async d;
     ed_structural_accessor := ed_structural_accessor d;
     ed_callability := ed_callability d;
     ed_reference_space := ed_reference_space d;
     ed_runtime_identity := ed_runtime_identity d;
     ed_runtime_value_domain := ed_runtime_value_domain d;
     ed_call_result_domain := ed_call_result_domain d;
     ed_constant_value := ed_constant_value d;
     ed_array_shape := ed_array_shape d;
     ed_tuple_shape := ed_tuple_shape d;
     ed_library_types := ed_library_types d;
     ed_primitive_value_domain := ed_primitive_value_domain d;
     ed_primitive_literal_candidates := ed_primitive_literal_candidates d;
     ed_parameter_object_shape := ed_parameter_object_shape d;
     ed_constructability := ed_constructability d;
     ed_declared_keys := ed_declared_keys d;
     ed_writable_optional_property := ed_writable_optional_property d |}.

(** A row as it is visited: flags, start, length and query. *)
Definition Row : Type := N * N * N * option (N * N * N).

(** [checked_add] that reports an overflow. *)
Definition add_demand (e : CompactError) (a b : N) : result CompactError N := ok_or e (checked_add a b).

Definition check_query (query : option (N * N * N)) : result CompactError () :=
  match query with
  | Some (_, start, length) => add_demand DemandQueryOverflow start length;; Ok tt
  | None => Ok tt
  end.

Section visit.
Context {St : Type} (visit : St → Row → result CompactError St).

(** The fuel is the group's length. *)
Fixpoint visit_loop (fuel : nat) (previous_start : N) (packed : list N) (s : St)
    : result CompactError St :=
  match packed with
  | [] => Ok s
  | _ =>
      match fuel with
      | 0 => Err OutOfFuel
      | S fuel =>
          '(header, start_delta, length, rest) ← take_head packed;
          start ← add_demand DemandLocationOverflow previous_start start_delta;
          add_demand DemandLocationOverflow start length;;
          '(query, rest) ← take_query header rest;
          check_query query;;
          s ← visit s (N.shiftr header 1, start, length, query);
          visit_loop fuel start rest s
      end
  end.

Definition visit_group (group : CompactDemandGroup) (strings : list str) (s : St)
    : result CompactError St :=
  lookup_string strings group.1;;
  visit_loop (length group.2) 0 group.2 s.

End visit.

Definition row_to_demand (path : str) (strings : list str) (row : Row)
    : result CompactError EntityDemand :=
  let '(flags, start, length, query) := row in
  let demand := plain_demand {| loc_path := path; end_byte := (start + length)%N;
                                start_byte := start |} flags in
  match query with
  | Some (query_path, query_start, query_length) =>
      path ← lookup_string strings query_path;
      Ok (with_query demand {| loc_path := path; end_byte := (query_start + query_length)%N;
                               start_byte := query_start |})
  | None => Ok demand
  end.

Definition push_demand (path : str) (strings : list str) (demands : list EntityDemand) (row : Row)
    : result CompactError (list EntityDemand) :=
  demand ← row_to_demand path strings row; Ok (demands ++ [demand]).

Definition expand_compact_group (group : CompactDemandGroup) (strings : list str)
    : result CompactError (list EntityDemand) :=
  compact_demand_shape [group];;
  path ← lookup_string strings group.1;
  visit_group (push_demand path strings) group strings [].

(** The demands after [target]; what the code leaves in the vector when it
    returns an error is not modelled. *)
Definition append_compact_demands_with_flag (target : list EntityDemand)
    (group : CompactDemandGroup) (strings : list str) (required_flag : N)
    : result CompactError (list EntityDemand) :=
  path ← lookup_string strings group.1;
  visit_group (λ demands row,
    if negb (N.land row.1.1.1 required_flag =? 0)%N then push_demand path strings demands row
    else Ok demands) group strings target.

Fixpoint expand_groups (groups : list CompactDemandGroup) (strings : list str)
    (demands : list EntityDemand) : result CompactError (list EntityDemand) :=
  match groups with
  | [] => Ok demands
  | group :: groups =>
      path ← lookup_string strings group.1;
      demands ← visit_group (push_demand path strings) group strings demands;
      expand_groups groups strings demands
  end.

Definition expand_compact_demands (compact : CompactDemands)
    : result CompactError (list EntityDemand) :=
  compact_demand_shape (cd_groups compact);;
  expand_groups (cd_groups compact) (cd_strings compact) [].
