(* ===== verification/CompactSpec.v ===== *)
(** * Compact demands read back

    Packing and expanding are inverse on demands whose locations do not end
    before they start; expanding with a flag is filtering the expansion. *)
From S2P Require Export CompactDemands WireIntSpec WireValues.

(** ** Varints *)

(** Whatever the packed cursor reads, the demand reader reads alike. *)
Lemma take_uvarint_cursor whole j k acc c v c' : (k + j = 10)%nat →
  Cursor.u64_loop (drop k Cursor.shifts) acc c = Ok (v, c') →
  take_uvarint_loop whole k acc (drop (offset c) (input c)) = Ok (v, drop (offset c') (input c')).
Proof.
  revert k acc c. induction j as [|j IH]; intros k acc c Hk Hr.
  { assert (k = 10) as -> by lia. done. }
  assert (Hdrop : drop k Cursor.shifts = (7 * N.of_nat k)%N :: drop (S k) Cursor.shifts)
    by (do 10 (destruct k as [|k]; [done|]); lia).
  rewrite Hdrop in Hr. cbn [Cursor.u64_loop] in Hr. unfold mbind at 1, reader_bind in Hr.
  unfold Cursor.next_byte in Hr. destruct (input c !! offset c) as [byte|] eqn:Eb; [|done].
  rewrite (drop_S _ _ _ Eb). cbn [take_uvarint_loop].
  replace (k =? 10)%nat with false by (symmetry; apply Nat.eqb_neq; lia).
  replace (k =? 9)%nat with (7 * N.of_nat k =? 63)%N.
  2:{ destruct (N.eqb_spec (7 * N.of_nat k) 63), (Nat.eqb_spec k 9); try done; lia. }
  destruct ((7 * N.of_nat k =? 63)%N && (1 <? byte)%N); [done|].
  destruct (N.land byte 128 =? 0)%N.
  - destruct (_ && (byte =? 0)%N); [done|]. by injection Hr as <- <-.
  - specialize (IH (S k) _ _ ltac:(lia) Hr). cbn [input offset] in IH. exact IH.
Qed.

Lemma take_uvarint_push v rest : is_u64 v → fits (uvarint v ++ rest) →
  take_uvarint (uvarint v ++ rest) = Ok (v, rest).
Proof.
  intros Hv Hf. pose proof (u64_reads v Hv [] rest Hf) as Hr. unfold cursor_at in Hr. simpl in Hr.
  unfold take_uvarint. apply (take_uvarint_cursor (length (uvarint v ++ rest)) 10 0) in Hr; [|done]. cbn [input offset drop] in Hr.
  rewrite drop_app_length in Hr. exact Hr.
Qed.

(** ** Rows *)

Definition row_start (r : Row) : N := r.1.1.2.

Definition query_bytes (q : option (N * N * N)) : list N :=
  match q with Some (path, start, length) => uvarint path ++ uvarint start ++ uvarint length | None => [] end.

Definition row_header (r : Row) : N :=
  N.lor (u64_shl r.1.1.1 1) (match r.2 with Some _ => 1 | None => 0 end).

Definition row_bytes (previous : N) (r : Row) : list N :=
  uvarint (row_header r) ++ uvarint (row_start r - previous) ++ uvarint r.1.2 ++ query_bytes r.2.

(** A row a group can hold after a start. *)
Definition row_ok (previous : N) (r : Row) : Prop :=
  (r.1.1.1 < 2 ^ 21)%N ∧ (previous <= row_start r)%N ∧ is_u64 (row_start r + r.1.2) ∧
  match r.2 with Some (path, start, length) => is_u64 path ∧ is_u64 (start + length) | None => True end.

(** Rows packed one after another, from a previous start to the last. *)
Inductive packed_rows : N → list N → list Row → N → Prop :=
  | packed_nil p : packed_rows p [] [] p
  | packed_cons p r bytes rows q : row_ok p r → packed_rows (row_start r) bytes rows q →
      packed_rows p (row_bytes p r ++ bytes) (r :: rows) q.

Lemma packed_app p b1 r1 q b2 r2 z : packed_rows p b1 r1 q → packed_rows q b2 r2 z →
  packed_rows p (b1 ++ b2) (r1 ++ r2) z.
Proof.
  induction 1 as [|p r bytes rows q Hr Hp IH]; intros H2; [done|]. rewrite <-app_assoc. simpl.
  constructor; [done|by apply IH].
Qed.

Lemma packed_one p r : row_ok p r → packed_rows p (row_bytes p r) [r] (row_start r).
Proof. intros Hr. rewrite <-(app_nil_r (row_bytes p r)). constructor; [done|constructor]. Qed.

Lemma header_flags flags has : (flags < 2 ^ 21)%N → (has = 0 ∨ has = 1)%N →
  is_u64 (N.lor (u64_shl flags 1) has) ∧ N.land (N.lor (u64_shl flags 1) has) 1 = has ∧
  N.shiftr (N.lor (u64_shl flags 1) has) 1 = flags.
Proof.
  intros Hf Hh. assert (Hs : N.lor (u64_shl flags 1) has = (2 * flags + has)%N).
  { unfold u64_shl. rewrite N.mod_small.
    2:{ rewrite N.shiftl_mul_pow2. change (2 ^ 21)%N with 2097152%N in Hf. unfold u64_limit.
        change (2 ^ 1)%N with 2%N. lia. }
    rewrite N.shiftl_mul_pow2. change (2 ^ 1)%N with 2%N. 
    rewrite N.mul_comm. destruct Hh as [->| ->], flags; reflexivity. }
  rewrite Hs. split_and!.
  - unfold is_u64, u64_limit. change (2 ^ 21)%N with 2097152%N in Hf. lia.
  - destruct Hh as [->| ->], flags; reflexivity.
  - destruct Hh as [->| ->], flags; reflexivity.
Qed.

(** The pure visit of a list of rows. *)
Fixpoint visit_rows {St} (visit : St → Row → result CompactError St) (rows : list Row) (s : St)
    : result CompactError St :=
  match rows with
  | [] => Ok s
  | row :: rows => s ← visit s row; visit_rows visit rows s
  end.

Definition query_count (r : Row) : nat := match r.2 with Some _ => 1 | None => 0 end.

Lemma row_bytes_length p r : 1 ≤ length (row_bytes p r).
Proof.
  unfold row_bytes. rewrite length_app. pose proof (uvarint_nonempty (row_header r)).
  destruct (uvarint (row_header r)); simpl in *; [done|lia].
Qed.

Lemma fits_app_r a b : fits (a ++ b) → fits b.
Proof. unfold fits, is_u64. rewrite length_app. lia. Qed.

Lemma is_u64_le a b : is_u64 b → (a <= b)%N → is_u64 a.
Proof. unfold is_u64. lia. Qed.

Lemma checked_add_u64 e a b : is_u64 (a + b) → add_demand e a b = Ok (a + b)%N.
Proof.
  intros H. unfold add_demand, checked_add.
  by replace (_ <? _)%N with true by (symmetry; by apply N.ltb_lt).
Qed.

Lemma row_header_flags p r : row_ok p r →
  is_u64 (row_header r) ∧ N.shiftr (row_header r) 1 = r.1.1.1 ∧
  (N.land (row_header r) 1 =? 0)%N = match r.2 with Some _ => false | None => true end.
Proof.
  intros (Hf & _). destruct (header_flags _ (match r.2 with Some _ => 1 | None => 0 end)%N Hf)
    as (H1 & H2 & H3); [destruct r.2; auto|].
  unfold row_header. split_and!; [done..|]. rewrite H2. by destruct r.2.
Qed.

Lemma take_head_row p r rest : row_ok p r → fits (row_bytes p r ++ rest) →
  take_head (row_bytes p r ++ rest) =
    Ok (row_header r, (row_start r - p)%N, r.1.2, query_bytes r.2 ++ rest).
Proof.
  intros Hr Hf. destruct (row_header_flags _ _ Hr) as (Hh & _). destruct Hr as (_ & Hp & Hu & _).
  assert (is_u64 (row_start r - p)) as H1 by (eapply is_u64_le; [exact Hu|lia]).
  assert (is_u64 r.1.2) as H2 by (eapply is_u64_le; [exact Hu|lia]).
  unfold row_bytes in *. rewrite <-!app_assoc in *. unfold take_head.
  rewrite (take_uvarint_push _ _ Hh Hf). apply fits_app_r in Hf. cbn [mbind result_bind].
  rewrite (take_uvarint_push _ _ H1 Hf). apply fits_app_r in Hf.
  cbn [mbind result_bind]. by rewrite (take_uvarint_push _ _ H2 Hf).
Qed.

Lemma take_query_row p r rest : row_ok p r → fits (query_bytes r.2 ++ rest) →
  take_query (row_header r) (query_bytes r.2 ++ rest) = Ok (r.2, rest).
Proof.
  intros Hr Hf. destruct (row_header_flags _ _ Hr) as (_ & _ & Hh). destruct Hr as (_ & _ & _ & Hq).
  unfold take_query. rewrite Hh. destruct r.2 as [[[path start] len]|]; [|done].
  destruct Hq as [H1 H2].
  assert (is_u64 start) as H3 by (eapply is_u64_le; [exact H2|lia]).
  assert (is_u64 len) as H4 by (eapply is_u64_le; [exact H2|lia]). cbn [negb query_bytes] in *. rewrite <-!app_assoc in *.
  rewrite (take_uvarint_push _ _ H1 Hf). apply fits_app_r in Hf. cbn [mbind result_bind].
  rewrite (take_uvarint_push _ _ H3 Hf). apply fits_app_r in Hf.
  cbn [mbind result_bind]. by rewrite (take_uvarint_push _ _ H4 Hf).
Qed.

(** A packed group is visited row by row. *)
Lemma visit_loop_packed {St} (visit : St → Row → result CompactError St) p packed rows q :
  packed_rows p packed rows q → fits packed → ∀ fuel s, length packed ≤ fuel →
  visit_loop visit fuel p packed s = visit_rows visit rows s.
Proof.
  induction 1 as [|p r packed rows q Hr Hp IH]; intros Hf fuel s Hfuel; [by destruct fuel|].
  pose proof (row_bytes_length p r) as Hl. rewrite length_app in Hfuel.
  destruct fuel as [|fuel]; [lia|]. cbn [visit_loop].
  destruct (row_bytes p r ++ packed) as [|b bs] eqn:E.
  { apply (f_equal length) in E. rewrite length_app in E. simpl in E. lia. }
  rewrite <-E in *. rewrite (take_head_row _ _ _ Hr Hf). cbn [mbind result_bind].
  assert (Hf' : fits (query_bytes r.2 ++ packed)).
  { unfold row_bytes in Hf. rewrite <-!app_assoc in Hf. by do 3 apply fits_app_r in Hf. }
  destruct (row_header_flags _ _ Hr) as (_ & Hs & _). pose proof Hr as (_ & Hle & Hu & Hq).
  rewrite checked_add_u64 by (eapply is_u64_le; [exact Hu|lia]). cbn [mbind result_bind].
  replace (p + (row_start r - p))%N with (row_start r) by lia.
  rewrite checked_add_u64 by done. cbn [mbind result_bind].
  rewrite (take_query_row _ _ _ Hr Hf'). cbn [mbind result_bind].
  replace (check_query r.2) with (Ok tt : result CompactError ()).
  2:{ destruct r.2 as [[[path start] len]|]; [|done]. destruct Hq as [_ Hq].
      cbn [check_query]. by rewrite checked_add_u64. }
  cbn [mbind result_bind visit_rows]. rewrite Hs.
  replace (r.1.1.1, row_start r, r.1.2, r.2) with r by (by destruct r as [[[] ] ]).
  destruct (visit s r) as [s'|]; [|done]. apply IH; [by apply fits_app_r in Hf|lia].
Qed.

Lemma group_shape_packed p packed rows q :
  packed_rows p packed rows q → fits packed → ∀ fuel shape, length packed ≤ fuel →
  group_shape fuel packed shape =
    Ok (shape.1 + length rows, shape.2 + sum_list (query_count <$> rows)).
Proof.
  induction 1 as [|p r packed rows q Hr Hp IH]; intros Hf fuel shape Hfuel.
  { destruct fuel, shape; simpl; by rewrite !Nat.add_0_r. }
  pose proof (row_bytes_length p r) as Hl. rewrite length_app in Hfuel.
  destruct fuel as [|fuel]; [lia|]. cbn [group_shape].
  destruct (row_bytes p r ++ packed) as [|b bs] eqn:E.
  { apply (f_equal length) in E. rewrite length_app in E. simpl in E. lia. }
  rewrite <-E in *. rewrite (take_head_row _ _ _ Hr Hf). cbn [mbind result_bind].
  assert (Hf' : fits (query_bytes r.2 ++ packed)).
  { unfold row_bytes in Hf. rewrite <-!app_assoc in Hf. by do 3 apply fits_app_r in Hf. }
  rewrite (take_query_row _ _ _ Hr Hf'). cbn [mbind result_bind].
  rewrite (IH (fits_app_r _ _ Hf)) by lia. cbn [fst snd length fmap list_fmap sum_list].
  unfold query_count at 2. do 2 f_equal; [lia|]. destruct r.2; simpl; lia.
Qed.

(** ** Flags *)

Lemma has_demand_flag l bit k : bit = (2 ^ k)%N →
  negb (N.land (flags_of l) bit =? 0)%N = existsb (λ '(present, bit), N.testbit bit k && present) l.
Proof. intros ->. apply has_flag_of. Qed.

Lemma demand_flags_bound d : (demand_flags d < 2 ^ 21)%N.
Proof.
  assert (H : only_flags (demand_flags d) (N.ones 21) = true).
  { apply only_flags_of. repeat (apply Forall_cons_2; [apply implb_true_r|]). by constructor. }
  apply N.eqb_eq, N.ldiff_le in H. rewrite N.ones_equiv in H.
  change (2 ^ 21)%N with 2097152%N in *. lia.
Qed.

(** The flags of a demand give back every field but the query. *)
Lemma plain_demand_flags d :
  match ed_query_location d with
  | Some q => with_query (plain_demand (ed_location d) (demand_flags d)) q
  | None => plain_demand (ed_location d) (demand_flags d)
  end = d.
Proof.
  assert (H : plain_demand (ed_location d) (demand_flags d) =
    {| ed_location := ed_location d; ed_query_location := None; ed_symbol := ed_symbol d;
       ed_references := ed_references d; ed_type_descriptor := ed_type_descriptor d;
       ed_resolved_call := ed_resolved_call d; ed_async := ed_async d;
       ed_structural_accessor := ed_structural_accessor d; ed_callability := ed_callability d;
       ed_reference_space := ed_reference_space d; ed_runtime_identity := ed_runtime_identity d;
       ed_runtime_value_domain := ed_runtime_value_domain d;
       ed_call_result_domain := ed_call_result_domain d;
       ed_constant_value := ed_constant_value d; ed_array_shape := ed_array_shape d;
       ed_tuple_shape := ed_tuple_shape d; ed_library_types := ed_library_types d;
       ed_primitive_value_domain := ed_primitive_value_domain d;
       ed_primitive_literal_candidates := ed_primitive_literal_candidates d;
       ed_parameter_object_shape := ed_parameter_object_shape d;
       ed_constructability := ed_constructability d; ed_declared_keys := ed_declared_keys d;
       ed_writable_optional_property := ed_writable_optional_property d |}).
  { unfold plain_demand, demand_flags. f_equal;
      (match goal with |- negb (N.land _ ?b =? 0)%N = _ =>
         let k := eval vm_compute in (N.log2 b) in rewrite (has_demand_flag _ b k eq_refl) end);
      simpl; by rewrite ?orb_false_r. }
  rewrite H. destruct d as [loc [q|]]; reflexivity.
Qed.

(** ** Packing *)

(** A location that does not end before it starts. *)
Definition span_ok (l : Location) : Prop := (start_byte l <= end_byte l)%N ∧ is_u64 (end_byte l).

Definition demand_ok (d : EntityDemand) : Prop :=
  span_ok (ed_location d) ∧ match ed_query_location d with Some q => span_ok q | None => True end.

(** The group's rows, in [strings], are the demands; the last starts at [z]. *)
Definition group_holds (strings : list str) (g : CompactDemandGroup) (ds : list EntityDemand)
    (z : N) : Prop :=
  is_u64 g.1 ∧ ∃ path rows, strings !! N.to_nat g.1 = Some path ∧ packed_rows 0 g.2 rows z ∧
    Forall2 (λ r d, row_to_demand path strings r = Ok d) rows ds.

Definition groups_hold (strings : list str) (gs : list CompactDemandGroup)
    (ds : list EntityDemand) : Prop :=
  ∃ dss, ds = concat dss ∧ Forall2 (λ g ds, ∃ z, group_holds strings g ds z) gs dss.

Lemma groups_hold_snoc strings gs ds g dg z :
  groups_hold strings gs ds → group_holds strings g dg z → groups_hold strings (gs ++ [g]) (ds ++ dg).
Proof.
  intros (dss & -> & Hgs) Hg. exists (dss ++ [dg]). split.
  - by rewrite concat_app, concat_cons, app_nil_r.
  - apply Forall2_app; [done|]. constructor; [by exists z|constructor].
Qed.

Lemma lookup_string_prefix strings strings' i s :
  strings `prefix_of` strings' → lookup_string strings i = Ok s → lookup_string strings' i = Ok s.
Proof.
  intros Hp. unfold lookup_string. destruct (usize_try_from i) as [j|]; [|done]. simpl.
  destruct (strings !! N.to_nat j) as [t|] eqn:E; [|done]. intros [= ->].
  by rewrite (prefix_lookup_Some _ _ _ _ E Hp).
Qed.

Lemma lookup_string_intro strings i s :
  is_u64 i → strings !! N.to_nat i = Some s → lookup_string strings i = Ok s.
Proof.
  intros Hi Hs. unfold lookup_string, usize_try_from.
  replace (i <? u64_limit)%N with true by (symmetry; by apply N.ltb_lt). simpl. by rewrite Hs.
Qed.

Lemma group_holds_prefix strings strings' g ds z :
  strings `prefix_of` strings' → group_holds strings g ds z → group_holds strings' g ds z.
Proof.
  intros Hp (Hu & path & rows & Hl & Hr & Hd). split; [done|].
  exists path, rows. split; [by eapply prefix_lookup_Some|]. split; [done|].
  eapply Forall2_impl; [exact Hd|]. intros [[[flags start] len] [[[qp qs] ql]|]] d; simpl; [|done].
  destruct (lookup_string strings qp) as [p|] eqn:E; [|done].
  by rewrite (lookup_string_prefix _ _ _ _ Hp E).
Qed.

Lemma groups_hold_prefix strings strings' gs ds :
  strings `prefix_of` strings' → groups_hold strings gs ds → groups_hold strings' gs ds.
Proof.
  intros Hp (dss & -> & Hgs). exists dss. split; [done|]. eapply Forall2_impl; [exact Hgs|].
  intros g d [z Hz]. exists z. by eapply group_holds_prefix.
Qed.

(** The state after packing some demands, the last group left open. *)
Definition state_holds (s : CompactState) (ds : list EntityDemand) : Prop :=
  dict_ok (cs_strings s) ∧
  ((cs_groups s = [] ∧ ds = []) ∨
   ∃ gs ds0 g dg, cs_groups s = gs ++ [g] ∧ ds = ds0 ++ dg ∧
     groups_hold (values (cs_strings s)) gs ds0 ∧
     group_holds (values (cs_strings s)) g dg (cs_previous_start s)).

Lemma state_holds_groups s ds :
  state_holds s ds → groups_hold (values (cs_strings s)) (cs_groups s) ds.
Proof.
  intros [_ [[-> ->]|(gs & ds0 & g & dg & -> & -> & H1 & H2)]].
  - exists []. split; [done|constructor].
  - by eapply groups_hold_snoc.
Qed.

(** The open group is of the demand's path and ends before its start. *)
Lemma open_group_holds path start s ds text :
  state_holds s ds → is_u64 path → values (cs_strings s) !! N.to_nat path = Some text →
  let s' := open_group path start s in
  cs_strings s' = cs_strings s ∧ (cs_previous_start s' <= start)%N ∧
  ∃ gs ds0 packed dg, cs_groups s' = gs ++ [(path, packed)] ∧ ds = ds0 ++ dg ∧
    groups_hold (values (cs_strings s)) gs ds0 ∧
    group_holds (values (cs_strings s)) (path, packed) dg (cs_previous_start s').
Proof.
  intros Hs Hu Ht s'.
  assert (Hfresh : group_holds (values (cs_strings s)) (path, []) [] 0).
  { split; [done|]. exists text, []. split_and!; [done|constructor|constructor]. }
  subst s'. unfold open_group. destruct (match last _ with Some _ => _ | None => _ end) eqn:E.
  - cbn [cs_strings cs_previous_start cs_groups]. split; [done|split; [lia|]].
    exists (cs_groups s), ds, [], []. rewrite app_nil_r.
    split_and!; [done..|by apply state_holds_groups|done].
  - split; [done|]. destruct Hs as [_ [[Hg _]|(gs & ds0 & [p packed] & dg & Hg & -> & H1 & H2)]].
    { by rewrite Hg in E. }
    rewrite Hg, last_snoc in E. apply orb_false_iff in E as [E1 E2].
    apply negb_false_iff, N.eqb_eq in E1 as ->. apply N.ltb_ge in E2. split; [done|].
    by exists gs, ds0, packed, dg.
Qed.

Lemma push_group_snoc gs path packed row :
  push_group (gs ++ [(path, packed)]) row = gs ++ [(path, packed ++ row)].
Proof.
  unfold push_group. rewrite length_app. simpl. replace (length gs + 1 - 1) with (length gs + 0) by lia.
  by rewrite alter_app_r.
Qed.

Lemma group_holds_push strings path packed dg p r d :
  group_holds strings (path, packed) dg p → row_ok p r →
  (∀ text, strings !! N.to_nat path = Some text → row_to_demand text strings r = Ok d) →
  group_holds strings (path, packed ++ row_bytes p r) (dg ++ [d]) (row_start r).
Proof.
  intros (Hu & text & rows & Hl & Hr & Hd) Hrow Htext. split; [done|].
  exists text, (rows ++ [r]). split_and!; [done|..].
  - eapply packed_app; [exact Hr|by apply packed_one].
  - apply Forall2_app; [done|]. constructor; [by apply Htext|constructor].
Qed.

(** The row of a demand whose query path has the given index. *)
Definition demand_row (d : EntityDemand) (query : N) : Row :=
  (demand_flags d, start_byte (ed_location d), (end_byte (ed_location d) - start_byte (ed_location d))%N,
   match ed_query_location d with
   | Some q => Some (query, start_byte q, (end_byte q - start_byte q)%N)
   | None => None
   end).

Lemma row_bytes_demand p d query :
  row_bytes p (demand_row d query) =
  uvarint (N.lor (u64_shl (demand_flags d) 1)
    match ed_query_location d with Some _ => 1 | None => 0 end)%N ++
  uvarint (saturating_sub (start_byte (ed_location d)) p) ++
  uvarint (saturating_sub (end_byte (ed_location d)) (start_byte (ed_location d))) ++
  query_bytes (demand_row d query).2.
Proof.
  unfold row_bytes, row_header, demand_row, row_start. cbn [fst snd].
  by destruct (ed_query_location d).
Qed.

Lemma demand_row_ok d query p :
  demand_ok d → (p <= start_byte (ed_location d))%N → is_u64 query → row_ok p (demand_row d query).
Proof.
  intros [[H1 H2] Hq] Hp Hu. unfold row_ok, demand_row, row_start. cbn [fst snd]. split_and!.
  - apply demand_flags_bound.
  - done.
  - replace (_ + _)%N with (end_byte (ed_location d)) by lia. done.
  - destruct (ed_query_location d) as [q|]; [|done]. destruct Hq as [Hq1 Hq2].
    split; [done|]. by replace (_ + _)%N with (end_byte q) by lia.
Qed.

Lemma demand_row_reads d query strings :
  demand_ok d → is_u64 query →
  match ed_query_location d with
  | Some q => strings !! N.to_nat query = Some (loc_path q)
  | None => True
  end →
  row_to_demand (loc_path (ed_location d)) strings (demand_row d query) = Ok d.
Proof.
  intros [[H1 _] Hq] Hu Hl. unfold row_to_demand, demand_row.
  replace (start_byte (ed_location d) + _)%N with (end_byte (ed_location d)) by lia.
  replace {| loc_path := loc_path (ed_location d); end_byte := _; start_byte := _ |}
    with (ed_location d) by (by destruct (ed_location d)).
  pose proof (plain_demand_flags d) as Hd. destruct (ed_query_location d) as [q|]; [|by rewrite Hd].
  destruct Hq as [Hq _]. rewrite (lookup_string_intro _ _ _ Hu Hl). cbn [mbind result_bind].
  replace (start_byte q + _)%N with (end_byte q) by lia.
  replace {| loc_path := loc_path q; end_byte := _; start_byte := _ |} with q by (by destruct q).
  by rewrite Hd.
Qed.

Lemma open_group_strings p q s : cs_strings (open_group p q s) = cs_strings s.
Proof. unfold open_group. by destruct (match last _ with Some _ => _ | None => _ end). Qed.

Lemma lookup_u64 {A} (l : list A) i x : l !! N.to_nat i = Some x → is_u64 (N.of_nat (length l)) → is_u64 i.
Proof. intros Hl%lookup_lt_Some. unfold is_u64. lia. Qed.

Lemma compact_demand_strings s d :
  length (values (cs_strings s)) ≤ length (values (cs_strings (compact_demand s d))).
Proof.
  assert (Hmono : ∀ t v, length (values t) ≤ length (values (string_table_intern t v).2)).
  { intros t v. unfold string_table_intern. destruct (indexes t !! v); [done|].
    cbn [snd values]. rewrite length_app. lia. }
  unfold compact_demand. pose proof (Hmono (cs_strings s) (loc_path (ed_location d))) as H1.
  destruct (string_table_intern (cs_strings s) _) as [i t]. cbn [snd] in H1. rewrite !open_group_strings.
  cbn [cs_strings]. destruct (ed_query_location d) as [q|]; [|done].
  pose proof (Hmono t (loc_path q)) as H2. destruct (string_table_intern t (loc_path q)) as [j u].
  cbn [snd] in H2. cbn [cs_strings]. lia.
Qed.

(** The query's bytes are those of the demand's row. *)
Lemma query_holds t d query u :
  dict_ok t → is_u64 (N.of_nat (length (values u))) →
  match ed_query_location d with
  | Some q =>
      let '(path, strings) := string_table_intern t (loc_path q) in
      (uvarint path ++ uvarint (start_byte q) ++
       uvarint (saturating_sub (end_byte q) (start_byte q)), strings)
  | None => ([], t)
  end = (query, u) →
  dict_ok u ∧ values t `prefix_of` values u ∧
  ∃ j, is_u64 j ∧ query = query_bytes (demand_row d j).2 ∧
    match ed_query_location d with
    | Some q => values u !! N.to_nat j = Some (loc_path q)
    | None => True
    end.
Proof.
  intros Ht Hu. unfold demand_row. cbn [snd]. destruct (ed_query_location d) as [q|].
  - destruct (string_table_intern t (loc_path q)) as [j u'] eqn:Ej. intros [= <- <-].
    destruct (dict_intern_spec _ _ _ _ Ht Ej) as (H1 & H2 & H3). split_and!; [done..|].
    exists j. split_and!; [by eapply lookup_u64|done|done].
  - intros [= <- <-]. split_and!; [done..|]. by exists 0%N.
Qed.

Lemma compact_demand_holds s ds d :
  state_holds s ds → demand_ok d →
  is_u64 (N.of_nat (length (values (cs_strings (compact_demand s d))))) →
  state_holds (compact_demand s d) (ds ++ [d]).
Proof.
  intros Hs Hd. unfold compact_demand.
  destruct (string_table_intern (cs_strings s) _) as [i t] eqn:Ei.
  destruct (dict_intern_spec _ _ _ _ (proj1 Hs) Ei) as (Ht & Hp & Hi).
  set (s1 := {| cs_strings := t; cs_groups := _; cs_previous_start := _ |}).
  assert (Hs1 : state_holds s1 ds).
  { split; [done|]. destruct Hs as [_ [H|(gs & ds0 & g & dg & Hg & -> & H1 & H2)]]; [by left|right].
    exists gs, ds0, g, dg. split_and!; [done..| |]; cbn [cs_strings cs_previous_start s1].
    - by eapply groups_hold_prefix.
    - by eapply group_holds_prefix. }
  rewrite open_group_strings. destruct (match ed_query_location d with Some _ => _ | None => ([], _) end)
    as [query u] eqn:Eq. intros Hu. cbn [cs_strings] in Hu.
  destruct (query_holds _ _ _ _ Ht Hu Eq) as (Hud & Htu & j & Hj & -> & Hjl).
  pose proof (prefix_length _ _ Htu) as Hlen.
  assert (Hiu : is_u64 i) by (eapply lookup_u64; [exact Hi|]; unfold is_u64 in *; lia).
  destruct (open_group_holds i (start_byte (ed_location d)) s1 ds _ Hs1 Hiu Hi)
    as (_ & Hle & gs & ds0 & packed & dg & Hgs & -> & Hh & Hg). cbn [cs_strings s1] in Hh, Hg.
  split; [done|]. right. rewrite Hgs, push_group_snoc. cbn [cs_groups cs_strings cs_previous_start].
  eexists gs, ds0, _, (dg ++ [d]). split_and!; [done|by rewrite app_assoc| |].
  - by eapply groups_hold_prefix.
  - rewrite <-!app_assoc, <-row_bytes_demand.
    apply (group_holds_prefix _ (values u)) in Hg; [|done].
    apply (group_holds_push _ _ _ _ _ (demand_row d j) d) in Hg; [exact Hg|by apply demand_row_ok|].
    intros text Htext. rewrite (prefix_lookup_Some _ _ _ _ Hi Htu) in Htext.
    injection Htext as <-. by apply demand_row_reads.
Qed.

Lemma compact_demands_hold ds s :
  s = foldl compact_demand compact_state_new ds → Forall demand_ok ds →
  is_u64 (N.of_nat (length (values (cs_strings s)))) → state_holds s ds.
Proof.
  revert s. induction ds as [|d ds IH] using rev_ind; intros s -> Hds Hu.
  - split; [apply dict_new_ok|by left].
  - rewrite foldl_app in *. simpl in *. apply Forall_app in Hds as [Hds [Hd _]%Forall_cons].
    apply compact_demand_holds; [|done|done]. apply IH; [done|done|].
    eapply is_u64_le; [exact Hu|]. pose proof (compact_demand_strings
      (foldl compact_demand compact_state_new ds) d). lia.
Qed.

(** ** Expanding *)

Lemma visit_rows_push path strings rows ds acc :
  Forall2 (λ r d, row_to_demand path strings r = Ok d) rows ds →
  visit_rows (push_demand path strings) rows acc = Ok (acc ++ ds).
Proof.
  intros H. revert acc. induction H as [|r d rows ds Hr _ IH]; intros acc; cbn [visit_rows].
  - by rewrite app_nil_r.
  - replace (push_demand path strings acc r) with (Ok (acc ++ [d]) : result CompactError _).
    2:{ unfold push_demand. by rewrite Hr. }
    cbn [mbind result_bind]. by rewrite IH, <-app_assoc.
Qed.

Lemma visit_group_holds strings g ds z path acc :
  group_holds strings g ds z → fits g.2 → lookup_string strings g.1 = Ok path →
  visit_group (push_demand path strings) g strings acc = Ok (acc ++ ds).
Proof.
  intros (Hu & text & rows & Hl & Hr & Hd) Hf Hp. unfold visit_group. rewrite Hp.
  rewrite (lookup_string_intro _ _ _ Hu Hl) in Hp. injection Hp as <-. cbn [mbind result_bind].
  rewrite (visit_loop_packed _ _ _ _ _ Hr Hf) by done. by apply visit_rows_push.
Qed.

Lemma group_holds_path strings g ds z :
  group_holds strings g ds z → ∃ path, lookup_string strings g.1 = Ok path.
Proof. intros (Hu & text & rows & Hl & _). exists text. by apply lookup_string_intro. Qed.

Definition groups_fit (gs : list CompactDemandGroup) : Prop := Forall (λ g, fits g.2) gs.

Lemma expand_groups_hold strings gs ds acc :
  groups_hold strings gs ds → groups_fit gs → expand_groups gs strings acc = Ok (acc ++ ds).
Proof.
  intros (dss & -> & H). revert acc. induction H as [|g d gs dss [z Hg] _ IH]; intros acc Hf.
  - simpl. by rewrite app_nil_r.
  - apply Forall_cons in Hf as [Hf1 Hf2]. destruct (group_holds_path _ _ _ _ Hg) as [path Hp].
    cbn [expand_groups]. rewrite Hp. cbn [mbind result_bind].
    rewrite (visit_group_holds _ _ _ _ _ _ Hg Hf1 Hp). cbn [mbind result_bind].
    rewrite IH by done. by rewrite concat_cons, app_assoc.
Qed.

Definition demand_queries (ds : list EntityDemand) : nat :=
  sum_list ((λ d, match ed_query_location d with Some _ => 1 | None => 0 end) <$> ds).

Lemma row_query_count path strings r d :
  row_to_demand path strings r = Ok d →
  query_count r = match ed_query_location d with Some _ => 1 | None => 0 end.
Proof.
  destruct r as [[[flags start] len] [[[qp qs] ql]|]]; unfold row_to_demand, query_count; cbn [snd].
  - destruct (lookup_string strings qp); [|done]. by intros [= <-].
  - by intros [= <-].
Qed.

Lemma group_shape_holds strings g ds z shape :
  group_holds strings g ds z → fits g.2 →
  group_shape (length g.2) g.2 shape = Ok (shape.1 + length ds, shape.2 + demand_queries ds).
Proof.
  intros (_ & text & rows & _ & Hr & Hd) Hf. rewrite (group_shape_packed _ _ _ _ Hr Hf) by done.
  do 2 f_equal; [by rewrite (Forall2_length _ _ _ Hd)|f_equal]. clear Hr.
  unfold demand_queries. induction Hd as [|r d rows ds H _ IH]; [done|].
  cbn [fmap list_fmap sum_list]. change (list_fmap ?f) with (fmap (M:=list) f).
  rewrite (row_query_count _ _ _ _ H). by f_equal.
Qed.

Lemma demand_queries_app a b : demand_queries (a ++ b) = demand_queries a + demand_queries b.
Proof. unfold demand_queries. rewrite fmap_app. apply (sum_list_with_app id). Qed.

Lemma groups_shape_hold strings gs ds shape :
  groups_hold strings gs ds → groups_fit gs →
  groups_shape gs shape = Ok (shape.1 + length ds, shape.2 + demand_queries ds).
Proof.
  intros (dss & -> & H). revert shape. induction H as [|g d gs dss [z Hg] _ IH]; intros shape Hf.
  - destruct shape; simpl. by rewrite !Nat.add_0_r.
  - apply Forall_cons in Hf as [Hf1 Hf2]. cbn [groups_shape].
    rewrite (group_shape_holds _ _ _ _ _ Hg Hf1). cbn [mbind result_bind]. rewrite IH by done.
    rewrite concat_cons, length_app, demand_queries_app. cbn [fst snd]. do 2 f_equal; lia.
Qed.

(** ** Expanding with a flag *)

Definition has_demanded (flag : N) (d : EntityDemand) : Prop := N.land (demand_flags d) flag ≠ 0%N.

#[export] Instance has_demanded_dec flag d : Decision (has_demanded flag d).
Proof. apply _. Defined.

(** The flags a demand keeps of a row's word. *)
Lemma demand_flags_plain location flags :
  demand_flags (plain_demand location flags) = N.land flags (N.ones 21).
Proof.
  apply N.bits_inj. intros k. rewrite N.land_spec. destruct (N.lt_ge_cases k 21) as [Hk|Hk].
  - rewrite N.ones_spec_low, andb_true_r by done. rewrite <-(has_flag_pow2 flags k).
    unfold demand_flags. rewrite flags_of_testbit.
    rewrite <-(N2Nat.id k) in Hk |- *. generalize dependent (N.to_nat k). clear k. intros n Hk.
    do 21 (destruct n as [|n]; [cbn -[has_flag N.land]; by rewrite ?orb_false_r|]). lia.
  - rewrite N.ones_spec_high, andb_false_r by done.
    rewrite <-(N.mod_small _ _ (demand_flags_bound (plain_demand location flags))).
    by apply N.mod_pow2_bits_high.
Qed.

Lemma demand_flags_with_query d q : demand_flags (with_query d q) = demand_flags d.
Proof. done. Qed.

Lemma row_to_demand_flags path strings r d :
  row_to_demand path strings r = Ok d → demand_flags d = N.land r.1.1.1 (N.ones 21).
Proof.
  destruct r as [[[flags start] len] [[[qp qs] ql]|]]; unfold row_to_demand; cbn [fst].
  - destruct (lookup_string strings qp); [|done]. intros [= <-].
    rewrite demand_flags_with_query. apply demand_flags_plain.
  - intros [= <-]. apply demand_flags_plain.
Qed.

(** A row carries a flag exactly when its demand does. *)
Lemma row_has_demanded path strings r d flag :
  (flag < 2 ^ 21)%N → row_to_demand path strings r = Ok d →
  negb (N.land r.1.1.1 flag =? 0)%N = bool_decide (has_demanded flag d).
Proof.
  intros Hf Hr. assert (H : N.land (demand_flags d) flag = N.land r.1.1.1 flag).
  { rewrite (row_to_demand_flags _ _ _ _ Hr), <-N.land_assoc, (N.land_comm _ flag).
    by rewrite N.land_ones, (N.mod_small _ _ Hf). }
  rewrite <-H. case_bool_decide as Hd; destruct (N.eqb_spec (N.land (demand_flags d) flag) 0); naive_solver.
Qed.

(** Visiting with a flag appends the flagged demands of the full visit. *)
Lemma visit_loop_flag path strings flag fuel p packed acc all :
  (flag < 2 ^ 21)%N →
  visit_loop (push_demand path strings) fuel p packed acc = Ok all →
  ∃ ds, all = acc ++ ds ∧ ∀ target,
    visit_loop (λ demands row,
      if negb (N.land row.1.1.1 flag =? 0)%N then push_demand path strings demands row
      else Ok demands) fuel p packed target = Ok (target ++ filter (has_demanded flag) ds).
Proof.
  intros Hf. revert p packed acc. induction fuel as [|fuel IH]; intros p packed acc.
  { destruct packed; [|done]. intros [= <-]. exists []. rewrite app_nil_r. split; [done|].
    intros target. by rewrite filter_nil, app_nil_r. }
  destruct packed as [|b packed].
  { intros [= <-]. exists []. rewrite app_nil_r. split; [done|].
    intros target. simpl. by rewrite app_nil_r. }
  cbn [visit_loop]. generalize (b :: packed). clear b packed. intros packed.
  destruct (take_head packed) as [[[[h delta] len] rest]|]; [|done]. cbn [mbind result_bind].
  destruct (add_demand _ p delta) as [start|]; [|done]. cbn [mbind result_bind].
  destruct (add_demand _ start len) as [|]; [|done]. cbn [mbind result_bind].
  destruct (take_query h rest) as [[q rest']|]; [|done]. cbn [mbind result_bind].
  destruct (check_query q); [|done]. cbn [mbind result_bind].
  set (r := (N.shiftr h 1, start, len, q) : Row).
  change (push_demand path strings acc r)
    with (demand ← row_to_demand path strings r; Ok (acc ++ [demand])).
  destruct (row_to_demand path strings r) as [d|] eqn:Er; [|done].
  cbn [mbind result_bind]. intros (ds & -> & Hds)%IH.
  exists (d :: ds). rewrite <-app_assoc. split; [done|]. intros target.
  rewrite (row_has_demanded _ _ _ _ _ Hf Er), filter_cons.
  change (push_demand path strings target r)
    with (demand ← row_to_demand path strings r; Ok (target ++ [demand])).
  rewrite Er. case_bool_decide as Hd.
  - rewrite decide_True by done. cbn [mbind result_bind]. by rewrite Hds, <-app_assoc.
  - rewrite decide_False by done. cbn [mbind result_bind]. by rewrite Hds.
Qed.

(** Whatever a group expands to, the flagged expansion is its flagged part. *)
Lemma append_with_flag_filter group strings flag ds target :
  (flag < 2 ^ 21)%N → expand_compact_group group strings = Ok ds →
  append_compact_demands_with_flag target group strings flag =
    Ok (target ++ filter (has_demanded flag) ds).
Proof.
  intros Hf. unfold expand_compact_group, append_compact_demands_with_flag, visit_group.
  destruct (compact_demand_shape [group]); [|done]. cbn [mbind result_bind].
  destruct (lookup_string strings group.1) as [path|]; [|done]. cbn [mbind result_bind].
  intros Hv. destruct (visit_loop_flag _ _ flag _ _ _ _ _ Hf Hv) as (ds' & -> & H). apply H.
Qed.

(** ** The round trip *)

(** The vectors of a packed snapshot have a length. *)
Definition compact_fits (c : CompactDemands) : Prop :=
  groups_fit (cd_groups c) ∧ is_u64 (N.of_nat (length (cd_strings c))).

Lemma compact_demands_expand ds :
  Forall demand_ok ds → compact_fits (compact_demands ds) →
  compact_demand_shape (cd_groups (compact_demands ds)) = Ok (length ds, demand_queries ds) ∧
  expand_compact_demands (compact_demands ds) = Ok ds.
Proof.
  intros Hds [Hg Hs]. unfold compact_demands in *. cbn [cd_groups cd_strings] in *.
  pose proof (compact_demands_hold ds _ eq_refl Hds Hs) as Hh%state_holds_groups.
  assert (Hshape : compact_demand_shape
    (cs_groups (foldl compact_demand compact_state_new ds)) = Ok (length ds, demand_queries ds)).
  { unfold compact_demand_shape. by rewrite (groups_shape_hold _ _ _ _ Hh Hg). }
  split; [done|]. unfold expand_compact_demands. cbn [cd_groups cd_strings]. rewrite Hshape.
  cbn [mbind result_bind]. by rewrite (expand_groups_hold _ _ _ _ Hh Hg).
Qed.
