(* ===== verification/WireSamples.v ===== *)
(** * A small program on the wire

    One file with one entity and one symbol, and the transitions between the
    tables that hold it: the concrete inputs at which the theorems on the wire
    are applied. *)
From S2P Require Export DeltaRefinement.

Definition path_a : str := lit "src/a.ts".
Definition project_a : str := lit "p".
Definition token_a : str := lit "t1".

Definition span (path : str) (start stop : N) : Location :=
  {| loc_path := path; end_byte := stop; start_byte := start |}.

Definition hash_of (digit : N) : SourceHash :=
  {| as_str := ascii_str (sha256_prefix ++ repeat digit 64) |}.
Definition hash_a : SourceHash := hash_of 97.

Definition entity_a : EntityFact :=
  {| ef_location := span path_a 3 5; ef_symbol := lit "symbol:h:0123456789abcdef01234567";
     ef_symbol_claim := SymbolClaim_Covering; ef_type_descriptor := None; ef_resolved_call := None;
     ef_callability := Some Callability_Callable; ef_constructability := None;
     ef_runtime_binding_kind := None; ef_runtime_value_domain := None;
     ef_primitive_value_domain := pvd_default; ef_primitive_literal_candidates := None;
     ef_call_result_domain := None; ef_constant_value := None; ef_array_shape := None;
     ef_tuple_shape := None; ef_library_types := None; ef_declared_keys := None;
     ef_writable_optional_property := true; ef_reference_space := None;
     ef_runtime_identity := empty_str |}.

Definition symbol_a : SymbolFact :=
  {| sf_id := ef_symbol entity_a; sf_references := [span path_a 3 5; span path_a 9 11];
     sf_alias_target := empty_str; sf_declarations := [] |}.

Definition path_op_a : PathOpRef :=
  {| pr_path := path_a; pr_source := Replace hash_a; pr_entities := Replace [entity_a];
     pr_file := Unchanged |}.

Definition plan_a : Plan :=
  {| pl_mode := Full; pl_table_schema := 24; pl_base_generation := 0; pl_target_generation := 7;
     pl_project_id := project_a; pl_base_state_token := empty_str; pl_paths := [path_op_a];
     pl_symbols := [{| sr_id := sf_id symbol_a; sr_body := BodyReplace symbol_a |}] |}.

Definition frame_a : list N := match write_frame plan_a with Ok frame => frame | Err _ => [] end.

(** ** They are within the limits *)

Lemma few_rows n : (N.of_nat n <= Cursor.packed_collection_limit)%N → n ≤ dictionary_limit.
Proof. unfold dictionary_limit. lia. Qed.

(** The length of a concrete list is within the limit. *)
Ltac few := apply few_rows; vm_compute; discriminate.

Lemma entity_a_fits schema : entity_fits schema entity_a.
Proof.
  unfold entity_fits, option_fits, location_fits. split_and!; try done. by left.
Qed.

Lemma symbol_a_fits : symbol_fits symbol_a.
Proof.
  split.
  - split; [few|]. repeat constructor.
  - split; [few|]. constructor.
Qed.

Lemma path_op_a_valid mode schema : path_valid mode schema path_op_a.
Proof.
  split_and!; try done.
  - intros h [= <-]. vm_compute. reflexivity.
  - intros es [= <-]. split_and!; [done| |done]. split; [few|]. constructor; [|constructor].
    apply entity_a_fits.
Qed.

Lemma plan_a_valid : plan_valid plan_a.
Proof.
  split_and!; try done.
  - split; [few|]. constructor; [apply path_op_a_valid|constructor].
  - split; [few|]. constructor; [|constructor]. split; [apply symbol_a_fits|done].
Qed.

(** The strings of the plan's rows. *)
Definition strings_of (plan : Plan) : list str :=
  match plan_rows plan with Ok (_, w) => values (dict w) | Err _ => [] end.

Lemma strings_rows plan : length (strings_of plan) ≤ dictionary_limit →
  Forall (λ s, unpacked s = s) (strings_of plan) →
  Forall (λ s, (N.of_nat (length (str_bytes s)) < u64_limit)%N) (strings_of plan) → rows_fit plan.
Proof.
  intros Hl Hc Hf w Hw. unfold strings_of in *. rewrite Hw in *. by split_and!.
Qed.

(** A decidable fact about a concrete value. *)
Ltac decided := refine (bool_decide_unpack _ _); vm_compute; exact I.

Lemma plan_a_rows : rows_fit plan_a.
Proof. apply strings_rows; [few|decided|decided]. Qed.

Lemma frame_a_written : write_frame plan_a = Ok frame_a.
Proof. vm_compute. reflexivity. Qed.

Lemma frame_a_fits : fits frame_a.
Proof. vm_compute. reflexivity. Qed.

(** ** From an empty table to the sample *)

Definition base_a : ProducerTable := producer_new 6 project_a.

Definition target_a : ProducerTable :=
  {| pt_schema := schema_v1; pt_generation := 7; pt_project_id := project_a;
     pt_sources := [{| sd_path := path_a; sd_sha256 := hash_a |}]; pt_entities := Flat [entity_a];
     pt_files := []; pt_symbols := [symbol_a]; pt_state_id := 2; pt_transport := None;
     pt_path_symbols := None |}.

Definition input_a : TransitionInput :=
  {| ti_project_id := project_a; ti_base_state_token := token_a; ti_base := Some base_a;
     ti_target := target_a; ti_sparse := false |}.

Definition encoded_a : EncodedTransition :=
  match encode 24 input_a with
  | Ok encoded => encoded
  | Err _ => {| et_bytes := []; et_mode := Delta; et_path_operations := 0; et_symbol_operations := 0 |}
  end.

Definition retained_a : FactTable :=
  {| ft_schema := 24; ft_generation := 6; ft_project_id := project_a; ft_paths := index_default;
     ft_symbols := index_default; ft_source_count := 0; ft_entity_count := 0; ft_file_count := 0;
     ft_strict_null_checks := None |}.

Lemma one_sorted {A} (R : A → A → Prop) x : StronglySorted R [x].
Proof. repeat constructor. Qed.

Lemma base_a_ok : producer_ok base_a.
Proof. split_and!; [constructor|split; [constructor|done]|constructor|constructor]. Qed.

Lemma target_a_ok : producer_ok target_a.
Proof.
  split_and!; [apply one_sorted|split; [apply one_sorted|done]|constructor|apply one_sorted].
Qed.

Lemma base_a_fits : producer_fits 24 base_a.
Proof.
  split_and!; [split_and!; [apply base_a_ok|constructor|constructor]|done| |constructor].
  intros p. split_and!; [done|split; [few|constructor]|done|done].
Qed.

Lemma target_a_fits : producer_fits 24 target_a.
Proof.
  split_and!; [split_and!|done| |].
  - apply target_a_ok.
  - constructor; [|constructor]. split; [|done]. repeat constructor.
  - by repeat constructor.
  - intros p. unfold row_fits, rows_at. cbn [pw_source pw_entities pw_path pw_file].
    change (Entities.path (pt_entities target_a)) with (producer_entities target_a).
    rewrite (producer_source_spec _ target_a_ok), (producer_entities_spec _ target_a_ok).
    split_and!.
    + intros d. cbn. case_decide; [|done]. intros [= <-]. vm_compute. reflexivity.
    + unfold in_path. cbn. case_decide; [|split; [few|constructor]].
      split; [few|]. constructor; [apply entity_a_fits|constructor].
    + unfold in_path. cbn. case_decide as Hp; [|done]. rewrite <-Hp. done.
    + done.
  - constructor; [apply symbol_a_fits|constructor].
Qed.

Lemma input_a_fits : input_fits 24 input_a.
Proof. split; [apply target_a_fits|]. intros b [= <-]. apply base_a_fits. Qed.

Lemma input_a_sound : input_sound input_a.
Proof. intros b m _ [=]. Qed.

Definition operations_a : list PathOpRef * list SymbolOpRef :=
  match plan_operations Delta input_a with Ok ops => ops | Err _ => ([], []) end.

Lemma operations_a_planned : plan_operations Delta input_a = Ok operations_a.
Proof. vm_compute. reflexivity. Qed.

Lemma input_a_limits : frame_in_limits 24 input_a.
Proof.
  intros mode bg ops Hval Hops. assert (Hm : validate input_a = Ok (Delta, 6%N)) by done.
  rewrite Hm in Hval. injection Hval as <- <-. pose proof operations_a_planned as Hp.
  rewrite Hp in Hops. injection Hops as <-. split_and!; [few|few|].
  apply strings_rows; [few|decided|decided].
Qed.

Lemma encoded_a_written : encode 24 input_a = Ok encoded_a.
Proof. vm_compute. reflexivity. Qed.

Lemma encoded_a_fits : fits (et_bytes encoded_a).
Proof. vm_compute. reflexivity. Qed.

Lemma retained_a_ok : table_ok retained_a.
Proof. split_and!; try done; split_and!; try done; constructor. Qed.

Lemma retained_a_ready : ready 24 input_a (Some retained_a).
Proof.
  exists retained_a. split; [done|].
  split; [apply retained_a_ok|]. split; [|by split_and!]. split; [constructor|].
  done.
Qed.
