(* ===== verification/WireTheorems.v ===== *)
(** * The wire: theorems

    What the packed forms promise: integers and frames round trip, a decoded
    transition is well formed, a streamed transition is the one in memory, a
    table encodes alike in both forms of its entity rows, and a compact demand
    snapshot expands to the demands it packed. *)
From S2P Require Export CompactSpec WirePlanSpec WireFrame RetainedDelta WireSamples.

(** ** Frames *)

(** C6: a written frame reads back. Whatever plan the writer accepts within the
    reader's limits (paths, runs and symbol operations in order, at most a
    million rows and strings, symbol digests in lower case, no runtime value
    domain at table schema 3), [decode_table_transition] reads the frame of
    [write_transition] to the end and returns the plan as its table schema
    carries it. *)
Theorem frame_round_trip plan frame :
  write_frame plan = Ok frame → plan_valid plan → rows_fit plan → fits frame →
  decode_table_transition frame = Ok (project_plan plan).
Proof. apply frame_decodes. Qed.

Lemma frame_round_trip_witness :
  write_frame plan_a = Ok frame_a ∧ decode_table_transition frame_a = Ok (project_plan plan_a).
Proof.
  split; [exact frame_a_written|].
  exact (frame_round_trip plan_a frame_a frame_a_written plan_a_valid plan_a_rows frame_a_fits).
Defined.

Lemma frame_a_decoded : decode_table_transition frame_a = Ok (project_plan plan_a).
Proof. apply frame_decodes; [exact frame_a_written|exact plan_a_valid|exact plan_a_rows|exact frame_a_fits]. Qed.

(** C16: a decoded transition is well formed, whatever the bytes. Its schema is
    supported, its project and target are named, its base matches its mode; its
    paths ascend strictly, each with an operation, runs and file facts in their
    own path and in order; its symbol operations ascend strictly by key, a
    replacement's references are in order and an alias has none, a reference
    replacement is in its own path and in order; a full transition removes
    nothing. *)
Theorem decoded_transition_well_formed bytes t :
  decode_table_transition bytes = Ok t → transition_promise t ∧ transition_ok t.
Proof. intros Hd. split; [by eapply decoded_promise|by eapply decoded_ok]. Qed.

Lemma decoded_transition_well_formed_witness :
  decode_table_transition frame_a = Ok (project_plan plan_a) ∧
  transition_promise (project_plan plan_a) ∧ transition_ok (project_plan plan_a).
Proof.
  split; [exact frame_a_decoded|].
  exact (decoded_transition_well_formed frame_a (project_plan plan_a) frame_a_decoded).
Defined.

(** C37: the packed integer reader accepts exactly the shortest encodings. Over
    any input of bytes it returns a value if and only if the bytes ahead begin
    with what [push_uvarint] writes for that value, a [u64], and it stops just
    behind them: an overlong, overflowing or truncated integer is refused. *)
Theorem varint_read_exact c v c' :
  Forall (λ b, b < 256)%N (input c) → fits (input c) →
  Cursor.u64 c = Ok (v, c') ↔
    is_u64 v ∧ c' = {| input := input c; offset := offset c + length (uvarint v) |} ∧
    drop (offset c) (input c) = uvarint v ++ drop (offset c') (input c).
Proof.
  intros Hb Hf. split.
  - intros Hr. destruct (u64_canonical c v c' Hb Hr) as (H1 & H2 & H3 & H4).
    split; [done|split; [|done]]. destruct c'. simpl in *. by subst.
  - intros (Hv & -> & Hd). cbn [offset] in Hd.
    assert (Hle : offset c ≤ length (input c)).
    { apply Nat.lt_le_incl, Nat.nle_gt. intros Hge. rewrite drop_ge in Hd by done.
      symmetry in Hd. apply app_eq_nil in Hd as [Hd _]. by apply uvarint_nonempty in Hd. }
    pose proof (take_drop (offset c) (input c)) as Hsplit. rewrite Hd in Hsplit.
    assert (Hlen : length (take (offset c) (input c)) = offset c) by (rewrite length_take; lia).
    pose proof (u64_reads v Hv (take (offset c) (input c))
      (drop (offset c + length (uvarint v)) (input c))) as Hr.
    unfold cursor_at in Hr. rewrite Hsplit in Hr. specialize (Hr Hf). rewrite Hlen in Hr.
    destruct c as [i o]. simpl in *. by rewrite Hr, <-app_assoc, Hsplit, length_app, Hlen.
Qed.

Lemma varint_read_exact_witness :
  Cursor.u64 (Cursor.new [172%N; 2%N; 9%N]) = Ok (300%N, {| input := [172; 2; 9]%N; offset := 2 |}).
Proof.
  apply (varint_read_exact (Cursor.new [172; 2; 9]%N)).
  - repeat (constructor; [reflexivity|]). constructor.
  - reflexivity.
  - split; [reflexivity|]. split; reflexivity.
Defined.

(** ** Streaming *)

(** A sink that keeps the chunks it takes and the header it gets last. *)
Record Arena := { arena_chunks : list (list N); arena_header : list N }.

#[local] Instance arena_sink : TransitionSink Arena := {
  append_rows := λ s rows, ({| arena_chunks := arena_chunks s ++ [rows]; arena_header := arena_header s |}, None);
  sink_finish := λ s header, ({| arena_chunks := arena_chunks s; arena_header := header |}, None)
}.

#[local] Instance arena_recording : RecordingSink Arena.
Proof.
  refine {| chunks_sent := arena_chunks; header_sent := arena_header |}.
  - by intros s bs s' [= <-].
  - by intros s header s' [= <-].
Defined.

(** C38: streaming is unobservable. Over any sink that records what it accepts, a
    streamed transition fails exactly like the one in memory where the rows are
    refused; otherwise it fails only because the sink refused a write, or the
    header the sink got last followed by its chunks are the bytes of the frame in
    memory, every chunk but the last is at least [STREAMED_CHUNK] long and
    nothing is left behind. *)
Theorem streamed_transition_is_byte_identical {S} `{RecordingSink S} plan (s : S) :
  chunks_sent s = [] →
  match write_frame plan, write_transition plan (Some s) with
  | Err e, streamed => streamed = Err e
  | Ok frame, Ok (rest, sent) => rest = [] ∧ ∃ s', sent = Some s' ∧
      frame = header_sent s' ++ concat (chunks_sent s') ∧ chunked (chunks_sent s')
  | Ok frame, Err e => ∃ m, e = Sink m
  end.
Proof. apply write_transition_streams. Qed.

Lemma streamed_transition_is_byte_identical_witness :
  let s := {| arena_chunks := []; arena_header := [] |} in
  match write_frame plan_a, write_transition plan_a (Some s) with
  | Err e, streamed => streamed = Err e
  | Ok frame, Ok (rest, sent) => rest = [] ∧ ∃ s', sent = Some s' ∧
      frame = header_sent s' ++ concat (chunks_sent s') ∧ chunked (chunks_sent s')
  | Ok frame, Err e => ∃ m, e = Sink m
  end.
Proof. apply (streamed_transition_is_byte_identical plan_a). reflexivity. Defined.

(** ** Entity rows *)

(** The two forms of entity rows encode to the same bytes. For a base and a
    target in canonical order, the transition of their rows grouped by path
    ([into_runs]) is the transition of the rows as they are: full, walked,
    exact or sparse, in memory or streamed, errors included. *)
Theorem encoding_ignores_entity_form {S} `{TransitionSink S} schema input (sink : option S) :
  input_ok input → encode_with schema (input_in_runs input) sink = encode_with schema input sink.
Proof. apply encode_in_runs. Qed.

Lemma input_a_ok : input_ok input_a.
Proof. split; [apply target_a_ok|]. intros b [= <-]. apply base_a_ok. Qed.

Lemma encoding_ignores_entity_form_witness :
  Entities.into_runs (pt_entities target_a) = Runs [[entity_a]] ∧
  encode_with (S := Empty_set) 24 (input_in_runs input_a) None =
    encode_with (S := Empty_set) 24 input_a None.
Proof.
  split; [vm_compute; reflexivity|]. exact (encoding_ignores_entity_form 24 input_a None input_a_ok).
Defined.

(** ** Compact demands *)

(** C26: a compact demand snapshot expands to the demands it packed. For demands
    whose locations do not end before they start, [expand_compact_demands]
    returns the demands [compact_demands] was given, in order, and
    [compact_demand_shape] counts them and their query locations; expanding one
    group for a flag appends exactly the demands of the group that carry it. *)
Theorem compact_demands_round_trip demands :
  let compact := compact_demands demands in
  Forall demand_ok demands → compact_fits compact →
  compact_demand_shape (cd_groups compact) = Ok (length demands, demand_queries demands) ∧
  expand_compact_demands compact = Ok demands ∧
  ∀ group expanded flag target, (flag < 2 ^ 21)%N →
    expand_compact_group group (cd_strings compact) = Ok expanded →
    append_compact_demands_with_flag target group (cd_strings compact) flag =
      Ok (target ++ filter (has_demanded flag) expanded).
Proof.
  intros compact Hd Hf. destruct (compact_demands_expand demands Hd Hf) as [H1 H2].
  split_and!; [done..|]. intros group expanded flag target Hflag He. by apply append_with_flag_filter.
Qed.

Definition demand_a : EntityDemand := plain_demand (span path_a 3 5) 1029.
Definition demand_b : EntityDemand :=
  with_query (plain_demand (span path_a 9 11) 1) (span project_a 2 2).

Lemma span_is_ok path start stop :
  (start <=? stop)%N = true → (stop <? u64_limit)%N = true → span_ok (span path start stop).
Proof. intros H1%N.leb_le H2%N.ltb_lt. by split. Qed.

Lemma demand_a_ok : demand_ok demand_a.
Proof. split; [by apply span_is_ok|exact I]. Qed.

Lemma demand_b_ok : demand_ok demand_b.
Proof. split; by apply span_is_ok. Qed.

Lemma demands_a_fit : compact_fits (compact_demands [demand_a; demand_b]).
Proof.
  split; [|vm_compute; reflexivity]. unfold groups_fit, fits, is_u64. decided.
Qed.

Lemma compact_demands_round_trip_witness :
  let compact := compact_demands [demand_a; demand_b] in
  compact_demand_shape (cd_groups compact) = Ok (2, 1)%nat ∧
  expand_compact_demands compact = Ok [demand_a; demand_b] ∧
  ∀ group expanded flag target, (flag < 2 ^ 21)%N →
    expand_compact_group group (cd_strings compact) = Ok expanded →
    append_compact_demands_with_flag target group (cd_strings compact) flag =
      Ok (target ++ filter (has_demanded flag) expanded).
Proof.
  apply (compact_demands_round_trip [demand_a; demand_b]).
  - constructor; [exact demand_a_ok|]. constructor; [exact demand_b_ok|]. constructor.
  - exact demands_a_fit.
Defined.

(** ** Where the two halves disagree *)

(** The symbol operations a plan's frame is read back to. *)
Definition symbols_read (plan : Plan) : result (DecodeError + EncodeError) (list SymbolOp) :=
  frame ← map_err inr (write_frame plan);
  t ← map_err inl (decode_table_transition frame);
  Ok (wt_symbols t).

(** The writer sets the runtime-value-domain flag at every table schema, and at
    schema 3 the reader does not know it: a frame the writer made is refused. *)
Definition domain_plan : Plan :=
  {| pl_mode := Full; pl_table_schema := 3; pl_base_generation := 0; pl_target_generation := 7;
     pl_project_id := project_a; pl_base_state_token := empty_str; pl_symbols := [];
     pl_paths := [{| pr_path := path_a; pr_source := Unchanged; pr_file := Unchanged; pr_entities := Replace
       [{| ef_location := span path_a 3 5; ef_symbol := empty_str; ef_symbol_claim := SymbolClaim_Absent;
           ef_type_descriptor := None; ef_resolved_call := None; ef_callability := None;
           ef_constructability := None; ef_runtime_binding_kind := None;
           ef_runtime_value_domain := Some (rvd_new true false false false);
           ef_primitive_value_domain := pvd_default; ef_primitive_literal_candidates := None;
           ef_call_result_domain := None; ef_constant_value := None; ef_array_shape := None;
           ef_tuple_shape := None; ef_library_types := None; ef_declared_keys := None;
           ef_writable_optional_property := false; ef_reference_space := None;
           ef_runtime_identity := empty_str |}] |}] |}.

Lemma schema3_value_domain_refused :
  symbols_read domain_plan = Err (inl (UnknownFlags "entity" 32)).
Proof. vm_compute. reflexivity. Qed.

(** The writer packs a symbol digest in either case and the reader spells it in
    lower case: an upper-case symbol comes back as another, and a plan that
    names both spellings is refused. *)
Definition digest_plan (ids : list str) : Plan :=
  {| pl_mode := Delta; pl_table_schema := 24; pl_base_generation := 6; pl_target_generation := 7;
     pl_project_id := project_a; pl_base_state_token := token_a; pl_paths := [];
     pl_symbols := (λ id, {| sr_id := id; sr_body := BodyRemove |}) <$> ids |}.

Definition upper_id : str := lit "symbol:h:ABCDEFABCDEFABCDEFABCDEF".
Definition lower_id : str := lit "symbol:h:abcdefabcdefabcdefabcdef".

Lemma upper_case_digest_lost :
  symbols_read (digest_plan [upper_id]) = Ok [SymbolRemove lower_id] ∧
  symbols_read (digest_plan [upper_id; lower_id]) = Err (inl DictionaryDuplicate).
Proof. split; vm_compute; reflexivity. Qed.
