(* ===== verification/TableTheorems.v ===== *)
(** * The retained table: theorems

    What a session relies on: the packed index behaves as a map, a delta is
    applied exactly or refused, its two application strategies agree, an answer
    is accepted without a panic into a consistent table, what it reports as
    changed is what changed, patching symbols is replacing them, and a session
    that follows a producer keeps following it. *)
From S2P Require Export SessionTableSpec WireSamples.

(** ** Sessions *)

(** C2: a session that follows a producer keeps following it, for tables
    whose rows fit the wire and transitions within the reader's limits. Given
    that the base's and the target's rows are values of their types, in order,
    with digests in the lower case the reader parses ([input_fits]); that the
    manifest, when one is used, names every row that differs ([input_sound]);
    that the planned operations and every collection and the dictionary they
    need have at most 10^6 members, which the reader demands and the writer does
    not check ([frame_in_limits]); and that the session holds the encoder's base,
    or the transition is full ([ready]): the session accepts the response made of
    the encoded transition and holds the target. Every path has the target's
    digest and file fact and its entity rows as table schema 24 carries them, up
    to the float equality the encoder compares rows with (0.0 and -0.0 count as
    the same number); every symbol fact, the generation and the project are the
    target's, in a consistent table. The plan may come from the full walk, the
    walk of both tables, an exact manifest or a sparse one. *)
Theorem session_follows_producer input token encoded retained :
  input_fits 24 input → input_sound input → frame_in_limits 24 input →
  encode 24 input = Ok encoded → fits (et_bytes encoded) → is_empty token = false →
  ready 24 input retained →
  ∃ t' changes derived,
    prepare_analyze_response_mode (response_of input token encoded) (ti_project_id input)
      (pt_generation (ti_target input)) retained (ti_base_state_token input) =
      Ok (t', changes, derived) ∧
    client_follows 24 (ti_project_id input) t' (ti_target input).
Proof. apply session_follows. Qed.

Lemma session_follows_producer_witness :
  ∃ t' changes derived,
    prepare_analyze_response_mode (response_of input_a (lit "t2") encoded_a) project_a 7
      (Some retained_a) token_a = Ok (t', changes, derived) ∧
    client_follows 24 project_a t' target_a.
Proof.
  exact (session_follows_producer input_a (lit "t2") encoded_a (Some retained_a) input_a_fits
    input_a_sound input_a_limits encoded_a_written encoded_a_fits eq_refl retained_a_ready).
Defined.

(** C15: accepting an answer never panics. Whatever the response's bytes and
    identity, a session with a consistent table (or none) refuses it with one of
    its own errors, neither a panic of the decoder (its indexing of the
    dictionary, its [unreachable!] arms) nor one of the application (a missing
    symbol, a count below zero), or gets a consistent table of the project,
    generation and schema it expected: the retained one for a reuse, the
    transition applied to nothing for a full table, and the transition applied
    to the retained table for a delta, with the changes found against it. *)
Theorem answer_accepted_or_refused response project generation retained token :
  retained_ok retained →
  match prepare_analyze_response_mode response project generation retained token with
  | Ok (t', changes, derived) => table_ok t' ∧ identity t' project generation ∧
      (derived = false → ∃ tr, decode_table_transition (rs_table_transition response) = Ok tr ∧
         apply_facts no_facts tr = Some (facts t')) ∧
      (derived = true → ∃ t, retained = Some t ∧
         (rs_table_transition response = [] ∧ t' = t ∨
          ∃ tr, decode_table_transition (rs_table_transition response) = Ok tr ∧
            apply_facts (facts t) tr = Some (facts t') ∧ changes = table_changes_against t tr))
  | Err e => e ≠ SessionPanic ∧ e ≠ InvalidTransition DecodePanic
  end.
Proof. apply prepare_spec. Qed.

Lemma retained_a_is_ok : retained_ok (Some retained_a).
Proof. intros t [= <-]. apply retained_a_ok. Qed.

Lemma answer_accepted_or_refused_witness :
  match prepare_analyze_response_mode (response_of input_a (lit "t2") encoded_a) project_a 7
    (Some retained_a) token_a with
  | Ok (t', changes, derived) => table_ok t' ∧ identity t' project_a 7 ∧
      (derived = false → ∃ tr, decode_table_transition (et_bytes encoded_a) = Ok tr ∧
         apply_facts no_facts tr = Some (facts t')) ∧
      (derived = true → ∃ t, Some retained_a = Some t ∧
         (et_bytes encoded_a = [] ∧ t' = t ∨
          ∃ tr, decode_table_transition (et_bytes encoded_a) = Ok tr ∧
            apply_facts (facts t) tr = Some (facts t') ∧ changes = table_changes_against t tr))
  | Err e => e ≠ SessionPanic ∧ e ≠ InvalidTransition DecodePanic
  end.
Proof.
  exact (answer_accepted_or_refused (response_of input_a (lit "t2") encoded_a) project_a 7
    (Some retained_a) token_a retained_a_is_ok).
Defined.

(** ** Deltas *)

(** The delta from the retained sample, decoded. *)
Definition delta_a : WireTableTransition :=
  {| wt_mode := Delta; wt_table_schema := 24; wt_base_generation := 6; wt_target_generation := 7;
     wt_project_id := project_a; wt_base_state_token := token_a;
     wt_paths := [{| po_path := path_a; po_source := SlotReplace hash_a;
                     po_entities := SlotReplace [entity_a]; po_file := SlotUnchanged |}];
     wt_symbols := [SymbolReplace symbol_a;
       SymbolReplaceReferencePath (sf_id symbol_a) path_a [span path_a 3 5]] |}.

Lemma delta_a_ok : transition_ok delta_a.
Proof.
  split_and!; [apply one_sorted| | | |done].
  - constructor; [|constructor]. split; [|done]. by intros es [= <-].
  - constructor; [apply one_sorted|]. constructor; [by right|constructor].
  - constructor; [|constructor; [|constructor]]; (split; [done|]).
    + split; [|done]. by repeat constructor.
    + split; by repeat constructor.
Qed.

Lemma delta_a_validated : validate_delta retained_a delta_a = Ok tt.
Proof. vm_compute. reflexivity. Qed.

(** C12: a delta is refused exactly when it means nothing. [validate_delta]
    accepts a decoded delta if and only if every reference operation names a
    symbol that exists then and is no alias, and what it accepts, [apply_delta]
    applies without a panic: the new table is consistent and holds the rows and
    facts the operations say, one after another, of the delta's schema and
    generation and the table's project. *)
Theorem delta_applied_or_refused t tr :
  table_ok t → transition_ok tr →
  (validate_delta t tr = Ok tt ↔ is_Some (fold_facts (symbols t) (wt_symbols tr))) ∧
  (validate_delta t tr = Ok tt → ∃ t', apply_delta t tr = Some t' ∧ table_ok t' ∧
     apply_facts (facts t) tr = Some (facts t') ∧ ft_schema t' = wt_table_schema tr ∧
     ft_generation t' = wt_target_generation tr ∧ ft_project_id t' = ft_project_id t).
Proof.
  intros Ht Htr. split; [|by apply apply_delta_spec].
  pose proof (validate_delta_spec t tr Ht Htr) as Hv. destruct (validate_delta t tr) as [[]|e].
  - destruct Hv as (l' & _ & _ & ->). split; [by eexists|done].
  - destruct Hv as [-> _]. split; [done|by intros []].
Qed.

Lemma delta_applied_or_refused_witness :
  validate_delta retained_a delta_a = Ok tt ∧
  ∃ t', apply_delta retained_a delta_a = Some t' ∧ table_ok t' ∧
     apply_facts (facts retained_a) delta_a = Some (facts t') ∧ ft_schema t' = 24%N ∧
     ft_generation t' = 7%N ∧ ft_project_id t' = project_a.
Proof.
  split; [exact delta_a_validated|].
  exact (proj2 (delta_applied_or_refused retained_a delta_a retained_a_ok delta_a_ok) delta_a_validated).
Defined.

(** C25: what a delta reports as changed is what it changed. Its file paths are
    exactly the paths whose file fact differs after it; its entity paths all have
    rows that differ, and at any other path they are the same or equal row by
    row; a symbol it does not report is as it was. *)
Theorem reported_changes_exact t tr t' :
  table_ok t → transition_ok tr → validate_delta t tr = Ok tt → apply_delta t tr = Some t' →
  let changes := table_changes_against t tr in
  (∀ p, p ∈ tc_file_paths changes ↔ file t' p ≠ file t p) ∧
  (∀ p, p ∈ tc_entity_paths changes →
     list_eqb EntityFact_eqb (entities_for_path t p) (entities_for_path t' p) = false) ∧
  (∀ p, p ∉ tc_entity_paths changes →
     entities_for_path t' p = entities_for_path t p ∨
     list_eqb EntityFact_eqb (entities_for_path t p) (entities_for_path t' p) = true) ∧
  ∀ id, id ∉ tc_symbol_ids changes → symbol_fact t' id = symbol_fact t id.
Proof.
  intros Ht Htr Hv Ha changes.
  destruct (apply_delta_spec t tr Ht Htr Hv) as (t2 & E & Ht' & Hf & _).
  rewrite Ha in E. injection E as <-. destruct Htr as (Hord & _).
  unfold apply_facts, facts in Hf. cbn [fst snd] in Hf.
  destruct (fold_facts (symbols t) (wt_symbols tr)) as [l|] eqn:El; [|done].
  cbn [mbind option_bind] in Hf. injection Hf as Hrows ->. symmetry in Hrows. split_and!.
  - intros p. by apply file_changes_spec.
  - intros p. by apply (entity_changes_spec t t' tr Ht Ht' Hrows Hord p).
  - intros p. by apply (entity_changes_spec t t' tr Ht Ht' Hrows Hord p).
  - intros id Hid. rewrite !symbol_row by done.
    destruct (fold_facts_other _ _ _ id (symbols_sorted t Ht) El) as [_ Hother]. apply Hother.
    intros Hin. apply Hid. unfold changes, table_changes_against. cbn [tc_symbol_ids].
    by apply dedup_elem.
Qed.

Definition table_a : FactTable := default retained_a (apply_delta retained_a delta_a).

Lemma table_a_applied : apply_delta retained_a delta_a = Some table_a.
Proof.
  destruct (apply_delta_spec _ _ retained_a_ok delta_a_ok delta_a_validated) as (t' & E & _).
  unfold table_a. by rewrite E.
Qed.

Lemma reported_changes_exact_witness :
  let changes := table_changes_against retained_a delta_a in
  tc_entity_paths changes = [path_a] ∧ tc_file_paths changes = [] ∧
  (∀ p, p ∈ tc_file_paths changes ↔ file table_a p ≠ file retained_a p) ∧
  (∀ p, p ∈ tc_entity_paths changes →
     list_eqb EntityFact_eqb (entities_for_path retained_a p) (entities_for_path table_a p) = false) ∧
  (∀ p, p ∉ tc_entity_paths changes →
     entities_for_path table_a p = entities_for_path retained_a p ∨
     list_eqb EntityFact_eqb (entities_for_path retained_a p) (entities_for_path table_a p) = true) ∧
  ∀ id, id ∉ tc_symbol_ids changes → symbol_fact table_a id = symbol_fact retained_a id.
Proof.
  split; [vm_compute; reflexivity|]. split; [vm_compute; reflexivity|].
  exact (reported_changes_exact retained_a delta_a table_a retained_a_ok delta_a_ok
    delta_a_validated table_a_applied).
Defined.

(** ** Strategies *)

(** C23: how a delta is applied does not matter. On a consistent table and
    operations in the order a transition has, applying the path operations one
    at a time to the index and merging them in one pass over its rows give the
    same rows, in an index in order, and the row counts that the index has (no
    count goes below zero on the way); and
    the two ways for symbol operations refuse together or give the same rows. *)
Theorem application_strategies_agree t ops syms :
  table_ok t → StronglySorted str_lt (po_path <$> ops) →
  StronglySorted str_le (symbol_op_id <$> syms) →
  match apply_path_operations_sparse t ops with
  | Some (sparse, a, b, c) =>
      let linear := apply_path_operations_linear (ft_paths t) ops in
      index_ok sparse ∧ index_ok linear ∧ rows sparse = rows linear ∧
      counts_of (rows linear) = (a, b, c)
  | None => False
  end ∧
  match apply_symbol_operations_sparse (ft_symbols t) syms,
        apply_symbol_operations_linear (ft_symbols t) syms with
  | Some sparse, Some linear => index_ok sparse ∧ index_ok linear ∧ rows sparse = rows linear
  | None, None => True
  | _, _ => False
  end.
Proof.
  intros (Hp & _ & Hc & Hs & _) Hops Hsyms. split.
  - destruct (sparse_paths_fold _ _ _ _ ops Hp Hc) as (idx & a & b & c & E & Hok & Hr & Hc').
    unfold apply_path_operations_sparse. rewrite E. destruct Hp as (_ & _ & Hsorted & _).
    unfold apply_path_operations_linear.
    rewrite (merge_paths_fold _ _ Hsorted Hops).
    destruct (from_sorted_ok (fold_paths (rows (ft_paths t)) ops)) as [Hl ->];
      [by apply fold_paths_sorted|].
    rewrite <-Hr in *. by split_and!.
  - pose proof (sparse_symbols_fold _ syms Hs) as Hsp. destruct Hs as (_ & _ & Hsorted & _).
    unfold apply_symbol_operations_linear. rewrite (merge_symbols_fold _ _ _ (le_n _) Hsorted Hsyms).
    destruct (apply_symbol_operations_sparse _ syms) as [idx|].
    + destruct Hsp as [Hok E]. rewrite E. cbn [fmap option_fmap option_map].
      destruct (from_sorted_ok (rows idx)) as [Hl ->]; [apply Hok|done].
    + by rewrite Hsp.
Qed.

Lemma application_strategies_agree_witness :
  match apply_path_operations_sparse retained_a (wt_paths delta_a) with
  | Some (sparse, a, b, c) =>
      let linear := apply_path_operations_linear (ft_paths retained_a) (wt_paths delta_a) in
      index_ok sparse ∧ index_ok linear ∧ rows sparse = rows linear ∧
      counts_of (rows linear) = (a, b, c)
  | None => False
  end ∧
  match apply_symbol_operations_sparse (ft_symbols retained_a) (wt_symbols delta_a),
        apply_symbol_operations_linear (ft_symbols retained_a) (wt_symbols delta_a) with
  | Some sparse, Some linear => index_ok sparse ∧ index_ok linear ∧ rows sparse = rows linear
  | None, None => True
  | _, _ => False
  end.
Proof.
  destruct delta_a_ok as (Hp & _ & Hs & _).
  exact (application_strategies_agree retained_a (wt_paths delta_a) (wt_symbols delta_a)
    retained_a_ok Hp Hs).
Defined.

(** ** The packed index *)

(** An index after a history of updates, and the map the history writes. *)
Definition index_after `{Keyed T} (history : list (str * option T)) : PackedIndex T :=
  foldl (λ idx '(k, r), updated idx k r) index_default history.

Definition map_after {T} (history : list (str * option T)) : gmap str T :=
  foldl (λ m '(k, r), partial_alter (λ _, r) k m) ∅ history.

(** C22: the packed index is a map from keys to rows. After any history of
    updates, each of which puts a row under its own key or removes one, a lookup
    finds what was last written under the key, the rows are in key order, one per
    key, every leaf is non-empty and within its bound, and the length is the
    number of rows. *)
Theorem packed_index_is_a_map `{Keyed T} (history : list (str * option T)) :
  Forall (λ '(k, repl), ∀ r : T, repl = Some r → key r = k) history →
  index_ok (index_after history) ∧
  ∀ k, index_get (index_after history) k = map_after history !! k.
Proof.
  intros Hh.
  assert (Hgen : ∀ idx (m : gmap str T), index_ok idx → (∀ k, find_row k (rows idx) = m !! k) →
    let idx' := foldl (λ idx '(k, r), updated idx k r) idx history in
    index_ok idx' ∧ ∀ k, index_get idx' k = foldl (λ m '(k, r), partial_alter (λ _, r) k m) m history !! k).
  { induction Hh as [|[k r] history Hkr Hh IH]; intros idx m Hok Hm; cbn [foldl].
    { split; [done|]. intros k. by rewrite index_get_spec. }
    destruct (updated_spec idx k r Hok Hkr) as [Hok' Hr]. apply IH; [done|].
    intros k'. rewrite Hr, find_set_row; [|apply Hok|done]. destruct (decide (k' = k)) as [->|Hne].
    - by rewrite lookup_partial_alter, decide_True.
    - by rewrite lookup_partial_alter, decide_False. }
  apply Hgen; [apply (from_sorted_ok []); constructor|done].
Qed.

Definition history_a : list (str * option SourceDigest) :=
  [(path_a, Some {| sd_path := path_a; sd_sha256 := hash_a |}); (lit "b", None); (path_a, None);
   (path_a, Some {| sd_path := path_a; sd_sha256 := hash_a |})].

Lemma packed_index_is_a_map_witness :
  length (rows (index_after history_a)) = 1 ∧
  index_ok (index_after history_a) ∧
  ∀ k, index_get (index_after history_a) k = map_after history_a !! k.
Proof.
  split; [vm_compute; reflexivity|]. apply (packed_index_is_a_map history_a).
  repeat (constructor; [by intros ? [= <-]|]). by constructor.
Defined.

(** ** Symbols *)

(** Patching symbols is replacing them. On a consistent table,
    [merge_symbols] keeps the table consistent and leaves under every id its
    upsert, nothing where it is removed, and the fact it had otherwise; and it
    gives the facts and reports the changes that replacing every symbol with the
    resulting ones would. *)
Theorem merge_symbols_is_replacement t upserts removed :
  table_ok t → Forall fact_ok upserts →
  let '(t', changed) := merge_symbols t upserts removed in
  table_ok t' ∧
  (∀ id, symbol_fact t' id = match find_row id upserts with
     | Some f => Some f
     | None => if decide (id ∈ removed) then None else symbol_fact t id end) ∧
  ∃ t2, replace_symbols t (symbols t') = (t2, changed) ∧ facts t2 = facts t'.
Proof. apply merge_symbols_spec. Qed.

Lemma merge_symbols_is_replacement_witness :
  let '(t', changed) := merge_symbols table_a [symbol_a] {[lit "x"]} in
  table_ok t' ∧
  (∀ id, symbol_fact t' id = match find_row id [symbol_a] with
     | Some f => Some f
     | None => if decide (id ∈@{gset str} {[lit "x"]}) then None else symbol_fact table_a id end) ∧
  ∃ t2, replace_symbols table_a (symbols t') = (t2, changed) ∧ facts t2 = facts t'.
Proof.
  assert (Ht : table_ok table_a).
  { destruct (apply_delta_spec _ _ retained_a_ok delta_a_ok delta_a_validated) as (t' & E & Ht' & _).
    unfold table_a. by rewrite E. }
  assert (Hf : Forall fact_ok [symbol_a]).
  { destruct delta_a_ok as (_ & _ & _ & Hs & _). inversion Hs as [|? ? [_ H] ?].
    constructor; [exact H|constructor]. }
  exact (merge_symbols_is_replacement table_a [symbol_a] {[lit "x"]} Ht Hf).
Defined.
