(* ===== verification/FileTable.v ===== *)
(** * The analyzed file table

    [rust/crates/solid-reactive-ir/src/base/file_table.rs]: the path interner,
    the table of a build's files by slot and by id, and the item tables. What
    a [FileFacts] holds beside its path is read by contribution functions only
    and stays a parameter. *)
From S2P Require Import Prelude.

Section file_table.
Context {Path : Type} `{Countable Path}.

(** ** Interned paths *)

(** A [FileId] is a [u32]. *)
Record FileInterner := { by_path : gmap Path nat; paths : list Path }.

Definition interner_default : FileInterner := {| by_path := ∅; paths := [] |}.

(** [None] is the panic past 2^32 paths. *)
Definition intern (t : FileInterner) (path : Path) : option (nat * FileInterner) :=
  match by_path t !! path with
  | Some id => Some (id, t)
  | None =>
      id ← u32_try_from (length (paths t));
      Some (id, {| by_path := <[path := id]> (by_path t); paths := paths t ++ [path] |})
  end.

Definition interner_path (t : FileInterner) (id : nat) : option Path := paths t !! id.

Definition interner_get (t : FileInterner) (path : Path) : option nat := by_path t !! path.

(** ** The table *)

Record FileTable := {
  interner : FileInterner;
  slot_ids : list nat;
  slots : gmap nat (list nat);
  ids : list nat
}.

Definition empty_table (t : FileInterner) : FileTable :=
  {| interner := t; slot_ids := []; slots := ∅; ids := [] |}.

(** One round of the loop over the files: the next slot has the path. *)
Definition add_slot (t : FileTable) (path : Path) : option FileTable :=
  '(id, interned) ← intern (interner t) path;
  let entry := default [] (slots t !! id) in
  Some {| interner := interned;
          slot_ids := slot_ids t ++ [id];
          slots := <[id := entry ++ [length (slot_ids t)]]> (slots t);
          ids := match entry with [] => ids t ++ [id] | _ => ids t end |}.

Definition with_interner (files : list Path) (t : FileInterner) : option FileTable :=
  foldM add_slot (empty_table t) files.

Definition table_new (files : list Path) : option FileTable := with_interner files interner_default.

Definition reinterned (t : FileTable) (into : FileInterner) : option FileTable :=
  foldM (λ acc id, path ← interner_path (interner t) id; add_slot acc path)
    (empty_table into) (slot_ids t).

Definition slot_count (t : FileTable) : nat := length (slot_ids t).

Definition slot_id (t : FileTable) (slot : nat) : option nat := slot_ids t !! slot.

Definition slots_of (t : FileTable) (id : nat) : list nat := default [] (slots t !! id).

(** [Iterator::position]. *)
Fixpoint position_of (slot : nat) (l : list nat) : option nat :=
  match l with
  | [] => None
  | candidate :: l => if decide (candidate = slot) then Some 0 else S <$> position_of slot l
  end.

Definition slot_rank (t : FileTable) (slot : nat) : option nat :=
  id ← slot_id t slot; position_of slot (slots_of t id).

Definition path_of (t : FileTable) (id : nat) : option Path := interner_path (interner t) id.

Definition id_of (t : FileTable) (path : Path) : option nat :=
  id ← interner_get (interner t) path;
  if bool_decide (is_Some (slots t !! id)) then Some id else None.

Definition first_slot (t : FileTable) (path : Path) : option nat :=
  id ← id_of t path; head (slots_of t id).

Definition last_slot (t : FileTable) (path : Path) : option nat :=
  id ← id_of t path; last (slots_of t id).

Definition contains_path (t : FileTable) (path : Path) : bool := bool_decide (is_Some (id_of t path)).
End file_table.

Arguments FileInterner Path {_ _}.
Arguments FileTable Path {_ _}.

(** ** Items *)

Inductive ItemKind := Function | Call | Jsx | Binding.

Record FileItems (Span : Type) := {
  functions : list Span; calls : list Span; jsx : list Span; bindings : list Span
}.
Arguments functions {Span} _.
Arguments calls {Span} _.
Arguments jsx {Span} _.
Arguments bindings {Span} _.

Definition spans {Span} (t : FileItems Span) (kind : ItemKind) : list Span :=
  match kind with
  | Function => functions t
  | Call => calls t
  | Jsx => jsx t
  | Binding => bindings t
  end.
