(* ===== verification/BaseIndex.v ===== *)
(** * Base indexes

    [rust/crates/solid-reactive-ir/src/base/index.rs]: the L1 index a file's
    contribution is folded into and replaced in, and the keys a replacement
    reports. *)
From S2P Require Import Prelude Order FileTable.

(** ** One file's contribution *)

Record FileContribution (K C : Type) := { entries : list (K * C); slot_ends : list nat }.
Arguments entries {K C} _.
Arguments slot_ends {K C} _.
Arguments Build_FileContribution {K C} _ _.

#[global] Instance FileContribution_eq_dec {K C} `{EqDecision K, EqDecision C} :
  EqDecision (FileContribution K C).
Proof. solve_decision. Defined.

(** [slice::partition_point]: where the leading run that satisfies [p] ends. *)
Fixpoint leading {A} (p : A → bool) (l : list A) : nat :=
  match l with a :: l => if p a then S (leading p l) else 0 | [] => 0 end.

Section contribution.
Context {K C : Type}.

Definition add_contributed (c : FileContribution K C) (slot : list (K * C))
    : option (FileContribution K C) :=
  let extended := entries c ++ slot in
  stop ← u32_try_from (length extended);
  Some {| entries := extended; slot_ends := slot_ends c ++ [stop] |}.

Definition from_slots (slots : list (list (K * C))) : option (FileContribution K C) :=
  foldM add_contributed {| entries := []; slot_ends := [] |} slots.

Definition rank_of (c : FileContribution K C) (position : nat) : nat :=
  leading (λ stop, stop <=? position)%nat (slot_ends c).

(** [None] is a slice out of range. *)
Definition contribution_slot (c : FileContribution K C) (rank : nat) : option (list (K * C)) :=
  let start := match rank with 0 => 0 | S rank => default 0 (slot_ends c !! rank) end in
  let stop := default start (slot_ends c !! rank) in
  if (start <=? stop)%nat && (stop <=? length (entries c))%nat
  then Some (take (stop - start) (drop start (entries c))) else None.
End contribution.

(** ** The index *)

Abbreviation Posting := (nat * list nat)%type.

Record BaseIndex (K C : Type) `{Countable K} := {
  by_file : gmap nat (FileContribution K C);
  by_key : gmap K (list Posting)
}.
Arguments by_file {K C _ _} _.
Arguments by_key {K C _ _} _.
Arguments Build_BaseIndex {K C _ _} _ _.

Section index.
Context {K C : Type} `{Countable K} `{EqDecision C}.

Definition base_default : BaseIndex K C := {| by_file := ∅; by_key := ∅ |}.

(** The positions of each key, in the order the loop over the entries pushes
    them. *)
Definition push_position (grouped : gmap K (list nat)) (entry : nat * (K * C))
    : option (gmap K (list nat)) :=
  position ← u32_try_from entry.1;
  Some (<[entry.2.1 := default [] (grouped !! entry.2.1) ++ [position]]> grouped).

Definition positions_by_key (c : FileContribution K C) : option (gmap K (list nat)) :=
  foldM push_position ∅ (zip (seq 0 (length (entries c))) (entries c)).

(** A file's groups joined to the postings. Each key's list is its own, so the
    order the hash map gives the keys in does not show. *)
Definition join_file (postings : gmap K (list Posting)) (file : nat) (grouped : gmap K (list nat))
    : gmap K (list Posting) :=
  foldl (λ acc '(key, positions),
           <[key := default [] (acc !! key) ++ [(file, positions)]]> acc)
    postings (map_to_list grouped).

Definition has_entries (c : FileContribution K C) : bool :=
  match entries c with [] => false | _ => true end.

Definition fold_file (files : gmap nat (FileContribution K C)) (postings : gmap K (list Posting))
    (file : nat) : option (gmap K (list Posting)) :=
  c ← files !! file; grouped ← positions_by_key c; Some (join_file postings file grouped).

Definition fold (contributions : list (nat * FileContribution K C)) : option (BaseIndex K C) :=
  let collected := foldl (λ m '(file, c), <[file := c]> m) ∅ contributions in
  let kept := filter (λ row, has_entries row.2 = true) collected in
  postings ← foldM (fold_file kept) ∅ (ascending (dom kept));
  Some {| by_file := kept; by_key := postings |}.

(** ** Replacing contributions *)

(** [binary_search_by_key]: a file's position among the postings of a key, or
    where it would be. *)
Definition posting_at (postings : list Posting) (file : nat) : nat + nat :=
  let at_ := leading (λ posting, posting.1 <? file)%nat postings in
  match postings !! at_ with
  | Some posting => if decide (posting.1 = file) then inl at_ else inr at_
  | None => inr at_
  end.

(** The rank and value of an entry by position; [None] is an index out of
    range. *)
Definition ranked_entry (c : FileContribution K C) (position : nat) : option (nat * C) :=
  entry ← entries c !! position; Some (rank_of c position, entry.2).

Definition ranked_entries (c : option (FileContribution K C)) (positions : list nat)
    : option (list (nat * C)) :=
  c ← c; mapM (ranked_entry c) positions.

(** One old key of a replaced file: whether its values changed, and its posting
    taken out when the file has the key no more. *)
Definition retire_key (file : nat) (previous next : option (FileContribution K C))
    (new : gmap K (list nat)) (state : gmap K (list Posting) * gset K) (old : K * list nat)
    : option (gmap K (list Posting) * gset K) :=
  let '(postings, delta) := state in
  let '(key, old_positions) := old in
  changed ← match new !! key with
            | None => Some true
            | Some new_positions =>
                after ← ranked_entries next new_positions;
                before ← ranked_entries previous old_positions;
                Some (bool_decide (before ≠ after))
            end;
  let delta := if changed : bool then {[key]} ∪ delta else delta in
  match new !! key with
  | Some _ => Some (postings, delta)
  | None =>
      list ← postings !! key;
      let list := match posting_at list file with
                  | inl at_ => delete at_ list
                  | inr _ => list
                  end in
      Some (match list with [] => delete key postings | _ => <[key := list]> postings end, delta)
  end.

(** One new key of a replaced file. *)
Definition post_key (file : nat) (old : gmap K (list nat))
    (state : gmap K (list Posting) * gset K) (new : K * list nat)
    : gmap K (list Posting) * gset K :=
  let '(postings, delta) := state in
  let '(key, positions) := new in
  let delta := match old !! key with None => {[key]} ∪ delta | Some _ => delta end in
  let list := default [] (postings !! key) in
  (<[key := match posting_at list file with
            | inl at_ => <[at_ := (file, positions)]> list
            | inr at_ => take at_ list ++ (file, positions) :: drop at_ list
            end]> postings, delta).

Definition grouped_of (c : option (FileContribution K C)) : option (gmap K (list nat)) :=
  match c with Some c => positions_by_key c | None => Some ∅ end.

Definition update_file (state : BaseIndex K C * gset K) (file : nat)
    (next : option (FileContribution K C)) : option (BaseIndex K C * gset K) :=
  let '(index, delta) := state in
  let next := c ← next; if has_entries c then Some c else None in
  let previous := by_file index !! file in
  old ← grouped_of previous;
  new ← grouped_of next;
  retired ← foldM (retire_key file previous next new) (by_key index, delta) (map_to_list old);
  let '(postings, delta) := foldl (post_key file old) retired (map_to_list new) in
  Some ({| by_file := match next with
                      | Some c => <[file := c]> (delete file (by_file index))
                      | None => delete file (by_file index)
                      end;
           by_key := postings |}, delta).

(** The last contribution of each listed file, and the files in the order of
    their first listing. *)
Definition list_change (acc : gmap nat (option (FileContribution K C)) * list nat)
    (change : nat * option (FileContribution K C))
    : gmap nat (option (FileContribution K C)) * list nat :=
  let '(last, order) := acc in
  (<[change.1 := change.2]> last,
   match last !! change.1 with None => order ++ [change.1] | Some _ => order end).

Definition update (index : BaseIndex K C) (changes : list (nat * option (FileContribution K C)))
    : option (BaseIndex K C * gset K) :=
  let '(last, order) := foldl list_change (∅, []) changes in
  foldM (λ state file, next ← last !! file; update_file state file next) (index, ∅) order.

(** ** Reading *)

Definition ranked_posting (index : BaseIndex K C) (posting : Posting) : option (list (nat * nat * C)) :=
  c ← by_file index !! posting.1;
  ranked ← mapM (ranked_entry c) posting.2;
  Some ((λ entry, (posting.1, entry.1, entry.2)) <$> ranked).

(** [None] is a posting without its entry: an index out of range. *)
Definition ranked_values (index : BaseIndex K C) (key : K) : option (list (nat * nat * C)) :=
  mjoin <$> mapM (ranked_posting index) (default [] (by_key index !! key)).

Definition value_posting (index : BaseIndex K C) (posting : Posting) : option (list (nat * C)) :=
  c ← by_file index !! posting.1;
  found ← mapM (λ position, entries c !! position) posting.2;
  Some ((λ entry, (posting.1, entry.2)) <$> found).

Definition values (index : BaseIndex K C) (key : K) : option (list (nat * C)) :=
  mjoin <$> mapM (value_posting index) (default [] (by_key index !! key)).

Definition contains_key (index : BaseIndex K C) (key : K) : bool :=
  bool_decide (is_Some (by_key index !! key)).

Definition keys (index : BaseIndex K C) : gset K := dom (by_key index).

Definition index_slot (index : BaseIndex K C) (file rank : nat) : option (list (K * C)) :=
  match by_file index !! file with Some c => contribution_slot c rank | None => Some [] end.

Definition changed_keys (index other : BaseIndex K C) : gset K :=
  filter (λ key, ranked_values index key ≠ ranked_values other key) (keys index ∪ keys other).

Definition index_eqb (index other : BaseIndex K C) : bool :=
  bool_decide (by_file index = by_file other) && bool_decide (by_key index = by_key other).
End index.
