(* ===== verification/RetainedBase.v ===== *)
(** * The base kept between builds

    [rust/crates/solid-reactive-ir/src/base.rs]: folding and updating every
    base index over a build's files; and
    [rust/crates/solid-reactive-ir/src/base/retained.rs]: the shadow check that
    updates the previous build's indexes and compares them with a refold. An
    index is known by its kind: its name, its key and value types, its
    contribution function and how a key is rendered. The timings of the check
    are left out. *)
From stdpp Require Import strings.
From S2P Require Import Prelude Order FileTable BaseIndex.

(** ** Kinds of index *)

Record IndexKind (File : Type) := {
  ik_name : string;
  ik_key : Type;
  ik_value : Type;
  ik_key_eq : EqDecision ik_key;
  ik_key_countable : Countable ik_key;
  ik_value_eq : EqDecision ik_value;
  ik_contribute : File → list (ik_key * ik_value);
  ik_render : ik_key → string
}.
Arguments ik_name {File} _.
Arguments ik_key {File} _.
Arguments ik_value {File} _.
Arguments ik_contribute {File} _ _.
Arguments ik_render {File} _ _.
#[export] Existing Instances ik_key_eq ik_key_countable ik_value_eq.

Section views.
Context {File : Type} {Path : Type} `{Countable Path}.

(** ** One index over the views of a build *)

Section one.
Context {K C : Type} `{Countable K} `{EqDecision C} (contribute : File → list (K * C)).

Definition view_contribution (table : FileTable Path) (files : list File) (id : nat)
    : option (FileContribution K C) :=
  slots ← mapM (λ slot, contribute <$> files !! slot) (slots_of table id);
  from_slots slots.

(** [per_slot[*slot].take().expect(..)]. *)
Fixpoint take_slots (per_slot : list (option (list (K * C)))) (slots : list nat)
    : option (list (list (K * C)) * list (option (list (K * C)))) :=
  match slots with
  | [] => Some ([], per_slot)
  | slot :: slots =>
      found ← per_slot !! slot;
      taken ← found;
      '(rest, per_slot) ← take_slots (<[slot := None]> per_slot) slots;
      Some (taken :: rest, per_slot)
  end.

Definition fold_id (table : FileTable Path)
    (state : list (nat * FileContribution K C) * list (option (list (K * C)))) (id : nat)
    : option (list (nat * FileContribution K C) * list (option (list (K * C)))) :=
  '(slots, per_slot) ← take_slots state.2 (slots_of table id);
  c ← from_slots slots;
  Some (state.1 ++ [(id, c)], per_slot).

Definition fold_views (table : FileTable Path) (files : list File) : option (BaseIndex K C) :=
  '(contributions, _) ← foldM (fold_id table) ([], (λ file, Some (contribute file)) <$> files)
    (ids table);
  fold contributions.

(** One index of [AllIndexes::update]: the contributions of the changed files
    replaced, those of the removed ones taken out. *)
Definition update_views (table : FileTable Path) (files : list File) (changed removed : list nat)
    (index : BaseIndex K C) : option (BaseIndex K C * gset K) :=
  replaced ← mapM (λ id, c ← view_contribution table files id; Some (id, Some c)) changed;
  update index (replaced ++ ((λ id, (id, None)) <$> removed)).
End one.

(** ** Every index *)

Fixpoint AllIndexes (kinds : list (IndexKind File)) : Type :=
  match kinds with
  | [] => ()
  | kind :: kinds => BaseIndex (ik_key kind) (ik_value kind) * AllIndexes kinds
  end.

Fixpoint all_fold (table : FileTable Path) (files : list File) (kinds : list (IndexKind File))
    : option (AllIndexes kinds) :=
  match kinds with
  | [] => Some ()
  | kind :: kinds =>
      index ← fold_views (ik_contribute kind) table files;
      rest ← all_fold table files kinds;
      Some (index, rest)
  end.

(** The keys of a set, rendered. *)
Definition rendered (kind : IndexKind File) (keys : gset (ik_key kind)) : string * list string :=
  (ik_name kind, ik_render kind <$> elements keys).

Fixpoint all_update (table : FileTable Path) (files : list File) (changed removed : list nat)
    (kinds : list (IndexKind File)) : AllIndexes kinds →
    option (AllIndexes kinds * list (string * list string)) :=
  match kinds with
  | [] => λ _, Some ((), [])
  | kind :: kinds => λ indexes,
      '(index, delta) ← update_views (ik_contribute kind) table files changed removed indexes.1;
      '(rest, deltas) ← all_update table files changed removed kinds indexes.2;
      Some ((index, rest), rendered kind delta :: deltas)
  end.

Fixpoint all_changed_keys (kinds : list (IndexKind File))
    : AllIndexes kinds → AllIndexes kinds → list (string * list string) :=
  match kinds with
  | [] => λ _ _, []
  | kind :: kinds => λ indexes other,
      rendered kind (changed_keys indexes.1 other.1) :: all_changed_keys kinds indexes.2 other.2
  end.

Fixpoint first_different (kinds : list (IndexKind File))
    : AllIndexes kinds → AllIndexes kinds → option string :=
  match kinds with
  | [] => λ _ _, None
  | kind :: kinds => λ indexes other,
      if index_eqb indexes.1 other.1 then first_different kinds indexes.2 other.2
      else Some (ik_name kind)
  end.

(** ** The shadow check *)

Context {Hash : Type} `{EqDecision Hash}.
Context (file_path : File → Path) (source_hash : File → Hash).
(** The digest of one view, and of the digests of a path's slots. *)
Context (fingerprint : File → N) (hash_slots : list N → N).
Context (kinds : list (IndexKind File)).

Record RetainedBase := {
  rb_interner : FileInterner Path;
  rb_fingerprints : gmap nat N;
  rb_sources : gmap nat Hash;
  rb_indexes : AllIndexes kinds
}.

Inductive Mismatch :=
  | UpdateDiffers (index : string) (changed removed : nat)
  | DeltaDiffers (index : string) (delta expected : list string).

Record BaseCheck := {
  changed_files : nat; edited_files : nat; removed_files : nat; delta_keys : nat;
  mismatch : option Mismatch
}.

Definition retained_table (retained : option RetainedBase) (files : list File)
    : option (FileTable Path) :=
  with_interner (file_path <$> files)
    match retained with Some base => rb_interner base | None => interner_default end.

Definition file_fingerprint (table : FileTable Path) (files : list File) (id : nat) : option N :=
  slots ← mapM (λ slot, fingerprint <$> files !! slot) (slots_of table id);
  Some (hash_slots slots).

Definition file_source (table : FileTable Path) (files : list File) (id : nat) : option Hash :=
  slot ← slots_of table id !! 0; source_hash <$> files !! slot.

(** A map from the ids of a table, each answer computed. *)
Definition by_id {A} (table : FileTable Path) (f : nat → option A) : option (gmap nat A) :=
  rows ← mapM (λ id, a ← f id; Some (id, a)) (ids table);
  Some (list_to_map rows).

(** The first index whose rendered delta is not the rendered changed keys, up
    to order. *)
Fixpoint delta_mismatch (deltas expected : list (string * list string)) : option Mismatch :=
  match deltas, expected with
  | (index, delta) :: deltas, (_, keys) :: expected =>
      let delta := merge_sort (cmp_le String.compare) delta in
      let keys := merge_sort (cmp_le String.compare) keys in
      if bool_decide (delta = keys) then delta_mismatch deltas expected
      else Some (DeltaDiffers index delta keys)
  | _, _ => None
  end.

Definition retained_check (retained : option RetainedBase) (table : FileTable Path)
    (files : list File) : option (RetainedBase * option BaseCheck) :=
  fingerprints ← by_id table (file_fingerprint table files);
  sources ← by_id table (file_source table files);
  match retained with
  | None =>
      indexes ← all_fold table files kinds;
      Some ({| rb_interner := interner table; rb_fingerprints := fingerprints;
               rb_sources := sources; rb_indexes := indexes |}, None)
  | Some previous =>
      let changed := merge_sort (≤)
        (filter (λ id, rb_fingerprints previous !! id ≠ fingerprints !! id) (ids table)) in
      let removed := ascending
        (filter (λ id, fingerprints !! id = None) (dom (rb_fingerprints previous))) in
      let edited := filter (λ id, rb_sources previous !! id ≠ sources !! id) changed in
      let before := rb_indexes previous in
      all_update table files edited removed kinds before;;
      '(updated, deltas) ← all_update table files changed removed kinds before;
      fresh ← all_fold table files kinds;
      let found :=
        match first_different kinds updated fresh with
        | Some index => Some (UpdateDiffers index (length changed) (length removed))
        | None => delta_mismatch deltas (all_changed_keys kinds before fresh)
        end in
      Some ({| rb_interner := interner table; rb_fingerprints := fingerprints;
               rb_sources := sources; rb_indexes := fresh |},
            Some {| changed_files := length changed; edited_files := length edited;
                    removed_files := length removed;
                    delta_keys := sum_list (length <$> deltas.*2); mismatch := found |})
  end.
End views.

Arguments RetainedBase {File} Path {_ _} Hash kinds.
Arguments rb_interner {File Path _ _ Hash kinds} _.
Arguments rb_fingerprints {File Path _ _ Hash kinds} _.
Arguments rb_sources {File Path _ _ Hash kinds} _.
Arguments rb_indexes {File Path _ _ Hash kinds} _.
