(* ===== verification/BaseSpec.v ===== *)
(** * A base index is a function of its contributions

    [index_ok]: under every key the postings are those its files'
    contributions give, in file order, so an index in order is determined by
    its contributions. [fold] builds one, and [update] keeps it so while it
    names exactly the keys whose ranked values change. *)
From S2P Require Import Prelude Order BaseIndex FileTable.

Definition nonempty {A} (l : list A) : option (list A) :=
  match l with [] => None | _ => Some l end.

Lemma nonempty_default {A} (l : list A) : default [] (nonempty l) = l.
Proof. by destruct l. Qed.

Lemma nonempty_snoc {A} (l : list A) a : nonempty (l ++ [a]) = Some (l ++ [a]).
Proof. by destruct l. Qed.

Lemma join_cons {A} (l : list A) ls : mjoin (l :: ls) = l ++ mjoin ls.
Proof. done. Qed.

(** A fold keeps what each of its steps extends by the element it takes. *)
Lemma foldl_ind {S A} (P : list A → S → Prop) (f : S → A → S) l s :
  P [] s →
  (∀ done s a rest, l = done ++ a :: rest → P done s → P (done ++ [a]) (f s a)) →
  P l (foldl f s l).
Proof.
  intros H0 Hstep.
  enough (Hgen : ∀ rest done s, l = done ++ rest → P done s → P l (foldl f s rest)) by (by apply (Hgen l [])).
  intros rest. induction rest as [|a rest IH]; intros done s' Hl HP; simpl.
  - by rewrite app_nil_r in Hl; subst.
  - apply (IH (done ++ [a])); [by rewrite <-app_assoc|]. by eapply Hstep.
Qed.

(** The next key of a map's rows is one the rows before it do not have. *)
Lemma map_rows_next {K A} `{Countable K} (m : gmap K A) done k a rest :
  map_to_list m = done ++ (k, a) :: rest → m !! k = Some a ∧ k ∉ done.*1.
Proof.
  intros E. split.
  - apply elem_of_map_to_list. rewrite E. apply elem_of_app. right. by left.
  - pose proof (NoDup_fst_map_to_list m) as Hnd. rewrite E, fmap_app, fmap_cons in Hnd.
    apply NoDup_app in Hnd as (_ & Hnd & _). intros Hin. apply (Hnd k Hin). by left.
Qed.

(** ** Lists in file order *)

Section rows.
Context {A : Type}.
Implicit Types l : list (nat * A).

Definition file_lt (x y : nat * A) : Prop := x.1 < y.1.

Definition rows_below (file : nat) l : list (nat * A) := filter (λ r, r.1 < file) l.
Definition rows_above (file : nat) l : list (nat * A) := filter (λ r, file < r.1) l.
Definition rows_without (file : nat) l : list (nat * A) := filter (λ r, r.1 ≠ file) l.
Definition rows_with (file : nat) (a : A) l : list (nat * A) :=
  rows_below file l ++ (file, a) :: rows_above file l.

Lemma file_sorted_ext l k : StronglySorted file_lt l → StronglySorted file_lt k →
  (∀ r, r ∈ l ↔ r ∈ k) → l = k.
Proof.
  revert k. induction l as [|x l IH]; intros k Hl Hk Hin.
  { destruct k as [|y k]; [done|]. exfalso. eapply not_elem_of_nil. apply Hin. by left. }
  destruct k as [|y k]; [exfalso; eapply not_elem_of_nil; apply Hin; by left|].
  apply StronglySorted_inv in Hl as [Hl Hx], Hk as [Hk Hy]. rewrite Forall_forall in Hx, Hy.
  assert (Hxy : x ∈ y :: k) by (apply Hin; by left).
  assert (Hyx : y ∈ x :: l) by (apply Hin; by left).
  assert (x = y) as ->.
  { apply elem_of_cons in Hxy as [Hxy|Hxy]; [done|]. apply elem_of_cons in Hyx as [Hyx|Hyx]; [done|].
    apply Hx in Hyx. apply Hy in Hxy. unfold file_lt in *. lia. }
  f_equal. apply IH; [done|done|]. intros r.
  assert (Hne : ∀ m : list (nat * A), r ∈ m → (∀ z, z ∈ m → file_lt y z) → r ≠ y).
  { intros m Hm Hz ->. apply Hz in Hm. unfold file_lt in Hm. lia. }
  specialize (Hin r). rewrite !elem_of_cons in Hin. split; intros Hr.
  - destruct (proj1 Hin (or_intror Hr)) as [E|?]; [by destruct (Hne l Hr Hx)|done].
  - destruct (proj2 Hin (or_intror Hr)) as [E|?]; [by destruct (Hne k Hr Hy)|done].
Qed.

Lemma file_sorted_filter (P : nat * A → Prop) `{!∀ x, Decision (P x)} l :
  StronglySorted file_lt l → StronglySorted file_lt (filter P l).
Proof.
  induction 1 as [|x l Hl IH Hx]; [constructor|]. rewrite filter_cons. destruct (decide (P x)); [|done].
  constructor; [done|]. rewrite Forall_forall in *. intros y [_ Hy]%list_elem_of_filter. auto.
Qed.

Lemma file_sorted_app l k : StronglySorted file_lt l → StronglySorted file_lt k →
  (∀ x y, x ∈ l → y ∈ k → file_lt x y) → StronglySorted file_lt (l ++ k).
Proof.
  induction 1 as [|x l Hl IH Hx]; intros Hk Hlk; [done|]. simpl. constructor.
  - apply IH; [done|]. intros a b Ha. apply Hlk. by right.
  - apply Forall_app. split; [done|]. apply Forall_forall. intros y Hy. apply Hlk; [by left|done].
Qed.

Lemma rows_with_sorted file a l : StronglySorted file_lt l → StronglySorted file_lt (rows_with file a l).
Proof.
  intros Hl. apply file_sorted_app; [by apply file_sorted_filter| |].
  - constructor; [by apply file_sorted_filter|]. apply Forall_forall.
    by intros y [Hy _]%list_elem_of_filter.
  - intros x y [Hx _]%list_elem_of_filter Hy. unfold file_lt.
    apply elem_of_cons in Hy as [->|[Hy _]%list_elem_of_filter]; simpl in *; lia.
Qed.

Lemma elem_of_rows_with file a l r : r ∈ rows_with file a l ↔ r = (file, a) ∨ r ∈ l ∧ r.1 ≠ file.
Proof.
  unfold rows_with, rows_below, rows_above. rewrite elem_of_app, elem_of_cons, !list_elem_of_filter.
  split; [|intros [->|[Hr Hne]]].
  - intros [[? ?]|[->|[? ?]]]; [right; split; [done|lia]|by left|right; split; [done|lia]].
  - right. by left.
  - destruct (decide (r.1 < file)); [by left|]. right. right. split; [lia|done].
Qed.

Lemma leading_split file l : StronglySorted file_lt l →
  let i := leading (λ r, r.1 <? file)%nat l in
  take i l = rows_below file l ∧
  drop i l = (match l !! i with Some r => if decide (r.1 = file) then [r] else [] | None => [] end)
    ++ rows_above file l ∧
  (∀ r, l !! i = Some r → r.1 = file → i < length l).
Proof.
  intros Hl. cbv zeta. induction Hl as [|x l Hl IH Hx]; simpl.
  { split_and!; [done|done|]. by intros r. }
  rewrite Forall_forall in Hx. destruct (Nat.ltb_spec x.1 file) as [Hlt|Hge].
  - destruct IH as (H1 & H2 & H3). simpl. unfold rows_below, rows_above.
    rewrite filter_cons_True by done. rewrite filter_cons_False by lia. split_and!.
    + f_equal. exact H1.
    + exact H2.
    + intros r Hr Hf. pose proof (H3 r Hr Hf). lia.
  - assert (Hb : ∀ (P : nat * A → Prop) (HP : ∀ y, Decision (P y)),
      (∀ y, y ∈ l → ¬ P y) → filter P l = []).
    { intros P HP Hno. destruct (filter P l) as [|y k] eqn:E; [done|]. exfalso.
      assert (Hy : y ∈ filter P l) by (rewrite E; by left).
      apply list_elem_of_filter in Hy as [? ?]. by eapply Hno. }
    assert (Ha : rows_above file l = l).
    { clear -Hx Hge. unfold rows_above. induction l as [|y l IH]; [done|].
      rewrite filter_cons_True; [|pose proof (Hx y ltac:(by left)); unfold file_lt in *; lia].
      f_equal. apply IH. intros z Hz. apply Hx. by right. }
    simpl. unfold rows_below. rewrite filter_cons_False by lia. split_and!.
    + symmetry. apply Hb. intros y Hy. pose proof (Hx y Hy). unfold file_lt in *. lia.
    + unfold rows_above in *. destruct (decide (x.1 = file)).
      * rewrite filter_cons_False by lia. simpl. by rewrite Ha.
      * rewrite filter_cons_True by lia. simpl. by rewrite Ha.
    + intros. lia.
Qed.
End rows.

(** ** Postings *)

Lemma posting_at_remove (l : list Posting) file : StronglySorted file_lt l →
  match posting_at l file with inl i => delete i l | inr _ => l end = rows_without file l.
Proof.
  intros Hl. unfold posting_at. destruct (leading_split file l Hl) as (Ht & Hd & Hi).
  set (i := leading (λ r : Posting, r.1 <? file)%nat l) in *.
  assert (Hw : rows_below file l ++ rows_above file l = rows_without file l).
  { apply file_sorted_ext.
    - apply file_sorted_app; try by apply file_sorted_filter.
      intros x y [? _]%list_elem_of_filter [? _]%list_elem_of_filter. unfold file_lt. lia.
    - by apply file_sorted_filter.
    - intros r. unfold rows_below, rows_above, rows_without.
      rewrite elem_of_app, !list_elem_of_filter. split; [intros [[? ?]|[? ?]]; (split; [lia|done])|].
      intros [? ?]. destruct (decide (r.1 < file)); [by left|right]. split; [lia|done]. }
  destruct (l !! i) as [r|] eqn:E.
  - destruct (decide (r.1 = file)) as [Hr|Hr].
    + rewrite delete_take_drop, Ht, <-Hw. f_equal.
      rewrite (drop_S l r i E) in Hd. simpl in Hd. by injection Hd as ->.
    + simpl in Hd. by rewrite <-Hw, <-Ht, <-Hd, take_drop.
  - simpl in Hd. by rewrite <-Hw, <-Ht, <-Hd, take_drop.
Qed.

Lemma posting_at_put (l : list Posting) file positions : StronglySorted file_lt l →
  match posting_at l file with
  | inl i => <[i := (file, positions)]> l
  | inr i => take i l ++ (file, positions) :: drop i l
  end = rows_with file positions l.
Proof.
  intros Hl. unfold posting_at. destruct (leading_split file l Hl) as (Ht & Hd & Hi).
  set (i := leading (λ r : Posting, r.1 <? file)%nat l) in *. unfold rows_with.
  destruct (l !! i) as [r|] eqn:E.
  - destruct (decide (r.1 = file)) as [Hr|Hr].
    + rewrite insert_take_drop by (by eapply Hi). rewrite Ht. f_equal. f_equal.
      rewrite (drop_S l r i E) in Hd. simpl in Hd. by injection Hd as ->.
    + simpl in Hd. by rewrite Ht, Hd.
  - simpl in Hd. by rewrite Ht, Hd.
Qed.

Section index.
Context {K C : Type} `{Countable K} `{EqDecision C}.
Implicit Types c : FileContribution K C.
Implicit Types files : gmap nat (FileContribution K C).
Implicit Types index : BaseIndex K C.

(** ** What a contribution gives a key *)

(** Every [u32] the code checks fits. *)
Definition sized c : Prop := (Z.of_nat (length (entries c)) < 2 ^ 32)%Z.

Definition positions c (key : K) : list nat :=
  (filter (λ entry, entry.2.1 = key) (zip (seq 0 (length (entries c))) (entries c))).*1.

Lemma zip_seq_lookup {A} n (l : list A) k x : (k, x) ∈ zip (seq n (length l)) l →
  n ≤ k < n + length l ∧ l !! (k - n) = Some x.
Proof.
  revert n. induction l as [|y l IH]; intros n; simpl; [by intros ?%elem_of_nil|].
  intros [[= -> ->]|Hin]%elem_of_cons.
  - split; [lia|]. by rewrite Nat.sub_diag.
  - apply IH in Hin as [? Hl]. split; [lia|]. by replace (k - n) with (S (k - S n)) by lia.
Qed.

Lemma positions_by_key_spec c : sized c →
  ∃ grouped, positions_by_key c = Some grouped ∧
    ∀ key, grouped !! key = nonempty (positions c key).
Proof.
  intros Hs. unfold positions_by_key, positions.
  destruct (foldM_spec (λ done grouped, ∀ key : K,
      grouped !! key = nonempty (filter (λ entry, entry.2.1 = key) done).*1)
    push_position (zip (seq 0 (length (entries c))) (entries c)) ∅) as (grouped & -> & Hg).
  - intros key. by rewrite lookup_empty.
  - intros done grouped [position [key value]] rest E Hg. unfold push_position. cbn [fst snd].
    assert (Hin : (position, (key, value)) ∈ zip (seq 0 (length (entries c))) (entries c)).
    { rewrite E. apply elem_of_app. right. by left. }
    apply zip_seq_lookup in Hin as [? _]. unfold sized in Hs. rewrite u32_try_from_spec by lia.
    eexists. split; [reflexivity|]. intros key'. rewrite filter_app, fmap_app, filter_cons. cbn [fst snd].
    rewrite lookup_insert. destruct (decide (key = key')) as [<-|Hne].
    + rewrite Hg, nonempty_default. simpl. by rewrite nonempty_snoc.
    + rewrite Hg. simpl. by rewrite app_nil_r.
  - by exists grouped.
Qed.

(** The ranked values of a key in a contribution. *)
Definition ranked_of (c : option (FileContribution K C)) (key : K) : list (nat * C) :=
  match c with
  | Some c => (λ entry, (rank_of c entry.1, entry.2.2)) <$>
      filter (λ entry, entry.2.1 = key) (zip (seq 0 (length (entries c))) (entries c))
  | None => []
  end.

Lemma ranked_positions c key :
  mapM (ranked_entry c) (positions c key) = Some (ranked_of (Some c) key).
Proof.
  unfold positions, ranked_of. apply mapM_Some.
  assert (Hz : ∀ e, e ∈ filter (λ entry, entry.2.1 = key)
      (zip (seq 0 (length (entries c))) (entries c)) → entries c !! e.1 = Some e.2).
  { intros [k x] [_ Hin]%list_elem_of_filter. apply zip_seq_lookup in Hin as [_ Hx].
    by rewrite Nat.sub_0_r in Hx. }
  induction (filter _ _) as [|e l IH]; [constructor|]. rewrite !fmap_cons. constructor.
  - unfold ranked_entry. rewrite (Hz e) by (by left). done.
  - apply IH. intros e' He'. apply Hz. by right.
Qed.

Lemma positions_nil c key : positions c key = [] ↔ ranked_of (Some c) key = [].
Proof. unfold positions, ranked_of. by destruct (filter _ _). Qed.

(** ** What the files give a key *)

Definition posting_of files (key : K) (file : nat) : option Posting :=
  c ← files !! file; ps ← nonempty (positions c key); Some (file, ps).

Definition postings_of files (key : K) : list Posting :=
  omap (posting_of files key) (ascending (dom files)).

Lemma posting_of_file files key file p : posting_of files key file = Some p → p.1 = file.
Proof.
  unfold posting_of. destruct (files !! file); [|done]. simpl.
  destruct (nonempty _); [|done]. by intros [= <-].
Qed.

Lemma elem_of_postings_of files key p :
  p ∈ postings_of files key ↔ posting_of files key p.1 = Some p.
Proof.
  unfold postings_of. rewrite list_elem_of_omap. split.
  - intros (file & _ & Hp). by rewrite (posting_of_file _ _ _ _ Hp).
  - intros Hp. exists p.1. split; [|done]. apply elem_of_ascending, elem_of_dom.
    unfold posting_of in Hp. destruct (files !! p.1); [by eexists|done].
Qed.

Lemma ascending_lt (s : gset nat) : StronglySorted lt (ascending s).
Proof.
  pose proof (ascending_sorted s) as Hs. pose proof (ascending_NoDup s) as Hnd.
  apply (Sorted_StronglySorted _) in Hs. induction Hs as [|x l Hs IH Hx]; [constructor|].
  apply NoDup_cons in Hnd as [Hx' Hnd]. constructor; [by apply IH|].
  rewrite Forall_forall in *. intros y Hy. pose proof (Hx y Hy).
  assert (x ≠ y) by (by intros ->). lia.
Qed.

Lemma postings_of_sorted files key : StronglySorted file_lt (postings_of files key).
Proof.
  unfold postings_of. induction (ascending_lt (dom files)) as [|x l Hl IH Hx]; [constructor|].
  simpl. destruct (posting_of files key x) as [p|] eqn:E; [|done]. constructor; [done|].
  rewrite Forall_forall in Hx. apply Forall_forall. intros q (file & Hf & Hq)%list_elem_of_omap.
  unfold file_lt. rewrite (posting_of_file _ _ _ _ E), (posting_of_file _ _ _ _ Hq). by apply Hx.
Qed.

Lemma postings_of_delete files key file :
  postings_of (delete file files) key = rows_without file (postings_of files key).
Proof.
  apply file_sorted_ext; [apply postings_of_sorted|apply file_sorted_filter, postings_of_sorted|].
  intros p. unfold rows_without. rewrite list_elem_of_filter, !elem_of_postings_of. unfold posting_of.
  destruct (decide (p.1 = file)) as [->|Hne].
  - rewrite lookup_delete_eq. by split; [|intros []].
  - rewrite lookup_delete_ne by done. by split; [|intros []].
Qed.

Lemma postings_of_insert files key file c :
  postings_of (<[file := c]> files) key =
    match nonempty (positions c key) with
    | Some ps => rows_with file ps (postings_of files key)
    | None => rows_without file (postings_of files key)
    end.
Proof.
  pose proof (postings_of_sorted files key) as Hs.
  apply file_sorted_ext; [apply postings_of_sorted| |].
  - destruct (nonempty _); [by apply rows_with_sorted|by apply file_sorted_filter].
  - intros p. rewrite elem_of_postings_of. unfold posting_of at 1.
    destruct (decide (p.1 = file)) as [Hp|Hne].
    + rewrite Hp, lookup_insert_eq. simpl. destruct (nonempty _) as [ps|]; simpl.
      * rewrite elem_of_rows_with. split; [by intros [= <-]; left|].
        intros [->|[_ ?]]; done.
      * unfold rows_without. rewrite list_elem_of_filter. by split; [|intros [? _]].
    + rewrite lookup_insert_ne by done. fold (posting_of files key p.1). destruct (nonempty _).
      * rewrite elem_of_rows_with, elem_of_postings_of. split; [by right|].
        intros [->|[? _]]; done.
      * unfold rows_without. rewrite list_elem_of_filter, elem_of_postings_of. by split; [|intros [_ ?]].
Qed.

Lemma rows_without_absent files key file : files !! file = None →
  rows_without file (postings_of files key) = postings_of files key.
Proof. intros Hf. by rewrite <-postings_of_delete, delete_id. Qed.

(** ** Order *)

Record index_ok index : Prop := {
  ok_files : ∀ file c, by_file index !! file = Some c → has_entries c = true ∧ sized c;
  ok_keys : ∀ key, by_key index !! key = nonempty (postings_of (by_file index) key)
}.

(** An index in order is determined by its contributions. *)
Lemma index_ok_ext index other : index_ok index → index_ok other →
  by_file index = by_file other → index = other.
Proof.
  intros [_ H1] [_ H2] E. destruct index as [f1 k1], other as [f2 k2]. simpl in *. subst f2. f_equal.
  apply map_eq. intros key. by rewrite H1, H2.
Qed.

Lemma base_default_ok : index_ok base_default.
Proof.
  split; unfold base_default; simpl; [intros file c; by rewrite lookup_empty|]. intros key.
  rewrite lookup_empty. unfold postings_of. by rewrite dom_empty_L.
Qed.

(** ** One file replaced *)

Definition kept_next (next : option (FileContribution K C)) : option (FileContribution K C) :=
  c ← next; if has_entries c then Some c else None.

Lemma grouped_of_spec (c : option (FileContribution K C)) : (∀ c', c = Some c' → sized c') →
  ∃ grouped, grouped_of c = Some grouped ∧
    ∀ key, grouped !! key = (c ← c; nonempty (positions c key)).
Proof.
  intros Hs. destruct c as [c|]; simpl.
  - by apply positions_by_key_spec, Hs.
  - exists ∅. split; [done|]. intros key. apply lookup_empty.
Qed.

Lemma ranked_entries_spec (c : option (FileContribution K C)) key ps :
  (c ← c; nonempty (positions c key)) = Some ps → ranked_entries c ps = Some (ranked_of c key).
Proof.
  destruct c as [c|]; [|done]. simpl. intros Hps.
  assert (ps = positions c key) as -> by (destruct (positions c key); simpl in Hps; congruence).
  apply ranked_positions.
Qed.

Lemma ranked_none (c : option (FileContribution K C)) key :
  (c ← c; nonempty (positions c key)) = None ↔ ranked_of c key = [].
Proof.
  destruct c as [c|]; [|done]. cbn [mbind option_bind]. rewrite <-positions_nil. by destruct (positions c key).
Qed.

Section replace.
Context (index : BaseIndex K C) (file : nat) (next : option (FileContribution K C)).
Context (old new : gmap K (list nat)) (delta0 : gset K).
Let previous := by_file index !! file.
Let L key := postings_of (by_file index) key.
Hypothesis Hok : index_ok index.
Hypothesis Hold : ∀ key, old !! key = (c ← previous; nonempty (positions c key)).
Hypothesis Hnew : ∀ key, new !! key = (c ← next; nonempty (positions c key)).

Lemma retire_spec :
  ∃ postings delta,
    foldM (retire_key file previous next new) (by_key index, delta0) (map_to_list old) =
      Some (postings, delta) ∧
    (∀ key, postings !! key =
       if decide (is_Some (old !! key) ∧ new !! key = None)
       then nonempty (rows_without file (L key)) else nonempty (L key)) ∧
    (∀ key, key ∈ delta ↔
       key ∈ delta0 ∨ is_Some (old !! key) ∧ ranked_of previous key ≠ ranked_of next key).
Proof.
  destruct (foldM_spec (λ done state,
      (∀ key, state.1 !! key = if decide (key ∈ done.*1 ∧ new !! key = None)
         then nonempty (rows_without file (L key)) else nonempty (L key)) ∧
      (∀ key, key ∈ state.2 ↔
         key ∈ delta0 ∨ key ∈ done.*1 ∧ ranked_of previous key ≠ ranked_of next key))
    (retire_key file previous next new) (map_to_list old) (by_key index, delta0))
    as ([postings delta] & E & Hp & Hd).
  - split; cbn [fst snd].
    + intros key. rewrite decide_False by (by intros [?%elem_of_nil _]). by apply ok_keys.
    + intros key. split; [by left|]. by intros [?|[?%elem_of_nil _]].
  - intros done [postings delta] [key ps] rest E [Hp Hd]. cbn [fst snd] in *.
    destruct (map_rows_next _ _ _ _ _ E) as [Hkey Hnin]. rewrite Hold in Hkey.
    assert (Hstep : ∀ b (post : gmap K (list Posting)), (b = true ↔ ranked_of previous key ≠ ranked_of next key) →
      (∀ key', post !! key' = if decide (key' = key) then
         if decide (new !! key = None) then nonempty (rows_without file (L key)) else nonempty (L key)
         else postings !! key') →
      (∀ key', post !! key' = if decide (key' ∈ (done ++ [(key, ps)]).*1 ∧ new !! key' = None)
         then nonempty (rows_without file (L key')) else nonempty (L key')) ∧
      (∀ key', key' ∈ (if b : bool then {[key]} ∪ delta else delta) ↔
         key' ∈ delta0 ∨ key' ∈ (done ++ [(key, ps)]).*1 ∧ ranked_of previous key' ≠ ranked_of next key')).
    { intros b post Hb Hpost. split; intros key'; rewrite fmap_app; cbn [fmap list_fmap fst].
      - rewrite Hpost. destruct (decide (key' = key)) as [->|Hne].
        + destruct (decide (new !! key = None)) as [Hn|Hn].
          * rewrite decide_True; [done|]. split; [set_solver|done].
          * by rewrite decide_False by tauto.
        + rewrite Hp. apply decide_ext. set_solver.
      - destruct b.
        + assert (Hc : ranked_of previous key ≠ ranked_of next key) by (by apply Hb).
          rewrite elem_of_union, elem_of_singleton, Hd. set_solver.
        + assert (Hc : ¬ ranked_of previous key ≠ ranked_of next key) by (intros Hc; by apply Hb in Hc).
          rewrite Hd. set_solver. }
    unfold retire_key. destruct (new !! key) as [new_ps|] eqn:En.
    + pose proof En as En'. rewrite Hnew in En'.
      rewrite (ranked_entries_spec _ _ _ En'), (ranked_entries_spec _ _ _ Hkey).
      cbn [mbind option_bind]. eexists. split; [reflexivity|]. cbn [fst snd].
      apply (Hstep (bool_decide _)); [apply bool_decide_eq_true|].
      intros key'. destruct (decide (key' = key)) as [->|]; [|done].
      rewrite Hp. destruct (decide (new !! key = None)); [congruence|]. by rewrite decide_False by tauto.
    + cbn [mbind option_bind].
      assert (Hl : postings !! key = Some (L key)).
      { rewrite Hp, decide_False by tauto. destruct previous as [c|] eqn:Ec; [|done]. simpl in Hkey.
        assert (Hin : (file, ps) ∈ L key).
        { apply elem_of_postings_of. unfold posting_of. cbn [fst]. fold previous. rewrite Ec. simpl.
          by rewrite Hkey. }
        destruct (L key); [by apply elem_of_nil in Hin|done]. }
      rewrite Hl. cbn [mbind option_bind].
      rewrite (posting_at_remove (L key) file) by apply postings_of_sorted.
      assert (Hrank : ranked_of previous key ≠ ranked_of next key).
      { assert (ranked_of next key = []) as -> by (apply ranked_none; by rewrite <-Hnew).
        intros Hr. apply ranked_none in Hr. congruence. }
      eexists. split; [reflexivity|]. cbn [fst snd]. apply (Hstep true); [by split|].
      intros key'. destruct (decide (key' = key)) as [->|Hne].
      * rewrite decide_True by done. destruct (rows_without file (L key)); simpl; [apply lookup_delete_eq|apply lookup_insert_eq].
      * destruct (rows_without file (L key)); [by apply lookup_delete_ne|by apply lookup_insert_ne].
  - exists postings, delta. split; [done|].
    assert (Hin : ∀ key, key ∈ (map_to_list old).*1 ↔ is_Some (old !! key)).
    { intros key. rewrite list_elem_of_fmap. split.
      - intros ([k ps] & -> & ?%elem_of_map_to_list). by eexists.
      - intros [ps ?]. exists (key, ps). split; [done|]. by apply elem_of_map_to_list. }
    split; intros key.
    + rewrite Hp. apply decide_ext. by rewrite Hin.
    + by rewrite Hd, Hin.
Qed.

Lemma post_spec postings delta :
  (∀ key, postings !! key =
     if decide (is_Some (old !! key) ∧ new !! key = None)
     then nonempty (rows_without file (L key)) else nonempty (L key)) →
  let '(postings', delta') := foldl (post_key file old) (postings, delta) (map_to_list new) in
  (∀ key, postings' !! key =
     match new !! key with
     | Some ps => Some (rows_with file ps (L key))
     | None => nonempty (rows_without file (L key))
     end) ∧
  (∀ key, key ∈ delta' ↔ key ∈ delta ∨ is_Some (new !! key) ∧ old !! key = None).
Proof.
  intros Hmid.
  pose (P := λ (done : list (K * list nat)) (state : gmap K (list Posting) * gset K),
    (∀ key, state.1 !! key = match (if decide (key ∈ done.*1) then new !! key else None) with
       | Some ps => Some (rows_with file ps (L key)) | None => postings !! key end) ∧
    (∀ key, key ∈ state.2 ↔ key ∈ delta ∨ key ∈ done.*1 ∧ old !! key = None)).
  assert (Hgen : P (map_to_list new) (foldl (post_key file old) (postings, delta) (map_to_list new))).
  { apply (foldl_ind P); unfold P; clear P.
    - split; [done|]. intros key. cbn [snd]. split; [by left|]. by intros [?|[?%elem_of_nil _]].
    - intros done [posts delta1] [key ps] rest E [Hp Hd]. cbn [fst snd] in *.
      destruct (map_rows_next _ _ _ _ _ E) as [Hkey Hnin]. unfold post_key. cbn [fst snd].
      split; intros key'; rewrite fmap_app; cbn [fmap list_fmap fst].
      + destruct (decide (key' = key)) as [->|Hne].
        * rewrite lookup_insert_eq, decide_True by set_solver. rewrite Hkey.
          rewrite Hp, decide_False by done. rewrite Hmid, decide_False by (rewrite Hkey; naive_solver).
          rewrite nonempty_default. f_equal. apply posting_at_put, postings_of_sorted.
        * rewrite lookup_insert_ne, Hp by done.
          destruct (decide (key' ∈ done.*1)); [by rewrite decide_True by set_solver|].
          by rewrite decide_False by set_solver.
      + destruct (old !! key) eqn:Eo; [rewrite Hd|rewrite elem_of_union, elem_of_singleton, Hd];
          rewrite elem_of_app, list_elem_of_singleton; naive_solver. }
  destruct (foldl _ _ _) as [postings' delta']. cbn [fst snd] in Hgen. destruct Hgen as [Hp Hd].
  assert (Hin : ∀ key, key ∈ (map_to_list new).*1 ↔ is_Some (new !! key)).
  { intros key. rewrite list_elem_of_fmap. split.
    - intros ([k ps] & -> & ?%elem_of_map_to_list). by eexists.
    - intros [ps ?]. exists (key, ps). split; [done|]. by apply elem_of_map_to_list. }
  split; intros key; [|by rewrite Hd, Hin].
  rewrite Hp. destruct (new !! key) as [ps|] eqn:En.
  - rewrite decide_True; [done|]. apply Hin. by eexists.
  - rewrite decide_False by (rewrite Hin, En; by intros []). rewrite Hmid, En.
    destruct (old !! key) as [ops|] eqn:Eo; [by rewrite decide_True by (by split; [eexists|])|].
    rewrite decide_False by (intros [[] _]; done). f_equal. symmetry.
    destruct (decide (previous = None)) as [Hn|Hn]; [by apply rows_without_absent|].
    apply file_sorted_ext; [apply file_sorted_filter, postings_of_sorted|apply postings_of_sorted|].
    intros p. unfold rows_without. rewrite list_elem_of_filter. split; [by intros [_ ?]|].
    intros Hpin. split; [|done]. intros Hpf. apply elem_of_postings_of in Hpin.
    unfold posting_of in Hpin. rewrite Hpf in Hpin. fold previous in Hpin. rewrite Hold in Eo.
    destruct previous as [c|]; [|done]. cbn [mbind option_bind] in *. by rewrite Eo in Hpin.
Qed.
End replace.

Definition with_file (files : gmap nat (FileContribution K C)) (file : nat)
    (next : option (FileContribution K C)) : gmap nat (FileContribution K C) :=
  match kept_next next with Some c => <[file := c]> files | None => delete file files end.

Lemma replaced_file_spec index delta file next : index_ok index →
  (∀ c, next = Some c → sized c) →
  ∃ index' delta', update_file (index, delta) file next = Some (index', delta') ∧
    index_ok index' ∧ by_file index' = with_file (by_file index) file next ∧
    ∀ key, key ∈ delta' ↔ key ∈ delta ∨
      ranked_of (by_file index !! file) key ≠ ranked_of (kept_next next) key.
Proof.
  intros Hok Hsz. unfold update_file. fold (kept_next next).
  assert (Hk : ∀ c, kept_next next = Some c → has_entries c = true ∧ sized c).
  { intros c. unfold kept_next. destruct next as [c'|]; [|done]. simpl.
    destruct (has_entries c') eqn:E; [|done]. intros [= <-]. split; [done|by apply Hsz]. }
  destruct (grouped_of_spec (by_file index !! file)) as (old & Eo & Hold).
  { intros c Hc. by apply (ok_files _ Hok) in Hc as [_ ?]. }
  destruct (grouped_of_spec (kept_next next)) as (new & En & Hnew).
  { intros c Hc. by apply Hk in Hc as [_ ?]. }
  rewrite Eo, En. cbn [mbind option_bind].
  destruct (retire_spec index file (kept_next next) old new delta Hok Hold Hnew)
    as (postings & delta1 & -> & Hp & Hd). cbn [mbind option_bind].
  pose proof (post_spec index file (kept_next next) old new Hok Hold Hnew postings delta1 Hp) as Hpost.
  destruct (foldl _ _ _) as [postings' delta']. destruct Hpost as [Hp' Hd'].
  do 2 eexists. split; [reflexivity|].
  assert (Hfiles : match kept_next next with
      | Some c => <[file:=c]> (delete file (by_file index)) | None => delete file (by_file index) end =
    with_file (by_file index) file next).
  { unfold with_file. destruct (kept_next next); [by rewrite insert_delete_eq|done]. }
  rewrite Hfiles. split_and!; [split| |].
  - cbn [by_file]. intros f c. unfold with_file. destruct (kept_next next) as [c'|] eqn:E.
    + rewrite lookup_insert. case_decide; [intros [= <-]; by apply Hk|]. apply (ok_files _ Hok).
    + intros [_ Hf]%lookup_delete_Some. by eapply ok_files.
  - cbn [by_file by_key]. intros key. rewrite Hp'. unfold with_file. rewrite Hnew.
    destruct (kept_next next) as [c|]; cbn [mbind option_bind].
    + rewrite postings_of_insert. destruct (nonempty (positions c key)); [|done].
      unfold rows_with. by destruct (rows_below file _).
    + by rewrite postings_of_delete.
  - done.
  - intros key. rewrite Hd', Hd. rewrite Hold, Hnew.
    pose proof (ranked_none (by_file index !! file) key) as Hro.
    pose proof (ranked_none (kept_next next) key) as Hrn.
    destruct (c ← by_file index !! file; nonempty (positions c key)) as [ps|].
    + split; [intros [[?|[_ ?]]|[_ ?]]; naive_solver|].
      intros [?|?]; left; [by left|]. right. split; [by eexists|done].
    + rewrite (proj1 Hro eq_refl). destruct (c ← kept_next next; nonempty (positions c key)) as [ps'|].
      * split; [intros [[?|[[? ?] _]]|[_ _]]|]; [by left|done| |].
        -- right. intros E. symmetry in E. by apply Hrn in E.
        -- intros [?|?]; [by left; left|]. right. split; [by eexists|done].
      * rewrite (proj1 Hrn eq_refl). split; [intros [[?|[[? ?] _]]|[[? ?] _]]; by left|].
        intros [?|?]; [by left; left|done].
Qed.

(** ** Many files replaced *)

(** The contributions after a list of changes: one after another. *)
Definition changed_to (files : gmap nat (FileContribution K C))
    (changes : list (nat * option (FileContribution K C))) : gmap nat (FileContribution K C) :=
  foldl (λ files change, with_file files change.1 change.2) files changes.

Lemma with_file_lookup files file next f :
  with_file files file next !! f = if decide (f = file) then kept_next next else files !! f.
Proof.
  unfold with_file. destruct (kept_next next) as [c|].
  - rewrite lookup_insert. destruct (decide (f = file)) as [->|Hne]; [by rewrite decide_True|].
    by rewrite decide_False by congruence.
  - destruct (decide (f = file)) as [->|Hne]; [apply lookup_delete_eq|by rewrite lookup_delete_ne].
Qed.

(** What the listing of changes holds: each file once, with its last change. *)
Definition listed (changes : list (nat * option (FileContribution K C)))
    (state : gmap nat (option (FileContribution K C)) * list nat) : Prop :=
  NoDup state.2 ∧ (∀ file, file ∈ state.2 ↔ is_Some (state.1 !! file)) ∧
  (∀ file next, state.1 !! file = Some next → (file, next) ∈ changes) ∧
  ∀ files file, changed_to files changes !! file =
    match state.1 !! file with Some next => kept_next next | None => files !! file end.

Lemma list_change_spec (changes : list (nat * option (FileContribution K C))) :
  listed changes (foldl list_change (∅, []) changes).
Proof.
  apply (foldl_ind listed); unfold listed.
  - split_and!; simpl; [constructor| | |].
    + intros file. rewrite lookup_empty. split; [by intros ?%elem_of_nil|by intros []].
    + intros file next. by rewrite lookup_empty.
    + intros files file. by rewrite lookup_empty.
  - intros done [last order] [file next] rest _ (H1 & H2 & H3 & H4). cbn [fst snd] in *.
    unfold list_change. cbn [fst snd]. split_and!.
    + destruct (last !! file) eqn:E; [done|]. apply NoDup_app. split_and!; [done| |apply NoDup_singleton].
      intros f Hf ->%list_elem_of_singleton. apply H2 in Hf. rewrite E in Hf. by destruct Hf.
    + intros f. rewrite lookup_insert. destruct (last !! file) as [n|] eqn:E.
      * rewrite H2. destruct (decide (file = f)) as [<-|]; [|done]. rewrite E. by split; eexists.
      * rewrite elem_of_app, list_elem_of_singleton, H2. destruct (decide (file = f)) as [<-|Hne].
        -- split; [by eexists|by right].
        -- split; [by intros [?| ->]|by left].
    + intros f n. rewrite lookup_insert, elem_of_app, list_elem_of_singleton.
      destruct (decide (file = f)) as [<-|]; [intros [= <-]; by right|left; by apply H3].
    + intros files f. unfold changed_to. rewrite foldl_app. cbn [foldl fst snd].
      rewrite with_file_lookup, lookup_insert. fold (changed_to files done).
      destruct (decide (f = file)) as [->|Hne]; [by rewrite decide_True|].
      rewrite decide_False by congruence. apply H4.
Qed.

Definition changes_sized (changes : list (nat * option (FileContribution K C))) : Prop :=
  ∀ file c, (file, Some c) ∈ changes → sized c.

Lemma update_steps index changes : index_ok index → changes_sized changes →
  ∃ index' delta, update index changes = Some (index', delta) ∧ index_ok index' ∧
    by_file index' = changed_to (by_file index) changes ∧
    ∀ key, key ∈ delta ↔ ∃ file,
      ranked_of (by_file index !! file) key ≠ ranked_of (by_file index' !! file) key.
Proof.
  intros Hok Hsz. unfold update. pose proof (list_change_spec changes) as Hl.
  destruct (foldl list_change (∅, []) changes) as [last order]. destruct Hl as (Hnd & Hin & Hlast & Hto).
  cbn [fst snd] in *.
  destruct (foldM_spec (λ done state, index_ok state.1 ∧
      (∀ file, by_file state.1 !! file =
         if decide (file ∈ done) then next ← last !! file; kept_next next else by_file index !! file) ∧
      (∀ key, key ∈ state.2 ↔ ∃ file, file ∈ done ∧
         ranked_of (by_file index !! file) key ≠ ranked_of (next ← last !! file; kept_next next) key))
    (λ state file, next ← last !! file; update_file state file next) order (index, ∅))
    as ([index' delta] & E & Hok' & Hf & Hd).
  - split_and!; [done| |].
    + intros file. by rewrite decide_False by (by intros ?%elem_of_nil).
    + intros key. split; [by intros ?%elem_of_empty|]. by intros (file & ?%elem_of_nil & _).
  - intros done [idx delta] file rest E (H1 & H2 & H3). cbn [fst snd] in *.
    assert (Hfile : file ∈ order) by (rewrite E; apply elem_of_app; right; by left).
    destruct (proj1 (Hin file) Hfile) as [next Hnext]. rewrite Hnext. cbn [mbind option_bind].
    assert (Hnot : file ∉ done).
    { rewrite E in Hnd. apply NoDup_app in Hnd as (_ & Hnd & _). intros Hd. apply (Hnd file Hd). by left. }
    destruct (replaced_file_spec idx delta file next) as (idx' & delta' & -> & G1 & G2 & G3).
    { done. } { intros c ->. eapply Hsz. by apply Hlast. }
    eexists. split; [reflexivity|]. cbn [fst snd]. split_and!; [done| |].
    + intros f. rewrite G2, with_file_lookup. destruct (decide (f = file)) as [->|Hne].
      * rewrite decide_True by set_solver. by rewrite Hnext.
      * rewrite H2. apply decide_ext. set_solver.
    + intros key. rewrite G3, H3, H2, decide_False by done. split.
      * intros [(f & Hf & Hr)|Hr]; [exists f; split; [set_solver|done]|].
        exists file. split; [set_solver|]. by rewrite Hnext.
      * intros (f & [Hf|Hf%list_elem_of_singleton]%elem_of_app & Hr); [left; by exists f|].
        subst f. right. by rewrite Hnext in Hr.
  - cbn [fst snd] in *. exists index', delta. split; [done|]. split; [done|].
    assert (Hall : ∀ file, by_file index' !! file = changed_to (by_file index) changes !! file).
    { intros file. rewrite Hf, Hto. destruct (decide (file ∈ order)) as [Ho|Ho].
      - destruct (proj1 (Hin file) Ho) as [next ->]. done.
      - destruct (last !! file) eqn:El; [|done]. exfalso. apply Ho, Hin. by rewrite El. }
    split; [by apply map_eq|]. intros key. rewrite Hd. split.
    + intros (file & Hfo & Hr). exists file. by rewrite Hf, decide_True.
    + intros (file & Hr). rewrite Hf in Hr. destruct (decide (file ∈ order)) as [Ho|Ho]; [|done].
      by exists file.
Qed.

(** ** Folding *)

Lemma join_file_lookup (postings : gmap K (list Posting)) file (grouped : gmap K (list nat)) key :
  join_file postings file grouped !! key =
    match grouped !! key with
    | Some ps => Some (default [] (postings !! key) ++ [(file, ps)])
    | None => postings !! key
    end.
Proof.
  unfold join_file.
  pose (P := λ (done : list (K * list nat)) (acc : gmap K (list Posting)),
    ∀ key, acc !! key = match (if decide (key ∈ done.*1) then grouped !! key else None) with
      | Some ps => Some (default [] (postings !! key) ++ [(file, ps)]) | None => postings !! key end).
  assert (Hgen : P (map_to_list grouped) (foldl (λ acc '(key, positions),
    <[key := default [] (acc !! key) ++ [(file, positions)]]> acc) postings (map_to_list grouped))).
  { apply (foldl_ind P); unfold P; clear P; [done|].
    intros done acc [k ps] rest E Hacc key'. destruct (map_rows_next _ _ _ _ _ E) as [Hk Hnin].
    rewrite fmap_app. cbn [fmap list_fmap fst]. destruct (decide (key' = k)) as [->|Hne].
    - rewrite lookup_insert_eq, decide_True by set_solver. rewrite Hk.
      by rewrite Hacc, decide_False by done.
    - rewrite lookup_insert_ne, Hacc by done. destruct (decide (key' ∈ done.*1)).
      + by rewrite decide_True by set_solver.
      + by rewrite decide_False by set_solver. }
  rewrite (Hgen key). destruct (grouped !! key) as [ps|] eqn:E.
  - rewrite decide_True; [done|]. rewrite list_elem_of_fmap. exists (key, ps).
    split; [done|]. by apply elem_of_map_to_list.
  - by destruct (decide _).
Qed.

Definition as_changes (contributions : list (nat * FileContribution K C))
    : list (nat * option (FileContribution K C)) := prod_map id Some <$> contributions.

Lemma fold_spec contributions : changes_sized (as_changes contributions) →
  ∃ index, fold contributions = Some index ∧ index_ok index ∧
    by_file index = changed_to ∅ (as_changes contributions).
Proof.
  intros Hsz. unfold fold.
  set (kept := filter (λ row, has_entries row.2 = true) _).
  assert (Hkept : kept = changed_to ∅ (as_changes contributions)).
  { unfold kept, as_changes, changed_to. clear. apply map_eq. intros file.
    induction contributions as [|[f c] cs IH] using rev_ind;
      [simpl; by rewrite map_lookup_filter, lookup_empty|].
    rewrite fmap_app, !foldl_app. cbn [fmap list_fmap foldl prod_map fst snd id].
    rewrite with_file_lookup, <-IH. unfold kept_next. cbn [mbind option_bind].
    rewrite !map_lookup_filter, lookup_insert.
    destruct (decide (file = f)) as [->|Hne]; [|by rewrite decide_False by congruence].
    rewrite decide_True by done. cbn [mbind option_bind]. destruct (has_entries c) eqn:E.
    - by rewrite option_guard_True.
    - by rewrite option_guard_False by (simpl; congruence). }
  assert (Hin : ∀ file c, kept !! file = Some c → has_entries c = true ∧ sized c).
  { intros file c Hc. split; [by apply map_lookup_filter_Some in Hc as [_ ?]|].
    rewrite Hkept in Hc. pose proof (list_change_spec (as_changes contributions)) as (_ & _ & H3 & H4).
    rewrite H4 in Hc. destruct (_.1 !! file) as [next|] eqn:E; [|by rewrite lookup_empty in Hc].
    apply H3 in E. unfold kept_next in Hc. destruct next as [c'|]; [|done]. simpl in Hc.
    destruct (has_entries c'); [|done]. injection Hc as <-. by eapply Hsz. }
  clearbody kept.
  destruct (foldM_spec (λ done postings, ∀ key, postings !! key =
      nonempty (omap (posting_of kept key) done)) (fold_file kept) (ascending (dom kept)) ∅)
    as (postings & -> & Hp).
  - intros key. by rewrite lookup_empty.
  - intros done postings file rest E Hp. unfold fold_file.
    assert (Hf : is_Some (kept !! file)).
    { apply elem_of_dom, elem_of_ascending. rewrite E. apply elem_of_app. right. by left. }
    destruct Hf as [c Hc]. rewrite Hc. cbn [mbind option_bind].
    destruct (positions_by_key_spec c) as (grouped & -> & Hg); [by eapply Hin|].
    cbn [mbind option_bind]. eexists. split; [reflexivity|]. intros key.
    rewrite join_file_lookup, Hp, omap_app, nonempty_default, Hg.
    assert (omap (posting_of kept key) [file] =
      match nonempty (positions c key) with Some ps => [(file, ps)] | None => [] end) as ->.
    { cbn [omap list_omap]. unfold posting_of. rewrite Hc. cbn [mbind option_bind].
      by destruct (nonempty (positions c key)). }
    destruct (nonempty (positions c key)); [by rewrite nonempty_snoc|by rewrite app_nil_r].
  - eexists. split; [reflexivity|]. split; [|done]. by split.
Qed.

(** ** Reading *)

Definition tag (file : nat) (entry : nat * C) : nat * nat * C := (file, entry.1, entry.2).

Definition ranked_all files (key : K) (over : list nat) : list (nat * nat * C) :=
  mjoin ((λ file, tag file <$> ranked_of (files !! file) key) <$> over).

Lemma ranked_values_spec index key : index_ok index →
  ranked_values index key = Some (ranked_all (by_file index) key (ascending (dom (by_file index)))).
Proof.
  intros [_ Hk]. unfold ranked_values. rewrite Hk, nonempty_default. unfold postings_of, ranked_all.
  enough (mapM (ranked_posting index) (omap (posting_of (by_file index) key) (ascending (dom (by_file index)))) =
    Some ((λ file, tag file <$> ranked_of (by_file index !! file) key) <$>
      filter (λ file, is_Some (posting_of (by_file index) key file)) (ascending (dom (by_file index))))) as ->.
  { simpl. f_equal. induction (ascending _) as [|file l IH]; [done|]. rewrite filter_cons.
    destruct (decide _) as [Hs|Hs]; rewrite !fmap_cons, !join_cons; [by rewrite IH|].
    rewrite <-IH. assert (ranked_of (by_file index !! file) key = []) as ->; [|done].
    apply ranked_none. unfold posting_of in Hs. destruct (by_file index !! file) as [c|]; [|done].
    cbn [mbind option_bind] in *. destruct (nonempty _); [exfalso; by apply Hs|done]. }
  apply mapM_Some. induction (ascending _) as [|file l IH]; [constructor|]. simpl.
  rewrite filter_cons. destruct (posting_of _ key file) as [p|] eqn:E.
  - rewrite decide_True by (by eexists). rewrite fmap_cons. constructor; [|done].
    unfold posting_of in E. destruct (by_file index !! file) as [c|] eqn:Ec; [|done].
    cbn [mbind option_bind] in E. destruct (nonempty (positions c key)) as [ps|] eqn:En; [|done].
    cbn [mbind option_bind] in E. injection E as <-. unfold ranked_posting. cbn [fst snd].
    rewrite Ec. cbn [mbind option_bind].
    pose proof (ranked_entries_spec (Some c) key ps En) as Hr. cbn [ranked_entries mbind option_bind] in Hr.
    rewrite Hr. done.
  - rewrite decide_False by (by intros []). done.
Qed.

(** Files that give the key nothing do not show. *)
Lemma ranked_all_over files key (s : gset nat) : dom files ⊆ s →
  ranked_all files key (ascending s) = ranked_all files key (ascending (dom files)).
Proof.
  intros Hs.
  assert (Hf : ascending (dom files) = filter (λ file, file ∈ dom files) (ascending s)).
  { assert (Hss : ∀ l k : list nat, StronglySorted lt l → StronglySorted lt k →
      (∀ x, x ∈ l ↔ x ∈ k) → l = k).
    { intros l k Hl Hk Hin.
      assert (Hmap : (λ x, (x, tt)) <$> l = (λ x, (x, tt)) <$> k).
      { apply file_sorted_ext.
        - clear Hin. induction Hl as [|x l Hl IH Hx]; [constructor|]. rewrite fmap_cons.
          constructor; [done|]. apply Forall_fmap. apply (Forall_impl _ _ _ Hx). done.
        - clear Hin. induction Hk as [|x k Hk IH Hx]; [constructor|]. rewrite fmap_cons.
          constructor; [done|]. apply Forall_fmap. apply (Forall_impl _ _ _ Hx). done.
        - intros [x []]. rewrite !list_elem_of_fmap. set_solver. }
      apply (f_equal (fmap fst)) in Hmap. rewrite <-!list_fmap_compose in Hmap.
      by rewrite !list_fmap_id in Hmap. }
    apply Hss; [apply ascending_lt| |].
    - induction (ascending_lt s) as [|x l Hl IH Hx]; [constructor|]. rewrite filter_cons.
      destruct (decide _); [|done]. constructor; [done|]. rewrite Forall_forall in Hx.
      apply Forall_forall. intros y [_ Hy]%list_elem_of_filter. by apply Hx.
    - intros x. rewrite list_elem_of_filter, !elem_of_ascending. set_solver. }
  rewrite Hf. unfold ranked_all. clear. induction (ascending s) as [|file l IH]; [done|].
  rewrite filter_cons. destruct (decide _) as [Hd|Hd]; rewrite !fmap_cons, !join_cons.
  - by rewrite IH.
  - rewrite IH. apply not_elem_of_dom in Hd. by rewrite Hd.
Qed.

Lemma ranked_all_file files key over file : NoDup over → file ∈ over →
  filter (λ entry, entry.1.1 = file) (ranked_all files key over) =
    tag file <$> ranked_of (files !! file) key.
Proof.
  assert (Hno : ∀ over, file ∉ over →
    filter (λ entry, entry.1.1 = file) (ranked_all files key over) = []).
  { intros l. induction l as [|f l IH]; intros Hnin; [done|]. unfold ranked_all.
    rewrite fmap_cons, join_cons, filter_app. fold (ranked_all files key l).
    rewrite IH by set_solver. rewrite app_nil_r. apply not_elem_of_cons in Hnin as [Hne _].
    induction (ranked_of _ key) as [|e r IHr]; [done|].
    rewrite fmap_cons, filter_cons_False by (simpl; congruence). apply IHr. }
  assert (Hyes : filter (λ entry, entry.1.1 = file) (tag file <$> ranked_of (files !! file) key) =
    tag file <$> ranked_of (files !! file) key).
  { induction (ranked_of _ key) as [|e r IHr]; [done|]. rewrite fmap_cons, filter_cons_True by done.
    by rewrite IHr. }
  intros Hnd. induction Hnd as [|f l Hf Hnd IH]; intros Hin; [by apply elem_of_nil in Hin|].
  unfold ranked_all. rewrite fmap_cons, join_cons, filter_app.
  fold (ranked_all files key l). destruct (decide (f = file)) as [->|Hne].
  - by rewrite Hyes, Hno, app_nil_r by done.
  - apply elem_of_cons in Hin as [->|Hin]; [done|]. rewrite (IH Hin).
    assert (filter (λ entry, entry.1.1 = file) (tag f <$> ranked_of (files !! f) key) = []) as ->; [|done].
    clear -Hne. induction (ranked_of _ key) as [|e r IHr]; [done|].
    by rewrite fmap_cons, filter_cons_False by (simpl; congruence).
Qed.

(** Two indexes answer a key alike exactly when every file does. *)
Lemma ranked_values_eq index other key : index_ok index → index_ok other →
  ranked_values index key = ranked_values other key ↔
  ∀ file, ranked_of (by_file index !! file) key = ranked_of (by_file other !! file) key.
Proof.
  intros Hi Ho. rewrite !ranked_values_spec by done.
  set (s := dom (by_file index) ∪ dom (by_file other)).
  rewrite <-(ranked_all_over (by_file index) key s), <-(ranked_all_over (by_file other) key s)
    by set_solver. split.
  - intros [= E] file. destruct (decide (file ∈ s)) as [Hs|Hs].
    + apply (f_equal (filter (λ entry, entry.1.1 = file))) in E.
      rewrite !ranked_all_file in E by (apply ascending_NoDup || by apply elem_of_ascending).
      apply (f_equal (fmap (λ entry : nat * nat * C, (entry.1.2, entry.2)))) in E.
      rewrite <-!list_fmap_compose in E. rewrite <-(list_fmap_id (ranked_of _ key)).
      rewrite <-(list_fmap_id (ranked_of (by_file other !! file) key)).
      etrans; [|etrans; [exact E|]]; apply list_fmap_ext; by intros ? [].
    + assert (by_file index !! file = None) as -> by (apply not_elem_of_dom; set_solver).
      assert (by_file other !! file = None) as -> by (apply not_elem_of_dom; set_solver). done.
  - intros E. f_equal. unfold ranked_all. f_equal. apply list_fmap_ext. intros _ file _. by rewrite E.
Qed.

(** What an update does: the contributions after the changes, the index they
    fold to, and exactly the keys whose ranked values moved. *)
Lemma update_spec index changes : index_ok index → changes_sized changes →
  ∃ index' delta, update index changes = Some (index', delta) ∧ index_ok index' ∧
    by_file index' = changed_to (by_file index) changes ∧
    ∀ key, key ∈ delta ↔ ranked_values index key ≠ ranked_values index' key.
Proof.
  intros Hok Hsz. destruct (update_steps index changes Hok Hsz) as (index' & delta & E & Hok' & Hf & Hd).
  exists index', delta. split_and!; [done|done|done|]. intros key.
  rewrite Hd, ranked_values_eq by done. split.
  { intros (f & Hr) Hall. by apply Hr. }
  intros Hnot.
  set (s := ascending (dom (by_file index) ∪ dom (by_file index'))).
  destruct (decide (Forall (λ f, ranked_of (by_file index !! f) key = ranked_of (by_file index' !! f) key) s))
    as [Hall|Hsome].
  - exfalso. apply Hnot. intros f. rewrite Forall_forall in Hall.
    destruct (decide (f ∈ s)) as [Hs|Hs]; [by apply Hall|]. unfold s in Hs. rewrite elem_of_ascending in Hs.
    assert (by_file index !! f = None) as -> by (apply not_elem_of_dom; set_solver).
    assert (by_file index' !! f = None) as -> by (apply not_elem_of_dom; set_solver). done.
  - apply not_Forall_Exists in Hsome; [|intros; apply _]. apply Exists_exists in Hsome as (f & _ & Hf').
    by exists f.
Qed.

Lemma keys_ranked index key : index_ok index →
  key ∉ keys index → ranked_values index key = Some [].
Proof.
  intros Hok Hk. unfold keys in Hk. apply not_elem_of_dom in Hk. unfold ranked_values. by rewrite Hk.
Qed.

Lemma changed_keys_spec index other key : index_ok index → index_ok other →
  key ∈ changed_keys index other ↔ ranked_values index key ≠ ranked_values other key.
Proof.
  intros Hi Ho. unfold changed_keys. rewrite elem_of_filter. split; [by intros [? _]|].
  intros Hne. split; [done|]. destruct (decide (key ∈ keys index ∪ keys other)) as [|Hn]; [done|].
  apply not_elem_of_union in Hn as [H1 H2]. exfalso. apply Hne.
  by rewrite (keys_ranked index key Hi H1), (keys_ranked other key Ho H2).
Qed.

(** An entry of a key as [values] gives it, and the rank [values] leaves out. *)
Definition unranked (entry : nat * nat * C) : nat * C := (entry.1.1, entry.2).
Definition key_ranks (index : BaseIndex K C) (key : K) : option (list nat) :=
  (λ l : list (nat * nat * C), (λ entry, entry.1.2) <$> l) <$> ranked_values index key.

Lemma mapM_fmap_option {A B D} (f : A → option B) (g : B → D) l :
  mapM (λ a, g <$> f a) l = (λ l : list B, g <$> l) <$> mapM f l.
Proof.
  induction l as [|a l IH]; [done|]. simpl. destruct (f a) as [b|]; [|done]. simpl. rewrite IH.
  by destruct (mapM f l).
Qed.

Lemma mapM_ext_option {A B} (f g : A → option B) l : (∀ a, f a = g a) → mapM f l = mapM g l.
Proof. intros E. induction l as [|a l IH]; [done|]. simpl. by rewrite E, IH. Qed.

Lemma value_posting_unranked index posting :
  value_posting index posting = (λ l : list (nat * nat * C), unranked <$> l) <$> ranked_posting index posting.
Proof.
  unfold value_posting, ranked_posting. destruct (by_file index !! posting.1) as [c|]; [|done].
  cbn [mbind option_bind]. rewrite (mapM_ext_option (ranked_entry c)
    (λ position, (λ entry : nat * (K * C), (rank_of c entry.1, entry.2.2)) <$>
       (pair position <$> entries c !! position))).
  2:{ intros position. unfold ranked_entry. by destruct (entries c !! position). }
  rewrite (mapM_fmap_option (λ position, pair position <$> entries c !! position)).
  rewrite (mapM_ext_option (λ position, entries c !! position)
    (λ position, snd <$> (pair position <$> entries c !! position)))
    by (intros position; by destruct (entries c !! position)).
  rewrite (mapM_fmap_option (λ position, pair position <$> entries c !! position)).
  destruct (mapM _ posting.2) as [l|]; [|done]. cbn [fmap option_fmap option_map mbind option_bind].
  f_equal. rewrite <-!list_fmap_compose. by apply list_fmap_ext.
Qed.

Lemma values_unranked index key : values index key = (λ l : list (nat * nat * C), unranked <$> l) <$> ranked_values index key.
Proof.
  unfold values, ranked_values. rewrite (mapM_ext_option _ _ _ (value_posting_unranked index)).
  rewrite mapM_fmap_option. destruct (mapM (ranked_posting index) _) as [l|]; [|done].
  cbn [fmap option_fmap option_map]. f_equal. induction l as [|x l IH]; [done|].
  rewrite fmap_cons, !join_cons, fmap_app. by rewrite <-IH.
Qed.

(** Without a change of ranks, the values tell what the ranked values tell. *)
Lemma values_eq_ranked index other key : key_ranks index key = key_ranks other key →
  values index key = values other key ↔ ranked_values index key = ranked_values other key.
Proof.
  rewrite !values_unranked. unfold key_ranks. intros Hr. split; [|congruence].
  destruct (ranked_values index key) as [l|], (ranked_values other key) as [k|]; try done.
  cbn [fmap option_fmap option_map] in *. intros [= Hv]. injection Hr as Hr. f_equal.
  revert k Hv Hr. induction l as [|[[f r] v] l IH]; intros [|[[f' r'] v'] k] Hv Hr; try done.
  unfold unranked in *. cbn in *. simplify_eq. f_equal. by apply IH.
Qed.

(** An index in order is the fold of its own contributions. *)
Lemma refold_spec index : index_ok index →
  ∃ again, fold (map_to_list (by_file index)) = Some again ∧ index_ok again ∧ by_file again = by_file index.
Proof.
  intros Hok. destruct (fold_spec (map_to_list (by_file index))) as (again & E & Ha & Hf).
  { intros file c Hin. unfold as_changes in Hin. apply list_elem_of_fmap in Hin as ([f d] & [= -> ->] & Hin).
    apply elem_of_map_to_list in Hin. by apply (ok_files _ Hok) in Hin as [_ ?]. }
  exists again. split_and!; [done|done|]. rewrite Hf. apply map_eq. intros file.
  pose (P := λ (done : list (nat * FileContribution K C)) (m : gmap nat (FileContribution K C)),
    ∀ f, m !! f = if decide (f ∈ done.*1) then by_file index !! f else None).
  assert (Hall : P (map_to_list (by_file index)) (changed_to ∅ (as_changes (map_to_list (by_file index))))).
  { unfold changed_to, as_changes.
    assert (Hfm : ∀ l (m : gmap nat (FileContribution K C)),
      foldl (λ m change, with_file m change.1 change.2) m (prod_map id Some <$> l) =
      foldl (λ m row, with_file m row.1 (Some row.2)) m l).
    { intros l. induction l as [|[f c] l IH]; intros m; [done|]. apply IH. }
    rewrite Hfm. apply (foldl_ind P); unfold P; clear P; [intros f; by rewrite lookup_empty|].
    intros done m [f c] rest E' Hm f'. destruct (map_rows_next _ _ _ _ _ E') as [Hc _].
    rewrite fmap_app, with_file_lookup. cbn [fmap list_fmap fst snd].
    destruct (decide (f' = f)) as [->|Hne].
    - rewrite decide_True by set_solver. rewrite Hc. unfold kept_next. cbn [mbind option_bind].
      by rewrite (proj1 (ok_files _ Hok f c Hc)).
    - rewrite Hm. apply decide_ext. set_solver. }
  rewrite (Hall file). destruct (by_file index !! file) as [c|] eqn:Ec.
  - rewrite decide_True; [done|]. apply list_elem_of_fmap. exists (file, c).
    split; [done|]. by apply elem_of_map_to_list.
  - by destruct (decide _).
Qed.
End index.

(** * A file table is the slots of its paths

    An interner is a bijection between the paths it has seen and its ids, and
    only grows. The table of a list of files answers what a scan of the list
    finds: the slots of a path in order, the first, the last, and the rank. *)

Lemma filter_same {A} (P Q : A → Prop) `{!∀ x, Decision (P x), !∀ x, Decision (Q x)} (l : list A) :
  (∀ x, x ∈ l → P x ↔ Q x) → filter P l = filter Q l.
Proof.
  induction l as [|x l IH]; intros Hl; [done|]. rewrite !filter_cons.
  rewrite (decide_ext (P x) (Q x)) by (apply Hl; by left).
  destruct (decide (Q x)); [f_equal|]; apply IH; intros y Hy; apply Hl; by right.
Qed.

Section file_table.
Context {Path : Type} `{Countable Path}.
Implicit Types t : FileInterner Path.
Implicit Types T : FileTable Path.

Definition interner_ok t : Prop := ∀ p id, by_path t !! p = Some id ↔ paths t !! id = Some p.

(** Every id fits a [u32] when [more] paths are new. *)
Definition room t (more : nat) : Prop := (Z.of_nat (length (paths t) + more) ≤ 2 ^ 32)%Z.

Lemma interner_default_ok : interner_ok interner_default.
Proof. intros p id. simpl. by rewrite lookup_empty. Qed.

Lemma intern_spec t path more : interner_ok t → room t (S more) →
  ∃ id t', intern t path = Some (id, t') ∧ interner_ok t' ∧ room t' more ∧
    paths t `prefix_of` paths t' ∧ paths t' !! id = Some path.
Proof.
  intros Hok Hroom. unfold intern. destruct (by_path t !! path) as [id|] eqn:E.
  - exists id, t. split_and!; [done|done| |done|by apply Hok]. unfold room in *. lia.
  - unfold room in *. rewrite u32_try_from_spec by lia. cbn [mbind option_bind]. do 2 eexists.
    split_and!; [reflexivity| | |by eexists|].
    + intros p id. cbn [by_path paths]. rewrite lookup_insert.
      destruct (decide (path = p)) as [->|Hne].
      * split; [intros [= <-]; by rewrite list_lookup_middle|].
        intros [Hl|[Hl Hp]]%lookup_app_Some; [apply Hok in Hl; congruence|].
        apply list_lookup_singleton_Some in Hp as [? _]. f_equal. lia.
      * rewrite (Hok p id). split; [intros; by apply lookup_app_l_Some|].
        intros [Hl|[Hl Hp]]%lookup_app_Some; [done|].
        apply list_lookup_singleton_Some in Hp as [_ ?]. congruence.
    + cbn [paths]. rewrite length_app. simpl. lia.
    + cbn [paths]. by rewrite list_lookup_middle.
Qed.

Lemma interner_inj t id1 id2 p : interner_ok t →
  paths t !! id1 = Some p → paths t !! id2 = Some p → id1 = id2.
Proof. intros Hok H1%Hok H2%Hok. congruence. Qed.

(** ** The table of a list of files *)

(** The slots whose file has a path, in order. *)
Definition places (files : list Path) (path : Path) : list nat :=
  filter (λ slot, files !! slot = Some path) (seq 0 (length files)).

(** The paths in the order they are first listed. *)
Definition listed_once (files : list Path) : list Path :=
  foldl (λ acc path, if decide (path ∈ acc) then acc else acc ++ [path]) [] files.

Lemma listed_once_snoc files path :
  listed_once (files ++ [path]) =
    (if decide (path ∈ listed_once files) then listed_once files else listed_once files ++ [path]).
Proof. unfold listed_once. by rewrite foldl_app. Qed.

Lemma elem_of_listed_once files path : path ∈ listed_once files ↔ path ∈ files.
Proof.
  induction files as [|p files IH] using rev_ind; [done|]. rewrite listed_once_snoc, elem_of_app, <- IH.
  rewrite list_elem_of_singleton. destruct (decide (p ∈ listed_once files)) as [Hp|Hp].
  - split; [by left|]. by intros [?| ->].
  - by rewrite elem_of_app, list_elem_of_singleton.
Qed.

Record table_for (files : list Path) T : Prop := {
  tf_interner : interner_ok (interner T);
  tf_ids : Forall2 (λ id path, paths (interner T) !! id = Some path) (slot_ids T) files;
  tf_slots : ∀ id, slots T !! id = (path ← paths (interner T) !! id; nonempty (places files path));
  tf_listed : ∀ id, id ∈ ids T ↔ is_Some (slots T !! id);
  tf_nodup : NoDup (ids T);
  tf_order : Forall2 (λ id path, paths (interner T) !! id = Some path) (ids T) (listed_once files)
}.

Lemma places_snoc files path path' :
  places (files ++ [path']) path =
    places files path ++ (if decide (path' = path) then [length files] else []).
Proof.
  unfold places. rewrite length_app, seq_app, filter_app. simpl. f_equal.
  - apply filter_same. intros slot Hs%elem_of_seq. by rewrite lookup_app_l by lia.
  - rewrite filter_cons, list_lookup_middle by done. simpl.
    destruct (decide (path' = path)) as [->|Hne]; [by rewrite decide_True|].
    by rewrite decide_False by congruence.
Qed.

Lemma places_nil files path : places files path = [] ↔ path ∉ files.
Proof.
  rewrite list_elem_of_lookup. split.
  - intros E (slot & Hs). assert (Hin : slot ∈ places files path); [|rewrite E in Hin; by apply elem_of_nil in Hin].
    unfold places. rewrite list_elem_of_filter, elem_of_seq. apply lookup_lt_Some in Hs as ?. split; [done|lia].
  - intros Hno. destruct (places files path) as [|slot l] eqn:E; [done|]. exfalso. apply Hno. exists slot.
    assert (Hin : slot ∈ places files path) by (rewrite E; by left).
    by apply list_elem_of_filter in Hin as [? _].
Qed.

Lemma add_slot_spec files T path more : table_for files T → room (interner T) (S more) →
  ∃ T', add_slot T path = Some T' ∧ table_for (files ++ [path]) T' ∧ room (interner T') more ∧
    paths (interner T) `prefix_of` paths (interner T').
Proof.
  intros [H1 H2 H3 H4 H5 H6] Hroom. unfold add_slot.
  destruct (intern_spec (interner T) path more H1 Hroom) as (id & t' & -> & Hok & Hroom' & Hpre & Hid).
  cbn [mbind option_bind]. eexists. split; [reflexivity|]. split; [|split; [exact Hroom'|exact Hpre]].
  pose proof (Forall2_length _ _ _ H2) as Hlen.
  assert (Hentry : default [] (slots T !! id) = places files path).
  { rewrite H3. destruct (paths (interner T) !! id) as [p|] eqn:Ep; cbn [mbind option_bind].
    - assert (Hp : paths t' !! id = Some p) by (destruct Hpre as [k ->]; by apply lookup_app_l_Some).
      assert (p = path) as -> by congruence. apply nonempty_default.
    - symmetry. apply places_nil. intros Hin. apply list_elem_of_lookup in Hin as [slot Hs].
      destruct (Forall2_lookup_r _ _ _ _ _ H2 Hs) as (id' & _ & Hp').
      assert (paths t' !! id' = Some path) as Hp by (destruct Hpre as [k ->]; by apply lookup_app_l_Some).
      assert (id = id') as -> by (by eapply interner_inj). congruence. }
  assert (Hold : ∀ i, i ≠ id → slots T !! i = (p ← paths t' !! i; nonempty (places (files ++ [path]) p))).
  { intros i Hi. rewrite H3. destruct (paths t' !! i) as [p|] eqn:Ep.
    - cbn [mbind option_bind]. assert (Hne : path ≠ p).
      { intros ->. apply Hi. by eapply interner_inj. }
      rewrite places_snoc, decide_False, app_nil_r by done.
      destruct (paths (interner T) !! i) as [q|] eqn:Eq; cbn [mbind option_bind].
      + assert (paths t' !! i = Some q) by (destruct Hpre as [k ->]; by apply lookup_app_l_Some).
        by assert (q = p) as -> by congruence.
      + assert (places files p = []) as ->; [|done]. apply places_nil. intros Hin.
        apply list_elem_of_lookup in Hin as [slot Hs].
        destruct (Forall2_lookup_r _ _ _ _ _ H2 Hs) as (id' & _ & Hp').
        assert (paths t' !! id' = Some p) as Hp by (destruct Hpre as [k ->]; by apply lookup_app_l_Some).
        assert (i = id') as -> by (by eapply interner_inj). congruence.
    - cbn [mbind option_bind]. destruct (paths (interner T) !! i) as [q|] eqn:Eq; [|done].
      destruct Hpre as [k E]. rewrite E, (lookup_app_l_Some _ k _ q Eq) in Ep. done. }
  rewrite Hentry. split; cbn [interner slot_ids slots ids].
  - done.
  - apply Forall2_app; [|by constructor]. eapply Forall2_impl; [exact H2|].
    intros i p Hp. destruct Hpre as [k ->]. by apply lookup_app_l_Some.
  - intros i. rewrite lookup_insert. destruct (decide (id = i)) as [<-|Hne].
    + rewrite Hid. cbn [mbind option_bind]. rewrite places_snoc, decide_True by done.
      by rewrite Hlen, nonempty_snoc.
    + by apply Hold.
  - intros i. assert (Hin : i ∈ match places files path with [] => ids T ++ [id] | _ => ids T end ↔
      i = id ∨ i ∈ ids T).
    { destruct (places files path) as [|slot l] eqn:Epl.
      - rewrite elem_of_app, list_elem_of_singleton. tauto.
      - split; [by right|]. intros [->|?]; [|done]. apply H4.
        destruct (slots T !! id) eqn:Es; [by eexists|]. simpl in Hentry. congruence. }
    rewrite Hin, lookup_insert. destruct (decide (id = i)) as [<-|Hne].
    + split; [by eexists|by left].
    + rewrite H4. split; [by intros [->|?]|by right].
  - destruct (places files path) as [|slot l]; [|done]. apply NoDup_app. split_and!; [done| |apply NoDup_singleton].
    intros i Hi ->%list_elem_of_singleton. apply H4 in Hi as [s Hs].
    rewrite Hs in Hentry. simpl in Hentry. subst s. rewrite H3 in Hs.
    destruct (paths (interner T) !! id); simpl in Hs; [|done]. by destruct (places files p).
  - assert (Hold6 : Forall2 (λ id path, paths t' !! id = Some path) (ids T) (listed_once files)).
    { eapply Forall2_impl; [exact H6|]. intros i p Hp. destruct Hpre as [k ->]. by apply lookup_app_l_Some. }
    rewrite listed_once_snoc. destruct (places files path) as [|slot l] eqn:Ep.
    + apply places_nil in Ep. rewrite decide_False by (by rewrite elem_of_listed_once).
      apply Forall2_app; [done|]. by constructor.
    + rewrite decide_True; [done|]. rewrite elem_of_listed_once.
      destruct (decide (path ∈ files)) as [|Hn%places_nil]; [done|congruence].
Qed.

Lemma empty_table_for t : interner_ok t → table_for [] (empty_table t).
Proof.
  intros Hok. split; simpl; [done|constructor| | |constructor|constructor].
  - intros id. rewrite lookup_empty. by destruct (paths t !! id).
  - intros id. rewrite lookup_empty. split; [by intros ?%elem_of_nil|by intros []].
Qed.

Lemma with_interner_spec files t more : interner_ok t → room t (length files + more) →
  ∃ T, with_interner files t = Some T ∧ table_for files T ∧ room (interner T) more ∧
    paths t `prefix_of` paths (interner T).
Proof.
  intros Hok Hroom. unfold with_interner.
  destruct (foldM_spec (λ done T, table_for done T ∧
      room (interner T) (length files - length done + more) ∧
      paths t `prefix_of` paths (interner T)) add_slot files (empty_table t)) as (T & -> & HT & Hr & Hpre).
  - split_and!; [by apply empty_table_for| |done]. simpl. by rewrite Nat.sub_0_r.
  - intros done T path rest E (HT & Hr & Hpre). rewrite E in Hr. rewrite length_app in Hr. simpl in Hr.
    destruct (add_slot_spec done T path (length rest + more) HT) as (T' & -> & HT' & Hr' & Hpre').
    { unfold room in *. lia. }
    exists T'. split; [done|]. split_and!; [done| |by etrans].
    rewrite E, !length_app. simpl. unfold room in *. lia.
  - exists T. split_and!; [done|done| |done]. unfold room in *. lia.
Qed.

(** ** What the table answers *)

Lemma slots_of_spec files T id path : table_for files T → paths (interner T) !! id = Some path →
  slots_of T id = places files path.
Proof.
  intros HT Hp. unfold slots_of. rewrite (tf_slots _ _ HT), Hp. cbn [mbind option_bind].
  apply nonempty_default.
Qed.

Lemma id_of_spec files T path : table_for files T →
  match id_of T path with
  | Some id => paths (interner T) !! id = Some path ∧ path ∈ files
  | None => path ∉ files
  end.
Proof.
  intros HT. unfold id_of, interner_get. destruct (by_path (interner T) !! path) as [id|] eqn:E.
  - cbn [mbind option_bind]. apply (tf_interner _ _ HT) in E. rewrite (tf_slots _ _ HT), E.
    cbn [mbind option_bind]. destruct (places files path) as [|s l] eqn:Ep; simpl.
    + by apply places_nil.
    + split; [done|]. destruct (decide (path ∈ files)) as [|Hn]; [done|]. apply places_nil in Hn. congruence.
  - intros Hin. apply list_elem_of_lookup in Hin as [slot Hs].
    destruct (Forall2_lookup_r _ _ _ _ _ (tf_ids _ _ HT) Hs) as (id & _ & Hp).
    apply (tf_interner _ _ HT) in Hp. congruence.
Qed.

Lemma first_slot_spec files T path : table_for files T → first_slot T path = head (places files path).
Proof.
  intros HT. unfold first_slot. pose proof (id_of_spec files T path HT) as Hid.
  destruct (id_of T path) as [id|]; cbn [mbind option_bind].
  - by rewrite (slots_of_spec files T id path) by tauto.
  - apply places_nil in Hid. by rewrite Hid.
Qed.

Lemma last_slot_spec files T path : table_for files T → last_slot T path = last (places files path).
Proof.
  intros HT. unfold last_slot. pose proof (id_of_spec files T path HT) as Hid.
  destruct (id_of T path) as [id|]; cbn [mbind option_bind].
  - by rewrite (slots_of_spec files T id path) by tauto.
  - apply places_nil in Hid. by rewrite Hid.
Qed.

Lemma position_of_spec slot (l : list nat) : slot ∈ l →
  ∃ rank, position_of slot l = Some rank ∧ l !! rank = Some slot ∧
    ∀ i, i < rank → l !! i ≠ Some slot.
Proof.
  induction l as [|x l IH]; intros Hin; [by apply elem_of_nil in Hin|]. simpl.
  destruct (decide (x = slot)) as [->|Hne].
  - exists 0. split_and!; [done|done|lia].
  - apply elem_of_cons in Hin as [->|Hin]; [done|]. destruct (IH Hin) as (r & -> & Hr & Hno).
    exists (S r). split_and!; [done|done|]. intros [|i] Hi; simpl; [congruence|apply Hno; lia].
Qed.

(** The slots under another interner are what reading the files again gives. *)
Lemma reinterned_spec files T t : table_for files T → reinterned T t = with_interner files t.
Proof.
  intros HT. unfold reinterned, with_interner. pose proof (tf_ids _ _ HT) as Hids. clear HT.
  generalize (empty_table t). generalize dependent (slot_ids T). intros l Hids.
  induction Hids as [|id path l files' Hp Hl IH]; intros acc; [done|]. simpl.
  assert (interner_path (interner T) id = Some path) as -> by exact Hp. cbn [mbind option_bind].
  destruct (add_slot acc path); [|done]. cbn [mbind option_bind]. apply IH.
Qed.

Lemma slot_path_spec files T slot : table_for files T →
  (id ← slot_id T slot; path_of T id) = files !! slot.
Proof.
  intros HT. unfold slot_id, path_of, interner_path. pose proof (tf_ids _ _ HT) as Hids.
  destruct (files !! slot) as [path|] eqn:E.
  - destruct (Forall2_lookup_r _ _ _ _ _ Hids E) as (id & -> & Hp). done.
  - assert (slot_ids T !! slot = None) as ->; [|done]. apply lookup_ge_None.
    rewrite (Forall2_length _ _ _ Hids). by apply lookup_ge_None.
Qed.

Lemma ids_spec files T : table_for files T → mapM (path_of T) (ids T) = Some (listed_once files).
Proof. intros HT. apply mapM_Some. exact (tf_order _ _ HT). Qed.

Lemma contains_path_spec files T path : table_for files T →
  contains_path T path = bool_decide (path ∈ files).
Proof.
  intros HT. unfold contains_path. pose proof (id_of_spec files T path HT) as Hid.
  apply bool_decide_ext. destruct (id_of T path) as [id|].
  - split; intros _; [by destruct Hid|by eexists].
  - split; [by intros []|by intros ?].
Qed.

Lemma slot_rank_spec files T slot path : table_for files T → files !! slot = Some path →
  ∃ rank, slot_rank T slot = Some rank ∧ places files path !! rank = Some slot.
Proof.
  intros HT Hs. destruct (Forall2_lookup_r _ _ _ _ _ (tf_ids _ _ HT) Hs) as (id & Hid & Hp).
  unfold slot_rank, slot_id. rewrite Hid. cbn [mbind option_bind].
  rewrite (slots_of_spec files T id path HT Hp).
  destruct (position_of_spec slot (places files path)) as (rank & -> & Hr & _); [|by exists rank].
  unfold places. rewrite list_elem_of_filter, elem_of_seq. apply lookup_lt_Some in Hs as ?.
  split; [done|lia].
Qed.
End file_table.
