(* ===== verification/BaseTheorems.v ===== *)
(** * Base indexes: theorems

    The contributions of a build's files, the index they fold to, an update of
    it and its change list, the file table under them, and the shadow check
    that keeps every index between builds. *)
From stdpp Require Import strings.
From S2P Require Import Prelude Order FileTable BaseIndex RetainedBase BaseSpec.

(** ** The slots of a contribution *)

Section slots.
Context {K C : Type}.
Implicit Types slots : list (list (K * C)).

Definition ends slots : list nat :=
  (λ i, length (mjoin (take (S i) slots))) <$> seq 0 (length slots).

Lemma ends_snoc slots slot :
  ends (slots ++ [slot]) = ends slots ++ [length (mjoin (slots ++ [slot]))].
Proof.
  unfold ends. rewrite length_app, seq_app, fmap_app. cbn [length seq Nat.add fmap list_fmap]. f_equal.
  - apply list_fmap_ext. intros k i Hi. apply lookup_seq in Hi as [-> Hi].
    by rewrite take_app_le by lia.
  - f_equal. rewrite take_ge; [done|]. rewrite length_app. simpl. lia.
Qed.

Lemma join_snoc {A} (ls : list (list A)) l : mjoin (ls ++ [l]) = mjoin ls ++ l.
Proof. induction ls as [|k ls IH]; [apply app_nil_r|]. simpl. rewrite <-app_assoc. f_equal. exact IH. Qed.

Lemma from_slots_spec slots : (Z.of_nat (length (mjoin slots)) < 2 ^ 32)%Z →
  from_slots slots = Some {| entries := mjoin slots; slot_ends := ends slots |}.
Proof.
  induction slots as [|slot slots IH] using rev_ind; [done|]. intros Hs.
  rewrite join_snoc, length_app in Hs. unfold from_slots in *. rewrite foldM_app, IH by lia.
  cbn [mbind option_bind foldM]. unfold add_contributed. cbn [entries slot_ends].
  rewrite ends_snoc, join_snoc, u32_try_from_spec by (rewrite length_app; lia). done.
Qed.

Lemma ends_lookup slots rank : rank < length slots →
  ends slots !! rank = Some (length (mjoin (take (S rank) slots))).
Proof. intros Hr. unfold ends. rewrite list_lookup_fmap, lookup_seq_lt by done. done. Qed.

Lemma take_next {A} (ls : list (list A)) rank l : ls !! rank = Some l →
  length (mjoin (take (S rank) ls)) = length (mjoin (take rank ls)) + length l.
Proof. intros Hl. rewrite (take_S_r _ _ _ Hl), join_snoc, length_app. done. Qed.

Lemma join_lookup {A} (ls : list (list A)) rank l : ls !! rank = Some l →
  mjoin ls = mjoin (take rank ls) ++ l ++ mjoin (drop (S rank) ls).
Proof.
  intros Hl. rewrite <-(take_drop_middle ls rank l Hl) at 1.
  generalize (take rank ls) as k. intros k. induction k as [|x k IH]; [done|].
  simpl. rewrite <-app_assoc. f_equal. exact IH.
Qed.

Lemma contribution_slot_spec slots rank :
  contribution_slot {| entries := mjoin slots; slot_ends := ends slots |} rank =
    Some (default [] (slots !! rank)).
Proof.
  unfold contribution_slot. cbn [entries slot_ends].
  destruct (slots !! rank) as [slot|] eqn:E.
  - pose proof (lookup_lt_Some _ _ _ E) as Hlt.
    assert (Hstart : match rank with 0 => 0 | S r => default 0 (ends slots !! r) end =
      length (mjoin (take rank slots))).
    { destruct rank as [|r]; [done|]. by rewrite ends_lookup by lia. }
    rewrite Hstart, (ends_lookup slots rank Hlt). cbn [default from_option id].
    pose proof (join_lookup _ _ _ E) as Hj. rewrite (take_next _ _ _ E). unfold id.
    set (n := length (mjoin (take rank slots))) in *.
    replace (n + length slot - n) with (length slot) by lia.
    assert (Hlen : n + length slot ≤ length (mjoin slots)) by (rewrite Hj, !length_app; lia).
    rewrite (proj2 (Nat.leb_le n (n + length slot))) by lia. rewrite (proj2 (Nat.leb_le _ _) Hlen).
    cbn [andb]. f_equal. rewrite Hj. unfold n. rewrite drop_app_length. apply take_app_length.
  - apply lookup_ge_None in E.
    assert (Hend : ends slots !! rank = None).
    { apply lookup_ge_None. unfold ends. rewrite length_fmap, length_seq. done. }
    rewrite Hend. cbn [default from_option].
    set (start := match rank with 0 => 0 | S r => default 0 (ends slots !! r) end).
    assert (Hle : start ≤ length (mjoin slots)).
    { unfold start. destruct rank as [|r]; [lia|].
      destruct (ends slots !! r) as [e|] eqn:Er; [|simpl; lia]. simpl.
      unfold ends in Er. rewrite list_lookup_fmap in Er. destruct (seq 0 _ !! r) as [j|]; [|done].
      injection Er as <-. rewrite <-(take_drop (S j) slots) at 2.
      assert (Happ : ∀ a b : list (list (K * C)), mjoin (a ++ b) = mjoin a ++ mjoin b).
      { intros a b. induction a as [|x a IH]; [done|]. simpl. rewrite <-app_assoc. f_equal. exact IH. }
      rewrite Happ, length_app. lia. }
    rewrite Nat.leb_refl, (proj2 (Nat.leb_le _ _) Hle), Nat.sub_diag. done.
Qed.

Lemma leading_ends (stops : list nat) position rank :
  (∀ i stop, i < rank → stops !! i = Some stop → stop ≤ position) →
  rank < length stops → (∀ stop, stops !! rank = Some stop → position < stop) →
  leading (λ stop, stop <=? position)%nat stops = rank.
Proof.
  revert rank. induction stops as [|stop stops IH]; intros rank Hb Hr Ha; simpl in *; [lia|].
  destruct rank as [|rank].
  - specialize (Ha stop eq_refl). destruct (Nat.leb_spec stop position); [lia|done].
  - pose proof (Hb 0 stop ltac:(lia) eq_refl). rewrite (proj2 (Nat.leb_le _ _)) by done. f_equal.
    apply IH; [|lia|done]. intros i s Hi. apply (Hb (S i)). lia.
Qed.

Lemma take_join_le {A} (ls : list (list A)) i j : i ≤ j →
  length (mjoin (take i ls)) ≤ length (mjoin (take j ls)).
Proof.
  revert i j. induction ls as [|l ls IH]; intros i j Hij; [by rewrite !take_nil|].
  destruct i as [|i]; [simpl; lia|]. destruct j as [|j]; [lia|]. cbn [take].
  rewrite !join_cons, !length_app. pose proof (IH i j). lia.
Qed.

Lemma slot_entry_spec slots rank slot j entry : slots !! rank = Some slot → slot !! j = Some entry →
  let position := length (mjoin (take rank slots)) + j in
  mjoin slots !! position = Some entry ∧
  rank_of {| entries := mjoin slots; slot_ends := ends slots |} position = rank.
Proof.
  intros Hs Hj. pose proof (lookup_lt_Some _ _ _ Hs) as Hr. pose proof (lookup_lt_Some _ _ _ Hj) as Hlt.
  cbv zeta. split.
  - rewrite (join_lookup _ _ _ Hs), lookup_app_r by lia.
    replace (_ + j - _) with j by lia. by apply lookup_app_l_Some.
  - unfold rank_of. cbn [slot_ends]. apply leading_ends.
    + intros i stop Hi Hstop. rewrite ends_lookup in Hstop by lia. injection Hstop as <-.
      pose proof (take_join_le slots (S i) rank ltac:(lia)). lia.
    + unfold ends. by rewrite length_fmap, length_seq.
    + intros stop Hstop. rewrite ends_lookup in Hstop by done. injection Hstop as <-.
      rewrite (take_next _ _ _ Hs). lia.
Qed.
End slots.

(** ** The files of a path *)

Section views.
Context {File Path : Type} `{Countable Path} (file_path : File → Path).
Implicit Types files : list File.
Implicit Types T : FileTable Path.

Definition at_path files (path : Path) : list File := filter (λ f, file_path f = path) files.

Lemma places_files {A} (g : File → A) files path :
  mapM (λ slot, g <$> files !! slot) (places (file_path <$> files) path) = Some (g <$> at_path files path).
Proof.
  apply mapM_Some.
  enough (Hgen : Forall2 (λ slot y, slot < length files ∧ g <$> files !! slot = Some y)
    (places (file_path <$> files) path) (g <$> at_path files path)).
  { eapply Forall2_impl; [exact Hgen|]. by intros ?? [_ ?]. }
  induction files as [|f files IH] using rev_ind; [constructor|]. unfold at_path in *.
  rewrite fmap_app, filter_app, fmap_app. cbn [fmap list_fmap]. rewrite places_snoc. apply Forall2_app.
  - eapply Forall2_impl; [exact IH|]. intros slot y [Hlt Hy]. rewrite length_app.
    split; [lia|]. by rewrite lookup_app_l by done.
  - rewrite filter_cons. cbn [filter list_filter]. rewrite length_fmap.
    destruct (decide (file_path f = path)); [|constructor]. constructor; [|constructor].
    rewrite length_app, list_lookup_middle by done. simpl. split; [lia|done].
Qed.

Lemma at_path_nil files path : at_path files path = [] ↔ path ∉ file_path <$> files.
Proof.
  unfold at_path. rewrite list_elem_of_fmap. split.
  - intros E (f & -> & Hf). assert (Hin : f ∈ filter (λ g, file_path g = file_path f) files)
      by (by apply list_elem_of_filter). rewrite E in Hin. by apply elem_of_nil in Hin.
  - intros Hno. destruct (filter _ files) as [|f l] eqn:E; [done|]. exfalso. apply Hno. exists f.
    assert (Hin : f ∈ filter (λ f, file_path f = path) files) by (rewrite E; by left).
    by apply list_elem_of_filter in Hin as [<- ?].
Qed.

Lemma listed_path files T id : table_for (file_path <$> files) T →
  id ∈ ids T ↔ ∃ path, paths (interner T) !! id = Some path ∧ path ∈ file_path <$> files.
Proof.
  intros HT. rewrite (tf_listed _ _ HT), (tf_slots _ _ HT). destruct (paths (interner T) !! id) as [p|].
  - cbn [mbind option_bind]. pose proof (places_nil (file_path <$> files) p) as Hp.
    destruct (places _ p) as [|s l]; simpl.
    + split; [by intros []|]. intros (q & [= <-] & Hq). by apply Hp in Hq.
    + split; [intros _|by eexists]. exists p. split; [done|].
      destruct (decide (p ∈ file_path <$> files)) as [|Hn]; [done|]. by apply Hp in Hn.
  - split; [by intros []|by intros (? & ? & _)].
Qed.

Section one.
Context {K C : Type} `{Countable K} `{EqDecision C} (contribute : File → list (K * C)).

(** Every entry a build contributes fits a [u32]. *)
Definition contributed_fit files : Prop :=
  (Z.of_nat (length (mjoin (contribute <$> files))) < 2 ^ 32)%Z.

Definition contribution_for files (path : Path) : FileContribution K C :=
  let slots := contribute <$> at_path files path in
  {| entries := mjoin slots; slot_ends := ends slots |}.

Lemma contribution_for_sized files path : contributed_fit files →
  from_slots (contribute <$> at_path files path) = Some (contribution_for files path) ∧
  sized (contribution_for files path).
Proof.
  intros Hf.
  assert (Hle : length (mjoin (contribute <$> at_path files path)) ≤ length (mjoin (contribute <$> files))).
  { clear. unfold at_path. induction files as [|f files IH]; [done|]. rewrite filter_cons.
    destruct (decide _); rewrite ?fmap_cons, ?join_cons, ?length_app; lia. }
  unfold contributed_fit in Hf. split; [apply from_slots_spec|unfold sized; simpl]; lia.
Qed.

Definition contribution_at files T (id : nat) : option (FileContribution K C) :=
  path ← paths (interner T) !! id; kept_next (Some (contribution_for files path)).

Lemma contribution_unlisted files T id : table_for (file_path <$> files) T → id ∉ ids T →
  contribution_at files T id = None.
Proof.
  intros HT Hid. unfold contribution_at. destruct (paths (interner T) !! id) as [p|] eqn:E; [|done].
  cbn [mbind option_bind]. assert (Hp : p ∉ file_path <$> files).
  { intros Hp. apply Hid, (listed_path files T id HT). by exists p. }
  apply at_path_nil in Hp. unfold contribution_for. by rewrite Hp.
Qed.

Lemma view_contribution_spec files T id path : table_for (file_path <$> files) T →
  contributed_fit files → paths (interner T) !! id = Some path →
  view_contribution contribute T files id = Some (contribution_for files path).
Proof.
  intros HT Hf Hp. unfold view_contribution. rewrite (slots_of_spec _ _ _ _ HT Hp), places_files.
  cbn [mbind option_bind]. by apply contribution_for_sized.
Qed.

(** ** The fold *)

Lemma take_slots_spec (per_slot : list (option (list (K * C)))) slots found : NoDup slots →
  Forall2 (λ slot entries, per_slot !! slot = Some (Some entries)) slots found →
  ∃ rest, take_slots per_slot slots = Some (found, rest) ∧
    ∀ slot, slot ∉ slots → rest !! slot = per_slot !! slot.
Proof.
  intros Hnd. revert per_slot found. induction Hnd as [|slot slots Hnin Hnd IH]; intros per_slot found Hf.
  { apply Forall2_nil_inv_l in Hf as ->. by exists per_slot. }
  apply Forall2_cons_inv_l in Hf as (entries & found' & Hs & Hf & ->). simpl. rewrite Hs.
  cbn [mbind option_bind]. destruct (IH (<[slot := None]> per_slot) found') as (rest & -> & Hrest).
  { apply Forall2_same_length_lookup. split; [by eapply Forall2_length|]. intros i s e Hi He.
    rewrite list_lookup_insert_ne; [exact (Forall2_lookup_lr _ _ _ i s e Hf Hi He)|].
    intros ->. apply Hnin. by eapply list_elem_of_lookup_2. }
  cbn [mbind option_bind]. exists rest. split; [done|]. intros s Hs'.
  rewrite Hrest by set_solver. rewrite list_lookup_insert_ne; [done|]. set_solver.
Qed.

Lemma fold_loop files T : table_for (file_path <$> files) T → contributed_fit files →
  ∃ contributions rest,
    foldM (fold_id T) ([], (λ file, Some (contribute file)) <$> files) (ids T) =
      Some (contributions, rest) ∧
    contributions = omap (λ id, path ← paths (interner T) !! id;
      Some (id, contribution_for files path)) (ids T).
Proof.
  intros HT Hfit.
  destruct (foldM_spec (λ done state,
      state.1 = omap (λ id, path ← paths (interner T) !! id;
        Some (id, contribution_for files path)) done ∧
      ∀ slot file, files !! slot = Some file →
        (∀ id, id ∈ done → paths (interner T) !! id ≠ Some (file_path file)) →
        state.2 !! slot = Some (Some (contribute file)))
    (fold_id T) (ids T) ([], (λ file, Some (contribute file)) <$> files))
    as ([contributions rest] & E & Hc & _).
  - split; [done|]. intros slot file Hf _. cbn [snd]. by rewrite list_lookup_fmap, Hf.
  - intros done [contributions per_slot] id rest E [Hc Hs]. cbn [fst snd] in *.
    assert (Hid : id ∈ ids T) by (rewrite E; apply elem_of_app; right; by left).
    apply (listed_path files T id HT) in Hid as (path & Hp & _).
    unfold fold_id. cbn [fst snd]. rewrite (slots_of_spec _ _ _ _ HT Hp).
    destruct (take_slots_spec per_slot (places (file_path <$> files) path)
      (contribute <$> at_path files path)) as (per_slot' & -> & Hrest).
    + unfold places. apply NoDup_filter, NoDup_seq.
    + pose proof (places_files contribute files path) as Hpf. apply mapM_Some in Hpf.
      apply Forall2_same_length_lookup. split; [by eapply Forall2_length|]. intros i slot entries Hi He.
      pose proof (Forall2_lookup_lr _ _ _ i _ _ Hpf Hi He) as Hf.
      apply list_elem_of_lookup_2 in Hi. unfold places in Hi. apply list_elem_of_filter in Hi as [Hi _].
      cbn beta in Hf. destruct (files !! slot) as [file|] eqn:Ef; [|done]. injection Hf as <-.
      rewrite list_lookup_fmap, Ef in Hi. injection Hi as Hfp. apply Hs; [done|].
      intros id' Hid' Hp'. assert (id' = id) as ->.
      { eapply interner_inj; [apply (tf_interner _ _ HT)|exact Hp'|]. by rewrite Hfp. }
      pose proof (tf_nodup _ _ HT) as Hnd. rewrite E in Hnd. apply NoDup_app in Hnd as (_ & Hnd & _).
      apply (Hnd id Hid'). by left.
    + cbn [mbind option_bind]. rewrite (proj1 (contribution_for_sized files path Hfit)).
      cbn [mbind option_bind]. eexists. split; [reflexivity|]. cbn [fst snd]. split.
      * rewrite omap_app, Hc. f_equal. cbn [omap list_omap]. by rewrite Hp.
      * intros slot file Hf Hno. rewrite Hrest.
        -- apply Hs; [done|]. intros id' Hid'. apply Hno. set_solver.
        -- unfold places. rewrite list_elem_of_filter, list_lookup_fmap, Hf. intros [[= Hfp] _].
           apply (Hno id); [set_solver|]. by rewrite Hp, <-Hfp.
  - by exists contributions, rest.
Qed.

(** The index of a build holds what each path's files contribute. *)
Definition index_of files T (index : BaseIndex K C) : Prop :=
  index_ok index ∧ ∀ id, by_file index !! id = contribution_at files T id.

Lemma fold_views_spec files T : table_for (file_path <$> files) T → contributed_fit files →
  ∃ index, fold_views contribute T files = Some index ∧ index_of files T index.
Proof.
  intros HT Hfit. unfold fold_views.
  destruct (fold_loop files T HT Hfit) as (contributions & rest & -> & Hc). cbn [mbind option_bind].
  destruct (fold_spec contributions) as (index & -> & Hok & Hf).
  { intros id c Hin. unfold as_changes in Hin. apply list_elem_of_fmap in Hin as ([i d] & [= -> ->] & Hin).
    rewrite Hc in Hin. apply list_elem_of_omap in Hin as (i' & _ & Hp).
    destruct (paths (interner T) !! i') as [path|]; [|done]. injection Hp as _ <-.
    by apply contribution_for_sized. }
  exists index. split; [done|]. split; [done|]. intros id. rewrite Hf.
  assert (Hgen : ∀ l m id, changed_to m (as_changes (omap (λ id, path ← paths (interner T) !! id;
      Some (id, contribution_for files path)) l)) !! id =
    if decide (id ∈ l ∧ is_Some (paths (interner T) !! id)) then contribution_at files T id else m !! id).
  { clear. intros l. induction l as [|i l IH] using rev_ind; intros m id.
    { rewrite decide_False; [done|]. by intros [?%elem_of_nil _]. }
    rewrite omap_app. unfold as_changes, changed_to in *. rewrite fmap_app, foldl_app.
    destruct (paths (interner T) !! i) as [path|] eqn:E; cbn [omap list_omap]; rewrite E;
      cbn [mbind option_bind fmap list_fmap foldl prod_map fst snd Datatypes.id].
    - rewrite with_file_lookup, IH. destruct (decide (id = i)) as [->|Hne].
      + rewrite decide_True by (split; [set_solver|by rewrite E]). unfold contribution_at. by rewrite E.
      + apply decide_ext. set_solver.
    - rewrite IH. apply decide_ext. split; [set_solver|]. intros [Hin Hs]. split; [|done].
      apply elem_of_app in Hin as [?| ->%list_elem_of_singleton]; [done|]. rewrite E in Hs. by destruct Hs. }
  rewrite Hc, Hgen, lookup_empty. case_decide as Hd; [done|].
  destruct (decide (id ∈ ids T)) as [Hin|Hn]; [|by rewrite (contribution_unlisted files T id HT Hn)].
  exfalso. apply Hd. split; [done|]. apply (listed_path files T id HT) in Hin as (p & -> & _). by eexists.
Qed.

Lemma index_of_unique files T index other : index_of files T index → index_of files T other →
  index = other.
Proof.
  intros [H1 H2] [H3 H4]. apply index_ok_ext; [done|done|]. apply map_eq. intros id. by rewrite H2, H4.
Qed.

(** An index of the last build, updated for the ids that are new or that
    contribute otherwise, is an index of this build. *)
Lemma update_views_spec files T before changed removed :
  table_for (file_path <$> files) T → contributed_fit files → index_ok before →
  (∀ id, id ∈ changed → id ∈ ids T) →
  ∃ index delta, update_views contribute T files changed removed before = Some (index, delta) ∧
    index_ok index ∧ (∀ key, key ∈ delta ↔ ranked_values before key ≠ ranked_values index key) ∧
    ((∀ id, id ∈ removed → id ∉ ids T) →
     (∀ id, id ∉ changed → id ∉ removed → by_file before !! id = contribution_at files T id) →
     index_of files T index).
Proof.
  intros HT Hfit Hok Hch. unfold update_views.
  assert (Hreplaced : mapM (λ id, c ← view_contribution contribute T files id; Some (id, Some c)) changed =
    Some (omap (λ id, path ← paths (interner T) !! id; Some (id, Some (contribution_for files path))) changed)).
  { apply mapM_Some. induction changed as [|id changed IH]; [constructor|].
    destruct (proj1 (listed_path files T id HT) (Hch id ltac:(by left))) as (path & Hp & _).
    cbn [omap list_omap]. rewrite Hp. cbn [mbind option_bind]. constructor.
    - by rewrite (view_contribution_spec files T id path HT Hfit Hp).
    - apply IH. intros i Hi. apply Hch. by right. }
  rewrite Hreplaced. cbn [mbind option_bind].
  set (replaced := omap _ changed).
  destruct (update_spec before (replaced ++ ((λ id, (id, None)) <$> removed)) Hok)
    as (index & delta & E & Hok' & Hf & Hd).
  { intros id c [Hin|Hin]%elem_of_app; [|by apply list_elem_of_fmap in Hin as (? & [= ] & _)].
    apply list_elem_of_omap in Hin as (i & _ & Hp). destruct (paths (interner T) !! i); [|done].
    injection Hp as _ <-. by apply contribution_for_sized. }
  exists index, delta. split_and!; [done|done|done|]. intros Hrem Hsame. split; [done|]. intros id. rewrite Hf.
  unfold changed_to. rewrite foldl_app.
  assert (Hdel : ∀ (l : list nat) (m : gmap nat (FileContribution K C)), foldl (λ m' change, with_file m' change.1 change.2) m
      ((λ id, (id, None)) <$> l) !! id =
    if decide (id ∈ l) then (None : option (FileContribution K C)) else m !! id).
  { intros l. induction l as [|i l IH] using rev_ind; intros m.
    { by rewrite decide_False by (by intros ?%elem_of_nil). }
    rewrite fmap_app, foldl_app. cbn [fmap list_fmap foldl fst snd]. rewrite with_file_lookup, IH.
    destruct (decide (id = i)) as [->|Hne]; [by rewrite decide_True by set_solver|].
    apply decide_ext. set_solver. }
  assert (Hrep : ∀ (l : list nat) (m : gmap nat (FileContribution K C)), (∀ id, id ∈ l → id ∈ ids T) →
    foldl (λ m' change, with_file m' change.1 change.2) m
      (omap (λ id, path ← paths (interner T) !! id; Some (id, Some (contribution_for files path))) l) !! id =
    if decide (id ∈ l) then contribution_at files T id else m !! id).
  { clear -HT. intros l. induction l as [|i l IH] using rev_ind; intros m Hl.
    { by rewrite decide_False by (by intros ?%elem_of_nil). }
    destruct (proj1 (listed_path files T i HT) (Hl i ltac:(set_solver))) as (path & Hp & _).
    rewrite omap_app, foldl_app. cbn [omap list_omap]. rewrite Hp. cbn [mbind option_bind foldl fst snd].
    rewrite with_file_lookup, IH by set_solver.
    destruct (decide (id = i)) as [->|Hne].
    - rewrite decide_True by set_solver. unfold contribution_at. by rewrite Hp.
    - apply decide_ext. set_solver. }
  rewrite Hdel. unfold replaced. rewrite Hrep by done. destruct (decide (id ∈ removed)) as [Hr|Hr].
  - by rewrite (contribution_unlisted files T id HT (Hrem id Hr)).
  - destruct (decide (id ∈ changed)); [done|]. by apply Hsame.
Qed.
End one.

(** ** Every index of a build *)

Fixpoint all_of files T (kinds : list (IndexKind File)) : AllIndexes kinds → Prop :=
  match kinds with
  | [] => λ _, True
  | kind :: kinds => λ indexes,
      index_of (ik_contribute kind) files T indexes.1 ∧ all_of files T kinds indexes.2
  end.

Definition all_fit (kinds : list (IndexKind File)) files : Prop :=
  Forall (λ kind, contributed_fit (ik_contribute kind) files) kinds.

Lemma all_fold_spec kinds files T : table_for (file_path <$> files) T → all_fit kinds files →
  ∃ indexes, all_fold T files kinds = Some indexes ∧ all_of files T kinds indexes.
Proof.
  intros HT Hfit. induction Hfit as [|kind kinds Hf Hfit (rest & E & Hrest)]; [by exists ()|]. simpl.
  destruct (fold_views_spec (ik_contribute kind) files T HT Hf) as (index & -> & Hi).
  cbn [mbind option_bind]. rewrite E. cbn [mbind option_bind]. by exists (index, rest).
Qed.

Lemma all_of_unique kinds files T indexes other :
  all_of files T kinds indexes → all_of files T kinds other → indexes = other.
Proof.
  induction kinds as [|kind kinds IH]; [by destruct indexes, other|].
  destruct indexes as [i r], other as [i' r']. cbn [all_of fst snd]. intros [H1 H2] [H3 H4].
  f_equal; [by eapply index_of_unique|by apply IH].
Qed.

(** What an update must know of the last build: that ids it does not name
    contribute the same. *)
Fixpoint all_same files T files' T' (changed removed : list nat) (kinds : list (IndexKind File)) : Prop :=
  match kinds with
  | [] => True
  | kind :: kinds =>
      (∀ id, id ∉ changed → id ∉ removed →
         contribution_at (ik_contribute kind) files T id =
         contribution_at (ik_contribute kind) files' T' id) ∧
      all_same files T files' T' changed removed kinds
  end.

Lemma all_update_spec kinds files T files' T' changed removed before :
  all_of files T kinds before → table_for (file_path <$> files') T' → all_fit kinds files' →
  (∀ id, id ∈ changed → id ∈ ids T') →
  ∃ updated deltas, all_update T' files' changed removed kinds before = Some (updated, deltas) ∧
    ((∀ id, id ∈ removed → id ∉ ids T') → all_same files T files' T' changed removed kinds →
     all_of files' T' kinds updated ∧ deltas = all_changed_keys kinds before updated).
Proof.
  intros Hbefore HT' Hfit Hch. induction Hfit as [|kind kinds Hf Hfit IH].
  { exists (), []. done. }
  destruct before as [index rest]. destruct Hbefore as [[Hok Hi] Hrest]. cbn [fst snd] in *.
  cbn [all_update fst snd].
  destruct (update_views_spec (ik_contribute kind) files' T' index changed removed HT' Hf Hok Hch)
    as (index' & delta & -> & Hok' & Hd & Hof). cbn [mbind option_bind].
  destruct (IH rest Hrest) as (rest' & deltas & -> & Hrest'). cbn [mbind option_bind].
  do 2 eexists. split; [reflexivity|]. intros Hrem [Hsame Hsames].
  destruct (Hrest' Hrem Hsames) as [Hr Hds].
  assert (Hnew : index_of (ik_contribute kind) files' T' index').
  { apply Hof; [done|]. intros id H1 H2. rewrite Hi. by apply Hsame. }
  split; [done|]. cbn [all_changed_keys fst snd]. rewrite Hds. f_equal. f_equal.
  apply set_eq. intros key. by rewrite Hd, changed_keys_spec.
Qed.

Lemma first_different_same (kinds : list (IndexKind File)) (indexes : AllIndexes kinds) : first_different kinds indexes indexes = None.
Proof.
  induction kinds as [|kind kinds IH]; [done|]. cbn [first_different]. unfold index_eqb.
  rewrite !bool_decide_true by done. apply IH.
Qed.

Lemma delta_mismatch_same deltas : delta_mismatch deltas deltas = None.
Proof. induction deltas as [|[index delta] deltas IH]; [done|]. simpl. by rewrite bool_decide_true. Qed.
End views.

(** ** The shadow check *)

Section retained.
Context {File Path Hash : Type} `{Countable Path} `{EqDecision Hash}.
Context (file_path : File → Path) (source_hash : File → Hash).
Context (fingerprint : File → N) (hash_slots : list N → N) (kinds : list (IndexKind File)).
Implicit Types files : list File.
Implicit Types T : FileTable Path.

(** Views with the same digest contribute the same to every index. *)
Definition fingerprints_tell : Prop :=
  ∀ kind, kind ∈ kinds → ∀ l k : list File,
    hash_slots (fingerprint <$> l) = hash_slots (fingerprint <$> k) →
    ik_contribute kind <$> l = ik_contribute kind <$> k.

Definition digest_at files T (id : nat) : option N :=
  path ← paths (interner T) !! id;
  if decide (id ∈ ids T) then Some (hash_slots (fingerprint <$> at_path file_path files path)) else None.

(** What is kept of a build. *)
Definition kept_of files (rb : RetainedBase Path Hash kinds) : Prop :=
  ∃ T, table_for (file_path <$> files) T ∧ rb_interner rb = interner T ∧
    (∀ id, rb_fingerprints rb !! id = digest_at files T id) ∧
    all_of file_path files T kinds (rb_indexes rb).

Lemma by_id_spec {A} (T : FileTable Path) (f : nat → option A) (g : nat → A) :
  NoDup (ids T) → (∀ id, id ∈ ids T → f id = Some (g id)) →
  ∃ m, by_id T f = Some m ∧ ∀ id, m !! id = if decide (id ∈ ids T) then Some (g id) else None.
Proof.
  intros Hnd Hf. unfold by_id.
  assert (Hm : mapM (λ id, a ← f id; Some (id, a)) (ids T) = Some ((λ id, (id, g id)) <$> ids T)).
  { apply mapM_Some. clear Hnd. induction (ids T) as [|id l IH]; [constructor|]. rewrite fmap_cons.
    constructor; [by rewrite Hf by (by left)|]. apply IH. intros i Hi. apply Hf. by right. }
  rewrite Hm. cbn [mbind option_bind]. eexists. split; [reflexivity|]. intros id.
  case_decide as Hid.
  - apply elem_of_list_to_map; [by rewrite <-list_fmap_compose, list_fmap_id|].
    apply list_elem_of_fmap. by exists id.
  - apply not_elem_of_list_to_map. by rewrite <-list_fmap_compose, list_fmap_id.
Qed.

Lemma digests_spec files T : table_for (file_path <$> files) T →
  ∃ m, by_id T (file_fingerprint fingerprint hash_slots T files) = Some m ∧
    ∀ id, m !! id = digest_at files T id.
Proof.
  intros HT.
  destruct (by_id_spec T (file_fingerprint fingerprint hash_slots T files)
    (λ id, hash_slots (fingerprint <$> default [] (at_path file_path files <$> paths (interner T) !! id))))
    as (m & -> & Hm); [apply (tf_nodup _ _ HT)| |].
  - intros id Hid. apply (listed_path file_path files T id HT) in Hid as (path & Hp & _).
    unfold file_fingerprint. rewrite (slots_of_spec _ _ _ _ HT Hp), places_files, Hp. done.
  - exists m. split; [done|]. intros id. rewrite Hm. unfold digest_at. case_decide as Hid.
    + apply (listed_path file_path files T id HT) in Hid as (path & -> & _). done.
    + by destruct (paths (interner T) !! id).
Qed.

Lemma sources_spec files T : table_for (file_path <$> files) T →
  is_Some (by_id T (file_source source_hash T files)).
Proof.
  intros HT. unfold by_id.
  enough (Hm : Forall (λ id, is_Some (file_source source_hash T files id)) (ids T)).
  { destruct (mapM _ (ids T)) as [rows|] eqn:E; [by eexists|]. exfalso. apply mapM_None in E.
    apply Exists_exists in E as (id & Hid & E). rewrite Forall_forall in Hm.
    destruct (Hm id Hid) as [a Ha]. by rewrite Ha in E. }
  apply Forall_forall. intros id Hid. pose proof Hid as Hid'.
  apply (listed_path file_path files T id HT) in Hid' as (path & Hp & Hin).
  unfold file_source. rewrite (slots_of_spec _ _ _ _ HT Hp).
  pose proof (places_nil (file_path <$> files) path) as Hn.
  destruct (places (file_path <$> files) path) as [|slot l] eqn:E; [by apply Hn in Hin|].
  cbn [lookup list_lookup mbind option_bind].
  assert (Hs : slot ∈ places (file_path <$> files) path) by (rewrite E; by left).
  apply list_elem_of_filter in Hs as [Hs _]. rewrite list_lookup_fmap in Hs.
  destruct (files !! slot); [by eexists|done].
Qed.

(** The ids a check names neither changed nor removed contribute the same. *)
Lemma unnamed_same files T files' T' changed removed :
  fingerprints_tell → table_for (file_path <$> files) T → table_for (file_path <$> files') T' →
  paths (interner T) `prefix_of` paths (interner T') →
  (∀ id, id ∈ ids T' → digest_at files T id ≠ digest_at files' T' id → id ∈ changed) →
  (∀ id, is_Some (digest_at files T id) → digest_at files' T' id = None → id ∈ removed) →
  ∀ ks, (∀ kind, kind ∈ ks → kind ∈ kinds) → all_same file_path files T files' T' changed removed ks.
Proof.
  intros Htell HT HT' Hpre Hch Hrem ks. induction ks as [|kind ks IH]; intros Hks; [done|].
  split; [|apply IH; intros; apply Hks; by right]. clear IH. intros id Hnc Hnr.
  destruct (decide (id ∈ ids T')) as [Hid'|Hid'].
  - destruct (decide (digest_at files T id = digest_at files' T' id)) as [E|E]; [|by destruct Hnc; apply Hch].
    pose proof Hid' as Hlisted. apply (listed_path file_path files' T' id HT') in Hlisted as (path & Hp' & _).
    unfold digest_at in E. rewrite Hp' in E. cbn [mbind option_bind] in E.
    rewrite (decide_True (P := id ∈ ids T')) in E by done.
    destruct (paths (interner T) !! id) as [q|] eqn:Eq; [|done]. cbn [mbind option_bind] in E.
    assert (q = path) as ->.
    { destruct Hpre as [k Ek]. rewrite Ek, (lookup_app_l_Some _ k _ q Eq) in Hp'. by injection Hp'. }
    case_decide as Hid; [|done]. injection E as E.
    unfold contribution_at. rewrite Eq, Hp'. cbn [mbind option_bind]. unfold contribution_for.
    by rewrite (Htell kind (Hks kind ltac:(by left)) _ _ E).
  - rewrite (contribution_unlisted file_path _ files' T' id HT' Hid').
    apply contribution_unlisted; [done|]. intros Hid. apply Hnr, Hrem.
    + unfold digest_at. pose proof Hid as Hl. apply (listed_path file_path files T id HT) in Hl as (p & -> & _).
      cbn [mbind option_bind]. rewrite decide_True by done. by eexists.
    + unfold digest_at. destruct (paths (interner T') !! id); [|done]. cbn [mbind option_bind].
      by rewrite decide_False.
Qed.

(** A check of a build against what is kept of the last one. *)
Lemma retained_check_spec files rb files' T' :
  fingerprints_tell → kept_of files rb → table_for (file_path <$> files') T' →
  paths (rb_interner rb) `prefix_of` paths (interner T') → all_fit kinds files' →
  ∃ rb' check, retained_check source_hash fingerprint hash_slots kinds (Some rb) T' files' =
      Some (rb', Some check) ∧ mismatch check = None ∧ kept_of files' rb' ∧
    rb_interner rb' = interner T'.
Proof.
  intros Htell (T & HT & Hint & Hdig & Hall) HT' Hpre Hfit. unfold retained_check.
  destruct (digests_spec files' T' HT') as (fps & -> & Hfps).
  destruct (sources_spec files' T' HT') as [sources ->]. cbn [mbind option_bind].
  set (changed := merge_sort _ _). set (removed := ascending _). set (edited := filter _ changed).
  assert (Hchanged : ∀ id, id ∈ changed ↔ id ∈ ids T' ∧ digest_at files T id ≠ digest_at files' T' id).
  { intros id. unfold changed. rewrite merge_sort_Permutation, list_elem_of_filter, Hdig, Hfps. tauto. }
  assert (Hremoved : ∀ id, id ∈ removed ↔ is_Some (digest_at files T id) ∧ digest_at files' T' id = None).
  { intros id. unfold removed. rewrite elem_of_ascending, elem_of_filter, elem_of_dom, Hdig, Hfps. tauto. }
  destruct (all_update_spec file_path kinds files T files' T' edited removed _ Hall HT' Hfit)
    as (e & d & -> & _).
  { intros id [_ Hid]%list_elem_of_filter. by apply Hchanged in Hid as [? _]. }
  destruct (all_update_spec file_path kinds files T files' T' changed removed _ Hall HT' Hfit)
    as (updated & deltas & -> & Hup).
  { intros id Hid. by apply Hchanged in Hid as [? _]. }
  destruct (all_fold_spec file_path kinds files' T' HT' Hfit) as (fresh & -> & Hfresh).
  cbn [mbind option_bind]. do 2 eexists. split; [reflexivity|]. cbn [mismatch rb_interner].
  destruct Hup as [Hup ->].
  - intros id [_ Hr]%Hremoved Hid. unfold digest_at in Hr. pose proof Hid as Hl.
    apply (listed_path file_path files' T' id HT') in Hl as (p & Hp & _). rewrite Hp in Hr.
    cbn [mbind option_bind] in Hr. by rewrite decide_True in Hr.
  - apply unnamed_same; try done; [by rewrite <-Hint| |].
    + intros id Hid Hne. by apply Hchanged.
    + intros id Hs Hn. by apply Hremoved.
  - rewrite (all_of_unique file_path kinds files' T' updated fresh Hup Hfresh).
    rewrite first_different_same. split; [apply delta_mismatch_same|]. split; [|done]. by exists T'.
Qed.

(** ** Builds *)

(** The builds of a session: each under the retained interner, checked against
    what the one before kept. *)
Fixpoint retained_builds (retained : option (RetainedBase Path Hash kinds)) (builds : list (list File))
    : option (option (RetainedBase Path Hash kinds) * list (option BaseCheck)) :=
  match builds with
  | [] => Some (retained, [])
  | files :: builds =>
      T ← retained_table file_path kinds retained files;
      '(rb, check) ← retained_check source_hash fingerprint hash_slots kinds retained T files;
      '(last, checks) ← retained_builds (Some rb) builds;
      Some (last, check :: checks)
  end.

Definition builds_fit (builds : list (list File)) : Prop :=
  (Z.of_nat (sum_list (length <$> builds)) ≤ 2 ^ 32)%Z ∧ Forall (all_fit kinds) builds.

Lemma retained_builds_spec builds files rb : fingerprints_tell → kept_of files rb →
  room (rb_interner rb) (sum_list (length <$> builds)) → Forall (all_fit kinds) builds →
  ∃ rb' checks, retained_builds (Some rb) builds = Some (Some rb', checks) ∧
    kept_of (default files (last builds)) rb' ∧
    Forall (λ check, ∃ found, check = Some found ∧ mismatch found = None) checks.
Proof.
  intros Htell. revert files rb. induction builds as [|next builds IH]; intros files rb Hk Hroom Hfit.
  { exists rb, []. split_and!; [done|done|constructor]. }
  apply Forall_cons in Hfit as [Hfit Hfits]. cbn [retained_builds fmap list_fmap sum_list] in *.
  pose proof Hk as (T0 & HT0 & Hint & _). unfold retained_table.
  destruct (with_interner_spec (file_path <$> next) (rb_interner rb) (sum_list (length <$> builds)))
    as (T & -> & HT & Hroom' & Hpre).
  { rewrite Hint. apply (tf_interner _ _ HT0). }
  { by rewrite length_fmap. }
  cbn [mbind option_bind].
  destruct (retained_check_spec files rb next T Htell Hk HT Hpre Hfit) as (rb' & check & -> & Hm & Hk' & Hi).
  cbn [mbind option_bind]. destruct (IH next rb' Hk') as (rb2 & checks & -> & Hk2 & Hchecks).
  { by rewrite Hi. } { done. }
  cbn [mbind option_bind]. exists rb2, (Some check :: checks). split_and!; [done| |].
  - rewrite last_cons. by destruct (last builds).
  - constructor; [by exists check|done].
Qed.

Lemma first_build_spec files T : table_for (file_path <$> files) T → all_fit kinds files →
  ∃ rb, retained_check source_hash fingerprint hash_slots kinds None T files = Some (rb, None) ∧
    kept_of files rb ∧ rb_interner rb = interner T.
Proof.
  intros HT Hfit. unfold retained_check. destruct (digests_spec files T HT) as (fps & -> & Hfps).
  destruct (sources_spec files T HT) as [sources ->]. cbn [mbind option_bind].
  destruct (all_fold_spec file_path kinds files T HT Hfit) as (fresh & -> & Hfresh).
  cbn [mbind option_bind]. eexists. split; [reflexivity|]. split; [|done]. by exists T.
Qed.
End retained.

(** ** Claims *)


(** A path's slots keep their entries. Over slots whose entries fit a
    [u32], the contribution has them in order, hands back the entries of every
    slot (none past the last), and gives each entry the rank of the slot that
    produced it. *)
Theorem contribution_slots_exact {K C} (slots : list (list (K * C))) :
  (Z.of_nat (length (mjoin slots)) < 2 ^ 32)%Z →
  ∃ c, from_slots slots = Some c ∧ entries c = mjoin slots ∧
    (∀ rank, contribution_slot c rank = Some (default [] (slots !! rank))) ∧
    ∀ rank slot j entry, slots !! rank = Some slot → slot !! j = Some entry →
      let position := length (mjoin (take rank slots)) + j in
      entries c !! position = Some entry ∧ rank_of c position = rank.
Proof.
  intros Hs. eexists. split; [by apply from_slots_spec|]. split; [done|]. split.
  - apply contribution_slot_spec.
  - apply slot_entry_spec.
Qed.

(** C27: a file table answers what a scan of the files finds. Interning keeps
    every id given before; the ids list each path once, in the order the files
    first name it; each slot names its file's path; a path's first and
    last slot and a slot's rank are those of its places in the list; and moving
    the slots under another interner is reading the files again. *)
Theorem file_table_is_its_slots `{Countable Path} (files : list Path) (t : FileInterner Path) :
  interner_ok t → room t (length files) →
  ∃ T, with_interner files t = Some T ∧ paths t `prefix_of` paths (interner T) ∧
    slot_count T = length files ∧ mapM (path_of T) (ids T) = Some (listed_once files) ∧
    (∀ slot, (id ← slot_id T slot; path_of T id) = files !! slot) ∧
    (∀ path, first_slot T path = head (places files path) ∧
       last_slot T path = last (places files path) ∧
       contains_path T path = bool_decide (path ∈ files)) ∧
    (∀ slot path, files !! slot = Some path → ∃ rank, slot_rank T slot = Some rank ∧
       places files path !! rank = Some slot) ∧
    ∀ t', reinterned T t' = with_interner files t'.
Proof.
  intros Hok Hroom. destruct (with_interner_spec files t 0 Hok) as (T & E & HT & _ & Hpre).
  { by rewrite Nat.add_0_r. }
  exists T. split; [done|]. split; [done|]. split; [by apply (Forall2_length _ _ _ (tf_ids _ _ HT))|].
  split_and!.
  - by apply ids_spec.
  - intros slot. by apply slot_path_spec.
  - intros path. split_and!; [by apply first_slot_spec|by apply last_slot_spec|by apply contains_path_spec].
  - intros slot path Hs. by apply slot_rank_spec.
  - intros t'. by apply reinterned_spec.
Qed.

(** C7: the kept base never differs from a fresh one. Over any builds, where
    views with equal digests contribute alike, every shadow check runs without
    a panic and finds no mismatch: every updated index equals its refold and
    every change list is exact; and what is kept after the last build holds
    the contributions of exactly its files. *)
Theorem retained_base_never_differs {File Path Hash} `{Countable Path} `{EqDecision Hash}
    (file_path : File → Path) (source_hash : File → Hash) (fingerprint : File → N)
    (hash_slots : list N → N) (kinds : list (IndexKind File)) files builds :
  fingerprints_tell fingerprint hash_slots kinds → builds_fit kinds (files :: builds) →
  ∃ rb checks,
    retained_builds file_path source_hash fingerprint hash_slots kinds None (files :: builds) =
      Some (Some rb, None :: checks) ∧
    Forall (λ check, ∃ found, check = Some found ∧ mismatch found = None) checks ∧
    kept_of file_path fingerprint hash_slots kinds (default files (last builds)) rb.
Proof.
  intros Htell [Hroom Hfit]. apply Forall_cons in Hfit as [Hfit Hfits]. cbn [retained_builds].
  unfold retained_table.
  destruct (with_interner_spec (file_path <$> files) interner_default (sum_list (length <$> builds)))
    as (T & -> & HT & Hroom' & _).
  { apply interner_default_ok. }
  { rewrite length_fmap. exact Hroom. }
  cbn [mbind option_bind].
  destruct (first_build_spec file_path source_hash fingerprint hash_slots kinds files T HT Hfit)
    as (rb & -> & Hk & Hi). cbn [mbind option_bind].
  destruct (retained_builds_spec file_path source_hash fingerprint hash_slots kinds builds files rb
    Htell Hk) as (rb' & checks & -> & Hk' & Hchecks).
  { by rewrite Hi. } { done. }
  cbn [mbind option_bind]. by exists rb', checks.
Qed.

(** ** Samples *)

Definition contributed_b : FileContribution N N := {| entries := [(2, 20)]%N; slot_ends := [0; 1] |}.
Definition contributed_c : FileContribution N N := {| entries := [(2, 20)]%N; slot_ends := [1; 1] |}.






(** A key whose entry only moves to another slot of its path is reported though
    its values are the same: the change list is that of the ranked values. *)
Lemma moved_rank_is_reported :
  (index ← fold [(2, contributed_b)]; update index [(2, Some contributed_c)]) ≫=
    (λ '(index', delta), Some (bool_decide (2%N ∈ delta), values index' 2%N)) =
    Some (true, Some [(2, 20%N)]) ∧
  (index ← fold [(2, contributed_b)]; values index 2%N) = Some [(2, 20%N)].
Proof. split; vm_compute; reflexivity. Qed.

Lemma contribution_slots_exact_witness :
  ∃ c, from_slots [[(1, 10); (2, 20)]; []; [(1, 11)]]%N = Some c ∧
    entries c = mjoin [[(1, 10); (2, 20)]; []; [(1, 11)]]%N ∧
    (∀ rank, contribution_slot c rank = Some (default [] ([[(1, 10); (2, 20)]; []; [(1, 11)]]%N !! rank))) ∧
    ∀ rank slot j entry, [[(1, 10); (2, 20)]; []; [(1, 11)]]%N !! rank = Some slot → slot !! j = Some entry →
      let position := length (mjoin (take rank [[(1, 10); (2, 20)]; []; [(1, 11)]]%N)) + j in
      entries c !! position = Some entry ∧ rank_of c position = rank.
Proof.
  assert (Hs : (Z.of_nat (length (mjoin [[(1, 10); (2, 20)]; []; [(1, 11)]]%N)) < 2 ^ 32)%Z) by (simpl; lia).
  exact (contribution_slots_exact [[(1, 10); (2, 20)]; []; [(1, 11)]]%N Hs).
Defined.

Lemma file_table_is_its_slots_witness :
  ∃ T, with_interner [7; 3; 7]%N interner_default = Some T ∧
    paths interner_default `prefix_of` paths (interner T) ∧
    slot_count T = 3 ∧ mapM (path_of T) (ids T) = Some (listed_once [7; 3; 7]%N) ∧
    (∀ slot, (id ← slot_id T slot; path_of T id) = [7; 3; 7]%N !! slot) ∧
    (∀ path, first_slot T path = head (places [7; 3; 7]%N path) ∧
       last_slot T path = last (places [7; 3; 7]%N path) ∧
       contains_path T path = bool_decide (path ∈ [7; 3; 7]%N)) ∧
    (∀ slot path, [7; 3; 7]%N !! slot = Some path → ∃ rank, slot_rank T slot = Some rank ∧
       places [7; 3; 7]%N path !! rank = Some slot) ∧
    ∀ t', reinterned T t' = with_interner [7; 3; 7]%N t'.
Proof.
  assert (Hroom : room (interner_default (Path := N)) (length [7; 3; 7]%N)) by (unfold room; simpl; lia).
  exact (file_table_is_its_slots [7; 3; 7]%N interner_default interner_default_ok Hroom).
Defined.

(** A file of a sample project: its path and its text. *)
Definition file_a : Type := N * N.

Definition kind_a : IndexKind file_a := {|
  ik_name := "members"; ik_key := N; ik_value := N;
  ik_key_eq := _; ik_key_countable := _; ik_value_eq := _;
  ik_contribute := λ file, if (file.2 =? 0)%N then [] else [((file.2 mod 4)%N, file.2); (0%N, 1%N)];
  ik_render := λ key, if (key =? 0)%N then "zero" else "other"
|}.

Definition kind_b : IndexKind file_a := {|
  ik_name := "hazards"; ik_key := bool; ik_value := ();
  ik_key_eq := _; ik_key_countable := _; ik_value_eq := _;
  ik_contribute := λ file, [(N.even file.2, ())];
  ik_render := λ key, if key : bool then "even" else "odd"
|}.

Definition hash_a (slots : list N) : N := Npos (encode slots).

Lemma hash_a_tells : fingerprints_tell snd hash_a [kind_a; kind_b].
Proof.
  intros kind Hkind l k E. unfold hash_a in E. injection E as E. apply (inj encode) in E.
  assert (Hall : ∀ (B : Type) (g : N → list B),
    (λ file : file_a, g file.2) <$> l = (λ file : file_a, g file.2) <$> k).
  { intros B g. apply (f_equal (fmap g)) in E. by rewrite <-!list_fmap_compose in E. }
  apply elem_of_cons in Hkind as [->|Hkind].
  - apply (Hall _ (λ text, if (text =? 0)%N then [] else [((text mod 4)%N, text); (0%N, 1%N)])).
  - apply list_elem_of_singleton in Hkind as ->. apply (Hall _ (λ text, [(N.even text, ())])).
Qed.

Definition builds_a : list (list file_a) := [[(1, 6); (2, 7); (3, 2); (1, 9)]; [(2, 0)]]%N.

Lemma builds_a_fit : builds_fit [kind_a; kind_b] ([(1, 5); (2, 7)]%N :: builds_a).
Proof.
  split; [simpl; lia|]. repeat constructor; unfold contributed_fit; simpl; lia.
Qed.

Lemma retained_base_never_differs_witness :
  ∃ rb checks,
    retained_builds fst snd snd hash_a [kind_a; kind_b] None ([(1, 5); (2, 7)]%N :: builds_a) =
      Some (Some rb, None :: checks) ∧
    Forall (λ check, ∃ found, check = Some found ∧ mismatch found = None) checks ∧
    kept_of fst snd hash_a [kind_a; kind_b] (default [(1, 5); (2, 7)]%N (last builds_a)) rb.
Proof.
  exact (retained_base_never_differs fst snd snd hash_a [kind_a; kind_b] [(1, 5); (2, 7)]%N builds_a
    hash_a_tells builds_a_fit).
Defined.
