(* ===== verification/Reads.v ===== *)
(** * What a chunk read

    [rust/crates/solid-reactive-ir/src/base/reads.rs]: the read sets of stage
    chunks, kept as shared sorted runs; the recording frames of a thread that
    notes reach; the per-build caches that replay their reads; and the proof of
    a read set, checked against a later build. A shared [Arc] is its contents
    with an address, and the thread hands out addresses, none twice: an [Arc]
    a recording or a cache of the build refers to stays alive while it may be
    compared. The cost counters and
    the report of a miss are left out. *)
From S2P Require Import Prelude Order.

(** ** Sections and memo reads *)

Inductive Section_ :=
  | Components | MemberTargets | SpreadTargets | LiteralReceivers | FlowAnswers | EventLiterals
  | NeverReturning | ReturnedSources | ReturnedCallbacks | SynchronousDispatch | DispatchVeto
  | ReflectiveDefinition | ReflectivePrototypeWrite | RouteComponents | ContextSymbols
  | ProjectPrimitives | FlushVeto.

#[global] Instance Section_eq_dec : EqDecision Section_.
Proof. solve_decision. Defined.

Definition sections_all : list Section_ :=
  [Components; MemberTargets; SpreadTargets; LiteralReceivers; FlowAnswers; EventLiterals;
   NeverReturning; ReturnedSources; ReturnedCallbacks; SynchronousDispatch; DispatchVeto;
   ReflectiveDefinition; ReflectivePrototypeWrite; RouteComponents; ContextSymbols;
   ProjectPrimitives; FlushVeto].

(** [self as u8]. *)
Definition section_code (s : Section_) : N :=
  match s with
  | Components => 0 | MemberTargets => 1 | SpreadTargets => 2 | LiteralReceivers => 3
  | FlowAnswers => 4 | EventLiterals => 5 | NeverReturning => 6 | ReturnedSources => 7
  | ReturnedCallbacks => 8 | SynchronousDispatch => 9 | DispatchVeto => 10
  | ReflectiveDefinition => 11 | ReflectivePrototypeWrite => 12 | RouteComponents => 13
  | ContextSymbols => 14 | ProjectPrimitives => 15 | FlushVeto => 16
  end%N.

Definition section_bit (s : Section_) : N := N.shiftl 1 (section_code s).

Record MemoRead := { mr_table : N; mr_query : N; mr_changed_at : N }.

#[global] Instance MemoRead_eq_dec : EqDecision MemoRead.
Proof. solve_decision. Defined.

(** The derived [Ord]: field by field. *)
Definition memo_cmp (a b : MemoRead) : comparison :=
  then_cmp (N.compare (mr_table a) (mr_table b))
    (then_cmp (N.compare (mr_query a) (mr_query b))
      (N.compare (mr_changed_at a) (mr_changed_at b))).

(** [sort_unstable] and [dedup]. *)
Definition normalized (memos : list MemoRead) : list MemoRead :=
  dedup (merge_sort (cmp_le memo_cmp) memos).

(** ** Read sets *)

(** An [Arc<[MemoRead]>]. *)
Record Run := { run_at : nat; run_reads : list MemoRead }.

Record Reads := { rd_sections : N; rd_runs : list Run; rd_tail : list MemoRead }.

Definition reads_default : Reads := {| rd_sections := 0; rd_runs := []; rd_tail := [] |}.

Definition tail_max : nat := 64.
Definition runs_max : nat := 16.

Definition nil_list {A} (l : list A) : bool := match l with [] => true | _ => false end.

Definition reads_is_empty (r : Reads) : bool :=
  (rd_sections r =? 0)%N && nil_list (rd_runs r) && nil_list (rd_tail r).

Definition reads_sections (r : Reads) : list Section_ :=
  filter (λ s, N.land (rd_sections r) (section_bit s) ≠ 0%N) sections_all.

Definition memo_reads (r : Reads) : list MemoRead :=
  mjoin (run_reads <$> rd_runs r) ++ rd_tail r.

Definition has_memos (r : Reads) : bool := negb (nil_list (rd_runs r)) || negb (nil_list (rd_tail r)).

Definition distinct_memos (r : Reads) : list MemoRead := normalized (memo_reads r).

Definition reads_eqb (a b : Reads) : bool :=
  (rd_sections a =? rd_sections b)%N && bool_decide (distinct_memos a = distinct_memos b).

Definition into_memo_reads (r : Reads) : list MemoRead * list Section_ :=
  (distinct_memos r, reads_sections r).

(** [sort_by_key] by the reversed length. *)
Definition run_ge (a b : Run) : Prop := length (run_reads b) ≤ length (run_reads a).
#[global] Instance run_ge_dec a b : Decision (run_ge a b) := decide (_ ≤ _).

(** Merges the smaller half of too many runs; [next] is the next address. *)
Definition bound_runs (r : Reads) (next : nat) : Reads * nat :=
  if (length (rd_runs r) <=? runs_max)%nat then (r, next)
  else
    let runs := merge_sort run_ge (rd_runs r) in
    let small := drop (runs_max / 2) runs in
    let merged := normalized (mjoin (run_reads <$> small)) in
    ({| rd_sections := rd_sections r;
        rd_runs := take (runs_max / 2) runs ++ [{| run_at := next; run_reads := merged |}];
        rd_tail := rd_tail r |}, S next).

Definition reads_of (sections : N) (runs : list Run) (own : list MemoRead) (next : nat) : Reads * nat :=
  match own with
  | [] => bound_runs {| rd_sections := sections; rd_runs := runs; rd_tail := [] |} next
  | _ => bound_runs {| rd_sections := sections;
                       rd_runs := runs ++ [{| run_at := next; run_reads := own |}];
                       rd_tail := [] |} (S next)
  end.

Definition add_run (runs : list Run) (run : Run) : list Run :=
  if existsb (λ held, run_at held =? run_at run)%nat runs then runs else runs ++ [run].

Definition reads_extend (self other : Reads) (next : nat) : Reads * nat :=
  let sections := N.lor (rd_sections self) (rd_sections other) in
  let runs := foldl add_run (rd_runs self) (rd_runs other) in
  match rd_tail other with
  | [] => bound_runs {| rd_sections := sections; rd_runs := runs; rd_tail := rd_tail self |} next
  | other_tail =>
      let tail := rd_tail self ++ other_tail in
      if (tail_max <? length tail)%nat
      then bound_runs {| rd_sections := sections;
                         rd_runs := runs ++ [{| run_at := next; run_reads := normalized tail |}];
                         rd_tail := [] |} (S next)
      else bound_runs {| rd_sections := sections; rd_runs := runs; rd_tail := tail |} next
  end.

(** One run without the reads of some tables, as it was when it has none. *)
Definition run_without (lo hi : N) (state : list Run * nat) (run : Run) : list Run * nat :=
  let '(runs, next) := state in
  let kept := filter (λ read, ¬ (lo ≤ mr_table read < hi)%N) (run_reads run) in
  if bool_decide (kept = run_reads run) then (runs ++ [run], next)
  else match kept with
       | [] => (runs, next)
       | _ => (runs ++ [{| run_at := next; run_reads := kept |}], S next)
       end.

(** The reads outside the tables from [lo] below [hi]. *)
Definition without_tables (r : Reads) (lo hi : N) (next : nat) : Reads * nat :=
  if bool_decide (Forall (λ read, ¬ (lo ≤ mr_table read < hi)%N) (memo_reads r)) then (r, next)
  else
    let '(runs, next) := foldl (run_without lo hi) ([], next) (rd_runs r) in
    ({| rd_sections := rd_sections r; rd_runs := runs;
        rd_tail := filter (λ read, ¬ (lo ≤ mr_table read < hi)%N) (rd_tail r) |}, next).

(** ** Frames *)

Record Frame := {
  fr_suppressed : bool;
  fr_serial : N;
  fr_sections : N;
  fr_memos : list MemoRead;
  fr_runs : list Run;
  fr_replayed : gset nat
}.

Definition frame_default : Frame :=
  {| fr_suppressed := false; fr_serial := 0; fr_sections := 0; fr_memos := []; fr_runs := [];
     fr_replayed := ∅ |}.

Definition frame_finish (f : Frame) (next : nat) : Reads * nat :=
  reads_of (fr_sections f) (fr_runs f) (normalized (fr_memos f)) next.

Definition frame_add (f : Frame) (r : Reads) : Frame :=
  {| fr_suppressed := fr_suppressed f; fr_serial := fr_serial f;
     fr_sections := N.lor (fr_sections f) (rd_sections r);
     fr_memos := fr_memos f ++ rd_tail r;
     fr_runs := foldl add_run (fr_runs f) (rd_runs r);
     fr_replayed := fr_replayed f |}.

Definition frame_section (f : Frame) (bits : N) : Frame :=
  {| fr_suppressed := fr_suppressed f; fr_serial := fr_serial f;
     fr_sections := N.lor (fr_sections f) bits; fr_memos := fr_memos f; fr_runs := fr_runs f;
     fr_replayed := fr_replayed f |}.

Definition frame_memo (f : Frame) (read : MemoRead) : Frame :=
  {| fr_suppressed := fr_suppressed f; fr_serial := fr_serial f; fr_sections := fr_sections f;
     fr_memos := fr_memos f ++ [read]; fr_runs := fr_runs f; fr_replayed := fr_replayed f |}.

Definition frame_replayed (f : Frame) (address : nat) : Frame :=
  {| fr_suppressed := fr_suppressed f; fr_serial := fr_serial f; fr_sections := fr_sections f;
     fr_memos := fr_memos f; fr_runs := fr_runs f; fr_replayed := {[address]} ∪ fr_replayed f |}.

Section recording.
(** What the caches hold. *)
Context {V : Type}.

(** A thread: its stack of frames, innermost first, and the cells beside it; the
    next address; whether a probe is running; and the caches of the build. *)
Record Thread := {
  th_frames : list Frame;
  th_depth : nat;
  th_opened : N;
  th_current : N;
  th_noted_in : Section_ → N;
  th_next : nat;
  th_probing : bool;
  th_cells : gmap nat (V * (nat * Reads));
  th_probed : gmap nat V
}.

Definition thread_default : Thread :=
  {| th_frames := []; th_depth := 0; th_opened := 0; th_current := 0; th_noted_in := λ _, 0%N;
     th_next := 0; th_probing := false; th_cells := ∅; th_probed := ∅ |}.

(** [None] is a panic. *)
Definition Rec (A : Type) : Type := Thread → option (A * Thread).
#[global] Instance rec_ret : MRet Rec := λ A a t, Some (a, t).
#[global] Instance rec_bind : MBind Rec := λ A B k m t, '(a, t) ← m t; k a t.

Definition with_frames (frames : list Frame) (t : Thread) : Thread :=
  {| th_frames := frames; th_depth := th_depth t; th_opened := th_opened t;
     th_current := th_current t; th_noted_in := th_noted_in t; th_next := th_next t;
     th_probing := th_probing t; th_cells := th_cells t; th_probed := th_probed t |}.

Definition with_next (next : nat) (t : Thread) : Thread :=
  {| th_frames := th_frames t; th_depth := th_depth t; th_opened := th_opened t;
     th_current := th_current t; th_noted_in := th_noted_in t; th_next := next;
     th_probing := th_probing t; th_cells := th_cells t; th_probed := th_probed t |}.

Definition with_noted (noted : Section_ → N) (t : Thread) : Thread :=
  {| th_frames := th_frames t; th_depth := th_depth t; th_opened := th_opened t;
     th_current := th_current t; th_noted_in := noted; th_next := th_next t;
     th_probing := th_probing t; th_cells := th_cells t; th_probed := th_probed t |}.

(** The innermost frame, changed: nothing outside every recording. *)
Definition on_top (f : Frame → Frame) (t : Thread) : Thread :=
  match th_frames t with
  | top :: frames => with_frames (f top :: frames) t
  | [] => t
  end.

Definition recording (t : Thread) : bool := negb (th_depth t =? 0)%nat.

Definition recording_frame (t : Thread) : option N :=
  if recording t then
    f ← head (th_frames t); if fr_suppressed f then None else Some (fr_serial f)
  else None.

Definition current_frame (t : Thread) : N := th_current t.

Definition note (s : Section_) : Rec () := λ t,
  Some ((), if recording t then on_top (λ f, frame_section f (section_bit s)) t else t).

Definition note_once (s : Section_) : Rec () := λ t,
  if recording t then
    let noted := th_noted_in t s in
    let t := with_noted (λ s', if decide (s' = s) then th_current t else th_noted_in t s') t in
    if (noted =? th_current t)%N then Some ((), t) else note s t
  else Some ((), t).

Definition note_memo (read : MemoRead) : Rec () := λ t,
  Some ((), if recording t then on_top (λ f, frame_memo f read) t else t).

Definition replay (r : Reads) : Rec () := λ t,
  Some ((), if reads_is_empty r || negb (recording t) then t else on_top (λ f, frame_add f r) t).

(** A shared read set, by its address. *)
Definition replay_shared (address : nat) (r : Reads) : Rec () := λ t,
  Some ((), if reads_is_empty r || negb (recording t) then t
    else on_top (λ f,
      if negb (has_memos r) then frame_section f (rd_sections r)
      else if decide (address ∈ fr_replayed f) then f
      else frame_add (frame_replayed f address) r) t).

(** Opens a frame and returns the one it covers, for the guard to restore. *)
Definition push : Rec N := λ t,
  let serial := (th_opened t + 1)%N in
  Some (th_current t,
    {| th_frames := {| fr_suppressed := false; fr_serial := serial; fr_sections := 0;
                       fr_memos := []; fr_runs := []; fr_replayed := ∅ |} :: th_frames t;
       th_depth := S (th_depth t); th_opened := serial; th_current := serial;
       th_noted_in := th_noted_in t; th_next := th_next t; th_probing := th_probing t;
       th_cells := th_cells t; th_probed := th_probed t |}).

(** The drop of a frame guard. *)
Definition pop (previous : N) : Rec () := λ t,
  match th_depth t with
  | 0 => None
  | S depth =>
      Some ((), {| th_frames := tail (th_frames t); th_depth := depth; th_opened := th_opened t;
                   th_current := previous; th_noted_in := th_noted_in t; th_next := th_next t;
                   th_probing := th_probing t; th_cells := th_cells t; th_probed := th_probed t |})
  end.

Definition take_top : Rec Frame := λ t,
  match th_frames t with
  | top :: frames => Some (top, with_frames (frame_default :: frames) t)
  | [] => None
  end.

Definition finish (f : Frame) : Rec Reads := λ t,
  let '(r, next) := frame_finish f (th_next t) in Some (r, with_next next t).

Definition record_detached {A} (f : Rec A) : Rec (A * Reads) :=
  guard ← push;
  value ← f;
  top ← take_top;
  reads ← finish top;
  pop guard;;
  mret (value, reads).

Definition record {A} (f : Rec A) : Rec (A * Reads) :=
  '(value, reads) ← record_detached f;
  replay reads;;
  mret (value, reads).

(** An open recording: its guard. *)
Definition begin : Rec N := push.

Definition so_far : Rec Reads := λ t,
  match th_frames t with
  | top :: _ => finish top t
  | [] => None
  end.

Definition recording_finish (guard : N) : Rec Reads :=
  top ← take_top;
  reads ← finish top;
  pop guard;;
  replay reads;;
  mret reads.

Definition suppress {A} (f : Rec A) : Rec A :=
  guard ← push;
  (λ t, Some ((), on_top (λ f, {| fr_suppressed := true; fr_serial := fr_serial f;
     fr_sections := fr_sections f; fr_memos := fr_memos f; fr_runs := fr_runs f;
     fr_replayed := fr_replayed f |}) t));;
  value ← f;
  pop guard;;
  mret value.

(** ** Caches *)

Definition fill_cell (id : nat) (value : V) (r : Reads) : Rec (nat * Reads) := λ t,
  let shared := (th_next t, r) in
  Some (shared, {| th_frames := th_frames t; th_depth := th_depth t; th_opened := th_opened t;
     th_current := th_current t; th_noted_in := th_noted_in t; th_next := S (th_next t);
     th_probing := th_probing t; th_cells := <[id := (value, shared)]> (th_cells t);
     th_probed := th_probed t |}).

Definition fill_probed (id : nat) (value : V) : Rec () := λ t,
  Some ((), {| th_frames := th_frames t; th_depth := th_depth t; th_opened := th_opened t;
     th_current := th_current t; th_noted_in := th_noted_in t; th_next := th_next t;
     th_probing := th_probing t; th_cells := th_cells t;
     th_probed := <[id := value]> (th_probed t) |}).

(** A cache asked for. An initializer that asks for its own cache does not
    return, here or in the code. *)
Definition get_or_init (id : nat) (f : Rec V) : Rec V := λ t,
  match th_cells t !! id with
  | Some (value, shared) => (replay_shared shared.1 shared.2;; mret value) t
  | None =>
      if th_probing t then
        match th_probed t !! id with
        | Some value => Some (value, t)
        | None =>
            ('(value, reads) ← record_detached f;
             replay reads;;
             fill_probed id value;;
             mret value) t
        end
      else
        ('(value, reads) ← record_detached f;
         shared ← fill_cell id value reads;
         replay_shared shared.1 shared.2;;
         mret value) t
  end.

Definition cell_get (id : nat) : Rec (option V) := λ t,
  match th_cells t !! id with
  | Some (value, shared) => (replay_shared shared.1 shared.2;; mret (Some value)) t
  | None => Some (None, t)
  end.

(** [Err] is the value back. *)
Definition cell_set (id : nat) (value : V) (r : Reads) : Rec (option V) := λ t,
  match th_cells t !! id with
  | Some _ => Some (Some value, t)
  | None => (fill_cell id value r;; mret None) t
  end.
End recording.

Arguments Thread V : clear implicits.
Arguments Rec V A : clear implicits.

(** ** Proofs *)

(** [MemoMoved] and [NotYet] are [MemoCheck::Moved] and [MemoCheck::Undecided]. *)
Inductive MemoCheck := Same | MemoMoved | NotYet.

#[global] Instance MemoCheck_eq_dec : EqDecision MemoCheck.
Proof. solve_decision. Defined.

Inductive Miss :=
  | UnfinishedChunk | SectionMoved (s : Section_) | AnotherStore | MemoMiss (read : MemoRead).

Inductive Verdict := Holds | Moved (miss : Miss) | Undecided (reads : list MemoRead).

(** What a build answers: [ReadAnswers]. *)
Record ReadAnswers (F : Type) := {
  section_fingerprint : Section_ → F;
  memo_changed_at : N → MemoRead → option N;
  memo_store_id : N;
  memo_check : N → MemoRead → MemoCheck
}.
Arguments section_fingerprint {F} _ _.
Arguments memo_changed_at {F} _ _ _.
Arguments memo_store_id {F} _.
Arguments memo_check {F} _ _ _.

(** The trait's default check. *)
Definition default_check (changed_at : N → MemoRead → option N) (store : N) (read : MemoRead)
    : MemoCheck :=
  if decide (changed_at store read = Some (mr_changed_at read)) then Same else MemoMoved.

Record ReadProof (F : Type) := { rp_reads : Reads; rp_store : N; rp_sections : list F }.
Arguments rp_reads {F} _.
Arguments rp_store {F} _.
Arguments rp_sections {F} _.
Arguments Build_ReadProof {F} _ _ _.

Section proofs.
Context {F : Type} `{EqDecision F}.

Definition proof_new (r : Reads) (answers : ReadAnswers F) : ReadProof F :=
  {| rp_reads := r; rp_store := memo_store_id answers;
     rp_sections := section_fingerprint answers <$> reads_sections r |}.

Definition proof_pending (zero : F) (r : Reads) : ReadProof F :=
  {| rp_reads := r; rp_store := 0; rp_sections := replicate (length sections_all + 1) zero |}.

Fixpoint sections_verdict (answers : ReadAnswers F) (rows : list (Section_ * F)) : option Miss :=
  match rows with
  | [] => None
  | (s, recorded) :: rows =>
      if decide (section_fingerprint answers s = recorded) then sections_verdict answers rows
      else Some (SectionMoved s)
  end.

Fixpoint memos_verdict (answers : ReadAnswers F) (store : N) (undecided reads : list MemoRead) : Verdict :=
  match reads with
  | [] => match undecided with [] => Holds | _ => Undecided undecided end
  | read :: reads =>
      match memo_check answers store read with
      | Same => memos_verdict answers store undecided reads
      | MemoMoved => Moved (MemoMiss read)
      | NotYet => memos_verdict answers store (undecided ++ [read]) reads
      end
  end.

Definition verdict (p : ReadProof F) (answers : ReadAnswers F) : Verdict :=
  if negb (length (rp_sections p) =? length (reads_sections (rp_reads p)))%nat
  then Moved UnfinishedChunk
  else if reads_is_empty (rp_reads p) then Holds
  else
    match sections_verdict answers (zip (reads_sections (rp_reads p)) (rp_sections p)) with
    | Some miss => Moved miss
    | None =>
        if negb (has_memos (rp_reads p)) then Holds
        else if negb (memo_store_id answers =? rp_store p)%N then Moved AnotherStore
        else memos_verdict answers (rp_store p) [] (memo_reads (rp_reads p))
    end.

Definition proof_holds (p : ReadProof F) (answers : ReadAnswers F) : bool :=
  match verdict p answers with Holds => true | _ => false end.
End proofs.
