(* ===== verification/ReadsSpec.v ===== *)
(** * What a recording holds

    A read set is the set of the reads added to it, however its runs fall; the
    runs stay few, sorted and shared by address. A frame gains exactly what is
    noted while it is innermost. Chunks are programs over the recording: what
    they read and answer from the build's values alone is [denote], and [run]
    is the same program on a thread, which gives the same answer and hands the
    innermost frame the same reads, whichever caches are filled. *)
From S2P Require Import Prelude Order Reads.

(** ** Normalized lists *)

Lemma memo_cmp_order : cmp_order memo_cmp.
Proof.
  unfold memo_cmp. apply (cmp_then mr_table (λ r, (mr_query r, mr_changed_at r)) N.compare
    (λ a b, then_cmp (N.compare a.1 b.1) (N.compare a.2 b.2))).
  - apply N_cmp_order.
  - apply (cmp_then fst snd); [apply N_cmp_order..|]. intros [] []; simpl; congruence.
  - intros [] [] ?; simpl. intros [= ]. simpl in *. congruence.
Qed.

Lemma elem_of_normalized l x : x ∈ normalized l ↔ x ∈ l.
Proof. apply elem_of_sort_dedup. Qed.

Lemma normalized_increasing l : StronglySorted (λ a b, memo_cmp a b = Lt) (normalized l).
Proof. apply (sort_dedup_increasing memo_cmp memo_cmp_order). Qed.

Lemma increasing_same l k :
  StronglySorted (λ a b, memo_cmp a b = Lt) l → StronglySorted (λ a b, memo_cmp a b = Lt) k →
  (∀ x, x ∈ l ↔ x ∈ k) → l = k.
Proof.
  intros Hl Hk Hlk. apply (StronglySorted_unique_strong (λ a b, memo_cmp a b = Lt)); [|done|done|].
  - intros a b _ _ H1 H2. pose proof (cmp_trans _ memo_cmp_order _ _ _ H1 H2) as H3.
    by rewrite (proj2 (cmp_eq _ memo_cmp_order a a) eq_refl) in H3.
  - apply NoDup_Permutation; [by apply (increasing_NoDup memo_cmp memo_cmp_order)..|done].
Qed.

Lemma normalized_ext l k : (∀ x, x ∈ l ↔ x ∈ k) → normalized l = normalized k.
Proof.
  intros Hlk. apply increasing_same; [apply normalized_increasing..|].
  intros x. by rewrite !elem_of_normalized.
Qed.

Lemma normalized_nil l : normalized l = [] → l = [].
Proof.
  destruct l as [|x l]; [done|]. intros E.
  assert (Hx : x ∈ normalized (x :: l)) by (apply elem_of_normalized; by left).
  rewrite E in Hx. by apply elem_of_nil in Hx.
Qed.

(** ** Runs by address *)

(** What each address handed out so far holds. *)
Definition heap_ok (h : gmap nat (list MemoRead)) (next : nat) : Prop :=
  ∀ a l, h !! a = Some l →
    a < next ∧ l ≠ [] ∧ StronglySorted (λ x y, memo_cmp x y = Lt) l.

Definition runs_in (h : gmap nat (list MemoRead)) (runs : list Run) : Prop :=
  Forall (λ run, h !! run_at run = Some (run_reads run)) runs.

(** Some addresses more. *)
Definition grows (h : gmap nat (list MemoRead)) (next : nat)
    (h' : gmap nat (list MemoRead)) (next' : nat) : Prop :=
  h ⊆ h' ∧ next ≤ next' ∧ heap_ok h' next'.

Lemma more_refl h next : heap_ok h next → grows h next h next.
Proof. by split. Qed.

Lemma more_trans h next h' next' h'' next'' :
  grows h next h' next' → grows h' next' h'' next'' → grows h next h'' next''.
Proof. intros (H1 & H2 & _) (H3 & H4 & H5). split; [by etrans|split; [lia|done]]. Qed.

Lemma runs_in_mono h h' runs : h ⊆ h' → runs_in h runs → runs_in h' runs.
Proof. intros Hh Hr. eapply Forall_impl; [exact Hr|]. intros run Hrun. exact (lookup_weaken _ _ _ _ Hrun Hh). Qed.

Lemma heap_add h next l : heap_ok h next → l ≠ [] →
  StronglySorted (λ x y, memo_cmp x y = Lt) l → grows h next (<[next := l]> h) (S next).
Proof.
  intros Hh Hl Hs. split; [|split; [lia|]].
  - apply insert_subseteq. destruct (h !! next) eqn:E; [|done]. apply Hh in E as [? _]. lia.
  - intros a k. rewrite lookup_insert. destruct (decide (next = a)) as [<-|Hne].
    + intros [= <-]. split; [lia|done].
    + intros (? & ? & ?)%Hh. split; [lia|done].
Qed.

Lemma in_runs x (runs : list Run) : x ∈ mjoin (run_reads <$> runs) ↔ ∃ run, run ∈ runs ∧ x ∈ run_reads run.
Proof. rewrite list_elem_of_join. setoid_rewrite list_elem_of_fmap. naive_solver. Qed.

Lemma in_runs_app x runs runs' :
  x ∈ mjoin (run_reads <$> runs ++ runs') ↔
  x ∈ mjoin (run_reads <$> runs) ∨ x ∈ mjoin (run_reads <$> runs').
Proof. by rewrite fmap_app, join_app, elem_of_app. Qed.

(** ** Adding runs *)

Lemma add_run_spec h runs run : runs_in h runs → h !! run_at run = Some (run_reads run) →
  runs_in h (add_run runs run) ∧ length (add_run runs run) ≤ S (length runs) ∧
  ∀ x, x ∈ mjoin (run_reads <$> add_run runs run) ↔
    x ∈ mjoin (run_reads <$> runs) ∨ x ∈ run_reads run.
Proof.
  intros Hruns Hrun. unfold add_run. destruct (existsb _ runs) eqn:E.
  - split; [done|split; [lia|]]. intros x. apply existsb_exists in E as (held & Hin & Eq).
    apply list_elem_of_In in Hin. apply Nat.eqb_eq in Eq.
    assert (Hsame : run_reads held = run_reads run).
    { unfold runs_in in Hruns. rewrite Forall_forall in Hruns. specialize (Hruns held Hin). congruence. }
    split; [by left|]. intros [?|Hx]; [done|]. apply in_runs. exists held. by rewrite Hsame.
  - split; [|split].
    + apply Forall_app. split; [done|]. by constructor.
    + rewrite length_app. simpl. lia.
    + intros x. rewrite in_runs_app. simpl. by rewrite app_nil_r.
Qed.

Lemma add_runs_spec h runs others : runs_in h runs → runs_in h others →
  runs_in h (foldl add_run runs others) ∧
  ∀ x, x ∈ mjoin (run_reads <$> foldl add_run runs others) ↔
    x ∈ mjoin (run_reads <$> runs) ∨ x ∈ mjoin (run_reads <$> others).
Proof.
  revert runs. induction others as [|run others IH]; intros runs Hruns Hothers.
  - split; [done|]. intros x. simpl. rewrite elem_of_nil. tauto.
  - apply Forall_cons in Hothers as [Hrun Hothers].
    destruct (add_run_spec h runs run Hruns Hrun) as (H1 & _ & H2).
    destruct (IH (add_run runs run) H1 Hothers) as (H3 & H4). split; [done|].
    intros x. simpl. rewrite H4, H2, elem_of_app. tauto.
Qed.

(** ** Bounding and building read sets *)

Definition reads_small (r : Reads) : Prop :=
  length (rd_runs r) ≤ runs_max ∧ length (rd_tail r) ≤ tail_max.

Lemma bound_runs_spec h r next : heap_ok h next → runs_in h (rd_runs r) →
  ∃ r' h' next', bound_runs r next = (r', next') ∧ grows h next h' next' ∧
    runs_in h' (rd_runs r') ∧ length (rd_runs r') ≤ runs_max ∧
    rd_sections r' = rd_sections r ∧ rd_tail r' = rd_tail r ∧
    ∀ x, x ∈ memo_reads r' ↔ x ∈ memo_reads r.
Proof.
  intros Hh Hruns. unfold bound_runs. destruct (Nat.leb_spec (length (rd_runs r)) runs_max) as [Hle|Hgt].
  { exists r, h, next. split; [done|]. split; [by apply more_refl|done]. }
  set (runs := merge_sort run_ge (rd_runs r)).
  assert (Hp : runs ≡ₚ rd_runs r) by apply merge_sort_Permutation.
  assert (Hin : runs_in h runs) by (unfold runs_in; by rewrite Hp).
  assert (Hlen : length runs = length (rd_runs r)) by by rewrite Hp.
  set (small := drop (runs_max / 2) runs).
  assert (Hsmall : runs_in h small) by by apply Forall_drop.
  assert (Hne : mjoin (run_reads <$> small) ≠ []).
  { destruct small as [|run small'] eqn:Es.
    { apply (f_equal length) in Es. unfold small in Es. rewrite length_drop, Hlen in Es.
      unfold runs_max in *. simpl in Es. lia. }
    apply Forall_cons in Hsmall as [Hrun _]. apply Hh in Hrun as (_ & Hr & _). simpl.
    by destruct (run_reads run). }
  do 3 eexists. split; [reflexivity|].
  split; [apply heap_add; [done|intros ?%normalized_nil; done|apply normalized_increasing]|].
  cbn [rd_runs rd_sections rd_tail]. split_and!; try done.
  - apply Forall_app. split.
    + eapply (runs_in_mono h); [|by apply Forall_take].
      apply insert_subseteq. destruct (h !! next) eqn:E; [|done]. apply Hh in E as [? _]. lia.
    + constructor; [|done]. simpl. by rewrite lookup_insert_eq.
  - rewrite length_app, length_take. cbn [length]. change (runs_max / 2) with 8. unfold runs_max. lia.
  - intros x. unfold memo_reads. cbn [rd_runs rd_tail]. rewrite !elem_of_app, in_runs_app.
    assert (Hx : x ∈ mjoin (run_reads <$> rd_runs r) ↔
      x ∈ mjoin (run_reads <$> take (runs_max / 2) runs) ∨ x ∈ mjoin (run_reads <$> small)).
    { rewrite <- in_runs_app. unfold small. rewrite take_drop, !in_runs. by setoid_rewrite Hp. }
    rewrite Hx. cbn [fmap list_fmap mjoin list_join run_reads]. rewrite app_nil_r, elem_of_normalized. tauto.
Qed.

Lemma reads_of_spec h sections runs own next : heap_ok h next → runs_in h runs →
  ∃ r h' next', reads_of sections runs (normalized own) next = (r, next') ∧ grows h next h' next' ∧
    runs_in h' (rd_runs r) ∧ reads_small r ∧ rd_sections r = sections ∧
    ∀ x, x ∈ memo_reads r ↔ x ∈ mjoin (run_reads <$> runs) ∨ x ∈ own.
Proof.
  intros Hh Hruns. unfold reads_of. destruct (normalized own) as [|y l] eqn:E.
  - apply normalized_nil in E as ->.
    destruct (bound_runs_spec h {| rd_sections := sections; rd_runs := runs; rd_tail := [] |} next)
      as (r & h' & next' & -> & Hg & H1 & H2 & H3 & H4 & H5); [done..|].
    exists r, h', next'. split_and!; try done.
    { split; [done|]. rewrite H4. simpl. lia. }
    intros x. rewrite H5. unfold memo_reads. simpl. by rewrite elem_of_app.
  - rewrite <- E. set (run := {| run_at := next; run_reads := normalized own |}).
    assert (Hg : grows h next (<[next := normalized own]> h) (S next)).
    { apply heap_add; [done|by rewrite E|apply normalized_increasing]. }
    destruct (bound_runs_spec (<[next := normalized own]> h)
      {| rd_sections := sections; rd_runs := runs ++ [run]; rd_tail := [] |} (S next))
      as (r & h' & next' & -> & Hg' & H1 & H2 & H3 & H4 & H5).
    { apply Hg. }
    { cbn [rd_runs]. apply Forall_app. split; [eapply runs_in_mono; [apply Hg|done]|].
      constructor; [|done]. simpl. by rewrite lookup_insert_eq. }
    exists r, h', next'. split_and!; try done.
    { by eapply more_trans. }
    { split; [done|]. rewrite H4. simpl. lia. }
    intros x. rewrite H5. unfold memo_reads. cbn [rd_runs rd_tail].
    rewrite app_nil_r, in_runs_app. simpl. by rewrite app_nil_r, elem_of_normalized.
Qed.

Lemma reads_extend_spec h self other next : heap_ok h next →
  runs_in h (rd_runs self) → runs_in h (rd_runs other) →
  ∃ r h' next', reads_extend self other next = (r, next') ∧ grows h next h' next' ∧
    runs_in h' (rd_runs r) ∧ (reads_small self → reads_small r) ∧
    rd_sections r = N.lor (rd_sections self) (rd_sections other) ∧
    ∀ x, x ∈ memo_reads r ↔ x ∈ memo_reads self ∨ x ∈ memo_reads other.
Proof.
  intros Hh Hs Ho. unfold reads_extend.
  destruct (add_runs_spec h (rd_runs self) (rd_runs other) Hs Ho) as (Hruns & Hin).
  set (runs := foldl add_run (rd_runs self) (rd_runs other)) in *.
  assert (Hmem : ∀ x, x ∈ memo_reads self ∨ x ∈ memo_reads other ↔
    x ∈ mjoin (run_reads <$> runs) ∨ x ∈ rd_tail self ++ rd_tail other).
  { intros x. unfold memo_reads. rewrite Hin, !elem_of_app. tauto. }
  destruct (rd_tail other) as [|y tl] eqn:Et; [|rewrite <- Et in *; destruct (tail_max <? _)%nat eqn:El].
  - destruct (bound_runs_spec h {| rd_sections := N.lor (rd_sections self) (rd_sections other);
      rd_runs := runs; rd_tail := rd_tail self |} next)
      as (r & h' & next' & -> & Hg & H1 & H2 & H3 & H4 & H5); [done..|].
    exists r, h', next'. split_and!; try done.
    { intros [_ ?]. split; [done|]. by rewrite H4. }
    intros x. rewrite H5, Hmem, app_nil_r. unfold memo_reads. simpl. by rewrite elem_of_app.
  - set (tail := rd_tail self ++ rd_tail other) in *.
    assert (Hne : tail ≠ []) by (intros E; rewrite E in El; done).
    assert (Hg : grows h next (<[next := normalized tail]> h) (S next)).
    { apply heap_add; [done|intros ?%normalized_nil; done|apply normalized_increasing]. }
    destruct (bound_runs_spec (<[next := normalized tail]> h)
      {| rd_sections := N.lor (rd_sections self) (rd_sections other);
         rd_runs := runs ++ [{| run_at := next; run_reads := normalized tail |}]; rd_tail := [] |} (S next))
      as (r & h' & next' & -> & Hg' & H1 & H2 & H3 & H4 & H5).
    { apply Hg. }
    { cbn [rd_runs]. apply Forall_app. split; [eapply runs_in_mono; [apply Hg|done]|].
      constructor; [|done]. simpl. by rewrite lookup_insert_eq. }
    exists r, h', next'. split_and!; try done.
    { by eapply more_trans. }
    { intros _. split; [done|]. rewrite H4. simpl. lia. }
    intros x. rewrite H5, Hmem. unfold memo_reads. cbn [rd_runs rd_tail].
    rewrite app_nil_r, in_runs_app. simpl. by rewrite app_nil_r, elem_of_normalized.
  - destruct (bound_runs_spec h {| rd_sections := N.lor (rd_sections self) (rd_sections other);
      rd_runs := runs; rd_tail := rd_tail self ++ rd_tail other |} next)
      as (r & h' & next' & -> & Hg & H1 & H2 & H3 & H4 & H5); [done..|].
    exists r, h', next'. split_and!; try done.
    { intros _. split; [done|]. rewrite H4. cbn [rd_tail]. by apply Nat.ltb_ge. }
    intros x. rewrite H5, Hmem. unfold memo_reads. simpl. by rewrite elem_of_app.
Qed.

(** ** Without some tables *)

Abbreviation outside lo hi := (λ read, ¬ (lo ≤ mr_table read < hi)%N).

Lemma filter_increasing lo hi l : StronglySorted (λ a b, memo_cmp a b = Lt) l →
  StronglySorted (λ a b, memo_cmp a b = Lt) (filter (outside lo hi) l).
Proof.
  induction 1 as [|a l Hl IH Ha]; [constructor|]. rewrite filter_cons. destruct (decide _); [|done].
  constructor; [done|]. rewrite Forall_forall in *. intros x [_ Hx]%list_elem_of_filter. by apply Ha.
Qed.

Lemma run_without_spec h next runs run lo hi : heap_ok h next → runs_in h runs →
  h !! run_at run = Some (run_reads run) →
  ∃ runs' h' next', run_without lo hi (runs, next) run = (runs', next') ∧ grows h next h' next' ∧
    runs_in h' runs' ∧ length runs' ≤ S (length runs) ∧
    ∀ x, x ∈ mjoin (run_reads <$> runs') ↔
      x ∈ mjoin (run_reads <$> runs) ∨ x ∈ run_reads run ∧ outside lo hi x.
Proof.
  intros Hh Hruns Hrun. unfold run_without. case_bool_decide as Hall.
  - exists (runs ++ [run]), h, next. split; [done|]. split; [by apply more_refl|]. split_and!.
    + apply Forall_app. by repeat constructor.
    + rewrite length_app. simpl. lia.
    + intros x. rewrite in_runs_app. simpl. rewrite app_nil_r. rewrite <- Hall at 1.
      rewrite list_elem_of_filter. tauto.
  - destruct (filter _ (run_reads run)) as [|y kept] eqn:E.
    + exists runs, h, next. split; [done|]. split; [by apply more_refl|]. split_and!; [done|lia|].
      intros x. split; [by left|]. intros [?|[Hx Ho]]; [done|].
      assert (Hin : x ∈ filter (outside lo hi) (run_reads run)) by by apply list_elem_of_filter.
      rewrite E in Hin. by apply elem_of_nil in Hin.
    + assert (Hg : grows h next (<[next := y :: kept]> h) (S next)).
      { apply heap_add; [done|done|]. rewrite <- E. apply filter_increasing. by apply Hh in Hrun as (_ & _ & ?). }
      do 3 eexists. split; [reflexivity|]. split; [exact Hg|]. split_and!.
      * apply Forall_app. split; [eapply runs_in_mono; [apply Hg|done]|].
        constructor; [|done]. simpl. by rewrite lookup_insert_eq.
      * rewrite length_app. simpl. lia.
      * intros x. rewrite in_runs_app. cbn [fmap list_fmap mjoin list_join run_reads].
        rewrite app_nil_r, <- E, list_elem_of_filter. tauto.
Qed.

Lemma runs_without_spec lo hi others : ∀ h next runs, heap_ok h next → runs_in h runs → runs_in h others →
  ∃ runs' h' next', foldl (run_without lo hi) (runs, next) others = (runs', next') ∧
    grows h next h' next' ∧ runs_in h' runs' ∧ length runs' ≤ length runs + length others ∧
    ∀ x, x ∈ mjoin (run_reads <$> runs') ↔
      x ∈ mjoin (run_reads <$> runs) ∨ x ∈ mjoin (run_reads <$> others) ∧ outside lo hi x.
Proof.
  induction others as [|run others IH]; intros h next runs Hh Hruns Hothers.
  - exists runs, h, next. split; [done|]. split; [by apply more_refl|]. split_and!; [done|simpl; lia|].
    intros x. simpl. rewrite elem_of_nil. tauto.
  - apply Forall_cons in Hothers as [Hrun Hothers].
    destruct (run_without_spec h next runs run lo hi Hh Hruns Hrun)
      as (runs1 & h1 & next1 & E1 & Hg1 & H1 & L1 & M1).
    destruct (IH h1 next1 runs1) as (runs2 & h2 & next2 & E2 & Hg2 & H2 & L2 & M2);
      [apply Hg1|done|eapply runs_in_mono; [apply Hg1|done]|].
    exists runs2, h2, next2. split; [cbn [foldl]; by rewrite E1|]. split; [by eapply more_trans|].
    split_and!; [done|simpl; lia|]. intros x. rewrite M2, M1. simpl. rewrite elem_of_app. tauto.
Qed.

Lemma without_tables_spec h r lo hi next : heap_ok h next → runs_in h (rd_runs r) →
  ∃ r' h' next', without_tables r lo hi next = (r', next') ∧ grows h next h' next' ∧
    runs_in h' (rd_runs r') ∧ (reads_small r → reads_small r') ∧ rd_sections r' = rd_sections r ∧
    ∀ x, x ∈ memo_reads r' ↔ x ∈ memo_reads r ∧ outside lo hi x.
Proof.
  intros Hh Hruns. unfold without_tables. case_bool_decide as Hall.
  - exists r, h, next. split; [done|]. split; [by apply more_refl|]. split_and!; try done.
    intros x. rewrite Forall_forall in Hall. split; [|by intros [? _]]. intros Hx. split; [done|by apply Hall].
  - destruct (runs_without_spec lo hi (rd_runs r) h next []) as (runs & h' & next' & E & Hg & H1 & L1 & M1);
      [done|constructor|done|]. rewrite E.
    do 3 eexists. split; [reflexivity|]. split; [exact Hg|]. cbn [rd_runs rd_sections rd_tail].
    split_and!; [done| |done|].
    + intros [? ?]. split; cbn [rd_runs rd_tail]; [simpl in L1; lia|].
      etrans; [apply length_filter|done].
    + intros x. unfold memo_reads. cbn [rd_runs rd_tail]. rewrite !elem_of_app, M1, list_elem_of_filter.
      simpl. rewrite elem_of_nil. tauto.
Qed.

(** ** Chunks *)

(** What a build answers: each section's value, and each memo's with the
    revision it last changed in. *)
Record World (V : Type) := {
  w_section : Section_ → V;
  w_memo : N → N → V * N
}.
Arguments w_section {V} _ _.
Arguments w_memo {V} _ _ _.

(** A computation over the recording: it notes what it reads, records inner
    computations, suppresses some, and asks caches. *)
Inductive Chunk (V : Type) :=
  | Done (value : V)
  | ReadSection (s : Section_) (hot : bool) (k : V → Chunk V)
  | ReadMemo (table query : N) (k : V → Chunk V)
  | Recording (c : Chunk V) (k : V → Chunk V)
  | Suppressed (c k : Chunk V)
  | Cached (id : nat) (k : V → Chunk V).
Arguments Done {V} _.
Arguments ReadSection {V} _ _ _.
Arguments ReadMemo {V} _ _ _.
Arguments Recording {V} _ _.
Arguments Suppressed {V} _ _.
Arguments Cached {V} _ _.

Inductive Note := SectionNote (s : Section_) | MemoNote (read : MemoRead).

Definition note_bits (notes : list Note) : N :=
  foldr (λ n acc, match n with SectionNote s => N.lor (section_bit s) acc | MemoNote _ => acc end) 0%N notes.

Definition note_memos (notes : list Note) : list MemoRead :=
  omap (λ n, match n with MemoNote read => Some read | SectionNote _ => None end) notes.

Lemma note_bits_app a b : note_bits (a ++ b) = N.lor (note_bits a) (note_bits b).
Proof.
  induction a as [|[s|r] a IH]; [done| |done]. unfold note_bits in *. simpl. by rewrite IH, N.lor_assoc.
Qed.

Lemma note_memos_app a b : note_memos (a ++ b) = note_memos a ++ note_memos b.
Proof. apply omap_app. Qed.

Section chunks.
Context {V : Type}.
(** The initializer of each cache. *)
Context (init : nat → Chunk V).

(** What a chunk answers and reads, from the build's answers alone; [n] bounds
    how deep caches ask caches. *)
Fixpoint denote (w : World V) (n : nat) : Chunk V → option (V * list Note) :=
  fix go c :=
    match c with
    | Done v => Some (v, [])
    | ReadSection s _ k => '(v, notes) ← go (k (w_section w s)); Some (v, SectionNote s :: notes)
    | ReadMemo table query k =>
        let '(answer, changed_at) := w_memo w table query in
        '(v, notes) ← go (k answer);
        Some (v, MemoNote {| mr_table := table; mr_query := query; mr_changed_at := changed_at |} :: notes)
    | Recording c k => '(v, notes) ← go c; '(v', notes') ← go (k v); Some (v', notes ++ notes')
    | Suppressed c k => '(_, _) ← go c; go k
    | Cached id k =>
        match n with
        | 0 => None
        | S n => '(v, notes) ← denote w n (init id); '(v', notes') ← go (k v); Some (v', notes ++ notes')
        end
    end.

(** The same chunk on a thread. *)
Fixpoint run (w : World V) (n : nat) : Chunk V → Rec V V :=
  fix go c :=
    match c with
    | Done v => mret v
    | ReadSection s hot k => (if hot then note_once s else note s);; go (k (w_section w s))
    | ReadMemo table query k =>
        let '(answer, changed_at) := w_memo w table query in
        note_memo {| mr_table := table; mr_query := query; mr_changed_at := changed_at |};;
        go (k answer)
    | Recording c k => '(v, _) ← record (go c); go (k v)
    | Suppressed c k => suppress (go c);; go k
    | Cached id k =>
        match n with
        | 0 => λ _, None
        | S n => v ← get_or_init id (run w n (init id)); go (k v)
        end
    end.

Lemma denote_unfold w n c : denote w n c =
  match c with
  | Done v => Some (v, [])
  | ReadSection s _ k => '(v, notes) ← denote w n (k (w_section w s)); Some (v, SectionNote s :: notes)
  | ReadMemo table query k =>
      let '(answer, changed_at) := w_memo w table query in
      '(v, notes) ← denote w n (k answer);
      Some (v, MemoNote {| mr_table := table; mr_query := query; mr_changed_at := changed_at |} :: notes)
  | Recording c k =>
      '(v, notes) ← denote w n c; '(v', notes') ← denote w n (k v); Some (v', notes ++ notes')
  | Suppressed c k => '(_, _) ← denote w n c; denote w n k
  | Cached id k =>
      match n with
      | 0 => None
      | S m => '(v, notes) ← denote w m (init id); '(v', notes') ← denote w n (k v); Some (v', notes ++ notes')
      end
  end.
Proof. by destruct n, c. Qed.

Lemma run_unfold w n c : run w n c =
  match c with
  | Done v => mret v
  | ReadSection s hot k => (if hot then note_once s else note s);; run w n (k (w_section w s))
  | ReadMemo table query k =>
      let '(answer, changed_at) := w_memo w table query in
      note_memo {| mr_table := table; mr_query := query; mr_changed_at := changed_at |};;
      run w n (k answer)
  | Recording c k => '(v, _) ← record (run w n c); run w n (k v)
  | Suppressed c k => suppress (run w n c);; run w n k
  | Cached id k =>
      match n with
      | 0 => λ _, None
      | S m => v ← get_or_init id (run w m (init id)); run w n (k v)
      end
  end.
Proof. by destruct n, c. Qed.

(** More fuel, the same answer and reads. *)
Lemma denote_more w n c : ∀ r, denote w n c = Some r → denote w (S n) c = Some r.
Proof.
  revert c. induction n as [|n IHn]; intros c;
    (induction c as [v|s hot k IH|t q k IH|c IHc k IH|c IHc k IH|id k IH]; intros r;
     intros Hr; rewrite denote_unfold in Hr; rewrite denote_unfold; try done;
     try (destruct (w_memo w t q) as [answer changed_at]);
     repeat (apply bind_Some in Hr as ([? ?] & ?E & Hr));
     repeat match goal with
     | H : denote w ?n ?c = Some _ |- context [denote w (S ?n) ?c] =>
         first [rewrite (IH _ _ H)|rewrite (IH _ H)|rewrite (IHc _ H)|rewrite (IHn _ _ H)];
         cbn [mbind option_bind]
     end; done).
Qed.

Lemma denote_le w n m c r : n ≤ m → denote w n c = Some r → denote w m c = Some r.
Proof. intros Hle Hr. induction Hle; [done|by apply denote_more]. Qed.

Lemma denote_det w n m c r r' : denote w n c = Some r → denote w m c = Some r' → r = r'.
Proof.
  intros Hn%(denote_le w n (n `max` m)) Hm%(denote_le w m (n `max` m)); [congruence|lia..].
Qed.
End chunks.

(** ** What a frame holds *)

Definition frame_reads (f : Frame) : list MemoRead := mjoin (run_reads <$> fr_runs f) ++ fr_memos f.

Lemma elem_of_frame_reads x f :
  x ∈ frame_reads f ↔ x ∈ mjoin (run_reads <$> fr_runs f) ∨ x ∈ fr_memos f.
Proof. apply elem_of_app. Qed.

Definition covers (f : Frame) (bits : N) : Prop := N.lor (fr_sections f) bits = fr_sections f.

(** [f'] is [f] with some sections and memo reads more. *)
Record gained (f f' : Frame) (bits : N) (memos : list MemoRead) : Prop := {
  ga_serial : fr_serial f' = fr_serial f;
  ga_sections : fr_sections f' = N.lor (fr_sections f) bits;
  ga_reads : ∀ x, x ∈ frame_reads f' ↔ x ∈ frame_reads f ∨ x ∈ memos
}.

Lemma gained_nothing f : gained f f 0 [].
Proof. split; [done..|by rewrite N.lor_0_r|]. intros x. rewrite elem_of_nil. tauto. Qed.

Lemma gained_trans f f' f'' bits memos bits' memos' :
  gained f f' bits memos → gained f' f'' bits' memos' →
  gained f f'' (N.lor bits bits') (memos ++ memos').
Proof.
  intros [A1 A2 A3] [B1 B2 B3]. split; [congruence| |].
  - by rewrite B2, A2, N.lor_assoc.
  - intros x. rewrite B3, A3, elem_of_app. tauto.
Qed.

Lemma covers_gained f f' bits memos b : gained f f' bits memos → covers f b → covers f' b.
Proof.
  intros Hg Hc. unfold covers in *. rewrite (ga_sections _ _ _ _ Hg), <- N.lor_assoc, (N.lor_comm bits b).
  by rewrite N.lor_assoc, Hc.
Qed.

Lemma covers_new f f' bits memos : gained f f' bits memos → covers f' bits.
Proof. intros Hg. unfold covers. rewrite (ga_sections _ _ _ _ Hg). by rewrite <- N.lor_assoc, N.lor_diag. Qed.

Lemma add_gained h f r : runs_in h (fr_runs f) → runs_in h (rd_runs r) →
  gained f (frame_add f r) (rd_sections r) (memo_reads r) ∧ runs_in h (fr_runs (frame_add f r)).
Proof.
  intros Hf Hr. destruct (add_runs_spec h (fr_runs f) (rd_runs r) Hf Hr) as (H1 & H2).
  split; [|done]. split; [done..|]. intros x. unfold frame_reads, memo_reads. simpl.
  rewrite !elem_of_app, H2. tauto.
Qed.

Section threads.
Context {V : Type} (init : nat → Chunk V) (w : World V).
Implicit Types (t : Thread V) (f : Frame) (h : gmap nat (list MemoRead)) (r : Reads).

(** A read set is exactly some notes. *)
Definition reads_are r (notes : list Note) : Prop :=
  rd_sections r = note_bits notes ∧ ∀ x, x ∈ memo_reads r ↔ x ∈ note_memos notes.

(** What a cache holds: the answer of its initializer, and what that reads. *)
Record cell_ok h (next id : nat) (cell : V * (nat * Reads)) : Prop := {
  co_at : cell.2.1 < next;
  co_runs : runs_in h (rd_runs cell.2.2);
  co_value : ∃ n notes, denote init w n (init id) = Some (cell.1, notes) ∧ reads_are cell.2.2 notes
}.

Record frame_ok h t f : Prop := {
  fo_serial : (0 < fr_serial f ≤ th_opened t)%N;
  fo_noted : ∀ s, th_noted_in t s = fr_serial f → covers f (section_bit s);
  fo_runs : runs_in h (fr_runs f);
  fo_at : ∀ a, a ∈ fr_replayed f → a < th_next t;
  fo_replayed : ∀ id cell, th_cells t !! id = Some cell → cell.2.1 ∈ fr_replayed f →
    covers f (rd_sections cell.2.2) ∧ ∀ x, x ∈ memo_reads cell.2.2 → x ∈ frame_reads f
}.

Record thread_ok h t : Prop := {
  to_depth : th_depth t = length (th_frames t);
  to_current : th_current t = match th_frames t with f :: _ => fr_serial f | [] => 0%N end;
  to_noted : ∀ s, (th_noted_in t s ≤ th_opened t)%N;
  to_serials : NoDup (fr_serial <$> th_frames t);
  to_frames : Forall (frame_ok h t) (th_frames t);
  to_cells : ∀ id cell, th_cells t !! id = Some cell → cell_ok h (th_next t) id cell;
  to_shared : ∀ i j ci cj, th_cells t !! i = Some ci → th_cells t !! j = Some cj →
    ci.2.1 = cj.2.1 → ci.2.2 = cj.2.2;
  to_heap : heap_ok h (th_next t);
  to_probing : th_probing t = false
}.

(** The innermost frame of [t'] is that of [t] with some reads more; the others
    are the same. *)
Definition top_gains t t' (bits : N) (memos : list MemoRead) : Prop :=
  match th_frames t, th_frames t' with
  | [], [] => True
  | f :: fs, f' :: fs' => gained f f' bits memos ∧ fs' = fs
  | _, _ => False
  end.

Lemma top_gains_trans t t' t'' bits memos bits' memos' :
  top_gains t t' bits memos → top_gains t' t'' bits' memos' →
  top_gains t t'' (N.lor bits bits') (memos ++ memos').
Proof.
  unfold top_gains. destruct (th_frames t), (th_frames t'), (th_frames t''); try done.
  intros [H1 ->] [H2 ->]. split; [by eapply gained_trans|done].
Qed.

Lemma top_gains_same t t' : th_frames t' = th_frames t → top_gains t t' 0 [].
Proof.
  intros E. unfold top_gains. rewrite E. destruct (th_frames t); [done|]. split; [apply gained_nothing|done].
Qed.

Lemma recording_frames h t : thread_ok h t → recording t = negb (nil_list (th_frames t)).
Proof. intros Ht. unfold recording. rewrite (to_depth _ _ Ht). by destruct (th_frames t). Qed.

(** ** Changing the innermost frame *)

Lemma frame_ok_with h t t' f : th_opened t' = th_opened t → th_noted_in t' = th_noted_in t →
  th_next t' = th_next t → th_cells t' = th_cells t → frame_ok h t f → frame_ok h t' f.
Proof. intros E1 E2 E3 E4 [H1 H2 H3 H4 H5]. split; rewrite ?E1, ?E2, ?E3, ?E4; done. Qed.

(** A gain keeps a frame ok, when its new addresses are covered. *)
Lemma frame_ok_gained h t f f' bits memos : frame_ok h t f → gained f f' bits memos →
  runs_in h (fr_runs f') →
  (∀ a, a ∈ fr_replayed f' → a ∈ fr_replayed f ∨ a < th_next t ∧
    ∀ id cell, th_cells t !! id = Some cell → cell.2.1 = a →
      covers f' (rd_sections cell.2.2) ∧ ∀ x, x ∈ memo_reads cell.2.2 → x ∈ frame_reads f') →
  frame_ok h t f'.
Proof.
  intros [H1 H2 H3 H4 H5] Hg Hr Ha. split.
  - by rewrite (ga_serial _ _ _ _ Hg).
  - intros s. rewrite (ga_serial _ _ _ _ Hg). intros Hs. eapply covers_gained; [done|by apply H2].
  - done.
  - intros a Hin. destruct (Ha a Hin) as [?|[? _]]; [by apply H4|done].
  - intros id cell Hc Hin. destruct (Ha _ Hin) as [Hold|[_ Hnew]]; [|by eapply Hnew].
    destruct (H5 id cell Hc Hold) as [Hcov Hx]. split; [by eapply covers_gained|].
    intros x Hm. apply (ga_reads _ _ _ _ Hg). left. by apply Hx.
Qed.

Lemma with_top_ok h t f f' fs bits memos : thread_ok h t → th_frames t = f :: fs →
  gained f f' bits memos → runs_in h (fr_runs f') →
  (∀ a, a ∈ fr_replayed f' → a ∈ fr_replayed f ∨ a < th_next t ∧
    ∀ id cell, th_cells t !! id = Some cell → cell.2.1 = a →
      covers f' (rd_sections cell.2.2) ∧ ∀ x, x ∈ memo_reads cell.2.2 → x ∈ frame_reads f') →
  thread_ok h (with_frames (f' :: fs) t) ∧ top_gains t (with_frames (f' :: fs) t) bits memos.
Proof.
  intros [T1 T2 T3 T4 T5 T6 T7 T8 T9] Ef Hg Hr Ha. split.
  - rewrite Ef in *. apply Forall_cons in T5 as [Hf Hfs]. split; cbn; try done.
    + by rewrite T2, (ga_serial _ _ _ _ Hg).
    + by rewrite (ga_serial _ _ _ _ Hg).
    + constructor.
      * apply (frame_ok_with h t); [done..|]. by eapply frame_ok_gained.
      * eapply Forall_impl; [exact Hfs|]. intros g Hgk. by apply (frame_ok_with h t).
  - unfold top_gains. rewrite Ef. simpl. done.
Qed.

Lemma note_spec h t s : thread_ok h t →
  ∃ t', note s t = Some ((), t') ∧ thread_ok h t' ∧ top_gains t t' (section_bit s) [].
Proof.
  intros Ht. unfold note. rewrite (recording_frames h t Ht). destruct (th_frames t) as [|f fs] eqn:Ef; cbn.
  - exists t. split; [done|]. split; [done|]. unfold top_gains. by rewrite Ef.
  - unfold on_top. rewrite Ef. eexists. split; [reflexivity|].
    pose proof (to_frames _ _ Ht) as Hfs. rewrite Ef in Hfs. apply Forall_cons in Hfs as [Hf _].
    apply (with_top_ok h t f); [done..| |apply Hf|by left].
    split; [done..|]. intros x. rewrite elem_of_nil. unfold frame_reads. simpl. tauto.
Qed.

Lemma note_memo_spec h t read : thread_ok h t →
  ∃ t', note_memo read t = Some ((), t') ∧ thread_ok h t' ∧ top_gains t t' 0 [read].
Proof.
  intros Ht. unfold note_memo. rewrite (recording_frames h t Ht).
  destruct (th_frames t) as [|f fs] eqn:Ef; cbn.
  - exists t. split; [done|]. split; [done|]. unfold top_gains. by rewrite Ef.
  - unfold on_top. rewrite Ef. eexists. split; [reflexivity|].
    pose proof (to_frames _ _ Ht) as Hfs. rewrite Ef in Hfs. apply Forall_cons in Hfs as [Hf _].
    apply (with_top_ok h t f); [done..| |apply Hf|by left].
    split; [done..|by rewrite N.lor_0_r|]. intros x. unfold frame_reads. simpl.
    rewrite !elem_of_app, list_elem_of_singleton. tauto.
Qed.

(** The section is noted in the frame that is current. *)
Lemma noted_ok h t s f fs : thread_ok h t → th_frames t = f :: fs → covers f (section_bit s) →
  thread_ok h (with_noted (λ s', if decide (s' = s) then th_current t else th_noted_in t s') t).
Proof.
  intros [T1 T2 T3 T4 T5 T6 T7 T8 T9] Ef Hcov. split; cbn; try done.
  - intros s'. destruct (decide (s' = s)); [|done]. rewrite T2, Ef.
    rewrite Ef in T5. apply Forall_cons in T5 as [Hf _]. apply Hf.
  - apply Forall_forall. intros g Hin. rewrite Forall_forall in T5.
    destruct (T5 g Hin) as [H1 H2 H3 H4 H5]. split; cbn; try done.
    intros s'. destruct (decide (s' = s)) as [->|Hne]; [|apply H2]. rewrite T2, Ef. intros Es.
    assert (g = f) as ->; [|done]. rewrite Ef in Hin. apply elem_of_cons in Hin as [->|Hin]; [done|].
    exfalso. rewrite Ef in T4. apply NoDup_cons in T4 as [Hno _]. apply Hno.
    apply list_elem_of_fmap. by exists g.
Qed.

Lemma note_once_spec h t s : thread_ok h t →
  ∃ t', note_once s t = Some ((), t') ∧ thread_ok h t' ∧ top_gains t t' (section_bit s) [].
Proof.
  intros Ht. unfold note_once. rewrite (recording_frames h t Ht).
  destruct (th_frames t) as [|f fs] eqn:Ef; cbn [nil_list negb].
  { exists t. split; [done|]. split; [done|]. unfold top_gains. by rewrite Ef. }
  pose proof (to_frames _ _ Ht) as Hfs. rewrite Ef in Hfs. apply Forall_cons in Hfs as [Hf _].
  pose proof (to_current _ _ Ht) as Hcur. rewrite Ef in Hcur.
  cbn [with_noted th_current]. destruct (N.eqb_spec (th_noted_in t s) (th_current t)) as [Heq|Hne].
  - assert (Hcov : covers f (section_bit s)) by (apply Hf; congruence).
    eexists. split; [reflexivity|]. split; [by eapply noted_ok|].
    unfold top_gains. cbn [th_frames with_noted]. rewrite Ef. split; [|done].
    split; [done..| |]; [by rewrite Hcov|]. intros x. rewrite elem_of_nil. tauto.
  - set (f' := frame_section f (section_bit s)).
    assert (Hg : gained f f' (section_bit s) []).
    { split; [done..|]. intros x. rewrite elem_of_nil. unfold frame_reads. simpl. tauto. }
    destruct (with_top_ok h t f f' fs (section_bit s) []) as [Hok Htop]; [done..|apply Hf|by left|].
    pose proof (noted_ok h _ s f' fs Hok eq_refl (covers_new _ _ _ _ Hg)) as Hn.
    unfold note, recording. cbn [with_noted th_depth]. rewrite (to_depth _ _ Ht), Ef.
    cbn [length Nat.eqb negb]. unfold on_top. cbn [with_noted th_frames]. rewrite Ef.
    eexists. split; [reflexivity|]. split; [exact Hn|]. exact Htop.
Qed.

Lemma replay_spec h t r : thread_ok h t → runs_in h (rd_runs r) →
  ∃ t', replay r t = Some ((), t') ∧ thread_ok h t' ∧ top_gains t t' (rd_sections r) (memo_reads r).
Proof.
  intros Ht Hr. unfold replay. rewrite (recording_frames h t Ht).
  destruct (th_frames t) as [|f fs] eqn:Ef.
  { rewrite orb_true_r. exists t. split; [done|]. split; [done|]. unfold top_gains. by rewrite Ef. }
  cbn [nil_list negb]. rewrite orb_false_r. destruct (reads_is_empty r) eqn:Ee.
  - exists t. split; [done|]. split; [done|]. unfold reads_is_empty in Ee.
    apply andb_prop in Ee as [[Hs Hru]%andb_prop Hta]. apply N.eqb_eq in Hs.
    unfold memo_reads. rewrite Hs. destruct (rd_runs r), (rd_tail r); try done. by apply top_gains_same.
  - unfold on_top. rewrite Ef. eexists. split; [reflexivity|].
    pose proof (to_frames _ _ Ht) as Hfs. rewrite Ef in Hfs. apply Forall_cons in Hfs as [Hf _].
    destruct (add_gained h f r) as [Hg Hin]; [apply Hf|done|].
    apply (with_top_ok h t f); [done..|by left].
Qed.

(** ** Opening and closing a frame *)

Lemma cell_ok_grows h next h' next' id cell :
  grows h next h' next' → cell_ok h next id cell → cell_ok h' next' id cell.
Proof.
  intros (H1 & H2 & _) [C1 C2 C3]. split; [lia|by eapply runs_in_mono|done].
Qed.

Lemma push_spec h t : thread_ok h t →
  ∃ f t', push t = Some (th_current t, t') ∧ thread_ok h t' ∧ th_frames t' = f :: th_frames t ∧
    th_next t' = th_next t ∧ fr_sections f = 0%N ∧ frame_reads f = [].
Proof.
  intros [T1 T2 T3 T4 T5 T6 T7 T8 T9]. do 2 eexists. split; [reflexivity|]. split; [|done].
  split; cbn; try done.
  - by rewrite T1.
  - intros s. specialize (T3 s). lia.
  - constructor; [|done]. intros (f & Ef & Hin)%list_elem_of_fmap. rewrite Forall_forall in T5.
    specialize (fo_serial _ _ _ (T5 f Hin)). lia.
  - constructor.
    + split; cbn; [lia| |by constructor|by intros a ?%elem_of_empty|by intros ? ? _ ?%elem_of_empty].
      intros s Hs. specialize (T3 s). lia.
    + eapply Forall_impl; [exact T5|]. intros f [F1 F2 F3 F4 F5]. split; cbn; try done. lia.
Qed.

(** The thread after the innermost frame is gone. *)
Lemma popped_ok h t f fs h' t' : thread_ok h t → th_frames t = f :: fs →
  grows h (th_next t) h' (th_next t') → th_frames t' = fs → th_depth t' = length fs →
  th_current t' = match fs with f :: _ => fr_serial f | [] => 0%N end →
  th_opened t' = th_opened t → th_noted_in t' = th_noted_in t → th_cells t' = th_cells t →
  th_probing t' = th_probing t → thread_ok h' t'.
Proof.
  intros [T1 T2 T3 T4 T5 T6 T7 T8 T9] Ef Hg E1 E2 E3 E4 E5 E6 E7.
  rewrite Ef in *. apply Forall_cons in T5 as [_ Hfs]. apply NoDup_cons in T4 as [_ Hnd].
  split; rewrite ?E1, ?E4, ?E5, ?E6, ?E7; try done.
  - eapply Forall_impl; [exact Hfs|]. intros g [F1 F2 F3 F4 F5].
    split; rewrite ?E4, ?E5, ?E6; try done.
    + eapply runs_in_mono; [apply Hg|done].
    + intros a Ha. specialize (F4 a Ha). destruct Hg as (_ & ? & _). lia.
  - intros id cell Hc. eapply cell_ok_grows; [exact Hg|by apply T6].
  - apply Hg.
Qed.

(** What a computation over the recording does: its answer, and what it adds to
    the innermost frame, on any thread. *)
Definition behaves {A} (f : Rec V A) (ok : A → Prop) (notes : list Note) : Prop :=
  ∀ h t, thread_ok h t → ∃ a h' t', f t = Some (a, t') ∧ ok a ∧
    grows h (th_next t) h' (th_next t') ∧ thread_ok h' t' ∧
    top_gains t t' (note_bits notes) (note_memos notes).

Lemma rec_bind_eq {A B} (m : Rec V A) (k : A → Rec V B) t a t' :
  m t = Some (a, t') → (m ≫= k) t = k a t'.
Proof. intros E. unfold mbind, rec_bind. by rewrite E. Qed.

Lemma behaves_bind {A B} (m : Rec V A) (k : A → Rec V B) ok ok' notes notes' :
  behaves m ok notes → (∀ a, ok a → behaves (k a) ok' notes') → behaves (m ≫= k) ok' (notes ++ notes').
Proof.
  intros Hm Hk h t Ht. destruct (Hm h t Ht) as (a & h1 & t1 & E1 & Ha & G1 & T1 & P1).
  destruct (Hk a Ha h1 t1 T1) as (b & h2 & t2 & E2 & Hb & G2 & T2 & P2).
  exists b, h2, t2. split; [by rewrite (rec_bind_eq m k _ _ _ E1)|]. split; [done|].
  split; [by eapply more_trans|]. split; [done|].
  rewrite note_bits_app, note_memos_app. by eapply top_gains_trans.
Qed.

Lemma behaves_ret {A} (a : A) : behaves (mret a) (λ b, b = a) [].
Proof.
  intros h t Ht. exists a, h, t. split; [done|]. split; [done|]. split; [by apply more_refl, Ht|].
  split; [done|]. by apply top_gains_same.
Qed.

Lemma behaves_step (m : Rec V ()) notes :
  (∀ h t, thread_ok h t → ∃ t', m t = Some ((), t') ∧ thread_ok h t' ∧ th_next t' = th_next t ∧
     top_gains t t' (note_bits notes) (note_memos notes)) →
  behaves m (λ _, True) notes.
Proof.
  intros Hm h t Ht. destruct (Hm h t Ht) as (t' & E & T & En & P). exists (), h, t'.
  split; [done|]. split; [done|]. split; [rewrite En; by apply more_refl, Ht|done].
Qed.

Lemma record_detached_spec {A} (f : Rec V A) ok notes h t : behaves f ok notes → thread_ok h t →
  ∃ a reads h' t', record_detached f t = Some ((a, reads), t') ∧ ok a ∧
    grows h (th_next t) h' (th_next t') ∧ thread_ok h' t' ∧ th_frames t' = th_frames t ∧
    runs_in h' (rd_runs reads) ∧ reads_small reads ∧ reads_are reads notes.
Proof.
  intros Hf Ht. destruct (push_spec h t Ht) as (f0 & t1 & E1 & T1 & F1 & N1 & S0 & R0).
  destruct (Hf h t1 T1) as (a & h2 & t2 & E2 & Ha & G2 & T2 & P2).
  unfold top_gains in P2. rewrite F1 in P2. destruct (th_frames t2) as [|f' fs] eqn:F2; [done|].
  destruct P2 as [Hg ->].
  assert (Hf' : frame_ok h2 t2 f').
  { pose proof (to_frames _ _ T2) as Hfs. rewrite F2 in Hfs. by apply Forall_cons in Hfs as [? _]. }
  destruct (reads_of_spec h2 (fr_sections f') (fr_runs f') (fr_memos f') (th_next t2)) as
    (reads & h3 & next3 & E3 & G3 & R3 & Hsmall & S3 & M3); [apply T2|apply Hf'|].
  pose proof (to_depth _ _ T2) as D2. rewrite F2 in D2. cbn [length] in D2.
  unfold record_detached. rewrite (rec_bind_eq _ _ _ _ _ E1), (rec_bind_eq _ _ _ _ _ E2).
  erewrite rec_bind_eq by (unfold take_top; by rewrite F2).
  erewrite rec_bind_eq by (unfold finish, frame_finish; cbn [with_frames th_next]; by rewrite E3).
  erewrite rec_bind_eq by (unfold pop; cbn [with_next with_frames th_depth]; by rewrite D2).
  do 4 eexists. split; [reflexivity|]. split; [exact Ha|]. cbn [th_next th_frames with_next with_frames tail].
  split; [rewrite N1 in G2; by eapply more_trans|].
  split; [eapply (popped_ok h2 t2 f' (th_frames t) h3); try done; apply Ht|].
  split; [done|]. split; [done|]. split; [done|]. split.
  - by rewrite S3, (ga_sections _ _ _ _ Hg), S0.
  - intros x. rewrite M3, <- elem_of_frame_reads, (ga_reads _ _ _ _ Hg), R0, elem_of_nil. tauto.
Qed.

Lemma top_gains_are t t' r notes : reads_are r notes → top_gains t t' (rd_sections r) (memo_reads r) →
  top_gains t t' (note_bits notes) (note_memos notes).
Proof.
  intros [Hs Hm]. unfold top_gains. destruct (th_frames t) as [|f fs], (th_frames t') as [|f' fs']; try done.
  intros [[G1 G2 G3] ->]. split; [|done]. split; [done|by rewrite <- Hs|].
  intros x. by rewrite G3, Hm.
Qed.

Lemma replay_frames_next r t t' : replay r t = Some ((), t') → th_next t' = th_next t.
Proof.
  unfold replay. destruct (_ || _); intros [= <-]; [done|]. unfold on_top. by destruct (th_frames t).
Qed.

Lemma record_spec {A} (f : Rec V A) ok notes h t : behaves f ok notes → thread_ok h t →
  ∃ a reads h' t', record f t = Some ((a, reads), t') ∧ ok a ∧
    grows h (th_next t) h' (th_next t') ∧ thread_ok h' t' ∧
    top_gains t t' (note_bits notes) (note_memos notes) ∧
    runs_in h' (rd_runs reads) ∧ reads_small reads ∧ reads_are reads notes.
Proof.
  intros Hf Ht. destruct (record_detached_spec f ok notes h t Hf Ht) as
    (a & reads & h1 & t1 & E1 & Ha & G1 & T1 & F1 & R1 & Hsmall & Hare).
  destruct (replay_spec h1 t1 reads T1 R1) as (t2 & E2 & T2 & P2).
  exists a, reads, h1, t2. split; [unfold record; by rewrite (rec_bind_eq _ _ _ _ _ E1), (rec_bind_eq _ _ _ _ _ E2)|].
  split; [done|]. split; [by rewrite (replay_frames_next _ _ _ E2)|]. split; [done|].
  split; [|done]. eapply top_gains_are; [done|]. unfold top_gains in *. by rewrite F1 in P2.
Qed.

Lemma behaves_record {A} (f : Rec V A) ok notes : behaves f ok notes →
  behaves (record f) (λ p, ok p.1) notes.
Proof.
  intros Hf h t Ht. destruct (record_spec f ok notes h t Hf Ht) as (a & r & h' & t' & E & Ha & G & T & P & _).
  by exists (a, r), h', t'.
Qed.

Lemma behaves_suppress {A} (f : Rec V A) ok notes : behaves f ok notes → behaves (suppress f) ok [].
Proof.
  intros Hf h t Ht. destruct (push_spec h t Ht) as (f0 & t1 & E1 & T1 & F1 & N1 & _).
  assert (Hf0 : frame_ok h t1 f0).
  { pose proof (to_frames _ _ T1) as Hfs. rewrite F1 in Hfs. by apply Forall_cons in Hfs as [? _]. }
  set (f1 := {| fr_suppressed := true; fr_serial := fr_serial f0; fr_sections := fr_sections f0;
    fr_memos := fr_memos f0; fr_runs := fr_runs f0; fr_replayed := fr_replayed f0 |}).
  destruct (with_top_ok h t1 f0 f1 (th_frames t) 0 []) as [T1' _]; [done..| |apply Hf0|by left|].
  { split; [done|simpl; by rewrite N.lor_0_r|]. intros x. rewrite elem_of_nil. unfold frame_reads. simpl. tauto. }
  destruct (Hf h _ T1') as (a & h2 & t2 & E2 & Ha & G2 & T2 & P2).
  unfold top_gains in P2. cbn [with_frames th_frames] in P2. destruct (th_frames t2) as [|f' fs] eqn:F2; [done|].
  destruct P2 as [_ ->]. pose proof (to_depth _ _ T2) as D2. rewrite F2 in D2. cbn [length] in D2.
  unfold suppress. rewrite (rec_bind_eq _ _ _ _ _ E1).
  erewrite rec_bind_eq by (unfold on_top; by rewrite F1). fold f1. rewrite (rec_bind_eq _ _ _ _ _ E2).
  erewrite rec_bind_eq by (unfold pop; by rewrite D2).
  do 3 eexists. split; [reflexivity|]. split; [exact Ha|]. cbn [th_next th_frames].
  split; [cbn [with_frames th_next] in G2; by rewrite N1 in G2|].
  split; [|apply top_gains_same; cbn [th_frames]; by rewrite F2].
  apply (popped_ok h2 t2 f' (th_frames t)); cbn; try done; [by apply more_refl, T2|by rewrite F2|apply Ht].
Qed.

(** ** Caches *)

Lemma gained_covered f bits memos : covers f bits → (∀ x, x ∈ memos → x ∈ frame_reads f) →
  gained f f bits memos.
Proof. intros Hc Hm. split; [done|done|]. intros x. split; [by left|]. by intros [?|?%Hm]. Qed.

Lemma replay_shared_spec h t id cell : thread_ok h t → th_cells t !! id = Some cell →
  ∃ t', replay_shared cell.2.1 cell.2.2 t = Some ((), t') ∧ thread_ok h t' ∧ th_next t' = th_next t ∧
    top_gains t t' (rd_sections cell.2.2) (memo_reads cell.2.2).
Proof.
  intros Ht Hc. destruct cell as [v [a r]]. cbn [fst snd].
  unfold replay_shared. rewrite (recording_frames h t Ht).
  destruct (th_frames t) as [|f fs] eqn:Ef.
  { rewrite orb_true_r. exists t. split; [done|]. split; [done|]. split; [done|]. unfold top_gains. by rewrite Ef. }
  cbn [nil_list negb]. rewrite orb_false_r. destruct (reads_is_empty r) eqn:Ee.
  { exists t. split; [done|]. split; [done|]. split; [done|]. unfold reads_is_empty in Ee.
    apply andb_prop in Ee as [[Hs Hru]%andb_prop Hta]. apply N.eqb_eq in Hs.
    unfold memo_reads. rewrite Hs. destruct (rd_runs r), (rd_tail r); try done. by apply top_gains_same. }
  pose proof (to_frames _ _ Ht) as Hfs. rewrite Ef in Hfs. apply Forall_cons in Hfs as [Hf _].
  pose proof (to_cells _ _ Ht id _ Hc) as Hcell.
  unfold on_top. rewrite Ef. eexists. split; [reflexivity|].
  destruct (has_memos r) eqn:Hm; cbn [negb].
  - destruct (decide (a ∈ fr_replayed f)) as [Hin|Hnew].
    + destruct (fo_replayed _ _ _ Hf id _ Hc Hin) as [Hcov Hx].
      destruct (with_top_ok h t f f fs (rd_sections r) (memo_reads r)) as [? ?]; [done..| |apply Hf|by left|done].
      by apply gained_covered.
    + set (f1 := frame_replayed f a).
      destruct (add_gained h f1 r) as [Hg1 Hruns]; [apply Hf|apply Hcell|].
      assert (Hg : gained f (frame_add f1 r) (rd_sections r) (memo_reads r)) by by destruct Hg1.
      destruct (with_top_ok h t f (frame_add f1 r) fs (rd_sections r) (memo_reads r)) as [? ?]; [done..| |done].
      intros b [->%elem_of_singleton|?]%elem_of_union; [right|by left]. split; [apply (co_at _ _ _ _ Hcell)|].
      intros id' cell' Hc' Eat. rewrite (to_shared _ _ Ht id' id cell' (v, (a, r)) Hc' Hc Eat). cbn [snd].
      split; [by eapply covers_new|]. intros x Hx. apply (ga_reads _ _ _ _ Hg). by right.
  - destruct (with_top_ok h t f (frame_section f (rd_sections r)) fs (rd_sections r) (memo_reads r))
      as [? ?]; [done..| |apply Hf|by left|done].
    split; [done..|]. intros x. unfold frame_reads, memo_reads. simpl.
    unfold has_memos in Hm. destruct (rd_runs r), (rd_tail r); try done. simpl. rewrite elem_of_nil. tauto.
Qed.

Lemma fill_cell_spec h t id v r notes n : thread_ok h t → runs_in h (rd_runs r) →
  denote init w n (init id) = Some (v, notes) → reads_are r notes →
  ∃ t', fill_cell id v r t = Some ((th_next t, r), t') ∧ thread_ok h t' ∧
    grows h (th_next t) h (th_next t') ∧ th_frames t' = th_frames t ∧
    th_cells t' !! id = Some (v, (th_next t, r)).
Proof.
  intros [T1 T2 T3 T4 T5 T6 T7 T8 T9] Hr Hd Hare.
  assert (Hg : grows h (th_next t) h (S (th_next t))).
  { split; [done|]. split; [lia|]. intros a l Ha. destruct (T8 a l Ha) as (? & ? & ?). split; [lia|done]. }
  eexists. split; [reflexivity|]. split; [|split; [exact Hg|split; [done|by simpl; rewrite lookup_insert_eq]]].
  split; cbn; try done.
  - eapply Forall_impl; [exact T5|]. intros f [F1 F2 F3 F4 F5]. split; cbn; try done.
    + intros a Ha. specialize (F4 a Ha). lia.
    + intros i c. rewrite lookup_insert. destruct (decide (id = i)) as [<-|Hne]; [|apply F5].
      intros [= <-]. cbn [fst snd]. intros Hin. specialize (F4 _ Hin). lia.
  - intros i c. rewrite lookup_insert. destruct (decide (id = i)) as [<-|Hne].
    + intros [= <-]. split; [simpl; lia|done|]. by exists n, notes.
    + intros Hc. eapply cell_ok_grows; [exact Hg|by apply T6].
  - intros i j ci cj. rewrite !lookup_insert.
    destruct (decide (id = i)) as [<-|Hi], (decide (id = j)) as [<-|Hj].
    + congruence.
    + intros [= <-] Hc Eat. simpl in Eat. specialize (co_at _ _ _ _ (T6 _ _ Hc)). lia.
    + intros Hc [= <-] Eat. simpl in Eat. specialize (co_at _ _ _ _ (T6 _ _ Hc)). lia.
    + apply T7.
  - apply Hg.
Qed.

Lemma behaves_get_or_init id (f : Rec V V) v notes n : denote init w n (init id) = Some (v, notes) →
  behaves f (λ a, a = v) notes → behaves (get_or_init id f) (λ a, a = v) notes.
Proof.
  intros Hd Hf h t Ht. unfold get_or_init. destruct (th_cells t !! id) as [[v0 [a0 r0]]|] eqn:Ec.
  - pose proof (to_cells _ _ Ht id _ Ec) as [_ _ (m & notes0 & Hd0 & Hare)].
    pose proof (denote_det init w _ _ _ _ _ Hd0 Hd) as [= -> ->].
    destruct (replay_shared_spec h t id _ Ht Ec) as (t' & E & T & En & P).
    exists v, h, t'. split; [by rewrite (rec_bind_eq _ _ _ _ _ E)|]. split; [done|].
    split; [rewrite En; by apply more_refl, Ht|]. split; [done|]. by eapply top_gains_are.
  - rewrite (to_probing _ _ Ht).
    destruct (record_detached_spec f (λ a, a = v) notes h t Hf Ht) as
      (a & r & h1 & t1 & E1 & -> & G1 & T1 & F1 & R1 & _ & Hare).
    destruct (fill_cell_spec h1 t1 id v r notes n T1 R1 Hd Hare) as (t2 & E2 & T2 & G2 & F2 & C2).
    destruct (replay_shared_spec h1 t2 id _ T2 C2) as (t3 & E3 & T3 & N3 & P3).
    exists v, h1, t3. rewrite (rec_bind_eq _ _ _ _ _ E1), (rec_bind_eq _ _ _ _ _ E2), (rec_bind_eq _ _ _ _ _ E3).
    split; [done|]. split; [done|]. split; [rewrite N3; by eapply more_trans|]. split; [done|].
    eapply top_gains_are; [exact Hare|]. unfold top_gains in *. by rewrite F2, F1 in P3.
Qed.

(** ** A chunk on a thread *)

Lemma note_next s t t' : note (V := V) s t = Some ((), t') → th_next t' = th_next t.
Proof. unfold note, on_top. destruct (recording t), (th_frames t); by intros [= <-]. Qed.

Lemma note_once_next s t t' : note_once (V := V) s t = Some ((), t') → th_next t' = th_next t.
Proof.
  unfold note_once. destruct (recording t); [|by intros [= <-]].
  destruct (_ =? _)%N; [by intros [= <-]|]. by intros ->%note_next.
Qed.

Lemma note_memo_next read t t' : note_memo (V := V) read t = Some ((), t') → th_next t' = th_next t.
Proof. unfold note_memo, on_top. destruct (recording t), (th_frames t); by intros [= <-]. Qed.

Lemma behaves_note (hot : bool) s :
  behaves (if hot then note_once s else note s) (λ _, True) [SectionNote s].
Proof.
  apply behaves_step. intros h t Ht. unfold note_bits, note_memos. simpl. rewrite N.lor_0_r. destruct hot.
  - destruct (note_once_spec h t s Ht) as (t' & E & T & P). exists t'. pose proof (note_once_next _ _ _ E). done.
  - destruct (note_spec h t s Ht) as (t' & E & T & P). exists t'. pose proof (note_next _ _ _ E). done.
Qed.

Lemma behaves_note_memo read : behaves (note_memo read) (λ _, True) [MemoNote read].
Proof.
  apply behaves_step. intros h t Ht.
  destruct (note_memo_spec h t read Ht) as (t' & E & T & P). exists t'. pose proof (note_memo_next _ _ _ E). done.
Qed.

(** One level of caches, given the level below. *)
Lemma run_behaves_level n c :
  (∀ m id v notes, n = S m → denote init w m (init id) = Some (v, notes) →
     behaves (run init w m (init id)) (λ a, a = v) notes) →
  ∀ v notes, denote init w n c = Some (v, notes) → behaves (run init w n c) (λ a, a = v) notes.
Proof.
  intros Hlevel.
  induction c as [v0|s hot k IH|table query k IH|c IHc k IH|c IHc k IH|id k IH]; intros v notes Hd;
    rewrite denote_unfold in Hd; rewrite run_unfold.
  - injection Hd as <- <-. apply behaves_ret.
  - apply bind_Some in Hd as ([v1 n1] & E & [= <- <-]).
    apply (behaves_bind _ _ _ _ [SectionNote s] n1 (behaves_note hot s)). intros _ _. by apply IH.
  - destruct (w_memo w table query) as [answer changed_at].
    apply bind_Some in Hd as ([v1 n1] & E & [= <- <-]).
    apply (behaves_bind _ _ _ _ [MemoNote _] n1 (behaves_note_memo _)). intros _ _. by apply IH.
  - apply bind_Some in Hd as ([v1 n1] & E1 & Hd). apply bind_Some in Hd as ([v2 n2] & E2 & [= <- <-]).
    eapply behaves_bind; [apply behaves_record, IHc, E1|]. intros [a r]. simpl. intros ->. by apply IH.
  - apply bind_Some in Hd as ([v1 n1] & E1 & E2).
    apply (behaves_bind _ _ (λ a, a = v1) _ [] notes); [eapply behaves_suppress, IHc, E1|]. intros _ _. by apply IH.
  - destruct n as [|m]; [done|].
    apply bind_Some in Hd as ([v1 n1] & E1 & Hd). apply bind_Some in Hd as ([v2 n2] & E2 & [= <- <-]).
    eapply behaves_bind; [eapply behaves_get_or_init; [exact E1|by apply Hlevel]|].
    intros ? ->. by apply IH.
Qed.

(** A chunk run on any thread answers and reads what it does from the build's
    answers alone. *)
Lemma run_behaves n c : ∀ v notes, denote init w n c = Some (v, notes) →
  behaves (run init w n c) (λ a, a = v) notes.
Proof.
  revert c. induction n as [|n IHn]; intros c; apply run_behaves_level; [done|].
  intros m id v notes [= <-]. apply IHn.
Qed.
End threads.
