(* ===== verification/ReadsTheorems.v ===== *)
(** * What recorded reads promise

    Read sets stay exact and small, a record of a chunk is what the chunk read
    whatever the thread did before, a proof is decided as documented, and a
    chunk whose proof holds in a later build would answer there the same. *)
From S2P Require Import Prelude Order Reads ReadsSpec.

(** ** Sections and notes *)

Lemma section_bit_land (bits : N) (s : Section_) :
  N.land bits (section_bit s) ≠ 0%N ↔ N.testbit bits (section_code s) = true.
Proof.
  unfold section_bit. rewrite N.shiftl_1_l. split.
  - intros Hne. apply not_false_is_true. intros Hf. apply Hne. apply N.bits_inj. intros i.
    rewrite N.land_spec, N.bits_0. destruct (decide (i = section_code s)) as [->|Hi]; [by rewrite Hf|].
    rewrite N.pow2_bits_false by done. apply andb_false_r.
  - intros Ht E. apply (f_equal (λ b, N.testbit b (section_code s))) in E.
    rewrite N.land_spec, Ht, N.pow2_bits_true, N.bits_0 in E. done.
Qed.

Lemma section_code_inj s s' : section_code s = section_code s' → s = s'.
Proof. by destruct s, s'. Qed.

Lemma note_bits_test notes s :
  N.testbit (note_bits notes) (section_code s) = true ↔ SectionNote s ∈ notes.
Proof.
  induction notes as [|[s'|read] notes IH].
  - split; [|by intros ?%elem_of_nil]. unfold note_bits. cbn [foldr]. by rewrite N.bits_0.
  - change (note_bits (SectionNote s' :: notes)) with (N.lor (section_bit s') (note_bits notes)).
    rewrite N.lor_spec, orb_true_iff, IH, elem_of_cons. unfold section_bit. rewrite N.shiftl_1_l.
    destruct (decide (s = s')) as [->|Hne].
    + rewrite N.pow2_bits_true. tauto.
    + rewrite N.pow2_bits_false by (intros E; apply Hne; by apply section_code_inj).
      split; [intros [?|?]; [done|by right]|intros [[= ?]|?]; [done|by right]].
  - change (note_bits (MemoNote read :: notes)) with (note_bits notes). rewrite IH, elem_of_cons.
    split; [by right|]. by intros [?|?].
Qed.

#[local] Instance Note_eq_dec : EqDecision Note.
Proof. solve_decision. Defined.

(** The sections noted, in [Section::ALL] order. *)
Definition noted_sections (notes : list Note) : list Section_ :=
  filter (λ s, SectionNote s ∈ notes) sections_all.

Lemma filter_iff {A} (P Q : A → Prop) `{!∀ x, Decision (P x), !∀ x, Decision (Q x)} (l : list A) :
  (∀ x, P x ↔ Q x) → filter P l = filter Q l.
Proof.
  intros Hl. induction l as [|x l IH]; [done|]. rewrite !filter_cons.
  rewrite (decide_ext (P x) (Q x)) by apply Hl. by rewrite IH.
Qed.

Lemma reads_are_key r notes : reads_are r notes →
  into_memo_reads r = (normalized (note_memos notes), noted_sections notes).
Proof.
  intros [Hs Hm]. unfold into_memo_reads, distinct_memos. f_equal; [by apply normalized_ext|].
  unfold reads_sections, noted_sections. apply filter_iff. intros s.
  by rewrite section_bit_land, Hs, note_bits_test.
Qed.

(** ** Threads *)

Lemma thread_default_ok {V} (init : nat → Chunk V) (w : World V) : thread_ok init w ∅ thread_default.
Proof. split; try done; constructor. Qed.

(** One chunk recorded after another. *)
Fixpoint records {V} (init : nat → Chunk V) (w : World V) (n : nat) (chunks : list (Chunk V))
    : Rec V (list (V * Reads)) :=
  match chunks with
  | [] => mret []
  | c :: chunks => row ← record (run init w n c); rows ← records init w n chunks; mret (row :: rows)
  end.

Lemma records_spec {V} (init : nat → Chunk V) (w : World V) n chunks : ∀ answers h t,
  Forall2 (λ c a, denote init w n c = Some a) chunks answers → thread_ok init w h t → th_frames t = [] →
  ∃ rows h' t', records init w n chunks t = Some (rows, t') ∧ thread_ok init w h' t' ∧ th_frames t' = [] ∧
    Forall2 (λ (a : V * list Note) row, row.1 = a.1 ∧ reads_small row.2 ∧ reads_are row.2 a.2) answers rows.
Proof.
  induction chunks as [|c chunks IH]; intros answers h t Ha Ht Hf.
  - inversion Ha; subst. exists [], h, t. split_and!; [done|done|done|constructor].
  - inversion Ha as [|? [v notes] ? answers' Hc Hcs]; subst.
    destruct (record_spec init w (run init w n c) (λ a, a = v) notes h t) as
      (a & r & h1 & t1 & E1 & -> & _ & T1 & P1 & _ & Hs & Hare); [by apply run_behaves|done|].
    destruct (IH answers' h1 t1 Hcs T1) as (rows & h2 & t2 & E2 & T2 & F2 & Hrows).
    { unfold top_gains in P1. rewrite Hf in P1. by destruct (th_frames t1). }
    exists ((v, r) :: rows), h2, t2. split; [|split; [done|split; [done|by constructor]]].
    cbn [records]. rewrite (rec_bind_eq _ _ _ _ _ E1). by rewrite (rec_bind_eq _ _ _ _ _ E2).
Qed.

(** ** Replaying a chunk's path in another build *)

(** A build answers a note as it was made. *)
Definition keeps {V} (w w' : World V) (note : Note) : Prop :=
  match note with
  | SectionNote s => w_section w' s = w_section w s
  | MemoNote read => w_memo w' (mr_table read) (mr_query read) = w_memo w (mr_table read) (mr_query read)
  end.

(** The trace-replay lemma, one level of caches given the level below. *)
Lemma denote_replay_level {V} (init : nat → Chunk V) (w w' : World V) n c :
  (∀ m id v notes v' notes', n = S m → denote init w m (init id) = Some (v, notes) →
     Forall (keeps w w') notes → denote init w' m (init id) = Some (v', notes') → v' = v ∧ notes' = notes) →
  ∀ v notes v' notes', denote init w n c = Some (v, notes) → Forall (keeps w w') notes →
    denote init w' n c = Some (v', notes') → v' = v ∧ notes' = notes.
Proof.
  intros Hlevel.
  induction c as [v0|s hot k IH|table query k IH|c IHc k IH|c IHc k IH|id k IH];
    intros v notes v' notes' Hd Hk Hd'; rewrite denote_unfold in Hd, Hd'.
  - split; congruence.
  - apply bind_Some in Hd as ([v1 n1] & E & [= <- <-]). apply bind_Some in Hd' as ([v2 n2] & E' & [= <- <-]).
    apply Forall_cons in Hk as [Hs Hk]. simpl in Hs. rewrite Hs in E'.
    by destruct (IH _ _ _ _ _ E Hk E') as [-> ->].
  - destruct (w_memo w table query) as [answer changed_at] eqn:Ew.
    apply bind_Some in Hd as ([v1 n1] & E & [= <- <-]). apply Forall_cons in Hk as [Hm Hk].
    simpl in Hm. rewrite Hm, Ew in Hd'.
    apply bind_Some in Hd' as ([v2 n2] & E' & [= <- <-]). by destruct (IH _ _ _ _ _ E Hk E') as [-> ->].
  - apply bind_Some in Hd as ([v1 n1] & E1 & Hd). apply bind_Some in Hd as ([v2 n2] & E2 & [= <- <-]).
    apply bind_Some in Hd' as ([v3 n3] & E3 & Hd'). apply bind_Some in Hd' as ([v4 n4] & E4 & [= <- <-]).
    apply Forall_app in Hk as [Hk1 Hk2]. destruct (IHc _ _ _ _ E1 Hk1 E3) as [-> ->].
    by destruct (IH _ _ _ _ _ E2 Hk2 E4) as [-> ->].
  - apply bind_Some in Hd as ([v1 n1] & _ & E). apply bind_Some in Hd' as ([v2 n2] & _ & E').
    by eapply IH.
  - destruct n as [|m]; [done|].
    apply bind_Some in Hd as ([v1 n1] & E1 & Hd). apply bind_Some in Hd as ([v2 n2] & E2 & [= <- <-]).
    apply bind_Some in Hd' as ([v3 n3] & E3 & Hd'). apply bind_Some in Hd' as ([v4 n4] & E4 & [= <- <-]).
    apply Forall_app in Hk as [Hk1 Hk2]. destruct (Hlevel _ _ _ _ _ _ eq_refl E1 Hk1 E3) as [-> ->].
    by destruct (IH _ _ _ _ _ E2 Hk2 E4) as [-> ->].
Qed.

Lemma denote_replay {V} (init : nat → Chunk V) (w w' : World V) n c : ∀ v notes v' notes',
  denote init w n c = Some (v, notes) → Forall (keeps w w') notes →
  denote init w' n c = Some (v', notes') → v' = v ∧ notes' = notes.
Proof.
  revert c. induction n as [|n IHn]; intros c; apply denote_replay_level; [done|].
  intros m id v notes v' notes' [= <-]. apply IHn.
Qed.

(** A memo is noted at the revision its answer changed in. *)
Definition at_revision {V} (w : World V) (note : Note) : Prop :=
  match note with
  | SectionNote _ => True
  | MemoNote read => mr_changed_at read = (w_memo w (mr_table read) (mr_query read)).2
  end.

Lemma denote_revisions_level {V} (init : nat → Chunk V) (w : World V) n c :
  (∀ m id v notes, n = S m → denote init w m (init id) = Some (v, notes) → Forall (at_revision w) notes) →
  ∀ v notes, denote init w n c = Some (v, notes) → Forall (at_revision w) notes.
Proof.
  intros Hlevel.
  induction c as [v0|s hot k IH|table query k IH|c IHc k IH|c IHc k IH|id k IH];
    intros v notes Hd; rewrite denote_unfold in Hd.
  - injection Hd as <- <-. constructor.
  - apply bind_Some in Hd as ([v1 n1] & E & [= <- <-]). constructor; [done|by eapply IH].
  - destruct (w_memo w table query) as [answer changed_at] eqn:Ew.
    apply bind_Some in Hd as ([v1 n1] & E & [= <- <-]). constructor; [simpl; by rewrite Ew|by eapply IH].
  - apply bind_Some in Hd as ([v1 n1] & E1 & Hd). apply bind_Some in Hd as ([v2 n2] & E2 & [= <- <-]).
    apply Forall_app. split; [by eapply IHc|by eapply IH].
  - apply bind_Some in Hd as ([v1 n1] & _ & E). by eapply IH.
  - destruct n as [|m]; [done|].
    apply bind_Some in Hd as ([v1 n1] & E1 & Hd). apply bind_Some in Hd as ([v2 n2] & E2 & [= <- <-]).
    apply Forall_app. split; [by eapply Hlevel|by eapply IH].
Qed.

Lemma denote_revisions {V} (init : nat → Chunk V) (w : World V) n c : ∀ v notes,
  denote init w n c = Some (v, notes) → Forall (at_revision w) notes.
Proof.
  revert c. induction n as [|n IHn]; intros c; apply denote_revisions_level; [done|].
  intros m id v notes [= <-]. apply IHn.
Qed.

(** ** Verdicts *)

Section verdicts.
Context {F : Type} `{EqDecision F}.
Implicit Types (p : ReadProof F) (a : ReadAnswers F).

(** The sections answer as recorded. *)
Definition sections_hold p a : Prop :=
  section_fingerprint a <$> reads_sections (rp_reads p) = rp_sections p.

Lemma sections_verdict_spec a rows :
  match sections_verdict a rows with
  | None => section_fingerprint a <$> rows.*1 = rows.*2
  | Some miss => ∃ before s recorded after, rows = before ++ (s, recorded) :: after ∧
      miss = SectionMoved s ∧ section_fingerprint a s ≠ recorded ∧
      section_fingerprint a <$> before.*1 = before.*2
  end.
Proof.
  induction rows as [|[s recorded] rows IH]; [done|]. simpl. case_decide as Hs.
  - destruct (sections_verdict a rows) as [miss|].
    + destruct IH as (before & s' & recorded' & after & -> & -> & Hne & Hb).
      exists ((s, recorded) :: before), s', recorded', after. split_and!; [done..|].
      rewrite !fmap_cons. cbn [fst snd]. by f_equal.
    + by f_equal.
  - by exists [], s, recorded, rows.
Qed.

(** The memo reads in order: the first that moved decides. *)
Lemma memos_verdict_spec a store reads : ∀ undecided,
  match memos_verdict a store undecided reads with
  | Holds => undecided = [] ∧ Forall (λ read, memo_check a store read = Same) reads
  | Moved miss => ∃ before read after, reads = before ++ read :: after ∧ miss = MemoMiss read ∧
      memo_check a store read = MemoMoved ∧ Forall (λ read, memo_check a store read ≠ MemoMoved) before
  | Undecided found => found ≠ [] ∧ Forall (λ read, memo_check a store read ≠ MemoMoved) reads ∧
      found = undecided ++ filter (λ read, memo_check a store read = NotYet) reads
  end.
Proof.
  induction reads as [|read reads IH]; intros undecided; simpl.
  - destruct undecided as [|r l]; [by split|]. by rewrite app_nil_r.
  - rewrite filter_cons. destruct (memo_check a store read) eqn:E; simpl.
    + specialize (IH undecided). destruct (memos_verdict a store undecided reads) as [|miss|found].
      * destruct IH. split; [done|]. by constructor.
      * destruct IH as (b & r & af & -> & -> & Hm & Hb). exists (read :: b), r, af.
        split_and!; try done. constructor; [congruence|done].
      * destruct IH as (? & ? & ->). split_and!; try done. constructor; [congruence|done].
    + exists [], read, reads. by split_and!.
    + specialize (IH (undecided ++ [read])).
      destruct (memos_verdict a store (undecided ++ [read]) reads) as [|miss|found].
      * destruct IH as [He _]. by destruct undecided.
      * destruct IH as (b & r & af & -> & -> & Hm & Hb). exists (read :: b), r, af.
        split_and!; try done. constructor; [congruence|done].
      * destruct IH as (? & ? & ->). split_and!; [done| |by rewrite <- app_assoc].
        constructor; [congruence|done].
Qed.
End verdicts.

(** ** The theorems *)

Lemma filter_normalized lo hi l : normalized (filter (outside lo hi) l) = filter (outside lo hi) (normalized l).
Proof.
  apply increasing_same; [apply normalized_increasing|apply filter_increasing, normalized_increasing|].
  intros x. by rewrite elem_of_normalized, !list_elem_of_filter, elem_of_normalized.
Qed.

Lemma normalized_same l k : normalized l = normalized k ↔ ∀ x, x ∈ l ↔ x ∈ k.
Proof.
  split; [|apply normalized_ext]. intros E x. by rewrite <- (elem_of_normalized l), <- (elem_of_normalized k), E.
Qed.

(** Read sets added one after another. *)
Definition extend_all (state : Reads * nat) (sets : list Reads) : Reads * nat :=
  foldl (λ '(acc, next) r, reads_extend acc r next) state sets.

Lemma extend_all_spec sets : ∀ h acc next, heap_ok h next → runs_in h (rd_runs acc) → reads_small acc →
  Forall (λ r, runs_in h (rd_runs r)) sets →
  ∃ r h' next', extend_all (acc, next) sets = (r, next') ∧ grows h next h' next' ∧ runs_in h' (rd_runs r) ∧
    reads_small r ∧ rd_sections r = foldl N.lor (rd_sections acc) (rd_sections <$> sets) ∧
    ∀ x, x ∈ memo_reads r ↔ x ∈ memo_reads acc ∨ x ∈ mjoin (memo_reads <$> sets).
Proof.
  induction sets as [|r sets IH]; intros h acc next Hh Hacc Hs Hsets.
  - exists acc, h, next. split; [done|]. split; [by apply more_refl|]. split_and!; try done.
    intros x. simpl. rewrite elem_of_nil. tauto.
  - apply Forall_cons in Hsets as [Hr Hsets].
    destruct (reads_extend_spec h acc r next Hh Hacc Hr) as (acc' & h1 & next1 & E1 & G1 & R1 & S1 & B1 & M1).
    destruct (IH h1 acc' next1) as (r' & h2 & next2 & E2 & G2 & R2 & S2 & B2 & M2); [apply G1|done|by apply S1| |].
    { eapply Forall_impl; [exact Hsets|]. intros s Hin. eapply runs_in_mono; [apply G1|done]. }
    exists r', h2, next2. split; [unfold extend_all; cbn [foldl]; by rewrite E1|]. split; [by eapply more_trans|].
    split_and!; [done|done|by rewrite B2, B1|]. intros x. rewrite M2, M1. simpl. rewrite elem_of_app. tauto.
Qed.

(** C31: read sets stay small and exact. However many sets are added one after
    another, their runs shared by address, at most 16 runs and 64 loose reads
    are held; what is held is exactly the union of the sets; equality ignores
    how the runs fall; and leaving some tables out leaves the rest. *)
Theorem reads_extend_is_union h next (sets : list Reads) :
  heap_ok h next → Forall (λ r, runs_in h (rd_runs r)) sets →
  let '(r, next') := extend_all (reads_default, next) sets in
  length (rd_runs r) ≤ 16 ∧ length (rd_tail r) ≤ 64 ∧
  rd_sections r = foldl N.lor 0%N (rd_sections <$> sets) ∧
  distinct_memos r = normalized (mjoin (memo_reads <$> sets)) ∧
  (∀ r', reads_eqb r r' = true ↔
     rd_sections r' = rd_sections r ∧ ∀ x, x ∈ memo_reads r' ↔ x ∈ mjoin (memo_reads <$> sets)) ∧
  ∀ lo hi, let '(kept, _) := without_tables r lo hi next' in
    rd_sections kept = rd_sections r ∧ distinct_memos kept = filter (outside lo hi) (distinct_memos r).
Proof.
  intros Hh Hsets.
  destruct (extend_all_spec sets h reads_default next) as (r & h' & next' & -> & G & R & [S1 S2] & B & M);
    [done|constructor|by split; apply Nat.le_0_l|done|].
  assert (M' : ∀ x, x ∈ memo_reads r ↔ x ∈ mjoin (memo_reads <$> sets)).
  { intros x. rewrite M. unfold memo_reads at 1. simpl. rewrite elem_of_nil. tauto. }
  split_and!; [done..|by apply normalized_ext| |].
  - intros r'. unfold reads_eqb. rewrite andb_true_iff, N.eqb_eq, bool_decide_eq_true. unfold distinct_memos.
    rewrite normalized_same. split; intros [Hs Hx]; (split; [done|]); intros x; by rewrite <- ?M', Hx, ?M'.
  - intros lo hi. destruct (without_tables_spec h' r lo hi next') as (kept & h2 & next2 & -> & _ & _ & _ & Hk & Hm);
      [apply G|done|]. split; [done|]. unfold distinct_memos. rewrite <- filter_normalized.
    apply normalized_ext. intros x. rewrite Hm, list_elem_of_filter. tauto.
Qed.

(** C13: a record is what the chunk read. On a fresh thread, over any sequence
    of chunks (nested recordings, suppressed parts, sections noted once per
    frame, caches filled by whoever asks first), each record answers the chunk
    and holds exactly the sections and memo reads the chunk makes, cache fills
    of earlier chunks included; and the thread ends outside every recording. *)
Theorem record_is_exact {V} (init : nat → Chunk V) (w : World V) n chunks answers :
  Forall2 (λ c answer, denote init w n c = Some answer) chunks answers →
  ∃ rows t, records init w n chunks thread_default = Some (rows, t) ∧ recording t = false ∧
    Forall2 (λ (answer : V * list Note) row, row.1 = answer.1 ∧
      into_memo_reads row.2 = (normalized (note_memos answer.2), noted_sections answer.2)) answers rows.
Proof.
  intros Ha. destruct (records_spec init w n chunks answers ∅ thread_default Ha) as (rows & h & t & E & Ht & Hf & Hr);
    [apply thread_default_ok|done|].
  exists rows, t. split; [done|]. split; [by rewrite (recording_frames _ _ _ _ Ht), Hf|]. eapply Forall2_impl; [exact Hr|].
  intros [v notes] row (? & _ & Hare). split; [done|by apply reads_are_key].
Qed.

Section proofs.
Context {F : Type} `{EqDecision F}.
Implicit Types (p : ReadProof F) (a : ReadAnswers F).

Lemma own_sections_hold a l : sections_verdict a (zip l (section_fingerprint a <$> l)) = None.
Proof. induction l as [|s l IH]; [done|]. simpl. by rewrite decide_True. Qed.

Lemma none_waits a store l : Forall (λ read, memo_check a store read = Same) l →
  filter (λ read, memo_check a store read = NotYet) l = [].
Proof. induction 1 as [|x l Hx Hl IH]; [done|]. by rewrite filter_cons, decide_False by congruence. Qed.

Lemma sections_empty r : reads_is_empty r = true → reads_sections r = [] ∧ has_memos r = false.
Proof.
  intros E. apply andb_prop in E as [[Hs%N.eqb_eq Hr]%andb_prop Ht]. split.
  - unfold reads_sections. by rewrite Hs.
  - unfold has_memos. by rewrite Hr, Ht.
Qed.

(** What each verdict says. *)
Lemma verdict_spec p a :
  let memos_moved_not reads :=
    Forall (λ read, memo_check a (rp_store p) read ≠ MemoMoved) reads in
  match verdict p a with
  | Holds => sections_hold p a ∧ (has_memos (rp_reads p) = true → memo_store_id a = rp_store p ∧
      Forall (λ read, memo_check a (rp_store p) read = Same) (memo_reads (rp_reads p)))
  | Moved UnfinishedChunk => length (rp_sections p) ≠ length (reads_sections (rp_reads p))
  | Moved (SectionMoved s) => ∃ before recorded after,
      zip (reads_sections (rp_reads p)) (rp_sections p) = before ++ (s, recorded) :: after ∧
      section_fingerprint a s ≠ recorded ∧ section_fingerprint a <$> before.*1 = before.*2
  | Moved AnotherStore =>
      sections_hold p a ∧ has_memos (rp_reads p) = true ∧ memo_store_id a ≠ rp_store p
  | Moved (MemoMiss read) => sections_hold p a ∧ memo_store_id a = rp_store p ∧
      ∃ before after, memo_reads (rp_reads p) = before ++ read :: after ∧
        memo_check a (rp_store p) read = MemoMoved ∧ memos_moved_not before
  | Undecided reads => sections_hold p a ∧ memo_store_id a = rp_store p ∧ reads ≠ [] ∧
      memos_moved_not (memo_reads (rp_reads p)) ∧
      reads = filter (λ read, memo_check a (rp_store p) read = NotYet) (memo_reads (rp_reads p))
  end.
Proof.
  intros memos_moved_not.
  unfold verdict. destruct (Nat.eqb_spec (length (rp_sections p)) (length (reads_sections (rp_reads p))))
    as [Hlen|Hlen]; cbn [negb]; [|done].
  destruct (reads_is_empty (rp_reads p)) eqn:Ee.
  { destruct (sections_empty _ Ee) as [Hs Hm]. split; [|by rewrite Hm].
    unfold sections_hold. rewrite Hs in *. symmetry. by apply nil_length_inv. }
  pose proof (sections_verdict_spec a (zip (reads_sections (rp_reads p)) (rp_sections p))) as Hsec.
  destruct (sections_verdict a _) as [miss|].
  { destruct Hsec as (before & s & recorded & after & Ez & -> & Hne & Hb). by exists before, recorded, after. }
  assert (Hold : sections_hold p a).
  { by rewrite fst_zip, snd_zip in Hsec by lia. }
  destruct (has_memos (rp_reads p)) eqn:Hm; cbn [negb]; [|by split].
  destruct (N.eqb_spec (memo_store_id a) (rp_store p)) as [Hst|Hst]; cbn [negb]; [|done].
  pose proof (memos_verdict_spec a (rp_store p) (memo_reads (rp_reads p)) []) as Hmem.
  destruct (memos_verdict a (rp_store p) [] (memo_reads (rp_reads p))) as [|miss|found].
  + split; [done|]. intros _. destruct Hmem as [_ ?]. by split.
  + destruct Hmem as (before & read & after & E & -> & Hr & Hb). split; [done|]. split; [done|].
    by exists before, after.
  + by destruct Hmem as (? & ? & ->).
Qed.

(** C32: a proof is decided as documented. It holds when every section answers
    with its fingerprint and, if memos were read, the store is the same and
    every memo is unchanged; a miss names the first read that moved; reads that
    wait for a pass are all listed when nothing else moved. The proof of a
    chunk still computing never holds, and a fresh proof holds in its own
    build. *)
Theorem verdict_exact p a (zero : F) :
  let memos_moved_not reads :=
    Forall (λ read, memo_check a (rp_store p) read ≠ MemoMoved) reads in
  match verdict p a with
  | Holds => sections_hold p a ∧ (has_memos (rp_reads p) = true → memo_store_id a = rp_store p ∧
      Forall (λ read, memo_check a (rp_store p) read = Same) (memo_reads (rp_reads p)))
  | Moved UnfinishedChunk => length (rp_sections p) ≠ length (reads_sections (rp_reads p))
  | Moved (SectionMoved s) => ∃ before recorded after,
      zip (reads_sections (rp_reads p)) (rp_sections p) = before ++ (s, recorded) :: after ∧
      section_fingerprint a s ≠ recorded ∧ section_fingerprint a <$> before.*1 = before.*2
  | Moved AnotherStore =>
      sections_hold p a ∧ has_memos (rp_reads p) = true ∧ memo_store_id a ≠ rp_store p
  | Moved (MemoMiss read) => sections_hold p a ∧ memo_store_id a = rp_store p ∧
      ∃ before after, memo_reads (rp_reads p) = before ++ read :: after ∧
        memo_check a (rp_store p) read = MemoMoved ∧ memos_moved_not before
  | Undecided reads => sections_hold p a ∧ memo_store_id a = rp_store p ∧ reads ≠ [] ∧
      memos_moved_not (memo_reads (rp_reads p)) ∧
      reads = filter (λ read, memo_check a (rp_store p) read = NotYet) (memo_reads (rp_reads p))
  end ∧
  (∀ r, verdict (proof_pending zero r) a = Moved UnfinishedChunk) ∧
  (∀ r, Forall (λ read, memo_check a (memo_store_id a) read = Same) (memo_reads r) →
     verdict (proof_new r a) a = Holds).
Proof.
  intros memos_moved_not. split; [apply verdict_spec|split].
  - intros r. unfold verdict, proof_pending. cbn [rp_sections rp_reads]. rewrite length_replicate.
    assert (Hle : length (reads_sections r) ≤ length sections_all) by apply length_filter.
    destruct (Nat.eqb_spec (length sections_all + 1) (length (reads_sections r))); [lia|done].
  - intros r Hr. unfold verdict, proof_new. cbn [rp_sections rp_reads rp_store].
    rewrite length_fmap, Nat.eqb_refl. cbn [negb]. destruct (reads_is_empty r); [done|].
    rewrite own_sections_hold. destruct (has_memos r); [|done]. rewrite N.eqb_refl. cbn [negb].
    pose proof (memos_verdict_spec a (memo_store_id a) (memo_reads r) []) as Hmem.
    destruct (memos_verdict a (memo_store_id a) [] (memo_reads r)) as [|miss|found]; [done|..]; exfalso.
    + destruct Hmem as (before & read & after & E & _ & Hm & _). rewrite E in Hr.
      apply Forall_app in Hr as [_ [Hr _]%Forall_cons]. congruence.
    + destruct Hmem as (Hne & _ & E). apply Hne. rewrite E. by apply none_waits.
Qed.
End proofs.

(** ** Reuse *)

Lemma noted_in_reads r notes s : reads_are r notes → SectionNote s ∈ notes → s ∈ reads_sections r.
Proof.
  intros [Hs _] Hin. unfold reads_sections. apply list_elem_of_filter. split; [|by destruct s; repeat constructor].
  by rewrite section_bit_land, Hs, note_bits_test.
Qed.

Lemma memo_in_reads r notes read : reads_are r notes → MemoNote read ∈ notes → read ∈ memo_reads r.
Proof.
  intros [_ Hm] Hin. apply Hm. unfold note_memos. apply list_elem_of_omap. by exists (MemoNote read).
Qed.

Lemma has_memos_of r read : read ∈ memo_reads r → has_memos r = true.
Proof.
  unfold memo_reads, has_memos. destruct (rd_runs r), (rd_tail r); try done. by intros ?%elem_of_nil.
Qed.

(** Every note of a chunk whose proof holds is answered as it was. *)
Lemma proof_keeps {V F} `{EqDecision F} (w w' : World V) (a a' : ReadAnswers F) r notes :
  (∀ s, section_fingerprint a' s = section_fingerprint a s → w_section w' s = w_section w s) →
  (∀ read, at_revision w (MemoNote read) → memo_check a' (memo_store_id a) read = Same →
     w_memo w' (mr_table read) (mr_query read) = w_memo w (mr_table read) (mr_query read)) →
  reads_are r notes → Forall (at_revision w) notes →
  proof_holds (proof_new r a) a' = true → Forall (keeps w w') notes.
Proof.
  intros Hsec Hmemo Hare Hrev Hholds. unfold proof_holds in Hholds.
  pose proof (verdict_spec (proof_new r a) a') as Hv.
  destruct (verdict (proof_new r a) a') as [| |]; [|done..]. destruct Hv as [Hs Hm].
  rewrite Forall_forall in *. intros [s|read] Hin; simpl.
  - apply Hsec. pose proof (noted_in_reads r notes s Hare Hin) as Hins. apply list_elem_of_lookup in Hins as [i Hi].
    apply (f_equal (λ l, l !! i)) in Hs. cbn [proof_new rp_reads rp_sections] in Hs.
    rewrite !list_lookup_fmap, Hi in Hs. simpl in Hs. congruence.
  - pose proof (memo_in_reads r notes read Hare Hin) as Hinr. apply Hmemo; [by apply (Hrev _ Hin)|].
    destruct Hm as [_ Hall]; [by eapply has_memos_of|]. rewrite Forall_forall in Hall. by apply Hall.
Qed.

(** C4: reusing a chunk is sound. Let a chunk be recorded on any thread of one
    build, whatever its caches hold, and its proof hold in another build, where
    equal fingerprints mean equal sections and an unchanged memo answers as it
    did: then running the chunk again there, on any thread, gives the same
    answer and records the same reads. *)
Theorem chunk_reuse_sound {V F} `{EqDecision F} (init : nat → Chunk V) (w w' : World V)
    (a a' : ReadAnswers F) n c h t h' t' :
  (∀ s, section_fingerprint a' s = section_fingerprint a s → w_section w' s = w_section w s) →
  (∀ read, at_revision w (MemoNote read) → memo_check a' (memo_store_id a) read = Same →
     w_memo w' (mr_table read) (mr_query read) = w_memo w (mr_table read) (mr_query read)) →
  is_Some (denote init w n c) → is_Some (denote init w' n c) →
  thread_ok init w h t → thread_ok init w' h' t' →
  ∃ value reads after, record (run init w n c) t = Some ((value, reads), after) ∧
    (proof_holds (proof_new reads a) a' = true →
     ∃ reads' after', record (run init w' n c) t' = Some ((value, reads'), after') ∧
       reads_eqb reads reads' = true).
Proof.
  intros Hsec Hmemo [[v notes] Hd] [[v' notes'] Hd'] Ht Ht'.
  destruct (record_spec init w _ _ notes h t (run_behaves init w n c v notes Hd) Ht) as
    (value & r & h1 & t1 & E & -> & _ & _ & _ & _ & _ & Hare).
  exists v, r, t1. split; [done|]. intros Hholds.
  destruct (denote_replay init w w' n c v notes v' notes' Hd) as [-> ->]; [|done|].
  { eapply proof_keeps; [exact Hsec|exact Hmemo|exact Hare|by eapply denote_revisions|exact Hholds]. }
  destruct (record_spec init w' _ _ notes h' t' (run_behaves init w' n c v notes Hd') Ht') as
    (value & r' & h2 & t2 & E' & -> & _ & _ & _ & _ & _ & Hare').
  exists r', t2. split; [done|]. destruct Hare as [Hs Hm], Hare' as [Hs' Hm'].
  unfold reads_eqb. rewrite Hs, Hs', N.eqb_refl. apply bool_decide_eq_true. apply normalized_ext.
  intros x. by rewrite Hm, Hm'.
Qed.

(** ** Probes *)

(** A probe leaves what readers replay as it is. *)
Definition probes_only {V A} (f : Rec V A) : Prop := ∀ t a t', th_probing t = true → f t = Some (a, t') →
  th_cells t' = th_cells t ∧ th_probing t' = true.

Lemma probes_bind {V A B} (m : Rec V A) (k : A → Rec V B) :
  probes_only m → (∀ a, probes_only (k a)) → probes_only (m ≫= k).
Proof.
  intros Hm Hk t b t' Hp E. unfold mbind, rec_bind in E. destruct (m t) as [[a t1]|] eqn:Em; [|done].
  destruct (Hm t a t1 Hp Em) as [C1 P1]. destruct (Hk a t1 b t' P1 E) as [C2 P2]. split; congruence.
Qed.

Lemma probes_same {V A} (f : Rec V A) :
  (∀ t a t', f t = Some (a, t') → th_cells t' = th_cells t ∧ th_probing t' = th_probing t) → probes_only f.
Proof. intros Hf t a t' Hp E. destruct (Hf t a t' E) as [-> ->]. done. Qed.

Lemma on_top_same {V} (g : Frame → Frame) (t : Thread V) :
  th_cells (on_top g t) = th_cells t ∧ th_probing (on_top g t) = th_probing t.
Proof. unfold on_top. by destruct (th_frames t). Qed.

Lemma probes_note {V} (hot : bool) s : probes_only (V := V) (if hot then note_once s else note s).
Proof.
  apply probes_same. intros t [] t'. destruct hot.
  - unfold note_once. destruct (recording t) eqn:Er; [|by intros [= <-]]. case_match; [by intros [= <-]|].
    unfold note. case_match; intros [= <-]; [|done]. by rewrite !(proj1 (on_top_same _ _)), !(proj2 (on_top_same _ _)).
  - unfold note. case_match; intros [= <-]; [apply on_top_same|done].
Qed.

Lemma probes_replay {V} r : probes_only (V := V) (replay r).
Proof. apply probes_same. intros t [] t'. unfold replay. case_match; intros [= <-]; [done|apply on_top_same]. Qed.

Lemma probes_replay_shared {V} at_ r : probes_only (V := V) (replay_shared at_ r).
Proof.
  apply probes_same. intros t [] t'. unfold replay_shared. case_match; intros [= <-]; [done|apply on_top_same].
Qed.

Lemma probes_pop {V} g : probes_only (V := V) (pop g).
Proof. apply probes_same. intros t [] t'. unfold pop. destruct (th_depth t); [done|]. by intros [= <-]. Qed.

Lemma probes_record_detached {V A} (f : Rec V A) : probes_only f → probes_only (record_detached f).
Proof.
  intros Hf. unfold record_detached. apply probes_bind; [by apply probes_same; intros t a t' [= <- <-]|].
  intros guard. apply probes_bind; [done|]. intros value. apply probes_bind.
  { apply probes_same. intros t a t'. unfold take_top. destruct (th_frames t); [done|]. by intros [= <- <-]. }
  intros top. apply probes_bind.
  { apply probes_same. intros t a t'. unfold finish. destruct (frame_finish _ _). by intros [= <- <-]. }
  intros reads. apply probes_bind; [apply probes_pop|]. intros []. apply probes_same. by intros t a t' [= <- <-].
Qed.

Lemma probes_record {V A} (f : Rec V A) : probes_only f → probes_only (record f).
Proof.
  intros Hf. unfold record. apply probes_bind; [by apply probes_record_detached|]. intros [value r].
  apply probes_bind; [apply probes_replay|]. intros []. apply probes_same. by intros t a t' [= <- <-].
Qed.

Lemma probes_suppress {V A} (f : Rec V A) : probes_only f → probes_only (suppress f).
Proof.
  intros Hf. unfold suppress. apply probes_bind; [by apply probes_same; intros t a t' [= <- <-]|].
  intros guard. apply probes_bind; [apply probes_same; intros t [] t' [= <-]; apply on_top_same|].
  intros []. apply probes_bind; [done|]. intros value. apply probes_bind; [apply probes_pop|].
  intros []. apply probes_same. by intros t a t' [= <- <-].
Qed.

Lemma probes_get_or_init {V} id (f : Rec V V) : probes_only f → probes_only (get_or_init id f).
Proof.
  intros Hf t a t' Hp. unfold get_or_init. destruct (th_cells t !! id) as [[v shared]|].
  - refine (probes_bind _ _ (probes_replay_shared _ _) _ t a t' Hp). intros [].
    apply probes_same. by intros ? ? ? [= <- <-].
  - rewrite Hp. destruct (th_probed t !! id); [by intros [= <- <-]|].
    refine (probes_bind _ _ (probes_record_detached _ Hf) _ t a t' Hp). intros [v r].
    apply probes_bind; [apply probes_replay|]. intros []. apply probes_bind.
    + apply probes_same. by intros ? ? ? [= <- <-].
    + intros []. apply probes_same. by intros ? ? ? [= <- <-].
Qed.

(** The caches later readers replay are never filled by a probe. *)
Lemma probe_fills_nothing {V} (init : nat → Chunk V) (w : World V) n c : probes_only (run init w n c).
Proof.
  revert c. induction n as [|n IHn]; intros c;
    (induction c as [v0|s hot k IH|table query k IH|c IHc k IH|c IHc k IH|id k IH]; rewrite run_unfold;
     [apply probes_same; by intros ? ? ? [= <- <-]|apply probes_bind; [apply probes_note|done]| | | |]).
  all: try done.
  all: try (destruct (w_memo w table query) as [answer changed_at]).
  all: apply probes_bind; [|try done].
  all: try by apply probes_suppress.
  all: try by apply probes_record.
  all: try by apply probes_get_or_init.
  all: try (by intros []).
  all: apply probes_same; intros t [] t'; unfold note_memo; case_match; intros [= <-];
    [apply on_top_same|done].
Qed.

(** ** Witnesses *)

Definition memo_a (q : N) : MemoRead := {| mr_table := 1; mr_query := q; mr_changed_at := 5 |}.
Definition run_a : Run := {| run_at := 0; run_reads := [memo_a 1; memo_a 2] |}.
Definition heap_a : gmap nat (list MemoRead) := {[0 := [memo_a 1; memo_a 2]]}.
Definition sets_a : list Reads :=
  [{| rd_sections := 1; rd_runs := [run_a]; rd_tail := [memo_a 3] |};
   {| rd_sections := 6; rd_runs := [run_a]; rd_tail := [memo_a 2] |}].

Lemma heap_a_ok : heap_ok heap_a 1.
Proof.
  intros a l Hl. unfold heap_a in Hl. apply lookup_singleton_Some in Hl as [<- <-]. split; [lia|]. split; [done|]. by repeat constructor.
Qed.

Lemma sets_a_in : Forall (λ r, runs_in heap_a (rd_runs r)) sets_a.
Proof. repeat constructor. Qed.

(** A cache that reads a section and a memo, and a chunk that asks it twice. *)
Definition init_a (id : nat) : Chunk N :=
  match id with
  | 0 => ReadSection Components true (λ x, ReadMemo 1 2 (λ y, Done (x + y)%N))
  | _ => Done 0%N
  end.

Definition chunk_a : Chunk N :=
  ReadSection FlowAnswers false (λ f,
    Suppressed (ReadMemo 9 9 Done)
      (Recording (Cached 0 Done) (λ x, Cached 0 (λ y, ReadSection FlowAnswers true (λ z, Done (f + x + y + z)%N))))).

Definition world_a : World N :=
  {| w_section := λ s, (section_code s + 10)%N; w_memo := λ table query, ((table + query)%N, 5%N) |}.

(** Another build: a memo only the suppressed part reads has moved, and a
    section nothing reads. *)
Definition world_b : World N :=
  {| w_section := λ s, if decide (s = FlushVeto) then 0%N else (section_code s + 10)%N;
     w_memo := λ table query,
       if decide (table = 9%N ∧ query = 9%N) then (0%N, 6%N) else ((table + query)%N, 5%N) |}.

Definition answers_of (w : World N) : ReadAnswers N :=
  let changed_at store read :=
    if (store =? 1)%N then Some (w_memo w (mr_table read) (mr_query read)).2 else None in
  {| section_fingerprint := w_section w; memo_changed_at := changed_at; memo_store_id := 1;
     memo_check := default_check changed_at |}.

Lemma answers_tell_memos read : at_revision world_a (MemoNote read) →
  memo_check (answers_of world_b) 1 read = Same →
  w_memo world_b (mr_table read) (mr_query read) = w_memo world_a (mr_table read) (mr_query read).
Proof.
  simpl. intros Hat. unfold default_check. simpl. destruct (decide (_ ∧ _)) as [Hd|Hd]; [|done].
  case_decide as E; [|done]. intros _. simpl in E. rewrite Hat in E. done.
Qed.

Lemma chunks_a_denote : Forall2 (λ c answer, denote init_a world_a 1 c = Some answer) [chunk_a; Cached 0 Done]
  [(54%N, [SectionNote FlowAnswers; SectionNote Components; MemoNote (memo_a 2); SectionNote Components;
           MemoNote (memo_a 2); SectionNote FlowAnswers]);
   (13%N, [SectionNote Components; MemoNote (memo_a 2)])].
Proof. repeat constructor. Qed.

Lemma reads_extend_is_union_witness :
  let '(r, next') := extend_all (reads_default, 1) sets_a in
  length (rd_runs r) ≤ 16 ∧ length (rd_tail r) ≤ 64 ∧
  rd_sections r = foldl N.lor 0%N (rd_sections <$> sets_a) ∧
  distinct_memos r = normalized (mjoin (memo_reads <$> sets_a)) ∧
  (∀ r', reads_eqb r r' = true ↔
     rd_sections r' = rd_sections r ∧ ∀ x, x ∈ memo_reads r' ↔ x ∈ mjoin (memo_reads <$> sets_a)) ∧
  ∀ lo hi, let '(kept, _) := without_tables r lo hi next' in
    rd_sections kept = rd_sections r ∧ distinct_memos kept = filter (outside lo hi) (distinct_memos r).
Proof. exact (reads_extend_is_union heap_a 1 sets_a heap_a_ok sets_a_in). Defined.

Lemma record_is_exact_witness :
  ∃ rows t, records init_a world_a 1 [chunk_a; Cached 0 Done] thread_default = Some (rows, t) ∧
    recording t = false ∧
    Forall2 (λ (answer : N * list Note) row, row.1 = answer.1 ∧
        into_memo_reads row.2 = (normalized (note_memos answer.2), noted_sections answer.2))
      [(54%N, [SectionNote FlowAnswers; SectionNote Components; MemoNote (memo_a 2); SectionNote Components;
               MemoNote (memo_a 2); SectionNote FlowAnswers]);
       (13%N, [SectionNote Components; MemoNote (memo_a 2)])] rows.
Proof. exact (record_is_exact init_a world_a 1 _ _ chunks_a_denote). Defined.

Lemma chunk_reuse_sound_witness :
  ∃ value reads after, record (run init_a world_a 1 chunk_a) thread_default = Some ((value, reads), after) ∧
    (proof_holds (proof_new reads (answers_of world_a)) (answers_of world_b) = true →
     ∃ reads' after', record (run init_a world_b 1 chunk_a) thread_default = Some ((value, reads'), after') ∧
       reads_eqb reads reads' = true).
Proof.
  assert (Ha : is_Some (denote init_a world_a 1 chunk_a)) by (eexists; reflexivity).
  assert (Hb : is_Some (denote init_a world_b 1 chunk_a)) by (eexists; reflexivity).
  exact (chunk_reuse_sound init_a world_a world_b (answers_of world_a) (answers_of world_b) 1 chunk_a
    ∅ thread_default ∅ thread_default (λ s E, E) answers_tell_memos Ha Hb
    (thread_default_ok _ _) (thread_default_ok _ _)).
Defined.

(** In the sample the proof holds, so the chunk is reused. *)
Lemma chunk_a_reused :
  ('(row, _) ← record (run init_a world_a 1 chunk_a) thread_default;
   Some (row.1, proof_holds (proof_new row.2 (answers_of world_a)) (answers_of world_b))) = Some (54%N, true).
Proof. vm_compute. reflexivity. Qed.
