(* ===== verification/Suppression.v ===== *)
(** * Suppression comments

    [rust/crates/solid-facts/src/ast/suppression.rs]: which comments switch
    rules off or on, and the line table; and
    [rust/crates/solid-facts-backend/src/suppression.rs]: which findings they
    remove, with the name tables of [rust/crates/solid-facts-backend/src/dialect.rs].
    A [&str] is its characters (Unicode scalar values) and an offset counts
    their UTF-8 bytes. The comments of a file come from the parser; a catalog
    answers which rules and codes it has. The texts of a notice are left out. *)
From stdpp Require Import strings.
From S2P Require Import Prelude Order.

Abbreviation text := (list N).

Definition lit (s : string) : text := Ascii.N_of_ascii <$> String.list_ascii_of_string s.

(** ** Characters *)

Definition utf8_len (c : N) : N :=
  if (c <? 0x80)%N then 1 else if (c <? 0x800)%N then 2 else if (c <? 0x10000)%N then 3 else 4.

Definition byte_len (l : text) : N := foldr N.add 0%N (utf8_len <$> l).

(** [char::is_whitespace]: the property White_Space. *)
Definition is_whitespace (c : N) : bool :=
  ((9 <=? c) && (c <=? 13) || (c =? 0x20) || (c =? 0x85) || (c =? 0xA0) || (c =? 0x1680)
   || (0x2000 <=? c) && (c <=? 0x200A) || (c =? 0x2028) || (c =? 0x2029) || (c =? 0x202F)
   || (c =? 0x205F) || (c =? 0x3000))%N.

Definition is_js_space (c : N) : bool := is_whitespace c || (c =? 0xFEFF)%N.

Definition is_lowercase (c : N) : bool := ((97 <=? c) && (c <=? 122))%N.

Definition hyphen : N := 45.
Definition comma : N := 44.

(** ** Reading one comment *)

Fixpoint trim_start (l : text) : text :=
  match l with c :: l' => if is_js_space c then trim_start l' else l | [] => [] end.

Definition trim (l : text) : text := reverse (trim_start (reverse (trim_start l))).

Fixpoint strip_prefix (p l : text) : option text :=
  match p, l with
  | [], _ => Some l
  | a :: p, b :: l => if (a =? b)%N then strip_prefix p l else None
  | _ :: _, [] => None
  end.

(** How many characters in front satisfy [p]: [take_while(..).count()]. *)
Fixpoint run_of (p : N → bool) (l : text) : nat :=
  match l with c :: l => if p c then S (run_of p l) else 0 | [] => 0 end.

(** Whether the rest after a white space character goes on with two hyphens or
    more and white space: what follows it all. *)
Definition justification_after (rest : text) : option text :=
  let hyphens := run_of (λ c, c =? hyphen)%N rest in
  if (2 <=? hyphens)%nat then
    match drop hyphens rest with
    | after :: justification => if is_js_space after then Some justification else None
    | [] => None
    end
  else None.

Fixpoint split_loop (l : text) : option (text * text) :=
  match l with
  | [] => None
  | c :: rest =>
      match (if is_js_space c then justification_after rest else None) with
      | Some justification => Some ([], justification)
      | None => '(directive, justification) ← split_loop rest; Some (c :: directive, justification)
      end
  end.

Definition split_justification (l : text) : text * text := default (l, []) (split_loop l).

(** Where the label ends; one round of the loop per word. *)
Fixpoint label_loop (fuel : nat) (l : text) : option nat :=
  match fuel with
  | 0 => None
  | S fuel =>
      let word := run_of is_lowercase l in
      if (word =? 0)%nat then None
      else match drop word l with
           | c :: d :: l' =>
               if (c =? hyphen)%N && is_lowercase d
               then stop ← label_loop fuel (d :: l'); Some (S word + stop)
               else Some word
           | _ => Some word
           end
  end.

Definition label_of (directive : text) : option text :=
  stop ← label_loop (S (length directive)) directive;
  match drop stop directive with
  | [] => Some (take stop directive)
  | c :: _ => if is_js_space c then Some (take stop directive) else None
  end.

Inductive SuppressionOrigin := Eslint | SolidChecker.
Inductive SuppressionAction := Disable | Enable | DisableLine | DisableNextLine.

#[global] Instance SuppressionOrigin_eq_dec : EqDecision SuppressionOrigin.
Proof. solve_decision. Defined.
#[global] Instance SuppressionAction_eq_dec : EqDecision SuppressionAction.
Proof. solve_decision. Defined.

Definition action_of (action : text) : option SuppressionAction :=
  if decide (action = lit "disable") then Some Disable
  else if decide (action = lit "enable") then Some Enable
  else if decide (action = lit "disable-line") then Some DisableLine
  else if decide (action = lit "disable-next-line") then Some DisableNextLine
  else None.

Definition classify (label : text) : option (SuppressionOrigin * SuppressionAction) :=
  '(origin, action) ← match strip_prefix (lit "eslint-") label with
                      | Some action => Some (Eslint, action)
                      | None =>
                          action ← strip_prefix (lit "solid-checker-") label;
                          Some (SolidChecker, action)
                      end;
  action ← action_of action;
  Some (origin, action).

Fixpoint split_on (sep : N) (l : text) : list text :=
  match l with
  | [] => [[]]
  | c :: l =>
      if (c =? sep)%N then [] :: split_on sep l
      else match split_on sep l with
           | part :: parts => (c :: part) :: parts
           | [] => [[c]]
           end
  end.

Definition unquote (name : text) : text :=
  match name, last name with
  | first :: rest, Some final =>
      if (((first =? 34) || (first =? 39)) && (first =? final))%N && (2 <=? length name)%nat
      then removelast rest else name
  | _, _ => name
  end.

Definition line_scoped (action : SuppressionAction) : bool :=
  match action with DisableLine | DisableNextLine => true | _ => false end.

Definition nonempty_text (l : text) : Prop := l ≠ [].
#[global] Instance nonempty_text_dec l : Decision (nonempty_text l) := decide (_ ≠ _).

Definition parse_suppression (l : text) (line_comment : bool)
    : option (SuppressionOrigin * SuppressionAction * list text) :=
  let directive := trim (split_justification l).1 in
  label ← label_of directive;
  '(origin, action) ← classify label;
  if line_comment && negb (line_scoped action) then None
  else Some (origin, action,
    filter nonempty_text ((λ name, unquote (trim name)) <$> split_on comma (drop (length label) directive))).

(** ** The comments of a file *)

Record Span := { sp_start : N; sp_end : N }.

#[global] Instance Span_eq_dec : EqDecision Span.
Proof. solve_decision. Defined.

Definition span_cmp (a b : Span) : comparison :=
  then_cmp (N.compare (sp_start a) (sp_start b)) (N.compare (sp_end a) (sp_end b)).

(** The parser's comment. *)
Record Comment := { cm_span : Span; cm_content : Span; cm_line : bool; cm_block : bool }.

Record SuppressionCommentFact := {
  sc_span : Span; sc_origin : SuppressionOrigin; sc_action : SuppressionAction;
  sc_block : bool; sc_names : list text
}.

(** The characters from a byte offset on; [None] inside a character or past the
    end. *)
Fixpoint skip_bytes (offset : N) (l : text) : option text :=
  if (offset =? 0)%N then Some l
  else match l with
       | c :: l => if (utf8_len c <=? offset)%N then skip_bytes (offset - utf8_len c)%N l else None
       | [] => None
       end.

Fixpoint take_bytes (count : N) (l : text) : option text :=
  if (count =? 0)%N then Some []
  else match l with
       | c :: l =>
           if (utf8_len c <=? count)%N
           then taken ← take_bytes (count - utf8_len c)%N l; Some (c :: taken) else None
       | [] => None
       end.

(** [str::get] of a range. *)
Definition get_range (source : text) (s : Span) : option text :=
  if (sp_start s <=? sp_end s)%N
  then rest ← skip_bytes (sp_start s) source; take_bytes (sp_end s - sp_start s)%N rest else None.

Definition comment_fact (source : text) (c : Comment) : option SuppressionCommentFact :=
  content ← get_range source (cm_content c);
  '(origin, action, names) ← parse_suppression content (cm_line c);
  Some {| sc_span := cm_span c; sc_origin := origin; sc_action := action; sc_block := cm_block c;
          sc_names := names |}.

Definition fact_le (a b : SuppressionCommentFact) : Prop := cmp_le span_cmp (sc_span a) (sc_span b).
#[global] Instance fact_le_dec a b : Decision (fact_le a b) := decide (cmp_le _ _ _).

Definition suppression_comments (source : text) (comments : list Comment) : list SuppressionCommentFact :=
  merge_sort fact_le (omap (comment_fact source) comments).

Fixpoint trim_directive (l : text) : text :=
  match l with
  | c :: l' => if is_whitespace c || (c =? 42)%N || (c =? 47)%N then trim_directive l' else l
  | [] => []
  end.

Definition typescript_directive_comment (source : text) (comments : list Comment) : bool :=
  existsb (λ c,
    match get_range source (cm_content c) with
    | Some content =>
        existsb (λ directive, bool_decide (is_Some (strip_prefix (lit directive) (trim_directive content))))
          ["@ts-nocheck"; "@ts-ignore"; "@ts-expect-error"]%string
    | None => false
    end) comments.

(** ** Lines *)

Definition u32_sat (n : N) : N := N.min n (2 ^ 32 - 1).

(** Where each line but the first starts, from a byte index on. *)
Fixpoint line_starts (index : N) (l : text) : list N :=
  match l with
  | [] => []
  | c :: l =>
      if (c =? 13)%N then
        match l with
        | d :: l' =>
            if (d =? 10)%N then (index + 2)%N :: line_starts (index + 2) l'
            else (index + 1)%N :: line_starts (index + 1) l
        | [] => [(index + 1)%N]
        end
      else if ((c =? 10) || (c =? 0x2028) || (c =? 0x2029))%N
      then (index + utf8_len c)%N :: line_starts (index + utf8_len c) l
      else line_starts (index + utf8_len c) l
  end.

Definition line_table (source : text) : list N := 0%N :: (u32_sat <$> line_starts 0 source).

Fixpoint starts_until (offset : N) (starts : list N) : nat :=
  match starts with
  | start :: starts => if (start <=? offset)%N then S (starts_until offset starts) else 0
  | [] => 0
  end.

(** The one-based line of a byte offset. *)
Definition line (starts : list N) (offset : N) : N := u32_sat (N.of_nat (starts_until offset starts)).

(** ** Names *)

(** [RETIRED_RULES] without the reasons. *)
Definition RETIRED_RULES : list string :=
  ["invalid-cleanup-return"; "cleanup-return-unresolved"; "invalid-refresh-target";
   "invalid-affects-target"; "affects-keys-on-accessor"; "refresh-target-unresolved";
   "affects-target-unresolved"; "v1/imports"; "v1/untracked-derived-function";
   "untracked-derived-function"; "v1/cleanup-in-forbidden-scope"; "v1/primitive-in-leaf-owner";
   "v1/primitive-in-directive-application"; "v1/no-implicit-draggable"; "no-implicit-draggable";
   "v1/no-array-handlers"; "v1/no-react-deps"; "v1/event-handlers"; "v1/no-react-specific-props";
   "v1/no-unknown-namespaces"; "v1/no-innerhtml"; "v1/style-prop"; "v1/no-async-tracked-scope";
   "v1/jsx-no-script-url"; "v1/jsx-uses-vars"; "v1/no-proxy-apis"; "v1/self-closing-comp";
   "v1/prefer-component-syntax"; "prefer-component-syntax"; "v1/execution-map-incomplete";
   "execution-map-incomplete"; "v1/valid-jsx-nesting"; "valid-jsx-nesting";
   "cleanup-in-forbidden-scope"; "primitive-in-leaf-owner"; "flush-in-forbidden-scope";
   "pending-async-untracked-read"; "pending-async-forbidden-scope";
   "ssr-client-source-outside-loading-boundary"; "v1/strict-read-untracked";
   "v1/reactive-read-after-await"; "v1/no-destructure"; "v1/components-return-once";
   "v1/reactive-write-in-owned-scope"; "v1/missing-owner"; "v1/missing-effect-function";
   "v1/uncalled-accessor"; "v1/reactive-handler-frozen"; "v1/no-direct-mutation";
   "v1/reactive-source-uncaptured"; "v1/reactive-dispatch-unresolved";
   "v1/jsx-no-duplicate-props"; "v1/jsx-no-undef"; "v1/prefer-classlist"; "v1/prefer-for";
   "v1/prefer-show"; "v1/package-contract-incomplete"; "package-behavior-unavailable";
   "package-contract-incomplete"; "package-contract-export-missing"; "package-contract-missing";
   "package-contract-callback-missing"; "reactive-dispatch-unresolved";
   "reactive-source-uncaptured"]%string.

Definition RETIRED_CODES : list string :=
  ["SC9011"]%string.

Definition UPSTREAM_RULE_NAMES : list string :=
  ["components-return-once"; "event-handlers"; "imports"; "jsx-no-duplicate-props";
   "jsx-no-undef"; "jsx-no-script-url"; "jsx-uses-vars"; "no-accessor-as-prop";
   "no-boolean-enumerated-attribute"; "no-browser-globals-in-server-function"; "no-destructure";
   "no-innerhtml"; "no-invalid-server-capture"; "no-module-scope-reactive-primitive";
   "no-proxy-apis"; "no-react-deps"; "no-react-specific-props"; "no-restated-default-options";
   "no-single-arg-create-effect"; "no-store-mutation-outside-setter"; "no-unknown-namespaces";
   "no-unused-signal"; "no-write-in-pure-computation"; "prefer-classlist"; "prefer-for";
   "prefer-onSettled-for-side-effects"; "prefer-show"; "prefer-structured-class"; "reactivity";
   "removed-api"; "require-async-server-function"; "self-closing-comp"; "style-prop";
   "valid-use-server"; "no-array-handlers"]%string.

Definition ADAPTER_RULE_IDS : list string :=
  ["certification"; "package-note"; "contract-note"]%string.

Definition RULE_ALIASES : list (string * string) :=
  [("v1/no-owner-effect", "v1/missing-owner"); ("v1/no-owner-cleanup", "v1/missing-owner");
   ("v1/no-owner-boundary", "v1/missing-owner"); ("no-owner-effect", "missing-owner");
   ("no-owner-cleanup", "missing-owner"); ("no-owner-boundary", "missing-owner");
   ("no-owner-settled-cleanup", "missing-owner");
   ("v1/package-contract-export-missing", "v1/package-contract-incomplete");
   ("v1/package-contract-missing", "v1/package-contract-incomplete");
   ("v1/package-contract-callback-missing", "v1/package-contract-incomplete");
   ("component-props-destructure", "no-destructure");
   ("component-returns-conditionally", "components-return-once");
   ("expected-function-got-expression", "reactive-handler-frozen");
   ("v1/expected-function-got-expression", "v1/reactive-handler-frozen");
   ("reactive-write-in-owned-scope", "no-write-in-pure-computation");
   ("no-direct-mutation", "no-store-mutation-outside-setter");
   ("resolve-in-tracked-scope", "no-await-primitive-in-tracked-scope");
   ("resolve-in-reactive-scope", "no-await-primitive-in-tracked-scope");
   ("until-in-tracked-scope", "no-await-primitive-in-tracked-scope");
   ("server-function-module-directive", "valid-use-server");
   ("sync-node-received-async", "sync-computation-received-async")]%string.

Definition CODE_SCOPED_ALIASES : list (string * string) :=
  [("resolve-in-tracked-scope", "SC2004"); ("resolve-in-reactive-scope", "SC2004");
   ("until-in-tracked-scope", "SC2005")]%string.

Definition RULE_GROUPS : list (string * list string) :=
  [("reactivity",
    ["strict-read-untracked"; "reactive-read-after-await"; "uncalled-accessor";
     "reactive-handler-frozen"])]%string.

Definition listed (name : text) (table : list string) : bool := bool_decide (name ∈ lit <$> table).

(** [iter().find(|(key, _)| *key == name)]. *)
Fixpoint find_row {A} (name : text) (table : list (string * A)) : option A :=
  match table with
  | [] => None
  | (key, a) :: table => if decide (lit key = name) then Some a else find_row name table
  end.

Definition retired_code (code : text) : bool := listed code RETIRED_CODES.
Definition rule_group (name : text) : option (list text) :=
  match find_row name RULE_GROUPS with Some members => Some (map lit members) | None => None end.
Definition rule_alias_code (name : text) : option text := lit <$> find_row name CODE_SCOPED_ALIASES.
Definition retired_rule (name : text) : bool := listed name RETIRED_RULES.
Definition rule_alias (name : text) : option text := lit <$> find_row name RULE_ALIASES.

(** What a catalog is asked here. *)
Record Dialect := { has_rule : text → bool; has_code : text → bool }.

(** ** What a comment reaches *)

Record Finding := {
  fi_id : text; fi_rule : text; fi_kind : text; fi_subject_kind : text;
  fi_path : text; fi_start_byte : N
}.

Inductive Matcher := Rule (rule : text) | RuleCode (rule code : text) | Code (code : text).

Definition matcher_reaches (m : Matcher) (f : Finding) : bool :=
  match m with
  | Rule rule => bool_decide (fi_rule f = rule)
  | RuleCode rule code => bool_decide (fi_rule f = rule) && bool_decide (fi_id f = code)
  | Code code => bool_decide (fi_id f = code)
  end.

Inductive Reach := All | Named (matchers : list Matcher).

Definition reaches (r : Reach) (f : Finding) : bool :=
  match r with All => true | Named matchers => existsb (λ m, matcher_reaches m f) matchers end.

Inductive Resolution := Matchers (matchers : list Matcher) | Inert | Unknown.

Definition checker_name (d : Dialect) (name : text) (codes : bool) : Resolution :=
  if listed name ADAPTER_RULE_IDS then Inert
  else match rule_group name with
  | Some members => Matchers (Rule <$> members)
  | None =>
      let canonical := default name (rule_alias name) in
      if has_rule d canonical then
        Matchers [match rule_alias_code name with
                  | Some code => RuleCode canonical code
                  | None => Rule canonical
                  end]
      else if codes && has_code d name then Matchers [Code name]
      else if codes && retired_code name then Inert
      else if bool_decide (is_Some (rule_alias name)) || retired_rule name then Inert
      else Unknown
  end.

Definition resolve (d : Dialect) (origin : SuppressionOrigin) (written : text) : Resolution :=
  match strip_prefix (lit "solid-checker/") written with
  | Some name => checker_name d name (bool_decide (origin = SolidChecker))
  | None =>
      match strip_prefix (lit "solid/") written with
      | Some name =>
          if listed name UPSTREAM_RULE_NAMES
          then match checker_name d name false with Unknown => Inert | other => other end
          else Inert
      | None =>
          if decide (origin = SolidChecker) then checker_name d written true else Inert
      end
  end.

(** ** One file's comments *)

Record Scan := { sn_block : list (N * bool * Reach); sn_lines : list (N * Reach) }.

Definition scan_default : Scan := {| sn_block := []; sn_lines := [] |}.

(** The switches at or before the offset, in order. *)
Fixpoint switch_loop (f : Finding) (offset : N) (block : list (N * bool * Reach)) (disabled : bool) : bool :=
  match block with
  | [] => disabled
  | (position, disable, reach) :: block =>
      if (offset <? position)%N then disabled
      else switch_loop f offset block (if reaches reach f then disable else disabled)
  end.

Definition scan_suppresses (s : Scan) (f : Finding) (offset at_line : N) : bool :=
  existsb (λ covered, (covered.1 =? at_line)%N && reaches covered.2 f) (sn_lines s)
  || switch_loop f offset (sn_block s) false.

Record FileDirectives := { fd_lines : list N; fd_eslint : Scan; fd_checker : Scan }.

Definition file_suppresses (fd : FileDirectives) (f : Finding) : bool :=
  let offset := u32_sat (fi_start_byte f) in
  let at_line := line (fd_lines fd) offset in
  scan_suppresses (fd_eslint fd) f offset at_line || scan_suppresses (fd_checker fd) f offset at_line.

Record UnknownName := { un_name : text; un_path : text; un_span : Span }.

(** Names the host applies itself. *)
Definition applied_by_host (host : gset text) (origin : SuppressionOrigin) (written : text) : bool :=
  bool_decide (origin = Eslint) &&
  match strip_prefix (lit "solid-checker/") written with
  | Some rule => bool_decide (rule ∈ host)
  | None => false
  end.

Definition reach_name (d : Dialect) (host : gset text) (path : text) (c : SuppressionCommentFact)
    (state : list Matcher * list UnknownName) (written : text) : list Matcher * list UnknownName :=
  let '(matchers, unknown) := state in
  if applied_by_host host (sc_origin c) written then (matchers, unknown)
  else match resolve d (sc_origin c) written with
       | Matchers found => (matchers ++ found, unknown)
       | Inert => (matchers, unknown)
       | Unknown => (matchers, unknown ++ [{| un_name := written; un_path := path; un_span := sc_span c |}])
       end.

Definition reach_of (d : Dialect) (host : gset text) (path : text) (c : SuppressionCommentFact)
    (unknown : list UnknownName) : option Reach * list UnknownName :=
  match sc_names c with
  | [] => (Some All, unknown)
  | names =>
      let '(matchers, unknown) := foldl (reach_name d host path c) ([], unknown) names in
      (match matchers with [] => None | _ => Some (Named matchers) end, unknown)
  end.

Definition push_block (s : Scan) (row : N * bool * Reach) : Scan :=
  {| sn_block := sn_block s ++ [row]; sn_lines := sn_lines s |}.

Definition push_line (s : Scan) (row : N * Reach) : Scan :=
  {| sn_block := sn_block s; sn_lines := sn_lines s ++ [row] |}.

(** A comment added to the scan of its family. *)
Definition scan_comment (lines : list N) (c : SuppressionCommentFact) (reach : Reach) (s : Scan) : Scan :=
  let first := line lines (sp_start (sc_span c)) in
  let last_ := line lines (sp_end (sc_span c) - 1)%N in
  match sc_action c with
  | Disable => push_block s (sp_start (sc_span c), true, reach)
  | Enable => push_block s (sp_start (sc_span c), false, reach)
  | DisableLine => if (first =? last_)%N then push_line s (first, reach) else s
  | DisableNextLine => push_line s ((last_ + 1)%N, reach)
  end.

Definition compile_comment (d : Dialect) (host : gset text) (path : text)
    (state : FileDirectives * list UnknownName) (c : SuppressionCommentFact)
    : FileDirectives * list UnknownName :=
  let '(fd, unknown) := state in
  let '(reach, unknown) := reach_of d host path c unknown in
  match reach with
  | None => (fd, unknown)
  | Some reach =>
      (match sc_origin c with
       | Eslint => {| fd_lines := fd_lines fd; fd_checker := fd_checker fd;
                      fd_eslint := scan_comment (fd_lines fd) c reach (fd_eslint fd) |}
       | SolidChecker => {| fd_lines := fd_lines fd; fd_eslint := fd_eslint fd;
                            fd_checker := scan_comment (fd_lines fd) c reach (fd_checker fd) |}
       end, unknown)
  end.

Definition compile (d : Dialect) (host : gset text) (path source : text)
    (comments : list SuppressionCommentFact) (unknown : list UnknownName)
    : option FileDirectives * list UnknownName :=
  match comments with
  | [] => (None, unknown)
  | _ =>
      let start := {| fd_lines := line_table source; fd_eslint := scan_default; fd_checker := scan_default |} in
      let '(fd, unknown) := foldl (compile_comment d host path) (start, unknown) comments in
      (Some fd, unknown)
  end.

(** ** Applying *)

Definition removed (by_path : gmap text FileDirectives) (f : Finding) : bool :=
  bool_decide (fi_kind f = lit "violation") && bool_decide (fi_subject_kind f ≠ lit "project") &&
  match by_path !! fi_path f with Some fd => file_suppresses fd f | None => false end.

Definition retain_unsuppressed (by_path : gmap text FileDirectives) (findings : list Finding) : list Finding :=
  if decide (by_path = ∅) then findings
  else filter (λ f, removed by_path f = false) findings.

(** [Ord] on strings: by character, as by UTF-8 byte. *)
Fixpoint text_cmp (a b : text) : comparison :=
  match a, b with
  | [], [] => Eq
  | [], _ => Lt
  | _, [] => Gt
  | x :: a, y :: b => then_cmp (N.compare x y) (text_cmp a b)
  end.

Definition use_cmp (a b : text * Span) : comparison :=
  then_cmp (text_cmp a.1 b.1) (span_cmp a.2 b.2).

(** A notice: the name, its first use and the others. *)
Record Notice := { no_name : text; no_primary : text * Span; no_related : list (text * Span) }.

Definition add_site (sites : gmap text (list (text * Span))) (u : UnknownName)
    : gmap text (list (text * Span)) :=
  <[un_name u := default [] (sites !! un_name u) ++ [(un_path u, un_span u)]]> sites.

(** [None] is [uses[0]] of no use. *)
Definition unknown_suppression_finding (name : text) (uses : list (text * Span)) : option Notice :=
  match uses with
  | first :: others => Some {| no_name := name; no_primary := first; no_related := others |}
  | [] => None
  end.

Definition unknown_name_findings (unknown : list UnknownName) : option (list Notice) :=
  let sites := foldl add_site ∅ unknown in
  mapM (λ name,
      uses ← sites !! name;
      unknown_suppression_finding name (dedup (merge_sort (cmp_le use_cmp) uses)))
    (merge_sort (cmp_le text_cmp) (map_to_list sites).*1).

Record SourceFile := { sf_path : text; sf_source : text; sf_comments : list SuppressionCommentFact }.

Definition apply_file (d : Dialect) (host : gset text) (is_dependency : text → bool)
    (state : gmap text FileDirectives * list UnknownName) (file : SourceFile)
    : gmap text FileDirectives * list UnknownName :=
  let '(by_path, unknown) := state in
  if is_dependency (sf_path file) then (by_path, unknown)
  else
    let '(directives, unknown) :=
      compile d host (sf_path file) (sf_source file) (sf_comments file) unknown in
    (match directives with Some fd => <[sf_path file := fd]> by_path | None => by_path end, unknown).

(** The findings left, and the notices. *)
Definition apply (d : Dialect) (host : gset text) (is_dependency : text → bool)
    (files : list SourceFile) (findings : list Finding) : option (list Finding * list Notice) :=
  let '(by_path, unknown) := foldl (apply_file d host is_dependency) (∅, []) files in
  notices ← unknown_name_findings unknown;
  Some (retain_unsuppressed by_path findings, notices).
