(* ===== verification/SuppressionSpec.v ===== *)
(** * What suppression comments mean

    The grammar of a comment as relations in place of the scanning loops, the
    lines of a source as a count of terminators, and what a file's comments do
    to a finding: a line comment that covers its line, or the last switch at or
    before it. *)
From Stdlib Require Import ZifyBool ZifyN.
From stdpp Require Import strings.
From S2P Require Import Prelude Order Suppression.

(** ** Scanning *)

Lemma run_of_spec p l : ∃ word rest, l = word ++ rest ∧ length word = run_of p l ∧
  Forall (λ c, p c = true) word ∧ match rest with c :: _ => p c = false | [] => True end.
Proof.
  induction l as [|c l IH]; [by exists [], []|]. simpl. destruct (p c) eqn:E.
  - destruct IH as (word & rest & -> & <- & Hw & Hr). exists (c :: word), rest. by split_and!; [..|constructor|].
  - by exists [], (c :: l).
Qed.

(** A run is what is in front, up to the first character outside it. *)
Lemma run_of_app p word rest : Forall (λ c, p c = true) word →
  match rest with c :: _ => p c = false | [] => True end → run_of p (word ++ rest) = length word.
Proof.
  intros Hw Hr. induction Hw as [|c word Hc _ IH]; simpl; [|by rewrite Hc, IH].
  destruct rest as [|c rest]; [done|]. simpl. by rewrite Hr.
Qed.

Lemma strip_prefix_spec p l rest : strip_prefix p l = Some rest ↔ l = p ++ rest.
Proof.
  revert l. induction p as [|a p IH]; intros l; simpl; [split; congruence|].
  destruct l as [|b l]; [done|]. destruct (N.eqb_spec a b) as [->|Hne]; [rewrite IH|]; split; congruence.
Qed.

Lemma strip_prefix_none p l : strip_prefix p l = None → ∀ rest, l ≠ p ++ rest.
Proof. intros E rest Hl. apply strip_prefix_spec in Hl. congruence. Qed.

(** ** Trimming *)

Definition spaces (l : text) : Prop := Forall (λ c, is_js_space c = true) l.

(** No white space at either end. *)
Definition tight (l : text) : Prop :=
  (∀ c, head l = Some c → is_js_space c = false) ∧ (∀ c, last l = Some c → is_js_space c = false).

(** The text without the white space around it. *)
Definition trimmed (l core : text) : Prop :=
  ∃ before after, l = before ++ core ++ after ∧ spaces before ∧ spaces after ∧ tight core.

Lemma trim_start_spec l : ∃ before, l = before ++ trim_start l ∧ spaces before ∧
  ∀ c, head (trim_start l) = Some c → is_js_space c = false.
Proof.
  induction l as [|c l (before & E & Hb & Hh)].
  { exists []. split_and!; [done|constructor|done]. }
  simpl. destruct (is_js_space c) eqn:Ec.
  - exists (c :: before). split_and!; [simpl; by rewrite <- E|by constructor|done].
  - exists []. split_and!; [done|constructor|]. by intros ? [= <-].
Qed.

Lemma trim_start_app before l : spaces before → (∀ c, head l = Some c → is_js_space c = false) →
  trim_start (before ++ l) = l.
Proof.
  intros Hb Hl. induction Hb as [|c before Hc _ IH]; simpl; [|by rewrite Hc].
  destruct l as [|c l]; [done|]. simpl. by rewrite (Hl c).
Qed.

Lemma trim_trimmed l core : trimmed l core ↔ trim l = core.
Proof.
  split.
  - intros (before & after & -> & Hb & Ha & [Hh Hl]). unfold trim. destruct core as [|c core].
    + simpl. assert (Hall : trim_start (before ++ after) = []).
      { pose proof (trim_start_app (before ++ after) []) as H. rewrite app_nil_r in H.
        apply H; [by apply Forall_app|done]. }
      by rewrite Hall.
    + rewrite trim_start_app; [|done|]; [|simpl; intros ? [= <-]; by apply Hh].
      rewrite reverse_app, trim_start_app; [by rewrite reverse_involutive|by apply Forall_reverse|].
      intros x Hx. apply Hl. by rewrite <- head_reverse.
  - intros <-. unfold trim. destruct (trim_start_spec l) as (before & E1 & Hb & H1).
    destruct (trim_start_spec (reverse (trim_start l))) as (after & E2 & Ha & H2).
    set (core := trim_start (reverse (trim_start l))) in *. exists before, (reverse after).
    assert (E3 : trim_start l = reverse core ++ reverse after).
    { by rewrite <- reverse_app, <- E2, reverse_involutive. }
    split_and!; [by rewrite <- E3|done|by apply Forall_reverse|]. split.
    + intros c Hc. apply H1. rewrite E3. destruct (reverse core); [done|]. exact Hc.
    + intros c Hc. apply H2. by rewrite last_reverse in Hc.
Qed.

(** ** The justification *)

(** [/\s-{2,}\s/] matches at a position: what follows the match. *)
Definition matches_at (l : text) (i : nat) (after : text) : Prop :=
  ∃ s hyphens e, drop i l = s :: hyphens ++ e :: after ∧ is_js_space s = true ∧ is_js_space e = true ∧
    Forall (λ c, c = hyphen) hyphens ∧ 2 ≤ length hyphens.

(** The text before the first match, or all of it. *)
Definition directive_of (l directive : text) : Prop :=
  (∃ i after, matches_at l i after ∧ (∀ k after', k < i → ¬ matches_at l k after') ∧ directive = take i l) ∨
  ((∀ i after, ¬ matches_at l i after) ∧ directive = l).

Lemma hyphen_not_space : is_js_space hyphen = false.
Proof. reflexivity. Qed.

Lemma justification_after_spec rest after :
  justification_after rest = Some after ↔
  ∃ hyphens e, rest = hyphens ++ e :: after ∧ is_js_space e = true ∧
    Forall (λ c, c = hyphen) hyphens ∧ 2 ≤ length hyphens.
Proof.
  unfold justification_after. split.
  - destruct (run_of_spec (λ c, c =? hyphen)%N rest) as (hs & tl & E & Hlen & Hhs & _).
    destruct (Nat.leb_spec 2 (run_of (λ c, c =? hyphen)%N rest)) as [H2|]; [|done].
    rewrite <- Hlen. rewrite E at 1. rewrite drop_app_length. destruct tl as [|e tl]; [done|].
    destruct (is_js_space e) eqn:Ee; [|done]. intros [= ->]. exists hs, e. split_and!; [done|done| |lia].
    eapply Forall_impl; [exact Hhs|]. intros c Hc. by apply N.eqb_eq.
  - intros (hs & e & -> & He & Hhs & Hlen).
    rewrite (run_of_app (λ c, c =? hyphen)%N hs (e :: after)).
    + destruct (Nat.leb_spec 2 (length hs)) as [|]; [|lia]. by rewrite drop_app_length, He.
    + eapply Forall_impl; [exact Hhs|]. intros c ->. done.
    + destruct (N.eqb_spec e hyphen) as [->|]; [|done]. by rewrite hyphen_not_space in He.
Qed.

Lemma matches_at_0 c rest after :
  matches_at (c :: rest) 0 after ↔ is_js_space c = true ∧ justification_after rest = Some after.
Proof.
  rewrite justification_after_spec. split.
  - intros (s & hs & e & [= -> ->] & ? & ? & ? & ?). split; [done|]. by exists hs, e.
  - intros [? (hs & e & -> & ? & ? & ?)]. by exists c, hs, e.
Qed.

Lemma matches_at_S c rest i after : matches_at (c :: rest) (S i) after ↔ matches_at rest i after.
Proof. done. Qed.

Lemma matches_at_nil i after : ¬ matches_at [] i after.
Proof. intros (s & hs & e & E & _). by rewrite drop_nil in E. Qed.

Lemma split_loop_spec l :
  match split_loop l with
  | Some (directive, after) => ∃ i, matches_at l i after ∧ (∀ k after', k < i → ¬ matches_at l k after') ∧
      directive = take i l
  | None => ∀ i after, ¬ matches_at l i after
  end.
Proof.
  induction l as [|c rest IH]; [intros i after; apply matches_at_nil|]. simpl.
  destruct (if is_js_space c then justification_after rest else None) as [after|] eqn:E.
  - exists 0. split_and!; [|lia|done]. apply matches_at_0. by destruct (is_js_space c).
  - assert (H0 : ∀ after', ¬ matches_at (c :: rest) 0 after').
    { intros after' [Hc Hj]%matches_at_0. rewrite Hc in E. congruence. }
    destruct (split_loop rest) as [[directive after]|]; cbn [mbind option_bind].
    + destruct IH as (i & Hi & Hno & ->). exists (S i). split_and!; [done| |done].
      intros [|k] after' Hk; [apply H0|]. rewrite matches_at_S. apply Hno. lia.
    + intros [|i] after; [apply H0|]. rewrite matches_at_S. apply IH.
Qed.

Lemma split_justification_spec l directive :
  directive_of l directive ↔ (split_justification l).1 = directive.
Proof.
  unfold split_justification. pose proof (split_loop_spec l) as Hs.
  destruct (split_loop l) as [[d after]|]; cbn [default fst].
  - destruct Hs as (i & Hi & Hno & ->). split.
    + intros [(k & after' & Hk & Hnok & ->)|[Hnone _]]; [|by destruct (Hnone i after)].
      destruct (decide (i < k)) as [|]; [by destruct (Hnok i after)|].
      destruct (decide (k < i)) as [|]; [by destruct (Hno k after')|]. by replace i with k by lia.
    + intros <-. left. by exists i, after.
  - split; [|intros <-; by right]. intros [(k & after & Hk & _)|[_ ->]]; [|done]. by destruct (Hs k after).
Qed.

(** ** Labels *)

(** [[a-z]+(-[a-z]+)*]. *)
Inductive words : text → Prop :=
  | words_one w : w ≠ [] → Forall (λ c, is_lowercase c = true) w → words w
  | words_more w l : w ≠ [] → Forall (λ c, is_lowercase c = true) w → words l → words (w ++ hyphen :: l).

(** White space or the end follows. *)
Definition bounded (rest : text) : Prop := ∀ c, head rest = Some c → is_js_space c = true.

Lemma words_head l : words l → ∃ c l', l = c :: l' ∧ is_lowercase c = true.
Proof.
  destruct 1 as [w Hne Hw|w l Hne Hw _]; (destruct w as [|c w]; [done|]); apply Forall_cons in Hw as [Hc _];
    by repeat eexists.
Qed.

Lemma lowercase_not_space c : is_lowercase c = true → is_js_space c = false.
Proof. unfold is_lowercase, is_js_space, is_whitespace. lia. Qed.

Lemma lowercase_not_hyphen c : is_lowercase c = true → c ≠ hyphen.
Proof. intros Hc ->. done. Qed.

Lemma bounded_lowercase rest : bounded rest →
  match rest with c :: _ => is_lowercase c = false | [] => True end.
Proof.
  intros Hb. destruct rest as [|c rest]; [done|]. specialize (Hb c eq_refl).
  destruct (is_lowercase c) eqn:E; [|done]. apply lowercase_not_space in E. congruence.
Qed.

Lemma label_loop_sound fuel l stop : label_loop fuel l = Some stop →
  words (take stop l) ∧ stop ≤ length l.
Proof.
  revert l stop. induction fuel as [|fuel IH]; intros l stop; [done|]. cbn [label_loop].
  destruct (run_of_spec is_lowercase l) as (word & rest & E & Hlen & Hw & _). rewrite <- Hlen.
  destruct (Nat.eqb_spec (length word) 0) as [|Hne]; [done|].
  assert (Hword : word ≠ []) by (intros ->; by apply Hne).
  assert (Hone : words (take (length word) l) ∧ length word ≤ length l).
  { rewrite E, take_app_length, length_app. split; [by apply words_one|lia]. }
  rewrite E at 1. rewrite drop_app_length. destruct rest as [|c [|d l']].
  - intros [= <-]. exact Hone.
  - intros [= <-]. exact Hone.
  - destruct ((c =? hyphen)%N && is_lowercase d) eqn:Ecd; [|intros [= <-]; exact Hone].
    apply andb_true_iff in Ecd as [->%N.eqb_eq _]. intros (n & Hn & [= <-])%bind_Some.
    destruct (IH _ _ Hn) as [Hwords Hle]. rewrite E. split.
    + cbn [plus]. rewrite plus_n_Sm, take_app_add. cbn [take]. by apply words_more.
    + rewrite length_app. cbn [length] in *. lia.
Qed.

Lemma label_loop_complete label : words label → ∀ fuel rest, length label < fuel → bounded rest →
  label_loop fuel (label ++ rest) = Some (length label).
Proof.
  induction 1 as [w Hne Hw|w l Hne Hw Hl IH]; intros fuel rest Hfuel Hb; (destruct fuel as [|fuel]; [lia|]);
    cbn [label_loop].
  - rewrite (run_of_app is_lowercase w rest Hw (bounded_lowercase rest Hb)).
    destruct (Nat.eqb_spec (length w) 0) as [Hz|_]; [by destruct w|]. rewrite drop_app_length.
    destruct rest as [|c [|d rest]]; [done..|].
    destruct (N.eqb_spec c hyphen) as [->|]; [|done]. specialize (Hb hyphen eq_refl). done.
  - rewrite <- app_assoc. cbn [app].
    rewrite (run_of_app is_lowercase w (hyphen :: l ++ rest) Hw) by done.
    destruct (Nat.eqb_spec (length w) 0) as [Hz|_]; [by destruct w|]. rewrite drop_app_length.
    destruct (words_head l Hl) as (d & l' & -> & Hd). cbn [app]. rewrite N.eqb_refl, Hd. cbn [andb].
    change (d :: l' ++ rest) with ((d :: l') ++ rest). rewrite length_app in Hfuel. cbn [length] in Hfuel.
    rewrite IH; [|cbn [length]; lia|done]. cbn [mbind option_bind]. f_equal. rewrite length_app. cbn [length]. lia.
Qed.

(** The label is the match of the pattern. *)
Lemma label_of_spec d label : label_of d = Some label ↔ ∃ rest, d = label ++ rest ∧ words label ∧ bounded rest.
Proof.
  unfold label_of. split.
  - intros (stop & Hs & E)%bind_Some. destruct (label_loop_sound _ _ _ Hs) as [Hw _].
    exists (drop stop d). destruct (drop stop d) as [|c rest] eqn:Ed.
    + injection E as <-. split_and!; [by rewrite <- Ed, take_drop|done|by intros ? ?].
    + destruct (is_js_space c) eqn:Ec; [|done]. injection E as <-.
      split_and!; [by rewrite <- Ed, take_drop|done|]. by intros ? [= <-].
  - intros (rest & -> & Hw & Hb). rewrite label_loop_complete; [|done|rewrite length_app; lia|done].
    cbn [mbind option_bind]. rewrite drop_app_length, take_app_length.
    destruct rest as [|c rest]; [done|]. by rewrite (Hb c eq_refl).
Qed.

(** What each label is. *)
Definition origin_text (origin : SuppressionOrigin) : text :=
  match origin with Eslint => lit "eslint-" | SolidChecker => lit "solid-checker-" end.

Definition action_text (action : SuppressionAction) : text :=
  match action with
  | Disable => lit "disable" | Enable => lit "enable"
  | DisableLine => lit "disable-line" | DisableNextLine => lit "disable-next-line"
  end.

Lemma action_of_spec l action : action_of l = Some action ↔ l = action_text action.
Proof.
  unfold action_of. split.
  - repeat case_decide; by intros [= <-].
  - intros ->. by destruct action.
Qed.

Lemma classify_spec label origin action :
  classify label = Some (origin, action) ↔ label = origin_text origin ++ action_text action.
Proof.
  unfold classify. split.
  - destruct (strip_prefix (lit "eslint-") label) as [l|] eqn:E; cbn [mbind option_bind].
    + apply strip_prefix_spec in E as ->. intros (a & Ha%action_of_spec & [= <- <-])%bind_Some. by rewrite Ha.
    + destruct (strip_prefix (lit "solid-checker-") label) as [l|] eqn:E'; [|done]. cbn [mbind option_bind].
      apply strip_prefix_spec in E' as ->. intros (a & Ha%action_of_spec & [= <- <-])%bind_Some. by rewrite Ha.
  - intros ->. destruct origin, action; reflexivity.
Qed.

Lemma labels_words origin action : words (origin_text origin ++ action_text action).
Proof.
  assert (Hw : ∀ w, w ≠ [] → forallb is_lowercase w = true → Forall (λ c, is_lowercase c = true) w).
  { intros w _ H. apply Forall_forall. intros c Hc. by apply (proj1 (forallb_forall _ _) H), list_elem_of_In. }
  assert (H1 : ∀ w, w ≠ [] → forallb is_lowercase w = true → words w) by (intros; by apply words_one, Hw).
  assert (H2 : ∀ w l, w ≠ [] → forallb is_lowercase w = true → words l → words (w ++ hyphen :: l))
    by (intros; apply words_more; auto).
  assert (Ha : ∀ a, words (action_text a)).
  { intros []; [by apply H1..| |].
    - by apply (H2 (lit "disable") (lit "line")), H1.
    - by apply (H2 (lit "disable") (lit "next-line")), (H2 (lit "next") (lit "line")), H1. }
  destruct origin.
  - apply (H2 (lit "eslint") (action_text action)); auto.
  - apply (H2 (lit "solid") (lit "checker" ++ hyphen :: action_text action)); auto.
Qed.

(** ** Parsing *)

(** What a comment's text says, in terms of the patterns. *)
Definition says (l : text) (line_comment : bool) (origin : SuppressionOrigin) (action : SuppressionAction)
    (names : list text) : Prop :=
  ∃ directive rest, directive_of l directive ∧
    trimmed directive (origin_text origin ++ action_text action ++ rest) ∧ bounded rest ∧
    (line_comment = true → line_scoped action = true) ∧
    names = filter nonempty_text ((λ name, unquote (trim name)) <$> split_on comma rest).

Lemma parse_suppression_spec l line_comment origin action names :
  parse_suppression l line_comment = Some (origin, action, names) ↔ says l line_comment origin action names.
Proof.
  unfold parse_suppression, says. split.
  - intros (label & Hl & (oa & Hc & E)%bind_Some)%bind_Some. destruct oa as [o a].
    apply label_of_spec in Hl as (rest & Hd & _ & Hb). apply classify_spec in Hc as Hlab.
    destruct (line_comment && negb (line_scoped a)) eqn:Eline; [done|]. injection E as -> -> <-.
    exists (split_justification l).1, rest. split_and!.
    + by apply split_justification_spec.
    + apply trim_trimmed. by rewrite Hd, Hlab, <- app_assoc.
    + done.
    + intros ->. by destruct (line_scoped action).
    + by rewrite Hd, drop_app_length.
  - intros (directive & rest & Hd%split_justification_spec & Ht%trim_trimmed & Hb & Hline & ->).
    rewrite Hd, Ht, app_assoc.
    assert (label_of ((origin_text origin ++ action_text action) ++ rest) =
      Some (origin_text origin ++ action_text action)) as ->.
    { apply label_of_spec. exists rest. split_and!; [done|apply labels_words|done]. }
    cbn [mbind option_bind]. rewrite (proj2 (classify_spec _ origin action) eq_refl). cbn [mbind option_bind].
    rewrite drop_app_length. destruct line_comment; [by rewrite Hline|done].
Qed.

(** ** Lines *)

(** A line ends behind the character: [\n], U+2028, U+2029, or a [\r] with no
    [\n] behind it. *)
Definition ends_line (c : N) (after : text) : bool :=
  (c =? 10)%N || (c =? 0x2028)%N || (c =? 0x2029)%N ||
  (c =? 13)%N && bool_decide (head after ≠ Some 10%N).

(** How many lines end in front of a place. *)
Fixpoint breaks_before (before after : text) : nat :=
  match before with
  | [] => 0
  | c :: rest => (if ends_line c (rest ++ after) then 1 else 0) + breaks_before rest after
  end.

Lemma utf8_len_pos c : (0 < utf8_len c)%N.
Proof. unfold utf8_len. repeat case_match; lia. Qed.

Lemma byte_len_cons c l : byte_len (c :: l) = (utf8_len c + byte_len l)%N.
Proof. done. Qed.

Lemma byte_len_app a b : byte_len (a ++ b) = (byte_len a + byte_len b)%N.
Proof. induction a as [|c a IH]; [done|]. cbn [app]. rewrite !byte_len_cons, IH. lia. Qed.

(** The three cases of a character. *)
Lemma line_starts_cons index c l :
  line_starts index (c :: l) =
    match l with
    | d :: l' =>
        if (c =? 13)%N && (d =? 10)%N then (index + 2)%N :: line_starts (index + 2) l'
        else if ends_line c l then (index + utf8_len c)%N :: line_starts (index + utf8_len c) l
        else line_starts (index + utf8_len c) l
    | [] => if ends_line c [] then [(index + utf8_len c)%N] else []
    end.
Proof.
  cbn [line_starts]. unfold ends_line. destruct (N.eqb_spec c 13) as [->|Hne].
  - destruct l as [|d l']; [done|]. destruct (N.eqb_spec d 10) as [->|Hd]; [done|]. cbn [andb orb head N.eqb Pos.eqb].
    rewrite bool_decide_true by congruence. done.
  - destruct l as [|d l']; cbn [andb orb]; rewrite orb_false_r; by destruct (_ || _).
Qed.

(** Induction over the characters, a [\r\n] in one step or two. *)
Lemma text_ind2 (P : text → Prop) : P [] → (∀ c l, P l → (∀ d l', l = d :: l' → P l') → P (c :: l)) → ∀ l, P l.
Proof.
  intros H0 Hs. assert (Hn : ∀ n l, length l ≤ n → P l).
  { induction n as [|n IH]; intros [|c l] Hl; cbn [length] in Hl; [done|lia|done|].
    apply Hs; [apply IH; lia|]. intros d l' ->. cbn [length] in Hl. apply IH. lia. }
  intros l. by apply (Hn (length l)).
Qed.

Lemma line_starts_above l : ∀ index,
  Forall (λ s, index < s ≤ index + byte_len l)%N (line_starts index l) ∧
  StronglySorted N.lt (line_starts index l).
Proof.
  induction l as [|c l IH IH2] using text_ind2; intros index; [by repeat constructor|].
  pose proof (utf8_len_pos c) as Hc.
  assert (Hrest : ∀ l' k, (∀ i, Forall (λ s, i < s ≤ i + byte_len l')%N (line_starts i l') ∧
      StronglySorted N.lt (line_starts i l')) → (0 < k)%N → (k + byte_len l' = byte_len (c :: l))%N →
      (Forall (λ s, index < s ≤ index + byte_len (c :: l))%N ((index + k)%N :: line_starts (index + k) l') ∧
       StronglySorted N.lt ((index + k)%N :: line_starts (index + k) l')) ∧
      Forall (λ s, index < s ≤ index + byte_len (c :: l))%N (line_starts (index + k) l') ∧
      StronglySorted N.lt (line_starts (index + k) l')).
  { intros l' k HI Hk E. destruct (HI (index + k)%N) as [H1 H2].
    assert (H3 : Forall (λ s, index < s ≤ index + byte_len (c :: l))%N (line_starts (index + k) l')).
    { eapply Forall_impl; [exact H1|]. intros s Hs. cbn beta in Hs. lia. }
    split; [|done]. split; constructor; [lia|done|done|].
    eapply Forall_impl; [exact H1|]. intros s Hs. cbn beta in Hs. lia. }
  rewrite line_starts_cons. destruct l as [|d l'].
  - destruct (Hrest [] (utf8_len c)) as [HA HB]; [intros; by repeat constructor|done|done|].
    destruct (ends_line c []); [exact HA|exact HB].
  - destruct ((c =? 13)%N && (d =? 10)%N) eqn:E.
    + apply andb_true_iff in E as [->%N.eqb_eq ->%N.eqb_eq].
      apply (Hrest l' 2%N); [by eapply IH2|lia|]. rewrite !byte_len_cons. change (utf8_len 13) with 1%N.
      change (utf8_len 10) with 1%N. lia.
    + destruct (Hrest (d :: l') (utf8_len c)) as [HA HB]; [exact IH|done|done|].
      destruct (ends_line c (d :: l')); [exact HA|exact HB].
Qed.

Lemma starts_until_above offset starts : Forall (λ s, offset < s)%N starts → starts_until offset starts = 0.
Proof. destruct 1 as [|s starts Hs]; [done|]. simpl. destruct (N.leb_spec s offset); [lia|done]. Qed.

Lemma line_starts_count l : ∀ index before after, l = before ++ after →
  starts_until (index + byte_len before) (line_starts index l) = breaks_before before after.
Proof.
  induction l as [|c l IH IH2] using text_ind2; intros index before after E.
  { symmetry in E. apply app_nil in E as [-> ->]. done. }
  destruct before as [|x before].
  { apply starts_until_above. rewrite N.add_0_r. destruct (line_starts_above (c :: l) index) as [Hab _].
    eapply Forall_impl; [exact Hab|]. intros s Hs. cbn beta in Hs. lia. }
  injection E as <- ->. rewrite byte_len_cons, line_starts_cons. pose proof (utf8_len_pos c).
  cbn [breaks_before].
  assert (Hstep : ∀ b : bool, starts_until (index + (utf8_len c + byte_len before))
      (if b then (index + utf8_len c)%N :: line_starts (index + utf8_len c) (before ++ after)
       else line_starts (index + utf8_len c) (before ++ after)) =
      (if b then 1 else 0) + breaks_before before after).
  { intros b. rewrite N.add_assoc. rewrite <- (IH (index + utf8_len c)%N before after eq_refl).
    destruct b; [|done]. cbn [starts_until]. by destruct (N.leb_spec (index + utf8_len c) (index + utf8_len c + byte_len before)); [|lia]. }
  destruct (before ++ after) as [|d l'] eqn:Eba.
  { apply app_nil in Eba as [-> ->]. specialize (Hstep (ends_line c [])). by destruct (ends_line c []). }
  destruct ((c =? 13)%N && (d =? 10)%N) eqn:Ecd; [|apply Hstep].
  apply andb_true_iff in Ecd as [->%N.eqb_eq ->%N.eqb_eq].
  change (utf8_len 13) with 1%N. unfold ends_line at 1. cbn [head]. rewrite bool_decide_false by tauto.
  cbn [N.eqb Pos.eqb orb andb plus]. destruct before as [|y before].
  - cbn [breaks_before]. apply starts_until_above. constructor; [cbn; lia|].
    destruct (line_starts_above l' (index + 2)) as [Hab _]. eapply Forall_impl; [exact Hab|].
    intros s Hs. cbn beta in Hs. cbn. lia.
  - injection Eba as -> <-. cbn [breaks_before]. rewrite byte_len_cons. change (utf8_len 10) with 1%N.
    replace (index + (1 + (1 + byte_len before)))%N with (index + 2 + byte_len before)%N by lia.
    cbn [starts_until]. destruct (N.leb_spec (index + 2) (index + 2 + byte_len before)); [|lia].
    by rewrite (IH2 _ _ eq_refl (index + 2)%N before after eq_refl).
Qed.

Lemma breaks_le before after : (N.of_nat (breaks_before before after) ≤ byte_len before)%N.
Proof.
  induction before as [|c rest IH]; [done|]. cbn [breaks_before]. rewrite byte_len_cons.
  pose proof (utf8_len_pos c). destruct (ends_line c (rest ++ after)); lia.
Qed.

(** The line of a character is one more than the lines that end in front. *)
Lemma line_spec before after : (byte_len (before ++ after) < 2 ^ 32 - 1)%N →
  line (line_table (before ++ after)) (byte_len before) = (1 + N.of_nat (breaks_before before after))%N.
Proof.
  intros Hsize. unfold line, line_table.
  assert (E : u32_sat <$> line_starts 0 (before ++ after) = line_starts 0 (before ++ after)).
  { destruct (line_starts_above (before ++ after) 0) as [Hab _].
    induction Hab as [|s starts Hs _ IH]; [done|]. rewrite fmap_cons, IH. f_equal. unfold u32_sat. lia. }
  rewrite E. cbn [starts_until]. destruct (N.leb_spec 0 (byte_len before)); [|lia].
  pose proof (line_starts_count (before ++ after) 0 before after eq_refl) as Hc. rewrite N.add_0_l in Hc.
  rewrite Hc. pose proof (breaks_le before after). rewrite byte_len_app in Hsize. unfold u32_sat. lia.
Qed.

(** ** What a comment reaches *)

Section reach.
Context (d : Dialect) (host : gset text).

(** The matchers a name adds, and whether nothing resolves it. *)
Definition name_matchers (origin : SuppressionOrigin) (written : text) : list Matcher :=
  if applied_by_host host origin written then []
  else match resolve d origin written with Matchers found => found | _ => [] end.

Definition is_unknown (origin : SuppressionOrigin) (written : text) : bool :=
  negb (applied_by_host host origin written) &&
  match resolve d origin written with Unknown => true | _ => false end.

(** The names of a comment nothing resolves, as written. *)
Definition comment_unknown (path : text) (c : SuppressionCommentFact) : list UnknownName :=
  (λ written, {| un_name := written; un_path := path; un_span := sc_span c |})
    <$> filter (λ written, is_unknown (sc_origin c) written = true) (sc_names c).

(** Whether a comment reaches a finding: it names nothing, or some name it
    applies denotes the finding's rule or code. *)
Definition comment_reaches (c : SuppressionCommentFact) (f : Finding) : bool :=
  match sc_names c with
  | [] => true
  | names => existsb (λ written, existsb (λ m, matcher_reaches m f) (name_matchers (sc_origin c) written)) names
  end.

Lemma reach_names_spec path c names : ∀ matchers unknown,
  foldl (reach_name d host path c) (matchers, unknown) names =
    (matchers ++ mjoin (name_matchers (sc_origin c) <$> names),
     unknown ++ ((λ written, {| un_name := written; un_path := path; un_span := sc_span c |})
       <$> filter (λ written, is_unknown (sc_origin c) written = true) names)).
Proof.
  induction names as [|w names IH]; intros matchers unknown; [simpl; by rewrite !app_nil_r|].
  cbn [foldl]. unfold reach_name at 2. rewrite filter_cons.
  cbn [fmap list_fmap mjoin list_join].
  destruct (decide (is_unknown (sc_origin c) w = true)) as [Hu|Hu]; unfold is_unknown in Hu;
    unfold name_matchers at 1; destruct (applied_by_host host (sc_origin c) w); cbn [negb andb] in Hu; try done;
    destruct (resolve d (sc_origin c) w) as [found| |]; try done; rewrite IH; try done.
  - by rewrite <- app_assoc.
  - by rewrite <- app_assoc.
Qed.

Lemma reach_of_spec path c unknown :
  (reach_of d host path c unknown).2 = unknown ++ comment_unknown path c ∧
  ∀ f, match (reach_of d host path c unknown).1 with Some r => reaches r f | None => false end =
    comment_reaches c f.
Proof.
  unfold reach_of, comment_unknown, comment_reaches. destruct (sc_names c) as [|w names].
  { split; [by rewrite app_nil_r|done]. }
  rewrite reach_names_spec, app_nil_l. split; [done|]. intros f. cbn [fst].
  assert (E : existsb (λ m, matcher_reaches m f) (mjoin (name_matchers (sc_origin c) <$> w :: names)) =
    existsb (λ written, existsb (λ m, matcher_reaches m f) (name_matchers (sc_origin c) written)) (w :: names)).
  { generalize (w :: names). intros l. induction l as [|x l IH]; [done|].
    change (mjoin (name_matchers (sc_origin c) <$> x :: l)) with
      (name_matchers (sc_origin c) x ++ mjoin (name_matchers (sc_origin c) <$> l)).
    rewrite existsb_app, IH. done. }
  rewrite <- E. by destruct (mjoin _).
Qed.

(** What a comment reaches does not depend on the names found before it. *)
Lemma reach_of_fst path c unknown : (reach_of d host path c unknown).1 = (reach_of d host path c []).1.
Proof.
  unfold reach_of. destruct (sc_names c) as [|w names]; [done|]. by rewrite !reach_names_spec.
Qed.

(** ** The scans of a file *)

Definition switch_of (path : text) (origin : SuppressionOrigin) (c : SuppressionCommentFact)
    : option (N * bool * Reach) :=
  if decide (sc_origin c = origin) then
    reach ← (reach_of d host path c []).1;
    match sc_action c with
    | Disable => Some (sp_start (sc_span c), true, reach)
    | Enable => Some (sp_start (sc_span c), false, reach)
    | _ => None
    end
  else None.

Definition line_of (lines : list N) (path : text) (origin : SuppressionOrigin) (c : SuppressionCommentFact)
    : option (N * Reach) :=
  if decide (sc_origin c = origin) then
    reach ← (reach_of d host path c []).1;
    let first := line lines (sp_start (sc_span c)) in
    let last_ := line lines (sp_end (sc_span c) - 1)%N in
    match sc_action c with
    | DisableLine => if (first =? last_)%N then Some (first, reach) else None
    | DisableNextLine => Some ((last_ + 1)%N, reach)
    | _ => None
    end
  else None.

Definition scan_of (fd : FileDirectives) (origin : SuppressionOrigin) : Scan :=
  match origin with Eslint => fd_eslint fd | SolidChecker => fd_checker fd end.

Definition scan_rows (lines : list N) (path : text) (origin : SuppressionOrigin)
    (comments : list SuppressionCommentFact) : Scan :=
  {| sn_block := omap (switch_of path origin) comments; sn_lines := omap (line_of lines path origin) comments |}.

Lemma compile_comments_spec path lines comments : ∀ fd unknown, fd_lines fd = lines →
  let '(fd', unknown') := foldl (compile_comment d host path) (fd, unknown) comments in
  fd_lines fd' = lines ∧ unknown' = unknown ++ mjoin (comment_unknown path <$> comments) ∧
  ∀ origin, scan_of fd' origin =
    {| sn_block := sn_block (scan_of fd origin) ++ sn_block (scan_rows lines path origin comments);
       sn_lines := sn_lines (scan_of fd origin) ++ sn_lines (scan_rows lines path origin comments) |}.
Proof.
  induction comments as [|c comments IH]; intros fd unknown Hl.
  { simpl. split; [done|]. split; [by rewrite app_nil_r|]. intros origin. rewrite !app_nil_r. by destruct (scan_of fd origin). }
  cbn [foldl]. destruct (compile_comment d host path (fd, unknown) c) as [fd1 unknown1] eqn:E1.
  assert (H1 : fd_lines fd1 = lines ∧ unknown1 = unknown ++ comment_unknown path c ∧
    ∀ origin, scan_of fd1 origin =
      {| sn_block := sn_block (scan_of fd origin) ++ sn_block (scan_rows lines path origin [c]);
         sn_lines := sn_lines (scan_of fd origin) ++ sn_lines (scan_rows lines path origin [c]) |}).
  { unfold compile_comment in E1. destruct (reach_of_spec path c unknown) as [Hu _].
    pose proof (reach_of_fst path c unknown) as Hr.
    destruct (reach_of d host path c unknown) as [reach unknown2]. cbn [fst snd] in *. subst unknown2.
    unfold scan_rows, switch_of, line_of. cbn [omap list_omap]. rewrite <- Hr.
    destruct reach as [reach|]; injection E1 as <- <-.
    - unfold scan_comment. rewrite Hl. split; [by destruct (sc_origin c)|]. split; [done|].
      intros []; destruct (sc_origin c); cbn [scan_of fd_eslint fd_checker];
        (first [rewrite decide_True by done|rewrite decide_False by done]);
        cbn [mbind option_bind sn_block sn_lines];
        destruct (sc_action c); try (destruct (_ =? _)%N); cbn [push_block push_line sn_block sn_lines];
        rewrite ?app_nil_r; done || (by destruct (fd_eslint fd)) || (by destruct (fd_checker fd)).
    - split; [done|]. split; [done|]. intros origin.
      destruct (decide (sc_origin c = origin)); cbn [mbind option_bind sn_block sn_lines];
        rewrite !app_nil_r; by destruct (scan_of fd origin). }
  destruct H1 as (Hl1 & -> & Hs1). specialize (IH fd1 (unknown ++ comment_unknown path c) Hl1).
  destruct (foldl (compile_comment d host path) (fd1, unknown ++ comment_unknown path c) comments) as [fd2 unknown2].
  destruct IH as (Hl2 & -> & Hs2). split; [done|]. split; [by rewrite <- app_assoc|].
  intros origin. rewrite Hs2, Hs1. cbn [sn_block sn_lines]. rewrite <- !app_assoc. f_equal; f_equal;
    unfold scan_rows; cbn [sn_block sn_lines omap list_omap]; by case_match.
Qed.

(** ** Switches *)

Definition is_switch (c : SuppressionCommentFact) : Prop := sc_action c = Disable ∨ sc_action c = Enable.
#[global] Instance is_switch_dec c : Decision (is_switch c) := decide (_ ∨ _).

(** The switches of a family that reach a finding, at or before a place. *)
Definition switches (origin : SuppressionOrigin) (comments : list SuppressionCommentFact) (f : Finding) (offset : N)
    : list SuppressionCommentFact :=
  filter (λ c, sc_origin c = origin ∧ is_switch c ∧ (sp_start (sc_span c) ≤ offset)%N ∧ comment_reaches c f = true)
    comments.

Definition sorted_comments (comments : list SuppressionCommentFact) : Prop :=
  StronglySorted (λ a b, (sp_start (sc_span a) ≤ sp_start (sc_span b))%N) comments.

Lemma reach_None path c f : (reach_of d host path c []).1 = None → comment_reaches c f = false.
Proof. intros E. destruct (reach_of_spec path c []) as [_ Hr]. by rewrite <- Hr, E. Qed.

Lemma reach_Some path c f r : (reach_of d host path c []).1 = Some r → comment_reaches c f = reaches r f.
Proof. intros E. destruct (reach_of_spec path c []) as [_ Hr]. by rewrite <- Hr, E. Qed.

Lemma switches_past origin comments f offset :
  Forall (λ c, (offset < sp_start (sc_span c))%N) comments → switches origin comments f offset = [].
Proof.
  unfold switches. induction 1 as [|c comments Hc _ IH]; [done|]. rewrite filter_cons, decide_False; [done|]. lia.
Qed.

Lemma rows_past path origin comments f offset init :
  Forall (λ c, (offset < sp_start (sc_span c))%N) comments →
  switch_loop f offset (omap (switch_of path origin) comments) init = init.
Proof.
  intros Hall. induction Hall as [|c comments Hc _ IH]; [done|]. cbn [omap list_omap].
  unfold switch_of at 1. case_decide; [|exact IH].
  destruct (reach_of d host path c []).1 as [r|]; cbn [mbind option_bind]; [|exact IH].
  destruct (sc_action c); try exact IH; cbn [switch_loop]; (destruct (N.ltb_spec offset (sp_start (sc_span c))); [done|lia]).
Qed.

(** The last switch that reaches the finding decides. *)
Lemma switch_loop_spec path origin comments f offset : sorted_comments comments → ∀ init,
  switch_loop f offset (omap (switch_of path origin) comments) init =
  match last (switches origin comments f offset) with
  | Some c => bool_decide (sc_action c = Disable)
  | None => init
  end.
Proof.
  induction 1 as [|c comments Hs IH Hc]; intros init; [done|].
  destruct (N.ltb_spec offset (sp_start (sc_span c))) as [Hlt|Hle].
  { assert (Hall : Forall (λ c', (offset < sp_start (sc_span c'))%N) (c :: comments)).
    { constructor; [done|]. eapply Forall_impl; [exact Hc|]. intros c' Hc'. cbn beta in Hc'. lia. }
    by rewrite (rows_past path origin _ f offset init Hall), (switches_past origin _ f offset Hall). }
  cbn [omap list_omap]. unfold switches. rewrite filter_cons. fold (switches origin comments f offset).
  assert (Hskip : ¬ (sc_origin c = origin ∧ is_switch c ∧ (sp_start (sc_span c) ≤ offset)%N ∧
      comment_reaches c f = true) →
    switch_loop f offset (omap (switch_of path origin) comments) init =
    match last (if decide (sc_origin c = origin ∧ is_switch c ∧ (sp_start (sc_span c) ≤ offset)%N ∧
        comment_reaches c f = true) then c :: switches origin comments f offset
      else switches origin comments f offset) with
    | Some c => bool_decide (sc_action c = Disable) | None => init end).
  { intros Hno. rewrite decide_False by done. apply IH. }
  unfold switch_of at 1. destruct (decide (sc_origin c = origin)) as [Ho|Ho]; [|apply Hskip; tauto].
  destruct (reach_of d host path c []).1 as [r|] eqn:Er; cbn [mbind option_bind].
  2:{ apply Hskip. rewrite (reach_None path c f Er). intros (_ & _ & _ & ?). done. }
  assert (Hrow : ∀ b : bool, is_switch c → b = bool_decide (sc_action c = Disable) →
    switch_loop f offset ((sp_start (sc_span c), b, r) :: omap (switch_of path origin) comments) init =
    match last (if decide (sc_origin c = origin ∧ is_switch c ∧ (sp_start (sc_span c) ≤ offset)%N ∧
        comment_reaches c f = true) then c :: switches origin comments f offset
      else switches origin comments f offset) with
    | Some c => bool_decide (sc_action c = Disable) | None => init end).
  { intros b Hsw Hb. cbn [switch_loop]. destruct (N.ltb_spec offset (sp_start (sc_span c))); [lia|].
    rewrite IH, <- (reach_Some path c f r Er). destruct (comment_reaches c f) eqn:Ec.
    - rewrite decide_True by done. rewrite last_cons. by destruct (last (switches origin comments f offset)).
    - rewrite decide_False; [done|]. intros (_ & _ & _ & ?). done. }
  destruct (sc_action c) eqn:Ea.
  - apply Hrow; [by left|done].
  - apply Hrow; [by right|done].
  - apply Hskip. unfold is_switch. rewrite Ea. intros (_ & [?|?] & _); done.
  - apply Hskip. unfold is_switch. rewrite Ea. intros (_ & [?|?] & _); done.
Qed.
End reach.

(** ** A file and a finding *)

Section apply.
Context (d : Dialect) (host : gset text).

(** A comment covers one line: its own, or the one behind its last. *)
Definition covered_line (lines : list N) (c : SuppressionCommentFact) : option N :=
  let first := line lines (sp_start (sc_span c)) in
  let last_ := line lines (sp_end (sc_span c) - 1)%N in
  match sc_action c with
  | DisableLine => if (first =? last_)%N then Some first else None
  | DisableNextLine => Some (last_ + 1)%N
  | _ => None
  end.

(** What a file's comments do to a finding in it: of one family, a comment that
    covers its line, or the last switch at or before it is a disable. *)
Definition suppressed_in (source : text) (comments : list SuppressionCommentFact) (f : Finding) : Prop :=
  let offset := u32_sat (fi_start_byte f) in
  let lines := line_table source in
  ∃ origin,
    (∃ c, c ∈ comments ∧ sc_origin c = origin ∧ comment_reaches d host c f = true ∧
       covered_line lines c = Some (line lines offset)) ∨
    sc_action <$> last (switches d host origin comments f offset) = Some Disable.

Lemma scan_suppresses_spec lines path origin comments f offset at_line : sorted_comments comments →
  scan_suppresses (scan_rows d host lines path origin comments) f offset at_line = true ↔
  (∃ c, c ∈ comments ∧ sc_origin c = origin ∧ comment_reaches d host c f = true ∧
     covered_line lines c = Some at_line) ∨
  sc_action <$> last (switches d host origin comments f offset) = Some Disable.
Proof.
  intros Hs. unfold scan_suppresses, scan_rows. cbn [sn_block sn_lines].
  rewrite orb_true_iff, (switch_loop_spec d host path origin comments f offset Hs false). apply Morphisms_Prop.or_iff_morphism.
  - rewrite existsb_exists. split.
    + intros ([at_ r] & Hin%list_elem_of_In & [Hat Hr]%andb_true_iff). cbn [fst snd] in *.
      apply N.eqb_eq in Hat as ->. apply list_elem_of_omap in Hin as (c & Hc & E). exists c. split; [done|].
      unfold line_of in E. case_decide as Ho; [|done].
      apply bind_Some in E as (r' & Er & E). split; [done|].
      rewrite (reach_Some d host path c f r' Er). unfold covered_line.
      destruct (sc_action c); try done; [destruct (_ =? _)%N; [|done]|]; by injection E as -> ->.
    + intros (c & Hc & Ho & Hr & Hl).
      destruct ((reach_of d host path c []).1) as [r|] eqn:Er; [|by rewrite (reach_None d host path c f Er) in Hr].
      exists (at_line, r). rewrite <- list_elem_of_In. cbn [fst snd]. split.
      * apply list_elem_of_omap. exists c. split; [done|]. unfold line_of. rewrite decide_True by done.
        rewrite Er. cbn [mbind option_bind]. unfold covered_line in Hl.
        destruct (sc_action c); try done; [destruct (_ =? _)%N; [|done]|]; by injection Hl as ->.
      * by rewrite N.eqb_refl, <- (reach_Some d host path c f r Er).
  - destruct (last (switches d host origin comments f offset)) as [c|]; cbn [fmap option_fmap option_map].
    + rewrite bool_decide_eq_true. split; [by intros ->|congruence].
    + split; [done|done].
Qed.

(** Compiling a file: its scans and the names nothing resolves. *)
Lemma compile_spec path source comments unknown f : sorted_comments comments →
  (compile d host path source comments unknown).2 =
    unknown ++ mjoin (comment_unknown d host path <$> comments) ∧
  (match (compile d host path source comments unknown).1 with
   | Some fd => file_suppresses fd f = true | None => False end ↔ suppressed_in source comments f).
Proof.
  intros Hs. unfold compile. destruct comments as [|c comments].
  { split; [by rewrite app_nil_r|]. split; [done|]. intros (o & [(c & Hc & _)|E]); [|done]. by apply elem_of_nil in Hc. }
  set (cs := c :: comments) in *.
  set (start := {| fd_lines := line_table source; fd_eslint := scan_default; fd_checker := scan_default |}).
  pose proof (compile_comments_spec d host path (line_table source) cs start unknown eq_refl) as H.
  destruct (foldl (compile_comment d host path) (start, unknown) cs) as [fd unknown']. destruct H as (Hl & -> & Hscan).
  split; [done|]. cbn [fst]. unfold file_suppresses, suppressed_in. rewrite Hl.
  assert (Hrows : ∀ origin, scan_of fd origin = scan_rows d host (line_table source) path origin cs).
  { intros origin. rewrite Hscan. by destruct origin. }
  pose proof (Hrows Eslint) as He. pose proof (Hrows SolidChecker) as Hc. cbn [scan_of] in He, Hc.
  rewrite He, Hc, orb_true_iff, !(scan_suppresses_spec _ _ _ _ _ _ _ Hs). split.
  - intros [?|?]; [by exists Eslint|by exists SolidChecker].
  - intros [[] ?]; [by left|by right].
Qed.

Context (is_dependency : text → bool).

(** The project's own files. *)
Definition own_files (files : list SourceFile) : list SourceFile :=
  filter (λ file, is_dependency (sf_path file) = false) files.

Lemma apply_files_spec files : Forall (λ file, sorted_comments (sf_comments file)) files →
  NoDup (sf_path <$> files) → ∀ by_path unknown,
  (∀ file, file ∈ files → by_path !! sf_path file = None) →
  let '(by_path', unknown') := foldl (apply_file d host is_dependency) (by_path, unknown) files in
  unknown' = unknown ++ mjoin ((λ file, mjoin (comment_unknown d host (sf_path file) <$> sf_comments file))
    <$> own_files files) ∧
  ∀ f, (match by_path' !! fi_path f with Some fd => file_suppresses fd f = true | None => False end) ↔
    (match by_path !! fi_path f with Some fd => file_suppresses fd f = true | None => False end) ∨
    ∃ file, file ∈ own_files files ∧ sf_path file = fi_path f ∧ suppressed_in (sf_source file) (sf_comments file) f.
Proof.
  unfold own_files. induction files as [|file files IH]; intros Hs Hnd by_path unknown Hnew.
  { cbn. split; [by rewrite app_nil_r|]. intros f. split; [by left|]. intros [?|(file & Hf & _)]; [done|].
    by apply elem_of_nil in Hf. }
  apply Forall_cons in Hs as [Hfile Hs]. rewrite fmap_cons in Hnd. apply NoDup_cons in Hnd as [Hno Hnd].
  cbn [foldl]. unfold apply_file at 2. rewrite filter_cons.
  destruct (is_dependency (sf_path file)) eqn:Ed.
  { rewrite decide_False by done. apply IH; [done|done|]. intros g Hg. apply Hnew. by right. }
  rewrite decide_True by done.
  destruct (compile d host (sf_path file) (sf_source file) (sf_comments file) unknown) as [directives unknown1] eqn:Ec.
  assert (Hc : ∀ f, unknown1 = unknown ++ mjoin (comment_unknown d host (sf_path file) <$> sf_comments file) ∧
    (match directives with Some fd => file_suppresses fd f = true | None => False end ↔
     suppressed_in (sf_source file) (sf_comments file) f)).
  { intros f. pose proof (compile_spec (sf_path file) (sf_source file) (sf_comments file) unknown f Hfile) as H.
    by rewrite Ec in H. }
  set (by_path1 := match directives with Some fd => <[sf_path file := fd]> by_path | None => by_path end).
  specialize (IH Hs Hnd by_path1 unknown1).
  destruct (foldl (apply_file d host is_dependency) (by_path1, unknown1) files) as [by_path' unknown'].
  destruct IH as [-> Hsup].
  { intros g Hg. assert (Hne : sf_path file ≠ sf_path g).
    { intros E. apply Hno. rewrite E. apply list_elem_of_fmap. by exists g. }
    unfold by_path1. destruct directives; [rewrite lookup_insert_ne by done|]; apply Hnew; by right. }
  destruct (Hc {| fi_id := []; fi_rule := []; fi_kind := []; fi_subject_kind := []; fi_path := []; fi_start_byte := 0 |})
    as [-> _].
  split; [by rewrite <- app_assoc|]. intros f. rewrite Hsup. destruct (Hc f) as [_ Hf].
  assert (Hfirst : (match by_path1 !! fi_path f with Some fd => file_suppresses fd f = true | None => False end) ↔
    (match by_path !! fi_path f with Some fd => file_suppresses fd f = true | None => False end) ∨
    sf_path file = fi_path f ∧ suppressed_in (sf_source file) (sf_comments file) f).
  { unfold by_path1. rewrite <- Hf. destruct (decide (sf_path file = fi_path f)) as [E|Hne].
    - rewrite <- E. rewrite (Hnew file) by (by left). destruct directives as [fd|].
      + rewrite lookup_insert_eq. tauto.
      + rewrite (Hnew file) by (by left). tauto.
    - destruct directives as [fd|]; [rewrite lookup_insert_ne by done|]; tauto. }
  rewrite Hfirst. split.
  - intros [[?|[? ?]]|(g & Hg & ? & ?)]; [by left|right; exists file; split; [by left|done]|].
    right. exists g. split; [by right|done].
  - intros [?|(g & [->|Hg]%elem_of_cons & ? & ?)]; [by left; left|left; by right|]. right. by exists g.
Qed.
End apply.

(** ** Notices *)

Lemma text_cmp_order : cmp_order text_cmp.
Proof.
  split.
  - intros a. induction a as [|x a IH]; intros [|y b]; simpl; [done..|]. unfold then_cmp.
    destruct (N.compare_spec x y) as [->|?|?]; [rewrite IH; split; [by intros ->|congruence]|split; [done|]..];
      intros [= -> ->]; lia.
  - intros a. induction a as [|x a IH]; intros [|y b]; simpl; [done..|]. rewrite (N.compare_antisym x y).
    unfold then_cmp. destruct (x ?= y)%N; simpl; [apply IH|done|done].
  - intros a. induction a as [|x a IH]; intros [|y b] [|z c]; simpl; try done. unfold then_cmp.
    destruct (N.compare_spec x y) as [->|Hxy|?]; [| |done].
    + destruct (N.compare_spec y z) as [->|?|?]; [apply IH|done|done].
    + intros _. destruct (N.compare_spec y z) as [->|?|?]; [|intros _|done].
      * intros _. by destruct (N.compare_spec x z) as [->|?|?]; [lia|done|lia].
      * by destruct (N.compare_spec x z) as [->|?|?]; [lia|done|lia].
Qed.

Lemma span_cmp_order : cmp_order span_cmp.
Proof.
  unfold span_cmp. apply (cmp_then sp_start sp_end); [apply N_cmp_order..|]. intros [] []; simpl; congruence.
Qed.

Lemma use_cmp_order : cmp_order use_cmp.
Proof.
  unfold use_cmp. apply (cmp_then fst snd); [apply text_cmp_order|apply span_cmp_order|].
  intros [] []; simpl; congruence.
Qed.

(** A sorted list without duplicates increases. *)
Lemma sorted_increasing {A} (cmp : A → A → comparison) (l : list A) : cmp_order cmp → NoDup l →
  StronglySorted (cmp_le cmp) l → StronglySorted (λ a b, cmp a b = Lt) l.
Proof.
  intros Hc Hnd Hs. induction Hs as [|a l Hs IH Ha]; [constructor|]. apply NoDup_cons in Hnd as [Hno Hnd].
  constructor; [by apply IH|]. rewrite Forall_forall in *. intros b Hb.
  destruct (cmp_le_cases cmp Hc a b (Ha b Hb)) as [->|?]; [by destruct Hno|done].
Qed.

Definition use_of (u : UnknownName) : text * Span := (un_path u, un_span u).

Lemma sites_spec unknown : ∀ sites name, foldl add_site sites unknown !! name =
  match filter (λ u, un_name u = name) unknown with
  | [] => sites !! name
  | us => Some (default [] (sites !! name) ++ (use_of <$> us))
  end.
Proof.
  induction unknown as [|u unknown IH]; intros sites name; [done|]. cbn [foldl].
  rewrite IH, filter_cons. unfold add_site. rewrite lookup_insert. destruct (decide (un_name u = name)) as [->|Hne].
  - destruct (filter _ unknown); [done|]. simpl. by rewrite <- app_assoc.
  - done.
Qed.

(** What a notice of a name holds. *)
Definition notice_of (unknown : list UnknownName) (notice : Notice) : Prop :=
  StronglySorted (λ a b, use_cmp a b = Lt) (no_primary notice :: no_related notice) ∧
  ∀ use, use ∈ no_primary notice :: no_related notice ↔
    ∃ u, u ∈ unknown ∧ un_name u = no_name notice ∧ use_of u = use.

Definition name_notice (sites : gmap text (list (text * Span))) (name : text) : option Notice :=
  uses ← sites !! name;
  unknown_suppression_finding name (dedup (merge_sort (cmp_le use_cmp) uses)).

Lemma site_lookup unknown name : foldl add_site ∅ unknown !! name =
  match filter (λ u, un_name u = name) unknown with [] => None | us => Some (use_of <$> us) end.
Proof. rewrite sites_spec, lookup_empty. by destruct (filter _ unknown). Qed.

Lemma named_unknown (unknown : list UnknownName) u :
  u ∈ unknown → u ∈ filter (λ u', un_name u' = un_name u) unknown.
Proof. intros Hu. by apply list_elem_of_filter. Qed.

Lemma name_notice_spec unknown name : name ∈ un_name <$> unknown →
  ∃ notice, name_notice (foldl add_site ∅ unknown) name = Some notice ∧ no_name notice = name ∧
    notice_of unknown notice.
Proof.
  intros (u & -> & Hu)%list_elem_of_fmap. unfold name_notice. rewrite site_lookup.
  pose proof (named_unknown unknown u Hu) as Hf.
  destruct (filter (λ u', un_name u' = un_name u) unknown) as [|v us] eqn:E; [by apply elem_of_nil in Hf|].
  cbn [mbind option_bind]. rewrite <- E. clear Hf.
  set (uses := use_of <$> filter (λ u', un_name u' = un_name u) unknown).
  assert (Hd : ∀ use, use ∈ dedup (merge_sort (cmp_le use_cmp) uses) ↔
    ∃ u', u' ∈ unknown ∧ un_name u' = un_name u ∧ use_of u' = use).
  { intros use. rewrite elem_of_sort_dedup. unfold uses. rewrite list_elem_of_fmap.
    setoid_rewrite list_elem_of_filter. naive_solver. }
  pose proof (sort_dedup_increasing use_cmp use_cmp_order uses) as Hinc.
  destruct (dedup (merge_sort (cmp_le use_cmp) uses)) as [|first others] eqn:Ed.
  - exfalso. assert (Hbad : use_of u ∈ []) by (apply Hd; by exists u). by apply elem_of_nil in Hbad.
  - eexists. split; [reflexivity|]. done.
Qed.

Lemma site_names unknown name :
  name ∈ (map_to_list (foldl add_site ∅ unknown)).*1 ↔ name ∈ un_name <$> unknown.
Proof.
  rewrite list_elem_of_fmap. transitivity (is_Some (foldl add_site ∅ unknown !! name)).
  - split; [intros ([k v] & -> & Hkv%elem_of_map_to_list); by eexists|].
    intros [v Hv]. exists (name, v). split; [done|by apply elem_of_map_to_list].
  - rewrite site_lookup, list_elem_of_fmap. split.
    + destruct (filter _ unknown) as [|u us] eqn:E; [by intros []|]. intros _. exists u.
      assert (Hf : u ∈ filter (λ u', un_name u' = name) unknown) by (rewrite E; by left).
      apply list_elem_of_filter in Hf as [? ?]. done.
    + intros (u & -> & Hu). pose proof (named_unknown unknown u Hu) as Hf.
      destruct (filter (λ u', un_name u' = un_name u) unknown); [by apply elem_of_nil in Hf|by eexists].
Qed.

(** The notices: one for each distinct name, in order, with all of its uses. *)
Lemma notices_spec unknown : ∃ notices, unknown_name_findings unknown = Some notices ∧
  StronglySorted (λ a b, text_cmp a b = Lt) (no_name <$> notices) ∧
  (∀ name, name ∈ no_name <$> notices ↔ name ∈ un_name <$> unknown) ∧
  Forall (notice_of unknown) notices.
Proof.
  unfold unknown_name_findings. fold (name_notice (foldl add_site ∅ unknown)).
  set (names := merge_sort (cmp_le text_cmp) (map_to_list (foldl add_site ∅ unknown)).*1).
  assert (Hp : names ≡ₚ (map_to_list (foldl add_site ∅ unknown)).*1) by apply merge_sort_Permutation.
  assert (Hin : ∀ name, name ∈ names ↔ name ∈ un_name <$> unknown).
  { intros name. by rewrite Hp, site_names. }
  assert (Hsorted : StronglySorted (λ a b, text_cmp a b = Lt) names).
  { apply sorted_increasing; [apply text_cmp_order|rewrite Hp; apply NoDup_fst_map_to_list|].
    apply StronglySorted_merge_sort; [apply (cmp_le_trans text_cmp text_cmp_order)|apply (cmp_le_total text_cmp text_cmp_order)]. }
  assert (Hall : Forall (λ name, name ∈ un_name <$> unknown) names) by (apply Forall_forall; apply Hin).
  assert (Hm : ∃ notices, mapM (name_notice (foldl add_site ∅ unknown)) names = Some notices ∧
    no_name <$> notices = names ∧ Forall (notice_of unknown) notices).
  { clearbody names. clear -Hall. induction Hall as [|name names Hname _ (notices & E & Hn & Hf)]; [by exists []|].
    destruct (name_notice_spec unknown name Hname) as (notice & E1 & Hn1 & Hf1).
    exists (notice :: notices). cbn [mapM]. rewrite E1. cbn [mbind option_bind]. rewrite E. cbn [mbind option_bind].
    split; [done|]. split; [by rewrite fmap_cons, Hn1, Hn|by constructor]. }
  destruct Hm as (notices & E & Hn & Hf). exists notices. rewrite Hn. done.
Qed.
