(* ===== verification/SuppressionTheorems.v ===== *)
(** * What suppression comments promise

    The grammar of a comment, the round trip through it, the line of an offset,
    and exactly which findings the comments of a project remove and which names
    are reported. *)
From Stdlib Require Import ZifyBool ZifyN.
From stdpp Require Import strings.
From S2P Require Import Prelude Order Suppression SuppressionSpec.

(** ** Writing a comment *)

(** A name that reads back: no white space, no comma, no hyphen in front, and
    something inside its quotes. *)
Definition plain (w : text) : Prop :=
  Forall (λ c, c ≠ comma ∧ is_js_space c = false) w ∧ head w ≠ Some hyphen ∧ unquote w ≠ [].

Fixpoint names_text (ws : list text) : text :=
  match ws with
  | [] => []
  | w :: ws => 32%N :: w ++ match ws with [] => [] | _ => comma :: names_text ws end
  end.

Definition comment_text (pad : text) (origin : SuppressionOrigin) (action : SuppressionAction)
    (ws : list text) (justification : option text) : text :=
  (pad ++ origin_text origin ++ action_text action ++ names_text ws) ++
  match justification with Some j => lit " -- " ++ j | None => [] end.

(** Every white space character is followed by something that is no hyphen. *)
Fixpoint calm (l : text) : Prop :=
  match l with
  | [] => True
  | c :: rest =>
      (is_js_space c = true → match rest with d :: _ => d ≠ hyphen | [] => False end) ∧ calm rest
  end.

Lemma justification_calm d rest : d ≠ hyphen → justification_after (d :: rest) = None.
Proof. intros Hd. unfold justification_after. cbn [run_of]. by destruct (N.eqb_spec d hyphen). Qed.

Lemma split_calm l tl : calm l →
  split_loop (l ++ tl) = ('(directive, justification) ← split_loop tl; Some (l ++ directive, justification)).
Proof.
  induction l as [|c l IH]; intros Hl.
  { simpl. by destruct (split_loop tl) as [[? ?]|]. }
  destruct Hl as [Hc Hl]. cbn [app split_loop].
  assert (Hnone : (if is_js_space c then justification_after (l ++ tl) else None) = None).
  { destruct (is_js_space c); [|done]. specialize (Hc eq_refl). destruct l as [|d l]; [done|].
    cbn [app]. by apply justification_calm. }
  rewrite Hnone, (IH Hl). by destruct (split_loop tl) as [[? ?]|].
Qed.

Lemma calm_app w l : Forall (λ c, is_js_space c = false) w → calm l → calm (w ++ l).
Proof.
  intros Hw Hl. induction Hw as [|c w Hc _ IH]; [done|]. cbn [app calm]. split; [|done]. congruence.
Qed.

Lemma calm_pad pad c l : spaces pad → c ≠ hyphen → calm (c :: l) → calm (pad ++ c :: l).
Proof.
  intros Hp Hc Hl. induction Hp as [|s pad Hs Hp IH]; [done|]. cbn [app calm]. split; [|done]. intros _.
  destruct pad as [|s' pad]; [done|]. cbn [app]. apply Forall_cons in Hp as [Hs' _].
  intros ->. by rewrite hyphen_not_space in Hs'.
Qed.

Lemma plain_head w : plain w → ∃ c w', w = c :: w' ∧ c ≠ hyphen ∧ is_js_space c = false.
Proof.
  intros (Hw & Hh & Hq). destruct w as [|c w']; [done|]. exists c, w'. apply Forall_cons in Hw as [[_ ?] _].
  split_and!; [done| |done]. intros ->. by apply Hh.
Qed.

Lemma plain_spaces w : plain w → Forall (λ c, is_js_space c = false) w.
Proof. intros (Hw & _). eapply Forall_impl; [exact Hw|]. by intros c [_ ?]. Qed.

Lemma calm_names ws : Forall plain ws → calm (names_text ws).
Proof.
  induction 1 as [|w ws Hw Hws IH]; [done|]. cbn [names_text].
  destruct (plain_head w Hw) as (c & w' & E & Hc & _). cbn [calm]. split; [by rewrite E|].
  apply calm_app; [by apply plain_spaces|]. destruct ws; [done|]. cbn [calm]. split; [|exact IH]. done.
Qed.

Lemma label_text_spaces origin action :
  Forall (λ c, is_js_space c = false) (origin_text origin ++ action_text action) ∧
  ∃ c rest, origin_text origin ++ action_text action = c :: rest ∧ c ≠ hyphen.
Proof.
  split.
  - apply Forall_forall. intros c Hc. assert (H : forallb (λ c, negb (is_js_space c))
      (origin_text origin ++ action_text action) = true) by by destruct origin, action.
    apply list_elem_of_In in Hc. apply (proj1 (forallb_forall _ _) H) in Hc. by apply negb_true_iff.
  - destruct origin, action; (do 2 eexists; split; [reflexivity|done]).
Qed.

(** The directive of a written comment is all of it but the justification. *)
Lemma comment_directive pad origin action ws justification : spaces pad → Forall plain ws →
  directive_of (comment_text pad origin action ws justification)
    (pad ++ origin_text origin ++ action_text action ++ names_text ws).
Proof.
  intros Hp Hws. apply split_justification_spec. unfold split_justification, comment_text.
  rewrite split_calm.
  - destruct justification as [j|]; cbn [mbind option_bind]; [|by rewrite app_nil_r].
    change (split_loop (lit " -- " ++ j)) with (Some ([] : text, j)). cbn. by rewrite app_nil_r.
  - destruct (label_text_spaces origin action) as [Hl (c & rest & E & Hc)].
    rewrite (app_assoc (origin_text origin)), E. cbn [app]. apply calm_pad; [done|done|].
    change (c :: rest ++ names_text ws) with ((c :: rest) ++ names_text ws). rewrite <- E.
    by apply calm_app, calm_names.
Qed.

Lemma names_text_last ws : Forall plain ws → ∀ c, last (names_text ws) = Some c → is_js_space c = false.
Proof.
  induction 1 as [|w ws Hw Hws IH]; intros c Hc; [done|]. cbn [names_text] in Hc.
  destruct (plain_head w Hw) as (x & w' & E & _). pose proof (plain_spaces w Hw) as Hsp.
  destruct ws as [|w2 ws].
  - rewrite app_nil_r, last_cons in Hc. destruct (last w) as [y|] eqn:Ey.
    + injection Hc as <-. apply last_Some_elem_of in Ey. rewrite Forall_forall in Hsp. by apply Hsp.
    + apply last_None in Ey. congruence.
  - apply IH. rewrite last_cons, last_app, last_cons in Hc.
    destruct (last (names_text (w2 :: ws))) as [y|] eqn:Ey; [done|]. by apply last_None in Ey.
Qed.

Lemma tight_label origin action ws : Forall plain ws →
  tight (origin_text origin ++ action_text action ++ names_text ws).
Proof.
  intros Hws. destruct (label_text_spaces origin action) as [Hl (c & rest & E & _)].
  rewrite app_assoc. split.
  - intros x. rewrite E. intros [= <-]. rewrite E in Hl. by apply Forall_cons in Hl as [? _].
  - intros x Hx. rewrite last_app in Hx. destruct (last (names_text ws)) as [y|] eqn:Ey.
    + injection Hx as <-. by eapply names_text_last.
    + apply last_Some_elem_of in Hx. rewrite Forall_forall in Hl. by apply Hl.
Qed.

Lemma split_on_app sep a b : Forall (λ c, c ≠ sep) a → split_on sep (a ++ sep :: b) = a :: split_on sep b.
Proof.
  induction 1 as [|c a Hc _ IH]; cbn [app split_on]; [by rewrite N.eqb_refl|].
  destruct (N.eqb_spec c sep); [done|]. by rewrite IH.
Qed.

Lemma split_on_none sep a : Forall (λ c, c ≠ sep) a → split_on sep a = [a].
Proof.
  induction 1 as [|c a Hc _ IH]; [done|]. cbn [split_on]. destruct (N.eqb_spec c sep); [done|]. by rewrite IH.
Qed.

Lemma trim_plain w : plain w → trim (32%N :: w) = w.
Proof.
  intros Hw. apply trim_trimmed. exists [32%N], []. rewrite app_nil_r. split_and!; [done|by constructor|constructor|].
  pose proof (plain_spaces w Hw) as Hsp. rewrite Forall_forall in Hsp. split; intros c Hc; apply Hsp.
  - destruct w; [done|]. injection Hc as <-. by left.
  - by apply last_Some_elem_of.
Qed.

(** A name as the author writes it: bare, or between two equal quotes. *)
Definition written (w : option N * text) : text :=
  match w.1 with Some quote => quote :: w.2 ++ [quote] | None => w.2 end.

Definition writable (w : option N * text) : Prop :=
  w.2 ≠ [] ∧ Forall (λ c, c ≠ comma ∧ is_js_space c = false) w.2 ∧
  match w.1 with
  | Some quote => quote = 34%N ∨ quote = 39%N
  | None => ∀ c, head w.2 = Some c → c ≠ hyphen ∧ c ≠ 34%N ∧ c ≠ 39%N
  end.

Lemma unquote_written w : writable w → unquote (written w) = w.2.
Proof.
  destruct w as [[quote|] name]; intros (Hne & _ & Hq); cbn [written fst snd] in *.
  - unfold unquote. rewrite last_cons, last_snoc, N.eqb_refl, removelast_last. cbn [length].
    rewrite length_app. cbn [length]. destruct Hq as [-> | ->]; cbn [N.eqb orb andb];
      (replace (2 <=? S (length name + 1))%nat with true by (symmetry; apply Nat.leb_le; lia)); done.
  - destruct name as [|c name]; [done|]. destruct (Hq c eq_refl) as (_ & H1 & H2). unfold unquote.
    rewrite last_cons. destruct (N.eqb_spec c 34), (N.eqb_spec c 39); try done. by destruct (last name).
Qed.

Lemma plain_written w : writable w → plain (written w).
Proof.
  intros Hw. pose proof (unquote_written w Hw) as E. destruct Hw as (Hne & Hc & Hq).
  unfold plain. rewrite E. split_and!; [| |done]; destruct w as [[quote|] name]; cbn [written fst snd] in *.
  - apply Forall_cons. split; [by destruct Hq as [-> | ->]|]. apply Forall_app. split; [done|].
    apply Forall_singleton. by destruct Hq as [-> | ->].
  - done.
  - destruct Hq as [-> | ->]; done.
  - intros Hh. by destruct (Hq _ Hh).
Qed.

Lemma names_read_back ws : Forall plain ws →
  filter nonempty_text ((λ name, unquote (trim name)) <$> split_on comma (names_text ws)) = unquote <$> ws.
Proof.
  induction 1 as [|w ws Hw Hws IH]; [done|]. cbn [names_text].
  assert (Hcomma : Forall (λ c, c ≠ comma) (32%N :: w)).
  { constructor; [done|]. destruct Hw as (Hw & _). eapply Forall_impl; [exact Hw|]. by intros c [? _]. }
  destruct ws as [|w2 ws].
  - rewrite app_nil_r, (split_on_none comma _ Hcomma). cbn [fmap list_fmap].
    rewrite (trim_plain w Hw), filter_cons_True; [done|apply Hw].
  - change (32%N :: w ++ comma :: names_text (w2 :: ws)) with ((32%N :: w) ++ comma :: names_text (w2 :: ws)).
    rewrite (split_on_app comma _ _ Hcomma), !fmap_cons, (trim_plain w Hw), filter_cons_True; [|apply Hw].
    by rewrite IH.
Qed.

(** ** The patterns with JavaScript's white space *)

(** ECMAScript's [WhiteSpace] (tab, vertical tab, form feed, the byte order mark
    and Unicode's space separators) and [LineTerminator]: what [\s] matches and
    [String.prototype.trim] removes. *)
Definition js_white_space (c : N) : bool :=
  existsb (N.eqb c) [0x9; 0xB; 0xC; 0xFEFF; 0x20; 0xA0; 0x1680; 0x2000; 0x2001; 0x2002; 0x2003; 0x2004;
    0x2005; 0x2006; 0x2007; 0x2008; 0x2009; 0x200A; 0x202F; 0x205F; 0x3000]%N ||
  existsb (N.eqb c) [0xA; 0xD; 0x2028; 0x2029]%N.

(** The code's white space is JavaScript's and U+0085. *)
Lemma js_space_spec c : is_js_space c = js_white_space c || (c =? 0x85)%N.
Proof.
  apply eq_bool_prop_intro. unfold is_js_space, is_whitespace, js_white_space. cbn [existsb].
  rewrite !Is_true_true, !orb_true_iff, !andb_true_iff, !N.eqb_eq, !N.leb_le. split; lia.
Qed.

Section patterns.
Context (space : N → bool).

(** The text without the white space around it. *)
Definition trimmed_by (l core : text) : Prop :=
  ∃ before after, l = before ++ core ++ after ∧
    Forall (λ c, space c = true) before ∧ Forall (λ c, space c = true) after ∧
    (∀ c, head core = Some c → space c = false) ∧ (∀ c, last core = Some c → space c = false).

(** [/\s-{2,}\s/] matches at a position. *)
Definition matches_by (l : text) (i : nat) (after : text) : Prop :=
  ∃ s hyphens e, drop i l = s :: hyphens ++ e :: after ∧ space s = true ∧ space e = true ∧
    Forall (λ c, c = hyphen) hyphens ∧ 2 ≤ length hyphens.

(** The text before the first match, or all of it. *)
Definition directive_by (l directive : text) : Prop :=
  (∃ i after, matches_by l i after ∧ (∀ k after', k < i → ¬ matches_by l k after') ∧ directive = take i l) ∨
  ((∀ i after, ¬ matches_by l i after) ∧ directive = l).

(** White space or the end follows. *)
Definition bounded_by (rest : text) : Prop := ∀ c, head rest = Some c → space c = true.

(** A comment's meaning: a directive, in it a label with white space or the end
    behind it, and the names behind the label between commas. *)
Definition comment_says (l : text) (line_comment : bool) (origin : SuppressionOrigin)
    (action : SuppressionAction) (names : list text) : Prop :=
  ∃ directive label rest parts, directive_by l directive ∧ trimmed_by directive (label ++ rest) ∧
    words label ∧ bounded_by rest ∧ label = origin_text origin ++ action_text action ∧
    (line_comment = true → line_scoped action = true) ∧
    Forall2 trimmed_by (split_on comma rest) parts ∧
    names = filter nonempty_text (unquote <$> parts).
End patterns.

(** Whether a character is white space matters for the characters of the text
    alone. *)
Section agree.
Context (s1 s2 : N → bool).

Definition agree_on (l : text) : Prop := ∀ c, c ∈ l → s1 c = s2 c.

Lemma agree_part l k : (∀ c, c ∈ k → c ∈ l) → agree_on l → agree_on k.
Proof. intros Hk Hl c Hc. by apply Hl, Hk. Qed.

Lemma agree_forall l : agree_on l → Forall (λ c, s1 c = true) l → Forall (λ c, s2 c = true) l.
Proof. intros Hl. rewrite !Forall_forall. intros H c Hc. rewrite <-Hl by done. by apply H. Qed.

Lemma agree_trimmed l core : agree_on l → trimmed_by s1 l core → trimmed_by s2 l core.
Proof.
  intros Hl (before & after & -> & Hb & Ha & Hh & Ht). exists before, after. split_and!; [done| | | |].
  - eapply agree_forall; [|exact Hb]. eapply agree_part; [|exact Hl]. set_solver.
  - eapply agree_forall; [|exact Ha]. eapply agree_part; [|exact Hl]. set_solver.
  - intros c Hc. rewrite <-Hl; [by apply Hh|]. apply head_Some_elem_of in Hc. set_solver.
  - intros c Hc. rewrite <-Hl; [by apply Ht|]. apply last_Some_elem_of in Hc. set_solver.
Qed.

Lemma agree_matches l i after : agree_on l → matches_by s1 l i after → matches_by s2 l i after.
Proof.
  intros Hl (s & hs & e & E & Hs & He & Hhs & Hlen). exists s, hs, e.
  assert (Hin : ∀ c, c ∈ s :: hs ++ e :: after → c ∈ l).
  { intros c Hc. rewrite <-(take_drop i l), E. set_solver. }
  split_and!; [done| | |done|done]; rewrite <-Hl; try done; apply Hin; set_solver.
Qed.
End agree.

Lemma agree_sym s1 s2 l : agree_on s1 s2 l → agree_on s2 s1 l.
Proof. intros Hl c Hc. symmetry. by apply Hl. Qed.

Lemma agree_directive s1 s2 l d : agree_on s1 s2 l → directive_by s1 l d → directive_by s2 l d.
Proof.
  intros Hl [(i & after & Hm & Hno & ->)|[Hno ->]].
  - left. exists i, after. split_and!; [by eapply agree_matches| |done].
    intros k after' Hk Hm'. eapply Hno; [done|]. eapply agree_matches; [by apply agree_sym|done].
  - right. split; [|done]. intros i after Hm. eapply Hno, agree_matches; [by apply agree_sym|done].
Qed.

Lemma split_on_part sep l part c : part ∈ split_on sep l → c ∈ part → c ∈ l.
Proof.
  revert part. induction l as [|x l IH]; intros part; simpl.
  { intros ->%list_elem_of_singleton Hc. by apply elem_of_nil in Hc. }
  destruct (x =? sep)%N.
  - intros [->|Hp]%elem_of_cons Hc; [by apply elem_of_nil in Hc|]. right. by eapply IH.
  - destruct (split_on sep l) as [|p ps].
    + intros ->%list_elem_of_singleton Hc. apply list_elem_of_singleton in Hc as ->. by left.
    + intros [->|Hp]%elem_of_cons Hc.
      * apply elem_of_cons in Hc as [->|Hc]; [by left|]. right. eapply IH; [by left|done].
      * right. eapply IH; [by right|done].
Qed.

Lemma agree_says s1 s2 l line_comment origin action names : agree_on s1 s2 l →
  comment_says s1 l line_comment origin action names → comment_says s2 l line_comment origin action names.
Proof.
  intros Hl (d & label & rest & parts & Hd & Ht & Hw & Hb & -> & Hline & Hp & ->).
  assert (Hdl : ∀ c, c ∈ d → c ∈ l).
  { intros c Hc. destruct Hd as [(i & after & _ & _ & ->)|[_ ->]]; [|done].
    rewrite <-(take_drop i l). apply elem_of_app. by left. }
  assert (Hrl : ∀ c, c ∈ rest → c ∈ l).
  { intros c Hc. apply Hdl. destruct Ht as (b & a & -> & _). set_solver. }
  eexists d, _, rest, parts. split_and!; [by eapply agree_directive| |done| |done|done| |done].
  - eapply agree_trimmed; [|done]. by eapply agree_part.
  - intros c Hc. rewrite <-Hl; [by apply Hb|]. apply Hrl. by apply head_Some_elem_of.
  - apply Forall2_same_length_lookup. apply Forall2_same_length_lookup in Hp as [Hlen Hp]. split; [done|].
    intros i x y Hx Hy. eapply agree_trimmed; [|by eapply Hp]. eapply agree_part; [|done].
    intros c Hc. apply Hrl. by eapply split_on_part; [eapply list_elem_of_lookup_2|].
Qed.

(** The code reads the patterns with its own white space. *)
Lemma parse_says l line_comment origin action names :
  parse_suppression l line_comment = Some (origin, action, names) ↔
  comment_says is_js_space l line_comment origin action names.
Proof.
  assert (Hnames : ∀ rest parts, Forall2 (trimmed_by is_js_space) (split_on comma rest) parts ↔
    parts = trim <$> split_on comma rest).
  { intros rest parts. split.
    - induction 1 as [|x y xs ys Hxy _ IH]; [done|]. rewrite fmap_cons. f_equal; [|done].
      symmetry. by apply trim_trimmed.
    - intros ->. apply Forall2_fmap_r, Forall_Forall2_diag, Forall_forall. intros x _. by apply trim_trimmed. }
  rewrite parse_suppression_spec. split.
  - intros (directive & rest & ? & Ht & ? & ? & ->).
    exists directive, (origin_text origin ++ action_text action), rest, (trim <$> split_on comma rest).
    rewrite <- app_assoc. split_and!; try done.
    + apply labels_words.
    + by apply Hnames.
    + f_equal. by rewrite <-list_fmap_compose.
  - intros (directive & label & rest & parts & ? & Ht & _ & ? & -> & ? & ->%Hnames & ->). exists directive, rest.
    rewrite <- app_assoc in Ht. split_and!; try done. f_equal. by rewrite <-list_fmap_compose.
Qed.

(** ** The theorems *)

(** C28: the grammar of a suppression comment is the documented one, with
    JavaScript's white space, in every comment without the character U+0085
    (which the code trims and JavaScript does not: see the findings). The
    scanning loops read exactly the patterns they stand for: the directive ends
    at the first match of white space, two hyphens or more, white space;
    trimmed, it is a label of lowercase words joined by single hyphens with
    white space or the end behind it; the label names the family and the
    action; a line comment has a line action; and the names are the parts of the
    rest between commas, trimmed and without quotes, less the empty ones. *)
Theorem suppression_grammar_exact l line_comment origin action names :
  0x85%N ∉ l →
  parse_suppression l line_comment = Some (origin, action, names) ↔
  comment_says js_white_space l line_comment origin action names.
Proof.
  intros Hl. rewrite parse_says.
  assert (Ha : agree_on is_js_space js_white_space l).
  { intros c Hc. rewrite js_space_spec. destruct (N.eqb_spec c 0x85) as [->|]; [done|].
    apply orb_false_r. }
  split; apply agree_says; [done|by apply agree_sym].
Qed.

(** C29: a written comment reads back. White space in front, any family and
    action, names bare or in quotes separated by a comma and a space, and any
    justification: the reader gives the family, the action and the names
    without their quotes. *)
Theorem suppression_round_trip pad origin action ws justification line_comment :
  spaces pad → Forall writable ws → (line_comment = true → line_scoped action = true) →
  parse_suppression (comment_text pad origin action (written <$> ws) justification) line_comment =
    Some (origin, action, snd <$> ws).
Proof.
  intros Hp Hws Hline. set (names := written <$> ws).
  assert (Hplain : Forall plain names) by (apply Forall_fmap; by eapply Forall_impl, plain_written).
  assert (Hread : snd <$> ws = unquote <$> names).
  { unfold names. rewrite <- list_fmap_compose. apply list_fmap_ext. intros i w Hi.
    rewrite Forall_lookup in Hws. symmetry. by eapply unquote_written, Hws. }
  rewrite Hread. clearbody names. clear ws Hws Hread. apply parse_suppression_spec.
  exists (pad ++ origin_text origin ++ action_text action ++ names_text names), (names_text names).
  split_and!; [by apply comment_directive| | |done|by rewrite names_read_back].
  - exists pad, []. rewrite app_nil_r. split_and!; [done|done|constructor|by apply tight_label].
  - intros c. destruct names as [|w names]; [done|]. by intros [= <-].
Qed.

(** C30: lines are counted where ESLint breaks them. In a source below 4 GiB
    the table gives the offset of any character the number of line ends in
    front of it plus one, a [\r\n] ending one line; the starts increase. *)
Theorem line_table_exact before after :
  (byte_len (before ++ after) < 2 ^ 32 - 1)%N →
  line (line_table (before ++ after)) (byte_len before) = (1 + N.of_nat (breaks_before before after))%N ∧
  StronglySorted N.lt (line_table (before ++ after)).
Proof.
  intros Hsize. split; [by apply line_spec|]. unfold line_table.
  destruct (line_starts_above (before ++ after) 0) as [Hab Hs].
  assert (E : u32_sat <$> line_starts 0 (before ++ after) = line_starts 0 (before ++ after)).
  { clear Hs. induction Hab as [|s starts Hs _ IH]; [done|]. rewrite fmap_cons, IH. f_equal. unfold u32_sat. lia. }
  rewrite E. constructor; [done|]. eapply Forall_impl; [exact Hab|]. intros s Hx. cbn beta in Hx. lia.
Qed.

Lemma suppression_comments_sorted source comments : sorted_comments (suppression_comments source comments).
Proof.
  assert (Hs : StronglySorted fact_le (suppression_comments source comments)).
  { apply StronglySorted_merge_sort.
    - intros a b c. unfold fact_le. apply (cmp_le_trans span_cmp span_cmp_order).
    - intros a b. unfold fact_le. apply (cmp_le_total span_cmp span_cmp_order). }
  unfold sorted_comments. induction Hs as [|c l Hs IH Hc]; [constructor|]. constructor; [done|].
  eapply Forall_impl; [exact Hc|]. intros c' Hle. unfold fact_le, cmp_le, span_cmp, then_cmp in Hle.
  destruct (N.compare_spec (sp_start (sc_span c)) (sp_start (sc_span c'))); [lia|lia|done].
Qed.

(** A file as it is read: its comments are those of its source. *)
Definition read_file (file : text * text * list Comment) : SourceFile :=
  {| sf_path := file.1.1; sf_source := file.1.2; sf_comments := suppression_comments file.1.2 file.2 |}.

(** Every name nothing resolves, where it is written. *)
Definition all_unknown (d : Dialect) (host : gset text) (is_dependency : text → bool)
    (files : list SourceFile) : list UnknownName :=
  mjoin ((λ file, mjoin (comment_unknown d host (sf_path file) <$> sf_comments file))
    <$> own_files is_dependency files).

(** C10: suppression removes exactly what a comment covers. Over the files of a
    project, the findings left are the others in order; one is removed when it
    is a violation with a site in a project file of its own, and there, of one
    comment family, a comment reaching it covers its line or the last switch
    reaching it, at or before it, is a disable. A notice is given for each
    distinct name nothing resolves, in order, with each of its uses once. *)
Theorem suppression_applied_exact (d : Dialect) (host : gset text) (is_dependency : text → bool)
    (sources : list (text * text * list Comment)) (findings : list Finding) :
  NoDup (sources.*1.*1) →
  let files := read_file <$> sources in
  ∃ gone notices,
    apply d host is_dependency files findings = Some (filter (λ f, gone f = false) findings, notices) ∧
    (∀ f, gone f = true ↔
       fi_kind f = lit "violation" ∧ fi_subject_kind f ≠ lit "project" ∧
       ∃ file, file ∈ files ∧ is_dependency (sf_path file) = false ∧ sf_path file = fi_path f ∧
         suppressed_in d host (sf_source file) (sf_comments file) f) ∧
    StronglySorted (λ a b, text_cmp a b = Lt) (no_name <$> notices) ∧
    (∀ name, name ∈ no_name <$> notices ↔ name ∈ un_name <$> all_unknown d host is_dependency files) ∧
    Forall (notice_of (all_unknown d host is_dependency files)) notices.
Proof.
  intros Hnd files.
  assert (Hpaths : sf_path <$> files = sources.*1.*1).
  { unfold files. rewrite <- !list_fmap_compose. apply list_fmap_ext. by intros. }
  pose proof (apply_files_spec d host is_dependency files) as Hfold. unfold apply.
  specialize (Hfold ltac:(apply Forall_fmap, Forall_forall; intros; apply suppression_comments_sorted)
    ltac:(by rewrite Hpaths) ∅ [] ltac:(intros; apply lookup_empty)).
  destruct (foldl (apply_file d host is_dependency) (∅, []) files) as [by_path unknown].
  destruct Hfold as [-> Hsup]. cbn [app]. fold (all_unknown d host is_dependency files).
  destruct (notices_spec (all_unknown d host is_dependency files)) as (notices & -> & Hn1 & Hn2 & Hn3).
  exists (removed by_path), notices. cbn [mbind option_bind]. split; [|split; [|done]].
  - f_equal. f_equal. unfold retain_unsuppressed. case_decide as He; [|done]. subst by_path.
    clear. induction findings as [|f findings IH]; [done|]. rewrite filter_cons_True, <- IH; [done|].
    unfold removed. rewrite lookup_empty. apply andb_false_r.
  - intros f. unfold removed. rewrite !andb_true_iff, !bool_decide_eq_true.
    assert (Hf : (match by_path !! fi_path f with Some fd => file_suppresses fd f | None => false end) = true ↔
      ∃ file, file ∈ own_files is_dependency files ∧ sf_path file = fi_path f ∧
        suppressed_in d host (sf_source file) (sf_comments file) f).
    { specialize (Hsup f). rewrite lookup_empty in Hsup. destruct (by_path !! fi_path f); naive_solver. }
    rewrite Hf. unfold own_files. setoid_rewrite list_elem_of_filter. naive_solver.
Qed.

(** ** Corners *)

(** Where a name may reach: in an [eslint-*] comment only the two plugin
    namespaces are read, codes are named in [solid-checker-*] comments only,
    and a name is reported only in the checker's own namespace and only when
    the catalog has no such rule. *)
Lemma resolve_scopes d origin written :
  match resolve d origin written with
  | Matchers ms => ∀ m code, m ∈ ms → m = Code code → origin = SolidChecker ∧ has_code d code = true
  | Inert => True
  | Unknown => ∃ name, has_rule d name = false ∧
      (written = lit "solid-checker/" ++ name ∨ origin = SolidChecker ∧ written = name)
  end.
Proof.
  assert (Hname : ∀ name codes, match checker_name d name codes with
    | Matchers ms => ∀ m code, m ∈ ms → m = Code code → codes = true ∧ has_code d code = true
    | Inert => True
    | Unknown => has_rule d name = false end).
  { intros name codes. unfold checker_name. destruct (listed name ADAPTER_RULE_IDS); [done|].
    destruct (rule_group name) as [members|].
    { by intros m code (x & -> & _)%list_elem_of_fmap. }
    destruct (has_rule d (default name (rule_alias name))) eqn:Er.
    { intros m code ->%list_elem_of_singleton. by destruct (rule_alias_code name). }
    destruct (codes && has_code d name) eqn:Ec.
    { apply andb_true_iff in Ec as [-> Hc]. by intros m code ->%list_elem_of_singleton [= ->]. }
    destruct (codes && retired_code name); [done|].
    destruct (rule_alias name) as [other|]; [done|]. destruct (retired_rule name); [done|]. exact Er. }
  unfold resolve. destruct (strip_prefix (lit "solid-checker/") written) as [name|] eqn:E1.
  - apply strip_prefix_spec in E1. specialize (Hname name (bool_decide (origin = SolidChecker))).
    destruct (checker_name d name _); [|done|by exists name; auto].
    intros m code Hm E. destruct (Hname m code Hm E) as [Ho ?]. by apply bool_decide_eq_true in Ho.
  - destruct (strip_prefix (lit "solid/") written) as [name|].
    + destruct (listed name UPSTREAM_RULE_NAMES); [|done]. specialize (Hname name false).
      destruct (checker_name d name false); [|done|done]. intros m code Hm E. by destruct (Hname m code Hm E).
    + destruct (decide (origin = SolidChecker)) as [->|]; [|done]. specialize (Hname written true).
      destruct (checker_name d written true); [|done|by exists written; auto].
      intros m code Hm E. by destruct (Hname m code Hm E).
Qed.

(** U+0085 is trimmed, though it is no white space of JavaScript's: a comment
    with it in front is read here and not by ESLint. *)
Lemma next_line_character_trimmed :
  is_js_space 0x85 = true ∧ parse_suppression (0x85%N :: lit "eslint-disable") false = Some (Eslint, Disable, []).
Proof. split; vm_compute; reflexivity. Qed.

(** ** Witnesses *)

Lemma suppression_grammar_exact_witness :
  parse_suppression (lit " eslint-disable a -- why") false = Some (Eslint, Disable, [lit "a"]) ∧
  comment_says js_white_space (lit " eslint-disable a -- why") false Eslint Disable [lit "a"].
Proof.
  split; [vm_compute; reflexivity|].
  apply (suppression_grammar_exact (lit " eslint-disable a -- why")).
  - apply (bool_decide_unpack _). vm_compute. exact I.
  - vm_compute. reflexivity.
Defined.

Definition words_a : list (option N * text) := [(None, lit "solid-checker/a"); (Some 34%N, lit "b")].

Lemma words_a_writable : Forall writable words_a.
Proof.
  constructor; [|constructor; [|constructor]]; (split_and!; [done|by repeat constructor|]).
  - by intros c [= <-].
  - by left.
Qed.

Lemma suppression_round_trip_witness :
  parse_suppression
    (comment_text [32%N; 9%N] Eslint DisableNextLine (written <$> words_a) (Some (lit "because -- so"))) true =
    Some (Eslint, DisableNextLine, [lit "solid-checker/a"; lit "b"]).
Proof.
  assert (Hpad : spaces [32%N; 9%N]) by (by repeat constructor).
  exact (suppression_round_trip [32%N; 9%N] Eslint DisableNextLine words_a (Some (lit "because -- so")) true
    Hpad words_a_writable (λ _, eq_refl)).
Defined.

Lemma line_table_exact_witness :
  line (line_table ([97; 13; 10] ++ [98; 0x2028; 99])%N) (byte_len [97; 13; 10]%N) =
    (1 + N.of_nat (breaks_before [97; 13; 10] [98; 0x2028; 99]))%N ∧
  StronglySorted N.lt (line_table ([97; 13; 10] ++ [98; 0x2028; 99])%N).
Proof.
  assert (Hsize : (byte_len ([97; 13; 10] ++ [98; 0x2028; 99]) < 2 ^ 32 - 1)%N) by (vm_compute; reflexivity).
  exact (line_table_exact [97; 13; 10]%N [98; 0x2028; 99]%N Hsize).
Defined.

(** A file with a comment in front of one finding, and the catalog of one rule. *)
Definition dialect_a : Dialect :=
  {| has_rule := λ name, bool_decide (name = lit "a"); has_code := λ _, false |}.

Definition source_a : text := lit "// solid-checker-disable-next-line a, c" ++ 10%N :: lit "X;Y".

Definition sources_a : list (text * text * list Comment) :=
  [(lit "f.ts", source_a,
    [{| cm_span := {| sp_start := 0; sp_end := 39 |}; cm_content := {| sp_start := 2; sp_end := 39 |};
        cm_line := true; cm_block := false |}])].

Definition finding_a (rule kind : string) (at_ : N) : Finding :=
  {| fi_id := lit "SC1"; fi_rule := lit rule; fi_kind := lit kind; fi_subject_kind := [];
     fi_path := lit "f.ts"; fi_start_byte := at_ |}.

Definition findings_a : list Finding :=
  [finding_a "a" "violation" 40; finding_a "b" "violation" 42; finding_a "a" "uncertifiable" 40].

Lemma suppression_applied_exact_witness :
  ∃ gone notices,
    apply dialect_a ∅ (λ _, false) (read_file <$> sources_a) findings_a =
      Some (filter (λ f, gone f = false) findings_a, notices) ∧
    (∀ f, gone f = true ↔
       fi_kind f = lit "violation" ∧ fi_subject_kind f ≠ lit "project" ∧
       ∃ file, file ∈ read_file <$> sources_a ∧ (λ _ : text, false) (sf_path file) = false ∧
         sf_path file = fi_path f ∧ suppressed_in dialect_a ∅ (sf_source file) (sf_comments file) f) ∧
    StronglySorted (λ a b, text_cmp a b = Lt) (no_name <$> notices) ∧
    (∀ name, name ∈ no_name <$> notices ↔
       name ∈ un_name <$> all_unknown dialect_a ∅ (λ _, false) (read_file <$> sources_a)) ∧
    Forall (notice_of (all_unknown dialect_a ∅ (λ _, false) (read_file <$> sources_a))) notices.
Proof.
  exact (suppression_applied_exact dialect_a ∅ (λ _, false) sources_a findings_a (NoDup_singleton _)).
Defined.

(** In the sample the first finding is removed, and [c] is reported. *)
Lemma sources_a_applied :
  match apply dialect_a ∅ (λ _, false) (read_file <$> sources_a) findings_a with
  | Some (kept, notices) => length kept = 2 ∧ map no_name notices = [lit "c"]
  | None => False
  end.
Proof. by vm_compute. Qed.
